(* ===== verification/_CoqProject ===== *)
-Q . S2P
Prelude.v
Bytes.v
PlaybackWire.v
Audio.v
AudioProps.v
Capture.v
CaptureInv.v
CaptureProps.v
Transport.v
TransportInv.v
TransportProps.v
Ingress.v
StrOps.v
CacheRef.v
Sql.v
StoreTypes.v
Redact.v
TurnPack.v
TurnProps.v
RecordParser.v
RecordCapture.v
RedactProps.v
RecordLexing.v
RecordAutomaton.v
RecordEquiv.v
StoreJobs.v
StoreRollout.v
StoreSummary.v
StorePlayback.v
SummaryInv.v
SummaryOps.v
SummaryClaims.v
SummaryPublish.v
PlaybackOps.v
StoreSystem.v
SummaryWedge.v
HostPlayback.v
HostPlaybackProps.v
Summary.v
CacheCodec.v
TtsCache.v
WsFrames.v
WsFramesProps.v
Secrets.v
TtsSession.v
TtsSays.v
TtsPhases.v
TtsSpeech.v
TtsHttp.v
TtsHttpProps.v
SpeechDemo.v
CacheTree.v
CacheOps.v
CacheOpen.v
CacheProps.v
CacheReconcile.v
Orchestrator.v
OrchestratorProps.v
SpeechOnce.v
SummaryWorker.v
SparkRunner.v
Catalog.v
CatalogProps.v
PromptQueue.v
SchedulerProps.v
Control.v
ControlProps.v
HostLoop.v
HostLoopProps.v
Provisioning.v
ProvisioningProps.v
StoreProps.v
SecretsProps.v
SparkProps.v
HostDemo.v
RolloutScan.v
RolloutReplay.v
RolloutLoop.v
RolloutTail.v
RolloutDemo.v
