(* ===== verification/Prelude.v ===== *)
(** * Codex Keyboard host: a verification library (root file)

    The host of the Codex Keyboard (app/host, Rust) takes voice captures from a keyboard over
    the LAN, turns them into jobs for the Codex application, observes the rollouts of the
    tasks, summarises their completed turns, has the summaries spoken, and plays the speech
    on the keyboard.  This library models the parts of it that decide, and proves what makes
    them correct.  File names of the source are relative to app/host/src.

    ** The parts and how they interact

    - The wire.  lan_playback.rs is [PlaybackWire] (seven packet kinds, their tags and the
      sealed chunks), on top of [Bytes], which also holds [Crypto], the interface of the
      crates hmac, sha2 and aes-gcm.
    - Voice.  The capture half of lan_voice.rs is [Capture] (sessions, frames, the assembler),
      with its invariant in [CaptureInv] and its properties in [CaptureProps].
    - Playback.  The playback half of lan_voice.rs is [Transport] (one transfer with its
      phases, window and timers; [TransportInv], [TransportProps]) and [Ingress] (one
      iteration of the network thread, which dispatches to both halves).
    - Sound.  audio.rs is [Audio] (the ADPCM codec and the containers) with [AudioProps].
    - The state database.  store.rs is [StoreTypes] (tables, constraints, values, checks),
      [Sql] (the fragment of SQL it uses), and one file per group of operations: [StoreJobs]
      (the prompt queue), [StoreRollout] (bindings, cursors, completions), [StoreSummary]
      (the ledger of summaries), [StorePlayback] (leases).  [SummaryInv], [SummaryOps],
      [SummaryClaims], [SummaryPublish], [PlaybackOps] prove the ledger's invariant;
      [StoreSystem] makes every operation a step of one transition system, in which
      [StoreProps] states what holds over whole histories; [SummaryWedge] is about single
      rows across steps.  Object names (the [CacheId] of cache.rs) are [CacheRef].
    - The observer.  rollout_observer.rs is [StrOps] (Rust's [str]), [Redact] (secrets and
      paths; [RedactProps]), [TurnPack] (what is kept of a turn; [TurnProps]), [RecordParser]
      (the streaming parser of long records), [RolloutScan] (reading, verifying and
      committing).  [RecordCapture] has the reference of the parser and the comparison of its
      buffers with it, [RecordLexing], [RecordAutomaton] and [RecordEquiv] the rest; a poll is compared with the reference of [RolloutReplay] in [RolloutLoop] and
      [RolloutTail] ([RolloutDemo] runs both).  The observer reaches the store through the
      class [RolloutStateAccess], as the source's trait does; [RolloutTail] proves its theorem
      against the laws [RolloutStateLaws], which the store satisfies.
    - Summaries.  summary.rs is [Summary], tts_cache.rs is [TtsCache], summary_orchestrator.rs
      and the step of summary_worker.rs are [Orchestrator], for which the language model, the
      speech service and the object cache are classes; its contracts are in
      [OrchestratorProps] and [SpeechOnce].  The loop of summary_worker.rs over the tasks
      (pages, cursor, back-off) is [SummaryWorker].
    - The language model.  spark_runner.rs is [SparkRunner]: the check of the claim, the
      prompt, the audits of the private workspace, the watching of the process, and what is
      made of its output; [SparkProps] compares the audit with a declarative one and says
      what a returned summary went through.
    - Speech.  The speech half of dashscope.rs has the frames of the WebSocket protocol
      ([WsFrames], [WsFramesProps]), the session over them ([TtsSession], a state per session
      and a loop over the service's events; [TtsSays], [TtsPhases], [TtsSpeech]), and the
      client over HTTP, which cuts a text, posts the pieces and fetches the audio
      ([TtsHttp], [TtsHttpProps]); [SpeechDemo] runs them.
    - Prompts.  codex_catalog.rs is [Catalog] (which tasks may be used; [CatalogProps]);
      bindings.rs and prompt_queue.rs are [PromptQueue], a transition system of the scheduler,
      its threads and the store, whose agreement with the queue is [SchedulerProps].
    - The object cache.  cache.rs is [CacheCodec] (the encrypted format of an object),
      [CacheTree] (the directories, with system calls that may fail) and [CacheOps] (scanning,
      publishing, reading, cleaning up).  [CacheProps] says what each operation may change,
      [CacheReconcile] proves the properties of publishing and cleaning up.  [CacheOpen] is
      the opening (the key, the marker that is sealed with it, the lock) with its property,
      against the class [KeepsKey] of what it needs of the store of its key.
    - Secrets.  secrets.rs is [Secrets]: the environment file of the speech key, the trait of
      a secret store with its implementations, the import and the configuration of a key;
      [SecretsProps] proves what they leave behind, and that the private file of the cache's
      key is a [KeepsKey].
    - The host.  Of health.rs, the handling of playback events is [HostPlayback], which joins
      the store, the audio containers and the transport ([HostPlaybackProps]); the local
      control endpoint, whose lines the desktop application and the command line read, is
      [Control] ([ControlProps]); the main loop [serve_until] with its refreshes and its
      clients is [HostLoop] ([HostLoopProps]), as a round of its own ([iteration]) and cut at
      its accesses to the state database ([advance_loop]), between which the other threads
      commit, events and clients arrive and the process may die ([daemon_step]);
      [iteration_advances] says that the two are the same code.  [HostDemo] runs the host's
      components.
    - Provisioning.  provisioning.rs, with the file of the device secret, is [Provisioning],
      together with the receiver in the keyboard (firmware/main/config_receiver.cpp) and what
      usb_hid.cpp does with a report; [ProvisioningProps] puts the two sides together.

    ** What the theorems show

    - Codecs: packets, chunks, cache references, session identities and audio files round
      trip; the parsers of untrusted bytes return on every input and accept only canonical
      input; no chunk key and nonce is used twice.
    - Captures and transfers: what is delivered was assembled from authentic frames, once; a
      transfer stays within its clip and window, ends, and completes with a device that
      answers.
    - Store: recorded completions are never lost, a summary is heard only by finishing its own
      lease, limits hold in every reachable state, stale workers are fenced off, bindings are
      compare-and-swap.
    - Observer: no token that looks like a secret survives redaction; a turn stays within its
      budgets; a record read by the streaming parser is applied as the parsed line is; polling
      a growing file, with restarts, equals one pass over the final file.
    - Prompts: an accepted prompt is queued for the task bound to its key, in a directory the
      catalogue gives; the threads are exactly the running jobs, whatever ends, crashes or
      restarts; a tick records every result and starts what may start.
    - Object cache: publishing is all or nothing whatever system call fails or is never
      reached; cleaning up never changes what the ledger refers to, and changes nothing when
      that does not authenticate; the cache's key is drawn once, whatever attempts to open
      the cache fail or are cut short.
    - Secrets: only a key that the service accepted is installed, and it reads back.
    - Playbacks and runs: leases and playbacks agree at every access of the main loop to the
      database, but for a lease that is being given back; every run of a claim ends
      published, abandoned, refused or with a cached object that it cannot use; the speech of
      a claim is requested at most once.
    - The worker: a task that failed is left alone until its back-off ends, and no task
      starves behind others.
    - The language model: the audit accepts exactly the isolated workspaces; a summary that is
      taken passed every check and is redacted; a run ends, and no process of the child's
      group outlives it; only a process that has left the group can keep it waiting.
    - Speech: a session sends its text and its commit once, whatever the service answers; the
      state of a session is well formed; the speech that is returned is the audio of one
      response, and a complete response is returned; a text that is spoken in pieces is
      spoken whole, and a piece is billed once while the file of the audio can be asked for.
    - The host: the dashboard shows the bindings and the work of the state database, and
      reaches the desktop as it was made; only the surroundings (the database, the sockets,
      the threads) stop the main loop, and within a round everyone who asked is answered;
      after a refresh the lights show what the store says.
    - Provisioning: the configuration that the host sends is the one that the keyboard stores,
      and a receipt means that it was saved; the device secret is created once and kept.
    - Behaviour that is not what the program means to do has its theorem too: a slicing panic
      in the redaction of a URL ([RedactProps], and in [SparkProps] what it does to a Chinese
      summary), a transfer that never times out while sending fails ([TransportProps]), a
      claim that wedges its task ([OrchestratorProps]), speech that is asked for again at
      once after an ambiguous answer ([HostDemo]), a run of the language model that waits
      past its deadline ([SparkProps]), a dashboard that one task hides
      ([HostDemo]), a secret file with signs in it ([ProvisioningProps]), a key with a number
      sign that replaces the old one and cannot be read ([SecretsProps]).

    ** Conventions

    A text or a buffer is a list of bytes ([Z] in 0..255); machine integers are [Z] with the
    width checks of the source written out (overflow that panics is an error value).  Errors
    are values of [result]; a transaction of the store is a function from the database to a
    result with the new database, and an error rolls back.  Crates are classes with their
    documented facts as fields ([Crypto], [Externals], [Serde], [SummarySerde],
    [ManifestSerde], [PromptSerde]) and have computable instances for the witnesses.  The
    clock, random numbers, the file system's answers, what sockets and pipes give and the
    other threads are arguments.

    Fuel: the loops over a text or a buffer have its length (or one more) as fuel, and each
    round consumes at least a byte; [read_loop] has the 4 MiB of one poll as fuel, and each
    round reads at least a byte of them, or ends; the loop over WebSocket frames has the bytes
    that are still to come, and each of its rounds takes some of them; the loop over the
    service's events has the source's own limit on their number.  Where the source reads
    from a socket or polls a process until a deadline, the argument is the list of what the
    reads or polls give, and its end is the deadline (in [SparkRunner.watch] the deadline is
    a flag of the poll, and a list that ends before stands for a loop that still runs; a
    thread that reads a pipe goes on after its list until no process holds the other end).
    The theorem on polling is for files below 2 MiB, half the budget of a poll, because a
    completed turn is read a second time; it is for rollouts whose first append holds the
    whole first line, whose lines are all accepted, and which are still during a poll.

    The other threads: the host's observer and summary worker commit what their eight
    operations of the store allow, at any point of the loop; the devices' events are those the
    transport makes ([event_ok]); an error of SQLite itself is the surroundings' fault and
    not modelled as an answer.

    ** What is not modelled

    Of codex_catalog.rs, the guarded snapshot of the database.  Of secrets.rs, the calls of the
    keychain's API (a keychain is its items and the outcomes of the calls) and the credential
    store of Windows.  Of store.rs, migrations from older schemas and the
    identity checks of its files.  Of rollout_observer.rs, opening files (what the system
    calls answer is a parameter).  Of dashscope.rs, the sockets, TLS, proxies and deadlines,
    the upgrade to WebSocket with its headers, the check of a credential and speech
    recognition.  Of health.rs, the sockets and the start of the daemon.  Of
    summary_worker.rs, the opening of its services.  Of spark_runner.rs, the making and
    sweeping of run directories and their locks, the supervisor process of macOS, the command
    line and the environment, the check of the prompt's isolation; windows_spark_runner.rs
    does the same work with fewer checks.  codex_runner.rs (a process and its pipes), paths.rs, launch_agent.rs, the command line, the
    desktop application and the rest of the firmware are input and output with services of
    the operating system or of third parties. *)

From Stdlib Require Export ZArith Lia.
From stdpp Require Export base tactics numbers list strings option sorting relations.
Export list_basics.list list_relations.list list_monad.list list_misc.list list_numbers.list.

#[global] Open Scope Z_scope.

(** ** Results: Rust's [Result<A, E>] with the [?] operator *)

Inductive result (E A : Type) : Type :=
| Ok (a : A)
| Err (e : E).
Arguments Ok {E A} a.
Arguments Err {E A} e.

Declare Scope result_scope.
Delimit Scope result_scope with result.
#[global] Open Scope result_scope.

Definition rbind {E A B} (m : result E A) (k : A → result E B) : result E B :=
  match m with Ok a => k a | Err e => Err e end.

Notation "'let?' x ':=' m 'in' k" := (rbind m (λ x, k))
  (at level 10, x binder, m at level 100, k at level 200)
  : result_scope.

(** [require c e]: the early return [if !c { return Err(e) }]. *)
Definition require {E} (c : bool) (e : E) : result E unit :=
  if c then Ok tt else Err e.

(** [Result::map_err] *)
Definition map_err {E F A} (f : E → F) (r : result E A) : result F A :=
  match r with Ok a => Ok a | Err e => Err (f e) end.

Definition is_ok {E A} (r : result E A) : Prop := ∃ a, r = Ok a.

Definition of_option {E A} (e : E) (o : option A) : result E A :=
  match o with Some a => Ok a | None => Err e end.

#[export] Instance result_eq_dec {E A} `{EqDecision E, EqDecision A} :
  EqDecision (result E A).
Proof. solve_decision. Defined.

Section results.
Context {E A B : Type}.
Implicit Types (r : result E A) (k : A → result E B).

Lemma rbind_ok r k b : rbind r k = Ok b ↔ ∃ a, r = Ok a ∧ k a = Ok b.
Proof. destruct r; simpl; naive_solver. Qed.

Lemma rbind_err r k e :
  rbind r k = Err e ↔ r = Err e ∨ ∃ a, r = Ok a ∧ k a = Err e.
Proof. destruct r; simpl; naive_solver. Qed.

Lemma require_ok (c : bool) (e : E) u : require c e = Ok u ↔ c = true.
Proof. destruct c, u; simpl; naive_solver. Qed.

Lemma require_err (c : bool) (e e' : E) : require c e = Err e' ↔ c = false ∧ e = e'.
Proof. destruct c; simpl; naive_solver. Qed.
End results.

(** [run_ok H] takes a hypothesis [H : (a computation) = Ok v] apart, one bind
    and one guard at a time. *)
Ltac run_ok_step H :=
  lazymatch type of H with
  | rbind _ _ = Ok _ =>
      let a := fresh "a" in let Ha := fresh "Hrun" in
      apply rbind_ok in H as [a [Ha H]]; cbn beta in H
  | (if ?c then Err _ else _) = Ok _ =>
      let Hc := fresh "Hguard" in destruct c eqn:Hc; [discriminate H|]
  | (if ?c then _ else Err _) = Ok _ =>
      let Hc := fresh "Hguard" in destruct c eqn:Hc; [|discriminate H]
  | Ok _ = Ok _ => injection H as H
  | Err _ = Ok _ => discriminate H
  end.
Ltac run_ok H := repeat run_ok_step H.

(** ** Machine integers: unbounded [Z] with the width written out *)

Definition u8_max : Z := 255.
Definition u16_max : Z := 65535.
Definition u32_max : Z := 4294967295.
Definition u64_max : Z := 18446744073709551615.
Definition i64_max : Z := 9223372036854775807.

Definition in_u8 (z : Z) : Prop := 0 ≤ z ≤ u8_max.
Definition in_u16 (z : Z) : Prop := 0 ≤ z ≤ u16_max.
Definition in_u32 (z : Z) : Prop := 0 ≤ z ≤ u32_max.
Definition in_u64 (z : Z) : Prop := 0 ≤ z ≤ u64_max.


(** Arithmetic closer that knows the widths. *)
Ltac width_lia :=
  unfold in_u8, in_u16, in_u32, in_u64, u8_max, u16_max, u32_max, u64_max, i64_max in *;
  lia.

(** ... and one that knows division by constants. *)
Ltac div_lia := Z.to_euclidean_division_equations; lia.

(** [checked_add] and [saturating_add] at a given maximum. *)
Definition checked_add (max a b : Z) : option Z :=
  if a + b <=? max then Some (a + b) else None.
Definition saturating_add (max a b : Z) : Z := Z.min max (a + b).

Lemma checked_add_some max a b c :
  checked_add max a b = Some c ↔ c = a + b ∧ a + b ≤ max.
Proof.
  unfold checked_add. destruct (Z.leb_spec (a + b) max).
  all: split; [intros [=]; lia | intros [-> ?]; first [reflexivity | lia]].
Qed.

Lemma saturating_add_small max a b : a + b ≤ max → saturating_add max a b = a + b.
Proof. unfold saturating_add. lia. Qed.

(** ** Bytes *)

(** Byte strings are lists of [Z] below 256. *)
Abbreviation bytes := (list Z).
Definition is_byte (b : Z) : Prop := 0 ≤ b < 256.
Abbreviation bytes_ok := (Forall is_byte).

(** The bytes of an ASCII literal such as Rust's [b"EIPR"]. *)
Definition ascii_bytes (s : string) : bytes :=
  (λ a : Ascii.ascii, Z.of_N (Ascii.N_of_ascii a)) <$> String.list_ascii_of_string s.

(** [bool_prop] turns boolean hypotheses and goals into propositions. *)
Ltac bool_prop :=
  repeat match goal with
  | H : andb _ _ = true |- _ => apply andb_prop in H as [? ?]
  | H : orb _ _ = false |- _ => apply orb_false_elim in H as [? ?]
  | H : negb _ = true |- _ => apply negb_true_iff in H
  | H : negb _ = false |- _ => apply negb_false_iff in H
  | H : bool_decide _ = true |- _ => apply bool_decide_eq_true_1 in H
  | H : bool_decide _ = false |- _ => apply bool_decide_eq_false_1 in H
  | H : Z.eqb _ _ = true |- _ => apply Z.eqb_eq in H
  | H : Z.eqb _ _ = false |- _ => apply Z.eqb_neq in H
  | H : Z.leb _ _ = true |- _ => apply Z.leb_le in H
  | H : Z.leb _ _ = false |- _ => apply Z.leb_gt in H
  | H : Z.ltb _ _ = true |- _ => apply Z.ltb_lt in H
  | H : Z.ltb _ _ = false |- _ => apply Z.ltb_ge in H
  end.
