(* ===== verification/Bytes.v ===== *)
(** * Byte strings: little-endian integers, slices and in-place writes

    Shared by the wire codecs (PlaybackWire, Capture) and the audio containers
    (Audio). A packet buffer is a list of bytes; [slice off n p] is Rust's
    [p[off..off + n]] and [splice off src p] is
    [p[off..off + src.len()].copy_from_slice(src)], an in-place write that keeps the
    buffer's length ([splice_spec] is the concatenation form).  At the end is [Crypto], the
    interface of the cryptographic crates. *)

From S2P Require Import Prelude.

(** ** Little-endian integers ([to_le_bytes] / [from_le_bytes]) *)

Fixpoint le_bytes (n : nat) (v : Z) : bytes :=
  match n with
  | O => []
  | S n => v mod 256 :: le_bytes n (v / 256)
  end.

Fixpoint le_value (l : bytes) : Z :=
  match l with
  | [] => 0
  | b :: l => b + 256 * le_value l
  end.

Lemma le_value_one b : le_value [b] = b.
Proof. simpl. lia. Qed.

Lemma length_le_bytes n v : length (le_bytes n v) = n.
Proof. revert v. induction n; simpl; auto. Qed.

Lemma le_bytes_ok n v : bytes_ok (le_bytes n v).
Proof.
  revert v. induction n as [|n IH]; intros v; simpl; constructor; [|apply IH].
  unfold is_byte. apply Z.mod_pos_bound. lia.
Qed.

Lemma le_value_bounds l : bytes_ok l → 0 ≤ le_value l < 256 ^ Z.of_nat (length l).
Proof.
  induction 1 as [|b l Hb _ IH]; simpl; [lia|].
  rewrite Nat2Z.inj_succ, Z.pow_succ_r by lia. unfold is_byte in Hb. lia.
Qed.

Lemma le_value_le_bytes n v : le_value (le_bytes n v) = v mod 256 ^ Z.of_nat n.
Proof.
  revert v. induction n as [|n IH]; intros v; simpl; [symmetry; apply Z.mod_1_r|].
  rewrite IH, Nat2Z.inj_succ, Z.pow_succ_r by lia.
  rewrite Z.rem_mul_r by lia. lia.
Qed.

Lemma le_value_le_bytes_small n v :
  0 ≤ v < 256 ^ Z.of_nat n → le_value (le_bytes n v) = v.
Proof. intros ?. rewrite le_value_le_bytes. by apply Z.mod_small. Qed.

Lemma le_bytes_le_value l n :
  bytes_ok l → n = length l → le_bytes n (le_value l) = l.
Proof.
  intros Hl ->. induction Hl as [|b l Hb _ IH]; simpl; [done|].
  unfold is_byte in Hb. rewrite (Z.mul_comm 256), Z.mod_add, Z.div_add by lia.
  rewrite Z.mod_small, Z.div_small by lia. by rewrite Z.add_0_l, IH.
Qed.

(** ** Big-endian integers ([to_be_bytes] / [from_be_bytes]) *)

Definition be_bytes_of (n : nat) (v : Z) : bytes := rev (le_bytes n v).
Definition be_value (b : bytes) : Z := le_value (rev b).

Lemma length_be_bytes_of n v : length (be_bytes_of n v) = n.
Proof. unfold be_bytes_of. by rewrite length_rev, length_le_bytes. Qed.

Lemma be_value_be_bytes_of n v :
  0 ≤ v < 256 ^ Z.of_nat n → be_value (be_bytes_of n v) = v.
Proof.
  intros ?. unfold be_value, be_bytes_of. rewrite rev_involutive. by apply le_value_le_bytes_small.
Qed.

Lemma be_value_bounds b : bytes_ok b → 0 ≤ be_value b < 256 ^ Z.of_nat (length b).
Proof.
  intros Hb. unfold be_value. rewrite <-(length_rev b). by apply le_value_bounds, Forall_rev.
Qed.

Lemma be_bytes_of_be_value n b : bytes_ok b → n = length b → be_bytes_of n (be_value b) = b.
Proof.
  intros Hb ->. unfold be_value, be_bytes_of. rewrite le_bytes_le_value; [apply rev_involutive| |].
  - by apply Forall_rev.
  - by rewrite length_rev.
Qed.

Lemma be_bytes_of_ok n v : bytes_ok (be_bytes_of n v).
Proof. unfold be_bytes_of. apply Forall_rev, le_bytes_ok. Qed.

(** ** Slices and writes *)

Definition slice (off n : nat) (p : bytes) : bytes := take n (drop off p).
Definition splice (off : nat) (src p : bytes) : bytes :=
  imap (λ i b, default b (if (off <=? i)%nat then src !! (i - off)%nat else None)) p.
Definition byte_at (p : bytes) (i : nat) : Z := default 0 (p !! i).

(** [bytes.get(off..off + n)] *)
Definition get_slice (off n : nat) (p : bytes) : option bytes :=
  if (off + n <=? length p)%nat then Some (slice off n p) else None.

Lemma length_slice off n p : length (slice off n p) = (n `min` (length p - off))%nat.
Proof. unfold slice. by rewrite length_take, length_drop. Qed.

Lemma length_splice off src p : length (splice off src p) = length p.
Proof. apply length_imap. Qed.

Lemma lookup_splice off src p i :
  splice off src p !! i =
    (λ b, default b (if (off <=? i)%nat then src !! (i - off)%nat else None)) <$> p !! i.
Proof. apply list_lookup_imap. Qed.

Lemma slice_ok off n p : bytes_ok p → bytes_ok (slice off n p).
Proof. intros. by apply Forall_take, Forall_drop. Qed.

Lemma lookup_slice off n p i :
  slice off n p !! i = if decide (i < n)%nat then p !! (off + i)%nat else None.
Proof.
  unfold slice. rewrite lookup_take. case_decide; [by rewrite lookup_drop|done].
Qed.

Lemma lookup_splice_out off src p i :
  (i < off)%nat ∨ (off + length src ≤ i)%nat → splice off src p !! i = p !! i.
Proof.
  intros Hi. rewrite lookup_splice. destruct (p !! i); [|done]. simpl. f_equal.
  destruct (Nat.leb_spec off i); [|done]. rewrite lookup_ge_None_2; [done|lia].
Qed.

Lemma slice_splice_eq off n src p :
  n = length src → (off + n ≤ length p)%nat → slice off n (splice off src p) = src.
Proof.
  intros -> ?. apply list_eq. intros i. rewrite lookup_slice. case_decide as Hi.
  - rewrite lookup_splice, (proj2 (Nat.leb_le _ _)) by lia.
    replace (off + i - off)%nat with i by lia.
    destruct (lookup_lt_is_Some_2 p (off + i)) as [x ->]; [lia|].
    by destruct (lookup_lt_is_Some_2 src i Hi) as [y ->].
  - symmetry. apply lookup_ge_None_2. lia.
Qed.

Lemma slice_splice_out off n off' src p :
  (off + n ≤ off')%nat ∨ (off' + length src ≤ off)%nat →
  slice off n (splice off' src p) = slice off n p.
Proof.
  intros ?. apply list_eq. intros i. rewrite !lookup_slice.
  case_decide; [|done]. apply lookup_splice_out; lia.
Qed.

Lemma slice_splice_before off n off' src p :
  (off + n <=? off')%nat = true → slice off n (splice off' src p) = slice off n p.
Proof. intros ?%Nat.leb_le. apply slice_splice_out. by left. Qed.

Lemma slice_splice_after off n off' src p :
  (off' + length src <=? off)%nat = true → slice off n (splice off' src p) = slice off n p.
Proof. intros ?%Nat.leb_le. apply slice_splice_out. by right. Qed.

Lemma splice_spec off src p :
  (off + length src ≤ length p)%nat →
  splice off src p = take off p ++ src ++ drop (off + length src) p.
Proof.
  intros ?. apply list_eq. intros i.
  destruct (decide (i < off)%nat) as [Hi|Hi].
  { rewrite lookup_splice_out, lookup_app_l by (rewrite ?length_take; lia).
    by rewrite lookup_take, decide_True. }
  rewrite lookup_app_r by (rewrite length_take; lia).
  rewrite length_take, Nat.min_l by lia.
  destruct (decide (i < off + length src)%nat) as [Hj|Hj].
  - rewrite lookup_app_l, lookup_splice, (proj2 (Nat.leb_le _ _)) by lia.
    destruct (lookup_lt_is_Some_2 p i) as [x ->]; [lia|].
    by destruct (lookup_lt_is_Some_2 src (i - off)) as [y ->]; [lia|].
  - rewrite lookup_app_r, lookup_splice_out, lookup_drop by lia. f_equal. lia.
Qed.

Lemma splice_ok off src p : bytes_ok src → bytes_ok p → bytes_ok (splice off src p).
Proof.
  intros Hs Hp. apply Forall_lookup. intros i x. rewrite lookup_splice.
  destruct (p !! i) as [b|] eqn:Hb; simpl; [|done]. intros [= <-].
  pose proof (Forall_lookup_1 _ _ _ _ Hp Hb).
  destruct (off <=? i)%nat; simpl; [|done].
  destruct (src !! (i - off)%nat) eqn:Hx; simpl; [|done].
  exact (Forall_lookup_1 _ _ _ _ Hs Hx).
Qed.

Lemma slice_app_l off n p q :
  (off + n ≤ length p)%nat → slice off n (p ++ q) = slice off n p.
Proof.
  intros ?. apply list_eq. intros i. rewrite !lookup_slice.
  case_decide; [|done]. rewrite lookup_app_l by lia. done.
Qed.

Lemma slice_app_r off n p q :
  (length p ≤ off)%nat → slice off n (p ++ q) = slice (off - length p) n q.
Proof.
  intros ?. apply list_eq. intros i. rewrite !lookup_slice.
  case_decide; [|done]. rewrite lookup_app_r by lia. f_equal. lia.
Qed.

Lemma slice_all n p : n = length p → slice 0 n p = p.
Proof. intros ->. unfold slice. rewrite drop_0. by apply take_ge. Qed.

Lemma slice_one i p : (i < length p)%nat → slice i 1 p = [byte_at p i].
Proof.
  intros Hi. apply list_eq. intros j. rewrite lookup_slice. unfold byte_at.
  destruct (lookup_lt_is_Some_2 p i Hi) as [x Hx].
  destruct j; case_decide; try lia; simpl; [|done].
  by rewrite Nat.add_0_r, Hx.
Qed.

Lemma byte_at_slice i p : byte_at p i = le_value (slice i 1 p).
Proof.
  destruct (decide (i < length p)%nat) as [Hi|Hi].
  - rewrite slice_one by done. simpl. lia.
  - unfold byte_at, slice. rewrite lookup_ge_None_2, drop_ge by lia. done.
Qed.

(** A prefix of a buffer is determined by its slices along a partition. *)
Fixpoint slices (off : nat) (ns : list nat) (p : bytes) : list bytes :=
  match ns with
  | [] => []
  | n :: ns => slice off n p :: slices (off + n) ns p
  end.

Lemma slice_join off n m p : slice off n p ++ slice (off + n) m p = slice off (n + m) p.
Proof.
  unfold slice. rewrite <- drop_drop. rewrite <- (take_drop n (drop off p)) at 3.
  destruct (decide (n ≤ length (drop off p))%nat).
  - rewrite take_app_add'; [done|]. rewrite length_take. lia.
  - rewrite (drop_ge _ n), take_nil, !app_nil_r by lia.
    rewrite take_take, Nat.min_r; [done|lia].
Qed.

Lemma concat_slices off ns p : List.concat (slices off ns p) = slice off (sum_list ns) p.
Proof.
  revert off. induction ns as [|n ns IH]; intros off; simpl; [done|].
  by rewrite IH, slice_join.
Qed.

Lemma take_eq_slices N ns p q :
  sum_list ns = N → slices 0 ns p = slices 0 ns q → take N p = take N q.
Proof.
  intros <- H%(f_equal (@List.concat Z)). rewrite !concat_slices in H.
  unfold slice in H. by rewrite !drop_0 in H.
Qed.

(** ** Fixed-offset accessors ([get_u32], [put_u32], ... of the codecs) *)

Definition get_le (n : nat) (p : bytes) (off : nat) : Z := le_value (slice off n p).
Definition put_le (n : nat) (off : nat) (v : Z) (p : bytes) : bytes :=
  splice off (le_bytes n v) p.

Lemma get_le_bounds n p off :
  bytes_ok p → 0 ≤ get_le n p off < 256 ^ Z.of_nat n.
Proof.
  intros Hp. unfold get_le. pose proof (le_value_bounds _ (slice_ok off n p Hp)) as H.
  rewrite length_slice in H. split; [lia|]. eapply Z.lt_le_trans; [apply H|].
  apply Z.pow_le_mono_r; lia.
Qed.

Lemma le_bytes_get_le n p off :
  bytes_ok p → (off + n ≤ length p)%nat → le_bytes n (get_le n p off) = slice off n p.
Proof.
  intros. apply le_bytes_le_value; [by apply slice_ok|]. rewrite length_slice. lia.
Qed.

(** [wire_simpl] evaluates reads of a buffer built by successive writes; the side
    conditions compare constant offsets. *)
Ltac len_solve :=
  repeat first
    [ rewrite length_splice | rewrite length_replicate | rewrite length_le_bytes
    | rewrite length_slice ];
  simpl length; try lia.

Ltac wire_step :=
  first
  [ rewrite slice_splice_before by reflexivity
  | rewrite slice_splice_after by reflexivity
  | rewrite slice_splice_eq by len_solve ].
Ltac wire_simpl := unfold put_le; repeat wire_step.

(** * The cryptographic interface of the host

    The crates [hmac], [sha2] and [aes_gcm] are not part of the repository.  The
    codecs are written against this interface: the operations the source calls, with
    the documented facts it relies on.  [demo_crypto] is a concrete (and insecure)
    instance, used by the witnesses only. *)

Class Crypto := {
  (** [Hmac::<Sha256>::new_from_slice(key).update(message).finalize()] *)
  hmac_sha256 : bytes → bytes → bytes;
  (** [Aes256Gcm::encrypt_in_place_detached(nonce, aad, plaintext)]: ciphertext, tag *)
  gcm_seal : bytes → bytes → bytes → bytes → bytes * bytes;
  (** [Aes256Gcm::decrypt_in_place_detached(nonce, aad, ciphertext, tag)] *)
  gcm_open : bytes → bytes → bytes → bytes → bytes → option bytes;
  (** [Sha256::digest] *)
  sha256 : bytes → bytes;

  hmac_length k m : length (hmac_sha256 k m) = 32%nat;
  hmac_bytes k m : bytes_ok (hmac_sha256 k m);
  sha256_length m : length (sha256 m) = 32%nat;
  sha256_bytes m : bytes_ok (sha256 m);
  gcm_seal_lengths k n a p :
    length (gcm_seal k n a p).1 = length p ∧ length (gcm_seal k n a p).2 = 16%nat;
  gcm_seal_bytes k n a p :
    bytes_ok p → bytes_ok (gcm_seal k n a p).1 ∧ bytes_ok (gcm_seal k n a p).2;
  (** GCM is deterministic once key and nonce are fixed: opening inverts sealing and
      accepts nothing else. *)
  gcm_open_seal k n a p c t : gcm_open k n a c t = Some p ↔ gcm_seal k n a p = (c, t);
}.

(** ** A toy instance: a byte sum, spread over the output length *)

Definition toy_sum (m : bytes) : Z := foldr (λ b acc, (b + 3 * acc) mod 256) 7 m.

Definition toy_mac (k m : bytes) : bytes :=
  toy_sum (k ++ m) mod 256 :: replicate 31 (toy_sum (m ++ k) mod 256).

Definition toy_seal (k n a p : bytes) : bytes * bytes :=
  (p, take 16 (toy_mac k (n ++ a ++ p))).

Definition toy_open (k n a c t : bytes) : option bytes :=
  if bool_decide (take 16 (toy_mac k (n ++ a ++ c)) = t) then Some c else None.

Lemma toy_mac_ok k m : bytes_ok (toy_mac k m).
Proof.
  unfold toy_mac. constructor; [|apply Forall_replicate];
    unfold is_byte; apply Z.mod_pos_bound; lia.
Qed.

Definition demo_crypto : Crypto.
Proof.
  refine {| hmac_sha256 := toy_mac; gcm_seal := toy_seal; gcm_open := toy_open;
            sha256 := toy_mac [] |}.
  - done.
  - apply toy_mac_ok.
  - done.
  - apply toy_mac_ok.
  - done.
  - intros k n a p Hp. split; [done|]. apply Forall_take, toy_mac_ok.
  - intros k n a p c t. unfold toy_open, toy_seal. case_bool_decide; naive_solver.
Defined.
