(* ===== verification/PlaybackWire.v ===== *)
(** * The playback and mailbox packets (app/host/src/lan_playback.rs)

    One record per packet, [encode_*]/[decode_*] as in the source: a zeroed buffer of
    the packet's length, writes at fixed offsets, and a 16-byte truncated HMAC tag at
    the end ([sign]/[verify]); EIPD chunks are sealed with AES-256-GCM under a key
    derived per transfer.  HMAC and AES come from the [Crypto] interface. *)

From S2P Require Import Prelude Bytes.

Definition PLAYBACK_VERSION : Z := 1.
Definition PLAYBACK_TAG_BYTES : nat := 16.
Definition PLAYBACK_CHUNK_BYTES : nat := 1024.
Definition PLAYBACK_MAX_EIAD_BYTES : Z := 4 * 1024 * 1024.
Definition REQUEST_BYTES : nat := 40.
Definition BEGIN_BYTES : nat := 72.
Definition ACK_BYTES : nat := 52.
Definition FINISHED_BYTES : nat := 56.
Definition FINISHED_ACK_BYTES : nat := 48.
Definition DATA_HEADER_BYTES : nat := 40.
Definition MAILBOX_STATUS_BYTES : nat := 32.
Definition MAILBOX_STATUS_VERSION : Z := 3.

Inductive PlaybackWireError := Malformed | Authentication.

#[export] Instance PlaybackWireError_eq_dec : EqDecision PlaybackWireError.
Proof. solve_decision. Defined.

Record PlaybackRequest := mk_request {
  rq_slot : Z;
  rq_request_generation : Z;
  rq_connection_generation : Z;
  rq_nonce : Z;
}.

Record PlaybackIdentity := mk_identity {
  id_slot : Z;
  id_request_generation : Z;
  id_connection_generation : Z;
  id_summary_generation : Z;
  id_lease : Z;
}.

Record PlaybackBegin := mk_begin {
  bg_identity : PlaybackIdentity;
  bg_total_bytes : Z;
  bg_total_samples : Z;
  bg_chunk_bytes : Z;
  bg_request_nonce : Z;
}.

Record PlaybackAck := mk_ack {
  ak_identity : PlaybackIdentity;
  ak_status : Z;
  ak_next_offset : Z;
}.

Record PlaybackFinished := mk_finished {
  fn_identity : PlaybackIdentity;
  fn_played_samples : Z;
}.

Record MailboxStatus := mk_mailbox {
  mb_unread_slots : Z;
  mb_running_tasks : Z;
  mb_coverage_by_slot : list Z;
}.

#[export] Instance PlaybackRequest_eq_dec : EqDecision PlaybackRequest.
Proof. solve_decision. Defined.
#[export] Instance PlaybackIdentity_eq_dec : EqDecision PlaybackIdentity.
Proof. solve_decision. Defined.
#[export] Instance PlaybackBegin_eq_dec : EqDecision PlaybackBegin.
Proof. solve_decision. Defined.
#[export] Instance PlaybackAck_eq_dec : EqDecision PlaybackAck.
Proof. solve_decision. Defined.
#[export] Instance PlaybackFinished_eq_dec : EqDecision PlaybackFinished.
Proof. solve_decision. Defined.
#[export] Instance MailboxStatus_eq_dec : EqDecision MailboxStatus.
Proof. solve_decision. Defined.

(** ** Shared pieces *)

Definition put_u16 (off : nat) (v : Z) (p : bytes) : bytes := put_le 2 off v p.
Definition put_u32 (off : nat) (v : Z) (p : bytes) : bytes := put_le 4 off v p.
Definition put_u64 (off : nat) (v : Z) (p : bytes) : bytes := put_le 8 off v p.
Definition get_u16 (p : bytes) (off : nat) : Z := get_le 2 p off.
Definition get_u32 (p : bytes) (off : nat) : Z := get_le 4 p off.
Definition get_u64 (p : bytes) (off : nat) : Z := get_le 8 p off.

Definition encode_identity (i : PlaybackIdentity) (p : bytes) : bytes :=
  put_u64 24 (id_lease i)
    (put_u64 16 (id_summary_generation i)
      (put_u32 12 (id_connection_generation i)
        (put_u32 8 (id_request_generation i) p))).

Definition decode_identity (p : bytes) : PlaybackIdentity :=
  {| id_slot := byte_at p 5;
     id_request_generation := get_u32 p 8;
     id_connection_generation := get_u32 p 12;
     id_summary_generation := get_u64 p 16;
     id_lease := get_u64 p 24 |}.

Definition slot_in_range (s : Z) : bool := (1 <=? s) && (s <=? 4).

Definition valid_identity (i : PlaybackIdentity) : bool :=
  slot_in_range (id_slot i)
  && negb (id_request_generation i =? 0)
  && negb (id_connection_generation i =? 0)
  && negb (id_summary_generation i =? 0)
  && negb (id_lease i =? 0).

Definition valid_mailbox_status (s : MailboxStatus) : bool :=
  (Z.land (mb_unread_slots s) 240 =? 0)
  && (mb_running_tasks s <=? 4)
  && forallb id
       (imap (λ index coverage,
                Bool.eqb (negb (Z.land (mb_unread_slots s) (Z.shiftl 1 (Z.of_nat index)) =? 0))
                         (negb (coverage =? 0)))
             (mb_coverage_by_slot s)).

Section codec.
Context `{Crypto}.

Definition sign (key p : bytes) : bytes :=
  let split := (length p - PLAYBACK_TAG_BYTES)%nat in
  splice split (take PLAYBACK_TAG_BYTES (hmac_sha256 key (take split p))) p.

(** [verify_truncated_left] compares the tag with the left part of the digest. *)
Definition verify (p key : bytes) : result PlaybackWireError unit :=
  if (length p <? PLAYBACK_TAG_BYTES)%nat then Err Malformed
  else
    let split := (length p - PLAYBACK_TAG_BYTES)%nat in
    let tag := drop split p in
    if bool_decide (take (length tag) (hmac_sha256 key (take split p)) = tag)
    then Ok tt else Err Authentication.

Definition verify_fixed (p : bytes) (len : nat) (magic key : bytes)
    : result PlaybackWireError unit :=
  if negb (length p =? len)%nat || negb (bool_decide (slice 0 4 p = magic))
     || negb (byte_at p 4 =? PLAYBACK_VERSION)
  then Err Malformed
  else verify p key.

(** ** EIPR: the device asks for a slot's unread summary *)

Definition encode_request (r : PlaybackRequest) (key : bytes) : bytes :=
  let p := replicate REQUEST_BYTES 0 in
  let p := splice 0 (ascii_bytes "EIPR") p in
  let p := splice 4 [PLAYBACK_VERSION] p in
  let p := splice 5 [rq_slot r] p in
  let p := put_u32 8 (rq_request_generation r) p in
  let p := put_u32 12 (rq_connection_generation r) p in
  let p := put_u64 16 (rq_nonce r) p in
  sign key p.

Definition decode_request (p key : bytes) : result PlaybackWireError PlaybackRequest :=
  let? _ := verify_fixed p REQUEST_BYTES (ascii_bytes "EIPR") key in
  let r := {| rq_slot := byte_at p 5;
              rq_request_generation := get_u32 p 8;
              rq_connection_generation := get_u32 p 12;
              rq_nonce := get_u64 p 16 |} in
  if negb (bool_decide (slice 6 2 p = [0; 0]))
     || negb (slot_in_range (rq_slot r))
     || (rq_request_generation r =? 0)
     || (rq_connection_generation r =? 0)
     || (rq_nonce r =? 0)
  then Err Malformed
  else Ok r.

(** ** EIPB: the host announces a transfer *)

Definition encode_begin (b : PlaybackBegin) (key : bytes) : bytes :=
  let p := replicate BEGIN_BYTES 0 in
  let p := splice 0 (ascii_bytes "EIPB") p in
  let p := splice 4 [PLAYBACK_VERSION] p in
  let p := splice 5 [id_slot (bg_identity b)] p in
  let p := encode_identity (bg_identity b) p in
  let p := put_u32 32 (bg_total_bytes b) p in
  let p := put_u64 36 (bg_total_samples b) p in
  let p := put_u16 44 (bg_chunk_bytes b) p in
  let p := put_u64 48 (bg_request_nonce b) p in
  sign key p.

Definition decode_begin (p key : bytes) : result PlaybackWireError PlaybackBegin :=
  let? _ := verify_fixed p BEGIN_BYTES (ascii_bytes "EIPB") key in
  let b := {| bg_identity := decode_identity p;
              bg_total_bytes := get_u32 p 32;
              bg_total_samples := get_u64 p 36;
              bg_chunk_bytes := get_u16 p 44;
              bg_request_nonce := get_u64 p 48 |} in
  if negb (bool_decide (slice 6 2 p = [0; 0]))
     || negb (bool_decide (slice 46 2 p = [0; 0]))
     || negb (valid_identity (bg_identity b))
     || (bg_total_bytes b =? 0)
     || (PLAYBACK_MAX_EIAD_BYTES <? bg_total_bytes b)
     || (bg_total_samples b =? 0)
     || (bg_chunk_bytes b =? 0)
     || (Z.of_nat PLAYBACK_CHUNK_BYTES <? bg_chunk_bytes b)
     || (bg_request_nonce b =? 0)
  then Err Malformed
  else Ok b.

(** ** EIPD: an encrypted chunk *)

(** The HMAC input that separates transfers. *)
Definition data_key_context (i : PlaybackIdentity) (request_nonce : Z) : bytes :=
  let c := replicate 44 0 in
  let c := splice 0 (ascii_bytes "EIPDKEY1") c in
  let c := splice 8 [id_slot i] c in
  let c := put_u32 12 (id_request_generation i) c in
  let c := put_u32 16 (id_connection_generation i) c in
  let c := put_u64 20 (id_summary_generation i) c in
  let c := put_u64 28 (id_lease i) c in
  put_u64 36 request_nonce c.

Definition derive_data_key (i : PlaybackIdentity) (request_nonce : Z) (root_key : bytes)
    : bytes :=
  hmac_sha256 root_key (data_key_context i request_nonce).

Definition data_nonce (offset : Z) : bytes := put_u32 0 offset (replicate 12 0).

Definition encode_data (i : PlaybackIdentity) (request_nonce offset : Z)
    (payload key : bytes) : result PlaybackWireError bytes :=
  if negb (valid_identity i)
     || (request_nonce =? 0)
     || (length payload =? 0)%nat
     || (PLAYBACK_CHUNK_BYTES <? length payload)%nat
  then Err Malformed
  else
    let p := replicate (DATA_HEADER_BYTES + length payload + PLAYBACK_TAG_BYTES) 0 in
    let p := splice 0 (ascii_bytes "EIPD") p in
    let p := splice 4 [PLAYBACK_VERSION] p in
    let p := splice 5 [id_slot i] p in
    let p := encode_identity i p in
    let p := put_u32 32 offset p in
    let p := put_u16 36 (Z.of_nat (length payload)) p in
    let p := splice 40 payload p in
    let data_key := derive_data_key i request_nonce key in
    let header := take DATA_HEADER_BYTES p in
    let body := slice DATA_HEADER_BYTES (length payload) p in
    let '(body, tag) := gcm_seal data_key (data_nonce offset) header body in
    Ok (header ++ body ++ tag).

Definition decode_data (p : bytes) (request_nonce : Z) (key : bytes)
    : result PlaybackWireError (PlaybackIdentity * Z * bytes) :=
  if (length p <? DATA_HEADER_BYTES + 1 + PLAYBACK_TAG_BYTES)%nat
     || negb (bool_decide (slice 0 4 p = ascii_bytes "EIPD"))
     || negb (byte_at p 4 =? PLAYBACK_VERSION)
  then Err Malformed
  else
    let i := decode_identity p in
    let payload_len := Z.to_nat (get_u16 p 36) in
    if negb (bool_decide (slice 6 2 p = [0; 0]))
       || negb (bool_decide (slice 38 2 p = [0; 0]))
       || negb (valid_identity i)
       || (request_nonce =? 0)
       || (payload_len =? 0)%nat
       || (PLAYBACK_CHUNK_BYTES <? payload_len)%nat
       || negb (length p =? DATA_HEADER_BYTES + payload_len + PLAYBACK_TAG_BYTES)%nat
    then Err Malformed
    else
      let offset := get_u32 p 32 in
      let data_key := derive_data_key i request_nonce key in
      let? plaintext :=
        of_option Authentication
          (gcm_open data_key (data_nonce offset) (take DATA_HEADER_BYTES p)
             (slice DATA_HEADER_BYTES payload_len p)
             (drop (DATA_HEADER_BYTES + payload_len) p)) in
      Ok (i, offset, plaintext).

(** ** EIPA, EIPF, EIPK: acknowledgement, device finished, host commit *)

Definition encode_ack (a : PlaybackAck) (key : bytes) : bytes :=
  let p := replicate ACK_BYTES 0 in
  let p := splice 0 (ascii_bytes "EIPA") p in
  let p := splice 4 [PLAYBACK_VERSION] p in
  let p := splice 5 [id_slot (ak_identity a)] p in
  let p := splice 6 [ak_status a] p in
  let p := encode_identity (ak_identity a) p in
  let p := put_u32 32 (ak_next_offset a) p in
  sign key p.

Definition decode_ack (p key : bytes) : result PlaybackWireError PlaybackAck :=
  let? _ := verify_fixed p ACK_BYTES (ascii_bytes "EIPA") key in
  let a := {| ak_identity := decode_identity p;
              ak_status := byte_at p 6;
              ak_next_offset := get_u32 p 32 |} in
  if negb (byte_at p 7 =? 0) || negb (valid_identity (ak_identity a)) || (3 <? ak_status a)
  then Err Malformed
  else Ok a.

Definition encode_finished (f : PlaybackFinished) (key : bytes) : bytes :=
  let p := replicate FINISHED_BYTES 0 in
  let p := splice 0 (ascii_bytes "EIPF") p in
  let p := splice 4 [PLAYBACK_VERSION] p in
  let p := splice 5 [id_slot (fn_identity f)] p in
  let p := encode_identity (fn_identity f) p in
  let p := put_u64 32 (fn_played_samples f) p in
  sign key p.

Definition decode_finished (p key : bytes) : result PlaybackWireError PlaybackFinished :=
  let? _ := verify_fixed p FINISHED_BYTES (ascii_bytes "EIPF") key in
  let f := {| fn_identity := decode_identity p; fn_played_samples := get_u64 p 32 |} in
  if negb (bool_decide (slice 6 2 p = [0; 0])) || negb (valid_identity (fn_identity f))
     || (fn_played_samples f =? 0)
  then Err Malformed
  else Ok f.

Definition encode_finished_ack (i : PlaybackIdentity) (status : Z) (key : bytes) : bytes :=
  let p := replicate FINISHED_ACK_BYTES 0 in
  let p := splice 0 (ascii_bytes "EIPK") p in
  let p := splice 4 [PLAYBACK_VERSION] p in
  let p := splice 5 [id_slot i] p in
  let p := splice 6 [status] p in
  let p := encode_identity i p in
  sign key p.

Definition decode_finished_ack (p key : bytes)
    : result PlaybackWireError (PlaybackIdentity * Z) :=
  let? _ := verify_fixed p FINISHED_ACK_BYTES (ascii_bytes "EIPK") key in
  let i := decode_identity p in
  if negb (byte_at p 7 =? 0) || negb (valid_identity i) || (1 <? byte_at p 6)
  then Err Malformed
  else Ok (i, byte_at p 6).

(** ** EIMB: the mailbox lights *)

Definition encode_mailbox_status (s : MailboxStatus) (heartbeat_sequence : Z) (key : bytes)
    : result PlaybackWireError bytes :=
  if negb (valid_mailbox_status s) then Err Malformed
  else
    let p := replicate MAILBOX_STATUS_BYTES 0 in
    let p := splice 0 (ascii_bytes "EIMB") p in
    let p := splice 4 [MAILBOX_STATUS_VERSION] p in
    let p := splice 5 [mb_unread_slots s] p in
    let p := splice 6 [mb_running_tasks s] p in
    let p := put_u32 8 heartbeat_sequence p in
    let p := splice 12 (mb_coverage_by_slot s) p in
    Ok (sign key p).

Definition decode_mailbox_status (p key : bytes)
    : result PlaybackWireError (MailboxStatus * Z) :=
  if negb (length p =? MAILBOX_STATUS_BYTES)%nat
     || negb (bool_decide (slice 0 4 p = ascii_bytes "EIMB"))
     || negb (byte_at p 4 =? MAILBOX_STATUS_VERSION)
  then Err Malformed
  else
    let? _ := verify p key in
    let s := {| mb_unread_slots := byte_at p 5;
                mb_running_tasks := byte_at p 6;
                mb_coverage_by_slot := slice 12 4 p |} in
    if negb (byte_at p 7 =? 0) || negb (valid_mailbox_status s)
    then Err Malformed
    else Ok (s, get_u32 p 8).

(** ** The tag *)

Lemma length_sign key p : length (sign key p) = length p.
Proof. apply length_splice. Qed.

Lemma slice_sign key p off n :
  (off + n + 16 ≤ length p)%nat → slice off n (sign key p) = slice off n p.
Proof. intros ?. unfold sign, PLAYBACK_TAG_BYTES. apply slice_splice_out. lia. Qed.

Lemma take_sign key p n :
  (n + 16 ≤ length p)%nat → take n (sign key p) = take n p.
Proof.
  intros ?. pose proof (slice_sign key p 0 n ltac:(lia)) as E.
  unfold slice in E. by rewrite !drop_0 in E.
Qed.

Lemma drop_sign key p :
  (16 ≤ length p)%nat →
  drop (length p - 16) (sign key p) = take 16 (hmac_sha256 key (take (length p - 16) p)).
Proof.
  intros ?. unfold sign, PLAYBACK_TAG_BYTES.
  rewrite splice_spec by (rewrite length_take, hmac_length; lia).
  rewrite drop_app_ge by (rewrite length_take; lia).
  rewrite length_take, Nat.min_l, Nat.sub_diag, drop_0 by lia.
  rewrite (drop_ge p), app_nil_r; [done|].
  rewrite length_take, hmac_length. lia.
Qed.

Lemma verify_sign key p : (16 ≤ length p)%nat → verify (sign key p) key = Ok tt.
Proof.
  intros ?. unfold verify, PLAYBACK_TAG_BYTES. rewrite length_sign by done.
  rewrite (proj2 (Nat.ltb_ge _ _)) by lia.
  rewrite drop_sign, take_sign by lia.
  rewrite length_take, hmac_length, Nat.min_l by lia.
  by rewrite bool_decide_eq_true_2.
Qed.

(** A buffer with a valid tag is the signature of its own content. *)
Lemma sign_verified key p q :
  verify p key = Ok tt → (16 ≤ length p)%nat → length q = length p →
  take (length p - 16) q = take (length p - 16) p → sign key q = p.
Proof.
  intros Hv Hlen Hq Heq. unfold verify, PLAYBACK_TAG_BYTES in Hv.
  rewrite (proj2 (Nat.ltb_ge _ _)) in Hv by lia.
  case_bool_decide as Htag; [|done].
  rewrite length_drop in Htag.
  replace (length p - (length p - 16))%nat with 16%nat in Htag by lia.
  rewrite <- (take_drop (length p - 16) (sign key q)).
  rewrite take_sign, Heq by lia. rewrite <- Hq, drop_sign, Hq, Heq, Htag by lia.
  apply take_drop.
Qed.

Lemma verify_fixed_sign key p len magic :
  length p = len → (21 ≤ len)%nat → slice 0 4 p = magic → byte_at p 4 = PLAYBACK_VERSION →
  verify_fixed (sign key p) len magic key = Ok tt.
Proof.
  intros Hl ? Hm Hver. unfold verify_fixed.
  rewrite length_sign, Hl, Nat.eqb_refl by lia. simpl.
  rewrite slice_sign, Hm, bool_decide_eq_true_2 by (done || lia). simpl.
  rewrite byte_at_slice, slice_sign, <- byte_at_slice, Hver by lia. simpl.
  apply verify_sign. lia.
Qed.

Lemma verify_fixed_ok p len magic key u :
  verify_fixed p len magic key = Ok u →
  length p = len ∧ slice 0 4 p = magic ∧ byte_at p 4 = PLAYBACK_VERSION
  ∧ verify p key = Ok tt.
Proof.
  unfold verify_fixed. intros Hv.
  destruct (length p =? len)%nat eqn:?; simpl in Hv; [|done].
  case_bool_decide; simpl in Hv; [|done].
  destruct (byte_at p 4 =? PLAYBACK_VERSION) eqn:?; simpl in Hv; [|done].
  apply Nat.eqb_eq in Heqb. bool_prop. destruct u. done.
Qed.

(** ** Well-formed values: machine widths, and what the decoders demand *)

Definition identity_wf (i : PlaybackIdentity) : Prop :=
  valid_identity i = true ∧ in_u32 (id_request_generation i)
  ∧ in_u32 (id_connection_generation i) ∧ in_u64 (id_summary_generation i)
  ∧ in_u64 (id_lease i).

Definition request_wf (r : PlaybackRequest) : Prop :=
  slot_in_range (rq_slot r) = true ∧ 0 < rq_request_generation r ≤ u32_max
  ∧ 0 < rq_connection_generation r ≤ u32_max ∧ 0 < rq_nonce r ≤ u64_max.

Definition begin_wf (b : PlaybackBegin) : Prop :=
  identity_wf (bg_identity b) ∧ 0 < bg_total_bytes b ≤ PLAYBACK_MAX_EIAD_BYTES
  ∧ 0 < bg_total_samples b ≤ u64_max ∧ 0 < bg_chunk_bytes b ≤ Z.of_nat PLAYBACK_CHUNK_BYTES
  ∧ 0 < bg_request_nonce b ≤ u64_max.

Definition ack_wf (a : PlaybackAck) : Prop :=
  identity_wf (ak_identity a) ∧ 0 ≤ ak_status a ≤ 3 ∧ in_u32 (ak_next_offset a).

Definition finished_wf (f : PlaybackFinished) : Prop :=
  identity_wf (fn_identity f) ∧ 0 < fn_played_samples f ≤ u64_max.

Definition mailbox_wf (s : MailboxStatus) : Prop :=
  valid_mailbox_status s = true ∧ length (mb_coverage_by_slot s) = 4%nat
  ∧ bytes_ok (mb_coverage_by_slot s) ∧ in_u8 (mb_unread_slots s) ∧ 0 ≤ mb_running_tasks s.

(** Reading back a field of a signed buffer. *)
Ltac wire_unfold :=
  unfold encode_identity, put_u16, put_u32, put_u64, get_u16, get_u32, get_u64, get_le,
    REQUEST_BYTES, BEGIN_BYTES, ACK_BYTES, FINISHED_BYTES, FINISHED_ACK_BYTES,
    MAILBOX_STATUS_BYTES in *; cbv zeta.
Ltac wire_len := wire_unfold; unfold put_le; len_solve.
Ltac wire_range := wire_unfold; change (256 ^ Z.of_nat 2) with 65536;
  change (256 ^ Z.of_nat 4) with 4294967296;
  change (256 ^ Z.of_nat 8) with 18446744073709551616;
  unfold PLAYBACK_MAX_EIAD_BYTES, PLAYBACK_CHUNK_BYTES in *; simpl; width_lia.
Ltac wire_read :=
  wire_unfold; rewrite ?byte_at_slice; rewrite ?slice_sign by wire_len; wire_simpl;
  rewrite ?le_value_le_bytes_small by wire_range.

(** Discharging a decoder's guard from the well-formedness of the value. *)
Ltac guard_pass :=
  rewrite ?le_value_one;
  repeat match goal with
  | H : ?c = true |- context [?c] => rewrite H
  | |- context [bool_decide (?x = ?x)] => rewrite (bool_decide_eq_true_2 (x = x)) by done
  | |- context [?a =? ?b] => rewrite (proj2 (Z.eqb_neq a b)) by wire_range
  | |- context [?a <? ?b] => rewrite (proj2 (Z.ltb_ge a b)) by wire_range
  end; simpl.

Lemma decode_request_encode r key :
  request_wf r → decode_request (encode_request r key) key = Ok r.
Proof.
  destruct r as [s g c n]. intros (Hs & ? & ? & ?). simpl in *.
  unfold decode_request, encode_request.
  rewrite verify_fixed_sign; [|wire_len|wire_unfold; lia|by wire_read|by wire_read].
  simpl. wire_read. guard_pass. done.
Qed.

Lemma decode_encode_identity i p :
  identity_wf i → (32 ≤ length p)%nat →
  slice 5 1 p = [id_slot i] → decode_identity (encode_identity i p) = i.
Proof.
  intros (Hv & ? & ? & ? & ?) Hlen Hslot. destruct i as [s g c sg l]; simpl in *.
  unfold decode_identity. wire_unfold. rewrite byte_at_slice. wire_simpl.
  rewrite Hslot, le_value_one, !le_value_le_bytes_small by wire_range. done.
Qed.

(** A decoded packet that passes the tag check re-encodes to itself: accepted packets
    are canonical, and their tag is the HMAC of everything before it. *)
Lemma cons_eq {A} (x y : A) l k : x = y → l = k → x :: l = y :: k.
Proof. by intros -> ->. Qed.

Ltac slice_back :=
  wire_simpl;
  first
  [ apply le_bytes_le_value; [by apply slice_ok | rewrite length_slice; lia]
  | match goal with |- _ = slice ?i 1 ?q => rewrite (slice_one i q) by lia end;
    first
    [ reflexivity
    | match goal with E : byte_at _ _ = _ |- _ => rewrite E; reflexivity end ]
  | by symmetry
  | done ].
Ltac canonical_slices part :=
  apply (take_eq_slices _ part); [reflexivity|]; cbn [slices Nat.add]; wire_unfold;
  repeat (apply cons_eq; [slice_back|]); reflexivity.

(** The guards of the decoders, as propositions. *)
Ltac decode_ok Hd :=
  run_ok_step Hd;
  match goal with
  | Hv : verify_fixed _ _ _ _ = Ok _ |- _ =>
      apply verify_fixed_ok in Hv as (Hl & Hm & Hver & Hv)
  end;
  cbv zeta in Hd; run_ok_step Hd; injection Hd as <-; simpl in *; bool_prop.
Ltac reencode :=
  apply sign_verified; [done | lia | wire_len |];
  match goal with Hl : length _ = _ |- _ => rewrite Hl end.

Lemma encode_decode_request p key r :
  bytes_ok p → decode_request p key = Ok r → encode_request r key = p.
Proof.
  intros Hp Hd. unfold decode_request in Hd. run_ok_step Hd.
  apply verify_fixed_ok in Hrun as (Hl & Hm & Hver & Hv). cbv zeta in Hd.
  run_ok_step Hd. injection Hd as <-. simpl in *. bool_prop.
  unfold encode_request, REQUEST_BYTES in *.
  apply sign_verified; [done|lia|wire_len|]. rewrite Hl.
  canonical_slices [4; 1; 1; 2; 4; 4; 8]%nat.
Qed.

Lemma encode_decode_begin p key b :
  bytes_ok p → decode_begin p key = Ok b → encode_begin b key = p.
Proof.
  intros Hp Hd. unfold decode_begin in Hd. decode_ok Hd.
  unfold encode_begin, BEGIN_BYTES in *. reencode.
  canonical_slices [4; 1; 1; 2; 4; 4; 8; 8; 4; 8; 2; 2; 8]%nat.
Qed.

Lemma encode_decode_ack p key a :
  bytes_ok p → decode_ack p key = Ok a → encode_ack a key = p.
Proof.
  intros Hp Hd. unfold decode_ack in Hd. decode_ok Hd.
  unfold encode_ack, ACK_BYTES in *. reencode.
  canonical_slices [4; 1; 1; 1; 1; 4; 4; 8; 8; 4]%nat.
Qed.

Lemma encode_decode_finished p key f :
  bytes_ok p → decode_finished p key = Ok f → encode_finished f key = p.
Proof.
  intros Hp Hd. unfold decode_finished in Hd. decode_ok Hd.
  unfold encode_finished, FINISHED_BYTES in *. reencode.
  canonical_slices [4; 1; 1; 2; 4; 4; 8; 8; 8]%nat.
Qed.

Lemma encode_decode_finished_ack p key i st :
  bytes_ok p → decode_finished_ack p key = Ok (i, st) → encode_finished_ack i st key = p.
Proof.
  intros Hp Hd. unfold decode_finished_ack in Hd. decode_ok Hd.
  unfold encode_finished_ack, FINISHED_ACK_BYTES in *. reencode.
  canonical_slices [4; 1; 1; 1; 1; 4; 4; 8; 8]%nat.
Qed.

Lemma verify_nonempty_key p key u : verify p key = Ok u → (16 ≤ length p)%nat.
Proof.
  unfold verify, PLAYBACK_TAG_BYTES.
  destruct (Nat.ltb_spec (length p) 16); [done|lia].
Qed.

Lemma encode_decode_mailbox_status p key s n :
  bytes_ok p → decode_mailbox_status p key = Ok (s, n) →
  encode_mailbox_status s n key = Ok p.
Proof.
  intros Hp Hd. unfold decode_mailbox_status in Hd.
  destruct (length p =? MAILBOX_STATUS_BYTES)%nat eqn:Hl; simpl in Hd; [|done].
  apply Nat.eqb_eq in Hl. run_ok_step Hd. run_ok_step Hd. destruct a. cbv zeta in Hd.
  run_ok_step Hd. injection Hd as <- <-. bool_prop.
  match goal with E : valid_mailbox_status _ = true |- _ => rename E into Hvalid end.
  unfold encode_mailbox_status. rewrite Hvalid. cbn [negb]. f_equal. simpl in *.
  unfold MAILBOX_STATUS_BYTES in *. reencode.
  canonical_slices [4; 1; 1; 1; 1; 4; 4]%nat.
Qed.

(** ** Round trips: decoding an encoded value *)

Ltac roundtrip_header :=
  rewrite verify_fixed_sign; [|wire_len|wire_unfold; lia|by wire_read|by wire_read].
Ltac identity_back Hi :=
  let E := fresh "Eid" in
  assert (E := Hi); destruct E as (? & ? & ? & ? & ?);
  unfold decode_identity; wire_read; rewrite ?le_value_one.

Lemma decode_begin_encode b key :
  begin_wf b → decode_begin (encode_begin b key) key = Ok b.
Proof.
  destruct b as [[s g c sg l] tb ts cb n]. intros ((Hv & ? & ? & ? & ?) & ? & ? & ? & ?).
  simpl in *. unfold decode_begin, encode_begin. roundtrip_header.
  cbn [rbind]. cbv zeta. unfold decode_identity. wire_read. rewrite ?le_value_one. simpl. guard_pass. done.
Qed.

Lemma decode_ack_encode a key :
  ack_wf a → decode_ack (encode_ack a key) key = Ok a.
Proof.
  destruct a as [[s g c sg l] st off]. intros ((Hv & ? & ? & ? & ?) & ? & ?).
  simpl in *. unfold decode_ack, encode_ack. roundtrip_header.
  cbn [rbind]. cbv zeta. unfold decode_identity. wire_read. rewrite ?le_value_one. simpl. guard_pass. done.
Qed.

Lemma decode_finished_encode f key :
  finished_wf f → decode_finished (encode_finished f key) key = Ok f.
Proof.
  destruct f as [[s g c sg l] n]. intros ((Hv & ? & ? & ? & ?) & ?).
  simpl in *. unfold decode_finished, encode_finished. roundtrip_header.
  cbn [rbind]. cbv zeta. unfold decode_identity. wire_read. rewrite ?le_value_one. simpl. guard_pass. done.
Qed.

Lemma decode_finished_ack_encode i st key :
  identity_wf i → 0 ≤ st ≤ 1 →
  decode_finished_ack (encode_finished_ack i st key) key = Ok (i, st).
Proof.
  destruct i as [s g c sg l]. intros (Hv & ? & ? & ? & ?) ?.
  simpl in *. unfold decode_finished_ack, encode_finished_ack. roundtrip_header.
  cbn [rbind]. cbv zeta. unfold decode_identity. wire_read. rewrite ?le_value_one. simpl. guard_pass. done.
Qed.

Lemma decode_mailbox_status_encode s n key :
  mailbox_wf s → in_u32 n →
  ∃ p, encode_mailbox_status s n key = Ok p ∧ decode_mailbox_status p key = Ok (s, n).
Proof.
  destruct s as [u r cov]. intros (Hv & Hlen & ? & ? & ?) ?. simpl in *.
  unfold encode_mailbox_status. rewrite Hv. simpl. eexists. split; [done|].
  unfold decode_mailbox_status. rewrite length_sign.
  replace (_ =? _)%nat with true by (symmetry; apply Nat.eqb_eq; wire_len).
  rewrite verify_sign by wire_len.
  wire_read. rewrite ?le_value_one. simpl. guard_pass. done.
Qed.

(** ** EIPD chunks *)

Lemma length_data_key_context i n : length (data_key_context i n) = 44%nat.
Proof. unfold data_key_context. wire_len. Qed.

Lemma length_data_nonce o : length (data_nonce o) = 12%nat.
Proof. unfold data_nonce. wire_len. Qed.

(** Reading a field of the encoder's header. *)
Lemma slice_take off n k p :
  (off + n ≤ k)%nat → slice off n (take k p) = slice off n p.
Proof.
  intros ?. apply list_eq. intros i. rewrite !lookup_slice. case_decide; [|done].
  rewrite lookup_take, decide_True by lia. done.
Qed.

Lemma slice_take_app off n k p q :
  (off + n ≤ k)%nat → (k ≤ length p)%nat →
  slice off n (take k p ++ q) = slice off n p.
Proof.
  intros. rewrite slice_app_l by (rewrite length_take; lia). by apply slice_take.
Qed.

(** The plaintext header of an EIPD packet. *)
Definition data_header (i : PlaybackIdentity) (offset : Z) (len : nat) : bytes :=
  let p := replicate DATA_HEADER_BYTES 0 in
  let p := splice 0 (ascii_bytes "EIPD") p in
  let p := splice 4 [PLAYBACK_VERSION] p in
  let p := splice 5 [id_slot i] p in
  let p := encode_identity i p in
  let p := put_u32 32 offset p in
  put_u16 36 (Z.of_nat len) p.

Lemma length_data_header i o n : length (data_header i o n) = 40%nat.
Proof. unfold data_header, DATA_HEADER_BYTES. wire_len. Qed.

Lemma take_splice k off src p :
  (off + length src ≤ k)%nat → take k (splice off src p) = splice off src (take k p).
Proof.
  intros ?. apply list_eq. intros i. rewrite lookup_take, !lookup_splice, lookup_take.
  case_decide; done.
Qed.

Lemma take_splice_out k off src p : (k ≤ off)%nat → take k (splice off src p) = take k p.
Proof.
  intros ?. apply list_eq. intros i. rewrite !lookup_take. case_decide; [|done].
  apply lookup_splice_out. lia.
Qed.

(** The encoder, with the header made explicit. *)
Lemma encode_data_eq i n o payload key :
  encode_data i n o payload key =
    if negb (valid_identity i) || (n =? 0) || (length payload =? 0)%nat
       || (PLAYBACK_CHUNK_BYTES <? length payload)%nat
    then Err Malformed
    else
      let header := data_header i o (length payload) in
      let sealed := gcm_seal (derive_data_key i n key) (data_nonce o) header payload in
      Ok (header ++ sealed.1 ++ sealed.2).
Proof.
  unfold encode_data. destruct (_ || _); [done|]. cbv zeta.
  unfold slice, DATA_HEADER_BYTES, PLAYBACK_TAG_BYTES. rewrite take_splice_out by lia.
  wire_unfold. unfold put_le. rewrite !take_splice by (simpl; lia).
  rewrite take_replicate, Nat.min_l by lia.
  rewrite (splice_spec 40 payload) by (rewrite !length_splice, length_replicate; lia).
  rewrite drop_app_ge by (rewrite length_take; lia).
  rewrite length_take, !length_splice, length_replicate, Nat.min_l, Nat.sub_diag, drop_0
    by lia.
  rewrite take_app_length. by destruct (gcm_seal _ _ _ _).
Qed.

Lemma data_header_fields i o n :
  identity_wf i → in_u32 o → Z.of_nat n < 65536 →
  decode_identity (data_header i o n) = i
  ∧ get_u32 (data_header i o n) 32 = o ∧ get_u16 (data_header i o n) 36 = Z.of_nat n
  ∧ slice 0 4 (data_header i o n) = ascii_bytes "EIPD"
  ∧ byte_at (data_header i o n) 4 = PLAYBACK_VERSION
  ∧ slice 6 2 (data_header i o n) = [0; 0] ∧ slice 38 2 (data_header i o n) = [0; 0].
Proof.
  destruct i as [s g c sg l]. intros (_ & ? & ? & ? & ?) ? ?. simpl in *.
  unfold data_header, DATA_HEADER_BYTES, decode_identity. cbv zeta.
  wire_unfold. rewrite !byte_at_slice. wire_simpl.
  rewrite !le_value_le_bytes_small, !le_value_one by wire_range. split_and!; reflexivity.
Qed.

Lemma get_le_app_l k p q off : (off + k ≤ length p)%nat → get_le k (p ++ q) off = get_le k p off.
Proof. intros ?. unfold get_le. by rewrite slice_app_l. Qed.

Lemma decode_identity_app p q :
  (32 ≤ length p)%nat → decode_identity (p ++ q) = decode_identity p.
Proof.
  intros ?. unfold decode_identity, get_u32, get_u64.
  rewrite !get_le_app_l, !byte_at_slice, slice_app_l by lia. done.
Qed.

Lemma decode_data_encode i n o payload key :
  identity_wf i → 0 < n → in_u32 o → (0 < length payload ≤ PLAYBACK_CHUNK_BYTES)%nat →
  ∃ p, encode_data i n o payload key = Ok p ∧ decode_data p n key = Ok (i, o, payload).
Proof.
  intros Hi Hn Ho [Hlo Hhi]. pose proof Hi as (Hv & _). rewrite encode_data_eq, Hv.
  rewrite (proj2 (Z.eqb_neq n 0)), (proj2 (Nat.eqb_neq (length payload) 0)),
    (proj2 (Nat.ltb_ge _ _)) by (done || lia).
  cbn [negb orb]. cbv zeta. eexists. split; [done|].
  set (h := data_header i o (length payload)).
  set (dk := derive_data_key i n key).
  destruct (gcm_seal dk (data_nonce o) h payload) as [ct tag] eqn:Hseal.
  pose proof (gcm_seal_lengths dk (data_nonce o) h payload) as [Hct Htag].
  rewrite Hseal in Hct, Htag. cbn [fst snd] in *.
  assert (Hh : length h = 40%nat) by apply length_data_header.
  destruct (data_header_fields i o (length payload) Hi Ho) as (Fi & Fo & Fn & Fm & Fv & F6 & F38);
    [unfold PLAYBACK_CHUNK_BYTES in *; lia|]. fold h in Fi, Fo, Fn, Fm, Fv, F6, F38.
  unfold decode_data, DATA_HEADER_BYTES, PLAYBACK_TAG_BYTES, get_u32, get_u16 in *.
  rewrite !length_app, Hh, Hct, Htag, decode_identity_app, Fi by lia.
  rewrite !slice_app_l, Fm, F6, F38 by lia.
  rewrite !byte_at_slice in *. rewrite slice_app_l, Fv by lia.
  rewrite !get_le_app_l, Fo, Fn, Nat2Z.id by lia.
  rewrite !bool_decide_eq_true_2 by done. rewrite Hv, Z.eqb_refl.
  rewrite (proj2 (Nat.ltb_ge _ _)), (proj2 (Z.eqb_neq n 0)) by lia.
  rewrite (proj2 (Nat.eqb_neq (length payload) 0)), (proj2 (Nat.ltb_ge _ _)) by lia.
  replace (_ =? _)%nat with true by (symmetry; apply Nat.eqb_eq; lia). cbn [negb orb].
  rewrite <- Hh, take_app_length, slice_app_r, Nat.sub_diag by lia.
  rewrite slice_app_l, slice_all by lia.
  rewrite drop_app_ge, drop_app_ge by lia.
  replace (length h + length payload - length h - length ct)%nat with 0%nat by lia.
  rewrite drop_0. fold dk. rewrite (proj2 (gcm_open_seal _ _ _ _ _ _) Hseal). done.
Qed.

Lemma data_header_canonical p i o :
  bytes_ok p → (40 ≤ length p)%nat → slice 0 4 p = ascii_bytes "EIPD" →
  byte_at p 4 = PLAYBACK_VERSION → slice 6 2 p = [0; 0] → slice 38 2 p = [0; 0] →
  decode_identity p = i → get_u32 p 32 = o →
  take 40 p = data_header i o (Z.to_nat (get_u16 p 36)).
Proof.
  intros Hp Hlen Hm Hver H6 H38 <- <-.
  unfold data_header, get_u16, DATA_HEADER_BYTES. cbv zeta. rewrite Z2Nat.id by (apply get_le_bounds; done).
  match goal with |- _ = ?q => transitivity (take 40 q); [symmetry|apply take_ge; wire_len] end.
  unfold decode_identity.
  canonical_slices [4; 1; 1; 2; 4; 4; 8; 8; 4; 2; 2]%nat.
Qed.

Lemma encode_decode_data p n key i o payload :
  bytes_ok p → decode_data p n key = Ok (i, o, payload) →
  encode_data i n o payload key = Ok p.
Proof.
  intros Hp Hd. unfold decode_data, DATA_HEADER_BYTES, PLAYBACK_TAG_BYTES in Hd.
  cbv zeta in Hd. run_ok Hd. subst i o payload. bool_prop.
  repeat match goal with
  | E : (_ =? _)%nat = true |- _ => apply Nat.eqb_eq in E
  | E : (_ =? _)%nat = false |- _ => apply Nat.eqb_neq in E
  | E : (_ <? _)%nat = false |- _ => apply Nat.ltb_ge in E
  end.
  set (len := Z.to_nat (get_u16 p 36)) in *.
  destruct (gcm_open _ _ _ _ _) as [pl|] eqn:Ho in Hrun; [|done].
  injection Hrun as <-. apply gcm_open_seal in Ho.
  pose proof (gcm_seal_lengths (derive_data_key (decode_identity p) n key)
    (data_nonce (get_u32 p 32)) (take 40 p) pl) as [Hct _].
  rewrite Ho in Hct. cbn [fst] in Hct. rewrite length_slice in Hct.
  assert (Hpl : length pl = len) by lia.
  pose proof (data_header_canonical p _ _ Hp ltac:(lia) ltac:(done) ltac:(done)
    ltac:(done) ltac:(done) eq_refl eq_refl) as Hh. fold len in Hh.
  rewrite encode_data_eq, Hpl. cbv zeta. rewrite <- Hh, Ho. cbn [fst snd].
  match goal with E : valid_identity _ = true |- _ => rewrite E end.
  rewrite (proj2 (Z.eqb_neq n 0)), (proj2 (Nat.eqb_neq len 0)),
    (proj2 (Nat.ltb_ge PLAYBACK_CHUNK_BYTES len)) by done.
  cbn [negb orb]. f_equal.
  change (take 40 p) with (slice 0 40 p). change (slice 40 len p) with (slice (0 + 40) len p).
  rewrite app_assoc, slice_join. unfold slice. rewrite drop_0. apply take_drop.
Qed.

(** Two transfers never share a key context, two offsets never share a nonce. *)
Lemma data_key_context_inj i n i' n' :
  identity_wf i → identity_wf i' → in_u64 n → in_u64 n' →
  data_key_context i n = data_key_context i' n' → i = i' ∧ n = n'.
Proof.
  destruct i as [s g c sg l], i' as [s' g' c' sg' l'].
  intros (_ & ? & ? & ? & ?) (_ & ? & ? & ? & ?) ? ? E. simpl in *.
  assert (F : ∀ off k, slice off k (data_key_context (mk_identity s g c sg l) n)
    = slice off k (data_key_context (mk_identity s' g' c' sg' l') n')) by (by rewrite E).
  pose proof (F 8%nat 1%nat) as F1. pose proof (F 12%nat 4%nat) as F2.
  pose proof (F 16%nat 4%nat) as F3. pose proof (F 20%nat 8%nat) as F4.
  pose proof (F 28%nat 8%nat) as F5. pose proof (F 36%nat 8%nat) as F6. clear E F.
  unfold data_key_context in *. cbv zeta in *. wire_unfold. unfold put_le in *.
  repeat match goal with
  | G : slice _ _ _ = slice _ _ _ |- _ =>
      repeat (first [ rewrite slice_splice_before in G by reflexivity
                    | rewrite slice_splice_after in G by reflexivity
                    | rewrite slice_splice_eq in G by len_solve ]);
      apply (f_equal le_value) in G;
      rewrite ?le_value_one, ?le_value_le_bytes_small in G by wire_range; simpl in G
  end.
  by subst.
Qed.

Lemma data_nonce_inj o o' :
  in_u32 o → in_u32 o' → data_nonce o = data_nonce o' → o = o'.
Proof.
  intros ?? E. assert (F : slice 0 4 (data_nonce o) = slice 0 4 (data_nonce o')) by (by rewrite E).
  unfold data_nonce in F. wire_unfold. unfold put_le in F.
  rewrite !slice_splice_eq in F by len_solve. apply (f_equal le_value) in F.
  by rewrite !le_value_le_bytes_small in F by wire_range.
Qed.

End codec.

(** ** Properties *)

(** C8 (round trip, lan_playback.rs): every authenticated control packet the host or the
    device encodes from a well-formed value is decoded back to that very value under the
    same key: EIPR requests, EIPB begins, EIPA acknowledgements, EIPF finished reports,
    EIPK commits and EIMB mailbox states. *)
Theorem control_packets_roundtrip `{Crypto} key :
  (∀ r, request_wf r → decode_request (encode_request r key) key = Ok r)
  ∧ (∀ b, begin_wf b → decode_begin (encode_begin b key) key = Ok b)
  ∧ (∀ a, ack_wf a → decode_ack (encode_ack a key) key = Ok a)
  ∧ (∀ f, finished_wf f → decode_finished (encode_finished f key) key = Ok f)
  ∧ (∀ i st, identity_wf i → 0 ≤ st ≤ 1 →
       decode_finished_ack (encode_finished_ack i st key) key = Ok (i, st))
  ∧ (∀ s n, mailbox_wf s → in_u32 n → ∃ p, encode_mailbox_status s n key = Ok p
       ∧ decode_mailbox_status p key = Ok (s, n)).
Proof.
  repeat apply conj; auto using decode_request_encode, decode_begin_encode, decode_ack_encode,
    decode_finished_encode, decode_finished_ack_encode, decode_mailbox_status_encode.
Qed.

(** C9 (canonicity and authenticity, lan_playback.rs): a byte string that a decoder accepts
    is exactly the encoding of the value it returns, under the same key.  So no two packets
    mean the same value, reserved bytes are zero, and the 16-byte tag of an accepted packet
    is the HMAC of all the bytes before it. *)
Theorem accepted_packets_canonical `{Crypto} p key :
  bytes_ok p →
  (∀ r, decode_request p key = Ok r → encode_request r key = p)
  ∧ (∀ b, decode_begin p key = Ok b → encode_begin b key = p)
  ∧ (∀ a, decode_ack p key = Ok a → encode_ack a key = p)
  ∧ (∀ f, decode_finished p key = Ok f → encode_finished f key = p)
  ∧ (∀ i st, decode_finished_ack p key = Ok (i, st) → encode_finished_ack i st key = p)
  ∧ (∀ s n, decode_mailbox_status p key = Ok (s, n) → encode_mailbox_status s n key = Ok p)
  ∧ (∀ n i o payload, decode_data p n key = Ok (i, o, payload) →
       encode_data i n o payload key = Ok p).
Proof.
  intros. repeat apply conj; eauto using encode_decode_request, encode_decode_begin, encode_decode_ack,
    encode_decode_finished, encode_decode_finished_ack, encode_decode_mailbox_status,
    encode_decode_data.
Qed.

(** An EIAD chunk of 1 to 1024 bytes sealed for a valid
    transfer identity and nonce is accepted by the receiver of the same transfer and gives
    back the identity, the offset and the plaintext. *)
Theorem data_chunk_roundtrip `{Crypto} i n o payload key :
  identity_wf i → 0 < n → in_u32 o → (0 < length payload ≤ PLAYBACK_CHUNK_BYTES)%nat →
  ∃ p, encode_data i n o payload key = Ok p ∧ decode_data p n key = Ok (i, o, payload).
Proof. apply decode_data_encode. Qed.

(** C10 (safety, lan_playback.rs): two EIPD chunks that are sealed with the same HMAC key
    context and the same GCM nonce belong to the same transfer (identity and request nonce)
    and to the same offset: the pair (key, nonce) is never reused for other data positions. *)
Theorem chunk_key_nonce_unique i n o i' n' o' :
  identity_wf i → identity_wf i' → in_u64 n → in_u64 n' → in_u32 o → in_u32 o' →
  data_key_context i n = data_key_context i' n' → data_nonce o = data_nonce o' →
  i = i' ∧ n = n' ∧ o = o'.
Proof.
  intros Hi Hi' Hn Hn' Ho Ho' Ec En.
  destruct (data_key_context_inj i n i' n' Hi Hi' Hn Hn' Ec) as [-> ->].
  by rewrite (data_nonce_inj o o' Ho Ho' En).
Qed.

(** ** Witnesses *)

Definition demo_key : bytes := replicate 32 7.
Definition demo_identity : PlaybackIdentity := mk_identity 2 5 9 3 77.

Definition demo_request : PlaybackRequest := mk_request 1 2 3 4.
Definition demo_packet : bytes := encode_request demo_request demo_key (H:=demo_crypto).

Lemma accepted_packets_canonical_witness :
  decode_request demo_packet demo_key (H:=demo_crypto) = Ok demo_request
  ∧ encode_request demo_request demo_key (H:=demo_crypto) = demo_packet.
Proof.
  assert (Hd : decode_request demo_packet demo_key (H:=demo_crypto) = Ok demo_request)
    by (vm_compute; reflexivity).
  split; [exact Hd|].
  refine (proj1 (accepted_packets_canonical (H:=demo_crypto) demo_packet demo_key _)
    demo_request Hd).
  apply (bool_decide_unpack _). vm_compute. exact I.
Defined.

Ltac wf_concrete :=
  repeat apply conj; try reflexivity; vm_compute; first [discriminate | lia].

Lemma data_chunk_roundtrip_witness :
  ∃ p, encode_data demo_identity 11 1024 [1; 2; 3] demo_key (H:=demo_crypto) = Ok p
    ∧ decode_data p 11 demo_key (H:=demo_crypto) = Ok (demo_identity, 1024, [1; 2; 3]).
Proof. apply (data_chunk_roundtrip (H:=demo_crypto)); wf_concrete. Defined.

Lemma chunk_key_nonce_unique_witness :
  demo_identity = demo_identity ∧ 11 = 11 ∧ 1024 = 1024.
Proof.
  apply (chunk_key_nonce_unique demo_identity 11 1024 demo_identity 11 1024); wf_concrete.
Defined.
