(* ===== verification/Audio.v ===== *)
(** * Audio: the IMA-ADPCM codec and the containers (app/host/src/audio.rs) *)

From S2P Require Import Prelude Bytes.

(** * The IMA ADPCM codec of the host's audio files (app/host/src/audio.rs)

    The step and index tables, the sample encoder and decoder with their [i32] state
    (predictor and step index), and the frame encoder shared by the cache container
    and the device container.  Indexing out of range is the error [Panic], as the
    Rust program would stop there; [encode_ima_sample_ok] and [decode_ima_sample_ok]
    show that the tables are never left. *)

Inductive AudioError := InvalidPcm | InvalidWav | InvalidEiad | Size | Panic.

#[export] Instance AudioError_eq_dec : EqDecision AudioError.
Proof. solve_decision. Defined.

Definition IMA_INDEX_TABLE : list Z := [-1; -1; -1; -1; 2; 4; 6; 8; -1; -1; -1; -1; 2; 4; 6; 8].
Definition IMA_STEP_TABLE : list Z :=
  [7; 8; 9; 10; 11; 12; 13; 14; 16; 17; 19; 21; 23; 25; 28; 31; 34; 37; 41; 45; 50; 55; 60; 66;
   73; 80; 88; 97; 107; 118; 130; 143; 157; 173; 190; 209; 230; 253; 279; 307; 337; 371; 408; 449;
   494; 544; 598; 658; 724; 796; 876; 963; 1060; 1166; 1282; 1411; 1552; 1707; 1878; 2066; 2272;
   2499; 2749; 3024; 3327; 3660; 4026; 4428; 4871; 5358; 5894; 6484; 7132; 7845; 8630; 9493;
   10442; 11487; 12635; 13899; 15289; 16818; 18500; 20350; 22385; 24623; 27086; 29794; 32767].

Definition i16_min : Z := -32768.
Definition i16_max : Z := 32767.
Definition in_i16 (z : Z) : Prop := i16_min ≤ z ≤ i16_max.

(** [value.clamp(lo, hi)] *)
Definition clamp (lo hi z : Z) : Z := Z.max lo (Z.min hi z).

(** [table[i]], a panic when [i] is out of range *)
Definition index {A} (table : list A) (i : Z) : result AudioError A :=
  if i <? 0 then Err Panic else of_option Panic (table !! Z.to_nat i).

(** [i16::from_le_bytes]; [to_le_bytes] is [le_bytes 2], two's complement by the
    floor division. *)
Definition i16_from_le (l : bytes) : Z :=
  let v := le_value l in if v <=? i16_max then v else v - 65536.

(** [chunks_exact(2).map(|pair| i16::from_le_bytes([pair[0], pair[1]]))] *)
Fixpoint pcm_samples (pcm : bytes) : list Z :=
  match pcm with
  | b0 :: b1 :: pcm => i16_from_le [b0; b1] :: pcm_samples pcm
  | _ => []
  end.

Definition pcm_bytes (samples : list Z) : bytes := mjoin (le_bytes 2 <$> samples).

(** [slice.chunks(n)]: the last chunk may be shorter. *)
Fixpoint chunks_fuel {A} (fuel n : nat) (l : list A) : list (list A) :=
  match fuel, l with
  | S fuel, _ :: _ => take n l :: chunks_fuel fuel n (drop n l)
  | _, _ => []
  end.
Definition chunks {A} (n : nat) (l : list A) : list (list A) := chunks_fuel (length l) n l.

Definition div_ceil (a b : nat) : nat := ((a + b - 1) / b)%nat.

(** ** One sample *)

Definition encode_ima_sample (sample predictor step_index : Z)
    : result AudioError (Z * Z * Z) :=
  let? step := index IMA_STEP_TABLE step_index in
  let difference := sample - predictor in
  let code := 0 in
  let '(code, difference) :=
    if difference <? 0 then (Z.lor code 8, - difference) else (code, difference) in
  let delta := Z.shiftr step 3 in
  let '(code, difference, delta) :=
    if step <=? difference then (Z.lor code 4, difference - step, delta + step)
    else (code, difference, delta) in
  let '(code, difference, delta) :=
    if Z.shiftr step 1 <=? difference
    then (Z.lor code 2, difference - Z.shiftr step 1, delta + Z.shiftr step 1)
    else (code, difference, delta) in
  let '(code, delta) :=
    if Z.shiftr step 2 <=? difference then (Z.lor code 1, delta + Z.shiftr step 2)
    else (code, delta) in
  let predictor :=
    if negb (Z.land code 8 =? 0) then predictor - delta else predictor + delta in
  let predictor := clamp i16_min i16_max predictor in
  let? adjust := index IMA_INDEX_TABLE code in
  Ok (code, predictor, clamp 0 88 (step_index + adjust)).

Definition decode_ima_sample (code predictor step_index : Z) : result AudioError (Z * Z) :=
  let? step := index IMA_STEP_TABLE step_index in
  let delta := Z.shiftr step 3 in
  let delta := if negb (Z.land code 4 =? 0) then delta + step else delta in
  let delta := if negb (Z.land code 2 =? 0) then delta + Z.shiftr step 1 else delta in
  let delta := if negb (Z.land code 1 =? 0) then delta + Z.shiftr step 2 else delta in
  let predictor :=
    clamp i16_min i16_max
      (if negb (Z.land code 8 =? 0) then predictor - delta else predictor + delta) in
  let? adjust := index IMA_INDEX_TABLE code in
  Ok (predictor, clamp 0 88 (step_index + adjust)).

(** ** One frame *)

(** [iter().position(p)] *)
Fixpoint position {A} (p : A → bool) (l : list A) : option nat :=
  match l with
  | [] => None
  | x :: l => if p x then Some 0%nat else S <$> position p l
  end.

Definition initial_step_index (first : Z) (rest : list Z) : Z :=
  match rest with
  | [] => 0
  | second :: _ =>
      let difference := Z.abs (second - first) in
      Z.of_nat (default 88%nat (position (λ step, Z.max difference 7 <=? step) IMA_STEP_TABLE))
  end.

(** The nibble loop; [u8 << 4] drops what leaves the byte. *)
Fixpoint encode_nibbles (rest : list Z) (predictor step_index : Z) (pending : option Z)
    (output : bytes) : result AudioError bytes :=
  match rest with
  | [] => Ok (match pending with Some low => output ++ [low] | None => output end)
  | sample :: rest =>
      let? r := encode_ima_sample sample predictor step_index in
      let '(nibble, predictor, step_index) := r in
      match pending with
      | Some low =>
          encode_nibbles rest predictor step_index None
            (output ++ [Z.lor low (Z.land (Z.shiftl nibble 4) 255)])
      | None => encode_nibbles rest predictor step_index (Some nibble) output
      end
  end.

(** [u16::try_from(n)] *)
Definition u16_try_from (e : AudioError) (n : nat) : result AudioError Z :=
  if Z.of_nat n <=? u16_max then Ok (Z.of_nat n) else Err e.

Definition encode_ima_frame_with_layout (samples : list Z) (output : bytes)
    (include_payload_length : bool) : result AudioError bytes :=
  match samples with
  | [] => Err InvalidPcm
  | first :: rest =>
      let encoded_bytes := div_ceil (length rest) 2 in
      let step_index := initial_step_index first rest in
      let? count := u16_try_from Size (length samples) in
      let output := output ++ le_bytes 2 count ++ le_bytes 2 first ++ [step_index; 0] in
      let? output :=
        if include_payload_length
        then let? n := u16_try_from Size encoded_bytes in Ok (output ++ le_bytes 2 n)
        else Ok output in
      encode_nibbles rest first step_index None output
  end.

Definition encode_ima_frame (samples : list Z) (output : bytes) : result AudioError bytes :=
  encode_ima_frame_with_layout samples output true.

(** ** What a listener hears: the encoder's own predictions *)

Fixpoint follow (predictor step_index : Z) (rest : list Z) : list Z :=
  match rest with
  | [] => []
  | sample :: rest =>
      match encode_ima_sample sample predictor step_index with
      | Ok (_, predictor, step_index) => predictor :: follow predictor step_index rest
      | Err _ => []
      end
  end.

Definition reconstruct (frame : list Z) : list Z :=
  match frame with
  | [] => []
  | first :: rest => first :: follow first (initial_step_index first rest) rest
  end.

(** The codes the encoder emits along the way. *)
Fixpoint codes (predictor step_index : Z) (rest : list Z) : list Z :=
  match rest with
  | [] => []
  | sample :: rest =>
      match encode_ima_sample sample predictor step_index with
      | Ok (code, predictor, step_index) => code :: codes predictor step_index rest
      | Err _ => []
      end
  end.

(** Two codes a byte, low nibble first. *)
Fixpoint packed (cs : list Z) : bytes :=
  match cs with
  | [] => []
  | [low] => [low]
  | low :: high :: cs => Z.lor low (Z.land (Z.shiftl high 4) 255) :: packed cs
  end.

(** ** The tables *)

Definition in_index (i : Z) : Prop := 0 ≤ i ≤ 88.
Definition in_code (c : Z) : Prop := 0 ≤ c ≤ 15.

(** Case analysis on a code. *)
Lemma code_ind (P : Z → Prop) :
  P 0 → P 1 → P 2 → P 3 → P 4 → P 5 → P 6 → P 7 → P 8 → P 9 → P 10 → P 11 → P 12 → P 13 →
  P 14 → P 15 → ∀ c, in_code c → P c.
Proof.
  intros. unfold in_code in *.
  assert (c = 0 ∨ c = 1 ∨ c = 2 ∨ c = 3 ∨ c = 4 ∨ c = 5 ∨ c = 6 ∨ c = 7 ∨ c = 8 ∨ c = 9
    ∨ c = 10 ∨ c = 11 ∨ c = 12 ∨ c = 13 ∨ c = 14 ∨ c = 15) by lia.
  naive_solver.
Qed.

Lemma step_index_ok i :
  in_index i → ∃ step, index IMA_STEP_TABLE i = Ok step ∧ 7 ≤ step ≤ 32767.
Proof.
  intros [? ?]. unfold index. rewrite (proj2 (Z.ltb_ge i 0)) by lia.
  destruct (lookup_lt_is_Some_2 IMA_STEP_TABLE (Z.to_nat i)) as [step Hs]; [simpl; lia|].
  rewrite Hs. exists step. split; [done|]. revert step Hs.
  assert (Forall (λ step, 7 ≤ step ≤ 32767) IMA_STEP_TABLE) as Hall.
  { apply (bool_decide_unpack _). vm_compute. exact I. }
  intros step Hs. exact (Forall_lookup_1 _ _ _ _ Hall Hs).
Qed.

Lemma adjust_ok c : in_code c → ∃ a, index IMA_INDEX_TABLE c = Ok a ∧ -1 ≤ a ≤ 8.
Proof. intros Hc. pattern c. apply code_ind; [..|done]; eexists; (split; [reflexivity|lia]). Qed.

Lemma clamp_index i : in_index (clamp 0 88 i).
Proof. unfold in_index, clamp. lia. Qed.
Lemma clamp_i16 z : in_i16 (clamp i16_min i16_max z).
Proof. unfold in_i16, clamp, i16_min, i16_max. lia. Qed.

(** ** One sample: the decoder follows the encoder *)

(** [halves step]: the three shifted steps, as bounds [lia] can use. *)
Lemma shifted_steps step :
  0 ≤ step →
  2 * Z.shiftr step 1 ≤ step ≤ 2 * Z.shiftr step 1 + 1
  ∧ 4 * Z.shiftr step 2 ≤ step ≤ 4 * Z.shiftr step 2 + 3
  ∧ 8 * Z.shiftr step 3 ≤ step ≤ 8 * Z.shiftr step 3 + 7.
Proof. intros ?. rewrite !Z.shiftr_div_pow2 by lia. simpl. div_lia. Qed.

(** Splits the four comparisons of the encoder. *)
Ltac encoder_cases :=
  repeat match goal with
  | |- context [if ?a <? ?b then _ else _] => destruct (Z.ltb_spec a b); cbn beta iota zeta
  | |- context [if ?a <=? ?b then _ else _] => destruct (Z.leb_spec a b); cbn beta iota zeta
  end.

Lemma encode_ima_sample_ok sample predictor step_index :
  in_index step_index →
  ∃ code p i,
    encode_ima_sample sample predictor step_index = Ok (code, p, i)
    ∧ decode_ima_sample code predictor step_index = Ok (p, i)
    ∧ in_code code ∧ in_i16 p ∧ in_index i.
Proof.
  intros Hi. destruct (step_index_ok _ Hi) as (step & Hs & Hb).
  unfold encode_ima_sample, decode_ima_sample. rewrite Hs. cbn [rbind].
  generalize (Z.shiftr step 1) (Z.shiftr step 2) (Z.shiftr step 3). intros s1 s2 s3.
  encoder_cases; cbn;
    (do 3 eexists; (split; [reflexivity|]); (split; [reflexivity|]));
    (split; [vm_compute; split; congruence|split; [apply clamp_i16|apply clamp_index]]).
Qed.

(** The quantiser's error: within an eighth of the step, or a whole step closer. *)
Lemma encode_ima_sample_error sample predictor step_index step code p i :
  in_i16 sample → in_index step_index → index IMA_STEP_TABLE step_index = Ok step →
  encode_ima_sample sample predictor step_index = Ok (code, p, i) →
  Z.abs (sample - p) ≤ Z.max (step / 8 + 2) (Z.abs (sample - predictor) - step).
Proof.
  intros Hsample Hi Hs. destruct (step_index_ok _ Hi) as (step' & Hs' & Hb).
  rewrite Hs in Hs'. injection Hs' as <-.
  unfold encode_ima_sample. rewrite Hs. cbn [rbind].
  pose proof (shifted_steps step) as Hh. rewrite (Z.shiftr_div_pow2 step 3) by lia.
  rewrite (Z.shiftr_div_pow2 step 3) in Hh by lia. change (2 ^ 3) with 8 in *.
  revert Hh. generalize (Z.shiftr step 1) (Z.shiftr step 2) (step / 8).
  intros s1 s2 s3 Hh. specialize (Hh ltac:(lia)). unfold in_i16, i16_min, i16_max in *.
  encoder_cases; cbn; intros [= _ <- _]; unfold clamp, i16_min, i16_max; lia.
Qed.

Lemma decode_ima_sample_ok code predictor step_index :
  in_code code → in_index step_index →
  ∃ p i, decode_ima_sample code predictor step_index = Ok (p, i) ∧ in_i16 p ∧ in_index i.
Proof.
  intros Hc Hi. destruct (step_index_ok _ Hi) as (step & Hs & _).
  destruct (adjust_ok _ Hc) as (a & Ha & _).
  unfold decode_ima_sample. rewrite Hs, Ha. cbn [rbind].
  do 2 eexists. split; [reflexivity|]. split; [apply clamp_i16|apply clamp_index].
Qed.

(** ** Frames *)

Lemma position_lt {A} (p : A → bool) l n : position p l = Some n → (n < length l)%nat.
Proof.
  revert n. induction l as [|x l IH]; intros n; simpl; [done|].
  destruct (p x); [intros [= <-]; lia|].
  destruct (position p l); simpl; [|done]. intros [= <-]. specialize (IH _ eq_refl). lia.
Qed.

Lemma initial_step_index_ok first rest : in_index (initial_step_index first rest).
Proof.
  unfold in_index, initial_step_index. destruct rest as [|second rest]; [lia|].
  destruct (position _ IMA_STEP_TABLE) as [n|] eqn:E; simpl; [|lia].
  apply position_lt in E. simpl in E. lia.
Qed.

Lemma length_follow p i rest : in_index i → length (follow p i rest) = length rest.
Proof.
  revert p i. induction rest as [|s rest IH]; intros p i Hi; simpl; [done|].
  destruct (encode_ima_sample_ok s p i Hi) as (c & p' & i' & -> & _ & _ & _ & Hi').
  simpl. by rewrite IH.
Qed.

Lemma length_codes p i rest : in_index i → length (codes p i rest) = length rest.
Proof.
  revert p i. induction rest as [|s rest IH]; intros p i Hi; simpl; [done|].
  destruct (encode_ima_sample_ok s p i Hi) as (c & p' & i' & -> & _ & _ & _ & Hi').
  simpl. by rewrite IH.
Qed.

Lemma follow_i16 p i rest : in_index i → Forall in_i16 (follow p i rest).
Proof.
  revert p i. induction rest as [|s rest IH]; intros p i Hi; simpl; [done|].
  destruct (encode_ima_sample_ok s p i Hi) as (c & p' & i' & -> & _ & _ & ? & Hi').
  constructor; auto.
Qed.

Lemma codes_ok p i rest : in_index i → Forall in_code (codes p i rest).
Proof.
  revert p i. induction rest as [|s rest IH]; intros p i Hi; simpl; [done|].
  destruct (encode_ima_sample_ok s p i Hi) as (c & p' & i' & -> & _ & ? & _ & Hi').
  constructor; auto.
Qed.

Lemma length_reconstruct frame : length (reconstruct frame) = length frame.
Proof.
  destruct frame as [|first rest]; simpl; [done|].
  by rewrite length_follow by apply initial_step_index_ok.
Qed.

Lemma reconstruct_i16 frame : Forall in_i16 frame → Forall in_i16 (reconstruct frame).
Proof.
  destruct 1 as [|first rest Hf _]; simpl; [done|].
  constructor; [done|]. apply follow_i16, initial_step_index_ok.
Qed.

(** The nibble loop emits the packed codes. *)
Lemma encode_nibbles_eq rest p i pending output :
  in_index i →
  encode_nibbles rest p i pending output
  = Ok (output ++ packed (option_list pending ++ codes p i rest)).
Proof.
  revert p i pending output. induction rest as [|s rest IH]; intros p i pending output Hi; simpl.
  { destruct pending; simpl; by rewrite ?app_nil_r. }
  destruct (encode_ima_sample_ok s p i Hi) as (c & p' & i' & -> & _ & _ & _ & Hi').
  simpl. destruct pending as [low|]; simpl; rewrite IH by done; simpl; [|done].
  by rewrite <- app_assoc.
Qed.

Lemma packed_ind (P : list Z → Prop) :
  P [] → (∀ x, P [x]) → (∀ x y l, P l → P (x :: y :: l)) → ∀ l, P l.
Proof.
  intros H0 H1 H2. fix rec 1. intros [|x [|y l]]; [done|apply H1|apply H2, rec].
Qed.

Lemma div_ceil_two n : div_ceil (S (S n)) 2 = S (div_ceil n 2).
Proof.
  unfold div_ceil. replace (S (S n) + 2 - 1)%nat with (n + 2 - 1 + 1 * 2)%nat by lia.
  rewrite Nat.div_add by lia. lia.
Qed.

Lemma length_packed cs : length (packed cs) = div_ceil (length cs) 2.
Proof.
  induction cs as [|x|x y cs IH] using packed_ind; [done|done|].
  cbn [packed length]. by rewrite div_ceil_two, IH.
Qed.

(** Unpacking gives the codes back, low nibble first. *)
Definition nibble_at (payload : bytes) (n : nat) : Z :=
  let b := byte_at payload (n / 2) in
  if Nat.even n then Z.land b 15 else Z.shiftr b 4.

Lemma pack_nibbles low high :
  in_code low → in_code high →
  let b := Z.lor low (Z.land (Z.shiftl high 4) 255) in
  is_byte b ∧ Z.land b 15 = low ∧ Z.shiftr b 4 = high.
Proof.
  intros Hl Hh. pattern low. apply code_ind; [..|done];
    pattern high; (apply code_ind; [..|done]); vm_compute; repeat split; congruence.
Qed.

Lemma code_byte c : in_code c → is_byte c ∧ Z.land c 15 = c ∧ Z.shiftr c 4 = 0.
Proof.
  intros Hc. pattern c. apply code_ind; [..|done]; vm_compute; repeat split; congruence.
Qed.

Lemma packed_ok cs : Forall in_code cs → bytes_ok (packed cs).
Proof.
  induction cs as [|x|x y cs IH] using packed_ind; intros Hc; simpl; [done|..].
  - rewrite Forall_singleton in Hc. destruct (code_byte x Hc) as [? _]. by constructor.
  - apply Forall_cons in Hc as [Hx [Hy Hc]%Forall_cons].
    destruct (pack_nibbles x y Hx Hy) as [? _]. constructor; [done|by apply IH].
Qed.

Lemma nibble_at_cons b payload n : nibble_at (b :: payload) (S (S n)) = nibble_at payload n.
Proof.
  unfold nibble_at. replace (S (S n) / 2)%nat with (S (n / 2))%nat; [done|].
  replace (S (S n)) with (n + 1 * 2)%nat by lia. rewrite Nat.div_add by lia. lia.
Qed.

Lemma nibble_at_packed cs n c :
  Forall in_code cs → cs !! n = Some c → nibble_at (packed cs) n = c.
Proof.
  revert n. induction cs as [|x|x y cs IH] using packed_ind; intros n Hc Hn; [done|..].
  - rewrite Forall_singleton in Hc. destruct n; [|done]. injection Hn as ->. by apply code_byte.
  - apply Forall_cons in Hc as [Hx [Hy Hc]%Forall_cons].
    destruct (pack_nibbles x y Hx Hy) as (_ & El & Eh).
    destruct n as [|[|n]]; simpl in Hn; [injection Hn as <-; exact El| |].
    + injection Hn as <-. exact Eh.
    + cbn [packed]. rewrite nibble_at_cons. by apply IH.
Qed.

(** The unused half of the last byte is zero. *)
Lemma packed_odd_tail cs :
  Forall in_code cs → Nat.odd (length cs) = true →
  Z.land (byte_at (packed cs) (div_ceil (length cs) 2 - 1)) 240 = 0.
Proof.
  induction cs as [|x|x y cs IH] using packed_ind; intros Hc; [done|..].
  - intros _. rewrite Forall_singleton in Hc. cbn.
    pattern x. apply code_ind; [..|exact Hc]; reflexivity.
  - apply Forall_cons in Hc as [_ [_ Hc]%Forall_cons]. intros Ho.
    cbn [length] in *. rewrite div_ceil_two. specialize (IH Hc Ho).
    assert (1 ≤ div_ceil (length cs) 2)%nat as Hpos.
    { destruct cs as [|? ?]; [done|]. unfold div_ceil. cbn [length].
      apply Nat.div_le_lower_bound; lia. }
    replace (S (div_ceil (length cs) 2) - 1)%nat with (S (div_ceil (length cs) 2 - 1)) by lia.
    exact IH.
Qed.

(** * The audio containers of the host (app/host/src/audio.rs)

    WAV and EIAD files around 48 kHz mono PCM: validation, the encoders, the parsers
    of untrusted input, the decoder and the transcoder for the device's own EIAD
    layout.  A [usize] is a [nat] (buffers are far below 2^64 bytes), the counters
    read from a file are [Z]; slicing or indexing out of range and an unsigned
    subtraction below zero are the error [Panic]. *)

Definition TTS_SAMPLE_RATE : Z := 48000.
Definition MAX_TTS_SECONDS : Z := 150.
Definition EIAD_FRAME_SAMPLES : nat := 960.
Definition DEVICE_EIAD_FRAME_SAMPLES : nat := 480.
Definition DEVICE_EIAD_HEADER_BYTES : nat := 20.
Definition DEVICE_EIAD_FRAME_HEADER_BYTES : nat := 6.
Definition WAV_HEADER_BYTES : nat := 44.
Definition EIAD_HEADER_BYTES : nat := 32.
Definition EIAD_FRAME_HEADER_BYTES : nat := 8.
Definition EIAD_VERSION : Z := 1.

Record EiadMetadata := mk_metadata {
  md_sample_rate : Z;
  md_samples : Z;
  md_frames : Z;
}.

Record AudioArtifacts := mk_artifacts {
  aa_wav : bytes;
  aa_eiad : bytes;
  aa_samples : Z;
  aa_frames : Z;
}.

Definition duration_ms (a : AudioArtifacts) : Z :=
  Z.min u64_max (aa_samples a * 1000) / TTS_SAMPLE_RATE.

(** ** Reading *)

(** [&bytes[off..off + n]] *)
Definition range (p : bytes) (off n : nat) : result AudioError bytes :=
  of_option Panic (get_slice off n p).
(** [bytes[i]] *)
Definition byte (p : bytes) (i : nat) : result AudioError Z := of_option Panic (p !! i).

Definition read_le (n : nat) (p : bytes) (off : nat) : result AudioError Z :=
  let? value := of_option InvalidEiad (get_slice off n p) in Ok (le_value value).
Definition read_u16 (p : bytes) (off : nat) : result AudioError Z := read_le 2 p off.
Definition read_u32 (p : bytes) (off : nat) : result AudioError Z := read_le 4 p off.
Definition read_u64 (p : bytes) (off : nat) : result AudioError Z := read_le 8 p off.

(** An operand of a chain of [||]: the value read must be the expected one. *)
Definition expect {A} `{EqDecision A} (e : AudioError) (r : result AudioError A) (a : A)
    : result AudioError unit :=
  let? value := r in require (bool_decide (value = a)) e.

(** [a - b] on unsigned integers *)
Definition unsigned_sub (a b : Z) : result AudioError Z :=
  if b <=? a then Ok (a - b) else Err Panic.

Definition z_div_ceil (a b : Z) : Z := (a + b - 1) / b.

Definition MAX_TTS_SAMPLES : Z := TTS_SAMPLE_RATE * MAX_TTS_SECONDS.

(** ** PCM and WAV *)

Definition validate_pcm (pcm_le : bytes) : result AudioError Z :=
  if (length pcm_le =? 0)%nat || negb (Nat.even (length pcm_le)) then Err InvalidPcm
  else
    let samples := Z.of_nat (length pcm_le / 2) in
    if MAX_TTS_SAMPLES <? samples then Err InvalidPcm else Ok samples.

Definition u32_try_from (e : AudioError) (n : nat) : result AudioError Z :=
  if Z.of_nat n <=? u32_max then Ok (Z.of_nat n) else Err e.

Definition encode_wav (pcm_le : bytes) : result AudioError bytes :=
  let? _ := validate_pcm pcm_le in
  let? data_bytes := u32_try_from Size (length pcm_le) in
  let? riff_bytes := of_option Size (checked_add u32_max data_bytes 36) in
  let? byte_rate :=
    of_option Size (if TTS_SAMPLE_RATE * 2 <=? u32_max then Some (TTS_SAMPLE_RATE * 2) else None) in
  Ok (ascii_bytes "RIFF" ++ le_bytes 4 riff_bytes ++ ascii_bytes "WAVEfmt "
      ++ le_bytes 4 16 ++ le_bytes 2 1 ++ le_bytes 2 1 ++ le_bytes 4 TTS_SAMPLE_RATE
      ++ le_bytes 4 byte_rate ++ le_bytes 2 2 ++ le_bytes 2 16 ++ ascii_bytes "data"
      ++ le_bytes 4 data_bytes ++ pcm_le).

(** The sizes a seekless producer writes. *)
Definition streaming_sentinel (riff data : Z) : bool := (riff =? 0x7fffffbf) && (data =? 0x7fffff9b).

Definition decode_wav (wav : bytes) : result AudioError bytes :=
  let? _ := require (WAV_HEADER_BYTES <=? length wav)%nat InvalidWav in
  let? _ := expect InvalidWav (range wav 0 4) (ascii_bytes "RIFF") in
  let? _ := expect InvalidWav (range wav 8 8) (ascii_bytes "WAVEfmt ") in
  let? _ := expect InvalidWav (read_u32 wav 16) 16 in
  let? _ := expect InvalidWav (read_u16 wav 20) 1 in
  let? _ := expect InvalidWav (read_u16 wav 22) 1 in
  let? _ := expect InvalidWav (read_u32 wav 24) TTS_SAMPLE_RATE in
  let? _ := expect InvalidWav (read_u32 wav 28) (TTS_SAMPLE_RATE * 2) in
  let? _ := expect InvalidWav (read_u16 wav 32) 2 in
  let? _ := expect InvalidWav (read_u16 wav 34) 16 in
  let? _ := expect InvalidWav (range wav 36 4) (ascii_bytes "data") in
  let? declared_riff_bytes := read_u32 wav 4 in
  let? declared_data_bytes := read_u32 wav 40 in
  let? _ :=
    if streaming_sentinel declared_riff_bytes declared_data_bytes then Ok tt
    else
      let expected := (WAV_HEADER_BYTES + Z.to_nat declared_data_bytes)%nat in
      let? _ := require (expected =? length wav)%nat InvalidWav in
      expect InvalidWav (u32_try_from InvalidWav (length wav - 8)) declared_riff_bytes in
  let pcm := drop WAV_HEADER_BYTES wav in
  match validate_pcm pcm with Err _ => Err InvalidWav | Ok _ => Ok pcm end.

(** ** EIAD, the container of the object cache *)

Fixpoint encode_frames (include : bool) (frames : list (list Z)) (output : bytes)
    : result AudioError bytes :=
  match frames with
  | [] => Ok output
  | frame :: frames =>
      let? output := encode_ima_frame_with_layout frame output include in
      encode_frames include frames output
  end.

Definition encode_eiad (pcm_le : bytes) : result AudioError bytes :=
  let? total_samples := validate_pcm pcm_le in
  let frame_count_usize := div_ceil (Z.to_nat total_samples) EIAD_FRAME_SAMPLES in
  let? frame_count := u32_try_from Size frame_count_usize in
  let output :=
    ascii_bytes "EIAD" ++ le_bytes 2 EIAD_VERSION ++ le_bytes 2 (Z.of_nat EIAD_HEADER_BYTES)
    ++ le_bytes 4 TTS_SAMPLE_RATE ++ le_bytes 2 1 ++ le_bytes 2 4
    ++ le_bytes 2 (Z.of_nat EIAD_FRAME_SAMPLES) ++ le_bytes 2 (Z.of_nat EIAD_FRAME_HEADER_BYTES)
    ++ le_bytes 8 total_samples ++ le_bytes 4 frame_count in
  encode_frames true (chunks EIAD_FRAME_SAMPLES (pcm_samples pcm_le)) output.

(** The frame loop of [inspect_eiad]: [offset] and [counted_samples] are the loop's
    variables, [remaining] the iterations left. *)
Fixpoint inspect_frames (eiad : bytes) (samples frames : Z) (remaining : nat) (index : Z)
    (offset : nat) (counted_samples : Z) : result AudioError (nat * Z) :=
  match remaining with
  | O => Ok (offset, counted_samples)
  | S remaining =>
      let end_ := (offset + EIAD_FRAME_HEADER_BYTES)%nat in
      let? _ := require (end_ <=? length eiad)%nat InvalidEiad in
      let? frame_samples := read_u16 eiad offset in
      let? step_index := byte eiad (offset + 4) in
      let? reserved := byte eiad (offset + 5) in
      let? payload_bytes := read_u16 eiad (offset + 6) in
      let? expected_samples :=
        if index + 1 =? frames then unsigned_sub samples counted_samples
        else Ok (Z.of_nat EIAD_FRAME_SAMPLES) in
      let expected_payload := z_div_ceil (Z.max 0 (expected_samples - 1)) 2 in
      let? _ := require (negb (negb (frame_samples =? expected_samples)
        || (frame_samples =? 0) || (Z.of_nat EIAD_FRAME_SAMPLES <? frame_samples)
        || (88 <? step_index) || negb (reserved =? 0)
        || negb (payload_bytes =? expected_payload))) InvalidEiad in
      let frame_end := (end_ + Z.to_nat payload_bytes)%nat in
      let? _ := require (frame_end <=? length eiad)%nat InvalidEiad in
      let? _ :=
        if Z.odd (frame_samples - 1) then
          let? last := byte eiad (frame_end - 1) in
          require (Z.land last 240 =? 0) InvalidEiad
        else Ok tt in
      let? counted_samples := of_option InvalidEiad (checked_add u64_max counted_samples frame_samples) in
      inspect_frames eiad samples frames remaining (index + 1) frame_end counted_samples
  end.

Definition inspect_eiad (eiad : bytes) : result AudioError EiadMetadata :=
  let? _ := require (EIAD_HEADER_BYTES <=? length eiad)%nat InvalidEiad in
  let? _ := expect InvalidEiad (range eiad 0 4) (ascii_bytes "EIAD") in
  let? _ := expect InvalidEiad (read_u16 eiad 4) EIAD_VERSION in
  let? _ := expect InvalidEiad (read_u16 eiad 6) (Z.of_nat EIAD_HEADER_BYTES) in
  let? _ := expect InvalidEiad (read_u32 eiad 8) TTS_SAMPLE_RATE in
  let? _ := expect InvalidEiad (read_u16 eiad 12) 1 in
  let? _ := expect InvalidEiad (read_u16 eiad 14) 4 in
  let? _ := expect InvalidEiad (read_u16 eiad 16) (Z.of_nat EIAD_FRAME_SAMPLES) in
  let? _ := expect InvalidEiad (read_u16 eiad 18) (Z.of_nat EIAD_FRAME_HEADER_BYTES) in
  let? samples := read_u64 eiad 20 in
  let? frames := read_u32 eiad 28 in
  let? _ := require (negb ((samples =? 0) || (MAX_TTS_SAMPLES <? samples)
    || negb (frames =? z_div_ceil samples (Z.of_nat EIAD_FRAME_SAMPLES)))) InvalidEiad in
  let? r := inspect_frames eiad samples frames (Z.to_nat frames) 0 EIAD_HEADER_BYTES 0 in
  let '(offset, counted_samples) := r in
  let? _ := require ((offset =? length eiad)%nat && (counted_samples =? samples)) InvalidEiad in
  Ok (mk_metadata TTS_SAMPLE_RATE samples frames).

(** The sample loop of [decode_eiad], for [sample_index] in [1..samples]. *)
Fixpoint decode_samples (eiad : bytes) (offset remaining sample_index : nat)
    (predictor step_index : Z) (output : bytes) : result AudioError bytes :=
  match remaining with
  | O => Ok output
  | S remaining =>
      let? packed := byte eiad (offset + (sample_index - 1) / 2) in
      let nibble := if Nat.odd sample_index then Z.land packed 15 else Z.shiftr packed 4 in
      let? r := decode_ima_sample nibble predictor step_index in
      let '(predictor, step_index) := r in
      decode_samples eiad offset remaining (S sample_index) predictor step_index
        (output ++ le_bytes 2 predictor)
  end.

Fixpoint decode_frames (eiad : bytes) (remaining offset : nat) (output : bytes)
    : result AudioError bytes :=
  match remaining with
  | O => Ok output
  | S remaining =>
      let? samples := read_u16 eiad offset in
      let? low := byte eiad (offset + 2) in
      let? high := byte eiad (offset + 3) in
      let predictor := i16_from_le [low; high] in
      let? step_index := byte eiad (offset + 4) in
      let? payload_bytes := read_u16 eiad (offset + 6) in
      let offset := (offset + EIAD_FRAME_HEADER_BYTES)%nat in
      let? output := decode_samples eiad offset (Z.to_nat samples - 1) 1 predictor step_index
        (output ++ le_bytes 2 predictor) in
      decode_frames eiad remaining (offset + Z.to_nat payload_bytes) output
  end.

Definition decode_eiad (eiad : bytes) : result AudioError bytes :=
  let? metadata := inspect_eiad eiad in
  decode_frames eiad (Z.to_nat (md_frames metadata)) EIAD_HEADER_BYTES [].

Definition encode_tts_audio (pcm_le : bytes) : result AudioError AudioArtifacts :=
  let? samples := validate_pcm pcm_le in
  let? wav := encode_wav pcm_le in
  let? eiad := encode_eiad pcm_le in
  let? metadata := inspect_eiad eiad in
  if negb (md_samples metadata =? samples) || negb (md_sample_rate metadata =? TTS_SAMPLE_RATE)
  then Err InvalidEiad
  else Ok (mk_artifacts wav eiad samples (md_frames metadata)).

(** ** The device's layout: 20-byte header, 480-sample frames, no payload length *)

Fixpoint inspect_device_frames (eiad : bytes) (samples frames : Z) (remaining : nat) (index : Z)
    (offset : nat) (counted_samples : Z) : result AudioError (nat * Z) :=
  match remaining with
  | O => Ok (offset, counted_samples)
  | S remaining =>
      let end_ := (offset + DEVICE_EIAD_FRAME_HEADER_BYTES)%nat in
      let? _ := require (end_ <=? length eiad)%nat InvalidEiad in
      let? frame_samples := read_u16 eiad offset in
      let? expected_samples :=
        if index + 1 =? frames then unsigned_sub samples counted_samples
        else Ok (Z.of_nat DEVICE_EIAD_FRAME_SAMPLES) in
      let? _ := require (frame_samples =? expected_samples) InvalidEiad in
      let? _ := require (negb (frame_samples =? 0)) InvalidEiad in
      let? step_index := byte eiad (offset + 4) in
      let? _ := require (step_index <=? 88) InvalidEiad in
      let? _ := expect InvalidEiad (byte eiad (offset + 5)) 0 in
      let payload_bytes := z_div_ceil (Z.max 0 (frame_samples - 1)) 2 in
      let offset := (end_ + Z.to_nat payload_bytes)%nat in
      let? _ := require (offset <=? length eiad)%nat InvalidEiad in
      let? counted_samples := of_option InvalidEiad (checked_add u64_max counted_samples frame_samples) in
      inspect_device_frames eiad samples frames remaining (index + 1) offset counted_samples
  end.

Definition inspect_device_eiad (eiad : bytes) : result AudioError EiadMetadata :=
  let? _ := require (DEVICE_EIAD_HEADER_BYTES <=? length eiad)%nat InvalidEiad in
  let? _ := expect InvalidEiad (range eiad 0 4) (ascii_bytes "EIAD") in
  let? _ := expect InvalidEiad (byte eiad 4) 1 in
  let? _ := expect InvalidEiad (byte eiad 5) 1 in
  let? _ := expect InvalidEiad (read_u32 eiad 6) TTS_SAMPLE_RATE in
  let? _ := expect InvalidEiad (read_u16 eiad 10) (Z.of_nat DEVICE_EIAD_FRAME_SAMPLES) in
  let? _ := expect InvalidEiad (read_u16 eiad 18) (Z.of_nat DEVICE_EIAD_HEADER_BYTES) in
  let? frames := read_u16 eiad 12 in
  let? samples := read_u32 eiad 14 in
  let? _ := require (negb ((samples =? 0) || (MAX_TTS_SAMPLES <? samples)
    || negb (frames =? z_div_ceil samples (Z.of_nat DEVICE_EIAD_FRAME_SAMPLES)))) InvalidEiad in
  let? r := inspect_device_frames eiad samples frames (Z.to_nat frames) 0
              DEVICE_EIAD_HEADER_BYTES 0 in
  let '(offset, counted_samples) := r in
  let? _ := require ((offset =? length eiad)%nat && (counted_samples =? samples)) InvalidEiad in
  Ok (mk_metadata TTS_SAMPLE_RATE samples frames).

Definition transcode_eiad_for_device (eiad : bytes) : result AudioError bytes :=
  let? pcm := decode_eiad eiad in
  let? total_samples := validate_pcm pcm in
  let frame_count_usize := div_ceil (Z.to_nat total_samples) DEVICE_EIAD_FRAME_SAMPLES in
  let? frame_count := u16_try_from Size frame_count_usize in
  let? total_samples_u32 := u32_try_from Size (Z.to_nat total_samples) in
  let output :=
    ascii_bytes "EIAD" ++ [1] ++ [1] ++ le_bytes 4 TTS_SAMPLE_RATE
    ++ le_bytes 2 (Z.of_nat DEVICE_EIAD_FRAME_SAMPLES) ++ le_bytes 2 frame_count
    ++ le_bytes 4 total_samples_u32 ++ le_bytes 2 (Z.of_nat DEVICE_EIAD_HEADER_BYTES) in
  let? output :=
    encode_frames false (chunks DEVICE_EIAD_FRAME_SAMPLES (pcm_samples pcm)) output in
  let? _ := inspect_device_eiad output in
  Ok output.
