(* ===== verification/AudioProps.v ===== *)
(** * The audio containers: frames, and what the encoders and the parsers guarantee *)

From S2P Require Import Prelude Bytes Audio.

(** * Frames of an EIAD file: what the encoder writes, the parsers and the decoder read

    [body] is the list-level description of the encoder's output, a concatenation of
    [frame_bytes] over the chunks of the signal; the loops of [inspect_eiad],
    [inspect_device_eiad] and [decode_eiad] are run on it by induction on the
    chunks.  [inspect_frames_safe] and [decode_frames_total] are about arbitrary
    input instead. *)

(** ** Chunks *)

Lemma chunks_fuel_enough {A} fuel n (l : list A) :
  (0 < n)%nat → (length l ≤ fuel)%nat → chunks_fuel fuel n l = chunks n l.
Proof.
  intros Hn. unfold chunks. remember (length l) as m eqn:Em.
  revert fuel l m Em. induction fuel as [fuel IH] using lt_wf_ind. intros l m Em Hl.
  destruct fuel as [|fuel], m as [|m]; try (by destruct l); [lia|].
  destruct l as [|x l]; [done|]. cbn [chunks_fuel]. simpl in Em.
  assert (length (drop n (x :: l)) ≤ m)%nat as Hd by (rewrite length_drop; simpl; lia).
  f_equal. rewrite (IH fuel) with (m := length (drop n (x :: l))) by lia.
  destruct (decide (m < S fuel)%nat) as [Hm|]; [|lia].
  symmetry. by apply (IH m Hm).
Qed.

Lemma chunks_cons {A} n (l : list A) :
  (0 < n)%nat → l ≠ [] → chunks n l = take n l :: chunks n (drop n l).
Proof.
  intros Hn Hl. unfold chunks at 1. destruct l as [|x l]; [done|]. cbn [length chunks_fuel].
  f_equal. apply chunks_fuel_enough; [done|]. rewrite length_drop. simpl. lia.
Qed.

Lemma chunk_ind {A} n (Hn : (0 < n)%nat) (P : list A → Prop) :
  P [] → (∀ l, l ≠ [] → P (drop n l) → P l) → ∀ l, P l.
Proof.
  intros H0 Hstep l. remember (length l) as m eqn:Em. revert l Em.
  induction m as [m IH] using lt_wf_ind. intros l ->.
  destruct l as [|x l]; [done|]. apply Hstep; [done|].
  eapply IH; [|reflexivity]. rewrite length_drop. simpl. lia.
Qed.

Lemma mjoin_chunks {A} n (l : list A) : (0 < n)%nat → mjoin (chunks n l) = l.
Proof.
  intros Hn. induction l as [|l Hl IH] using (chunk_ind n Hn); [done|].
  rewrite chunks_cons by done. simpl. rewrite IH. apply take_drop.
Qed.

Lemma div_ceil_step n m : (0 < n)%nat → (0 < m)%nat → div_ceil m n = S (div_ceil (m - n) n).
Proof.
  intros Hn Hm. unfold div_ceil. destruct (decide (n ≤ m)%nat).
  - replace (m + n - 1)%nat with (m - n + n - 1 + 1 * n)%nat by lia.
    rewrite Nat.div_add by lia. lia.
  - replace (m - n)%nat with 0%nat by lia. rewrite (Nat.div_small (0 + n - 1)) by lia.
    replace (m + n - 1)%nat with (m - 1 + 1 * n)%nat by lia.
    rewrite Nat.div_add, Nat.div_small by lia. done.
Qed.

Lemma length_chunks {A} n (l : list A) : (0 < n)%nat → length (chunks n l) = div_ceil (length l) n.
Proof.
  intros Hn. induction l as [|l Hl IH] using (chunk_ind n Hn).
  - unfold div_ceil. change (length []) with 0%nat. by rewrite Nat.div_small by lia.
  - rewrite chunks_cons by done. simpl. rewrite IH, length_drop.
    symmetry. apply div_ceil_step; [done|]. destruct l; [done|simpl; lia].
Qed.

Lemma chunks_sizes {A} n (l : list A) :
  (0 < n)%nat → Forall (λ c, (0 < length c ≤ n)%nat) (chunks n l).
Proof.
  intros Hn. induction l as [|l Hl IH] using (chunk_ind n Hn); [done|].
  rewrite chunks_cons by done. constructor; [|done].
  rewrite length_take. destruct l; [done|]. simpl. lia.
Qed.

Lemma z_div_ceil_nat a b :
  (0 < b)%nat → z_div_ceil (Z.of_nat a) (Z.of_nat b) = Z.of_nat (div_ceil a b).
Proof.
  intros ?. unfold z_div_ceil, div_ceil. rewrite Nat2Z.inj_div. f_equal; lia.
Qed.

(** ** Samples and bytes *)

Lemma i16_round v : in_i16 v → i16_from_le (le_bytes 2 v) = v.
Proof.
  unfold in_i16, i16_from_le. rewrite le_value_le_bytes. change (256 ^ Z.of_nat 2) with 65536.
  unfold i16_min, i16_max. intros ?. destruct (Z.leb_spec (v mod 65536) 32767); div_lia.
Qed.

Lemma le_bytes_i16 b0 b1 :
  is_byte b0 → is_byte b1 → in_i16 (i16_from_le [b0; b1]) ∧ le_bytes 2 (i16_from_le [b0; b1]) = [b0; b1].
Proof.
  unfold is_byte, i16_from_le, in_i16, i16_min, i16_max. cbn [le_value]. intros ? ?.
  destruct (Z.leb_spec (b0 + 256 * (b1 + 256 * 0)) 32767); cbn [le_bytes];
    (split; [lia|]); repeat f_equal; div_lia.
Qed.

Lemma pcm_bytes_cons v samples : pcm_bytes (v :: samples) = le_bytes 2 v ++ pcm_bytes samples.
Proof. reflexivity. Qed.

Lemma pcm_samples_ok pcm :
  bytes_ok pcm → Nat.even (length pcm) = true →
  pcm_bytes (pcm_samples pcm) = pcm ∧ Forall in_i16 (pcm_samples pcm)
  ∧ (length pcm = 2 * length (pcm_samples pcm))%nat.
Proof.
  intros Hok He. revert Hok He. induction pcm as [|b|b0 b1 pcm IH] using packed_ind; [done|done|].
  intros [H0 [H1 Hok]%Forall_cons]%Forall_cons He.
  destruct (IH Hok He) as (IH1 & IH2 & IH3). destruct (le_bytes_i16 b0 b1 H0 H1) as [Hi E].
  cbn [pcm_samples]. repeat split.
  - by rewrite pcm_bytes_cons, E, IH1.
  - by constructor.
  - simpl. lia.
Qed.

Lemma length_pcm_bytes samples : length (pcm_bytes samples) = (2 * length samples)%nat.
Proof.
  induction samples as [|v l IH]; [done|].
  rewrite pcm_bytes_cons, length_app, IH, length_le_bytes. simpl. lia.
Qed.

Lemma pcm_bytes_ok samples : bytes_ok (pcm_bytes samples).
Proof.
  induction samples; [constructor|]. rewrite pcm_bytes_cons.
  apply Forall_app. split; [apply le_bytes_ok|done].
Qed.

Lemma pcm_bytes_app s t : pcm_bytes (s ++ t) = pcm_bytes s ++ pcm_bytes t.
Proof. unfold pcm_bytes. by rewrite fmap_app, join_app. Qed.

(** ** Reading *)

Lemma get_slice_at n p q off k :
  off = (length p + k)%nat → get_slice off n (p ++ q) = get_slice k n q.
Proof.
  intros ->. unfold get_slice, slice. rewrite length_app.
  replace (length p + k + n <=? length p + length q)%nat with (k + n <=? length q)%nat.
  - rewrite drop_app_ge by lia. by replace (length p + k - length p)%nat with k by lia.
  - destruct (Nat.leb_spec (k + n) (length q)), (Nat.leb_spec (length p + k + n) (length p + length q)); lia.
Qed.

Lemma read_le_at n p q off k :
  off = (length p + k)%nat → read_le n (p ++ q) off = read_le n q k.
Proof. intros ?. unfold read_le. by rewrite (get_slice_at n p q off k). Qed.

Lemma byte_at_off p q off k : off = (length p + k)%nat → byte (p ++ q) off = byte q k.
Proof. intros ->. unfold byte. by rewrite lookup_app_r, Nat.add_comm, Nat.add_sub by lia. Qed.

Lemma read_le_head n v q : 0 ≤ v < 256 ^ Z.of_nat n → read_le n (le_bytes n v ++ q) 0 = Ok v.
Proof.
  intros Hv. unfold read_le, get_slice, slice. rewrite length_app, length_le_bytes.
  rewrite (proj2 (Nat.leb_le _ _)) by lia. rewrite drop_0, take_app_length' by (by rewrite length_le_bytes).
  simpl. by rewrite le_value_le_bytes_small.
Qed.

Lemma read_le_inv n p off v :
  bytes_ok p → read_le n p off = Ok v → (off + n ≤ length p)%nat ∧ 0 ≤ v < 256 ^ Z.of_nat n.
Proof.
  intros Hp. unfold read_le, get_slice. destruct (Nat.leb_spec (off + n) (length p)); [|done].
  simpl. intros [= <-]. split; [done|]. apply get_le_bounds. done.
Qed.

Lemma read_le_total n p off :
  (off + n ≤ length p)%nat → ∃ v, read_le n p off = Ok v.
Proof.
  intros ?. unfold read_le, get_slice. rewrite (proj2 (Nat.leb_le _ _)) by done. by eexists.
Qed.

Lemma read_le_err n p off e : read_le n p off = Err e → e = InvalidEiad.
Proof. unfold read_le, get_slice. destruct (_ <=? _)%nat; simpl; congruence. Qed.

Lemma byte_total p i : (i < length p)%nat → ∃ b, byte p i = Ok b.
Proof. intros [b Hb]%lookup_lt_is_Some_2. exists b. unfold byte. by rewrite Hb. Qed.

Lemma byte_inv p i b : bytes_ok p → byte p i = Ok b → (i < length p)%nat ∧ is_byte b.
Proof.
  intros Hp. unfold byte. destruct (p !! i) as [x|] eqn:E; simpl; [|done]. intros [= ->].
  split; [by eapply lookup_lt_Some|]. exact (Forall_lookup_1 _ _ _ _ Hp E).
Qed.

(** ** What the encoder writes *)

Definition frame_head (include : bool) (frame : list Z) : bytes :=
  match frame with
  | [] => []
  | first :: rest =>
      le_bytes 2 (Z.of_nat (length frame)) ++ le_bytes 2 first
      ++ [initial_step_index first rest; 0]
      ++ (if include then le_bytes 2 (Z.of_nat (div_ceil (length rest) 2)) else [])
  end.

Definition frame_codes (frame : list Z) : list Z :=
  match frame with
  | [] => []
  | first :: rest => codes first (initial_step_index first rest) rest
  end.

Definition frame_bytes (include : bool) (frame : list Z) : bytes :=
  frame_head include frame ++ packed (frame_codes frame).

Definition body (include : bool) (n : nat) (samples : list Z) : bytes :=
  mjoin (frame_bytes include <$> chunks n samples).

(** A frame whose sample count fits its 16-bit field. *)
Definition frame_size (frame : list Z) : Prop :=
  (0 < length frame)%nat ∧ Z.of_nat (length frame) ≤ 65535.

Lemma u16_fits e n : Z.of_nat n ≤ 65535 → u16_try_from e n = Ok (Z.of_nat n).
Proof. intros ?. unfold u16_try_from, u16_max. by rewrite (proj2 (Z.leb_le _ _)) by lia. Qed.

Lemma div_ceil_le n : (div_ceil n 2 ≤ n)%nat.
Proof. destruct n; [done|]. unfold div_ceil. apply Nat.Div0.div_le_upper_bound; lia. Qed.

Lemma encode_frame_eq include frame output :
  frame_size frame →
  encode_ima_frame_with_layout frame output include = Ok (output ++ frame_bytes include frame).
Proof.
  intros Hl. destruct frame as [|first rest]; [by destruct Hl as [?%Nat.lt_irrefl _]|].
  unfold encode_ima_frame_with_layout. rewrite u16_fits by apply Hl. cbn [rbind].
  pose proof (div_ceil_le (length rest)) as Hd. destruct Hl as [_ Hl]; simpl in Hl.
  destruct include; [rewrite u16_fits by lia|]; cbn [rbind];
    rewrite encode_nibbles_eq by apply initial_step_index_ok;
    unfold frame_bytes; cbn [frame_head frame_codes option_list app];
    by rewrite ?app_nil_r, <- !app_assoc.
Qed.

Lemma encode_frames_eq include frames output :
  Forall frame_size frames →
  encode_frames include frames output = Ok (output ++ mjoin (frame_bytes include <$> frames)).
Proof.
  intros Hf. revert output. induction Hf as [|frame frames Hl _ IH]; intros output.
  { simpl. by rewrite app_nil_r. }
  cbn [encode_frames]. rewrite encode_frame_eq by done. cbn [rbind]. rewrite IH.
  by rewrite <- app_assoc.
Qed.

Lemma body_cons include n samples :
  (0 < n)%nat → samples ≠ [] →
  body include n samples = frame_bytes include (take n samples) ++ body include n (drop n samples).
Proof. intros. unfold body. by rewrite chunks_cons by done. Qed.

Lemma frame_codes_ok frame : Forall in_code (frame_codes frame).
Proof. destruct frame; simpl; [constructor|]. apply codes_ok, initial_step_index_ok. Qed.

Lemma length_frame_codes frame : length (frame_codes frame) = (length frame - 1)%nat.
Proof.
  destruct frame; simpl; [done|]. rewrite length_codes by apply initial_step_index_ok. lia.
Qed.

(** The fields of a frame, read back at its offset. *)
Lemma frame_head_read include frame tail pre off :
  frame_size frame → off = length pre →
  let e := pre ++ frame_bytes include frame ++ tail in
  read_u16 e off = Ok (Z.of_nat (length frame))
  ∧ byte e (off + 4) = Ok (initial_step_index (default 0 (head frame)) (drop 1 frame))
  ∧ byte e (off + 5) = Ok 0.
Proof.
  intros Hl ->. destruct frame as [|first rest]; [by destruct Hl as [?%Nat.lt_irrefl _]|]. cbv zeta.
  unfold frame_bytes, frame_head. rewrite <- !app_assoc.
  split; [|split].
  - unfold read_u16. rewrite (read_le_at _ _ _ _ 0) by lia.
    apply read_le_head. change (256 ^ Z.of_nat 2) with 65536. destruct Hl. lia.
  - rewrite (byte_at_off _ _ _ 4) by lia. cbn [le_bytes app].
    unfold byte. cbn [lookup list_lookup head default drop]. done.
  - by rewrite (byte_at_off _ _ _ 5) by lia.
Qed.

Lemma frame_payload_read frame tail pre off :
  frame_size frame → off = length pre →
  read_u16 (pre ++ frame_bytes true frame ++ tail) (off + 6)
  = Ok (Z.of_nat (div_ceil (length frame - 1) 2)).
Proof.
  intros Hl ->. destruct frame as [|first rest]; [by destruct Hl as [?%Nat.lt_irrefl _]|].
  unfold frame_bytes, frame_head, read_u16. rewrite <- !app_assoc.
  rewrite (read_le_at _ _ _ _ 6) by lia. cbn [length].
  replace (S (length rest) - 1)%nat with (length rest) by lia.
  set (tl := packed _ ++ tail).
  change (read_le 2 (le_bytes 2 (Z.of_nat (div_ceil (length rest) 2)) ++ tl) 0 =
    Ok (Z.of_nat (div_ceil (length rest) 2))).
  pose proof (div_ceil_le (length rest)). destruct Hl as [_ Hl]; simpl in Hl.
  apply read_le_head. change (256 ^ Z.of_nat 2) with 65536. lia.
Qed.

Lemma length_frame_bytes include frame :
  (0 < length frame)%nat →
  length (frame_bytes include frame)
  = ((if include then 8 else 6) + div_ceil (length frame - 1) 2)%nat.
Proof.
  intros Hl. unfold frame_bytes. rewrite length_app, length_packed, length_frame_codes.
  destruct frame; [simpl in Hl; lia|]. by destruct include.
Qed.

(** The last byte of a frame with an unused half. *)
Lemma frame_last_byte frame tail pre :
  (1 < length frame)%nat → Nat.odd (length frame - 1) = true →
  ∃ b, byte (pre ++ frame_bytes true frame ++ tail)
         (length pre + 8 + div_ceil (length frame - 1) 2 - 1) = Ok b ∧ Z.land b 240 = 0.
Proof.
  intros Hl Ho. set (k := div_ceil (length frame - 1) 2).
  assert (1 ≤ k)%nat as Hk.
  { unfold k, div_ceil. apply Nat.div_le_lower_bound; lia. }
  rewrite <- length_frame_codes in Ho.
  pose proof (packed_odd_tail _ (frame_codes_ok frame) Ho) as Hz.
  rewrite length_frame_codes in Hz. fold k in Hz.
  assert (k - 1 < length (packed (frame_codes frame)))%nat as Hlt.
  { rewrite length_packed, length_frame_codes. fold k. lia. }
  destruct (byte_total _ _ Hlt) as [b Hb]. exists b. split.
  - rewrite (byte_at_off _ _ _ (8 + (k - 1))) by lia. unfold frame_bytes. rewrite <- app_assoc.
    rewrite (byte_at_off _ _ _ (k - 1)).
    + unfold byte in *. rewrite lookup_app_l by done. exact Hb.
    + destruct frame; [simpl in Hl; lia|]. reflexivity.
  - unfold byte_at, byte in *. destruct (_ !! _) as [x|]; simpl in Hb; [|done].
    injection Hb as <-. exact Hz.
Qed.

(** ** The parsers accept what the encoder writes *)

Lemma eiad_frame_samples : Z.of_nat EIAD_FRAME_SAMPLES = 960.
Proof. reflexivity. Qed.
Lemma device_frame_samples : Z.of_nat DEVICE_EIAD_FRAME_SAMPLES = 480.
Proof. reflexivity. Qed.

Lemma require_true {E} (c : bool) (e : E) : c = true → require c e = Ok tt.
Proof. by intros ->. Qed.

Lemma chunks_nil_iff {A} n (l : list A) :
  (0 < n)%nat → length (chunks n l) = 0%nat ↔ length l = 0%nat.
Proof.
  intros Hn. split.
  - destruct l; [done|]. by rewrite chunks_cons by done.
  - by intros ->%nil_length_inv.
Qed.

(** The first chunk: what the loops expect of it. *)
Lemma first_chunk n (l : list Z) samples frames index counted :
  (0 < n)%nat → Z.of_nat n ≤ 65535 → l ≠ [] →
  frames = index + Z.of_nat (length (chunks n l)) → samples = counted + Z.of_nat (length l) →
  frame_size (take n l) ∧ Z.of_nat (length (take n l)) ≤ Z.of_nat n
  ∧ (if index + 1 =? frames then unsigned_sub samples counted else Ok (Z.of_nat n))
    = Ok (Z.of_nat (length (take n l)))
  ∧ frames = index + 1 + Z.of_nat (length (chunks n (drop n l)))
  ∧ samples = counted + Z.of_nat (length (take n l)) + Z.of_nat (length (drop n l)).
Proof.
  intros Hn Hn' Hl Hf Hs. rewrite chunks_cons in Hf by done. cbn [length] in Hf.
  rewrite length_take, length_drop. assert (0 < length l)%nat by (destruct l; [done|simpl; lia]).
  split; [unfold frame_size; rewrite length_take; lia|]. split; [lia|].
  split; [|split; [|lia]]; [|rewrite Hf; lia].
  pose proof (chunks_nil_iff n (drop n l) Hn) as Hc. rewrite length_drop in Hc.
  destruct (Z.eqb_spec (index + 1) frames).
  - unfold unsigned_sub. rewrite (proj2 (Z.leb_le _ _)) by lia. f_equal. lia.
  - f_equal. lia.
Qed.

Lemma payload_size n : (0 < n)%nat → z_div_ceil (Z.max 0 (Z.of_nat n - 1)) 2 = Z.of_nat (div_ceil (n - 1) 2).
Proof.
  intros ?. rewrite <- (z_div_ceil_nat (n - 1) 2) by lia. f_equal. lia.
Qed.

Lemma odd_of_nat n : Z.odd (Z.of_nat n) = Nat.odd n.
Proof.
  destruct (Nat.even n) eqn:E.
  - apply Nat.even_spec in E as [m ->].
    rewrite Nat2Z.inj_mul, Nat.odd_mul, Z.odd_mul. done.
  - assert (Nat.odd n = true) as Ho by by rewrite <- Nat.negb_even, E.
    rewrite Ho. apply Nat.odd_spec in Ho as [m ->].
    replace (Z.of_nat (2 * m + 1)) with (1 + 2 * Z.of_nat m) by lia.
    by rewrite Z.odd_add_mul_2.
Qed.

Lemma frame_tail_check f tl pre :
  (0 < length f)%nat →
  (if Z.odd (Z.of_nat (length f) - 1)
   then let? last := byte (pre ++ frame_bytes true f ++ tl)
                       (length pre + 8 + div_ceil (length f - 1) 2 - 1) in
        require (Z.land last 240 =? 0) InvalidEiad
   else Ok tt) = Ok tt.
Proof.
  intros Hpos. destruct (Z.odd _) eqn:Ho; [|done].
  replace (Z.of_nat (length f) - 1) with (Z.of_nat (length f - 1)) in Ho by lia.
  rewrite odd_of_nat in Ho.
  destruct (frame_last_byte f tl pre) as (b & Eb & Hz); [|done|].
  - destruct (length f) as [|[|?]]; [lia|done|lia].
  - rewrite Eb. cbn [rbind]. by rewrite Hz.
Qed.

(** One iteration of [inspect_eiad] over an encoded frame. *)
Lemma inspect_frame_step f tl pre samples frames remaining index counted :
  frame_size f → Z.of_nat (length f) ≤ 960 → counted + Z.of_nat (length f) ≤ u64_max →
  (if index + 1 =? frames then unsigned_sub samples counted
   else Ok (Z.of_nat EIAD_FRAME_SAMPLES)) = Ok (Z.of_nat (length f)) →
  let e := pre ++ frame_bytes true f ++ tl in
  inspect_frames e samples frames (S remaining) index (length pre) counted
  = inspect_frames e samples frames remaining (index + 1)
      (length (pre ++ frame_bytes true f)) (counted + Z.of_nat (length f)).
Proof.
  intros Hsize Hle Hmax Hexp. pose proof (proj1 Hsize) as Hpos.
  pose proof (length_frame_bytes true f Hpos) as Hlen. cbv zeta.
  assert (length pre + 8 + div_ceil (length f - 1) 2
    ≤ length (pre ++ frame_bytes true f ++ tl))%nat as Htot by (rewrite !length_app, Hlen; lia).
  destruct (frame_head_read true f tl pre _ Hsize eq_refl) as (E1 & E2 & E3).
  pose proof (initial_step_index_ok (default 0 (head f)) (drop 1 f)) as [Hi1 Hi2].
  cbn [inspect_frames]. unfold EIAD_FRAME_HEADER_BYTES.
  rewrite require_true by (apply Nat.leb_le; lia). cbn [rbind].
  rewrite E1. cbn [rbind]. rewrite E2. cbn [rbind]. rewrite E3. cbn [rbind].
  rewrite (frame_payload_read f tl pre _ Hsize eq_refl). cbn [rbind]. rewrite Hexp. cbn [rbind].
  rewrite payload_size, eiad_frame_samples by done. rewrite require_true.
  2: { rewrite !Z.eqb_refl. apply negb_true_iff.
       rewrite (proj2 (Z.eqb_neq _ _)) by lia. by rewrite !(proj2 (Z.ltb_ge _ _)) by lia. }
  cbn [rbind]. rewrite Nat2Z.id. rewrite require_true by (apply Nat.leb_le; lia).
  cbn [rbind]. rewrite frame_tail_check by done.
  cbn [rbind]. unfold checked_add. rewrite (proj2 (Z.leb_le _ _)) by lia. cbn [of_option rbind].
  f_equal. rewrite length_app, Hlen. lia.
Qed.

Lemma inspect_body l pre samples frames index counted :
  frames = index + Z.of_nat (length (chunks EIAD_FRAME_SAMPLES l)) →
  samples = counted + Z.of_nat (length l) → samples ≤ u64_max →
  let e := pre ++ body true EIAD_FRAME_SAMPLES l in
  inspect_frames e samples frames (length (chunks EIAD_FRAME_SAMPLES l)) index (length pre) counted
  = Ok (length e, samples).
Proof.
  pose proof eiad_frame_samples as Hn. assert (0 < EIAD_FRAME_SAMPLES)%nat as Hpos by lia.
  revert pre index counted.
  induction l as [|l Hl IH] using (chunk_ind EIAD_FRAME_SAMPLES Hpos);
    intros pre index counted Hf Hs Hmax; cbv zeta.
  { unfold body. cbn. rewrite app_nil_r. simpl in Hs. repeat f_equal. lia. }
  destruct (first_chunk _ l samples frames index counted Hpos ltac:(lia) Hl Hf Hs)
    as (Hsize & Hle & Hexp & Hf' & Hs').
  rewrite body_cons, (chunks_cons _ l) by done. cbn [length].
  rewrite inspect_frame_step by (done || lia).
  rewrite app_assoc. apply IH; [done|lia|done].
Qed.

(** One iteration of [inspect_device_eiad] over an encoded frame. *)
Lemma inspect_device_frame_step f tl pre samples frames remaining index counted :
  frame_size f → counted + Z.of_nat (length f) ≤ u64_max →
  (if index + 1 =? frames then unsigned_sub samples counted
   else Ok (Z.of_nat DEVICE_EIAD_FRAME_SAMPLES)) = Ok (Z.of_nat (length f)) →
  let e := pre ++ frame_bytes false f ++ tl in
  inspect_device_frames e samples frames (S remaining) index (length pre) counted
  = inspect_device_frames e samples frames remaining (index + 1)
      (length (pre ++ frame_bytes false f)) (counted + Z.of_nat (length f)).
Proof.
  intros Hsize Hmax Hexp. pose proof (proj1 Hsize) as Hpos.
  pose proof (length_frame_bytes false f Hpos) as Hlen. cbv zeta.
  assert (length pre + 6 + div_ceil (length f - 1) 2
    ≤ length (pre ++ frame_bytes false f ++ tl))%nat as Htot by (rewrite !length_app, Hlen; lia).
  destruct (frame_head_read false f tl pre _ Hsize eq_refl) as (E1 & E2 & E3).
  pose proof (initial_step_index_ok (default 0 (head f)) (drop 1 f)) as [Hi1 Hi2].
  cbn [inspect_device_frames]. unfold DEVICE_EIAD_FRAME_HEADER_BYTES.
  rewrite require_true by (apply Nat.leb_le; lia). cbn [rbind].
  rewrite E1. cbn [rbind]. rewrite Hexp. cbn [rbind]. rewrite Z.eqb_refl. cbn [require rbind].
  rewrite (proj2 (Z.eqb_neq _ _)) by lia. cbn [negb require rbind].
  rewrite E2. cbn [rbind]. rewrite require_true by (apply Z.leb_le; lia). cbn [rbind].
  rewrite E3. cbn [expect rbind]. rewrite bool_decide_eq_true_2 by done. cbn [require rbind].
  rewrite payload_size by done. rewrite Nat2Z.id.
  rewrite require_true by (apply Nat.leb_le; lia). cbn [rbind].
  unfold checked_add. rewrite (proj2 (Z.leb_le _ _)) by lia. cbn [of_option rbind].
  f_equal. rewrite length_app, Hlen. lia.
Qed.

Lemma inspect_device_body l pre samples frames index counted :
  frames = index + Z.of_nat (length (chunks DEVICE_EIAD_FRAME_SAMPLES l)) →
  samples = counted + Z.of_nat (length l) → samples ≤ u64_max →
  let e := pre ++ body false DEVICE_EIAD_FRAME_SAMPLES l in
  inspect_device_frames e samples frames (length (chunks DEVICE_EIAD_FRAME_SAMPLES l)) index
    (length pre) counted
  = Ok (length e, samples).
Proof.
  pose proof device_frame_samples as Hn. assert (0 < DEVICE_EIAD_FRAME_SAMPLES)%nat as Hpos by lia.
  revert pre index counted.
  induction l as [|l Hl IH] using (chunk_ind DEVICE_EIAD_FRAME_SAMPLES Hpos);
    intros pre index counted Hf Hs Hmax; cbv zeta.
  { unfold body. cbn. rewrite app_nil_r. simpl in Hs. repeat f_equal. lia. }
  destruct (first_chunk _ l samples frames index counted Hpos ltac:(lia) Hl Hf Hs)
    as (Hsize & Hle & Hexp & Hf' & Hs').
  rewrite body_cons, (chunks_cons _ l) by done. cbn [length].
  rewrite inspect_device_frame_step by (done || lia).
  rewrite app_assoc. apply IH; [done|lia|done].
Qed.

(** ** The decoder reads what the encoder writes *)

(** The codes [cs] are stored from [offset] on, two a byte. *)
Definition stores (e : bytes) (offset : nat) (cs : list Z) : Prop :=
  ∀ n c, cs !! n = Some c →
  ∃ b, byte e (offset + n / 2) = Ok b ∧ (if Nat.even n then Z.land b 15 else Z.shiftr b 4) = c.

Lemma packed_stores pre cs tl :
  Forall in_code cs → stores (pre ++ packed cs ++ tl) (length pre) cs.
Proof.
  intros Hc n c Hn. pose proof (nibble_at_packed cs n c Hc Hn) as E. unfold nibble_at in E.
  assert (n / 2 < length (packed cs))%nat as Hlt.
  { apply lookup_lt_Some in Hn. rewrite length_packed. unfold div_ceil.
    assert (n / 2 ≤ (length cs - 1) / 2)%nat as H1 by (apply Nat.Div0.div_le_mono; lia).
    replace (length cs + 2 - 1)%nat with (length cs - 1 + 1 * 2)%nat by lia.
    rewrite Nat.div_add by lia. lia. }
  destruct (byte_total _ _ Hlt) as [b Hb]. exists b. split.
  - rewrite (byte_at_off _ _ _ (n / 2)) by lia. unfold byte in *.
    rewrite lookup_app_l by done. exact Hb.
  - unfold byte_at, byte in *. destruct (packed cs !! (n / 2)%nat) as [x|]; simpl in Hb; [|done].
    injection Hb as <-. exact E.
Qed.

Lemma decode_codes e offset cs rest p i k out :
  in_index i → (0 < k)%nat → stores e offset cs → drop (k - 1) cs = codes p i rest →
  decode_samples e offset (length rest) k p i out = Ok (out ++ pcm_bytes (follow p i rest)).
Proof.
  revert p i k out. induction rest as [|s rest IH]; intros p i k out Hi Hk Hst Hcs.
  { simpl. by rewrite app_nil_r. }
  cbn [length decode_samples follow codes] in *. destruct (encode_ima_sample_ok s p i Hi) as (c & p' & i' & E & D & _ & _ & Hi').
  rewrite E in *.
  assert (cs !! (k - 1)%nat = Some c) as Hc.
  { rewrite <- (Nat.add_0_r (k - 1)), <- lookup_drop, Hcs. done. }
  destruct (Hst _ _ Hc) as (b & Hb & Hn). rewrite Hb. cbn [rbind].
  replace (Nat.odd k) with (Nat.even (k - 1)).
  2: { destruct k; [lia|]. by rewrite Nat.odd_succ, Nat.sub_succ, Nat.sub_0_r. }
  rewrite Hn, D. cbn [rbind].
  rewrite IH; [|done|lia|done|].
  - by rewrite pcm_bytes_cons, <- app_assoc.
  - replace (S k - 1)%nat with (k - 1 + 1)%nat by lia. rewrite <- drop_drop, Hcs. done.
Qed.

(** One iteration of [decode_eiad] over an encoded frame. *)
Lemma decode_frame_step f tl pre remaining out :
  frame_size f → Forall in_i16 f →
  let e := pre ++ frame_bytes true f ++ tl in
  decode_frames e (S remaining) (length pre) out
  = decode_frames e remaining (length (pre ++ frame_bytes true f)) (out ++ pcm_bytes (reconstruct f)).
Proof.
  intros Hsize Hi16. pose proof (proj1 Hsize) as Hpos. cbv zeta.
  pose proof (length_frame_bytes true f Hpos) as Hlen.
  destruct (frame_head_read true f tl pre _ Hsize eq_refl) as (E1 & E2 & _).
  pose proof (frame_payload_read f tl pre _ Hsize eq_refl) as E3.
  destruct f as [|first rest]; [simpl in Hpos; lia|].
  pose proof (initial_step_index_ok first rest) as Hi. apply Forall_cons in Hi16 as [Hfirst _].
  cbn [decode_frames]. rewrite E1. cbn [rbind].
  assert (byte (pre ++ frame_bytes true (first :: rest) ++ tl) (length pre + 2) = Ok (first mod 256)) as ->
    by by rewrite (byte_at_off _ _ _ 2) by lia.
  assert (byte (pre ++ frame_bytes true (first :: rest) ++ tl) (length pre + 3)
          = Ok ((first / 256) mod 256)) as -> by by rewrite (byte_at_off _ _ _ 3) by lia.
  cbn [rbind]. rewrite E2. cbn [rbind]. rewrite E3. cbn [rbind head default drop].
  rewrite !Nat2Z.id. change [first mod 256; (first / 256) mod 256] with (le_bytes 2 first).
  rewrite i16_round by done. cbn [length]. rewrite Nat.sub_succ, Nat.sub_0_r.
  rewrite (decode_codes _ _ (codes first (initial_step_index first rest) rest)); [|done|lia| |done].
  - cbn [rbind reconstruct]. rewrite pcm_bytes_cons, <- app_assoc. f_equal.
    rewrite length_app, Hlen. unfold EIAD_FRAME_HEADER_BYTES. cbn [length].
    rewrite Nat.sub_succ, Nat.sub_0_r. lia.
  - unfold frame_bytes. rewrite <- app_assoc, (app_assoc pre).
    replace (length pre + EIAD_FRAME_HEADER_BYTES)%nat
      with (length (pre ++ frame_head true (first :: rest))) by (rewrite length_app; done).
    apply packed_stores, codes_ok, Hi.
Qed.

Lemma decode_body l pre out :
  Forall in_i16 l →
  decode_frames (pre ++ body true EIAD_FRAME_SAMPLES l) (length (chunks EIAD_FRAME_SAMPLES l))
    (length pre) out
  = Ok (out ++ pcm_bytes (mjoin (reconstruct <$> chunks EIAD_FRAME_SAMPLES l))).
Proof.
  pose proof eiad_frame_samples as Hn. assert (0 < EIAD_FRAME_SAMPLES)%nat as Hpos by lia.
  revert pre out. induction l as [|l Hl IH] using (chunk_ind EIAD_FRAME_SAMPLES Hpos);
    intros pre out Hi16.
  { cbn. by rewrite app_nil_r. }
  rewrite body_cons, (chunks_cons _ l) by done. cbn [length].
  rewrite decode_frame_step.
  - rewrite app_assoc, IH by by apply Forall_drop.
    cbn [fmap list_fmap mjoin list_join]. by rewrite pcm_bytes_app, <- app_assoc.
  - pose proof (chunks_sizes EIAD_FRAME_SAMPLES l Hpos) as Hs. rewrite chunks_cons in Hs by done.
    apply Forall_cons in Hs as [Hs _]. unfold frame_size. lia.
  - by apply Forall_take.
Qed.

(** ** Arbitrary input: the parser never panics, and what it accepts decodes *)

Lemma nibble_codes b : is_byte b → in_code (Z.land b 15) ∧ in_code (Z.shiftr b 4).
Proof.
  unfold is_byte, in_code. intros Hb. rewrite Z.shiftr_div_pow2 by lia.
  change (Z.land b 15) with (Z.land b (Z.ones 4)). rewrite Z.land_ones by lia. change (2 ^ 4) with 16.
  split; div_lia.
Qed.

Lemma decode_samples_total e offset remaining k p i out :
  bytes_ok e → in_index i → (0 < k)%nat →
  (offset + div_ceil (k + remaining - 1) 2 ≤ length e)%nat →
  ∃ pcm, decode_samples e offset remaining k p i out = Ok (out ++ pcm)
    ∧ length pcm = (2 * remaining)%nat ∧ bytes_ok pcm.
Proof.
  intros He. revert k p i out. induction remaining as [|remaining IH]; intros k p i out Hi Hk Hl.
  { exists []. rewrite app_nil_r. by repeat split. }
  cbn [decode_samples].
  assert ((k - 1) / 2 < div_ceil (k + S remaining - 1) 2)%nat as Hlt.
  { unfold div_ceil. apply Nat.lt_le_trans with ((k - 1 + 1 * 2) / 2)%nat.
    - rewrite Nat.div_add by lia. lia.
    - apply Nat.Div0.div_le_mono. lia. }
  destruct (byte_total e (offset + (k - 1) / 2)) as [b Hb]; [lia|].
  pose proof (byte_inv _ _ _ He Hb) as [_ Hbyte]. rewrite Hb. cbn [rbind].
  destruct (nibble_codes b Hbyte) as [Hc1 Hc2].
  assert (in_code (if Nat.odd k then Z.land b 15 else Z.shiftr b 4)) as Hc by by destruct (Nat.odd k).
  destruct (decode_ima_sample_ok _ p i Hc Hi) as (p' & i' & -> & Hp' & Hi'). cbn [rbind].
  destruct (IH (S k) p' i' (out ++ le_bytes 2 p') Hi' ltac:(lia)) as (pcm & E & Hlen & Hok).
  { by replace (S k + remaining - 1)%nat with (k + S remaining - 1)%nat by lia. }
  exists (le_bytes 2 p' ++ pcm). rewrite E, <- app_assoc. split; [done|]. split.
  - rewrite length_app, length_le_bytes. lia.
  - apply Forall_app. split; [apply le_bytes_ok|done].
Qed.

(** What one accepted iteration of [inspect_eiad] has checked. *)
Record frame_accepted (e : bytes) (offset frame_end : nat) (n : Z) : Prop := {
  fa_samples : read_u16 e offset = Ok n;
  fa_payload : read_u16 e (offset + 6) = Ok (Z.of_nat (div_ceil (Z.to_nat n - 1) 2));
  fa_range : 0 < n ≤ 960;
  fa_index : ∃ i, byte e (offset + 4) = Ok i ∧ in_index i;
  fa_end : frame_end = (offset + 8 + div_ceil (Z.to_nat n - 1) 2)%nat;
  fa_bound : (frame_end ≤ length e)%nat;
}.

Lemma decode_frame_total e offset frame_end n remaining out :
  bytes_ok e → frame_accepted e offset frame_end n →
  ∃ pcm, decode_frames e (S remaining) offset out = decode_frames e remaining frame_end (out ++ pcm)
    ∧ Z.of_nat (length pcm) = 2 * n ∧ bytes_ok pcm.
Proof.
  intros He [E1 E3 Hn (i & E2 & Hi) -> Hb].
  destruct (byte_total e (offset + 2)) as [lo Hlo]; [lia|].
  destruct (byte_total e (offset + 3)) as [hi Hhi]; [lia|].
  cbn [decode_frames]. rewrite E1, Hlo, Hhi, E2, E3. cbn [rbind]. rewrite Nat2Z.id.
  set (p := i16_from_le [lo; hi]).
  destruct (decode_samples_total e (offset + 8) (Z.to_nat n - 1) 1 p i (out ++ le_bytes 2 p))
    as (pcm & E & Hlen & Hok); [done|done|lia| |].
  { by replace (1 + (Z.to_nat n - 1) - 1)%nat with (Z.to_nat n - 1)%nat by lia. }
  unfold EIAD_FRAME_HEADER_BYTES. rewrite E. cbn [rbind].
  exists (le_bytes 2 p ++ pcm). rewrite app_assoc. split; [done|]. split.
  - rewrite length_app, length_le_bytes. lia.
  - apply Forall_app. split; [apply le_bytes_ok|done].
Qed.

(** One iteration on arbitrary bytes. *)
Lemma inspect_frame_cases e samples frames remaining index offset counted :
  bytes_ok e → 0 ≤ counted ≤ samples → samples ≤ MAX_TTS_SAMPLES →
  inspect_frames e samples frames (S remaining) index offset counted = Err InvalidEiad
  ∨ ∃ frame_end n,
      frame_accepted e offset frame_end n
      ∧ n = (if index + 1 =? frames then samples - counted else 960)
      ∧ inspect_frames e samples frames (S remaining) index offset counted
        = inspect_frames e samples frames remaining (index + 1) frame_end (counted + n).
Proof.
  intros He Hc Hmax. cbn [inspect_frames]. unfold EIAD_FRAME_HEADER_BYTES.
  destruct (Nat.leb_spec (offset + 8) (length e)) as [Hb|]; [|by left]. cbn [require rbind].
  destruct (read_le_total 2 e offset) as [n En]; [lia|].
  destruct (byte_total e (offset + 4)) as [i Ei]; [lia|].
  destruct (byte_total e (offset + 5)) as [r Er]; [lia|].
  destruct (read_le_total 2 e (offset + 6)) as [pl Epl]; [lia|].
  unfold read_u16. rewrite En, Ei, Er, Epl. cbn [rbind].
  assert ((if index + 1 =? frames then unsigned_sub samples counted else Ok (Z.of_nat EIAD_FRAME_SAMPLES))
          = Ok (if index + 1 =? frames then samples - counted else 960)) as ->.
  { unfold unsigned_sub. rewrite (proj2 (Z.leb_le _ _)) by lia. by destruct (_ =? _). }
  cbn [rbind]. rewrite eiad_frame_samples.
  set (x := if index + 1 =? frames then samples - counted else 960).
  destruct (negb _) eqn:Hchecks; cbn [require rbind]; [|by left].
  apply negb_true_iff in Hchecks. bool_prop. subst n pl.
  pose proof (byte_inv _ _ _ He Ei) as [_ Hi]. unfold is_byte in Hi.
  apply (read_le_inv _ _ _ _ He) in En as En'. destruct En' as [_ Hx].
  assert (x = Z.of_nat (Z.to_nat x)) as Ex by lia.
  assert (z_div_ceil (Z.max 0 (x - 1)) 2 = Z.of_nat (div_ceil (Z.to_nat x - 1) 2)) as Ed.
  { rewrite Ex at 1. apply payload_size. lia. }
  rewrite Ed in *. rewrite Nat2Z.id.
  destruct (Nat.leb_spec (offset + 8 + div_ceil (Z.to_nat x - 1) 2) (length e)) as [Hb'|];
    [|by left]. cbn [require rbind].
  assert (frame_accepted e offset (offset + 8 + div_ceil (Z.to_nat x - 1) 2) x) as Hacc.
  { constructor; [exact En|exact Epl|lia|exists i; split; [done|split; lia]|done|done]. }
  assert (checked_add u64_max counted x = Some (counted + x)) as Hadd.
  { unfold checked_add. rewrite (proj2 (Z.leb_le _ _)); [done|].
    unfold MAX_TTS_SAMPLES, TTS_SAMPLE_RATE, MAX_TTS_SECONDS, u64_max in *. lia. }
  rewrite Hadd. destruct (Z.odd (x - 1)); cbn [rbind].
  - destruct (byte_total e (offset + 8 + div_ceil (Z.to_nat x - 1) 2 - 1)) as [l El]; [lia|].
    rewrite El. cbn [rbind]. destruct (_ =? 0); [|by left].
    right. by exists (offset + 8 + div_ceil (Z.to_nat x - 1) 2)%nat, x.
  - right. by exists (offset + 8 + div_ceil (Z.to_nat x - 1) 2)%nat, x.
Qed.

(** The loop on arbitrary bytes: [InvalidEiad], or a file that decodes. *)
Lemma inspect_frames_safe e samples frames remaining index offset counted :
  bytes_ok e → 0 ≤ index → frames = index + Z.of_nat remaining → samples ≤ MAX_TTS_SAMPLES →
  960 * (frames - 1) < samples → counted ≤ samples → ((0 < remaining)%nat → counted = 960 * index) →
  match inspect_frames e samples frames remaining index offset counted with
  | Ok (_, total) => ∀ out, ∃ pcm, decode_frames e remaining offset out = Ok (out ++ pcm)
      ∧ Z.of_nat (length pcm) = 2 * (total - counted) ∧ bytes_ok pcm
  | Err err => err = InvalidEiad
  end.
Proof.
  intros He. revert index offset counted.
  induction remaining as [|remaining IH]; intros index offset counted Hi Hf Hmax Hs Hc Hcount.
  { cbn. intros out. exists []. rewrite app_nil_r. simpl. split; [done|]. split; [lia|done]. }
  specialize (Hcount ltac:(lia)).
  destruct (inspect_frame_cases e samples frames remaining index offset counted He)
    as [-> | (frame_end & n & Hacc & Hn & ->)]; [lia|done|done|].
  assert (n ≤ samples - counted ∧ ((0 < remaining)%nat → n = 960)) as [Hn1 Hn2].
  { destruct (Z.eqb_spec (index + 1) frames); lia. }
  specialize (IH (index + 1) frame_end (counted + n)
    ltac:(lia) ltac:(lia) Hmax Hs ltac:(lia) ltac:(lia)).
  destruct (inspect_frames _ _ _ remaining _ _ _) as [[o total]|err]; [|done].
  intros out.
  destruct (decode_frame_total e offset frame_end n remaining out He Hacc) as (pcm1 & -> & L1 & O1).
  destruct (IH (out ++ pcm1)) as (pcm2 & -> & L2 & O2).
  exists (pcm1 ++ pcm2). rewrite app_assoc, length_app. split; [done|].
  split; [lia|by apply Forall_app].
Qed.

(** * The audio containers: what the encoders and the parsers guarantee

    Whole-file theorems on top of [Audio] and the frames above: the two artifacts of a
    synthesised clip decode to what was encoded, and the parsers of untrusted files
    are total. *)

(** ** Whole files *)

Lemma validate_pcm_ok pcm n :
  validate_pcm pcm = Ok n ↔
  Nat.even (length pcm) = true ∧ Z.of_nat (length pcm) = 2 * n ∧ 0 < n ≤ MAX_TTS_SAMPLES.
Proof.
  unfold validate_pcm. destruct (Nat.eqb_spec (length pcm) 0) as [E|E]; cbn [orb].
  { rewrite E. split; [done|]. simpl. lia. }
  destruct (Nat.even (length pcm)) eqn:He; cbn [negb].
  2: { split; [done|]. by intros [? _]. }
  apply Nat.even_spec in He as [m Em]. rewrite Em.
  replace (2 * m / 2)%nat with m by (rewrite Nat.mul_comm, Nat.div_mul; lia).
  destruct (Z.ltb_spec MAX_TTS_SAMPLES (Z.of_nat m)).
  - split; [done|]. lia.
  - split; [intros [= <-]; split; [done|lia]|]. intros (_ & ? & ?). f_equal. lia.
Qed.

Lemma validate_pcm_err pcm e : validate_pcm pcm = Err e → e = InvalidPcm.
Proof. unfold validate_pcm. destruct (_ || _); [congruence|]. destruct (_ <? _); congruence. Qed.

Lemma u32_fits e n : Z.of_nat n ≤ u32_max → u32_try_from e n = Ok (Z.of_nat n).
Proof. intros ?. unfold u32_try_from. by rewrite (proj2 (Z.leb_le _ _)) by lia. Qed.

Lemma u32_try_from_err e n e' : u32_try_from e n = Err e' → e' = e.
Proof. unfold u32_try_from. destruct (_ <=? _); congruence. Qed.

Definition eiad_header (total_samples frame_count : Z) : bytes :=
  ascii_bytes "EIAD" ++ le_bytes 2 EIAD_VERSION ++ le_bytes 2 (Z.of_nat EIAD_HEADER_BYTES)
  ++ le_bytes 4 TTS_SAMPLE_RATE ++ le_bytes 2 1 ++ le_bytes 2 4
  ++ le_bytes 2 (Z.of_nat EIAD_FRAME_SAMPLES) ++ le_bytes 2 (Z.of_nat EIAD_FRAME_HEADER_BYTES)
  ++ le_bytes 8 total_samples ++ le_bytes 4 frame_count.

Definition device_header (total_samples frame_count : Z) : bytes :=
  ascii_bytes "EIAD" ++ [1] ++ [1] ++ le_bytes 4 TTS_SAMPLE_RATE
  ++ le_bytes 2 (Z.of_nat DEVICE_EIAD_FRAME_SAMPLES) ++ le_bytes 2 frame_count
  ++ le_bytes 4 total_samples ++ le_bytes 2 (Z.of_nat DEVICE_EIAD_HEADER_BYTES).

(** Chunks of at most [n] samples fit the frames' 16-bit counts. *)
Lemma chunk_frames n (l : list Z) :
  (0 < n)%nat → Z.of_nat n ≤ 65535 → Forall frame_size (chunks n l).
Proof.
  intros Hn Hn'. eapply Forall_impl; [by apply chunks_sizes|].
  intros c [? ?]. unfold frame_size. lia.
Qed.

Lemma div_ceil_bound a b : (0 < b)%nat → Z.of_nat (div_ceil a b) ≤ Z.of_nat a.
Proof.
  intros Hb. destruct a as [|a].
  - unfold div_ceil. by rewrite Nat.div_small by lia.
  - assert (div_ceil (S a) b ≤ S a)%nat; [|lia].
    unfold div_ceil. apply Nat.Div0.div_le_upper_bound. nia.
Qed.

Lemma encode_eiad_eq pcm n :
  bytes_ok pcm → validate_pcm pcm = Ok n →
  encode_eiad pcm = Ok (eiad_header n (z_div_ceil n (Z.of_nat EIAD_FRAME_SAMPLES))
                        ++ body true EIAD_FRAME_SAMPLES (pcm_samples pcm)).
Proof.
  intros Hok Hv. unfold encode_eiad. rewrite Hv. cbn [rbind].
  apply validate_pcm_ok in Hv as (_ & _ & Hn).
  unfold MAX_TTS_SAMPLES, TTS_SAMPLE_RATE, MAX_TTS_SECONDS in Hn.
  pose proof eiad_frame_samples as Hk.
  pose proof (div_ceil_bound (Z.to_nat n) EIAD_FRAME_SAMPLES ltac:(lia)) as Hd.
  rewrite u32_fits by (unfold u32_max; lia). cbn [rbind].
  rewrite encode_frames_eq by (apply chunk_frames; lia).
  rewrite <- (z_div_ceil_nat (Z.to_nat n)), Z2Nat.id by lia. done.
Qed.

(** A header's 8- and 4-byte counters, read back. *)
Lemma inspect_eiad_header n l tl :
  0 < n ≤ MAX_TTS_SAMPLES → Z.of_nat (length l) = n → tl = body true EIAD_FRAME_SAMPLES l →
  let frames := z_div_ceil n (Z.of_nat EIAD_FRAME_SAMPLES) in
  inspect_eiad (eiad_header n frames ++ tl) = Ok (mk_metadata TTS_SAMPLE_RATE n frames).
Proof.
  intros Hn Hl ->. cbv zeta. set (k := z_div_ceil n _).
  pose proof eiad_frame_samples as Hfs.
  pose proof Hn as Hn'. unfold MAX_TTS_SAMPLES, TTS_SAMPLE_RATE, MAX_TTS_SECONDS in Hn'.
  assert (k = Z.of_nat (length (chunks EIAD_FRAME_SAMPLES l))) as Hk.
  { rewrite length_chunks by lia. rewrite <- z_div_ceil_nat by lia. by rewrite Hl. }
  pose proof (div_ceil_bound (length l) EIAD_FRAME_SAMPLES ltac:(lia)) as Hd.
  rewrite <- length_chunks in Hd by lia.
  set (e := eiad_header n k ++ _).
  assert (read_u64 e 20 = Ok n) as E1.
  { unfold e, eiad_header, read_u64.
    change (read_le 8 (le_bytes 8 n ++ (le_bytes 4 k ++ body true EIAD_FRAME_SAMPLES l)) 0 = Ok n).
    apply read_le_head. simpl. lia. }
  assert (read_u32 e 28 = Ok k) as E2.
  { unfold e, eiad_header, read_u32.
    change (read_le 4 (le_bytes 4 k ++ body true EIAD_FRAME_SAMPLES l) 0 = Ok k).
    apply read_le_head. simpl. lia. }
  assert (inspect_frames e n k (Z.to_nat k) 0 EIAD_HEADER_BYTES 0 = Ok (length e, n)) as E3.
  { rewrite Hk at 2. rewrite Nat2Z.id.
    apply (inspect_body l (eiad_header n k)); [done|lia|unfold u64_max; lia]. }
  unfold inspect_eiad. rewrite E1, E2. cbn [rbind]. rewrite E3. cbn [rbind].
  unfold require at 2. rewrite (proj2 (Z.eqb_neq _ _)), (proj2 (Z.ltb_ge _ _)) by lia.
  fold k. rewrite !Z.eqb_refl, Nat.eqb_refl. cbn [orb negb andb require rbind]. reflexivity.
Qed.

Lemma inspect_device_header n l :
  0 < n ≤ MAX_TTS_SAMPLES → Z.of_nat (length l) = n →
  let frames := z_div_ceil n (Z.of_nat DEVICE_EIAD_FRAME_SAMPLES) in
  frames ≤ 65535 ∧
  inspect_device_eiad (device_header n frames ++ body false DEVICE_EIAD_FRAME_SAMPLES l)
  = Ok (mk_metadata TTS_SAMPLE_RATE n frames).
Proof.
  intros Hn Hl. cbv zeta. set (k := z_div_ceil n _). set (tl := body _ _ l).
  pose proof device_frame_samples as Hfs.
  pose proof Hn as Hn'. unfold MAX_TTS_SAMPLES, TTS_SAMPLE_RATE, MAX_TTS_SECONDS in Hn'.
  assert (k = Z.of_nat (length (chunks DEVICE_EIAD_FRAME_SAMPLES l))) as Hk.
  { rewrite length_chunks by lia. rewrite <- z_div_ceil_nat by lia. by rewrite Hl. }
  assert (0 ≤ k ≤ 65535) as Hk'.
  { split; [lia|]. unfold k, z_div_ceil. rewrite Hfs. div_lia. }
  split; [lia|]. set (e := device_header n k ++ tl).
  assert (read_u16 e 12 = Ok k) as E1.
  { unfold e, device_header, read_u16.
    change (read_le 2 (le_bytes 2 k ++ (le_bytes 4 n ++ le_bytes 2 20 ++ tl)) 0 = Ok k).
    apply read_le_head. simpl. lia. }
  assert (read_u32 e 14 = Ok n) as E2.
  { unfold e, device_header, read_u32.
    change (read_le 4 (le_bytes 4 n ++ (le_bytes 2 20 ++ tl)) 0 = Ok n).
    apply read_le_head. simpl. lia. }
  assert (inspect_device_frames e n k (Z.to_nat k) 0 DEVICE_EIAD_HEADER_BYTES 0
          = Ok (length e, n)) as E3.
  { rewrite Hk at 2. rewrite Nat2Z.id.
    apply (inspect_device_body l (device_header n k)); [done|lia|unfold u64_max; lia]. }
  unfold inspect_device_eiad. rewrite E1, E2. cbn [rbind]. rewrite E3. cbn [rbind].
  unfold require at 2. rewrite (proj2 (Z.eqb_neq _ _)), (proj2 (Z.ltb_ge _ _)) by lia.
  fold k. rewrite !Z.eqb_refl, Nat.eqb_refl. cbn [orb negb andb require rbind]. reflexivity.
Qed.

Lemma decode_eiad_header n l :
  0 < n ≤ MAX_TTS_SAMPLES → Z.of_nat (length l) = n → Forall in_i16 l →
  decode_eiad (eiad_header n (z_div_ceil n (Z.of_nat EIAD_FRAME_SAMPLES))
               ++ body true EIAD_FRAME_SAMPLES l)
  = Ok (pcm_bytes (mjoin (reconstruct <$> chunks EIAD_FRAME_SAMPLES l))).
Proof.
  intros Hn Hl Hi. unfold decode_eiad. rewrite (inspect_eiad_header n l) by done.
  cbn [rbind md_frames]. rewrite <- Hl.
  rewrite z_div_ceil_nat, Nat2Z.id, <- length_chunks by (pose proof eiad_frame_samples; lia).
  set (h := eiad_header _ _). change EIAD_HEADER_BYTES with (length h). by apply decode_body.
Qed.

(** ** The errors of the parsers

    [fails_with e m]: the only error of [m] is [e]; in particular [m] does not panic
    unless [e] is [Panic]. *)
Definition fails_with {A} (e : AudioError) (m : result AudioError A) : Prop :=
  ∀ e', m = Err e' → e' = e.

Lemma fails_bind {A B} e (m : result AudioError A) (k : A → result AudioError B) :
  fails_with e m → (∀ a, m = Ok a → fails_with e (k a)) → fails_with e (rbind m k).
Proof.
  intros Hm Hk e'. destruct m as [a|e0]; simpl; [by apply Hk|]. intros [= <-]. by apply Hm.
Qed.
Lemma fails_ok {A} e (a : A) : fails_with e (Ok a).
Proof. by intros e'. Qed.
Lemma fails_require e c : fails_with e (require c e).
Proof. intros e'. destruct c; simpl; congruence. Qed.
Lemma fails_read n p off : fails_with InvalidEiad (read_le n p off).
Proof. intros e'. apply read_le_err. Qed.
Lemma fails_read_in e n p off : (off + n ≤ length p)%nat → fails_with e (read_le n p off).
Proof. intros H. destruct (read_le_total n p off H) as [v ->]. apply fails_ok. Qed.
Lemma fails_range e n p off : (off + n ≤ length p)%nat → fails_with e (range p off n).
Proof.
  intros ?. unfold range, get_slice. rewrite (proj2 (Nat.leb_le _ _)) by done. apply fails_ok.
Qed.
Lemma fails_byte e p i : (i < length p)%nat → fails_with e (byte p i).
Proof. intros H. destruct (byte_total p i H) as [b ->]. apply fails_ok. Qed.
Lemma fails_expect {A} `{EqDecision A} e (r : result AudioError A) a :
  fails_with e r → fails_with e (expect e r a).
Proof. intros Hr. apply fails_bind; [done|]. intros. apply fails_require. Qed.
Lemma fails_if {A} e (c : bool) (m1 m2 : result AudioError A) :
  fails_with e m1 → fails_with e m2 → fails_with e (if c then m1 else m2).
Proof. by destruct c. Qed.

Create HintDb audio_errors.
#[export] Hint Resolve fails_ok fails_require fails_read fails_read_in fails_range fails_byte
  fails_expect fails_if : audio_errors.
#[export] Hint Extern 1 (fails_with _ (read_u16 _ _)) => apply fails_read : audio_errors.
#[export] Hint Extern 1 (fails_with _ (read_u32 _ _)) => apply fails_read : audio_errors.
#[export] Hint Extern 5 (_ ≤ _)%nat => lia : audio_errors.
#[export] Hint Extern 5 (_ < _)%nat => lia : audio_errors.

Ltac fails_step :=
  apply fails_bind; [auto with audio_errors|intros ? ?; cbn beta].

(** The counters a header declares, once checked. *)
Definition counters_ok (samples frames : Z) : bool :=
  negb ((samples =? 0) || (MAX_TTS_SAMPLES <? samples)
    || negb (frames =? z_div_ceil samples (Z.of_nat EIAD_FRAME_SAMPLES))).

Lemma counters_ok_spec eiad samples frames :
  bytes_ok eiad → read_u64 eiad 20 = Ok samples → counters_ok samples frames = true →
  0 < samples ≤ MAX_TTS_SAMPLES ∧ frames = z_div_ceil samples (Z.of_nat EIAD_FRAME_SAMPLES)
  ∧ 0 ≤ frames ∧ 960 * (frames - 1) < samples.
Proof.
  intros He Hs Hc. apply read_le_inv in Hs as [_ ?]; [|done].
  unfold counters_ok in Hc. apply negb_true_iff in Hc. bool_prop. subst frames.
  unfold z_div_ceil. rewrite eiad_frame_samples. split; [lia|]. split; [done|]. div_lia.
Qed.

Lemma inspect_frames_checked eiad samples frames :
  bytes_ok eiad → read_u64 eiad 20 = Ok samples → counters_ok samples frames = true →
  match inspect_frames eiad samples frames (Z.to_nat frames) 0 EIAD_HEADER_BYTES 0 with
  | Ok (_, total) => ∀ out, ∃ pcm,
      decode_frames eiad (Z.to_nat frames) EIAD_HEADER_BYTES out = Ok (out ++ pcm)
      ∧ Z.of_nat (length pcm) = 2 * (total - 0) ∧ bytes_ok pcm
  | Err err => err = InvalidEiad
  end.
Proof.
  intros He Hs Hc. destruct (counters_ok_spec _ _ _ He Hs Hc) as (? & ? & ? & ?).
  apply inspect_frames_safe; try done; lia.
Qed.

Lemma inspect_eiad_fails eiad : bytes_ok eiad → fails_with InvalidEiad (inspect_eiad eiad).
Proof.
  intros He. unfold inspect_eiad. apply fails_bind; [apply fails_require|].
  intros ? Hlen%require_ok%Nat.leb_le. unfold EIAD_HEADER_BYTES in Hlen.
  do 8 fails_step.
  (* the two counters, then the frames *)
  apply fails_bind; [apply fails_read|]. intros samples Hs.
  apply fails_bind; [apply fails_read|]. intros frames Hf.
  apply fails_bind; [apply fails_require|]. intros ? Hc%require_ok.
  pose proof (inspect_frames_checked eiad samples frames He Hs Hc) as Hsafe.
  apply fails_bind.
  - intros e' E. by rewrite E in Hsafe.
  - intros [o total] _. fails_step. apply fails_ok.
Qed.

Lemma inspect_eiad_ok eiad m :
  bytes_ok eiad → inspect_eiad eiad = Ok m →
  0 < md_samples m ≤ MAX_TTS_SAMPLES ∧ md_sample_rate m = TTS_SAMPLE_RATE
  ∧ md_frames m = z_div_ceil (md_samples m) (Z.of_nat EIAD_FRAME_SAMPLES)
  ∧ ∃ pcm, decode_eiad eiad = Ok pcm ∧ bytes_ok pcm ∧ validate_pcm pcm = Ok (md_samples m).
Proof.
  intros He Hins. unfold decode_eiad. rewrite Hins. cbn [rbind]. unfold inspect_eiad in Hins.
  do 9 (apply rbind_ok in Hins as (? & _ & Hins)).
  apply rbind_ok in Hins as (samples & Hs & Hins).
  apply rbind_ok in Hins as (frames & _ & Hins).
  apply rbind_ok in Hins as (? & Hc%require_ok & Hins).
  pose proof (inspect_frames_checked eiad samples frames He Hs Hc) as Hsafe.
  destruct (counters_ok_spec _ _ _ He Hs Hc) as (Hn & Hf & _ & _).
  apply rbind_ok in Hins as ([o total] & E & Hins). rewrite E in Hsafe.
  apply rbind_ok in Hins as (? & Hend%require_ok & Hins). injection Hins as <-. bool_prop. subst total.
  cbn [md_samples md_frames md_sample_rate]. split; [done|]. split; [done|]. split; [done|].
  destruct (Hsafe []) as (pcm & -> & Hlen & Hok). exists pcm. split; [done|]. split; [done|].
  apply validate_pcm_ok. split; [|lia].
  apply Nat.even_spec. exists (Z.to_nat samples). lia.
Qed.

(** ** WAV files *)

Definition wav_header (len : Z) : bytes :=
  ascii_bytes "RIFF" ++ le_bytes 4 (len + 36) ++ ascii_bytes "WAVEfmt "
  ++ le_bytes 4 16 ++ le_bytes 2 1 ++ le_bytes 2 1 ++ le_bytes 4 TTS_SAMPLE_RATE
  ++ le_bytes 4 (TTS_SAMPLE_RATE * 2) ++ le_bytes 2 2 ++ le_bytes 2 16 ++ ascii_bytes "data"
  ++ le_bytes 4 len.

Lemma encode_wav_eq pcm n :
  validate_pcm pcm = Ok n → encode_wav pcm = Ok (wav_header (Z.of_nat (length pcm)) ++ pcm).
Proof.
  intros Hv. unfold encode_wav. rewrite Hv. cbn [rbind].
  apply validate_pcm_ok in Hv as (_ & Hl & Hn).
  unfold MAX_TTS_SAMPLES, TTS_SAMPLE_RATE, MAX_TTS_SECONDS in Hn.
  rewrite u32_fits by (unfold u32_max; lia). cbn [rbind].
  unfold checked_add. rewrite (proj2 (Z.leb_le _ _)) by (unfold u32_max; lia). reflexivity.
Qed.

Lemma decode_wav_encoded pcm n :
  validate_pcm pcm = Ok n → decode_wav (wav_header (Z.of_nat (length pcm)) ++ pcm) = Ok pcm.
Proof.
  intros Hv. pose proof Hv as Hv'. apply validate_pcm_ok in Hv' as (_ & Hl & Hn).
  unfold MAX_TTS_SAMPLES, TTS_SAMPLE_RATE, MAX_TTS_SECONDS in Hn.
  set (len := Z.of_nat (length pcm)) in *. set (w := wav_header len ++ pcm).
  assert (length w = 44 + length pcm)%nat as Hw by (unfold w; by rewrite length_app).
  assert (read_u32 w 4 = Ok (len + 36)) as E1.
  { unfold w, wav_header, read_u32. rewrite <- !app_assoc.
    rewrite (read_le_at 4 (ascii_bytes "RIFF") _ 4 0) by done.
    apply read_le_head. simpl. lia. }
  assert (read_u32 w 40 = Ok len) as E2.
  { unfold read_u32. change w with (take 40 (wav_header len) ++ le_bytes 4 len ++ pcm).
    rewrite (read_le_at 4 _ _ 40 0) by done. apply read_le_head. simpl. lia. }
  assert (drop WAV_HEADER_BYTES w = pcm) as E3.
  { unfold w. by rewrite drop_app_length' by done. }
  unfold decode_wav. rewrite E1, E2, E3, Hv. cbn [rbind].
  unfold streaming_sentinel. rewrite (proj2 (Z.eqb_neq (len + 36) _)) by lia. cbn [andb].
  rewrite u32_fits by (unfold u32_max; lia).
  rewrite (require_true (_ =? length w)%nat).
  2: { apply Nat.eqb_eq. rewrite Hw. unfold WAV_HEADER_BYTES, len. lia. }
  cbn [rbind]. unfold expect at 11. cbn [rbind].
  rewrite bool_decide_eq_true_2 by (rewrite Hw; unfold len; lia). reflexivity.
Qed.

Lemma decode_wav_fails wav : fails_with InvalidWav (decode_wav wav).
Proof.
  unfold decode_wav. apply fails_bind; [apply fails_require|].
  intros ? Hlen%require_ok%Nat.leb_le. unfold WAV_HEADER_BYTES in Hlen.
  assert (∀ n off, (off + n ≤ 44)%nat → fails_with InvalidWav (read_le n wav off)) as Hr.
  { intros. apply fails_read_in. lia. }
  do 2 fails_step.
  do 7 (apply fails_bind; [apply fails_expect, Hr; lia|intros _ _]).
  fails_step.
  do 2 (apply fails_bind; [apply Hr; lia|intros ? _]).
  apply fails_bind.
  - destruct (streaming_sentinel _ _); [apply fails_ok|].
    apply fails_bind; [apply fails_require|intros ? _]. apply fails_expect.
    intros e'. apply u32_try_from_err.
  - intros ? _. destruct (validate_pcm _); [apply fails_ok|intros e'; congruence].
Qed.

Lemma decode_wav_ok wav pcm :
  decode_wav wav = Ok pcm →
  pcm = drop WAV_HEADER_BYTES wav ∧ (WAV_HEADER_BYTES ≤ length wav)%nat
  ∧ ∃ n, validate_pcm pcm = Ok n.
Proof.
  unfold decode_wav. intros H. apply rbind_ok in H as (? & Hl%require_ok%Nat.leb_le & H).
  do 13 (apply rbind_ok in H as (? & _ & H)). 
  destruct (validate_pcm _) as [n|] eqn:E; [|done]. injection H as <-. eauto.
Qed.

(** ** The transcoder *)

Lemma transcode_decoded eiad pcm n :
  decode_eiad eiad = Ok pcm → bytes_ok pcm → validate_pcm pcm = Ok n →
  ∃ device, transcode_eiad_for_device eiad = Ok device
    ∧ inspect_device_eiad device = Ok (mk_metadata TTS_SAMPLE_RATE n
        (z_div_ceil n (Z.of_nat DEVICE_EIAD_FRAME_SAMPLES))).
Proof.
  intros Hd Hok Hv. unfold transcode_eiad_for_device. rewrite Hd. cbn [rbind]. rewrite Hv.
  apply validate_pcm_ok in Hv as (Hev & Hl & Hn). cbn [rbind].
  destruct (pcm_samples_ok pcm Hok Hev) as (_ & _ & Hlen).
  destruct (inspect_device_header n (pcm_samples pcm) Hn ltac:(lia)) as [Hfit Hins].
  unfold MAX_TTS_SAMPLES, TTS_SAMPLE_RATE, MAX_TTS_SECONDS in Hn.
  pose proof device_frame_samples as Hk.
  assert (Z.of_nat (div_ceil (Z.to_nat n) DEVICE_EIAD_FRAME_SAMPLES)
          = z_div_ceil n (Z.of_nat DEVICE_EIAD_FRAME_SAMPLES)) as Hdiv.
  { rewrite <- z_div_ceil_nat by lia. by rewrite Z2Nat.id by lia. }
  rewrite u16_fits by lia. cbn [rbind]. rewrite u32_fits by (unfold u32_max; lia).
  cbn [rbind]. rewrite encode_frames_eq by (apply chunk_frames; lia).
  rewrite Hdiv, Z2Nat.id by lia. cbn [rbind].
  set (d := device_header n _ ++ _) in Hins. exists d. split; [|done].
  change ((let? _ := inspect_device_eiad d in Ok d) = Ok d). by rewrite Hins.
Qed.

(** ** Properties *)

(** C14 A valid clip (mono 48 kHz PCM of 1 to 150 s worth of samples) is always encoded;
    its WAV decodes to the very PCM bytes, its EIAD declares the sample count and
    decodes, frame by frame, to exactly the predictions the ADPCM encoder made: the
    device plays what the encoder computed, no drift across frames. *)
Theorem encode_tts_audio_correct pcm n :
  bytes_ok pcm → validate_pcm pcm = Ok n →
  ∃ a, encode_tts_audio pcm = Ok a
    ∧ aa_samples a = n ∧ aa_frames a = z_div_ceil n (Z.of_nat EIAD_FRAME_SAMPLES)
    ∧ decode_wav (aa_wav a) = Ok pcm
    ∧ inspect_eiad (aa_eiad a) = Ok (mk_metadata TTS_SAMPLE_RATE n (aa_frames a))
    ∧ decode_eiad (aa_eiad a)
      = Ok (pcm_bytes (mjoin (reconstruct <$> chunks EIAD_FRAME_SAMPLES (pcm_samples pcm)))).
Proof.
  intros Hok Hv. pose proof (proj1 (validate_pcm_ok _ _) Hv) as (He & Hl & Hn).
  destruct (pcm_samples_ok pcm Hok He) as (_ & Hi & Hlen).
  assert (Z.of_nat (length (pcm_samples pcm)) = n) as Hs by lia.
  pose proof (inspect_eiad_header n (pcm_samples pcm) _ Hn Hs eq_refl) as Hins.
  unfold encode_tts_audio.
  rewrite Hv, (encode_wav_eq _ _ Hv), (encode_eiad_eq _ _ Hok Hv). cbn [rbind].
  rewrite Hins. cbn [rbind md_samples md_sample_rate]. rewrite !Z.eqb_refl. cbn [negb orb].
  eexists. split; [reflexivity|]. cbn [aa_samples aa_frames aa_wav aa_eiad md_frames].
  split; [done|]. split; [done|]. split; [by apply (decode_wav_encoded _ n)|].
  split; [exact Hins|]. by apply decode_eiad_header.
Qed.

(** One ADPCM sample: from a step index of the table the encoder neither panics nor
    leaves the 16-bit range and the table; the decoder, given the 4-bit code, moves to
    the same predictor and step index; and the prediction lands within an eighth of the
    step (plus 2) of the sample, or at least one whole step closer to it. *)
Theorem ima_sample_tracks sample predictor step_index :
  in_i16 sample → in_index step_index →
  ∃ step code p i,
    index IMA_STEP_TABLE step_index = Ok step
    ∧ encode_ima_sample sample predictor step_index = Ok (code, p, i)
    ∧ decode_ima_sample code predictor step_index = Ok (p, i)
    ∧ in_code code ∧ in_i16 p ∧ in_index i
    ∧ Z.abs (sample - p) ≤ Z.max (step / 8 + 2) (Z.abs (sample - predictor) - step).
Proof.
  intros Hs Hi. destruct (step_index_ok _ Hi) as (step & Hstep & _).
  destruct (encode_ima_sample_ok sample predictor _ Hi) as (code & p & i & E & D & ? & ? & ?).
  exists step, code, p, i. repeat (split; [done|]).
  exact (encode_ima_sample_error _ _ _ _ _ _ _ Hs Hi Hstep E).
Qed.

(** Untrusted EIAD bytes: the parser answers metadata or [InvalidEiad] and never panics;
    a file it accepts has at most 150 s, decodes to exactly the declared number of
    samples, and is transcoded to a device file that the device-layout check accepts
    with the same sample count; a file it rejects is rejected by both. *)
Theorem untrusted_eiad_total eiad :
  bytes_ok eiad →
  match inspect_eiad eiad with
  | Err err => err = InvalidEiad ∧ decode_eiad eiad = Err InvalidEiad
      ∧ transcode_eiad_for_device eiad = Err InvalidEiad
  | Ok m => 0 < md_samples m ≤ MAX_TTS_SAMPLES
      ∧ md_frames m = z_div_ceil (md_samples m) (Z.of_nat EIAD_FRAME_SAMPLES)
      ∧ (∃ pcm, decode_eiad eiad = Ok pcm ∧ bytes_ok pcm
           ∧ Z.of_nat (length pcm) = 2 * md_samples m)
      ∧ ∃ device, transcode_eiad_for_device eiad = Ok device
          ∧ inspect_device_eiad device = Ok (mk_metadata TTS_SAMPLE_RATE (md_samples m)
              (z_div_ceil (md_samples m) (Z.of_nat DEVICE_EIAD_FRAME_SAMPLES)))
  end.
Proof.
  intros He. destruct (inspect_eiad eiad) as [m|err] eqn:Hins.
  - destruct (inspect_eiad_ok _ _ He Hins) as (Hn & _ & Hf & pcm & Hd & Hok & Hv).
    pose proof (proj1 (validate_pcm_ok _ _) Hv) as (Hev & Hl & _).
    split; [done|]. split; [done|]. split; [by exists pcm|].
    by apply transcode_decoded with pcm.
  - apply inspect_eiad_fails in Hins as E; [|done]. subst err.
    assert (decode_eiad eiad = Err InvalidEiad) as Hd by (unfold decode_eiad; by rewrite Hins).
    unfold transcode_eiad_for_device. by rewrite Hd.
Qed.

(** Untrusted WAV bytes: [decode_wav] never panics and its only error is [InvalidWav];
    what it accepts is the file without its 44-byte header, PCM of a valid length. *)
Theorem untrusted_wav_total wav :
  match decode_wav wav with
  | Err err => err = InvalidWav
  | Ok pcm => pcm = drop WAV_HEADER_BYTES wav ∧ (WAV_HEADER_BYTES ≤ length wav)%nat
      ∧ Nat.even (length pcm) = true ∧ 0 < Z.of_nat (length pcm) ≤ 2 * MAX_TTS_SAMPLES
  end.
Proof.
  destruct (decode_wav wav) as [pcm|err] eqn:E.
  - destruct (decode_wav_ok _ _ E) as (-> & ? & n & Hv).
    apply validate_pcm_ok in Hv as (? & ? & ?). repeat split; try done; lia.
  - by apply decode_wav_fails in E.
Qed.

(** ** Witnesses *)

(** Three samples: one frame. *)
Definition demo_pcm : bytes := le_bytes 2 (-100) ++ le_bytes 2 250 ++ le_bytes 2 7000.
Definition demo_eiad : bytes := default [] (match encode_eiad demo_pcm with Ok e => Some e | Err _ => None end).

Lemma demo_pcm_ok : bytes_ok demo_pcm.
Proof. repeat apply Forall_app_2; apply le_bytes_ok. Qed.

Lemma encode_tts_audio_correct_witness :
  ∃ a, encode_tts_audio demo_pcm = Ok a ∧ aa_samples a = 3 ∧ decode_wav (aa_wav a) = Ok demo_pcm.
Proof.
  destruct (encode_tts_audio_correct demo_pcm 3 demo_pcm_ok) as (a & E & Hs & _ & Hw & _).
  - vm_compute. reflexivity.
  - exists a. split; [exact E|]. split; [exact Hs|exact Hw].
Defined.

Lemma ima_sample_tracks_witness :
  ∃ code p i, encode_ima_sample 7000 (-100) 40 = Ok (code, p, i) ∧ in_i16 p ∧ in_index i.
Proof.
  destruct (ima_sample_tracks 7000 (-100) 40) as (step & code & p & i & _ & E & _ & _ & Hp & Hi & _).
  - split; vm_compute; discriminate.
  - split; vm_compute; discriminate.
  - exists code, p, i. split; [exact E|]. split; [exact Hp|exact Hi].
Defined.

Lemma untrusted_eiad_total_witness :
  inspect_eiad demo_eiad = Ok (mk_metadata 48000 3 1)
  ∧ ∃ device, transcode_eiad_for_device demo_eiad = Ok device.
Proof.
  assert (inspect_eiad demo_eiad = Ok (mk_metadata 48000 3 1)) as E by (vm_compute; reflexivity).
  split; [exact E|].
  pose proof (untrusted_eiad_total demo_eiad) as H. rewrite E in H.
  destruct H as (_ & _ & _ & device & Hd & _).
  - apply (bool_decide_unpack _). vm_compute. exact I.
  - exists device. exact Hd.
Defined.
