(* ===== verification/Capture.v ===== *)
(** * Voice captures over UDP (app/host/src/lan_voice.rs, the capture half)

    Session identities, the EIAU/EIAE packets with their truncated HMAC, and the
    [CaptureAssembler] that turns frames into captures.  A [SocketAddr] is the
    standard library's pair of address and port, an [Instant] a number of
    milliseconds, a [BTreeMap] a [gmap] whose iteration order is written out. *)

From stdpp Require Import gmap.
From S2P Require Import Prelude Bytes.

Definition AUDIO_HEADER_BYTES : nat := 32.
Definition AUDIO_AUTH_TAG_BYTES : nat := 16.
Definition AUDIO_END_BYTES : nat := AUDIO_HEADER_BYTES + AUDIO_AUTH_TAG_BYTES.
Definition AUDIO_FRAME_SAMPLES : nat := 320.
Definition AUDIO_FRAME_BYTES : nat := AUDIO_FRAME_SAMPLES * 2.
Definition AUDIO_SAMPLE_RATE : Z := 16000.
Definition MAX_CAPTURE_BYTES : Z := AUDIO_SAMPLE_RATE * 2 * 90.
Definition MIN_CAPTURE_FRAMES : Z := 10.
Definition MAX_CAPTURE_GAP_FRAMES : Z := 10.
Definition MAX_ACTIVE_CAPTURES : nat := 4.
Definition MAX_RETIRED_SESSIONS : nat := 128.
Definition CAPTURE_ABORT_TIMEOUT : Z := 15000.
Definition MAX_TRANSCRIPT_BYTES : Z := 32 * 1024.

Inductive LanVoiceError :=
| Io | InvalidPacket | InvalidSession | Authentication | InvalidSequence | CaptureLimit
| CaptureTooShort | AsrUnavailable | AsrTimeout | AsrFailed | RemoteAsrRejected
| RemoteAsrInvalidAudio | RemoteAsrProtocol | InvalidTranscript.

#[export] Instance LanVoiceError_eq_dec : EqDecision LanVoiceError.
Proof. solve_decision. Defined.

Inductive SocketAddr :=
| V4 (ip : bytes) (port : Z)
| V6 (ip : bytes) (port flowinfo scope_id : Z).

#[export] Instance SocketAddr_eq_dec : EqDecision SocketAddr.
Proof. solve_decision. Defined.

Record CaptureSessionIdentity := mk_capture_identity {
  ci_slot : Z;
  ci_capture_generation : Z;
  ci_connection_generation : Z;
}.

#[export] Instance CaptureSessionIdentity_eq_dec : EqDecision CaptureSessionIdentity.
Proof. solve_decision. Defined.

Record LanVoicePrompt := mk_prompt {
  vp_slot : Z;
  vp_request_id : bytes;
  vp_transcript : bytes;
}.

Record ParsedFrame := mk_frame {
  pf_session_id : Z;
  pf_identity : CaptureSessionIdentity;
  pf_sequence : Z;
  pf_payload : bytes;
}.

Record ParsedEnd := mk_end {
  pe_session_id : Z;
  pe_identity : CaptureSessionIdentity;
  pe_final_sequence : Z;
}.

Record ActiveCapture := mk_active {
  ac_session_id : Z;
  ac_identity : CaptureSessionIdentity;
  ac_source : SocketAddr;
  ac_next_sequence : Z;
  ac_pcm : bytes;
  ac_last_frame_at : Z;
  ac_final_sequence : option Z;
}.

Record CompletedCapture := mk_completed {
  cc_session_id : Z;
  cc_identity : CaptureSessionIdentity;
  cc_pcm : bytes;
}.

(** ** Packets *)

Definition read_u16 (p : bytes) (off : nat) : Z := get_le 2 p off.
Definition read_u32 (p : bytes) (off : nat) : Z := get_le 4 p off.
Definition read_u64 (p : bytes) (off : nat) : Z := get_le 8 p off.

Definition decode_capture_session_identity (session_id : Z)
    : result LanVoiceError CaptureSessionIdentity :=
  if negb (Z.land (Z.shiftr session_id 56) 255 =? 0xEC) then Err InvalidSession
  else
    let identity :=
      {| ci_slot := Z.land (Z.land (Z.shiftr session_id 52) 15) 255;
         ci_connection_generation := Z.land (Z.shiftr session_id 32) 0xFFFFF;
         ci_capture_generation := Z.land session_id 0xFFFFFFFF |} in
    if negb ((1 <=? ci_slot identity) && (ci_slot identity <=? 4))
       || (ci_connection_generation identity =? 0) || (ci_capture_generation identity =? 0)
    then Err InvalidSession
    else Ok identity.

Section packets.
Context `{Crypto}.

(** The constant-time comparison of the tag. *)
Definition tag_mismatch (expected actual : bytes) : Z :=
  foldl (λ difference '(l, r), Z.lor difference (Z.lxor l r)) 0
    (zip expected actual).

Definition verify_audio_authentication (datagram : bytes) (auth_key : option bytes)
    : result LanVoiceError unit :=
  let? key := of_option Authentication auth_key in
  let? authenticated_bytes :=
    if (AUDIO_AUTH_TAG_BYTES <=? length datagram)%nat
    then Ok (length datagram - AUDIO_AUTH_TAG_BYTES)%nat else Err Authentication in
  let expected := hmac_sha256 key (take authenticated_bytes datagram) in
  if tag_mismatch (take AUDIO_AUTH_TAG_BYTES expected) (drop authenticated_bytes datagram) =? 0
  then Ok tt else Err Authentication.

(** The reads below are behind the length test, which [||] evaluates first. *)
Definition parse_audio_frame (datagram : bytes) (auth_key : option bytes)
    : result LanVoiceError ParsedFrame :=
  if negb (length datagram =? AUDIO_HEADER_BYTES + AUDIO_FRAME_BYTES + AUDIO_AUTH_TAG_BYTES)%nat
     || negb (bool_decide (slice 0 4 datagram = ascii_bytes "EIAU"))
     || negb (byte_at datagram 4 =? 3)
     || negb (byte_at datagram 5 =? Z.of_nat AUDIO_HEADER_BYTES)
     || negb (byte_at datagram 6 =? 1)
     || negb (byte_at datagram 7 =? 1)
     || negb (read_u32 datagram 20 =? AUDIO_SAMPLE_RATE)
     || negb (read_u16 datagram 28 =? Z.of_nat AUDIO_FRAME_SAMPLES)
     || negb (read_u16 datagram 30 =? Z.of_nat AUDIO_FRAME_BYTES)
  then Err InvalidPacket
  else
    let? _ := verify_audio_authentication datagram auth_key in
    let session_id := read_u64 datagram 8 in
    let? identity := decode_capture_session_identity session_id in
    Ok {| pf_session_id := session_id;
          pf_identity := identity;
          pf_sequence := read_u32 datagram 16;
          pf_payload := slice AUDIO_HEADER_BYTES AUDIO_FRAME_BYTES datagram |}.

Definition parse_audio_end (datagram : bytes) (auth_key : option bytes)
    : result LanVoiceError ParsedEnd :=
  if negb (length datagram =? AUDIO_END_BYTES)%nat
     || negb (bool_decide (slice 0 4 datagram = ascii_bytes "EIAE"))
     || negb (byte_at datagram 4 =? 3)
     || negb (byte_at datagram 5 =? Z.of_nat AUDIO_HEADER_BYTES)
     || negb (byte_at datagram 6 =? 1)
     || negb (byte_at datagram 7 =? 0)
     || negb (read_u32 datagram 20 =? AUDIO_SAMPLE_RATE)
     || negb (read_u16 datagram 28 =? 0)
     || negb (read_u16 datagram 30 =? 0)
  then Err InvalidPacket
  else
    let? _ := verify_audio_authentication datagram auth_key in
    let session_id := read_u64 datagram 8 in
    let? identity := decode_capture_session_identity session_id in
    Ok {| pe_session_id := session_id;
          pe_identity := identity;
          pe_final_sequence := read_u32 datagram 16 |}.

(** ** The assembler *)

Record CaptureAssembler := mk_assembler {
  as_active : gmap Z ActiveCapture;
  as_retired : list Z;
  as_ready : list (result LanVoiceError CompletedCapture);
  as_auth_key : option bytes;
}.

Definition new (auth_key : option bytes) : CaptureAssembler := mk_assembler ∅ [] [] auth_key.

Definition set_active (active : gmap Z ActiveCapture) (self : CaptureAssembler) : CaptureAssembler :=
  mk_assembler active (as_retired self) (as_ready self) (as_auth_key self).

(** [push_back] and then [pop_front] while the queue is over its bound. *)
Definition retire (session_id : Z) (self : CaptureAssembler) : CaptureAssembler :=
  if bool_decide (session_id ∈ as_retired self) then self
  else
    let retired := as_retired self ++ [session_id] in
    mk_assembler (as_active self) (drop (length retired - MAX_RETIRED_SESSIONS) retired)
      (as_ready self) (as_auth_key self).

Definition complete (session_id : Z) (self : CaptureAssembler) : CaptureAssembler :=
  match as_active self !! session_id with
  | None => self
  | Some capture =>
      let self := retire session_id (set_active (delete session_id (as_active self)) self) in
      mk_assembler (as_active self) (as_retired self)
        (as_ready self
         ++ [if ac_next_sequence capture <? MIN_CAPTURE_FRAMES then Err CaptureTooShort
             else Ok (mk_completed (ac_session_id capture) (ac_identity capture) (ac_pcm capture))])
        (as_auth_key self)
  end.

(** [active.remove(session); self.retire(session); return Err(error)] *)
Definition reject (session_id : Z) (error : LanVoiceError) (self : CaptureAssembler)
    : result LanVoiceError unit * CaptureAssembler :=
  (Err error, retire session_id (set_active (delete session_id (as_active self)) self)).

Definition silence (frames : Z) : bytes := replicate (Z.to_nat frames * AUDIO_FRAME_BYTES) 0.

(** [ingest] once the capture is in the map. *)
Definition ingest_frame (frame : ParsedFrame) (source : SocketAddr) (now : Z)
    (self : CaptureAssembler) : result LanVoiceError unit * CaptureAssembler :=
  let session := pf_session_id frame in
  match as_active self !! session with
  | None => (Err InvalidSession, self)
  | Some capture =>
      let put capture := set_active (<[session := capture]> (as_active self)) self in
      if negb (bool_decide (ac_source capture = source))
         || negb (bool_decide (ac_identity capture = pf_identity frame))
         || match ac_final_sequence capture with
            | Some final_sequence => final_sequence <=? pf_sequence frame
            | None => false
            end
      then reject session InvalidSequence self
      else if pf_sequence frame <? ac_next_sequence capture
      then
        (Ok tt, put (mk_active (ac_session_id capture) (ac_identity capture) (ac_source capture)
          (ac_next_sequence capture) (ac_pcm capture) now (ac_final_sequence capture)))
      else
        let missing_frames := pf_sequence frame - ac_next_sequence capture in
        if MAX_CAPTURE_GAP_FRAMES <? missing_frames then reject session InvalidSequence self
        else
          let missing_bytes := missing_frames * Z.of_nat AUDIO_FRAME_BYTES in
          let added_bytes := missing_bytes + Z.of_nat (length (pf_payload frame)) in
          if MAX_CAPTURE_BYTES <? Z.of_nat (length (ac_pcm capture)) + added_bytes
          then reject session CaptureLimit self
          else
            let '(pcm, next) :=
              if 0 <? missing_frames
              then (ac_pcm capture ++ silence missing_frames, pf_sequence frame)
              else (ac_pcm capture, ac_next_sequence capture) in
            let next := saturating_add u32_max next 1 in
            let self := put (mk_active (ac_session_id capture) (ac_identity capture)
              (ac_source capture) next (pcm ++ pf_payload frame) now (ac_final_sequence capture)) in
            (Ok tt, if bool_decide (ac_final_sequence capture = Some next)
                    then complete session self else self)
  end.

Definition ingest_end (datagram : bytes) (source : SocketAddr) (now : Z)
    (self : CaptureAssembler) : result LanVoiceError unit * CaptureAssembler :=
  match parse_audio_end datagram (as_auth_key self) with
  | Err error => (Err error, self)
  | Ok terminal =>
      let session := pe_session_id terminal in
      let final := pe_final_sequence terminal in
      if bool_decide (session ∈ as_retired self) then (Ok tt, self)
      else
        match as_active self !! session with
        | None => (Err InvalidSession, self)
        | Some capture =>
            let put capture := set_active (<[session := capture]> (as_active self)) self in
            if negb (bool_decide (ac_source capture = source))
               || negb (bool_decide (ac_identity capture = pe_identity terminal))
               || (final <? ac_next_sequence capture)
               || (MAX_CAPTURE_BYTES <? final * Z.of_nat AUDIO_FRAME_BYTES)
            then reject session InvalidSequence self
            else
              match ac_final_sequence capture with
              | Some existing =>
                  if existing =? final
                  then (Ok tt, put (mk_active (ac_session_id capture) (ac_identity capture)
                         (ac_source capture) (ac_next_sequence capture) (ac_pcm capture) now
                         (ac_final_sequence capture)))
                  else reject session InvalidSequence self
              | None =>
                  let missing_frames := final - ac_next_sequence capture in
                  if MAX_CAPTURE_GAP_FRAMES <? missing_frames
                  then reject session InvalidSequence self
                  else
                    let '(pcm, next) :=
                      if 0 <? missing_frames
                      then (ac_pcm capture ++ silence missing_frames, final)
                      else (ac_pcm capture, ac_next_sequence capture) in
                    let self := put (mk_active (ac_session_id capture) (ac_identity capture)
                      (ac_source capture) next pcm now (Some final)) in
                    (Ok tt, if next =? final then complete session self else self)
              end
        end
  end.

Definition starts_with (prefix p : bytes) : bool :=
  (length prefix <=? length p)%nat && bool_decide (take (length prefix) p = prefix).

Definition ingest (datagram : bytes) (source : SocketAddr) (now : Z) (self : CaptureAssembler)
    : result LanVoiceError unit * CaptureAssembler :=
  if starts_with (ascii_bytes "EIAE") datagram then ingest_end datagram source now self
  else
    match parse_audio_frame datagram (as_auth_key self) with
    | Err error =>
        if bool_decide (error = InvalidPacket) && starts_with (ascii_bytes "EIHB") datagram
        then (Ok tt, self) else (Err error, self)
    | Ok frame =>
        let session := pf_session_id frame in
        if bool_decide (session ∈ as_retired self) then (Ok tt, self)
        else if bool_decide (is_Some (as_active self !! session))
        then ingest_frame frame source now self
        else if MAX_CAPTURE_GAP_FRAMES <? pf_sequence frame
        then (Err InvalidSequence, retire session self)
        else if (MAX_ACTIVE_CAPTURES <=? size (as_active self))%nat
        then (Err CaptureLimit, retire session self)
        else
          ingest_frame frame source now
            (set_active (<[session := mk_active session (pf_identity frame) source 0 [] now None]>
                           (as_active self)) self)
    end.

Definition take_ready (self : CaptureAssembler)
    : list (result LanVoiceError CompletedCapture) * CaptureAssembler :=
  (as_ready self, mk_assembler (as_active self) (as_retired self) [] (as_auth_key self)).

(** The sessions of the map in key order. *)
Definition sessions (active : gmap Z ActiveCapture) : list Z :=
  merge_sort Z.le (map_to_list active).*1.

Definition idle (now : Z) (capture : ActiveCapture) : bool :=
  CAPTURE_ABORT_TIMEOUT <=? Z.max 0 (now - ac_last_frame_at capture).

Definition expire_incomplete (now : Z) (self : CaptureAssembler)
    : list LanVoiceError * CaptureAssembler :=
  let idle :=
    base.filter (λ session, from_option (idle now) false (as_active self !! session) = true)
      (sessions (as_active self)) in
  foldl
    (λ '(errors, self) session,
      match as_active self !! session with
      | None => (errors, self)
      | Some _ =>
          (errors ++ [InvalidSequence],
           retire session (set_active (delete session (as_active self)) self))
      end)
    ([], self) idle.
End packets.

(** ** Prompts *)

Definition hex16_digit (n : Z) : Z := if n <? 10 then 48 + n else 87 + n.
(** [format!("{:016x}", session)] *)
Definition hex16 (session : Z) : bytes :=
  (λ i, hex16_digit (Z.land (Z.shiftr session (4 * (15 - Z.of_nat i))) 15)) <$> seq 0 16.

Definition prompt_from_capture (capture : CompletedCapture) (transcript : bytes)
    : result LanVoiceError LanVoicePrompt :=
  if (length transcript =? 0)%nat || (MAX_TRANSCRIPT_BYTES <? Z.of_nat (length transcript))
  then Err InvalidTranscript
  else Ok {| vp_slot := ci_slot (cc_identity capture);
             vp_request_id := ascii_bytes "lan-" ++ hex16 (cc_session_id capture);
             vp_transcript := transcript |}.

(** [encode_wav] of the local transcriber. *)
Definition encode_wav (pcm : bytes) : result LanVoiceError bytes :=
  let? data_bytes :=
    if Z.of_nat (length pcm) <=? u32_max then Ok (Z.of_nat (length pcm)) else Err CaptureLimit in
  Ok (ascii_bytes "RIFF" ++ le_bytes 4 (36 + data_bytes)
      ++ ascii_bytes "WAVEfmt " ++ [16; 0; 0; 0; 1; 0; 1; 0]
      ++ le_bytes 4 AUDIO_SAMPLE_RATE ++ le_bytes 4 (AUDIO_SAMPLE_RATE * 2)
      ++ le_bytes 2 2 ++ le_bytes 2 16 ++ ascii_bytes "data" ++ le_bytes 4 data_bytes ++ pcm).
