(* ===== verification/CaptureInv.v ===== *)
(** * Invariants of the capture assembler

    [assembled] is the specification of a capture: starting from nothing, each received
    frame is appended at its own sequence number after at most ten frames of silence.
    [assembler_inv] says that every active and every finished capture was built that
    way, that the maps stay within their bounds, and that a session is never active
    and retired at once; every operation preserves it. *)

From stdpp Require Import gmap.
From S2P Require Import Prelude Bytes Capture.

(** ** The specification of a capture *)

(** [received session sequence payload]: such a frame has been accepted as authentic. *)
Abbreviation frames_of := (Z → Z → bytes → Prop).

Inductive assembled (received : Z → bytes → Prop) : Z → bytes → Prop :=
| assembled_nil : assembled received 0 []
| assembled_frame n pcm missing payload :
    assembled received n pcm →
    0 ≤ missing ≤ MAX_CAPTURE_GAP_FRAMES →
    received (n + missing) payload →
    assembled received (n + missing + 1) (pcm ++ silence missing ++ payload).

Section invariant.
Context (received : frames_of).

Record capture_ok (session : Z) (c : ActiveCapture) : Prop := {
  co_session : ac_session_id c = session;
  co_identity : decode_capture_session_identity session = Ok (ac_identity c);
  co_assembled : assembled (received session) (ac_next_sequence c) (ac_pcm c);
  co_length : Z.of_nat (length (ac_pcm c)) = ac_next_sequence c * Z.of_nat AUDIO_FRAME_BYTES;
  co_bound : Z.of_nat (length (ac_pcm c)) ≤ MAX_CAPTURE_BYTES;
  co_final : ac_final_sequence c = None;
}.

Record completed_ok (c : CompletedCapture) : Prop := {
  cp_identity : decode_capture_session_identity (cc_session_id c) = Ok (cc_identity c);
  cp_assembled : ∃ n pcm missing,
    assembled (received (cc_session_id c)) n pcm
    ∧ 0 ≤ missing ≤ MAX_CAPTURE_GAP_FRAMES ∧ cc_pcm c = pcm ++ silence missing
    ∧ MIN_CAPTURE_FRAMES ≤ n + missing
    ∧ Z.of_nat (length (cc_pcm c)) = (n + missing) * Z.of_nat AUDIO_FRAME_BYTES;
  cp_bound : Z.of_nat (length (cc_pcm c)) ≤ MAX_CAPTURE_BYTES;
}.

Definition ready_ok (r : result LanVoiceError CompletedCapture) : Prop :=
  match r with Ok c => completed_ok c | Err e => e = CaptureTooShort end.

Record assembler_inv (a : CaptureAssembler) : Prop := {
  ai_active : map_Forall capture_ok (as_active a);
  ai_active_bound : (size (as_active a) ≤ MAX_ACTIVE_CAPTURES)%nat;
  ai_retired_bound : (length (as_retired a) ≤ MAX_RETIRED_SESSIONS)%nat;
  ai_retired_nodup : NoDup (as_retired a);
  ai_disjoint : ∀ s, is_Some (as_active a !! s) → s ∉ as_retired a;
  ai_ready : Forall ready_ok (as_ready a);
}.
End invariant.

(** ** Frames *)

Lemma length_silence n : 0 ≤ n → Z.of_nat (length (silence n)) = n * Z.of_nat AUDIO_FRAME_BYTES.
Proof. intros ?. unfold silence. rewrite length_replicate. lia. Qed.

Lemma silence_zero : silence 0 = [].
Proof. reflexivity. Qed.

Lemma assembled_nonneg recv n pcm : assembled recv n pcm → 0 ≤ n.
Proof. induction 1; lia. Qed.

Lemma assembled_mono (recv recv' : Z → bytes → Prop) n pcm :
  (∀ i p, recv i p → recv' i p) → assembled recv n pcm → assembled recv' n pcm.
Proof. intros Hi. induction 1; econstructor; eauto. Qed.

(** Every received frame of a capture starts at its own offset. *)
Lemma frame_bytes_value : Z.of_nat AUDIO_FRAME_BYTES = 640.
Proof. reflexivity. Qed.

Lemma capture_ok_mono (r r' : frames_of) s c :
  (∀ s i p, r s i p → r' s i p) → capture_ok r s c → capture_ok r' s c.
Proof. intros Hr []. split; try done. eapply assembled_mono; [|done]. auto. Qed.

Lemma ready_ok_mono (r r' : frames_of) x :
  (∀ s i p, r s i p → r' s i p) → ready_ok r x → ready_ok r' x.
Proof.
  intros Hr. destruct x as [c|]; [|done]. intros [Hi (n & pcm & m & Ha & Hrest) Hb].
  split; [done| |done]. exists n, pcm, m. split; [|done]. eapply assembled_mono; [|done]. auto.
Qed.

Lemma assembler_inv_mono (r r' : frames_of) a :
  (∀ s i p, r s i p → r' s i p) → assembler_inv r a → assembler_inv r' a.
Proof.
  intros Hr [H1 H2 H3 H4 H5 H6]. split; try done.
  - intros s c Hc. eapply capture_ok_mono; [done|]. by apply H1.
  - eapply Forall_impl; [done|]. intros x. by apply ready_ok_mono.
Qed.

(** ** The pieces of the operations *)

Lemma elem_of_drop_1 {A} (x : A) n l : x ∈ drop n l → x ∈ l.
Proof. intros Hx. rewrite <- (take_drop n l). apply elem_of_app. by right. Qed.

Lemma NoDup_drop_1 {A} n (l : list A) : NoDup l → NoDup (drop n l).
Proof. intros Hl. rewrite <- (take_drop n l) in Hl. by apply NoDup_app in Hl as (_ & _ & ?). Qed.

Lemma retire_retired_bound s a :
  (length (as_retired a) ≤ MAX_RETIRED_SESSIONS)%nat →
  (length (as_retired (retire s a)) ≤ MAX_RETIRED_SESSIONS)%nat.
Proof.
  intros Hl. unfold retire. case_bool_decide; [done|]. cbn [as_retired].
  rewrite length_drop. lia.
Qed.

Lemma retire_in s a : (0 < MAX_RETIRED_SESSIONS)%nat → s ∈ as_retired (retire s a).
Proof.
  intros Hm. unfold retire. case_bool_decide; [done|]. cbn [as_retired].
  rewrite drop_app_le by (rewrite length_app; simpl; unfold MAX_RETIRED_SESSIONS; lia).
  apply elem_of_app. right. by apply list_elem_of_singleton.
Qed.

Lemma retire_elem s x a : x ∈ as_retired (retire s a) → x = s ∨ x ∈ as_retired a.
Proof.
  unfold retire. case_bool_decide; [by right|]. cbn [as_retired].
  intros [?|?%list_elem_of_singleton]%elem_of_drop_1%elem_of_app; [by right|by left].
Qed.

Lemma retire_fields s a :
  as_active (retire s a) = as_active a ∧ as_ready (retire s a) = as_ready a
  ∧ as_auth_key (retire s a) = as_auth_key a.
Proof. unfold retire. by case_bool_decide. Qed.

Section operations.
Context (received : frames_of).
Implicit Types a : CaptureAssembler.

Lemma retire_inv s a :
  assembler_inv received a → as_active a !! s = None → assembler_inv received (retire s a).
Proof.
  intros [H1 H2 H3 H4 H5 H6] Hs. destruct (retire_fields s a) as (E1 & E2 & _).
  split; rewrite ?E1, ?E2; try done.
  - by apply retire_retired_bound.
  - unfold retire. case_bool_decide; [done|]. cbn [as_retired].
    apply NoDup_drop_1, NoDup_app. split; [done|]. split; [|apply NoDup_singleton].
    by intros x Hx ->%list_elem_of_singleton.
  - intros x Hx [->|Hin]%retire_elem; [by rewrite Hs in Hx; destruct Hx|]. by apply (H5 x).
Qed.

Lemma delete_inv s a :
  assembler_inv received a → assembler_inv received (set_active (delete s (as_active a)) a).
Proof.
  intros [H1 H2 H3 H4 H5 H6]. split; try done; cbn [set_active as_active].
  - by apply map_Forall_delete.
  - rewrite map_size_delete. destruct (as_active a !! s); simpl; lia.
  - intros x [c [_ Hc]%lookup_delete_Some]. apply H5. by eexists.
Qed.

Lemma reject_inv s e a : assembler_inv received a → assembler_inv received (reject s e a).2.
Proof.
  intros Ha. cbn. apply retire_inv; [by apply delete_inv|]. cbn. apply lookup_delete_eq.
Qed.

Lemma put_inv s c a :
  assembler_inv received a → is_Some (as_active a !! s) → capture_ok received s c →
  assembler_inv received (set_active (<[s := c]> (as_active a)) a).
Proof.
  intros [H1 H2 H3 H4 H5 H6] Hs Hc. split; try done; cbn [set_active as_active].
  - by apply map_Forall_insert_2.
  - rewrite map_size_insert. by destruct (as_active a !! s), Hs.
  - intros x [c' [[<- _]|[_ Hx]]%lookup_insert_Some]; [by apply H5|]. apply H5. by eexists.
Qed.

(** A capture is added while there is room. *)
Lemma insert_inv s c a :
  assembler_inv received a → as_active a !! s = None → s ∉ as_retired a →
  (size (as_active a) < MAX_ACTIVE_CAPTURES)%nat → capture_ok received s c →
  assembler_inv received (set_active (<[s := c]> (as_active a)) a).
Proof.
  intros [H1 H2 H3 H4 H5 H6] Hs Hr Hsize Hc. split; try done; cbn [set_active as_active].
  - by apply map_Forall_insert_2.
  - rewrite map_size_insert, Hs. lia.
  - intros x [c' [[<- _]|[_ Hx]]%lookup_insert_Some]; [done|]. apply H5. by eexists.
Qed.
End operations.

(** What a parsed packet guarantees. *)
Definition frame_ok (received : frames_of) (f : ParsedFrame) : Prop :=
  received (pf_session_id f) (pf_sequence f) (pf_payload f)
  ∧ decode_capture_session_identity (pf_session_id f) = Ok (pf_identity f)
  ∧ length (pf_payload f) = AUDIO_FRAME_BYTES ∧ 0 ≤ pf_sequence f.

(** The capture after an accepted frame. *)
Definition extended (c : ActiveCapture) (f : ParsedFrame) (now : Z) : ActiveCapture :=
  mk_active (ac_session_id c) (ac_identity c) (ac_source c) (pf_sequence f + 1)
    (ac_pcm c ++ silence (pf_sequence f - ac_next_sequence c) ++ pf_payload f) now None.

Definition touched (c : ActiveCapture) (now : Z) : ActiveCapture :=
  mk_active (ac_session_id c) (ac_identity c) (ac_source c) (ac_next_sequence c) (ac_pcm c) now
    (ac_final_sequence c).

(** The branches of [ingest_frame]. *)
Inductive frame_outcome (f : ParsedFrame) (source : SocketAddr) (now : Z) (a : CaptureAssembler)
    (c : ActiveCapture) : result LanVoiceError unit * CaptureAssembler → Prop :=
| frame_rejected e :
    (e = InvalidSequence ∧ (ac_source c ≠ source ∨ ac_identity c ≠ pf_identity f
       ∨ MAX_CAPTURE_GAP_FRAMES < pf_sequence f - ac_next_sequence c))
    ∨ (e = CaptureLimit ∧ MAX_CAPTURE_BYTES < (pf_sequence f + 1) * Z.of_nat AUDIO_FRAME_BYTES) →
    frame_outcome f source now a c (reject (pf_session_id f) e a)
| frame_duplicate :
    pf_sequence f < ac_next_sequence c →
    frame_outcome f source now a c
      (Ok tt, set_active (<[pf_session_id f := touched c now]> (as_active a)) a)
| frame_accepted :
    0 ≤ pf_sequence f - ac_next_sequence c ≤ MAX_CAPTURE_GAP_FRAMES →
    (pf_sequence f + 1) * Z.of_nat AUDIO_FRAME_BYTES ≤ MAX_CAPTURE_BYTES →
    ac_source c = source → ac_identity c = pf_identity f →
    frame_outcome f source now a c
      (Ok tt, set_active (<[pf_session_id f := extended c f now]> (as_active a)) a).

Section frames.
Context (received : frames_of).
Implicit Types a : CaptureAssembler.

Lemma ingest_frame_outcome f source now a c :
  as_active a !! pf_session_id f = Some c → capture_ok received (pf_session_id f) c →
  frame_ok received f →
  frame_outcome f source now a c (ingest_frame f source now a).
Proof.
  intros Hc [_ _ _ Hlen Hbound Hfin] (_ & _ & Hpay & Hseq).
  pose proof frame_bytes_value as Hfb. unfold ingest_frame. rewrite Hc, Hfin.
  assert (0 ≤ ac_next_sequence c) as Hn by lia.
  destruct (_ || _) eqn:Hg.
  { apply frame_rejected. left. split; [done|]. rewrite orb_false_r in Hg.
    apply orb_true_iff in Hg as [Hg|Hg]; apply negb_true_iff in Hg; bool_prop; auto. }
  rewrite orb_false_r in Hg. bool_prop.
  destruct (Z.ltb_spec (pf_sequence f) (ac_next_sequence c)).
  { unfold touched. rewrite <- Hfin at 1. by apply frame_duplicate. }
  destruct (Z.ltb_spec MAX_CAPTURE_GAP_FRAMES (pf_sequence f - ac_next_sequence c)).
  { apply frame_rejected. left. auto. }
  rewrite Hlen, Hpay.
  destruct (Z.ltb_spec MAX_CAPTURE_BYTES (ac_next_sequence c * Z.of_nat AUDIO_FRAME_BYTES +
    ((pf_sequence f - ac_next_sequence c) * Z.of_nat AUDIO_FRAME_BYTES + Z.of_nat AUDIO_FRAME_BYTES))).
  { apply frame_rejected. right. split; [done|lia]. }
  assert (extended c f now = mk_active (ac_session_id c) (ac_identity c) (ac_source c)
    (saturating_add u32_max (if 0 <? pf_sequence f - ac_next_sequence c then pf_sequence f
                             else ac_next_sequence c) 1)
    ((if 0 <? pf_sequence f - ac_next_sequence c
      then ac_pcm c ++ silence (pf_sequence f - ac_next_sequence c) else ac_pcm c)
     ++ pf_payload f) now None) as E.
  { unfold extended. unfold MAX_CAPTURE_BYTES, AUDIO_SAMPLE_RATE in *.
    destruct (Z.ltb_spec 0 (pf_sequence f - ac_next_sequence c)).
    - rewrite saturating_add_small by (unfold u32_max; lia). by rewrite <- app_assoc.
    - replace (pf_sequence f - ac_next_sequence c) with 0 by lia. rewrite silence_zero.
      rewrite saturating_add_small by (unfold u32_max; lia). f_equal. lia. }
  destruct (0 <? pf_sequence f - ac_next_sequence c); rewrite <- E;
    rewrite bool_decide_eq_false_2 by done; apply frame_accepted; auto; lia.
Qed.

Lemma extended_ok c f now :
  capture_ok received (pf_session_id f) c → frame_ok received f →
  0 ≤ pf_sequence f - ac_next_sequence c ≤ MAX_CAPTURE_GAP_FRAMES →
  (pf_sequence f + 1) * Z.of_nat AUDIO_FRAME_BYTES ≤ MAX_CAPTURE_BYTES →
  capture_ok received (pf_session_id f) (extended c f now).
Proof.
  intros [Hs Hi Ha Hlen Hb Hf] (Hr & _ & Hpay & _) Hgap Hmax.
  assert (Z.of_nat (length (ac_pcm (extended c f now)))
          = (pf_sequence f + 1) * Z.of_nat AUDIO_FRAME_BYTES) as Hl.
  { cbn [extended ac_pcm]. rewrite !length_app, !Nat2Z.inj_add, length_silence, Hlen, Hpay by lia. lia. }
  split; try done; [|by rewrite Hl].
  cbn [extended ac_next_sequence ac_pcm].
  set (m := pf_sequence f - ac_next_sequence c).
  replace (pf_sequence f + 1) with (ac_next_sequence c + m + 1) by (unfold m; lia).
  constructor; [done|done|]. by replace (ac_next_sequence c + m) with (pf_sequence f) by (unfold m; lia).
Qed.

Lemma touched_ok s c now : capture_ok received s c → capture_ok received s (touched c now).
Proof. by intros []. Qed.

Lemma ingest_frame_inv f source now a :
  assembler_inv received a → frame_ok received f → is_Some (as_active a !! pf_session_id f) →
  assembler_inv received (ingest_frame f source now a).2.
Proof.
  intros Ha Hf [c Hc]. pose proof (ai_active _ _ Ha _ _ Hc) as Hok.
  destruct (ingest_frame_outcome f source now a c Hc Hok Hf) as [e _|_|? ? _ _]; cbn [snd].
  - by apply reject_inv.
  - apply put_inv; [done|by exists c|by apply touched_ok].
  - apply put_inv; [done|by exists c|by apply extended_ok].
Qed.

(** The first frame of a session. *)
Definition opened (f : ParsedFrame) (source : SocketAddr) (now : Z) : ActiveCapture :=
  mk_active (pf_session_id f) (pf_identity f) source 0 [] now None.

Lemma opened_ok f source now :
  frame_ok received f → capture_ok received (pf_session_id f) (opened f source now).
Proof.
  intros (_ & ? & _). split; try done. constructor.
Qed.

(** ** The end of a capture *)

Definition finished (c : ActiveCapture) (missing : Z) : result LanVoiceError CompletedCapture :=
  if ac_next_sequence c + missing <? MIN_CAPTURE_FRAMES then Err CaptureTooShort
  else Ok (mk_completed (ac_session_id c) (ac_identity c) (ac_pcm c ++ silence missing)).

(** [complete] of the capture that has just been filled up to its final sequence. *)
Lemma complete_filled s c c' missing a :
  as_active a !! s = Some c →
  ac_session_id c' = ac_session_id c → ac_identity c' = ac_identity c →
  ac_next_sequence c' = ac_next_sequence c + missing → ac_pcm c' = ac_pcm c ++ silence missing →
  let b := retire s (set_active (delete s (as_active a)) a) in
  complete s (set_active (<[s := c']> (as_active a)) a)
  = mk_assembler (as_active b) (as_retired b) (as_ready b ++ [finished c missing]) (as_auth_key b).
Proof.
  intros Hc E1 E2 E3 E4. cbv zeta. unfold complete. cbn [set_active as_active].
  rewrite lookup_insert_eq, delete_insert_eq. unfold finished.
  rewrite E1, E2, E3, E4. unfold set_active. cbn [as_active as_retired as_ready as_auth_key].
  reflexivity.
Qed.

Lemma finished_ok s c missing :
  capture_ok received s c → 0 ≤ missing ≤ MAX_CAPTURE_GAP_FRAMES →
  (ac_next_sequence c + missing) * Z.of_nat AUDIO_FRAME_BYTES ≤ MAX_CAPTURE_BYTES →
  ready_ok received (finished c missing).
Proof.
  intros [Hs Hi Ha Hlen Hb Hf] Hm Hmax. unfold finished.
  destruct (Z.ltb_spec (ac_next_sequence c + missing) MIN_CAPTURE_FRAMES); [done|].
  assert (Z.of_nat (length (ac_pcm c ++ silence missing))
          = (ac_next_sequence c + missing) * Z.of_nat AUDIO_FRAME_BYTES) as Hl.
  { rewrite length_app, Nat2Z.inj_add, length_silence, Hlen by lia. lia. }
  split; cbn [cc_session_id cc_identity cc_pcm]; rewrite ?Hs; [done| |by rewrite Hl].
  by exists (ac_next_sequence c), (ac_pcm c), missing.
Qed.

Lemma complete_inv s c c' missing a :
  assembler_inv received a → as_active a !! s = Some c → 0 ≤ missing ≤ MAX_CAPTURE_GAP_FRAMES →
  (ac_next_sequence c + missing) * Z.of_nat AUDIO_FRAME_BYTES ≤ MAX_CAPTURE_BYTES →
  ac_session_id c' = ac_session_id c → ac_identity c' = ac_identity c →
  ac_next_sequence c' = ac_next_sequence c + missing → ac_pcm c' = ac_pcm c ++ silence missing →
  assembler_inv received (complete s (set_active (<[s := c']> (as_active a)) a)).
Proof.
  intros Ha Hc Hm Hmax E1 E2 E3 E4. rewrite (complete_filled s c c' missing) by done.
  pose proof (finished_ok s c missing (ai_active _ _ Ha _ _ Hc) Hm Hmax) as Hready.
  destruct (reject_inv received s InvalidSequence a Ha) as [H1 H2 H3 H4 H5 H6]. cbn [reject snd] in *.
  split; try done. cbn [as_ready]. apply Forall_app. split; [done|]. by constructor.
Qed.
End frames.

(** ** Whole datagrams *)

Section datagrams.
Context `{Crypto}.
Implicit Types a : CaptureAssembler.

Lemma parse_audio_frame_ok d key f :
  bytes_ok d → parse_audio_frame d key = Ok f →
  verify_audio_authentication d key = Ok tt
  ∧ pf_session_id f = read_u64 d 8 ∧ pf_sequence f = read_u32 d 16
  ∧ pf_payload f = slice AUDIO_HEADER_BYTES AUDIO_FRAME_BYTES d
  ∧ decode_capture_session_identity (pf_session_id f) = Ok (pf_identity f)
  ∧ length (pf_payload f) = AUDIO_FRAME_BYTES ∧ 0 ≤ pf_sequence f.
Proof.
  intros Hd. unfold parse_audio_frame. destruct (_ || _) eqn:Hg; [done|]. intros Hp.
  run_ok Hp. subst f. cbn [pf_session_id pf_sequence pf_payload pf_identity]. bool_prop. destruct a.
  split; [done|]. repeat split; try done.
  - rewrite length_slice. apply Nat.eqb_eq in H0. rewrite H0. reflexivity.
  - apply (get_le_bounds 4 d 16 Hd).
Qed.

Lemma parse_audio_end_ok d key t :
  bytes_ok d → parse_audio_end d key = Ok t →
  verify_audio_authentication d key = Ok tt
  ∧ pe_session_id t = read_u64 d 8 ∧ pe_final_sequence t = read_u32 d 16
  ∧ decode_capture_session_identity (pe_session_id t) = Ok (pe_identity t)
  ∧ 0 ≤ pe_final_sequence t.
Proof.
  intros Hd. unfold parse_audio_end. destruct (_ || _) eqn:Hg; [done|]. intros Hp.
  run_ok Hp. subst t. cbn [pe_session_id pe_final_sequence pe_identity]. destruct a. repeat split; try done.
  apply (get_le_bounds 4 d 16 Hd).
Qed.

Context (received : frames_of).

Lemma ingest_end_inv d source now a :
  assembler_inv received a → bytes_ok d → assembler_inv received (ingest_end d source now a).2.
Proof.
  intros Ha Hd. unfold ingest_end. destruct (parse_audio_end d (as_auth_key a)) as [t|e] eqn:Hp;
    [|done]. destruct (parse_audio_end_ok _ _ _ Hd Hp) as (_ & _ & _ & _ & Ht).
  case_bool_decide; [done|]. destruct (as_active a !! pe_session_id t) as [c|] eqn:Hc; [|done].
  pose proof (ai_active _ _ Ha _ _ Hc) as Hok.
  destruct (_ || _) eqn:Hg; [by apply reject_inv|]. bool_prop.
  rewrite (co_final _ _ _ Hok).
  destruct (Z.ltb_spec MAX_CAPTURE_GAP_FRAMES (pe_final_sequence t - ac_next_sequence c));
    [by apply reject_inv|].
  pose proof (assembled_nonneg _ _ _ (co_assembled _ _ _ Hok)) as Hn.
  destruct (Z.ltb_spec 0 (pe_final_sequence t - ac_next_sequence c)); cbn [snd].
  - rewrite Z.eqb_refl.
    apply (complete_inv _ _ c _ (pe_final_sequence t - ac_next_sequence c)); try done; try lia.
    cbn. lia.
  - replace (ac_next_sequence c =? pe_final_sequence t) with true by (symmetry; apply Z.eqb_eq; lia).
    apply (complete_inv _ _ c _ 0); try done; try lia.
    + rewrite Z.add_0_r. replace (ac_next_sequence c) with (pe_final_sequence t) by lia. lia.
    + cbn. lia.
    + cbn. by rewrite app_nil_r.
Qed.

Lemma ingest_inv d source now a :
  assembler_inv received a → bytes_ok d →
  (∀ f, parse_audio_frame d (as_auth_key a) = Ok f →
     received (pf_session_id f) (pf_sequence f) (pf_payload f)) →
  assembler_inv received (ingest d source now a).2.
Proof.
  intros Ha Hd Hr. unfold ingest. destruct (starts_with (ascii_bytes "EIAE") d);
    [by apply ingest_end_inv|].
  destruct (parse_audio_frame d (as_auth_key a)) as [f|e] eqn:Hp; [|by destruct (_ && _)].
  destruct (parse_audio_frame_ok _ _ _ Hd Hp) as (_ & _ & _ & _ & Hid & Hlen & Hseq).
  assert (frame_ok received f) as Hf by (split; [by apply Hr|done]).
  case_bool_decide as Hret; [done|]. case_bool_decide as Hact; [by apply ingest_frame_inv|].
  assert (as_active a !! pf_session_id f = None) as Hnone by by apply eq_None_not_Some.
  destruct (_ <? _); [by apply retire_inv|].
  destruct (Nat.leb_spec MAX_ACTIVE_CAPTURES (size (as_active a))); [by apply retire_inv|].
  apply ingest_frame_inv; [|done|].
  - apply insert_inv; try done. by apply opened_ok.
  - cbn. rewrite lookup_insert_eq. by eexists.
Qed.

Lemma expire_inv now a :
  assembler_inv received a → assembler_inv received (expire_incomplete now a).2.
Proof.
  intros Ha. unfold expire_incomplete.
  generalize (base.filter (λ session, from_option (idle now) false (as_active a !! session) = true)
                (sessions (as_active a))).
  intros l. revert a Ha.
  assert (∀ errors a, assembler_inv received a →
    assembler_inv received (foldl (λ '(errors, self) session,
      match as_active self !! session with
      | None => (errors, self)
      | Some _ => (errors ++ [InvalidSequence],
          retire session (set_active (delete session (as_active self)) self))
      end) (errors, a) l).2) as Hl; [|intros a Ha; by apply Hl].
  induction l as [|s l IH]; intros errors a Ha; [done|]. cbn [foldl].
  destruct (as_active a !! s); [|by apply IH].
  apply IH. by apply (reject_inv _ s InvalidSequence).
Qed.

Lemma expire_ready now a : as_ready (expire_incomplete now a).2 = as_ready a.
Proof.
  unfold expire_incomplete.
  generalize (base.filter (λ session, from_option (idle now) false (as_active a !! session) = true)
                (sessions (as_active a))).
  intros l. assert (∀ errors b, as_ready (foldl (λ '(errors, self) session,
      match as_active self !! session with
      | None => (errors, self)
      | Some _ => (errors ++ [InvalidSequence],
          retire session (set_active (delete session (as_active self)) self))
      end) (errors, b) l).2 = as_ready b) as Hl; [|by apply Hl].
  induction l as [|s l IH]; intros errors b; [done|]. cbn [foldl].
  destruct (as_active b !! s); rewrite IH; [|done]. by destruct (retire_fields s
    (set_active (delete s (as_active b)) b)) as (_ & -> & _).
Qed.

Lemma take_ready_inv a : assembler_inv received a → assembler_inv received (take_ready a).2.
Proof. by intros []. Qed.

Lemma new_inv key : assembler_inv received (new key).
Proof.
  split; cbn [new as_active as_retired as_ready].
  - apply map_Forall_empty.
  - rewrite map_size_empty. lia.
  - simpl. lia.
  - constructor.
  - intros s [c Hc]. by rewrite lookup_empty in Hc.
  - constructor.
Qed.
End datagrams.
