(* ===== verification/CaptureProps.v ===== *)
(** * Captures: authenticity, bounds, exactly-once delivery and reassembly

    The ingress thread's loop as a step relation over the assembler and the log of the
    datagrams it was given, and the properties of the captures it delivers. *)

From stdpp Require Import gmap.
From S2P Require Import Prelude Bytes Capture CaptureInv.

Section props.
Context `{Crypto}.
Implicit Types a : CaptureAssembler.

(** ** The ingress loop *)

(** The datagrams so far, each with the key the host held when it arrived. *)
Abbreviation capture_log := (list (option bytes * bytes)).

Definition set_key (key : bytes) (a : CaptureAssembler) : CaptureAssembler :=
  mk_assembler (as_active a) (as_retired a) (as_ready a) (Some key).

Inductive capture_step : capture_log * CaptureAssembler → capture_log * CaptureAssembler → Prop :=
| capture_ingest log a d source now :
    bytes_ok d →
    capture_step (log, a) (log ++ [(as_auth_key a, d)], (ingest d source now a).2)
| capture_take log a : capture_step (log, a) (log, (take_ready a).2)
| capture_expire log a now : capture_step (log, a) (log, (expire_incomplete now a).2)
| capture_load_key log a key :
    as_auth_key a = None → capture_step (log, a) (log, set_key key a).

Definition capture_reachable (key : option bytes) (log : capture_log) (a : CaptureAssembler) : Prop :=
  rtc capture_step ([], new key) (log, a).

(** A frame whose tag was computed over it with the device's key. *)
Definition authentic (log : capture_log) : frames_of := λ session sequence payload,
  ∃ key d, (Some key, d) ∈ log
    ∧ read_u64 d 8 = session ∧ read_u32 d 16 = sequence
    ∧ slice AUDIO_HEADER_BYTES AUDIO_FRAME_BYTES d = payload
    ∧ drop (length d - AUDIO_AUTH_TAG_BYTES) d
      = take AUDIO_AUTH_TAG_BYTES (hmac_sha256 key (take (length d - AUDIO_AUTH_TAG_BYTES) d)).

(** ** Authentication *)

Lemma tag_mismatch_zero acc l r :
  length l = length r →
  foldl (λ difference '(l, r), Z.lor difference (Z.lxor l r)) acc (zip l r) = 0 ↔ acc = 0 ∧ l = r.
Proof.
  revert acc r. induction l as [|x l IH]; intros acc [|y r] Hl; try done; simpl.
  { split; [auto|]. by intros [? _]. }
  simpl in Hl. rewrite IH by lia. rewrite Z.lor_eq_0_iff, Z.lxor_eq_0_iff. naive_solver.
Qed.

Lemma verify_audio_ok d key :
  verify_audio_authentication d key = Ok tt ↔
  ∃ k, key = Some k ∧ (AUDIO_AUTH_TAG_BYTES ≤ length d)%nat
    ∧ drop (length d - AUDIO_AUTH_TAG_BYTES) d
      = take AUDIO_AUTH_TAG_BYTES (hmac_sha256 k (take (length d - AUDIO_AUTH_TAG_BYTES) d)).
Proof.
  unfold verify_audio_authentication. destruct key as [k|]; cbn [of_option rbind].
  2: { split; [done|]. by intros (? & ? & _). }
  destruct (Nat.leb_spec AUDIO_AUTH_TAG_BYTES (length d)) as [Hl|Hl]; cbn [rbind].
  2: { split; [done|]. intros (? & _ & ? & _). lia. }
  set (n := (length d - AUDIO_AUTH_TAG_BYTES)%nat). set (tag := take _ (hmac_sha256 k _)).
  pose proof (tag_mismatch_zero 0 tag (drop n d)) as Hz.
  rewrite length_drop in Hz. unfold tag in Hz at 1. rewrite length_take, hmac_length in Hz.
  specialize (Hz ltac:(unfold n, AUDIO_AUTH_TAG_BYTES in *; lia)).
  destruct (Z.eqb_spec (tag_mismatch tag (drop n d)) 0) as [E|E].
  - apply Hz in E as [_ E]. split; [|done]. intros _. by exists k.
  - split; [done|]. intros (? & [= <-] & _ & E'). destruct E. apply Hz. by split.
Qed.

(** ** Reachable assemblers *)

Lemma capture_step_inv log a log' a' :
  capture_step (log, a) (log', a') → assembler_inv (authentic log) a → assembler_inv (authentic log') a'.
Proof.
  intros Hstep Ha. inversion Hstep as [? ? d source now Hd|?|? ? now|? ? k Hk]; subst.
  - apply ingest_inv; [|done|].
    + eapply assembler_inv_mono; [|exact Ha]. intros s i p (k & d' & Hin & Hrest).
      exists k, d'. split; [|done]. apply elem_of_app. by left.
    + intros f Hf. destruct (parse_audio_frame_ok _ _ _ Hd Hf) as (Hv & -> & -> & -> & _).
      apply verify_audio_ok in Hv as (k & Hk & _ & Htag).
      exists k, d. split; [|done]. rewrite Hk. apply elem_of_app. right.
      by apply list_elem_of_singleton.
  - by apply take_ready_inv.
  - by apply expire_inv.
  - by destruct Ha.
Qed.

Lemma capture_reachable_inv key log a :
  capture_reachable key log a → assembler_inv (authentic log) a.
Proof.
  intros Hr.
  apply (rtc_ind_r (R := capture_step) (λ st, assembler_inv (authentic st.1) st.2)
    ([], new key)) with (z := (log, a));
    [apply new_inv| |exact Hr].
  intros [l1 a1] [l2 a2] _ Hstep Hinv. exact (capture_step_inv _ _ _ _ Hstep Hinv).
Qed.

(** C15 Whatever datagrams arrive, in whatever order, duplicated or forged: every capture in
    progress and every delivered one belongs to the session its id encodes and is
    assembled from frames carrying the device's HMAC tag, each at its own position,
    with at most ten frames of silence before each and at the end; it never exceeds
    90 s, a delivered one has at least ten frames, at most four captures are active
    and at most 128 sessions remembered. *)
Theorem captures_assembled_from_authentic_frames key log a :
  capture_reachable key log a →
  (size (as_active a) ≤ 4)%nat ∧ (length (as_retired a) ≤ 128)%nat
  ∧ (∀ s c, as_active a !! s = Some c →
       decode_capture_session_identity s = Ok (ac_identity c)
       ∧ assembled (authentic log s) (ac_next_sequence c) (ac_pcm c)
       ∧ Z.of_nat (length (ac_pcm c)) ≤ MAX_CAPTURE_BYTES
       ∧ s ∉ as_retired a)
  ∧ (∀ c, Ok c ∈ as_ready a →
       decode_capture_session_identity (cc_session_id c) = Ok (cc_identity c)
       ∧ Z.of_nat (length (cc_pcm c)) ≤ MAX_CAPTURE_BYTES
       ∧ ∃ n pcm missing, assembled (authentic log (cc_session_id c)) n pcm
           ∧ 0 ≤ missing ≤ 10 ∧ cc_pcm c = pcm ++ silence missing ∧ 10 ≤ n + missing
           ∧ Z.of_nat (length (cc_pcm c)) = 640 * (n + missing)).
Proof.
  intros Hr. destruct (capture_reachable_inv _ _ _ Hr) as [H1 H2 H3 H4 H5 H6].
  split; [done|]. split; [done|]. split.
  - intros s c Hc. destruct (H1 s c Hc). split; [done|]. split; [done|]. split; [done|].
    apply H5. by exists c.
  - intros c Hc. rewrite Forall_forall in H6.
    destruct (H6 _ Hc) as [Hi (n & pcm & m & Ha & Hm & E & Hmin & Hl) Hb].
    split; [done|]. split; [done|]. exists n, pcm, m.
    split; [done|]. split; [exact Hm|]. split; [done|]. split; [exact Hmin|].
    rewrite Hl, frame_bytes_value. lia.
Qed.

(** ** Delivery *)

Definition session_of (d : bytes) (key : option bytes) (s : Z) : Prop :=
  if starts_with (ascii_bytes "EIAE") d
  then ∃ t, parse_audio_end d key = Ok t ∧ pe_session_id t = s
  else ∃ f, parse_audio_frame d key = Ok f ∧ pf_session_id f = s.

Lemma retire_ready s a : as_ready (retire s a) = as_ready a.
Proof. apply retire_fields. Qed.

Lemma ingest_end_ready d source now a r a' received :
  assembler_inv received a → bytes_ok d → ingest_end d source now a = (r, a') →
  as_ready a' = as_ready a
  ∨ ∃ t out, parse_audio_end d (as_auth_key a) = Ok t ∧ r = Ok tt
      ∧ pe_session_id t ∉ as_retired a ∧ pe_session_id t ∈ as_retired a'
      ∧ as_active a' !! pe_session_id t = None
      ∧ as_ready a' = as_ready a ++ [out].
Proof.
  intros Ha Hd E. unfold ingest_end in E.
  destruct (parse_audio_end d (as_auth_key a)) as [t|e] eqn:Hp; [|injection E as _ <-; by left].
  case_bool_decide as Hret; [injection E as _ <-; by left|].
  destruct (as_active a !! pe_session_id t) as [c|] eqn:Hc; [|injection E as _ <-; by left].
  pose proof (ai_active _ _ Ha _ _ Hc) as Hok.
  destruct (_ || _) eqn:Hg.
  { injection E as _ <-. left. etrans; [apply retire_ready|done]. }
  rewrite (co_final _ _ _ Hok) in E. bool_prop.
  destruct (_ <? _) eqn:Hgap.
  { injection E as _ <-. left. etrans; [apply retire_ready|done]. }
  clear Hgap. right.
  assert (∀ c' a0, a0 = complete (pe_session_id t) (set_active (<[pe_session_id t := c']> (as_active a)) a) →
    pe_session_id t ∈ as_retired a0 ∧ as_active a0 !! pe_session_id t = None
    ∧ ∃ out, as_ready a0 = as_ready a ++ [out]) as Hcomp.
  { intros c' a0 ->. unfold complete. cbn [set_active as_active]. rewrite lookup_insert_eq.
    cbn [as_active as_retired as_ready]. rewrite retire_ready, delete_insert_eq.
    split; [apply retire_in; unfold MAX_RETIRED_SESSIONS; lia|].
    destruct (retire_fields (pe_session_id t) (set_active (delete (pe_session_id t) (as_active a))
      (set_active (<[pe_session_id t := c']> (as_active a)) a))) as (-> & _ & _).
    split; [apply lookup_delete_eq|]. by eexists. }
  destruct (0 <? pe_final_sequence t - ac_next_sequence c) eqn:Hm.
  - rewrite Z.eqb_refl in E. injection E as <- E. symmetry in E.
    destruct (Hcomp _ _ E) as (H1' & H2' & out & H3'). by exists t, out.
  - bool_prop. replace (ac_next_sequence c =? pe_final_sequence t) with true in E
      by (symmetry; apply Z.eqb_eq; lia).
    injection E as <- E. symmetry in E.
    destruct (Hcomp _ _ E) as (H1' & H2' & out & H3'). by exists t, out.
Qed.

Lemma ingest_frame_ready received f source now a :
  assembler_inv received a → frame_ok received f →
  as_ready (ingest_frame f source now a).2 = as_ready a.
Proof.
  intros Ha Hf. destruct (as_active a !! pf_session_id f) as [c|] eqn:Hc.
  - pose proof (ai_active _ _ Ha _ _ Hc) as Hok.
    destruct (ingest_frame_outcome _ f source now a c Hc Hok Hf); [|done|done].
    cbn [reject snd]. by rewrite retire_ready.
  - unfold ingest_frame. by rewrite Hc.
Qed.

Lemma ingest_ready received d source now a :
  assembler_inv received a → bytes_ok d →
  starts_with (ascii_bytes "EIAE") d = false →
  (∀ f, parse_audio_frame d (as_auth_key a) = Ok f →
     received (pf_session_id f) (pf_sequence f) (pf_payload f)) →
  as_ready (ingest d source now a).2 = as_ready a.
Proof.
  intros Ha Hd Hs Hr. unfold ingest. rewrite Hs.
  destruct (parse_audio_frame d (as_auth_key a)) as [f|e] eqn:Hp; [|by destruct (_ && _)].
  destruct (parse_audio_frame_ok _ _ _ Hd Hp) as (_ & _ & _ & _ & Hid & Hlen & Hseq).
  assert (frame_ok received f) as Hf by (split; [by apply Hr|done]).
  case_bool_decide as Hret; [done|]. case_bool_decide as Hact; [by apply (ingest_frame_ready received)|].
  destruct (_ <? _); [apply retire_ready|].
  destruct (Nat.leb_spec MAX_ACTIVE_CAPTURES (size (as_active a))); [apply retire_ready|].
  assert (as_active a !! pf_session_id f = None) as Hnone by by apply eq_None_not_Some.
  etrans; [apply (ingest_frame_ready received)|done]; [|done].
  apply insert_inv; try done. by apply opened_ok.
Qed.

(** The frames parsed so far, as a predicate any state can carry. *)
Definition any_frame : frames_of := λ _ _ _, True.

Lemma any_frame_inv received a : assembler_inv received a → assembler_inv any_frame a.
Proof. by apply assembler_inv_mono. Qed.

(** At most one delivery per session: a datagram delivers a capture only when it is an
    authenticated END of a session that is active and not retired; the session is
    retired by it and its capture gone, and from then on (while it is remembered) no
    frame or END of that session changes anything. *)
Theorem capture_delivered_once key log a d source now :
  capture_reachable key log a → bytes_ok d →
  (∀ s, session_of d (as_auth_key a) s → s ∈ as_retired a → ingest d source now a = (Ok tt, a))
  ∧ let a' := (ingest d source now a).2 in
    as_ready a' = as_ready a
    ∨ ∃ t out, parse_audio_end d (as_auth_key a) = Ok t ∧ (ingest d source now a).1 = Ok tt
        ∧ pe_session_id t ∉ as_retired a ∧ pe_session_id t ∈ as_retired a'
        ∧ as_active a' !! pe_session_id t = None ∧ as_ready a' = as_ready a ++ [out].
Proof.
  intros Hr%capture_reachable_inv%any_frame_inv Hd. split.
  - intros s Hs Hret. unfold session_of in Hs. unfold ingest, ingest_end.
    destruct (starts_with _ d).
    + destruct Hs as (t & -> & <-). by rewrite bool_decide_eq_true_2.
    + destruct Hs as (f & -> & <-). by rewrite bool_decide_eq_true_2.
  - cbv zeta. destruct (starts_with (ascii_bytes "EIAE") d) eqn:Hs.
    + unfold ingest. rewrite Hs.
      destruct (ingest_end d source now a) as [r a'] eqn:E. cbn [fst snd].
      by apply (ingest_end_ready d source now a r a' any_frame).
    + left. by apply (ingest_ready any_frame).
Qed.

(** ** Reassembly *)

(** The PCM of frames [(sequence, payload)] from [next] on, gaps filled with silence. *)
Fixpoint filled (next : Z) (frames : list ParsedFrame) : bytes :=
  match frames with
  | [] => []
  | f :: frames => silence (pf_sequence f - next) ++ pf_payload f ++ filled (pf_sequence f + 1) frames
  end.

(** In order, losing at most ten frames at a time. *)
Fixpoint small_gaps (next : Z) (frames : list ParsedFrame) : Prop :=
  match frames with
  | [] => True
  | f :: frames => 0 ≤ pf_sequence f - next ≤ MAX_CAPTURE_GAP_FRAMES ∧ small_gaps (pf_sequence f + 1) frames
  end.

Fixpoint last_sequence (next : Z) (frames : list ParsedFrame) : Z :=
  match frames with [] => next | f :: frames => last_sequence (pf_sequence f + 1) frames end.

(** The datagrams arrive one after the other, from one source, with their times. *)
Fixpoint deliver (ds : list (bytes * Z)) (source : SocketAddr) (a : CaptureAssembler)
    : list (result LanVoiceError unit) * CaptureAssembler :=
  match ds with
  | [] => ([], a)
  | (d, now) :: ds =>
      let '(r, a) := ingest d source now a in
      let '(rs, a) := deliver ds source a in (r :: rs, a)
  end.

Definition carries (key : bytes) (s : Z) (d : bytes * Z) (f : ParsedFrame) : Prop :=
  bytes_ok d.1 ∧ starts_with (ascii_bytes "EIAE") d.1 = false
  ∧ parse_audio_frame d.1 (Some key) = Ok f ∧ pf_session_id f = s.

Lemma last_sequence_ge next frames : small_gaps next frames → next ≤ last_sequence next frames.
Proof.
  revert next. induction frames as [|f frames IH]; intros next; simpl; [lia|].
  intros [? Hg]. specialize (IH _ Hg). lia.
Qed.

Lemma carries_frame_ok key s d f : carries key s d f → frame_ok any_frame f.
Proof.
  intros (Hd & _ & Hp & _). destruct (parse_audio_frame_ok _ _ _ Hd Hp) as (_ & _ & _ & _ & ? & ? & ?).
  by repeat split.
Qed.

(** One more frame of an active capture. *)
Lemma ingest_next key s d f source a c :
  carries key s d f → as_auth_key a = Some key → s ∉ as_retired a →
  as_active a !! s = Some c → capture_ok any_frame s c → ac_source c = source →
  0 ≤ pf_sequence f - ac_next_sequence c ≤ MAX_CAPTURE_GAP_FRAMES →
  (pf_sequence f + 1) * Z.of_nat AUDIO_FRAME_BYTES ≤ MAX_CAPTURE_BYTES →
  ingest d.1 source d.2 a
  = (Ok tt, set_active (<[s := extended c f d.2]> (as_active a)) a).
Proof.
  intros Hf Hkey Hret Hc Hok Hsrc Hgap Hmax. pose proof (carries_frame_ok _ _ _ _ Hf) as Hfok.
  destruct Hf as (_ & Hse & Hp & Hs). unfold ingest. rewrite Hse, Hkey, Hp, Hs.
  rewrite bool_decide_eq_false_2 by done. rewrite bool_decide_eq_true_2 by (rewrite Hc; eauto).
  rewrite <- Hs in *.
  destruct (ingest_frame_outcome _ f source d.2 a c Hc Hok Hfok) as [e He|?|]; [|lia|done].
  exfalso. destruct Hfok as (_ & Hid & _). pose proof (co_identity _ _ _ Hok) as Hid'.
  rewrite Hid in Hid'. injection Hid' as Hid'. destruct He as [(_ & [?|[?|?]])|(_ & ?)]; try done; lia.
Qed.

Lemma deliver_frames key s source ds frames a c :
  Forall2 (carries key s) ds frames → as_auth_key a = Some key → s ∉ as_retired a →
  as_active a !! s = Some c → capture_ok any_frame s c → ac_source c = source →
  small_gaps (ac_next_sequence c) frames →
  last_sequence (ac_next_sequence c) frames * Z.of_nat AUDIO_FRAME_BYTES ≤ MAX_CAPTURE_BYTES →
  ∃ c', deliver ds source a
        = (replicate (length ds) (Ok tt), set_active (<[s := c']> (as_active a)) a)
    ∧ capture_ok any_frame s c' ∧ ac_source c' = source
    ∧ ac_next_sequence c' = last_sequence (ac_next_sequence c) frames
    ∧ ac_pcm c' = ac_pcm c ++ filled (ac_next_sequence c) frames.
Proof.
  intros Hds. revert a c. induction Hds as [|d f ds frames Hf _ IH];
    intros a c Hkey Hret Hc Hok Hsrc Hgaps Hmax.
  { exists c. cbn. rewrite insert_id, app_nil_r by done. by destruct a. }
  cbn [small_gaps last_sequence] in *. destruct Hgaps as [Hgap Hgaps].
  pose proof (last_sequence_ge _ _ Hgaps) as Hge. pose proof frame_bytes_value as Hfb.
  assert ((pf_sequence f + 1) * Z.of_nat AUDIO_FRAME_BYTES ≤ MAX_CAPTURE_BYTES) as Hmax' by nia.
  pose proof (ingest_next key s d f source a c Hf Hkey Hret Hc Hok Hsrc Hgap Hmax') as E.
  set (a1 := set_active (<[s := extended c f d.2]> (as_active a)) a) in E.
  assert (capture_ok any_frame s (extended c f d.2)) as Hok1.
  { pose proof (carries_frame_ok _ _ _ _ Hf). destruct Hf as (_ & _ & _ & <-). by apply extended_ok. }
  destruct (IH a1 (extended c f d.2)) as (c' & E' & Hok' & Hsrc' & Hn & Hp); try done.
  { cbn. apply lookup_insert_eq. }
  exists c'. destruct d as [d now]. cbn [deliver fst snd] in *. rewrite E. rewrite E'.
  split; [|split; [done|]; split; [done|]; split; [done|]].
  - cbn [length replicate]. unfold a1, set_active. cbn [as_active as_retired as_ready as_auth_key].
    by rewrite insert_insert_eq.
  - rewrite Hp. cbn [extended ac_pcm ac_next_sequence filled]. by rewrite <- !app_assoc.
Qed.

(** The END of the capture. *)
Lemma ingest_final t d source now a c key s :
  parse_audio_end d (Some key) = Ok t → pe_session_id t = s →
  starts_with (ascii_bytes "EIAE") d = true →
  bytes_ok d → as_auth_key a = Some key → s ∉ as_retired a →
  as_active a !! s = Some c → capture_ok any_frame s c → ac_source c = source →
  0 ≤ pe_final_sequence t - ac_next_sequence c ≤ MAX_CAPTURE_GAP_FRAMES →
  pe_final_sequence t * Z.of_nat AUDIO_FRAME_BYTES ≤ MAX_CAPTURE_BYTES →
  let out := ingest d source now a in
  out.1 = Ok tt
  ∧ as_ready out.2 = as_ready a ++ [finished c (pe_final_sequence t - ac_next_sequence c)].
Proof.
  intros Hp Hs Hse Hd Hkey Hret Hc Hok Hsrc Hgap Hmax. cbv zeta.
  destruct (parse_audio_end_ok _ _ _ Hd Hp) as (_ & _ & _ & Hid & _). rewrite Hs in Hid.
  pose proof (co_identity _ _ _ Hok) as Hid'. rewrite Hid in Hid'. injection Hid' as Hid'.
  unfold ingest, ingest_end. rewrite Hse, Hkey, Hp, Hs.
  rewrite bool_decide_eq_false_2 by done. rewrite Hc, (co_final _ _ _ Hok), Hsrc, Hid'.
  rewrite !bool_decide_eq_true_2 by done. cbn [negb orb].
  rewrite !(proj2 (Z.ltb_ge _ _)) by lia. cbn [orb].
  set (m := pe_final_sequence t - ac_next_sequence c) in *.
  destruct (Z.ltb_spec 0 m); cbn [fst snd]; (split; [done|]).
  - rewrite Z.eqb_refl, (complete_filled s c _ m) by (done || (cbn; unfold m; lia)).
    cbn [as_ready]. rewrite retire_ready. done.
  - assert (m = 0) as Em by lia.
    rewrite (proj2 (Z.eqb_eq (ac_next_sequence c) _)) by (unfold m in Em; lia).
    rewrite (complete_filled s c _ m); try done; cbn [ac_next_sequence ac_pcm as_ready]; try lia.
    + by rewrite retire_ready.
    + by rewrite Em, silence_zero, app_nil_r.
Qed.

Lemma deliver_snoc ds d now source a :
  deliver (ds ++ [(d, now)]) source a
  = let '(rs, b) := deliver ds source a in
    let '(r, b') := ingest d source now b in (rs ++ [r], b').
Proof.
  revert a. induction ds as [|[d1 now1] ds IH]; intros a; cbn [app deliver].
  - by destruct (ingest d source now a).
  - destruct (ingest d1 source now1 a) as [r1 a1]. rewrite IH.
    destruct (deliver ds source a1) as [rs b]. by destruct (ingest d source now b).
Qed.

(** The first frame of a session opens its capture. *)
Lemma ingest_opens key s d f source a :
  carries key s d f → as_auth_key a = Some key → s ∉ as_retired a →
  as_active a !! s = None → (size (as_active a) < MAX_ACTIVE_CAPTURES)%nat →
  pf_sequence f ≤ MAX_CAPTURE_GAP_FRAMES →
  ingest d.1 source d.2 a
  = ingest d.1 source d.2 (set_active (<[s := opened f source d.2]> (as_active a)) a).
Proof.
  intros (_ & Hse & Hp & Hs) Hkey Hret Hc Hsize Hseq. unfold ingest. rewrite Hse.
  cbn [set_active as_auth_key as_retired as_active]. rewrite Hkey, Hp, Hs, Hc.
  rewrite !(bool_decide_eq_false_2 (_ ∈ _)) by done.
  rewrite (bool_decide_eq_false_2 (is_Some None)) by (intros [? ?]; done).
  rewrite lookup_insert_eq, bool_decide_eq_true_2 by eauto.
  rewrite (proj2 (Z.ltb_ge _ _)) by lia. rewrite (proj2 (Nat.leb_gt _ _)) by lia.
  unfold opened. by rewrite Hs.
Qed.

(** C16 Reassembly: authenticated frames of a new session, in order and with at most ten
    consecutive losses, then its END, are all accepted and deliver exactly one capture,
    whose PCM is the payloads at their positions and silence for what was lost. *)
Theorem capture_reassembled key s ds frames d now t source a :
  as_auth_key a = Some key → s ∉ as_retired a → as_active a !! s = None →
  (size (as_active a) < MAX_ACTIVE_CAPTURES)%nat →
  Forall2 (carries key s) ds frames → frames ≠ [] → small_gaps 0 frames →
  bytes_ok d → starts_with (ascii_bytes "EIAE") d = true →
  parse_audio_end d (Some key) = Ok t → pe_session_id t = s →
  0 ≤ pe_final_sequence t - last_sequence 0 frames ≤ MAX_CAPTURE_GAP_FRAMES →
  MIN_CAPTURE_FRAMES ≤ pe_final_sequence t →
  pe_final_sequence t * Z.of_nat AUDIO_FRAME_BYTES ≤ MAX_CAPTURE_BYTES →
  let out := deliver (ds ++ [(d, now)]) source a in
  out.1 = replicate (S (length ds)) (Ok tt)
  ∧ as_ready out.2 = as_ready a
      ++ [Ok (mk_completed s (pe_identity t)
                (filled 0 frames ++ silence (pe_final_sequence t - last_sequence 0 frames)))].
Proof.
  intros Hkey Hret Hnone Hsize Hds Hne Hgaps Hd Hse Hp Hs Hgap Hmin Hmax. cbv zeta.
  destruct Hds as [|d1 f1 ds frames Hf1 Hds]; [done|].
  pose proof (carries_frame_ok _ _ _ _ Hf1) as Hfok.
  set (c0 := opened f1 source d1.2).
  assert (capture_ok any_frame s c0) as Hok0.
  { destruct Hf1 as (_ & _ & _ & <-). by apply opened_ok. }
  set (a0 := set_active (<[s := c0]> (as_active a)) a).
  assert (deliver ((d1 :: ds) ++ [(d, now)]) source a = deliver ((d1 :: ds) ++ [(d, now)]) source a0) as ->.
  { destruct d1 as [d1 now1]. cbn [app deliver].
    pose proof (ingest_opens key s (d1, now1) f1 source a) as E. cbn [fst snd] in E.
    rewrite E; try done. destruct Hgaps as [? _]. lia. }
  rewrite deliver_snoc.
  destruct (deliver_frames key s source (d1 :: ds) (f1 :: frames) a0 c0)
    as (c' & -> & Hok' & Hsrc' & Hn & Hpcm); try done.
  - by constructor.
  - cbn. apply lookup_insert_eq.
  - change (ac_next_sequence c0) with 0. pose proof frame_bytes_value. nia.
  - change (ac_next_sequence c0) with 0 in *. change (ac_pcm c0) with (@nil Z) in Hpcm.
    cbn [app] in Hpcm. set (b := set_active (<[s := c']> (as_active a0)) a0).
    destruct (ingest_final t d source now b c' key s) as [E1 E2]; try done.
    { cbn. apply lookup_insert_eq. }
    { by rewrite Hn. }
    destruct (ingest d source now b) as [r b']. cbn [fst snd] in *. subst r. split.
    + by rewrite replicate_S_end.
    + rewrite E2. f_equal. f_equal. unfold finished.
      rewrite (proj2 (Z.ltb_ge _ _)) by (rewrite Hn; lia).
      destruct (parse_audio_end_ok _ _ _ Hd Hp) as (_ & _ & _ & Hid & _). rewrite Hs in Hid.
      pose proof (co_identity _ _ _ Hok') as Hid'. rewrite Hid in Hid'. injection Hid' as Hid'.
      rewrite (co_session _ _ _ Hok'), <- Hid', Hpcm, Hn. done.
Qed.
End props.

(** * Session identities and request ids; witnesses for the capture properties

    A capture's 64-bit session id packs slot, connection generation and capture
    generation; the prompt's request id spells it in hexadecimal.  Both encodings are
    injective, so the job queue's idempotence key is per capture. *)

(** The firmware's layout of a session id. *)
Definition session_id_of (i : CaptureSessionIdentity) : Z :=
  0xEC * 2 ^ 56 + ci_slot i * 2 ^ 52 + ci_connection_generation i * 2 ^ 32 + ci_capture_generation i.

Definition valid_capture_identity (i : CaptureSessionIdentity) : Prop :=
  1 ≤ ci_slot i ≤ 4 ∧ 1 ≤ ci_connection_generation i < 2 ^ 20 ∧ 1 ≤ ci_capture_generation i < 2 ^ 32.

Lemma land_shift s k n : 0 ≤ k → 0 ≤ n → Z.land (Z.shiftr s k) (Z.ones n) = (s / 2 ^ k) mod 2 ^ n.
Proof. intros. rewrite Z.land_ones, Z.shiftr_div_pow2 by lia. done. Qed.

Lemma session_fields s :
  0 ≤ s < 2 ^ 64 →
  Z.land (Z.shiftr s 56) 255 = s / 2 ^ 56
  ∧ Z.land (Z.land (Z.shiftr s 52) 15) 255 = (s / 2 ^ 52) mod 16
  ∧ Z.land (Z.shiftr s 32) 0xFFFFF = (s / 2 ^ 32) mod 2 ^ 20
  ∧ Z.land s 0xFFFFFFFF = s mod 2 ^ 32.
Proof.
  intros Hs. change 255 with (Z.ones 8). change 15 with (Z.ones 4).
  change 0xFFFFF with (Z.ones 20). change 0xFFFFFFFF with (Z.ones 32).
  rewrite (land_shift s 56 8), (land_shift s 52 4), (land_shift s 32 20), !Z.land_ones by lia.
  split; [apply Z.mod_small; div_lia|]. split; [apply Z.mod_small; div_lia|]. done.
Qed.

(** A session id and its identity determine each other: [decode_capture_session_identity]
    accepts exactly the ids of the firmware's layout with slot 1 to 4 and non-zero
    generations, and no two identities share an id. *)
Theorem session_identity_bijective s i :
  in_u64 s →
  decode_capture_session_identity s = Ok i ↔ s = session_id_of i ∧ valid_capture_identity i.
Proof.
  intros Hs. unfold in_u64, u64_max in Hs. destruct (session_fields s) as (E1 & E2 & E3 & E4); [lia|].
  unfold decode_capture_session_identity, session_id_of, valid_capture_identity.
  rewrite E1, E2, E3, E4. cbn [ci_slot ci_connection_generation ci_capture_generation].
  split.
  - destruct (Z.eqb_spec (s / 2 ^ 56) 0xEC) as [Hm|]; cbn [negb]; [|done].
    destruct (_ || _) eqn:Hg; [done|]. intros [= <-]. bool_prop.
    cbn [ci_slot ci_connection_generation ci_capture_generation].
    split; [div_lia|div_lia].
  - destruct i as [slot capture connection].
    cbn [ci_slot ci_connection_generation ci_capture_generation]. intros (Es & ? & ? & ?).
    assert (s / 2 ^ 56 = 0xEC) as -> by div_lia.
    assert ((s / 2 ^ 52) mod 16 = slot) as -> by div_lia.
    assert ((s / 2 ^ 32) mod 2 ^ 20 = connection) as -> by div_lia.
    assert (s mod 2 ^ 32 = capture) as -> by div_lia.
    rewrite Z.eqb_refl. cbn [negb]. rewrite (proj2 (Z.eqb_neq connection 0)) by lia.
    rewrite (proj2 (Z.eqb_neq capture 0)) by lia. rewrite !(proj2 (Z.leb_le _ _)) by lia. done.
Qed.

(** ** Request ids *)

Lemma hex16_digit_inj x y : 0 ≤ x < 16 → 0 ≤ y < 16 → hex16_digit x = hex16_digit y → x = y.
Proof.
  unfold hex16_digit. intros ? ?. destruct (Z.ltb_spec x 10), (Z.ltb_spec y 10); lia.
Qed.

Lemma nibble_bound s k : 0 ≤ Z.land (Z.shiftr s k) 15 < 16.
Proof. change 15 with (Z.ones 4). rewrite Z.land_ones by lia. apply Z.mod_pos_bound. lia. Qed.

Lemma length_hex16 s : length (hex16 s) = 16%nat.
Proof. unfold hex16. by rewrite length_fmap, length_seq. Qed.

Lemma hex16_nibble s t k :
  hex16 s = hex16 t → (k < 16)%nat →
  Z.land (Z.shiftr s (4 * Z.of_nat k)) 15 = Z.land (Z.shiftr t (4 * Z.of_nat k)) 15.
Proof.
  intros E Hk. apply (f_equal (λ l, l !! (15 - k)%nat)) in E. unfold hex16 in E.
  rewrite !list_lookup_fmap, lookup_seq_lt in E by lia. simpl in E. injection E as E.
  replace (15 - Z.of_nat (15 - k)) with (Z.of_nat k) in E by lia.
  apply hex16_digit_inj in E; [exact E|apply nibble_bound..].
Qed.

Lemma hex16_inj s t : in_u64 s → in_u64 t → hex16 s = hex16 t → s = t.
Proof.
  unfold in_u64, u64_max. intros Hs Ht E. apply Z.bits_inj'. intros n Hn.
  destruct (Z.lt_ge_cases n 64) as [Hlt|Hge].
  - set (k := Z.to_nat (n / 4)).
    assert (k < 16)%nat as Hk by (unfold k; div_lia).
    assert (n = n mod 4 + 4 * Z.of_nat k) as En by (unfold k; div_lia).
    pose proof (hex16_nibble s t k E Hk) as Hb.
    apply (f_equal (λ z, Z.testbit z (n mod 4))) in Hb.
    rewrite !Z.land_spec, !Z.shiftr_spec, <- En in Hb by div_lia.
    change 15 with (Z.ones 4) in Hb.
    rewrite (Z.ones_spec_low 4) in Hb by div_lia. by rewrite !andb_true_r in Hb.
  - rewrite <- (Z.mod_small s (2 ^ 64)), <- (Z.mod_small t (2 ^ 64)) by lia.
    by rewrite !Z.mod_pow2_bits_high by lia.
Qed.

(** A prompt carries its capture's slot and a request id of 20 bytes that determines the
    session: a capture transcribed twice is enqueued under the same id, two captures
    never are; empty and oversized transcripts are rejected. *)
Theorem prompt_request_id_per_session c c' text text' p p' :
  in_u64 (cc_session_id c) → in_u64 (cc_session_id c') →
  prompt_from_capture c text = Ok p → prompt_from_capture c' text' = Ok p' →
  (vp_request_id p = vp_request_id p' ↔ cc_session_id c = cc_session_id c')
  ∧ length (vp_request_id p) = 20%nat ∧ vp_slot p = ci_slot (cc_identity c)
  ∧ vp_transcript p = text ∧ 0 < Z.of_nat (length text) ≤ MAX_TRANSCRIPT_BYTES.
Proof.
  intros Hc Hc' Hp Hp'. unfold prompt_from_capture in Hp, Hp'.
  destruct (_ || _) eqn:Hg in Hp; [done|]. destruct (_ || _) in Hp'; [done|].
  injection Hp as <-. injection Hp' as <-. cbn [vp_request_id vp_slot vp_transcript].
  split; [|split; [|split; [done|split; [done|]]]].
  - split; [|by intros ->]. intros E%(f_equal (drop 4)). by apply hex16_inj.
  - cbn [length]. by rewrite length_hex16.
  - apply orb_false_elim in Hg as [Hg1%Nat.eqb_neq Hg2]. bool_prop. lia.
Qed.

(** ** Witnesses *)

Section demo.
#[local] Existing Instance demo_crypto.

Definition demo_session : Z := 0xEC * 2 ^ 56 + 2 * 2 ^ 52 + 7 * 2 ^ 32 + 9.
Definition demo_key : bytes := replicate 32 5.
Definition demo_source : SocketAddr := V4 [192; 168; 1; 20] 50000.
Definition demo_tagged (p : bytes) : bytes := p ++ take 16 (hmac_sha256 demo_key p).
(** Frame 5 of the session (0 to 4 were lost) and an END at 12. *)
Definition demo_frame : bytes :=
  demo_tagged (ascii_bytes "EIAU" ++ [3; 32; 1; 1] ++ le_bytes 8 demo_session ++ le_bytes 4 5
    ++ le_bytes 4 16000 ++ le_bytes 4 0 ++ le_bytes 2 320 ++ le_bytes 2 640 ++ replicate 640 77).
Definition demo_end : bytes :=
  demo_tagged (ascii_bytes "EIAE" ++ [3; 32; 1; 0] ++ le_bytes 8 demo_session ++ le_bytes 4 12
    ++ le_bytes 4 16000 ++ le_bytes 4 0 ++ le_bytes 2 0 ++ le_bytes 2 0).
Definition demo_identity : CaptureSessionIdentity := mk_capture_identity 2 9 7.
Definition demo_parsed : ParsedFrame := mk_frame demo_session demo_identity 5 (replicate 640 77).

Lemma demo_frame_bytes : bytes_ok demo_frame.
Proof. apply (bool_decide_unpack _). vm_compute. exact I. Qed.
Lemma demo_end_bytes : bytes_ok demo_end.
Proof. apply (bool_decide_unpack _). vm_compute. exact I. Qed.
Lemma demo_frame_parsed : parse_audio_frame demo_frame (Some demo_key) = Ok demo_parsed.
Proof. vm_compute. reflexivity. Qed.
Lemma demo_end_parsed :
  parse_audio_end demo_end (Some demo_key) = Ok (mk_end demo_session demo_identity 12).
Proof. vm_compute. reflexivity. Qed.
Lemma demo_carries : Forall2 (carries demo_key demo_session) [(demo_frame, 100)] [demo_parsed].
Proof.
  constructor; [|constructor]. split; [exact demo_frame_bytes|].
  split; [vm_compute; reflexivity|]. split; [exact demo_frame_parsed|reflexivity].
Qed.

Definition demo_log : list (option bytes * bytes) := [(Some demo_key, demo_frame)].
Definition demo_assembler : CaptureAssembler :=
  (ingest demo_frame demo_source 100 (new (Some demo_key))).2.

Lemma demo_capture_reachable : capture_reachable (Some demo_key) demo_log demo_assembler.
Proof. apply rtc_once. exact (capture_ingest [] _ _ demo_source 100 demo_frame_bytes). Qed.

Lemma captures_assembled_from_authentic_frames_witness :
  ∃ c, as_active demo_assembler !! demo_session = Some c
    ∧ assembled (authentic demo_log demo_session) 6 (ac_pcm c).
Proof.
  destruct (captures_assembled_from_authentic_frames _ _ _ demo_capture_reachable)
    as (_ & _ & Hact & _).
  eexists. split; [vm_compute; reflexivity|].
  edestruct (Hact demo_session) as (_ & Ha & _); [vm_compute; reflexivity|]. exact Ha.
Defined.

Lemma capture_delivered_once_witness :
  ∃ t out, parse_audio_end demo_end (Some demo_key) = Ok t
    ∧ as_ready (ingest demo_end demo_source 120 demo_assembler).2 = [out].
Proof.
  destruct (capture_delivered_once _ _ _ demo_end demo_source 120 demo_capture_reachable demo_end_bytes)
    as [_ [E|(t & out & Ht & _ & _ & _ & _ & E)]].
  - vm_compute in E. discriminate E.
  - exists t, out. split; [exact Ht|exact E].
Defined.

Lemma capture_reassembled_witness :
  as_ready (deliver ([(demo_frame, 100)] ++ [(demo_end, 120)]) demo_source (new (Some demo_key))).2
  = [Ok (mk_completed demo_session demo_identity
           (filled 0 [demo_parsed] ++ silence 6))].
Proof.
  destruct (capture_reassembled demo_key demo_session [(demo_frame, 100)] [demo_parsed]
    demo_end 120 (mk_end demo_session demo_identity 12) demo_source (new (Some demo_key)))
    as [_ E].
  - reflexivity.
  - apply not_elem_of_nil.
  - reflexivity.
  - apply Nat.ltb_lt. vm_compute. reflexivity.
  - exact demo_carries.
  - discriminate.
  - split; [split; vm_compute; discriminate|exact I].
  - exact demo_end_bytes.
  - vm_compute. reflexivity.
  - exact demo_end_parsed.
  - reflexivity.
  - split; vm_compute; discriminate.
  - vm_compute. discriminate.
  - vm_compute. discriminate.
  - exact E.
Defined.

Lemma session_identity_bijective_witness :
  decode_capture_session_identity demo_session = Ok demo_identity.
Proof.
  apply (session_identity_bijective demo_session demo_identity).
  - split; vm_compute; discriminate.
  - split; [reflexivity|]. repeat split; vm_compute; congruence.
Defined.

Lemma prompt_request_id_per_session_witness :
  ∃ p, prompt_from_capture (mk_completed demo_session demo_identity []) [104] = Ok p
    ∧ length (vp_request_id p) = 20%nat.
Proof.
  destruct (prompt_request_id_per_session (mk_completed demo_session demo_identity [])
    (mk_completed demo_session demo_identity []) [104] [104]
    (mk_prompt 2 (ascii_bytes "lan-ec20000700000009") [104])
    (mk_prompt 2 (ascii_bytes "lan-ec20000700000009") [104])) as (_ & Hl & _).
  - split; vm_compute; discriminate.
  - split; vm_compute; discriminate.
  - vm_compute. reflexivity.
  - vm_compute. reflexivity.
  - eexists. split; [vm_compute; reflexivity|exact Hl].
Defined.
End demo.
