(* ===== verification/Transport.v ===== *)
(** * The LAN playback transport (app/host/src/lan_voice.rs, [ActiveLanPlayback])

    One transfer at a time: EIPB announces it, EIPD chunks are sent in a window of six,
    EIPA acknowledges, EIPF says the device has played it, EIPK commits.  The network
    and the event channel are a [Net]: what was sent, what was reported, and the
    outcomes the next [send_to] calls will have (a call beyond the list succeeds), so
    a statement for every [Net] covers every pattern of socket failures.  [now] is the
    clock of the handler's call. *)

From stdpp Require Import gmap.
From S2P Require Import Prelude Bytes PlaybackWire Capture.

Definition PLAYBACK_RETRY : Z := 250.
Definition PLAYBACK_MAX_RETRIES : Z := 16.
Definition PLAYBACK_FINISH_TIMEOUT : Z := (150 + 30) * 1000.
Definition PLAYBACK_SEND_WINDOW_CHUNKS : nat := 6.
Definition PLAYBACK_FINISHED_ACK_RETENTION : Z := 120 * 1000.
Definition AUTHENTICATED_HEARTBEAT_BYTES : nat := 80.
Definition HEARTBEAT_AUTH_CONTEXT : bytes := ascii_bytes "EasyInput/EISD/v1".

Inductive LanPlaybackEvent :=
| EvRequest (request : PlaybackRequest) (source : SocketAddr)
| EvFinished (finished : PlaybackFinished)
| EvCancelled (identity : PlaybackIdentity).

Record LanPlaybackStart := mk_start {
  st_begin : PlaybackBegin;
  st_source : SocketAddr;
  st_eiad : bytes;
}.

Inductive LanPlaybackCommand :=
| Start (start : LanPlaybackStart)
| FinishAck (identity : PlaybackIdentity)
| Cancel (identity : PlaybackIdentity)
| Mailbox (status : MailboxStatus).

Inductive PlaybackSendPhase := BeginAck | DataAck | DeviceFinished | HostCommit.

#[export] Instance PlaybackSendPhase_eq_dec : EqDecision PlaybackSendPhase.
Proof. solve_decision. Defined.

Record ActivePlaybackTransfer := mk_transfer {
  tr_begin : PlaybackBegin;
  tr_source : SocketAddr;
  tr_eiad : bytes;
  tr_phase : PlaybackSendPhase;
  tr_acknowledged_offset : nat;
  tr_sent_end_offset : nat;
  tr_last_send : Z;
  tr_retry_count : Z;
  tr_finish_deadline : Z;
}.

Record RetiredPlaybackFinish := mk_retired {
  rp_identity : PlaybackIdentity;
  rp_source : SocketAddr;
  rp_expires_at : Z;
}.

Inductive HeartbeatResponse := HbInvalid | HbSendFailed | HbSent.

Record ActiveLanPlayback := mk_playback {
  lp_transfer : option ActivePlaybackTransfer;
  lp_retired_finish : option RetiredPlaybackFinish;
  lp_retired_cancel : option RetiredPlaybackFinish;
  lp_accepted_requests : gmap (Z * Z) Z;
  lp_mailbox_status : MailboxStatus;
}.

Definition default_playback : ActiveLanPlayback :=
  mk_playback None None None ∅ {| mb_unread_slots := 0; mb_running_tasks := 0;
                                  mb_coverage_by_slot := [0; 0; 0; 0] |}.

Definition set_transfer (t : option ActivePlaybackTransfer) (self : ActiveLanPlayback)
    : ActiveLanPlayback :=
  mk_playback t (lp_retired_finish self) (lp_retired_cancel self) (lp_accepted_requests self)
    (lp_mailbox_status self).

Definition set_retired_finish (r : option RetiredPlaybackFinish) (self : ActiveLanPlayback)
    : ActiveLanPlayback :=
  mk_playback (lp_transfer self) r (lp_retired_cancel self) (lp_accepted_requests self)
    (lp_mailbox_status self).

Definition set_retired_cancel (r : option RetiredPlaybackFinish) (self : ActiveLanPlayback)
    : ActiveLanPlayback :=
  mk_playback (lp_transfer self) (lp_retired_finish self) r (lp_accepted_requests self)
    (lp_mailbox_status self).

Definition set_requests (m : gmap (Z * Z) Z) (self : ActiveLanPlayback) : ActiveLanPlayback :=
  mk_playback (lp_transfer self) (lp_retired_finish self) (lp_retired_cancel self) m
    (lp_mailbox_status self).

Definition set_mailbox (s : MailboxStatus) (self : ActiveLanPlayback) : ActiveLanPlayback :=
  mk_playback (lp_transfer self) (lp_retired_finish self) (lp_retired_cancel self)
    (lp_accepted_requests self) s.

(** ** The socket and the event channel *)

Record Net := mk_net {
  net_outcomes : list bool;
  net_sent : list (bytes * SocketAddr);
  net_events : list LanPlaybackEvent;
}.

(** [socket.send_to(packet, target)]: did it succeed? *)
Definition send_to (packet : bytes) (target : SocketAddr) (net : Net) : bool * Net :=
  let ok := default true (head (net_outcomes net)) in
  (ok, mk_net (tail (net_outcomes net))
         (if ok then net_sent net ++ [(packet, target)] else net_sent net) (net_events net)).

Definition emit (e : LanPlaybackEvent) (net : Net) : Net :=
  mk_net (net_outcomes net) (net_sent net) (net_events net ++ [e]).

(** ** Sending chunks *)

Inductive SendOutcome := AllSent | EncodeFailed | SendFailed.

Section transport.
Context `{Crypto}.

(** The chunk loop of [send_next_data] and [tick], from [offset] up to [end_]; every
    iteration advances, so [end_ - offset] iterations are enough. *)
Fixpoint send_range (fuel : nat) (t : ActivePlaybackTransfer) (offset end_ : nat) (key : bytes)
    (net : Net) : SendOutcome * Net :=
  match fuel with
  | O => (AllSent, net)
  | S fuel =>
      if (offset <? end_)%nat then
        let chunk_end := Nat.min (offset + PLAYBACK_CHUNK_BYTES) end_ in
        match encode_data (bg_identity (tr_begin t)) (bg_request_nonce (tr_begin t))
                (Z.of_nat offset) (slice offset (chunk_end - offset) (tr_eiad t)) key with
        | Err _ => (EncodeFailed, net)
        | Ok packet =>
            let '(sent, net) := send_to packet (tr_source t) net in
            if sent then send_range fuel t chunk_end end_ key net else (SendFailed, net)
        end
      else (AllSent, net)
  end.

Definition send_next_data (t : ActivePlaybackTransfer) (key : bytes) (now : Z) (net : Net)
    : option ActivePlaybackTransfer * Net :=
  let start := tr_acknowledged_offset t in
  let end_ := Nat.min (start + PLAYBACK_CHUNK_BYTES * PLAYBACK_SEND_WINDOW_CHUNKS)
                (length (tr_eiad t)) in
  match send_range (end_ - start) t start end_ key net with
  | (AllSent, net) =>
      (Some (mk_transfer (tr_begin t) (tr_source t) (tr_eiad t) DataAck start end_ now
               (tr_retry_count t) (tr_finish_deadline t)), net)
  | (_, net) => (None, net)
  end.

(** [if !send_next_data(..) { self.transfer = None; events.send(Cancelled) }] *)
Definition continue_transfer (t : ActivePlaybackTransfer) (key : bytes) (now : Z)
    (net : Net) (self : ActiveLanPlayback) : Net * ActiveLanPlayback :=
  match send_next_data t key now net with
  | (Some t', net) => (net, set_transfer (Some t') self)
  | (None, net) => (emit (EvCancelled (bg_identity (tr_begin t))) net, set_transfer None self)
  end.

(** ** Commands of the host *)

Definition handle_command (command : LanPlaybackCommand) (key : option bytes) (now : Z)
    (net : Net) (self : ActiveLanPlayback) : Net * ActiveLanPlayback :=
  match command with
  | Start start =>
      let cancelled net := (emit (EvCancelled (bg_identity (st_begin start))) net, self) in
      if bool_decide (is_Some (lp_transfer self)) || (length (st_eiad start) =? 0)%nat
         || negb (Z.of_nat (length (st_eiad start)) =? bg_total_bytes (st_begin start))
      then cancelled net
      else
        match key with
        | None => cancelled net
        | Some key =>
            let '(sent, net) := send_to (encode_begin (st_begin start) key) (st_source start) net in
            if negb sent then cancelled net
            else
              (net, set_transfer (Some (mk_transfer (st_begin start) (st_source start)
                 (st_eiad start) BeginAck 0 0 now 0 (now + PLAYBACK_FINISH_TIMEOUT))) self)
        end
  | FinishAck identity =>
      match lp_transfer self, key with
      | Some t, Some key =>
          if bool_decide (bg_identity (tr_begin t) = identity)
             && bool_decide (tr_phase t = HostCommit)
          then
            let '(sent, net) := send_to (encode_finished_ack identity 0 key) (tr_source t) net in
            if sent
            then (net, set_transfer None (set_retired_finish
                    (Some (mk_retired identity (tr_source t) (now + PLAYBACK_FINISHED_ACK_RETENTION)))
                    self))
            else (net, self)
          else (net, self)
      | _, _ => (net, self)
      end
  | Cancel identity =>
      match lp_transfer self with
      | Some t =>
          if bool_decide (bg_identity (tr_begin t) = identity)
          then (net, set_transfer None self) else (net, self)
      | None => (net, self)
      end
  | Mailbox status => (net, set_mailbox status self)
  end.

(** ** Heartbeats *)

Definition heartbeat_shape (packet : bytes) : bool :=
  (length packet =? AUTHENTICATED_HEARTBEAT_BYTES)%nat
  && bool_decide (slice 0 4 packet = ascii_bytes "EIHB")
  && (byte_at packet 4 =? 1)
  && (Z.land (byte_at packet 5) (Z.lnot 3) =? 0)
  && bool_decide (slice 6 2 packet = [0; 0])
  && bool_decide (slice 20 4 packet = ascii_bytes "EISD")
  && (byte_at packet 24 =? 1)
  && (byte_at packet 25 =? 60)
  && negb (Z.land (get_le 2 packet 26) 2 =? 0).

Definition handle_heartbeat (packet : bytes) (source : SocketAddr) (key : bytes)
    (net : Net) (self : ActiveLanPlayback) : HeartbeatResponse * Net :=
  if negb (heartbeat_shape packet) then (HbInvalid, net)
  else
    let digest := hmac_sha256 key (HEARTBEAT_AUTH_CONTEXT ++ take 64 packet) in
    if negb (tag_mismatch (take 16 digest) (slice 64 16 packet) =? 0) then (HbInvalid, net)
    else
      match encode_mailbox_status (lp_mailbox_status self) (get_le 4 packet 16) key with
      | Err _ => (HbInvalid, net)
      | Ok response =>
          let '(sent, net) := send_to response source net in
          (if sent then HbSent else HbSendFailed, net)
      end.

(** ** Packets of the device *)

Definition accept_request_generation (request : PlaybackRequest) (self : ActiveLanPlayback)
    : bool * ActiveLanPlayback :=
  let key := (rq_slot request, rq_connection_generation request) in
  match lp_accepted_requests self !! key with
  | Some floor =>
      if rq_request_generation request <=? floor then (false, self)
      else (true, set_requests (<[key := rq_request_generation request]> (lp_accepted_requests self)) self)
  | None =>
      (true, set_requests (<[key := rq_request_generation request]> (lp_accepted_requests self)) self)
  end.

Definition live_retired (r : option RetiredPlaybackFinish) (source : SocketAddr)
    (identity : PlaybackIdentity) (now : Z) : bool :=
  match r with
  | Some r => bool_decide (rp_source r = source) && bool_decide (rp_identity r = identity)
              && (now <? rp_expires_at r)
  | None => false
  end.

(** [transfer.acknowledged_offset = offset; transfer.retry_count = retries] *)
Definition acknowledge (offset : nat) (retries : Z) (t : ActivePlaybackTransfer)
    : ActivePlaybackTransfer :=
  mk_transfer (tr_begin t) (tr_source t) (tr_eiad t) (tr_phase t) offset (tr_sent_end_offset t)
    (tr_last_send t) retries (tr_finish_deadline t).

Definition in_phase (phase : PlaybackSendPhase) (deadline : Z) (t : ActivePlaybackTransfer)
    : ActivePlaybackTransfer :=
  mk_transfer (tr_begin t) (tr_source t) (tr_eiad t) phase (tr_acknowledged_offset t)
    (tr_sent_end_offset t) (tr_last_send t) (tr_retry_count t) deadline.

Definition accept_ack (ack : PlaybackAck) (source : SocketAddr) (key : bytes) (now : Z)
    (net : Net) (self : ActiveLanPlayback) : Net * ActiveLanPlayback :=
  match lp_transfer self with
  | None =>
      if (ak_status ack =? 3) && live_retired (lp_retired_cancel self) source (ak_identity ack) now
      then ((send_to (encode_finished_ack (ak_identity ack) 1 key) source net).2, self)
      else (net, self)
  | Some t =>
      let next := Z.to_nat (ak_next_offset ack) in
      let identity := bg_identity (tr_begin t) in
      let cancelled net := (emit (EvCancelled identity) net, set_transfer None self) in
      if negb (bool_decide (tr_source t = source)) || negb (bool_decide (identity = ak_identity ack))
      then (net, self)
      else if (ak_status ack =? 1) && bool_decide (tr_phase t = DataAck)
              && (tr_acknowledged_offset t <=? next)%nat && (next <=? tr_sent_end_offset t)%nat
      then
        if (next =? tr_acknowledged_offset t)%nat then
          if PLAYBACK_MAX_RETRIES <=? tr_retry_count t then cancelled net
          else continue_transfer (acknowledge (tr_acknowledged_offset t) (tr_retry_count t + 1) t)
                 key now net self
        else continue_transfer (acknowledge next 0 t) key now net self
      else if negb (ak_status ack =? 0)
      then
        if ak_status ack =? 3 then
          let net := (send_to (encode_finished_ack identity 1 key) source net).2 in
          (emit (EvCancelled identity) net,
           set_transfer None (set_retired_cancel
             (Some (mk_retired identity source (now + PLAYBACK_FINISHED_ACK_RETENTION))) self))
        else cancelled net
      else
        match tr_phase t with
        | BeginAck =>
            if (next =? 0)%nat then continue_transfer (acknowledge 0 0 t) key now net self
            else (net, self)
        | DataAck =>
            if (tr_acknowledged_offset t <? next)%nat && (next <=? tr_sent_end_offset t)%nat then
              let t := acknowledge next 0 t in
              if negb (next =? tr_sent_end_offset t)%nat
              then (net, set_transfer (Some t) self)
              else if (next =? length (tr_eiad t))%nat
              then (net, set_transfer
                      (Some (in_phase DeviceFinished (now + PLAYBACK_FINISH_TIMEOUT) t)) self)
              else continue_transfer t key now net self
            else (net, self)
        | DeviceFinished | HostCommit => (net, self)
        end
  end.

Definition accept_finished (finished : PlaybackFinished) (source : SocketAddr) (key : bytes)
    (now : Z) (net : Net) (self : ActiveLanPlayback) : Net * ActiveLanPlayback :=
  match lp_transfer self with
  | None =>
      if live_retired (lp_retired_finish self) source (fn_identity finished) now
      then ((send_to (encode_finished_ack (fn_identity finished) 0 key) source net).2, self)
      else (net, self)
  | Some t =>
      if negb (bool_decide (tr_source t = source))
         || negb (bool_decide (bg_identity (tr_begin t) = fn_identity finished))
         || negb (bg_total_samples (tr_begin t) =? fn_played_samples finished)
         || negb (bool_decide (tr_phase t = DeviceFinished) || bool_decide (tr_phase t = HostCommit))
      then (net, self)
      else if bool_decide (tr_phase t = DeviceFinished)
      then (emit (EvFinished finished) net,
            set_transfer (Some (in_phase HostCommit (now + PLAYBACK_FINISH_TIMEOUT) t)) self)
      else (emit (EvFinished finished) net, self)
  end.

(** [ActiveLanPlayback::ingest] *)
Definition ingest_playback (packet : bytes) (source : SocketAddr) (key : bytes) (now : Z)
    (net : Net) (self : ActiveLanPlayback) : Net * ActiveLanPlayback :=
  if starts_with (ascii_bytes "EIPR") packet then
    match decode_request packet key with
    | Err _ => (net, self)
    | Ok request =>
        match accept_request_generation request self with
        | (false, self) => (net, self)
        | (true, self) =>
            let net := match lp_transfer self with
                       | Some t => emit (EvCancelled (bg_identity (tr_begin t))) net
                       | None => net
                       end in
            (emit (EvRequest request source) net, set_transfer None self)
        end
    end
  else if starts_with (ascii_bytes "EIPA") packet then
    match decode_ack packet key with
    | Err _ => (net, self)
    | Ok ack => accept_ack ack source key now net self
    end
  else if starts_with (ascii_bytes "EIPF") packet then
    match decode_finished packet key with
    | Err _ => (net, self)
    | Ok finished => accept_finished finished source key now net self
    end
  else (net, self).

(** ** Retransmission and deadlines *)

Definition expired (r : option RetiredPlaybackFinish) (now : Z) : option RetiredPlaybackFinish :=
  match r with Some r' => if rp_expires_at r' <=? now then None else r | None => None end.

Definition retransmit (t : ActivePlaybackTransfer) (key : bytes) (net : Net)
    : option bool * Net :=
  match tr_phase t with
  | BeginAck =>
      let '(sent, net) := send_to (encode_begin (tr_begin t) key) (tr_source t) net in
      (Some sent, net)
  | DataAck =>
      match send_range (tr_sent_end_offset t - tr_acknowledged_offset t) t
              (tr_acknowledged_offset t) (tr_sent_end_offset t) key net with
      | (AllSent, net) => (Some true, net)
      | (SendFailed, net) => (Some false, net)
      | (EncodeFailed, net) => (None, net)
      end
  | _ => (None, net)
  end.

Definition tick (key : option bytes) (now : Z) (net : Net) (self : ActiveLanPlayback)
    : Net * ActiveLanPlayback :=
  let self := set_retired_finish (expired (lp_retired_finish self) now) self in
  let self := set_retired_cancel (expired (lp_retired_cancel self) now) self in
  match lp_transfer self with
  | None => (net, self)
  | Some t =>
      let cancelled net :=
        (emit (EvCancelled (bg_identity (tr_begin t))) net, set_transfer None self) in
      if bool_decide (tr_phase t = DeviceFinished) || bool_decide (tr_phase t = HostCommit)
      then if tr_finish_deadline t <=? now then cancelled net else (net, self)
      else if Z.max 0 (now - tr_last_send t) <? PLAYBACK_RETRY then (net, self)
      else if PLAYBACK_MAX_RETRIES <=? tr_retry_count t then cancelled net
      else
        match key with
        | None => (net, self)
        | Some key =>
            match retransmit t key net with
            | (Some true, net) =>
                (net, set_transfer (Some (mk_transfer (tr_begin t) (tr_source t) (tr_eiad t)
                   (tr_phase t) (tr_acknowledged_offset t) (tr_sent_end_offset t) now
                   (tr_retry_count t + 1) (tr_finish_deadline t))) self)
            | (_, net) => (net, self)
            end
        end
  end.
End transport.
