(* ===== verification/TransportInv.v ===== *)
(** * The invariant of a playback transfer

    What [send_range] puts on the wire, and the bounds every handler keeps: offsets
    inside the clip, at most six chunks in flight, a bounded retry counter. *)

From stdpp Require Import gmap.
From S2P Require Import Prelude Bytes PlaybackWire Capture Transport.

Section inv.
Context `{Crypto}.
Implicit Types (t : ActivePlaybackTransfer) (net : Net) (self : ActiveLanPlayback).

Definition window : nat := PLAYBACK_CHUNK_BYTES * PLAYBACK_SEND_WINDOW_CHUNKS.

Record transfer_ok t : Prop := {
  to_nonempty : (0 < length (tr_eiad t))%nat;
  to_total : Z.of_nat (length (tr_eiad t)) = bg_total_bytes (tr_begin t);
  to_offsets : (tr_acknowledged_offset t ≤ tr_sent_end_offset t ≤ length (tr_eiad t))%nat;
  to_window : (tr_sent_end_offset t ≤ tr_acknowledged_offset t + window)%nat;
  to_retries : 0 ≤ tr_retry_count t ≤ PLAYBACK_MAX_RETRIES;
  to_phase :
    match tr_phase t with
    | BeginAck => tr_sent_end_offset t = 0%nat
    | DataAck => True
    | DeviceFinished | HostCommit => tr_acknowledged_offset t = length (tr_eiad t)
    end;
}.

(** Projections of an updated transfer. *)
Ltac tr_cbn :=
  cbn [acknowledge in_phase tr_begin tr_source tr_eiad tr_phase tr_acknowledged_offset
       tr_sent_end_offset tr_last_send tr_retry_count tr_finish_deadline].

Definition transport_ok self : Prop :=
  match lp_transfer self with Some t => transfer_ok t | None => True end.

(** ** What is sent *)

(** A packet that carries the bytes [offset, offset + n) of the transfer's clip. *)
Definition is_chunk (t : ActivePlaybackTransfer) (key : bytes) (lo hi : nat)
    (p : bytes * SocketAddr) : Prop :=
  ∃ offset n, (lo ≤ offset)%nat ∧ (offset + n ≤ hi)%nat ∧ (0 < n ≤ PLAYBACK_CHUNK_BYTES)%nat
    ∧ encode_data (bg_identity (tr_begin t)) (bg_request_nonce (tr_begin t)) (Z.of_nat offset)
        (slice offset n (tr_eiad t)) key = Ok p.1
    ∧ p.2 = tr_source t.

(** [extends net net' new]: [net'] is [net] with the packets [new] sent as well. *)
Definition extends net net' (new : list (bytes * SocketAddr)) : Prop :=
  net_sent net' = net_sent net ++ new ∧ net_events net' = net_events net.

Lemma extends_refl net : extends net net [].
Proof. split; [by rewrite app_nil_r|done]. Qed.

Lemma extends_trans net net' net'' new new' :
  extends net net' new → extends net' net'' new' → extends net net'' (new ++ new').
Proof. intros [E1 E2] [E3 E4]. split; [by rewrite E3, E1, app_assoc|by rewrite E4]. Qed.

Lemma send_to_extends p target net sent net' :
  send_to p target net = (sent, net') →
  extends net net' (if sent then [(p, target)] else []).
Proof.
  unfold send_to. intros [= <- <-]. unfold extends. cbn.
  destruct (default true (head (net_outcomes net))); by rewrite ?app_nil_r.
Qed.

Lemma is_chunk_weaken t key lo lo' hi p : (lo ≤ lo')%nat → is_chunk t key lo' hi p → is_chunk t key lo hi p.
Proof. intros ? (o & n & ? & Hrest). exists o, n. split; [lia|done]. Qed.

Lemma chunk_value : Z.of_nat PLAYBACK_CHUNK_BYTES = 1024.
Proof. reflexivity. Qed.
Lemma window_value : Z.of_nat window = 6144.
Proof. reflexivity. Qed.

Lemma length_chunk offset n (p : bytes) : (offset + n ≤ length p)%nat → length (slice offset n p) = n.
Proof. rewrite length_slice. lia. Qed.

Lemma send_range_spec fuel t offset end_ key net out net' :
  (end_ ≤ length (tr_eiad t))%nat →
  send_range fuel t offset end_ key net = (out, net') →
  ∃ new, extends net net' new ∧ Forall (is_chunk t key offset end_) new
    ∧ 1024 * Z.of_nat (length new) ≤ Z.max 0 (Z.of_nat end_ - Z.of_nat offset) + 1023.
Proof.
  intros Hend. pose proof chunk_value as Hcv.
  revert offset net. induction fuel as [|fuel IH]; intros offset net E; cbn [send_range] in E.
  { injection E as _ <-. exists []. split; [apply extends_refl|]. split; [constructor|simpl; lia]. }
  destruct (Nat.ltb_spec offset end_) as [Hlt|].
  2: { injection E as _ <-. exists []. split; [apply extends_refl|]. split; [constructor|simpl; lia]. }
  set (ce := Nat.min (offset + PLAYBACK_CHUNK_BYTES) end_) in E.
  destruct (encode_data _ _ _ _ key) as [packet|e] eqn:Hp in E.
  2: { injection E as _ <-. exists []. split; [apply extends_refl|]. split; [constructor|simpl; lia]. }
  destruct (send_to packet (tr_source t) net) as [sent net1] eqn:Hs.
  apply send_to_extends in Hs as He. destruct sent.
  2: { injection E as _ <-. exists []. split; [done|]. split; [constructor|simpl; lia]. }
  destruct (IH _ _ E) as (new & He' & Hnew & Hlen).
  exists ([(packet, tr_source t)] ++ new). split; [by eapply extends_trans|]. split.
  - apply Forall_app. split.
    + constructor; [|constructor]. exists offset, (ce - offset)%nat.
      repeat split; try done; unfold ce; lia.
    + eapply Forall_impl; [exact Hnew|]. intros p. apply is_chunk_weaken. unfold ce. lia.
  - rewrite length_app. simpl length. unfold ce in Hlen. lia.
Qed.

(** With a working socket and a valid identity everything is sent, in order: what the
    device decrypts is exactly the range. *)
Definition carry (t : ActivePlaybackTransfer) (key : bytes) (offset : nat) (payload : bytes)
    (p : bytes * SocketAddr) : Prop :=
  decode_data p.1 (bg_request_nonce (tr_begin t)) key
  = Ok (bg_identity (tr_begin t), Z.of_nat offset, payload) ∧ p.2 = tr_source t.

Inductive carries_range (t : ActivePlaybackTransfer) (key : bytes) :
    nat → nat → list (bytes * SocketAddr) → Prop :=
| carries_none offset : carries_range t key offset offset []
| carries_chunk offset n end_ p new :
    carry t key offset (slice offset n (tr_eiad t)) p → (0 < n)%nat →
    carries_range t key (offset + n) end_ new → carries_range t key offset end_ (p :: new).

Definition sendable t : Prop :=
  identity_wf (bg_identity (tr_begin t)) ∧ 0 < bg_request_nonce (tr_begin t)
  ∧ Z.of_nat (length (tr_eiad t)) ≤ u32_max.

Lemma send_range_all fuel t offset end_ key net :
  sendable t → (end_ ≤ length (tr_eiad t))%nat → (offset ≤ end_)%nat → (end_ - offset ≤ fuel)%nat →
  net_outcomes net = [] →
  ∃ new net', send_range fuel t offset end_ key net = (AllSent, net')
    ∧ extends net net' new ∧ net_outcomes net' = [] ∧ carries_range t key offset end_ new.
Proof.
  intros (Hid & Hnonce & Hlen) Hend. pose proof chunk_value as Hcv.
  revert offset net. induction fuel as [|fuel IH]; intros offset net Hoff Hfuel Hout.
  { assert (offset = end_) as -> by lia.
    exists [], net. split; [done|]. split; [apply extends_refl|]. split; [done|constructor]. }
  cbn [send_range]. destruct (Nat.ltb_spec offset end_) as [Hlt|].
  2: { assert (offset = end_) as -> by lia.
       exists [], net. split; [done|]. split; [apply extends_refl|]. split; [done|constructor]. }
  set (ce := Nat.min (offset + PLAYBACK_CHUNK_BYTES) end_).
  destruct (decode_data_encode (bg_identity (tr_begin t)) (bg_request_nonce (tr_begin t))
    (Z.of_nat offset) (slice offset (ce - offset) (tr_eiad t)) key Hid Hnonce) as (p & Ep & Dp).
  { unfold in_u32, u32_max in *. lia. }
  { rewrite length_chunk; unfold ce; lia. }
  rewrite Ep. unfold send_to. rewrite Hout. cbn [head default tail].
  set (net1 := mk_net [] (net_sent net ++ [(p, tr_source t)]) (net_events net)).
  destruct (IH ce net1) as (new & net' & E & He & Ho & Hc); [unfold ce; lia..|done|].
  exists ([(p, tr_source t)] ++ new), net'. split; [exact E|].
  split; [eapply extends_trans; [|exact He]; by split|]. split; [done|].
  apply carries_chunk with (ce - offset)%nat; [by split|unfold ce; lia|].
  replace (offset + (ce - offset))%nat with ce by (unfold ce; lia). exact Hc.
Qed.

(** ** The effects of a handler *)

(** A packet the host may send while [self] is its state: a chunk of the transfer's own
    clip, or one of the control packets. *)
Definition control_packet (p : bytes) : Prop :=
  ∃ key, (∃ b, p = encode_begin b key) ∨ (∃ i status, p = encode_finished_ack i status key)
    ∨ (∃ s n, encode_mailbox_status s n key = Ok p).

Definition legit self (p : bytes * SocketAddr) : Prop :=
  (∃ key t, lp_transfer self = Some t ∧ is_chunk t key 0 (length (tr_eiad t)) p)
  ∨ control_packet p.1.

(** An event a handler may report: a finished clip was wholly acknowledged. *)
Definition event_ok self (e : LanPlaybackEvent) : Prop :=
  match e with
  | EvFinished f => ∃ t, lp_transfer self = Some t
      ∧ tr_acknowledged_offset t = length (tr_eiad t)
      ∧ bg_identity (tr_begin t) = fn_identity f ∧ bg_total_samples (tr_begin t) = fn_played_samples f
  | _ => True
  end.

Definition effects self net net' : Prop :=
  ∃ new evs, net_sent net' = net_sent net ++ new ∧ net_events net' = net_events net ++ evs
    ∧ (length new ≤ PLAYBACK_SEND_WINDOW_CHUNKS)%nat ∧ Forall (legit self) new
    ∧ Forall (event_ok self) evs.

Lemma effects_none self net : effects self net net.
Proof. exists [], []. rewrite !app_nil_r. repeat split; try done. simpl. lia. Qed.

Lemma effects_sent self net net' new :
  extends net net' new → (length new ≤ PLAYBACK_SEND_WINDOW_CHUNKS)%nat → Forall (legit self) new →
  effects self net net'.
Proof. intros [E1 E2] Hl Hn. exists new, []. rewrite app_nil_r. by repeat split. Qed.

Lemma effects_emit self net net' e :
  effects self net net' → event_ok self e → effects self net (emit e net').
Proof.
  intros (new & evs & E1 & E2 & Hl & Hn & He) Hok. exists new, (evs ++ [e]).
  unfold emit. cbn. rewrite E2, <- app_assoc. repeat split; try done.
  apply Forall_app. split; [done|by constructor].
Qed.

(** One control packet. *)
Lemma effects_control self p target net sent net' :
  send_to p target net = (sent, net') → control_packet p → effects self net net'.
Proof.
  intros Hs Hp. apply send_to_extends in Hs. eapply effects_sent; [exact Hs| |].
  - unfold PLAYBACK_SEND_WINDOW_CHUNKS. destruct sent; simpl; lia.
  - destruct sent; [|constructor]. constructor; [by right|constructor].
Qed.

Lemma control_finished_ack i status key : control_packet (encode_finished_ack i status key).
Proof. exists key. right. left. by exists i, status. Qed.
Lemma control_begin b key : control_packet (encode_begin b key).
Proof. exists key. left. by exists b. Qed.

(** A range of the current transfer. *)
Lemma effects_range self t fuel lo hi key net out net' t0 :
  lp_transfer self = Some t0 → tr_begin t = tr_begin t0 → tr_source t = tr_source t0 →
  tr_eiad t = tr_eiad t0 → (hi ≤ length (tr_eiad t))%nat → (hi ≤ lo + window)%nat →
  send_range fuel t lo hi key net = (out, net') → effects self net net'.
Proof.
  intros Hself Eb Es Ee Hhi Hw E. pose proof window_value as Hwv.
  destruct (send_range_spec _ _ _ _ _ _ _ _ Hhi E) as (new & He & Hn & Hlen).
  eapply effects_sent; [exact He| |].
  - unfold PLAYBACK_SEND_WINDOW_CHUNKS. lia.
  - eapply Forall_impl; [exact Hn|]. intros p (o & n & ? & ? & ? & Hp & Ht). left.
    exists key, t0. split; [done|]. exists o, n. rewrite Eb, Ee in Hp. rewrite Es in Ht.
    rewrite Ee in Hhi. split; [lia|]. split; [lia|done].
Qed.

(** [send_next_data], or the cancellation when it fails. *)
Lemma continue_ok self t t0 key now net net' self' :
  lp_transfer self = Some t0 → tr_begin t = tr_begin t0 → tr_source t = tr_source t0 →
  tr_eiad t = tr_eiad t0 → transfer_ok t →
  continue_transfer t key now net self = (net', self') →
  effects self net net' ∧ transport_ok self'.
Proof.
  intros Hself Eb Es Ee [Hne Htot Hoff Hw Hr _] E.
  unfold continue_transfer, send_next_data in E. fold window in E.
  destruct (send_range _ t _ _ key net) as [out net1] eqn:Hs.
  assert (effects self net net1) as Heff by (eapply effects_range; [done..| | |exact Hs]; lia).
  destruct out; injection E as <- <-; (split; [|]).
  - done.
  - constructor; tr_cbn; try done; lia.
  - by apply effects_emit.
  - done.
  - by apply effects_emit.
  - done.
Qed.

Lemma acknowledge_ok t next retries :
  transfer_ok t → tr_phase t = DataAck → (tr_acknowledged_offset t ≤ next ≤ tr_sent_end_offset t)%nat →
  0 ≤ retries ≤ PLAYBACK_MAX_RETRIES → transfer_ok (acknowledge next retries t).
Proof. intros [? ? ? ? ? _] Hp ? ?. constructor; tr_cbn; try done; try lia. by rewrite Hp. Qed.

Lemma retries_zero : 0 ≤ 0 ≤ PLAYBACK_MAX_RETRIES.
Proof. unfold PLAYBACK_MAX_RETRIES. lia. Qed.

Lemma accept_ack_ok ack source key now net self net' self' :
  transport_ok self → accept_ack ack source key now net self = (net', self') →
  effects self net net' ∧ transport_ok self'.
Proof.
  unfold transport_ok at 1, accept_ack. intros Hok E.
  destruct (lp_transfer self) as [t|] eqn:Ht.
  2: { destruct (send_to (encode_finished_ack (ak_identity ack) 1 key) source net) as [sent net1] eqn:Hs.
       destruct (_ && _); injection E as <- <-; (split; [|unfold transport_ok; by rewrite Ht]).
       - eapply effects_control; [exact Hs|apply control_finished_ack].
       - apply effects_none. }
  assert (transport_ok self) as Hself by (unfold transport_ok; by rewrite Ht).
  destruct (_ || _); [injection E as <- <-; split; [apply effects_none|done]|].
  destruct (_ && _ && _ && _) eqn:Hgap.
  { bool_prop. rename select (_ <=? _ = true)%nat into H1. rename select (tr_phase t = DataAck) into Hp.
    apply Nat.leb_le in H1. repeat match goal with H : (_ <=? _)%nat = true |- _ => apply Nat.leb_le in H end.
    destruct (Nat.eqb_spec (Z.to_nat (ak_next_offset ack)) (tr_acknowledged_offset t)) as [En|].
    - destruct (Z.leb_spec PLAYBACK_MAX_RETRIES (tr_retry_count t)).
      + injection E as <- <-. split; [apply effects_emit; [apply effects_none|done]|done].
      + eapply continue_ok; [exact Ht|..|exact E]; try done.
        apply acknowledge_ok; [done|done|lia|]. pose proof (to_retries _ Hok). lia.
    - eapply continue_ok; [exact Ht|..|exact E]; try done.
      apply acknowledge_ok; [done|done|lia|apply retries_zero]. }
  clear Hgap. destruct (negb (ak_status ack =? 0)).
  { destruct (send_to (encode_finished_ack (bg_identity (tr_begin t)) 1 key) source net)
      as [sent net1] eqn:Hs.
    destruct (ak_status ack =? 3); injection E as <- <-; (split; [|done]); apply effects_emit; try done.
    - eapply effects_control; [exact Hs|apply control_finished_ack].
    - apply effects_none. }
  destruct (tr_phase t) eqn:Hp.
  - destruct (_ =? 0)%nat; [|injection E as <- <-; split; [apply effects_none|done]].
    eapply continue_ok; [exact Ht|..|exact E]; try done.
    pose proof (to_phase _ Hok) as Hph. rewrite Hp in Hph.
    destruct Hok as [? ? ? ? ? _]. constructor; tr_cbn; try done; try lia. by rewrite Hp.
  - destruct (_ && _) eqn:Hg; [|injection E as <- <-; split; [apply effects_none|done]].
    apply andb_prop in Hg as [Hg1%Nat.ltb_lt Hg2%Nat.leb_le].
    assert (transfer_ok (acknowledge (Z.to_nat (ak_next_offset ack)) 0 t)) as Hack.
    { apply acknowledge_ok; [done|done|lia|apply retries_zero]. }
    cbv zeta in E. change (tr_sent_end_offset (acknowledge _ _ t)) with (tr_sent_end_offset t) in E.
    change (tr_eiad (acknowledge _ _ t)) with (tr_eiad t) in E.
    destruct (negb (Z.to_nat (ak_next_offset ack) =? tr_sent_end_offset t)%nat);
      [injection E as <- <-; split; [apply effects_none|done]|].
    destruct (Nat.eqb_spec (Z.to_nat (ak_next_offset ack)) (length (tr_eiad t))) as [Hl|].
    + injection E as <- <-. split; [apply effects_none|].
      destruct Hack as [? ? ? ? ? _]. constructor; tr_cbn; try done; by destruct Hack.
    + eapply continue_ok; [exact Ht|..|exact E]; done.
  - injection E as <- <-. split; [apply effects_none|done].
  - injection E as <- <-. split; [apply effects_none|done].
Qed.

(** ** The other handlers *)

Lemma transport_ok_ext self self' :
  lp_transfer self' = lp_transfer self → transport_ok self → transport_ok self'.
Proof. unfold transport_ok. by intros ->. Qed.

Lemma accept_finished_ok f source key now net self net' self' :
  transport_ok self → accept_finished f source key now net self = (net', self') →
  effects self net net' ∧ transport_ok self'.
Proof.
  intros Hok E. pose proof Hok as Hok'. unfold transport_ok in Hok'. unfold accept_finished in E.
  destruct (lp_transfer self) as [t|] eqn:Ht.
  2: { destruct (send_to (encode_finished_ack (fn_identity f) 0 key) source net) as [sent net1] eqn:Hs.
       destruct (live_retired _ _ _ _); injection E as <- <-; (split; [|done]).
       - eapply effects_control; [exact Hs|apply control_finished_ack].
       - apply effects_none. }
  destruct (_ || _ || _ || _) eqn:Hg; [injection E as <- <-; split; [apply effects_none|done]|].
  bool_prop.
  assert (tr_acknowledged_offset t = length (tr_eiad t)) as Hall.
  { pose proof (to_phase _ Hok') as Hp.
    destruct (tr_phase t) eqn:Hph; [|  |done|done];
      rewrite !bool_decide_eq_false_2 in * by done; done. }
  assert (event_ok self (EvFinished f)) as Hev by (exists t; auto).
  destruct (bool_decide (tr_phase t = DeviceFinished)); injection E as <- <-;
    (split; [apply effects_emit; [apply effects_none|done]|]).
  - destruct Hok'. unfold transport_ok. cbn [set_transfer lp_transfer].
    constructor; tr_cbn; done.
  - done.
Qed.

Lemma ingest_playback_ok packet source key now net self net' self' :
  transport_ok self → ingest_playback packet source key now net self = (net', self') →
  effects self net net' ∧ transport_ok self'.
Proof.
  intros Hok E. unfold ingest_playback in E.
  assert (∀ net, (net, self) = (net', self') → net = net' ∧ transport_ok self') as Hsame.
  { intros ? [= <- <-]. by split. }
  destruct (starts_with (ascii_bytes "EIPR") packet).
  { destruct (decode_request packet key) as [request|];
      [|destruct (Hsame _ E) as [<- ?]; split; [apply effects_none|done]].
    unfold accept_request_generation in E.
    destruct (lp_accepted_requests self !! _) as [floor|].
    - destruct (_ <=? floor); [destruct (Hsame _ E) as [<- ?]; split; [apply effects_none|done]|].
      injection E as <- <-. split; [|done]. apply effects_emit; [|done].
      cbn [set_requests lp_transfer].
      destruct (lp_transfer self); [apply effects_emit; [|done]|]; apply effects_none.
    - injection E as <- <-. split; [|done]. apply effects_emit; [|done].
      cbn [set_requests lp_transfer].
      destruct (lp_transfer self); [apply effects_emit; [|done]|]; apply effects_none. }
  destruct (starts_with (ascii_bytes "EIPA") packet).
  { destruct (decode_ack packet key) as [ack|];
      [by eapply accept_ack_ok|destruct (Hsame _ E) as [<- ?]; split; [apply effects_none|done]]. }
  destruct (starts_with (ascii_bytes "EIPF") packet).
  { destruct (decode_finished packet key) as [f|];
      [by eapply accept_finished_ok|destruct (Hsame _ E) as [<- ?]; split; [apply effects_none|done]]. }
  destruct (Hsame _ E) as [<- ?]. split; [apply effects_none|done].
Qed.

Lemma handle_command_ok c key now net self net' self' :
  transport_ok self → handle_command c key now net self = (net', self') →
  effects self net net' ∧ transport_ok self'.
Proof.
  intros Hok E. assert (∀ net, (net, self) = (net', self') → net = net' ∧ transport_ok self') as Hsame.
  { intros ? [= <- <-]. by split. }
  destruct c as [[b src eiad]|i|i|s]; cbn [handle_command st_begin st_source st_eiad] in E.
  - destruct (_ || _ || _) eqn:Hg.
    { destruct (Hsame _ E) as [<- ?]. split; [apply effects_emit; [apply effects_none|done]|done]. }
    destruct key as [key|].
    2: { destruct (Hsame _ E) as [<- ?]. split; [apply effects_emit; [apply effects_none|done]|done]. }
    destruct (send_to (encode_begin b key) src net) as [sent net1] eqn:Hs.
    pose proof (effects_control self _ _ _ _ _ Hs (control_begin b key)) as He.
    destruct sent; cbn [negb] in E.
    + injection E as <- <-. split; [done|]. bool_prop. rename select (_ =? 0 = false)%nat into Hl.
      apply Nat.eqb_neq in Hl. unfold transport_ok. cbn [set_transfer lp_transfer].
      constructor; tr_cbn; try done; try lia.
    + destruct (Hsame _ E) as [<- ?]. split; [by apply effects_emit|done].
  - destruct (lp_transfer self) as [t|]; [|destruct (Hsame _ E) as [<- ?]; split; [apply effects_none|done]].
    destruct key as [key|]; [|destruct (Hsame _ E) as [<- ?]; split; [apply effects_none|done]].
    destruct (_ && _); [|destruct (Hsame _ E) as [<- ?]; split; [apply effects_none|done]].
    destruct (send_to (encode_finished_ack i 0 key) (tr_source t) net) as [sent net1] eqn:Hs.
    pose proof (effects_control self _ _ _ _ _ Hs (control_finished_ack i 0 key)) as He.
    destruct sent; injection E as <- <-; by split.
  - destruct (lp_transfer self) as [t|]; [|destruct (Hsame _ E) as [<- ?]; split; [apply effects_none|done]].
    destruct (bool_decide _); injection E as <- <-; (split; [apply effects_none|done]).
  - injection E as <- <-. split; [apply effects_none|]. by apply (transport_ok_ext self).
Qed.

Lemma handle_heartbeat_ok packet source key net self r net' :
  handle_heartbeat packet source key net self = (r, net') → effects self net net'.
Proof.
  unfold handle_heartbeat. destruct (negb _); [intros [= _ <-]; apply effects_none|].
  destruct (negb _); [intros [= _ <-]; apply effects_none|].
  destruct (encode_mailbox_status _ _ key) as [response|] eqn:Hr; [|intros [= _ <-]; apply effects_none].
  destruct (send_to response source net) as [sent net1] eqn:Hs. intros [= _ <-].
  eapply effects_control; [exact Hs|]. exists key. right. right. by exists (lp_mailbox_status self), (get_le 4 packet 16).
Qed.

Lemma retransmit_ok t key net out net' self :
  lp_transfer self = Some t → transfer_ok t → retransmit t key net = (out, net') →
  effects self net net'.
Proof.
  intros Ht [_ _ Hoff Hw _ _] E. unfold retransmit in E. destruct (tr_phase t).
  - destruct (send_to (encode_begin (tr_begin t) key) (tr_source t) net) as [sent net1] eqn:Hs.
    injection E as _ <-. eapply effects_control; [exact Hs|apply control_begin].
  - destruct (send_range _ t _ _ key net) as [o net1] eqn:Hs.
    assert (effects self net net1) by (eapply effects_range; [done..| | |exact Hs]; lia).
    by destruct o; injection E as _ <-.
  - injection E as _ <-. apply effects_none.
  - injection E as _ <-. apply effects_none.
Qed.

Lemma effects_self self self' net net' :
  lp_transfer self' = lp_transfer self → effects self' net net' → effects self net net'.
Proof.
  intros Et (new & evs & E1 & E2 & Hl & Hn & He). exists new, evs. repeat split; try done.
  - eapply Forall_impl; [exact Hn|]. intros p. unfold legit. by rewrite Et.
  - eapply Forall_impl; [exact He|]. intros []; simpl; by rewrite ?Et.
Qed.

Lemma tick_ok key now net self net' self' :
  transport_ok self → tick key now net self = (net', self') →
  effects self net net' ∧ transport_ok self'.
Proof.
  intros Hok E. unfold tick in E.
  set (s1 := set_retired_cancel _ _) in E.
  assert (lp_transfer s1 = lp_transfer self) as Es by done.
  assert (transport_ok s1) as Hok1 by by apply (transport_ok_ext self).
  assert (effects s1 net net' ∧ transport_ok self') as [He ?]; [|split; [by apply (effects_self _ s1)|done]].
  pose proof Hok1 as Hok2. unfold transport_ok in Hok2.
  assert (∀ net, (net, s1) = (net', self') → net = net' ∧ transport_ok self') as Hsame.
  { intros ? [= <- <-]. by split. }
  destruct (lp_transfer s1) as [t|] eqn:Ht;
    [|destruct (Hsame _ E) as [<- ?]; split; [apply effects_none|done]].
  assert (∀ n, (emit (EvCancelled (bg_identity (tr_begin t))) n, set_transfer None s1) = (net', self') →
    effects s1 net n → effects s1 net net' ∧ transport_ok self') as Hcancel.
  { intros n [= <- <-] Hn. split; [by apply effects_emit|done]. }
  destruct (_ || _).
  { destruct (_ <=? now); [by apply (Hcancel net), effects_none|].
    destruct (Hsame _ E) as [<- ?]. split; [apply effects_none|done]. }
  destruct (_ <? PLAYBACK_RETRY); [destruct (Hsame _ E) as [<- ?]; split; [apply effects_none|done]|].
  destruct (Z.leb_spec PLAYBACK_MAX_RETRIES (tr_retry_count t)); [by apply (Hcancel net), effects_none|].
  destruct key as [key|]; [|destruct (Hsame _ E) as [<- ?]; split; [apply effects_none|done]].
  destruct (retransmit t key net) as [out net1] eqn:Hr.
  pose proof (retransmit_ok t key net out net1 s1 Ht Hok2 Hr) as Hsent.
  destruct out as [[]|]; [|destruct (Hsame _ E) as [<- ?]; by split..].
  injection E as <- <-. split; [done|]. destruct Hok2 as [? ? ? ? ? ?].
  unfold transport_ok. cbn [set_transfer lp_transfer]. constructor; tr_cbn; try done; lia.
Qed.
End inv.
