(* ===== verification/TransportProps.v ===== *)
(** * The playback transport: safety, request freshness, progress

    The ingress thread drives the transport by four kinds of steps; the properties hold
    for every sequence of them, whatever the network delivers and whichever sends
    fail. *)

From stdpp Require Import gmap.
From S2P Require Import Prelude Bytes PlaybackWire Capture Transport TransportInv.

Section props.
Context `{Crypto}.
Implicit Types (t : ActivePlaybackTransfer) (net : Net) (self : ActiveLanPlayback).

(** ** Steps *)

Inductive transport_step : Net * ActiveLanPlayback → Net * ActiveLanPlayback → Prop :=
| transport_command net self c key now :
    transport_step (net, self) (handle_command c key now net self)
| transport_packet net self packet source key now :
    transport_step (net, self) (ingest_playback packet source key now net self)
| transport_heartbeat net self packet source key :
    transport_step (net, self) ((handle_heartbeat packet source key net self).2, self)
| transport_tick net self key now : transport_step (net, self) (tick key now net self).

(** From the daemon's start, under any pattern of send failures. *)
Definition transport_reachable net self : Prop :=
  ∃ outcomes, rtc transport_step (mk_net outcomes [] [], default_playback) (net, self).

Lemma transport_step_ok net self net' self' :
  transport_step (net, self) (net', self') → transport_ok self →
  effects self net net' ∧ transport_ok self'.
Proof.
  intros Hstep Hok.
  inversion Hstep as [? ? c key now E|? ? p src key now E|? ? p src key E|? ? key now E]; subst.
  - by apply (handle_command_ok c key now).
  - by apply (ingest_playback_ok p src key now).
  - split; [|done]. by eapply handle_heartbeat_ok, surjective_pairing.
  - by apply (tick_ok key now).
Qed.

Lemma transport_reachable_ok net self : transport_reachable net self → transport_ok self.
Proof.
  intros [outcomes Hr].
  apply (rtc_ind_r (R := transport_step) (λ st, transport_ok st.2)
    (mk_net outcomes [] [], default_playback)) with (z := (net, self)); [done| |exact Hr].
  intros [n1 s1] [n2 s2] _ Hstep Hok. by apply (transport_step_ok n1 s1 n2).
Qed.

(** C17 Every step of the transport, from any reachable state: at most six datagrams are
    sent, each a chunk of the current transfer's own clip (encrypted under its identity,
    nonce and offset, to its own device) or a control packet; [Finished] is reported
    only for the current transfer, with its exact identity and sample count, after the
    device has acknowledged every byte; and the offsets and the retry counter stay in
    their bounds. *)
Theorem transport_safety net self net' self' :
  transport_reachable net self → transport_step (net, self) (net', self') →
  (∃ new evs, net_sent net' = net_sent net ++ new ∧ net_events net' = net_events net ++ evs
    ∧ (length new ≤ 6)%nat ∧ Forall (legit self) new ∧ Forall (event_ok self) evs)
  ∧ match lp_transfer self' with
    | None => True
    | Some t => (tr_acknowledged_offset t ≤ tr_sent_end_offset t ≤ length (tr_eiad t))%nat
        ∧ (tr_sent_end_offset t ≤ tr_acknowledged_offset t + 6 * PLAYBACK_CHUNK_BYTES)%nat
        ∧ 0 ≤ tr_retry_count t ≤ 16
        ∧ (tr_phase t = HostCommit → tr_acknowledged_offset t = length (tr_eiad t))
    end.
Proof.
  intros Hr%transport_reachable_ok Hstep.
  destruct (transport_step_ok _ _ _ _ Hstep Hr) as [He Hok]. split; [exact He|].
  unfold transport_ok in Hok. destruct (lp_transfer self') as [t|]; [|done].
  destruct Hok as [_ _ ? Hw ? Hp]. split; [done|]. split.
  - rewrite Nat.mul_comm. exact Hw.
  - split; [done|]. intros E. by rewrite E in Hp.
Qed.

(** ** Requests are accepted once *)

Definition is_request (e : LanPlaybackEvent) : bool := if e is EvRequest _ _ then true else false.

(** A handler that reports no request. *)
Definition quiet net self net' self' : Prop :=
  lp_accepted_requests self' = lp_accepted_requests self
  ∧ ∃ evs, net_events net' = net_events net ++ evs ∧ Forall (λ e, is_request e = false) evs.

Lemma quiet_same net self net' self' :
  lp_accepted_requests self' = lp_accepted_requests self → net_events net' = net_events net →
  quiet net self net' self'.
Proof. intros E1 E2. split; [done|]. exists []. by rewrite app_nil_r. Qed.

Lemma quiet_emit net self net1 self' e :
  lp_accepted_requests self' = lp_accepted_requests self → net_events net1 = net_events net →
  is_request e = false → quiet net self (emit e net1) self'.
Proof.
  intros E1 E2 He. split; [done|]. exists [e]. unfold emit. cbn. rewrite E2.
  split; [done|by constructor].
Qed.

Lemma send_to_events p target net sent net' : send_to p target net = (sent, net') → net_events net' = net_events net.
Proof. intros Hs. by apply send_to_extends in Hs as [_ ?]. Qed.

Lemma send_range_events fuel t lo hi key net out net' :
  send_range fuel t lo hi key net = (out, net') → net_events net' = net_events net.
Proof.
  revert lo net. induction fuel as [|fuel IH]; intros lo net E; cbn [send_range] in E;
    [by injection E as _ <-|].
  destruct (lo <? hi)%nat; [|by injection E as _ <-].
  destruct (encode_data _ _ _ _ key); [|by injection E as _ <-].
  destruct (send_to _ _ net) as [sent net1] eqn:Hs. apply send_to_events in Hs.
  destruct sent; [|by injection E as _ <-]. rewrite <- Hs. by eapply IH.
Qed.

Lemma retransmit_events t key net out net' :
  retransmit t key net = (out, net') → net_events net' = net_events net.
Proof.
  unfold retransmit. destruct (tr_phase t); [| |by intros [= _ <-]..].
  - destruct (send_to _ _ net) as [sent net1] eqn:Hs. intros [= _ <-]. by eapply send_to_events.
  - destruct (send_range _ t _ _ key net) as [o net1] eqn:Hs. apply send_range_events in Hs.
    by destruct o; intros [= _ <-].
Qed.

(** Case analysis of a handler down to its results, remembering what was sent. *)
Ltac quiet_tac E :=
  repeat match type of E with
  | context [send_to ?p ?a ?n] =>
      let Hs := fresh "Hs" in
      destruct (send_to p a n) as [? ?] eqn:Hs; apply send_to_events in Hs; cbn [snd] in E
  | context [send_range ?f ?t ?lo ?hi ?k ?n] =>
      let Hs := fresh "Hs" in
      destruct (send_range f t lo hi k n) as [[] ?] eqn:Hs; apply send_range_events in Hs
  | context [retransmit ?t ?k ?n] =>
      let Hs := fresh "Hs" in
      destruct (retransmit t k n) as [? ?] eqn:Hs; apply retransmit_events in Hs
  | context [match ?x with _ => _ end] => destruct x
  end;
  injection E as <- <-;
  first [by apply quiet_same | by apply quiet_emit].

Lemma continue_quiet t key now net self net' self' :
  continue_transfer t key now net self = (net', self') → quiet net self net' self'.
Proof. intros E. unfold continue_transfer, send_next_data in E. quiet_tac E. Qed.

Lemma accept_ack_quiet ack source key now net self net' self' :
  accept_ack ack source key now net self = (net', self') → quiet net self net' self'.
Proof.
  intros E. unfold accept_ack, continue_transfer, send_next_data in E.
  repeat match type of E with
  | context [let t := acknowledge ?o ?r ?t in @?k t] => cbv zeta in E
  end.
  quiet_tac E.
Qed.

Lemma command_quiet c key now net self net' self' :
  handle_command c key now net self = (net', self') → quiet net self net' self'.
Proof. intros E. unfold handle_command in E. quiet_tac E. Qed.

Lemma heartbeat_quiet packet source key net self :
  quiet net self (handle_heartbeat packet source key net self).2 self.
Proof.
  destruct (handle_heartbeat packet source key net self) as [r net'] eqn:E.
  assert ((net', self) = (net', self)) as E' by done. unfold handle_heartbeat in E.
  repeat match type of E with
  | context [send_to ?p ?a ?n] =>
      let Hs := fresh "Hs" in destruct (send_to p a n) as [? ?] eqn:Hs; apply send_to_events in Hs
  | context [match ?x with _ => _ end] => destruct x
  end; injection E as _ <-; by apply quiet_same.
Qed.

Lemma tick_quiet key now net self net' self' :
  tick key now net self = (net', self') → quiet net self net' self'.
Proof. intros E. unfold tick in E. quiet_tac E. Qed.

Lemma finished_quiet f source key now net self net' self' :
  accept_finished f source key now net self = (net', self') → quiet net self net' self'.
Proof. intros E. unfold accept_finished in E. quiet_tac E. Qed.

Definition request_key (r : PlaybackRequest) : Z * Z := (rq_slot r, rq_connection_generation r).

Lemma ingest_playback_request packet source key now net self net' self' :
  ingest_playback packet source key now net self = (net', self') →
  quiet net self net' self'
  ∨ ∃ r evs, decode_request packet key = Ok r
      ∧ match lp_accepted_requests self !! request_key r with
        | Some floor => floor < rq_request_generation r | None => True end
      ∧ lp_accepted_requests self' = <[request_key r := rq_request_generation r]> (lp_accepted_requests self)
      ∧ net_events net' = net_events net ++ evs ++ [EvRequest r source]
      ∧ Forall (λ e, is_request e = false) evs.
Proof.
  intros E. unfold ingest_playback in E.
  destruct (starts_with (ascii_bytes "EIPR") packet).
  2: { left. destruct (starts_with (ascii_bytes "EIPA") packet).
       { destruct (decode_ack packet key); [by eapply accept_ack_quiet|].
         injection E as <- <-. by apply quiet_same. }
       destruct (starts_with (ascii_bytes "EIPF") packet).
       { destruct (decode_finished packet key); [by eapply finished_quiet|].
         injection E as <- <-. by apply quiet_same. }
       injection E as <- <-. by apply quiet_same. }
  destruct (decode_request packet key) as [r|]; [|left; injection E as <- <-; by apply quiet_same].
  unfold accept_request_generation in E. fold (request_key r) in E.
  assert (∀ s1, s1 = set_requests (<[request_key r := rq_request_generation r]>
      (lp_accepted_requests self)) self →
    (emit (EvRequest r source) (match lp_transfer s1 with
       | Some t => emit (EvCancelled (bg_identity (tr_begin t))) net | None => net end),
     set_transfer None s1) = (net', self') →
    lp_accepted_requests self' = <[request_key r := rq_request_generation r]> (lp_accepted_requests self)
    ∧ ∃ evs, net_events net' = net_events net ++ evs ++ [EvRequest r source]
        ∧ Forall (λ e, is_request e = false) evs) as Hnew.
  { intros s1 -> [= <- <-]. split; [done|]. unfold emit. cbn [net_events set_requests lp_transfer].
    destruct (lp_transfer self) as [t|]; cbn [net_events].
    - exists [EvCancelled (bg_identity (tr_begin t))]. rewrite <- app_assoc. by repeat constructor.
    - by exists []. }
  destruct (lp_accepted_requests self !! request_key r) as [floor|] eqn:Hf.
  - destruct (Z.leb_spec (rq_request_generation r) floor); [left; injection E as <- <-; by apply quiet_same|].
    right. destruct (Hnew _ eq_refl E) as (Ea & evs & Ee & He). exists r, evs. rewrite Hf. by repeat split.
  - right. destruct (Hnew _ eq_refl E) as (Ea & evs & Ee & He). exists r, evs. rewrite Hf. by repeat split.
Qed.

Record requests_fresh net self : Prop := {
  rf_floor : ∀ i r s, net_events net !! i = Some (EvRequest r s) →
    ∃ floor, lp_accepted_requests self !! request_key r = Some floor ∧ rq_request_generation r ≤ floor;
  rf_increasing : ∀ i j r s r' s', (i < j)%nat →
    net_events net !! i = Some (EvRequest r s) → net_events net !! j = Some (EvRequest r' s') →
    request_key r = request_key r' → rq_request_generation r < rq_request_generation r';
}.

(** A request among events is an old one when the new events hold none. *)
Lemma request_lookup_app l evs i r s :
  Forall (λ e, is_request e = false) evs → (l ++ evs) !! i = Some (EvRequest r s) →
  l !! i = Some (EvRequest r s).
Proof.
  intros He Hi. destruct (lookup_app_Some l evs i (EvRequest r s)) as [Hl _].
  destruct (Hl Hi) as [?|[_ Hin]]; [done|].
  by pose proof (Forall_lookup_1 _ _ _ _ He Hin).
Qed.

Lemma quiet_fresh net self net' self' :
  quiet net self net' self' → requests_fresh net self → requests_fresh net' self'.
Proof.
  intros (Ea & evs & Ee & He) [Hf Hi]. split; rewrite Ee.
  - intros i r s Hr. rewrite Ea. eapply Hf. by eapply request_lookup_app.
  - intros i j r s r' s' Hij H1 H2. eapply Hi; [exact Hij|..]; by eapply request_lookup_app.
Qed.

Lemma request_fresh net self net' self' r source evs :
  match lp_accepted_requests self !! request_key r with
  | Some floor => floor < rq_request_generation r | None => True end →
  lp_accepted_requests self' = <[request_key r := rq_request_generation r]> (lp_accepted_requests self) →
  net_events net' = net_events net ++ evs ++ [EvRequest r source] →
  Forall (λ e, is_request e = false) evs →
  requests_fresh net self → requests_fresh net' self'.
Proof.
  intros Hfloor Ea Ee He [Hf Hi]. rewrite app_assoc in Ee.
  assert (∀ i r0 s, net_events net' !! i = Some (EvRequest r0 s) →
    net_events net !! i = Some (EvRequest r0 s)
    ∨ (i = length (net_events net ++ evs) ∧ r0 = r)) as Hcase.
  { intros i r0 s. rewrite Ee. intros Hl%lookup_app_Some.
    destruct Hl as [Hl|[Hge Hl]]; [left; by eapply request_lookup_app|]. right.
    apply list_lookup_singleton_Some in Hl as [? Hl]. injection Hl as -> _. split; [lia|done]. }
  split.
  - intros i r0 s Hr. rewrite Ea. destruct (Hcase _ _ _ Hr) as [Hold|[_ ->]].
    + destruct (Hf _ _ _ Hold) as (floor & Hl & Hle).
      destruct (decide (request_key r = request_key r0)) as [Ek|Hne].
      * rewrite Ek, lookup_insert_eq. rewrite Ek, Hl in Hfloor. eexists. split; [done|lia].
      * rewrite lookup_insert_ne by done. by exists floor.
    + rewrite lookup_insert_eq. eexists. split; [done|lia].
  - intros i j r1 s1 r2 s2 Hij H1 H2 Hk.
    destruct (Hcase _ _ _ H1) as [O1|[I1 ->]], (Hcase _ _ _ H2) as [O2|[I2 ->]].
    + by eapply (Hi i j).
    + destruct (Hf _ _ _ O1) as (floor & Hl & Hle). rewrite Hk in Hl. rewrite Hl in Hfloor. lia.
    + apply lookup_lt_Some in O2. rewrite length_app in I1. lia.
    + lia.
Qed.

Lemma transport_step_fresh net self net' self' :
  transport_step (net, self) (net', self') → requests_fresh net self → requests_fresh net' self'.
Proof.
  intros Hstep. inversion Hstep as [? ? c key now E|? ? p src key now E|? ? p src key E|? ? key now E]; subst.
  - apply quiet_fresh. by eapply command_quiet.
  - rename select (ingest_playback _ _ _ _ _ _ = _) into E.
    destruct (ingest_playback_request p src key now net self net' self' E) as [Hq|(r & evs & _ & Hf & Ea & Ee & He)]; [by apply quiet_fresh|by eapply request_fresh].
  - apply quiet_fresh, heartbeat_quiet.
  - apply quiet_fresh. by eapply tick_quiet.
Qed.

(** C18 A playback request is honoured at most once: over any run of the transport, the
    requests reported for one slot and device connection have strictly increasing
    generations, so a replayed or reordered EIPR packet never starts a second playback. *)
Theorem playback_request_honoured_once net self i j r s r' s' :
  transport_reachable net self → (i < j)%nat →
  net_events net !! i = Some (EvRequest r s) → net_events net !! j = Some (EvRequest r' s') →
  rq_slot r = rq_slot r' → rq_connection_generation r = rq_connection_generation r' →
  rq_request_generation r < rq_request_generation r'.
Proof.
  intros [outcomes Hr] Hij Hi Hj Es Ec.
  assert (requests_fresh net self) as Hfresh.
  { apply (rtc_ind_r (R := transport_step) (λ st, requests_fresh st.1 st.2)
      (mk_net outcomes [] [], default_playback)) with (z := (net, self)); [| |exact Hr].
    - by split.
    - intros [n1 s1] [n2 s2] _ Hstep. by apply transport_step_fresh. }
  apply (rf_increasing _ _ Hfresh i j r s r' s' Hij Hi Hj). unfold request_key. by rewrite Es, Ec.
Qed.
End props.

(** * The playback transport: completion, time-outs and their limits

    With a working socket and a device that acknowledges, a transfer delivers its whole
    clip; with a silent device it is cancelled after the retry budget; and while
    sending itself fails the budget is never spent. *)

Section progress.
Context `{Crypto}.
Implicit Types (t : ActivePlaybackTransfer) (net : Net) (self : ActiveLanPlayback).

(** ** Completion *)

Lemma carries_range_ext t t' key lo hi new :
  tr_begin t' = tr_begin t → tr_source t' = tr_source t → tr_eiad t' = tr_eiad t →
  carries_range t' key lo hi new → carries_range t key lo hi new.
Proof.
  intros Eb Es Ee. induction 1 as [|lo n hi p new [Hp Hs] Hn _ IH]; [constructor|].
  econstructor; [|exact Hn|exact IH]. split; [by rewrite <- Eb, <- Ee|by rewrite <- Es].
Qed.

Lemma carries_range_app t key lo mid hi new new' :
  carries_range t key lo mid new → carries_range t key mid hi new' →
  carries_range t key lo hi (new ++ new').
Proof.
  induction 1 as [|lo n mid p new Hp Hn _ IH]; [done|]. intros Hnew'.
  econstructor; [exact Hp|exact Hn|by apply IH].
Qed.

(** The device acknowledges whatever has been sent, one window at a time. *)
Definition ack_of (t : ActivePlaybackTransfer) : PlaybackAck :=
  mk_ack (bg_identity (tr_begin t)) 0 (Z.of_nat (tr_sent_end_offset t)).

Fixpoint ack_rounds (n : nat) (key : bytes) (now : Z) net self : Net * ActiveLanPlayback :=
  match n, lp_transfer self with
  | S n, Some t =>
      let '(net, self) := accept_ack (ack_of t) (tr_source t) key now net self in
      ack_rounds n key now net self
  | _, _ => (net, self)
  end.

Lemma continue_all t key now net self :
  sendable t → (tr_acknowledged_offset t ≤ length (tr_eiad t))%nat → net_outcomes net = [] →
  ∃ new net' t', continue_transfer t key now net self = (net', set_transfer (Some t') self)
    ∧ extends net net' new ∧ net_outcomes net' = []
    ∧ carries_range t key (tr_acknowledged_offset t) (tr_sent_end_offset t') new
    ∧ tr_begin t' = tr_begin t ∧ tr_source t' = tr_source t ∧ tr_eiad t' = tr_eiad t
    ∧ tr_phase t' = DataAck ∧ tr_acknowledged_offset t' = tr_acknowledged_offset t
    ∧ tr_sent_end_offset t' = Nat.min (tr_acknowledged_offset t + window) (length (tr_eiad t)).
Proof.
  intros Hs Hack Hout. unfold continue_transfer, send_next_data. fold window.
  set (end_ := Nat.min (tr_acknowledged_offset t + window) (length (tr_eiad t))).
  destruct (send_range_all (end_ - tr_acknowledged_offset t) t (tr_acknowledged_offset t) end_ key net Hs)
    as (new & net' & E & He & Ho & Hc); [unfold end_; lia..|done|].
  rewrite E. do 3 eexists. split; [reflexivity|]. cbn. by repeat split; try apply He.
Qed.

(** One round in the data phase. *)
Lemma ack_data_round t key now net self :
  lp_transfer self = Some t → tr_phase t = DataAck →
  (tr_acknowledged_offset t < tr_sent_end_offset t)%nat →
  accept_ack (ack_of t) (tr_source t) key now net self
  = let t1 := acknowledge (tr_sent_end_offset t) 0 t in
    if (tr_sent_end_offset t =? length (tr_eiad t))%nat
    then (net, set_transfer (Some (in_phase DeviceFinished (now + PLAYBACK_FINISH_TIMEOUT) t1)) self)
    else continue_transfer t1 key now net self.
Proof.
  intros Ht Hp Hlt. unfold accept_ack, ack_of. rewrite Ht, Hp. cbn [ak_status ak_identity ak_next_offset].
  rewrite !bool_decide_eq_true_2 by done. cbn [negb orb]. rewrite Nat2Z.id.
  change (0 =? 1) with false. change (0 =? 0) with true. cbn [andb negb].
  rewrite (proj2 (Nat.ltb_lt _ _)) by done. rewrite Nat.leb_refl. cbn [andb acknowledge tr_sent_end_offset].
  by rewrite Nat.eqb_refl.
Qed.

Lemma data_rounds n t key now net self :
  (length (tr_eiad t) - tr_sent_end_offset t ≤ n)%nat →
  lp_transfer self = Some t → tr_phase t = DataAck → sendable t →
  (tr_acknowledged_offset t < tr_sent_end_offset t ≤ length (tr_eiad t))%nat → net_outcomes net = [] →
  ∃ k new net' self' t',
    ack_rounds k key now net self = (net', self') ∧ lp_transfer self' = Some t'
    ∧ tr_phase t' = DeviceFinished ∧ tr_acknowledged_offset t' = length (tr_eiad t)
    ∧ extends net net' new ∧ carries_range t key (tr_sent_end_offset t) (length (tr_eiad t)) new
    ∧ Z.of_nat k * 6144 ≤ Z.of_nat (length (tr_eiad t) - tr_sent_end_offset t) + 2 * 6144 - 1.
Proof.
  pose proof window_value as Hw. revert t net self.
  induction n as [n IH] using lt_wf_ind. intros t net self Hn Ht Hp Hs Hoff Hout.
  pose proof (ack_data_round t key now net self Ht Hp ltac:(lia)) as E. cbv zeta in E.
  destruct (Nat.eqb_spec (tr_sent_end_offset t) (length (tr_eiad t))) as [Hend|Hmore].
  - exists 1%nat, [], net. do 2 eexists. cbn [ack_rounds]. rewrite Ht, E.
    split; [reflexivity|]. split; [reflexivity|]. cbn. rewrite Hend.
    split; [done|]. split; [done|]. split; [apply extends_refl|]. split; [constructor|lia].
  - destruct (continue_all (acknowledge (tr_sent_end_offset t) 0 t) key now net self)
      as (new & net1 & t1 & Ec & He & Ho & Hc & Eb & Es & Ee & Hp1 & Ha1 & Hend1);
      [exact Hs|cbn; lia|done|].
    cbn [acknowledge tr_acknowledged_offset tr_eiad tr_begin tr_source] in *.
    destruct (IH (length (tr_eiad t1) - tr_sent_end_offset t1)%nat) with
      (t := t1) (net := net1) (self := set_transfer (Some t1) self)
      as (k & new' & net' & self' & t' & Er & Ht' & Hp' & Ha' & He' & Hc' & Hk); try done.
    { rewrite Ee. lia. }
    { unfold sendable in *. by rewrite Eb, Ee. }
    { rewrite Ha1, Ee. lia. }
    exists (S k), (new ++ new'), net', self', t'. cbn [ack_rounds]. rewrite Ht, E, Ec.
    split; [exact Er|]. split; [exact Ht'|]. split; [exact Hp'|]. split; [by rewrite <- Ee|].
    split; [by eapply extends_trans|]. split.
    + eapply carries_range_app; [eapply (carries_range_ext t); [..|exact Hc]; done|]. rewrite Ee in Hc'.
      by eapply (carries_range_ext t t1).
    + rewrite Ee in Hk. lia.
Qed.

(** C19 A transfer completes: with a working socket, a device that acknowledges every
    window drives it from EIPB to [DeviceFinished] within two rounds more than the clip
    has windows, reporting nothing; and the datagrams sent, decrypted by the device in
    order, are exactly the clip, chunk after chunk. *)
Theorem transfer_completes t key now net self :
  lp_transfer self = Some t → transfer_ok t → sendable t → tr_phase t = BeginAck →
  net_outcomes net = [] →
  ∃ k new net' self' t',
    ack_rounds k key now net self = (net', self') ∧ lp_transfer self' = Some t'
    ∧ tr_phase t' = DeviceFinished ∧ tr_acknowledged_offset t' = length (tr_eiad t)
    ∧ net_sent net' = net_sent net ++ new ∧ net_events net' = net_events net
    ∧ carries_range t key 0 (length (tr_eiad t)) new
    ∧ Z.of_nat k ≤ Z.of_nat (length (tr_eiad t)) / (6 * 1024) + 2.
Proof.
  intros Ht Hok Hs Hp Hout. pose proof window_value as Hw.
  pose proof (to_nonempty _ Hok) as Hne. pose proof (to_phase _ Hok) as Hph. rewrite Hp in Hph.
  destruct (continue_all (acknowledge 0 0 t) key now net self)
    as (new & net1 & t1 & Ec & [He1 He2] & Ho & Hc & Eb & Es & Ee & Hp1 & Ha1 & Hend1);
    [exact Hs|cbn; lia|done|].
  cbn [acknowledge tr_acknowledged_offset tr_eiad tr_begin tr_source] in *.
  assert (accept_ack (ack_of t) (tr_source t) key now net self = (net1, set_transfer (Some t1) self)) as E.
  { rewrite <- Ec. unfold accept_ack, ack_of. rewrite Ht, Hp, Hph. cbn [ak_status ak_identity ak_next_offset].
    rewrite !bool_decide_eq_true_2 by done. done. }
  destruct (data_rounds _ t1 key now net1 (set_transfer (Some t1) self) (le_n _))
    as (k & new' & net' & self' & t' & Er & Ht' & Hp' & Ha' & [He1' He2'] & Hc' & Hk); try done.
  { unfold sendable in *. by rewrite Eb, Ee. }
  { rewrite Ha1, Ee, Hend1. lia. }
  exists (S k), (new ++ new'), net', self', t'. cbn [ack_rounds]. rewrite Ht, E.
  rewrite Ee in *. split; [exact Er|]. split; [exact Ht'|]. split; [exact Hp'|]. split; [exact Ha'|].
  split; [by rewrite He1', He1, app_assoc|]. split; [by rewrite He2'|]. split.
  - eapply carries_range_app; [eapply (carries_range_ext t); [..|exact Hc]; done|]. by eapply (carries_range_ext t t1).
  - rewrite Hend1 in Hk. change (6 * 1024) with 6144. div_lia.
Qed.

(** ** A silent device *)

Fixpoint ticks (key : option bytes) (times : list Z) net self : Net * ActiveLanPlayback :=
  match times with
  | [] => (net, self)
  | now :: times => let '(net, self) := tick key now net self in ticks key times net self
  end.

(** Clock readings at least a retry interval apart. *)
Fixpoint spaced (last : Z) (times : list Z) : Prop :=
  match times with
  | [] => True
  | now :: times => last + PLAYBACK_RETRY ≤ now ∧ spaced now times
  end.

(** Something is still to be sent: EIPB, or a window that is not acknowledged. *)
Definition unacknowledged t : Prop :=
  (tr_acknowledged_offset t ≤ tr_sent_end_offset t ≤ length (tr_eiad t))%nat
  ∧ (tr_phase t = BeginAck
     ∨ tr_phase t = DataAck ∧ (tr_acknowledged_offset t < tr_sent_end_offset t)%nat).

Lemma retransmit_all t key net :
  sendable t → unacknowledged t → net_outcomes net = [] →
  ∃ net', retransmit t key net = (Some true, net') ∧ net_outcomes net' = []
    ∧ net_events net' = net_events net.
Proof.
  intros Hs [Hoff Hph] Hout. unfold retransmit. destruct Hph as [->|[-> Hlt]].
  - unfold send_to. rewrite Hout. cbn. by eexists.
  - destruct (send_range_all (tr_sent_end_offset t - tr_acknowledged_offset t) t
      (tr_acknowledged_offset t) (tr_sent_end_offset t) key net Hs)
      as (new & net' & -> & [_ He] & Ho & _); [lia..|done|]. by exists net'.
Qed.

(** The state [tick] works on. *)
Definition swept (now : Z) self : ActiveLanPlayback :=
  set_retired_cancel (expired (lp_retired_cancel self) now)
    (set_retired_finish (expired (lp_retired_finish self) now) self).

Definition retried (now : Z) t : ActivePlaybackTransfer :=
  mk_transfer (tr_begin t) (tr_source t) (tr_eiad t) (tr_phase t) (tr_acknowledged_offset t)
    (tr_sent_end_offset t) now (tr_retry_count t + 1) (tr_finish_deadline t).

Lemma tick_pending key now net self t :
  lp_transfer self = Some t → unacknowledged t →
  tick (Some key) now net self
  = if Z.max 0 (now - tr_last_send t) <? PLAYBACK_RETRY then (net, swept now self)
    else if PLAYBACK_MAX_RETRIES <=? tr_retry_count t
    then (emit (EvCancelled (bg_identity (tr_begin t))) net, set_transfer None (swept now self))
    else match retransmit t key net with
         | (Some true, net) => (net, set_transfer (Some (retried now t)) (swept now self))
         | (_, net) => (net, swept now self)
         end.
Proof.
  intros Ht [_ Hph]. unfold tick.
  change (lp_transfer (set_retired_cancel _ _)) with (lp_transfer self). rewrite Ht.
  assert (bool_decide (tr_phase t = DeviceFinished) || bool_decide (tr_phase t = HostCommit) = false) as ->.
  { by destruct Hph as [->|[-> _]]. }
  done.
Qed.

Lemma ticks_idle key times net self :
  lp_transfer self = None → ∃ self', ticks key times net self = (net, self') ∧ lp_transfer self' = None.
Proof.
  revert self. induction times as [|now times IH]; intros self Ht; cbn [ticks]; [by exists self|].
  unfold tick. change (lp_transfer (set_retired_cancel _ _)) with (lp_transfer self). rewrite Ht.
  apply IH. exact Ht.
Qed.

(** A silent device: when sends work and nothing is acknowledged, the transfer (in its
    begin or data phase) is cancelled once its retry budget is spent: after
    [17 - retry_count] ticks a retry interval apart it is gone, and exactly one
    cancellation has been reported. *)
Theorem silent_device_cancelled key times net self t :
  lp_transfer self = Some t → sendable t → unacknowledged t → net_outcomes net = [] →
  spaced (tr_last_send t) times → 0 ≤ tr_retry_count t ≤ 16 →
  16 - tr_retry_count t < Z.of_nat (length times) →
  ∃ net' self', ticks (Some key) times net self = (net', self') ∧ lp_transfer self' = None
    ∧ net_events net' = net_events net ++ [EvCancelled (bg_identity (tr_begin t))].
Proof.
  revert net self t. induction times as [|now times IH]; intros net self t Ht Hs Hp Hout Hsp Hr Hl;
    [simpl in Hl; lia|].
  destruct Hsp as [Hnow Hsp]. cbn [ticks]. rewrite (tick_pending key now net self t Ht Hp).
  rewrite (proj2 (Z.ltb_ge _ _)) by lia. unfold PLAYBACK_MAX_RETRIES.
  destruct (Z.leb_spec 16 (tr_retry_count t)).
  - destruct (ticks_idle (Some key) times (emit (EvCancelled (bg_identity (tr_begin t))) net)
      (set_transfer None (swept now self)) eq_refl) as (self' & -> & Hnone).
    by do 2 eexists.
  - destruct (retransmit_all t key net Hs Hp Hout) as (net1 & -> & Ho1 & He1).
    destruct (IH net1 (set_transfer (Some (retried now t)) (swept now self)) (retried now t) eq_refl)
      as (net' & self' & E & Hnone & He); try done.
    + cbn. lia.
    + cbn. simpl length in Hl. lia.
    + exists net', self'. split; [exact E|]. split; [done|]. by rewrite He, He1.
Qed.

(** ** A dead socket *)

Lemma retransmit_dead t key net outcomes :
  sendable t → unacknowledged t → net_outcomes net = false :: outcomes →
  ∃ out net', retransmit t key net = (out, net') ∧ out ≠ Some true
    ∧ net_outcomes net' = outcomes ∧ net_events net' = net_events net ∧ net_sent net' = net_sent net.
Proof.
  intros (Hid & Hnonce & Hlen) [Hoff Hph] Hout. unfold retransmit. destruct Hph as [->|[-> Hlt]].
  - unfold send_to. rewrite Hout. cbn. by do 2 eexists.
  - pose proof chunk_value as Hcv.
    destruct (tr_sent_end_offset t - tr_acknowledged_offset t)%nat as [|fuel] eqn:Hf; [lia|].
    cbn [send_range]. rewrite (proj2 (Nat.ltb_lt _ _)) by done.
    set (ce := Nat.min (tr_acknowledged_offset t + PLAYBACK_CHUNK_BYTES) (tr_sent_end_offset t)).
    destruct (decode_data_encode (bg_identity (tr_begin t)) (bg_request_nonce (tr_begin t))
      (Z.of_nat (tr_acknowledged_offset t))
      (slice (tr_acknowledged_offset t) (ce - tr_acknowledged_offset t) (tr_eiad t)) key Hid Hnonce)
      as (p & -> & _).
    { unfold in_u32, u32_max in *. lia. }
    { rewrite length_chunk; unfold ce; lia. }
    unfold send_to. rewrite Hout. cbn. by do 2 eexists.
Qed.

(** A dead socket: while [send_to] fails, ticks neither count retries nor give up.  However
    long it lasts, the transfer stays as it is, nothing is sent and nothing is reported,
    so the transport remains busy and the lease is not returned until another request,
    a command or a working socket intervenes. *)
Theorem failing_sends_never_time_out key times net self t :
  lp_transfer self = Some t → sendable t → unacknowledged t → tr_retry_count t < PLAYBACK_MAX_RETRIES →
  Forall (eq false) (net_outcomes net) → (length times ≤ length (net_outcomes net))%nat →
  ∃ net' self', ticks (Some key) times net self = (net', self') ∧ lp_transfer self' = Some t
    ∧ net_sent net' = net_sent net ∧ net_events net' = net_events net.
Proof.
  revert net self. induction times as [|now times IH]; intros net self Ht Hs Hp Hr Hout Hl.
  { by exists net, self. }
  cbn [ticks]. rewrite (tick_pending key now net self t Ht Hp). simpl length in Hl.
  destruct (_ <? PLAYBACK_RETRY); [apply IH; [exact Ht|done..|lia]|].
  rewrite (proj2 (Z.leb_gt _ _)) by done.
  destruct (net_outcomes net) as [|o outcomes] eqn:Eo; [simpl in Hl; lia|].
  apply Forall_cons in Hout as [<- Hrest]. simpl in Hl.
  destruct (retransmit_dead t key net outcomes Hs Hp Eo) as (out & net1 & -> & Hne & Eo1 & Ee1 & Es1).
  destruct (IH net1 (swept now self)) as (net' & self' & E & Ht' & Es' & Ee'); try done.
  { by rewrite Eo1. }
  { rewrite Eo1. lia. }
  assert (match out with
          | Some true => (net1, set_transfer (Some (retried now t)) (swept now self))
          | _ => (net1, swept now self) end = (net1, swept now self)) as -> by by destruct out as [[]|].
  exists net', self'. split; [exact E|]. split; [done|]. by rewrite Es', Es1, Ee', Ee1.
Qed.
End progress.
