(* ===== verification/Ingress.v ===== *)
(** * The LAN ingress loop (app/host/src/lan_voice.rs, [LanVoiceIngress::start])

    One iteration of the "eci-lan-voice" thread: drain the commands, reload the device
    secret when none is loaded, dispatch at most one datagram by its magic, hand over the
    finished captures, expire the idle ones, run the transport's timers.  The device
    secret file and [recv_from] are arguments; the diagnostics counters are left out. *)

From stdpp Require Import gmap.
From S2P Require Import Prelude Bytes PlaybackWire Capture CaptureInv CaptureProps.
From S2P Require Import Transport TransportInv TransportProps.

Definition AUTH_RELOAD_INTERVAL : Z := 250.

Record Ingress := mk_ingress {
  ig_assembler : CaptureAssembler;
  ig_playback : ActiveLanPlayback;
  ig_next_auth_reload : Z;
}.

Section ingress.
Context `{Crypto}.

Definition start_ingress (auth_key : option bytes) (now : Z) : Ingress :=
  mk_ingress (new auth_key) default_playback now.

(** [while let Ok(command) = playback_command_receiver.try_recv()] *)
Fixpoint drain_commands (commands : list LanPlaybackCommand) (key : option bytes) (now : Z)
    (net : Net) (playback : ActiveLanPlayback) : Net * ActiveLanPlayback :=
  match commands with
  | [] => (net, playback)
  | c :: commands =>
      let '(net, playback) := handle_command c key now net playback in
      drain_commands commands key now net playback
  end.

Definition reload_key (secret : option bytes) (now : Z) (self : Ingress) : Ingress :=
  match as_auth_key (ig_assembler self) with
  | Some _ => self
  | None =>
      if ig_next_auth_reload self <=? now then
        mk_ingress
          match secret with
          | Some key => set_key key (ig_assembler self)
          | None => ig_assembler self
          end
          (ig_playback self) (now + AUTH_RELOAD_INTERVAL)
      else self
  end.

Definition dispatch (packet : bytes) (source : SocketAddr) (now : Z) (net : Net)
    (self : Ingress) : Net * Ingress :=
  if starts_with (ascii_bytes "EIHB") packet then
    match as_auth_key (ig_assembler self) with
    | Some key => ((handle_heartbeat packet source key net (ig_playback self)).2, self)
    | None => (net, self)
    end
  else if (4 <=? length packet)%nat && bool_decide (take 3 packet = ascii_bytes "EIP") then
    match as_auth_key (ig_assembler self) with
    | Some key =>
        let '(net, playback) := ingest_playback packet source key now net (ig_playback self) in
        (net, mk_ingress (ig_assembler self) playback (ig_next_auth_reload self))
    | None => (net, self)
    end
  else
    (net, mk_ingress (ingest packet source now (ig_assembler self)).2 (ig_playback self)
            (ig_next_auth_reload self)).

(** The captures handed to the transcriber, the network, the next state. *)
Definition ingress_iteration (commands : list LanPlaybackCommand) (secret : option bytes)
    (received : option (bytes * SocketAddr)) (now : Z) (net : Net) (self : Ingress)
    : list (result LanVoiceError CompletedCapture) * Net * Ingress :=
  let '(net, playback) :=
    drain_commands commands (as_auth_key (ig_assembler self)) now net (ig_playback self) in
  let self := mk_ingress (ig_assembler self) playback (ig_next_auth_reload self) in
  let self := reload_key secret now self in
  let '(net, self) :=
    match received with
    | Some (packet, source) => dispatch packet source now net self
    | None => (net, self)
    end in
  let '(captures, assembler) := take_ready (ig_assembler self) in
  let '(_, assembler) := expire_incomplete now assembler in
  let '(net, playback) := tick (as_auth_key assembler) now net (ig_playback self) in
  (captures, net, mk_ingress assembler playback (ig_next_auth_reload self)).

(** ** Invariants of the loop *)

Definition ingress_ok (log : list (option bytes * bytes)) (self : Ingress) : Prop :=
  assembler_inv (authentic log) (ig_assembler self) ∧ transport_ok (ig_playback self).

Lemma drain_commands_ok commands key now net playback net' playback' :
  transport_ok playback → drain_commands commands key now net playback = (net', playback') →
  transport_ok playback'.
Proof.
  revert net playback. induction commands as [|c commands IH]; intros net playback Hok E;
    cbn [drain_commands] in E; [by injection E as _ <-|].
  destruct (handle_command c key now net playback) as [net1 playback1] eqn:Ec.
  eapply IH; [|exact E]. by eapply handle_command_ok.
Qed.

(** A packet without the device's tag. *)
Definition untagged (key : option bytes) (packet : bytes) : Prop :=
  match key with
  | None => True
  | Some key =>
      drop (length packet - 16) packet ≠ take 16 (hmac_sha256 key (take (length packet - 16) packet))
      ∧ drop (length packet - 16) packet
        ≠ take 16 (hmac_sha256 key (HEARTBEAT_AUTH_CONTEXT ++ take (length packet - 16) packet))
  end.

Lemma verify_untagged packet key : untagged (Some key) packet → verify packet key ≠ Ok tt.
Proof.
  intros [Hu _]. unfold verify, PLAYBACK_TAG_BYTES. destruct (Nat.ltb_spec (length packet) 16); [done|].
  rewrite bool_decide_eq_false_2; [done|]. rewrite length_drop.
  replace (length packet - (length packet - 16))%nat with 16%nat by lia. by intros E.
Qed.

Lemma verify_fixed_untagged packet len magic key u :
  untagged (Some key) packet → verify_fixed packet len magic key ≠ Ok u.
Proof.
  intros Hu. unfold verify_fixed. destruct (_ || _); [done|].
  intros E. destruct u. by apply (verify_untagged packet key).
Qed.

Lemma audio_untagged packet key : untagged key packet → verify_audio_authentication packet key ≠ Ok tt.
Proof.
  intros Hu Hv. apply verify_audio_ok in Hv as (k & -> & _ & E). destruct Hu as [Hu _]. by apply Hu.
Qed.

Lemma bind_not_ok {A B} (m : result PlaybackWireError A) (k : A → result PlaybackWireError B) b :
  (∀ a, m ≠ Ok a) → rbind m k ≠ Ok b.
Proof. intros Hm. destruct m as [a|]; [by destruct (Hm a)|done]. Qed.

(** Only the paired device is heard: a datagram whose last 16 bytes are not the HMAC tag
    of the rest (plain, or in the heartbeat's context), or any datagram while no key is
    loaded, changes neither the captures nor the playback, sends nothing and reports
    nothing. *)
Theorem unauthenticated_datagram_ignored packet source now net self :
  untagged (as_auth_key (ig_assembler self)) packet →
  dispatch packet source now net self = (net, self).
Proof.
  intros Hu. destruct self as [a p n]. unfold dispatch. cbn [ig_assembler ig_playback ig_next_auth_reload] in *.
  destruct (starts_with (ascii_bytes "EIHB") packet).
  { destruct (as_auth_key a) as [key|]; [|done]. f_equal. destruct Hu as [_ Hu]. unfold handle_heartbeat.
    destruct (heartbeat_shape packet) eqn:Hs; [|done]. cbn [negb].
    assert (length packet = 80%nat) as Hl.
    { unfold heartbeat_shape in Hs. rewrite !andb_true_iff in Hs. by apply Nat.eqb_eq, Hs. }
    rewrite Hl in Hu. change (80 - 16)%nat with 64%nat in Hu.
    destruct (Z.eqb_spec (tag_mismatch (take 16 (hmac_sha256 key (HEARTBEAT_AUTH_CONTEXT ++ take 64 packet)))
      (slice 64 16 packet)) 0) as [E|]; [|done].
    destruct Hu. symmetry. apply (tag_mismatch_zero 0) in E as [_ E].
    - rewrite E. unfold slice. apply take_ge. rewrite length_drop. lia.
    - rewrite length_take, hmac_length, length_slice. lia. }
  destruct (_ && _).
  { destruct (as_auth_key a) as [key|]; [|done]. unfold ingest_playback.
    assert (∀ len magic v, verify_fixed packet len magic key ≠ Ok v) as Hv.
    { intros len magic v. by apply verify_fixed_untagged. }
    destruct (starts_with (ascii_bytes "EIPR") packet).
    { destruct (decode_request packet key) as [r|] eqn:E; [|done].
      by apply bind_not_ok in E. }
    destruct (starts_with (ascii_bytes "EIPA") packet).
    { destruct (decode_ack packet key) as [r|] eqn:E; [|done]. by apply bind_not_ok in E. }
    destruct (starts_with (ascii_bytes "EIPF") packet); [|done].
    destruct (decode_finished packet key) as [r|] eqn:E; [|done]. by apply bind_not_ok in E. }
  f_equal. f_equal. pose proof (audio_untagged packet (as_auth_key a) Hu) as Hv.
  unfold ingest, ingest_end.
  destruct (starts_with (ascii_bytes "EIAE") packet).
  - destruct (parse_audio_end packet (as_auth_key a)) as [t|] eqn:E; [|done].
    unfold parse_audio_end in E. destruct (_ || _) in E; [done|].
    apply rbind_ok in E as ([] & E & _). by destruct Hv.
  - destruct (parse_audio_frame packet (as_auth_key a)) as [f|e] eqn:E; [|by destruct (_ && _)].
    unfold parse_audio_frame in E. destruct (_ || _) in E; [done|].
    apply rbind_ok in E as ([] & E & _). by destruct Hv.
Qed.

(** The datagram an iteration heard, with the key it was checked against. *)
Definition heard (secret : option bytes) (received : option (bytes * SocketAddr)) (now : Z)
    (self : Ingress) : list (option bytes * bytes) :=
  match received with
  | Some (packet, _) => [(as_auth_key (ig_assembler (reload_key secret now self)), packet)]
  | None => []
  end.

Lemma authentic_app log log' s i p : authentic log s i p → authentic (log ++ log') s i p.
Proof.
  intros (k & d & Hin & Hrest). exists k, d. split; [|done]. apply elem_of_app. by left.
Qed.

Lemma reload_key_ok log secret now self :
  ingress_ok log self → ingress_ok log (reload_key secret now self).
Proof.
  intros [Ha Hp]. unfold reload_key. destruct (as_auth_key (ig_assembler self)); [done|].
  destruct (_ <=? now); [|done]. split; [|done]. destruct secret; [by destruct Ha|done].
Qed.

Lemma dispatch_ok log packet source now net self net' self' :
  ingress_ok log self → bytes_ok packet → dispatch packet source now net self = (net', self') →
  ingress_ok (log ++ [(as_auth_key (ig_assembler self), packet)]) self'.
Proof.
  intros [Ha Hp] Hb E.
  assert (assembler_inv (authentic (log ++ [(as_auth_key (ig_assembler self), packet)])) (ig_assembler self)) as Ha'.
  { eapply assembler_inv_mono; [|exact Ha]. intros. by apply authentic_app. }
  unfold dispatch in E. destruct (starts_with (ascii_bytes "EIHB") packet).
  { destruct (as_auth_key (ig_assembler self)); by injection E as _ <-. }
  destruct (_ && _).
  { destruct (as_auth_key (ig_assembler self)) as [key|]; [|by injection E as _ <-].
    destruct (ingest_playback packet source key now net (ig_playback self)) as [net1 playback1] eqn:Ei.
    injection E as _ <-. split; [exact Ha'|]. by eapply ingest_playback_ok. }
  injection E as _ <-. split; [|exact Hp]. cbn [ig_assembler].
  apply (capture_step_inv log (ig_assembler self)); [|exact Ha]. by apply capture_ingest.
Qed.

(** C20 One iteration of the ingress loop, whatever it is given: the captures' and the
    transport's invariants are kept, nothing finished is left behind in the assembler,
    and every capture handed to the transcriber is a short-capture error or assembled
    from authenticated frames heard so far. *)
Theorem ingress_iteration_invariant log commands secret received now net self captures net' self' :
  ingress_ok log self →
  (∀ packet source, received = Some (packet, source) → bytes_ok packet) →
  ingress_iteration commands secret received now net self = (captures, net', self') →
  ingress_ok (log ++ heard secret received now self) self'
  ∧ Forall (ready_ok (authentic (log ++ heard secret received now self))) captures
  ∧ as_ready (ig_assembler self') = [].
Proof.
  intros [Ha Hp] Hb E. unfold ingress_iteration in E.
  destruct (drain_commands commands _ now net (ig_playback self)) as [net1 playback1] eqn:Ed.
  set (self1 := mk_ingress _ _ _) in E.
  assert (ingress_ok log self1) as H1 by (split; [done|by eapply drain_commands_ok]).
  apply (reload_key_ok log secret now) in H1. set (self2 := reload_key secret now self1) in *.
  assert (as_auth_key (ig_assembler self2)
          = as_auth_key (ig_assembler (reload_key secret now self))) as Hkey.
  { unfold self2, reload_key, self1. cbn [ig_assembler ig_next_auth_reload].
    destruct (as_auth_key (ig_assembler self)) eqn:Ek; [by rewrite Ek|].
    by destruct (ig_next_auth_reload self <=? now). }
  set (log' := log ++ heard secret received now self).
  destruct (match received with Some (packet, source) => dispatch packet source now net1 self2
            | None => (net1, self2) end) as [net3 self3] eqn:Er.
  assert (ingress_ok log' self3) as [Ha3 Hp3].
  { unfold log', heard. destruct received as [[packet source]|].
    - rewrite <- Hkey. eapply dispatch_ok; [exact H1|by eapply Hb|exact Er].
    - injection Er as _ <-. by rewrite app_nil_r. }
  cbn [take_ready] in E.
  pose proof (take_ready_inv _ _ Ha3) as Ht. cbn [take_ready snd] in Ht.
  set (a4 := mk_assembler _ _ [] _) in *.
  pose proof (expire_inv _ now _ Ht) as Hx. pose proof (expire_ready now a4) as Hxr.
  destruct (expire_incomplete now a4) as [errors a5]. cbn [snd] in *.
  destruct (tick (as_auth_key a5) now net3 (ig_playback self3)) as [net6 playback6] eqn:Etick.
  injection E as <- _ <-. split; [split; [exact Hx|by eapply tick_ok]|].
  split; [exact (ai_ready _ _ Ha3)|]. exact Hxr.
Qed.
End ingress.

(** * Witnesses for the transport and the ingress loop

    A clip of 1500 bytes (two chunks) is announced to a device at a concrete address;
    [demo_crypto] stands for HMAC and AES. *)

Section demo.
#[local] Existing Instance demo_crypto.

Definition demo_playback_identity : PlaybackIdentity := mk_identity 2 1 1 1 9.
Definition demo_clip : bytes := replicate 1500 7.
Definition demo_begin : PlaybackBegin := mk_begin demo_playback_identity 1500 2880 1024 12.
Definition demo_start : LanPlaybackCommand := Start (mk_start demo_begin demo_source demo_clip).
Definition demo_empty_net : Net := mk_net [] [] [].

Definition demo_started : Net * ActiveLanPlayback :=
  handle_command demo_start (Some demo_key) 0 demo_empty_net default_playback.
Definition demo_transfer : ActivePlaybackTransfer :=
  mk_transfer demo_begin demo_source demo_clip BeginAck 0 0 0 0 180000.

Lemma demo_started_transfer : lp_transfer demo_started.2 = Some demo_transfer.
Proof. vm_compute. reflexivity. Qed.

Lemma demo_started_outcomes : net_outcomes demo_started.1 = [].
Proof. vm_compute. reflexivity. Qed.

Lemma demo_started_reachable : transport_reachable demo_started.1 demo_started.2.
Proof.
  exists []. apply rtc_once. rewrite <- surjective_pairing.
  exact (transport_command _ _ demo_start (Some demo_key) 0).
Qed.

Lemma demo_sendable : sendable demo_transfer.
Proof.
  split; [|split; [reflexivity|vm_compute; discriminate]].
  repeat split; vm_compute; congruence.
Qed.

Lemma demo_transfer_ok : transfer_ok demo_transfer.
Proof.
  pose proof (transport_reachable_ok _ _ demo_started_reachable) as Hok.
  unfold transport_ok in Hok. by rewrite demo_started_transfer in Hok.
Qed.

Lemma demo_pending : unacknowledged demo_transfer.
Proof. split; [apply demo_transfer_ok|by left]. Qed.

Lemma transport_safety_witness :
  ∃ new, net_sent (tick (Some demo_key) 300 demo_started.1 demo_started.2).1
         = net_sent demo_started.1 ++ new ∧ (length new ≤ 6)%nat.
Proof.
  destruct (tick (Some demo_key) 300 demo_started.1 demo_started.2) as [net' self'] eqn:E.
  destruct (transport_safety demo_started.1 demo_started.2 net' self' demo_started_reachable)
    as [(new & evs & En & _ & Hl & _) _].
  - rewrite <- E. exact (transport_tick _ _ (Some demo_key) 300).
  - exists new. split; [exact En|exact Hl].
Defined.

Definition demo_request (generation : Z) : PlaybackRequest := mk_request 2 generation 1 77.
Definition demo_requested (generation : Z) (st : Net * ActiveLanPlayback) : Net * ActiveLanPlayback :=
  ingest_playback (encode_request (demo_request generation) demo_key) demo_source demo_key 0 st.1 st.2.
Definition demo_twice : Net * ActiveLanPlayback :=
  demo_requested 4 (demo_requested 3 (demo_empty_net, default_playback)).

Lemma demo_twice_reachable : transport_reachable demo_twice.1 demo_twice.2.
Proof.
  exists []. rewrite <- surjective_pairing.
  apply (rtc_l _ _ (demo_requested 3 (demo_empty_net, default_playback))).
  - exact (transport_packet _ _ (encode_request (demo_request 3) demo_key) demo_source demo_key 0).
  - apply rtc_once. unfold demo_twice.
    destruct (demo_requested 3 (demo_empty_net, default_playback)) as [net self].
    exact (transport_packet net self (encode_request (demo_request 4) demo_key) demo_source demo_key 0).
Qed.

Lemma playback_request_honoured_once_witness :
  net_events demo_twice.1
  = [EvRequest (demo_request 3) demo_source; EvRequest (demo_request 4) demo_source]
  ∧ rq_request_generation (demo_request 3) < rq_request_generation (demo_request 4).
Proof.
  assert (net_events demo_twice.1 = [EvRequest (demo_request 3) demo_source;
    EvRequest (demo_request 4) demo_source]) as E by (vm_compute; reflexivity).
  split; [exact E|].
  apply (playback_request_honoured_once demo_twice.1 demo_twice.2 0 1
    (demo_request 3) demo_source (demo_request 4) demo_source demo_twice_reachable).
  - apply le_n.
  - rewrite E. reflexivity.
  - rewrite E. reflexivity.
  - reflexivity.
  - reflexivity.
Defined.

Lemma transfer_completes_witness :
  ∃ k net' self' t', ack_rounds k demo_key 100 demo_started.1 demo_started.2 = (net', self')
    ∧ lp_transfer self' = Some t' ∧ tr_phase t' = DeviceFinished.
Proof.
  destruct (transfer_completes demo_transfer demo_key 100 demo_started.1 demo_started.2
    demo_started_transfer demo_transfer_ok demo_sendable eq_refl demo_started_outcomes)
    as (k & new & net' & self' & t' & E & Ht & Hp & _).
  exists k, net', self', t'. split; [exact E|]. split; [exact Ht|exact Hp].
Defined.

Definition demo_times : list Z := (λ i, 250 * Z.of_nat i) <$> seq 1 17.

Lemma silent_device_cancelled_witness :
  ∃ net' self', ticks (Some demo_key) demo_times demo_started.1 demo_started.2 = (net', self')
    ∧ lp_transfer self' = None
    ∧ net_events net' = [EvCancelled demo_playback_identity].
Proof.
  destruct (silent_device_cancelled demo_key demo_times demo_started.1 demo_started.2 demo_transfer
    demo_started_transfer demo_sendable demo_pending demo_started_outcomes)
    as (net' & self' & E & Ht & He).
  - vm_compute. repeat split; discriminate.
  - split; vm_compute; discriminate.
  - vm_compute. reflexivity.
  - exists net', self'. split; [exact E|]. split; [exact Ht|]. exact He.
Defined.

Definition demo_dead_net : Net := mk_net [false; false; false] [] [].
Definition demo_stuck : ActiveLanPlayback := set_transfer (Some demo_transfer) default_playback.

Lemma failing_sends_never_time_out_witness :
  ∃ net' self', ticks (Some demo_key) [10000; 100000; 1000000] demo_dead_net demo_stuck = (net', self')
    ∧ lp_transfer self' = Some demo_transfer ∧ net_events net' = [].
Proof.
  destruct (failing_sends_never_time_out demo_key [10000; 100000; 1000000] demo_dead_net demo_stuck
    demo_transfer eq_refl demo_sendable demo_pending) as (net' & self' & E & Ht & _ & He).
  - reflexivity.
  - repeat constructor.
  - apply le_n.
  - exists net', self'. split; [exact E|]. split; [exact Ht|exact He].
Defined.

Definition demo_ingress : Ingress := start_ingress (Some demo_key) 0.
Definition demo_forged : bytes := ascii_bytes "EIPR" ++ replicate 36 1.

Lemma unauthenticated_datagram_ignored_witness :
  dispatch demo_forged demo_source 5 demo_empty_net demo_ingress = (demo_empty_net, demo_ingress).
Proof.
  apply (unauthenticated_datagram_ignored demo_forged demo_source 5 demo_empty_net demo_ingress).
  split; intros E; vm_compute in E; discriminate E.
Defined.

Lemma ingress_iteration_invariant_witness :
  ∃ captures net' self',
    ingress_iteration [demo_start] None (Some (demo_frame, demo_source)) 5 demo_empty_net demo_ingress
    = (captures, net', self')
    ∧ ingress_ok [(Some demo_key, demo_frame)] self'.
Proof.
  destruct (ingress_iteration [demo_start] None (Some (demo_frame, demo_source)) 5 demo_empty_net
    demo_ingress) as [[captures net'] self'] eqn:E.
  exists captures, net', self'. split; [reflexivity|].
  apply (ingress_iteration_invariant [] [demo_start] None (Some (demo_frame, demo_source)) 5
    demo_empty_net demo_ingress captures net' self').
  - split; [apply new_inv|exact I].
  - intros packet source Er. injection Er as <- _. exact demo_frame_bytes.
  - exact E.
Defined.
End demo.
