(* ===== verification/StrOps.v ===== *)
(** * Rust strings as UTF-8 byte sequences

    The operations of [str] and [char] the host uses on text: UTF-8 validity and character
    boundaries, white space and trimming, searching, ASCII case, line splitting.  A text is
    the list of its bytes, so that [len] and slicing are the byte operations of the source. *)

From S2P Require Import Prelude Bytes.

(** ** UTF-8 *)

Definition cont (b : Z) : bool := (128 <=? b) && (b <=? 191).

Definition between (lo hi b : Z) : bool := (lo <=? b) && (b <=? hi).

(** The well-formed encodings of one character (Unicode, table 3-7). *)
Definition utf8_char (c : bytes) : bool :=
  match c with
  | [b] => between 0 127 b
  | [b; c1] => between 194 223 b && cont c1
  | [b; c1; c2] =>
      cont c2 && ((b =? 224) && between 160 191 c1 || between 225 236 b && cont c1
                  || (b =? 237) && between 128 159 c1 || between 238 239 b && cont c1)
  | [b; c1; c2; c3] =>
      cont c2 && cont c3
      && ((b =? 240) && between 144 191 c1 || between 241 243 b && cont c1
          || (b =? 244) && between 128 143 c1)
  | _ => false
  end.

Inductive utf8 : bytes → Prop :=
| utf8_nil : utf8 []
| utf8_cons c s : utf8_char c = true → utf8 s → utf8 (c ++ s).

(** [std::str::from_utf8(s).is_ok()] *)
Fixpoint utf8_ok (s : bytes) : bool :=
  match s with
  | [] => true
  | b :: s1 =>
      if utf8_char [b] then utf8_ok s1
      else match s1 with
           | [] => false
           | c1 :: s2 =>
               if utf8_char [b; c1] then utf8_ok s2
               else match s2 with
                    | [] => false
                    | c2 :: s3 =>
                        if utf8_char [b; c1; c2] then utf8_ok s3
                        else match s3 with
                             | [] => false
                             | c3 :: s4 => utf8_char [b; c1; c2; c3] && utf8_ok s4
                             end
                    end
           end
  end.

(** [char::from_u32(scalar)] followed by [encode_utf8] *)
Definition encode_scalar (u : Z) : option bytes :=
  if u <? 0 then None
  else if u <? 128 then Some [u]
  else if u <? 2048 then Some [192 + u / 64; 128 + u mod 64]
  else if u <? 65536 then
    if between 55296 57343 u then None
    else Some [224 + u / 4096; 128 + u / 64 mod 64; 128 + u mod 64]
  else if u <? 1114112 then
    Some [240 + u / 262144; 128 + u / 4096 mod 64; 128 + u / 64 mod 64; 128 + u mod 64]
  else None.

(** [s.is_char_boundary(index)] *)
Definition is_char_boundary (s : bytes) (i : nat) : bool :=
  match s !! i with
  | Some b => negb (cont b)
  | None => (i =? length s)%nat
  end.

(** ** White space *)

(** The width of the white-space character at the head of [s], 0 when there is none
    ([char::is_whitespace]). *)
Definition space_width (s : bytes) : nat :=
  match s with
  | b :: s1 =>
      if between 9 13 b || (b =? 32) then 1%nat
      else match s1 with
           | c :: s2 =>
               if (b =? 194) && ((c =? 133) || (c =? 160)) then 2%nat
               else match s2 with
                    | d :: _ =>
                        if (b =? 225) && (c =? 154) && (d =? 128)
                           || (b =? 226) && (c =? 128)
                              && (between 128 138 d || (d =? 168) || (d =? 169) || (d =? 175))
                           || (b =? 226) && (c =? 129) && (d =? 159)
                           || (b =? 227) && (c =? 128) && (d =? 128)
                        then 3%nat else 0%nat
                    | [] => O
                    end
           | [] => O
           end
  | [] => O
  end.

(** [u8::is_ascii_whitespace] *)
Definition is_ascii_whitespace (b : Z) : bool :=
  (b =? 32) || (b =? 9) || (b =? 10) || (b =? 12) || (b =? 13).

Definition starts_space (s : bytes) : bool := (0 <? space_width s)%nat.

(** Does [s] end with a white-space character? *)
Definition ends_space (s : bytes) : bool :=
  existsb (λ w, (space_width (drop (length s - w) s) =? w)%nat && (w <=? length s)%nat) [1; 2; 3]%nat.

Fixpoint trim_start_fuel (fuel : nat) (s : bytes) : bytes :=
  match fuel with
  | O => s
  | S fuel => if starts_space s then trim_start_fuel fuel (drop (space_width s) s) else s
  end.
Definition trim_start (s : bytes) : bytes := trim_start_fuel (length s) s.

Fixpoint trim_end_fuel (fuel : nat) (s : bytes) : bytes :=
  match fuel with
  | O => s
  | S fuel =>
      match list_find (λ w, space_width (drop (length s - w) s) = w ∧ (w ≤ length s)%nat) [1; 2; 3]%nat with
      | Some (_, w) => trim_end_fuel fuel (take (length s - w) s)
      | None => s
      end
  end.
Definition trim_end (s : bytes) : bytes := trim_end_fuel (length s) s.

(** [s.trim()] *)
Definition trim (s : bytes) : bytes := trim_end (trim_start s).

(** ** Searching *)

Fixpoint has_prefix (p s : bytes) : bool :=
  match p, s with
  | [], _ => true
  | a :: p, b :: s => (a =? b) && has_prefix p s
  | _, [] => false
  end.

(** The first position whose suffix satisfies [P]: [s.find(..)]. *)
Fixpoint find_at (P : bytes → bool) (s : bytes) : option nat :=
  if P s then Some O
  else match s with [] => None | _ :: s => S <$> find_at P s end.

(** [s.find(pattern)] for a string pattern *)
Definition find_str (p s : bytes) : option nat := find_at (has_prefix p) s.
Definition contains (p s : bytes) : bool := bool_decide (is_Some (find_str p s)).

(** [s.find(|c| ..)]: a position is a match when there is a character there. *)
Definition find_char (P : bytes → bool) (s : bytes) : option nat :=
  find_at (λ t, match t with [] => false | _ => P t end) s.

(** [head_is P]: the first byte satisfies [P]; a test of an ASCII character. *)
Definition head_is (P : Z → bool) (s : bytes) : bool :=
  match s with b :: _ => P b | [] => false end.
Definition last_is (P : Z → bool) (s : bytes) : bool :=
  match last s with Some b => P b | None => false end.

Fixpoint skip_while (P : Z → bool) (s : bytes) : bytes :=
  match s with
  | [] => []
  | b :: s' => if P b then skip_while P s' else s
  end.

Definition one_of (l : bytes) (b : Z) : bool := existsb (Z.eqb b) l.

(** The byte after the last one satisfying [P], or 0: [s.rfind(P).map_or(0, |p| p + 1)]. *)
Definition after_last (P : Z → bool) (s : bytes) : nat :=
  match list_find (λ b, P b = true) (rev s) with
  | Some (i, _) => length s - i
  | None => O
  end.

(** [s.rsplit_once(c)], the part after the last [c] *)
Definition after_last_byte (c : Z) (s : bytes) : bytes := drop (after_last (Z.eqb c) s) s.

(** [s.split(sep)] *)
Fixpoint split_on (sep : Z) (s : bytes) : list bytes :=
  match s with
  | [] => [[]]
  | b :: s' =>
      if b =? sep then [] :: split_on sep s'
      else match split_on sep s' with
           | field :: fields => (b :: field) :: fields
           | [] => [[b]]
           end
  end.

(** [Ord] of byte strings *)
Fixpoint bytes_leb (a b : bytes) : bool :=
  match a, b with
  | [], _ => true
  | _ :: _, [] => false
  | x :: a, y :: b => (x <? y) || ((x =? y) && bytes_leb a b)
  end.

(** ** ASCII classes *)

Definition is_digit (b : Z) : bool := between 48 57 b.
Definition is_upper (b : Z) : bool := between 65 90 b.
Definition is_lower (b : Z) : bool := between 97 122 b.
Definition is_alpha (b : Z) : bool := is_upper b || is_lower b.
Definition is_alnum (b : Z) : bool := is_alpha b || is_digit b.
Definition is_hexdigit (b : Z) : bool := is_digit b || between 65 70 b || between 97 102 b.
Definition ascii_space (b : Z) : bool := one_of [9; 10; 12; 13; 32] b.

(** [s.split_whitespace()] *)
Fixpoint split_space_fuel (fuel : nat) (word s : bytes) : list bytes :=
  match fuel, s with
  | O, _ | _, [] => match word with [] => [] | _ => [rev word] end
  | S fuel, b :: s' =>
      if starts_space s then
        match word with [] => [] | _ => [rev word] end ++ split_space_fuel fuel [] (drop (space_width s) s)
      else split_space_fuel fuel (b :: word) s'
  end.
Definition split_whitespace (s : bytes) : list bytes := split_space_fuel (length s) [] s.

(** [parts.join(" ")] *)
Fixpoint join_spaces (parts : list bytes) : bytes :=
  match parts with
  | [] => []
  | [p] => p
  | p :: parts => p ++ 32 :: join_spaces parts
  end.

(** [s.to_ascii_lowercase()] *)
Definition lower_byte (b : Z) : Z := if is_upper b then b + 32 else b.
Definition lowercase (s : bytes) : bytes := lower_byte <$> s.

(** ** Lines *)

Definition strip_cr (s : bytes) : bytes :=
  match last s with Some 13 => take (length s - 1) s | _ => s end.

(** [s.lines()]: a line feed ends a line, with the carriage return before it. *)
Fixpoint lines_of (acc s : bytes) : list bytes :=
  match s with
  | [] => match acc with [] => [] | _ => [rev acc] end
  | b :: s => if b =? 10 then strip_cr (rev acc) :: lines_of [] s else lines_of (b :: acc) s
  end.
Definition lines (s : bytes) : list bytes := lines_of [] s.

(** ** Joining *)

Lemma mjoin_cons {A} (x : list A) xs : mjoin (x :: xs) = x ++ mjoin xs.
Proof. done. Qed.

Lemma mjoin_app {A} (xs ys : list (list A)) : mjoin (xs ++ ys) = mjoin xs ++ mjoin ys.
Proof. induction xs as [|x xs IH]; [done|]. rewrite <- app_comm_cons, !mjoin_cons, IH. by rewrite app_assoc. Qed.

(** ** Characters *)

(** The characters of a UTF-8 text. *)
Fixpoint utf8_split (s : bytes) : list bytes :=
  match s with
  | [] => []
  | b :: s1 =>
      if utf8_char [b] then [b] :: utf8_split s1
      else match s1 with
           | [] => [[b]]
           | c1 :: s2 =>
               if utf8_char [b; c1] then [b; c1] :: utf8_split s2
               else match s2 with
                    | [] => [[b; c1]]
                    | c2 :: s3 =>
                        if utf8_char [b; c1; c2] then [b; c1; c2] :: utf8_split s3
                        else match s3 with
                             | [] => [[b; c1; c2]]
                             | c3 :: s4 => [b; c1; c2; c3] :: utf8_split s4
                             end
                    end
           end
  end.

Ltac utf8_bool := unfold utf8_char, cont, between in *; bool_prop.

Lemma utf8_char_cases c :
  utf8_char c = true →
  (∃ b, c = [b] ∧ 0 ≤ b ≤ 127)
  ∨ (∃ b c1, c = [b; c1] ∧ 194 ≤ b ≤ 223 ∧ cont c1 = true)
  ∨ (∃ b c1 c2, c = [b; c1; c2] ∧ 224 ≤ b ≤ 239 ∧ cont c1 = true ∧ cont c2 = true)
  ∨ (∃ b c1 c2 c3, c = [b; c1; c2; c3] ∧ 240 ≤ b ≤ 244 ∧ cont c1 = true ∧ cont c2 = true
       ∧ cont c3 = true).
Proof.
  intros Hc. destruct c as [|b [|c1 [|c2 [|c3 [|]]]]]; try discriminate Hc.
  - left. exists b. utf8_bool. split; [done | lia].
  - right; left. exists b, c1. utf8_bool. split_and!; try done; lia.
  - right; right; left. exists b, c1, c2. utf8_bool. split_and!; try done; lia.
  - right; right; right. exists b, c1, c2, c3. utf8_bool. split_and!; try done; lia.
Qed.

Lemma utf8_char_one b : utf8_char [b] = between 0 127 b.
Proof. done. Qed.

Lemma utf8_char_two_lead b c1 : 224 ≤ b → utf8_char [b; c1] = false.
Proof. intros ?. unfold utf8_char, between. lia. Qed.

Lemma utf8_char_three_lead b c1 c2 : 240 ≤ b → utf8_char [b; c1; c2] = false.
Proof. intros ?. unfold utf8_char, between. lia. Qed.

Lemma utf8_char_high b : 128 ≤ b → utf8_char [b] = false.
Proof. intros ?. unfold utf8_char, between. lia. Qed.

Ltac utf8_leads :=
  repeat first [rewrite utf8_char_high by lia | rewrite utf8_char_two_lead by lia
               | rewrite utf8_char_three_lead by lia].

(** Decoding at a character: the split and the validity test both go one character on. *)
Lemma utf8_split_char c s : utf8_char c = true → utf8_split (c ++ s) = c :: utf8_split s.
Proof.
  intros Hc. pose proof Hc as Hc'.
  destruct (utf8_char_cases c Hc)
    as [(b & -> & ?)|[(b & c1 & -> & ? & ?)|[(b & c1 & c2 & -> & ? & ?)|(b & c1 & c2 & c3 & -> & ? & ?)]]];
    cbn -[utf8_char]; utf8_leads; rewrite ?Hc'; done.
Qed.

Lemma utf8_ok_char c s : utf8_char c = true → utf8_ok (c ++ s) = utf8_ok s.
Proof.
  intros Hc. pose proof Hc as Hc'.
  destruct (utf8_char_cases c Hc)
    as [(b & -> & ?)|[(b & c1 & -> & ? & ?)|[(b & c1 & c2 & -> & ? & ?)|(b & c1 & c2 & c3 & -> & ? & ?)]]];
    cbn -[utf8_char]; utf8_leads; rewrite ?Hc'; done.
Qed.

Lemma utf8_split_join cs : Forall (λ c, utf8_char c = true) cs → utf8_split (mjoin cs) = cs.
Proof.
  induction 1 as [|c cs Hc _ IH]; [done|].
  change (mjoin (c :: cs)) with (c ++ mjoin cs). rewrite utf8_split_char by done. by rewrite IH.
Qed.

Lemma utf8_ok_join cs : Forall (λ c, utf8_char c = true) cs → utf8_ok (mjoin cs) = true.
Proof.
  induction 1 as [|c cs Hc _ IH]; [done|].
  change (mjoin (c :: cs)) with (c ++ mjoin cs). by rewrite utf8_ok_char.
Qed.

Lemma encode_scalar_utf8 u c : encode_scalar u = Some c → utf8_char c = true.
Proof.
  unfold encode_scalar, between. intros E.
  repeat case_match; simplify_eq; bool_prop; unfold utf8_char, cont, between.
  - lia.
  - div_lia.
  - assert (u / 64 mod 64 = u / 64 - 64 * (u / 4096)) by div_lia. div_lia.
  - assert (u / 64 mod 64 = u / 64 - 64 * (u / 4096)) by div_lia.
    assert (u / 4096 mod 64 = u / 4096 - 64 * (u / 262144)) by div_lia. div_lia.
Qed.

(** ** Prefixes *)

Lemma has_prefix_drop p s : has_prefix p s = true → s = p ++ drop (length p) s.
Proof.
  revert s. induction p as [|c p IH]; intros [|d s]; cbn; try done. intros H. apply andb_prop in H as [E H].
  apply Z.eqb_eq in E as ->. by rewrite <- (IH s H).
Qed.

Lemma has_prefix_app p s : has_prefix p (p ++ s) = true.
Proof. induction p as [|c p IH]; [by destruct s|]. cbn. by rewrite Z.eqb_refl. Qed.
