(* ===== verification/CacheRef.v ===== *)
(** * Cache references (app/host/src/cache.rs, [CacheId])

    A published summary is named by the text [<64 hex digits>/<decimal generation>],
    the SHA-256 of the task id and the summary generation.  The store keeps the text,
    the cache directory layout is derived from it.  Text is a list of bytes. *)

From S2P Require Import Prelude Bytes StrOps.

Definition TASK_HASH_HEX_BYTES : nat := 64.

(** [CacheError]; what an I/O or key-store error carries is left out. *)
Inductive CacheError :=
| CacheIo | InvalidKey | InvalidGeneration | ObjectTooLarge | GenerationTooLarge | CapacityExceeded
| AlreadyPublished | AlreadyOpen | MissingObject | InvalidReference | MissingReference | Corrupt
| CryptoFailed | LockUnavailable | SecretStoreFailed.

#[export] Instance CacheError_eq_dec : EqDecision CacheError.
Proof. solve_decision. Defined.

Record CacheId := mk_cache_id {
  ci_task_hash : bytes;
  ci_generation : Z;
}.

#[export] Instance CacheId_eq_dec : EqDecision CacheId.
Proof. solve_decision. Defined.

(** ** Hexadecimal *)

Definition is_ascii_digit (b : Z) : bool := (48 <=? b) && (b <=? 57).
Definition is_lower_hex (b : Z) : bool := is_ascii_digit b || ((97 <=? b) && (b <=? 102)).

(** [HEX[nibble]] *)
Definition hex_digit (n : Z) : Z := if n <? 10 then 48 + n else 87 + n.

Definition encode_hex (b : bytes) : bytes :=
  mjoin ((λ x, [hex_digit (Z.shiftr x 4); hex_digit (Z.land x 15)]) <$> b).

Definition hex_digit_value (v : Z) : option Z :=
  if is_ascii_digit v then Some (v - 48)
  else if (97 <=? v) && (v <=? 102) then Some (v - 97 + 10)
  else None.

Definition decode_hex_pair (hi lo : Z) : option Z :=
  h ← hex_digit_value hi; l ← hex_digit_value lo; Some (Z.lor (Z.shiftl h 4) l).

(** The loop over [chunks_exact(2)]. *)
Fixpoint decode_hex (s : bytes) : option bytes :=
  match s with
  | hi :: lo :: rest => b ← decode_hex_pair hi lo; bs ← decode_hex rest; Some (b :: bs)
  | _ => Some []
  end.

Definition is_task_hash (s : bytes) : bool :=
  (length s =? TASK_HASH_HEX_BYTES)%nat && forallb is_lower_hex s.

(** ** Decimal: [u64::to_string] and [str::parse::<u64>] *)

(** Twenty digits hold every 64-bit value. *)
Definition U64_DIGITS : nat := 20.

Fixpoint dec_bytes (fuel : nat) (v : Z) : bytes :=
  match fuel with
  | O => []
  | S fuel => if v <? 10 then [48 + v] else dec_bytes fuel (v / 10) ++ [48 + v mod 10]
  end.

Definition u64_to_string (v : Z) : bytes := dec_bytes U64_DIGITS v.

Definition dec_value (s : bytes) : Z := foldl (λ acc b, acc * 10 + (b - 48)) 0 s.

Definition parse_u64 (s : bytes) : option Z :=
  let digits := match s with b :: rest => if b =? 43 then rest else s | [] => s end in
  if negb (length digits =? 0)%nat && forallb is_ascii_digit digits
     && (dec_value digits <=? u64_max)
  then Some (dec_value digits) else None.

Definition is_canonical_generation (s : bytes) : bool :=
  match s with
  | first :: _ => (49 <=? first) && (first <=? 57)
  | [] => false
  end && forallb is_ascii_digit s.

(** ** The reference text *)

Section cache_id.
Context `{Crypto}.

Definition for_task (task_id : bytes) (generation : Z) : result CacheError CacheId :=
  if generation =? 0 then Err InvalidGeneration
  else Ok {| ci_task_hash := sha256 task_id; ci_generation := generation |}.

Definition reference (id : CacheId) : bytes :=
  encode_hex (ci_task_hash id) ++ 47 :: u64_to_string (ci_generation id).

Definition from_reference (r : bytes) : result CacheError CacheId :=
  match split_on 47 r with
  | [task_hash; generation] =>
      if negb (is_task_hash task_hash) || negb (is_canonical_generation generation)
      then Err InvalidReference
      else
        let? generation := of_option InvalidReference (parse_u64 generation) in
        if generation =? 0 then Err InvalidReference
        else
          let? decoded := of_option InvalidReference (decode_hex task_hash) in
          Ok {| ci_task_hash := decoded; ci_generation := generation |}
  | _ => Err InvalidReference
  end.

End cache_id.

(** ** Lemmas *)

Lemma split_on_nosep sep s : sep ∉ s → split_on sep s = [s].
Proof.
  induction s as [|b s IH]; simpl; [done|]. intros [Hb Hs]%not_elem_of_cons.
  destruct (Z.eqb_spec b sep) as [->|]; [done|]. by rewrite IH.
Qed.

Lemma split_on_app sep s t : sep ∉ s → split_on sep (s ++ sep :: t) = s :: split_on sep t.
Proof.
  induction s as [|b s IH]; simpl; [by rewrite Z.eqb_refl|].
  intros [Hb Hs]%not_elem_of_cons. destruct (Z.eqb_spec b sep) as [->|]; [done|].
  by rewrite IH.
Qed.

Lemma split_on_cons sep s : ∃ f fs, split_on sep s = f :: fs.
Proof.
  induction s as [|b s (f & fs & IH)]; simpl; [eauto|].
  destruct (b =? sep); [eauto|]. rewrite IH. eauto.
Qed.

Lemma split_on_one sep s f : split_on sep s = [f] → s = f.
Proof.
  revert f. induction s as [|b s IH]; intros f; simpl; [by intros [=]|].
  destruct (Z.eqb_spec b sep).
  - destruct (split_on_cons sep s) as (g & gs & ->). by intros [=].
  - destruct (split_on_cons sep s) as (g & gs & E). rewrite E. intros [= <- ->].
    by rewrite (IH g).
Qed.

Lemma split_on_two sep s f g : split_on sep s = [f; g] → s = f ++ sep :: g.
Proof.
  revert f. induction s as [|b s IH]; intros f; simpl; [by intros [=]|].
  destruct (Z.eqb_spec b sep) as [->|].
  - intros [= <- E]. by rewrite (split_on_one _ _ _ E).
  - destruct (split_on_cons sep s) as (h & hs & E). rewrite E. intros [= <- ->].
    by rewrite (IH h).
Qed.

(** *** Hexadecimal *)

Lemma hex_digit_ok n : 0 ≤ n < 16 →
  is_lower_hex (hex_digit n) = true ∧ hex_digit_value (hex_digit n) = Some n.
Proof.
  intros. unfold is_lower_hex, hex_digit_value, is_ascii_digit, hex_digit.
  destruct (Z.ltb_spec n 10).
  - assert ((48 <=? 48 + n) && (48 + n <=? 57) = true) as -> by lia.
    split; [done|f_equal; lia].
  - assert ((48 <=? 87 + n) && (87 + n <=? 57) = false) as -> by lia.
    assert ((97 <=? 87 + n) && (87 + n <=? 102) = true) as -> by lia.
    split; [done|f_equal; lia].
Qed.

Lemma hex_digit_value_some v n :
  hex_digit_value v = Some n → 0 ≤ n < 16 ∧ hex_digit n = v.
Proof.
  unfold hex_digit_value, is_ascii_digit, hex_digit. intros Hv.
  destruct ((48 <=? v) && (v <=? 57)) eqn:E1.
  { injection Hv as <-. bool_prop. rewrite (proj2 (Z.ltb_lt _ _)) by lia. lia. }
  destruct ((97 <=? v) && (v <=? 102)) eqn:E2; [|done].
  injection Hv as <-. bool_prop. rewrite (proj2 (Z.ltb_ge _ _)) by lia. lia.
Qed.

Lemma hex_digit_value_is_some b :
  is_lower_hex b = true → ∃ n, hex_digit_value b = Some n.
Proof.
  unfold is_lower_hex, hex_digit_value.
  destruct (is_ascii_digit b); [eauto|]. simpl. intros ->. eauto.
Qed.

(** All 256 bytes, by computation. *)
Lemma byte_ind (P : Z → bool) :
  forallb P (seqZ 0 256) = true → ∀ x, is_byte x → P x = true.
Proof.
  intros HP x [? ?]. rewrite forallb_forall in HP. apply HP.
  apply list_elem_of_In, elem_of_seqZ. lia.
Qed.

Lemma nibbles x : is_byte x →
  0 ≤ Z.shiftr x 4 < 16 ∧ 0 ≤ Z.land x 15 < 16
  ∧ Z.lor (Z.shiftl (Z.shiftr x 4) 4) (Z.land x 15) = x.
Proof.
  intros Hx. pose proof (byte_ind (λ x,
    (0 <=? Z.shiftr x 4) && (Z.shiftr x 4 <? 16) && (0 <=? Z.land x 15) && (Z.land x 15 <? 16)
    && (Z.lor (Z.shiftl (Z.shiftr x 4) 4) (Z.land x 15) =? x)) eq_refl x Hx) as E.
  cbv beta in E. bool_prop. lia.
Qed.

Lemma nibble_join h l : 0 ≤ h < 16 → 0 ≤ l < 16 →
  is_byte (Z.lor (Z.shiftl h 4) l) ∧ Z.shiftr (Z.lor (Z.shiftl h 4) l) 4 = h
  ∧ Z.land (Z.lor (Z.shiftl h 4) l) 15 = l.
Proof.
  intros Hh Hl. pose proof (byte_ind (λ x,
    let h := Z.shiftr x 4 in let l := x mod 16 in
    (0 <=? Z.lor (Z.shiftl h 4) l) && (Z.lor (Z.shiftl h 4) l <? 256)
    && (Z.shiftr (Z.lor (Z.shiftl h 4) l) 4 =? h)
    && (Z.land (Z.lor (Z.shiftl h 4) l) 15 =? l)) eq_refl (16 * h + l)) as E.
  cbv beta zeta in E. unfold is_byte in *.
  rewrite Z.shiftr_div_pow2 in E by lia. change (2 ^ 4) with 16 in E.
  replace ((16 * h + l) / 16) with h in E by div_lia.
  replace ((16 * h + l) mod 16) with l in E by div_lia.
  specialize (E ltac:(lia)). bool_prop. lia.
Qed.

Lemma encode_hex_cons x b :
  encode_hex (x :: b) = hex_digit (Z.shiftr x 4) :: hex_digit (Z.land x 15) :: encode_hex b.
Proof. done. Qed.

Lemma length_encode_hex b : length (encode_hex b) = (2 * length b)%nat.
Proof. induction b; [done|]. rewrite encode_hex_cons. simpl. lia. Qed.

Lemma encode_hex_lower b : bytes_ok b → forallb is_lower_hex (encode_hex b) = true.
Proof.
  induction 1 as [|x b Hx _ IH]; [done|]. rewrite encode_hex_cons. cbn [forallb].
  destruct (nibbles x Hx) as (H1 & H2 & _).
  rewrite (proj1 (hex_digit_ok _ H1)), (proj1 (hex_digit_ok _ H2)). exact IH.
Qed.

Lemma decode_encode_hex b : bytes_ok b → decode_hex (encode_hex b) = Some b.
Proof.
  induction 1 as [|x b Hx _ IH]; [done|]. rewrite encode_hex_cons. cbn [decode_hex].
  destruct (nibbles x Hx) as (H1 & H2 & H3). unfold decode_hex_pair.
  rewrite (proj2 (hex_digit_ok _ H1)), (proj2 (hex_digit_ok _ H2)).
  cbn [mbind option_bind]. by rewrite H3, IH.
Qed.

Lemma encode_decode_hex n s b :
  length s = (2 * n)%nat → decode_hex s = Some b → encode_hex b = s ∧ bytes_ok b ∧ length b = n.
Proof.
  revert s b. induction n as [|n IH]; intros s b Hs Hb.
  { destruct s; [|done]. by injection Hb as <-. }
  destruct s as [|hi [|lo s]]; simpl in Hs; try lia.
  simpl in Hb. unfold decode_hex_pair in Hb.
  destruct (hex_digit_value hi) as [h|] eqn:Eh; [|done].
  destruct (hex_digit_value lo) as [l|] eqn:El; [|done].
  simpl in Hb. destruct (decode_hex s) as [b'|] eqn:Es; [|done]. injection Hb as <-.
  apply hex_digit_value_some in Eh as [Hh <-]. apply hex_digit_value_some in El as [Hl <-].
  destruct (nibble_join h l Hh Hl) as (H1 & H2 & H3).
  destruct (IH s b') as (E & F & G); [lia|done|]. split_and!.
  - by rewrite encode_hex_cons, H2, H3, E.
  - by constructor.
  - simpl. lia.
Qed.

Lemma decode_hex_total n s :
  length s = (2 * n)%nat → forallb is_lower_hex s = true → ∃ b, decode_hex s = Some b.
Proof.
  revert s. induction n as [|n IH]; intros s Hs Hok.
  { destruct s; [|done]. by exists []. }
  destruct s as [|hi [|lo s]]; simpl in Hs; try lia. simpl in Hok. bool_prop.
  destruct (hex_digit_value_is_some hi) as [h Eh]; [done|].
  destruct (hex_digit_value_is_some lo) as [l El]; [done|].
  destruct (IH s) as [b Eb]; [lia|done|].
  simpl. unfold decode_hex_pair. rewrite Eh, El. simpl. rewrite Eb. eauto.
Qed.

(** *** Decimal *)

Lemma dec_value_app s b : dec_value (s ++ [b]) = dec_value s * 10 + (b - 48).
Proof. unfold dec_value. by rewrite foldl_app. Qed.

Lemma dec_bytes_spec fuel v :
  0 ≤ v < 10 ^ Z.of_nat fuel → (0 < fuel)%nat →
  dec_value (dec_bytes fuel v) = v ∧ forallb is_ascii_digit (dec_bytes fuel v) = true
  ∧ ∃ b s, dec_bytes fuel v = b :: s ∧ (0 < v → b ≠ 48).
Proof.
  revert v. induction fuel as [|fuel IH]; intros v Hv Hf; [lia|]. simpl.
  destruct (Z.ltb_spec v 10) as [Hs|Hs].
  { unfold dec_value. simpl. split_and!; [lia| |exists (48 + v), []; split; [done|lia]].
    unfold is_ascii_digit. rewrite andb_true_r. lia. }
  rewrite Nat2Z.inj_succ, Z.pow_succ_r in Hv by lia.
  destruct (IH (v / 10)) as (H1 & H2 & b & s & H3 & H4).
  { split; [apply Z.div_pos; lia|]. apply Z.div_lt_upper_bound; lia. }
  { destruct fuel; [simpl in Hv; lia|lia]. }
  rewrite dec_value_app, H1. split_and!.
  - pose proof (Z.div_mod v 10). lia.
  - rewrite forallb_app, H2. simpl. pose proof (Z.mod_pos_bound v 10).
    unfold is_ascii_digit. lia.
  - rewrite H3. exists b, (s ++ [48 + v mod 10]). split; [done|]. intros _. apply H4.
    div_lia.
Qed.

Lemma dec_value_lower s :
  forallb is_ascii_digit s = true → 0 ≤ dec_value s < 10 ^ Z.of_nat (length s).
Proof.
  induction s as [|b s IH] using rev_ind; [done|]. rewrite forallb_app. intros. bool_prop.
  simpl in *. rewrite dec_value_app, length_app. simpl.
  rewrite Nat2Z.inj_add, Z.pow_add_r by lia. change (10 ^ Z.of_nat 1) with 10.
  unfold is_ascii_digit in *. specialize (IH ltac:(done)). bool_prop. lia.
Qed.

Lemma dec_value_first b s :
  forallb is_ascii_digit s = true → 48 < b → 10 ^ Z.of_nat (length s) ≤ dec_value (b :: s).
Proof.
  intros Hs Hb. induction s as [|c s IH] using rev_ind.
  { unfold dec_value. simpl. lia. }
  rewrite forallb_app in Hs. bool_prop. rewrite app_comm_cons, dec_value_app, length_app.
  simpl in *. rewrite Nat2Z.inj_add, Z.pow_add_r by lia. change (10 ^ Z.of_nat 1) with 10.
  unfold is_ascii_digit in *. specialize (IH ltac:(done)). bool_prop. lia.
Qed.

Lemma dec_bytes_dec_value fuel b s :
  is_canonical_generation (b :: s) = true → (length s < fuel)%nat →
  dec_bytes fuel (dec_value (b :: s)) = b :: s.
Proof.
  revert s. induction fuel as [|fuel IH]; intros s Hc Hf; [lia|].
  unfold is_canonical_generation in Hc. bool_prop. simpl.
  destruct s as [|c s _] using rev_ind.
  { unfold dec_value. simpl. rewrite (proj2 (Z.ltb_lt _ _)) by lia. f_equal. lia. }
  rewrite app_comm_cons, dec_value_app. rewrite app_comm_cons, forallb_app in *. bool_prop.
  assert (48 <= c <= 57) by (simpl in *; unfold is_ascii_digit in *; bool_prop; lia).
  assert (1 ≤ dec_value (b :: s)) as Hv.
  { pose proof (dec_value_first b s ltac:(simpl in *; bool_prop; done) ltac:(lia)).
    assert (0 < 10 ^ Z.of_nat (length s)) by (apply Z.pow_pos_nonneg; lia). lia. }
  rewrite (proj2 (Z.ltb_ge _ _)) by lia.
  replace ((dec_value (b :: s) * 10 + (c - 48)) / 10) with (dec_value (b :: s)) by div_lia.
  replace ((dec_value (b :: s) * 10 + (c - 48)) mod 10) with (c - 48) by div_lia.
  rewrite IH; [do 2 f_equal; lia| |rewrite length_app in Hf; simpl in Hf; lia].
  unfold is_canonical_generation. simpl in *. bool_prop.
  repeat (apply andb_true_intro; split); try apply Z.leb_le; lia || done.
Qed.

(** *** References *)

Section references.
Context `{Crypto}.

Definition cache_id_wf (id : CacheId) : Prop :=
  bytes_ok (ci_task_hash id) ∧ length (ci_task_hash id) = 32%nat
  ∧ 0 < ci_generation id ≤ u64_max.

Lemma digits_no_slash s : forallb is_ascii_digit s = true → 47 ∉ s.
Proof.
  intros Hs Hin. rewrite forallb_forall in Hs. by specialize (Hs 47 (proj1 (list_elem_of_In _ _) Hin)).
Qed.

Lemma hex_no_slash s : forallb is_lower_hex s = true → 47 ∉ s.
Proof.
  intros Hs Hin. rewrite forallb_forall in Hs. by specialize (Hs 47 (proj1 (list_elem_of_In _ _) Hin)).
Qed.

Lemma u64_to_string_spec g :
  0 < g ≤ u64_max →
  is_canonical_generation (u64_to_string g) = true ∧ parse_u64 (u64_to_string g) = Some g.
Proof.
  intros Hg. unfold u64_to_string.
  destruct (dec_bytes_spec U64_DIGITS g) as (H1 & H2 & b & s & H3 & H4);
    [unfold U64_DIGITS; width_lia|unfold U64_DIGITS; lia|].
  rewrite H3 in *. specialize (H4 ltac:(lia)).
  pose proof H2 as Hd. simpl in Hd. apply andb_prop in Hd as [Hb Hd].
  unfold is_ascii_digit in Hb. bool_prop.
  split.
  - unfold is_canonical_generation. rewrite H2, andb_true_r.
    apply andb_true_intro; split; apply Z.leb_le; lia.
  - unfold parse_u64. rewrite (proj2 (Z.eqb_neq b 43)) by lia.
    rewrite H1, H2, (proj2 (Z.leb_le _ _)) by lia. done.
Qed.

Lemma from_reference_reference id :
  cache_id_wf id → from_reference (reference id) = Ok id.
Proof.
  destruct id as [h g]. intros (Hb & Hl & Hg). simpl in *.
  unfold from_reference, reference. simpl.
  destruct (u64_to_string_spec g Hg) as [H1 H2].
  rewrite split_on_app by (by apply hex_no_slash, encode_hex_lower).
  rewrite split_on_nosep.
  2:{ apply digits_no_slash. unfold is_canonical_generation in H1. bool_prop. done. }
  unfold is_task_hash. rewrite length_encode_hex, Hl, encode_hex_lower, H1, H2 by done.
  simpl. rewrite (proj2 (Z.eqb_neq _ _)) by lia. by rewrite decode_encode_hex.
Qed.

Lemma canonical_generation_value s g :
  is_canonical_generation s = true → parse_u64 s = Some g →
  0 < g ≤ u64_max ∧ u64_to_string g = s.
Proof.
  intros Hc Hp. destruct s as [|b s]; [done|]. pose proof Hc as Hc'.
  unfold is_canonical_generation in Hc'. bool_prop.
  unfold parse_u64 in Hp. rewrite (proj2 (Z.eqb_neq b 43)) in Hp by lia. destruct (_ && _) eqn:Eg in Hp; [|done]. injection Hp as <-. bool_prop.
  simpl in *. bool_prop. pose proof (dec_value_first b s ltac:(done) ltac:(lia)).
  assert (0 < 10 ^ Z.of_nat (length s)) by (apply Z.pow_pos_nonneg; lia).
  split; [lia|]. apply dec_bytes_dec_value; [done|]. unfold U64_DIGITS.
  destruct (decide (length s < 20)%nat); [done|].
  assert (10 ^ 20 ≤ 10 ^ Z.of_nat (length s)) by (apply Z.pow_le_mono_r; lia). width_lia.
Qed.

Lemma reference_from_reference r id :
  from_reference r = Ok id → reference id = r ∧ cache_id_wf id.
Proof.
  unfold from_reference. intros Hr.
  destruct (split_on 47 r) as [|th [|gen [|? ?]]] eqn:Es; try done.
  apply split_on_two in Es as ->. run_ok Hr. subst id.
  apply orb_false_elim in Hguard as [Hth Hgen]. bool_prop.
  destruct (parse_u64 gen) as [g|] eqn:Eg; [|done]. injection Hrun as <-.
  destruct (decode_hex th) as [d|] eqn:Ed; [|done]. injection Hrun0 as <-.
  unfold is_task_hash in Hth. bool_prop. apply Nat.eqb_eq in H0.
  destruct (encode_decode_hex 32 th d) as (H2 & H3 & H4); [done|done|].
  destruct (canonical_generation_value gen g) as [H5 H6]; [done|done|].
  unfold reference. simpl. by rewrite H2, H6.
Qed.

Lemma for_task_wf task g id : g ≤ u64_max → 0 ≤ g → for_task task g = Ok id → cache_id_wf id.
Proof.
  unfold for_task. intros ?? Hf. run_ok Hf. subst id. bool_prop.
  split_and!; simpl; [apply sha256_bytes|apply sha256_length|lia|lia].
Qed.

End references.

(** ** Properties *)

(** A cache id and its text determine each other: the text of a
    well-formed id (32 hash bytes, a generation in 1..=u64::MAX) is parsed back to that id,
    and any text the parser accepts is exactly the text of the id it returns, so no two
    spellings (leading zeros, upper-case digits, a sign) name the same generation. *)
Theorem cache_reference_bijective `{Crypto} :
  (∀ id, cache_id_wf id → from_reference (reference id) = Ok id)
  ∧ (∀ r id, from_reference r = Ok id → reference id = r ∧ cache_id_wf id).
Proof. split; [apply from_reference_reference|apply reference_from_reference]. Qed.
