(* ===== verification/Sql.v ===== *)
(** * Tables: the fragment of SQL that the store uses

    A table is the list of its rows in insertion order.  [filter] is [WHERE],
    [count_rows] is [SELECT COUNT] of the rows, [query_row] is rusqlite's [query_row]
    with [optional()] (the first row), [update_rows] and [delete_rows] are the two
    statements, appending is [INSERT], and [order_by] is [ORDER BY] (a stable sort).  A
    (partial) unique index on [key] over the rows satisfying [P] is [unique_on P key].
    The lemmas say how each statement moves counts, lookups and unique indexes. *)

From S2P Require Import Prelude.

Section table.
Context {R : Type}.
Implicit Types (t : list R) (r s : R).

(** [query_row(..).optional()] *)
Definition query_row (P : R → Prop) `{∀ r, Decision (P r)} (t : list R) : option R :=
  head (filter P t).

(** [SELECT COUNT] of the rows satisfying [P] *)
Definition count_rows (P : R → Prop) `{∀ r, Decision (P r)} (t : list R) : Z :=
  Z.of_nat (length (filter P t)).

(** [SELECT EXISTS(SELECT 1 .. WHERE P)] *)
Definition exists_row (P : R → Prop) `{∀ r, Decision (P r)} (t : list R) : bool :=
  bool_decide (Exists P t).

Definition upd (P : R → Prop) `{∀ r, Decision (P r)} (f : R → R) (r : R) : R :=
  if decide (P r) then f r else r.

(** [UPDATE .. SET f WHERE P] *)
Definition update_rows (P : R → Prop) `{∀ r, Decision (P r)} (f : R → R) (t : list R)
    : list R := upd P f <$> t.

(** [DELETE FROM .. WHERE P] *)
Definition delete_rows (P : R → Prop) `{∀ r, Decision (P r)} (t : list R) : list R :=
  filter (λ r, ¬ P r) t.

(** A unique index, stated by row positions. *)
Definition unique_on {K} (P : R → Prop) (key : R → K) (t : list R) : Prop :=
  ∀ i j r s, t !! i = Some r → t !! j = Some s → P r → P s → key r = key s → i = j.

(** [ORDER BY]: insertion sort, which keeps the order of equal rows. *)
Fixpoint insert_by (le : R → R → bool) (r : R) (t : list R) : list R :=
  match t with
  | [] => [r]
  | s :: t' => if le r s then r :: t else s :: insert_by le r t'
  end.

Definition order_by (le : R → R → bool) (t : list R) : list R := foldr (insert_by le) [] t.

(** ** Queries *)

Lemma query_row_some P `{∀ r, Decision (P r)} t r : query_row P t = Some r → r ∈ t ∧ P r.
Proof.
  unfold query_row. intros E. assert (r ∈ filter P t) as ?%list_elem_of_filter.
  { destruct (filter P t); [done|]. injection E as ->. constructor. }
  tauto.
Qed.

Lemma query_row_none P `{∀ r, Decision (P r)} t :
  query_row P t = None ↔ ∀ r, r ∈ t → ¬ P r.
Proof.
  unfold query_row. split.
  - intros E r Hr HP. assert (r ∈ filter P t) by (by apply list_elem_of_filter).
    destruct (filter P t); [by eapply not_elem_of_nil|done].
  - intros Hall. destruct (filter P t) as [|r t'] eqn:E; [done|].
    assert (r ∈ filter P t) as [? ?]%list_elem_of_filter by (rewrite E; constructor).
    by destruct (Hall r).
Qed.

Lemma query_row_none_1 P `{∀ r, Decision (P r)} t r :
  query_row P t = None → r ∈ t → ¬ P r.
Proof. rewrite query_row_none. auto. Qed.

Lemma query_row_is_some P `{∀ r, Decision (P r)} t r :
  r ∈ t → P r → ∃ s, query_row P t = Some s.
Proof.
  intros Hr HP. destruct (query_row P t) eqn:E; [eauto|].
  by destruct (proj1 (query_row_none P t) E r Hr).
Qed.

Lemma unique_on_elem {K} P (key : R → K) t r s :
  unique_on P key t → r ∈ t → s ∈ t → P r → P s → key r = key s → r = s.
Proof.
  intros Hu [i Hi]%list_elem_of_lookup [j Hj]%list_elem_of_lookup ? ? ?.
  assert (i = j) by eauto. congruence.
Qed.

Lemma query_row_unique {K} Q (key : R → K) P `{∀ r, Decision (P r)} t r :
  unique_on Q key t → r ∈ t → P r → (∀ s, P s → Q s ∧ key s = key r) →
  query_row P t = Some r.
Proof.
  intros Hu Hr HP HQ. destruct (query_row_is_some P t r Hr HP) as [s Hs].
  rewrite Hs. apply query_row_some in Hs as [Hs HPs].
  f_equal. destruct (HQ s HPs), (HQ r HP). by eapply unique_on_elem.
Qed.

Lemma exists_row_true P `{∀ r, Decision (P r)} t :
  exists_row P t = true ↔ ∃ r, r ∈ t ∧ P r.
Proof. unfold exists_row. rewrite bool_decide_eq_true, list.Exists_exists. naive_solver. Qed.

Lemma exists_row_false P `{∀ r, Decision (P r)} t :
  exists_row P t = false ↔ ∀ r, r ∈ t → ¬ P r.
Proof.
  unfold exists_row. rewrite bool_decide_eq_false, list.Exists_exists. naive_solver.
Qed.

(** ** Counting *)

Lemma count_rows_nonneg P `{∀ r, Decision (P r)} t : 0 ≤ count_rows P t.
Proof. unfold count_rows. lia. Qed.

Lemma count_rows_cons P `{∀ r, Decision (P r)} t r :
  count_rows P (r :: t) = (if decide (P r) then 1 else 0) + count_rows P t.
Proof. unfold count_rows. rewrite filter_cons. case_decide; simpl; lia. Qed.

Lemma count_rows_app P `{∀ r, Decision (P r)} t t' :
  count_rows P (t ++ t') = count_rows P t + count_rows P t'.
Proof. unfold count_rows. rewrite filter_app, length_app. lia. Qed.

Lemma count_rows_ext P Q `{∀ r, Decision (P r), ∀ r, Decision (Q r)} t :
  (∀ r, r ∈ t → P r ↔ Q r) → count_rows P t = count_rows Q t.
Proof.
  induction t as [|r t IH]; intros Heq; [done|]. rewrite !count_rows_cons, IH.
  - pose proof (Heq r ltac:(constructor)). repeat case_decide; naive_solver.
  - intros s ?. apply Heq. by constructor.
Qed.

Lemma count_rows_le P Q `{∀ r, Decision (P r), ∀ r, Decision (Q r)} t :
  (∀ r, r ∈ t → P r → Q r) → count_rows P t ≤ count_rows Q t.
Proof.
  induction t as [|r t IH]; intros Heq; [done|]. rewrite !count_rows_cons.
  specialize (IH ltac:(intros; apply Heq; [by constructor|done])).
  pose proof (Heq r ltac:(constructor)). repeat case_decide; try lia. naive_solver.
Qed.

Lemma count_rows_zero P `{∀ r, Decision (P r)} t :
  count_rows P t = 0 ↔ ∀ r, r ∈ t → ¬ P r.
Proof.
  induction t as [|r t IH]; [split; [intros _ r []%not_elem_of_nil|done]|].
  rewrite count_rows_cons. pose proof (count_rows_nonneg P t). split.
  - intros E s [->|Hs]%elem_of_cons; case_decide; try lia; [done|]. apply IH; [lia|done].
  - intros Hall. rewrite decide_False by (apply Hall; constructor).
    rewrite (proj2 IH); [done|]. intros s ?. apply Hall. by constructor.
Qed.

Lemma count_rows_zero_1 P `{∀ r, Decision (P r)} t r :
  count_rows P t = 0 → r ∈ t → ¬ P r.
Proof. rewrite count_rows_zero. auto. Qed.

Lemma count_rows_pos P `{∀ r, Decision (P r)} t :
  0 < count_rows P t ↔ ∃ r, r ∈ t ∧ P r.
Proof.
  pose proof (count_rows_nonneg P t). split.
  - intros Hpos. destruct (query_row P t) eqn:E; [apply query_row_some in E; eauto|].
    rewrite query_row_none in E. apply (count_rows_zero P t) in E. lia.
  - intros (r & Hr & HP). destruct (decide (count_rows P t = 0)) as [E|]; [|lia].
    by destruct (proj1 (count_rows_zero P t) E r Hr).
Qed.

(** ** Unique indexes *)

Lemma unique_on_nil {K} P (key : R → K) : unique_on P key [].
Proof. intros i j r s Hi. by rewrite lookup_nil in Hi. Qed.

Lemma unique_on_cons {K} P (key : R → K) t r :
  unique_on P key (r :: t) ↔ (P r → ∀ s, s ∈ t → P s → key s ≠ key r) ∧ unique_on P key t.
Proof.
  split.
  - intros Hu. split.
    + intros HP s [j Hj]%list_elem_of_lookup HPs E.
      by specialize (Hu 0%nat (S j) r s eq_refl Hj HP HPs (eq_sym E)).
    + intros i j a b Hi Hj ???. specialize (Hu (S i) (S j) a b Hi Hj). naive_solver.
  - intros [Hr Hu] [|i] [|j] a b Hi Hj HPa HPb E; simpl in *; simplify_eq; [done|..].
    + apply list_elem_of_lookup_2 in Hj. naive_solver.
    + apply list_elem_of_lookup_2 in Hi. naive_solver.
    + f_equal. eauto.
Qed.

Lemma unique_on_NoDup {K} P `{∀ r, Decision (P r)} (key : R → K) t :
  unique_on P key t ↔ NoDup (key <$> filter P t).
Proof.
  induction t as [|r t IH]; [split; [constructor|intros _; apply unique_on_nil]|].
  rewrite unique_on_cons, IH, filter_cons. case_decide as HP; rewrite ?fmap_cons; [|tauto].
  rewrite NoDup_cons, list_elem_of_fmap. apply and_iff_compat_r. split.
  - intros Hr (s & E & [? ?]%list_elem_of_filter). by eapply Hr.
  - intros Hr _ s ?? E. apply Hr. exists s. by rewrite list_elem_of_filter.
Qed.

#[global] Instance unique_on_dec {K} `{EqDecision K} P `{∀ r, Decision (P r)}
    (key : R → K) t : Decision (unique_on P key t).
Proof.
  refine (cast_if (decide (NoDup (key <$> filter P t)))); by rewrite unique_on_NoDup.
Defined.

Lemma unique_on_snoc {K} P (key : R → K) t r :
  unique_on P key (t ++ [r]) ↔ unique_on P key t ∧ (P r → ∀ s, s ∈ t → P s → key s ≠ key r).
Proof.
  split.
  - intros Hu. split.
    + intros i j a b Hi Hj. apply Hu; by apply lookup_app_l_Some.
    + intros HP s [i Hi]%list_elem_of_lookup HPs E.
      pose proof (lookup_lt_Some _ _ _ Hi).
      assert (i = length t); [|lia].
      apply (Hu i (length t) s r); auto; [by apply lookup_app_l_Some|by apply list_lookup_middle].
  - intros [Hu Hr] i j a b Hi Hj HPa HPb E.
    apply lookup_snoc_Some in Hi as [[??]|[-> ->]], Hj as [[??]|[-> ->]]; eauto.
    + exfalso. by eapply (Hr HPb a); [eapply list_elem_of_lookup_2|..].
    + exfalso. by eapply (Hr HPa b); [eapply list_elem_of_lookup_2|..].
Qed.

Lemma unique_on_filter {K} P Q `{∀ r, Decision (Q r)} (key : R → K) t :
  unique_on P key t → unique_on P key (filter Q t).
Proof.
  induction t as [|r t IH]; [done|]. rewrite unique_on_cons, filter_cons. intros [Hr Hu].
  case_decide; [|by apply IH]. rewrite unique_on_cons. split; [|by apply IH].
  intros HP s [? ?]%list_elem_of_filter. by apply Hr.
Qed.

Lemma lookup_update P `{∀ r, Decision (P r)} f t i :
  update_rows P f t !! i = upd P f <$> t !! i.
Proof. apply list_lookup_fmap. Qed.

Lemma elem_of_update P `{∀ r, Decision (P r)} f t r :
  r ∈ update_rows P f t ↔ ∃ s, s ∈ t ∧ r = upd P f s.
Proof. unfold update_rows. rewrite list_elem_of_fmap. naive_solver. Qed.

Lemma elem_of_delete P `{∀ r, Decision (P r)} t r :
  r ∈ delete_rows P t ↔ r ∈ t ∧ ¬ P r.
Proof. unfold delete_rows. rewrite list_elem_of_filter. tauto. Qed.

Lemma length_update P `{∀ r, Decision (P r)} f t : length (update_rows P f t) = length t.
Proof. apply length_fmap. Qed.

(** Rows may leave the index and keep their key. *)
Lemma unique_on_update {K} Q (key : R → K) P `{∀ r, Decision (P r)} f t :
  unique_on Q key t →
  (∀ r, r ∈ t → P r → Q (f r) → Q r ∧ key (f r) = key r) →
  unique_on Q key (update_rows P f t).
Proof.
  intros Hu Hf i j a b. rewrite !lookup_update.
  intros (r & Hr & ->)%fmap_Some (s & Hs & ->)%fmap_Some.
  pose proof (Hf r (list_elem_of_lookup_2 _ _ _ Hr)).
  pose proof (Hf s (list_elem_of_lookup_2 _ _ _ Hs)).
  unfold upd. repeat case_decide; intros; eapply Hu; eauto; naive_solver congruence.
Qed.

(** The updated rows may enter the index when no other row of the index has their key. *)
Lemma unique_on_update_enter {K} Q (key : R → K) P `{∀ r, Decision (P r)} f t :
  unique_on Q key t →
  (∀ i j r s, t !! i = Some r → t !! j = Some s → P r → P s →
     Q (f r) → Q (f s) → key (f r) = key (f s) → i = j) →
  (∀ r s, r ∈ t → s ∈ t → P r → ¬ P s → Q (f r) → Q s → key s ≠ key (f r)) →
  unique_on Q key (update_rows P f t).
Proof.
  intros Hu Hone Hnew i j a b. rewrite !lookup_update.
  intros (r & Hr & ->)%fmap_Some (s & Hs & ->)%fmap_Some.
  pose proof (list_elem_of_lookup_2 _ _ _ Hr). pose proof (list_elem_of_lookup_2 _ _ _ Hs).
  unfold upd. repeat case_decide; intros; eauto.
  - exfalso. eapply (Hnew r s); eauto.
  - exfalso. eapply (Hnew s r); eauto.
Qed.

Lemma count_rows_unique {K} Q (key : R → K) P `{∀ r, Decision (P r)} k t :
  unique_on Q key t → (∀ r, r ∈ t → P r → Q r ∧ key r = k) → count_rows P t ≤ 1.
Proof.
  induction t as [|r t IH]; [done|]. rewrite unique_on_cons. intros [Hr Hu] HP.
  rewrite count_rows_cons. specialize (IH Hu).
  case_decide as Hd; [|specialize (IH ltac:(intros; apply HP; [by constructor|done])); lia].
  destruct (HP r ltac:(constructor) Hd) as [HQ Hk].
  rewrite (proj2 (count_rows_zero P t)); [lia|]. intros s Hs HPs.
  destruct (HP s ltac:(by constructor) HPs) as [HQs Hks].
  apply (Hr HQ s Hs HQs). congruence.
Qed.

(** Counting after an update: the untouched rows and the touched ones. *)
Lemma count_rows_update Q P `{∀ r, Decision (P r), ∀ r, Decision (Q r)} f t :
  count_rows Q (update_rows P f t)
  = count_rows (λ r, Q r ∧ ¬ P r) t + count_rows (λ r, P r ∧ Q (f r)) t.
Proof.
  induction t as [|r t IH]; [done|]. unfold update_rows in *. rewrite fmap_cons.
  rewrite !count_rows_cons, IH. unfold upd. repeat case_decide; try lia; naive_solver.
Qed.

Lemma count_rows_split Q P `{∀ r, Decision (P r), ∀ r, Decision (Q r)} t :
  count_rows Q t = count_rows (λ r, Q r ∧ ¬ P r) t + count_rows (λ r, P r ∧ Q r) t.
Proof.
  induction t as [|r t IH]; [done|]. rewrite !count_rows_cons, IH.
  repeat case_decide; try lia; naive_solver.
Qed.

Lemma count_rows_update_same Q P `{∀ r, Decision (P r), ∀ r, Decision (Q r)} f t :
  (∀ r, r ∈ t → P r → Q (f r) ↔ Q r) → count_rows Q (update_rows P f t) = count_rows Q t.
Proof.
  intros Hf. rewrite count_rows_update, (count_rows_split Q P).
  f_equal. apply count_rows_ext. naive_solver.
Qed.

(** All touched rows enter [Q]. *)
Lemma count_rows_update_enter Q P `{∀ r, Decision (P r), ∀ r, Decision (Q r)} f t :
  (∀ r, r ∈ t → P r → Q (f r) ∧ ¬ Q r) →
  count_rows Q (update_rows P f t) = count_rows Q t + count_rows P t.
Proof.
  intros Hf. rewrite count_rows_update.
  rewrite (count_rows_ext (λ r, Q r ∧ ¬ P r) Q), (count_rows_ext (λ r, P r ∧ Q (f r)) P);
    [done|naive_solver..].
Qed.

(** No touched row is in [Q] afterwards. *)
Lemma count_rows_update_le Q P `{∀ r, Decision (P r), ∀ r, Decision (Q r)} f t :
  (∀ r, r ∈ t → P r → Q (f r) → Q r) → count_rows Q (update_rows P f t) ≤ count_rows Q t.
Proof.
  intros Hf. rewrite count_rows_update, (count_rows_split Q P t).
  apply Zplus_le_compat_l, count_rows_le. naive_solver.
Qed.

Lemma update_rows_none P `{∀ r, Decision (P r)} f t :
  (∀ r, r ∈ t → ¬ P r) → update_rows P f t = t.
Proof.
  intros Hn. unfold update_rows. rewrite <- (list_fmap_id t) at 2.
  apply list_fmap_ext. intros i r Hr. unfold upd. rewrite decide_False; [done|].
  by eapply Hn, list_elem_of_lookup_2.
Qed.

Lemma delete_rows_none P `{∀ r, Decision (P r)} t :
  (∀ r, r ∈ t → ¬ P r) → delete_rows P t = t.
Proof.
  unfold delete_rows. induction t as [|r t IH]; intros Hn; [done|].
  rewrite filter_cons_True by (apply Hn; constructor). f_equal. apply IH.
  intros s ?. apply Hn. by constructor.
Qed.

(** ** Sorting *)

Lemma insert_by_perm le r t : insert_by le r t ≡ₚ r :: t.
Proof.
  induction t as [|s t IH]; simpl; [done|]. destruct (le r s); [done|].
  rewrite IH. constructor.
Qed.

Lemma order_by_perm le t : order_by le t ≡ₚ t.
Proof. induction t as [|r t IH]; simpl; [done|]. by rewrite insert_by_perm, IH. Qed.

Lemma elem_of_order_by le t r : r ∈ order_by le t ↔ r ∈ t.
Proof. by rewrite order_by_perm. Qed.

Lemma length_order_by le t : length (order_by le t) = length t.
Proof. by rewrite order_by_perm. Qed.

Lemma insert_by_sorted le r t :
  (∀ a b, le a b = false → le b a = true) →
  Sorted le t → Sorted le (insert_by le r t).
Proof.
  intros Htot. induction 1 as [|s t Hs IH Hhd]; simpl; [repeat constructor|].
  destruct (le r s) eqn:E.
  - repeat constructor; [done|done|]. by rewrite E.
  - constructor; [done|]. destruct t as [|u t]; simpl; [constructor; by rewrite Htot|].
    destruct (le r u); constructor; [by rewrite Htot|by inversion Hhd].
Qed.

Lemma order_by_sorted le t :
  (∀ a b, le a b = false → le b a = true) → Sorted le (order_by le t).
Proof. intros ?. induction t; simpl; [constructor|]. by apply insert_by_sorted. Qed.

End table.
