(* ===== verification/StoreTypes.v ===== *)
(** * The state database: types, schema and validation (app/host/src/store.rs)

    [Db] holds the tables that [migrate] creates, a row type per table; text is a list
    of (UTF-8) bytes, a column declared [TEXT CHECK(.. IN ..)] is an enumeration.
    [schema_ok] is the conjunction of the CHECK, UNIQUE and FOREIGN KEY constraints.  An
    operation is a transaction [Tx A]: it returns the new database or an error, and an
    error leaves the database as it was (rusqlite rolls back a dropped transaction).
    [exec] runs one writing statement and fails with [Sqlite] when the constraints do not
    hold afterwards.  [unixepoch()] is the argument [now].  The crates uuid and serde_json
    are the [Externals] interface; paths are those of a unix build. *)

From S2P Require Import Prelude Bytes StrOps CacheRef Sql.

Definition SCHEMA_VERSION : Z := 6.
Definition MAX_PENDING_JOBS_PER_TASK : Z := 12.
Definition MAX_GLOBAL_RUNNING_JOBS : Z := 4.
Definition MAX_SUMMARY_COMPLETIONS_PER_CLAIM : Z := 32.
Definition MAX_REQUEST_ID_BYTES : Z := 128.
Definition MAX_TASK_ID_BYTES : Z := 64.
Definition MAX_PROMPT_BYTES : Z := 32 * 1024.
Definition MAX_CWD_BYTES : Z := 4 * 1024.
Definition MAX_ROLLOUT_PATH_BYTES : Z := 4 * 1024.
Definition MAX_TURN_PACK_BYTES : Z := 64 * 1024.
Definition MAX_SUMMARY_TURN_PACK_BYTES : Z := 1024 * 1024.

(** The last constructor is not of the source: it stands for a Rust panic. *)
Inductive StoreError :=
| Io | Sqlite | UnsupportedSchema (version : Z) | InvalidSlot | GenerationOutOfRange
| ClaimGenerationOutOfRange | AlreadyRunning | RequestIdConflict | InvalidJob
| TaskQueueFull | StatePathChanged | RolloutCursorChanged | BindingChanged
| CompletionConflict | InvalidCompletion | InvalidSummaryRequest | SummaryBusy
| SummaryRequestConflict | SummaryRequestAbandoned | SummaryGenerationOutOfRange
| SummaryClaimChanged | InvalidSummaryState | InvalidSummaryCacheReference
| SummaryTtsAttemptChanged | InvalidPlaybackLease | PlaybackBusy
| Panic.

#[export] Instance StoreError_eq_dec : EqDecision StoreError.
Proof. solve_decision. Defined.

(** ** Third-party code *)

Class Externals := {
  (** [uuid::Uuid::parse_str(s).is_ok()] *)
  uuid_ok : bytes → bool;
  (** [serde_json::to_string(&ids)] on a vector of strings *)
  json_of_strings : list bytes → option bytes;
  (** [serde_json::from_str::<Vec<String>>] *)
  json_to_strings : bytes → option (list bytes);
  (** [serde_json::from_str::<Value>(s).is_ok_and(|v| v.is_object())] *)
  json_is_object : bytes → bool;

  json_of_strings_total ids : is_Some (json_of_strings ids);
  json_to_of_strings ids s : json_of_strings ids = Some s → json_to_strings s = Some ids;
}.

Lemma json_of_strings_inj `{Externals} ids ids' s :
  json_of_strings ids = Some s → json_of_strings ids' = Some s → ids = ids'.
Proof. intros E%json_to_of_strings E'%json_to_of_strings. congruence. Qed.

(** ** Paths (unix) *)

Abbreviation text := bytes.
Abbreviation path := bytes.

Definition encode_path (p : path) : bytes := p.
Definition decode_path (b : bytes) : path := b.
Definition path_contains_nul (p : path) : bool := bool_decide (0 ∈ p).

(** [Path::is_absolute] on unix *)
Definition is_absolute (p : path) : bool :=
  match p with b :: _ => b =? 47 | [] => false end.

(** [Path] equality compares components: repeated separators, inner [.] and a trailing
    separator do not count. *)
Definition path_components (p : path) : bool * bool * list bytes :=
  let parts := split_on 47 p in
  (is_absolute p,
   negb (is_absolute p) && bool_decide (head parts = Some [46]),
   filter (λ c, c ≠ [] ∧ c ≠ [46]) parts).

Definition path_eqb (p q : path) : bool :=
  bool_decide (path_components p = path_components q).

(** The windows build stores UTF-16 code units, little endian. *)
Definition encode_path_windows (units : list Z) : bytes := mjoin (le_bytes 2 <$> units).

Fixpoint decode_units (b : bytes) : list Z :=
  match b with
  | lo :: hi :: rest => le_value [lo; hi] :: decode_units rest
  | _ => []
  end.

Definition decode_path_windows (b : bytes) : result StoreError (list Z) :=
  if negb (length b mod 2 =? 0)%nat then Err Sqlite else Ok (decode_units b).

(** ** Values the callers pass and receive *)

Record NewJob := {
  nj_request_id : text;
  nj_task_id : text;
  nj_slot : Z;
  nj_generation : Z;
  nj_prompt : text;
  nj_cwd : path;
}.

Record Job := {
  job_request_id : text;
  job_task_id : text;
  job_slot : Z;
  job_generation : Z;
  job_prompt : text;
  job_cwd : path;
  job_recovery_count : Z;
  job_claim_generation : Z;
}.

Inductive JobFailureKind :=
| CliMissing | FailAuthentication | TaskArchived | ActiveSession | Timeout | InvalidOutput
| OutputTooLarge | UnsafeWorkingDirectory | ProcessIo | ExitFailure.

#[export] Instance JobFailureKind_eq_dec : EqDecision JobFailureKind.
Proof. solve_decision. Defined.

Definition failure_as_str (k : JobFailureKind) : text :=
  ascii_bytes
    match k with
    | CliMissing => "cli_missing"
    | FailAuthentication => "authentication"
    | TaskArchived => "task_archived"
    | ActiveSession => "active_session"
    | Timeout => "timeout"
    | InvalidOutput => "invalid_output"
    | OutputTooLarge => "output_too_large"
    | UnsafeWorkingDirectory => "unsafe_working_directory"
    | ProcessIo => "process_io"
    | ExitFailure => "exit_failure"
    end.

Inductive EnqueueOutcome := EnqueueInserted | EnqueueReplay.

Record Binding := mk_binding {
  bd_slot : Z;
  bd_task_id : text;
  bd_generation : Z;
}.

Record MailboxStatusSnapshot := mk_snapshot {
  ms_unread_slots : Z;
  ms_coverage_by_slot : list Z;
}.

Record RolloutCursor := mk_cursor {
  rc_task_id : text;
  rc_rollout_path : path;
  rc_device : Z;
  rc_inode : Z;
  rc_offset : Z;
  rc_generation : Z;
  rc_anchor : bytes;
}.

Inductive CompletionOutcome := CompletionInserted | CompletionReplay.
Inductive SummaryClaimOutcome := ClaimInserted | ClaimReplay.

Record PendingSummaryCompletion := mk_pending {
  pc_completion_id : text;
  pc_turn_pack : text;
}.

Record UnreadSummary := mk_unread {
  us_task_id : text;
  us_generation : Z;
  us_cache_object : text;
  us_coverage_count : Z;
}.

Record SummaryPlaybackLease := mk_lease {
  pl_lease : Z;
  pl_slot : Z;
  pl_task_id : text;
  pl_summary_generation : Z;
  pl_request_generation : Z;
  pl_connection_generation : Z;
  pl_cache_object : text;
}.

Record SummaryClaim := mk_claim {
  sc_outcome : SummaryClaimOutcome;
  sc_request_id : text;
  sc_task_id : text;
  sc_generation : Z;
  sc_previous_unread : option UnreadSummary;
  sc_completions : list PendingSummaryCompletion;
}.

Inductive SummaryClaimResult :=
| Claimed (claim : SummaryClaim)
| Published (task_id : text) (generation : Z).

Inductive SummaryTtsAttemptState := Started | Ambiguous.

#[export] Instance Binding_eq_dec : EqDecision Binding.
Proof. solve_decision. Defined.
#[export] Instance PendingSummaryCompletion_eq_dec : EqDecision PendingSummaryCompletion.
Proof. solve_decision. Defined.
#[export] Instance UnreadSummary_eq_dec : EqDecision UnreadSummary.
Proof. solve_decision. Defined.
#[export] Instance SummaryPlaybackLease_eq_dec : EqDecision SummaryPlaybackLease.
Proof. solve_decision. Defined.
#[export] Instance SummaryTtsAttemptState_eq_dec : EqDecision SummaryTtsAttemptState.
Proof. solve_decision. Defined.

(** Derived [PartialEq] of [RolloutCursor]: paths compare by components. *)
Definition cursor_eqb (a b : RolloutCursor) : bool :=
  bool_decide (rc_task_id a = rc_task_id b) && path_eqb (rc_rollout_path a) (rc_rollout_path b)
  && (rc_device a =? rc_device b) && (rc_inode a =? rc_inode b)
  && (rc_offset a =? rc_offset b) && (rc_generation a =? rc_generation b)
  && bool_decide (rc_anchor a = rc_anchor b).

Definition option_cursor_eqb (a b : option RolloutCursor) : bool :=
  match a, b with
  | Some a, Some b => cursor_eqb a b
  | None, None => true
  | _, _ => false
  end.

(** ** Rows *)

Record BindingRow := mk_binding_row {
  br_slot : Z;
  br_task_id : text;
  br_generation : Z;
  br_updated_at : Z;
}.

Inductive JobState := Queued | Running | Completed | Failed.

#[export] Instance JobState_eq_dec : EqDecision JobState.
Proof. solve_decision. Defined.

Definition job_state_text (s : JobState) : text :=
  ascii_bytes
    match s with
    | Queued => "queued" | Running => "running"
    | Completed => "completed" | Failed => "failed"
    end.

Record JobRow := mk_job_row {
  jb_sequence : Z;
  jb_request_id : text;
  jb_task_id : text;
  jb_slot : Z;
  jb_generation : Z;
  jb_prompt : text;
  jb_cwd : bytes;
  jb_state : JobState;
  jb_recovery_count : Z;
  jb_claim_generation : Z;
  jb_failure_kind : option JobFailureKind;
  jb_created_at : Z;
  jb_updated_at : Z;
}.

Record CompletionRow := mk_completion_row {
  cp_rowid : Z;
  cp_completion_id : text;
  cp_task_id : text;
  cp_rollout_cursor : text;
  cp_observed_at : Z;
  cp_summarized_generation : option Z;
  cp_turn_pack : text;
}.

Record CursorRow := mk_cursor_row {
  cr_task_id : text;
  cr_rollout_path : bytes;
  cr_device : Z;
  cr_inode : Z;
  cr_offset : Z;
  cr_generation : Z;
  cr_anchor : bytes;
  cr_updated_at : Z;
}.

Inductive SummaryState :=
| Generating | Interrupted | Abandoned | Unheard | Leased | Heard | Superseded.

#[export] Instance SummaryState_eq_dec : EqDecision SummaryState.
Proof. solve_decision. Defined.

Record SummaryRow := mk_summary_row {
  sm_task_id : text;
  sm_generation : Z;
  sm_state : SummaryState;
  sm_covers_completions : text;
  sm_cache_object : option text;
  sm_request_id : option text;
  sm_claim_id : option text;
  sm_previous_generation : option Z;
  sm_superseded_by : option Z;
  sm_created_at : Z;
  sm_updated_at : Z;
}.

Record AttemptRow := mk_attempt_row {
  at_task_id : text;
  at_generation : Z;
  at_state : SummaryTtsAttemptState;
  at_created_at : Z;
  at_updated_at : Z;
}.

Record LeaseRow := mk_lease_row {
  lr_lease_id : Z;
  lr_task_id : text;
  lr_summary_generation : Z;
  lr_slot : Z;
  lr_request_generation : Z;
  lr_connection_generation : Z;
  lr_created_at : Z;
  lr_updated_at : Z;
}.

(** [db_job_sequence] is the AUTOINCREMENT counter of [jobs]. *)
Record Db := mk_db {
  db_bindings : list BindingRow;
  db_jobs : list JobRow;
  db_job_sequence : Z;
  db_completions : list CompletionRow;
  db_cursors : list CursorRow;
  db_summaries : list SummaryRow;
  db_attempts : list AttemptRow;
  db_leases : list LeaseRow;
}.

#[export] Instance BindingRow_eq_dec : EqDecision BindingRow.
Proof. solve_decision. Defined.
#[export] Instance JobRow_eq_dec : EqDecision JobRow.
Proof. solve_decision. Defined.
#[export] Instance CompletionRow_eq_dec : EqDecision CompletionRow.
Proof. solve_decision. Defined.
#[export] Instance SummaryRow_eq_dec : EqDecision SummaryRow.
Proof. solve_decision. Defined.
#[export] Instance LeaseRow_eq_dec : EqDecision LeaseRow.
Proof. solve_decision. Defined.

(** A freshly created database ([migrate] from version 0). *)
Definition empty_db : Db := mk_db [] [] 0 [] [] [] [] [].

(** ** Columns an UPDATE sets *)

Definition set_job (state : JobState) (recovery_count claim_generation : Z)
    (failure_kind : option JobFailureKind) (updated_at : Z) (r : JobRow) : JobRow :=
  {| jb_sequence := jb_sequence r; jb_request_id := jb_request_id r;
     jb_task_id := jb_task_id r; jb_slot := jb_slot r; jb_generation := jb_generation r;
     jb_prompt := jb_prompt r; jb_cwd := jb_cwd r; jb_state := state;
     jb_recovery_count := recovery_count; jb_claim_generation := claim_generation;
     jb_failure_kind := failure_kind; jb_created_at := jb_created_at r;
     jb_updated_at := updated_at |}.

Definition set_summary (state : SummaryState) (cache_object claim_id : option text)
    (superseded_by : option Z) (updated_at : Z) (r : SummaryRow) : SummaryRow :=
  {| sm_task_id := sm_task_id r; sm_generation := sm_generation r; sm_state := state;
     sm_covers_completions := sm_covers_completions r; sm_cache_object := cache_object;
     sm_request_id := sm_request_id r; sm_claim_id := claim_id;
     sm_previous_generation := sm_previous_generation r;
     sm_superseded_by := superseded_by; sm_created_at := sm_created_at r;
     sm_updated_at := updated_at |}.

(** [SET state = .., updated_at = unixepoch()] *)
Definition set_summary_state (state : SummaryState) (now : Z) (r : SummaryRow) : SummaryRow :=
  set_summary state (sm_cache_object r) (sm_claim_id r) (sm_superseded_by r) now r.

Definition set_summarized (generation : Z) (r : CompletionRow) : CompletionRow :=
  {| cp_rowid := cp_rowid r; cp_completion_id := cp_completion_id r;
     cp_task_id := cp_task_id r; cp_rollout_cursor := cp_rollout_cursor r;
     cp_observed_at := cp_observed_at r; cp_summarized_generation := Some generation;
     cp_turn_pack := cp_turn_pack r |}.

Definition set_attempt (state : SummaryTtsAttemptState) (now : Z) (r : AttemptRow)
    : AttemptRow :=
  {| at_task_id := at_task_id r; at_generation := at_generation r; at_state := state;
     at_created_at := at_created_at r; at_updated_at := now |}.

(** ** The schema *)

Definition any {R} (_ : R) : Prop := True.
#[export] Instance any_dec {R} (r : R) : Decision (any r).
Proof. left. exact I. Defined.

Definition slot_check (s : Z) : Prop := 1 ≤ s ≤ 4.

Definition job_running (r : JobRow) : Prop := jb_state r = Running.
Definition job_check (r : JobRow) : Prop :=
  slot_check (jb_slot r) ∧ 0 ≤ jb_generation r ∧ 0 ≤ jb_recovery_count r ≤ 4294967295
  ∧ 0 ≤ jb_claim_generation r.

(** [state IN ('generating', 'interrupted')] *)
Definition active_claim (r : SummaryRow) : Prop :=
  sm_state r = Generating ∨ sm_state r = Interrupted.
(** [state IN ('unheard', 'leased') AND superseded_by IS NULL] *)
Definition current_unread (r : SummaryRow) : Prop :=
  (sm_state r = Unheard ∨ sm_state r = Leased) ∧ sm_superseded_by r = None.
Definition published (r : SummaryRow) : Prop :=
  sm_state r = Unheard ∨ sm_state r = Leased ∨ sm_state r = Heard ∨ sm_state r = Superseded.

Definition summary_check (r : SummaryRow) : Prop :=
  0 < sm_generation r
  ∧ match sm_previous_generation r with Some p => 0 < p | None => True end
  ∧ match sm_superseded_by r with Some s => sm_generation r < s | None => True end
  ∧ (active_claim r ∧ sm_claim_id r ≠ None ∧ sm_cache_object r = None
     ∨ sm_state r = Abandoned ∧ sm_claim_id r = None ∧ sm_cache_object r = None
     ∨ published r ∧ sm_claim_id r = None).

Definition cursor_check (r : CursorRow) : Prop :=
  0 ≤ cr_device r ∧ 0 ≤ cr_inode r ∧ 0 ≤ cr_offset r ∧ 0 < cr_generation r
  ∧ length (cr_anchor r) = 32%nat.

Definition lease_check (r : LeaseRow) : Prop :=
  0 < lr_lease_id r ∧ 0 < lr_summary_generation r ∧ slot_check (lr_slot r)
  ∧ 0 < lr_request_generation r ∧ 0 < lr_connection_generation r.

Definition sm_key (r : SummaryRow) : text * Z := (sm_task_id r, sm_generation r).
Definition at_key (r : AttemptRow) : text * Z := (at_task_id r, at_generation r).
Definition lr_key (r : LeaseRow) : text * Z := (lr_task_id r, lr_summary_generation r).

Definition bindings_schema (t : list BindingRow) : Prop :=
  unique_on any br_slot t ∧ Forall (λ r, slot_check (br_slot r) ∧ 0 < br_generation r) t.
Definition jobs_schema (t : list JobRow) : Prop :=
  unique_on any jb_sequence t ∧ unique_on any jb_request_id t
  ∧ unique_on job_running jb_task_id t ∧ Forall job_check t.
Definition completions_schema (t : list CompletionRow) : Prop :=
  unique_on any cp_completion_id t.
Definition cursors_schema (t : list CursorRow) : Prop :=
  unique_on any cr_task_id t ∧ Forall cursor_check t.
Definition summaries_schema (t : list SummaryRow) : Prop :=
  unique_on any sm_key t ∧ unique_on active_claim sm_task_id t
  ∧ unique_on (λ r, sm_request_id r ≠ None) sm_request_id t
  ∧ unique_on current_unread sm_task_id t ∧ Forall summary_check t.
Definition attempts_schema (s : list SummaryRow) (t : list AttemptRow) : Prop :=
  unique_on any at_key t ∧ Forall (λ r, 0 < at_generation r) t
  ∧ Forall (λ r, at_key r ∈ sm_key <$> s) t.
Definition leases_schema (s : list SummaryRow) (t : list LeaseRow) : Prop :=
  unique_on any lr_lease_id t ∧ unique_on any lr_key t ∧ Forall lease_check t
  ∧ Forall (λ r, lr_key r ∈ sm_key <$> s) t.

Definition schema_ok (db : Db) : Prop :=
  bindings_schema (db_bindings db) ∧ jobs_schema (db_jobs db)
  ∧ completions_schema (db_completions db) ∧ cursors_schema (db_cursors db)
  ∧ summaries_schema (db_summaries db)
  ∧ attempts_schema (db_summaries db) (db_attempts db)
  ∧ leases_schema (db_summaries db) (db_leases db).

#[export] Instance job_running_dec r : Decision (job_running r).
Proof. unfold job_running. apply _. Defined.
#[export] Instance active_claim_dec r : Decision (active_claim r).
Proof. unfold active_claim. apply _. Defined.
#[export] Instance current_unread_dec r : Decision (current_unread r).
Proof. unfold current_unread. apply _. Defined.
#[export] Instance published_dec r : Decision (published r).
Proof. unfold published. apply _. Defined.
#[export] Instance summary_check_dec r : Decision (summary_check r).
Proof.
  unfold summary_check. destruct (sm_previous_generation r), (sm_superseded_by r); apply _.
Defined.
#[export] Instance schema_ok_dec db : Decision (schema_ok db).
Proof.
  unfold schema_ok, bindings_schema, jobs_schema, completions_schema, cursors_schema,
    summaries_schema, attempts_schema, leases_schema, job_check, cursor_check, lease_check,
    slot_check. apply _.
Defined.

(** ** Transactions *)

Definition Tx (A : Type) : Type := Db → result StoreError (A * Db).

Definition tret {A} (a : A) : Tx A := λ db, Ok (a, db).
Definition tbind {A B} (m : Tx A) (k : A → Tx B) : Tx B :=
  λ db, let? r := m db in k r.1 r.2.
Definition throw {A} (e : StoreError) : Tx A := λ _, Err e.
Definition lift {A} (r : result StoreError A) : Tx A := λ db, let? a := r in Ok (a, db).
Definition query {A} (q : Db → A) : Tx A := λ db, Ok (q db, db).
Definition query_result {A} (q : Db → result StoreError A) : Tx A :=
  λ db, let? a := q db in Ok (a, db).
(** [transaction.rollback()?; return Ok(a)] *)
Definition rollback_ok {A} (db0 : Db) (a : A) : Tx A := λ _, Ok (a, db0).

(** One writing statement: the new tables and the number of changed rows. *)
Definition exec (stmt : Db → Db * Z) : Tx Z :=
  λ db, let '(db', changed) := stmt db in
        if decide (schema_ok db') then Ok (changed, db') else Err Sqlite.

Notation "'let!' x ':=' m 'in' k" := (tbind m (λ x, k))
  (at level 10, x binder, m at level 100, k at level 200) : result_scope.

(** ** Conversions *)

(** [value as u64] of an i64, and [value as i64] of a u64 *)
Definition as_u64 (v : Z) : Z := v mod 18446744073709551616.
Definition as_i64 (v : Z) : Z :=
  let m := v mod 18446744073709551616 in
  if m <=? i64_max then m else m - 18446744073709551616.

Definition to_i64 (v : Z) : result StoreError Z :=
  if v <=? i64_max then Ok v else Err GenerationOutOfRange.
Definition to_sql_i64 (v : Z) : result StoreError Z :=
  if v <=? i64_max then Ok v else Err InvalidCompletion.

(** [row.get::<_, u8>] and [row.get::<_, u32>] *)
Definition sql_u8 (v : Z) : result StoreError Z :=
  if (0 <=? v) && (v <=? u8_max) then Ok v else Err Sqlite.
Definition sql_u32 (v : Z) : result StoreError Z :=
  if (0 <=? v) && (v <=? u32_max) then Ok v else Err Sqlite.

Definition blen (b : bytes) : Z := Z.of_nat (length b).

(** ** Validation *)

Definition is_ascii_control (b : Z) : bool := (b <? 32) || (b =? 127).

(** The three-byte UTF-8 encodings of Unicode white space. *)
Definition wide_space (b c d : Z) : bool :=
  (b =? 225) && (c =? 154) && (d =? 128)
  || (b =? 226) && (c =? 128)
     && ((128 <=? d) && (d <=? 138) || (d =? 168) || (d =? 169) || (d =? 175))
  || (b =? 226) && (c =? 129) && (d =? 159)
  || (b =? 227) && (c =? 128) && (d =? 128).

(** [s.trim().is_empty()] on UTF-8 text *)
Fixpoint trim_is_empty (s : text) : bool :=
  match s with
  | [] => true
  | b :: s1 =>
      if (9 <=? b) && (b <=? 13) || (b =? 32) then trim_is_empty s1
      else match s1 with
           | c :: s2 =>
               if (b =? 194) && ((c =? 133) || (c =? 160)) then trim_is_empty s2
               else match s2 with
                    | d :: s3 => if wide_space b c d then trim_is_empty s3 else false
                    | [] => false
                    end
           | [] => false
           end
  end.

Definition validate_slot (slot : Z) : result StoreError unit :=
  require ((1 <=? slot) && (slot <=? 4)) InvalidSlot.

Definition id_text_ok (max : Z) (s : text) : bool :=
  negb (length s =? 0)%nat && (blen s <=? max) && negb (existsb is_ascii_control s).

Definition validate_job (job : NewJob) : result StoreError unit :=
  let request_ok := id_text_ok MAX_REQUEST_ID_BYTES (nj_request_id job) in
  let task_ok := id_text_ok MAX_TASK_ID_BYTES (nj_task_id job) in
  let prompt_ok := negb (trim_is_empty (nj_prompt job)) && (blen (nj_prompt job) <=? MAX_PROMPT_BYTES) in
  let cwd := encode_path (nj_cwd job) in
  let cwd_ok := is_absolute (nj_cwd job) && negb (length cwd =? 0)%nat
                && (blen cwd <=? MAX_CWD_BYTES) && negb (path_contains_nul (nj_cwd job)) in
  require (request_ok && task_ok && prompt_ok && cwd_ok) InvalidJob.

Section validation.
Context `{Externals, Crypto}.

Definition validate_summary_request (task_id request_id : text) : result StoreError unit :=
  let request_valid := id_text_ok MAX_REQUEST_ID_BYTES request_id in
  require (uuid_ok task_id && request_valid) InvalidSummaryRequest.

(** The loop of [validate_summary_claim]: [total] bytes so far. *)
Fixpoint validate_completions (total : Z) (cs : list PendingSummaryCompletion)
    : result StoreError unit :=
  match cs with
  | [] => Ok tt
  | c :: cs =>
      let? total := of_option InvalidSummaryRequest
                      (checked_add u64_max total (blen (pc_turn_pack c))) in
      if negb (uuid_ok (pc_completion_id c)) || (length (pc_turn_pack c) =? 0)%nat
         || (MAX_TURN_PACK_BYTES <? blen (pc_turn_pack c))
         || (MAX_SUMMARY_TURN_PACK_BYTES <? total)
      then Err InvalidSummaryRequest
      else validate_completions total cs
  end.

Definition validate_summary_claim (claim : SummaryClaim) : result StoreError unit :=
  let? _ := validate_summary_request (sc_task_id claim) (sc_request_id claim) in
  if (sc_generation claim =? 0)
     || (length (sc_completions claim) =? 0)%nat
     || (MAX_SUMMARY_COMPLETIONS_PER_CLAIM <? Z.of_nat (length (sc_completions claim)))
     || match sc_previous_unread claim with
        | Some previous => negb (bool_decide (us_task_id previous = sc_task_id claim))
        | None => false
        end
  then Err InvalidSummaryRequest
  else validate_completions 0 (sc_completions claim).

Definition validate_playback_lease (lease : SummaryPlaybackLease) : result StoreError unit :=
  let? _ := validate_slot (pl_slot lease) in
  let cache_matches :=
    match from_reference (pl_cache_object lease),
          for_task (pl_task_id lease) (pl_summary_generation lease) with
    | Ok actual, Ok expected => bool_decide (actual = expected)
    | _, _ => false
    end in
  if (pl_lease lease =? 0) || (i64_max <? pl_lease lease)
     || (pl_summary_generation lease =? 0) || (i64_max <? pl_summary_generation lease)
     || (pl_request_generation lease =? 0) || (pl_connection_generation lease =? 0)
     || negb (uuid_ok (pl_task_id lease)) || negb cache_matches
  then Err InvalidPlaybackLease
  else Ok tt.

Definition validate_rollout_completion (expected : option RolloutCursor) (next : RolloutCursor)
    (completion_id turn_pack : text) : result StoreError unit :=
  let path := encode_path (rc_rollout_path next) in
  let base_valid :=
    uuid_ok (rc_task_id next) && uuid_ok completion_id
    && is_absolute (rc_rollout_path next) && negb (length path =? 0)%nat
    && (blen path <=? MAX_ROLLOUT_PATH_BYTES)
    && negb (path_contains_nul (rc_rollout_path next))
    && (0 <? rc_generation next)
    && negb (bool_decide (rc_anchor next = replicate 32 0))
    && negb (length turn_pack =? 0)%nat && (blen turn_pack <=? MAX_TURN_PACK_BYTES)
    && json_is_object turn_pack in
  let transition_valid :=
    match expected with
    | None => rc_generation next =? 1
    | Some previous =>
        bool_decide (rc_task_id previous = rc_task_id next)
        && (path_eqb (rc_rollout_path previous) (rc_rollout_path next)
            && (rc_device previous =? rc_device next) && (rc_inode previous =? rc_inode next)
            && (rc_generation previous =? rc_generation next)
            && (rc_offset previous <=? rc_offset next)
            || (rc_generation next =? saturating_add u64_max (rc_generation previous) 1))
    end in
  require (base_valid && transition_valid) InvalidCompletion.

End validation.

(** ** Running transactions backwards *)

Section tx.
Context {A B : Type}.
Implicit Types (m : Tx A) (k : A → Tx B) (db : Db).

Lemma tbind_ok m k db b db' :
  tbind m k db = Ok (b, db') ↔ ∃ a db1, m db = Ok (a, db1) ∧ k a db1 = Ok (b, db').
Proof. unfold tbind. rewrite rbind_ok. split; [intros ([??]&?&?)|intros (?&?&?&?)]; eauto. Qed.

Lemma tbind_run m k db a db1 : m db = Ok (a, db1) → tbind m k db = k a db1.
Proof. unfold tbind. by intros ->. Qed.

Lemma tbind_err m k db e :
  tbind m k db = Err e ↔ m db = Err e ∨ ∃ a db1, m db = Ok (a, db1) ∧ k a db1 = Err e.
Proof.
  unfold tbind. rewrite rbind_err. split; (intros [?|?]; [by left|right]).
  - destruct H as ([??]&?&?); eauto.
  - destruct H as (?&?&?&?); eauto.
Qed.

Lemma tret_ok (a b : A) db db' : tret a db = Ok (b, db') ↔ a = b ∧ db = db'.
Proof. unfold tret. naive_solver. Qed.

Lemma lift_ok (r : result StoreError A) db a db' : lift r db = Ok (a, db') ↔ r = Ok a ∧ db = db'.
Proof. unfold lift. rewrite rbind_ok. naive_solver. Qed.

Lemma query_ok (q : Db → A) db a db' : query q db = Ok (a, db') ↔ q db = a ∧ db = db'.
Proof. unfold query. naive_solver. Qed.

Lemma query_result_ok (q : Db → result StoreError A) db a db' :
  query_result q db = Ok (a, db') ↔ q db = Ok a ∧ db = db'.
Proof. unfold query_result. rewrite rbind_ok. naive_solver. Qed.

Lemma rollback_ok_ok db0 (a b : A) db db' :
  rollback_ok db0 a db = Ok (b, db') ↔ a = b ∧ db0 = db'.
Proof. unfold rollback_ok. naive_solver. Qed.
End tx.

Lemma exec_ok stmt db n db' :
  exec stmt db = Ok (n, db') ↔ stmt db = (db', n) ∧ schema_ok db'.
Proof.
  unfold exec. destruct (stmt db) as [db1 m]. destruct (decide _); naive_solver.
Qed.

Lemma exec_run stmt db db' n : stmt db = (db', n) → schema_ok db' → exec stmt db = Ok (n, db').
Proof. intros. by apply exec_ok. Qed.

Lemma exec_err stmt db e : exec stmt db = Err e ↔ e = Sqlite ∧ ¬ schema_ok (stmt db).1.
Proof.
  unfold exec. destruct (stmt db) as [db1 m]. simpl. destruct (decide _); naive_solver.
Qed.

(** [run_tx H] takes [H : tx db = Ok (v, db')] apart, one statement at a time. *)
Ltac run_tx_step H :=
  lazymatch type of H with
  | tbind _ _ _ = Ok _ =>
      let a := fresh "a" in let db := fresh "db" in let Ha := fresh "Hrun" in
      apply tbind_ok in H as (a & db & Ha & H); cbn beta in H; run_tx_leaf Ha
  | _ => run_tx_leaf H
  end
with run_tx_leaf H :=
  lazymatch type of H with
  | tret _ _ = Ok _ => apply tret_ok in H as [H ?]; subst
  | lift _ _ = Ok _ => apply lift_ok in H as [H ?]; subst
  | query _ _ = Ok _ => apply query_ok in H as [H ?]; subst
  | query_result _ _ = Ok _ => apply query_result_ok in H as [H ?]; subst
  | rollback_ok _ _ _ = Ok _ => apply rollback_ok_ok in H as [H ?]; subst
  | exec _ _ = Ok _ =>
      let Hs := fresh "Hschema" in apply exec_ok in H as [H Hs]
  | throw _ _ = Ok _ => discriminate H
  | (if ?c then _ else _) _ = Ok _ => let Hc := fresh "Hif" in destruct c eqn:Hc
  | (match ?x with _ => _ end) _ = Ok _ => let Hc := fresh "Hcase" in destruct x eqn:Hc
  | _ => idtac
  end.
Ltac run_tx H := repeat (progress run_tx_step H).

(** The database and the count of a statement that ran, still folded. *)
Ltac exec_result H :=
  let E := fresh H in
  pose proof (f_equal fst H) as E; apply (f_equal snd) in H; cbn [fst snd] in E, H;
  first [subst | idtac].

Lemma to_i64_ok v w : to_i64 v = Ok w ↔ w = v ∧ v ≤ i64_max.
Proof. unfold to_i64. destruct (Z.leb_spec v i64_max); split; [intros [=]|..]; naive_solver lia. Qed.

Lemma sql_u8_ok v w : sql_u8 v = Ok w ↔ w = v ∧ in_u8 v.
Proof.
  unfold sql_u8, in_u8. destruct (Z.leb_spec 0 v), (Z.leb_spec v u8_max); simpl;
    split; try (intros [=]); naive_solver lia.
Qed.

Lemma sql_u32_ok v w : sql_u32 v = Ok w ↔ w = v ∧ in_u32 v.
Proof.
  unfold sql_u32, in_u32. destruct (Z.leb_spec 0 v), (Z.leb_spec v u32_max); simpl;
    split; try (intros [=]); naive_solver lia.
Qed.

Lemma to_i64_fit v : v ≤ i64_max → to_i64 v = Ok v.
Proof. intros. by apply to_i64_ok. Qed.
Lemma sql_u8_fit v : in_u8 v → sql_u8 v = Ok v.
Proof. intros. by apply sql_u8_ok. Qed.
Lemma sql_u32_fit v : in_u32 v → sql_u32 v = Ok v.
Proof. intros. by apply sql_u32_ok. Qed.

Lemma as_u64_small v : 0 ≤ v ≤ u64_max → as_u64 v = v.
Proof. intros. unfold as_u64. apply Z.mod_small. width_lia. Qed.

Lemma as_i64_small v : 0 ≤ v ≤ i64_max → as_i64 v = v.
Proof.
  intros. unfold as_i64. rewrite Z.mod_small by width_lia.
  by rewrite (proj2 (Z.leb_le _ _)) by lia.
Qed.
