(* ===== verification/Redact.v ===== *)
(** * Redaction of observed text (app/host/src/rollout_observer.rs, [redact_*])

    Every message, tool name and tool status of a rollout passes through
    [redact_sensitive_text] before it is kept.  The functions work on byte positions of a
    UTF-8 text, and slicing a [str] panics when a bound is out of order, out of range or
    not a character boundary: [str_slice] makes that outcome a value. *)

From S2P Require Import Prelude Bytes StrOps.

(** [ObserverError]; the errors of the parts it wraps are not distinguished further. *)
Inductive ObserverError :=
| ObserverCatalog | ObserverStore | ObserverIo | UnsafePath | InvalidRollout | RolloutTooLarge
| TurnPackTooLarge | GenerationOverflow.

#[export] Instance ObserverError_eq_dec : EqDecision ObserverError.
Proof. solve_decision. Defined.

(** How a computation of the observer ends early: an error it returns, or a panic. *)
Inductive Fault := Fail (e : ObserverError) | Panic.

#[export] Instance Fault_eq_dec : EqDecision Fault.
Proof. solve_decision. Defined.

(** [&s[a..b]] *)
Definition str_slice (a b : nat) (s : bytes) : result Fault bytes :=
  if (a <=? b)%nat && (b <=? length s)%nat && is_char_boundary s a && is_char_boundary s b
  then Ok (slice a (b - a) s) else Err Panic.

(** ** Lines that name a secret *)

Definition SENSITIVE_KEYS : list bytes := ascii_bytes <$>
  ["api_key"; "api-key"; "apikey"; "authorization"; "access_token"; "access-token";
   "refresh_token"; "refresh-token"; "token"; "secret"; "password"; "cookie"; "set-cookie";
   "client_secret"; "client-secret"; "aws_secret_access_key"; "aws-secret-access-key";
   "credential"; "credentials"; "private_key"]%string.

(** The test made at one match of a key: [before] and [suffix] are the text around it. *)
Definition assigned (before suffix : bytes) : bool :=
  if last_is is_alnum before then false
  else
    let suffix := if head_is (one_of [34; 39]) suffix then drop 1 suffix else suffix in
    let suffix := skip_while ascii_space suffix in
    head_is (one_of [58; 61]) suffix.

(** [line.match_indices(key).any(..)]; [before] is the text already passed. *)
Fixpoint key_assigned (fuel : nat) (key before rest : bytes) : bool :=
  match fuel with
  | O => false
  | S fuel =>
      match find_str key rest with
      | None => false
      | Some i =>
          let before := before ++ take i rest in
          let suffix := drop (i + length key) rest in
          assigned before suffix || key_assigned fuel key (before ++ key) suffix
      end
  end.

Definition contains_sensitive_assignment (line : bytes) : bool :=
  existsb (λ key, key_assigned (S (length line)) key [] line) SENSITIVE_KEYS.

(** ** Credentials in URLs *)

Definition URL_SCHEMES : list bytes := ascii_bytes <$>
  ["https://"; "http://"; "wss://"; "ws://"]%string.

(** The earliest scheme in [lower], with its length. *)
Definition first_scheme (lower : bytes) : option (nat * nat) :=
  foldr (λ scheme best,
    match find_str scheme lower, best with
    | None, _ => best
    | Some i, Some (j, w) => if (i <=? j)%nat then Some (i, length scheme) else Some (j, w)
    | Some i, None => Some (i, length scheme)
    end) None URL_SCHEMES.

Definition ends_authority (t : bytes) : bool :=
  starts_space t || head_is (one_of [47; 63; 35; 34; 96; 60; 62]) t.

(** The loop, on the text from the cursor on. *)
Fixpoint redact_url_fuel (fuel : nat) (rest : bytes) : bytes :=
  match fuel with
  | O => []
  | S fuel =>
      match rest with
      | [] => []
      | _ =>
          match first_scheme (lowercase rest) with
          | None => rest
          | Some (relative, width) =>
              let authority_start := (relative + width)%nat in
              let tail := drop authority_start rest in
              let len := default (length tail) (find_char ends_authority tail) in
              let authority := take len tail in
              take authority_start rest
              ++ (match after_last (Z.eqb 64) authority with
                  | O => authority
                  | S _ as at_ => ascii_bytes "[redacted-credential]@" ++ drop at_ authority
                  end)
              ++ redact_url_fuel fuel (drop len tail)
          end
      end
  end.
Definition redact_url_userinfo (line : bytes) : bytes := redact_url_fuel (S (length line)) line.

(** ** Secret tokens *)

Definition is_token_character (b : Z) : bool := is_alnum b || one_of [45; 95; 46; 47; 43; 61] b.

Definition SECRET_PREFIXES : list bytes := ascii_bytes <$>
  ["sk-"; "ghp_"; "github_pat_"; "xoxb-"; "xoxp-"; "AKIA"; "ASIA"; "AIza"]%string.

Definition trim_matches (P : Z → bool) (s : bytes) : bytes :=
  rev (skip_while P (rev (skip_while P s))).

Definition looks_like_secret_token (token : bytes) : bool :=
  let token := trim_matches (one_of [96; 34; 39; 44; 59; 41; 93; 125]) token in
  let token := after_last_byte 61 token in
  let known_prefix := existsb (λ p, has_prefix p token && (length p + 8 <=? length token)%nat)
                        SECRET_PREFIXES in
  let jwt := has_prefix (ascii_bytes "eyJ") token && (length (split_on 46 token) =? 3)%nat
             && forallb (λ seg, 8 <=? length seg)%nat (split_on 46 token) in
  let git_sha := (length token =? 40)%nat && forallb is_hexdigit token in
  let high_entropy := negb git_sha && (32 <=? length token)%nat && existsb is_alpha token
                      && existsb is_digit token
                      && forallb (λ b, is_alnum b || one_of [45; 95; 43; 61] b) token in
  known_prefix || jwt || high_entropy.

Definition REDACTED_TOKEN : bytes := ascii_bytes "[redacted-token]".

(** The loop, on the text from the cursor on. *)
Fixpoint redact_tokens_fuel (fuel : nat) (rest : bytes) : bytes :=
  match fuel with
  | O => []
  | S fuel =>
      match rest with
      | [] => []
      | _ =>
          match find_char (head_is is_token_character) rest with
          | None => rest
          | Some start =>
              let tail := drop start rest in
              let len := default (length tail)
                           (find_char (λ t, negb (head_is is_token_character t)) tail) in
              let token := take len tail in
              take start rest
              ++ (if looks_like_secret_token token then REDACTED_TOKEN else token)
              ++ redact_tokens_fuel fuel (drop len tail)
          end
      end
  end.
Definition redact_embedded_tokens (line : bytes) : bytes :=
  redact_tokens_fuel (S (length line)) line.

(** ** Local paths *)

(** The characters a path may follow: white space or an opening bracket, [=], [:] or a quote. *)
Definition opens_path (before : bytes) : bool :=
  ends_space before || last_is (one_of [40; 91; 123; 60; 61; 58; 34; 39; 96]) before.

(** [before.rfind(|c| !c.is_ascii_alphanumeric()).map_or(0, |p| p + 1)]: one byte past the
    start of the last character that is not alphanumeric. *)
Definition scheme_start (before : bytes) : nat :=
  match list_find (λ i, is_char_boundary before i = true ∧ head_is is_alnum (drop i before) = false)
          (rev (seq 0 (length before))) with
  | Some (_, p) => S p
  | None => O
  end.

Definition is_file (scheme : bytes) : bool := bool_decide (lowercase scheme = ascii_bytes "file").
Definition is_web (scheme : bytes) : bool :=
  existsb (λ s, bool_decide (lowercase scheme = s)) (ascii_bytes <$> ["http"; "https"; "ws"; "wss"]%string).

(** The part of [local_path_start] after the checks of the scheme. *)
Definition plain_path_start (line : bytes) (index : nat) : option nat :=
  let before := take index line in
  let suffix := drop index line in
  if head_is (Z.eqb 58) suffix && head_is (one_of [47; 92]) (drop 1 suffix)
     && (0 <? index)%nat && last_is is_alpha before
     && ((index =? 1)%nat || opens_path (take (index - 1) line))
  then Some (index - 1)%nat
  else if negb ((index =? 0)%nat || opens_path before) then None
  else if has_prefix (ascii_bytes "file://") suffix || has_prefix (ascii_bytes "~/") suffix
          || head_is (Z.eqb 47) suffix
  then Some index
  else if (3 <=? length suffix)%nat && head_is is_alpha suffix
          && head_is (Z.eqb 58) (drop 1 suffix) && head_is (one_of [47; 92]) (drop 2 suffix)
  then Some index
  else None.

Definition local_path_start (line : bytes) (index : nat) : result Fault (option nat) :=
  let? suffix := str_slice index (length line) line in
  let? before := str_slice 0 index line in
  if has_prefix (ascii_bytes "://") suffix then
    let? scheme := str_slice (scheme_start before) index line in
    Ok (if is_file scheme then Some (scheme_start before) else None)
  else if head_is (Z.eqb 47) suffix && last_is (Z.eqb 58) before then
    let scheme_end := (index - 1)%nat in
    let? head := str_slice 0 scheme_end line in
    let? scheme := str_slice (scheme_start head) scheme_end line in
    if is_file scheme then Ok (Some (scheme_start head))
    else if is_web scheme then Ok None
    else Ok (plain_path_start line index)
  else Ok (plain_path_start line index).

Definition ends_path (t : bytes) : bool :=
  starts_space t || head_is (one_of [34; 39; 96; 41; 93; 125; 62; 44; 59]) t.

Definition REDACTED_PATH : bytes := ascii_bytes "[redacted-path]".

Fixpoint redact_paths_fuel (fuel : nat) (line : bytes) (cursor : nat) : result Fault bytes :=
  match fuel with
  | O => Ok []
  | S fuel =>
      if (cursor <? length line)%nat then
        let? rest := str_slice cursor (length line) line in
        match find_char (head_is (one_of [47; 126; 58])) rest with
        | None => Ok rest
        | Some relative =>
            let candidate := (cursor + relative)%nat in
            let? start := local_path_start line candidate in
            match start with
            | None =>
                let next := S candidate in
                let? passed := str_slice cursor next line in
                let? out := redact_paths_fuel fuel line next in
                Ok (passed ++ out)
            | Some start =>
                let? passed := str_slice cursor start line in
                let? tail := str_slice start (length line) line in
                let end_ := default (length line) (Nat.add start <$> find_char ends_path tail) in
                let? out := redact_paths_fuel fuel line (Nat.max end_ (S start)) in
                Ok (passed ++ REDACTED_PATH ++ out)
            end
        end
      else Ok []
  end.
Definition redact_embedded_paths (line : bytes) : result Fault bytes :=
  redact_paths_fuel (S (length line)) line 0.

(** ** The whole text *)

Definition REDACTED_LINE : bytes := ascii_bytes "[redacted-sensitive-line]".

Definition starts_private_key (lower : bytes) : bool :=
  contains (ascii_bytes "-----begin ") lower && contains (ascii_bytes "private key") lower.
Definition ends_private_key (lower : bytes) : bool :=
  contains (ascii_bytes "-----end ") lower && contains (ascii_bytes "private key") lower.

(** One line: its replacement and whether a private key goes on after it. *)
Definition redact_line (private_key : bool) (line : bytes) : result Fault (bytes * bool) :=
  let lower := lowercase line in
  if private_key || starts_private_key lower
  then Ok (REDACTED_LINE, negb (ends_private_key lower))
  else if contains (ascii_bytes "bearer ") lower || contains_sensitive_assignment lower
  then Ok (REDACTED_LINE, private_key)
  else
    let? paths := redact_embedded_paths (redact_url_userinfo line) in
    Ok (redact_embedded_tokens paths, private_key).

Fixpoint redact_lines (private_key : bool) (ls : list bytes) : result Fault (list bytes) :=
  match ls with
  | [] => Ok []
  | l :: ls =>
      let? r := redact_line private_key l in
      let? rs := redact_lines r.2 ls in
      Ok (r.1 :: rs)
  end.

Fixpoint join_lines (ls : list bytes) : bytes :=
  match ls with
  | [] => []
  | [l] => l
  | l :: ls => l ++ [10] ++ join_lines ls
  end.

Definition redact_sensitive_text (s : bytes) : result Fault bytes :=
  let? ls := redact_lines false (lines (filter (λ b, b ≠ 0) s)) in
  Ok (trim (join_lines ls)).
