(* ===== verification/TurnPack.v ===== *)
(** * Turn packs (app/host/src/rollout_observer.rs, [TurnBuilder], [apply_rollout_value])

    A rollout is a sequence of JSON records.  The records of one turn accumulate in a
    [TurnBuilder]; the record that completes the turn turns it into a bounded [TurnPack],
    whose serialisation is the text the completion ledger keeps. *)

From stdpp Require Import gmap.
From S2P Require Import Prelude Bytes StrOps StoreTypes Redact.

Definition MAX_TEXT_BYTES : nat := 12 * 1024.
Definition MAX_TEXT_BYTES_PER_ROLE : nat := 22 * 1024.
Definition MAX_RAW_MESSAGES_PER_ROLE : nat := 32.
Definition MAX_MESSAGES_PER_ROLE : nat := 8.
Definition MAX_TOOLS : nat := 64.
Definition MAX_TOOL_NAME_BYTES : nat := 128.
Definition MAX_TOOL_STATUS_BYTES : nat := 64.
Definition MAX_SERIALIZED_TURN_PACK_BYTES : Z := 64 * 1024.

(** ** JSON values ([serde_json::Value])

    An object is kept as the list of its members in the order of the text; as in
    [serde_json::Map], a later member replaces an earlier one of the same key. *)

Inductive json :=
| JNull
| JBool (b : bool)
| JNumber (literal : bytes)
| JString (s : text)
| JArray (items : list json)
| JObject (fields : list (text * json)).

Definition as_object (v : json) : option (list (text * json)) :=
  match v with JObject fields => Some fields | _ => None end.
Definition as_array (v : json) : option (list json) :=
  match v with JArray items => Some items | _ => None end.
Definition as_str (v : json) : option text :=
  match v with JString s => Some s | _ => None end.

(** [Map::get] *)
Fixpoint get (key : text) (fields : list (text * json)) : option json :=
  match fields with
  | [] => None
  | (k, v) :: fields =>
      match get key fields with
      | Some v' => Some v'
      | None => if bool_decide (k = key) then Some v else None
      end
  end.

Definition key (s : string) : text := ascii_bytes s.

(** [fields.get(k).and_then(Value::as_str)] *)
Definition get_str (k : string) (fields : list (text * json)) : option text :=
  get (key k) fields ≫= as_str.
Definition get_object (k : string) (fields : list (text * json)) : option (list (text * json)) :=
  get (key k) fields ≫= as_object.

Record ToolFact := mk_tool { tf_name : text; tf_status : text }.

Record TurnPack := mk_pack {
  tp_v : Z;
  tp_turn_id : text;
  tp_user : list text;
  tp_assistant : list text;
  tp_tools : list ToolFact;
}.

(** What the observer takes from [serde_json]: parsing a value and serialising a pack. *)
Class Serde := {
  json_from_slice : bytes → option json;
  turn_pack_to_string : TurnPack → option text;
}.

(** ** Bounded text *)

Definition MARKER : bytes := [10] ++ ascii_bytes "[truncated]" ++ [10].

Fixpoint floor_from (s : bytes) (i : nat) : nat :=
  match i with
  | O => O
  | S i' => if is_char_boundary s i then i else floor_from s i'
  end.
Definition utf8_floor (s : bytes) (i : nat) : nat := floor_from s (Nat.min i (length s)).

Fixpoint ceil_from (fuel : nat) (s : bytes) (i : nat) : nat :=
  match fuel with
  | O => i
  | S fuel =>
      if (i <? length s)%nat && negb (is_char_boundary s i) then ceil_from fuel s (S i) else i
  end.
Definition utf8_ceil (s : bytes) (i : nat) : nat :=
  ceil_from (length s) s (Nat.min i (length s)).

Definition compact_text (s : text) (max_bytes : nat) : text :=
  if (length s <=? max_bytes)%nat then s
  else if (max_bytes <=? length MARKER)%nat then take max_bytes MARKER
  else
    let available := (max_bytes - length MARKER)%nat in
    let head_budget := (available / 3)%nat in
    let tail_budget := (available - head_budget)%nat in
    let head_end := utf8_floor s head_budget in
    let tail_start := utf8_ceil s (length s - tail_budget) in
    take head_end s ++ MARKER ++ drop tail_start s.

Fixpoint compact_loop (remaining : nat) (messages : list text) : list text :=
  match messages with
  | [] => []
  | message :: messages =>
      if (remaining =? 0)%nat then []
      else
        let message := compact_text message (Nat.min remaining MAX_TEXT_BYTES) in
        message :: compact_loop (remaining - length message) messages
  end.
Definition compact_messages (messages : list text) : list text :=
  rev (compact_loop MAX_TEXT_BYTES_PER_ROLE (take MAX_MESSAGES_PER_ROLE (rev messages))).

(** ** The turn being observed *)

Record TurnBuilder := mk_builder {
  tb_turn_id : text;
  tb_user : list text;
  tb_assistant : list text;
  tb_tools : list ToolFact;
  tb_tool_calls : gmap text nat;
}.

Definition new_builder (turn_id : text) : TurnBuilder := mk_builder turn_id [] [] [] ∅.

Definition response_turn_id (payload : list (text * json)) : option text :=
  match get_str "turn_id" payload with
  | Some id => Some id
  | None =>
      match get_object "internal_chat_message_metadata_passthrough" payload ≫= get_str "turn_id" with
      | Some id => Some id
      | None => get_object "metadata" payload ≫= get_str "turn_id"
      end
  end.

(** [target.remove(0)] when the limit is reached, then [target.push(..)]. *)
Definition push_bounded (limit : nat) (target : list text) (t : text) : list text :=
  (if (limit <=? length target)%nat then drop 1 target else target) ++ [t].

Definition push_message (role : text) (s : text) (self : TurnBuilder) : result Fault TurnBuilder :=
  let? s := redact_sensitive_text s in
  if bool_decide (s = []) then Ok self
  else
    let s := compact_text s MAX_TEXT_BYTES in
    Ok (if bool_decide (role = key "user")
        then mk_builder (tb_turn_id self)
               (push_bounded MAX_RAW_MESSAGES_PER_ROLE (tb_user self) s)
               (tb_assistant self) (tb_tools self) (tb_tool_calls self)
        else mk_builder (tb_turn_id self) (tb_user self)
               (push_bounded MAX_RAW_MESSAGES_PER_ROLE (tb_assistant self) s)
               (tb_tools self) (tb_tool_calls self)).

(** The loop over the parts of a message. *)
Fixpoint push_parts (role : text) (content : list json) (self : TurnBuilder)
    : result Fault TurnBuilder :=
  match content with
  | [] => Ok self
  | part :: content =>
      match as_object part with
      | None => Err (Fail InvalidRollout)
      | Some part =>
          let is_text := match get_str "type" part with
                         | Some t => bool_decide (t = key "input_text") || bool_decide (t = key "output_text")
                         | None => false
                         end in
          let? self := match is_text, get_str "text" part with
                       | true, Some s => push_message role s self
                       | _, _ => Ok self
                       end in
          push_parts role content self
      end
  end.

(** Forgetting the oldest tool: the indices of the others move down by one. *)
Definition shift_calls (calls : gmap text nat) : gmap text nat :=
  omap (λ i, match i with O => None | S i => Some i end) calls.

Definition remove_oldest_tool (self : TurnBuilder) : TurnBuilder :=
  if (MAX_TOOLS <=? length (tb_tools self))%nat
  then mk_builder (tb_turn_id self) (tb_user self) (tb_assistant self) (drop 1 (tb_tools self))
         (shift_calls (tb_tool_calls self))
  else self.

Definition recorded_call_id (object : list (text * json)) : option text :=
  match get_str "call_id" object with
  | Some id =>
      if negb (bool_decide (id = [])) && (length id <=? MAX_TOOL_NAME_BYTES)%nat
         && negb (existsb is_ascii_control id) then Some id else None
  | None => None
  end.

Definition observe_tool_call (object : list (text * json)) (self : TurnBuilder)
    : result Fault TurnBuilder :=
  match get_str "name" object with
  | None => Err (Fail InvalidRollout)
  | Some name =>
      let status := default (key "requested") (get_str "status" object) in
      if bool_decide (name = []) then Ok self
      else
        let self := remove_oldest_tool self in
        let index := length (tb_tools self) in
        let? name := redact_sensitive_text name in
        let? status := redact_sensitive_text status in
        let tools := tb_tools self ++ [mk_tool (compact_text name MAX_TOOL_NAME_BYTES)
                                               (compact_text status MAX_TOOL_STATUS_BYTES)] in
        let calls := match recorded_call_id object with
                     | Some id => <[id := index]> (tb_tool_calls self)
                     | None => tb_tool_calls self
                     end in
        Ok (mk_builder (tb_turn_id self) (tb_user self) (tb_assistant self) tools calls)
  end.

(** [self.tools[index]] panics when the index is out of range. *)
Definition observe_tool_output (object : list (text * json)) (self : TurnBuilder)
    : result Fault TurnBuilder :=
  match get_str "call_id" object ≫= λ id, tb_tool_calls self !! id with
  | None => Ok self
  | Some index =>
      match tb_tools self !! index with
      | None => Err Panic
      | Some tool =>
          Ok (mk_builder (tb_turn_id self) (tb_user self) (tb_assistant self)
                (<[index := mk_tool (tf_name tool) (key "completed")]> (tb_tools self))
                (tb_tool_calls self))
      end
  end.

Definition observe_message (object : list (text * json)) (self : TurnBuilder)
    : result Fault TurnBuilder :=
  match get_str "role" object with
  | None => Err (Fail InvalidRollout)
  | Some role =>
      if negb (bool_decide (role = key "user")) && negb (bool_decide (role = key "assistant"))
      then Ok self
      else
        match get (key "content") object ≫= as_array with
        | None => Err (Fail InvalidRollout)
        | Some content => push_parts role content self
        end
  end.

Definition observe_response_item (payload : json) (self : TurnBuilder) : result Fault TurnBuilder :=
  match as_object payload with
  | None => Err (Fail InvalidRollout)
  | Some object =>
      let other_turn := match response_turn_id object with
                        | Some id => negb (bool_decide (id = tb_turn_id self))
                        | None => false
                        end in
      if other_turn then Ok self
      else match get_str "type" object with
           | None => Ok self
           | Some t =>
               if bool_decide (t = key "message") then observe_message object self
               else if bool_decide (t = key "function_call") || bool_decide (t = key "custom_tool_call")
               then observe_tool_call object self
               else if bool_decide (t = key "function_call_output")
                       || bool_decide (t = key "custom_tool_call_output")
               then observe_tool_output object self
               else Ok self
           end
  end.

Section serde.
Context `{Externals, Serde}.

Definition finish (self : TurnBuilder) : result Fault TurnPack :=
  let? _ := require (uuid_ok (tb_turn_id self)) (Fail InvalidRollout) in
  Ok (mk_pack 1 (tb_turn_id self) (compact_messages (tb_user self))
        (compact_messages (tb_assistant self)) (tb_tools self)).

Definition required_turn_id (payload : list (text * json)) : result Fault text :=
  let? turn_id := of_option (Fail InvalidRollout) (get_str "turn_id" payload) in
  let? _ := require (uuid_ok turn_id) (Fail InvalidRollout) in
  Ok turn_id.

(** The final answer of a completed turn, serialised. *)
Definition complete_turn (builder : TurnBuilder) (last_message : text) : result Fault text :=
  let builder := mk_builder (tb_turn_id builder) (tb_user builder) [] (tb_tools builder)
                   (tb_tool_calls builder) in
  let? builder := push_message (key "assistant") last_message builder in
  let? pack := finish builder in
  let? serialized := of_option (Fail InvalidRollout) (turn_pack_to_string pack) in
  let? _ := require (blen serialized <=? MAX_SERIALIZED_TURN_PACK_BYTES) (Fail TurnPackTooLarge) in
  Ok serialized.

(** The builder of the turn in progress is threaded; on an error it is whatever the source
    leaves behind, which the caller never reads again. *)
Definition apply_rollout_value (value : json) (active : option TurnBuilder)
    : result Fault (option (text * text) * option TurnBuilder) :=
  match as_object value with
  | None => Err (Fail InvalidRollout)
  | Some object =>
      match get_str "type" object with
      | None => Ok (None, active)
      | Some t =>
          if bool_decide (t = key "event_msg") then
            match get_object "payload" object with
            | None => Err (Fail InvalidRollout)
            | Some payload =>
                match get_str "type" payload with
                | None => Ok (None, active)
                | Some t =>
                    if bool_decide (t = key "task_started") then
                      let? turn_id := required_turn_id payload in
                      Ok (None, Some (new_builder turn_id))
                    else if bool_decide (t = key "task_complete") then
                      let? turn_id := required_turn_id payload in
                      let? builder := of_option (Fail InvalidRollout) active in
                      let? _ := require (bool_decide (tb_turn_id builder = turn_id)) (Fail InvalidRollout) in
                      match get_str "last_agent_message" payload with
                      | None | Some [] => Ok (None, None)
                      | Some last_message =>
                          let? serialized := complete_turn builder last_message in
                          Ok (Some (turn_id, serialized), None)
                      end
                    else Ok (None, active)
                end
            end
          else if bool_decide (t = key "response_item") then
            match active with
            | None => Ok (None, None)
            | Some builder =>
                let? payload := of_option (Fail InvalidRollout) (get (key "payload") object) in
                let? builder := observe_response_item payload builder in
                Ok (None, Some builder)
            end
          else Ok (None, active)
      end
  end.

End serde.
