(* ===== verification/TurnProps.v ===== *)
(** * Bounds of turn packs

    Every text a builder holds is within its budget, the recorded tool calls point at tools
    it holds, and a finished pack stays within the budgets of a role. *)

From stdpp Require Import gmap.
From S2P Require Import Prelude Bytes StrOps StoreTypes Redact TurnPack.

Lemma floor_from_le s i : (floor_from s i ≤ i)%nat.
Proof. induction i as [|i IH]; [done|]. cbn [floor_from]. destruct (is_char_boundary s (S i)); lia. Qed.

Lemma utf8_floor_le s i : (utf8_floor s i ≤ Nat.min i (length s))%nat.
Proof. apply floor_from_le. Qed.

Lemma ceil_from_ge fuel s i : (i ≤ ceil_from fuel s i)%nat.
Proof.
  revert i. induction fuel as [|fuel IH]; intros i; [done|]. cbn [ceil_from].
  destruct (_ && _); [|done]. specialize (IH (S i)). lia.
Qed.

Lemma utf8_ceil_ge s i : (Nat.min i (length s) ≤ utf8_ceil s i)%nat.
Proof. apply ceil_from_ge. Qed.

(** The budget is respected, and a text within it is kept whole. *)
Lemma compact_text_length s n : (length (compact_text s n) ≤ n)%nat.
Proof.
  unfold compact_text. destruct (Nat.leb_spec (length s) n); [done|].
  destruct (Nat.leb_spec n (length MARKER)); [rewrite length_take; lia|].
  rewrite !length_app, length_take, length_drop.
  pose proof (utf8_floor_le s ((n - length MARKER) / 3)).
  pose proof (utf8_ceil_ge s (length s - (n - length MARKER - (n - length MARKER) / 3))).
  pose proof (Nat.div_mod_eq (n - length MARKER) 3).
  set (q := ((n - length MARKER) / 3)%nat) in *. clearbody q. lia.
Qed.

Lemma compact_loop_bounds remaining ms :
  let out := compact_loop remaining ms in
  (length out ≤ length ms)%nat ∧ (length (mjoin out) ≤ remaining)%nat
  ∧ Forall (λ m, length m ≤ MAX_TEXT_BYTES)%nat out.
Proof.
  cbv zeta. revert remaining. induction ms as [|m ms IH]; intros remaining; cbn [compact_loop].
  - split_and!; [done | cbn; lia | constructor].
  - destruct (Nat.eqb_spec remaining 0); [split_and!; [cbn; lia | cbn; lia | constructor]|].
    pose proof (compact_text_length m (Nat.min remaining MAX_TEXT_BYTES)) as Hl.
    set (c := compact_text m _) in *. destruct (IH (remaining - length c)%nat) as (? & ? & ?).
    split_and!.
    + cbn [length]. lia.
    + rewrite mjoin_cons, length_app. lia.
    + constructor; [lia | done].
Qed.

Lemma length_mjoin_rev (ms : list text) : length (mjoin (rev ms)) = length (mjoin ms).
Proof.
  induction ms as [|m ms IH]; [done|]. cbn [rev].
  rewrite mjoin_app, !mjoin_cons, !length_app, IH. cbn [mjoin list_join length]. lia.
Qed.

(** The messages of one role in a pack. *)
Definition role_bounded (ms : list text) : Prop :=
  (length ms ≤ MAX_MESSAGES_PER_ROLE)%nat ∧ (length (mjoin ms) ≤ MAX_TEXT_BYTES_PER_ROLE)%nat
  ∧ Forall (λ m, length m ≤ MAX_TEXT_BYTES)%nat ms.

Lemma compact_messages_bounded ms : role_bounded (compact_messages ms).
Proof.
  unfold compact_messages. destruct (compact_loop_bounds MAX_TEXT_BYTES_PER_ROLE
    (take MAX_MESSAGES_PER_ROLE (rev ms))) as (Hn & Hl & Hm).
  split_and!.
  - rewrite length_rev. rewrite length_take in Hn. lia.
  - by rewrite length_mjoin_rev.
  - by apply Forall_rev.
Qed.

(** ** The invariant of the builder *)

Definition raw_bounded (ms : list text) : Prop :=
  (length ms ≤ MAX_RAW_MESSAGES_PER_ROLE)%nat ∧ Forall (λ m, length m ≤ MAX_TEXT_BYTES)%nat ms.

Definition tools_bounded (ts : list ToolFact) : Prop :=
  (length ts ≤ MAX_TOOLS)%nat
  ∧ Forall (λ t, length (tf_name t) ≤ MAX_TOOL_NAME_BYTES ∧ length (tf_status t) ≤ MAX_TOOL_STATUS_BYTES)%nat ts.

Record builder_wf (b : TurnBuilder) : Prop := {
  bw_user : raw_bounded (tb_user b);
  bw_assistant : raw_bounded (tb_assistant b);
  bw_tools : tools_bounded (tb_tools b);
  bw_calls : ∀ id i, tb_tool_calls b !! id = Some i → (i < length (tb_tools b))%nat;
}.

Definition active_wf (a : option TurnBuilder) : Prop :=
  match a with Some b => builder_wf b | None => True end.

Lemma new_builder_wf id : builder_wf (new_builder id).
Proof. split; try (split; [cbn; lia | constructor]). intros id' i. cbn. by rewrite lookup_empty. Qed.

(** A fault of the builder's own: an error, never a panic unless redaction panics. *)
Definition benign (e : Fault) : Prop :=
  match e with Fail _ => True | Panic => ∃ s, redact_sensitive_text s = Err Panic end.

Definition good {A} (P : A → Prop) (r : result Fault A) : Prop :=
  match r with Ok a => P a | Err e => benign e end.

Lemma good_bind {A B} (P : A → Prop) (Q : B → Prop) (r : result Fault A) k :
  good P r → (∀ a, P a → good Q (k a)) → good Q (rbind r k).
Proof. destruct r; cbn; auto. Qed.

Lemma redact_panics_only s : good (λ _, True) (redact_sensitive_text s).
Proof.
  destruct (redact_sensitive_text s) as [t|[e|]] eqn:E; cbn; [done..|]. eauto.
Qed.

Lemma push_bounded_ok ms s :
  raw_bounded ms → (length s ≤ MAX_TEXT_BYTES)%nat → raw_bounded (push_bounded MAX_RAW_MESSAGES_PER_ROLE ms s).
Proof.
  intros [Hn Hm] Hs. unfold push_bounded. destruct (Nat.leb_spec MAX_RAW_MESSAGES_PER_ROLE (length ms)); split.
  - rewrite length_app, length_drop. cbn [length]. unfold MAX_RAW_MESSAGES_PER_ROLE in *. lia.
  - apply Forall_app. split; [by apply Forall_drop | by apply Forall_singleton].
  - rewrite length_app. cbn [length]. lia.
  - apply Forall_app. split; [done | by apply Forall_singleton].
Qed.

Lemma push_message_wf role s b : builder_wf b → good builder_wf (push_message role s b).
Proof.
  intros Hb. unfold push_message. eapply good_bind; [apply redact_panics_only|]. intros t _.
  case_bool_decide; [done|]. destruct Hb as [Hu Ha Ht Hc]. pose proof (compact_text_length t MAX_TEXT_BYTES).
  cbn [good]. case_bool_decide; split; cbn [tb_user tb_assistant tb_tools tb_tool_calls];
    try done; by apply push_bounded_ok.
Qed.

Lemma push_parts_wf role content b : builder_wf b → good builder_wf (push_parts role content b).
Proof.
  revert b. induction content as [|part content IH]; intros b Hb; [done|]. cbn [push_parts].
  destruct (as_object part) as [p|]; [|done]. eapply good_bind; [|intros b' Hb'; by apply IH].
  destruct (match get_str "type" p with Some t => _ | None => _ end), (get_str "text" p); try done.
  by apply push_message_wf.
Qed.

Lemma remove_oldest_wf b :
  builder_wf b → builder_wf (remove_oldest_tool b) ∧ (length (tb_tools (remove_oldest_tool b)) < MAX_TOOLS)%nat.
Proof.
  intros [Hu Ha [Hn Ht] Hc]. unfold remove_oldest_tool.
  destruct (Nat.leb_spec MAX_TOOLS (length (tb_tools b))) as [Hge|Hlt]; [|by split].
  assert (length (tb_tools b) = MAX_TOOLS) as Hlen by lia. cbn [tb_tools]. split.
  - split; cbn; try done.
    + split; [rewrite length_drop; lia | by apply Forall_drop].
    + intros id i. unfold shift_calls. rewrite lookup_omap. intros Hi. apply bind_Some in Hi as (j & Hj & E).
      destruct j as [|j]; [done|]. simplify_eq. apply Hc in Hj. rewrite length_drop. lia.
  - rewrite length_drop, Hlen. unfold MAX_TOOLS. lia.
Qed.

Lemma observe_tool_call_wf object b : builder_wf b → good builder_wf (observe_tool_call object b).
Proof.
  intros Hb. unfold observe_tool_call. destruct (get_str "name" object) as [name|]; [|done].
  case_bool_decide; [done|]. destruct (remove_oldest_wf b Hb) as [[Hu Ha [Hn Ht] Hc] Hlt].
  eapply good_bind; [apply redact_panics_only|]. intros n _.
  eapply good_bind; [apply redact_panics_only|]. intros st _. cbn.
  pose proof (compact_text_length n MAX_TOOL_NAME_BYTES). pose proof (compact_text_length st MAX_TOOL_STATUS_BYTES).
  split; cbn [tb_user tb_assistant tb_tools tb_tool_calls]; try done.
  - split; [rewrite length_app; cbn [length]; lia|]. apply Forall_app. split; [done|]. by apply Forall_singleton.
  - intros id i. rewrite length_app. cbn [length].
    assert (∀ id i, tb_tool_calls (remove_oldest_tool b) !! id = Some i →
      (i < length (tb_tools (remove_oldest_tool b)) + 1)%nat) as Hc'
      by (intros ?? Hi; apply Hc in Hi; lia).
    destruct (recorded_call_id object) as [cid|]; [|apply Hc'].
    destruct (decide (cid = id)) as [->|]; [rewrite lookup_insert_eq; intros; simplify_eq; lia|].
    rewrite lookup_insert_ne by done. apply Hc'.
Qed.

(** The index of a recorded call is in range: marking its tool completed cannot panic. *)
Lemma observe_tool_output_wf object b : builder_wf b → good builder_wf (observe_tool_output object b).
Proof.
  intros [Hu Ha [Hn Ht] Hc]. unfold observe_tool_output.
  destruct (get_str "call_id" object ≫= _) as [i|] eqn:E; [|by cbn].
  apply bind_Some in E as (id & _ & Hi). apply Hc in Hi.
  destruct (lookup_lt_is_Some_2 _ _ Hi) as [t Et]. rewrite Et. cbn.
  split; cbn [tb_user tb_assistant tb_tools tb_tool_calls]; try done.
  - split; [by rewrite length_insert|]. apply Forall_insert; [done|].
    rewrite Forall_lookup in Ht. destruct (Ht i t Et) as [? _]. cbn. split; [done|].
    by apply Nat.leb_le; vm_compute.
  - intros id' j Hj. rewrite length_insert. by eapply Hc.
Qed.

Lemma observe_response_item_wf payload b : builder_wf b → good builder_wf (observe_response_item payload b).
Proof.
  intros Hb. unfold observe_response_item. destruct (as_object payload) as [object|]; [|done].
  destruct (match response_turn_id object with Some _ => _ | None => _ end); [done|].
  destruct (get_str "type" object) as [t|]; [|done].
  case_bool_decide.
  { unfold observe_message. destruct (get_str "role" object); [|done]. destruct (_ && _); [done|].
    destruct (get (key "content") object ≫= as_array); [by apply push_parts_wf | done]. }
  destruct (_ || _); [by apply observe_tool_call_wf|].
  destruct (_ || _); [by apply observe_tool_output_wf | done].
Qed.

Section serde.
Context `{Externals, Serde}.

(** A completed turn: its id and the pack it was serialised from. *)
Definition completed_turn (id s : text) : Prop :=
  uuid_ok id = true ∧ blen s ≤ MAX_SERIALIZED_TURN_PACK_BYTES
  ∧ ∃ pack, turn_pack_to_string pack = Some s ∧ tp_turn_id pack = id
      ∧ role_bounded (tp_user pack) ∧ role_bounded (tp_assistant pack) ∧ tools_bounded (tp_tools pack).

Lemma good_require c e P : benign e → P tt → good P (require c e).
Proof. intros. by destruct c. Qed.

Lemma complete_turn_good b m :
  builder_wf b → good (λ s, completed_turn (tb_turn_id b) s) (complete_turn b m).
Proof.
  intros [Hu Ha Ht Hc]. unfold complete_turn.
  assert (builder_wf (mk_builder (tb_turn_id b) (tb_user b) [] (tb_tools b) (tb_tool_calls b))) as Hb.
  { split; cbn; try done. split; [cbn; lia | constructor]. }
  pose proof (push_message_wf (key "assistant") m _ Hb) as Hp.
  destruct (push_message _ _ _) as [b'|e] eqn:Ep; [|done]. cbn [rbind good] in *.
  assert (tb_turn_id b' = tb_turn_id b) as Hid.
  { unfold push_message in Ep. destruct (redact_sensitive_text m) as [t|]; [|done]. cbn [rbind] in Ep.
    repeat case_bool_decide; by simplify_eq. }
  unfold finish. rewrite Hid. destruct (uuid_ok (tb_turn_id b)) eqn:Eu; [|done]. cbn [require rbind].
  destruct (turn_pack_to_string _) as [s|] eqn:Es; [|done]. cbn [of_option rbind].
  destruct (blen s <=? MAX_SERIALIZED_TURN_PACK_BYTES) eqn:El; [|done]. cbn [require rbind good].
  destruct Hp as [_ _ Ht' _]. split_and!; [done | lia|].
  eexists. split_and!; [exact Es | done | | | done]; apply compact_messages_bounded.
Qed.

(** C24 Applying a record keeps the turn in progress within its bounds: at most 32 messages of
    12 KiB for each role and 64 tools, every recorded call naming one of them, so that
    marking a tool completed never indexes out of range.  A turn it completes has a UUID, a
    serialisation of at most 64 KiB and a pack of at most 8 messages and 22 KiB for each
    role; the only panic is that of redaction. *)
Theorem turn_stays_bounded value active :
  active_wf active →
  match apply_rollout_value value active with
  | Ok (None, active') => active_wf active'
  | Ok (Some (id, s), active') =>
      completed_turn id s ∧ active' = None ∧ (∃ b, active = Some b ∧ tb_turn_id b = id)
  | Err (Fail _) => True
  | Err Panic => ∃ s, redact_sensitive_text s = Err Panic
  end.
Proof.
  intros Ha. unfold apply_rollout_value. destruct (as_object value) as [object|]; [|done].
  destruct (get_str "type" object) as [t|]; [|done]. case_bool_decide.
  - destruct (get_object "payload" object) as [payload|]; [|done].
    destruct (get_str "type" payload) as [t'|]; [|done]. unfold required_turn_id.
    destruct (get_str "turn_id" payload) as [id|]; cbn [of_option rbind];
      [|repeat case_bool_decide; done].
    destruct (uuid_ok id); cbn [require rbind]; [|repeat case_bool_decide; done].
    case_bool_decide; [apply new_builder_wf|]. case_bool_decide; [|done].
    destruct active as [b|]; [|done]. cbn [of_option rbind].
    case_bool_decide as Hid; [|done]. cbn [require rbind].
    destruct (get_str "last_agent_message" payload) as [[|x m]|]; [done| |done].
    pose proof (complete_turn_good b (x :: m) Ha) as Hc. destruct (complete_turn b _) as [s|[e|]]; [|done..].
    cbn [rbind good] in *. subst id. eauto.
  - case_bool_decide; [|done]. destruct active as [b|]; [|done].
    destruct (get (key "payload") object) as [payload|]; [|done]. cbn [of_option rbind].
    pose proof (observe_response_item_wf payload b Ha) as Ho.
    by destruct (observe_response_item payload b) as [b'|[e|]].
Qed.
End serde.
