(* ===== verification/RecordParser.v ===== *)
(** * The streaming record parser (app/host/src/rollout_observer.rs, [StreamingRecordParser])

    A rollout line longer than 256 KiB is not kept: its bytes drive a push-down automaton
    that checks the JSON syntax and keeps only the members [apply_rollout_value] reads, each
    within a fixed bound.  The stack's head is the innermost container. *)

From S2P Require Import Prelude Bytes StrOps StoreTypes Redact TurnPack.

Definition MAX_STREAM_JSON_DEPTH : nat := 64.
Definition MAX_STREAM_CONTENT_PARTS : nat := 32.
Definition MAX_STREAM_SMALL_FIELD_BYTES : nat := 256.

(** ** What is kept of a record *)

Record StreamedPart := mk_part { sp_kind : option text; sp_text : option text }.

Record StreamedRecord := mk_record {
  sr_payload_object : bool;
  sr_top_type : option text;
  sr_payload_type : option text;
  sr_role : option text;
  sr_turn_id : option text;
  sr_internal_turn_id : option text;
  sr_metadata_turn_id : option text;
  sr_name : option text;
  sr_status : option text;
  sr_call_id : option text;
  sr_last_agent_message : option text;
  sr_parts : list StreamedPart;
}.

Definition default_record : StreamedRecord :=
  mk_record false None None None None None None None None None None [].

Definition clear_payload (r : StreamedRecord) : StreamedRecord :=
  mk_record false (sr_top_type r) None None None None None None None None None [].

Definition set_payload_object (r : StreamedRecord) : StreamedRecord :=
  mk_record true (sr_top_type r) (sr_payload_type r) (sr_role r) (sr_turn_id r)
    (sr_internal_turn_id r) (sr_metadata_turn_id r) (sr_name r) (sr_status r) (sr_call_id r)
    (sr_last_agent_message r) (sr_parts r).

Definition set_parts (ps : list StreamedPart) (r : StreamedRecord) : StreamedRecord :=
  mk_record (sr_payload_object r) (sr_top_type r) (sr_payload_type r) (sr_role r) (sr_turn_id r)
    (sr_internal_turn_id r) (sr_metadata_turn_id r) (sr_name r) (sr_status r) (sr_call_id r)
    (sr_last_agent_message r) ps.

Inductive FieldTarget :=
| TopType | PayloadType | Role | TurnId | InternalTurnId | MetadataTurnId | Name | Status | CallId
| LastAgentMessage | PartType (i : nat) | PartText (i : nat) | Ignore.

(** The assignment [record.<field> = v]; parts are updated through [get_mut]. *)
Definition set_target (target : FieldTarget) (v : option text) (r : StreamedRecord)
    : StreamedRecord :=
  let '(mk_record po top pt ro ti it mt na st ci la ps) := r in
  match target with
  | TopType => mk_record po v pt ro ti it mt na st ci la ps
  | PayloadType => mk_record po top v ro ti it mt na st ci la ps
  | Role => mk_record po top pt v ti it mt na st ci la ps
  | TurnId => mk_record po top pt ro v it mt na st ci la ps
  | InternalTurnId => mk_record po top pt ro ti v mt na st ci la ps
  | MetadataTurnId => mk_record po top pt ro ti it v na st ci la ps
  | Name => mk_record po top pt ro ti it mt v st ci la ps
  | Status => mk_record po top pt ro ti it mt na v ci la ps
  | CallId => mk_record po top pt ro ti it mt na st v la ps
  | LastAgentMessage => mk_record po top pt ro ti it mt na st ci v ps
  | PartType i =>
      mk_record po top pt ro ti it mt na st ci la (alter (λ p, mk_part v (sp_text p)) i ps)
  | PartText i =>
      mk_record po top pt ro ti it mt na st ci la (alter (λ p, mk_part (sp_kind p) v) i ps)
  | Ignore => r
  end.

Definition member (k : string) (v : option text) : list (text * json) :=
  match v with Some s => [(key k, JString s)] | None => [] end.

Definition turn_id_object (k : string) (v : option text) : list (text * json) :=
  match v with Some s => [(key k, JObject [(key "turn_id", JString s)])] | None => [] end.

Definition part_value (p : StreamedPart) : json :=
  JObject (member "type" (sp_kind p) ++ member "text" (sp_text p)).

Definition payload_fields (r : StreamedRecord) : list (text * json) :=
  member "type" (sr_payload_type r) ++ member "role" (sr_role r) ++ member "turn_id" (sr_turn_id r)
  ++ member "name" (sr_name r) ++ member "status" (sr_status r) ++ member "call_id" (sr_call_id r)
  ++ member "last_agent_message" (sr_last_agent_message r)
  ++ turn_id_object "metadata" (sr_metadata_turn_id r)
  ++ turn_id_object "internal_chat_message_metadata_passthrough" (sr_internal_turn_id r)
  ++ match sr_parts r with
     | [] => []
     | ps => [(key "content", JArray (part_value <$> ps))]
     end.

Definition into_value (r : StreamedRecord) : json :=
  JObject (member "type" (sr_top_type r)
           ++ (if sr_payload_object r then [(key "payload", JObject (payload_fields r))] else [])).

(** ** Bounded capture of a string *)

Inductive BoundedCapture :=
| CaptureNone
| CaptureSmall (captured : bytes) (overflowed : bool)
| CaptureText (head : bytes) (tail : list bytes) (tail_bytes total : nat).

Definition small : BoundedCapture := CaptureSmall [] false.
Definition text_capture : BoundedCapture := CaptureText [] [] 0 0.

Definition head_limit : nat := (MAX_TEXT_BYTES - length MARKER) / 3.
Definition tail_limit : nat := MAX_TEXT_BYTES - length MARKER - head_limit.

(** [while tail_bytes > tail_limit { pop_front().expect(..) }] *)
Fixpoint shrink_tail (tail : list bytes) (tail_bytes : nat) : result Fault (list bytes * nat) :=
  if (tail_bytes <=? tail_limit)%nat then Ok (tail, tail_bytes)
  else match tail with
       | [] => Err Panic
       | removed :: tail => shrink_tail tail (tail_bytes - length removed)
       end.

Definition push (b : bytes) (c : BoundedCapture) : result Fault BoundedCapture :=
  match c with
  | CaptureNone => Ok CaptureNone
  | CaptureSmall captured overflowed =>
      let remaining := (MAX_STREAM_SMALL_FIELD_BYTES - length captured)%nat in
      Ok (CaptureSmall (captured ++ take (Nat.min (length b) remaining) b)
            (overflowed || (remaining <? length b)%nat))
  | CaptureText head tail tail_bytes total =>
      let total := (total + length b)%nat in
      if (length head + length b <=? head_limit)%nat
      then Ok (CaptureText (head ++ b) tail tail_bytes total)
      else
        let? t := shrink_tail (tail ++ [b]) (tail_bytes + length b) in
        Ok (CaptureText head t.1 t.2 total)
  end.

Definition finish_capture (c : BoundedCapture) : result Fault text :=
  match c with
  | CaptureNone => Ok []
  | CaptureSmall captured overflowed =>
      let? _ := require (negb overflowed) (Fail InvalidRollout) in
      let? _ := require (utf8_ok captured) (Fail InvalidRollout) in
      Ok captured
  | CaptureText head tail _ total =>
      let tail := mjoin tail in
      let retained := (length head + length tail)%nat in
      let? _ := require (utf8_ok head) (Fail InvalidRollout) in
      let? _ := require (utf8_ok tail) (Fail InvalidRollout) in
      Ok (head ++ (if (retained <? total)%nat then MARKER else []) ++ tail)
  end.

(** ** Strings *)

Inductive StringEscape :=
| NoEscape
| Escaped
| UnicodeEscape (value : Z) (digits : nat) (high : option Z)
| LowBackslash (high : Z)
| LowU (high : Z).

Record JsonString := mk_string {
  js_key : bool;
  js_target : FieldTarget;
  js_capture : BoundedCapture;
  js_escape : StringEscape;
  js_raw_utf8 : bytes;
}.

Definition new_string (is_key : bool) (target : FieldTarget) : JsonString :=
  let capture :=
    if is_key then small
    else match target with
         | PartText _ | LastAgentMessage => text_capture
         | Ignore => CaptureNone
         | _ => small
         end in
  mk_string is_key target capture NoEscape [].

Definition set_escape (e : StringEscape) (s : JsonString) : JsonString :=
  mk_string (js_key s) (js_target s) (js_capture s) e (js_raw_utf8 s).
Definition set_raw (raw : bytes) (s : JsonString) : JsonString :=
  mk_string (js_key s) (js_target s) (js_capture s) (js_escape s) raw.

Definition push_string (b : bytes) (s : JsonString) : result Fault JsonString :=
  let? c := push b (js_capture s) in
  Ok (mk_string (js_key s) (js_target s) c (js_escape s) (js_raw_utf8 s)).

Definition hex_value (b : Z) : result Fault Z :=
  if is_digit b then Ok (b - 48)
  else if between 97 102 b then Ok (b - 97 + 10)
  else if between 65 70 b then Ok (b - 65 + 10)
  else Err (Fail InvalidRollout).

Definition push_scalar (u : Z) (s : JsonString) : result Fault JsonString :=
  let? c := of_option (Fail InvalidRollout) (encode_scalar u) in
  push_string c s.

(** The length a multi-byte character announces by its first byte. *)
Definition expected_length (b0 : Z) : result Fault nat :=
  if between 194 223 b0 then Ok 2%nat
  else if between 224 239 b0 then Ok 3%nat
  else if between 240 244 b0 then Ok 4%nat
  else Err (Fail InvalidRollout).

Definition feed_raw_utf8 (b : Z) (s : JsonString) : result Fault JsonString :=
  match js_raw_utf8 s with
  | [] =>
      if between 0 127 b then push_string [b] s
      else if between 194 244 b then Ok (set_raw [b] s)
      else Err (Fail InvalidRollout)
  | b0 :: rest =>
      if negb (cont b) then Err (Fail InvalidRollout)
      else
        let raw := b0 :: rest ++ [b] in
        let? expected := expected_length b0 in
        if (length raw =? expected)%nat then
          let? _ := require (utf8_ok raw) (Fail InvalidRollout) in
          let? s := push_string raw s in
          Ok (set_raw [] s)
        else if (expected <? length raw)%nat then Err (Fail InvalidRollout)
        else Ok (set_raw raw s)
  end.

(** One hexadecimal digit of a [\u] escape. *)
Definition feed_unicode (value : Z) (digits : nat) (high : option Z) (b : Z) (s : JsonString)
    : result Fault JsonString :=
  let? digit := hex_value b in
  let? shifted := of_option (Fail InvalidRollout)
                    (if value * 16 <=? u16_max then Some (value * 16) else None) in
  let? value := of_option (Fail InvalidRollout) (checked_add u16_max shifted digit) in
  let digits := S digits in
  if (digits <? 4)%nat then Ok (set_escape (UnicodeEscape value digits high) s)
  else match high with
       | Some high =>
           if negb (between 56320 57343 value) then Err (Fail InvalidRollout)
           else push_scalar (65536 + Z.lor (Z.shiftl (high - 55296) 10) (value - 56320)) s
       | None =>
           if between 55296 56319 value then Ok (set_escape (LowBackslash value) s)
           else if between 56320 57343 value then Err (Fail InvalidRollout)
           else push_scalar value s
       end.

(** [JsonString::feed]; [true]: the closing quote was read. *)
Definition feed_string (b : Z) (s : JsonString) : result Fault (bool * JsonString) :=
  let state := js_escape s in
  let s := set_escape NoEscape s in
  match state with
  | NoEscape =>
      if (b =? 34) && bool_decide (js_raw_utf8 s = []) then Ok (true, s)
      else if (b =? 92) && bool_decide (js_raw_utf8 s = []) then Ok (false, set_escape Escaped s)
      else if between 0 31 b then Err (Fail InvalidRollout)
      else let? s := feed_raw_utf8 b s in Ok (false, s)
  | Escaped =>
      if one_of [34; 92; 47] b then let? s := push_string [b] s in Ok (false, s)
      else if b =? 98 then let? s := push_string [8] s in Ok (false, s)
      else if b =? 102 then let? s := push_string [12] s in Ok (false, s)
      else if b =? 110 then let? s := push_string [10] s in Ok (false, s)
      else if b =? 114 then let? s := push_string [13] s in Ok (false, s)
      else if b =? 116 then let? s := push_string [9] s in Ok (false, s)
      else if b =? 117 then Ok (false, set_escape (UnicodeEscape 0 0 None) s)
      else Err (Fail InvalidRollout)
  | UnicodeEscape value digits high =>
      let? s := feed_unicode value digits high b s in Ok (false, s)
  | LowBackslash high =>
      if negb (b =? 92) then Err (Fail InvalidRollout) else Ok (false, set_escape (LowU high) s)
  | LowU high =>
      if negb (b =? 117) then Err (Fail InvalidRollout)
      else Ok (false, set_escape (UnicodeEscape 0 0 (Some high)) s)
  end.

(** ** Containers *)

Inductive JsonContext :=
| Root | Payload | ContentArray | ContentPart (i : nat) | Metadata | InternalMetadata | OtherContext.

Inductive ObjectState := FirstKeyOrEnd | AtKey | Colon | AtValue | CommaOrEnd.
Inductive ArrayState := FirstValueOrEnd | ArrayValue | ArrayCommaOrEnd.

#[export] Instance ObjectState_eq_dec : EqDecision ObjectState.
Proof. solve_decision. Defined.
#[export] Instance ArrayState_eq_dec : EqDecision ArrayState.
Proof. solve_decision. Defined.

Inductive JsonFrame :=
| FObject (context : JsonContext) (state : ObjectState) (fkey : option text)
| FArray (context : JsonContext) (state : ArrayState).

Inductive JsonLex := LexString (s : JsonString) | LexAtom (atom : bytes).

Record StreamingRecordParser := mk_parser {
  pr_stack : list JsonFrame;
  pr_lex : option JsonLex;
  pr_record : StreamedRecord;
  pr_complete : bool;
}.

Definition new_parser : StreamingRecordParser := mk_parser [] None default_record false.

Definition with_lex (l : option JsonLex) (p : StreamingRecordParser) : StreamingRecordParser :=
  mk_parser (pr_stack p) l (pr_record p) (pr_complete p).
Definition with_record (r : StreamedRecord) (p : StreamingRecordParser) : StreamingRecordParser :=
  mk_parser (pr_stack p) (pr_lex p) r (pr_complete p).
Definition with_stack (st : list JsonFrame) (p : StreamingRecordParser) : StreamingRecordParser :=
  mk_parser st (pr_lex p) (pr_record p) (pr_complete p).

Definition is_json_whitespace (b : Z) : bool := one_of [32; 9; 10; 13] b.

(** The context and pending key of the innermost container. *)
Definition top_of (p : StreamingRecordParser) : option (JsonContext * option text) :=
  match pr_stack p with
  | FObject c _ k :: _ => Some (c, k)
  | FArray c _ :: _ => Some (c, None)
  | [] => None
  end.

Definition is_key_named (k : option text) (name : string) : bool := bool_decide (k = Some (key name)).

Definition prepare_field_value (p : StreamingRecordParser) : StreamingRecordParser :=
  match pr_stack p with
  | FObject context _ k :: _ =>
      let named := is_key_named k in
      let r := pr_record p in
      let clear target := with_record (set_target target None r) p in
      match context with
      | Root =>
          if named "type"%string then clear TopType
          else if named "payload"%string then with_record (clear_payload r) p
          else p
      | Payload =>
          if named "type"%string then clear PayloadType
          else if named "role"%string then clear Role
          else if named "turn_id"%string then clear TurnId
          else if named "name"%string then clear Name
          else if named "status"%string then clear Status
          else if named "call_id"%string then clear CallId
          else if named "last_agent_message"%string then clear LastAgentMessage
          else if named "content"%string then with_record (set_parts [] r) p
          else if named "metadata"%string then clear MetadataTurnId
          else if named "internal_chat_message_metadata_passthrough"%string then clear InternalTurnId
          else p
      | Metadata => if named "turn_id"%string then clear MetadataTurnId else p
      | InternalMetadata => if named "turn_id"%string then clear InternalTurnId else p
      | ContentPart i =>
          if named "type"%string then clear (PartType i)
          else if named "text"%string then clear (PartText i)
          else p
      | ContentArray | OtherContext => p
      end
  | _ => p
  end.

(** The context of a container opened here, and the parser that has noted it. *)
Definition child_context (b : Z) (p : StreamingRecordParser)
    : result Fault (JsonContext * StreamingRecordParser) :=
  match top_of p with
  | None => Err (Fail InvalidRollout)
  | Some (context, k) =>
      let named := is_key_named k in
      let brace := b =? 123 in
      let bracket := b =? 91 in
      Ok (match context with
          | Root =>
              if named "payload"%string && brace
              then (Payload, with_record (set_payload_object (pr_record p)) p)
              else (OtherContext, p)
          | Payload =>
              if named "content"%string && bracket then (ContentArray, p)
              else if named "metadata"%string && brace then (Metadata, p)
              else if named "internal_chat_message_metadata_passthrough"%string && brace
              then (InternalMetadata, p)
              else (OtherContext, p)
          | ContentArray =>
              let parts := sr_parts (pr_record p) in
              if brace && (length parts <? MAX_STREAM_CONTENT_PARTS)%nat
              then (ContentPart (length parts),
                    with_record (set_parts (parts ++ [mk_part None None]) (pr_record p)) p)
              else (OtherContext, p)
          | _ => (OtherContext, p)
          end)
  end.

Definition field_target (p : StreamingRecordParser) : FieldTarget :=
  match pr_stack p with
  | FObject context _ k :: _ =>
      let named := is_key_named k in
      match context with
      | Root => if named "type"%string then TopType else Ignore
      | Payload =>
          if named "type"%string then PayloadType
          else if named "role"%string then Role
          else if named "turn_id"%string then TurnId
          else if named "name"%string then Name
          else if named "status"%string then Status
          else if named "call_id"%string then CallId
          else if named "last_agent_message"%string then LastAgentMessage
          else Ignore
      | Metadata => if named "turn_id"%string then MetadataTurnId else Ignore
      | InternalMetadata => if named "turn_id"%string then InternalTurnId else Ignore
      | ContentPart i =>
          if named "type"%string then PartType i
          else if named "text"%string then PartText i
          else Ignore
      | ContentArray | OtherContext => Ignore
      end
  | _ => Ignore
  end.

Definition finish_scalar (p : StreamingRecordParser) : result Fault StreamingRecordParser :=
  match pr_stack p with
  | FObject c AtValue _ :: st => Ok (with_stack (FObject c CommaOrEnd None :: st) p)
  | FArray c (FirstValueOrEnd | ArrayValue) :: st => Ok (with_stack (FArray c ArrayCommaOrEnd :: st) p)
  | _ => Err (Fail InvalidRollout)
  end.

Definition close_container (p : StreamingRecordParser) : result Fault StreamingRecordParser :=
  match pr_stack p with
  | FObject _ (FirstKeyOrEnd | CommaOrEnd) _ :: st
  | FArray _ (FirstValueOrEnd | ArrayCommaOrEnd) :: st =>
      Ok (mk_parser st (pr_lex p) (pr_record p)
            (match st with [] => true | _ => pr_complete p end))
  | _ => Err (Fail InvalidRollout)
  end.

Definition set_object_state (next : ObjectState) (p : StreamingRecordParser)
    : result Fault StreamingRecordParser :=
  match pr_stack p with
  | FObject c _ k :: st => Ok (with_stack (FObject c next k :: st) p)
  | _ => Err (Fail InvalidRollout)
  end.

Definition set_array_state (next : ArrayState) (p : StreamingRecordParser)
    : result Fault StreamingRecordParser :=
  match pr_stack p with
  | FArray c _ :: st => Ok (with_stack (FArray c next :: st) p)
  | _ => Err (Fail InvalidRollout)
  end.

Definition record_field (target : FieldTarget) (value : text) (p : StreamingRecordParser)
    : StreamingRecordParser :=
  with_record (set_target target (Some value) (pr_record p)) p.

Definition finish_string (s : JsonString) (p : StreamingRecordParser)
    : result Fault StreamingRecordParser :=
  let? value := finish_capture (js_capture s) in
  if js_key s then
    match pr_stack p with
    | FObject c (FirstKeyOrEnd | AtKey) _ :: st =>
        Ok (with_stack (FObject c Colon (Some value) :: st) p)
    | _ => Err (Fail InvalidRollout)
    end
  else finish_scalar (record_field (js_target s) value p).

Definition start_value (b : Z) (p : StreamingRecordParser) : result Fault StreamingRecordParser :=
  if is_json_whitespace b then Ok p
  else
    let p := prepare_field_value p in
    let target := field_target p in
    if b =? 34 then Ok (with_lex (Some (LexString (new_string false target))) p)
    else if one_of [123; 91] b then
      let? c := child_context b p in
      let? p := finish_scalar c.2 in
      let? _ := require (length (pr_stack p) <? MAX_STREAM_JSON_DEPTH)%nat (Fail InvalidRollout) in
      Ok (with_stack ((if b =? 123 then FObject c.1 FirstKeyOrEnd None
                       else FArray c.1 FirstValueOrEnd) :: pr_stack p) p)
    else if one_of [45; 116; 102; 110] b || is_digit b
    then Ok (with_lex (Some (LexAtom [b])) p)
    else Err (Fail InvalidRollout).

Definition start_key (p : StreamingRecordParser) : StreamingRecordParser :=
  with_lex (Some (LexString (new_string true Ignore))) p.

(** [feed_byte] outside a string or atom *)
Definition feed_structure (b : Z) (p : StreamingRecordParser) : result Fault StreamingRecordParser :=
  let invalid := Err (Fail InvalidRollout) in
  let white := is_json_whitespace b in
  if pr_complete p then (if white then Ok p else invalid)
  else match pr_stack p with
  | [] =>
      if white then Ok p
      else if negb (b =? 123) then invalid
      else Ok (with_stack [FObject Root FirstKeyOrEnd None] p)
  | FObject _ FirstKeyOrEnd _ :: _ =>
      if white then Ok p else if b =? 125 then close_container p
      else if b =? 34 then Ok (start_key p) else invalid
  | FObject _ AtKey _ :: _ =>
      if white then Ok p else if b =? 34 then Ok (start_key p) else invalid
  | FObject _ Colon _ :: _ =>
      if white then Ok p else if b =? 58 then set_object_state AtValue p else invalid
  | FObject _ AtValue _ :: _ => start_value b p
  | FObject _ CommaOrEnd _ :: _ =>
      if white then Ok p else if b =? 44 then set_object_state AtKey p
      else if b =? 125 then close_container p else invalid
  | FArray _ FirstValueOrEnd :: _ =>
      if white then Ok p else if b =? 93 then close_container p else start_value b p
  | FArray _ ArrayValue :: _ => if white then Ok p else start_value b p
  | FArray _ ArrayCommaOrEnd :: _ =>
      if white then Ok p else if b =? 44 then set_array_state ArrayValue p
      else if b =? 93 then close_container p else invalid
  end.

Section serde.
Context `{Serde}.

Definition feed_byte (b : Z) (p : StreamingRecordParser) : result Fault StreamingRecordParser :=
  match pr_lex p with
  | Some (LexString s) =>
      let? r := feed_string b s in
      if r.1 then finish_string r.2 (with_lex None p)
      else Ok (with_lex (Some (LexString r.2)) p)
  | Some (LexAtom atom) =>
      if is_json_whitespace b || one_of [44; 93; 125] b then
        let? _ := require (bool_decide (is_Some (json_from_slice atom))) (Fail InvalidRollout) in
        let? p := finish_scalar (with_lex None p) in
        feed_structure b p
      else if (64 <=? length atom)%nat then Err (Fail InvalidRollout)
      else Ok (with_lex (Some (LexAtom (atom ++ [b]))) p)
  | None => feed_structure b p
  end.

Fixpoint feed (bs : bytes) (p : StreamingRecordParser) : result Fault StreamingRecordParser :=
  match bs with
  | [] => Ok p
  | b :: bs => let? p := feed_byte b p in feed bs p
  end.

Definition finish_record (p : StreamingRecordParser) : result Fault json :=
  let? _ := require (pr_complete p && match pr_lex p with None => true | Some _ => false end
                && match pr_stack p with [] => true | _ => false end)
              (Fail InvalidRollout) in
  Ok (into_value (pr_record p)).

End serde.
