(* ===== verification/RecordCapture.v ===== *)
(** * What the streaming parser computes

    [value_text v b]: the bytes [b] are a JSON text of the value [v] (RFC 8259; white space,
    every escape, and as atoms the literals [serde_json] accepts).  [visit] is the reading
    of the parser at the level of values: the record after a member is read.  The automaton
    fed the bytes of a text computes exactly the visit of its value; the second half of the
    file shows that its capture buffers do. *)

From S2P Require Import Prelude Bytes StrOps StoreTypes Redact TurnPack RecordParser.

Section spec.
Context `{Serde}.

(** ** JSON texts *)

Definition white_text (w : bytes) : Prop := Forall (λ b, is_json_whitespace b = true) w.

(** What may follow an atom. *)
Definition delimiter (b : Z) : bool := is_json_whitespace b || one_of [44; 93; 125] b.

(** The value of four hexadecimal digits. *)
Definition hex4 (a b c d : Z) : option Z :=
  match hex_value a, hex_value b, hex_value c, hex_value d with
  | Ok a, Ok b, Ok c, Ok d => Some (((a * 16 + b) * 16 + c) * 16 + d)
  | _, _, _, _ => None
  end.

(** The one-letter escapes. *)
Definition simple_escape (b : Z) : option Z :=
  if one_of [34; 92; 47] b then Some b
  else if b =? 98 then Some 8
  else if b =? 102 then Some 12
  else if b =? 110 then Some 10
  else if b =? 114 then Some 13
  else if b =? 116 then Some 9
  else None.

(** [chars_text cs b]: between the quotes, [b] denotes the characters [cs]. *)
Inductive chars_text : list bytes → bytes → Prop :=
| ct_nil : chars_text [] []
| ct_raw c cs b :
    utf8_char c = true → head_is (λ x, (32 <=? x) && negb (x =? 34) && negb (x =? 92)) c = true →
    chars_text cs b → chars_text (c :: cs) (c ++ b)
| ct_escape e v cs b :
    simple_escape e = Some v → chars_text cs b → chars_text ([v] :: cs) (92 :: e :: b)
| ct_unicode d1 d2 d3 d4 u c cs b :
    hex4 d1 d2 d3 d4 = Some u → between 55296 57343 u = false → encode_scalar u = Some c →
    chars_text cs b → chars_text (c :: cs) (92 :: 117 :: d1 :: d2 :: d3 :: d4 :: b)
| ct_pair d1 d2 d3 d4 e1 e2 e3 e4 u v c cs b :
    hex4 d1 d2 d3 d4 = Some u → between 55296 56319 u = true →
    hex4 e1 e2 e3 e4 = Some v → between 56320 57343 v = true →
    encode_scalar (65536 + (u - 55296) * 1024 + (v - 56320)) = Some c → chars_text cs b →
    chars_text (c :: cs) (92 :: 117 :: d1 :: d2 :: d3 :: d4 :: 92 :: 117 :: e1 :: e2 :: e3 :: e4 :: b).

Definition string_text (s : text) (b : bytes) : Prop :=
  ∃ cs b', s = mjoin cs ∧ chars_text cs b' ∧ b = 34 :: b' ++ [34].

Definition is_atom (v : json) : bool :=
  match v with JNull | JBool _ | JNumber _ => true | _ => false end.

(** The texts of a value, of the elements of an array up to its bracket and of the members of
    an object up to its brace; [first]: at the beginning of the container. *)
Inductive value_text : json → bytes → Prop :=
| vt_atom v a :
    is_atom v = true → json_from_slice a = Some v → (length a ≤ 64)%nat →
    head_is (λ x, one_of [45; 116; 102; 110] x || is_digit x) a = true →
    Forall (λ x, delimiter x = false) a → value_text v a
| vt_string s b : string_text s b → value_text (JString s) b
| vt_array items b : items_text true items b → value_text (JArray items) (91 :: b)
| vt_object fields b : fields_text true fields b → value_text (JObject fields) (123 :: b)
with items_text : bool → list json → bytes → Prop :=
| it_empty w : white_text w → items_text true [] (w ++ [93])
| it_last f w v b w' :
    white_text w → value_text v b → white_text w' → items_text f [v] (w ++ b ++ w' ++ [93])
| it_more f w v b w' items b' :
    white_text w → value_text v b → white_text w' → items_text false items b' →
    items_text f (v :: items) (w ++ b ++ w' ++ 44 :: b')
with fields_text : bool → list (text * json) → bytes → Prop :=
| ft_empty w : white_text w → fields_text true [] (w ++ [125])
| ft_last f w k bk w1 w2 v b w3 :
    white_text w → string_text k bk → white_text w1 → white_text w2 → value_text v b →
    white_text w3 → fields_text f [(k, v)] (w ++ bk ++ w1 ++ 58 :: w2 ++ b ++ w3 ++ [125])
| ft_more f w k bk w1 w2 v b w3 fields b' :
    white_text w → string_text k bk → white_text w1 → white_text w2 → value_text v b →
    white_text w3 → fields_text false fields b' →
    fields_text f ((k, v) :: fields) (w ++ bk ++ w1 ++ 58 :: w2 ++ b ++ w3 ++ 44 :: b').

(** A record: an object with white space around it. *)
Definition record_text (fields : list (text * json)) (b : bytes) : Prop :=
  ∃ w b' w', white_text w ∧ value_text (JObject fields) b' ∧ white_text w' ∧ b = w ++ b' ++ w'.

(** ** The visit of a value *)

(** What a string capture keeps of a text. *)
Fixpoint push_all (cs : list bytes) (c : BoundedCapture) : result Fault BoundedCapture :=
  match cs with
  | [] => Ok c
  | b :: cs => let? c := push b c in push_all cs c
  end.
Definition captured (fresh : JsonString) (s : text) : result Fault text :=
  let? c := push_all (utf8_split s) (js_capture fresh) in finish_capture c.

(** A parser about to read a value in the container [context], under the key [k]. *)
Definition at_slot (slot : JsonContext * option text) (r : StreamedRecord) : StreamingRecordParser :=
  mk_parser [FObject slot.1 AtValue slot.2] None r false.

Definition prepared (slot : JsonContext * option text) (r : StreamedRecord) : StreamedRecord :=
  pr_record (prepare_field_value (at_slot slot r)).
Definition slot_target (slot : JsonContext * option text) : FieldTarget :=
  field_target (at_slot slot default_record).
Definition opened (b : Z) (slot : JsonContext * option text) (r : StreamedRecord)
    : JsonContext * StreamedRecord :=
  match child_context b (at_slot slot r) with
  | Ok (c, p) => (c, pr_record p)
  | Err _ => (OtherContext, r)
  end.

Definition visit_key (k : text) : result Fault text := captured (new_string true Ignore) k.
Definition visit_string (slot : JsonContext * option text) (s : text) (r : StreamedRecord)
    : result Fault StreamedRecord :=
  let? s := captured (new_string false (slot_target slot)) s in
  Ok (set_target (slot_target slot) (Some s) r).

(** [depth]: the number of containers around the value. *)
Fixpoint visit (depth : nat) (slot : JsonContext * option text) (v : json) (r : StreamedRecord)
    : result Fault StreamedRecord :=
  let r := prepared slot r in
  match v with
  | JString s => visit_string slot s r
  | JArray items =>
      let c := opened 91 slot r in
      let? _ := require (depth <? MAX_STREAM_JSON_DEPTH)%nat (Fail InvalidRollout) in
      (fix visit_items items r :=
         match items with
         | [] => Ok r
         | v :: items => let? r := visit (S depth) (c.1, None) v r in visit_items items r
         end) items c.2
  | JObject fields =>
      let c := opened 123 slot r in
      let? _ := require (depth <? MAX_STREAM_JSON_DEPTH)%nat (Fail InvalidRollout) in
      (fix visit_fields fields r :=
         match fields with
         | [] => Ok r
         | (k, v) :: fields =>
             let? k := visit_key k in
             let? r := visit (S depth) (c.1, Some k) v r in
             visit_fields fields r
         end) fields c.2
  | _ => Ok r
  end.

Fixpoint visit_items (depth : nat) (c : JsonContext) (items : list json) (r : StreamedRecord)
    : result Fault StreamedRecord :=
  match items with
  | [] => Ok r
  | v :: items => let? r := visit depth (c, None) v r in visit_items depth c items r
  end.
Fixpoint visit_fields (depth : nat) (c : JsonContext) (fields : list (text * json))
    (r : StreamedRecord) : result Fault StreamedRecord :=
  match fields with
  | [] => Ok r
  | (k, v) :: fields =>
      let? k := visit_key k in
      let? r := visit depth (c, Some k) v r in
      visit_fields depth c fields r
  end.

Lemma visit_array depth slot items r :
  visit depth slot (JArray items) r =
  let c := opened 91 slot (prepared slot r) in
  let? _ := require (depth <? MAX_STREAM_JSON_DEPTH)%nat (Fail InvalidRollout) in
  visit_items (S depth) c.1 items c.2.
Proof.
  cbn -[MAX_STREAM_JSON_DEPTH opened prepared]. destruct (opened 91 slot (prepared slot r)) as [c r']; cbn [fst snd].
  destruct (require _ _); [cbn [rbind]|done].
  revert r'. induction items as [|v items IH]; intros r'; [done|].
  cbn -[opened prepared]. destruct (visit (S depth) (c, None) v r'); [apply IH | done].
Qed.

Lemma visit_object depth slot fields r :
  visit depth slot (JObject fields) r =
  let c := opened 123 slot (prepared slot r) in
  let? _ := require (depth <? MAX_STREAM_JSON_DEPTH)%nat (Fail InvalidRollout) in
  visit_fields (S depth) c.1 fields c.2.
Proof.
  cbn -[MAX_STREAM_JSON_DEPTH visit_key opened prepared]. destruct (opened 123 slot (prepared slot r)) as [c r']; cbn [fst snd].
  destruct (require _ _); [cbn [rbind]|done].
  revert r'. induction fields as [|[k v] fields IH]; intros r'; [done|].
  cbn -[visit_key opened prepared]. destruct (visit_key k) as [k'|]; [cbn [rbind]|done].
  destruct (visit (S depth) (c, Some k') v r'); [apply IH | done].
Qed.

Definition visit_record (fields : list (text * json)) : result Fault StreamedRecord :=
  visit_fields 1 Root fields default_record.

End spec.

Scheme value_text_rec_ := Induction for value_text Sort Prop
  with items_text_rec_ := Induction for items_text Sort Prop
  with fields_text_rec_ := Induction for fields_text Sort Prop.
Combined Scheme json_text_ind from value_text_rec_, items_text_rec_, fields_text_rec_.

(** * Bounded captures

    What a string capture keeps: nothing, the whole of a short field, or the beginning and
    the end of a text within [MAX_TEXT_BYTES]. *)

Lemma utf8_split_mjoin_le n s : (length s ≤ n)%nat → mjoin (utf8_split s) = s.
Proof.
  revert s. induction n as [|n IH]; intros [|b s] Hl; cbn [length] in Hl; try done; try lia.
  cbn [utf8_split]. destruct (utf8_char [b]).
  { rewrite mjoin_cons, IH by lia. done. }
  destruct s as [|c1 s]; [done|]. cbn [length] in Hl. destruct (utf8_char [b; c1]).
  { rewrite mjoin_cons, IH by lia. done. }
  destruct s as [|c2 s]; [done|]. cbn [length] in Hl. destruct (utf8_char [b; c1; c2]).
  { rewrite mjoin_cons, IH by lia. done. }
  destruct s as [|c3 s]; [done|]. cbn [length] in Hl.
  rewrite mjoin_cons, IH by lia. done.
Qed.
Lemma utf8_split_mjoin s : mjoin (utf8_split s) = s.
Proof. by eapply utf8_split_mjoin_le. Qed.
#[export] Hint Rewrite utf8_split_mjoin : capture.

(** ** Small fields *)

Lemma push_small cs acc :
  push_all cs (CaptureSmall acc true) = Ok (CaptureSmall acc true)
  ∨ ∃ acc', push_all cs (CaptureSmall acc true) = Ok (CaptureSmall acc' true).
Proof.
  right. revert acc. induction cs as [|c cs IH]; intros acc; cbn; [by eauto|].
  destruct (IH (acc ++ take (Nat.min (length c) (MAX_STREAM_SMALL_FIELD_BYTES - length acc)) c)) as [a' E].
  exists a'. exact E.
Qed.

Lemma small_capture cs acc cap t :
  push_all cs (CaptureSmall acc false) = Ok cap → finish_capture cap = Ok t →
  t = acc ++ mjoin cs ∧ (length t ≤ Nat.max (length acc) MAX_STREAM_SMALL_FIELD_BYTES)%nat.
Proof.
  revert acc. induction cs as [|c cs IH]; intros acc Hp Hf.
  - cbn in Hp. simplify_eq. cbn [finish_capture] in Hf. run_ok Hf. simplify_eq. cbn. rewrite app_nil_r.
    split; [done | lia].
  - cbn [push_all push rbind orb] in Hp. destruct (Nat.ltb_spec (MAX_STREAM_SMALL_FIELD_BYTES - length acc) (length c)).
    + exfalso. destruct (push_small cs (acc ++ take (Nat.min (length c) (MAX_STREAM_SMALL_FIELD_BYTES - length acc)) c))
        as [E|[a' E]]; rewrite E in Hp; simplify_eq; cbn [finish_capture] in Hf; run_ok Hf; done.
    + rewrite take_ge in Hp by lia. apply IH in Hp as [-> Hl]; [|done].
      rewrite mjoin_cons, <- app_assoc. split; [done|].
      rewrite !length_app in *. rewrite ?mjoin_cons, ?length_app in *. lia.
Qed.

(** A short field is kept whole or refused. *)
Lemma captured_small b target s t :
  js_capture (new_string b target) = small → captured (new_string b target) s = Ok t →
  t = s ∧ (length s ≤ MAX_STREAM_SMALL_FIELD_BYTES)%nat.
Proof.
  intros E Hc. unfold captured in Hc. rewrite E in Hc. unfold small in Hc.
  destruct (push_all _ _) as [cap|] eqn:Hp; [|done]. cbn [rbind] in Hc.
  destruct (small_capture _ _ _ _ Hp Hc) as [-> Hl]. cbn [app] in *. rewrite utf8_split_mjoin in *. done.
Qed.

(** ** Texts *)

Lemma head_capture cs head tail tb total :
  (length head + length (mjoin cs) ≤ head_limit)%nat →
  push_all cs (CaptureText head tail tb total) =
  Ok (CaptureText (head ++ mjoin cs) tail tb (total + length (mjoin cs))).
Proof.
  revert head total. induction cs as [|c cs IH]; intros head total Hl.
  - cbn. by rewrite app_nil_r, Nat.add_0_r.
  - rewrite mjoin_cons, length_app in *. cbn [push_all push].
    destruct (Nat.leb_spec (length head + length c) head_limit); [|lia]. cbn [rbind].
    rewrite IH by (rewrite length_app; lia). by rewrite app_assoc, Nat.add_assoc.
Qed.

(** A text that fits the head budget is kept whole. *)
Lemma captured_short target s t :
  js_capture (new_string false target) = text_capture → (length s ≤ head_limit)%nat →
  captured (new_string false target) s = Ok t → t = s.
Proof.
  intros E Hl Hc. unfold captured in Hc. rewrite E in Hc. unfold text_capture in Hc.
  rewrite head_capture in Hc by (rewrite utf8_split_mjoin; cbn [length]; lia).
  cbn [rbind finish_capture app] in Hc. rewrite utf8_split_mjoin in Hc. run_ok Hc.
  simplify_eq. cbn [mjoin list_join length Nat.add] in *.
  destruct (Nat.ltb_spec (length s + 0) (length s)); [lia|]. by rewrite !app_nil_r.
Qed.

Lemma utf8_split_valid_le n s :
  (length s ≤ n)%nat → utf8_ok s = true → Forall (λ c, utf8_char c = true) (utf8_split s).
Proof.
  revert s. induction n as [|n IH]; intros [|b s] Hl Hs; cbn [length] in Hl; try (constructor; done); try lia.
  cbn [utf8_split utf8_ok] in *. destruct (utf8_char [b]) eqn:H1.
  { constructor; [done | apply IH; [lia | done]]. }
  destruct s as [|c1 s]; [done|]. cbn [length] in Hl. destruct (utf8_char [b; c1]) eqn:H2.
  { constructor; [done | apply IH; [lia | done]]. }
  destruct s as [|c2 s]; [done|]. cbn [length] in Hl. destruct (utf8_char [b; c1; c2]) eqn:H3.
  { constructor; [done | apply IH; [lia | done]]. }
  destruct s as [|c3 s]; [done|]. cbn [length] in Hl.
  apply andb_prop in Hs as [H4 Hs]. constructor; [done | apply IH; [lia | done]].
Qed.

Lemma utf8_split_valid s : utf8_ok s = true → Forall (λ c, utf8_char c = true) (utf8_split s).
Proof. intros. by eapply utf8_split_valid_le. Qed.

Lemma push_all_app cs1 cs2 c : push_all (cs1 ++ cs2) c = rbind (push_all cs1 c) (push_all cs2).
Proof. revert c. induction cs1 as [|b cs1 IH]; intros c; [done|]. cbn [app push_all]. destruct (push b c); [apply IH|done]. Qed.

Lemma utf8_ok_rest cs s : Forall (λ c, utf8_char c = true) cs → utf8_ok (mjoin cs ++ s) = utf8_ok s.
Proof. induction 1 as [|c cs Hc _ IH]; [done|]. by rewrite mjoin_cons, <- app_assoc, utf8_ok_char. Qed.

Lemma shrink_tail_fits tail n : (n ≤ tail_limit)%nat → shrink_tail tail n = Ok (tail, n).
Proof. intros Hn. destruct tail; cbn [shrink_tail]; by rewrite (proj2 (Nat.leb_le _ _) Hn). Qed.

(** Once the head is full, everything goes to the tail. *)
Lemma tail_capture cs head tail tb total :
  length head = head_limit → Forall (λ c, utf8_char c = true) cs → (tb + length (mjoin cs) ≤ tail_limit)%nat →
  push_all cs (CaptureText head tail tb total)
  = Ok (CaptureText head (tail ++ cs) (tb + length (mjoin cs)) (total + length (mjoin cs))).
Proof.
  intros Hh Hcs. revert tail tb total. induction Hcs as [|c cs Hc _ IH]; intros tail tb total Hl.
  - cbn. by rewrite app_nil_r, !Nat.add_0_r.
  - rewrite mjoin_cons, length_app in *. cbn [push_all push].
    assert (1 ≤ length c)%nat by (destruct c; [done|cbn; lia]).
    destruct (Nat.leb_spec (length head + length c) head_limit); [lia|].
    rewrite shrink_tail_fits by lia. cbn [rbind fst snd]. rewrite IH by lia. by rewrite <- app_assoc, !Nat.add_assoc.
Qed.

Lemma finish_whole head tail tb t :
  finish_capture (CaptureText head tail tb (length head + length (mjoin tail))) = Ok t → t = head ++ mjoin tail.
Proof.
  cbn [finish_capture]. intros Hr. run_ok Hr. simplify_eq. by rewrite Nat.ltb_irrefl.
Qed.

(** A text that fits both budgets is kept whole, when one of its characters ends where the
    head budget does. *)
Lemma captured_to_the_tail target s t :
  js_capture (new_string false target) = text_capture → utf8_ok s = true → utf8_ok (take head_limit s) = true →
  (length s ≤ head_limit + tail_limit)%nat → captured (new_string false target) s = Ok t → t = s.
Proof.
  intros E Hs Hh Hl. destruct (decide (length s ≤ head_limit)%nat) as [Hshort|Hlong]; [by apply captured_short|].
  pose proof (utf8_split_valid _ Hh) as Hv1. set (cs1 := utf8_split (take head_limit s)) in *.
  assert (mjoin cs1 = take head_limit s) as E1 by apply utf8_split_mjoin.
  assert (utf8_ok (drop head_limit s) = true) as Hd by (rewrite <- (utf8_ok_rest cs1 _ Hv1), E1, take_drop; done).
  pose proof (utf8_split_valid _ Hd) as Hv2. set (cs2 := utf8_split (drop head_limit s)) in *.
  assert (mjoin cs2 = drop head_limit s) as E2 by apply utf8_split_mjoin.
  assert (utf8_split s = cs1 ++ cs2) as Es.
  { rewrite <- (utf8_split_join (cs1 ++ cs2)) by (by apply Forall_app). by rewrite mjoin_app, E1, E2, take_drop. }
  unfold captured. rewrite E, Es. unfold text_capture. rewrite push_all_app, head_capture.
  2:{ rewrite E1, length_take. cbn [length]. lia. }
  cbn [rbind app]. rewrite tail_capture; [|by rewrite E1, length_take, Nat.min_l by lia|exact Hv2|rewrite E2, length_drop; lia].
  cbn [rbind]. rewrite !Nat.add_0_l. intros ->%finish_whole. by rewrite E1, E2, take_drop.
Qed.

Lemma limits_sum : (head_limit + length MARKER + tail_limit)%nat = MAX_TEXT_BYTES.
Proof. by vm_compute. Qed.

(** What a text capture keeps true: both ends within their limits, made of whole characters. *)
Record text_capture_wf (head : bytes) (tail : list bytes) (tail_bytes total : nat) : Prop := {
  tc_head : (length head ≤ head_limit)%nat;
  tc_tail : (tail_bytes ≤ tail_limit)%nat;
  tc_bytes : tail_bytes = length (mjoin tail);
  tc_total : (length head + tail_bytes ≤ total)%nat;
  tc_head_ok : utf8 head;
  tc_tail_ok : Forall (λ c, utf8_char c = true) tail;
}.

Lemma utf8_app s t : utf8 s → utf8 t → utf8 (s ++ t).
Proof. induction 1; intros; [done|]. rewrite <- app_assoc. constructor; auto. Qed.

Lemma utf8_utf8_ok s : utf8 s → utf8_ok s = true.
Proof. induction 1 as [|c s Hc _ IH]; [done|]. by rewrite utf8_ok_char. Qed.

Lemma utf8_of_char c : utf8_char c = true → utf8 c.
Proof. intros. rewrite <- (app_nil_r c). by repeat constructor. Qed.

Lemma utf8_mjoin cs : Forall (λ c, utf8_char c = true) cs → utf8 (mjoin cs).
Proof. induction 1; [constructor|]. rewrite mjoin_cons. by constructor. Qed.

Lemma shrink_tail_ok tail n :
  n = length (mjoin tail) → Forall (λ c, utf8_char c = true) tail →
  ∃ tail' n', shrink_tail tail n = Ok (tail', n') ∧ n' = length (mjoin tail') ∧ (n' ≤ tail_limit)%nat
    ∧ (n' ≤ n)%nat ∧ Forall (λ c, utf8_char c = true) tail'.
Proof.
  revert n. induction tail as [|c tail IH]; intros n -> Hv; unfold shrink_tail; fold shrink_tail.
  - cbn [mjoin list_join length]. destruct (Nat.leb_spec 0 tail_limit); [|lia]. eexists _, _. eauto with lia.
  - destruct (Nat.leb_spec (length (mjoin (c :: tail))) tail_limit).
    { eexists _, _. eauto 10 with lia. }
    apply Forall_cons in Hv as [_ Hv].
    destruct (IH (length (mjoin (c :: tail)) - length c)%nat) as (t' & n' & -> & ? & ? & ? & ?); [|done|].
    { rewrite mjoin_cons, length_app. lia. }
    eexists _, _. split_and!; try done. lia.
Qed.

Lemma push_text_wf c head tail tb total :
  utf8_char c = true → text_capture_wf head tail tb total →
  ∃ head' tail' tb', push c (CaptureText head tail tb total) = Ok (CaptureText head' tail' tb' (total + length c))
    ∧ text_capture_wf head' tail' tb' (total + length c).
Proof.
  intros Hc [Hh Ht Hb Htot Hhok Htok]. cbn [push].
  destruct (Nat.leb_spec (length head + length c) head_limit) as [Hf|Hf].
  - eexists _, _, _. split; [done|]. split; rewrite ?length_app; try done; try lia.
    apply utf8_app; [done | by apply utf8_of_char].
  - destruct (shrink_tail_ok (tail ++ [c]) (tb + length c)) as (t' & n' & -> & ? & ? & ? & ?).
    + rewrite mjoin_app, length_app, mjoin_cons, length_app. cbn. lia.
    + apply Forall_app. by repeat constructor.
    + eexists _, _, _. split; [done|]. cbn [fst snd]. split; try done; lia.
Qed.

Lemma push_all_text_wf cs head tail tb total :
  Forall (λ c, utf8_char c = true) cs → text_capture_wf head tail tb total →
  ∃ head' tail' tb' total', push_all cs (CaptureText head tail tb total) = Ok (CaptureText head' tail' tb' total')
    ∧ text_capture_wf head' tail' tb' total'.
Proof.
  intros Hcs. revert head tail tb total. induction Hcs as [|c cs Hc _ IH]; intros head tail tb total Hw.
  - eexists _, _, _, _. eauto.
  - cbn [push_all]. destruct (push_text_wf c head tail tb total Hc Hw) as (h' & t' & b' & -> & Hw'). cbn [rbind].
    apply IH, Hw'.
Qed.

Lemma utf8_marker : utf8 MARKER.
Proof. by repeat (apply (utf8_cons [_]); [done|]); constructor. Qed.

(** Capturing a text never fails, and the result is UTF-8 within [MAX_TEXT_BYTES]. *)
Lemma captured_text_bounded target s :
  js_capture (new_string false target) = text_capture → utf8_ok s = true →
  ∃ t, captured (new_string false target) s = Ok t ∧ (length t ≤ MAX_TEXT_BYTES)%nat ∧ utf8_ok t = true.
Proof.
  intros E Hs. unfold captured. rewrite E. unfold text_capture.
  destruct (push_all_text_wf (utf8_split s) [] [] 0 0) as (h & t & b & n & -> & [Hh Ht Hb Htot Hhok Htok]).
  { by apply utf8_split_valid. }
  { split; try done; cbn; try lia. constructor. }
  cbn [rbind finish_capture]. rewrite (utf8_utf8_ok h), (utf8_utf8_ok (mjoin t)) by auto using utf8_mjoin.
  cbn [require rbind]. eexists. split; [done|]. pose proof limits_sum. rewrite !length_app. split.
  - destruct (_ <? n)%nat; cbn [length]; lia.
  - apply utf8_utf8_ok, utf8_app; [done|]. apply utf8_app; [|by apply utf8_mjoin].
    destruct (_ <? n)%nat; [apply utf8_marker | constructor].
Qed.

(** The head budget is tested for each character on its own: a wide character that no longer
    fits goes to the tail, and a narrower one after it still goes to the head. *)
Lemma captured_out_of_order target h c x :
  js_capture (new_string false target) = text_capture →
  utf8_ok h = true → length h = (head_limit - 1)%nat → utf8_char c = true → (1 < length c)%nat → utf8_char [x] = true →
  captured (new_string false target) (h ++ c ++ [x]) = Ok (h ++ [x] ++ c).
Proof.
  intros E Hh Hl Hc Hlc Hx. unfold captured. rewrite E. unfold text_capture.
  assert (utf8_split (h ++ c ++ [x]) = utf8_split h ++ [c; [x]]) as ->.
  { rewrite <- (utf8_split_mjoin h) at 1. rewrite <- (utf8_split_join (utf8_split h ++ [c; [x]])).
    - by rewrite mjoin_app, !mjoin_cons, app_nil_r.
    - apply Forall_app. split; [by apply utf8_split_valid | by repeat constructor]. }
  assert (∀ a b c, push_all (a ++ b) c = let? c := push_all a c in push_all b c) as Happ.
  { intros a b c0. revert c0. induction a as [|y a IH]; intros c0; [done|].
    cbn [app push_all]. destruct (push y c0); [apply IH | done]. }
  rewrite Happ, head_capture by (rewrite utf8_split_mjoin; cbn [length]; lia).
  rewrite utf8_split_mjoin. cbn [rbind push_all push app length].
  assert (0 < head_limit)%nat by (vm_compute; lia).
  destruct (Nat.leb_spec (length h + length c) head_limit); [lia|].
  assert (length c ≤ 4)%nat by (destruct (utf8_char_cases c Hc) as [(?&->&?)|[(?&?&->&?)|[(?&?&?&->&?)|(?&?&?&?&->&?)]]]; cbn; lia).
  assert (4 ≤ tail_limit)%nat by (vm_compute; lia).
  cbn [shrink_tail app Nat.add]. destruct (Nat.leb_spec (length c) tail_limit); [|lia].
  cbn [rbind fst snd push length].
  destruct (Nat.leb_spec (length h + 1) head_limit); [|lia]. cbn [rbind finish_capture].
  assert (utf8_ok (h ++ [x]) = true) as ->.
  { apply utf8_utf8_ok, utf8_app; [|by apply utf8_of_char].
    rewrite <- (utf8_split_mjoin h). by apply utf8_mjoin, utf8_split_valid. }
  rewrite mjoin_cons, app_nil_r, (utf8_utf8_ok c) by by apply utf8_of_char.
  cbn [require rbind]. rewrite !length_app. cbn [length].
  destruct (Nat.ltb_spec (length h + 1 + length c) (length h + length c + 1)); [lia|].
  by rewrite <- app_assoc.
Qed.
