(* ===== verification/RedactProps.v ===== *)
(** * Properties of redaction *)

From S2P Require Import Prelude Bytes StrOps RecordCapture Redact.

(** ** Searching *)

Lemma find_at_app P s t :
  (∀ i, (i < length s)%nat → P (drop i (s ++ t)) = false) → P t = true →
  find_at P (s ++ t) = Some (length s).
Proof.
  induction s as [|b s IH]; intros Hs Ht.
  - destruct t; cbn [app find_at length] in *; by rewrite Ht.
  - cbn [app find_at length]. pose proof (Hs 0%nat ltac:(cbn; lia)) as H0. cbn [drop app] in H0. rewrite H0.
    rewrite IH; [done | | done]. intros i Hi. apply (Hs (S i)). cbn. lia.
Qed.

Lemma find_char_app P s t :
  Forall (λ b, P b = false) s → head_is P t = true → find_char (head_is P) (s ++ t) = Some (length s).
Proof.
  intros Hs Ht. apply find_at_app.
  - intros i Hi. rewrite drop_app_le by lia.
    destruct (drop i s) as [|b r] eqn:E; [apply (f_equal length) in E; rewrite length_drop in E; cbn in E; lia|].
    apply (Forall_drop _ i) in Hs. rewrite E in Hs. by apply Forall_cons in Hs as [? _].
  - destruct t; done.
Qed.

Lemma boundary_head s : utf8 s → is_char_boundary s 0 = true.
Proof.
  intros Hs. destruct Hs as [|c s Hc _]; [done|]. unfold is_char_boundary.
  destruct (utf8_char_cases c Hc) as [(b & -> & ?)|[(b & c1 & -> & ? & ?)|[(b & c1 & c2 & -> & ? & ?)
    |(b & c1 & c2 & c3 & -> & ? & ?)]]]; cbn; unfold cont; lia.
Qed.

Lemma boundary_end s : is_char_boundary s (length s) = true.
Proof. unfold is_char_boundary. rewrite lookup_ge_None_2 by lia. apply Nat.eqb_refl. Qed.

Lemma boundary_app_r s t i : is_char_boundary (s ++ t) (length s + i) = is_char_boundary t i.
Proof.
  unfold is_char_boundary. rewrite lookup_app_r by lia. replace (length s + i - length s)%nat with i by lia.
  destruct (t !! i); [done|]. rewrite length_app.
  destruct (Nat.eqb_spec i (length t)), (Nat.eqb_spec (length s + i) (length s + length t)); try done; lia.
Qed.

Lemma boundary_app_l s t i : (i < length s)%nat → is_char_boundary (s ++ t) i = is_char_boundary s i.
Proof.
  intros Hi. unfold is_char_boundary. rewrite lookup_app_l by done.
  destruct (lookup_lt_is_Some_2 s i Hi) as [b ->]. done.
Qed.

Lemma str_slice_ok a b s :
  (a ≤ b ≤ length s)%nat → is_char_boundary s a = true → is_char_boundary s b = true →
  str_slice a b s = Ok (slice a (b - a) s).
Proof.
  intros Hab Ha Hb. unfold str_slice. rewrite Ha, Hb.
  destruct (Nat.leb_spec a b), (Nat.leb_spec b (length s)); try lia. done.
Qed.

Lemma str_slice_panics a b s : is_char_boundary s a = false → str_slice a b s = Err Panic.
Proof. intros Ha. unfold str_slice. rewrite Ha, andb_false_r. done. Qed.

Lemma str_slice_take n s : slice 0 n s = take n s.
Proof. done. Qed.

Lemma slice_rest n s : slice n (length s - n) s = drop n s.
Proof. unfold slice. rewrite take_ge; [done|]. rewrite length_drop. lia. Qed.

(** ** A scheme behind a wide character *)

Lemma wide_char_bytes c :
  utf8_char c = true → (1 < length c)%nat →
  ∃ b c1 r, c = b :: c1 :: r ∧ 194 ≤ b ≤ 244 ∧ cont c1 = true ∧ Forall (λ x, cont x = true) r.
Proof.
  intros Hc Hl.
  destruct (utf8_char_cases c Hc) as [(b & -> & ?)|[(b & c1 & -> & ? & ?)|[(b & c1 & c2 & -> & ? & ?)
    |(b & c1 & c2 & c3 & -> & ? & ? & ? & ?)]]]; cbn in Hl; try lia;
    eexists _, _, _; (split; [done|]); split_and!; try done; try lia; repeat constructor; tauto.
Qed.

Lemma list_find_rev_seq P `{∀ i, Decision (P i)} n p :
  (p < n)%nat → P p → (∀ i, (p < i < n)%nat → ¬ P i) →
  ∃ j, list_find P (rev (seq 0 n)) = Some (j, p).
Proof.
  intros Hp HP Hn. replace n with (p + S (n - S p))%nat by lia.
  rewrite seq_app, rev_app_distr. cbn [seq rev]. rewrite <- app_assoc. cbn [app Nat.add].
  assert (list_find P (rev (seq (S p) (n - S p))) = None) as Hnone.
  { apply list_find_None, Forall_forall. intros i Hi. apply Hn.
    apply list_elem_of_In, in_rev, in_seq in Hi. lia. }
  eexists. rewrite list_find_app_r by exact Hnone. cbn [list_find]. rewrite decide_True by done. done.
Qed.

(** The search of [local_path_start] stops one byte into the wide character. *)
Lemma scheme_start_wide pre c w :
  utf8_char c = true → (1 < length c)%nat → Forall (λ b, is_alnum b = true) w →
  scheme_start (pre ++ c ++ w) = S (length pre).
Proof.
  intros Hc Hl Hw. destruct (wide_char_bytes c Hc Hl) as (b & c1 & r & -> & Hb & Hc1 & Hr).
  unfold scheme_start.
  edestruct (list_find_rev_seq (λ i, is_char_boundary (pre ++ (b :: c1 :: r) ++ w) i = true
      ∧ head_is is_alnum (drop i (pre ++ (b :: c1 :: r) ++ w)) = false)
      (length (pre ++ (b :: c1 :: r) ++ w)) (length pre)) as [j Hj].
  - rewrite !length_app. cbn. lia.
  - rewrite <- (Nat.add_0_r (length pre)) at 1. rewrite boundary_app_r. rewrite drop_app_length.
    unfold is_char_boundary. cbn [app lookup list_lookup head_is].
    unfold is_alnum, is_alpha, is_upper, is_lower, is_digit, between, cont. split; lia.
  - intros i Hi [Hbi Hai]. rewrite !length_app in Hi. cbn [length] in Hi.
    replace i with (length pre + (i - length pre))%nat in Hbi by lia. rewrite boundary_app_r in Hbi.
    rewrite drop_app_ge in Hai by lia.
    assert (1 ≤ i - length pre)%nat as Hk by lia.
    assert (i - length pre < length ((b :: c1 :: r) ++ w))%nat as Hk2 by (rewrite length_app; cbn; lia).
    revert Hbi Hai Hk Hk2. generalize (i - length pre)%nat as k. clear Hi. intros k Hbk Hak Hk1 Hk2.
    destruct (decide (k < length (b :: c1 :: r))%nat) as [Hlt|Hge].
    + rewrite boundary_app_l in Hbk by done. unfold is_char_boundary in Hbk.
      destruct ((b :: c1 :: r) !! k) as [x|] eqn:Ex; [|apply lookup_ge_None in Ex; lia].
      assert (cont x = true) as Hx.
      { destruct k as [|[|k]]; cbn in Ex; [lia | by simplify_eq|].
        rewrite Forall_forall in Hr. by eapply Hr, list_elem_of_lookup_2. }
      by rewrite Hx in Hbk.
    + rewrite drop_app_ge in Hak by lia.
      destruct (drop (k - length (b :: c1 :: r)) w) as [|x w'] eqn:Ex.
      * apply (f_equal length) in Ex. rewrite length_drop in Ex. rewrite length_app in Hk2.
        cbn [length] in *. lia.
      * cbn in Hak. apply (Forall_drop _ (k - length (b :: c1 :: r))) in Hw. rewrite Ex in Hw.
        apply Forall_cons in Hw as [Hx _]. by rewrite Hx in Hak.
  - by rewrite Hj.
Qed.

(** [pre] is text without a slash, tilde or colon; [w] is a scheme of letters and digits. *)
Definition no_path_start (s : bytes) : Prop := Forall (λ b, one_of [47; 126; 58] b = false) s.
Definition scheme_chars (w : bytes) : Prop := Forall (λ b, is_alnum b = true) w.

Lemma high_no_path_start s : Forall (λ b, 128 ≤ b) s → no_path_start s.
Proof. intros Hs. eapply Forall_impl; [exact Hs|]. intros b Hb. cbn beta in *. unfold one_of. cbn [existsb]. lia. Qed.

Lemma alnum_no_path_start s : scheme_chars s → no_path_start s.
Proof.
  intros Hs. eapply Forall_impl; [exact Hs|]. intros b. cbn beta.
  unfold is_alnum, is_alpha, is_upper, is_lower, is_digit, between, one_of. cbn [existsb]. lia.
Qed.

Lemma wide_no_path_start c : utf8_char c = true → (1 < length c)%nat → no_path_start c.
Proof.
  intros Hc Hl. destruct (wide_char_bytes c Hc Hl) as (b & c1 & r & -> & Hb & Hc1 & Hr).
  apply high_no_path_start. repeat constructor; try lia; [revert Hc1; unfold cont; lia|].
  eapply Forall_impl; [exact Hr|]. intros x Hx. revert Hx. unfold cont. lia.
Qed.

(** A URL that directly follows a character outside ASCII makes [redact_embedded_paths]
    panic: the scheme is looked for one byte after the start of that character, which is
    inside it, and slicing the line there is not on a character boundary.  So does any text
    of a rollout with such a URL, for every prefix without another path or URL. *)
Theorem redact_panics_after_wide_character pre c w rest :
  utf8 pre → no_path_start pre → utf8_char c = true → (1 < length c)%nat → scheme_chars w →
  redact_embedded_paths (pre ++ c ++ w ++ ascii_bytes "://" ++ rest) = Err Panic.
Proof.
  intros Hu Hpre Hc Hl Hw.
  set (before := pre ++ c ++ w). set (url := ascii_bytes "://" ++ rest).
  assert (pre ++ c ++ w ++ url = before ++ url) as E by (unfold before; by rewrite !app_assoc).
  unfold redact_embedded_paths. rewrite E.
  assert (is_char_boundary (before ++ url) 0 = true) as B0.
  { unfold before. destruct pre as [|b pre'].
    - cbn [app]. rewrite <- app_assoc. destruct (wide_char_bytes c Hc Hl) as (b & c1 & r & -> & Hb & _).
      unfold is_char_boundary. cbn. unfold cont. lia.
    - rewrite <- app_assoc, boundary_app_l by (cbn; lia). by apply boundary_head. }
  assert (is_char_boundary (before ++ url) (length before) = true) as B1.
  { rewrite <- (Nat.add_0_r (length before)), boundary_app_r. done. }
  assert (find_char (head_is (one_of [47; 126; 58])) (before ++ url) = Some (length before)) as F.
  { apply find_char_app; [|done]. unfold before. rewrite !Forall_app.
    split_and!; [done | by apply wide_no_path_start | by apply alnum_no_path_start]. }
  assert (length before < length (before ++ url))%nat as Hlt by (rewrite length_app; cbn; lia).
  cbn [redact_paths_fuel]. destruct (Nat.ltb_spec 0 (length (before ++ url))); [|lia].
  rewrite str_slice_ok by (done || lia || apply boundary_end). rewrite Nat.sub_0_r, str_slice_take, take_ge by done.
  cbn [rbind]. rewrite F. cbn [Nat.add]. unfold local_path_start.
  rewrite (str_slice_ok (length before)) by (done || lia || apply boundary_end).
  rewrite slice_rest, drop_app_length. cbn [rbind].
  rewrite (str_slice_ok 0 (length before)) by (done || lia).
  rewrite Nat.sub_0_r, str_slice_take, take_app_length. cbn [rbind].
  change (has_prefix (ascii_bytes "://") url) with true. cbn iota.
  unfold before at 1. rewrite scheme_start_wide by done. rewrite str_slice_panics; [done|].
  unfold before. rewrite <- !app_assoc. replace (S (length pre)) with (length pre + 1)%nat by lia.
  rewrite boundary_app_r. destruct (wide_char_bytes c Hc Hl) as (b & c1 & r & -> & Hb & Hc1 & _).
  unfold is_char_boundary. cbn. by rewrite Hc1.
Qed.

(** The character U+770B. *)
Definition utf8_demo : bytes := [231; 156; 139].

(** A text that is redacted without a fault as it stands panics once the URL touches a wide
    character, and so does a [file] URL with a single slash. *)
Lemma adjoined_url_panics :
  redact_sensitive_text (utf8_demo ++ ascii_bytes "https://example.org/") = Err Panic
  ∧ redact_sensitive_text (utf8_demo ++ ascii_bytes " https://example.org/")
    = Ok (utf8_demo ++ ascii_bytes " https://example.org/")
  ∧ redact_sensitive_text (ascii_bytes "open file:/tmp/a.txt") = Err Panic.
Proof. by vm_compute. Qed.

(** ** Secret tokens *)

(** [t] is a maximal run of token characters of [a ++ t ++ b]. *)
Definition maximal_run (a t b : bytes) : Prop :=
  t ≠ [] ∧ Forall (λ x, is_token_character x = true) t
  ∧ last_is is_token_character a = false ∧ head_is is_token_character b = false.

Definition no_secret_run (s : bytes) : Prop :=
  ∀ a t b, s = a ++ t ++ b → maximal_run a t b → looks_like_secret_token t = false.

Lemma last_is_app P a b : b ≠ [] → last_is P (a ++ b) = last_is P b.
Proof. intros Hb. unfold last_is. rewrite last_app. destruct (last b) eqn:E; [done|]. by apply last_None in E. Qed.

Lemma head_is_app P a b : a ≠ [] → head_is P (a ++ b) = head_is P a.
Proof. by destruct a. Qed.

Lemma last_is_none P s : Forall (λ x, P x = false) s → last_is P s = false.
Proof.
  intros Hs. unfold last_is. destruct (last s) eqn:E; [|done].
  apply last_Some in E as [l ->]. apply Forall_app in Hs as [_ Hz].
  by apply Forall_cons in Hz as [? _].
Qed.

(** Runs do not cross a boundary next to a character that is not a token character. *)
Lemma no_secret_run_app s1 s2 :
  no_secret_run s1 → no_secret_run s2 →
  last_is is_token_character s1 = false ∨ head_is is_token_character s2 = false →
  no_secret_run (s1 ++ s2).
Proof.
  intros H1 H2 Hor a t b E (Hne & Ht & Ha & Hb).
  destruct (app_eq_inv _ _ _ _ E) as [(k & E1 & E2)|(k & E1 & E2)].
  - (* s1 = a ++ k, k ++ s2 = t ++ b *)
    destruct (app_eq_inv _ _ _ _ E2) as [(m & F1 & F2)|(m & F1 & F2)].
    + (* t = k ++ m, s2 = m ++ b *)
      destruct (decide (m = [])) as [->|Hm].
      { rewrite app_nil_r in F1. subst k. apply (H1 a t []); [by rewrite app_nil_r|]. done. }
      destruct (decide (k = [])) as [->|Hk].
      { cbn in F1. subst m. rewrite app_nil_r in E1. subst a. apply (H2 [] t b); [done|]. done. }
      exfalso. subst. apply Forall_app in Ht as [Htk Htm]. destruct Hor as [Ho|Ho].
      * rewrite last_is_app in Ho by done. destruct (last k) eqn:El; [|by apply last_None in El].
        unfold last_is in Ho. rewrite El in Ho. apply last_Some in El as [l ->].
        apply Forall_app in Htk as [_ Hx]. apply Forall_cons in Hx as [Hx _]. by rewrite Hx in Ho.
      * rewrite head_is_app in Ho by done. destruct m as [|x m]; [done|].
        apply Forall_cons in Htm as [Hx _]. cbn in Ho. by rewrite Hx in Ho.
    + (* k = t ++ m, b = m ++ s2 *)
      subst. apply (H1 a t m); [done|]. split_and!; try done.
      destruct m as [|x m]; [done|]. exact Hb.
  - (* a = s1 ++ k, s2 = k ++ t ++ b *)
    subst. apply (H2 k t b); [done|]. split_and!; try done.
    destruct (decide (k = [])) as [->|Hk]; [done|]. by rewrite last_is_app in Ha.
Qed.

Lemma no_secret_run_none s : Forall (λ x, is_token_character x = false) s → no_secret_run s.
Proof.
  intros Hs a t b -> (Hne & Ht & _). exfalso. apply Forall_app in Hs as [_ Hs]. apply Forall_app in Hs as [Hs _].
  destruct t as [|x t]; [done|]. apply Forall_cons in Hs as [Hx _]. apply Forall_cons in Ht as [Hx' _]. congruence.
Qed.

Lemma no_secret_run_token s :
  Forall (λ x, is_token_character x = true) s → looks_like_secret_token s = false → no_secret_run s.
Proof.
  intros Hs Hl a t b -> (Hne & Ht & Ha & Hb).
  apply Forall_app in Hs as [Hsa Hs]. apply Forall_app in Hs as [_ Hsb].
  assert (a = []) as ->.
  { destruct (decide (a = [])) as [|Hn]; [done|]. exfalso. destruct (last a) eqn:E; [|by apply last_None in E].
    unfold last_is in Ha. rewrite E in Ha. apply last_Some in E as [l ->].
    apply Forall_app in Hsa as [_ Hx]. apply Forall_cons in Hx as [Hx _]. congruence. }
  destruct b as [|x b]; [|apply Forall_cons in Hsb as [Hx _]; cbn in Hb; congruence].
  by rewrite app_nil_r in Hl.
Qed.

Lemma redacted_token_clean : no_secret_run REDACTED_TOKEN.
Proof.
  change REDACTED_TOKEN with ([91] ++ ascii_bytes "redacted-token" ++ [93]).
  apply no_secret_run_app; [by apply no_secret_run_none; repeat constructor | | by left].
  apply no_secret_run_app; [|by apply no_secret_run_none; repeat constructor | by right].
  apply no_secret_run_token; [|by vm_compute]. repeat constructor.
Qed.

Lemma find_char_some P s i :
  find_char (head_is P) s = Some i →
  Forall (λ x, P x = false) (take i s) ∧ head_is P (drop i s) = true ∧ (i < length s)%nat.
Proof.
  unfold find_char. revert i. induction s as [|x s IH]; intros i Hf; [done|]. cbn [find_at head_is] in Hf.
  destruct (P x) eqn:E; [simplify_eq; cbn; rewrite E; split_and!; [constructor | done | lia]|].
  apply fmap_Some in Hf as (j & Hj & ->). destruct (IH j Hj) as (? & ? & ?). cbn. split_and!; [by constructor | done | lia].
Qed.

Lemma find_char_none P s : find_char (head_is P) s = None → Forall (λ x, P x = false) s.
Proof.
  unfold find_char. induction s as [|x s IH]; intros Hf; [constructor|]. cbn [find_at head_is] in Hf.
  destruct (P x) eqn:E; [done|]. constructor; [done|]. apply IH. by apply fmap_None in Hf.
Qed.

Lemma find_char_ext P Q s : (∀ t, t ≠ [] → P t = Q t) → find_char P s = find_char Q s.
Proof.
  intros HP. unfold find_char. induction s as [|x s IH]; [done|]. cbn [find_at].
  rewrite (HP (x :: s)) by done. by rewrite IH.
Qed.

(** The end of a run of token characters: the run, and what follows it. *)
Lemma token_end s :
  let len := default (length s) (find_char (λ t, negb (head_is is_token_character t)) s) in
  Forall (λ x, is_token_character x = true) (take len s) ∧ head_is is_token_character (drop len s) = false
  ∧ (head_is is_token_character s = true → (0 < len)%nat).
Proof.
  cbv zeta.
  rewrite (find_char_ext _ (head_is (λ x, negb (is_token_character x)))) by (intros []; done).
  destruct (find_char _ s) as [i|] eqn:E; cbn [default from_option id].
  - apply find_char_some in E as (Hall & Hh & Hlt). split_and!.
    + eapply Forall_impl; [exact Hall|]. intros x Hx. by apply negb_false_iff.
    + destruct (drop i s); [done|]. cbn in *. by apply negb_true_iff.
    + intros Hs. destruct i; [|lia]. destruct s; [done|]. cbn in *. by rewrite Hs in Hh.
  - apply find_char_none in E. rewrite take_ge, drop_ge by done. split_and!; [|done|].
    + eapply Forall_impl; [exact E|]. intros x Hx. by apply negb_false_iff.
    + destruct s; [done|]. cbn. lia.
Qed.

Lemma redact_tokens_head fuel s :
  head_is is_token_character s = false → head_is is_token_character (redact_tokens_fuel fuel s) = false.
Proof.
  intros Hs. destruct fuel as [|fuel], s as [|x s]; try done. cbn [redact_tokens_fuel].
  destruct (find_char _ (x :: s)) as [i|] eqn:E; [|done].
  destruct i as [|i]; [apply find_char_some in E as (_ & Hh & _); cbn in *; congruence | done].
Qed.

(** C23 What [redact_embedded_tokens] returns contains no maximal run of token characters that
    looks like a secret: every such run of the line was replaced, and neither the
    replacement nor the joints between the pieces form a new one. *)
Theorem no_secret_token_survives line : no_secret_run (redact_embedded_tokens line).
Proof.
  unfold redact_embedded_tokens.
  assert (length line < S (length line))%nat as Hfuel by lia. revert Hfuel.
  generalize (S (length line)) as fuel. intros fuel. revert line.
  induction fuel as [|fuel IH]; intros s Hl; [lia|]. cbn [redact_tokens_fuel].
  destruct s as [|x s']; [by apply no_secret_run_none|]. set (s := x :: s') in *.
  destruct (find_char (head_is is_token_character) s) as [start|] eqn:E;
    [|by apply no_secret_run_none, find_char_none].
  apply find_char_some in E as (Hskip & Hhead & Hlt).
  destruct (token_end (drop start s)) as (Hrun & Hrest & Hpos). specialize (Hpos Hhead).
  set (len := default _ _) in *.
  apply no_secret_run_app; [by apply no_secret_run_none | | left; by apply last_is_none].
  apply no_secret_run_app; [| apply IH; rewrite !length_drop; lia | right; by apply redact_tokens_head].
  destruct (looks_like_secret_token _) eqn:Hs; [apply redacted_token_clean | by apply no_secret_run_token].
Qed.
