(* ===== verification/RecordLexing.v ===== *)
(** * Lexing of the streaming parser

    Feeding white space, the characters of a string, a whole string and an atom. *)

From S2P Require Import Prelude Bytes StrOps StoreTypes Redact TurnPack RecordParser RecordCapture.

Section lexing.
Context `{Serde}.
Implicit Types (p : StreamingRecordParser) (r : StreamedRecord) (st : list JsonFrame).

Lemma rbind_assoc {E A B C} (m : result E A) (f : A → result E B) (g : B → result E C) :
  rbind (rbind m f) g = rbind m (λ a, rbind (f a) g).
Proof. by destruct m. Qed.

Lemma feed_app b b' p : feed (b ++ b') p = let? p := feed b p in feed b' p.
Proof.
  revert p. induction b as [|x b IH]; intros p; [done|].
  cbn [app feed]. destruct (feed_byte x p); cbn; [apply IH | done].
Qed.

Lemma feed_one b p : feed [b] p = feed_byte b p.
Proof. cbn. by destruct (feed_byte b p). Qed.

Lemma feed_white w p : white_text w → pr_lex p = None → feed w p = Ok p.
Proof.
  intros Hw Hl. induction Hw as [|b w Hb _ IH]; [done|].
  cbn [feed]. unfold feed_byte. rewrite Hl.
  assert (feed_structure b p = Ok p) as ->; [|exact IH].
  unfold feed_structure, start_value. rewrite Hb.
  repeat case_match; done.
Qed.

(** ** Strings *)

Lemma utf8_char_nonempty c : utf8_char c = true → c ≠ [].
Proof. by destruct c. Qed.

(** [feed_string] on the bytes of a raw character. *)
Section raw.
Context (k : bool) (t : FieldTarget) (c : BoundedCapture).

Lemma feed_raw_one b :
  32 ≤ b ≤ 127 → b ≠ 34 → b ≠ 92 →
  feed_string b (mk_string k t c NoEscape []) =
  let? c := push [b] c in Ok (false, mk_string k t c NoEscape []).
Proof.
  intros Hb H1%Z.eqb_neq H2%Z.eqb_neq. unfold feed_string. cbn [js_escape]. rewrite H1, H2.
  replace (between 0 31 b) with false by (unfold between; lia). cbn.
  replace (between 0 127 b) with true by (unfold between; lia).
  unfold push_string. cbn. by destruct (push [b] c).
Qed.

Lemma feed_raw_lead b :
  194 ≤ b ≤ 244 → feed_string b (mk_string k t c NoEscape []) = Ok (false, mk_string k t c NoEscape [b]).
Proof.
  intros Hb. unfold feed_string. cbn [js_escape].
  replace (b =? 34) with false by lia. replace (b =? 92) with false by lia.
  replace (between 0 31 b) with false by (unfold between; lia). cbn.
  replace (between 0 127 b) with false by (unfold between; lia).
  replace (between 194 244 b) with true by (unfold between; lia). done.
Qed.

Lemma feed_raw_cont b b0 raw n :
  cont b = true → expected_length b0 = Ok n →
  feed_string b (mk_string k t c NoEscape (b0 :: raw)) =
  if (length (b0 :: raw ++ [b]) =? n)%nat then
    let? _ := require (utf8_ok (b0 :: raw ++ [b])) (Fail InvalidRollout) in
    let? c := push (b0 :: raw ++ [b]) c in Ok (false, mk_string k t c NoEscape [])
  else if (n <? length (b0 :: raw ++ [b]))%nat then Err (Fail InvalidRollout)
  else Ok (false, mk_string k t c NoEscape (b0 :: raw ++ [b])).
Proof.
  intros Hb Hn. unfold feed_string. cbn [js_escape].
  assert (128 ≤ b ≤ 191) by (revert Hb; unfold cont; lia).
  replace (b =? 34) with false by lia. replace (b =? 92) with false by lia.
  replace (between 0 31 b) with false by (unfold between; lia).
  unfold feed_raw_utf8. cbn [andb set_escape js_raw_utf8 js_key js_target js_capture].
  rewrite Hb, Hn. cbn [negb rbind app]. destruct (_ =? n)%nat.
  - destruct (require _ _); cbn; [|done]. unfold push_string. cbn [js_capture set_escape].
    destruct (push (b0 :: raw ++ [b]) c); done.
  - by destruct (Nat.ltb n _).
Qed.
End raw.

Lemma expected_two b : 194 ≤ b ≤ 223 → expected_length b = Ok 2%nat.
Proof. intros ?. unfold expected_length, between. by replace (_ && _) with true by lia. Qed.
Lemma expected_three b : 224 ≤ b ≤ 239 → expected_length b = Ok 3%nat.
Proof.
  intros ?. unfold expected_length, between. replace ((194 <=? b) && _) with false by lia.
  by replace (_ && _) with true by lia.
Qed.
Lemma expected_four b : 240 ≤ b ≤ 244 → expected_length b = Ok 4%nat.
Proof.
  intros ?. unfold expected_length, between. replace ((194 <=? b) && _) with false by lia.
  replace ((224 <=? b) && _) with false by lia. by replace (_ && _) with true by lia.
Qed.

(** A parser inside a string, between two characters. *)
Definition in_string st r cp (s : JsonString) (c : BoundedCapture) : StreamingRecordParser :=
  mk_parser st (Some (LexString (mk_string (js_key s) (js_target s) c NoEscape []))) r cp.

Lemma feed_byte_string b st r cp s :
  feed_byte b (mk_parser st (Some (LexString s)) r cp) =
  let? q := feed_string b s in
  if q.1 then finish_string q.2 (mk_parser st None r cp)
  else Ok (mk_parser st (Some (LexString q.2)) r cp).
Proof. done. Qed.

Lemma feed_string_more b bs st r cp s s' :
  feed_string b s = Ok (false, s') →
  feed (b :: bs) (mk_parser st (Some (LexString s)) r cp) =
  feed bs (mk_parser st (Some (LexString s')) r cp).
Proof. intros E. cbn [feed]. by rewrite feed_byte_string, E. Qed.

(** A raw character: one push of its bytes. *)
Lemma feed_raw_char ch st r cp s c :
  utf8_char ch = true → head_is (λ x, (32 <=? x) && negb (x =? 34) && negb (x =? 92)) ch = true →
  feed ch (in_string st r cp s c) = let? c := push ch c in Ok (in_string st r cp s c).
Proof.
  intros Hc Hh. assert (utf8_ok ch = true) as Hok
    by (rewrite <- (app_nil_r ch); by rewrite utf8_ok_char).
  destruct (utf8_char_cases ch Hc) as
    [(b & -> & Hb)|[(b & c1 & -> & Hb & H1)|[(b & c1 & c2 & -> & Hb & H1 & H2)
    |(b & c1 & c2 & c3 & -> & Hb & H1 & H2 & H3)]]];
  cbn [head_is] in Hh; bool_prop; unfold in_string.
  - rewrite feed_one, feed_byte_string, feed_raw_one by lia. by destruct (push [b] c).
  - erewrite feed_string_more by (apply feed_raw_lead; lia).
    rewrite feed_one, feed_byte_string, (feed_raw_cont _ _ _ _ _ _ 2) by (done || by apply expected_two).
    cbn [length app Nat.eqb]. rewrite Hok. cbn [require rbind]. by destruct (push [b; c1] c).
  - erewrite feed_string_more by (apply feed_raw_lead; lia).
    erewrite feed_string_more
      by (rewrite (feed_raw_cont _ _ _ _ _ _ 3) by (done || by apply expected_three); reflexivity).
    rewrite feed_one, feed_byte_string, (feed_raw_cont _ _ _ _ _ _ 3) by (done || by apply expected_three).
    cbn [length app Nat.eqb]. rewrite Hok. cbn [require rbind]. by destruct (push [b; c1; c2] c).
  - erewrite feed_string_more by (apply feed_raw_lead; lia).
    erewrite feed_string_more
      by (rewrite (feed_raw_cont _ _ _ _ _ _ 4) by (done || by apply expected_four); reflexivity).
    erewrite feed_string_more
      by (rewrite (feed_raw_cont _ _ _ _ _ _ 4) by (done || by apply expected_four); reflexivity).
    rewrite feed_one, feed_byte_string, (feed_raw_cont _ _ _ _ _ _ 4) by (done || by apply expected_four).
    cbn [length app Nat.eqb]. rewrite Hok. cbn [require rbind]. by destruct (push [b; c1; c2; c3] c).
Qed.

(** ** Escapes *)

Definition in_escape st r cp (s : JsonString) (c : BoundedCapture) (e : StringEscape)
    : StreamingRecordParser :=
  mk_parser st (Some (LexString (mk_string (js_key s) (js_target s) c e []))) r cp.

Lemma hex_value_range b d : hex_value b = Ok d → 0 ≤ d ≤ 15.
Proof. unfold hex_value, is_digit, between. repeat case_match; intros; simplify_eq; bool_prop; lia. Qed.

(** The fourth digit: what a complete [\u] escape does. *)
Definition unicode_done (value : Z) (high : option Z) (s : JsonString) : result Fault JsonString :=
  match high with
  | Some high =>
      if negb (between 56320 57343 value) then Err (Fail InvalidRollout)
      else push_scalar (65536 + Z.lor (Z.shiftl (high - 55296) 10) (value - 56320)) s
  | None =>
      if between 55296 56319 value then Ok (set_escape (LowBackslash value) s)
      else if between 56320 57343 value then Err (Fail InvalidRollout)
      else push_scalar value s
  end.

Lemma feed_unicode_digit value digits high b d s :
  hex_value b = Ok d → 0 ≤ value → value * 16 + d ≤ 65535 →
  feed_unicode value digits high b s =
  if (S digits <? 4)%nat then Ok (set_escape (UnicodeEscape (value * 16 + d) (S digits) high) s)
  else unicode_done (value * 16 + d) high s.
Proof.
  intros Hd Hv Hle. pose proof (hex_value_range _ _ Hd). unfold feed_unicode. rewrite Hd.
  cbn [rbind]. replace (value * 16 <=? u16_max) with true by (unfold u16_max; lia). cbn [of_option rbind].
  unfold checked_add. replace (value * 16 + d <=? u16_max) with true by (unfold u16_max; lia). done.
Qed.

Lemma hex4_some a b c d u :
  hex4 a b c d = Some u →
  ∃ va vb vc vd, hex_value a = Ok va ∧ hex_value b = Ok vb ∧ hex_value c = Ok vc ∧ hex_value d = Ok vd
    ∧ u = ((va * 16 + vb) * 16 + vc) * 16 + vd.
Proof. unfold hex4. repeat case_match; intros; simplify_eq. by eauto 10. Qed.

Lemma feed_hex4 d1 d2 d3 d4 u high st r cp s c :
  hex4 d1 d2 d3 d4 = Some u →
  feed [d1; d2; d3; d4] (in_escape st r cp s c (UnicodeEscape 0 0 high)) =
  let? s := unicode_done u high (mk_string (js_key s) (js_target s) c NoEscape []) in
  Ok (mk_parser st (Some (LexString s)) r cp).
Proof.
  intros (va & vb & vc & vd & Ha & Hb & Hc & Hd & ->)%hex4_some.
  pose proof (hex_value_range _ _ Ha). pose proof (hex_value_range _ _ Hb).
  pose proof (hex_value_range _ _ Hc). pose proof (hex_value_range _ _ Hd).
  unfold in_escape.
  erewrite feed_string_more
    by (unfold feed_string; cbn [js_escape set_escape]; rewrite (feed_unicode_digit _ _ _ _ _ _ Ha) by lia; reflexivity).
  erewrite feed_string_more
    by (unfold feed_string; cbn [js_escape set_escape]; rewrite (feed_unicode_digit _ _ _ _ _ _ Hb) by lia; reflexivity).
  erewrite feed_string_more
    by (unfold feed_string; cbn [js_escape set_escape]; rewrite (feed_unicode_digit _ _ _ _ _ _ Hc) by lia; reflexivity).
  rewrite feed_one, feed_byte_string. unfold feed_string. cbn [js_escape set_escape].
  rewrite (feed_unicode_digit _ _ _ _ _ _ Hd) by lia. cbn [Nat.ltb Nat.leb js_key js_target js_capture js_raw_utf8].
  by destruct (unicode_done _ _ _).
Qed.

Lemma push_scalar_some u ch k t c :
  encode_scalar u = Some ch →
  push_scalar u (mk_string k t c NoEscape []) = let? c := push ch c in Ok (mk_string k t c NoEscape []).
Proof. intros E. unfold push_scalar. by rewrite E. Qed.

Lemma scalar_of_pair u v :
  between 55296 56319 u = true → between 56320 57343 v = true →
  65536 + Z.lor (Z.shiftl (u - 55296) 10) (v - 56320) = 65536 + (u - 55296) * 1024 + (v - 56320).
Proof.
  unfold between. intros. bool_prop.
  assert (Z.land (Z.shiftl (u - 55296) 10) (v - 56320) = 0) as Hl.
  { apply Z.bits_inj'. intros n Hn. rewrite Z.land_spec, Z.bits_0, Z.shiftl_spec by lia.
    destruct (decide (n < 10)).
    - by rewrite (Z.testbit_neg_r _ (n - 10)) by lia.
    - rewrite (Z.bits_above_log2 (v - 56320)), andb_false_r; [done | lia |].
      destruct (decide (v - 56320 = 0)) as [->|]; [cbn; lia|].
      apply Z.log2_lt_pow2; [lia|]. apply Z.lt_le_trans with (2 ^ 10); [lia|].
      apply Z.pow_le_mono_r; lia. }
  pose proof (Z.add_lor_land (Z.shiftl (u - 55296) 10) (v - 56320)) as E.
  rewrite Hl, Z.shiftl_mul_pow2 in E by lia. rewrite Z.shiftl_mul_pow2 by lia. lia.
Qed.

Lemma feed_simple_escape e v k t c :
  simple_escape e = Some v →
  feed_string e (mk_string k t c Escaped []) =
  let? c := push [v] c in Ok (false, mk_string k t c NoEscape []).
Proof.
  unfold simple_escape, feed_string. cbn [js_escape set_escape]. intros E.
  repeat case_match; simplify_eq; unfold push_string;
    cbn [js_capture js_key js_target js_raw_utf8 js_escape set_escape];
    match goal with |- context [push ?x c] => by destruct (push x c) end.
Qed.

Lemma feed_backslash bs st r cp s c :
  feed (92 :: bs) (in_string st r cp s c) = feed bs (in_escape st r cp s c Escaped).
Proof. done. Qed.

Lemma feed_u bs st r cp s c :
  feed (117 :: bs) (in_escape st r cp s c Escaped) =
  feed bs (in_escape st r cp s c (UnicodeEscape 0 0 None)).
Proof. done. Qed.

Lemma feed_low_u bs st r cp s c high :
  feed (92 :: 117 :: bs) (in_escape st r cp s c (LowBackslash high)) =
  feed bs (in_escape st r cp s c (UnicodeEscape 0 0 (Some high))).
Proof. done. Qed.

Lemma feed_hex4_app d1 d2 d3 d4 bs p :
  feed (d1 :: d2 :: d3 :: d4 :: bs) p = let? p := feed [d1; d2; d3; d4] p in feed bs p.
Proof. exact (feed_app [d1; d2; d3; d4] bs p). Qed.

(** The characters of a string are pushed one by one. *)
Lemma feed_chars cs b st r cp s c :
  chars_text cs b →
  feed b (in_string st r cp s c) = let? c := push_all cs c in Ok (in_string st r cp s c).
Proof.
  intros Ht. revert c.
  induction Ht as [|ch cs b Hc Hh Ht IH|e v cs b He Ht IH|d1 d2 d3 d4 u ch cs b Hu Hs Hch Ht IH
    |d1 d2 d3 d4 e1 e2 e3 e4 u v ch cs b Hu Hhi Hv Hlo Hch Ht IH]; intros c.
  - done.
  - rewrite feed_app, feed_raw_char by done. cbn [push_all]. destruct (push ch c); [apply IH | done].
  - rewrite feed_backslash. cbn [push_all]. change (e :: b) with ([e] ++ b).
    rewrite feed_app, feed_one. unfold in_escape at 1. rewrite feed_byte_string, (feed_simple_escape _ _ _ _ _ He).
    destruct (push [v] c); [apply IH | done].
  - rewrite feed_backslash, feed_u, feed_hex4_app, (feed_hex4 _ _ _ _ _ _ _ _ _ _ _ Hu).
    unfold unicode_done. replace (between 55296 56319 u) with false by (revert Hs; unfold between; lia).
    replace (between 56320 57343 u) with false by (revert Hs; unfold between; lia).
    rewrite (push_scalar_some _ _ _ _ _ Hch). cbn [push_all]. destruct (push ch c); [apply IH | done].
  - rewrite feed_backslash, feed_u, feed_hex4_app, (feed_hex4 _ _ _ _ _ _ _ _ _ _ _ Hu).
    unfold unicode_done. rewrite Hhi. cbn [rbind].
    match goal with |- feed ?bs _ = ?R =>
      change (feed bs (in_escape st r cp s c (LowBackslash u)) = R) end.
    rewrite feed_low_u, feed_hex4_app, (feed_hex4 _ _ _ _ _ _ _ _ _ _ _ Hv).
    unfold unicode_done. rewrite Hlo. cbn [negb]. rewrite scalar_of_pair by done.
    rewrite (push_scalar_some _ _ _ _ _ Hch). cbn [push_all]. destruct (push ch c); [apply IH | done].
Qed.

Lemma simple_escape_ascii e v : simple_escape e = Some v → utf8_char [v] = true.
Proof.
  unfold simple_escape, one_of. cbn [existsb]. intros E.
  repeat case_match; simplify_eq; bool_prop; cbn; unfold between; lia.
Qed.

Lemma chars_text_utf8 cs b : chars_text cs b → Forall (λ c, utf8_char c = true) cs.
Proof.
  induction 1; constructor; eauto using simple_escape_ascii, encode_scalar_utf8.
Qed.

(** A whole string after its opening quote. *)
Lemma feed_string_text txt b st r k t :
  string_text txt b →
  ∃ b', b = 34 :: b' ∧
  feed b' (mk_parser st (Some (LexString (new_string k t))) r false) =
  let? c := push_all (utf8_split txt) (js_capture (new_string k t)) in
  finish_string (mk_string k t c NoEscape []) (mk_parser st None r false).
Proof.
  intros (cs & b' & -> & Hc & ->). exists (b' ++ [34]). split; [done|].
  rewrite utf8_split_join by eauto using chars_text_utf8.
  rewrite feed_app. pose proof (feed_chars cs b' st r false (new_string k t) (js_capture (new_string k t)) Hc) as E.
  unfold in_string in E. change (js_key (new_string k t)) with k in E.
  change (js_target (new_string k t)) with t in E.
  change (new_string k t) with (mk_string k t (js_capture (new_string k t)) NoEscape []) at 1.
  rewrite E. destruct (push_all cs _) as [c|]; [|done]. cbn [rbind]. rewrite feed_one, feed_byte_string. done.
Qed.

(** ** Atoms *)

Lemma feed_atom_chars a acc st r :
  Forall (λ x, delimiter x = false) a → (length acc + length a ≤ 64)%nat →
  feed a (mk_parser st (Some (LexAtom acc)) r false) = Ok (mk_parser st (Some (LexAtom (acc ++ a))) r false).
Proof.
  revert acc. induction a as [|x a IH]; intros acc Hd Hl; [by rewrite app_nil_r|].
  apply Forall_cons in Hd as [Hx Hd]. cbn [length] in Hl. cbn [feed]. unfold feed_byte. cbn [pr_lex].
  unfold delimiter in Hx. rewrite Hx.
  destruct (Nat.leb_spec 64 (length acc)); [lia|].
  cbn [rbind]. unfold with_lex. cbn [pr_stack pr_record pr_complete].
  rewrite IH, <- app_assoc; [done | done |]. rewrite length_app. cbn [length]. lia.
Qed.

(** At a delimiter, an atom is checked and the delimiter is read after it. *)
Lemma feed_atom_end x a v st r :
  delimiter x = true → json_from_slice a = Some v →
  feed_byte x (mk_parser st (Some (LexAtom a)) r false) =
  let? p := finish_scalar (mk_parser st None r false) in feed_structure x p.
Proof.
  intros Hx Ha. unfold feed_byte. cbn [pr_lex]. unfold delimiter in Hx. rewrite Hx, Ha.
  rewrite bool_decide_true by eauto. done.
Qed.
End lexing.
