(* ===== verification/RecordAutomaton.v ===== *)
(** * The streaming parser computes the visit of a record

    By induction on the derivation of a JSON text: fed the text of a value, the automaton
    ends where the reference [visit] of the value ends, in the record and in the error. *)

From S2P Require Import Prelude Bytes StrOps StoreTypes Redact TurnPack RecordParser RecordCapture.
From S2P Require Import RecordLexing.

Section automaton.
Context `{Serde}.
Implicit Types (r : StreamedRecord) (stk : list JsonFrame).

(** A frame that awaits a value, the slot of that value and the frame after it. *)
Inductive awaiting : JsonFrame → JsonContext * option text → JsonFrame → Prop :=
| aw_member c k : awaiting (FObject c AtValue (Some k)) (c, Some k) (FObject c CommaOrEnd None)
| aw_first c : awaiting (FArray c FirstValueOrEnd) (c, None) (FArray c ArrayCommaOrEnd)
| aw_next c : awaiting (FArray c ArrayValue) (c, None) (FArray c ArrayCommaOrEnd).

Lemma prepare_at f slot f' stk l r cp :
  awaiting f slot f' →
  prepare_field_value (mk_parser (f :: stk) l r cp) = mk_parser (f :: stk) l (prepared slot r) cp.
Proof.
  intros [c k|c|c]; unfold prepared, prepare_field_value, at_slot; cbn [pr_stack fst snd];
    destruct c; cbn [pr_record]; repeat case_match; done.
Qed.

Lemma target_at f slot f' stk l r cp :
  awaiting f slot f' → field_target (mk_parser (f :: stk) l r cp) = slot_target slot.
Proof. intros [c k|c|c]; [done| |]; destruct c; done. Qed.

Lemma child_at f slot f' stk l r cp b :
  awaiting f slot f' →
  child_context b (mk_parser (f :: stk) l r cp) =
  Ok ((opened b slot r).1, mk_parser (f :: stk) l (opened b slot r).2 cp).
Proof.
  intros [c k|c|c]; unfold opened, child_context, top_of, at_slot; cbn [pr_stack fst snd];
    destruct c; cbn [pr_record]; repeat case_match; simplify_eq; done.
Qed.

Lemma finish_at f slot f' stk l r cp :
  awaiting f slot f' → finish_scalar (mk_parser (f :: stk) l r cp) = Ok (mk_parser (f' :: stk) l r cp).
Proof. by intros [c k|c|c]. Qed.

(** The first byte of a value. *)
Definition starts_value (b : Z) : bool :=
  (b =? 34) || one_of [123; 91] b || (one_of [45; 116; 102; 110] b || is_digit b).

Lemma starts_value_plain b :
  starts_value b = true → is_json_whitespace b = false ∧ (b =? 93) = false.
Proof.
  unfold starts_value, is_json_whitespace, one_of, is_digit, between. cbn [existsb]. lia.
Qed.

Lemma structure_value f slot f' stk r b :
  awaiting f slot f' → starts_value b = true →
  feed_structure b (mk_parser (f :: stk) None r false) = start_value b (mk_parser (f :: stk) None r false).
Proof.
  intros Hf [Hw Hc]%starts_value_plain. unfold feed_structure. cbn [pr_complete pr_stack].
  rewrite Hw, Hc. by destruct Hf.
Qed.

(** The value [v] with the text [b] is read at [slot]; an atom is finished by the delimiter
    that follows it. *)
Definition value_read f stk slot f' v b : Prop :=
  ∀ r, match visit (length (f :: stk)) slot v r with
       | Ok r' => ∃ p, feed b (mk_parser (f :: stk) None r false) = Ok p
           ∧ ∀ x, delimiter x = true → feed_byte x p = feed_byte x (mk_parser (f' :: stk) None r' false)
       | Err e => feed b (mk_parser (f :: stk) None r false) = Err e
       end.

Definition popped stk r : StreamingRecordParser :=
  mk_parser stk None r (match stk with [] => true | _ => false end).

Definition array_state (first : bool) : ArrayState := if first then FirstValueOrEnd else ArrayValue.
Definition object_state (first : bool) : ObjectState := if first then FirstKeyOrEnd else AtKey.

Definition items_read first items b : Prop :=
  ∀ c stk r, feed b (mk_parser (FArray c (array_state first) :: stk) None r false) =
    let? r' := visit_items (S (length stk)) c items r in Ok (popped stk r').
Definition fields_read first fields b : Prop :=
  ∀ c k stk r, feed b (mk_parser (FObject c (object_state first) k :: stk) None r false) =
    let? r' := visit_fields (S (length stk)) c fields r in Ok (popped stk r').

Lemma feed_at_delimiter bs p p' :
  head_is delimiter bs = true →
  (∀ x, delimiter x = true → feed_byte x p = feed_byte x p') → feed bs p = feed bs p'.
Proof. destruct bs as [|x bs]; [done|]. intros Hx Hp. cbn [feed]. by rewrite Hp. Qed.

Lemma white_delimiter w x bs :
  white_text w → delimiter x = true → head_is delimiter (w ++ x :: bs) = true.
Proof.
  intros Hw Hx. destruct w as [|y w]; [done|]. apply Forall_cons in Hw as [Hy _].
  cbn. unfold delimiter. by rewrite Hy.
Qed.

(** White space and one structural byte after a value. *)
Lemma feed_after_value w x bs p p' :
  white_text w → delimiter x = true → pr_lex p' = None →
  (∀ x, delimiter x = true → feed_byte x p = feed_byte x p') →
  feed (w ++ x :: bs) p = let? p := feed_structure x p' in feed bs p.
Proof.
  intros Hw Hx Hl Hp. rewrite (feed_at_delimiter _ p p') by auto using white_delimiter.
  rewrite feed_app, feed_white by done. cbn [rbind feed]. unfold feed_byte. by rewrite Hl.
Qed.

Lemma read_atom v a f slot f' stk :
  awaiting f slot f' → is_atom v = true → json_from_slice a = Some v → (length a ≤ 64)%nat →
  head_is (λ x, one_of [45; 116; 102; 110] x || is_digit x) a = true →
  Forall (λ x, delimiter x = false) a → value_read f stk slot f' v a.
Proof.
  intros Hf Hv Ha Hl Hh Hd r.
  assert (visit (length (f :: stk)) slot v r = Ok (prepared slot r)) as -> by by destruct v.
  destruct a as [|x a]; [done|]. cbn [head_is] in Hh. apply Forall_cons in Hd as [_ Hd].
  exists (mk_parser (f :: stk) (Some (LexAtom (x :: a))) (prepared slot r) false). split.
  - assert (starts_value x = true) as Hs by (unfold starts_value; rewrite Hh; by rewrite orb_true_r).
    cbn [feed]. unfold feed_byte. cbn [pr_lex]. rewrite (structure_value f slot f') by done.
    unfold start_value. destruct (starts_value_plain x Hs) as [-> _].
    rewrite (prepare_at f slot f') by done.
    assert ((x =? 34) = false ∧ one_of [123; 91] x = false) as [-> ->]
      by (revert Hh; unfold one_of, is_digit, between; cbn [existsb]; lia).
    rewrite Hh. cbn [rbind]. unfold with_lex. cbn [pr_stack pr_record pr_complete].
    by rewrite feed_atom_chars.
  - intros y Hy. rewrite (feed_atom_end _ _ v), (finish_at f slot f') by done. done.
Qed.

Lemma read_string s b f slot f' stk :
  awaiting f slot f' → string_text s b → value_read f stk slot f' (JString s) b.
Proof.
  intros Hf Hs r. cbn [visit]. unfold visit_string, captured.
  destruct (feed_string_text s b (f :: stk) (prepared slot r) false (slot_target slot) Hs) as (b' & -> & E).
  set (fresh := new_string false (slot_target slot)) in *.
  assert (feed (34 :: b') (mk_parser (f :: stk) None r false) =
          feed b' (mk_parser (f :: stk) (Some (LexString fresh)) (prepared slot r) false)) as ->.
  { cbn [feed]. unfold feed_byte. cbn [pr_lex]. rewrite (structure_value f slot f') by done.
    unfold start_value. cbn [is_json_whitespace one_of existsb Z.eqb orb].
    rewrite (prepare_at f slot f'), (target_at f slot f') by done. done. }
  rewrite E. destruct (push_all _ _) as [c|e]; [|done]. cbn [rbind]. unfold finish_string.
  cbn [js_capture js_key js_target]. destruct (finish_capture c) as [t|e]; [|done]. cbn [rbind].
  unfold record_field, with_record. cbn [pr_stack pr_lex pr_record pr_complete].
  rewrite (finish_at f slot f') by done. eauto.
Qed.

(** The opening byte of a container. *)
Lemma feed_open x f slot f' stk r :
  awaiting f slot f' → x = 91 ∨ x = 123 →
  feed_byte x (mk_parser (f :: stk) None r false) =
  let c := opened x slot (prepared slot r) in
  let? _ := require (length (f :: stk) <? MAX_STREAM_JSON_DEPTH)%nat (Fail InvalidRollout) in
  Ok (mk_parser ((if x =? 123 then FObject c.1 FirstKeyOrEnd None else FArray c.1 FirstValueOrEnd)
                 :: f' :: stk) None c.2 false).
Proof.
  intros Hf Hx. unfold feed_byte. cbn [pr_lex].
  rewrite (structure_value f slot f') by (done || by destruct Hx as [-> | ->]).
  unfold start_value. rewrite (prepare_at f slot f') by done.
  rewrite (child_at f slot f') by done. cbn [rbind fst snd].
  rewrite (finish_at f slot f') by done. cbn [rbind pr_stack length].
  destruct Hx as [-> | ->]; cbn [is_json_whitespace one_of existsb Z.eqb Pos.eqb orb];
    destruct (require _ _); done.
Qed.

Lemma read_array items b f slot f' stk :
  awaiting f slot f' → items_read true items b → value_read f stk slot f' (JArray items) (91 :: b).
Proof.
  intros Hf Hi r. rewrite visit_array. cbn [feed]. rewrite (feed_open 91 f slot f') by auto.
  cbv zeta. destruct (require _ _); [cbn [rbind]|done].
  change (91 =? 123) with false. cbn iota.
  rewrite (Hi _ (f' :: stk)). cbn [length].
  destruct (visit_items _ _ items _) as [r'|e]; cbn [rbind]; eauto.
Qed.

Lemma read_object fields b f slot f' stk :
  awaiting f slot f' → fields_read true fields b → value_read f stk slot f' (JObject fields) (123 :: b).
Proof.
  intros Hf Hi r. rewrite visit_object. cbn [feed]. rewrite (feed_open 123 f slot f') by auto.
  cbv zeta. destruct (require _ _); [cbn [rbind]|done].
  change (123 =? 123) with true. cbn iota.
  rewrite (Hi _ None (f' :: stk)). cbn [length].
  destruct (visit_fields _ _ fields _) as [r'|e]; cbn [rbind]; eauto.
Qed.

(** One element of an array and what follows it. *)
Lemma read_element first v w b w' x bs c stk r :
  (∀ f slot f' stk, awaiting f slot f' → value_read f stk slot f' v b) →
  white_text w → white_text w' → delimiter x = true →
  feed (w ++ b ++ w' ++ x :: bs) (mk_parser (FArray c (array_state first) :: stk) None r false) =
  let? r' := visit (S (length stk)) (c, None) v r in
  let? p := feed_structure x (mk_parser (FArray c ArrayCommaOrEnd :: stk) None r' false) in feed bs p.
Proof.
  intros Hv Hw Hw' Hx. rewrite feed_app, feed_white by done. cbn [rbind]. rewrite feed_app.
  assert (awaiting (FArray c (array_state first)) (c, None) (FArray c ArrayCommaOrEnd)) as Ha
    by (destruct first; constructor).
  specialize (Hv _ _ _ stk Ha r). cbn [length] in Hv. destruct (visit _ _ v r) as [r'|e].
  - destruct Hv as (p & -> & Hp). cbn [rbind]. by rewrite (feed_after_value w' x bs p (mk_parser (FArray c ArrayCommaOrEnd :: stk) None r' false)).
  - by rewrite Hv.
Qed.

Lemma finish_key first t cap c kt stk r :
  finish_string (mk_string true t cap NoEscape [])
    (mk_parser (FObject c (object_state first) kt :: stk) None r false) =
  let? k := finish_capture cap in Ok (mk_parser (FObject c Colon (Some k) :: stk) None r false).
Proof.
  unfold finish_string. cbn [js_capture js_key]. destruct (finish_capture cap); [|done].
  by destruct first.
Qed.

(** One member of an object and what follows it. *)
Lemma read_member first k kt v w bk w1 w2 b w3 x bs c stk r :
  (∀ f slot f' stk, awaiting f slot f' → value_read f stk slot f' v b) →
  white_text w → string_text k bk → white_text w1 → white_text w2 → white_text w3 → delimiter x = true →
  feed (w ++ bk ++ w1 ++ 58 :: w2 ++ b ++ w3 ++ x :: bs)
    (mk_parser (FObject c (object_state first) kt :: stk) None r false) =
  let? k := visit_key k in
  let? r' := visit (S (length stk)) (c, Some k) v r in
  let? p := feed_structure x (mk_parser (FObject c CommaOrEnd None :: stk) None r' false) in feed bs p.
Proof.
  intros Hv Hw Hk Hw1 Hw2 Hw3 Hx. rewrite feed_app, feed_white by done. cbn [rbind].
  destruct (feed_string_text k bk (FObject c (object_state first) kt :: stk) r true Ignore Hk)
    as (bk' & -> & E).
  change ((34 :: bk') ++ ?a) with (34 :: (bk' ++ a)).
  assert (∀ l, feed (34 :: l) (mk_parser (FObject c (object_state first) kt :: stk) None r false) =
          feed l (mk_parser (FObject c (object_state first) kt :: stk)
                    (Some (LexString (new_string true Ignore))) r false)) as ->
    by (intros l; by destruct first).
  rewrite feed_app, E. unfold visit_key, captured.
  destruct (push_all _ _) as [cap|]; [|done]. cbn [rbind]. rewrite finish_key.
  destruct (finish_capture cap) as [k'|]; [|done]. cbn [rbind].
  rewrite feed_app, feed_white by done. cbn [rbind].
  change (feed (58 :: ?l) _) with
    (feed l (mk_parser (FObject c AtValue (Some k') :: stk) None r false)).
  rewrite feed_app, feed_white by done. cbn [rbind]. rewrite feed_app.
  specialize (Hv _ _ _ stk (aw_member c k') r). cbn [length] in Hv. destruct (visit _ _ v r) as [r'|e].
  - destruct Hv as (p & -> & Hp). cbn [rbind]. by rewrite (feed_after_value w3 x bs p (mk_parser (FObject c CommaOrEnd None :: stk) None r' false)).
  - by rewrite Hv.
Qed.

(** Every derivation of a JSON text. *)
Lemma texts_read :
  (∀ v b, value_text v b → ∀ f slot f' stk, awaiting f slot f' → value_read f stk slot f' v b)
  ∧ (∀ first items b, items_text first items b → items_read first items b)
  ∧ (∀ first fields b, fields_text first fields b → fields_read first fields b).
Proof.
  apply json_text_ind.
  - intros v a Hv Ha Hl Hh Hd f slot f' stk Hf. by apply (read_atom v a f slot f').
  - intros s b Hs f slot f' stk Hf. by apply (read_string s b f slot f').
  - intros items b _ Hi f slot f' stk Hf. by apply (read_array items b f slot f').
  - intros fields b _ Hi f slot f' stk Hf. by apply (read_object fields b f slot f').
  - intros w Hw c stk r. rewrite feed_app, feed_white by done. cbn [rbind]. by rewrite feed_one.
  - intros first w v b w' Hw _ Hv Hw' c stk r. rewrite (read_element first v) by done. cbn [visit_items].
    destruct (visit _ _ v r) as [r'|e]; done.
  - intros first w v b w' items b' Hw _ Hv Hw' _ Hi c stk r. rewrite (read_element first v) by done.
    cbn [visit_items]. destruct (visit _ _ v r) as [r'|e]; [|done]. exact (Hi c stk r').
  - intros w Hw c k stk r. rewrite feed_app, feed_white by done. cbn [rbind]. by rewrite feed_one.
  - intros first w k bk w1 w2 v b w3 Hw Hk Hw1 Hw2 _ Hv Hw3 c kt stk r.
    rewrite (read_member first k kt v) by done. cbn [visit_fields].
    destruct (visit_key k) as [k'|e]; [cbn [rbind]|done].
    destruct (visit _ _ v r) as [r'|e]; done.
  - intros first w k bk w1 w2 v b w3 fields b' Hw Hk Hw1 Hw2 _ Hv Hw3 _ Hf c kt stk r.
    rewrite (read_member first k kt v) by done. cbn [visit_fields].
    destruct (visit_key k) as [k'|e]; [cbn [rbind]|done].
    destruct (visit _ _ v r) as [r'|e]; [|done]. exact (Hf c None stk r').
Qed.

(** The record parsed from the text of an object is the visit of its members: the same record
    on success, the same error otherwise. *)
Lemma parser_computes_visit fields b :
  record_text fields b →
  rbind (feed b new_parser) finish_record =
  let? r := visit_record fields in Ok (into_value r).
Proof.
  intros (w & b' & w' & Hw & Hv & Hw' & ->). inversion Hv; subst; [done|].
  rewrite feed_app, feed_white by done. cbn [rbind].
  change ((123 :: ?b) ++ w') with (123 :: (b ++ w')).
  match goal with |- context [feed (123 :: ?l) new_parser] => change (feed (123 :: l) new_parser) with
    (feed l (mk_parser [FObject Root (object_state true) None] None default_record false)) end.
  rewrite feed_app. rewrite (proj2 (proj2 texts_read) _ _ _ ltac:(eassumption)). cbn [length].
  fold (visit_record fields). destruct (visit_record fields) as [r|]; [|done]. cbn [rbind].
  rewrite feed_white by done. done.
Qed.

(** The bytes of a line as the poll feeds them: in pieces. *)
Fixpoint feed_pieces (pieces : list bytes) (p : StreamingRecordParser) : result Fault StreamingRecordParser :=
  match pieces with
  | [] => Ok p
  | piece :: pieces => let? p := feed piece p in feed_pieces pieces p
  end.

Lemma feed_pieces_join pieces p : feed_pieces pieces p = feed (mjoin pieces) p.
Proof.
  revert p. induction pieces as [|piece pieces IH]; intros p; [done|].
  rewrite mjoin_cons, feed_app. cbn [feed_pieces]. destruct (feed piece p); [apply IH | done].
Qed.

(** C22 The push-down automaton refines the visit of the value: fed the text of an object, in
    whatever pieces, it ends with the record the visit of the members computes, or with the
    error of that visit; it never ends early and never keeps anything else. *)
Theorem automaton_refines_visit fields pieces :
  record_text fields (mjoin pieces) →
  rbind (feed_pieces pieces new_parser) finish_record =
  let? r := visit_record fields in Ok (into_value r).
Proof. rewrite feed_pieces_join. apply parser_computes_visit. Qed.
End automaton.
