(* ===== verification/RecordEquiv.v ===== *)
(** * Streamed and parsed records agree *)

From stdpp Require Import gmap.
From S2P Require Import Prelude Bytes StrOps StoreTypes Redact TurnPack RecordParser.
From S2P Require Import RecordCapture RecordLexing RecordAutomaton.

(** * The record of a value

    What [visit] leaves in the record, member by member: the last member of each recorded
    key wins, and everything below any other member is passed over. *)

(** ** Looking members up *)

Lemma get_snoc k fields k' v :
  get k (fields ++ [(k', v)]) = if bool_decide (k' = k) then Some v else get k fields.
Proof.
  induction fields as [|[k0 v0] fields IH]; cbn [app get].
  - by case_bool_decide.
  - rewrite IH. case_bool_decide; [done|]. done.
Qed.

Lemma get_str_snoc k fields k' v :
  get_str k (fields ++ [(k', v)]) = if bool_decide (k' = key k) then as_str v else get_str k fields.
Proof. unfold get_str. rewrite get_snoc. by case_bool_decide. Qed.

Lemma get_object_snoc k fields k' v :
  get_object k (fields ++ [(k', v)]) = if bool_decide (k' = key k) then as_object v else get_object k fields.
Proof. unfold get_object. rewrite get_snoc. by case_bool_decide. Qed.

Lemma visit_fields_snoc depth c fields k v r :
  visit_fields depth c (fields ++ [(k, v)]) r =
  let? r := visit_fields depth c fields r in
  let? k := visit_key k in visit depth (c, Some k) v r.
Proof.
  revert r. induction fields as [|[k0 v0] fields IH]; intros r.
  - cbn [app visit_fields rbind]. destruct (visit_key k); [cbn [rbind]|done]. by destruct (visit _ _ v r).
  - cbn [app visit_fields]. destruct (visit_key k0); [cbn [rbind]|done].
    destruct (visit _ _ v0 r); [apply IH | done].
Qed.

Lemma visit_key_id k k' : visit_key k = Ok k' → k' = k.
Proof. intros [-> _]%captured_small; done. Qed.

(** Members of an object after a prefix of them: the shape of the inductions below. *)
Lemma visit_snoc_inv depth c fields k v r r' :
  visit_fields depth c (fields ++ [(k, v)]) r = Ok r' →
  ∃ r0, visit_fields depth c fields r = Ok r0 ∧ visit depth (c, Some k) v r0 = Ok r'.
Proof.
  rewrite visit_fields_snoc. intros Hv.
  destruct (visit_fields depth c fields r) as [r0|]; [|done]. cbn [rbind] in Hv.
  destruct (visit_key k) as [k'|] eqn:Hk; [|done]. apply visit_key_id in Hk as ->. eauto.
Qed.

(** ** Members that are not recorded *)

Section json_induction.
Context (P : json → Prop).
Context (Hnull : P JNull) (Hbool : ∀ b, P (JBool b)) (Hnum : ∀ b, P (JNumber b)) (Hstr : ∀ s, P (JString s)).
Context (Harr : ∀ items, Forall P items → P (JArray items)).
Context (Hobj : ∀ fields, Forall (λ f, P f.2) fields → P (JObject fields)).

Lemma json_nested_ind : ∀ v, P v.
Proof.
  fix IH 1. intros [| | | |items|fields]; [apply Hnull | apply Hbool | apply Hnum | apply Hstr | |].
  - apply Harr. induction items; constructor; [apply IH | done].
  - apply Hobj. induction fields as [|[k v] fields IHf]; constructor; [apply IH | done].
Qed.
End json_induction.

(** A slot under which nothing is recorded. *)
Definition unrecorded (slot : JsonContext * option text) : Prop :=
  (∀ r, prepared slot r = r) ∧ slot_target slot = Ignore
  ∧ ∀ b r, opened b slot r = (OtherContext, r).

Lemma unrecorded_other k : unrecorded (OtherContext, k).
Proof. done. Qed.

Definition passes_over (v : json) : Prop :=
  ∀ depth slot r r', unrecorded slot → visit depth slot v r = Ok r' → r' = r.

Lemma items_passed_over items depth r r' :
  Forall passes_over items → visit_items depth OtherContext items r = Ok r' → r' = r.
Proof.
  intros Hi. revert r. induction Hi as [|v items Hv _ IH]; intros r E; cbn [visit_items] in E; [by simplify_eq|].
  destruct (visit _ _ v r) as [r0|] eqn:E0; [|done]. apply Hv in E0 as ->; [|apply unrecorded_other].
  by apply IH.
Qed.

Lemma fields_passed_over fields depth r r' :
  Forall (λ f, passes_over f.2) fields → visit_fields depth OtherContext fields r = Ok r' → r' = r.
Proof.
  intros Hf. revert r. induction Hf as [|[k v] fields Hv _ IH]; intros r E; cbn [visit_fields] in E; [by simplify_eq|].
  destruct (visit_key k) as [k'|]; [|done]. cbn [rbind] in E.
  destruct (visit _ _ v r) as [r0|] eqn:E0; [|done]. apply Hv in E0 as ->; [|apply unrecorded_other].
  by apply IH.
Qed.

Lemma visit_unrecorded v : passes_over v.
Proof.
  induction v as [| | |s|items Hi|fields Hf] using json_nested_ind; intros depth slot r r' (Hp & Ht & Ho) Hv.
  1-3: cbn [visit] in Hv; simplify_eq; apply Hp.
  - cbn [visit] in Hv. unfold visit_string in Hv. rewrite Hp, Ht in Hv.
    destruct (captured _ s); [|done]. cbn in Hv. simplify_eq. by destruct r.
  - rewrite visit_array, Hp, Ho in Hv. cbv zeta in Hv. destruct (require _ _); [|done].
    by apply items_passed_over in Hv.
  - rewrite visit_object, Hp, Ho in Hv. cbv zeta in Hv. destruct (require _ _); [|done].
    by apply fields_passed_over in Hv.
Qed.

Lemma visit_items_other items depth r r' : visit_items depth OtherContext items r = Ok r' → r' = r.
Proof. apply items_passed_over, Forall_true. intros v. apply visit_unrecorded. Qed.

Lemma visit_fields_other fields depth r r' : visit_fields depth OtherContext fields r = Ok r' → r' = r.
Proof. apply fields_passed_over, Forall_true. intros v. apply visit_unrecorded. Qed.

(** ** Recorded members *)

(** A member recorded as a string in the field [t], and cleared by any other value. *)
Definition string_member (slot : JsonContext * option text) (t : FieldTarget) : Prop :=
  (∀ r, prepared slot r = set_target t None r) ∧ slot_target slot = t
  ∧ ∀ b r, opened b slot r = (OtherContext, r).

Lemma alter_alter {A} (f g : A → A) i (l : list A) : alter f i (alter g i l) = alter (f ∘ g) i l.
Proof. revert i. induction l as [|x l IH]; intros [|i]; [done..|]. cbn. f_equal. apply IH. Qed.

Lemma set_target_twice t v w r : set_target t v (set_target t w r) = set_target t v r.
Proof. destruct t, r; cbn; try done; f_equal; rewrite alter_alter; by apply list_alter_ext. Qed.

(** The text a member leaves in its field. *)
Definition kept (t : FieldTarget) (s : text) : text :=
  match captured (new_string false t) s with Ok s' => s' | Err _ => s end.

Lemma visit_string_member v depth slot t r r' :
  string_member slot t → visit depth slot v r = Ok r' → r' = set_target t (kept t <$> as_str v) r.
Proof.
  intros (Hp & Ht & Ho) Hv. destruct v as [| | |s|items|fields].
  1-3: cbn [visit] in Hv; simplify_eq; apply Hp.
  - cbn [visit] in Hv. unfold visit_string in Hv. rewrite Ht, Hp in Hv. cbn [as_str fmap option_fmap option_map].
    unfold kept. destruct (captured _ s) as [s'|]; [|done]. cbn [rbind] in Hv. simplify_eq. by rewrite set_target_twice.
  - rewrite visit_array, Hp, Ho in Hv. cbv zeta in Hv. destruct (require _ _); [|done].
    by apply visit_items_other in Hv.
  - rewrite visit_object, Hp, Ho in Hv. cbv zeta in Hv. destruct (require _ _); [|done].
    by apply visit_fields_other in Hv.
Qed.

(** ** The slots of a record *)

(** Comparisons between two literal keys are computed. *)
Ltac literal_keys :=
  repeat match goal with
  | |- context [@bool_decide (key ?a = key ?b) ?d] =>
      let v := eval vm_compute in (@bool_decide (key a = key b) d) in
      change (@bool_decide (key a = key b) d) with v
  | |- context [is_key_named (Some (key ?a)) ?b] =>
      let v := eval vm_compute in (is_key_named (Some (key a)) b) in
      change (is_key_named (Some (key a)) b) with v
  end.

Lemma key_named_other k name : k ≠ key name → is_key_named (Some k) name = false.
Proof. intros ?. apply bool_decide_false. congruence. Qed.

Ltac slot_solver :=
  split_and!; [intros [] | | intros ? []];
  unfold prepared, slot_target, opened, prepare_field_value, field_target, child_context, top_of, at_slot;
  cbn [pr_stack fst snd pr_record]; literal_keys; cbn [andb]; rewrite ?key_named_other by done; done.

Lemma type_of_root : string_member (Root, Some (key "type")) TopType.
Proof. slot_solver. Qed.
Lemma string_of_payload name t :
  (name, t) ∈ [("type", PayloadType); ("role", Role); ("turn_id", TurnId); ("name", Name);
               ("status", Status); ("call_id", CallId); ("last_agent_message", LastAgentMessage)]%string →
  string_member (Payload, Some (key name)) t.
Proof. rewrite !elem_of_cons, elem_of_nil. intros Hn. destruct_or?; simplify_eq; slot_solver. Qed.
Lemma turn_id_of_metadata : string_member (Metadata, Some (key "turn_id")) MetadataTurnId.
Proof. slot_solver. Qed.
Lemma turn_id_of_internal : string_member (InternalMetadata, Some (key "turn_id")) InternalTurnId.
Proof. slot_solver. Qed.
Lemma type_of_part i : string_member (ContentPart i, Some (key "type")) (PartType i).
Proof. slot_solver. Qed.
Lemma text_of_part i : string_member (ContentPart i, Some (key "text")) (PartText i).
Proof. slot_solver. Qed.

Lemma other_of_root k : k ≠ key "type" → k ≠ key "payload" → unrecorded (Root, Some k).
Proof. intros. slot_solver. Qed.
Lemma other_of_metadata k : k ≠ key "turn_id" → unrecorded (Metadata, Some k).
Proof. intros. slot_solver. Qed.
Lemma other_of_internal k : k ≠ key "turn_id" → unrecorded (InternalMetadata, Some k).
Proof. intros. slot_solver. Qed.
Lemma other_of_part i k : k ≠ key "type" → k ≠ key "text" → unrecorded (ContentPart i, Some k).
Proof. intros. slot_solver. Qed.

Definition payload_keys : list string :=
  ["type"; "role"; "turn_id"; "name"; "status"; "call_id"; "last_agent_message"; "content"; "metadata";
   "internal_chat_message_metadata_passthrough"]%string.

Lemma other_of_payload k : Forall (λ name, k ≠ key name) payload_keys → unrecorded (Payload, Some k).
Proof. unfold payload_keys. rewrite !Forall_cons. intros (?&?&?&?&?&?&?&?&?&?&_). slot_solver. Qed.

(** ** The view of a record *)

Definition kept_text (s : text) : text := kept LastAgentMessage s.

Lemma kept_small t s : js_capture (new_string false t) = small → kept t s = s.
Proof.
  intros Hs. unfold kept. destruct (captured _ s) as [s'|] eqn:E; [|done].
  by apply captured_small in E as [-> _].
Qed.

Lemma kept_small_fmap t (v : option text) : js_capture (new_string false t) = small → kept t <$> v = v.
Proof. intros Hs. destruct v as [s|]; [|done]. cbn. f_equal. by apply kept_small. Qed.

Lemma kept_short s : (length s ≤ head_limit)%nat → kept_text s = s.
Proof.
  intros Hs. unfold kept_text, kept. destruct (captured _ s) as [s'|] eqn:E; [|done].
  by apply captured_short in E as ->.
Qed.

(** Longer texts, up to both budgets, are kept whole when a character ends where the first
    budget does. *)
Lemma kept_to_the_tail s :
  utf8_ok s = true → utf8_ok (take head_limit s) = true → (length s ≤ head_limit + tail_limit)%nat → kept_text s = s.
Proof.
  intros Hs Hh Hl. unfold kept_text, kept. destruct (captured _ s) as [s'|] eqn:E; [|done]. by apply captured_to_the_tail in E as ->.
Qed.

(** A content part, as the record keeps it. *)
Definition part_view (fields : list (text * json)) : StreamedPart :=
  mk_part (get_str "type" fields) (kept_text <$> get_str "text" fields).
Definition parts_view (v : option json) : list StreamedPart :=
  match v ≫= as_array with
  | Some items => take MAX_STREAM_CONTENT_PARTS (part_view <$> omap as_object items)
  | None => []
  end.

Definition payload_view (top : option text) (pf : list (text * json)) : StreamedRecord :=
  mk_record true top (get_str "type" pf) (get_str "role" pf) (get_str "turn_id" pf)
    (get_object "internal_chat_message_metadata_passthrough" pf ≫= get_str "turn_id")
    (get_object "metadata" pf ≫= get_str "turn_id") (get_str "name" pf) (get_str "status" pf)
    (get_str "call_id" pf) (kept_text <$> get_str "last_agent_message" pf)
    (parts_view (get (key "content") pf)).

Definition root_view (fields : list (text * json)) : StreamedRecord :=
  match get_object "payload" fields with
  | Some pf => payload_view (get_str "type" fields) pf
  | None => mk_record false (get_str "type" fields) None None None None None None None None None []
  end.

Lemma set_target_none_id t r r0 : r = set_target t None r0 → set_target t None r = r.
Proof. intros ->. apply set_target_twice. Qed.

(** The members of a metadata object: its turn id. *)
Lemma visit_turn_id c t fields depth r r' :
  string_member (c, Some (key "turn_id")) t → (∀ k, k ≠ key "turn_id" → unrecorded (c, Some k)) →
  js_capture (new_string false t) = small →
  visit_fields depth c fields (set_target t None r) = Ok r' → r' = set_target t (get_str "turn_id" fields) r.
Proof.
  intros Hm Ho Hs. revert r'. induction fields as [|[k v] fields IH] using rev_ind; intros r' Hv.
  - cbn in Hv. by simplify_eq.
  - apply visit_snoc_inv in Hv as (r0 & ->%IH & Hv). rewrite get_str_snoc. case_bool_decide as Hk.
    + subst k. apply (visit_string_member _ _ _ t) in Hv; [|done].
      by rewrite set_target_twice, kept_small_fmap in Hv.
    + by apply visit_unrecorded in Hv; [|apply Ho].
Qed.

Lemma alter_last {A} (f : A → A) (l : list A) x : alter f (length l) (l ++ [x]) = l ++ [f x].
Proof. induction l as [|y l IH]; [done|]. cbn. by f_equal. Qed.

Lemma set_part_type v ps p r :
  set_target (PartType (length ps)) v (set_parts (ps ++ [p]) r) = set_parts (ps ++ [mk_part v (sp_text p)]) r.
Proof. destruct r. unfold set_target, set_parts. cbn. by rewrite alter_last. Qed.

Lemma set_part_text v ps p r :
  set_target (PartText (length ps)) v (set_parts (ps ++ [p]) r) = set_parts (ps ++ [mk_part (sp_kind p) v]) r.
Proof. destruct r. unfold set_target, set_parts. cbn. by rewrite alter_last. Qed.

(** The members of a content part. *)
Lemma visit_part fields depth ps r r' :
  visit_fields depth (ContentPart (length ps)) fields (set_parts (ps ++ [mk_part None None]) r) = Ok r' →
  r' = set_parts (ps ++ [part_view fields]) r.
Proof.
  revert r'. induction fields as [|[k v] fields IH] using rev_ind; intros r' Hv.
  - cbn in Hv. by simplify_eq.
  - apply visit_snoc_inv in Hv as (r0 & ->%IH & Hv). unfold part_view. rewrite !get_str_snoc.
    destruct (decide (k = key "type")) as [->|Ht]; [|destruct (decide (k = key "text")) as [->|Hx]].
    + apply (visit_string_member _ _ _ _ _ _ (type_of_part _)) in Hv.
      rewrite set_part_type, kept_small_fmap in Hv by done. by literal_keys.
    + apply (visit_string_member _ _ _ _ _ _ (text_of_part _)) in Hv.
      rewrite set_part_text in Hv. by literal_keys.
    + rewrite !bool_decide_false by done. by apply visit_unrecorded in Hv; [|apply other_of_part].
Qed.

Definition item_view (v : json) : list StreamedPart :=
  match as_object v with Some fields => [part_view fields] | None => [] end.

Lemma set_parts_same r : set_parts (sr_parts r) r = r.
Proof. by destruct r. Qed.

Lemma visit_item v depth r r' :
  (length (sr_parts r) ≤ MAX_STREAM_CONTENT_PARTS)%nat → visit depth (ContentArray, None) v r = Ok r' →
  r' = set_parts (take MAX_STREAM_CONTENT_PARTS (sr_parts r ++ item_view v)) r.
Proof.
  intros Hl Hv. destruct v as [| | |s|items|fields]; unfold item_view; cbn [as_object];
    rewrite ?app_nil_r, ?(take_ge (sr_parts r)) by done; rewrite ?set_parts_same.
  1-3: cbn in Hv; by simplify_eq.
  - cbn [visit] in Hv. unfold visit_string in Hv. destruct (captured _ s); [|done]. cbn in Hv. simplify_eq. by destruct r.
  - rewrite visit_array in Hv. cbv zeta in Hv. destruct (require _ _); [|done]. cbn in Hv.
    by apply visit_items_other in Hv.
  - rewrite visit_object in Hv. cbv zeta in Hv. destruct (require _ _); [|done].
    cbn [rbind] in Hv. unfold opened, child_context, top_of, at_slot, prepared, prepare_field_value in Hv.
    cbn [pr_stack fst snd pr_record at_slot] in Hv. change (123 =? 123) with true in Hv. cbn [andb] in Hv.
    destruct (Nat.ltb_spec (length (sr_parts r)) MAX_STREAM_CONTENT_PARTS).
    + cbn [fst snd with_record pr_record] in Hv. apply visit_part in Hv.
      rewrite take_ge; [exact Hv|]. rewrite length_app. cbn [length]. lia.
    + cbn [fst snd] in Hv. apply visit_fields_other in Hv. rewrite take_app_le by lia.
      rewrite take_ge by lia. by rewrite set_parts_same.
Qed.

Lemma take_take_app {A} n (l k : list A) : take n (take n l ++ k) = take n (l ++ k).
Proof.
  destruct (decide (length l ≤ n)%nat); [by rewrite (take_ge l)|].
  rewrite !take_app_le by (rewrite ?length_take; lia). by rewrite take_take, Nat.min_id.
Qed.

Lemma visit_content items depth r r' :
  (length (sr_parts r) ≤ MAX_STREAM_CONTENT_PARTS)%nat → visit_items depth ContentArray items r = Ok r' →
  r' = set_parts (take MAX_STREAM_CONTENT_PARTS (sr_parts r ++ (part_view <$> omap as_object items))) r.
Proof.
  revert r. induction items as [|v items IH]; intros r Hl Hv.
  - cbn in Hv. simplify_eq. cbn. rewrite app_nil_r, take_ge by done. by rewrite set_parts_same.
  - cbn [visit_items] in Hv. destruct (visit _ _ v r) as [r0|] eqn:E; [|done]. cbn [rbind] in Hv.
    apply visit_item in E as ->; [|done]. apply IH in Hv as ->; [|cbn [sr_parts set_parts]; rewrite length_take; lia].
    cbn [sr_parts set_parts]. unfold set_parts at 1. cbn [sr_payload_object sr_top_type sr_payload_type sr_role
      sr_turn_id sr_internal_turn_id sr_metadata_turn_id sr_name sr_status sr_call_id sr_last_agent_message].
    rewrite take_take_app, <- app_assoc. unfold item_view. cbn [omap list_omap]. by destruct (as_object v).
Qed.

Lemma visit_payload_content v depth r r' :
  visit depth (Payload, Some (key "content")) v r = Ok r' → r' = set_parts (parts_view (Some v)) r.
Proof.
  intros Hv. assert (prepared (Payload, Some (key "content")) r = set_parts [] r) as Hp by (by destruct r).
  unfold parts_view. destruct v as [| | |s|items|fields]; cbn [mbind option_bind as_array].
  1-3: cbn [visit] in Hv; by simplify_eq.
  - cbn [visit] in Hv. unfold visit_string in Hv. rewrite Hp in Hv.
    destruct (captured _ s); [|done]. cbn in Hv. by simplify_eq.
  - rewrite visit_array, Hp in Hv. cbv zeta in Hv. destruct (require _ _); [|done]. cbn [rbind] in Hv.
    apply visit_content in Hv as ->; [by destruct r | by apply Nat.le_0_l].
  - rewrite visit_object, Hp in Hv. cbv zeta in Hv. destruct (require _ _); [|done].
    by apply visit_fields_other in Hv.
Qed.

(** A metadata member of the payload: its turn id. *)
Lemma visit_payload_turn_id name c t v depth r r' :
  (∀ r, prepared (Payload, Some (key name)) r = set_target t None r) →
  slot_target (Payload, Some (key name)) = Ignore →
  (∀ r, opened 123 (Payload, Some (key name)) r = (c, r)) →
  (∀ r, opened 91 (Payload, Some (key name)) r = (OtherContext, r)) →
  string_member (c, Some (key "turn_id")) t → (∀ k, k ≠ key "turn_id" → unrecorded (c, Some k)) →
  js_capture (new_string false t) = small →
  visit depth (Payload, Some (key name)) v r = Ok r' →
  r' = set_target t (as_object v ≫= get_str "turn_id") r.
Proof.
  intros Hp Ht Ho Ha Hm Hu Hs Hv. destruct v as [| | |s|items|fields]; cbn [mbind option_bind as_object].
  1-3: cbn [visit] in Hv; rewrite Hp in Hv; by simplify_eq.
  - cbn [visit] in Hv. unfold visit_string in Hv. rewrite Hp, Ht in Hv.
    destruct (captured _ s); [|done]. cbn in Hv. simplify_eq. by destruct (set_target t None r).
  - rewrite visit_array, Hp, Ha in Hv. cbv zeta in Hv. destruct (require _ _); [|done].
    by apply visit_items_other in Hv.
  - rewrite visit_object, Hp, Ho in Hv. cbv zeta in Hv. destruct (require _ _); [|done].
    by apply (visit_turn_id c t) in Hv.
Qed.

Lemma visit_payload_metadata v depth r r' :
  visit depth (Payload, Some (key "metadata")) v r = Ok r' →
  r' = set_target MetadataTurnId (as_object v ≫= get_str "turn_id") r.
Proof.
  apply (visit_payload_turn_id "metadata" Metadata MetadataTurnId); try done;
    eauto using turn_id_of_metadata, other_of_metadata; by intros [].
Qed.

Lemma visit_payload_internal v depth r r' :
  visit depth (Payload, Some (key "internal_chat_message_metadata_passthrough")) v r = Ok r' →
  r' = set_target InternalTurnId (as_object v ≫= get_str "turn_id") r.
Proof.
  apply (visit_payload_turn_id "internal_chat_message_metadata_passthrough" InternalMetadata InternalTurnId);
    try done; eauto using turn_id_of_internal, other_of_internal; by intros [].
Qed.

(** The members of the payload, one after the other. *)
Lemma payload_view_snoc top pf k v depth r :
  visit depth (Payload, Some k) v (payload_view top pf) = Ok r → r = payload_view top (pf ++ [(k, v)]).
Proof.
  intros Hv.
  assert (∀ name t, k = key name → js_capture (new_string false t) = small →
    string_member (Payload, Some (key name)) t → r = set_target t (as_str v) (payload_view top pf)) as Hs.
  { intros name t -> Hsm Hm. apply (visit_string_member _ _ _ t) in Hv as ->; [|done].
    by rewrite kept_small_fmap. }
  unfold payload_view in *. rewrite !get_str_snoc, !get_object_snoc, get_snoc.
  destruct (decide (Forall (λ name, k ≠ key name) payload_keys)) as [Ho|Hk].
  { pose proof Ho as Hk. unfold payload_keys in Hk. rewrite !Forall_cons in Hk.
    destruct Hk as (?&?&?&?&?&?&?&?&?&?&_). rewrite !bool_decide_false by done.
    by apply visit_unrecorded in Hv; [|apply other_of_payload]. }
  apply not_Forall_Exists in Hk; [|intros ?; apply _]. unfold payload_keys in Hk. rewrite !Exists_cons, Exists_nil in Hk.
  destruct_or?; try done; apply dec_stable in Hk; subst k.
  1: by rewrite (Hs "type"%string PayloadType) by (done || by apply string_of_payload; set_solver); literal_keys.
  1: by rewrite (Hs "role"%string Role) by (done || by apply string_of_payload; set_solver); literal_keys.
  1: by rewrite (Hs "turn_id"%string TurnId) by (done || by apply string_of_payload; set_solver); literal_keys.
  1: by rewrite (Hs "name"%string Name) by (done || by apply string_of_payload; set_solver); literal_keys.
  1: by rewrite (Hs "status"%string Status) by (done || by apply string_of_payload; set_solver); literal_keys.
  1: by rewrite (Hs "call_id"%string CallId) by (done || by apply string_of_payload; set_solver); literal_keys.
  - apply (visit_string_member _ _ _ LastAgentMessage) in Hv as ->; [by literal_keys|].
    apply string_of_payload. set_solver.
  - apply visit_payload_content in Hv as ->. by literal_keys.
  - apply visit_payload_metadata in Hv as ->. by literal_keys.
  - apply visit_payload_internal in Hv as ->. by literal_keys.
Qed.

Lemma visit_payload top pf depth r :
  visit_fields depth Payload pf (mk_record true top None None None None None None None None None []) = Ok r →
  r = payload_view top pf.
Proof.
  revert r. induction pf as [|[k v] pf IH] using rev_ind; intros r Hv.
  - cbn in Hv. by simplify_eq.
  - apply visit_snoc_inv in Hv as (r0 & ->%IH & Hv). by apply payload_view_snoc in Hv.
Qed.

Lemma visit_root_payload v depth r r' :
  visit depth (Root, Some (key "payload")) v r = Ok r' →
  r' = match as_object v with
       | Some pf => payload_view (sr_top_type r) pf
       | None => clear_payload r
       end.
Proof.
  intros Hv. assert (prepared (Root, Some (key "payload")) r = clear_payload r) as Hp by (by destruct r).
  destruct v as [| | |s|items|fields]; cbn [as_object].
  1-3: cbn [visit] in Hv; by simplify_eq.
  - cbn [visit] in Hv. unfold visit_string in Hv. rewrite Hp in Hv.
    destruct (captured _ s); [|done]. cbn in Hv. by simplify_eq.
  - rewrite visit_array, Hp in Hv. cbv zeta in Hv. destruct (require _ _); [|done].
    by apply visit_items_other in Hv.
  - rewrite visit_object, Hp in Hv. cbv zeta in Hv. destruct (require _ _); [|done].
    by apply visit_payload in Hv.
Qed.

(** The record of an object, by its members. *)
Lemma visit_record_view fields r : visit_record fields = Ok r → r = root_view fields.
Proof.
  unfold visit_record. generalize 1%nat as depth. intros depth. revert r.
  induction fields as [|[k v] fields IH] using rev_ind; intros r Hv.
  - cbn in Hv. by simplify_eq.
  - apply visit_snoc_inv in Hv as (r0 & ->%IH & Hv). unfold root_view in *.
    rewrite get_str_snoc, get_object_snoc.
    destruct (decide (k = key "type")) as [->|Ht]; [|destruct (decide (k = key "payload")) as [->|Hp]].
    + apply (visit_string_member _ _ _ _ _ _ type_of_root) in Hv as ->. rewrite kept_small_fmap by done.
      literal_keys. by destruct (get_object "payload" fields).
    + apply visit_root_payload in Hv as ->. literal_keys.
      destruct (as_object v); by destruct (get_object "payload" fields).
    + rewrite !bool_decide_false by done. by apply visit_unrecorded in Hv; [|apply other_of_root].
Qed.

(** * Streamed and parsed records agree

    A record that went through the streaming parser is applied to the turn in progress like
    the whole parsed value, when the parser keeps its texts whole.  [kept_short] and
    [kept_to_the_tail] say which texts these are. *)

Definition kept_whole (v : option text) : bool :=
  match v with Some s => bool_decide (kept_text s = s) | None => true end.

Definition lossless_part (v : json) : bool :=
  match as_object v with Some fields => kept_whole (get_str "text" fields) | None => false end.

(** The texts are kept whole, and a content array has between 1 and 32 parts, all of them
    objects. *)
Definition lossless (fields : list (text * json)) : bool :=
  match get_object "payload" fields with
  | None => true
  | Some pf =>
      kept_whole (get_str "last_agent_message" pf)
      && match get (key "content") pf ≫= as_array with
         | Some items => (1 <=? length items)%nat && (length items <=? MAX_STREAM_CONTENT_PARTS)%nat
                         && forallb lossless_part items
         | None => true
         end
  end.

(** ** Members of a record turned into a value *)

Lemma get_app k f g : get k (f ++ g) = match get k g with Some v => Some v | None => get k f end.
Proof.
  induction f as [|[k' v] f IH]; [cbn; by destruct (get k g)|]. cbn [app get]. rewrite IH. by destruct (get k g).
Qed.

Lemma get_member k k' v : get k (member k' v) = if bool_decide (key k' = k) then JString <$> v else None.
Proof. destruct v; cbn; repeat case_bool_decide; done. Qed.

Lemma get_turn_id_object k k' v :
  get k (turn_id_object k' v) =
  if bool_decide (key k' = k) then (λ s, JObject [(key "turn_id", JString s)]) <$> v else None.
Proof. destruct v; cbn; repeat case_bool_decide; done. Qed.

Definition content_member (ps : list StreamedPart) : list (text * json) :=
  match ps with [] => [] | ps => [(key "content", JArray (part_value <$> ps))] end.

Lemma get_content_member k ps :
  get k (content_member ps) =
  if bool_decide (key "content" = k)
  then match ps with [] => None | ps => Some (JArray (part_value <$> ps)) end else None.
Proof. destruct ps; cbn; repeat case_bool_decide; done. Qed.

Lemma option_eta {A} (x : option A) : match x with Some v => Some v | None => None end = x.
Proof. by destruct x. Qed.

Ltac record_members :=
  rewrite ?get_app, ?get_member, ?get_turn_id_object, ?get_content_member; literal_keys;
  cbv iota; rewrite ?option_eta.

Lemma payload_fields_eq r :
  payload_fields r =
  member "type" (sr_payload_type r) ++ member "role" (sr_role r) ++ member "turn_id" (sr_turn_id r)
  ++ member "name" (sr_name r) ++ member "status" (sr_status r) ++ member "call_id" (sr_call_id r)
  ++ member "last_agent_message" (sr_last_agent_message r)
  ++ turn_id_object "metadata" (sr_metadata_turn_id r)
  ++ turn_id_object "internal_chat_message_metadata_passthrough" (sr_internal_turn_id r)
  ++ content_member (sr_parts r).
Proof. unfold payload_fields, content_member. by destruct (sr_parts r). Qed.

(** What the turn builder reads of a payload. *)
Record same_payload (pf qf : list (text * json)) : Prop := {
  sp_strings : Forall (λ k, get_str k pf = get_str k qf)
    ["type"; "role"; "turn_id"; "name"; "status"; "call_id"; "last_agent_message"]%string;
  sp_metadata : get_object "metadata" pf ≫= get_str "turn_id" = get_object "metadata" qf ≫= get_str "turn_id";
  sp_internal : get_object "internal_chat_message_metadata_passthrough" pf ≫= get_str "turn_id"
                = get_object "internal_chat_message_metadata_passthrough" qf ≫= get_str "turn_id";
  sp_content : ∀ role self,
    match get (key "content") pf ≫= as_array with
    | None => Err (Fail InvalidRollout)
    | Some content => push_parts role content self
    end =
    match get (key "content") qf ≫= as_array with
    | None => Err (Fail InvalidRollout)
    | Some content => push_parts role content self
    end;
}.

Lemma as_str_string (v : option text) : (JString <$> v) ≫= as_str = v.
Proof. by destruct v. Qed.

(** The parts of a lossless content are pushed like the parts of the value. *)
Lemma push_parts_view role items self :
  forallb lossless_part items = true →
  push_parts role (part_value <$> (part_view <$> omap as_object items)) self = push_parts role items self.
Proof.
  revert self. induction items as [|v items IH]; intros self Hl; [done|].
  cbn [forallb] in Hl. apply andb_prop in Hl as [Hv Hl]. unfold lossless_part in Hv.
  cbn [omap list_omap push_parts]. destruct (as_object v) as [fs|] eqn:Ev; [|done].
  cbn [fmap list_fmap push_parts]. unfold part_value at 1. cbn [as_object sp_kind sp_text part_view].
  assert (get_str "type" (member "type" (get_str "type" fs) ++ member "text" (kept_text <$> get_str "text" fs))
          = get_str "type" fs) as ->.
  { unfold get_str at 1. rewrite get_app, !get_member. literal_keys. apply as_str_string. }
  assert (get_str "text" (member "type" (get_str "type" fs) ++ member "text" (kept_text <$> get_str "text" fs))
          = get_str "text" fs) as ->.
  { unfold get_str at 1. rewrite get_app, !get_member. literal_keys.
    destruct (get_str "text" fs) as [s|]; [|done]. cbn. f_equal. by apply bool_decide_eq_true in Hv. }
  destruct (match get_str "type" fs with Some t => _ | None => _ end), (get_str "text" fs); try apply IH; try done.
  cbn [rbind]. destruct (push_message role _ self); [cbn [rbind]; by apply IH | done].
Qed.

Lemma payload_view_same top pf :
  match get_str "last_agent_message" pf with Some s => kept_text s = s | None => True end →
  match get (key "content") pf ≫= as_array with
  | Some items => (1 ≤ length items ≤ MAX_STREAM_CONTENT_PARTS)%nat ∧ forallb lossless_part items = true
  | None => True
  end →
  same_payload (payload_fields (payload_view top pf)) pf.
Proof.
  intros Hlast Hcontent. rewrite payload_fields_eq. unfold payload_view.
  cbn [sr_payload_type sr_role sr_turn_id sr_name sr_status sr_call_id sr_last_agent_message
       sr_metadata_turn_id sr_internal_turn_id sr_parts].
  split.
  - rewrite !Forall_cons, Forall_nil.
    split_and!; [..|done]; unfold get_str at 1; record_members; rewrite ?as_str_string; [done..|].
    destruct (get_str "last_agent_message" pf) as [s|]; [|done]. cbn. by f_equal.
  - unfold get_object at 1. record_members. by destruct (get_object "metadata" pf ≫= _).
  - unfold get_object at 1. record_members. by destruct (get_object _ pf ≫= _).
  - intros role self. record_members. unfold parts_view.
    destruct (get (key "content") pf ≫= as_array) as [items|]; [|done]. destruct Hcontent as [[Hn Hl] Hi].
    assert (length (omap as_object items) = length items) as Hlen.
    { clear Hn Hl. induction items as [|v items IH]; [done|]. cbn [forallb] in Hi. apply andb_prop in Hi as [Hv Hi].
      unfold lossless_part in Hv. cbn. destruct (as_object v); [|done]. cbn. by rewrite IH. }
    rewrite take_ge by (rewrite length_fmap; lia).
    rewrite <- (push_parts_view role items self) by done.
    destruct (omap as_object items); [cbn in Hlen; lia|]. done.
Qed.

(** ** Applying the two values *)

Lemma response_turn_id_same pf qf : same_payload pf qf → response_turn_id pf = response_turn_id qf.
Proof.
  intros [Hs Hm Hi _]. rewrite !Forall_cons in Hs. destruct Hs as (_ & _ & Ht & _).
  unfold response_turn_id. by rewrite Ht, Hm, Hi.
Qed.

Lemma observe_same pf qf self :
  same_payload pf qf → observe_response_item (JObject pf) self = observe_response_item (JObject qf) self.
Proof.
  intros Hsame. pose proof Hsame as [Hs _ _ Hc]. rewrite !Forall_cons in Hs.
  destruct Hs as (Ht & Hr & _ & Hn & Hst & Hci & _ & _).
  unfold observe_response_item, observe_message, observe_tool_call, observe_tool_output, recorded_call_id.
  cbn [as_object]. rewrite (response_turn_id_same pf qf) by done.
  rewrite Ht, Hr, Hn, Hst, Hci.
  destruct (match response_turn_id qf with Some _ => _ | None => _ end); [done|].
  destruct (get_str "type" qf); [|done]. case_bool_decide; [|done].
  destruct (get_str "role" qf); [|done]. destruct (_ && _); [done|]. apply Hc.
Qed.

Section serde.
Context `{Externals, Serde}.

Lemma required_turn_id_same pf qf : same_payload pf qf → required_turn_id pf = required_turn_id qf.
Proof.
  intros [Hs _ _ _]. rewrite !Forall_cons in Hs. destruct Hs as (_ & _ & Ht & _).
  unfold required_turn_id. by rewrite Ht.
Qed.

(** A response item needs a payload object. *)
Lemma no_payload v builder :
  v ≫= as_object = None →
  (let? payload := of_option (Fail InvalidRollout) v in
   let? builder := observe_response_item payload builder in Ok (@None (text * text), Some builder))
  = Err (Fail InvalidRollout).
Proof.
  destruct v as [v|]; [|done]. cbn [mbind option_bind of_option rbind]. intros Hv.
  unfold observe_response_item. by rewrite Hv.
Qed.

(** [apply_rollout_value] reads the type and the payload only. *)
Lemma apply_same fields gields active :
  get_str "type" fields = get_str "type" gields →
  match get (key "payload") fields ≫= as_object, get (key "payload") gields ≫= as_object with
  | Some pf, Some qf => same_payload pf qf
  | None, None => True
  | _, _ => False
  end →
  apply_rollout_value (JObject fields) active = apply_rollout_value (JObject gields) active.
Proof.
  intros Ht Hp. unfold apply_rollout_value. cbn [as_object]. rewrite Ht.
  destruct (get_str "type" gields) as [t|]; [|done]. case_bool_decide.
  - unfold get_object. destruct (get _ fields ≫= _) as [pf|], (get _ gields ≫= _) as [qf|]; try done.
    pose proof (required_turn_id_same pf qf Hp) as ->.
    destruct Hp as [Hs _ _ _]. rewrite !Forall_cons in Hs. destruct Hs as (-> & _ & _ & _ & _ & _ & -> & _). done.
  - case_bool_decide; [|done]. destruct active as [builder|]; [|done].
    destruct (get (key "payload") fields ≫= as_object) as [pf|] eqn:Ef,
      (get (key "payload") gields ≫= as_object) as [qf|] eqn:Eg; try done.
    + apply bind_Some in Ef as ([] & -> & Ef); try done. apply bind_Some in Eg as ([] & -> & Eg); try done.
      cbn [as_object] in Ef, Eg. simplify_eq. cbn [of_option rbind]. by rewrite (observe_same pf qf).
    + rewrite !(no_payload _ builder) by done. done.
Qed.

(** C21 The streaming parser and the whole-line parser agree: whatever record the parser makes
    of the text of an object, applying it to the turn in progress does what applying the
    object itself does, when its last message and the texts of its content are kept whole by
    the bounded capture, and its content, if it is an array, has 1 to 32 parts, all objects.
    Every text of at most 4091 bytes is kept whole ([kept_short]), and every text of at most
    12275 bytes in which a character ends at byte 4091 ([kept_to_the_tail]). *)
Theorem streamed_record_equals_parsed_line fields b v' :
  record_text fields b → rbind (feed b new_parser) finish_record = Ok v' → lossless fields = true →
  ∀ active, apply_rollout_value v' active = apply_rollout_value (JObject fields) active.
Proof.
  intros Hb Hv Hl active. rewrite (parser_computes_visit fields b) in Hv by done.
  destruct (visit_record fields) as [r|] eqn:Er; [|done]. cbn [rbind] in Hv. simplify_eq.
  apply visit_record_view in Er as ->. unfold into_value.
  unfold lossless in Hl. unfold root_view.
  destruct (get_object "payload" fields) as [pf|] eqn:Ep.
  - apply andb_prop in Hl as [Hlast Hcontent].
    apply apply_same.
    + unfold get_str at 1. cbn [sr_top_type payload_view sr_payload_object]. record_members. cbn [get].
      literal_keys. cbv iota. apply as_str_string.
    + cbn [sr_top_type payload_view sr_payload_object]. record_members. cbn [get]. literal_keys. cbv iota.
      cbn [mbind option_bind as_object]. unfold get_object in Ep. rewrite Ep.
      apply (payload_view_same (get_str "type" fields)).
      * destruct (get_str "last_agent_message" pf); [by apply bool_decide_eq_true in Hlast | done].
      * destruct (get (key "content") pf ≫= as_array); [|done]. apply andb_prop in Hcontent as [Hn Hi].
        apply andb_prop in Hn as [H1%Nat.leb_le H2%Nat.leb_le]. done.
  - apply apply_same.
    + unfold get_str at 1. cbn [sr_top_type sr_payload_object]. rewrite app_nil_r. record_members. apply as_str_string.
    + cbn [sr_top_type sr_payload_object]. rewrite app_nil_r. record_members.
      unfold get_object in Ep. by rewrite Ep.
Qed.
End serde.
