(* ===== verification/StoreJobs.v ===== *)
(** * Jobs: the bounded per-task FIFO queue (app/host/src/store.rs)

    Operations of the [jobs] table: [enqueue], [claim_next_runnable], [mark_completed],
    [mark_failed], [pending_count], [latest_job_outcome] and the recovery on open.
    [jobs_inv] is what the queue promises: at most four running jobs, at most one per
    task, at most twelve pending per task, FIFO sequence numbers. *)

From S2P Require Import Prelude Bytes Sql StoreTypes.

(** ** Statements *)

Definition with_jobs (t : list JobRow) (db : Db) : Db :=
  {| db_bindings := db_bindings db; db_jobs := t; db_job_sequence := db_job_sequence db;
     db_completions := db_completions db; db_cursors := db_cursors db;
     db_summaries := db_summaries db; db_attempts := db_attempts db;
     db_leases := db_leases db |}.

Definition update_jobs (P : JobRow → Prop) `{∀ r, Decision (P r)} (f : JobRow → JobRow)
    (db : Db) : Db * Z :=
  (with_jobs (update_rows P f (db_jobs db)) db, count_rows P (db_jobs db)).

(** [INSERT INTO jobs]: appends the row and advances the AUTOINCREMENT counter to it. *)
Definition insert_job (r : JobRow) (db : Db) : Db * Z :=
  ({| db_bindings := db_bindings db; db_jobs := db_jobs db ++ [r];
      db_job_sequence := jb_sequence r;
      db_completions := db_completions db; db_cursors := db_cursors db;
      db_summaries := db_summaries db; db_attempts := db_attempts db;
      db_leases := db_leases db |}, 1).

(** The next AUTOINCREMENT value; SQLite reports an error when none is left. *)
Definition next_job_sequence (db : Db) : result StoreError Z :=
  if db_job_sequence db <? i64_max then Ok (db_job_sequence db + 1) else Err Sqlite.

(** [state IN ('queued', 'running')] of a task *)
Definition pending (task_id : text) (r : JobRow) : Prop :=
  jb_task_id r = task_id ∧ (jb_state r = Queued ∨ jb_state r = Running).

#[export] Instance pending_dec task_id r : Decision (pending task_id r).
Proof. unfold pending. apply _. Defined.

(** A queued job with no running and no earlier queued job of its task. *)
Definition runnable (jobs : list JobRow) (r : JobRow) : Prop :=
  jb_state r = Queued
  ∧ ¬ Exists (λ s, jb_task_id s = jb_task_id r ∧ jb_state s = Running) jobs
  ∧ ¬ Exists (λ s, jb_task_id s = jb_task_id r ∧ jb_state s = Queued
                   ∧ jb_sequence s < jb_sequence r) jobs.

#[export] Instance runnable_dec jobs r : Decision (runnable jobs r).
Proof. unfold runnable. apply _. Defined.

Definition sequence_le (a b : JobRow) : bool := jb_sequence a <=? jb_sequence b.

Definition map_job (r : JobRow) : result StoreError Job :=
  let? slot := sql_u8 (jb_slot r) in
  let? recovery_count := sql_u32 (jb_recovery_count r) in
  Ok {| job_request_id := jb_request_id r; job_task_id := jb_task_id r; job_slot := slot;
        job_generation := as_u64 (jb_generation r); job_prompt := jb_prompt r;
        job_cwd := decode_path (jb_cwd r); job_recovery_count := recovery_count;
        job_claim_generation := as_u64 (jb_claim_generation r) |}.

(** ** Operations *)

(** [existing.0 == .. && existing.1 == .. && ..] with its early [?] *)
Definition exact_replay (job : NewJob) (e : JobRow) : result StoreError bool :=
  let? slot := sql_u8 (jb_slot e) in
  if bool_decide (jb_task_id e = nj_task_id job) && (slot =? nj_slot job) then
    let? generation := to_i64 (nj_generation job) in
    Ok ((jb_generation e =? generation) && bool_decide (jb_prompt e = nj_prompt job)
        && bool_decide (jb_cwd e = encode_path (nj_cwd job)))
  else Ok false.

Definition enqueue (now : Z) (job : NewJob) : Tx EnqueueOutcome :=
  let! _ := lift (validate_slot (nj_slot job)) in
  let! _ := lift (validate_job job) in
  let! existing := query (λ db, query_row (λ r, jb_request_id r = nj_request_id job) (db_jobs db)) in
  match existing with
  | Some e =>
      let! replay := lift (exact_replay job e) in
      if replay : bool then tret EnqueueReplay else throw RequestIdConflict
  | None =>
      let! pending := query_result (λ db, sql_u32 (count_rows (pending (nj_task_id job)) (db_jobs db))) in
      if MAX_PENDING_JOBS_PER_TASK <=? pending then throw TaskQueueFull
      else
        let! generation := lift (to_i64 (nj_generation job)) in
        let! sequence := query_result next_job_sequence in
        let! _ := exec (insert_job
          {| jb_sequence := sequence; jb_request_id := nj_request_id job;
             jb_task_id := nj_task_id job; jb_slot := nj_slot job;
             jb_generation := generation; jb_prompt := nj_prompt job;
             jb_cwd := encode_path (nj_cwd job); jb_state := Queued;
             jb_recovery_count := 0; jb_claim_generation := 0; jb_failure_kind := None;
             jb_created_at := now; jb_updated_at := now |}) in
        tret EnqueueInserted
  end.

Definition claim_next_runnable (now : Z) : Tx (option Job) :=
  let! db0 := query id in
  let! running := query_result (λ db, sql_u32 (count_rows job_running (db_jobs db))) in
  if MAX_GLOBAL_RUNNING_JOBS <=? running then tret None
  else
    let! candidate := query (λ db,
      head (order_by sequence_le (filter (runnable (db_jobs db)) (db_jobs db)))) in
    match candidate with
    | None => tret None
    | Some c =>
        let request_id := jb_request_id c in
        let! next_claim_generation :=
          lift (of_option ClaimGenerationOutOfRange (checked_add i64_max (jb_claim_generation c) 1)) in
        let! changed := exec (update_jobs
          (λ r, jb_request_id r = request_id ∧ jb_state r = Queued)
          (λ r, set_job Running (jb_recovery_count r) next_claim_generation None now r)) in
        if negb (changed =? 1) then rollback_ok db0 None
        else
          let! job := query_result (λ db,
            let? r := of_option Sqlite
              (query_row (λ r, jb_request_id r = request_id) (db_jobs db)) in
            map_job r) in
          tret (Some job)
    end.

Definition mark_completed (now : Z) (request_id : text) (claim_generation : Z) : Tx bool :=
  let! generation := lift (to_i64 claim_generation) in
  let! changed := exec (update_jobs
    (λ r, jb_request_id r = request_id ∧ jb_state r = Running ∧ jb_claim_generation r = generation)
    (λ r, set_job Completed (jb_recovery_count r) (jb_claim_generation r) (jb_failure_kind r) now r)) in
  tret (changed =? 1).

Definition mark_failed (now : Z) (request_id : text) (claim_generation : Z)
    (failure : JobFailureKind) : Tx bool :=
  let! generation := lift (to_i64 claim_generation) in
  let! changed := exec (update_jobs
    (λ r, jb_request_id r = request_id ∧ jb_state r = Running ∧ jb_claim_generation r = generation)
    (λ r, set_job Failed (jb_recovery_count r) (jb_claim_generation r) (Some failure) now r)) in
  tret (changed =? 1).

Definition pending_count (task_id : text) : Tx Z :=
  query_result (λ db, sql_u32 (count_rows (pending task_id) (db_jobs db))).

Definition latest_job_outcome (task_id : text) (generation : Z)
    : Tx (option (text * option text)) :=
  let! generation := lift (to_i64 generation) in
  query (λ db,
    (λ r, (job_state_text (jb_state r), failure_as_str <$> jb_failure_kind r)) <$>
    head (order_by (λ a b, sequence_le b a)
      (filter (λ r, jb_task_id r = task_id ∧ jb_generation r = generation) (db_jobs db)))).

Definition recover_interrupted_jobs (now : Z) : Tx Z :=
  exec (update_jobs job_running
    (λ r, set_job Queued (jb_recovery_count r + 1) (jb_claim_generation r)
            (jb_failure_kind r) now r)).

(** ** The queue invariant *)

Record jobs_inv (db : Db) : Prop := {
  ji_schema : jobs_schema (db_jobs db);
  ji_running : count_rows job_running (db_jobs db) ≤ MAX_GLOBAL_RUNNING_JOBS;
  ji_pending task : count_rows (pending task) (db_jobs db) ≤ MAX_PENDING_JOBS_PER_TASK;
  ji_sequence : Forall (λ r, jb_sequence r ≤ db_job_sequence db) (db_jobs db);
  ji_range : Forall (λ r, jb_generation r ≤ i64_max ∧ jb_claim_generation r ≤ i64_max) (db_jobs db);
}.

(** The tables that job operations do not touch. *)
Definition same_other_tables (db db' : Db) : Prop :=
  db_bindings db' = db_bindings db ∧ db_completions db' = db_completions db
  ∧ db_cursors db' = db_cursors db ∧ db_summaries db' = db_summaries db
  ∧ db_attempts db' = db_attempts db ∧ db_leases db' = db_leases db.

Lemma schema_jobs db : schema_ok db → jobs_schema (db_jobs db).
Proof. unfold schema_ok. tauto. Qed.

Lemma schema_ok_jobs db db' :
  schema_ok db → same_other_tables db db' → jobs_schema (db_jobs db') → schema_ok db'.
Proof. unfold schema_ok. intros Hs (->&->&->&->&->&->) ?. tauto. Qed.

(** An update that keeps sequence, request id and task of each row keeps the unique
    indexes, provided the rows that become running were alone. *)
Lemma jobs_schema_update P `{∀ r, Decision (P r)} f t :
  jobs_schema t →
  (∀ r, r ∈ t → P r → jb_sequence (f r) = jb_sequence r ∧ jb_request_id (f r) = jb_request_id r
     ∧ jb_task_id (f r) = jb_task_id r ∧ job_check (f r)) →
  unique_on job_running jb_task_id (update_rows P f t) →
  jobs_schema (update_rows P f t).
Proof.
  intros (H1 & H2 & H3 & H4) Hf Hr. split_and!; [..|done|].
  - apply unique_on_update; [done|]. naive_solver.
  - apply unique_on_update; [done|]. naive_solver.
  - apply Forall_forall. intros r (s & Hs & ->)%elem_of_update. rewrite Forall_forall in H4.
    unfold upd. case_decide; [|by apply H4]. by destruct (Hf s) as (?&?&?&?).
Qed.

Lemma job_sequence_unique t r s :
  jobs_schema t → r ∈ t → s ∈ t → jb_sequence r = jb_sequence s → r = s.
Proof. intros (H1 & _) ???. by eapply (unique_on_elem any jb_sequence). Qed.

Lemma job_request_unique t r s :
  jobs_schema t → r ∈ t → s ∈ t → jb_request_id r = jb_request_id s → r = s.
Proof. intros (_ & H1 & _) ???. by eapply (unique_on_elem any jb_request_id). Qed.

Lemma count_request_le P `{∀ r, Decision (P r)} req t :
  jobs_schema t → (∀ r, P r → jb_request_id r = req) → count_rows P t ≤ 1.
Proof.
  intros (_ & H1 & _) HP. eapply (count_rows_unique any jb_request_id); [done|].
  intros r _ ?. split; [done|]. by apply HP.
Qed.

Lemma job_row_check t r : jobs_schema t → r ∈ t → job_check r.
Proof. intros (_&_&_&Hc) Hr. rewrite Forall_forall in Hc. auto. Qed.

(** *** The candidate of [claim_next_runnable] *)

Lemma head_order_by_least le (t : list JobRow) r :
  (∀ a b, le a b = false → le b a = true) → (∀ a b c, le a b = true → le b c = true → le a c = true) →
  (∀ a, le a a = true) →
  head (order_by le t) = Some r → r ∈ t ∧ ∀ s, s ∈ t → le r s = true.
Proof.
  intros Htot Htrans Hrefl Hh.
  pose proof (order_by_sorted le t Htot) as Hs.
  assert (Hin : ∀ s, s ∈ t ↔ s ∈ order_by le t) by (intros; by rewrite elem_of_order_by).
  destruct (order_by le t) as [|r' l]; [done|]. injection Hh as ->.
  split; [rewrite Hin; constructor|]. intros s [->|Hl]%Hin%elem_of_cons; [done|].
  apply Sorted_StronglySorted in Hs; [|intros a b c Hab Hbc;
    apply Is_true_true in Hab, Hbc; apply Is_true_true; by eapply Htrans].
  inversion_clear Hs as [|?? _ Hall]. rewrite Forall_forall in Hall.
  by apply Is_true_true, Hall.
Qed.

Lemma candidate_spec t c :
  head (order_by sequence_le (filter (runnable t) t)) = Some c →
  c ∈ t ∧ runnable t c ∧ ∀ s, s ∈ t → runnable t s → jb_sequence c ≤ jb_sequence s.
Proof.
  intros Hh. apply head_order_by_least in Hh.
  - destruct Hh as [[? ?]%list_elem_of_filter Hle]. split_and!; [done..|].
    intros s ??. apply Z.leb_le, Hle. by apply list_elem_of_filter.
  - unfold sequence_le. intros a b ?%Z.leb_gt. apply Z.leb_le. lia.
  - unfold sequence_le. intros a b c' ?%Z.leb_le ?%Z.leb_le. apply Z.leb_le. lia.
  - intros a. apply Z.leb_refl.
Qed.

Lemma no_candidate t :
  head (order_by sequence_le (filter (runnable t) t)) = None → ∀ s, s ∈ t → ¬ runnable t s.
Proof.
  intros Hh s Hs Hr. assert (s ∈ order_by sequence_le (filter (runnable t) t)).
  { by rewrite elem_of_order_by, list_elem_of_filter. }
  destruct (order_by _ _); [by eapply not_elem_of_nil|done].
Qed.

Lemma jobs_inv_frame db db' :
  db_jobs db' = db_jobs db → db_job_sequence db' = db_job_sequence db → jobs_inv db → jobs_inv db'.
Proof. intros E1 E2 []. by split; rewrite ?E1, ?E2. Qed.

(** *** What the operations did when they succeed *)

Definition new_job_row (now : Z) (job : NewJob) (sequence : Z) : JobRow :=
  {| jb_sequence := sequence; jb_request_id := nj_request_id job;
     jb_task_id := nj_task_id job; jb_slot := nj_slot job;
     jb_generation := nj_generation job; jb_prompt := nj_prompt job;
     jb_cwd := encode_path (nj_cwd job); jb_state := Queued;
     jb_recovery_count := 0; jb_claim_generation := 0; jb_failure_kind := None;
     jb_created_at := now; jb_updated_at := now |}.

Definition same_job (job : NewJob) (e : JobRow) : Prop :=
  jb_task_id e = nj_task_id job ∧ jb_slot e = nj_slot job
  ∧ jb_generation e = nj_generation job ∧ jb_prompt e = nj_prompt job
  ∧ jb_cwd e = encode_path (nj_cwd job).

Lemma exact_replay_true job e :
  exact_replay job e = Ok true → same_job job e.
Proof.
  unfold exact_replay. intros Hr. run_ok_step Hr. apply sql_u8_ok in Hrun as [-> _].
  destruct (_ && _) eqn:E; [|discriminate]. run_ok_step Hr. injection Hr as Hr.
  apply to_i64_ok in Hrun as [-> _]. bool_prop. by split_and!.
Qed.

Lemma exact_replay_same job e :
  same_job job e → in_u8 (nj_slot job) → nj_generation job ≤ i64_max →
  exact_replay job e = Ok true.
Proof.
  intros (E1&E2&E3&E4&E5) Hs Hg. unfold exact_replay.
  rewrite E2, sql_u8_fit by done. cbn [rbind]. rewrite E1, E3, E4, E5, bool_decide_true, Z.eqb_refl by done. cbn [andb].
  rewrite to_i64_fit by done. cbn [rbind].
  by rewrite Z.eqb_refl, !bool_decide_true.
Qed.

Lemma enqueue_ok now job db o db' :
  enqueue now job db = Ok (o, db') →
  validate_slot (nj_slot job) = Ok tt ∧ validate_job job = Ok tt ∧
  (o = EnqueueReplay ∧ db' = db ∧ (∃ e, e ∈ db_jobs db ∧ jb_request_id e = nj_request_id job
      ∧ same_job job e)
   ∨ o = EnqueueInserted ∧ (∀ e, e ∈ db_jobs db → jb_request_id e ≠ nj_request_id job)
     ∧ count_rows (pending (nj_task_id job)) (db_jobs db) < MAX_PENDING_JOBS_PER_TASK
     ∧ nj_generation job ≤ i64_max ∧ db_job_sequence db < i64_max
     ∧ db' = (insert_job (new_job_row now job (db_job_sequence db + 1)) db).1
     ∧ schema_ok db').
Proof.
  unfold enqueue. intros Hr. run_tx Hr; destruct a, a0; split_and!; try done.
  - left. apply exact_replay_true in Hrun1.
    apply query_row_some in Hcase as [? ?]. eauto 10.
  - right. apply sql_u32_ok in Hrun1 as [-> _]. apply to_i64_ok in Hrun2 as [-> ?].
    unfold next_job_sequence in Hrun3. case_match eqn:Hq; [|done]. injection Hrun3 as <-. bool_prop. injection Hrun4 as <- <-.
    split_and!; try done. intros e He. by eapply query_row_none_1 in Hcase.
Qed.

(** The effect of a successful claim of row [c]. *)
Definition claimed (now : Z) (c : JobRow) (db : Db) : Db :=
  (update_jobs (λ r, jb_request_id r = jb_request_id c ∧ jb_state r = Queued)
     (λ r, set_job Running (jb_recovery_count r) (jb_claim_generation c + 1) None now r) db).1.

Definition claim_row (now : Z) (c : JobRow) : JobRow :=
  set_job Running (jb_recovery_count c) (jb_claim_generation c + 1) None now c.

(** [c] is the row the queue hands out next. *)
Definition next_claim (t : list JobRow) (c : JobRow) : Prop :=
  c ∈ t ∧ runnable t c ∧ (∀ s, s ∈ t → runnable t s → jb_sequence c ≤ jb_sequence s).

Lemma claim_update_elem now c t r :
  jobs_schema t → c ∈ t → jb_state c = Queued →
  r ∈ update_rows (λ r, jb_request_id r = jb_request_id c ∧ jb_state r = Queued)
        (λ r, set_job Running (jb_recovery_count r) (jb_claim_generation c + 1) None now r) t ↔
  r = claim_row now c ∨ r ∈ t ∧ r ≠ c.
Proof.
  intros Hs Hc Hq. rewrite elem_of_update. unfold upd. split.
  - intros (s & Hin & ->). case_decide as Hd.
    + left. by rewrite (job_request_unique t s c Hs Hin Hc (proj1 Hd)).
    + right. split; [done|]. intros ->. tauto.
  - intros [->|[Hin Hne]].
    + exists c. split; [done|]. by rewrite decide_True.
    + exists r. split; [done|]. rewrite decide_False; [done|]. intros [Hd _].
      by apply Hne, (job_request_unique t).
Qed.

Lemma map_claim_row now c :
  job_check c → jb_claim_generation c + 1 ≤ i64_max → jb_generation c ≤ i64_max →
  map_job (claim_row now c) =
    Ok {| job_request_id := jb_request_id c; job_task_id := jb_task_id c;
          job_slot := jb_slot c; job_generation := jb_generation c;
          job_prompt := jb_prompt c; job_cwd := decode_path (jb_cwd c);
          job_recovery_count := jb_recovery_count c;
          job_claim_generation := jb_claim_generation c + 1 |}.
Proof.
  intros (H1&H2&H3&H4) ? ?. unfold slot_check in H1. unfold map_job, claim_row. simpl.
  rewrite sql_u8_fit by width_lia. cbn [rbind].
  rewrite sql_u32_fit by width_lia. cbn [rbind].
  by rewrite !as_u64_small by width_lia.
Qed.

Lemma claim_changed c t :
  jobs_schema t → c ∈ t → jb_state c = Queued →
  count_rows (λ r, jb_request_id r = jb_request_id c ∧ jb_state r = Queued) t = 1.
Proof.
  intros Hs Hc Hq.
  assert (count_rows (λ r, jb_request_id r = jb_request_id c ∧ jb_state r = Queued) t ≤ 1)
    by (apply (count_request_le _ (jb_request_id c)); [done|]; tauto).
  assert (0 < count_rows (λ r, jb_request_id r = jb_request_id c ∧ jb_state r = Queued) t)
    by (apply count_rows_pos; eauto). lia.
Qed.

Lemma claim_next_ok now db o db' :
  jobs_schema (db_jobs db) → claim_next_runnable now db = Ok (o, db') →
  (o = None ∧ db' = db
    ∧ (MAX_GLOBAL_RUNNING_JOBS ≤ count_rows job_running (db_jobs db)
       ∨ ∀ s, s ∈ db_jobs db → ¬ runnable (db_jobs db) s))
  ∨ ∃ c job, o = Some job ∧ next_claim (db_jobs db) c
    ∧ count_rows job_running (db_jobs db) < MAX_GLOBAL_RUNNING_JOBS
    ∧ jb_claim_generation c + 1 ≤ i64_max
    ∧ map_job (claim_row now c) = Ok job ∧ db' = claimed now c db ∧ schema_ok db'.
Proof.
  unfold claim_next_runnable. intros Hs Hr. run_tx Hr.
  all: apply sql_u32_ok in Hrun as [-> _]; bool_prop.
  { auto. }
  3:{ left. split_and!; [done..|]. right. by apply no_candidate. }
  all: apply candidate_spec in Hcase; destruct Hcase as (Hc & Hrunnable & Hleast).
  all: destruct (checked_add _ _ _) as [g|] eqn:Eg in Hrun0; [|done]; injection Hrun0 as <-.
  all: apply checked_add_some in Eg as [-> ?]; injection Hrun1 as <- <-.
  all: rewrite claim_changed in Hif0; [try done|done|done|apply Hrunnable].
  right. destruct (query_row _ _) as [r|] eqn:Eq in Hrun2; [|done]. simpl in Hrun2.
  apply query_row_some in Eq as [Hr Hreq].
  apply (claim_update_elem now j) in Hr; [|done..|apply Hrunnable].
  destruct Hr as [->|[Hr Hne]]; [|by destruct Hne; eapply job_request_unique].
  eexists j, _. by split_and!.
Qed.

(** *** Preservation of the queue invariant *)

(** An update that no row can use to enter the running or the pending set. *)
Lemma jobs_inv_update P `{∀ r, Decision (P r)} f db :
  jobs_inv db →
  (∀ r, r ∈ db_jobs db → P r →
     jb_sequence (f r) = jb_sequence r ∧ jb_request_id (f r) = jb_request_id r
     ∧ jb_task_id (f r) = jb_task_id r ∧ jb_generation (f r) = jb_generation r
     ∧ jb_claim_generation (f r) = jb_claim_generation r ∧ jb_state r = Running
     ∧ jb_state (f r) ≠ Running) →
  jobs_schema (update_rows P f (db_jobs db)) →
  jobs_inv (with_jobs (update_rows P f (db_jobs db)) db).
Proof.
  intros [Hs Hr Hp Hq Hg] Hf Hs'. split; simpl; [done|..].
  - etrans; [apply count_rows_update_le|exact Hr]. unfold job_running. naive_solver.
  - intros task. etrans; [apply count_rows_update_le|exact (Hp task)].
    unfold pending. intros r Hin HP ?. destruct (Hf r Hin HP) as (_&_&E&_&_&?&_).
    rewrite E in *. tauto.
  - apply Forall_forall. intros r (s & Hin & ->)%elem_of_update. rewrite Forall_forall in Hq.
    unfold upd. case_decide; [|by apply Hq]. destruct (Hf s) as (->&_); [done..|by apply Hq].
  - apply Forall_forall. intros r (s & Hin & ->)%elem_of_update. rewrite Forall_forall in Hg.
    unfold upd. case_decide; [|by apply Hg]. destruct (Hf s) as (_&_&_&->&->&_); [done..|by apply Hg].
Qed.

Lemma enqueue_inv now job db o db' :
  enqueue now job db = Ok (o, db') → jobs_inv db → jobs_inv db' ∧ same_other_tables db db'.
Proof.
  intros Hr [Hs Hrun Hp Hq Hg]. apply enqueue_ok in Hr as (_ & _ & Hr).
  destruct Hr as [(-> & -> & _)|(-> & Hnew & Hpend & Hgen & Hseq & -> & Hs')]; [done|].
  split; [|done]. split; simpl.
  - apply (schema_jobs _ Hs').
  - rewrite count_rows_app, count_rows_cons. change (count_rows job_running []) with 0.
    rewrite decide_False by (by intros [=]). lia.
  - intros task. rewrite count_rows_app, count_rows_cons.
    change (count_rows (pending task) []) with 0. specialize (Hp task). case_decide as Hd; [|lia].
    destruct Hd as [Ht _]. simpl in Ht. subst task. lia.
  - apply Forall_app. split; [|apply Forall_singleton; simpl; lia].
    eapply Forall_impl; [exact Hq|]. simpl. lia.
  - apply Forall_app. split; [done|]. apply Forall_singleton. simpl. unfold i64_max in *. lia.
Qed.

Lemma claimed_jobs_inv now c db :
  jobs_inv db → next_claim (db_jobs db) c →
  count_rows job_running (db_jobs db) < MAX_GLOBAL_RUNNING_JOBS →
  jb_claim_generation c + 1 ≤ i64_max → jobs_schema (db_jobs (claimed now c db)) →
  jobs_inv (claimed now c db).
Proof.
  intros [Hs Hrun Hp Hq Hg] (Hc & Hrunnable & _) ? ? Hs'.
  pose proof (claim_changed c (db_jobs db) Hs Hc (proj1 Hrunnable)) as H1.
  split; [done|..]; simpl.
  - rewrite count_rows_update_enter, H1 by (intros r _ [_ E]; unfold job_running; by rewrite E). lia.
  - intros task. rewrite count_rows_update_same; [done|].
    intros r ? [_ E]. unfold pending. simpl. rewrite E. naive_solver.
  - apply Forall_forall. intros r Hr. rewrite Forall_forall in Hq.
    apply (claim_update_elem now c) in Hr as [->|[? ?]]; [exact (Hq c Hc)|by apply Hq|done..|apply Hrunnable].
  - apply Forall_forall. intros r Hr. rewrite Forall_forall in Hg.
    apply (claim_update_elem now c) in Hr as [->|[? ?]];
      [simpl; split; [apply (Hg c Hc)|lia]|by apply Hg|done..|apply Hrunnable].
Qed.

Lemma claim_next_inv now db o db' :
  claim_next_runnable now db = Ok (o, db') → jobs_inv db →
  jobs_inv db' ∧ same_other_tables db db'.
Proof.
  intros Hr Hi. apply claim_next_ok in Hr; [|apply Hi].
  destruct Hr as [(_ & -> & _)|(c & job & -> & Hc & Hlt & Hg & _ & -> & Hs')]; [done|].
  split; [|done]. by apply claimed_jobs_inv, schema_jobs.
Qed.

Lemma mark_completed_ok now req g db b db' :
  mark_completed now req g db = Ok (b, db') →
  g ≤ i64_max ∧ schema_ok db'
  ∧ db' = (update_jobs (λ r, jb_request_id r = req ∧ jb_state r = Running ∧ jb_claim_generation r = g)
      (λ r, set_job Completed (jb_recovery_count r) (jb_claim_generation r) (jb_failure_kind r) now r) db).1
  ∧ b = (count_rows (λ r, jb_request_id r = req ∧ jb_state r = Running ∧ jb_claim_generation r = g)
           (db_jobs db) =? 1).
Proof.
  unfold mark_completed. intros Hr. run_tx Hr. apply to_i64_ok in Hrun as [-> ?].
  by injection Hrun0 as <- <-.
Qed.

Lemma mark_failed_ok now req g k db b db' :
  mark_failed now req g k db = Ok (b, db') →
  g ≤ i64_max ∧ schema_ok db'
  ∧ db' = (update_jobs (λ r, jb_request_id r = req ∧ jb_state r = Running ∧ jb_claim_generation r = g)
      (λ r, set_job Failed (jb_recovery_count r) (jb_claim_generation r) (Some k) now r) db).1
  ∧ b = (count_rows (λ r, jb_request_id r = req ∧ jb_state r = Running ∧ jb_claim_generation r = g)
           (db_jobs db) =? 1).
Proof.
  unfold mark_failed. intros Hr. run_tx Hr. apply to_i64_ok in Hrun as [-> ?].
  by injection Hrun0 as <- <-.
Qed.

Lemma mark_completed_inv now req g db b db' :
  mark_completed now req g db = Ok (b, db') → jobs_inv db →
  jobs_inv db' ∧ same_other_tables db db'.
Proof.
  intros (_ & Hs & -> & _)%mark_completed_ok Hi. split; [|done].
  apply jobs_inv_update; [done|naive_solver|by apply schema_jobs in Hs].
Qed.

Lemma mark_failed_inv now req g k db b db' :
  mark_failed now req g k db = Ok (b, db') → jobs_inv db →
  jobs_inv db' ∧ same_other_tables db db'.
Proof.
  intros (_ & Hs & -> & _)%mark_failed_ok Hi. split; [|done].
  apply jobs_inv_update; [done|naive_solver|by apply schema_jobs in Hs].
Qed.

Lemma recover_jobs_inv now db n db' :
  recover_interrupted_jobs now db = Ok (n, db') → jobs_inv db →
  jobs_inv db' ∧ same_other_tables db db'.
Proof.
  unfold recover_interrupted_jobs. intros Hr Hi. run_tx Hr. injection Hr as <- <-.
  split; [|done]. apply jobs_inv_update; [done|naive_solver|by apply schema_jobs in Hschema].
Qed.

(** *** The operations on every branch *)

(** Forward evaluation of a transaction, one statement at a time. *)
Lemma tbind_query {A B} (q : Db → A) (k : A → Tx B) db : tbind (query q) k db = k (q db) db.
Proof. done. Qed.
Lemma tbind_query_result {A B} (q : Db → result StoreError A) (k : A → Tx B) db a :
  q db = Ok a → tbind (query_result q) k db = k a db.
Proof. unfold tbind, query_result. by intros ->. Qed.
Lemma tbind_lift {A B} (r : result StoreError A) (k : A → Tx B) db a :
  r = Ok a → tbind (lift r) k db = k a db.
Proof. unfold tbind, lift. by intros ->. Qed.
Lemma tbind_exec {B} stmt (k : Z → Tx B) db db' n :
  stmt db = (db', n) → schema_ok db' → tbind (exec stmt) k db = k n db'.
Proof. intros Hs Ho. unfold tbind. by rewrite (exec_run _ _ _ _ Hs Ho). Qed.

Lemma count_rows_fits {R} (P : R → Prop) `{∀ r, Decision (P r)} (t : list R) :
  count_rows P t ≤ u32_max → sql_u32 (count_rows P t) = Ok (count_rows P t).
Proof. intros. apply sql_u32_fit. pose proof (count_rows_nonneg P t). by split. Qed.

Lemma query_request t req e :
  jobs_schema t → e ∈ t → jb_request_id e = req →
  query_row (λ r, jb_request_id r = req) t = Some e.
Proof.
  intros (_ & Hu & _) He <-. by eapply (query_row_unique any jb_request_id).
Qed.

Lemma query_request_none t req :
  (∀ e, e ∈ t → jb_request_id e ≠ req) → query_row (λ r, jb_request_id r = req) t = None.
Proof. intros. by apply query_row_none. Qed.

Lemma insert_job_schema now job seq db :
  schema_ok db → jobs_inv db → validate_slot (nj_slot job) = Ok tt →
  0 ≤ nj_generation job → seq = db_job_sequence db + 1 →
  (∀ e, e ∈ db_jobs db → jb_request_id e ≠ nj_request_id job) →
  schema_ok (insert_job (new_job_row now job seq) db).1.
Proof.
  intros Hs [ (H1&H2&H3&H4) _ _ Hq _] Hslot Hgen -> Hnew.
  eapply schema_ok_jobs; [exact Hs|done|]. simpl. split_and!.
  - apply unique_on_snoc. split; [done|]. intros _ s Hin _. simpl.
    rewrite Forall_forall in Hq. specialize (Hq s Hin). simpl in Hq. lia.
  - apply unique_on_snoc. split; [done|]. intros _ s Hin _. by apply Hnew.
  - apply unique_on_snoc. by split.
  - apply Forall_app. split; [done|]. apply Forall_singleton. unfold job_check. simpl.
    unfold validate_slot in Hslot. apply require_ok in Hslot. unfold slot_check.
    bool_prop. lia.
Qed.

Lemma claimed_schema now c db :
  schema_ok db → jobs_inv db → next_claim (db_jobs db) c → schema_ok (claimed now c db).
Proof.
  intros Hs Hi (Hc & (Hq & Hnr & _) & _). eapply schema_ok_jobs; [exact Hs|done|].
  apply jobs_schema_update; [apply Hi|..].
  - intros r Hr _. simpl. split_and!; [done..|].
    destruct (job_row_check _ _ (ji_schema _ Hi) Hr) as (?&?&?&?).
    destruct (job_row_check _ _ (ji_schema _ Hi) Hc) as (_&_&_&?).
    unfold job_check. simpl. split_and!; [done|lia..].
  - apply unique_on_update_enter; [apply Hi|..].
    + intros i j r s Hr Hs' [Er _] [Es _] _ _ _.
      destruct (ji_schema _ Hi) as (_ & Hu & _). apply (Hu i j r s); [done..|congruence].
    + intros r s Hr Hs' [Er Eq] _ _ HRun E. apply Hnr. apply list.Exists_exists.
      exists s. split; [done|]. split; [|done]. simpl in E. rewrite E. f_equal.
      by eapply job_request_unique; [apply Hi|..].
Qed.

Lemma claim_next_run now c db :
  schema_ok db → jobs_inv db → next_claim (db_jobs db) c →
  head (order_by sequence_le (filter (runnable (db_jobs db)) (db_jobs db))) = Some c →
  count_rows job_running (db_jobs db) < MAX_GLOBAL_RUNNING_JOBS →
  jb_claim_generation c < i64_max →
  ∃ job, map_job (claim_row now c) = Ok job
    ∧ claim_next_runnable now db = Ok (Some job, claimed now c db).
Proof.
  intros Hs Hi Hc Hhead Hlt Hgen. destruct Hc as (Hin & Hrunnable & Hleast).
  assert (Hrange : jb_generation c ≤ i64_max).
  { pose proof (ji_range _ Hi) as Hr. rewrite Forall_forall in Hr. by apply Hr. }
  pose proof (job_row_check _ _ (ji_schema _ Hi) Hin) as Hcheck.
  eexists. split; [apply map_claim_row; [done|lia|done]|].
  unfold claim_next_runnable. rewrite tbind_query.
  rewrite (tbind_query_result _ _ _ (count_rows job_running (db_jobs db))).
  2:{ apply count_rows_fits. unfold MAX_GLOBAL_RUNNING_JOBS in Hlt. width_lia. }
  rewrite (proj2 (Z.leb_gt _ _)) by done. rewrite tbind_query. unfold id. rewrite Hhead.
  rewrite (tbind_lift _ _ _ (jb_claim_generation c + 1)).
  2:{ unfold checked_add. by rewrite (proj2 (Z.leb_le _ _)) by lia. }
  erewrite tbind_exec; [|reflexivity|by apply claimed_schema].
  rewrite claim_changed by (apply Hi || done || apply Hrunnable). cbn [negb Z.eqb Pos.eqb].
  erewrite tbind_query_result; [reflexivity|]. cbv beta.
  erewrite (query_request _ _ (claim_row now c)).
  - cbn [of_option rbind]. apply map_claim_row; [done|lia|done].
  - apply (schema_jobs (claimed now c db)). by apply claimed_schema.
  - apply (claim_update_elem now c); [apply Hi|done|apply Hrunnable|by left].
  - done.
Qed.

(** The earliest queued job of a task without a running job is runnable. *)
Lemma earliest_runnable t q :
  q ∈ t → jb_state q = Queued →
  (∀ s, s ∈ t → jb_task_id s = jb_task_id q → jb_state s ≠ Running) →
  ∃ r, r ∈ t ∧ runnable t r.
Proof.
  intros Hq HQ Hnr.
  destruct (head (order_by sequence_le
    (filter (λ r, jb_task_id r = jb_task_id q ∧ jb_state r = Queued) t))) as [m|] eqn:Eh.
  - apply head_order_by_least in Eh.
    2:{ unfold sequence_le. intros a b ?%Z.leb_gt. apply Z.leb_le. lia. }
    2:{ unfold sequence_le. intros a b c' ?%Z.leb_le ?%Z.leb_le. apply Z.leb_le. lia. }
    2:{ intros a. apply Z.leb_refl. }
    destruct Eh as [[[Ht Hm] Hin]%list_elem_of_filter Hle]. exists m. split; [done|].
    split_and!; [done|..]; intros (s & Hs & E)%list.Exists_exists.
    + destruct E as [E ?]. apply (Hnr s Hs); [congruence|done].
    + destruct E as (E & ? & ?). specialize (Hle s).
      rewrite list_elem_of_filter in Hle. unfold sequence_le in Hle.
      specialize (Hle ltac:(split; [split; [congruence|done]|done])). lia.
  - assert (q ∈ order_by sequence_le
      (filter (λ r, jb_task_id r = jb_task_id q ∧ jb_state r = Queued) t)).
    { by rewrite elem_of_order_by, list_elem_of_filter. }
    destruct (order_by _ _); [by apply not_elem_of_nil in H|done].
Qed.

Lemma runnable_first t r s :
  runnable t r → s ∈ t → jb_task_id s = jb_task_id r → jb_sequence s < jb_sequence r →
  jb_state s = Completed ∨ jb_state s = Failed.
Proof.
  intros (Hq & Hnr & Hne) Hs Ht Hlt. destruct (jb_state s) eqn:E; [..|auto|auto]; exfalso.
  - apply Hne, list.Exists_exists. eauto.
  - apply Hnr, list.Exists_exists. eauto.
Qed.

Lemma claim_next_total now db :
  schema_ok db → jobs_inv db → (∀ c, c ∈ db_jobs db → jb_state c = Queued → jb_claim_generation c < i64_max) →
  ∃ o db', claim_next_runnable now db = Ok (o, db').
Proof.
  intros Hs Hi Hg. pose proof (count_rows_nonneg job_running (db_jobs db)).
  assert (sql_u32 (count_rows job_running (db_jobs db)) = Ok (count_rows job_running (db_jobs db))) as Hcount.
  { apply count_rows_fits. pose proof (ji_running _ Hi) as Hr. unfold MAX_GLOBAL_RUNNING_JOBS in Hr. width_lia. }
  destruct (decide (MAX_GLOBAL_RUNNING_JOBS ≤ count_rows job_running (db_jobs db))) as [Hfull|Hlt].
  { exists None, db. unfold claim_next_runnable. rewrite tbind_query.
    rewrite (tbind_query_result _ _ _ _ Hcount). by rewrite (proj2 (Z.leb_le _ _)). }
  destruct (head (order_by sequence_le (filter (runnable (db_jobs db)) (db_jobs db)))) as [c|] eqn:Eh.
  - pose proof (candidate_spec _ _ Eh) as Hc. pose proof Hc as (Hin & (Hq & _) & _).
    destruct (claim_next_run now c db) as (job & _ & Hrun); [done..|lia|by apply Hg|]. eauto.
  - exists None, db. unfold claim_next_runnable. rewrite tbind_query.
    rewrite (tbind_query_result _ _ _ _ Hcount).
    rewrite (proj2 (Z.leb_gt _ _)) by lia. rewrite tbind_query. by rewrite Eh.
Qed.

(** ** Properties *)

(** On a database that satisfies the queue invariant, a valid
    new job is answered as the retry protocol requires: the same request with the same
    payload is a replay that changes nothing, the same request with another payload is
    [RequestIdConflict], a full task (twelve pending) is [TaskQueueFull], and otherwise
    exactly one queued row with the job's payload is appended after all others. *)
Theorem enqueue_outcomes now job db :
  schema_ok db → jobs_inv db → validate_slot (nj_slot job) = Ok tt →
  validate_job job = Ok tt → 0 ≤ nj_generation job ≤ i64_max → db_job_sequence db < i64_max →
  (∀ e, e ∈ db_jobs db → jb_request_id e = nj_request_id job →
     (same_job job e → enqueue now job db = Ok (EnqueueReplay, db))
     ∧ (¬ same_job job e → enqueue now job db = Err RequestIdConflict))
  ∧ ((∀ e, e ∈ db_jobs db → jb_request_id e ≠ nj_request_id job) →
     (count_rows (pending (nj_task_id job)) (db_jobs db) = MAX_PENDING_JOBS_PER_TASK →
        enqueue now job db = Err TaskQueueFull)
     ∧ (count_rows (pending (nj_task_id job)) (db_jobs db) < MAX_PENDING_JOBS_PER_TASK →
        ∃ db', enqueue now job db = Ok (EnqueueInserted, db')
          ∧ db_jobs db' = db_jobs db ++ [new_job_row now job (db_job_sequence db + 1)]
          ∧ same_other_tables db db')).
Proof.
  intros Hs Hi Hslot Hjob Hgen Hseq. unfold enqueue.
  rewrite (tbind_lift _ _ _ tt Hslot), (tbind_lift _ _ _ tt Hjob), tbind_query.
  assert (in_u8 (nj_slot job)).
  { unfold validate_slot in Hslot. apply require_ok in Hslot. bool_prop. width_lia. }
  split.
  - intros e He Hreq. rewrite (query_request _ _ e (ji_schema _ Hi) He Hreq).
    destruct (exact_replay job e) as [[|]|err] eqn:Ex.
    + split; [done|].
      intros []. by apply exact_replay_true.
    + split; [|done].
      intros Hsame. rewrite exact_replay_same in Ex; [done|done|done|lia].
    + exfalso. revert Ex. unfold exact_replay.
      pose proof (job_row_check _ _ (ji_schema _ Hi) He) as (Hc&_). unfold slot_check in Hc.
      rewrite sql_u8_fit by width_lia. cbn [rbind]. destruct (_ && _); [|done].
      by rewrite to_i64_fit by lia.
  - intros Hnew. rewrite query_request_none by done.
    pose proof (ji_pending _ Hi (nj_task_id job)) as Hp.
    assert (count_rows (pending (nj_task_id job)) (db_jobs db) ≤ u32_max)
      by (unfold MAX_PENDING_JOBS_PER_TASK in Hp; width_lia).
    rewrite (tbind_query_result _ _ _ _ (count_rows_fits _ _ ltac:(done))). split; intros Hn.
    + by rewrite Hn.
    + rewrite (proj2 (Z.leb_gt _ _)) by done.
      rewrite (tbind_lift _ _ _ (nj_generation job)) by (apply to_i64_fit; lia).
      rewrite (tbind_query_result _ _ _ (db_job_sequence db + 1)).
      2:{ unfold next_job_sequence. by rewrite (proj2 (Z.ltb_lt _ _)) by done. }
      erewrite tbind_exec; [|reflexivity|].
      2:{ apply (insert_job_schema now job); [done..|lia|done|done]. }
      eexists. by split_and!.
Qed.

(** C6 (functional and progress, [claim_next_runnable]): on every database of the queue
    invariant the claim succeeds.  It answers [None], changing nothing, exactly when four
    jobs run or every queued job's task has a running one.  Otherwise it hands out the
    queued row with the smallest sequence among the tasks that are free, all earlier jobs of
    that task being completed or failed (FIFO); the row becomes running with the next claim
    generation, every other row stays, and the job carries the stored payload. *)
Theorem claim_next_spec now db :
  schema_ok db → jobs_inv db →
  Forall (λ r, jb_claim_generation r < i64_max) (db_jobs db) →
  ∃ o db', claim_next_runnable now db = Ok (o, db') ∧
  match o with
  | None => db' = db ∧
      (MAX_GLOBAL_RUNNING_JOBS ≤ count_rows job_running (db_jobs db)
       ∨ ∀ q, q ∈ db_jobs db → jb_state q = Queued →
           ∃ r, r ∈ db_jobs db ∧ jb_state r = Running ∧ jb_task_id r = jb_task_id q)
  | Some job =>
      count_rows job_running (db_jobs db) < MAX_GLOBAL_RUNNING_JOBS ∧
      ∃ c, c ∈ db_jobs db ∧ jb_state c = Queued
        ∧ (∀ s, s ∈ db_jobs db → jb_task_id s = jb_task_id c →
             jb_state s ≠ Running
             ∧ (jb_sequence s < jb_sequence c → jb_state s = Completed ∨ jb_state s = Failed))
        ∧ (∀ s, s ∈ db_jobs db → runnable (db_jobs db) s → jb_sequence c ≤ jb_sequence s)
        ∧ job = {| job_request_id := jb_request_id c; job_task_id := jb_task_id c;
                   job_slot := jb_slot c; job_generation := jb_generation c;
                   job_prompt := jb_prompt c; job_cwd := decode_path (jb_cwd c);
                   job_recovery_count := jb_recovery_count c;
                   job_claim_generation := jb_claim_generation c + 1 |}
        ∧ ∀ r, r ∈ db_jobs db' ↔ r = claim_row now c ∨ r ∈ db_jobs db ∧ r ≠ c
  end.
Proof.
  intros Hs Hi Hg. destruct (claim_next_total now db Hs Hi) as (o & db' & Hr).
  { intros c Hc _. rewrite Forall_forall in Hg. by apply Hg. }
  exists o, db'. split; [done|]. apply claim_next_ok in Hr; [|apply Hi].
  destruct Hr as [(-> & -> & Hno)|(c & job & -> & (Hin & Hrunnable & Hleast) & Hlt & Hgc & Hjob & -> & _)].
  - split; [done|]. destruct Hno as [?|Hno]; [by left|]. right. intros q Hq HQ.
    destruct (decide (Exists (λ r, jb_state r = Running ∧ jb_task_id r = jb_task_id q) (db_jobs db)))
      as [(r & ? & ? & ?)%list.Exists_exists|Hex]; [eauto|]. exfalso.
    destruct (earliest_runnable (db_jobs db) q) as (r & Hr & Hr2); [done..| |by eapply Hno].
    intros s Hs2 Ht E. apply Hex, list.Exists_exists. eauto.
  - split; [lia|]. exists c. split_and!; [done|apply Hrunnable|..|done| |].
    + intros s Hs' Ht. split; [|by eapply runnable_first].
      intros E. apply (proj1 (proj2 Hrunnable)), list.Exists_exists. eauto.
    + rewrite map_claim_row in Hjob; [by injection Hjob| |lia|].
      * by eapply job_row_check; [apply Hi|].
      * pose proof (ji_range _ Hi) as Hr. rewrite Forall_forall in Hr. by apply Hr.
    + intros r. by apply (claim_update_elem now c); [apply Hi|..|apply Hrunnable].
Qed.
