(* ===== verification/StoreRollout.v ===== *)
(** * Bindings, rollout cursors and the completion ledger (app/host/src/store.rs)

    [set_binding] is a compare-and-swap on a slot's generation; [commit_rollout_completion_on]
    records one completed turn and advances the task's cursor in one transaction.  The
    observer's store ([ObserverStateStore]) runs the same functions after a file-identity
    check that is I/O. *)

From S2P Require Import Prelude Bytes CacheRef Sql StoreTypes StoreJobs.

(** ** Statements *)

Definition with_bindings (t : list BindingRow) (db : Db) : Db :=
  {| db_bindings := t; db_jobs := db_jobs db; db_job_sequence := db_job_sequence db;
     db_completions := db_completions db; db_cursors := db_cursors db;
     db_summaries := db_summaries db; db_attempts := db_attempts db;
     db_leases := db_leases db |}.

Definition with_completions (t : list CompletionRow) (db : Db) : Db :=
  {| db_bindings := db_bindings db; db_jobs := db_jobs db;
     db_job_sequence := db_job_sequence db;
     db_completions := t; db_cursors := db_cursors db;
     db_summaries := db_summaries db; db_attempts := db_attempts db;
     db_leases := db_leases db |}.

Definition with_cursors (t : list CursorRow) (db : Db) : Db :=
  {| db_bindings := db_bindings db; db_jobs := db_jobs db;
     db_job_sequence := db_job_sequence db;
     db_completions := db_completions db; db_cursors := t;
     db_summaries := db_summaries db; db_attempts := db_attempts db;
     db_leases := db_leases db |}.

(** [INSERT .. ON CONFLICT(key) DO UPDATE SET ..]: every column of the row is replaced. *)
Definition upsert {R} (P : R → Prop) `{∀ r, Decision (P r)} (r : R) (t : list R) : list R :=
  if exists_row P t then update_rows P (λ _, r) t else t ++ [r].

Definition upsert_binding (r : BindingRow) (db : Db) : Db * Z :=
  (with_bindings (upsert (λ s, br_slot s = br_slot r) r (db_bindings db)) db, 1).

Definition upsert_cursor (r : CursorRow) (db : Db) : Db * Z :=
  (with_cursors (upsert (λ s, cr_task_id s = cr_task_id r) r (db_cursors db)) db, 1).

(** The rowid SQLite gives a row of a table whose rows are never deleted. *)
Definition next_rowid (t : list CompletionRow) : Z := foldr Z.max 0 (cp_rowid <$> t) + 1.

Definition insert_completion (r : CompletionRow) (db : Db) : Db * Z :=
  (with_completions (db_completions db ++ [r]) db, 1).

(** ** Bindings *)

Definition binding_of (r : BindingRow) : result StoreError Binding :=
  let? slot := sql_u8 (br_slot r) in
  Ok {| bd_slot := slot; bd_task_id := br_task_id r; bd_generation := as_u64 (br_generation r) |}.

Definition set_binding (now slot : Z) (expected_generation : option Z) (task_id : text)
    : Tx (option Binding) :=
  let! _ := lift (validate_slot slot) in
  let! db0 := query id in
  let! current := query (λ db, query_row (λ r, br_slot r = slot) (db_bindings db)) in
  let current_generation := (λ r, as_u64 (br_generation r)) <$> current in
  if negb (bool_decide (current_generation = expected_generation)) then rollback_ok db0 None
  else
    let! generation :=
      lift match expected_generation with
           | Some value => of_option GenerationOutOfRange (checked_add u64_max value 1)
           | None => Ok 1
           end in
    let! generation_i64 := lift (to_i64 generation) in
    let! _ := exec (upsert_binding
      {| br_slot := slot; br_task_id := task_id; br_generation := generation_i64;
         br_updated_at := now |}) in
    tret (Some {| bd_slot := slot; bd_task_id := task_id; bd_generation := generation |}).

Definition binding (slot : Z) : Tx (option Binding) :=
  let! _ := lift (validate_slot slot) in
  query_result (λ db,
    match query_row (λ r, br_slot r = slot) (db_bindings db) with
    | Some r => let? b := binding_of r in Ok (Some b)
    | None => Ok None
    end).

(** [rows.collect::<Result<Vec<_>, _>>()] *)
Fixpoint collect {A} (l : list (result StoreError A)) : result StoreError (list A) :=
  match l with
  | [] => Ok []
  | r :: l => let? a := r in let? rest := collect l in Ok (a :: rest)
  end.

Definition query_bindings (db : Db) : result StoreError (list Binding) :=
  collect (binding_of <$> take 4 (order_by (λ a b, br_slot a <=? br_slot b) (db_bindings db))).

Definition bindings : Tx (list Binding) := query_result query_bindings.

(** ** Rollout cursors and completions *)

Definition map_rollout_cursor (r : CursorRow) : result StoreError RolloutCursor :=
  if negb (length (cr_anchor r) =? 32)%nat then Err Sqlite
  else Ok {| rc_task_id := cr_task_id r; rc_rollout_path := decode_path (cr_rollout_path r);
             rc_device := as_u64 (cr_device r); rc_inode := as_u64 (cr_inode r);
             rc_offset := as_u64 (cr_offset r); rc_generation := as_u64 (cr_generation r);
             rc_anchor := cr_anchor r |}.

Definition query_rollout_cursor (task_id : text) (db : Db)
    : result StoreError (option RolloutCursor) :=
  match query_row (λ r, cr_task_id r = task_id) (db_cursors db) with
  | Some r => let? c := map_rollout_cursor r in Ok (Some c)
  | None => Ok None
  end.

Definition rollout_cursor (task_id : text) : Tx (option RolloutCursor) :=
  query_result (query_rollout_cursor task_id).

(** The guard on the observed binding. *)
Definition still_bound (binding : Binding) (db : Db) : result StoreError bool :=
  let? generation := to_i64 (bd_generation binding) in
  Ok (exists_row (λ r, br_slot r = bd_slot binding ∧ br_task_id r = bd_task_id binding
                       ∧ br_generation r = generation) (db_bindings db)).

Section rollout.
Context `{Externals}.

(** Inserts the completion unless it is already recorded for the task. *)
Definition record_completion (now : Z) (next : RolloutCursor) (completion_id turn_pack : text)
    : Tx CompletionOutcome :=
  let! existing_task := query (λ db,
    cp_task_id <$> query_row (λ r, cp_completion_id r = completion_id) (db_completions db)) in
  match existing_task with
  | Some task_id =>
      if bool_decide (task_id = rc_task_id next) then tret CompletionReplay
      else throw CompletionConflict
  | None =>
      let! rowid := query (λ db, next_rowid (db_completions db)) in
      let! _ := exec (insert_completion
        {| cp_rowid := rowid; cp_completion_id := completion_id; cp_task_id := rc_task_id next;
           cp_rollout_cursor :=
             u64_to_string (rc_generation next) ++ 58 :: u64_to_string (rc_offset next);
           cp_observed_at := now; cp_summarized_generation := None;
           cp_turn_pack := turn_pack |}) in
      tret CompletionInserted
  end.

Definition store_cursor (now : Z) (next : RolloutCursor) : Tx unit :=
  let! device := lift (to_sql_i64 (rc_device next)) in
  let! inode := lift (to_sql_i64 (rc_inode next)) in
  let! offset := lift (to_sql_i64 (rc_offset next)) in
  let! generation := lift (to_sql_i64 (rc_generation next)) in
  let! _ := exec (upsert_cursor
    {| cr_task_id := rc_task_id next; cr_rollout_path := encode_path (rc_rollout_path next);
       cr_device := device; cr_inode := inode; cr_offset := offset;
       cr_generation := generation; cr_anchor := rc_anchor next; cr_updated_at := now |}) in
  tret tt.

Definition commit_rollout_completion_on (now : Z) (binding : option Binding)
    (expected : option RolloutCursor) (next : RolloutCursor)
    (completion_id turn_pack : text) : Tx CompletionOutcome :=
  let! _ := lift (validate_rollout_completion expected next completion_id turn_pack) in
  let! bound :=
    match binding with
    | Some binding => query_result (still_bound binding)
    | None => tret true
    end in
  if negb bound then throw BindingChanged
  else
    let! current := query_result (query_rollout_cursor (rc_task_id next)) in
    if negb (option_cursor_eqb current expected) then throw RolloutCursorChanged
    else
      let! outcome := record_completion now next completion_id turn_pack in
      let! _ := store_cursor now next in
      tret outcome.

Definition commit_rollout_completion (now : Z) (expected : option RolloutCursor)
    (next : RolloutCursor) (completion_id turn_pack : text) : Tx CompletionOutcome :=
  commit_rollout_completion_on now None expected next completion_id turn_pack.

Definition commit_bound_rollout_completion (now : Z) (binding : Binding)
    (expected : option RolloutCursor) (next : RolloutCursor)
    (completion_id turn_pack : text) : Tx CompletionOutcome :=
  commit_rollout_completion_on now (Some binding) expected next completion_id turn_pack.

End rollout.

(** ** Upsert *)

Section upsert.
Context {R K : Type} `{EqDecision K} (key : R → K).
Implicit Types (t : list R) (r : R).

Lemma elem_of_upsert t r s :
  unique_on any key t →
  s ∈ upsert (λ x, key x = key r) r t ↔ s = r ∨ s ∈ t ∧ key s ≠ key r.
Proof.
  intros Hu. unfold upsert. destruct (exists_row _ _) eqn:E.
  - apply exists_row_true in E as (x & Hx & Ex). rewrite elem_of_update. unfold upd. split.
    + intros (y & Hy & ->). case_decide; auto.
    + intros [->|[Hs Hne]]; [exists x|exists s]; (split; [done|]).
      * by rewrite decide_True.
      * by rewrite decide_False.
  - rewrite exists_row_false in E. rewrite elem_of_app, list_elem_of_singleton. naive_solver.
Qed.

Lemma unique_upsert t r :
  unique_on any key t → unique_on any key (upsert (λ x, key x = key r) r t).
Proof.
  intros Hu. unfold upsert. destruct (exists_row _ _) eqn:E.
  - apply unique_on_update; [done|]. intros s _ Hs _. by rewrite Hs.
  - rewrite exists_row_false in E. apply unique_on_snoc. split; [done|].
    intros _ s Hs _. by apply E.
Qed.
End upsert.

(** ** Bindings: compare-and-swap *)

Definition current_generation (slot : Z) (db : Db) : option Z :=
  br_generation <$> query_row (λ r, br_slot r = slot) (db_bindings db).

Lemma bindings_schema_of db : schema_ok db → bindings_schema (db_bindings db).
Proof. unfold schema_ok. tauto. Qed.

Lemma upsert_binding_schema now slot task g db :
  schema_ok db → slot_check slot → 0 < g →
  schema_ok (upsert_binding {| br_slot := slot; br_task_id := task; br_generation := g;
                               br_updated_at := now |} db).1.
Proof.
  intros Hs ? ?. unfold schema_ok in *. destruct Hs as ((Hu & Hc) & Hrest). split; [|exact Hrest].
  split; [by apply (unique_upsert br_slot)|]. apply Forall_forall. simpl. intros r Hr.
  apply (elem_of_upsert br_slot _ (mk_binding_row slot task g now)) in Hr; [|done].
  rewrite Forall_forall in Hc.
  destruct Hr as [->|[? ?]]; [done|by apply Hc].
Qed.

(** All generations of the table are SQLite integers. *)
Definition bindings_range (db : Db) : Prop :=
  Forall (λ r, br_generation r ≤ i64_max) (db_bindings db).

Lemma query_binding_generation slot db r :
  schema_ok db → bindings_range db →
  query_row (λ r, br_slot r = slot) (db_bindings db) = Some r →
  0 < br_generation r ≤ i64_max ∧ as_u64 (br_generation r) = br_generation r
  ∧ slot_check (br_slot r).
Proof.
  intros [_ Hc]%bindings_schema_of Hr [Hin _]%query_row_some.
  unfold bindings_range in Hr. rewrite Forall_forall in Hc, Hr.
  pose proof (Hc r Hin) as [??]. pose proof (Hr r Hin). cbv beta in *.
  split_and!; [done..| |done]. apply as_u64_small. width_lia.
Qed.

Lemma collect_ok {A} (l : list (result StoreError A)) v :
  collect l = Ok v ↔ Forall2 (λ r a, r = Ok a) l v.
Proof.
  revert v. induction l as [|r l IH]; intros v; simpl.
  - split; [intros [= <-]; constructor|by inversion 1].
  - rewrite rbind_ok. setoid_rewrite rbind_ok. setoid_rewrite IH. split.
    + intros (a & -> & rest & ? & [= <-]). by constructor.
    + inversion 1; subst. eauto.
Qed.

(** ** The completion ledger *)

Definition new_completion (now : Z) (next : RolloutCursor) (completion_id turn_pack : text)
    (db : Db) : CompletionRow :=
  {| cp_rowid := next_rowid (db_completions db); cp_completion_id := completion_id;
     cp_task_id := rc_task_id next;
     cp_rollout_cursor := u64_to_string (rc_generation next) ++ 58 :: u64_to_string (rc_offset next);
     cp_observed_at := now; cp_summarized_generation := None; cp_turn_pack := turn_pack |}.

Definition new_cursor_row (now : Z) (next : RolloutCursor) : CursorRow :=
  {| cr_task_id := rc_task_id next; cr_rollout_path := encode_path (rc_rollout_path next);
     cr_device := rc_device next; cr_inode := rc_inode next; cr_offset := rc_offset next;
     cr_generation := rc_generation next; cr_anchor := rc_anchor next; cr_updated_at := now |}.

(** A cursor value of the source's types. *)
Definition cursor_wf (c : RolloutCursor) : Prop :=
  in_u64 (rc_device c) ∧ in_u64 (rc_inode c) ∧ in_u64 (rc_offset c) ∧ in_u64 (rc_generation c)
  ∧ length (rc_anchor c) = 32%nat.

Lemma to_sql_i64_ok v w : to_sql_i64 v = Ok w ↔ w = v ∧ v ≤ i64_max.
Proof. unfold to_sql_i64. destruct (Z.leb_spec v i64_max); split; [intros [=]|..]; naive_solver lia. Qed.

Section commit.
Context `{Externals}.

Lemma record_completion_ok now next cid tp db o db' :
  record_completion now next cid tp db = Ok (o, db') →
  (o = CompletionReplay ∧ db' = db
   ∧ ∃ e, e ∈ db_completions db ∧ cp_completion_id e = cid ∧ cp_task_id e = rc_task_id next)
  ∨ (o = CompletionInserted ∧ (∀ e, e ∈ db_completions db → cp_completion_id e ≠ cid)
     ∧ db' = with_completions (db_completions db ++ [new_completion now next cid tp db]) db).
Proof.
  unfold record_completion. intros Hr. run_tx Hr.
  - left. bool_prop. destruct (query_row _ _) as [e|] eqn:Eq in Hcase; [|done].
    injection Hcase as <-. apply query_row_some in Eq as [? ?]. eauto 10.
  - right. injection Hrun as <- <-. split_and!; [done| |done].
    apply fmap_None in Hcase. intros e He. by eapply query_row_none_1 in Hcase.
Qed.

Lemma store_cursor_ok now next db u db' :
  store_cursor now next db = Ok (u, db') →
  rc_device next ≤ i64_max ∧ rc_inode next ≤ i64_max ∧ rc_offset next ≤ i64_max
  ∧ rc_generation next ≤ i64_max ∧ schema_ok db'
  ∧ db' = (upsert_cursor (new_cursor_row now next) db).1.
Proof.
  unfold store_cursor. intros Hr. run_tx Hr.
  apply to_sql_i64_ok in Hrun as [-> ?], Hrun0 as [-> ?], Hrun1 as [-> ?], Hrun2 as [-> ?].
  injection Hrun3 as <- <-. by split_and!.
Qed.

Lemma commit_ok now b expected next cid tp db o db' :
  commit_rollout_completion_on now b expected next cid tp db = Ok (o, db') →
  validate_rollout_completion expected next cid tp = Ok tt
  ∧ match b with
    | Some b => exists_row (λ r, br_slot r = bd_slot b ∧ br_task_id r = bd_task_id b
                       ∧ br_generation r = bd_generation b) (db_bindings db) = true
    | None => True
    end
  ∧ (∃ cur, query_rollout_cursor (rc_task_id next) db = Ok cur
       ∧ option_cursor_eqb cur expected = true)
  ∧ rc_device next ≤ i64_max ∧ rc_inode next ≤ i64_max ∧ rc_offset next ≤ i64_max
  ∧ rc_generation next ≤ i64_max ∧ schema_ok db'
  ∧ ∃ db1, record_completion now next cid tp db = Ok (o, db1)
      ∧ db' = (upsert_cursor (new_cursor_row now next) db1).1.
Proof.
  unfold commit_rollout_completion_on. intros Hr. apply tbind_ok in Hr as ([] & ? & Hv & Hr).
  apply lift_ok in Hv as [Hv <-]. apply tbind_ok in Hr as (bound & db0 & Hb & Hr).
  assert (db0 = db ∧ (bound = true → match b with
    | Some b => exists_row (λ r, br_slot r = bd_slot b ∧ br_task_id r = bd_task_id b
                       ∧ br_generation r = bd_generation b) (db_bindings db) = true
    | None => True end)) as [-> Hguard].
  { destruct b as [b0|]; run_tx Hb; [|done]. unfold still_bound in Hb. run_ok Hb.
    apply to_i64_ok in Hrun as [-> _]. by subst bound. }
  destruct bound; [|discriminate Hr]. run_tx Hr.
  destruct a1. apply store_cursor_ok in Hrun1 as (?&?&?&?&?&->).
  apply negb_false_iff in Hif0. specialize (Hguard eq_refl). split_and!; eauto.
Qed.

Lemma query_cursor_after now next db :
  cursors_schema (db_cursors db) → cursor_wf next →
  rc_device next ≤ i64_max → rc_inode next ≤ i64_max → rc_offset next ≤ i64_max →
  rc_generation next ≤ i64_max →
  query_rollout_cursor (rc_task_id next) (upsert_cursor (new_cursor_row now next) db).1
  = Ok (Some next).
Proof.
  intros [Hu _] (H1&H2&H3&H4&H5) ????. unfold query_rollout_cursor.
  erewrite (query_row_unique any cr_task_id _ _ (new_cursor_row now next)).
  - unfold map_rollout_cursor. simpl. rewrite H5. simpl.
    rewrite !as_u64_small by width_lia. by destruct next.
  - by apply (unique_upsert cr_task_id).
  - apply (elem_of_upsert cr_task_id); [done|]. by left.
  - done.
  - by intros s ?.
Qed.

Lemma validate_transition expected next cid tp :
  validate_rollout_completion expected next cid tp = Ok tt →
  match expected with
  | None => rc_generation next = 1
  | Some p =>
      rc_task_id p = rc_task_id next
      ∧ (path_eqb (rc_rollout_path p) (rc_rollout_path next) = true
         ∧ rc_device p = rc_device next ∧ rc_inode p = rc_inode next
         ∧ rc_generation p = rc_generation next ∧ rc_offset p ≤ rc_offset next
         ∨ rc_generation next = saturating_add u64_max (rc_generation p) 1)
  end.
Proof.
  unfold validate_rollout_completion. intros Hv. apply require_ok in Hv.
  apply andb_prop in Hv as [_ Hv]. destruct expected as [p|]; [|by apply Z.eqb_eq].
  apply andb_prop in Hv as [Ht Hv]. bool_prop. split; [done|].
  apply orb_prop in Hv as [Hv|Hv]; [left|right; by apply Z.eqb_eq].
  bool_prop. by split_and!.
Qed.

Lemma cursor_eqb_fields a b :
  cursor_eqb a b = true →
  rc_task_id a = rc_task_id b ∧ path_eqb (rc_rollout_path a) (rc_rollout_path b) = true
  ∧ rc_device a = rc_device b ∧ rc_inode a = rc_inode b ∧ rc_offset a = rc_offset b
  ∧ rc_generation a = rc_generation b ∧ rc_anchor a = rc_anchor b.
Proof. unfold cursor_eqb. intros. bool_prop. by split_and!. Qed.

Lemma path_eqb_trans a b c : path_eqb a b = true → path_eqb b c = true → path_eqb a c = true.
Proof. unfold path_eqb. rewrite !bool_decide_eq_true. congruence. Qed.

End commit.

Lemma set_binding_ok now slot expected task db o db' :
  set_binding now slot expected task db = Ok (o, db') →
  o = None ∧ db' = db
  ∨ ∃ g, o = Some (mk_binding slot task g) ∧ g ≤ i64_max ∧ schema_ok db'
      ∧ db' = (upsert_binding (mk_binding_row slot task g now) db).1.
Proof.
  unfold set_binding. intros Hr.
  apply tbind_ok in Hr as ([] & ? & Hv & Hr). apply lift_ok in Hv as [_ <-].
  rewrite !tbind_query in Hr. destruct (negb _); [left; by injection Hr as <- <-|right].
  apply tbind_ok in Hr as (g & ? & Hg & Hr). apply lift_ok in Hg as [_ <-].
  apply tbind_ok in Hr as (g' & ? & Hg & Hr). apply lift_ok in Hg as [Hg <-].
  apply to_i64_ok in Hg as [-> ?].
  apply tbind_ok in Hr as (n & db1 & Hx & Hr). apply exec_ok in Hx as [Hx Hs]. exec_result Hx.
  injection Hr as <- <-. exists g. by split_and!.
Qed.

(** ** Properties *)

(** (Functional, [set_binding]): binding a slot is a compare-and-swap on its generation.
    With a stale expectation nothing changes and the answer is [None]; with the current one
    the slot's row is replaced by the new task with the next generation (1 for a fresh
    slot), the other slots' rows stay, and the new binding reads back; the largest SQLite
    integer has no successor. *)
Theorem set_binding_compare_and_swap now slot expected task db :
  schema_ok db → bindings_range db → validate_slot slot = Ok tt →
  (current_generation slot db ≠ expected →
     set_binding now slot expected task db = Ok (None, db))
  ∧ (current_generation slot db = expected → default 0 expected < i64_max →
     ∃ db', set_binding now slot expected task db
            = Ok (Some (mk_binding slot task (default 0 expected + 1)), db')
       ∧ (∀ r, r ∈ db_bindings db' ↔
            r = mk_binding_row slot task (default 0 expected + 1) now
            ∨ r ∈ db_bindings db ∧ br_slot r ≠ slot)
       ∧ binding slot db' = Ok (Some (mk_binding slot task (default 0 expected + 1)), db'))
  ∧ (current_generation slot db = expected → expected = Some i64_max →
     set_binding now slot expected task db = Err GenerationOutOfRange).
Proof.
  intros Hs Hrange Hslot.
  assert (Hcheck : slot_check slot).
  { unfold validate_slot in Hslot. apply require_ok in Hslot. unfold slot_check. bool_prop. lia. }
  unfold set_binding. rewrite (tbind_lift _ _ _ tt Hslot), !tbind_query.
  assert (Hcur : (λ r, as_u64 (br_generation r)) <$>
    query_row (λ r, br_slot r = slot) (db_bindings db) = current_generation slot db).
  { unfold current_generation. destruct (query_row _ _) as [r|] eqn:Eq; [|done]. simpl.
    destruct (query_binding_generation _ _ _ Hs Hrange Eq) as (_&->&_). done. }
  rewrite Hcur. change (id db) with db. split_and!.
  - intros Hne. by rewrite bool_decide_false.
  - intros <- Hlt. rewrite bool_decide_true by done. cbn [negb].
    set (g := default 0 (current_generation slot db)) in *.
    assert (Hg : 0 ≤ g).
    { unfold g, current_generation. destruct (query_row _ _) as [r|] eqn:Eq; [|done]. simpl.
      destruct (query_binding_generation _ _ _ Hs Hrange Eq) as ([]&_). lia. }
    rewrite (tbind_lift _ _ _ (g + 1)).
    2:{ unfold g in *. destruct (current_generation slot db) as [v|]; [|done]. simpl in *.
        unfold checked_add. by rewrite (proj2 (Z.leb_le _ _)) by width_lia. }
    rewrite (tbind_lift _ _ _ (g + 1)) by (apply to_i64_fit; lia).
    pose proof (upsert_binding_schema now slot task (g + 1) db Hs Hcheck ltac:(lia)) as Hs'.
    erewrite tbind_exec; [|reflexivity|exact Hs'].
    destruct Hs as [[Hu _] _].
    eexists. split; [reflexivity|]. split.
    + intros r. by apply (elem_of_upsert br_slot _ (mk_binding_row slot task (g + 1) now)).
    + unfold binding. rewrite (tbind_lift _ _ _ tt Hslot). unfold query_result. cbv beta.
      rewrite (query_row_unique any br_slot _ _ (mk_binding_row slot task (g + 1) now)).
      * unfold binding_of. simpl.
        rewrite sql_u8_fit by (unfold slot_check in Hcheck; width_lia).
        simpl. by rewrite as_u64_small by width_lia.
      * by apply (unique_upsert br_slot _ (mk_binding_row slot task (g + 1) now)).
      * apply (elem_of_upsert br_slot _ (mk_binding_row slot task (g + 1) now)); [done|by left].
      * done.
      * by intros s ?.
  - intros -> ->. rewrite bool_decide_true by done. by vm_compute.
Qed.

(** (Functional and safety, [commit_rollout_completion_on]): a committed observation
    leaves the cursor exactly where the observer put it and the completion recorded for its
    task exactly once: a first observation appends one unsummarised row at the end of the
    ledger, a replay leaves the ledger untouched, and no other table changes.  The stored
    cursor never moves back: within the same rollout file the offset does not decrease, and
    a new file increases the generation by one. *)
Theorem commit_rollout_completion_effect `{Externals} now b expected next cid tp db o db' :
  schema_ok db → cursor_wf next →
  commit_rollout_completion_on now b expected next cid tp db = Ok (o, db') →
  query_rollout_cursor (rc_task_id next) db' = Ok (Some next)
  ∧ match o with
    | CompletionInserted =>
        (∀ e, e ∈ db_completions db → cp_completion_id e ≠ cid)
        ∧ db_completions db' = db_completions db ++ [new_completion now next cid tp db]
    | CompletionReplay =>
        (∃ e, e ∈ db_completions db ∧ cp_completion_id e = cid ∧ cp_task_id e = rc_task_id next)
        ∧ db_completions db' = db_completions db
    end
  ∧ count_rows (λ e, cp_completion_id e = cid) (db_completions db') = 1
  ∧ (∀ cur, query_rollout_cursor (rc_task_id next) db = Ok (Some cur) →
       path_eqb (rc_rollout_path cur) (rc_rollout_path next) = true
       ∧ rc_device cur = rc_device next ∧ rc_inode cur = rc_inode next
       ∧ rc_generation cur = rc_generation next ∧ rc_offset cur ≤ rc_offset next
       ∨ rc_generation next = rc_generation cur + 1)
  ∧ db_jobs db' = db_jobs db ∧ db_bindings db' = db_bindings db
  ∧ db_summaries db' = db_summaries db ∧ db_leases db' = db_leases db.
Proof.
  intros Hs Hwf Hr.
  apply commit_ok in Hr as (Hv & _ & (cur & Hcur & Heq) & H1 & H2 & H3 & H4 & Hs' & db1 & Hr & ->).
  apply record_completion_ok in Hr. apply validate_transition in Hv.
  assert (Hcs : cursors_schema (db_cursors db)) by (unfold schema_ok in Hs; tauto).
  assert (Hone : ∀ e, e ∈ db_completions (upsert_cursor (new_cursor_row now next) db1).1 →
    cp_completion_id e = cid →
    count_rows (λ e, cp_completion_id e = cid) (db_completions db1) = 1).
  { intros e He Hid. assert (completions_schema (db_completions db1))
      by (unfold schema_ok in Hs'; simpl in Hs'; tauto).
    assert (0 < count_rows (λ e, cp_completion_id e = cid) (db_completions db1))
      by (apply count_rows_pos; eauto).
    pose proof (count_rows_unique any cp_completion_id (λ e, cp_completion_id e = cid) cid
      (db_completions db1) ltac:(done) ltac:(done)). lia. }
  split_and!.
  - apply query_cursor_after; try done. by destruct Hr as [(_&->&_)|(_&_&->)].
  - destruct Hr as [(->&->&?)|(->&?&->)]; done.
  - destruct Hr as [(->&->&e&?&?&_)|(->&?&->)]; [by eapply Hone|].
    apply (Hone (new_completion now next cid tp db)); [|done].
    simpl. apply elem_of_app. right. by apply list_elem_of_singleton.
  - intros cur' E. rewrite E in Hcur. injection Hcur as <-.
    destruct expected as [p|]; [|done]. simpl in Heq.
    apply cursor_eqb_fields in Heq as (_ & E1 & E2 & E3 & E4 & E5 & _).
    destruct Hv as [_ [(P & D & I & G & O)|Hnext]]; [left|right].
    + split_and!; [by eapply path_eqb_trans|lia..].
    + rewrite E5, Hnext. apply saturating_add_small.
      unfold saturating_add in Hnext. width_lia.
  - by destruct Hr as [(_&->&_)|(_&_&->)].
  - by destruct Hr as [(_&->&_)|(_&_&->)].
  - by destruct Hr as [(_&->&_)|(_&_&->)].
  - by destruct Hr as [(_&->&_)|(_&_&->)].
Qed.
