(* ===== verification/StoreSummary.v ===== *)
(** * The summary ledger: operations (app/host/src/store.rs)

    A summary of a task is claimed ([claim_summary]), generated outside, and published
    ([publish_summary]); a claim can be interrupted by a restart, resumed or abandoned.
    [query_current_unread], [query_pending_summary_completions] and [load_summary_claim] are
    the queries the operations share.  Their theory is in SummaryInv.v,
    SummaryOps.v, SummaryClaims.v and SummaryPublish.v. *)

From S2P Require Import Prelude Bytes CacheRef Sql StoreTypes StoreRollout.

(** ** Statements *)

Definition with_summaries (t : list SummaryRow) (db : Db) : Db :=
  {| db_bindings := db_bindings db; db_jobs := db_jobs db;
     db_job_sequence := db_job_sequence db;
     db_completions := db_completions db; db_cursors := db_cursors db;
     db_summaries := t; db_attempts := db_attempts db; db_leases := db_leases db |}.

Definition with_attempts (t : list AttemptRow) (db : Db) : Db :=
  {| db_bindings := db_bindings db; db_jobs := db_jobs db;
     db_job_sequence := db_job_sequence db;
     db_completions := db_completions db; db_cursors := db_cursors db;
     db_summaries := db_summaries db; db_attempts := t; db_leases := db_leases db |}.

Definition update_summaries (P : SummaryRow → Prop) `{∀ r, Decision (P r)}
    (f : SummaryRow → SummaryRow) (db : Db) : Db * Z :=
  (with_summaries (update_rows P f (db_summaries db)) db, count_rows P (db_summaries db)).

Definition update_completions (P : CompletionRow → Prop) `{∀ r, Decision (P r)}
    (f : CompletionRow → CompletionRow) (db : Db) : Db * Z :=
  (with_completions (update_rows P f (db_completions db)) db, count_rows P (db_completions db)).

Definition insert_summary (r : SummaryRow) (db : Db) : Db * Z :=
  (with_summaries (db_summaries db ++ [r]) db, 1).

Definition update_attempts (P : AttemptRow → Prop) `{∀ r, Decision (P r)}
    (f : AttemptRow → AttemptRow) (db : Db) : Db * Z :=
  (with_attempts (update_rows P f (db_attempts db)) db, count_rows P (db_attempts db)).

Definition delete_attempts (P : AttemptRow → Prop) `{∀ r, Decision (P r)} (db : Db) : Db * Z :=
  (with_attempts (delete_rows P (db_attempts db)) db, count_rows P (db_attempts db)).

(** [INSERT .. ON CONFLICT(task_id, generation) DO NOTHING] *)
Definition insert_attempt_if_absent (r : AttemptRow) (db : Db) : Db * Z :=
  if exists_row (λ s, at_key s = at_key r) (db_attempts db) then (db, 0)
  else (with_attempts (db_attempts db ++ [r]) db, 1).

(** [DELETE FROM summary_tts_attempts WHERE task_id = ?1 AND generation = ?2] *)
Definition delete_attempt (task_id : text) (generation : Z) : Db → Db * Z :=
  delete_attempts (λ r, at_task_id r = task_id ∧ at_generation r = generation).

(** The row of a claim: [WHERE task_id AND generation AND state IN (..)]. *)
Definition active_row (task_id : text) (generation : Z) (r : SummaryRow) : Prop :=
  sm_task_id r = task_id ∧ sm_generation r = generation ∧ active_claim r.

#[export] Instance active_row_dec task_id generation r : Decision (active_row task_id generation r).
Proof. unfold active_row. apply _. Defined.

(** [AND request_id = ?3 AND claim_id = ?3] *)
Definition owned_row (task_id : text) (generation : Z) (request_id : text) (r : SummaryRow) : Prop :=
  active_row task_id generation r ∧ sm_request_id r = Some request_id
  ∧ sm_claim_id r = Some request_id.

#[export] Instance owned_row_dec task_id generation request_id r :
  Decision (owned_row task_id generation request_id r).
Proof. unfold owned_row. apply _. Defined.

Section summaries.
Context `{Externals, Crypto}.

(** ** Queries *)

Definition coverage_of (task_id : text) (generation : Z) (db : Db) : Z :=
  count_rows (λ c, cp_task_id c = task_id ∧ cp_summarized_generation c = Some generation)
    (db_completions db).

Definition query_current_unread (task_id : text) (db : Db)
    : result StoreError (option UnreadSummary) :=
  match query_row (λ r, sm_task_id r = task_id ∧ current_unread r) (db_summaries db) with
  | Some r =>
      let coverage_count := coverage_of task_id (sm_generation r) db in
      match sm_cache_object r with
      | Some cache_object =>
          if (0 <? sm_generation r) && (0 <? coverage_count) then
            if coverage_count <=? u32_max then
              Ok (Some {| us_task_id := task_id; us_generation := as_u64 (sm_generation r);
                          us_cache_object := cache_object;
                          us_coverage_count := coverage_count |})
            else Err InvalidSummaryState
          else Err InvalidSummaryState
      | None => Err InvalidSummaryState
      end
  | None => Ok None
  end.

Definition completion_order (a b : CompletionRow) : bool :=
  if cp_observed_at a =? cp_observed_at b then cp_rowid a <=? cp_rowid b
  else cp_observed_at a <=? cp_observed_at b.

(** The loop over the rows: [n] completions and [total] bytes taken so far. *)
Fixpoint take_pending (n total : Z) (rows : list CompletionRow)
    : result StoreError (list PendingSummaryCompletion) :=
  match rows with
  | [] => Ok []
  | r :: rows =>
      if n =? MAX_SUMMARY_COMPLETIONS_PER_CLAIM then Ok []
      else if negb (uuid_ok (cp_completion_id r)) || (length (cp_turn_pack r) =? 0)%nat
              || (MAX_TURN_PACK_BYTES <? blen (cp_turn_pack r))
      then Err InvalidSummaryState
      else
        let? next_total := of_option InvalidSummaryState
                             (checked_add u64_max total (blen (cp_turn_pack r))) in
        if negb (n =? 0) && (MAX_SUMMARY_TURN_PACK_BYTES <? next_total) then Ok []
        else
          let? rest := take_pending (n + 1) next_total rows in
          Ok ({| pc_completion_id := cp_completion_id r; pc_turn_pack := cp_turn_pack r |} :: rest)
  end.

Definition pending_completion (task_id : text) (r : CompletionRow) : Prop :=
  cp_task_id r = task_id ∧ cp_summarized_generation r = None.

#[export] Instance pending_completion_dec task_id r : Decision (pending_completion task_id r).
Proof. unfold pending_completion. apply _. Defined.

Definition query_pending_summary_completions (task_id : text) (db : Db)
    : result StoreError (list PendingSummaryCompletion) :=
  take_pending 0 0
    (take (Z.to_nat (MAX_SUMMARY_COMPLETIONS_PER_CLAIM + 1))
      (order_by completion_order (filter (pending_completion task_id) (db_completions db)))).

(** The loop of [load_summary_claim] over the recorded completion ids. *)
Fixpoint load_completions (task_id : text) (total : Z) (ids : list text) (db : Db)
    : result StoreError (list PendingSummaryCompletion) :=
  match ids with
  | [] => Ok []
  | completion_id :: ids =>
      match query_row (λ c, cp_completion_id c = completion_id ∧ cp_task_id c = task_id)
              (db_completions db) with
      | Some c =>
          match cp_summarized_generation c with
          | Some _ => Err InvalidSummaryState
          | None =>
              let? total := of_option InvalidSummaryState
                              (checked_add u64_max total (blen (cp_turn_pack c))) in
              if (length (cp_turn_pack c) =? 0)%nat
                 || (MAX_TURN_PACK_BYTES <? blen (cp_turn_pack c))
                 || (MAX_SUMMARY_TURN_PACK_BYTES <? total)
              then Err InvalidSummaryState
              else
                let? rest := load_completions task_id total ids db in
                Ok ({| pc_completion_id := completion_id; pc_turn_pack := cp_turn_pack c |} :: rest)
          end
      | None => Err InvalidSummaryState
      end
  end.

Definition load_previous (task_id : text) (previous_generation : option Z) (db : Db)
    : result StoreError (option UnreadSummary) :=
  match previous_generation with
  | Some expected =>
      let? current := query_current_unread task_id db in
      match current with
      | Some summary =>
          if us_generation summary =? as_u64 expected then Ok (Some summary)
          else Err InvalidSummaryState
      | None => Err InvalidSummaryState
      end
  | None => Ok None
  end.

Definition load_summary_claim (outcome : SummaryClaimOutcome) (request_id task_id : text)
    (generation : Z) (previous_generation : option Z) (covers : text) (db : Db)
    : result StoreError SummaryClaim :=
  if (generation <=? 0)
     || match previous_generation with Some value => value <=? 0 | None => false end
  then Err InvalidSummaryState
  else
    let? completion_ids := of_option InvalidSummaryState (json_to_strings covers) in
    if (length completion_ids =? 0)%nat
       || (MAX_SUMMARY_COMPLETIONS_PER_CLAIM <? Z.of_nat (length completion_ids))
    then Err InvalidSummaryState
    else
      let? completions := load_completions task_id 0 completion_ids db in
      let? previous_unread := load_previous task_id previous_generation db in
      Ok {| sc_outcome := outcome; sc_request_id := request_id; sc_task_id := task_id;
            sc_generation := as_u64 generation; sc_previous_unread := previous_unread;
            sc_completions := completions |}.

(** [load_summary_claim] on a row *)
Definition load_row (outcome : SummaryClaimOutcome) (request_id task_id : text)
    (r : SummaryRow) : Db → result StoreError SummaryClaim :=
  load_summary_claim outcome request_id task_id (sm_generation r) (sm_previous_generation r)
    (sm_covers_completions r).

(** [SELECT COALESCE(MAX(generation), 0)] *)
Definition max_generation (task_id : text) (db : Db) : Z :=
  match sm_generation <$> filter (λ r, sm_task_id r = task_id) (db_summaries db) with
  | [] => 0
  | g :: gs => foldr Z.max g gs
  end.

(** ** Claims *)

(** [UPDATE .. SET state = 'generating'] on the interrupted row of a request *)
Definition reactivate (now : Z) (request_id task_id : text) (r : SummaryRow) : Tx unit :=
  let! changed := exec (update_summaries
    (λ s, sm_request_id s = Some request_id ∧ sm_task_id s = task_id
          ∧ sm_generation s = sm_generation r ∧ sm_state s = Interrupted
          ∧ sm_claim_id s = Some request_id)
    (set_summary_state Generating now)) in
  if negb (changed =? 1) then throw SummaryClaimChanged else tret tt.

(** The branch of [claim_summary] for a request id the ledger already knows. *)
Definition claim_prior (now : Z) (task_id request_id : text) (r : SummaryRow)
    : Tx (option SummaryClaimResult) :=
  if negb (bool_decide (sm_task_id r = task_id)) then throw SummaryRequestConflict
  else
    let replay : Tx (option SummaryClaimResult) :=
      let! claim := query_result (load_row ClaimReplay request_id task_id r) in
      tret (Some (Claimed claim)) in
    match sm_state r with
    | Unheard | Leased | Heard | Superseded =>
        tret (Some (Published task_id (as_u64 (sm_generation r))))
    | Abandoned => throw SummaryRequestAbandoned
    | Interrupted => let! _ := reactivate now request_id task_id r in replay
    | Generating => replay
    end.

(** The branch for a new request. *)
Definition claim_new (now : Z) (task_id request_id : text) : Tx (option SummaryClaimResult) :=
  let! previous_unread := query_result (query_current_unread task_id) in
  let! completions := query_result (query_pending_summary_completions task_id) in
  match completions with
  | [] => tret None
  | _ :: _ =>
      let! generation := query_result (λ db,
        of_option SummaryGenerationOutOfRange (checked_add i64_max (max_generation task_id db) 1)) in
      let! covers := lift (of_option InvalidSummaryState
        (json_of_strings (pc_completion_id <$> completions))) in
      let! previous_generation :=
        lift match previous_unread with
             | Some summary => let? g := to_i64 (us_generation summary) in Ok (Some g)
             | None => Ok None
             end in
      let! _ := exec (insert_summary
        {| sm_task_id := task_id; sm_generation := generation; sm_state := Generating;
           sm_covers_completions := covers; sm_cache_object := None;
           sm_request_id := Some request_id; sm_claim_id := Some request_id;
           sm_previous_generation := previous_generation; sm_superseded_by := None;
           sm_created_at := now; sm_updated_at := now |}) in
      tret (Some (Claimed
        {| sc_outcome := ClaimInserted; sc_request_id := request_id; sc_task_id := task_id;
           sc_generation := as_u64 generation; sc_previous_unread := previous_unread;
           sc_completions := completions |}))
  end.

Definition claim_summary (now : Z) (task_id request_id : text) : Tx (option SummaryClaimResult) :=
  let! _ := lift (validate_summary_request task_id request_id) in
  let! prior_request := query (λ db,
    query_row (λ r, sm_request_id r = Some request_id) (db_summaries db)) in
  match prior_request with
  | Some r => claim_prior now task_id request_id r
  | None =>
      let! existing := query (λ db,
        query_row (λ r, sm_task_id r = task_id ∧ active_claim r) (db_summaries db)) in
      match existing with
      | Some r =>
          let! claim_id := lift (of_option Sqlite (sm_claim_id r)) in
          if negb (bool_decide (claim_id = request_id)) then throw SummaryBusy
          else
            let! claim := query_result (load_row ClaimReplay request_id task_id r) in
            tret (Some (Claimed claim))
      | None => claim_new now task_id request_id
      end
  end.

Definition abandon_summary_claim (now : Z) (claim : SummaryClaim) : Tx bool :=
  let! _ := lift (validate_summary_claim claim) in
  let! generation := lift (to_i64 (sc_generation claim)) in
  let! changed := exec (update_summaries
    (λ r, active_row (sc_task_id claim) generation r ∧ sm_claim_id r = Some (sc_request_id claim))
    (λ r, set_summary Abandoned (sm_cache_object r) None (sm_superseded_by r) now r)) in
  if changed =? 1 then
    let! _ := exec (delete_attempt (sc_task_id claim) generation) in
    tret true
  else tret false.

Definition abandon_interrupted_summary_for_task (now : Z) (task_id : text) : Tx (option Z) :=
  if negb (uuid_ok task_id) then throw InvalidSummaryRequest
  else
    let! row := query (λ db,
      query_row (λ r, sm_task_id r = task_id ∧ sm_state r = Interrupted) (db_summaries db)) in
    match row with
    | None => tret None
    | Some row =>
        let generation := sm_generation row in
        let! changed := exec (update_summaries
          (λ r, sm_task_id r = task_id ∧ sm_generation r = generation ∧ sm_state r = Interrupted)
          (λ r, set_summary Abandoned (sm_cache_object r) None (sm_superseded_by r) now r)) in
        if negb (changed =? 1) then throw SummaryClaimChanged
        else
          let! _ := exec (delete_attempt task_id generation) in
          tret (Some (as_u64 generation))
    end.

Definition resume_interrupted_summary (now : Z) (task_id : text) : Tx (option SummaryClaim) :=
  if negb (uuid_ok task_id) then throw InvalidSummaryRequest
  else
    let! interrupted := query (λ db,
      query_row (λ r, sm_task_id r = task_id ∧ sm_state r = Interrupted) (db_summaries db)) in
    match interrupted with
    | None => tret None
    | Some row =>
        let! request_id := lift (of_option Sqlite (sm_claim_id row)) in
        let! changed := exec (update_summaries
          (λ r, sm_task_id r = task_id ∧ sm_generation r = sm_generation row
                ∧ sm_state r = Interrupted ∧ sm_claim_id r = Some request_id)
          (set_summary_state Generating now)) in
        if negb (changed =? 1) then throw SummaryClaimChanged
        else
          let! claim := query_result (load_row ClaimReplay request_id task_id row) in
          tret (Some claim)
    end.

(** ** Attempts to synthesise speech *)

Definition summary_tts_attempt (claim : SummaryClaim) : Tx (option SummaryTtsAttemptState) :=
  let! _ := lift (validate_summary_claim claim) in
  let! generation := lift (to_i64 (sc_generation claim)) in
  query (λ db,
    at_state <$> query_row
      (λ a, at_task_id a = sc_task_id claim ∧ at_generation a = generation
            ∧ Exists (λ r, active_row (sc_task_id claim) generation r
                           ∧ sm_request_id r = Some (sc_request_id claim)) (db_summaries db))
      (db_attempts db)).

Definition begin_summary_tts_attempt (now : Z) (claim : SummaryClaim) : Tx SummaryTtsAttemptState :=
  let! _ := lift (validate_summary_claim claim) in
  let! generation := lift (to_i64 (sc_generation claim)) in
  let! active := query (λ db,
    exists_row (owned_row (sc_task_id claim) generation (sc_request_id claim)) (db_summaries db)) in
  if negb active then throw SummaryTtsAttemptChanged
  else
    let! _ := exec (insert_attempt_if_absent
      {| at_task_id := sc_task_id claim; at_generation := generation; at_state := Started;
         at_created_at := now; at_updated_at := now |}) in
    query_result (λ db,
      of_option Sqlite (at_state <$> query_row
        (λ a, at_task_id a = sc_task_id claim ∧ at_generation a = generation) (db_attempts db))).

Definition mark_summary_tts_ambiguous (now : Z) (claim : SummaryClaim) : Tx unit :=
  let! _ := lift (validate_summary_claim claim) in
  let! generation := lift (to_i64 (sc_generation claim)) in
  let! active := query (λ db,
    exists_row (owned_row (sc_task_id claim) generation (sc_request_id claim)) (db_summaries db)) in
  let! changed := exec (update_attempts
    (λ a, at_task_id a = sc_task_id claim ∧ at_generation a = generation ∧ active = true)
    (set_attempt Ambiguous now)) in
  if changed =? 1 then tret tt else throw SummaryTtsAttemptChanged.

(** ** Publication *)

Definition expected_cache (claim : SummaryClaim) : result StoreError text :=
  match for_task (sc_task_id claim) (sc_generation claim) with
  | Ok id => Ok (reference id)
  | Err _ => Err InvalidSummaryCacheReference
  end.

(** Marks the previous unread summary as superseded and moves its completions to the new
    generation; returns how many there were. *)
Definition supersede_previous (now : Z) (claim : SummaryClaim) (generation : Z)
    (previous : UnreadSummary) : Tx Z :=
  let! current := query_result (query_current_unread (sc_task_id claim)) in
  if negb (bool_decide (current = Some previous)) then throw SummaryClaimChanged
  else
    let! previous_generation := lift (to_i64 (us_generation previous)) in
    let! changed := exec (update_summaries
      (λ r, sm_task_id r = sc_task_id claim ∧ sm_generation r = previous_generation
            ∧ current_unread r)
      (λ r, set_summary (match sm_state r with Unheard => Superseded | s => s end)
              (sm_cache_object r) (sm_claim_id r) (Some generation) now r)) in
    if negb (changed =? 1) then throw SummaryClaimChanged
    else
      let! moved := exec (update_completions
        (λ c, cp_task_id c = sc_task_id claim
              ∧ cp_summarized_generation c = Some previous_generation)
        (set_summarized generation)) in
      let previous_coverage := moved mod 4294967296 in
      if negb (previous_coverage =? us_coverage_count previous) then throw SummaryClaimChanged
      else tret previous_coverage.

(** The loop that assigns the claimed completions to the generation. *)
Fixpoint cover_completions (task_id : text) (generation : Z) (cs : list PendingSummaryCompletion)
    : Tx unit :=
  match cs with
  | [] => tret tt
  | c :: cs =>
      let! changed := exec (update_completions
        (λ r, cp_completion_id r = pc_completion_id c ∧ cp_task_id r = task_id
              ∧ cp_turn_pack r = pc_turn_pack c ∧ cp_summarized_generation r = None)
        (set_summarized generation)) in
      if negb (changed =? 1) then throw SummaryClaimChanged
      else cover_completions task_id generation cs
  end.

(** The row [publish_summary] publishes: still generating, owned by the claim. *)
Definition publishable (task_id : text) (generation : Z) (request_id : text) (r : SummaryRow)
    : Prop :=
  sm_task_id r = task_id ∧ sm_generation r = generation ∧ sm_state r = Generating
  ∧ sm_claim_id r = Some request_id.

#[export] Instance publishable_dec task_id generation request_id r :
  Decision (publishable task_id generation request_id r).
Proof. unfold publishable. apply _. Defined.

Definition publish_summary (now : Z) (claim : SummaryClaim) (cache_object : text)
    : Tx UnreadSummary :=
  let! _ := lift (validate_summary_claim claim) in
  let! expected_cache := lift (expected_cache claim) in
  if negb (bool_decide (cache_object = expected_cache)) then throw InvalidSummaryCacheReference
  else
    let! generation := lift (to_i64 (sc_generation claim)) in
    let! stored := query (λ db,
      query_row (publishable (sc_task_id claim) generation (sc_request_id claim)) (db_summaries db)) in
    match stored with
    | None => throw SummaryClaimChanged
    | Some stored =>
        let! expected_previous :=
          lift match sc_previous_unread claim with
               | Some summary => let? g := to_i64 (us_generation summary) in Ok (Some g)
               | None => Ok None
               end in
        let! expected_covers := lift (of_option InvalidSummaryState
          (json_of_strings (pc_completion_id <$> sc_completions claim))) in
        if negb (bool_decide (sm_previous_generation stored = expected_previous))
           || negb (bool_decide (sm_covers_completions stored = expected_covers))
        then throw SummaryClaimChanged
        else
          let! previous_coverage :=
            match sc_previous_unread claim with
            | Some previous => supersede_previous now claim generation previous
            | None =>
                let! current := query_result (query_current_unread (sc_task_id claim)) in
                match current with Some _ => throw SummaryClaimChanged | None => tret 0 end
            end in
          let! _ := cover_completions (sc_task_id claim) generation (sc_completions claim) in
          let! changed := exec (update_summaries
            (publishable (sc_task_id claim) generation (sc_request_id claim))
            (λ r, set_summary Unheard (Some cache_object) None (sm_superseded_by r) now r)) in
          if negb (changed =? 1) then throw SummaryClaimChanged
          else
            let! _ := exec (delete_attempt (sc_task_id claim) generation) in
            let! coverage_count := lift (of_option InvalidSummaryState
              (checked_add u32_max previous_coverage (Z.of_nat (length (sc_completions claim))))) in
            tret {| us_task_id := sc_task_id claim; us_generation := sc_generation claim;
                    us_cache_object := cache_object; us_coverage_count := coverage_count |}
    end.

(** ** Status *)

Definition current_unread_summary (task_id : text) : Tx (option UnreadSummary) :=
  if negb (uuid_ok task_id) then throw InvalidSummaryRequest
  else query_result (query_current_unread task_id).

(** [coverage_by_slot[index] = v] panics out of range. *)
Definition set_coverage (index v : Z) (s : MailboxStatusSnapshot)
    : result StoreError MailboxStatusSnapshot :=
  if (0 <=? index) && (index <? 4) then
    Ok {| ms_unread_slots := Z.lor (ms_unread_slots s) (Z.shiftl 1 index);
          ms_coverage_by_slot := <[Z.to_nat index := v]> (ms_coverage_by_slot s) |}
  else Err Panic.

Fixpoint mailbox_loop (bs : list Binding) (status : MailboxStatusSnapshot)
    : Tx MailboxStatusSnapshot :=
  match bs with
  | [] => tret status
  | b :: bs =>
      let! unread := current_unread_summary (bd_task_id b) in
      match unread with
      | None => mailbox_loop bs status
      | Some unread =>
          let! status := lift (set_coverage (bd_slot b - 1)
                                 (Z.min (us_coverage_count unread) u8_max) status) in
          mailbox_loop bs status
      end
  end.

(** Some slot is unread without coverage, or the other way round. *)
Definition mailbox_mismatch (s : MailboxStatusSnapshot) : bool :=
  existsb id (imap (λ index coverage,
    negb (Bool.eqb (negb (Z.land (ms_unread_slots s) (Z.shiftl 1 (Z.of_nat index)) =? 0))
                   (negb (coverage =? 0)))) (ms_coverage_by_slot s)).

Definition mailbox_status : Tx MailboxStatusSnapshot :=
  let! bs := bindings in
  let! status := mailbox_loop bs (mk_snapshot 0 [0; 0; 0; 0]) in
  if mailbox_mismatch status then throw InvalidSummaryState else tret status.

Definition pending_summary_completion_count (task_id : text) : Tx Z :=
  if negb (uuid_ok task_id) then throw InvalidSummaryRequest
  else query_result (λ db, sql_u32 (count_rows (pending_completion task_id) (db_completions db))).

(** [ORDER BY] and comparison of text: bytewise. *)
Fixpoint text_leb (a b : text) : bool :=
  match a, b with
  | [], _ => true
  | _ :: _, [] => false
  | x :: a, y :: b => (x <? y) || ((x =? y) && text_leb a b)
  end.

Definition after_task (after : option text) (task_id : text) : Prop :=
  match after with
  | Some a => text_leb a task_id = true ∧ a ≠ task_id
  | None => True
  end.

#[export] Instance after_task_dec after task_id : Decision (after_task after task_id).
Proof. destruct after; apply _. Defined.

Definition summary_work_tasks_after (after_task_id : option text) : Tx (list text) :=
  query_result (λ db,
    let tasks :=
      take 32 (order_by text_leb (filter (after_task after_task_id) (remove_dups
        ((sm_task_id <$> filter (λ r, sm_state r = Interrupted) (db_summaries db))
         ++ (cp_task_id <$> filter (λ c, cp_summarized_generation c = None) (db_completions db)))))) in
    if forallb uuid_ok tasks then Ok tasks else Err InvalidSummaryState).

(** ** Recovery on open *)

Definition recover_interrupted_summaries (now : Z) : Tx Z :=
  exec (update_summaries (λ r, sm_state r = Generating) (set_summary_state Interrupted now)).

End summaries.
