(* ===== verification/StorePlayback.v ===== *)
(** * Playback leases: operations (app/host/src/store.rs)

    A slot's current unread summary is leased to one playback at a time
    ([acquire_summary_playback]); the lease is cancelled or finished, and only a finished
    lease makes the summary heard.  On open all leases are returned. *)

From stdpp Require Import gmap.
From S2P Require Import Prelude Bytes CacheRef Sql StoreTypes StoreRollout StoreSummary.

Definition with_leases (t : list LeaseRow) (db : Db) : Db :=
  {| db_bindings := db_bindings db; db_jobs := db_jobs db;
     db_job_sequence := db_job_sequence db;
     db_completions := db_completions db; db_cursors := db_cursors db;
     db_summaries := db_summaries db; db_attempts := db_attempts db; db_leases := t |}.

Definition insert_lease (r : LeaseRow) (db : Db) : Db * Z :=
  (with_leases (db_leases db ++ [r]) db, 1).

Definition delete_leases (P : LeaseRow → Prop) `{∀ r, Decision (P r)} (db : Db) : Db * Z :=
  (with_leases (delete_rows P (db_leases db)) db, count_rows P (db_leases db)).

(** The row of exactly this lease: all six columns agree. *)
Definition exact_lease (l : SummaryPlaybackLease) (r : LeaseRow) : Prop :=
  lr_lease_id r = pl_lease l ∧ lr_task_id r = pl_task_id l
  ∧ lr_summary_generation r = pl_summary_generation l ∧ lr_slot r = pl_slot l
  ∧ lr_request_generation r = pl_request_generation l
  ∧ lr_connection_generation r = pl_connection_generation l.

#[export] Instance exact_lease_dec l r : Decision (exact_lease l r).
Proof. unfold exact_lease. apply _. Defined.

(** [CASE WHEN superseded_by IS NULL THEN 'unheard' ELSE 'superseded' END] *)
Definition returned_state (r : SummaryRow) : SummaryState :=
  match sm_superseded_by r with None => Unheard | Some _ => Superseded end.

(** The columns read of an existing lease. *)
Definition lease_columns (r : LeaseRow) : result StoreError (Z * Z * Z * Z) :=
  let? slot := sql_u8 (lr_slot r) in
  let? request := sql_u32 (lr_request_generation r) in
  let? connection := sql_u32 (lr_connection_generation r) in
  Ok (lr_lease_id r, slot, request, connection).

Section playback.
Context `{Externals, Crypto}.

Definition acquire_summary_playback (now slot request_generation connection_generation lease : Z)
    : Tx (option SummaryPlaybackLease) :=
  let! _ := lift (validate_slot slot) in
  if (request_generation =? 0) || (connection_generation =? 0) || (lease =? 0)
     || (i64_max <? lease)
  then throw InvalidPlaybackLease
  else
    let! task_id := query (λ db,
      br_task_id <$> query_row (λ r, br_slot r = slot) (db_bindings db)) in
    match task_id with
    | None => tret None
    | Some task_id =>
        let! summary := query (λ db,
          query_row (λ r, sm_task_id r = task_id ∧ current_unread r) (db_summaries db)) in
        match summary with
        | None => tret None
        | Some r =>
            let generation := sm_generation r in
            let! cache_object := lift (of_option Sqlite (sm_cache_object r)) in
            let granted :=
              {| pl_lease := lease; pl_slot := slot; pl_task_id := task_id;
                 pl_summary_generation := as_u64 generation;
                 pl_request_generation := request_generation;
                 pl_connection_generation := connection_generation;
                 pl_cache_object := cache_object |} in
            let! existing := query (λ db,
              query_row (λ l, lr_task_id l = task_id ∧ lr_summary_generation l = generation)
                (db_leases db)) in
            match existing with
            | Some l =>
                let! columns := lift (lease_columns l) in
                if bool_decide (columns =
                     (as_i64 lease, slot, request_generation, connection_generation))
                then tret (Some granted)
                else throw PlaybackBusy
            | None =>
                if negb (bool_decide (sm_state r = Unheard)) then throw PlaybackBusy
                else
                  let! changed := exec (update_summaries
                    (λ r, sm_task_id r = task_id ∧ sm_generation r = generation
                          ∧ sm_state r = Unheard ∧ sm_superseded_by r = None)
                    (set_summary_state Leased now)) in
                  if negb (changed =? 1) then throw PlaybackBusy
                  else
                    let! _ := exec (insert_lease
                      {| lr_lease_id := as_i64 lease; lr_task_id := task_id;
                         lr_summary_generation := generation; lr_slot := slot;
                         lr_request_generation := request_generation;
                         lr_connection_generation := connection_generation;
                         lr_created_at := now; lr_updated_at := now |}) in
                    tret (Some granted)
            end
        end
    end.

(** The parameters of the lease statements; [validate_playback_lease] bounds them. *)
Definition lease_params (l : SummaryPlaybackLease) : result StoreError unit :=
  let? _ := to_i64 (pl_lease l) in
  let? _ := to_i64 (pl_summary_generation l) in
  Ok tt.

Definition cancel_summary_playback (now : Z) (lease : SummaryPlaybackLease) : Tx bool :=
  let! _ := lift (validate_playback_lease lease) in
  let! _ := lift (lease_params lease) in
  let! removed := exec (delete_leases (exact_lease lease)) in
  if removed =? 1 then
    let! _ := exec (update_summaries
      (λ r, sm_task_id r = pl_task_id lease ∧ sm_generation r = pl_summary_generation lease
            ∧ sm_state r = Leased)
      (λ r, set_summary_state (returned_state r) now r)) in
    tret true
  else tret false.

Definition finish_summary_playback (now : Z) (lease : SummaryPlaybackLease) : Tx bool :=
  let! _ := lift (validate_playback_lease lease) in
  let! _ := lift (lease_params lease) in
  let! exact := query (λ db, exists_row (exact_lease lease) (db_leases db)) in
  if negb exact then tret false
  else
    let! changed := exec (update_summaries
      (λ r, sm_task_id r = pl_task_id lease ∧ sm_generation r = pl_summary_generation lease
            ∧ sm_state r = Leased ∧ sm_cache_object r = Some (pl_cache_object lease))
      (set_summary_state Heard now)) in
    if negb (changed =? 1) then throw InvalidSummaryState
    else
      let! _ := exec (delete_leases (λ r, lr_lease_id r = pl_lease lease)) in
      tret true.

Definition retained_summary_cache_references : Tx (gset text) :=
  query (λ db,
    list_to_set (omap sm_cache_object
      (filter (λ r, (sm_state r = Unheard ∨ sm_state r = Leased) ∧ sm_cache_object r ≠ None)
        (db_summaries db)))).

Definition recover_interrupted_playback_leases (now : Z) : Tx unit :=
  let! _ := exec (update_summaries (λ r, sm_state r = Leased)
    (λ r, set_summary_state (returned_state r) now r)) in
  let! _ := exec (delete_leases any) in
  tret tt.

End playback.
