(* ===== verification/SummaryInv.v ===== *)
(** * The invariant of the summary ledger

    [summary_inv] ties the ledger, the completions, the speech attempts and the playback
    leases together: published rows carry the cache reference of their own task and
    generation, exactly the leased rows have a lease, every summarised completion is covered
    by a live summary and every live summary covers something, and a claim in progress names
    pending completions and the unread summary it will replace.  [summary_inv_update] is the
    preservation lemma for the statements that only move rows between states. *)

From S2P Require Import Prelude Bytes CacheRef Sql.
From S2P Require Import StoreTypes StoreRollout StoreSummary StorePlayback.

(** A summary the user can still hear about: not replaced, not abandoned. *)
Definition live (r : SummaryRow) : Prop :=
  sm_superseded_by r = None
  ∧ (sm_state r = Unheard ∨ sm_state r = Leased ∨ sm_state r = Heard).

Definition covers_row (r : SummaryRow) (c : CompletionRow) : Prop :=
  cp_task_id c = sm_task_id r ∧ cp_summarized_generation c = Some (sm_generation r).

(** Columns that state changes keep. *)
Record same_columns (r s : SummaryRow) : Prop := {
  sc_task : sm_task_id s = sm_task_id r;
  sc_gen : sm_generation s = sm_generation r;
  sc_covers : sm_covers_completions s = sm_covers_completions r;
  sc_request : sm_request_id s = sm_request_id r;
  sc_previous : sm_previous_generation s = sm_previous_generation r;
}.

Section inv.
Context `{Externals, Crypto}.

Definition cache_ref (task_id : text) (generation : Z) : text :=
  reference {| ci_task_hash := sha256 task_id; ci_generation := generation |}.

(** The claim columns of an active row, readable by [load_summary_claim]. *)
Definition claim_columns (db : Db) (r : SummaryRow) : Prop :=
  ∃ request ids cs,
    sm_request_id r = Some request ∧ sm_claim_id r = Some request
    ∧ json_of_strings ids = Some (sm_covers_completions r)
    ∧ ids ≠ [] ∧ Z.of_nat (length ids) ≤ MAX_SUMMARY_COMPLETIONS_PER_CLAIM ∧ NoDup ids
    ∧ forallb uuid_ok ids = true
    ∧ load_completions (sm_task_id r) 0 ids db = Ok cs.

Record summary_inv (db : Db) : Prop := {
  si_range r : r ∈ db_summaries db → sm_generation r ≤ i64_max;
  si_cache r : r ∈ db_summaries db → published r →
    sm_cache_object r = Some (cache_ref (sm_task_id r) (sm_generation r));
  si_leased r : r ∈ db_summaries db →
    (sm_state r = Leased ↔ ∃ l, l ∈ db_leases db ∧ lr_key l = sm_key r);
  si_unheard r : r ∈ db_summaries db → sm_state r = Unheard → sm_superseded_by r = None;
  si_replaced r : r ∈ db_summaries db → sm_state r = Superseded → sm_superseded_by r ≠ None;
  si_superseded r g : r ∈ db_summaries db → sm_superseded_by r = Some g →
    published r ∧ ∃ s, s ∈ db_summaries db ∧ sm_task_id s = sm_task_id r
      ∧ sm_generation s = g ∧ published s;
  si_covered c g : c ∈ db_completions db → cp_summarized_generation c = Some g →
    ∃ r, r ∈ db_summaries db ∧ live r ∧ covers_row r c;
  si_coverage r : r ∈ db_summaries db → live r → ∃ c, c ∈ db_completions db ∧ covers_row r c;
  si_active r : r ∈ db_summaries db → active_claim r → claim_columns db r;
  si_previous r u : r ∈ db_summaries db → u ∈ db_summaries db → active_claim r →
    current_unread u → sm_task_id u = sm_task_id r →
    sm_previous_generation r = Some (sm_generation u);
  si_newest r s : r ∈ db_summaries db → s ∈ db_summaries db → active_claim r →
    sm_task_id s = sm_task_id r → s = r ∨ sm_generation s < sm_generation r;
  si_attempts a : a ∈ db_attempts db →
    ∃ r, r ∈ db_summaries db ∧ active_claim r ∧ sm_key r = at_key a;
  si_completions c : c ∈ db_completions db →
    uuid_ok (cp_completion_id c) = true ∧ 0 < blen (cp_turn_pack c) ≤ MAX_TURN_PACK_BYTES;
}.

Lemma summaries_schema_of db : schema_ok db → summaries_schema (db_summaries db).
Proof. unfold schema_ok. tauto. Qed.
Lemma completions_schema_of db : schema_ok db → completions_schema (db_completions db).
Proof. unfold schema_ok. tauto. Qed.
Lemma attempts_schema_of db : schema_ok db → attempts_schema (db_summaries db) (db_attempts db).
Proof. unfold schema_ok. tauto. Qed.
Lemma leases_schema_of db : schema_ok db → leases_schema (db_summaries db) (db_leases db).
Proof. unfold schema_ok. tauto. Qed.

Lemma summary_key_unique db r s :
  schema_ok db → r ∈ db_summaries db → s ∈ db_summaries db → sm_key r = sm_key s → r = s.
Proof. intros (Hu&_)%summaries_schema_of ???. by eapply (unique_on_elem any sm_key). Qed.

Lemma summary_key_unique' db r s :
  schema_ok db → r ∈ db_summaries db → s ∈ db_summaries db →
  sm_task_id r = sm_task_id s → sm_generation r = sm_generation s → r = s.
Proof. intros. eapply summary_key_unique; eauto. unfold sm_key. congruence. Qed.

Lemma active_unique db r s :
  schema_ok db → r ∈ db_summaries db → s ∈ db_summaries db → active_claim r → active_claim s →
  sm_task_id r = sm_task_id s → r = s.
Proof. intros (_&Hu&_)%summaries_schema_of ?????. by eapply (unique_on_elem active_claim sm_task_id). Qed.

Lemma unread_unique db r s :
  schema_ok db → r ∈ db_summaries db → s ∈ db_summaries db → current_unread r → current_unread s →
  sm_task_id r = sm_task_id s → r = s.
Proof. intros (_&_&_&Hu&_)%summaries_schema_of ?????. by eapply (unique_on_elem current_unread sm_task_id). Qed.

Lemma completion_unique db c d :
  schema_ok db → c ∈ db_completions db → d ∈ db_completions db →
  cp_completion_id c = cp_completion_id d → c = d.
Proof. intros Hu%completions_schema_of ???. by eapply (unique_on_elem any cp_completion_id). Qed.

Lemma summary_row_check db r : schema_ok db → r ∈ db_summaries db → summary_check r.
Proof. intros (_&_&_&_&Hc)%summaries_schema_of Hr. rewrite Forall_forall in Hc. auto. Qed.

Lemma active_not_published r : active_claim r → ¬ published r.
Proof. unfold active_claim, published. intros [->| ->]; naive_solver. Qed.

Lemma live_published r : live r → published r.
Proof. unfold live, published. tauto. Qed.

Lemma unread_live r : current_unread r → live r.
Proof. unfold current_unread, live. tauto. Qed.

Lemma unread_not_active r : current_unread r → ¬ active_claim r.
Proof. intros Hu Ha. by eapply active_not_published, live_published, unread_live. Qed.

(** At most one row has a given task and generation. *)
Lemma key_count_le P `{∀ r, Decision (P r)} task gen db :
  schema_ok db → (∀ r, P r → sm_task_id r = task ∧ sm_generation r = gen) →
  count_rows P (db_summaries db) ≤ 1.
Proof.
  intros Hs HP. apply (count_rows_unique any sm_key _ (task, gen)).
  - apply (summaries_schema_of _ Hs).
  - intros r _ Hr. split; [done|]. destruct (HP r Hr) as [<- <-]. done.
Qed.

(** A statement on such a row that changed nothing left the database as it was. *)
Lemma update_summaries_none P `{∀ r, Decision (P r)} f task gen db :
  schema_ok db → (∀ r, P r → sm_task_id r = task ∧ sm_generation r = gen) →
  count_rows P (db_summaries db) ≠ 1 → (update_summaries P f db).1 = db.
Proof.
  intros Hs HP Hn. pose proof (key_count_le P task gen db Hs HP).
  pose proof (count_rows_nonneg P (db_summaries db)). simpl.
  rewrite update_rows_none; [by destruct db|].
  intros r Hr. apply (count_rows_zero_1 P (db_summaries db)); [lia|done].
Qed.

(** ** Reading completions back *)

Lemma query_row_update_other {R} (Q P : R → Prop) `{∀ r, Decision (Q r), ∀ r, Decision (P r)} f t :
  (∀ r, r ∈ t → P r → ¬ Q r ∧ ¬ Q (f r)) → query_row Q (update_rows P f t) = query_row Q t.
Proof.
  unfold query_row, update_rows. induction t as [|r t IH]; intros Hd; [done|].
  assert (IH' := IH ltac:(intros; apply Hd; [by constructor|done])).
  rewrite fmap_cons. unfold upd at 1. case_decide as HP.
  - destruct (Hd r ltac:(constructor) HP). by rewrite !filter_cons_False.
  - rewrite !filter_cons. by case_decide.
Qed.

Lemma query_row_snoc_other {R} (Q : R → Prop) `{∀ r, Decision (Q r)} t r :
  ¬ Q r → query_row Q (t ++ [r]) = query_row Q t.
Proof.
  intros. unfold query_row. rewrite filter_app, filter_cons_False by done.
  by rewrite app_nil_r.
Qed.

Lemma load_completions_ext task total ids db db' :
  (∀ id, id ∈ ids →
     query_row (λ c, cp_completion_id c = id ∧ cp_task_id c = task) (db_completions db')
     = query_row (λ c, cp_completion_id c = id ∧ cp_task_id c = task) (db_completions db)) →
  load_completions task total ids db' = load_completions task total ids db.
Proof.
  revert total. induction ids as [|id ids IH]; intros total Hq; simpl; [done|].
  rewrite Hq by constructor. destruct (query_row _ _) as [c|]; [|done].
  destruct (cp_summarized_generation c); [done|].
  destruct (checked_add _ _ _) as [t|]; simpl; [|done].
  rewrite IH; [done|]. intros. apply Hq. by constructor.
Qed.

Lemma claim_columns_same db db' r s :
  same_columns r s → sm_claim_id s = sm_claim_id r → db_completions db' = db_completions db →
  claim_columns db r → claim_columns db' s.
Proof.
  intros [Et _ Ec Er _] El Ed (req & ids & cs & ? & ? & ? & ? & ? & ? & ? & Hl).
  exists req, ids, cs. rewrite Et, Ec, Er, El. split_and!; try done.
  rewrite <- Hl. apply load_completions_ext. by rewrite Ed.
Qed.

(** ** Statements that move rows between states *)

Lemma summary_inv_update P `{∀ r, Decision (P r)} f db db' :
  summary_inv db →
  db_summaries db' = update_rows P f (db_summaries db) →
  db_completions db' = db_completions db →
  (∀ r, r ∈ db_summaries db → P r →
     same_columns r (f r) ∧ sm_superseded_by (f r) = sm_superseded_by r
     ∧ (published (f r) → sm_cache_object (f r) = sm_cache_object r)
     ∧ (published (f r) ↔ published r) ∧ (live (f r) ↔ live r)
     ∧ (active_claim (f r) → active_claim r ∧ sm_claim_id (f r) = sm_claim_id r)
     ∧ (current_unread (f r) → current_unread r)
     ∧ (sm_state (f r) = Unheard → sm_superseded_by r = None)
     ∧ (sm_state (f r) = Superseded → sm_superseded_by r ≠ None)) →
  (∀ r, r ∈ db_summaries db →
     (sm_state (upd P f r) = Leased ↔ ∃ l, l ∈ db_leases db' ∧ lr_key l = sm_key r)) →
  (∀ a, a ∈ db_attempts db' → a ∈ db_attempts db
     ∧ ∀ r, r ∈ db_summaries db → P r → sm_key r = at_key a → active_claim r → active_claim (f r)) →
  summary_inv db'.
Proof.
  intros Hi Es Ec Hf Hlease Hatt.
  assert (Hu : ∀ r, r ∈ db_summaries db →
    same_columns r (upd P f r) ∧ sm_superseded_by (upd P f r) = sm_superseded_by r
     ∧ (published (upd P f r) → sm_cache_object (upd P f r) = sm_cache_object r)
     ∧ (published (upd P f r) ↔ published r) ∧ (live (upd P f r) ↔ live r)
     ∧ (active_claim (upd P f r) → active_claim r ∧ sm_claim_id (upd P f r) = sm_claim_id r)
     ∧ (current_unread (upd P f r) → current_unread r)
     ∧ (sm_state (upd P f r) = Unheard → sm_superseded_by r = None)
     ∧ (sm_state (upd P f r) = Superseded → sm_superseded_by r ≠ None)).
  { intros r Hr. unfold upd. case_decide as HP; [by apply Hf|].
    split_and!; try done; [by apply (si_unheard _ Hi)|by apply (si_replaced _ Hi)]. }
  clear Hf. assert (Hin : ∀ r, r ∈ db_summaries db' ↔ ∃ s, s ∈ db_summaries db ∧ r = upd P f s)
    by (intros; rewrite Es; apply elem_of_update).
  split.
  - intros r (s & Hs & ->)%Hin. destruct (Hu s Hs) as ([]&_). rewrite sc_gen0. by apply (si_range _ Hi).
  - intros r (s & Hs & ->)%Hin Hp. destruct (Hu s Hs) as ([]&_&Hc&Hpp&_).
    rewrite (Hc Hp), sc_task0, sc_gen0. by apply (si_cache _ Hi), Hpp.
  - intros r (s & Hs & ->)%Hin. rewrite (Hlease s Hs). destruct (Hu s Hs) as ([]&_).
    unfold sm_key. by rewrite sc_task0, sc_gen0.
  - intros r (s & Hs & ->)%Hin E. destruct (Hu s Hs) as (_&->&_&_&_&_&_&?&_). auto.
  - intros r (s & Hs & ->)%Hin E. destruct (Hu s Hs) as (_&->&_&_&_&_&_&_&?). auto.
  - intros r g (s & Hs & ->)%Hin E. destruct (Hu s Hs) as ([]&E1&_&Hpp&_).
    rewrite E1 in E. destruct (si_superseded _ Hi s g Hs E) as [Hp (q & Hq & Hqt & Hqg & Hqp)].
    split; [by apply Hpp|]. destruct (Hu q Hq) as ([]&_&_&Hqpp&_).
    exists (upd P f q). rewrite Hin. split_and!; [eauto|congruence|congruence|by apply Hqpp].
  - intros c g Hc E. rewrite Ec in Hc.
    destruct (si_covered _ Hi c g Hc E) as (s & Hs & Hlv & Hcov).
    destruct (Hu s Hs) as ([]&_&_&_&Hll&_). exists (upd P f s). rewrite Hin.
    split_and!; [eauto|by apply Hll|]. unfold covers_row in *. by rewrite sc_task0, sc_gen0.
  - intros r (s & Hs & ->)%Hin Hl. destruct (Hu s Hs) as ([]&_&_&_&Hll&_).
    rewrite Ec. unfold covers_row. rewrite sc_task0, sc_gen0. by apply (si_coverage _ Hi), Hll.
  - intros r (s & Hs & ->)%Hin Ha. destruct (Hu s Hs) as (Hsame&_&_&_&_&Haa&_).
    destruct (Haa Ha) as [Has Hcl]. eapply claim_columns_same; eauto. by apply (si_active _ Hi).
  - intros r u (s & Hs & ->)%Hin (v & Hv & ->)%Hin Ha Hc Et.
    destruct (Hu s Hs) as ([]&_&_&_&_&Haa&_). destruct (Hu v Hv) as ([]&_&_&_&_&_&Hcc&_).
    rewrite sc_previous0, sc_gen1. rewrite sc_task0, sc_task1 in Et.
    apply (si_previous _ Hi); auto. by apply Haa.
  - intros r u (s & Hs & ->)%Hin (v & Hv & ->)%Hin Ha Et.
    destruct (Hu s Hs) as ([]&_&_&_&_&Haa&_). destruct (Hu v Hv) as ([]&_).
    rewrite sc_gen0, sc_gen1. rewrite sc_task0, sc_task1 in Et.
    destruct (si_newest _ Hi s v) as [->|?]; [done|done|by apply Haa|done|by left|by right].
  - intros a [Ha Hkeep]%Hatt. destruct (si_attempts _ Hi a Ha) as (s & Hs & Has & Hk).
    exists (upd P f s). rewrite Hin. destruct (Hu s Hs) as ([]&_). split_and!; [eauto| |].
    + unfold upd. case_decide; [by apply Hkeep|done].
    + rewrite <- Hk. unfold sm_key. by rewrite sc_task0, sc_gen0.
  - intros c Hc. rewrite Ec in Hc. by apply (si_completions _ Hi).
Qed.

(** Statements on other tables. *)
Lemma summary_inv_frame db db' :
  db_summaries db' = db_summaries db → db_completions db' = db_completions db →
  db_leases db' = db_leases db → db_attempts db' = db_attempts db →
  summary_inv db → summary_inv db'.
Proof.
  intros Es Ec El Ea Hi.
  apply (summary_inv_update (λ _, False) id db db'); [done|..].
  - rewrite Es. unfold update_rows, upd. symmetry. rewrite <- (list_fmap_id (db_summaries db)) at 2.
    apply list_fmap_ext. intros. by rewrite decide_False by (by intros []).
  - done.
  - by intros.
  - intros r Hr. rewrite El. unfold upd. rewrite decide_False by (by intros []). by apply (si_leased _ Hi).
  - intros a. rewrite Ea. by intros.
Qed.

End inv.
