(* ===== verification/SummaryOps.v ===== *)
(** * Claims, attempts and recovery preserve the ledger invariant

    The queries of a claim ([take_pending], [load_completions]) are characterised, then
    every operation of StoreSummary.v except publication is shown to keep
    [summary_inv]. *)

From S2P Require Import Prelude Bytes CacheRef Sql StoreTypes.
From S2P Require Import StoreJobs StoreRollout StoreSummary StorePlayback SummaryInv.

(** Settles the side conditions of [summary_inv_update] for a statement that sets the
    state of rows whose state the WHERE clause fixes. *)
Ltac state_change :=
  intros; simpl in *; destruct_and?;
  unfold published, live, active_claim, current_unread in *; simpl in *;
  repeat match goal with E : sm_state _ = _ |- _ => rewrite E in * end;
  split_and!; first [by constructor | naive_solver].

Section ops.
Context `{Externals, Crypto}.

(** No row enters or leaves the leased state. *)
Lemma leases_unchanged P `{∀ r, Decision (P r)} f db db' :
  summary_inv db → db_leases db' = db_leases db →
  (∀ r, r ∈ db_summaries db → P r → sm_state r ≠ Leased ∧ sm_state (f r) ≠ Leased) →
  ∀ r, r ∈ db_summaries db →
    (sm_state (upd P f r) = Leased ↔ ∃ l, l ∈ db_leases db' ∧ lr_key l = sm_key r).
Proof.
  intros Hi El Hf r Hr. rewrite El, <- (si_leased _ Hi r Hr). unfold upd.
  case_decide as HP; [|done]. destruct (Hf r Hr HP). tauto.
Qed.

(** ** Resuming and interrupting *)

Lemma reactivate_ok now req task row db u db' :
  reactivate now req task row db = Ok (u, db') →
  schema_ok db' ∧
  db' = (update_summaries
    (λ s, sm_request_id s = Some req ∧ sm_task_id s = task
          ∧ sm_generation s = sm_generation row ∧ sm_state s = Interrupted
          ∧ sm_claim_id s = Some req) (set_summary_state Generating now) db).1.
Proof. unfold reactivate. intros Hr. run_tx Hr. by injection Hrun as <- <-. Qed.

Lemma reactivate_inv now req task row db u db' :
  reactivate now req task row db = Ok (u, db') → summary_inv db → summary_inv db'.
Proof.
  intros (_ & ->)%reactivate_ok Hi.
  eapply (summary_inv_update _ _ db); [done|reflexivity|done|state_change| |].
  - apply leases_unchanged; [done..|]. state_change.
  - intros a Ha. split; [done|]. intros. by left.
Qed.

Lemma recover_summaries_inv now db n db' :
  recover_interrupted_summaries now db = Ok (n, db') → summary_inv db → summary_inv db'.
Proof.
  unfold recover_interrupted_summaries. intros Hr Hi. run_tx Hr. injection Hr as <- <-.
  eapply (summary_inv_update _ _ db); [done|reflexivity|done|state_change| |].
  - apply leases_unchanged; [done..|]. state_change.
  - intros a Ha. split; [done|]. intros. by right.
Qed.

(** ** Abandoning a claim *)

(** The claim's row becomes abandoned and its attempts go. *)
Lemma abandon_inv P `{∀ r, Decision (P r)} now task gen db :
  schema_ok db → summary_inv db →
  (∀ r, r ∈ db_summaries db → P r → active_row task gen r) →
  let db1 := (update_summaries P
    (λ r, set_summary Abandoned (sm_cache_object r) None (sm_superseded_by r) now r) db).1 in
  summary_inv (delete_attempt task gen db1).1.
Proof.
  intros Hs Hi HP db1.
  eapply (summary_inv_update P _ db); [done|reflexivity|done| | |].
  - intros r Hr Hp. destruct (HP r Hr Hp) as (_ & _ & Ha). destruct Ha; state_change.
  - apply leases_unchanged; [done..|]. intros r Hr Hp.
    destruct (HP r Hr Hp) as (_ & _ & [-> | ->]); done.
  - simpl. intros a [Ha Hne]%elem_of_delete. split; [done|]. intros r Hr Hp E _. exfalso.
    destruct (HP r Hr Hp) as (<- & <- & _). unfold sm_key, at_key in E. apply Hne. by injection E.
Qed.

Lemma abandon_claim_inv now claim db b db' :
  abandon_summary_claim now claim db = Ok (b, db') → schema_ok db → summary_inv db →
  summary_inv db'.
Proof.
  unfold abandon_summary_claim. intros Hr Hs Hi. run_tx Hr.
  - injection Hrun1 as <- Hn. injection Hrun2 as <- _. apply abandon_inv; [done..|]. tauto.
  - exec_result Hrun1. apply Z.eqb_neq in Hif.
    rewrite (update_summaries_none _ _ (sc_task_id claim) a0); [done|done| |done].
    unfold active_row. tauto.
Qed.

Lemma abandon_interrupted_inv now task db o db' :
  abandon_interrupted_summary_for_task now task db = Ok (o, db') →
  schema_ok db → summary_inv db → summary_inv db'.
Proof.
  unfold abandon_interrupted_summary_for_task. intros Hr Hs Hi. run_tx Hr; [done..| |done].
  injection Hrun as <- Hn. injection Hrun0 as <- _. apply abandon_inv; [done..|].
  unfold active_row, active_claim. tauto.
Qed.

(** ** Resuming a claim *)

Lemma resume_inv now task db o db' :
  resume_interrupted_summary now task db = Ok (o, db') → summary_inv db → summary_inv db'.
Proof.
  unfold resume_interrupted_summary. intros Hr Hi. run_tx Hr; try done.
  injection Hrun0 as <- Hn.
  eapply (summary_inv_update _ _ _); [exact Hi|reflexivity|done|state_change| |].
  - apply leases_unchanged; [done..|]. state_change.
  - intros at_ Ha. split; [done|]. intros. by left.
Qed.

(** ** Attempts *)

Lemma summary_inv_attempts t db :
  summary_inv db →
  (∀ a, a ∈ t → ∃ r, r ∈ db_summaries db ∧ active_claim r ∧ sm_key r = at_key a) →
  summary_inv (with_attempts t db).
Proof.
  intros Hi Ht. destruct Hi. split; simpl; try done.
  intros r Hr Ha. apply (claim_columns_same db _ r); [by constructor|done|done|by apply si_active].
Qed.

Lemma begin_attempt_inv now claim db s db' :
  begin_summary_tts_attempt now claim db = Ok (s, db') → summary_inv db → summary_inv db'.
Proof.
  unfold begin_summary_tts_attempt. intros Hr Hi. run_tx Hr. apply negb_false_iff in Hif.
  unfold insert_attempt_if_absent in Hrun1.
  destruct (exists_row (λ s, _ = _) _); injection Hrun1 as <- <-; [done|].
  apply summary_inv_attempts; [done|].
  intros at_ [Ha|Ha]%elem_of_app; [by apply (si_attempts _ Hi)|].
  apply list_elem_of_singleton in Ha as ->.
  apply exists_row_true in Hif as (r & Hr' & (Ht & Hg & Hact) & _).
  exists r. split_and!; [done|done|]. unfold sm_key, at_key. simpl. congruence.
Qed.

Lemma mark_ambiguous_inv now claim db u db' :
  mark_summary_tts_ambiguous now claim db = Ok (u, db') → summary_inv db → summary_inv db'.
Proof.
  unfold mark_summary_tts_ambiguous. intros Hr Hi. run_tx Hr. injection Hrun1 as <- <-.
  apply summary_inv_attempts; [done|].
  intros at_ (b & Hb & ->)%elem_of_update.
  destruct (si_attempts _ Hi b Hb) as (r & ? & ? & E). exists r. split_and!; [done..|].
  unfold upd. by destruct (decide (at_task_id b = _ ∧ _)).
Qed.

(** ** Recording a completion *)

Lemma query_completion_snoc id task c t :
  cp_completion_id c ≠ id →
  query_row (λ c, cp_completion_id c = id ∧ cp_task_id c = task) (t ++ [c])
  = query_row (λ c, cp_completion_id c = id ∧ cp_task_id c = task) t.
Proof. intros. apply query_row_snoc_other. tauto. Qed.

Lemma load_completions_in task total ids db cs :
  load_completions task total ids db = Ok cs →
  ids = pc_completion_id <$> cs
  ∧ ∀ p, p ∈ cs → ∃ c, c ∈ db_completions db ∧ pending_completion task c
      ∧ cp_completion_id c = pc_completion_id p ∧ cp_turn_pack c = pc_turn_pack p.
Proof.
  revert total cs. induction ids as [|id ids IH]; intros total cs; simpl.
  { intros [= <-]. split; [done|]. by intros p ?%not_elem_of_nil. }
  destruct (query_row _ _) as [c|] eqn:Eq; [|done].
  destruct (cp_summarized_generation c) eqn:Es; [done|]. intros Hl. run_ok Hl. subst cs.
  destruct (IH _ _ Hrun0) as [-> Hin]. apply query_row_some in Eq as (Hc & <- & Ht).
  split; [done|]. intros p [->|Hp]%elem_of_cons; [|by apply Hin]. by exists c.
Qed.

Lemma commit_inv now b expected next cid tp db o db' :
  commit_rollout_completion_on now b expected next cid tp db = Ok (o, db') →
  summary_inv db → summary_inv db'.
Proof.
  intros Hr Hi. apply commit_ok in Hr as (Hv & _ & _ & _ & _ & _ & _ & _ & db1 & Hr & ->).
  apply (summary_inv_frame db1); [done..|].
  apply record_completion_ok in Hr as [(_ & -> & _)|(_ & Hnew & ->)]; [done|].
  assert (Hok : uuid_ok cid = true ∧ 0 < blen tp ≤ MAX_TURN_PACK_BYTES).
  { unfold validate_rollout_completion in Hv. apply require_ok in Hv.
    apply andb_prop in Hv as [Hv _]. bool_prop. split; [done|].
    unfold blen in *. destruct tp; simpl in *; [done|lia]. }
  destruct Hi. split; simpl; try done.
  - intros c g [Hc|Hc]%elem_of_app E; [by eauto|].
    apply list_elem_of_singleton in Hc as ->. done.
  - intros r Hr Hl. destruct (si_coverage r Hr Hl) as (c & Hc & Hcov). exists c.
    rewrite elem_of_app. auto.
  - intros r Hr Ha. destruct (si_active r Hr Ha) as (req & ids & cs & ? & ? & ? & ? & ? & ? & ? & Hl).
    exists req, ids, cs. split_and!; try done. rewrite <- Hl. apply load_completions_ext.
    intros id Hid. apply query_completion_snoc. simpl. intros ->.
    apply load_completions_in in Hl as [-> Hin].
    apply list_elem_of_fmap in Hid as (p & -> & Hp). destruct (Hin p Hp) as (c & Hc & _ & Ec & _).
    by apply (Hnew c).
  - intros c [Hc|Hc]%elem_of_app; [by auto|]. by apply list_elem_of_singleton in Hc as ->.
Qed.
End ops.
