(* ===== verification/SummaryClaims.v ===== *)
(** * Claims: what [claim_summary] takes, and that a claim can be read back

    [take_pending_spec] characterises the completions of a new claim, [load_completions_of]
    reads them back from their ids; together they give the replay theorem.  [claim_inv]:
    a claim keeps the ledger invariant. *)

From S2P Require Import Prelude Bytes CacheRef Sql StoreTypes.
From S2P Require Import StoreJobs StoreRollout StoreSummary StorePlayback SummaryInv SummaryOps.

Definition to_pending (r : CompletionRow) : PendingSummaryCompletion :=
  mk_pending (cp_completion_id r) (cp_turn_pack r).

Definition pack_bytes (cs : list PendingSummaryCompletion) : Z :=
  Z.of_nat (sum_list_with (λ c, length (pc_turn_pack c)) cs).

Lemma pack_bytes_cons c cs : pack_bytes (c :: cs) = blen (pc_turn_pack c) + pack_bytes cs.
Proof. unfold pack_bytes, blen. simpl. lia. Qed.

Lemma pack_bytes_nonneg cs : 0 ≤ pack_bytes cs.
Proof. unfold pack_bytes. lia. Qed.

(** The rows of a claim of [task]: pending, oldest first. *)
Definition pending_rows (task : text) (db : Db) : list CompletionRow :=
  order_by completion_order (filter (pending_completion task) (db_completions db)).

Lemma elem_of_pending_rows task db c :
  c ∈ pending_rows task db ↔ c ∈ db_completions db ∧ pending_completion task c.
Proof. unfold pending_rows. rewrite elem_of_order_by, list_elem_of_filter. tauto. Qed.

Lemma pending_rows_NoDup task db :
  completions_schema (db_completions db) → NoDup (cp_completion_id <$> pending_rows task db).
Proof.
  intros Hu. unfold pending_rows. rewrite order_by_perm.
  apply (unique_on_filter any (pending_completion task)) in Hu.
  apply (unique_on_NoDup any cp_completion_id) in Hu. revert Hu. generalize (filter (pending_completion task) (db_completions db)).
  intros t. assert (filter any t = t) as ->; [|done].
  induction t as [|r t IH]; [done|]. rewrite filter_cons_True by done. by rewrite IH.
Qed.

Section claims.
Context `{Externals, Crypto}.

(** A prefix of the rows, within the count and the byte budget. *)
Lemma take_pending_ok n total rows cs :
  take_pending n total rows = Ok cs →
  0 ≤ n ≤ MAX_SUMMARY_COMPLETIONS_PER_CLAIM → 0 ≤ total ≤ MAX_SUMMARY_TURN_PACK_BYTES →
  (n = 0 → total = 0) →
  ∃ k, cs = to_pending <$> take k rows
    ∧ n + Z.of_nat (length cs) ≤ MAX_SUMMARY_COMPLETIONS_PER_CLAIM
    ∧ total + pack_bytes cs ≤ MAX_SUMMARY_TURN_PACK_BYTES
    ∧ forallb uuid_ok (pc_completion_id <$> cs) = true
    ∧ (n = 0 → rows ≠ [] → cs ≠ []).
Proof.
  revert n total cs. induction rows as [|r rows IH]; intros n total cs Hr Hn Ht Hz; simpl in Hr.
  { injection Hr as <-. exists 0%nat. unfold pack_bytes. simpl. split_and!; lia || done. }
  destruct (Z.eqb_spec n MAX_SUMMARY_COMPLETIONS_PER_CLAIM) as [->|Hne].
  { injection Hr as <-. exists 0%nat. unfold pack_bytes. simpl. split_and!; lia || done. }
  run_ok_step Hr. run_ok_step Hr.
  apply orb_false_elim in Hguard as [Hguard Hlen]. apply orb_false_elim in Hguard as [Huuid Hemp].
  destruct (checked_add _ _ _) as [t|] eqn:Et in Hrun; [|done]. injection Hrun as <-.
  apply checked_add_some in Et as [-> _]. bool_prop. apply Nat.eqb_neq in Hemp.
  destruct (negb (n =? 0) && _) eqn:Estop.
  { injection Hr as <-. bool_prop. exists 0%nat. unfold pack_bytes. simpl.
    split_and!; lia || done. }
  run_ok Hr. subst cs.
  assert (total + blen (cp_turn_pack r) ≤ MAX_SUMMARY_TURN_PACK_BYTES).
  { apply andb_false_iff in Estop as [Estop|Estop]; bool_prop; [|done].
    rewrite (Hz Estop). unfold MAX_TURN_PACK_BYTES, MAX_SUMMARY_TURN_PACK_BYTES in *. lia. }
  apply IH in Hrun as (k & -> & Hk1 & Hk2 & Hk3 & _).
  - exists (S k). simpl. rewrite pack_bytes_cons. simpl in *.
    split_and!; [done|lia|lia|by rewrite Huuid|done].
  - lia.
  - unfold blen in *. lia.
  - lia.
Qed.

(** Completions that are pending rows of the task load back from their ids. *)
Lemma load_completions_of task total db cs :
  schema_ok db → summary_inv db → 0 ≤ total →
  (∀ p, p ∈ cs → ∃ c, c ∈ db_completions db ∧ pending_completion task c ∧ to_pending c = p) →
  total + pack_bytes cs ≤ MAX_SUMMARY_TURN_PACK_BYTES →
  load_completions task total (pc_completion_id <$> cs) db = Ok cs.
Proof.
  intros Hs Hi. revert total. induction cs as [|p cs IH]; intros total Ht Hin Hb; [done|].
  destruct (Hin p ltac:(constructor)) as (c & Hc & [Htask Hsum] & <-).
  rewrite pack_bytes_cons in Hb. pose proof (pack_bytes_nonneg cs). simpl.
  destruct (si_completions _ Hi c Hc) as [_ Hlen]. unfold to_pending in *. simpl in *.
  rewrite (query_row_unique any cp_completion_id _ _ c);
    [|by apply completions_schema_of|done|done|by intros s []].
  rewrite Hsum. unfold checked_add.
  rewrite (proj2 (Z.leb_le _ _)) by (unfold MAX_SUMMARY_TURN_PACK_BYTES in *; width_lia).
  simpl. rewrite (proj2 (Z.ltb_ge _ _)), (proj2 (Z.ltb_ge _ _)) by lia.
  destruct (Nat.eqb_spec (length (cp_turn_pack c)) 0); [unfold blen in *; lia|]. simpl.
  rewrite IH; [done|unfold blen in *; lia| |lia].
  intros q Hq. apply Hin. by constructor.
Qed.

(** The completions of [query_pending_summary_completions]. *)
Lemma query_pending_ok task db cs :
  schema_ok db → query_pending_summary_completions task db = Ok cs →
  (∃ k, cs = to_pending <$> take k (pending_rows task db))
  ∧ Z.of_nat (length cs) ≤ MAX_SUMMARY_COMPLETIONS_PER_CLAIM
  ∧ pack_bytes cs ≤ MAX_SUMMARY_TURN_PACK_BYTES
  ∧ forallb uuid_ok (pc_completion_id <$> cs) = true
  ∧ (pending_rows task db ≠ [] → cs ≠ [])
  ∧ NoDup (pc_completion_id <$> cs)
  ∧ (∀ p, p ∈ cs → ∃ c, c ∈ db_completions db ∧ pending_completion task c ∧ to_pending c = p).
Proof.
  intros Hs Hq. unfold query_pending_summary_completions in Hq.
  fold (pending_rows task db) in Hq.
  apply take_pending_ok in Hq as (k & Ek & Hk1 & Hk2 & Hk3 & Hk4);
    [|unfold MAX_SUMMARY_COMPLETIONS_PER_CLAIM; lia|unfold MAX_SUMMARY_TURN_PACK_BYTES; lia|done].
  rewrite take_take in Ek. split_and!; eauto.
  - intros Hne. apply Hk4; [done|]. by destruct (pending_rows task db).
  - subst cs. rewrite <- list_fmap_compose.
    change (pc_completion_id ∘ to_pending) with cp_completion_id.
    eapply sublist_NoDup; [apply (pending_rows_NoDup task), (completions_schema_of _ Hs)|].
    apply fmap_sublist, sublist_take.
  - intros p Hp. subst cs. apply list_elem_of_fmap in Hp as (c & -> & Hc).
    apply elem_of_take in Hc as (i & Hc%list_elem_of_lookup_2 & _).
    apply elem_of_pending_rows in Hc as [??]. eauto.
Qed.

(** ** The current unread summary *)

Lemma current_unread_ok task db o :
  query_current_unread task db = Ok o →
  match o with
  | Some u => ∃ r, r ∈ db_summaries db ∧ sm_task_id r = task ∧ current_unread r
      ∧ sm_cache_object r = Some (us_cache_object u) ∧ us_task_id u = task
      ∧ us_generation u = as_u64 (sm_generation r)
      ∧ us_coverage_count u = coverage_of task (sm_generation r) db
      ∧ 0 < sm_generation r ∧ 0 < us_coverage_count u ≤ u32_max
  | None => ∀ r, r ∈ db_summaries db → sm_task_id r = task → ¬ current_unread r
  end.
Proof.
  unfold query_current_unread. intros Hq. destruct (query_row _ _) as [r|] eqn:Eq.
  - apply query_row_some in Eq as (Hr & Ht & Hu).
    destruct (sm_cache_object r) as [c|] eqn:Ec; [|done]. run_ok Hq. subst o. bool_prop.
    exists r. simpl. by split_and!.
  - injection Hq as <-. intros r Hr Ht Hu. by eapply query_row_none_1.
Qed.

(** On the invariant the query always answers. *)
Lemma current_unread_total task db :
  schema_ok db → summary_inv db → Z.of_nat (length (db_completions db)) ≤ u32_max →
  ∃ o, query_current_unread task db = Ok o.
Proof.
  intros Hs Hi Hlen. unfold query_current_unread.
  destruct (query_row _ _) as [r|] eqn:Eq; [|eauto].
  apply query_row_some in Eq as (Hr & <- & Hu). pose proof (unread_live r Hu) as Hl.
  rewrite (si_cache _ Hi r Hr (live_published r Hl)).
  destruct (summary_row_check _ _ Hs Hr) as [Hg _].
  destruct (si_coverage _ Hi r Hr Hl) as (c & Hc & [Hct Hcg]).
  assert (0 < coverage_of (sm_task_id r) (sm_generation r) db)
    by (apply count_rows_pos; eauto).
  assert (coverage_of (sm_task_id r) (sm_generation r) db ≤ u32_max).
  { etrans; [|exact Hlen]. unfold coverage_of, count_rows. apply inj_le, length_filter. }
  rewrite !(proj2 (Z.ltb_lt _ _)), (proj2 (Z.leb_le _ _)) by done. simpl. eauto.
Qed.

Lemma current_unread_row task db r o :
  schema_ok db → summary_inv db → query_current_unread task db = Ok o →
  r ∈ db_summaries db → sm_task_id r = task → current_unread r →
  ∃ u, o = Some u ∧ us_generation u = sm_generation r
    ∧ us_coverage_count u = coverage_of task (sm_generation r) db.
Proof.
  intros Hs Hi Hq Hr Ht Hu. apply current_unread_ok in Hq. destruct o as [u|].
  - destruct Hq as (s & Hsr & Hst & Hsu & _ & _ & Hg & Hc & Hpos & _).
    assert (s = r) as -> by (eapply unread_unique; eauto; congruence).
    exists u. split_and!; [done| |done]. rewrite Hg. apply as_u64_small.
    pose proof (si_range _ Hi r Hr). width_lia.
  - by destruct (Hq r Hr Ht).
Qed.

Lemma max_generation_ge task db r :
  r ∈ db_summaries db → sm_task_id r = task → sm_generation r ≤ max_generation task db.
Proof.
  intros Hr Ht. unfold max_generation.
  assert (Hin : sm_generation r ∈ sm_generation <$> filter (λ r, sm_task_id r = task) (db_summaries db)).
  { apply list_elem_of_fmap. exists r. by rewrite list_elem_of_filter. }
  destruct (sm_generation <$> _) as [|g gs]; [by apply not_elem_of_nil in Hin|].
  clear Ht Hr. revert Hin. generalize (sm_generation r). intros x.
  induction gs as [|h gs IH]; simpl.
  - intros ->%list_elem_of_singleton. done.
  - rewrite !elem_of_cons in *. intros [->|[->|?]]; [|lia|].
    + specialize (IH ltac:(by left)). lia.
    + specialize (IH ltac:(by right)). lia.
Qed.

(** ** A new claim *)

Definition new_claim_row (now : Z) (task req covers : text) (gen : Z) (previous : option Z)
    : SummaryRow :=
  {| sm_task_id := task; sm_generation := gen; sm_state := Generating;
     sm_covers_completions := covers; sm_cache_object := None;
     sm_request_id := Some req; sm_claim_id := Some req;
     sm_previous_generation := previous; sm_superseded_by := None;
     sm_created_at := now; sm_updated_at := now |}.

Lemma claim_new_ok now task req db o db' :
  claim_new now task req db = Ok (o, db') →
  (o = None ∧ db' = db ∧ query_pending_summary_completions task db = Ok [])
  ∨ ∃ previous cs covers,
      query_current_unread task db = Ok previous
      ∧ query_pending_summary_completions task db = Ok cs ∧ cs ≠ []
      ∧ max_generation task db + 1 ≤ i64_max
      ∧ json_of_strings (pc_completion_id <$> cs) = Some covers
      ∧ db' = (insert_summary (new_claim_row now task req covers (max_generation task db + 1)
                 (us_generation <$> previous)) db).1
      ∧ schema_ok db'
      ∧ o = Some (Claimed (mk_claim ClaimInserted req task
                     (as_u64 (max_generation task db + 1)) previous cs)).
Proof.
  unfold claim_new. intros Hr. run_tx Hr; [by left; auto|right].
  destruct (checked_add _ _ _) as [g|] eqn:Eg in Hrun1; [|done]. injection Hrun1 as <-.
  apply checked_add_some in Eg as [-> ?].
  destruct (json_of_strings _) as [covers|] eqn:Ej in Hrun2; [|done]. injection Hrun2 as <-.
  assert (a2 = us_generation <$> a) as ->.
  { destruct a as [u|]; [|by injection Hrun3 as <-]. run_ok Hrun3. subst a2.
    by apply to_i64_ok in Hrun1 as [-> _]. }
  injection Hrun4 as <- <-.
  exists a, (p :: l), covers. by split_and!.
Qed.

Lemma claim_new_inv now task req db o db' :
  claim_new now task req db = Ok (o, db') → schema_ok db → summary_inv db →
  (∀ r, r ∈ db_summaries db → sm_task_id r = task → ¬ active_claim r) → summary_inv db'.
Proof.
  intros Hr Hs Hi Hnone. apply claim_new_ok in Hr as [(-> & -> & _)|Hr]; [done|].
  destruct Hr as (previous & cs & covers & Hprev & Hcs & Hne & Hmax & Hjson & -> & Hs' & ->).
  set (row := new_claim_row now task req covers (max_generation task db + 1) (us_generation <$> previous)).
  destruct (query_pending_ok task db cs Hs Hcs) as (_ & Hlen & Hbytes & Huuid & _ & Hnd & Hin).
  assert (Hrow : ∀ r, r ∈ db_summaries (insert_summary row db).1 ↔ r ∈ db_summaries db ∨ r = row).
  { intros r. simpl. by rewrite elem_of_app, list_elem_of_singleton. }
  assert (Hmaxr : ∀ r, r ∈ db_summaries db → sm_task_id r = task → sm_generation r < sm_generation row).
  { intros r Hr Ht. pose proof (max_generation_ge task db r Hr Ht). simpl. lia. }
  assert (Hnp : ¬ published row) by (intros [|[|[|]]]; done).
  assert (Hnl : ¬ live row) by (by intros ?%live_published).
  split.
  - intros r [Hr| ->]%Hrow; [by apply (si_range _ Hi)|done].
  - intros r [Hr| ->]%Hrow; [by apply (si_cache _ Hi)|done].
  - intros r [Hr| ->]%Hrow; [by apply (si_leased _ Hi)|]. split; [done|].
    intros (l & Hl & E). exfalso. apply leases_schema_of in Hs as (_&_&_&Hfk).
    rewrite Forall_forall in Hfk. specialize (Hfk l Hl). rewrite E in Hfk.
    apply list_elem_of_fmap in Hfk as (s & Es & Hsin). injection Es as Et Eg.
    pose proof (Hmaxr s Hsin (eq_sym Et)). simpl in *. lia.
  - intros r [Hr| ->]%Hrow; [by apply (si_unheard _ Hi)|done].
  - intros r [Hr| ->]%Hrow; [by apply (si_replaced _ Hi)|done].
  - intros r g [Hr| ->]%Hrow E; [|done].
    destruct (si_superseded _ Hi r g Hr E) as (? & s & ? & ?). split; [done|].
    exists s. by rewrite Hrow; auto.
  - intros c g Hc E. destruct (si_covered _ Hi c g Hc E) as (s & ? & ? & ?).
    exists s. rewrite Hrow. auto.
  - intros r [Hr| ->]%Hrow; [by apply (si_coverage _ Hi)|done].
  - intros r [Hr| ->]%Hrow Ha.
    + apply (claim_columns_same db _ r); [by constructor|done|done|by apply (si_active _ Hi)].
    + exists req, (pc_completion_id <$> cs), cs. split_and!; try done.
      * by destruct cs.
      * by rewrite length_fmap.
      * rewrite (load_completions_ext task 0 _ db) by done.
        by apply load_completions_of.
  - intros r u [Hr| ->]%Hrow [Hu| ->]%Hrow Ha Hun Et; try by (exfalso; by apply Hnl, unread_live).
    + by apply (si_previous _ Hi).
    + destruct (current_unread_row task db u previous) as (v & -> & E & _); [done..|].
      simpl. by rewrite E.
  - intros r s [Hr| ->]%Hrow [Hsr| ->]%Hrow Ha Et.
    + by apply (si_newest _ Hi).
    + by destruct (Hnone r Hr (eq_sym Et)).
    + right. by apply Hmaxr.
    + by left.
  - intros a Ha. destruct (si_attempts _ Hi a Ha) as (s & ? & ?). exists s. rewrite Hrow. auto.
  - apply (si_completions _ Hi).
Qed.

Lemma claim_summary_inv now task req db o db' :
  claim_summary now task req db = Ok (o, db') → schema_ok db → summary_inv db → summary_inv db'.
Proof.
  unfold claim_summary. intros Hr Hs Hi. apply tbind_ok in Hr as ([] & ? & Hv & Hr).
  apply lift_ok in Hv as [Hv <-]. rewrite tbind_query in Hr.
  destruct (query_row _ _) as [r|] eqn:Eq.
  - unfold claim_prior in Hr. run_tx Hr; try done.
    by eapply reactivate_inv.
  - rewrite tbind_query in Hr. destruct (query_row (λ r, _ ∧ _) _) as [r|] eqn:Eq2.
    + run_tx Hr; done.
    + eapply claim_new_inv; [done..|]. intros r Hr2 Ht Ha. by apply (query_row_none_1 _ _ r Eq2).
Qed.

End claims.
