(* ===== verification/SummaryPublish.v ===== *)
(** * Publication

    [publish_ok] gives the database after a successful [publish_summary] row by row:
    [pub_row] on the ledger, [pub_completion] on the completions.  [publish_inv]: the ledger
    invariant is kept. *)

From S2P Require Import Prelude Bytes CacheRef Sql StoreTypes StoreJobs.
From S2P Require Import StoreRollout StoreSummary StorePlayback SummaryInv SummaryOps SummaryClaims.

(** The previous unread row that a claim replaces. *)
Definition replaced (claim : SummaryClaim) (r : SummaryRow) : Prop :=
  match sc_previous_unread claim with
  | Some previous => sm_task_id r = sc_task_id claim ∧ sm_generation r = us_generation previous
                     ∧ current_unread r
  | None => False
  end.

#[export] Instance replaced_dec claim r : Decision (replaced claim r).
Proof. unfold replaced. destruct (sc_previous_unread claim); apply _. Defined.

Definition supersede (now generation : Z) (r : SummaryRow) : SummaryRow :=
  set_summary (match sm_state r with Unheard => Superseded | s => s end)
    (sm_cache_object r) (sm_claim_id r) (Some generation) now r.

Definition publish_row (now : Z) (cache_object : text) (r : SummaryRow) : SummaryRow :=
  set_summary Unheard (Some cache_object) None (sm_superseded_by r) now r.

(** A completion moves when the replaced summary covered it ... *)
Definition moved (claim : SummaryClaim) (c : CompletionRow) : Prop :=
  match sc_previous_unread claim with
  | Some previous => cp_task_id c = sc_task_id claim
                     ∧ cp_summarized_generation c = Some (us_generation previous)
  | None => False
  end.

(** ... and is newly covered when the claim names it. *)
Definition newly_covered (task : text) (cs : list PendingSummaryCompletion) (c : CompletionRow)
    : Prop :=
  pending_completion task c ∧ to_pending c ∈ cs.

#[export] Instance moved_dec claim c : Decision (moved claim c).
Proof. unfold moved. destruct (sc_previous_unread claim); apply _. Defined.
#[export] Instance newly_covered_dec task cs c : Decision (newly_covered task cs c).
Proof. unfold newly_covered. apply _. Defined.

Definition pub_row (now : Z) (claim : SummaryClaim) (cache_object : text) (r : SummaryRow)
    : SummaryRow :=
  upd (publishable (sc_task_id claim) (sc_generation claim) (sc_request_id claim))
    (publish_row now cache_object)
    (upd (replaced claim) (supersede now (sc_generation claim)) r).

Definition pub_completion (claim : SummaryClaim) (c : CompletionRow) : CompletionRow :=
  upd (newly_covered (sc_task_id claim) (sc_completions claim))
    (set_summarized (sc_generation claim))
    (upd (moved claim) (set_summarized (sc_generation claim)) c).

Lemma update_rows_twice {R} (P Q : R → Prop) `{∀ r, Decision (P r), ∀ r, Decision (Q r)} f t :
  (∀ r, P r → ¬ Q (f r)) →
  update_rows Q f (update_rows P f t) = update_rows (λ r, P r ∨ Q r) f t.
Proof.
  intros Hd. unfold update_rows. rewrite <- list_fmap_compose. apply list_fmap_ext.
  intros i r _. unfold upd, compose. specialize (Hd r).
  destruct (decide (P r)), (decide (P r ∨ Q r)); repeat case_decide; tauto.
Qed.

Lemma update_rows_ext {R} (P Q : R → Prop) `{∀ r, Decision (P r), ∀ r, Decision (Q r)} f t :
  (∀ r, P r ↔ Q r) → update_rows P f t = update_rows Q f t.
Proof.
  intros Hd. unfold update_rows. apply list_fmap_ext. intros i r _. unfold upd.
  specialize (Hd r). repeat case_decide; tauto.
Qed.

Section publish.
Context `{Externals, Crypto}.

Lemma cover_completions_ok task gen cs db u db' :
  cover_completions task gen cs db = Ok (u, db') →
  db' = with_completions (update_rows (newly_covered task cs) (set_summarized gen) (db_completions db)) db
  ∧ ∀ p, p ∈ cs → ∃ c, c ∈ db_completions db ∧ pending_completion task c ∧ to_pending c = p.
Proof.
  revert db. induction cs as [|p cs IH]; intros db Hr; simpl in Hr.
  { injection Hr as _ <-. split; [|by intros p ?%not_elem_of_nil].
    rewrite update_rows_none; [by destruct db|].
    intros r _ [_ ?%not_elem_of_nil]. done. }
  apply tbind_ok in Hr as (n & db1 & Hx & Hr). apply exec_ok in Hx as [Hx _].
  destruct (negb (n =? 1)) eqn:En; [discriminate Hr|]. bool_prop.
  exec_result Hx. apply IH in Hr as [-> Hin]. simpl in *. split.
  - unfold with_completions. simpl. f_equal. rewrite update_rows_twice.
    + apply update_rows_ext. intros r. unfold newly_covered, pending_completion, to_pending.
      rewrite elem_of_cons. destruct p as [pi pp]. simpl. split.
      * intros [(<- & ? & <- & ?)|(? & ?)]; tauto.
      * intros (? & [E|?]); [injection E as <- <-|]; tauto.
    + intros r (_ & _ & _ & _) [[_ ?] _]. done.
  - intros q [->|Hq]%elem_of_cons.
    + assert (0 < count_rows (λ r, cp_completion_id r = pc_completion_id p ∧ cp_task_id r = task
        ∧ cp_turn_pack r = pc_turn_pack p ∧ cp_summarized_generation r = None) (db_completions db))
        as (c & Hc & E1 & ? & E2 & ?)%count_rows_pos by lia.
      exists c. split_and!; [done|done|]. unfold to_pending. rewrite E1, E2. by destruct p.
    + destruct (Hin q Hq) as (c & (d & Hd & ->)%elem_of_update & Hp & Et).
      exists d. unfold upd in *. case_decide; [by destruct Hp|]. done.
Qed.

Lemma supersede_previous_ok now claim gen previous db n db' :
  schema_ok db → summary_inv db →
  supersede_previous now claim gen previous db = Ok (n, db') →
  query_current_unread (sc_task_id claim) db = Ok (Some previous)
  ∧ n = us_coverage_count previous
  ∧ db' = with_completions
      (update_rows (λ c, cp_task_id c = sc_task_id claim
           ∧ cp_summarized_generation c = Some (us_generation previous))
         (set_summarized gen) (db_completions db))
      (with_summaries
         (update_rows (λ r, sm_task_id r = sc_task_id claim ∧ sm_generation r = us_generation previous
            ∧ current_unread r) (supersede now gen) (db_summaries db)) db).
Proof.
  intros Hs Hi Hr. unfold supersede_previous in Hr.
  apply tbind_ok in Hr as (cur & ? & Hc & Hr). apply query_result_ok in Hc as [Hc <-].
  destruct (bool_decide (cur = Some previous)) eqn:Ecur; [|discriminate Hr].
  apply bool_decide_eq_true in Ecur as ->. cbn [negb] in Hr.
  apply tbind_ok in Hr as (g & ? & Hg & Hr). apply lift_ok in Hg as [Hg <-].
  apply to_i64_ok in Hg as [-> _].
  apply tbind_ok in Hr as (m & db1 & Hx & Hr). apply exec_ok in Hx as [Hx _].
  destruct (negb (m =? 1)); [discriminate Hr|].
  apply tbind_ok in Hr as (k & db2 & Hy & Hr). apply exec_ok in Hy as [Hy _].
  destruct (k mod 4294967296 =? us_coverage_count previous) eqn:Ek; [|discriminate Hr].
  apply Z.eqb_eq in Ek. injection Hr as <- <-.
  split_and!; [done|done|]. exec_result Hx. by exec_result Hy.
Qed.

(** What a successful publication established and did. *)
Record published_effect (now : Z) (claim : SummaryClaim) (cache : text) (db : Db)
    (R : SummaryRow) (u : UnreadSummary) (db' : Db) : Prop := {
  pe_row : R ∈ db_summaries db;
  pe_pub : publishable (sc_task_id claim) (sc_generation claim) (sc_request_id claim) R;
  pe_previous : sm_previous_generation R = us_generation <$> sc_previous_unread claim;
  pe_covers : json_of_strings (pc_completion_id <$> sc_completions claim)
              = Some (sm_covers_completions R);
  pe_gen : 0 < sc_generation claim ≤ i64_max;
  pe_cache : cache = cache_ref (sc_task_id claim) (sc_generation claim);
  pe_unread : query_current_unread (sc_task_id claim) db = Ok (sc_previous_unread claim);
  pe_nonempty : sc_completions claim ≠ [];
  pe_pending p : p ∈ sc_completions claim →
    ∃ c, c ∈ db_completions db ∧ pending_completion (sc_task_id claim) c ∧ to_pending c = p;
  pe_summaries : db_summaries db' = pub_row now claim cache <$> db_summaries db;
  pe_completions : db_completions db' = pub_completion claim <$> db_completions db;
  pe_attempts : db_attempts db' = delete_rows (λ r, at_task_id r = sc_task_id claim
                    ∧ at_generation r = sc_generation claim) (db_attempts db);
  pe_leases : db_leases db' = db_leases db;
  pe_jobs : db_jobs db' = db_jobs db ∧ db_job_sequence db' = db_job_sequence db
            ∧ db_bindings db' = db_bindings db ∧ db_cursors db' = db_cursors db;
  pe_result : u = mk_unread (sc_task_id claim) (sc_generation claim) cache
      (match sc_previous_unread claim with Some p => us_coverage_count p | None => 0 end
       + Z.of_nat (length (sc_completions claim)));
}.

Lemma publish_ok now claim cache db u db' :
  schema_ok db → summary_inv db → 0 ≤ sc_generation claim →
  publish_summary now claim cache db = Ok (u, db') →
  ∃ R, published_effect now claim cache db R u db' ∧ schema_ok db'.
Proof.
  intros Hs Hi Hgen Hr. unfold publish_summary in Hr.
  apply tbind_ok in Hr as ([] & ? & Hv & Hr). apply lift_ok in Hv as [Hv <-].
  apply tbind_ok in Hr as (exp & ? & Hc & Hr). apply lift_ok in Hc as [Hc <-].
  destruct (bool_decide (cache = exp)) eqn:Ecache; [|discriminate Hr].
  apply bool_decide_eq_true in Ecache as <-. cbn [negb] in Hr.
  apply tbind_ok in Hr as (g & ? & Hg & Hr). apply lift_ok in Hg as [Hg <-].
  apply to_i64_ok in Hg as [-> Hgle]. rewrite tbind_query in Hr.
  destruct (query_row _ _) as [R|] eqn:ER; [|discriminate Hr].
  apply query_row_some in ER as [HR Hpub].
  apply tbind_ok in Hr as (prevg & ? & Hp & Hr). apply lift_ok in Hp as [Hp <-].
  apply tbind_ok in Hr as (covers & ? & Hj & Hr). apply lift_ok in Hj as [Hj <-].
  destruct (json_of_strings _) as [cov|] eqn:Ej; [|discriminate Hj]. injection Hj as <-.
  destruct (_ || _) eqn:Eor in Hr; [discriminate Hr|].
  apply orb_false_elim in Eor as [E1 E2]. bool_prop. subst prevg cov.
  assert (Hprev : sm_previous_generation R = us_generation <$> sc_previous_unread claim).
  { destruct (sc_previous_unread claim); [|by injection Hp as <-]. run_ok Hp.
    apply to_i64_ok in Hrun as [-> _]. by rewrite <- Hp. }
  apply tbind_ok in Hr as (pc & db1 & Hsup & Hr).
  assert (Hsup' : query_current_unread (sc_task_id claim) db = Ok (sc_previous_unread claim)
    ∧ pc = match sc_previous_unread claim with Some p => us_coverage_count p | None => 0 end
    ∧ db1 = with_completions
        (update_rows (moved claim) (set_summarized (sc_generation claim)) (db_completions db))
        (with_summaries (update_rows (replaced claim) (supersede now (sc_generation claim))
           (db_summaries db)) db)).
  { destruct (sc_previous_unread claim) as [p|] eqn:Ep.
    - apply supersede_previous_ok in Hsup as (Hq & -> & ->); [|done..]. split_and!; [done..|].
      rewrite (update_rows_ext (moved claim) (λ c, cp_task_id c = sc_task_id claim
        ∧ cp_summarized_generation c = Some (us_generation p)))
        by (intros; unfold moved; by rewrite Ep).
      by rewrite (update_rows_ext (replaced claim) (λ r, sm_task_id r = sc_task_id claim
        ∧ sm_generation r = us_generation p ∧ current_unread r))
        by (intros; unfold replaced; by rewrite Ep).
    - apply tbind_ok in Hsup as (o & ? & Hq & Hsup). apply query_result_ok in Hq as [Hq <-].
      destruct o; [discriminate Hsup|]. injection Hsup as <- <-. split_and!; [done|done|].
      rewrite (update_rows_none (moved claim)) by (intros ? _; unfold moved; rewrite Ep; tauto).
      rewrite (update_rows_none (replaced claim)) by (intros ? _; unfold replaced; rewrite Ep; tauto).
      by destruct db. }
  destruct Hsup' as (Hunread & -> & ->). clear Hsup.
  apply tbind_ok in Hr as ([] & db2 & Hcov & Hr). apply cover_completions_ok in Hcov as [-> Hpend].
  apply tbind_ok in Hr as (n & db3 & Hx & Hr). apply exec_ok in Hx as [Hx _].
  destruct (negb (n =? 1)); [discriminate Hr|]. exec_result Hx.
  apply tbind_ok in Hr as (m & db4 & Hy & Hr). apply exec_ok in Hy as [Hy Hs']. exec_result Hy.
  apply tbind_ok in Hr as (cc & ? & Hcc & Hr). apply lift_ok in Hcc as [Hcc <-].
  injection Hr as <- <-.
  destruct (checked_add _ _ _) as [tot|] eqn:Et; [|discriminate Hcc]. injection Hcc as <-.
  apply checked_add_some in Et as [-> _].
  unfold validate_summary_claim in Hv. run_ok_step Hv. run_ok_step Hv.
  assert (0 < sc_generation claim).
  { repeat (apply orb_false_elim in Hguard as [Hguard ?]). bool_prop. lia. }
  assert (sc_completions claim ≠ []).
  { repeat (apply orb_false_elim in Hguard as [Hguard ?]). by destruct (sc_completions claim). }
  exists R. split; [|exact Hs']. split; simpl; try done.
  - unfold expected_cache, for_task in Hc.
    rewrite (proj2 (Z.eqb_neq _ _)) in Hc by lia. by injection Hc as <-.
  - intros p Hp'. destruct (Hpend p Hp') as (c & (d & Hd & ->)%elem_of_update & Hc1 & Hc2).
    exists d. unfold upd in *. case_decide; [by destruct Hc1|done].
  - unfold update_rows. by rewrite <- list_fmap_compose.
  - unfold update_rows. by rewrite <- list_fmap_compose.
Qed.

(** ** The rows after a publication *)

Section effect.
Context (now : Z) (claim : SummaryClaim) (cache : text) (db : Db) (R : SummaryRow)
  (u : UnreadSummary) (db' : Db).
Hypothesis (Hs : schema_ok db) (Hi : summary_inv db)
  (He : published_effect now claim cache db R u db').

Lemma effect_active : active_claim R.
Proof. left. apply (pe_pub _ _ _ _ _ _ _ He). Qed.

Lemma effect_task : sm_task_id R = sc_task_id claim.
Proof. apply (pe_pub _ _ _ _ _ _ _ He). Qed.

Lemma effect_key : sm_key R = (sc_task_id claim, sc_generation claim).
Proof. destruct (pe_pub _ _ _ _ _ _ _ He) as (Et & Eg & _). unfold sm_key. congruence. Qed.

Lemma replaced_iff r :
  r ∈ db_summaries db → replaced claim r ↔ sm_task_id r = sc_task_id claim ∧ current_unread r.
Proof.
  intros Hr. pose proof (pe_unread _ _ _ _ _ _ _ He) as Hq. unfold replaced. split.
  - destruct (sc_previous_unread claim); [tauto|done].
  - intros [Ht Hu].
    destruct (current_unread_row _ _ r _ Hs Hi Hq Hr Ht Hu) as (v & -> & Eg & _). auto.
Qed.

Lemma moved_iff c :
  moved claim c ↔ ∃ r, r ∈ db_summaries db ∧ replaced claim r ∧ covers_row r c.
Proof.
  pose proof (pe_unread _ _ _ _ _ _ _ He) as Hq. unfold moved, replaced. split.
  - destruct (sc_previous_unread claim) as [p|]; [|done]. intros [Ht Hg].
    apply current_unread_ok in Hq as (r & Hr & Hrt & Hru & _ & _ & Eg & _ & Hpos & _).
    rewrite as_u64_small in Eg by (pose proof (si_range _ Hi r Hr); width_lia).
    exists r. unfold covers_row. split_and!; congruence || done.
  - intros (r & Hr & Hrep & [Ht Hg]). destruct (sc_previous_unread claim) as [p|]; [|done].
    destruct Hrep as (E1 & E2 & _). split; congruence.
Qed.

Lemma replaced_older r :
  r ∈ db_summaries db → replaced claim r → sm_generation r < sc_generation claim.
Proof.
  intros Hr Hrep. apply replaced_iff in Hrep as [Ht Hu]; [|done].
  pose proof (pe_row _ _ _ _ _ _ _ He) as HR. pose proof effect_key as HK. injection HK as EKt EKg.
  destruct (si_newest _ Hi R r HR Hr effect_active) as [->|Hlt]; [congruence| |lia].
  exfalso. by eapply unread_not_active, effect_active.
Qed.

Lemma pub_row_cases r :
  r ∈ db_summaries db →
  (r = R ∧ pub_row now claim cache r = publish_row now cache R)
  ∨ (r ≠ R ∧ replaced claim r ∧ pub_row now claim cache r = supersede now (sc_generation claim) r)
  ∨ (r ≠ R ∧ ¬ replaced claim r ∧ pub_row now claim cache r = r).
Proof.
  intros Hr. pose proof (pe_row _ _ _ _ _ _ _ He) as HR. pose proof effect_key as HK.
  unfold pub_row, upd. destruct (decide (replaced claim r)) as [Hrep|Hrep].
  - right; left. pose proof (replaced_older r Hr Hrep).
    split_and!; [intros ->; injection HK as _ HK; lia|done|].
    rewrite decide_False; [done|]. intros (_ & Eg & _). simpl in Eg. lia.
  - case_decide as Hp.
    + left. assert (r = R) as ->; [|done]. apply (summary_key_unique db); [done..|].
      rewrite HK. destruct Hp as (<- & <- & _). done.
    + right; right. split_and!; [|done..]. intros ->. apply Hp, (pe_pub _ _ _ _ _ _ _ He).
Qed.

Lemma pub_completion_cases c :
  ((newly_covered (sc_task_id claim) (sc_completions claim) c ∨ moved claim c)
    ∧ cp_task_id c = sc_task_id claim
    ∧ pub_completion claim c = set_summarized (sc_generation claim) c)
  ∨ (¬ newly_covered (sc_task_id claim) (sc_completions claim) c ∧ ¬ moved claim c
     ∧ pub_completion claim c = c).
Proof.
  unfold pub_completion, upd. destruct (decide (moved claim c)) as [Hm|Hm].
  - left. rewrite decide_False by (by intros [[_ ?] _]). split_and!; [by right| |done].
    apply moved_iff in Hm as (r & Hr & Hrep & [Ht _]).
    apply replaced_iff in Hrep as [? _]; [congruence|done].
  - case_decide as Hn; [left|by right]. split_and!; [by left|by destruct Hn as [[? _] _]|done].
Qed.

Lemma pub_row_columns r : r ∈ db_summaries db → same_columns r (pub_row now claim cache r).
Proof.
  intros Hr. destruct (pub_row_cases r Hr) as [(-> & ->)|[(_ & _ & ->)|(_ & _ & ->)]];
    by constructor.
Qed.

Lemma elem_of_pub r' :
  r' ∈ db_summaries db' ↔ ∃ r, r ∈ db_summaries db ∧ r' = pub_row now claim cache r.
Proof. rewrite (pe_summaries _ _ _ _ _ _ _ He), list_elem_of_fmap. naive_solver. Qed.

Lemma elem_of_pubc c' :
  c' ∈ db_completions db' ↔ ∃ c, c ∈ db_completions db ∧ c' = pub_completion claim c.
Proof. rewrite (pe_completions _ _ _ _ _ _ _ He), list_elem_of_fmap. naive_solver. Qed.

Lemma effect_superseded : sm_superseded_by R = None.
Proof.
  destruct (sm_superseded_by R) as [g|] eqn:E; [|done]. exfalso.
  destruct (si_superseded _ Hi R g (pe_row _ _ _ _ _ _ _ He) E) as [Hp _].
  by eapply active_not_published; [apply effect_active|].
Qed.

Lemma supersede_published r gen :
  current_unread r → published (supersede now gen r) ∧ sm_state (supersede now gen r) ≠ Unheard
    ∧ ¬ active_claim (supersede now gen r)
    ∧ (sm_state (supersede now gen r) = Leased ↔ sm_state r = Leased)
    ∧ sm_state (supersede now gen r) ≠ Generating.
Proof.
  unfold published, active_claim. intros [[E|E] _]; simpl; rewrite E; naive_solver.
Qed.

(** The published row is live and unread. *)
Lemma effect_new_row : publish_row now cache R ∈ db_summaries db'
  ∧ live (publish_row now cache R) ∧ current_unread (publish_row now cache R).
Proof.
  split; [|unfold live, current_unread; simpl; rewrite effect_superseded; auto].
  apply elem_of_pub. exists R. split; [apply (pe_row _ _ _ _ _ _ _ He)|].
  destruct (pub_row_cases R (pe_row _ _ _ _ _ _ _ He)) as [(_ & ->)|[(? & _)|(? & _)]]; done.
Qed.

(** Another task's claim still loads. *)
Lemma pub_load task total ids :
  task ≠ sc_task_id claim →
  load_completions task total ids db' = load_completions task total ids db.
Proof.
  intros Hne. apply load_completions_ext. intros id _.
  rewrite (pe_completions _ _ _ _ _ _ _ He).
  generalize (db_completions db). intros t. unfold query_row.
  induction t as [|c t IH]; [done|]. rewrite fmap_cons, !filter_cons.
  destruct (pub_completion_cases c) as [(_ & Et & ->)|(_ & _ & ->)]; [|by case_decide].
  rewrite !decide_False; simpl; [done|intros [_ ?]; congruence..].
Qed.

Lemma effect_inv : summary_inv db'.
Proof.
  pose proof (pe_row _ _ _ _ _ _ _ He) as HR. pose proof effect_active as Hact.
  pose proof effect_key as HK. pose proof effect_new_row as (Hnew & Hnewlive & _).
  split.
  - intros r' (r & Hr & ->)%elem_of_pub. rewrite (sc_gen _ _ (pub_row_columns r Hr)).
    by apply (si_range _ Hi).
  - intros r' (r & Hr & ->)%elem_of_pub Hp. destruct (pub_row_columns r Hr) as [-> -> _ _ _].
    destruct (pub_row_cases r Hr) as [(-> & ->)|[(_ & Hrep & ->)|(_ & _ & E)]].
    + simpl. injection HK as -> ->. by rewrite (pe_cache _ _ _ _ _ _ _ He).
    + apply replaced_iff in Hrep as [_ Hu]; [|done]. simpl.
      by apply (si_cache _ Hi), live_published, unread_live.
    + rewrite E in *. by apply (si_cache _ Hi).
  - intros r' (r & Hr & ->)%elem_of_pub. rewrite (pe_leases _ _ _ _ _ _ _ He).
    assert (sm_key (pub_row now claim cache r) = sm_key r) as ->.
    { destruct (pub_row_columns r Hr). unfold sm_key. congruence. }
    rewrite <- (si_leased _ Hi r Hr).
    destruct (pub_row_cases r Hr) as [(-> & ->)|[(_ & Hrep & ->)|(_ & _ & ->)]]; [|..|done].
    + simpl. split; [done|]. destruct Hact as [E|E]; rewrite E; done.
    + apply replaced_iff in Hrep as [_ Hu]; [|done]. by apply supersede_published.
  - intros r' (r & Hr & ->)%elem_of_pub.
    destruct (pub_row_cases r Hr) as [(-> & ->)|[(_ & Hrep & ->)|(_ & _ & ->)]].
    + intros _. apply effect_superseded.
    + apply replaced_iff in Hrep as [_ Hu]; [|done]. intros E.
      by apply (supersede_published r (sc_generation claim)) in Hu as (_ & ? & _).
    + by apply (si_unheard _ Hi).
  - intros r' (r & Hr & ->)%elem_of_pub.
    destruct (pub_row_cases r Hr) as [(-> & ->)|[(_ & Hrep & ->)|(_ & _ & ->)]]; [done|done|].
    by apply (si_replaced _ Hi).
  - intros r' g (r & Hr & ->)%elem_of_pub E.
    assert (Hpub : ∀ s, s ∈ db_summaries db → published s → published (pub_row now claim cache s)).
    { intros s Hsr Hp. destruct (pub_row_cases s Hsr) as [(-> & ->)|[(_ & Hrep & ->)|(_ & _ & ->)]].
      - apply live_published, Hnewlive.
      - apply supersede_published. by apply replaced_iff in Hrep as [_ ?].
      - done. }
    rewrite (sc_task _ _ (pub_row_columns r Hr)).
    destruct (pub_row_cases r Hr) as [(-> & Er)|[(_ & Hrep & Er)|(_ & _ & Er)]]; rewrite Er in *.
    + simpl in E. by rewrite effect_superseded in E.
    + simpl in E. injection E as <-. apply replaced_iff in Hrep as [Ht Hu]; [|done].
      split; [by apply supersede_published|]. exists (publish_row now cache R).
      injection HK as HKt HKg. simpl.
      split_and!; [done|congruence|done|by apply live_published].
    + destruct (si_superseded _ Hi r g Hr E) as (Hp & s & Hsr & Hst & Hsg & Hsp). split; [done|].
      destruct (pub_row_columns s Hsr). exists (pub_row now claim cache s).
      split_and!; [apply elem_of_pub; eauto|congruence|congruence|by apply Hpub].
  - intros c' g (c & Hc & ->)%elem_of_pubc E.
    destruct (pub_completion_cases c) as [(_ & Ht & Ec)|(Hn & Hm & Ec)]; rewrite Ec in *.
    + simpl in E. injection E as <-. exists (publish_row now cache R). split_and!; [done..|].
      injection HK as HKt HKg. unfold covers_row. simpl. split; congruence.
    + destruct (si_covered _ Hi c g Hc E) as (r & Hr & Hl & Hcov).
      exists (pub_row now claim cache r). split; [apply elem_of_pub; eauto|].
      destruct (pub_row_cases r Hr) as [(-> & _)|[(_ & Hrep & _)|(_ & _ & ->)]]; [..|done].
      * exfalso. by eapply active_not_published, live_published.
      * exfalso. apply Hm, moved_iff. eauto.
  - intros r' (r & Hr & ->)%elem_of_pub Hl.
    destruct (pub_row_cases r Hr) as [(-> & Er)|[(_ & Hrep & Er)|(HrR & Hnrep & Er)]];
      rewrite Er in *.
    + destruct (sc_completions claim) as [|p cs] eqn:Ecs; [by destruct (pe_nonempty _ _ _ _ _ _ _ He)|].
      destruct (pe_pending _ _ _ _ _ _ _ He p) as (c & Hc & Hp & Et); [rewrite Ecs; constructor|].
      exists (pub_completion claim c). split; [apply elem_of_pubc; eauto|].
      destruct (pub_completion_cases c) as [(_ & Htc & ->)|(Hn & _ & _)].
      * injection HK as HKt HKg. unfold covers_row. simpl. split; congruence.
      * destruct Hn. split; [done|]. rewrite Ecs, Et. constructor.
    + by destruct Hl.
    + destruct (si_coverage _ Hi r Hr Hl) as (c & Hc & Hcov). exists (pub_completion claim c).
      split; [apply elem_of_pubc; eauto|].
      destruct (pub_completion_cases c) as [([Hn|Hm] & _)|(_ & _ & ->)]; [..|done].
      * exfalso. destruct Hn as [[_ Hn] _], Hcov as [_ Hcov]. congruence.
      * exfalso. apply moved_iff in Hm as (U & HU & Hrep & HcovU).
        assert (r = U) as ->; [|done]. apply (summary_key_unique db); [done..|].
        destruct Hcov as [E1 E2], HcovU as [E3 E4]. unfold sm_key. congruence.
  - intros r' (r & Hr & ->)%elem_of_pub Ha.
    destruct (pub_row_cases r Hr) as [(-> & Er)|[(_ & Hrep & Er)|(HrR & _ & Er)]]; rewrite Er in *.
    + by destruct Ha.
    + apply replaced_iff in Hrep as [_ Hu]; [|done].
      by apply (supersede_published r (sc_generation claim)) in Hu as (_ & _ & ? & _).
    + destruct (si_active _ Hi r Hr Ha) as (req & ids & cs & ?&?&?&?&?&?&?& Hld).
      exists req, ids, cs. split_and!; try done. rewrite pub_load; [done|].
      intros Et. apply HrR, (active_unique db); try done. by rewrite effect_task.
  - intros r' u' (r & Hr & ->)%elem_of_pub (v & Hv & ->)%elem_of_pub Ha Hun Et.
    destruct (pub_row_cases r Hr) as [(-> & Er)|[(_ & Hrep & Er)|(HrR & _ & Er)]]; rewrite Er in *.
    + by destruct Ha.
    + apply replaced_iff in Hrep as [_ Hu]; [|done].
      by apply (supersede_published r (sc_generation claim)) in Hu as (_ & _ & ? & _).
    + destruct (pub_row_cases v Hv) as [(-> & Ev)|[(_ & Hrep & Ev)|(_ & _ & Ev)]]; rewrite Ev in *.
      * exfalso. by apply HrR, (active_unique db).
      * by destruct Hun.
      * by apply (si_previous _ Hi).
  - intros r' s' (r & Hr & ->)%elem_of_pub (v & Hv & ->)%elem_of_pub Ha Et.
    destruct (pub_row_cases r Hr) as [(-> & Er)|[(_ & Hrep & Er)|(HrR & _ & Er)]]; rewrite Er in *.
    + by destruct Ha.
    + apply replaced_iff in Hrep as [_ Hu]; [|done].
      by apply (supersede_published r (sc_generation claim)) in Hu as (_ & _ & ? & _).
    + destruct (pub_row_cases v Hv) as [(-> & Ev)|[(_ & Hrep & Ev)|(_ & _ & Ev)]]; rewrite Ev in *.
      * exfalso. by apply HrR, (active_unique db).
      * exfalso. apply replaced_iff in Hrep as [Hvt _]; [|done].
        apply HrR, (active_unique db); try done. rewrite effect_task. simpl in Et. congruence.
      * by apply (si_newest _ Hi).
  - intros a Ha. rewrite (pe_attempts _ _ _ _ _ _ _ He) in Ha. apply elem_of_delete in Ha as [Ha Hne].
    destruct (si_attempts _ Hi a Ha) as (r & Hr & Hra & Hrk). exists (pub_row now claim cache r).
    split; [apply elem_of_pub; eauto|].
    destruct (pub_row_cases r Hr) as [(-> & _)|[(_ & Hrep & _)|(_ & _ & ->)]]; [..|done].
    + exfalso. apply Hne. rewrite HK in Hrk. unfold at_key in Hrk. by injection Hrk.
    + exfalso. apply replaced_iff in Hrep as [_ Hu]; [|done]. by eapply unread_not_active.
  - intros c' (c & Hc & ->)%elem_of_pubc.
    destruct (pub_completion_cases c) as [(_ & _ & ->)|(_ & _ & ->)]; by apply (si_completions _ Hi c).
Qed.
End effect.

Lemma publish_inv now claim cache db u db' :
  schema_ok db → summary_inv db → 0 ≤ sc_generation claim →
  publish_summary now claim cache db = Ok (u, db') → summary_inv db'.
Proof.
  intros Hs Hi Hg Hr. destruct (publish_ok _ _ _ _ _ _ Hs Hi Hg Hr) as (R & He & _).
  by eapply effect_inv.
Qed.

End publish.
