(* ===== verification/PlaybackOps.v ===== *)
(** * Playback leases: what the operations do, and that they keep the ledger invariant *)

From S2P Require Import Prelude Bytes CacheRef Sql StoreTypes StoreJobs.
From S2P Require Import StoreRollout StoreSummary StorePlayback SummaryInv SummaryOps SummaryClaims.

Section playback.
Context `{Externals, Crypto}.

(** ** Acquire *)

(** The row [r] is granted to a new lease [l]. *)
Definition leased_db (now : Z) (r : SummaryRow) (l : LeaseRow) (db : Db) : Db :=
  (insert_lease l (update_summaries
    (λ s, sm_task_id s = sm_task_id r ∧ sm_generation s = sm_generation r
          ∧ sm_state s = Unheard ∧ sm_superseded_by s = None)
    (set_summary_state Leased now) db).1).1.

Lemma acquire_ok now slot rg cg lease db o db' :
  acquire_summary_playback now slot rg cg lease db = Ok (o, db') →
  match o with
  | None => db' = db
  | Some p =>
      ∃ b r, b ∈ db_bindings db ∧ br_slot b = slot ∧ r ∈ db_summaries db
        ∧ sm_task_id r = br_task_id b ∧ current_unread r
        ∧ slot_check slot ∧ rg ≠ 0 ∧ cg ≠ 0 ∧ lease ≠ 0 ∧ lease ≤ i64_max
        ∧ sm_cache_object r = Some (pl_cache_object p)
        ∧ p = mk_lease lease slot (sm_task_id r) (as_u64 (sm_generation r)) rg cg (pl_cache_object p)
        ∧ (db' = db ∧ (∃ l, l ∈ db_leases db ∧ lr_key l = sm_key r
              ∧ lr_lease_id l = as_i64 lease ∧ lr_slot l = slot ∧ lr_request_generation l = rg
              ∧ lr_connection_generation l = cg)
           ∨ sm_state r = Unheard ∧ (∀ l, l ∈ db_leases db → lr_key l ≠ sm_key r)
             ∧ schema_ok db'
             ∧ db' = leased_db now r (mk_lease_row (as_i64 lease) (sm_task_id r) (sm_generation r)
                                        slot rg cg now now) db)
  end.
Proof.
  intros Hr. unfold acquire_summary_playback in Hr.
  apply tbind_ok in Hr as ([] & ? & Hv & Hr). apply lift_ok in Hv as [Hv <-].
  unfold validate_slot in Hv. apply require_ok in Hv.
  assert (slot_check slot) by (unfold slot_check; bool_prop; lia).
  destruct (_ || _) eqn:Eg in Hr; [discriminate Hr|].
  repeat (apply orb_false_elim in Eg as [Eg ?]). bool_prop.
  rewrite tbind_query in Hr.
  destruct (query_row _ (db_bindings db)) as [b|] eqn:Eb; simpl in Hr; [|by injection Hr as <- <-].
  apply query_row_some in Eb as [Hb Hbs].
  rewrite tbind_query in Hr.
  destruct (query_row _ _) as [r|] eqn:Er; [|by injection Hr as <- <-].
  apply query_row_some in Er as (Hr' & Ht & Hu).
  apply tbind_ok in Hr as (cache & ? & Hc & Hr). apply lift_ok in Hc as [Hc <-].
  destruct (sm_cache_object r) as [c|] eqn:Ec; [|discriminate Hc]. injection Hc as <-.
  rewrite tbind_query in Hr.
  destruct (query_row _ (db_leases db)) as [l|] eqn:El.
  - apply query_row_some in El as (Hl & Hlt & Hlg).
    apply tbind_ok in Hr as (cols & ? & Hcols & Hr). apply lift_ok in Hcols as [Hcols <-].
    destruct (bool_decide _) eqn:Ex in Hr; [|discriminate Hr]. injection Hr as <- <-.
    apply bool_decide_eq_true in Ex. subst cols. unfold lease_columns in Hcols. run_ok Hcols.
    apply sql_u8_ok in Hrun as [-> _]. apply sql_u32_ok in Hrun0 as [-> _], Hrun1 as [-> _].
    exists b, r. simpl. rewrite Ht.
    split_and!; try done. left. split; [done|]. exists l. unfold lr_key, sm_key.
    split_and!; congruence || done.
  - destruct (bool_decide (sm_state r = Unheard)) eqn:Est; [|discriminate Hr].
    apply bool_decide_eq_true in Est. cbn [negb] in Hr.
    apply tbind_ok in Hr as (n & db1 & Hx & Hr). apply exec_ok in Hx as [Hx _].
    destruct (negb (n =? 1)); [discriminate Hr|]. exec_result Hx.
    apply tbind_ok in Hr as (m & db2 & Hy & Hr). apply exec_ok in Hy as [Hy Hs'].
    exec_result Hy. injection Hr as <- <-. exists b, r. simpl. rewrite Ht.
    split_and!; try done. right. split_and!; try done.
    + intros l Hl E. injection E as ??. apply (query_row_none_1 _ _ l El Hl). split; congruence.
    + unfold leased_db. by rewrite Ht.
Qed.

Lemma leased_inv now r l db :
  schema_ok db → summary_inv db → r ∈ db_summaries db → current_unread r → sm_state r = Unheard →
  lr_key l = sm_key r → summary_inv (leased_db now r l db).
Proof.
  intros Hs Hi Hr Hu Hst Hk.
  set (P := λ s, sm_task_id s = sm_task_id r ∧ sm_generation s = sm_generation r
          ∧ sm_state s = Unheard ∧ sm_superseded_by s = None).
  assert (HP : ∀ s, s ∈ db_summaries db → P s → s = r).
  { intros s ? (? & ? & _). by apply (summary_key_unique' db). }
  eapply (summary_inv_update P _ db); [done|reflexivity|done| | |].
  - state_change.
  - simpl. intros s Hsr. unfold upd. case_decide as Hp.
    + rewrite (HP s Hsr Hp). split; [|done]. intros _. exists l. rewrite elem_of_app.
      rewrite list_elem_of_singleton. auto.
    + rewrite (si_leased _ Hi s Hsr). setoid_rewrite elem_of_app.
      setoid_rewrite list_elem_of_singleton. split.
      * intros (x & ? & ?). exists x. auto.
      * intros (x & [?| ->] & E); [by exists x|]. exfalso. apply Hp.
        assert (s = r) as -> by (apply (summary_key_unique db); congruence || done).
        destruct Hu. by split_and!.
  - intros a Ha. split; [done|]. intros s ? (_ & _ & Est & _) _ [E|E]; congruence.
Qed.

Lemma acquire_inv now slot rg cg lease db o db' :
  acquire_summary_playback now slot rg cg lease db = Ok (o, db') →
  schema_ok db → summary_inv db → summary_inv db'.
Proof.
  intros Hr Hs Hi. apply acquire_ok in Hr. destruct o as [p|]; [|by subst].
  destruct Hr as (b & r & ? & ? & ? & ? & ? & ? & ? & ? & ? & ? & ? & ? & Hd).
  destruct Hd as [[-> _]|(? & ? & _ & ->)]; [done|]. by apply leased_inv.
Qed.

(** ** Returning a lease *)

(** The leased row of a lease: all rows a statement on the lease's summary touches. *)
Lemma returned_inv P `{∀ r, Decision (P r)} f D `{∀ l, Decision (D l)} db :
  schema_ok db → summary_inv db →
  (∀ r, r ∈ db_summaries db → P r → sm_state r = Leased) →
  (∀ r, r ∈ db_summaries db → P r ↔ ∃ l, l ∈ db_leases db ∧ D l ∧ lr_key l = sm_key r) →
  (∀ r, r ∈ db_summaries db → sm_state r = Leased → P r →
     same_columns r (f r) ∧ sm_superseded_by (f r) = sm_superseded_by r
     ∧ sm_cache_object (f r) = sm_cache_object r
     ∧ (sm_state (f r) = Heard ∨ sm_state (f r) = returned_state r)) →
  summary_inv (delete_leases D (update_summaries P f db).1).1.
Proof.
  intros Hs Hi HL HP Hf.
  eapply (summary_inv_update P f db); [done|reflexivity|done| | |].
  - intros r Hr Hp. destruct (Hf r Hr (HL r Hr Hp) Hp) as (Hc & Esup & Ecache & Est).
    pose proof (HL r Hr Hp) as HLr. unfold returned_state in Est.
    unfold published, live, active_claim, current_unread. rewrite HLr, Esup.
    destruct (sm_superseded_by r) eqn:E; split_and!; try done;
      destruct Est as [->| ->]; naive_solver.
  - simpl. intros r Hr. unfold upd. case_decide as Hp.
    + destruct (Hf r Hr (HL r Hr Hp) Hp) as (_ & _ & _ & Est). split.
      * unfold returned_state in Est. destruct Est as [->| ->]; [done|].
        by destruct (sm_superseded_by r).
      * intros (l & [Hl HnD]%elem_of_delete & Hk). exfalso.
        apply HP in Hp as (l' & Hl' & HD & Hk'); [|done].
        destruct (leases_schema_of _ Hs) as (_ & Hu & _).
        assert (l = l') as ->; [|done]. eapply (unique_on_elem any lr_key); eauto; try done.
        congruence.
    + rewrite (si_leased _ Hi r Hr). split.
      * intros (l & Hl & Hk). exists l. rewrite elem_of_delete. split_and!; [done| |done].
        intros HD. apply Hp, HP; eauto.
      * intros (l & [Hl _]%elem_of_delete & Hk). eauto.
  - intros a Ha. split; [done|]. intros r Hr Hp _ [E|E]; rewrite (HL r Hr Hp) in E; done.
Qed.

Lemma exact_lease_row_unique l db r s :
  schema_ok db → r ∈ db_leases db → s ∈ db_leases db → exact_lease l r → lr_lease_id s = pl_lease l →
  s = r.
Proof.
  intros Hs Hr Hsr (E & _) E'. destruct (leases_schema_of _ Hs) as (Hu & _).
  eapply (unique_on_elem any lr_lease_id); eauto; try done. congruence.
Qed.

Lemma cancel_ok now l db b db' :
  schema_ok db → cancel_summary_playback now l db = Ok (b, db') →
  if b then
    (∃ r, r ∈ db_leases db ∧ exact_lease l r) ∧ schema_ok db'
    ∧ db' = (update_summaries
        (λ r, sm_task_id r = pl_task_id l ∧ sm_generation r = pl_summary_generation l
              ∧ sm_state r = Leased) (λ r, set_summary_state (returned_state r) now r)
        (delete_leases (exact_lease l) db).1).1
  else db' = db ∧ ∀ r, r ∈ db_leases db → ¬ exact_lease l r.
Proof.
  intros Hs Hr. unfold cancel_summary_playback in Hr.
  apply tbind_ok in Hr as ([] & ? & Hv & Hr). apply lift_ok in Hv as [_ <-].
  apply tbind_ok in Hr as ([] & ? & Hv & Hr). apply lift_ok in Hv as [_ <-].
  apply tbind_ok in Hr as (n & db1 & Hx & Hr). apply exec_ok in Hx as [Hx _]. exec_result Hx.
  destruct (_ =? 1) eqn:En.
  - apply Z.eqb_eq in En. apply tbind_ok in Hr as (m & db2 & Hy & Hr).
    apply exec_ok in Hy as [Hy Hs']. exec_result Hy. injection Hr as <- <-.
    split; [|by split]. apply (count_rows_pos (exact_lease l)). simpl in En. lia.
  - injection Hr as <- <-. apply Z.eqb_neq in En. simpl in En.
    assert (count_rows (exact_lease l) (db_leases db) ≤ 1).
    { destruct (leases_schema_of _ Hs) as (Hu & _).
      eapply (count_rows_unique any lr_lease_id); [done|]. intros r _ (E & _).
      split; [done|exact E]. }
    pose proof (count_rows_nonneg (exact_lease l) (db_leases db)).
    assert (Hz : ∀ r, r ∈ db_leases db → ¬ exact_lease l r).
    { intros r Hr. apply (count_rows_zero_1 _ (db_leases db)); [lia|done]. }
    split; [|done]. simpl. rewrite delete_rows_none by done. by destruct db.
Qed.

(** The two statements of [cancel] commute: rows of another table. *)
Lemma cancel_statements now l db :
  (update_summaries
        (λ r, sm_task_id r = pl_task_id l ∧ sm_generation r = pl_summary_generation l
              ∧ sm_state r = Leased) (λ r, set_summary_state (returned_state r) now r)
        (delete_leases (exact_lease l) db).1).1
  = (delete_leases (exact_lease l) (update_summaries
        (λ r, sm_task_id r = pl_task_id l ∧ sm_generation r = pl_summary_generation l
              ∧ sm_state r = Leased) (λ r, set_summary_state (returned_state r) now r) db).1).1.
Proof. done. Qed.

(** The rows a lease's statement touches are the one its lease row names. *)
Lemma lease_rows l row D db :
  schema_ok db → summary_inv db → row ∈ db_leases db → exact_lease l row →
  (∀ s, s ∈ db_leases db → D s ↔ s = row) →
  ∀ r, r ∈ db_summaries db →
    (sm_task_id r = pl_task_id l ∧ sm_generation r = pl_summary_generation l ∧ sm_state r = Leased)
    ↔ ∃ s, s ∈ db_leases db ∧ D s ∧ lr_key s = sm_key r.
Proof.
  intros Hs Hi Hrow (_ & Et & Eg & _) HD r Hr. split.
  - intros (Ht & Hg & _). exists row. split_and!; [done|by apply HD|].
    unfold lr_key, sm_key. congruence.
  - intros (s & Hsr & Hd & Hk). apply HD in Hd as ->; [|done]. unfold lr_key, sm_key in Hk.
    injection Hk as Hk1 Hk2. split_and!; [congruence|congruence|].
    apply (si_leased _ Hi r Hr). exists row. unfold lr_key, sm_key. split; congruence.
Qed.

Lemma cancel_inv now l db b db' :
  cancel_summary_playback now l db = Ok (b, db') → schema_ok db → summary_inv db → summary_inv db'.
Proof.
  intros Hr Hs Hi. apply cancel_ok in Hr; [|done]. destruct b; [|by destruct Hr as [-> _]].
  destruct Hr as ((row & Hrow & Hex) & _ & ->). rewrite cancel_statements.
  apply returned_inv; [done|done|tauto| |].
  - apply (lease_rows l row); [done..|]. intros s Hsr. split; [|by intros ->].
    intros (E & _). by eapply exact_lease_row_unique.
  - intros r Hr HL _. split_and!; [by constructor|done|done|by right].
Qed.

Lemma finish_ok now l db b db' :
  finish_summary_playback now l db = Ok (b, db') →
  if b then
    ∃ row r, row ∈ db_leases db ∧ exact_lease l row ∧ r ∈ db_summaries db
      ∧ sm_task_id r = pl_task_id l ∧ sm_generation r = pl_summary_generation l
      ∧ sm_state r = Leased ∧ sm_cache_object r = Some (pl_cache_object l)
      ∧ schema_ok db'
      ∧ db' = (delete_leases (λ r, lr_lease_id r = pl_lease l) (update_summaries
          (λ r, sm_task_id r = pl_task_id l ∧ sm_generation r = pl_summary_generation l
            ∧ sm_state r = Leased ∧ sm_cache_object r = Some (pl_cache_object l))
          (set_summary_state Heard now) db).1).1
  else db' = db ∧ ∀ r, r ∈ db_leases db → ¬ exact_lease l r.
Proof.
  intros Hr. unfold finish_summary_playback in Hr.
  apply tbind_ok in Hr as ([] & ? & Hv & Hr). apply lift_ok in Hv as [_ <-].
  apply tbind_ok in Hr as ([] & ? & Hv & Hr). apply lift_ok in Hv as [_ <-].
  rewrite tbind_query in Hr. destruct (exists_row _ _) eqn:Ex; simpl in Hr.
  - apply exists_row_true in Ex as (row & Hrow & Hex).
    apply tbind_ok in Hr as (n & db1 & Hx & Hr). apply exec_ok in Hx as [Hx _].
    destruct (negb (n =? 1)) eqn:En; [discriminate Hr|]. bool_prop. exec_result Hx.
    apply tbind_ok in Hr as (m & db2 & Hy & Hr). apply exec_ok in Hy as [Hy Hs']. exec_result Hy.
    injection Hr as <- <-. simpl in En.
    assert (0 < count_rows (λ r, sm_task_id r = pl_task_id l
      ∧ sm_generation r = pl_summary_generation l ∧ sm_state r = Leased
      ∧ sm_cache_object r = Some (pl_cache_object l)) (db_summaries db))
      as (r & Hr' & ? & ? & ? & ?)%count_rows_pos by lia.
    exists row, r. by split_and!.
  - injection Hr as <- <-. split; [done|]. by rewrite exists_row_false in Ex.
Qed.

Lemma finish_inv now l db b db' :
  finish_summary_playback now l db = Ok (b, db') → schema_ok db → summary_inv db → summary_inv db'.
Proof.
  intros Hr Hs Hi. apply finish_ok in Hr. destruct b; [|by destruct Hr as [-> _]].
  destruct Hr as (row & r0 & Hrow & Hex & Hr0 & Ht0 & Hg0 & HL0 & Hc0 & _ & ->).
  apply returned_inv; [done|done|tauto| |].
  - intros r Hr. rewrite <- (lease_rows l row (λ r, lr_lease_id r = pl_lease l) db); try done.
    + split; [tauto|]. intros (? & ? & ?). split_and!; [done..|].
      assert (r = r0) as -> by (apply (summary_key_unique' db); congruence || done). done.
    + intros s Hsr. split; [|intros ->; apply Hex]. intros E. by eapply exact_lease_row_unique.
  - intros r Hr HL _. split_and!; [by constructor|done|done|by left].
Qed.

Lemma recover_leases_ok now db u db' :
  recover_interrupted_playback_leases now db = Ok (u, db') →
  schema_ok db' ∧ db' = (delete_leases any (update_summaries (λ r, sm_state r = Leased)
    (λ r, set_summary_state (returned_state r) now r) db).1).1.
Proof.
  intros Hr. unfold recover_interrupted_playback_leases in Hr.
  apply tbind_ok in Hr as (n & db1 & Hx & Hr). apply exec_ok in Hx as [Hx _]. exec_result Hx.
  apply tbind_ok in Hr as (m & db2 & Hy & Hr). apply exec_ok in Hy as [Hy Hs']. exec_result Hy.
  by injection Hr as <- <-.
Qed.

Lemma recover_leases_inv now db u db' :
  recover_interrupted_playback_leases now db = Ok (u, db') → schema_ok db → summary_inv db →
  summary_inv db'.
Proof.
  intros (_ & ->)%recover_leases_ok Hs Hi. apply returned_inv; [done|done|tauto| |].
  - intros r Hr. rewrite (si_leased _ Hi r Hr). split.
    + intros (l & ? & ?). exists l. by split_and!.
    + intros (l & ? & _ & ?). eauto.
  - intros r Hr HL _. split_and!; [by constructor|done|done|by right].
Qed.

End playback.
