(* ===== verification/StoreSystem.v ===== *)
(** * The store as a transition system

    A step is one committed operation of the store, by any of the host's threads (they share
    the database, one transaction at a time), including the three recovery transactions of
    [StateStore::open].  [store_inv] holds in every state reachable from the freshly
    migrated database, and the properties of whole histories follow by induction on
    steps. *)

From S2P Require Import Prelude Bytes CacheRef Sql StoreTypes StoreJobs StoreRollout.
From S2P Require Import StoreSummary StorePlayback SummaryInv SummaryOps SummaryClaims SummaryPublish PlaybackOps.

(** [StateStore::open] after the schema checks: three transactions, each committed on its
    own.  The counts are [recovered_jobs] and [recovered_summaries]. *)
Definition recover_on_open `{Externals, Crypto} (now : Z) (db : Db)
    : result StoreError (Z * Z) * Db :=
  match recover_interrupted_jobs now db with
  | Err e => (Err e, db)
  | Ok (jobs, db1) =>
      match recover_interrupted_summaries now db1 with
      | Err e => (Err e, db1)
      | Ok (summaries, db2) =>
          match recover_interrupted_playback_leases now db2 with
          | Err e => (Err e, db2)
          | Ok (_, db3) => (Ok (jobs, summaries), db3)
          end
      end
  end.

(** [open_worker_store] and [open_observer_store] share the database and recover nothing;
    [StateStore::open] is refused while another process holds the instance lock. *)
Definition open_store `{Externals, Crypto} (locked : bool) (user_version now : Z) (db : Db)
    : result StoreError (Z * Z) * Db :=
  if locked then (Err AlreadyRunning, db)
  else if SCHEMA_VERSION <? user_version then (Err (UnsupportedSchema user_version), db)
  else recover_on_open now db.

(** ** Frames and schema of every step *)

Lemma exec_frame stmt db n db' : exec stmt db = Ok (n, db') → schema_ok db' ∧ db' = (stmt db).1.
Proof. intros [E Hs]%exec_ok. by rewrite E. Qed.

(** A transaction that ends in a database of the schema, [F]-related to the one it started
    from, whatever it answers. *)
Definition keeps (F : Db → Db → Prop) {A} (m : Tx A) : Prop :=
  ∀ db a db', schema_ok db → m db = Ok (a, db') → schema_ok db' ∧ F db db'.

Section keeps.
Context (F : Db → Db → Prop) `{!PreOrder F}.

Lemma keeps_bind {A B} (m : Tx A) (k : A → Tx B) :
  keeps F m → (∀ a, keeps F (k a)) → keeps F (tbind m k).
Proof.
  intros Hm Hk db b db' Hs Hr. apply tbind_ok in Hr as (a & db1 & H1 & H2).
  destruct (Hm _ _ _ Hs H1) as [Hs1 F1]. destruct (Hk a _ _ _ Hs1 H2) as [Hs2 F2].
  split; [done|]. by transitivity db1.
Qed.

Lemma keeps_pure {A} (m : Tx A) :
  (∀ db a db', m db = Ok (a, db') → db' = db) → keeps F m.
Proof. intros Hm db a db' Hs Hr. by rewrite (Hm _ _ _ Hr). Qed.

Lemma keeps_ret {A} (a : A) : keeps F (tret a).
Proof. apply keeps_pure. by intros ? ? ? [_ ?]%tret_ok. Qed.
Lemma keeps_throw {A} e : keeps F (@throw A e).
Proof. by apply keeps_pure. Qed.
Lemma keeps_lift {A} (r : result StoreError A) : keeps F (lift r).
Proof. apply keeps_pure. by intros ? ? ? [_ ?]%lift_ok. Qed.
Lemma keeps_query {A} (q : Db → A) : keeps F (query q).
Proof. apply keeps_pure. by intros ? ? ? [_ ?]%query_ok. Qed.
Lemma keeps_query_result {A} (q : Db → result StoreError A) : keeps F (query_result q).
Proof. apply keeps_pure. by intros ? ? ? [_ ?]%query_result_ok. Qed.
Lemma keeps_exec stmt : (∀ db, F db (stmt db).1) → keeps F (exec stmt).
Proof. intros Hf db n db' _ [Hs ->]%exec_frame. by split. Qed.
Lemma keeps_if {A} (c : bool) (m k : Tx A) : keeps F m → keeps F k → keeps F (if c then m else k).
Proof. by destruct c. Qed.
End keeps.

(** Walks through a transaction; [tac] settles each writing statement. *)
Ltac keeps_with tac :=
  repeat first
    [ apply (keeps_ret _) | apply (keeps_throw _) | apply (keeps_lift _)
    | apply (keeps_query _) | apply (keeps_query_result _) | apply (keeps_if _)
    | apply (keeps_bind _); [|intros]
    | apply (keeps_exec _); intros; solve [tac]
    | match goal with |- keeps _ (match ?x with _ => _ end) => destruct x end ].
Ltac keeps_tac :=
  keeps_with ltac:(first [done | unfold insert_attempt_if_absent; by case_match]).

(** ** Steps *)

Section system.
Context `{Externals, Crypto}.

Inductive step (db db' : Db) : Prop :=
| step_enqueue now job o : enqueue now job db = Ok (o, db') → step db db'
| step_claim_next now o : claim_next_runnable now db = Ok (o, db') → step db db'
| step_completed now req g b : mark_completed now req g db = Ok (b, db') → step db db'
| step_failed now req g k b : mark_failed now req g k db = Ok (b, db') → step db db'
| step_recover_jobs now n : recover_interrupted_jobs now db = Ok (n, db') → step db db'
| step_set_binding now slot e task o : set_binding now slot e task db = Ok (o, db') → step db db'
| step_commit now b e next cid tp o :
    commit_rollout_completion_on now b e next cid tp db = Ok (o, db') → step db db'
| step_claim now task req o : claim_summary now task req db = Ok (o, db') → step db db'
| step_abandon now claim b : abandon_summary_claim now claim db = Ok (b, db') → step db db'
| step_abandon_interrupted now task o :
    abandon_interrupted_summary_for_task now task db = Ok (o, db') → step db db'
| step_begin_attempt now claim s : begin_summary_tts_attempt now claim db = Ok (s, db') → step db db'
| step_ambiguous now claim u : mark_summary_tts_ambiguous now claim db = Ok (u, db') → step db db'
| step_resume now task o : resume_interrupted_summary now task db = Ok (o, db') → step db db'
| step_publish now claim cache u :
    in_u64 (sc_generation claim) → publish_summary now claim cache db = Ok (u, db') → step db db'
| step_acquire now slot rg cg lease o :
    acquire_summary_playback now slot rg cg lease db = Ok (o, db') → step db db'
| step_cancel now l b : cancel_summary_playback now l db = Ok (b, db') → step db db'
| step_finish now l b : finish_summary_playback now l db = Ok (b, db') → step db db'
| step_recover_summaries now n : recover_interrupted_summaries now db = Ok (n, db') → step db db'
| step_recover_leases now u : recover_interrupted_playback_leases now db = Ok (u, db') → step db db'.

Definition reachable (db : Db) : Prop := rtc step empty_db db.

Record store_inv (db : Db) : Prop := {
  inv_schema : schema_ok db;
  inv_jobs : jobs_inv db;
  inv_summaries : summary_inv db;
  inv_bindings : bindings_range db;
}.

(** The tables the summary operations do not touch. *)
Definition same_job_tables (db db' : Db) : Prop :=
  db_jobs db' = db_jobs db ∧ db_job_sequence db' = db_job_sequence db
  ∧ db_bindings db' = db_bindings db.

Lemma jobs_inv_same db db' : same_job_tables db db' → jobs_inv db → jobs_inv db'.
Proof. intros (E1 & E2 & _) []. by split; rewrite ?E1, ?E2. Qed.

Lemma summary_inv_same db db' : same_other_tables db db' → summary_inv db → summary_inv db'.
Proof. intros (_ & Ec & _ & Es & Ea & El). by apply summary_inv_frame. Qed.

#[local] Instance same_job_tables_preorder : PreOrder same_job_tables.
Proof. split; [done|]. intros a b c (?&?&?) (?&?&?). split_and!; congruence. Qed.

Lemma claim_summary_good now task req : keeps same_job_tables (claim_summary now task req).
Proof. unfold claim_summary, claim_prior, reactivate, claim_new. keeps_tac. Qed.

Lemma cover_completions_good task gen cs : keeps same_job_tables (cover_completions task gen cs).
Proof. induction cs; simpl; keeps_tac; done. Qed.

Lemma publish_good now claim cache : keeps same_job_tables (publish_summary now claim cache).
Proof.
  unfold publish_summary, supersede_previous. keeps_tac; apply cover_completions_good.
Qed.

(** Settles [keeps same_job_tables] for every summary and playback operation. *)
Ltac frame_tac :=
  first [ apply claim_summary_good | apply publish_good
  | unfold abandon_summary_claim, abandon_interrupted_summary_for_task, begin_summary_tts_attempt,
      mark_summary_tts_ambiguous, resume_interrupted_summary, acquire_summary_playback,
      cancel_summary_playback, finish_summary_playback, recover_interrupted_summaries,
      recover_interrupted_playback_leases; keeps_tac ].

Lemma recover_summaries_good now : keeps same_job_tables (recover_interrupted_summaries now).
Proof. frame_tac. Qed.
Lemma recover_leases_good now : keeps same_job_tables (recover_interrupted_playback_leases now).
Proof. frame_tac. Qed.

Lemma acquire_good now slot rg cg lease : keeps same_job_tables (acquire_summary_playback now slot rg cg lease).
Proof. frame_tac. Qed.
Lemma cancel_good now lease : keeps same_job_tables (cancel_summary_playback now lease).
Proof. frame_tac. Qed.
Lemma finish_good now lease : keeps same_job_tables (finish_summary_playback now lease).
Proof. frame_tac. Qed.

Lemma schema_empty : schema_ok empty_db.
Proof. apply (bool_decide_unpack _). vm_compute. exact I. Qed.

Lemma inv_empty : store_inv empty_db.
Proof.
  split; [exact schema_empty| | |constructor].
  - split; simpl; [apply schema_empty|done| |constructor|constructor]. intros task. done.
  - split; simpl; try (intros ? []%not_elem_of_nil || intros ? ? []%not_elem_of_nil).
Qed.

(** ** The invariant *)

Lemma good_step {A} (m : Tx A) db a db' :
  m db = Ok (a, db') → store_inv db → keeps same_job_tables m →
  (schema_ok db → summary_inv db → summary_inv db') → store_inv db'.
Proof.
  intros Hr [Hs Hj Hi Hb] Hk HI. destruct (Hk _ _ _ Hs Hr) as [Hs' Hf].
  split; [done|by eapply jobs_inv_same|by apply HI|].
  destruct Hf as (_ & _ & E). unfold bindings_range. by rewrite E.
Qed.

Lemma jobs_step_inv db db' :
  store_inv db → schema_ok db' → jobs_inv db' → same_other_tables db db' → store_inv db'.
Proof.
  intros [Hs Hj Hi Hb] Hs' Hj' Hf. split; [done|done|by eapply summary_inv_same|].
  unfold bindings_range. by destruct Hf as (-> & _).
Qed.

Lemma set_binding_inv now slot e task db o db' :
  set_binding now slot e task db = Ok (o, db') → store_inv db → store_inv db'.
Proof.
  intros [[_ ->]|(g & _ & Hg & Hs' & ->)]%set_binding_ok [Hs Hj Hi Hb]; [done|].
  split; [done|by apply (jobs_inv_frame db)|by apply (summary_inv_frame db)|].
  apply Forall_forall. intros r Hr.
  apply (elem_of_upsert br_slot _ (mk_binding_row slot task g now)) in Hr; [|apply Hs].
  unfold bindings_range in Hb. rewrite Forall_forall in Hb. destruct Hr as [->|[? _]]; auto.
Qed.

Lemma commit_step_inv now b e next cid tp db o db' :
  commit_rollout_completion_on now b e next cid tp db = Ok (o, db') → store_inv db → store_inv db'.
Proof.
  intros Hr Hinv. pose proof (commit_inv _ _ _ _ _ _ _ _ _ Hr (inv_summaries _ Hinv)) as Hi'.
  apply commit_ok in Hr as (_ & _ & _ & _ & _ & _ & _ & Hs' & db1 & Hr & ->).
  destruct Hinv as [Hs Hj Hi Hb].
  split; [done| |done|]; apply record_completion_ok in Hr as [(_ & -> & _)|(_ & _ & ->)];
    first [done | by apply (jobs_inv_frame db)].
Qed.

Lemma step_inv db db' : step db db' → store_inv db → store_inv db'.
Proof.
  intros Hstep Hinv. pose proof Hinv as [Hs Hj Hi Hb]. destruct Hstep as
    [now job o Hr|now o Hr|now req g b Hr|now req g k b Hr|now n Hr|now slot e task o Hr
    |now b e next cid tp o Hr|now task req o Hr|now claim b Hr|now task o Hr|now claim s Hr
    |now claim u Hr|now task o Hr|now claim cache u Hg Hr|now slot rg cg lease o Hr|now l b Hr
    |now l b Hr|now n Hr|now u Hr].
  - destruct (enqueue_inv _ _ _ _ _ Hr Hj) as [Hj' Hf].
    apply (jobs_step_inv db); [done| |done|done].
    apply enqueue_ok in Hr as (_ & _ & [(_ & -> & _)|(_ & _ & _ & _ & _ & _ & ?)]); done.
  - destruct (claim_next_inv _ _ _ _ Hr Hj) as [Hj' Hf].
    apply (jobs_step_inv db); [done| |done|done].
    apply claim_next_ok in Hr; [|apply Hj].
    by destruct Hr as [(_ & -> & _)|(c & j & _ & _ & _ & _ & _ & _ & ?)].
  - destruct (mark_completed_inv _ _ _ _ _ _ Hr Hj) as [Hj' Hf].
    apply mark_completed_ok in Hr as (_ & Hs' & _). by apply (jobs_step_inv db).
  - destruct (mark_failed_inv _ _ _ _ _ _ _ Hr Hj) as [Hj' Hf].
    apply mark_failed_ok in Hr as (_ & Hs' & _). by apply (jobs_step_inv db).
  - destruct (recover_jobs_inv _ _ _ _ Hr Hj) as [Hj' Hf].
    apply exec_frame in Hr as [Hs' _]. by apply (jobs_step_inv db).
  - by eapply set_binding_inv.
  - by eapply commit_step_inv.
  - apply (good_step _ _ _ _ Hr Hinv); [frame_tac|by eapply claim_summary_inv].
  - apply (good_step _ _ _ _ Hr Hinv); [frame_tac|by eapply abandon_claim_inv].
  - apply (good_step _ _ _ _ Hr Hinv); [frame_tac|by eapply abandon_interrupted_inv].
  - apply (good_step _ _ _ _ Hr Hinv); [frame_tac|by intros; eapply begin_attempt_inv].
  - apply (good_step _ _ _ _ Hr Hinv); [frame_tac|by intros; eapply mark_ambiguous_inv].
  - apply (good_step _ _ _ _ Hr Hinv); [frame_tac|by intros; eapply resume_inv].
  - apply (good_step _ _ _ _ Hr Hinv); [frame_tac|].
    intros. eapply publish_inv; [done..|apply Hg|exact Hr].
  - apply (good_step _ _ _ _ Hr Hinv); [frame_tac|by eapply acquire_inv].
  - apply (good_step _ _ _ _ Hr Hinv); [frame_tac|by eapply cancel_inv].
  - apply (good_step _ _ _ _ Hr Hinv); [frame_tac|by eapply finish_inv].
  - apply (good_step _ _ _ _ Hr Hinv); [frame_tac|by intros; eapply recover_summaries_inv].
  - apply (good_step _ _ _ _ Hr Hinv); [frame_tac|by eapply recover_leases_inv].
Qed.

Lemma steps_inv db db' : rtc step db db' → store_inv db → store_inv db'.
Proof. induction 1; eauto using step_inv. Qed.

Lemma reachable_inv db : reachable db → store_inv db.
Proof. intros Hr. eapply steps_inv; [exact Hr|apply inv_empty]. Qed.

(** ** Relations between the ledger before and after *)

(** A relation that only sees the summary and completion tables holds across job steps and
    binding changes. *)
Lemma ledger_step (F : Db → Db → Prop) `{!PreOrder F} db db' :
  (∀ db db', db_summaries db' = db_summaries db → db_completions db' = db_completions db → F db db') →
  (∀ now next cid tp db, F db (with_completions
     (db_completions db ++ [new_completion now next cid tp db]) db)) →
  (∀ now task req, keeps F (claim_summary now task req)) →
  (∀ now claim, keeps F (abandon_summary_claim now claim)) →
  (∀ now task, keeps F (abandon_interrupted_summary_for_task now task)) →
  (∀ now task, keeps F (resume_interrupted_summary now task)) →
  (∀ now claim cache, keeps F (publish_summary now claim cache)) →
  (∀ now slot rg cg lease, keeps F (acquire_summary_playback now slot rg cg lease)) →
  (∀ now l, keeps F (cancel_summary_playback now l)) →
  (∀ now, keeps F (recover_interrupted_summaries now)) →
  (∀ now, keeps F (recover_interrupted_playback_leases now)) →
  step db db' → store_inv db →
  F db db' ∨ ∃ now l b, finish_summary_playback now l db = Ok (b, db').
Proof.
  intros Hsame Hcommit H1 H2 H3 H4 H5 H6 H7 H8 H9 Hstep [Hs Hj Hi Hb].
  assert (Hother : same_other_tables db db' → F db db').
  { intros (_ & Ec & _ & Es & _). by apply Hsame. }
  destruct Hstep as
    [now job o Hr|now o Hr|now req g b Hr|now req g k b Hr|now n Hr|now slot e task o Hr
    |now b e next cid tp o Hr|now task req o Hr|now claim b Hr|now task o Hr|now claim s Hr
    |now claim u Hr|now task o Hr|now claim cache u Hg Hr|now slot rg cg lease o Hr|now l b Hr
    |now l b Hr|now n Hr|now u Hr].
  - left. by eapply Hother, enqueue_inv.
  - left. by eapply Hother, claim_next_inv.
  - left. by eapply Hother, mark_completed_inv.
  - left. by eapply Hother, mark_failed_inv.
  - left. by eapply Hother, recover_jobs_inv.
  - left. apply set_binding_ok in Hr as [[_ ->]|(g & _ & _ & _ & ->)]; by apply Hsame.
  - left. apply commit_ok in Hr as (_ & _ & _ & _ & _ & _ & _ & _ & db1 & Hr & ->).
    transitivity db1; [|by apply Hsame].
    by apply record_completion_ok in Hr as [(_ & -> & _)|(_ & _ & ->)]; [by apply Hsame|].
  - left. by eapply H1.
  - left. by eapply H2.
  - left. by eapply H3.
  - left. unfold begin_summary_tts_attempt in Hr. eapply (_ : keeps F _); [exact Hs|exact Hr].
    Unshelve.
    keeps_with ltac:(apply Hsame; unfold insert_attempt_if_absent; by case_match).
  - left. unfold mark_summary_tts_ambiguous in Hr. eapply (_ : keeps F _); [exact Hs|exact Hr].
    Unshelve. keeps_with ltac:(by apply Hsame).
  - left. by eapply H4.
  - left. by eapply H5.
  - left. by eapply H6.
  - left. by eapply H7.
  - right. eauto.
  - left. by eapply H8.
  - left. by eapply H9.
Qed.

(** Recorded completions stay, with their payload. *)
Definition completions_kept (db db' : Db) : Prop :=
  ∀ c, c ∈ db_completions db → ∃ c', c' ∈ db_completions db'
    ∧ cp_completion_id c' = cp_completion_id c ∧ cp_task_id c' = cp_task_id c
    ∧ cp_turn_pack c' = cp_turn_pack c.

(** Every heard row was heard before. *)
Definition nothing_heard (db db' : Db) : Prop :=
  ∀ r', r' ∈ db_summaries db' → sm_state r' = Heard →
    ∃ r, r ∈ db_summaries db ∧ sm_key r = sm_key r' ∧ sm_state r = Heard.

#[local] Instance completions_kept_preorder : PreOrder completions_kept.
Proof.
  split; [intros db c Hc; by exists c|]. intros a b c Hab Hbc x Hx.
  destruct (Hab x Hx) as (y & Hy & ?&?&?), (Hbc y Hy) as (z & Hz & ?&?&?).
  exists z. split_and!; congruence.
Qed.

#[local] Instance nothing_heard_preorder : PreOrder nothing_heard.
Proof.
  split; [intros db r Hr E; by exists r|]. intros a b c Hab Hbc x Hx E.
  destruct (Hbc x Hx E) as (y & Hy & ?&?). destruct (Hab y Hy) as (z & Hz & ?&?); [done|].
  exists z. split_and!; congruence.
Qed.

Lemma completions_kept_same db db' :
  db_completions db' = db_completions db → completions_kept db db'.
Proof. intros E c Hc. exists c. by rewrite E. Qed.

Lemma completions_kept_update P `{∀ c, Decision (P c)} gen db :
  completions_kept db (update_completions P (set_summarized gen) db).1.
Proof.
  intros c Hc. exists (upd P (set_summarized gen) c). split.
  - apply elem_of_update. eauto.
  - unfold upd. by case_decide.
Qed.

Lemma nothing_heard_same db db' :
  db_summaries db' = db_summaries db → nothing_heard db db'.
Proof. intros E r Hr ?. exists r. by rewrite <- E. Qed.

Lemma nothing_heard_update P `{∀ r, Decision (P r)} f db :
  (∀ r, sm_key (f r) = sm_key r ∧ (P r → sm_state (f r) = Heard → sm_state r = Heard)) →
  nothing_heard db (update_summaries P f db).1.
Proof.
  intros Hf r' (r & Hr & ->)%elem_of_update E. exists r. unfold upd in *.
  destruct (Hf r). case_decide; auto.
Qed.

Lemma nothing_heard_insert r db : sm_state r ≠ Heard → nothing_heard db (insert_summary r db).1.
Proof.
  intros Hn r' Hr E. simpl in Hr. apply elem_of_app in Hr as [Hr|Hr]; [by exists r'|].
  by apply list_elem_of_singleton in Hr as ->.
Qed.

Ltac kept_tac :=
  first [ by apply completions_kept_same | apply completions_kept_update ].
Ltac heard_tac :=
  first
  [ by apply nothing_heard_same
  | by apply nothing_heard_insert
  | apply nothing_heard_update; intros; split;
    [ done | unfold returned_state; simpl; intros; repeat case_match; destruct_and?; congruence ] ].

Lemma step_completions_kept db db' : step db db' → store_inv db → completions_kept db db'.
Proof.
  intros Hstep Hinv.
  destruct (ledger_step completions_kept db db') as [?|(now & l & b & Hr)]; try done.
  - intros. by apply completions_kept_same.
  - intros. intros c Hc. exists c. simpl. rewrite elem_of_app. auto.
  - intros. unfold claim_summary, claim_prior, reactivate, claim_new. keeps_with kept_tac.
  - intros. unfold abandon_summary_claim. keeps_with kept_tac.
  - intros. unfold abandon_interrupted_summary_for_task. keeps_with kept_tac.
  - intros. unfold resume_interrupted_summary. keeps_with kept_tac.
  - intros. unfold publish_summary, supersede_previous. keeps_with kept_tac.
    all: induction (sc_completions claim) as [|p cs IH]; simpl; keeps_with kept_tac; done.
  - intros. unfold acquire_summary_playback. keeps_with kept_tac.
  - intros. unfold cancel_summary_playback. keeps_with kept_tac.
  - intros. unfold recover_interrupted_summaries. keeps_with kept_tac.
  - intros. unfold recover_interrupted_playback_leases. keeps_with kept_tac.
  - apply finish_ok in Hr. destruct b; [|by destruct Hr as [-> _]].
    destruct Hr as (row & r & _ & _ & _ & _ & _ & _ & _ & _ & ->). by apply completions_kept_same.
Qed.

Lemma step_nothing_heard db db' :
  step db db' → store_inv db →
  nothing_heard db db' ∨ ∃ now l b, finish_summary_playback now l db = Ok (b, db').
Proof.
  intros Hstep Hinv. apply (ledger_step nothing_heard); try done.
  - intros. by apply nothing_heard_same.
  - intros. by apply nothing_heard_same.
  - intros. unfold claim_summary, claim_prior, reactivate, claim_new. keeps_with heard_tac.
  - intros. unfold abandon_summary_claim. keeps_with heard_tac.
  - intros. unfold abandon_interrupted_summary_for_task. keeps_with heard_tac.
  - intros. unfold resume_interrupted_summary. keeps_with heard_tac.
  - intros. unfold publish_summary, supersede_previous. keeps_with heard_tac.
    all: induction (sc_completions claim) as [|p cs IH]; simpl; keeps_with heard_tac; done.
  - intros. unfold acquire_summary_playback. keeps_with heard_tac.
  - intros. unfold cancel_summary_playback. keeps_with heard_tac.
  - intros. unfold recover_interrupted_summaries. keeps_with heard_tac.
  - intros. unfold recover_interrupted_playback_leases. keeps_with heard_tac.
Qed.

(** ** Job rows across steps *)

(** Every job row stays, with its payload and a claim generation that never decreases. *)
Definition same_payload (r r' : JobRow) : Prop :=
  jb_sequence r' = jb_sequence r ∧ jb_request_id r' = jb_request_id r
  ∧ jb_task_id r' = jb_task_id r ∧ jb_slot r' = jb_slot r
  ∧ jb_generation r' = jb_generation r ∧ jb_prompt r' = jb_prompt r ∧ jb_cwd r' = jb_cwd r.

Definition jobs_kept (db db' : Db) : Prop :=
  ∀ r, r ∈ db_jobs db → ∃ r', r' ∈ db_jobs db' ∧ same_payload r r'
    ∧ jb_claim_generation r ≤ jb_claim_generation r'.

Lemma jobs_kept_same db db' : db_jobs db' = db_jobs db → jobs_kept db db'.
Proof. intros E r Hr. exists r. by rewrite E. Qed.

Lemma jobs_kept_update P `{∀ r, Decision (P r)} f db :
  (∀ r, r ∈ db_jobs db → P r → same_payload r (f r) ∧ jb_claim_generation r ≤ jb_claim_generation (f r)) →
  jobs_kept db (update_jobs P f db).1.
Proof.
  intros Hf r Hr. exists (upd P f r). split; [apply elem_of_update; eauto|].
  unfold upd. case_decide; [by apply Hf|done].
Qed.

#[local] Instance jobs_kept_preorder : PreOrder jobs_kept.
Proof.
  split; [intros db r Hr; by exists r|]. intros a b c Hab Hbc x Hx.
  destruct (Hab x Hx) as (y & Hy & Py & ?), (Hbc y Hy) as (z & Hz & Pz & ?).
  exists z. split; [done|]. split; [|lia]. unfold same_payload in *. destruct_and?.
  split_and!; congruence.
Qed.

Lemma same_job_tables_kept {A} (m : Tx A) db a db' :
  schema_ok db → m db = Ok (a, db') → keeps same_job_tables m → jobs_kept db db'.
Proof. intros Hs Hr Hk. destruct (Hk _ _ _ Hs Hr) as [_ (E & _)]. by apply jobs_kept_same. Qed.

Lemma step_jobs_kept db db' : step db db' → store_inv db → jobs_kept db db'.
Proof.
  intros Hstep [Hs Hj Hi Hb]. destruct Hstep as
    [now job o Hr|now o Hr|now req g b Hr|now req g k b Hr|now n Hr|now slot e task o Hr
    |now b e next cid tp o Hr|now task req o Hr|now claim b Hr|now task o Hr|now claim s Hr
    |now claim u Hr|now task o Hr|now claim cache u Hg Hr|now slot rg cg lease o Hr|now l b Hr
    |now l b Hr|now n Hr|now u Hr].
  1: { apply enqueue_ok in Hr as (_ & _ & [(_ & -> & _)|(_ & _ & _ & _ & _ & -> & _)]); [done|].
       intros r Hr. exists r. simpl. rewrite elem_of_app. split_and!; [by left|done|lia]. }
  1: { apply claim_next_ok in Hr; [|apply Hj].
       destruct Hr as [(_ & -> & _)|(c & j & _ & (Hc & Hrun & _) & _ & _ & _ & -> & _)]; [done|].
       apply jobs_kept_update. intros r Hr [Hreq _]. split; [done|]. simpl.
       rewrite (job_request_unique (db_jobs db) r c); [lia|apply Hj|done..]. }
  1: { apply mark_completed_ok in Hr as (_ & _ & -> & _). by apply jobs_kept_update. }
  1: { apply mark_failed_ok in Hr as (_ & _ & -> & _). by apply jobs_kept_update. }
  1: { apply exec_frame in Hr as [_ ->]. by apply jobs_kept_update. }
  1: { apply set_binding_ok in Hr as [[_ ->]|(g & _ & _ & _ & ->)]; by apply jobs_kept_same. }
  1: { apply commit_ok in Hr as (_ & _ & _ & _ & _ & _ & _ & _ & db1 & Hr & ->).
       apply record_completion_ok in Hr as [(_ & -> & _)|(_ & _ & ->)]; by apply jobs_kept_same. }
  all: apply (same_job_tables_kept _ _ _ _ Hs Hr); frame_tac.
Qed.

Lemma steps_jobs_kept db db' : rtc step db db' → store_inv db → jobs_kept db db'.
Proof.
  induction 1 as [|a b c Hab _ IH]; intros Hinv; [reflexivity|].
  transitivity b; [by apply step_jobs_kept|]. by eapply IH, step_inv.
Qed.

Lemma steps_completions_kept db db' : rtc step db db' → store_inv db → completions_kept db db'.
Proof.
  induction 1 as [|a b c Hab _ IH]; intros Hinv; [reflexivity|].
  transitivity b; [by apply step_completions_kept|]. by eapply IH, step_inv.
Qed.

(** The row of a claimed job. *)
Lemma claim_next_row now db job db' :
  claim_next_runnable now db = Ok (Some job, db') → store_inv db →
  ∃ c c', c ∈ db_jobs db ∧ c' ∈ db_jobs db' ∧ same_payload c c'
    ∧ jb_claim_generation c' = jb_claim_generation c + 1
    ∧ job = {| job_request_id := jb_request_id c; job_task_id := jb_task_id c;
               job_slot := jb_slot c; job_generation := jb_generation c;
               job_prompt := jb_prompt c; job_cwd := decode_path (jb_cwd c);
               job_recovery_count := jb_recovery_count c;
               job_claim_generation := jb_claim_generation c + 1 |}.
Proof.
  intros Hr Hinv. pose proof (inv_jobs _ Hinv) as Hj. apply claim_next_ok in Hr; [|apply Hj].
  destruct Hr as [(? & _)|(c & j & E & (Hc & Hrun & _) & _ & Hg & Hmap & -> & _)]; [done|].
  injection E as <-. exists c, (claim_row now c). split_and!; try done.
  - apply (claim_update_elem now c); [apply Hj|done|apply Hrun|by left].
  - rewrite map_claim_row in Hmap; [by injection Hmap| |done|].
    + eapply job_row_check; [apply Hj|done].
    + pose proof (ji_range _ Hj) as Hr. rewrite Forall_forall in Hr. by apply Hr.
Qed.

End system.
