(* ===== verification/SummaryWedge.v ===== *)
(** * What follows for leases and for a claim whose previous summary was heard *)

From S2P Require Import Prelude Bytes CacheRef Sql StoreTypes StoreJobs StoreRollout.
From S2P Require Import StoreSummary StorePlayback SummaryInv SummaryOps SummaryClaims.
From S2P Require Import SummaryPublish PlaybackOps StoreSystem.

(** * Granted leases are valid, and can always be returned

    What the owner of a lease relies on: a lease that [acquire_summary_playback] grants
    passes the checks of the other two operations, and as long as its row is there,
    cancelling it succeeds. *)

Section leases.
Context `{Externals, Crypto}.

(** ** The tasks of summaries have checked names *)

Definition tasks_ok (db : Db) : Prop := ∀ r, r ∈ db_summaries db → uuid_ok (sm_task_id r) = true.
Definition tasks_stay_ok (db db' : Db) : Prop := tasks_ok db → tasks_ok db'.

#[local] Instance tasks_stay_ok_preorder : PreOrder tasks_stay_ok.
Proof. split; [by intros db ?|]. intros a b c Hab Hbc Ha. by apply Hbc, Hab. Qed.

Lemma tasks_ok_same db db' : db_summaries db' = db_summaries db → tasks_stay_ok db db'.
Proof. intros E Ht r. rewrite E. apply Ht. Qed.

Lemma tasks_ok_update P `{∀ r, Decision (P r)} f db :
  (∀ r, sm_task_id (f r) = sm_task_id r) → tasks_stay_ok db (update_summaries P f db).1.
Proof.
  intros Hf Ht r (s & Hs & ->)%elem_of_update. unfold upd. case_decide; [rewrite Hf|]; by apply Ht.
Qed.

Lemma tasks_ok_insert r db : uuid_ok (sm_task_id r) = true → tasks_stay_ok db (insert_summary r db).1.
Proof.
  intros Hr Ht s [Hs|Hs]%elem_of_app; [by apply Ht|]. by apply list_elem_of_singleton in Hs as ->.
Qed.

Ltac tasks_tac :=
  first [ by apply tasks_ok_same | by apply tasks_ok_insert | by apply tasks_ok_update ].

Lemma claim_summary_tasks now task req : keeps tasks_stay_ok (claim_summary now task req).
Proof.
  unfold claim_summary. destruct (uuid_ok task) eqn:Et.
  - unfold claim_prior, reactivate, claim_new. keeps_with tasks_tac.
  - intros db a db' _ Hr. unfold tbind, lift, validate_summary_request in Hr. by rewrite Et in Hr.
Qed.

Lemma step_tasks db db' : step db db' → store_inv db → tasks_stay_ok db db'.
Proof.
  intros Hstep Hinv. destruct (ledger_step tasks_stay_ok db db') as [?|(now & l & b & Hr)]; try done.
  - intros. by apply tasks_ok_same.
  - intros. by apply tasks_ok_same.
  - intros. apply claim_summary_tasks.
  - intros. unfold abandon_summary_claim. keeps_with tasks_tac.
  - intros. unfold abandon_interrupted_summary_for_task. keeps_with tasks_tac.
  - intros. unfold resume_interrupted_summary. keeps_with tasks_tac.
  - intros. unfold publish_summary, supersede_previous. keeps_with tasks_tac.
    all: induction (sc_completions claim) as [|p cs IH]; simpl; keeps_with tasks_tac; done.
  - intros. unfold acquire_summary_playback. keeps_with tasks_tac.
  - intros. unfold cancel_summary_playback. keeps_with tasks_tac.
  - intros. unfold recover_interrupted_summaries. keeps_with tasks_tac.
  - intros. unfold recover_interrupted_playback_leases. keeps_with tasks_tac.
  - apply finish_ok in Hr. destruct b; [|by destruct Hr as [-> _]].
    destruct Hr as (row & r & _ & _ & _ & _ & _ & _ & _ & _ & ->). by apply tasks_ok_update.
Qed.

Lemma steps_tasks db db' : rtc step db db' → store_inv db → tasks_stay_ok db db'.
Proof.
  induction 1 as [|a b c Hab _ IH]; intros Hinv; [by intros ?|].
  intros Ht. apply IH; [by eapply step_inv | by eapply step_tasks].
Qed.

Lemma reachable_tasks db : reachable db → tasks_ok db.
Proof. intros Hr. apply (steps_tasks _ _ Hr inv_empty). by intros r ?%not_elem_of_nil. Qed.

(** ** Granted leases *)

Lemma acquire_valid now slot rg cg lease p db db' :
  store_inv db → tasks_ok db → 0 < lease →
  acquire_summary_playback now slot rg cg lease db = Ok (Some p, db') →
  validate_playback_lease p = Ok tt ∧ pl_lease p = lease ∧ pl_slot p = slot
  ∧ pl_request_generation p = rg ∧ pl_connection_generation p = cg ∧ lease ≤ i64_max.
Proof.
  intros [Hs _ Hi _] Ht Hpos Hr. apply acquire_ok in Hr.
  destruct Hr as (b & r & _ & _ & Hrow & _ & Hu & Hslot & Hrg & Hcg & _ & Hmax & Hc & -> & _).
  cbn [pl_lease pl_slot pl_request_generation pl_connection_generation]. split_and!; try done.
  pose proof (si_range _ Hi r Hrow) as Hgen. destruct (summary_row_check _ _ Hs Hrow) as (Hgpos & _).
  assert (published r) as Hpub by (unfold published; destruct Hu as [[?|?] _]; tauto).
  rewrite (si_cache _ Hi r Hrow Hpub) in Hc. injection Hc as Hc.
  assert (as_u64 (sm_generation r) = sm_generation r) as Eg by (apply as_u64_small; width_lia).
  unfold validate_playback_lease.
  cbn [pl_lease pl_slot pl_task_id pl_summary_generation pl_request_generation pl_connection_generation pl_cache_object].
  unfold slot_check in Hslot. rewrite (proj2 (require_ok _ InvalidSlot tt : validate_slot slot = Ok tt ↔ _)) by lia.
  cbn [rbind]. rewrite Eg, <- Hc, (Ht r Hrow). unfold cache_ref.
  rewrite from_reference_reference.
  - unfold for_task. replace (sm_generation r =? 0) with false by lia. rewrite bool_decide_eq_true_2 by done. cbn [negb orb].
    replace (lease =? 0) with false by lia. replace (i64_max <? lease) with false by lia.
    replace (i64_max <? sm_generation r) with false by lia. replace (rg =? 0) with false by lia.
    by replace (cg =? 0) with false by lia.
  - eapply (for_task_wf (sm_task_id r) (sm_generation r)); [width_lia | lia |]. unfold for_task.
    by replace (sm_generation r =? 0) with false by lia.
Qed.

(** ** Cancelling *)

(** Returning leased rows keeps the schema. *)
Lemma returned_schema P `{∀ r, Decision (P r)} now t :
  (∀ r, P r → sm_state r = Leased) → summaries_schema t →
  summaries_schema (update_rows P (λ r, set_summary_state (returned_state r) now r) t).
Proof.
  intros HP (U1 & U2 & U3 & U4 & Hcheck). split_and!; try (apply unique_on_update; [done|]; intros r Hr Hp Hq).
  - done.
  - exfalso. unfold active_claim, returned_state in Hq. cbn in Hq. destruct (sm_superseded_by r); destruct Hq; done.
  - done.
  - split; [|done]. unfold current_unread, returned_state in *. cbn in Hq. rewrite (HP r Hp). split; [by right | apply Hq].
  - rewrite Forall_forall in *. intros r (s & Hs & ->)%elem_of_update. unfold upd. case_decide as Hp; [|by apply Hcheck].
    destruct (Hcheck s Hs) as (? & ? & ? & Hc). specialize (HP s Hp).
    split_and!; try done. right; right. unfold published, active_claim, returned_state in *. cbn. rewrite HP in Hc.
    destruct Hc as [([?|?] & _)|[(? & _)|(_ & Hclaim)]]; try done. split; [|done].
    destruct (sm_superseded_by s); tauto.
Qed.

Lemma keys_update P `{∀ r, Decision (P r)} f t :
  (∀ r, sm_key (f r) = sm_key r) → sm_key <$> update_rows P f t = sm_key <$> t.
Proof.
  intros Hf. unfold update_rows. rewrite <- list_fmap_compose. apply list_fmap_ext. intros i r _. unfold compose, upd.
  case_decide; [by rewrite Hf | done].
Qed.

Lemma delete_leases_schema P `{∀ r, Decision (P r)} db : schema_ok db → schema_ok (delete_leases P db).1.
Proof.
  unfold schema_ok. intros (?&?&?&?&?&?& L1 & L2 & L3 & L4). cbn. unfold leases_schema. split_and!; try done.
  - by apply unique_on_filter.
  - by apply unique_on_filter.
  - rewrite Forall_forall in *. intros r [Hr _]%elem_of_delete. by apply L3.
  - rewrite Forall_forall in *. intros r [Hr _]%elem_of_delete. by apply L4.
Qed.

(** A valid lease whose row is there can be cancelled. *)
Lemma cancel_succeeds now l db row :
  schema_ok db → validate_playback_lease l = Ok tt → row ∈ db_leases db → exact_lease l row →
  ∃ db', cancel_summary_playback now l db = Ok (true, db').
Proof.
  intros Hs Hv Hrow Hex. unfold cancel_summary_playback. rewrite (tbind_lift _ _ _ tt Hv).
  assert (lease_params l = Ok tt) as Hp.
  { unfold validate_playback_lease in Hv. run_ok Hv.
    repeat (apply orb_false_elim in Hguard as [Hguard ?]).
    unfold lease_params, to_i64. replace (pl_lease l <=? i64_max) with true by lia. cbn [rbind].
    by replace (pl_summary_generation l <=? i64_max) with true by lia. }
  rewrite (tbind_lift _ _ _ tt Hp). pose proof (delete_leases_schema (exact_lease l) db Hs) as Hs1.
  assert (count_rows (exact_lease l) (db_leases db) = 1) as Hcount.
  { assert (0 < count_rows (exact_lease l) (db_leases db)) by (apply count_rows_pos; eauto).
    assert (count_rows (exact_lease l) (db_leases db) ≤ 1); [|lia]. destruct (leases_schema_of _ Hs) as (Hu & _).
    eapply (count_rows_unique any lr_lease_id); [done|]. intros r _ (E & _). by split; [|exact E]. }
  erewrite tbind_exec; [|reflexivity|exact Hs1]. cbn [delete_leases]. rewrite Hcount. cbn [Z.eqb Pos.eqb].
  eexists. erewrite tbind_exec; [reflexivity|reflexivity|].
  destruct Hs1 as (?&?&?&?& Hsum & (? & ? & Hatt) & (? & ? & ? & Hlea)). unfold schema_ok.
  cbn -[update_rows] in *. unfold attempts_schema, leases_schema. split_and!; try done.
  - apply returned_schema; [tauto | done].
  - eapply Forall_impl; [exact Hatt|]. intros a Ha. cbv beta in *. by rewrite keys_update.
  - eapply Forall_impl; [exact Hlea|]. intros a Ha. cbv beta in *. by rewrite keys_update.
Qed.

End leases.

(** * A claim that can no longer be published

    A claim remembers the unread summary it will replace.  When that summary is heard while
    the claim is still being generated, the task has a claim in progress, with a previous
    generation, and no unread summary: [wedged].  Then the claim is never published, never
    loaded again and never replaced; the task leaves the state only when the claim is
    abandoned. *)

Section wedge.
Context `{Externals, Crypto} (task : text) (gen : Z).

Definition no_unread (db : Db) : Prop :=
  ∀ r, r ∈ db_summaries db → sm_task_id r = task → ¬ current_unread r.

Definition wedged (db : Db) : Prop :=
  no_unread db ∧ ∃ r, r ∈ db_summaries db ∧ sm_key r = (task, gen) ∧ active_claim r ∧ sm_previous_generation r ≠ None.

Definition given_up (db : Db) : Prop :=
  ∃ r, r ∈ db_summaries db ∧ sm_key r = (task, gen) ∧ sm_state r = Abandoned.

(** Wedged, or the claim was abandoned: closed under every operation. *)
Definition stuck (db : Db) : Prop := wedged db ∨ given_up db.
Definition stays_stuck (db db' : Db) : Prop := stuck db → stuck db'.

#[local] Instance stays_stuck_preorder : PreOrder stays_stuck.
Proof. split; [by intros db ?|]. intros a b c Hab Hbc Ha. by apply Hbc, Hab. Qed.

Lemma stuck_same db db' : db_summaries db' = db_summaries db → stays_stuck db db'.
Proof. unfold stays_stuck, stuck, wedged, given_up, no_unread. by intros ->. Qed.

(** A row change that makes nothing unread and ends a claim only by abandoning it. *)
Record harmless (f : SummaryRow → SummaryRow) (r : SummaryRow) : Prop := {
  hm_columns : same_columns r (f r);
  hm_unread : current_unread (f r) → current_unread r;
  hm_active : active_claim r → active_claim (f r) ∨ sm_state (f r) = Abandoned;
  hm_abandoned : sm_state r = Abandoned → sm_state (f r) = Abandoned;
}.

Lemma stuck_update P `{∀ r, Decision (P r)} f db :
  (∀ r, P r → harmless f r) → stays_stuck db (update_summaries P f db).1.
Proof.
  intros Hf. assert (∀ r, harmless (upd P f) r) as Hu.
  { intros r. unfold upd. split; case_decide; try (apply Hf; done); try done; by left. }
  assert (∀ r, sm_key (upd P f r) = sm_key r) as Hk.
  { intros r. unfold sm_key. destruct (hm_columns _ _ (Hu r)). congruence. }
  intros [[Hno (r & Hr & Ek & Ha & Hp)]|(r & Hr & Ek & Ha)].
  - destruct (hm_active _ _ (Hu r) Ha) as [Ha'|Hab].
    + left. split.
      * intros s' (s & Hs & ->)%elem_of_update Et Hun. apply (Hno s Hs); [|by apply (hm_unread _ _ (Hu s))].
        destruct (hm_columns _ _ (Hu s)). congruence.
      * exists (upd P f r). split_and!; [apply elem_of_update; eauto|by rewrite Hk|done|].
        by rewrite (sc_previous _ _ (hm_columns _ _ (Hu r))).
    + right. exists (upd P f r). split_and!; [apply elem_of_update; eauto|by rewrite Hk|done].
  - right. exists (upd P f r). split_and!; [apply elem_of_update; eauto|by rewrite Hk|by apply (hm_abandoned _ _ (Hu r))].
Qed.

Lemma stuck_insert r db : ¬ current_unread r → stays_stuck db (insert_summary r db).1.
Proof.
  intros Hn [[Hno (s & Hs & E)]|(s & Hs & E)].
  - left. split; [|exists s; split; [apply elem_of_app; by left|done]].
    intros x [Hx| ->%list_elem_of_singleton]%elem_of_app Et; [by apply Hno|done].
  - right. exists s. split; [apply elem_of_app; by left|done].
Qed.

Ltac stuck_tac :=
  first
  [ by apply stuck_same
  | apply stuck_insert; unfold current_unread; simpl; intros [[?|?] _]; done
  | apply stuck_update; intros; unfold active_row, active_claim, publishable, current_unread, returned_state in *;
    destruct_and?; split; [done | unfold current_unread, active_claim, returned_state; simpl; intros; repeat case_match; intuition congruence ..] ].

(** ** Publishing *)

Lemma no_unread_query db : no_unread db → query_current_unread task db = Ok None.
Proof.
  intros Hno. unfold query_current_unread. destruct (query_row _ _) as [r|] eqn:E; [|done].
  apply query_row_some in E as (Hr & Et & Hu). by destruct (Hno r Hr Et).
Qed.

(** The previous summary of the claim is gone. *)
Lemma wedged_not_published now claim cache db u db' :
  schema_ok db → wedged db → sc_task_id claim = task → publish_summary now claim cache db ≠ Ok (u, db').
Proof.
  intros Hs [Hno (r & Hr & Ek & Ha & Hp)] Et Hrun. unfold publish_summary in Hrun.
  apply tbind_ok in Hrun as ([] & ? & Hv & Hrun). apply lift_ok in Hv as [_ <-].
  apply tbind_ok in Hrun as (? & ? & Hv & Hrun). apply lift_ok in Hv as [_ <-].
  case_match; [done|].
  apply tbind_ok in Hrun as (g & ? & Hg & Hrun). apply lift_ok in Hg as [Hg <-].
  rewrite tbind_query in Hrun. destruct (query_row _ _) as [s|] eqn:E; [|done].
  apply query_row_some in E as (Hin & Est & Esg & Egen & _).
  assert (s = r) as ->.
  { eapply active_unique; try done; [by left|]. injection Ek as -> _. congruence. }
  apply tbind_ok in Hrun as (prev & ? & Hprev & Hrun). apply lift_ok in Hprev as [Hprev <-].
  apply tbind_ok in Hrun as (? & ? & Hc & Hrun). apply lift_ok in Hc as [_ <-].
  destruct (_ || _) eqn:Eor in Hrun; [done|]. apply orb_false_elim in Eor as [E1 _]. bool_prop.
  apply tbind_ok in Hrun as (? & ? & Hsup & _).
  destruct (sc_previous_unread claim) as [p|]; [|injection Hprev as <-; congruence].
  unfold supersede_previous in Hsup. apply tbind_ok in Hsup as (cur & ? & Hq & Hsup).
  apply query_result_ok in Hq as [Hq <-]. rewrite Et, no_unread_query in Hq by done. injection Hq as <-. done.
Qed.

(** Another task's publication does not touch the task. *)
Lemma publish_other now claim cache : sc_task_id claim ≠ task → keeps stays_stuck (publish_summary now claim cache).
Proof.
  intros Hne.
  assert (∀ P `{∀ r, Decision (P r)} f db, (∀ r, P r → sm_task_id r ≠ task) → (∀ r, sm_key (f r) = sm_key r) →
    stays_stuck db (update_summaries P f db).1) as Hother.
  { intros P ? f db HP Hf. assert (∀ r, sm_task_id r = task → upd P f r = r) as Hid.
    { intros r Et. unfold upd. case_decide as Hp; [by destruct (HP r Hp)|done]. }
    intros [[Hno (r & Hr & Ek & E)]|(r & Hr & Ek & E)].
    - left. split.
      + intros s' (s & Hs & ->)%elem_of_update Et. assert (sm_task_id s = task) as Es.
        { unfold upd in Et. case_decide as Hp; [|done]. specialize (Hf s). unfold sm_key in Hf. congruence. }
        rewrite Hid by done. by apply Hno.
      + exists r. split; [|done]. apply elem_of_update. exists r. split; [done|]. rewrite Hid; [done|]. by injection Ek.
    - right. exists r. split; [|done]. apply elem_of_update. exists r. split; [done|]. rewrite Hid; [done|]. by injection Ek. }
  unfold publish_summary, supersede_previous. keeps_with ltac:(first [by apply stuck_same
    | apply Hother; [unfold publishable; intros; destruct_and?; congruence | done]]).
  all: induction (sc_completions claim) as [|p cs IH]; simpl; keeps_with ltac:(by apply stuck_same); done.
Qed.

(** An abandoned row stays. *)
Definition stays_abandoned (db db' : Db) : Prop := given_up db → given_up db'.
#[local] Instance stays_abandoned_preorder : PreOrder stays_abandoned.
Proof. split; [by intros db ?|]. intros a b c Hab Hbc Ha. by apply Hbc, Hab. Qed.

Lemma publish_abandoned now claim cache : keeps stays_abandoned (publish_summary now claim cache).
Proof.
  assert (∀ P `{∀ r, Decision (P r)} f db, (∀ r, P r → sm_state r ≠ Abandoned) →
    stays_abandoned db (update_summaries P f db).1) as Hupd.
  { intros P ? f db HP (r & Hr & Ek & E). exists r. split; [|done]. apply elem_of_update. exists r. split; [done|].
    unfold upd. case_decide as Hp; [by destruct (HP r Hp)|done]. }
  assert (∀ db db', db_summaries db' = db_summaries db → stays_abandoned db db') as Hsame.
  { unfold stays_abandoned, given_up. by intros db db' ->. }
  unfold publish_summary, supersede_previous. keeps_with ltac:(first [by apply Hsame
    | apply Hupd; intros r HP E; unfold publishable, current_unread in HP; destruct_and?; destruct_or?; congruence]).
  all: induction (sc_completions claim) as [|p cs IH]; simpl; keeps_with ltac:(by apply Hsame); done.
Qed.

Lemma publish_stuck now claim cache : keeps stays_stuck (publish_summary now claim cache).
Proof.
  intros db u db' Hs Hr. destruct (decide (sc_task_id claim = task)) as [Et|Hne]; [|by eapply publish_other].
  split; [by eapply publish_abandoned|]. intros [Hw|Hab].
  - by destruct (wedged_not_published _ _ _ _ _ _ Hs Hw Et Hr).
  - right. by eapply publish_abandoned.
Qed.

(** ** Every step *)

Lemma step_stuck db db' : step db db' → store_inv db → stays_stuck db db'.
Proof.
  intros Hstep Hinv. destruct (ledger_step stays_stuck db db') as [?|(now & l & b & Hr)]; try done.
  - intros. by apply stuck_same.
  - intros. by apply stuck_same.
  - intros. unfold claim_summary, claim_prior, reactivate, claim_new. keeps_with stuck_tac.
  - intros. unfold abandon_summary_claim. keeps_with stuck_tac.
  - intros. unfold abandon_interrupted_summary_for_task. keeps_with stuck_tac.
  - intros. unfold resume_interrupted_summary. keeps_with stuck_tac.
  - intros. apply publish_stuck.
  - intros. unfold acquire_summary_playback. keeps_with stuck_tac.
  - intros. unfold cancel_summary_playback. keeps_with stuck_tac.
  - intros. unfold recover_interrupted_summaries. keeps_with stuck_tac.
  - intros. unfold recover_interrupted_playback_leases. keeps_with stuck_tac.
  - apply finish_ok in Hr. destruct b; [|by destruct Hr as [-> _]].
    destruct Hr as (row & r & _ & _ & _ & _ & _ & _ & _ & _ & ->).
    transitivity (update_summaries (λ r, sm_task_id r = pl_task_id l ∧ sm_generation r = pl_summary_generation l
            ∧ sm_state r = Leased ∧ sm_cache_object r = Some (pl_cache_object l)) (set_summary_state Heard now) db).1.
    + stuck_tac.
    + by apply stuck_same.
Qed.

Lemma steps_stuck db db' : rtc step db db' → store_inv db → stays_stuck db db'.
Proof.
  induction 1 as [|a b c Hab _ IH]; intros Hinv; [by intros ?|].
  intros Ht. apply IH; [by eapply step_inv | by eapply step_stuck].
Qed.

(** ** Becoming wedged, and what it costs *)

(** The unread summary of the task is heard while the claim is in progress. *)
Lemma finish_wedges now l r db db' :
  schema_ok db → summary_inv db → finish_summary_playback now l db = Ok (true, db') →
  r ∈ db_summaries db → sm_key r = (task, gen) → active_claim r → pl_task_id l = task →
  (∃ u, u ∈ db_summaries db ∧ sm_task_id u = task ∧ sm_generation u = pl_summary_generation l ∧ current_unread u) →
  wedged db'.
Proof.
  intros Hs Hi (row & v & _ & _ & Hv & Evt & Evg & Evs & Evc & _ & ->)%finish_ok Hr Ek Ha El (u & Hu & Eut & Eug & Hun).
  assert (v = u) as -> by (eapply summary_key_unique'; try done; congruence).
  set (P := λ r, sm_task_id r = pl_task_id l ∧ sm_generation r = pl_summary_generation l
    ∧ sm_state r = Leased ∧ sm_cache_object r = Some (pl_cache_object l)).
  injection Ek as Et Eg. split.
  - intros s' (s & Hs' & ->)%elem_of_update Est. fold P in Est |- *. unfold upd in *. case_decide as HP.
    + unfold current_unread. simpl. intros [[?|?] _]; done.
    + intros Hus. apply HP. assert (s = u) as -> by (eapply unread_unique; try done; congruence). done.
  - exists r. split_and!; [|unfold sm_key; congruence|done|].
    + apply elem_of_update. exists r. split; [done|]. fold P. unfold upd. case_decide as HP; [|done].
      destruct HP as (_ & _ & E & _). destruct Ha; congruence.
    + rewrite (si_previous _ Hi r u) by (done || congruence). done.
Qed.

(** Loading the claim back. *)
Lemma wedged_load outcome req r db c :
  no_unread db → sm_previous_generation r ≠ None → load_row outcome req task r db ≠ Ok c.
Proof.
  intros Hno Hp Hq. unfold load_row, load_summary_claim in Hq. case_match; [done|].
  run_ok_step Hq. case_match; [done|]. run_ok_step Hq. run_ok_step Hq.
  destruct (sm_previous_generation r); [|done]. unfold load_previous in *.
  rewrite no_unread_query in * by done. done.
Qed.

Context (db : Db) (Hs : schema_ok db) (Hi : summary_inv db) (Hw : wedged db).

Lemma wedged_resume now :
  (∃ e, resume_interrupted_summary now task db = Err e) ∨ resume_interrupted_summary now task db = Ok (None, db).
Proof.
  destruct (resume_interrupted_summary now task db) as [[v db2]|e] eqn:Hr; [right|left; by eexists].
  destruct Hw as [Hno (r & Hin & Ek & Ha & Hp)]. injection Ek as Et Eg.
  unfold resume_interrupted_summary in Hr. case_match; [done|]. rewrite tbind_query in Hr.
  destruct (query_row _ _) as [s|] eqn:E; [exfalso|by injection Hr as <- <-].
  apply query_row_some in E as (His & Est & Ess).
  assert (s = r) as -> by (eapply active_unique; try done; [by right|congruence]).
  apply tbind_ok in Hr as (req & ? & Hq & Hr). apply lift_ok in Hq as [_ <-].
  apply tbind_ok in Hr as (n & db1 & Hx & Hr). case_match; [done|].
  apply tbind_ok in Hr as (c & db3 & Hq & _). apply query_result_ok in Hq as [Hq _].
  eapply wedged_load; [|exact Hp|exact Hq]. apply exec_ok in Hx as [Hx _]. exec_result Hx.
  intros s' (s & Hs' & ->)%elem_of_update Ets. unfold upd in *. case_decide as HP; [|by apply Hno].
  unfold current_unread. simpl. intros [[?|?] _]; done.
Qed.

(** A request the ledger has not seen. *)
Lemma wedged_claim now request :
  (∀ r, r ∈ db_summaries db → sm_request_id r ≠ Some request) →
  ∃ e, claim_summary now task request db = Err e ∧ (e = SummaryBusy ∨ e = InvalidSummaryRequest).
Proof.
  intros Hfresh. destruct Hw as [Hno (r & Hin & Ek & Ha & Hp)]. injection Ek as Et Eg.
  unfold claim_summary. unfold tbind at 1, lift at 1. unfold validate_summary_request.
  destruct (require _ _) as [[]|e] eqn:Ev; [|exists e; split; [done|right; by apply require_err in Ev as [_ <-]]].
  cbn [rbind fst snd]. rewrite tbind_query. destruct (query_row _ _) as [s|] eqn:E.
  { apply query_row_some in E as (His & Es). by destruct (Hfresh s His). }
  clear E. rewrite tbind_query. destruct (query_row _ _) as [s|] eqn:E; [|by destruct (query_row_none_1 _ _ r E Hin)].
  apply query_row_some in E as (His & Est & Ess).
  assert (s = r) as -> by (eapply active_unique; try done; congruence).
  destruct (si_active _ Hi r Hin Ha) as (q & ids & cs & Eq & Ec & _). rewrite Ec. cbn.
  case_bool_decide as Eqq; cbn; [subst; by destruct (Hfresh r Hin)|]. eexists. split; [done|by left].
Qed.

End wedge.
