(* ===== verification/HostPlayback.v ===== *)
(** * Playbacks of the host (app/host/src/health.rs, [handle_lan_playback_event])

    The main loop of the host owns the leases: a device's request supersedes what is
    playing, acquires a lease of the slot's unread summary, loads and transcodes its audio
    and hands it to the transport; the transport's reports finish or cancel the lease. *)

From stdpp Require Import gmap.
From S2P Require Import Prelude Bytes PlaybackWire Audio Capture Transport.
From S2P Require Import CacheRef Sql StoreTypes StoreJobs StoreRollout StoreSummary StorePlayback.

Record ActiveHostPlayback := mk_playing {
  ah_lease : SummaryPlaybackLease;
  ah_identity : PlaybackIdentity;
  ah_total_samples : Z;
  ah_heard_committed : bool;
}.

(** What an event handler reads and changes: the store, the [BTreeMap] of playbacks by
    lease, and the commands sent to the transport. *)
Record HostState := mk_host {
  hs_store : Db;
  hs_active : gmap Z ActiveHostPlayback;
  hs_commands : list LanPlaybackCommand;
}.

Definition with_store (db : Db) (h : HostState) : HostState := mk_host db (hs_active h) (hs_commands h).
Definition send_command (c : LanPlaybackCommand) (h : HostState) : HostState :=
  mk_host (hs_store h) (hs_active h) (hs_commands h ++ [c]).
Definition put_active (id : Z) (p : ActiveHostPlayback) (h : HostState) : HostState :=
  mk_host (hs_store h) (<[id := p]> (hs_active h)) (hs_commands h).
Definition remove_active (id : Z) (h : HostState) : HostState :=
  mk_host (hs_store h) (delete id (hs_active h)) (hs_commands h).

(** The surroundings of one event: the clock, the random lease numbers (128 random bits
    each), whether the transport's thread still receives, what the object cache answers for
    an object, and whether it could drop all but the retained objects. *)
Record Surroundings := mk_surroundings {
  su_now : Z;
  su_random : list Z;
  su_transport_alive : bool;
  su_cached : CacheId → option bytes;
  su_reconciled : gset text → bool;
}.

Inductive BeginError := StoreFailed (e : StoreError) | NoLease | NotLoaded | TransportBusy.

(** The entries of a [BTreeMap], in the order of the keys. *)
Definition in_key_order (m : gmap Z ActiveHostPlayback) : list (Z * ActiveHostPlayback) :=
  omap (λ id, pair id <$> m !! id) (merge_sort Z.le (fst <$> map_to_list m)).

(** The errors of [inspect_eiad_signal]; its peak and loudness are only logged. *)
Definition inspect_eiad_signal (eiad : bytes) : result AudioError unit :=
  let? pcm := decode_eiad eiad in
  require (negb (length pcm / 2 =? 0)%nat) InvalidEiad.

Section host.
Context `{Externals, Crypto} (su : Surroundings).

Definition same_request (request : PlaybackRequest) (p : ActiveHostPlayback) : bool :=
  (id_slot (ah_identity p) =? rq_slot request)
  && (id_request_generation (ah_identity p) =? rq_request_generation request)
  && (id_connection_generation (ah_identity p) =? rq_connection_generation request).

(** Whatever plays is superseded. *)
Fixpoint supersede_all (l : list (Z * ActiveHostPlayback)) (h : HostState)
    : result BeginError unit * HostState :=
  match l with
  | [] => (Ok tt, h)
  | (id, p) :: l =>
      let h := send_command (Cancel (ah_identity p)) h in
      if ah_heard_committed p then supersede_all l (remove_active id h)
      else
        match cancel_summary_playback (su_now su) (ah_lease p) (hs_store h) with
        | Ok (_, db) => supersede_all l (remove_active id (with_store db h))
        | Err e => (Err (StoreFailed e), h)
        end
  end.

(** Up to four attempts to find a free lease number; a taken one violates a constraint. *)
Fixpoint acquire_lease (request : PlaybackRequest) (random : list Z) (db : Db)
    : result BeginError (option SummaryPlaybackLease) * Db :=
  match random with
  | [] => (Err NoLease, db)
  | r :: random =>
      let lease_id := Z.land r i64_max in
      if lease_id =? 0 then acquire_lease request random db
      else
        match acquire_summary_playback (su_now su) (rq_slot request) (rq_request_generation request)
                (rq_connection_generation request) lease_id db with
        | Ok (granted, db) => (Ok granted, db)
        | Err Sqlite => acquire_lease request random db
        | Err e => (Err (StoreFailed e), db)
        end
  end.

(** The audio of the leased summary: the device's encoding and the number of samples. *)
Definition load_audio (lease : SummaryPlaybackLease) : result BeginError (bytes * Z) :=
  match from_reference (pl_cache_object lease) with
  | Err _ => Err NotLoaded
  | Ok id =>
      match su_cached su id with
      | None => Err NotLoaded
      | Some device_eiad =>
          match inspect_eiad device_eiad, transcode_eiad_for_device device_eiad,
                inspect_eiad_signal device_eiad with
          | Ok info, Ok eiad, Ok _ => if u32_max <? blen eiad then Err NotLoaded else Ok (eiad, md_samples info)
          | _, _, _ => Err NotLoaded
          end
      end
  end.

Definition identity_of (lease : SummaryPlaybackLease) : PlaybackIdentity :=
  mk_identity (pl_slot lease) (pl_request_generation lease) (pl_connection_generation lease)
    (pl_summary_generation lease) (pl_lease lease).

(** [let _ = store.cancel_summary_playback(&lease)] *)
Definition give_back (lease : SummaryPlaybackLease) (h : HostState) : HostState :=
  match cancel_summary_playback (su_now su) lease (hs_store h) with
  | Ok (_, db) => with_store db h
  | Err _ => h
  end.

(** What follows the grant of a lease: the playback is handed to the transport, or there is
    nothing to hand over. *)
Definition offer (request : PlaybackRequest) (source : SocketAddr) (lease : SummaryPlaybackLease) (h : HostState)
    : result BeginError HostState :=
  let? '(eiad, total_samples) := load_audio lease in
  let identity := identity_of lease in
  let start := mk_begin identity (blen eiad) total_samples (Z.of_nat PLAYBACK_CHUNK_BYTES) (rq_nonce request) in
  if su_transport_alive su then
    Ok (put_active (pl_lease lease) (mk_playing lease identity total_samples false)
          (send_command (Start (mk_start start source eiad)) h))
  else Err TransportBusy.

(** The device repeats the request of what plays. *)
Definition already_playing (request : PlaybackRequest) (h : HostState) : bool :=
  bool_decide (Exists (λ e, same_request request e.2 = true) (map_to_list (hs_active h))).

Definition begin_lan_playback (request : PlaybackRequest) (source : SocketAddr) (h : HostState)
    : result BeginError unit * HostState :=
  if already_playing request h then (Ok tt, h)
  else
    match supersede_all (in_key_order (hs_active h)) h with
    | (Err e, h) => (Err e, h)
    | (Ok _, h) =>
        match acquire_lease request (take 4 (su_random su)) (hs_store h) with
        | (Err e, db) => (Err e, with_store db h)
        | (Ok None, db) => (Ok tt, with_store db h)
        | (Ok (Some lease), db) =>
            let h := with_store db h in
            match offer request source lease h with
            | Ok h => (Ok tt, h)
            | Err e => (Err e, give_back lease h)
            end
        end
    end.

(** The first half of a finish: the summary is heard, once. *)
Definition commit_heard (finished : PlaybackFinished) (h : HostState) : option HostState :=
  match hs_active h !! id_lease (fn_identity finished) with
  | None => None
  | Some p =>
      if negb (bool_decide (ah_identity p = fn_identity finished))
         || negb (ah_total_samples p =? fn_played_samples finished) then None
      else if ah_heard_committed p then Some h
      else
        match finish_summary_playback (su_now su) (ah_lease p) (hs_store h) with
        | Ok (true, db) =>
            Some (put_active (id_lease (fn_identity finished))
                    (mk_playing (ah_lease p) (ah_identity p) (ah_total_samples p) true) (with_store db h))
        | Ok (false, _) | Err _ => None
        end
  end.

(** The second half: the cache is cleaned and the device is told. *)
Definition acknowledge_heard (finished : PlaybackFinished) (h : HostState) : HostState :=
  let cleaned :=
    match retained_summary_cache_references (hs_store h) with
    | Ok (retained, _) => su_reconciled su retained
    | Err _ => false
    end in
  if cleaned && su_transport_alive su
  then remove_active (id_lease (fn_identity finished)) (send_command (FinishAck (fn_identity finished)) h)
  else h.

Definition finished_playback (finished : PlaybackFinished) (h : HostState) : HostState :=
  match commit_heard finished h with
  | None => h
  | Some h => acknowledge_heard finished h
  end.

Definition cancelled_playback (identity : PlaybackIdentity) (h : HostState) : HostState :=
  match hs_active h !! id_lease identity with
  | None => h
  | Some p =>
      let h := remove_active (id_lease identity) h in
      if negb (bool_decide (ah_identity p = identity)) || ah_heard_committed p then h
      else
        match cancel_summary_playback (su_now su) (ah_lease p) (hs_store h) with
        | Ok (_, db) => with_store db h
        | Err _ => h
        end
  end.

Definition handle_lan_playback_event (event : LanPlaybackEvent) (h : HostState) : HostState :=
  match event with
  | EvRequest request source => (begin_lan_playback request source h).2
  | EvFinished finished => finished_playback finished h
  | EvCancelled identity => cancelled_playback identity h
  end.

End host.
