(* ===== verification/HostPlaybackProps.v ===== *)
(** * Leases and playbacks agree

    The host keeps one playback at a time, and the lease table of the store holds exactly
    the lease of a playback that is not heard yet: no event leaks a lease, and none takes a
    lease away from what is playing. *)

From stdpp Require Import gmap.
From S2P Require Import Prelude Bytes PlaybackWire Audio Capture Transport.
From S2P Require Import CacheRef Sql StoreTypes StoreJobs StoreRollout StoreSummary StorePlayback.
From S2P Require Import SummaryInv SummaryClaims PlaybackOps StoreSystem SummaryWedge HostPlayback.

Section host.
Context `{Externals, Crypto}.

Record entry_ok (db : Db) (id : Z) (p : ActiveHostPlayback) : Prop := {
  eo_id : pl_lease (ah_lease p) = id;
  eo_identity : ah_identity p = identity_of (ah_lease p);
  eo_valid : validate_playback_lease (ah_lease p) = Ok tt;
  eo_row : ah_heard_committed p = false → ∃ row, row ∈ db_leases db ∧ exact_lease (ah_lease p) row;
}.

Record host_inv (h : HostState) : Prop := {
  hi_store : store_inv (hs_store h);
  hi_tasks : tasks_ok (hs_store h);
  hi_owned row : row ∈ db_leases (hs_store h) →
    ∃ p, hs_active h !! lr_lease_id row = Some p ∧ ah_heard_committed p = false ∧ exact_lease (ah_lease p) row;
  hi_entry id p : hs_active h !! id = Some p → entry_ok (hs_store h) id p;
  hi_one id id' p p' : hs_active h !! id = Some p → hs_active h !! id' = Some p' → id = id';
}.

(** ** The store's operations on leases *)

Lemma step_host_store db db' : step db db' → store_inv db → tasks_ok db → store_inv db' ∧ tasks_ok db'.
Proof. intros Hs Hi Ht. split; [by eapply step_inv | by eapply step_tasks]. Qed.

Lemma cancel_leases now l db b db' :
  schema_ok db → cancel_summary_playback now l db = Ok (b, db') →
  db_leases db' = delete_rows (exact_lease l) (db_leases db).
Proof.
  intros Hs Hr. apply cancel_ok in Hr; [|done]. destruct b.
  - destruct Hr as (_ & _ & ->). done.
  - destruct Hr as [-> Hn]. by rewrite delete_rows_none.
Qed.

(** Giving the row of an entry back, and forgetting the entry. *)
Lemma cancel_entry_inv now h id p b db' :
  host_inv h → hs_active h !! id = Some p → cancel_summary_playback now (ah_lease p) (hs_store h) = Ok (b, db') →
  host_inv (remove_active id (with_store db' h)).
Proof.
  intros [Hs Ht Ho He H1] Hp Hc. pose proof (cancel_leases _ _ _ _ _ (inv_schema _ Hs) Hc) as Hl.
  destruct (step_host_store (hs_store h) db') as [Hs' Ht']; [by eapply step_cancel|done..|].
  pose proof (eo_id _ _ _ (He id p Hp)) as Eid.
  split; cbn [hs_store hs_active remove_active with_store]; try done.
  - intros row Hrow. rewrite Hl in Hrow. apply elem_of_delete in Hrow as [Hrow Hne].
    destruct (Ho row Hrow) as (q & Hq & Hh & Hex). exists q. split; [|done].
    rewrite lookup_delete_ne; [done|]. intros ->. rewrite Hp in Hq. by injection Hq as <-.
  - intros id' q Hq. apply lookup_delete_Some in Hq as [Hne Hq]. destruct (He id' q Hq) as [E1 E2 E3 E4].
    split; try done. intros Hh. destruct (E4 Hh) as (row & Hrow & Hex). exists row. split; [|done].
    rewrite Hl. apply elem_of_delete. split; [done|]. intros [E _]. destruct Hex as [E' _]. congruence.
  - intros id1 id2 q1 q2 Hq1 Hq2. apply lookup_delete_Some in Hq1 as [_ Hq1], Hq2 as [_ Hq2]. by eapply H1.
Qed.

(** Forgetting an entry that is heard. *)
Lemma remove_heard_inv h id :
  host_inv h → (∀ p, hs_active h !! id = Some p → ah_heard_committed p = true) → host_inv (remove_active id h).
Proof.
  intros [Hs Ht Ho He H1] Hh. split; cbn [hs_store hs_active remove_active]; try done.
  - intros row Hrow. destruct (Ho row Hrow) as (q & Hq & Hn & Hex). exists q. split; [|done].
    rewrite lookup_delete_ne; [done|]. intros ->. specialize (Hh q Hq). congruence.
  - intros id' q Hq. apply lookup_delete_Some in Hq as [_ Hq]. by apply He.
  - intros id1 id2 q1 q2 Hq1 Hq2. apply lookup_delete_Some in Hq1 as [_ Hq1], Hq2 as [_ Hq2]. by eapply H1.
Qed.

Lemma send_command_inv c h : host_inv h → host_inv (send_command c h).
Proof. by intros []. Qed.

(** ** Superseding *)

Lemma in_key_order_spec m :
  NoDup (fst <$> in_key_order m) ∧ ∀ id p, (id, p) ∈ in_key_order m ↔ m !! id = Some p.
Proof.
  unfold in_key_order. set (ks := merge_sort Z.le (fst <$> map_to_list m)).
  assert (ks ≡ₚ fst <$> map_to_list m) as Hperm by apply merge_sort_Permutation.
  assert (NoDup ks) as Hnd by (rewrite Hperm; apply NoDup_fst_map_to_list).
  assert (∀ id p, (id, p) ∈ omap (λ id, pair id <$> m !! id) ks ↔ m !! id = Some p) as Hin.
  { intros id p. rewrite list_elem_of_omap. split.
    - intros (k & _ & Hk). apply fmap_Some in Hk as (q & Hq & [= -> ->]). done.
    - intros Hp. exists id. rewrite Hp. split; [|done]. rewrite Hperm. apply list_elem_of_fmap.
      exists (id, p). split; [done|]. by apply elem_of_map_to_list. }
  split; [|done]. clear Hin Hperm. induction ks as [|k ks IH]; [constructor|].
  apply NoDup_cons in Hnd as [Hk Hnd]. cbn [omap list_omap]. destruct (m !! k) as [q|]; cbn [fmap option_fmap option_map]; [|by apply IH].
  cbn [fmap list_fmap fst]. constructor; [|by apply IH]. intros ((k' & q') & -> & Hin)%list_elem_of_fmap.
  apply list_elem_of_omap in Hin as (k2 & Hk2 & E). apply fmap_Some in E as (? & _ & [= -> _]). done.
Qed.

Lemma supersede_all_inv su l h :
  host_inv h → NoDup (fst <$> l) → (∀ id p, (id, p) ∈ l → hs_active h !! id = Some p) →
  match supersede_all su l h with
  | (Ok _, h') => host_inv h' ∧ ∀ id, is_Some (hs_active h' !! id) → is_Some (hs_active h !! id) ∧ id ∉ fst <$> l
  | (Err _, h') => host_inv h'
  end.
Proof.
  revert h. induction l as [|[id p] l IH]; intros h Hi Hnd Hl; cbn [supersede_all].
  { split; [done|]. intros id Hid. split; [done | apply not_elem_of_nil]. }
  cbn [fmap list_fmap fst] in *. apply NoDup_cons in Hnd as [Hid Hnd].
  assert (hs_active h !! id = Some p) as Hp by (apply Hl; left).
  set (h1 := send_command (Cancel (ah_identity p)) h). pose proof (send_command_inv (Cancel (ah_identity p)) h Hi) as Hi1.
  assert (∀ h2, host_inv h2 → hs_active h2 = delete id (hs_active h) →
    match supersede_all su l h2 with
    | (Ok _, h') => host_inv h' ∧ ∀ k, is_Some (hs_active h' !! k) → is_Some (hs_active h !! k) ∧ k ∉ id :: (fst <$> l)
    | (Err _, h') => host_inv h'
    end) as Hgo.
  { intros h2 Hi2 Ha2. specialize (IH h2 Hi2 Hnd). destruct (supersede_all su l h2) as [[[]|e] h'].
    - destruct IH as [Hi' Hk].
      { intros k q Hq. rewrite Ha2, lookup_delete_ne; [apply Hl; by right|]. intros ->. apply Hid.
        apply list_elem_of_fmap. by exists (k, q). }
      split; [done|]. intros k Hks. destruct (Hk k Hks) as [Hd Hn]. rewrite Ha2 in Hd. destruct Hd as [q Hq].
      apply lookup_delete_Some in Hq as [Hne Hq]. split; [by exists q|]. rewrite not_elem_of_cons. by split.
    - apply IH. intros k q Hq. rewrite Ha2, lookup_delete_ne; [apply Hl; by right|]. intros ->. apply Hid.
      apply list_elem_of_fmap. by exists (k, q). }
  destruct (ah_heard_committed p) eqn:Eh.
  - apply Hgo; [|done]. apply remove_heard_inv; [done|]. intros q Hq. cbn in Hq. congruence.
  - destruct (cancel_summary_playback _ _ _) as [[b db']|e] eqn:Ec; [|done].
    apply Hgo; [|done]. eapply cancel_entry_inv; [exact Hi1 | exact Hp | exact Ec].
Qed.

(** ** Acquiring *)

Lemma acquire_lease_ok su request random db r db' :
  acquire_lease su request random db = (r, db') →
  match r with
  | Ok (Some lease) => ∃ id, 0 < id ∧ acquire_summary_playback (su_now su) (rq_slot request)
        (rq_request_generation request) (rq_connection_generation request) id db = Ok (Some lease, db')
  | _ => db' = db
  end.
Proof.
  induction random as [|x random IH]; cbn [acquire_lease]; [by intros [= <- <-]|].
  destruct (Z.eqb_spec (Z.land x i64_max) 0) as [|Hne]; [done|].
  destruct (acquire_summary_playback _ _ _ _ _ db) as [[[lease|] db1]|e] eqn:Ea.
  - intros [= <- <-]. exists (Z.land x i64_max). split; [|done].
    assert (0 ≤ Z.land x i64_max) by (apply Z.land_nonneg; right; by vm_compute). lia.
  - intros [= <- <-]. by apply acquire_ok in Ea.
  - destruct e; try (by intros [= <- <-]); done.
Qed.

(** With no other lease around, the granted one is the only row. *)
Lemma acquire_only_lease su request random db lease db' :
  store_inv db → tasks_ok db → db_leases db = [] →
  acquire_lease su request random db = (Ok (Some lease), db') →
  store_inv db' ∧ tasks_ok db' ∧ validate_playback_lease lease = Ok tt
  ∧ ∃ row, db_leases db' = [row] ∧ exact_lease lease row ∧ lr_lease_id row = pl_lease lease.
Proof.
  intros Hs Ht Hl Hr. apply acquire_lease_ok in Hr as (id & Hid & Hr).
  destruct (step_host_store db db') as [Hs' Ht']; [by eapply step_acquire | done..|].
  destruct (acquire_valid _ _ _ _ _ _ _ _ Hs Ht Hid Hr) as (Hv & _ & _ & _ & _ & Hmax).
  split_and!; try done. apply acquire_ok in Hr.
  destruct Hr as (b & r & _ & _ & Hrow & _ & _ & _ & _ & _ & _ & _ & _ & Ep & Hd).
  destruct Hd as [[_ (l & Hin & _)]|(_ & _ & _ & ->)]; [rewrite Hl in Hin; by apply not_elem_of_nil in Hin|].
  eexists. split; [cbn; rewrite Hl; reflexivity|]. rewrite Ep. unfold exact_lease.
  cbn [pl_lease pl_slot pl_task_id pl_summary_generation pl_request_generation pl_connection_generation
    lr_lease_id lr_task_id lr_summary_generation lr_slot lr_request_generation lr_connection_generation].
  pose proof (si_range _ (inv_summaries _ Hs) r Hrow). destruct (summary_row_check _ _ (inv_schema _ Hs) Hrow) as (? & _).
  rewrite as_i64_small by width_lia. rewrite as_u64_small by width_lia. by split_and!.
Qed.

(** A playback of the only lease. *)
Lemma only_entry_inv db lease row p cs :
  store_inv db → tasks_ok db → validate_playback_lease lease = Ok tt →
  db_leases db = [row] → exact_lease lease row → lr_lease_id row = pl_lease lease →
  ah_lease p = lease → ah_identity p = identity_of lease → ah_heard_committed p = false →
  host_inv (mk_host db {[pl_lease lease := p]} cs).
Proof.
  intros Hs Ht Hv Hl Hex Hid El Ei Eh. split; cbn [hs_store hs_active]; try done.
  - intros r. rewrite Hl, list_elem_of_singleton. intros ->. exists p. rewrite Hid, lookup_singleton_eq, El. by split_and!.
  - intros id q [<- <-]%lookup_singleton_Some. split; [by rewrite El | by rewrite El | by rewrite El |]. intros _.
    exists row. rewrite Hl, El. split; [by left | done].
  - intros id id' q q' [<- _]%lookup_singleton_Some [<- _]%lookup_singleton_Some. done.
Qed.

Lemma idle_inv db cs : store_inv db → tasks_ok db → db_leases db = [] → host_inv (mk_host db ∅ cs).
Proof.
  intros Hs Ht Hl. split; cbn [hs_store hs_active]; try done. intros row. rewrite Hl. by intros ?%not_elem_of_nil.
Qed.

(** The only lease can be given back. *)
Lemma give_back_inv su db lease row cs :
  store_inv db → tasks_ok db → validate_playback_lease lease = Ok tt →
  db_leases db = [row] → exact_lease lease row → host_inv (give_back su lease (mk_host db ∅ cs)).
Proof.
  intros Hs Ht Hv Hl Hex. unfold give_back. cbn [hs_store].
  assert (row ∈ db_leases db) as Hin by (rewrite Hl; by left).
  destruct (cancel_succeeds (su_now su) lease db row (inv_schema _ Hs) Hv Hin Hex) as [db' Hc]. rewrite Hc.
  destruct (step_host_store db db') as [Hs' Ht']; [by eapply step_cancel | done..|]. apply idle_inv; [done..|].
  rewrite (cancel_leases _ _ _ _ _ (inv_schema _ Hs) Hc), Hl. unfold delete_rows.
  rewrite filter_cons_False; [done|]. tauto.
Qed.

(** ** Requests *)

Lemma idle_leases h : host_inv h → hs_active h = ∅ → db_leases (hs_store h) = [].
Proof.
  intros [_ _ Ho _ _] Ha. destruct (db_leases (hs_store h)) as [|row l]; [done|].
  destruct (Ho row) as (p & Hp & _); [by left|]. rewrite Ha in Hp. by rewrite lookup_empty in Hp.
Qed.

Lemma begin_inv su request source h : host_inv h → host_inv (begin_lan_playback su request source h).2.
Proof.
  intros Hi. unfold begin_lan_playback. case_match; [done|]. destruct (in_key_order_spec (hs_active h)) as [Hnd Hin].
  pose proof (supersede_all_inv su (in_key_order (hs_active h)) h Hi Hnd (λ id p, proj1 (Hin id p))) as Hsup.
  destruct (supersede_all _ _ h) as [[[]|e] h1]; [|done]. destruct Hsup as [Hi1 Hk].
  assert (hs_active h1 = ∅) as Ha.
  { apply map_empty. intros id. apply eq_None_not_Some. intros Hid. destruct (Hk id Hid) as [[p Hp] Hn]. apply Hn.
    apply list_elem_of_fmap. exists (id, p). split; [done|]. by apply Hin. }
  pose proof (idle_leases h1 Hi1 Ha) as Hl. destruct h1 as [db act cs]. cbn [hs_active hs_store] in *. subst act.
  destruct Hi1 as [Hs Ht _ _ _]. cbn [hs_store] in *.
  destruct (acquire_lease su request _ db) as [[[lease|]|e] db'] eqn:Ea.
  - destruct (acquire_only_lease _ _ _ _ _ _ Hs Ht Hl Ea) as (Hs' & Ht' & Hv & row & Hl' & Hex & Hid).
    unfold offer, with_store, send_command, put_active. cbn [hs_active hs_commands hs_store].
    destruct (load_audio su lease) as [[eiad samples]|e]; [|by eapply give_back_inv]. cbn [rbind].
    destruct (su_transport_alive su); [|by eapply give_back_inv]. cbn [snd]. by eapply only_entry_inv.
  - apply acquire_lease_ok in Ea as ->. by apply idle_inv.
  - apply acquire_lease_ok in Ea as ->. by apply idle_inv.
Qed.

(** ** Reports of the transport *)

(** A heard summary's lease is gone; its playback stays until the device knows. *)
Lemma finish_entry_inv now h id p db' :
  host_inv h → hs_active h !! id = Some p → finish_summary_playback now (ah_lease p) (hs_store h) = Ok (true, db') →
  host_inv (put_active id (mk_playing (ah_lease p) (ah_identity p) (ah_total_samples p) true) (with_store db' h)).
Proof.
  intros [Hs Ht Ho He H1] Hp Hf.
  destruct (step_host_store (hs_store h) db') as [Hs' Ht']; [by eapply step_finish | done..|].
  apply finish_ok in Hf as (row & r & _ & _ & _ & _ & _ & _ & _ & _ & Edb).
  assert (db_leases db' = delete_rows (λ r, lr_lease_id r = pl_lease (ah_lease p)) (db_leases (hs_store h))) as Hl by (by rewrite Edb).
  pose proof (He id p Hp) as [E1 E2 E3 _].
  split; cbn [hs_store hs_active put_active with_store]; try done.
  - intros row' Hrow. rewrite Hl in Hrow. apply elem_of_delete in Hrow as [Hrow Hne].
    destruct (Ho row' Hrow) as (q & Hq & Hh & Hex). exists q. split; [|done]. rewrite lookup_insert_ne; [done|]. congruence.
  - intros id' q. rewrite lookup_insert_Some. intros [[<- <-]|[Hne Hq]]; [by split|].
    destruct (He id' q Hq) as [F1 F2 F3 F4]. split; try done. intros Hh. destruct (F4 Hh) as (row' & Hrow & Hex).
    exists row'. split; [|done]. rewrite Hl. apply elem_of_delete. split; [done|]. destruct Hex as [E _]. congruence.
  - intros id1 id2 q1 q2 Hq1 Hq2. rewrite lookup_insert_Some in Hq1. rewrite lookup_insert_Some in Hq2.
    destruct Hq1 as [[<- _]|[_ Hq1]], Hq2 as [[<- _]|[_ Hq2]]; try done; by eapply H1.
Qed.

Lemma commit_heard_inv su finished h h' :
  host_inv h → commit_heard su finished h = Some h' →
  host_inv h' ∧ ∀ q, hs_active h' !! id_lease (fn_identity finished) = Some q → ah_heard_committed q = true.
Proof.
  intros Hi. unfold commit_heard. destruct (hs_active h !! _) as [p|] eqn:Hp; [|done]. case_match; [done|].
  destruct (ah_heard_committed p) eqn:Eh.
  - intros [= <-]. split; [done|]. intros q Hq. congruence.
  - destruct (finish_summary_playback _ _ _) as [[[] db']|e] eqn:Ef; [|done..]. intros [= <-].
    split; [by eapply finish_entry_inv|]. intros q Hq. cbn in Hq. rewrite lookup_insert_eq in Hq. by injection Hq as <-.
Qed.

Lemma acknowledge_heard_inv su finished h :
  host_inv h → (∀ q, hs_active h !! id_lease (fn_identity finished) = Some q → ah_heard_committed q = true) →
  host_inv (acknowledge_heard su finished h).
Proof.
  intros Hi Hh. unfold acknowledge_heard. case_match; [|done]. apply remove_heard_inv; [by apply send_command_inv|done].
Qed.

Lemma finished_inv su finished h : host_inv h → host_inv (finished_playback su finished h).
Proof.
  intros Hi. unfold finished_playback. destruct (commit_heard su finished h) as [h'|] eqn:Hc; [|done].
  apply commit_heard_inv in Hc as [Hi' Hh]; [|done]. by apply acknowledge_heard_inv.
Qed.

(** The transport reports the cancellation of what it was given. *)
Definition event_ok (event : LanPlaybackEvent) (h : HostState) : Prop :=
  match event with
  | EvCancelled identity => ∀ p, hs_active h !! id_lease identity = Some p → ah_identity p = identity
  | _ => True
  end.

Lemma cancelled_inv su identity h :
  host_inv h → event_ok (EvCancelled identity) h → host_inv (cancelled_playback su identity h).
Proof.
  intros Hi Hok. unfold cancelled_playback. destruct (hs_active h !! _) as [p|] eqn:Hp; [|done].
  rewrite (bool_decide_eq_true_2 _ (Hok p Hp)). cbn [negb orb].
  destruct (ah_heard_committed p) eqn:Eh; [apply remove_heard_inv; [done|]; intros q Hq; congruence|].
  destruct (eo_row _ _ _ (hi_entry _ Hi _ p Hp) Eh) as (row & Hrow & Hex). cbn [hs_store remove_active].
  destruct (cancel_succeeds (su_now su) (ah_lease p) (hs_store h) row) as [db' Hc];
    [apply (inv_schema _ (hi_store _ Hi)) | apply (hi_entry _ Hi _ p Hp) | done..|].
  rewrite Hc. exact (cancel_entry_inv _ _ _ _ _ _ Hi Hp Hc).
Qed.

(** ** Runs of the host *)

(** An event of the transport, or an operation of another component, which leaves the lease
    table alone. *)
Inductive host_step (h : HostState) : HostState → Prop :=
| host_event su event : event_ok event h → host_step h (handle_lan_playback_event su event h)
| host_store db : step (hs_store h) db → db_leases db = db_leases (hs_store h) → host_step h (with_store db h).

Lemma host_step_inv h h' : host_step h h' → host_inv h → host_inv h'.
Proof.
  intros [su [request source|finished|identity] Hok|db Hstep Hl] Hi.
  - by apply begin_inv.
  - by apply finished_inv.
  - by apply cancelled_inv.
  - destruct Hi as [Hs Ht Ho He H1]. destruct (step_host_store _ _ Hstep Hs Ht) as [Hs' Ht'].
    split; cbn [hs_store hs_active with_store]; try done.
    + intros row. rewrite Hl. apply Ho.
    + intros id p Hp. destruct (He id p Hp) as [E1 E2 E3 E4]. split; try done. by rewrite Hl.
Qed.

(** The host's playbacks and the store's leases
    agree.  From an opened store, whatever the transport reports and whatever the other
    components do in between, there is at most one lease, it belongs to a playback that the
    host still knows and has not heard finish, and every such playback has its lease.  So no
    path through the handlers (a failed load, a dead transport, a superseding request, a
    cancelled or repeated finish) leaks a lease and leaves its summary unplayable. *)
Theorem leases_are_playbacks h0 h :
  reachable (hs_store h0) → db_leases (hs_store h0) = [] → hs_active h0 = ∅ → rtc host_step h0 h →
  (length (db_leases (hs_store h)) ≤ 1)%nat
  ∧ (∀ row, row ∈ db_leases (hs_store h) → ∃ p, hs_active h !! lr_lease_id row = Some p
       ∧ ah_heard_committed p = false ∧ exact_lease (ah_lease p) row)
  ∧ (∀ id p, hs_active h !! id = Some p → ah_heard_committed p = false →
       ∃ row, row ∈ db_leases (hs_store h) ∧ exact_lease (ah_lease p) row).
Proof.
  intros Hreach Hl Ha Hsteps.
  assert (host_inv h) as Hi.
  { assert (host_inv h0) as Hi0.
    { destruct h0 as [db act cs]. cbn in *. subst act. apply idle_inv; [by apply reachable_inv | by apply reachable_tasks | done]. }
    clear Hreach Hl Ha. induction Hsteps; eauto using host_step_inv. }
  split_and!; [|apply (hi_owned _ Hi)|intros id p Hp; apply (eo_row _ _ _ (hi_entry _ Hi id p Hp))].
  destruct (db_leases (hs_store h)) as [|r1 [|r2 l]] eqn:El; cbn; [lia..|]. exfalso.
  destruct (hi_owned _ Hi r1) as (p1 & Hp1 & _); [rewrite El; by left|].
  destruct (hi_owned _ Hi r2) as (p2 & Hp2 & _); [rewrite El; right; by left|].
  pose proof (hi_one _ Hi _ _ _ _ Hp1 Hp2) as E.
  destruct (leases_schema_of _ (inv_schema _ (hi_store _ Hi))) as (Hu & _). rewrite El in Hu.
  by specialize (Hu 0%nat 1%nat r1 r2 eq_refl eq_refl I I E).
Qed.

End host.
