(* ===== verification/Summary.v ===== *)
(** * Summary documents (app/host/src/summary.rs)

    The document a summary run produces: bounded, trimmed texts without control characters,
    and the list of completions it covers.  JSON is [serde_json]: [SummarySerde]. *)

From stdpp Require Import gmap.
From S2P Require Import Prelude Bytes StrOps StoreTypes.

Definition SUMMARY_SCHEMA_VERSION : Z := 1.
Definition MAX_SUMMARY_DOCUMENT_BYTES : Z := 64 * 1024.
Definition MAX_SUMMARY_ITEMS_PER_SECTION : Z := 32.
Definition MAX_SUMMARY_ITEM_BYTES : Z := 1024.
Definition MAX_SPOKEN_TEXT_BYTES : Z := 24 * 1024.
Definition MAX_COVERS_NEW_COMPLETIONS : Z := 32.

Inductive SummaryDocumentError := DocumentSize | DocumentJson | DocumentSchema | DocumentText | DocumentCoverage.

Record SummarySourceEvidence := mk_evidence { se_completion_id : text; se_exact_quote : text }.

Record SummaryDocument := mk_document {
  sd_schema : Z;
  sd_facts : list text;
  sd_pending : list text;
  sd_decisions : list text;
  sd_spoken_text : text;
  sd_source_evidence : list SummarySourceEvidence;
  sd_covers_new_completions : list text;
}.

(** [serde_json] on documents. *)
Class SummarySerde := {
  document_from_json : bytes → option SummaryDocument;
  document_to_json : SummaryDocument → option bytes;
}.

(** [char::is_control] on an encoded character: U+0000 to U+001F and U+007F to U+009F *)
Definition is_control (c : bytes) : bool :=
  match c with
  | [b] => (b <? 32) || (b =? 127)
  | [b0; b1] => (b0 =? 194) && between 128 159 b1
  | _ => false
  end.

Definition valid_text (max_bytes : Z) (value : text) : bool :=
  negb (bool_decide (trim value = [])) && (blen value <=? max_bytes) && negb (existsb is_control (utf8_split value)).

Definition validate_items (items : list text) : result SummaryDocumentError unit :=
  require (negb ((MAX_SUMMARY_ITEMS_PER_SECTION <? Z.of_nat (length items))
                 || existsb (λ item, negb (valid_text MAX_SUMMARY_ITEM_BYTES item)) items)) DocumentText.

Section documents.
Context `{Externals, SummarySerde}.

(** The loop over the covered completions: each a UUID, none twice. *)
Fixpoint unique_covers (seen ids : list text) : result SummaryDocumentError unit :=
  match ids with
  | [] => Ok tt
  | id :: ids =>
      let? _ := require (uuid_ok id && negb (bool_decide (id ∈ seen))) DocumentCoverage in
      unique_covers (id :: seen) ids
  end.

Definition validate_document (d : SummaryDocument) : result SummaryDocumentError unit :=
  let? _ := require (sd_schema d =? SUMMARY_SCHEMA_VERSION) DocumentSchema in
  let? _ := validate_items (sd_facts d) in
  let? _ := validate_items (sd_pending d) in
  let? _ := validate_items (sd_decisions d) in
  let? _ := require (valid_text MAX_SPOKEN_TEXT_BYTES (sd_spoken_text d)) DocumentText in
  let covers := sd_covers_new_completions d in
  let? _ := require (negb (bool_decide (covers = []))
                     && (Z.of_nat (length covers) <=? MAX_COVERS_NEW_COMPLETIONS)) DocumentCoverage in
  unique_covers [] covers.

Definition parse_document (b : bytes) : result SummaryDocumentError SummaryDocument :=
  let? _ := require (negb (bool_decide (b = [])) && (blen b <=? MAX_SUMMARY_DOCUMENT_BYTES)) DocumentSize in
  let? d := of_option DocumentJson (document_from_json b) in
  let? _ := validate_document d in
  Ok d.

Definition validate_expected_covers (expected : list text) (d : SummaryDocument)
    : result SummaryDocumentError unit :=
  let? _ := validate_document d in
  require (bool_decide (sd_covers_new_completions d = expected)) DocumentCoverage.

Definition canonical_json (d : SummaryDocument) : result SummaryDocumentError bytes :=
  let? _ := validate_document d in
  let? encoded := of_option DocumentJson (document_to_json d) in
  let? _ := require (blen encoded <=? MAX_SUMMARY_DOCUMENT_BYTES) DocumentSize in
  Ok encoded.

End documents.
