(* ===== verification/CacheCodec.v ===== *)
(** * Objects of the cache: the encrypted format (app/host/src/cache.rs)

    An object is a header of 48 bytes (magic, version, kind, length, salt, nonce) and the
    AES-256-GCM ciphertext with its tag.  The key of each object is derived from the cache
    key, the object's name and the salt by HKDF-SHA256 (the crate [hkdf]). *)

From S2P Require Import Prelude Bytes StrOps CacheRef StoreTypes.

Definition CACHE_MAGIC : bytes := ascii_bytes "ECICACHE".
Definition CACHE_VERSION : Z := 1.
Definition HEADER_BYTES : nat := 48.
Definition TAG_BYTES : nat := 16.
Definition CACHE_KEY_BYTES : nat := 32.
Definition SALT_BYTES : nat := 16.
Definition NONCE_BYTES : nat := 12.
Definition KEY_MARKER_FILE : bytes := ascii_bytes ".key-check.enc".
Definition KEY_MARKER_PLAINTEXT : bytes := ascii_bytes "easy-codex-input-cache-key-v1".
Definition MAX_MANIFEST_BYTES : Z := 1024 * 1024.
Definition MAX_AUDIO_OBJECT_BYTES : Z := 16 * 1024 * 1024.

Inductive ObjectKind := KeyCheck | Manifest_ | QwenWav | DeviceEiad.
#[export] Instance ObjectKind_eq_dec : EqDecision ObjectKind.
Proof. solve_decision. Defined.

Definition kind_byte (k : ObjectKind) : Z :=
  match k with KeyCheck => 0 | Manifest_ => 1 | QwenWav => 2 | DeviceEiad => 3 end.
Definition file_name (k : ObjectKind) : bytes :=
  match k with
  | KeyCheck => KEY_MARKER_FILE
  | Manifest_ => ascii_bytes "manifest.json.enc"
  | QwenWav => ascii_bytes "qwen.wav.enc"
  | DeviceEiad => ascii_bytes "device.eiad.enc"
  end.
Definition max_plaintext_bytes (k : ObjectKind) : Z :=
  match k with
  | KeyCheck => blen KEY_MARKER_PLAINTEXT
  | Manifest_ => MAX_MANIFEST_BYTES
  | QwenWav | DeviceEiad => MAX_AUDIO_OBJECT_BYTES
  end.

(** [u64::to_be_bytes] *)
Definition be_bytes (v : Z) : bytes := rev (le_bytes 8 v).

(** The crate [hkdf]: [Hkdf::<Sha256>::new(Some(salt), key).expand(info, &mut [0; 32])]. *)
Class KeyDerivation := {
  hkdf_sha256 : bytes → bytes → bytes → bytes;
  hkdf_length salt key info : length (hkdf_sha256 salt key info) = CACHE_KEY_BYTES;
}.

Definition encode_header (kind : ObjectKind) (plaintext_bytes : Z) (salt nonce : bytes) : bytes :=
  let header := replicate HEADER_BYTES 0 in
  let header := splice 0 CACHE_MAGIC header in
  let header := splice 8 [CACHE_VERSION] header in
  let header := splice 9 [kind_byte kind] header in
  let header := splice 12 (be_bytes plaintext_bytes) header in
  let header := splice 20 salt header in
  splice 36 nonce header.

Definition decode_kind (b : Z) : result CacheError ObjectKind :=
  match b with
  | 0 => Ok KeyCheck | 1 => Ok Manifest_ | 2 => Ok QwenWav | 3 => Ok DeviceEiad
  | _ => Err Corrupt
  end.

Definition decode_header (header : bytes) : result CacheError (ObjectKind * Z * bytes * bytes) :=
  if negb (bool_decide (slice 0 8 header = CACHE_MAGIC)) || negb (byte_at header 8 =? CACHE_VERSION)
     || negb (byte_at header 10 =? 0) || negb (byte_at header 11 =? 0)
  then Err Corrupt
  else
    let? kind := decode_kind (byte_at header 9) in
    Ok (kind, be_value (slice 12 8 header), slice 20 16 header, slice 36 12 header).

Definition object_aad (header : bytes) (id : CacheId) : bytes :=
  header ++ ci_task_hash id ++ be_bytes (ci_generation id).

Section codec.
Context `{Crypto, KeyDerivation}.

Definition derive_object_key (root_key : bytes) (id : CacheId) (kind : ObjectKind) (salt : bytes) : bytes :=
  hkdf_sha256 salt root_key
    (ascii_bytes "easy-codex-input/cache/object-key/v1" ++ ci_task_hash id ++ be_bytes (ci_generation id)
     ++ [kind_byte kind]).

(** [salt] and [nonce] are the random bytes. *)
Definition encrypt_object (salt nonce root_key : bytes) (id : CacheId) (kind : ObjectKind) (plaintext : bytes)
    : bytes :=
  let header := encode_header kind (blen plaintext) salt nonce in
  let aad := object_aad header id in
  let object_key := derive_object_key root_key id kind salt in
  let sealed := gcm_seal object_key nonce aad plaintext in
  header ++ sealed.1 ++ sealed.2.

Definition decrypt_object (root_key : bytes) (id : CacheId) (expected_kind : ObjectKind) (encoded : bytes)
    : result CacheError bytes :=
  if (length encoded <? HEADER_BYTES + TAG_BYTES)%nat then Err Corrupt
  else
    let header := take HEADER_BYTES encoded in
    let? decoded := decode_header header in
    let '(kind, plaintext_bytes, salt, nonce) := decoded in
    if negb (bool_decide (kind = expected_kind)) || (max_plaintext_bytes expected_kind <? plaintext_bytes)
    then Err Corrupt
    else
      let? with_header := of_option Corrupt (checked_add u64_max (Z.of_nat HEADER_BYTES) plaintext_bytes) in
      let? expected_encoded := of_option Corrupt (checked_add u64_max with_header (Z.of_nat TAG_BYTES)) in
      if negb (blen encoded =? expected_encoded) then Err Corrupt
      else
        let body := drop HEADER_BYTES encoded in
        let object_key := derive_object_key root_key id kind salt in
        let? plaintext := of_option Corrupt
          (gcm_open object_key nonce (object_aad header id)
             (take (length body - TAG_BYTES) body) (drop (length body - TAG_BYTES) body)) in
        if negb (blen plaintext =? plaintext_bytes) then Err Corrupt else Ok plaintext.

End codec.

(** ** The header *)

Lemma length_be_bytes v : length (be_bytes v) = 8%nat.
Proof. unfold be_bytes. by rewrite length_rev, length_le_bytes. Qed.

Lemma be_value_bytes v : in_u64 v → be_value (be_bytes v) = v.
Proof.
  intros Hv. unfold be_value, be_bytes. rewrite rev_involutive. apply le_value_le_bytes_small.
  unfold in_u64, u64_max in Hv. simpl. lia.
Qed.

Lemma be_bytes_value b : bytes_ok b → length b = 8%nat → be_bytes (be_value b) = b.
Proof.
  intros Hb Hl. unfold be_value, be_bytes. rewrite le_bytes_le_value.
  - apply rev_involutive.
  - rewrite Forall_forall in *. intros x Hx. apply Hb.
    by apply list_elem_of_In, in_rev, list_elem_of_In.
  - by rewrite length_rev.
Qed.

Lemma length_encode_header kind n salt nonce : length (encode_header kind n salt nonce) = HEADER_BYTES.
Proof. unfold encode_header. by rewrite !length_splice, length_replicate. Qed.

Lemma kind_byte_ok kind : decode_kind (kind_byte kind) = Ok kind.
Proof. by destruct kind. Qed.
Lemma decode_kind_ok b kind : decode_kind b = Ok kind → b = kind_byte kind.
Proof. destruct b as [|[[]|[]|]|]; by intros [= <-]. Qed.

(** The header written out. *)
Definition header_bytes (kind : ObjectKind) (n salt nonce : bytes) : bytes :=
  CACHE_MAGIC ++ [CACHE_VERSION; kind_byte kind; 0; 0] ++ n ++ salt ++ nonce.

Ltac list_of_length l H :=
  repeat (destruct l as [|? l]; [discriminate H|]; cbn [length] in H; apply Nat.succ_inj in H);
  destruct l; [|discriminate H]; clear H.

Lemma encode_header_eq kind n salt nonce :
  length salt = SALT_BYTES → length nonce = NONCE_BYTES →
  encode_header kind n salt nonce = header_bytes kind (be_bytes n) salt nonce.
Proof.
  intros Hs Hn. unfold encode_header, header_bytes. pose proof (length_be_bytes n) as Hb.
  generalize dependent (be_bytes n). intros b Hb. unfold SALT_BYTES, NONCE_BYTES in *.
  list_of_length salt Hs. list_of_length nonce Hn. list_of_length b Hb. reflexivity.
Qed.

Lemma header_parts h :
  length h = HEADER_BYTES →
  h = slice 0 8 h ++ [byte_at h 8; byte_at h 9; byte_at h 10; byte_at h 11] ++ slice 12 8 h ++ slice 20 16 h ++ slice 36 12 h.
Proof. unfold HEADER_BYTES. intros Hh. list_of_length h Hh. reflexivity. Qed.

Lemma decode_encode_header kind n salt nonce :
  in_u64 n → length salt = SALT_BYTES → length nonce = NONCE_BYTES →
  decode_header (encode_header kind n salt nonce) = Ok (kind, n, salt, nonce).
Proof.
  intros Hn Hs Hc. rewrite encode_header_eq by done. unfold decode_header.
  assert (slice 12 8 (header_bytes kind (be_bytes n) salt nonce) = be_bytes n
    ∧ slice 20 16 (header_bytes kind (be_bytes n) salt nonce) = salt
    ∧ slice 36 12 (header_bytes kind (be_bytes n) salt nonce) = nonce) as (-> & -> & ->).
  { unfold header_bytes, SALT_BYTES, NONCE_BYTES in *. pose proof (length_be_bytes n) as Hb. generalize dependent (be_bytes n). intros b Hb.
    list_of_length salt Hs. list_of_length nonce Hc. list_of_length b Hb. split_and!; reflexivity. }
  rewrite be_value_bytes by done. change (byte_at (header_bytes kind (be_bytes n) salt nonce) 9) with (kind_byte kind).
  rewrite kind_byte_ok. reflexivity.
Qed.

Lemma encode_decode_header h kind n salt nonce :
  length h = HEADER_BYTES → bytes_ok h → decode_header h = Ok (kind, n, salt, nonce) →
  h = encode_header kind n salt nonce ∧ length salt = SALT_BYTES ∧ length nonce = NONCE_BYTES.
Proof.
  intros Hl Hb Hd. unfold decode_header in Hd. case_match eqn:Hg; [done|].
  repeat (apply orb_false_elim in Hg as [Hg ?]). bool_prop.
  apply rbind_ok in Hd as (kind' & Hk%decode_kind_ok & [= <- <- <- <-]).
  assert (length (slice 20 16 h) = SALT_BYTES) as Hs by (by rewrite length_slice, Hl).
  assert (length (slice 36 12 h) = NONCE_BYTES) as Hc by (by rewrite length_slice, Hl).
  split; [|done]. rewrite encode_header_eq by done. rewrite (header_parts h Hl) at 1. unfold header_bytes.
  rewrite be_bytes_value; [|by apply slice_ok|by rewrite length_slice, Hl]. congruence.
Qed.

(** ** Objects *)

Section objects.
Context `{Crypto, KeyDerivation}.

Lemma max_plaintext_small kind : max_plaintext_bytes kind <= 16777216.
Proof. destruct kind; vm_compute; discriminate. Qed.

Lemma length_encrypt_object salt nonce key id kind p :
  length salt = SALT_BYTES → length nonce = NONCE_BYTES →
  length (encrypt_object salt nonce key id kind p) = (HEADER_BYTES + length p + TAG_BYTES)%nat.
Proof.
  intros Hs Hn. unfold encrypt_object. rewrite !length_app, length_encode_header.
  destruct (gcm_seal_lengths (derive_object_key key id kind salt) nonce
    (object_aad (encode_header kind (blen p) salt nonce) id) p) as [-> ->]. unfold TAG_BYTES. lia.
Qed.

Lemma decrypt_encrypt salt nonce key id kind p :
  length salt = SALT_BYTES → length nonce = NONCE_BYTES → blen p <= max_plaintext_bytes kind →
  decrypt_object key id kind (encrypt_object salt nonce key id kind p) = Ok p.
Proof.
  intros Hs Hn Hp. pose proof (length_encrypt_object salt nonce key id kind p Hs Hn) as Hlen.
  pose proof (max_plaintext_small kind) as Hmax.
  unfold decrypt_object. rewrite Hlen. rewrite (proj2 (Nat.ltb_ge _ _)) by lia.
  unfold encrypt_object. set (h := encode_header _ _ _ _). set (sealed := gcm_seal _ _ _ _).
  assert (length h = HEADER_BYTES) as Hh by apply length_encode_header.
  assert (length sealed.1 = length p ∧ length sealed.2 = TAG_BYTES) as [H2 H3] by apply gcm_seal_lengths.
  assert (take HEADER_BYTES (h ++ sealed.1 ++ sealed.2) = h) as Et by (rewrite <- Hh; apply take_app_length).
  assert (drop HEADER_BYTES (h ++ sealed.1 ++ sealed.2) = sealed.1 ++ sealed.2) as Ed by (rewrite <- Hh; apply drop_app_length).
  rewrite Et, Ed. unfold h at 1. rewrite decode_encode_header by (try done; unfold blen in *; width_lia). cbn [rbind].
  rewrite bool_decide_eq_true_2, (proj2 (Z.ltb_ge _ _)) by (done || lia). cbn [negb orb].
  unfold checked_add. unfold blen in *.
  rewrite (proj2 (Z.leb_le _ _)) by (unfold HEADER_BYTES; width_lia). cbn [of_option rbind].
  rewrite (proj2 (Z.leb_le _ _)) by (unfold HEADER_BYTES, TAG_BYTES; width_lia). cbn [of_option rbind].
  rewrite !length_app, Hh, H2, H3. rewrite (proj2 (Z.eqb_eq _ _)) by (unfold TAG_BYTES; lia). cbn [negb].
  replace (length p + TAG_BYTES - TAG_BYTES)%nat with (length sealed.1) by lia.
  rewrite take_app_length, drop_app_length.
  rewrite (proj2 (gcm_open_seal _ _ _ p _ _)) by (unfold sealed; by destruct (gcm_seal _ _ _ _)).
  cbn [of_option rbind]. by rewrite Z.eqb_refl.
Qed.

Lemma encrypt_decrypt key id kind e p :
  bytes_ok e → decrypt_object key id kind e = Ok p →
  blen p <= max_plaintext_bytes kind ∧
  ∃ salt nonce, length salt = SALT_BYTES ∧ length nonce = NONCE_BYTES ∧ e = encrypt_object salt nonce key id kind p.
Proof.
  intros He Hd. unfold decrypt_object in Hd. case_match eqn:Hlen; [done|]. apply Nat.ltb_ge in Hlen.
  apply rbind_ok in Hd as ([[[k n] salt] nonce] & Hh & Hd).
  apply encode_decode_header in Hh as (Hh & Hs & Hn);
    [|rewrite length_take; lia|by apply Forall_take].
  destruct (_ || _) eqn:Hg; [done|]. apply orb_false_elim in Hg as [Hk Hmax]. bool_prop. subst k.
  apply rbind_ok in Hd as (w & Hw & Hd). apply rbind_ok in Hd as (w' & Hw' & Hd).
  destruct (negb (blen e =? w')) eqn:Elen; [done|]. bool_prop.
  apply rbind_ok in Hd as (q & Hq & Hd). destruct (negb (blen q =? n)) eqn:En; [done|]. bool_prop. injection Hd as <-.
  split; [lia|]. exists salt, nonce. split_and!; [done|done|]. unfold encrypt_object.
  destruct (gcm_open _ _ _ _ _) as [q'|] eqn:Ho; [|done]. injection Hq as ->. apply gcm_open_seal in Ho.
  rewrite En, <- Hh, Ho. cbn [fst snd]. by rewrite !take_drop.
Qed.

End objects.
