(* ===== verification/TtsCache.v ===== *)
(** * Speech in the object cache (app/host/src/tts_cache.rs)

    A summary's audio is stored with a manifest that repeats what was asked for and what
    was served; it is read back and checked before the ledger hears of it, inside the
    callback the object cache runs under its lock.  The object cache (app/host/src/cache.rs)
    is reached through [ObjectCache]. *)

From stdpp Require Import gmap.
From S2P Require Import Prelude Bytes Audio CacheRef StoreTypes Summary.

Definition TTS_CACHE_MANIFEST_SCHEMA : Z := 1.
Definition TTS_MODEL : text := ascii_bytes "qwen-audio-3.0-tts-flash".
Definition LEGACY_TTS_MODEL : text := ascii_bytes "qwen3-tts-instruct-flash-realtime".
Definition LEGACY_TTS_MODEL_SNAPSHOT : text := ascii_bytes "qwen3-tts-instruct-flash-realtime-2026-01-22".

Inductive TtsCacheError :=
| AudioFault (e : AudioError) | CacheFault (e : CacheError) | DocumentFault (e : SummaryDocumentError) | Manifest.

(** [TtsAudio] and its receipt (app/host/src/dashscope.rs) *)
Inductive TtsError :=
| TtsCredential | TtsInvalidRequest | TtsRejected | TtsRateLimited | TtsUnavailable
| TtsAmbiguousAfterCommit | TtsProtocol | TtsAudioLimit.
#[export] Instance TtsError_eq_dec : EqDecision TtsError.
Proof. solve_decision. Defined.

Record TtsAudio := mk_tts {
  ta_pcm : bytes;
  ta_model : text;
  ta_voice : text;
  ta_sample_rate : Z;
  ta_samples : Z;
  ta_characters : option Z;
  ta_transport : text;
  ta_attempts : Z;
}.

Record TtsCacheManifest := mk_manifest {
  mf_schema : Z;
  mf_requested_model : text;
  mf_served_model : text;
  mf_voice : text;
  mf_response_format : text;
  mf_sample_rate : Z;
  mf_channels : Z;
  mf_pcm_bits_per_sample : Z;
  mf_samples : Z;
  mf_duration_ms : Z;
  mf_eiad_frames : Z;
  mf_billed_characters : option Z;
  mf_summary : SummaryDocument;
}.

Record PublishedTtsGeneration := mk_generation {
  pg_cache_reference : text;
  pg_samples : Z;
  pg_duration_ms : Z;
  pg_eiad_frames : Z;
}.

Record CachedTtsGeneration := mk_cached { cg_summary : SummaryDocument; cg_publication : PublishedTtsGeneration }.

(** The three objects of a cache generation. *)
Record CacheBundle := mk_bundle { cb_manifest_json : bytes; cb_qwen_wav : bytes; cb_device_eiad : bytes }.

(** What this code uses of the object cache: an authenticated read, and publishing a bundle
    that is not there yet or verifying that the same one is. *)
Class ObjectCache (C : Type) := {
  cache_read : CacheId → C → result CacheError CacheBundle;
  cache_publish_or_verify : CacheId → CacheBundle → C → result CacheError unit * C;
}.

Class ManifestSerde := {
  manifest_from_json : bytes → option TtsCacheManifest;
  manifest_to_json : TtsCacheManifest → option bytes;
}.

Definition audio_fault {A} (r : result AudioError A) : result TtsCacheError A :=
  match r with Ok a => Ok a | Err e => Err (AudioFault e) end.
Definition document_fault {A} (r : result SummaryDocumentError A) : result TtsCacheError A :=
  match r with Ok a => Ok a | Err e => Err (DocumentFault e) end.
Definition cache_fault {A} (r : result CacheError A) : result TtsCacheError A :=
  match r with Ok a => Ok a | Err e => Err (CacheFault e) end.

Definition duration_of (samples : Z) : Z := Z.min u64_max (samples * 1000) / TTS_SAMPLE_RATE.

Section cache.
Context `{Externals, Crypto, SummarySerde, ManifestSerde}.

Definition validate_manifest (manifest : TtsCacheManifest) (tts : TtsAudio) : result TtsCacheError unit :=
  let? _ := document_fault (canonical_json (mf_summary manifest)) in
  require (negb (negb (mf_schema manifest =? TTS_CACHE_MANIFEST_SCHEMA)
    || negb (bool_decide (mf_requested_model manifest = TTS_MODEL))
    || negb (bool_decide (mf_served_model manifest = ta_model tts))
    || negb (bool_decide (mf_voice manifest = ta_voice tts))
    || negb (bool_decide (mf_response_format manifest = ascii_bytes "pcm"))
    || negb (mf_sample_rate manifest =? TTS_SAMPLE_RATE)
    || negb (mf_channels manifest =? 1)
    || negb (mf_pcm_bits_per_sample manifest =? 16)
    || negb (mf_samples manifest =? ta_samples tts)
    || negb (mf_duration_ms manifest =? duration_of (mf_samples manifest))
    || (mf_eiad_frames manifest =? 0)
    || negb (bool_decide (mf_billed_characters manifest = ta_characters tts)))) Manifest.

Definition eiad_matches (manifest : TtsCacheManifest) (eiad : bytes) : result TtsCacheError unit :=
  let? md := audio_fault (inspect_eiad eiad) in
  require ((md_samples md =? mf_samples manifest) && (md_frames md =? mf_eiad_frames manifest)
           && (md_sample_rate md =? mf_sample_rate manifest)) Manifest.

Definition validate_cached_manifest (manifest : TtsCacheManifest) (published : CacheBundle)
    : result TtsCacheError unit :=
  let? _ := document_fault (canonical_json (mf_summary manifest)) in
  let current_model := bool_decide (mf_requested_model manifest = TTS_MODEL)
                       && bool_decide (mf_served_model manifest = TTS_MODEL) in
  let legacy_model := bool_decide (mf_requested_model manifest = LEGACY_TTS_MODEL)
                      && (bool_decide (mf_served_model manifest = LEGACY_TTS_MODEL)
                          || bool_decide (mf_served_model manifest = LEGACY_TTS_MODEL_SNAPSHOT)) in
  let? _ := require (negb (negb (mf_schema manifest =? TTS_CACHE_MANIFEST_SCHEMA)
    || negb (current_model || legacy_model)
    || bool_decide (mf_voice manifest = [])
    || negb (bool_decide (mf_response_format manifest = ascii_bytes "pcm"))
    || negb (mf_sample_rate manifest =? TTS_SAMPLE_RATE)
    || negb (mf_channels manifest =? 1)
    || negb (mf_pcm_bits_per_sample manifest =? 16)
    || (mf_samples manifest =? 0)
    || negb (mf_duration_ms manifest =? duration_of (mf_samples manifest))
    || (mf_eiad_frames manifest =? 0))) Manifest in
  let? wav_pcm := audio_fault (decode_wav (cb_qwen_wav published)) in
  let? _ := require (blen wav_pcm / 2 =? mf_samples manifest) Manifest in
  eiad_matches manifest (cb_device_eiad published).

(** The check of what was just published, before the callback. *)
Definition check_published (id : CacheId) (tts : TtsAudio) (published : CacheBundle)
    : result TtsCacheError PublishedTtsGeneration :=
  let? decoded := of_option Manifest (manifest_from_json (cb_manifest_json published)) in
  let? _ := validate_manifest decoded tts in
  let? wav_pcm := audio_fault (decode_wav (cb_qwen_wav published)) in
  let? _ := require (bool_decide (wav_pcm = ta_pcm tts)) Manifest in
  let? _ := eiad_matches decoded (cb_device_eiad published) in
  Ok (mk_generation (reference id) (mf_samples decoded) (mf_duration_ms decoded) (mf_eiad_frames decoded)).

(** The bundle to publish. *)
Definition tts_bundle (summary : SummaryDocument) (tts : TtsAudio) : result TtsCacheError CacheBundle :=
  let? _ := document_fault (canonical_json summary) in
  let? _ := require (negb (negb (ta_sample_rate tts =? TTS_SAMPLE_RATE)
                           || negb (ta_samples tts =? blen (ta_pcm tts) / 2))) Manifest in
  let? artifacts := audio_fault (encode_tts_audio (ta_pcm tts)) in
  let manifest :=
    mk_manifest TTS_CACHE_MANIFEST_SCHEMA TTS_MODEL (ta_model tts) (ta_voice tts) (ascii_bytes "pcm") TTS_SAMPLE_RATE 1 16
      (aa_samples artifacts) (duration_ms artifacts) (aa_frames artifacts) (ta_characters tts) summary in
  let? manifest_json := of_option Manifest (manifest_to_json manifest) in
  Ok (mk_bundle manifest_json (aa_wav artifacts) (aa_eiad artifacts)).

Section objects.
Context {C : Type} `{ObjectCache C}.

(** The result of a callback that runs on the store while the cache is locked. *)
Definition publish_tts_generation_with {R E S} (task_id : text) (generation : Z) (summary : SummaryDocument)
    (tts : TtsAudio) (after_authenticated_read : PublishedTtsGeneration → S → result E R * S) (cache : C) (store : S)
    : result TtsCacheError (result E R) * C * S :=
  match tts_bundle summary tts with
  | Err e => (Err e, cache, store)
  | Ok bundle =>
      match for_task task_id generation with
      | Err e => (Err (CacheFault e), cache, store)
      | Ok id =>
          match cache_publish_or_verify id bundle cache with
          | (Err e, cache) => (Err (CacheFault e), cache, store)
          | (Ok _, cache) =>
              match cache_read id cache with
              | Err e => (Err (CacheFault e), cache, store)
              | Ok published =>
                  match check_published id tts published with
                  | Err e => (Err e, cache, store)
                  | Ok generation =>
                      let r := after_authenticated_read generation store in (Ok r.1, cache, r.2)
                  end
              end
          end
      end
  end.

Definition load_tts_generation (task_id : text) (generation : Z) (cache : C)
    : result TtsCacheError CachedTtsGeneration :=
  let? id := cache_fault (for_task task_id generation) in
  let? published := cache_fault (cache_read id cache) in
  let? manifest := of_option Manifest (manifest_from_json (cb_manifest_json published)) in
  let? _ := validate_cached_manifest manifest published in
  Ok (mk_cached (mf_summary manifest)
        (mk_generation (reference id) (mf_samples manifest) (mf_duration_ms manifest) (mf_eiad_frames manifest))).

Definition load_tts_generation_with {R E S} (task_id : text) (generation : Z)
    (after_authenticated_read : CachedTtsGeneration → S → result E R * S) (cache : C) (store : S)
    : result TtsCacheError (result E R) * S :=
  match load_tts_generation task_id generation cache with
  | Err e => (Err e, store)
  | Ok cached => let r := after_authenticated_read cached store in (Ok r.1, r.2)
  end.

Definition load_tts_summary (task_id : text) (generation : Z) (cache : C) : result TtsCacheError SummaryDocument :=
  let? cached := load_tts_generation task_id generation cache in Ok (cg_summary cached).

End objects.
End cache.
