(* ===== verification/WsFrames.v ===== *)
(** * WebSocket frames (app/host/src/dashscope.rs)

    The client side of RFC 6455 that the speech service is reached through: reading a
    server's frames, putting a fragmented text message together, and writing masked frames.
    The stream is the bytes it still delivers before it fails, the outcome of each write to
    come, and a record of the writes attempted. *)

From S2P Require Import Prelude Bytes StrOps.

Definition MAX_SERVER_EVENT_BYTES : nat := 64 * 1024.

(** [VerificationError] (app/host/src/secrets.rs) *)
Inductive VerificationError := Rejected | Unavailable | Protocol.
#[export] Instance VerificationError_eq_dec : EqDecision VerificationError.
Proof. solve_decision. Defined.

(** The crate [uuid]: the bytes of the n-th [Uuid::new_v4]. *)
Class Uuids := { new_v4 : nat → bytes; new_v4_length n : length (new_v4 n) = 16%nat }.

(** ** The stream and the buffers its readers share *)

Record Conn := mk_conn {
  cn_pending : bytes;            (* [pending], read before the stream *)
  cn_fragmented : option bytes;  (* [fragmented] *)
  cn_incoming : bytes;
  cn_outcomes : list bool;       (* no entry: the write succeeds *)
  cn_written : list bytes;
  cn_uuids : nat;                (* drawn so far *)
}.

Definition Io (E A : Type) : Type := Conn → result E A * Conn.

Definition ioret {E A} (a : A) : Io E A := λ c, (Ok a, c).
Definition iofail {E A} (e : E) : Io E A := λ c, (Err e, c).
Definition iolift {E A} (r : result E A) : Io E A := λ c, (r, c).
Definition iobind {E A B} (m : Io E A) (k : A → Io E B) : Io E B :=
  λ c, match m c with (Ok a, c) => k a c | (Err e, c) => (Err e, c) end.
(** [map_err] *)
Definition iomap_err {E F A} (f : E → F) (m : Io E A) : Io F A :=
  λ c, match m c with (Ok a, c) => (Ok a, c) | (Err e, c) => (Err (f e), c) end.
(** [let _ = m], [m.is_ok()] and the like: the result becomes a value. *)
Definition iotry {E F A} (m : Io E A) : Io F (result E A) :=
  λ c, match m c with (r, c) => (Ok r, c) end.

Declare Scope io_scope.
Delimit Scope io_scope with io.
#[global] Open Scope io_scope.
Notation "'let^' x ':=' m 'in' k" := (iobind m (λ x, k))
  (at level 10, x binder, m at level 100, k at level 200) : io_scope.

Definition with_pending (p : bytes) (c : Conn) : Conn :=
  mk_conn p (cn_fragmented c) (cn_incoming c) (cn_outcomes c) (cn_written c) (cn_uuids c).
Definition with_fragmented (f : option bytes) (c : Conn) : Conn :=
  mk_conn (cn_pending c) f (cn_incoming c) (cn_outcomes c) (cn_written c) (cn_uuids c).

(** What a reader can still get. *)
Definition available (c : Conn) : nat := (length (cn_pending c) + length (cn_incoming c))%nat.

(** [stream.write_all(frame).and_then(|()| stream.flush())] *)
Definition write_all_flush (frame : bytes) : Io unit unit := λ c,
  let c' ok outcomes :=
    (if ok : bool then Ok tt else Err tt,
     mk_conn (cn_pending c) (cn_fragmented c) (cn_incoming c) outcomes
       (cn_written c ++ [frame]) (cn_uuids c)) in
  match cn_outcomes c with
  | [] => c' true []
  | ok :: outcomes => c' ok outcomes
  end.

Definition read_exact_prefixed (n : nat) : Io VerificationError bytes := λ c,
  let from_pending := Nat.min (length (cn_pending c)) n in
  let head := take from_pending (cn_pending c) in
  let rest := (n - from_pending)%nat in
  let c' incoming :=
    mk_conn (drop from_pending (cn_pending c)) (cn_fragmented c) incoming (cn_outcomes c)
      (cn_written c) (cn_uuids c) in
  if (rest <=? length (cn_incoming c))%nat
  then (Ok (head ++ take rest (cn_incoming c)), c' (drop rest (cn_incoming c)))
  else (Err Unavailable, c' []).

(** ** Reading *)

Record ServerFrame := mk_frame { sf_fin : bool; sf_opcode : Z; sf_payload : bytes }.

(** The length field: [0..=125], or the code of an extended one. *)
Definition read_frame_length (length_code : Z) : Io VerificationError Z :=
  if length_code =? 126 then
    let^ extended := read_exact_prefixed 2 in
    let length := be_value extended in
    if length <? 126 then iofail Protocol else ioret length
  else if length_code =? 127 then
    let^ extended := read_exact_prefixed 8 in
    let length := be_value extended in
    if (length <? 65536) || negb (Z.land length (Z.shiftl 1 63) =? 0)
    then iofail Protocol else ioret length
  else ioret length_code.

(** What follows the two bytes of a frame's head. *)
Definition read_frame_rest (first : bytes) : Io VerificationError ServerFrame :=
  let fin := negb (Z.land (byte_at first 0) 0x80 =? 0) in
  let reserved := Z.land (byte_at first 0) 0x70 in
  let opcode := Z.land (byte_at first 0) 0x0f in
  let masked := negb (Z.land (byte_at first 1) 0x80 =? 0) in
  if negb (reserved =? 0) || masked || negb (one_of [0x0; 0x1; 0x2; 0x8; 0x9; 0xA] opcode)
  then iofail Protocol
  else
    let length_code := Z.land (byte_at first 1) 0x7f in
    if (0x8 <=? opcode) && (negb fin || (126 <=? length_code)) then iofail Protocol
    else
      let^ length := read_frame_length length_code in
      if Z.of_nat MAX_SERVER_EVENT_BYTES <? length then iofail Protocol
      else
        let^ payload := read_exact_prefixed (Z.to_nat length) in
        ioret (mk_frame fin opcode payload).

Definition read_server_frame : Io VerificationError ServerFrame :=
  let^ first := read_exact_prefixed 2 in
  read_frame_rest first.

Definition assemble_text_frame (frame : ServerFrame) : Io VerificationError (option bytes) := λ c,
  match cn_fragmented c with
  | None =>
      if sf_opcode frame =? 0x1 then
        if sf_fin frame then (Ok (Some (sf_payload frame)), c)
        else (Ok None, with_fragmented (Some (sf_payload frame)) c)
      else (Err Protocol, c)
  | Some payload =>
      if sf_opcode frame =? 0x0 then
        let total := (length payload + length (sf_payload frame))%nat in
        if (MAX_SERVER_EVENT_BYTES <? total)%nat then (Err Protocol, c)
        else
          let payload := payload ++ sf_payload frame in
          if sf_fin frame then (Ok (Some payload), with_fragmented None c)
          else (Ok None, with_fragmented (Some payload) c)
      else (Err Protocol, c)
  end.

(** ** Writing *)

Definition mask_bytes (mask payload : bytes) : bytes :=
  imap (λ index byte, Z.lxor byte (byte_at mask (index mod 4))) payload.

Section writing.
Context `{Uuids}.

(** [let mask_source = Uuid::new_v4(); &mask_source.as_bytes()[..4]] *)
Definition draw_uuid {E} : Io E bytes := λ c,
  (Ok (new_v4 (cn_uuids c)),
   mk_conn (cn_pending c) (cn_fragmented c) (cn_incoming c) (cn_outcomes c) (cn_written c)
     (S (cn_uuids c))).

Definition text_frame_header (length : nat) : bytes :=
  [0x81] ++
  (if (length <? 126)%nat then [Z.lor 0x80 (Z.of_nat length)]
   else if Z.of_nat length <=? u16_max then [Z.lor 0x80 126] ++ be_bytes_of 2 (Z.of_nat length)
   else [Z.lor 0x80 127] ++ be_bytes_of 8 (Z.of_nat length)).

(** [write_masked_text]; its only failure is [AttemptFailure::terminal(Unavailable)]. *)
Definition write_masked_text (payload : bytes) : Io unit unit :=
  let^ mask_source := draw_uuid in
  let mask := take 4 mask_source in
  write_all_flush (text_frame_header (length payload) ++ mask ++ mask_bytes mask payload).

Definition write_masked_control_frame (opcode : Z) (payload : bytes) : Io VerificationError unit :=
  if (125 <? length payload)%nat then iofail Protocol
  else
    let^ mask_source := draw_uuid in
    let mask := take 4 mask_source in
    iomap_err (λ _, Unavailable)
      (write_all_flush ([Z.lor 0x80 opcode; Z.lor 0x80 (Z.of_nat (length payload))]
                        ++ mask ++ mask_bytes mask payload)).

Definition write_masked_pong (payload : bytes) : Io VerificationError unit :=
  write_masked_control_frame 0xA payload.
Definition write_masked_close (payload : bytes) : Io VerificationError unit :=
  write_masked_control_frame 0x8 payload.

Definition validate_peer_close_payload (payload : bytes) : result VerificationError unit :=
  if (length payload =? 1)%nat then Err Protocol
  else if (2 <=? length payload)%nat then
    let status := be_value (take 2 payload) in
    let valid_status :=
      one_of [1000; 1001; 1002; 1003; 1007; 1008; 1009; 1011; 1012; 1013; 1014] status
      || between 3000 4999 status in
    if negb valid_status || negb (utf8_ok (drop 2 payload)) then Err Protocol else Ok tt
  else Ok tt.

(** One turn of the loop of [await_peer_close]: [None] when the loop goes on. *)
Definition peer_close_step : Io VerificationError (option unit) :=
  let^ frame := read_server_frame in
  if sf_opcode frame =? 0x8 then
    let^ _ := iolift (validate_peer_close_payload (sf_payload frame)) in ioret (Some tt)
  else if sf_opcode frame =? 0x9 then
    let^ _ := write_masked_pong (sf_payload frame) in ioret None
  else if sf_opcode frame =? 0xA then ioret None
  else iofail Protocol.
End writing.

(** A loop over frames.  Every turn that does not fail reads at least the two bytes of a
    frame's head, so that the bytes available bound the number of turns ([frame_loop_step]
    is the loop's own equation, without the bound). *)
Fixpoint frame_loop_fuel {E A} (fuel : nat) (turn : Io E (option A)) (out_of_fuel : E) : Io E A :=
  match fuel with
  | O => iofail out_of_fuel
  | S fuel =>
      let^ r := turn in
      match r with Some a => ioret a | None => frame_loop_fuel fuel turn out_of_fuel end
  end.
Definition frame_loop {E A} (turn : Io E (option A)) (out_of_fuel : E) : Io E A := λ c,
  frame_loop_fuel (S (available c)) turn out_of_fuel c.

Definition await_peer_close `{Uuids} : Io VerificationError unit :=
  frame_loop peer_close_step Protocol.
