(* ===== verification/WsFramesProps.v ===== *)
(** * WebSocket frames: what the reader and the writer do

    The reader undoes the framing of a server ([framed] is the wire form of one text
    message, in any fragments and with control frames between them), the writer's frames
    are what a server unmasks, and the loops over frames end. *)

From S2P Require Import Prelude Bytes StrOps WsFrames.

(** ** Reading moves along the stream and touches nothing else *)

Definition stream (c : Conn) : bytes := cn_pending c ++ cn_incoming c.

Record advanced (c : Conn) (bs : bytes) (c' : Conn) : Prop := mk_advanced {
  ad_stream : stream c = bs ++ stream c';
  ad_fragmented : cn_fragmented c' = cn_fragmented c;
  ad_outcomes : cn_outcomes c' = cn_outcomes c;
  ad_written : cn_written c' = cn_written c;
  ad_uuids : cn_uuids c' = cn_uuids c;
}.

Lemma available_stream c : available c = length (stream c).
Proof. unfold available, stream. by rewrite length_app. Qed.

Lemma advanced_available c bs c' : advanced c bs c' → available c = (length bs + available c')%nat.
Proof. intros []. by rewrite !available_stream, ad_stream0, length_app. Qed.

Lemma advanced_trans c bs c' bs' c'' :
  advanced c bs c' → advanced c' bs' c'' → advanced c (bs ++ bs') c''.
Proof. intros [E1 ? ? ? ?] [E2 ? ? ? ?]. split; [|congruence..]. by rewrite E1, E2, app_assoc. Qed.

Lemma advanced_refl c : advanced c [] c.
Proof. by split. Qed.

Lemma read_exact_reads n c :
  (n ≤ length (stream c))%nat →
  ∃ c', read_exact_prefixed n c = (Ok (take n (stream c)), c') ∧ advanced c (take n (stream c)) c'.
Proof.
  unfold stream. rewrite length_app. intros Hn. unfold read_exact_prefixed.
  rewrite (proj2 (Nat.leb_le _ _)) by lia. eexists. split.
  - do 2 f_equal. rewrite take_app. f_equal; [|f_equal; lia].
    destruct (Nat.le_gt_cases (length (cn_pending c)) n).
    + rewrite Nat.min_l by lia. by rewrite !take_ge by lia.
    + by rewrite Nat.min_r by lia.
  - split; try done. unfold stream; cbn [cn_pending cn_incoming].
    rewrite take_app. destruct (Nat.le_gt_cases (length (cn_pending c)) n).
    + rewrite Nat.min_l, drop_all, take_ge by lia. cbn [app]. by rewrite <-app_assoc, take_drop.
    + rewrite Nat.min_r, Nat.sub_diag by lia. replace (n - length (cn_pending c))%nat with O by lia.
      rewrite take_0, drop_0, app_nil_r. cbn [app]. by rewrite app_assoc, take_drop.
Qed.

Lemma read_exact_cases n c :
  match read_exact_prefixed n c with
  | (Ok b, c') => length b = n ∧ advanced c b c'
  | (Err e, c') => e = Unavailable ∧ (length (stream c) < n)%nat ∧ cn_written c' = cn_written c
  end.
Proof.
  destruct (Nat.le_gt_cases n (length (stream c))) as [Hn|Hn].
  - destruct (read_exact_reads n c Hn) as (c' & -> & Ha). split; [|done]. rewrite length_take. lia.
  - unfold stream in *. rewrite length_app in Hn. unfold read_exact_prefixed.
    rewrite (proj2 (Nat.leb_gt _ _)) by lia. unfold stream. rewrite length_app. auto.
Qed.

(** ** A reader: it moves along the stream, or fails, and never writes *)

Definition reader {E A} (m : Io E A) : Prop := ∀ c,
  match m c with
  | (Ok _, c') => ∃ bs, advanced c bs c'
  | (Err _, c') => cn_written c' = cn_written c
  end.

Create HintDb frames.

Section readers.
Context {E A B : Type}.

Lemma iobind_ok (m : Io E A) (k : A → Io E B) c b c'' :
  iobind m k c = (Ok b, c'') ↔ ∃ a c', m c = (Ok a, c') ∧ k a c' = (Ok b, c'').
Proof. unfold iobind. destruct (m c) as [[a|e] c']; naive_solver. Qed.

Lemma reader_ret (a : A) : reader (ioret (E := E) a).
Proof. intros c. exists []. apply advanced_refl. Qed.

Lemma reader_fail (e : E) : reader (iofail (A := A) e).
Proof. by intros c. Qed.

Lemma reader_bind (m : Io E A) (k : A → Io E B) :
  reader m → (∀ a, reader (k a)) → reader (iobind m k).
Proof.
  intros Hm Hk c. unfold iobind. specialize (Hm c). destruct (m c) as [[a|e] c1]; [|done].
  destruct Hm as [bs Ha]. specialize (Hk a c1). destruct (k a c1) as [[b|e] c2].
  - destruct Hk as [bs' Ha']. exists (bs ++ bs'). by eapply advanced_trans.
  - by rewrite Hk, (ad_written _ _ _ Ha).
Qed.
End readers.

Lemma reader_exact n : reader (read_exact_prefixed n).
Proof.
  intros c. pose proof (read_exact_cases n c) as Hr.
  destruct (read_exact_prefixed n c) as [[b|e] c']; [exists b|]; tauto.
Qed.

#[export] Hint Resolve reader_ret reader_fail reader_bind reader_exact : frames.

(** Every branch of a reader is one. *)
Ltac reading_frames :=
  repeat first
    [ progress auto with frames
    | apply reader_bind; [|intros ?]
    | match goal with |- reader (if ?b then _ else _) => destruct b end ].

Lemma reader_frame_length code : reader (read_frame_length code).
Proof. unfold read_frame_length. reading_frames. Qed.
#[export] Hint Resolve reader_frame_length : frames.

Lemma reader_frame_rest first : reader (read_frame_rest first).
Proof. unfold read_frame_rest. cbv zeta. reading_frames. Qed.
#[export] Hint Resolve reader_frame_rest : frames.

Lemma reader_server_frame : reader read_server_frame.
Proof. unfold read_server_frame. reading_frames. Qed.
#[export] Hint Resolve reader_server_frame : frames.

(** A frame that was read took at least its two-byte head. *)
Lemma server_frame_consumes c f c' :
  read_server_frame c = (Ok f, c') → ∃ bs, advanced c bs c' ∧ (2 ≤ length bs)%nat.
Proof.
  intros (b & c1 & Eb & Ef)%iobind_ok. pose proof (read_exact_cases 2 c) as Hr. rewrite Eb in Hr.
  destruct Hr as [Hl Ha]. pose proof (reader_frame_rest b c1) as Hm. rewrite Ef in Hm.
  destruct Hm as [bs Ha']. exists (b ++ bs). split; [by eapply advanced_trans|]. rewrite length_app. lia.
Qed.

(** ** The loops over frames end *)

Section loops.
Context {E A : Type} (turn : Io E (option A)) (out_of_fuel : E).
Hypothesis turn_consumes : ∀ c c', turn c = (Ok None, c') → (available c' < available c)%nat.

Lemma frame_loop_enough fuel c :
  (available c < fuel)%nat → frame_loop_fuel fuel turn out_of_fuel c = frame_loop turn out_of_fuel c.
Proof.
  unfold frame_loop. assert (∀ f g c, (available c < f)%nat → (available c < g)%nat →
    frame_loop_fuel f turn out_of_fuel c = frame_loop_fuel g turn out_of_fuel c) as Hfg.
  { induction f as [|f IH]; [lia|]. intros [|g] c0; [lia|]. intros. simpl. unfold iobind.
    destruct (turn c0) as [[[a|]|e] c1] eqn:Et; [done| |done].
    apply turn_consumes in Et. apply IH; lia. }
  intros. apply Hfg; lia.
Qed.

Lemma frame_loop_step c :
  frame_loop turn out_of_fuel c =
  (let^ r := turn in
   match r with Some a => ioret a | None => frame_loop turn out_of_fuel end) c.
Proof.
  unfold frame_loop at 1. simpl. unfold iobind.
  destruct (turn c) as [[[a|]|e] c1] eqn:Et; [done| |done].
  apply frame_loop_enough. by apply turn_consumes in Et.
Qed.
End loops.

(** ** A server's frame is read back *)

(** The frame of a server (RFC 6455, 5.2: no mask). *)
Definition frame_length_bytes (n : nat) : bytes :=
  if (n <? 126)%nat then [Z.of_nat n]
  else if Z.of_nat n <? 65536 then 126 :: be_bytes_of 2 (Z.of_nat n)
  else 127 :: be_bytes_of 8 (Z.of_nat n).
Definition encode_server_frame (fin : bool) (opcode : Z) (payload : bytes) : bytes :=
  ((if fin then 128 else 0) + opcode) :: frame_length_bytes (length payload) ++ payload.

Definition valid_server_frame (fin : bool) (opcode : Z) (payload : bytes) : Prop :=
  (opcode ∈ [0; 1; 2] ∧ (length payload ≤ MAX_SERVER_EVENT_BYTES)%nat)
  ∨ (opcode ∈ [8; 9; 10] ∧ fin = true ∧ (length payload ≤ 125)%nat).

Lemma valid_data fin opcode payload :
  opcode = 0 ∨ opcode = 1 → (length payload ≤ MAX_SERVER_EVENT_BYTES)%nat → valid_server_frame fin opcode payload.
Proof. intros Hop ?. left. rewrite !elem_of_cons. tauto. Qed.
Lemma valid_control opcode payload :
  opcode ∈ [9; 10] → (length payload ≤ 125)%nat → valid_server_frame true opcode payload.
Proof. intros Hop ?. right. rewrite elem_of_cons. tauto. Qed.

(** The three bit tests on a head byte, for each of its 128 values without the high bit. *)
Lemma land_low_bits code : 0 ≤ code < 128 →
  Z.land code 0x80 = 0 ∧ Z.land code 0x7f = code ∧ Z.lor 0x80 code = 128 + code.
Proof.
  intros Hc.
  assert (forallb (λ n, (Z.land (Z.of_nat n) 128 =? 0) && (Z.land (Z.of_nat n) 127 =? Z.of_nat n)
            && (Z.lor 128 (Z.of_nat n) =? 128 + Z.of_nat n)) (seq 0 128) = true) as Hall by (vm_compute; reflexivity).
  rewrite forallb_forall in Hall. specialize (Hall (Z.to_nat code)).
  rewrite Z2Nat.id in Hall by lia. rewrite in_seq in Hall.
  specialize (Hall ltac:(lia)). by bool_prop.
Qed.

(** One goal per opcode of a list. *)
Ltac opcode_cases H :=
  rewrite ?elem_of_cons in H; repeat destruct H as [->|H]; try (by apply elem_of_nil in H).

(** [H : x ∈ l] decides a membership in a part of [l], by arithmetic. *)
Ltac listed H :=
  rewrite ?elem_of_cons, elem_of_nil in H; decompose [or] H; first [tauto | exfalso; lia].

(** Reading exactly what the stream starts with. *)
Lemma read_exact_prefix bs n c rest :
  stream c = bs ++ rest → length bs = n →
  ∃ c', read_exact_prefixed n c = (Ok bs, c') ∧ advanced c bs c' ∧ stream c' = rest.
Proof.
  intros Es Hl. destruct (read_exact_reads n c) as (c' & Er & Ha).
  { rewrite Es, length_app. lia. }
  rewrite Es, take_app_length' in Er, Ha by done. exists c'. split_and!; [done..|].
  pose proof (ad_stream _ _ _ Ha) as E. rewrite Es in E. by apply app_inv_head in E.
Qed.

Lemma read_frame_length_encoded n c rest :
  (n ≤ MAX_SERVER_EVENT_BYTES)%nat →
  match frame_length_bytes n with
  | code :: extended =>
      stream c = extended ++ rest →
      0 ≤ code < 128 ∧ (n < 126 → code = Z.of_nat n)%nat ∧
      ∃ c', read_frame_length code c = (Ok (Z.of_nat n), c') ∧ advanced c extended c' ∧ stream c' = rest
  | [] => False
  end.
Proof.
  unfold MAX_SERVER_EVENT_BYTES. intros Hn. unfold frame_length_bytes.
  destruct (Nat.ltb_spec n 126); [|destruct (Z.ltb_spec (Z.of_nat n) 65536)]; intros Es; (split; [lia|]); (split; [lia|]).
  - exists c. unfold read_frame_length. rewrite (proj2 (Z.eqb_neq _ _)), (proj2 (Z.eqb_neq _ _)) by lia.
    split_and!; [done|apply advanced_refl|done].
  - destruct (read_exact_prefix _ 2 _ _ Es) as (c' & Er & Ha & Es'); [apply length_be_bytes_of|].
    exists c'. unfold read_frame_length, iobind. rewrite Z.eqb_refl, Er, be_value_be_bytes_of by lia.
    by rewrite (proj2 (Z.ltb_ge _ _)) by lia.
  - destruct (read_exact_prefix _ 8 _ _ Es) as (c' & Er & Ha & Es'); [apply length_be_bytes_of|].
    exists c'. unfold read_frame_length, iobind. change (127 =? 126) with false. rewrite Z.eqb_refl, Er.
    rewrite be_value_be_bytes_of by lia. assert (Z.of_nat n = 65536) as E by lia. rewrite E in *.
    split_and!; [reflexivity|done..].
Qed.

Lemma read_encoded_frame fin opcode payload c rest :
  valid_server_frame fin opcode payload →
  stream c = encode_server_frame fin opcode payload ++ rest →
  ∃ c', read_server_frame c = (Ok (mk_frame fin opcode payload), c')
        ∧ advanced c (encode_server_frame fin opcode payload) c' ∧ stream c' = rest.
Proof.
  intros Hv Es. unfold encode_server_frame in *.
  assert (length payload ≤ MAX_SERVER_EVENT_BYTES)%nat as Hmax
    by (destruct Hv as [[_ ?]|[_ [_ ?]]]; [done|unfold MAX_SERVER_EVENT_BYTES; lia]).
  pose proof (read_frame_length_encoded (length payload)) as Hlen.
  destruct (frame_length_bytes (length payload)) as [|code extended]; [by destruct (Hlen c rest)|].
  set (b0 := (if fin then 128 else 0) + opcode) in *.
  destruct (read_exact_prefix [b0; code] 2 c ((extended ++ payload) ++ rest) ltac:(by rewrite Es) eq_refl)
    as (c1 & Er1 & Ha1 & Es1).
  rewrite <-app_assoc in Es1. destruct (Hlen c1 (payload ++ rest) Hmax Es1) as (Hc & Hsmall & c2 & Er2 & Ha2 & Es2).
  destruct (read_exact_prefix payload (length payload) c2 rest Es2 eq_refl) as (c3 & Er3 & Ha3 & Es3).
  exists c3. split; [|split; [|done]].
  2:{ pose proof (advanced_trans _ _ _ _ _ (advanced_trans _ _ _ _ _ Ha1 Ha2) Ha3) as Ha.
      exact Ha. }
  unfold read_server_frame, iobind. rewrite Er1. unfold read_frame_rest. cbv zeta.
  change (byte_at [b0; code] 0) with b0. change (byte_at [b0; code] 1) with code.
  destruct (land_low_bits code Hc) as (-> & -> & _).
  assert (Z.land b0 0x80 = (if fin then 128 else 0) ∧ Z.land b0 0x70 = 0 ∧ Z.land b0 0x0f = opcode) as (-> & -> & ->).
  { unfold b0. destruct Hv as [[Hop _]|[Hop _]]; opcode_cases Hop; by destruct fin. }
  assert (one_of [0; 1; 2; 8; 9; 10] opcode = true
    ∧ (8 <=? opcode) && (negb (negb ((if fin then 128 else 0) =? 0)) || (126 <=? code)) = false
    ∧ negb ((if fin then 128 else 0) =? 0) = fin) as (-> & -> & ->).
  { destruct Hv as [[Hop _]|[Hop [-> Hl]]]; [opcode_cases Hop; by destruct fin|].
    rewrite Hsmall by lia. assert (126 <=? Z.of_nat (length payload) = false) as -> by lia.
    by opcode_cases Hop. }
  cbn [negb orb Z.eqb]. unfold iobind. rewrite Er2, (proj2 (Z.ltb_ge _ _)), Nat2Z.id, Er3 by lia. done.
Qed.

(** ** What a server reads from a client's frame (RFC 6455, 5.2 and 5.3) *)

Definition decode_client_frame (f : bytes) : option (Z * bytes) :=
  match f with
  | b0 :: b1 :: rest =>
      if negb ((128 <=? b0) && (b0 <? 144) && (128 <=? b1)) then None
      else
        let code := b1 - 128 in
        let '(n, rest) :=
          if code =? 126 then (be_value (take 2 rest), drop 2 rest)
          else if code =? 127 then (be_value (take 8 rest), drop 8 rest)
          else (code, rest) in
        if n =? Z.of_nat (length (drop 4 rest)) then Some (b0 - 128, mask_bytes (take 4 rest) (drop 4 rest))
        else None
  | _ => None
  end.

Lemma mask_bytes_twice mask payload : mask_bytes mask (mask_bytes mask payload) = payload.
Proof.
  unfold mask_bytes. apply list_eq. intros i. rewrite !list_lookup_imap.
  destruct (payload !! i); [|done]. simpl.
  by rewrite Z.lxor_assoc, Z.lxor_nilpotent, Z.lxor_0_r.
Qed.

Lemma length_mask_bytes mask payload : length (mask_bytes mask payload) = length payload.
Proof. apply length_imap. Qed.

(** The two heads the client writes. *)
Lemma decode_text_frame mask payload :
  length mask = 4%nat → Z.of_nat (length payload) ≤ u64_max →
  decode_client_frame (text_frame_header (length payload) ++ mask ++ mask_bytes mask payload)
  = Some (1, payload).
Proof.
  intros Hm Hl. unfold text_frame_header. set (n := Z.of_nat (length payload)) in *.
  destruct (Nat.ltb_spec (length payload) 126); [|destruct (Z.leb_spec n u16_max)].
  - assert (0 ≤ n < 126) by lia. destruct (land_low_bits n) as (_ & _ & ->); [lia|]. cbn [app]. unfold decode_client_frame.
    rewrite (proj2 (Z.leb_le 128 (128 + n))) by lia.
    replace (128 + n - 128) with n by lia. rewrite (proj2 (Z.eqb_neq n 126)), (proj2 (Z.eqb_neq n 127)) by lia.
    rewrite take_app_length', drop_app_length' by done. rewrite length_mask_bytes. fold n.
    by rewrite Z.eqb_refl, mask_bytes_twice.
  - change (Z.lor 128 126) with 254. cbn -[mask_bytes be_bytes_of be_value take drop].
    change (254 - 128 =? 126) with true. cbn iota.
    rewrite take_app_length', drop_app_length' by (by rewrite length_be_bytes_of).
    rewrite be_value_be_bytes_of, take_app_length', drop_app_length' by (width_lia || done).
    rewrite length_mask_bytes. fold n. by rewrite Z.eqb_refl, mask_bytes_twice.
  - change (Z.lor 128 127) with 255. cbn -[mask_bytes be_bytes_of be_value take drop].
    change (255 - 128 =? 126) with false. change (255 - 128 =? 127) with true. cbn iota.
    rewrite take_app_length', drop_app_length' by (by rewrite length_be_bytes_of).
    rewrite be_value_be_bytes_of, take_app_length', drop_app_length' by (width_lia || done).
    rewrite length_mask_bytes. fold n. by rewrite Z.eqb_refl, mask_bytes_twice.
Qed.

Lemma decode_control_frame mask opcode payload :
  length mask = 4%nat → 0 ≤ opcode < 16 → (length payload ≤ 125)%nat →
  decode_client_frame ([Z.lor 0x80 opcode; Z.lor 0x80 (Z.of_nat (length payload))] ++ mask ++ mask_bytes mask payload)
  = Some (opcode, payload).
Proof.
  intros Hm Ho Hl. set (n := Z.of_nat (length payload)) in *.
  destruct (land_low_bits n) as (_ & _ & ->); [lia|]. destruct (land_low_bits opcode) as (_ & _ & ->); [lia|].
  cbn [app]. unfold decode_client_frame.
  rewrite (proj2 (Z.leb_le 128 (128 + n))), (proj2 (Z.leb_le 128 (128 + opcode))), (proj2 (Z.ltb_lt (128 + opcode) 144)) by lia.
  replace (128 + n - 128) with n by lia. replace (128 + opcode - 128) with opcode by lia.
  rewrite (proj2 (Z.eqb_neq n 126)), (proj2 (Z.eqb_neq n 127)) by lia.
  rewrite take_app_length', drop_app_length' by done. rewrite length_mask_bytes. fold n.
  by rewrite Z.eqb_refl, mask_bytes_twice.
Qed.

(** ** What was read was a server's frame: the reader accepts no other encoding *)

Lemma advanced_ok c bs c' : bytes_ok (stream c) → advanced c bs c' → bytes_ok bs ∧ bytes_ok (stream c').
Proof. intros Hok Ha. rewrite (ad_stream _ _ _ Ha) in Hok. by apply Forall_app in Hok. Qed.

Lemma read_exact_ok n c b c' :
  read_exact_prefixed n c = (Ok b, c') → length b = n ∧ advanced c b c'.
Proof. intros E. pose proof (read_exact_cases n c) as Hr. by rewrite E in Hr. Qed.

Lemma read_frame_length_canonical code c n c' :
  0 ≤ code < 128 → bytes_ok (stream c) → read_frame_length code c = (Ok n, c') →
  ∃ extended, advanced c extended c'
    ∧ (n ≤ Z.of_nat MAX_SERVER_EVENT_BYTES → 0 ≤ n ∧ code :: extended = frame_length_bytes (Z.to_nat n))
    ∧ (code < 126 → n = code).
Proof.
  intros Hc Hok. unfold read_frame_length, frame_length_bytes.
  destruct (Z.eqb_spec code 126) as [->|]; [|destruct (Z.eqb_spec code 127) as [->|]].
  - intros (b & c1 & [Hl Ha]%read_exact_ok & E)%iobind_ok. destruct (advanced_ok _ _ _ Hok Ha) as [Hb _].
    destruct (Z.ltb_spec (be_value b) 126); [discriminate E|]. injection E as <- <-. exists b.
    split; [done|]. split; [|lia]. intros _. pose proof (be_value_bounds b Hb) as Hbound. rewrite Hl in Hbound.
    change (256 ^ Z.of_nat 2) with 65536 in Hbound. split; [lia|].
    rewrite Z2Nat.id by lia. rewrite (proj2 (Nat.ltb_ge _ _)), (proj2 (Z.ltb_lt _ _)) by lia.
    by rewrite be_bytes_of_be_value.
  - intros (b & c1 & [Hl Ha]%read_exact_ok & E)%iobind_ok. destruct (advanced_ok _ _ _ Hok Ha) as [Hb _].
    destruct (_ || _) eqn:Eg; [discriminate E|]. injection E as <- <-. bool_prop. exists b.
    split; [done|]. split; [|lia]. intros _. split; [lia|].
    rewrite Z2Nat.id by lia. rewrite (proj2 (Nat.ltb_ge _ _)), (proj2 (Z.ltb_ge _ _)) by lia.
    by rewrite be_bytes_of_be_value.
  - intros [= <- <-]. exists []. split; [apply advanced_refl|]. split; [|done]. intros _.
    split; [lia|]. rewrite Z2Nat.id, (proj2 (Nat.ltb_lt _ _)) by lia. done.
Qed.

(** The bits of the first byte. *)
Lemma frame_head_bits b : is_byte b →
  Z.land b 0x70 = 0 → one_of [0x0; 0x1; 0x2; 0x8; 0x9; 0xA] (Z.land b 0x0f) = true →
  b = (if negb (Z.land b 0x80 =? 0) then 128 else 0) + Z.land b 0x0f.
Proof.
  intros Hb. assert (forallb (λ n, negb (Z.land (Z.of_nat n) 112 =? 0)
      || (Z.of_nat n =? (if negb (Z.land (Z.of_nat n) 128 =? 0) then 128 else 0) + Z.land (Z.of_nat n) 15))
      (seq 0 256) = true) as Hall by (vm_compute; reflexivity).
  rewrite forallb_forall in Hall. specialize (Hall (Z.to_nat b)). unfold is_byte in Hb.
  rewrite Z2Nat.id, in_seq in Hall by lia. specialize (Hall ltac:(lia)). intros E _. rewrite E in Hall.
  cbn [Z.eqb negb orb] in Hall. by apply Z.eqb_eq in Hall.
Qed.

Lemma low_byte b : is_byte b → Z.land b 0x80 = 0 → 0 ≤ b < 128 ∧ Z.land b 0x7f = b.
Proof.
  intros Hb Hz. assert (b < 128) as Hlt.
  { assert (forallb (λ n, negb (Z.land (Z.of_nat n) 128 =? 0) || (Z.of_nat n <? 128)) (seq 0 256) = true) as Hall
      by (vm_compute; reflexivity).
    rewrite forallb_forall in Hall. specialize (Hall (Z.to_nat b)). unfold is_byte in Hb.
    rewrite Z2Nat.id, in_seq in Hall by lia. specialize (Hall ltac:(lia)). rewrite Hz in Hall. cbn in Hall. by apply Z.ltb_lt in Hall. }
  unfold is_byte in Hb. split; [lia|]. destruct (land_low_bits b) as (_ & ? & _); [lia|done].
Qed.

Lemma one_of_elem l b : one_of l b = true ↔ b ∈ l.
Proof.
  unfold one_of. rewrite existsb_exists, list_elem_of_In. split; [|eauto using Z.eqb_refl].
  intros (x & ? & ->%Z.eqb_eq). done.
Qed.

Lemma read_server_frame_canonical c f c' :
  bytes_ok (stream c) → read_server_frame c = (Ok f, c') →
  advanced c (encode_server_frame (sf_fin f) (sf_opcode f) (sf_payload f)) c'
  ∧ valid_server_frame (sf_fin f) (sf_opcode f) (sf_payload f).
Proof.
  intros Hok (b & c1 & [Hl Ha]%read_exact_ok & E)%iobind_ok.
  destruct b as [|b0 [|code [|]]]; try discriminate Hl. destruct (advanced_ok _ _ _ Hok Ha) as [Hb Hok1].
  apply Forall_cons in Hb as [Hb0 [Hcode _]%Forall_cons].
  unfold read_frame_rest in E. cbv zeta in E.
  change (byte_at [b0; code] 0) with b0 in E. change (byte_at [b0; code] 1) with code in E.
  destruct (_ || _) eqn:Eg in E; [discriminate E|]. bool_prop.
  destruct (low_byte code Hcode ltac:(done)) as [Hlow E7]. rewrite E7 in E.
  destruct (_ && _) eqn:Ec in E; [discriminate E|].
  apply iobind_ok in E as (n & c2 & Elen & E). destruct (Z.ltb_spec (Z.of_nat MAX_SERVER_EVENT_BYTES) n); [discriminate E|].
  apply iobind_ok in E as (payload & c3 & [Hlp Hap]%read_exact_ok & [= <- <-]). cbn [sf_fin sf_opcode sf_payload].
  destruct (read_frame_length_canonical _ _ _ _ Hlow Hok1 Elen) as (extended & Hae & Hn & Hsmall).
  destruct (Hn ltac:(lia)) as [Hn0 Ecode]. split.
  - unfold encode_server_frame. rewrite Hlp, <-Ecode, <-frame_head_bits by done.
    exact (advanced_trans _ _ _ _ _ (advanced_trans _ _ _ _ _ Ha Hae) Hap).
  - match goal with H : one_of _ _ = true |- _ => apply one_of_elem in H as Hop end.
    rewrite !elem_of_cons in Hop. unfold valid_server_frame. rewrite !elem_of_cons.
    destruct (Z.leb_spec 8 (Z.land b0 15)).
    + right. cbn [andb] in Ec. bool_prop. rewrite Hsmall in Hlp by lia. split_and!; [|by apply negb_true_iff, Z.eqb_neq|lia].
      listed Hop.
    + left. split; [|lia]. listed Hop.
Qed.

(** ** Messages *)

(** [framed acc message wire]: [wire] carries the text message [message], of which the
    fragments [acc] were read before; control frames may stand between the fragments. *)
Inductive framed : option bytes → bytes → bytes → Prop :=
| framed_whole payload :
    (length payload ≤ MAX_SERVER_EVENT_BYTES)%nat →
    framed None payload (encode_server_frame true 1 payload)
| framed_last acc payload :
    (length (acc ++ payload) ≤ MAX_SERVER_EVENT_BYTES)%nat →
    framed (Some acc) (acc ++ payload) (encode_server_frame true 0 payload)
| framed_first payload message wire :
    (length payload ≤ MAX_SERVER_EVENT_BYTES)%nat →
    framed (Some payload) message wire →
    framed None message (encode_server_frame false 1 payload ++ wire)
| framed_next acc payload message wire :
    (length (acc ++ payload) ≤ MAX_SERVER_EVENT_BYTES)%nat →
    framed (Some (acc ++ payload)) message wire →
    framed (Some acc) message (encode_server_frame false 0 payload ++ wire)
| framed_control acc opcode payload message wire :
    opcode ∈ [9; 10] → (length payload ≤ 125)%nat →
    framed acc message wire →
    framed acc message (encode_server_frame true opcode payload ++ wire).
