(* ===== verification/Secrets.v ===== *)
(** * Secrets (app/host/src/secrets.rs)

    The key of the speech service is read from an environment file, checked against the
    service and installed: in the host's own environment file ([configure_dashscope_env]) or
    in a keychain ([import_dashscope_key]).  The key of the cache is a private file.  Both
    are behind the trait [SecretStore].  Files are what the system calls on them answer; a
    keychain may fail at any call, and a call that fails may have taken effect. *)

From stdpp Require Import gmap.
From S2P Require Import Prelude Bytes StrOps CacheRef StoreTypes WsFrames.

Definition DASHSCOPE_VARIABLE : bytes := ascii_bytes "DASHSCOPE_API_KEY".
Definition MAX_IMPORT_BYTES : Z := 1024 * 1024.
Definition MAX_STALE_ENV_TEMPORARIES : Z := 16.
Definition VERIFIED_MARKER : bytes := ascii_bytes "verified-v1".

Inductive SecretStoreError := Backend | AlreadyExists.
#[export] Instance SecretStoreError_eq_dec : EqDecision SecretStoreError.
Proof. solve_decision. Defined.

(** [VerificationError] is in [WsFrames], with the client that makes one. *)
Inductive ImportError :=
| SourceIo | UnsafeSource | SourceTooLarge | InvalidTargetVariable | InvalidCredential
| StoreFailed (e : SecretStoreError) | VerifyFailed (e : VerificationError)
| AlreadyImporting | AlreadyImported | InvalidInstallationIdentity.
#[export] Instance ImportError_eq_dec : EqDecision ImportError.
Proof. solve_decision. Defined.

Record VerificationReceipt := mk_verification {
  vr_event_id : text; vr_region : text; vr_model : text; vr_server_event : text; vr_transport : text;
}.

(** ** The accounts of an installation *)

Record KeychainAccounts := mk_accounts {
  ka_dashscope : text; ka_dashscope_verified : text; ka_cache_key : text; ka_device_secret : text;
}.
Definition for_installation (installation_id : text) : KeychainAccounts :=
  mk_accounts (ascii_bytes "dashscope-api-key." ++ installation_id)
    (ascii_bytes "dashscope-api-key-verified." ++ installation_id)
    (ascii_bytes "cache-encryption-key." ++ installation_id)
    (ascii_bytes "device-secret." ++ installation_id).

(** [canonical] is [Uuid::parse_str] with its [to_string]; [file] are the bytes of the
    identity's file when it opens, [generated] a fresh UUID, [replaced] whether the file could
    be replaced. *)
Definition load_or_create_accounts (canonical : text → option text) (file : option bytes) (generated : text) (replaced : bool)
    : result ImportError KeychainAccounts :=
  let? value := of_option SourceIo file in
  if 64 <? blen value then Err InvalidInstallationIdentity
  else if negb (utf8_ok value) then Err InvalidInstallationIdentity
  else if bool_decide (value = []) then
    if replaced then Ok (for_installation generated) else Err SourceIo
  else
    let? parsed := of_option InvalidInstallationIdentity (canonical value) in
    if bool_decide (parsed = value) then Ok (for_installation value) else Err InvalidInstallationIdentity.

(** ** The environment file *)

Definition trim_ascii_start (value : bytes) : bytes := skip_while is_ascii_whitespace value.
Definition trim_ascii_end (value : bytes) : bytes := rev (skip_while is_ascii_whitespace (rev value)).
Definition trim_ascii (value : bytes) : bytes := trim_ascii_end (trim_ascii_start value).

Definition parse_value (value : bytes) : result ImportError bytes :=
  let quoted q := bool_decide (head value = Some q) && bool_decide (last value = Some q) in
  if (2 <=? blen value) && (quoted 39 || quoted 34) then
    let inner := take (length value - 2) (drop 1 value) in
    if one_of inner 92 || one_of inner (byte_at value 0) then Err InvalidTargetVariable else Ok inner
  else if existsb is_ascii_whitespace value || one_of value 35 then Err InvalidTargetVariable
  else Ok value.

(** [line.iter().position(|byte| *byte == b'=')] *)
Definition position_of (b : Z) (line : bytes) : option nat := fst <$> list_find (λ x, x = b) line.

(** What a line says: nothing of the variable, or its value. *)
Definition parse_line (raw_line : bytes) : result ImportError (option bytes) :=
  let line := trim_ascii raw_line in
  let export := ascii_bytes "export" in
  let line := if has_prefix export line && head_is is_ascii_whitespace (drop (length export) line)
              then trim_ascii (drop (length export) line) else line in
  match position_of 61 line with
  | None =>
      let name := take (length line - length (skip_while (λ b, negb (is_ascii_whitespace b)) line)) line in
      if bool_decide (name = DASHSCOPE_VARIABLE) then Err InvalidTargetVariable else Ok None
  | Some equals =>
      if negb (bool_decide (trim_ascii (take equals line) = DASHSCOPE_VARIABLE)) then Ok None
      else Ok (Some (drop (S equals) line))
  end.

Fixpoint parse_lines (lines : list bytes) (target : option bytes) : result ImportError (option bytes) :=
  match lines with
  | [] => Ok target
  | raw_line :: lines =>
      let? found := parse_line raw_line in
      match found with
      | None => parse_lines lines target
      | Some value =>
          if bool_decide (is_Some target) then Err InvalidTargetVariable
          else let? value := parse_value (trim_ascii value) in parse_lines lines (Some value)
      end
  end.

Definition parse_target_value (buffer : bytes) : result ImportError bytes :=
  let? target := parse_lines (split_on 10 buffer) None in of_option InvalidTargetVariable target.

Definition is_ascii_graphic (b : Z) : bool := between 33 126 b.

Definition validate_credential (value : bytes) : result ImportError unit :=
  if negb (between 16 4096 (blen value)) || existsb (λ b, negb (is_ascii_graphic b) || (b =? 34) || (b =? 39)) value
  then Err InvalidCredential else Ok tt.

(** A source that opens: its type, owner and permission bits, whether a shared lock can be
    had, its length before, the bytes it gives, and whether its length and times are the same
    after the reading. *)
Record SourceFile := mk_source_file {
  so_regular : bool; so_own : bool; so_mode : Z; so_lockable : bool;
  so_len : Z; so_content : option bytes; so_unchanged : bool;
}.
(** What the path holds: nothing that opens safely, or a file. *)
Inductive Source := Unsafe | NoMetadata | Opened (f : SourceFile).

Definition open_import_source (require_private : bool) (source : Source) : result ImportError SourceFile :=
  match source with
  | Unsafe => Err UnsafeSource
  | NoMetadata => Err SourceIo
  | Opened f =>
      if negb (so_regular f) || negb (so_own f) || negb (Z.land (so_mode f) 18 =? 0)
         || (require_private && negb (Z.land (so_mode f) 63 =? 0))
      then Err UnsafeSource
      else if so_lockable f then Ok f else Err UnsafeSource
  end.

Definition load_target_secret_with_permissions (require_private : bool) (source : Source) : result ImportError bytes :=
  let? f := open_import_source require_private source in
  if MAX_IMPORT_BYTES <? so_len f then Err SourceTooLarge
  else
    let? content := of_option SourceIo (so_content f) in
    let buffer := take (Z.to_nat (MAX_IMPORT_BYTES + 1)) content in
    if MAX_IMPORT_BYTES <? blen buffer then Err SourceTooLarge
    else if negb (so_unchanged f) then Err UnsafeSource
    else
      let? value := parse_target_value buffer in
      let? _ := validate_credential value in
      Ok value.
Definition load_target_secret : Source → result ImportError bytes := load_target_secret_with_permissions false.
Definition load_private_target_secret : Source → result ImportError bytes := load_target_secret_with_permissions true.

(** ** The trait [SecretStore] *)

(** The operations on a store with state [S]. *)
Record SecretStore (S : Type) := mk_secret_store {
  st_get : text → S → result SecretStoreError (option bytes) * S;
  st_exists : text → S → result SecretStoreError bool * S;
  st_create : text → bytes → S → result SecretStoreError unit * S;
  st_delete : text → S → result SecretStoreError unit * S;
}.
Arguments mk_secret_store {S}.
Arguments st_get {S}.
Arguments st_exists {S}.
Arguments st_create {S}.
Arguments st_delete {S}.

(** The trait's own [exists] *)
Definition exists_by_get {S} (get : text → S → result SecretStoreError (option bytes) * S) (account : text) (s : S)
    : result SecretStoreError bool * S :=
  match get account s with
  | (Ok value, s) => (Ok (bool_decide (is_Some value)), s)
  | (Err e, s) => (Err e, s)
  end.

(** [DashScopeEnvStore]: a read-only view of the host's environment file, which [present]
    when [symlink_metadata] finds it. *)
Inductive EnvPath := EnvMissing | EnvUnreadable | EnvPresent (source : Source).
Definition env_source (p : EnvPath) : Source := match p with EnvPresent source => source | _ => Unsafe end.

Definition env_get (accounts : KeychainAccounts) (account : text) (p : EnvPath) : result SecretStoreError (option bytes) * EnvPath :=
  let load := map_err (λ _, Backend) (load_private_target_secret (env_source p)) in
  (if bool_decide (account = ka_dashscope accounts) then (let? value := load in Ok (Some value))
   else if bool_decide (account = ka_dashscope_verified accounts) then (let? _ := load in Ok (Some VERIFIED_MARKER))
   else Ok None, p).
Definition env_exists (accounts : KeychainAccounts) (account : text) (p : EnvPath) : result SecretStoreError bool * EnvPath :=
  (if negb (bool_decide (account = ka_dashscope accounts)) && negb (bool_decide (account = ka_dashscope_verified accounts))
   then Ok false
   else match p with
        | EnvPresent source => let? _ := map_err (λ _, Backend) (load_private_target_secret source) in Ok true
        | EnvMissing => Ok false
        | EnvUnreadable => Err Backend
        end, p).
Definition DashScopeEnvStore (accounts : KeychainAccounts) : SecretStore EnvPath :=
  mk_secret_store (env_get accounts) (env_exists accounts) (λ _ _ p, (Err Backend, p)) (λ _ p, (Err Backend, p)).

Definition dashscope_key_is_installed {S} (store : SecretStore S) (accounts : KeychainAccounts) (s : S)
    : result SecretStoreError bool * S :=
  match st_exists store (ka_dashscope accounts) s with
  | (Err e, s) => (Err e, s)
  | (Ok false, s) => (Ok false, s)
  | (Ok true, s) =>
      match st_get store (ka_dashscope_verified accounts) s with
      | (Err e, s) => (Err e, s)
      | (Ok marker, s) => (Ok (bool_decide (marker = Some VERIFIED_MARKER)), s)
      end
  end.

(** ** The file of the cache's key *)

(** [decode_hex_digit] *)
Definition decode_hex_digit (byte : Z) : option Z :=
  if between 48 57 byte then Some (byte - 48)
  else if between 97 102 byte then Some (byte - 97 + 10)
  else if between 65 70 byte then Some (byte - 65 + 10)
  else None.

(** The loop over [chunks_exact(2)] *)
Fixpoint decode_hex_pairs (encoded : bytes) : option bytes :=
  match encoded with
  | high :: low :: rest =>
      h ← decode_hex_digit high; l ← decode_hex_digit low; bs ← decode_hex_pairs rest;
      Some (Z.lor (Z.shiftl h 4) l :: bs)
  | _ => Some []
  end.

(** [trim_end_matches(['\r', '\n'])] *)
Definition trim_end_newlines (s : bytes) : bytes := rev (skip_while (one_of [13; 10]) (rev s)).

Record LocalFile := mk_local_file { lf_regular : bool; lf_private : bool; lf_content : bytes }.

(** How a system call goes: the replacement of the file may fail after the file is in place. *)
Inductive Step := Done | Refused | DoneButFailed.

(** The key's path and the system calls to come; they succeed when the list ends. *)
Record LocalSecret := mk_local_secret { ls_file : option LocalFile; ls_steps : list Step }.
Definition local_step (s : LocalSecret) : Step * LocalSecret :=
  match ls_steps s with
  | [] => (Done, s)
  | step :: steps => (step, mk_local_secret (ls_file s) steps)
  end.

(** From the opened file's content on *)
Definition decode_local (content : bytes) : result SecretStoreError bytes :=
  if negb (utf8_ok content) then Err Backend
  else
    let encoded := trim_end_newlines content in
    if negb (length encoded =? 64)%nat then Err Backend
    else of_option Backend (decode_hex_pairs encoded).

Definition local_get (key_account account : text) (s : LocalSecret) : result SecretStoreError (option bytes) * LocalSecret :=
  if negb (bool_decide (account = key_account)) then (Ok None, s)
  else
    match local_step s with
    | (Done, s) =>
        match ls_file s with
        | None => (Ok None, s)
        | Some f =>
            if negb (lf_regular f) || negb (lf_private f) || (65 <? blen (lf_content f)) then (Err Backend, s)
            else
              match local_step s with
              | (Done, s) => (let? key := decode_local (lf_content f) in Ok (Some key), s)
              | (_, s) => (Err Backend, s)
              end
        end
    | (_, s) => (Err Backend, s)
    end.

(** [replace_private_file] *)
Definition replace_local (content : bytes) (s : LocalSecret) : result SecretStoreError unit * LocalSecret :=
  let put s := mk_local_secret (Some (mk_local_file true true content)) (ls_steps s) in
  match local_step s with
  | (Done, s) => (Ok tt, put s)
  | (Refused, s) => (Err Backend, s)
  | (DoneButFailed, s) => (Err Backend, put s)
  end.

Definition local_create (key_account account : text) (secret : bytes) (s : LocalSecret) : result SecretStoreError unit * LocalSecret :=
  if negb (bool_decide (account = key_account)) || negb (length secret =? 32)%nat then (Err Backend, s)
  else
    match local_get key_account account s with
    | (Err e, s) => (Err e, s)
    | (Ok (Some _), s) => (Err AlreadyExists, s)
    | (Ok None, s) => replace_local (encode_hex secret ++ [10]) s
    end.

Definition LocalCacheSecretStore (accounts : KeychainAccounts) : SecretStore LocalSecret :=
  let account := ka_cache_key accounts in
  mk_secret_store (local_get account) (exists_by_get (local_get account)) (local_create account) (λ _ s, (Err Backend, s)).

(** ** A keychain *)

(** The items of the service, and how the calls to come go. *)
Record Keychain := mk_keychain { kc_items : gmap text bytes; kc_steps : list Step }.
Definition keychain_step (k : Keychain) : Step * Keychain :=
  match kc_steps k with
  | [] => (Done, k)
  | step :: steps => (step, mk_keychain (kc_items k) steps)
  end.

Definition keychain_get (account : text) (k : Keychain) : result SecretStoreError (option bytes) * Keychain :=
  match keychain_step k with
  | (Done, k) => (Ok (kc_items k !! account), k)
  | (_, k) => (Err Backend, k)
  end.
(** A call that changes the items by [f] *)
Definition keychain_change (f : gmap text bytes → gmap text bytes) (k : Keychain) : result SecretStoreError unit * Keychain :=
  match keychain_step k with
  | (Done, k) => (Ok tt, mk_keychain (f (kc_items k)) (kc_steps k))
  | (Refused, k) => (Err Backend, k)
  | (DoneButFailed, k) => (Err Backend, mk_keychain (f (kc_items k)) (kc_steps k))
  end.
Definition keychain_create (account : text) (secret : bytes) (k : Keychain) : result SecretStoreError unit * Keychain :=
  match kc_items k !! account with
  | Some _ => (Err AlreadyExists, (keychain_step k).2)
  | None => keychain_change <[account := secret]> k
  end.
Definition keychain_delete (account : text) (k : Keychain) : result SecretStoreError unit * Keychain :=
  keychain_change (delete account) k.

(** What the trait promises, as the operating system's keychain keeps it ([MacKeychainStore]):
    an item is created at most once, and a call that succeeds has done what it says. *)
Definition KeychainStore : SecretStore Keychain :=
  mk_secret_store keychain_get (exists_by_get keychain_get) keychain_create keychain_delete.

(** ** Importing a key *)

Definition St (S A : Type) : Type := S → result ImportError A * S.
Definition sret {S A} (r : result ImportError A) : St S A := λ s, (r, s).
Definition sbind {S A B} (m : St S A) (k : A → St S B) : St S B :=
  λ s, match m s with (Ok a, s) => k a s | (Err e, s) => (Err e, s) end.
(** [?] on an error of the store *)
Definition stored {S A} (m : S → result SecretStoreError A * S) : St S A :=
  λ s, match m s with (Ok a, s) => (Ok a, s) | (Err e, s) => (Err (StoreFailed e), s) end.

Declare Scope secret_scope.
Delimit Scope secret_scope with secret.
#[global] Open Scope secret_scope.
Notation "'let$' x ':=' m 'in' k" := (sbind m (λ x, k))
  (at level 10, x binder, m at level 100, k at level 200) : secret_scope.

Section import.
Context {S : Type} (store readback_store : SecretStore S) (verify : bytes → result VerificationError VerificationReceipt).
Context (accounts : KeychainAccounts).

(** [store.delete(..)?; return Err(e)] *)
Definition give_up_key {A} (e : ImportError) : St S A :=
  let$ _ := stored (st_delete store (ka_dashscope accounts)) in sret (Err e).

(** From the created item on: read back, verified, marked. *)
Definition verify_stored : St S VerificationReceipt := λ s,
  match st_get readback_store (ka_dashscope accounts) s with
  | (Ok None, s) => give_up_key (StoreFailed Backend) s
  | (Err e, s) => give_up_key (StoreFailed e) s
  | (Ok (Some key), s) =>
      match verify key with
      | Err e => give_up_key (VerifyFailed e) s
      | Ok receipt =>
          match st_create store (ka_dashscope_verified accounts) VERIFIED_MARKER s with
          | (Ok _, s) => (Ok receipt, s)
          | (Err e, s) => give_up_key (StoreFailed e) s
          end
      end
  end.

Definition import_dashscope_key (source : Source) : St S VerificationReceipt :=
  let$ active_exists := stored (st_exists store (ka_dashscope accounts)) in
  let$ marker := stored (st_get store (ka_dashscope_verified accounts)) in
  if active_exists && bool_decide (marker = Some VERIFIED_MARKER) then sret (Err AlreadyImported)
  else
    let$ _ := if bool_decide (is_Some marker) then stored (st_delete store (ka_dashscope_verified accounts)) else sret (Ok tt) in
    let$ _ := if active_exists then stored (st_delete store (ka_dashscope accounts)) else sret (Ok tt) in
    let$ candidate := sret (load_target_secret source) in
    let$ _ := stored (st_create store (ka_dashscope accounts) candidate) in
    verify_stored.

Definition remove_legacy_dashscope_items : S → result SecretStoreError unit * S := λ s,
  match st_delete store (ka_dashscope accounts) s with
  | (Ok _, s) => st_delete store (ka_dashscope_verified accounts) s
  | (Err e, s) => (Err e, s)
  end.

End import.

(** ** Configuring the host's environment file *)

(** An entry of its directory: the name, when it is UTF-8, what [fstatat] says of it (a
    regular file of the user with one link and private, and its size), and whether it can be
    unlinked. *)
Record DirEntry := mk_dir_entry { de_name : option text; de_stat : option (bool * Z); de_unlinks : bool }.

(** [.NAME.<uuid>.tmp] *)
Definition temporary_of `{Externals} (target_name name : text) : bool :=
  let prefix := ascii_bytes "." ++ target_name ++ ascii_bytes "." in
  let rest := drop (length prefix) name in
  let stem := take (length rest - 4) rest in
  has_prefix prefix name && bool_decide (drop (length rest - 4) rest = ascii_bytes ".tmp") && (4 <=? length rest)%nat && uuid_ok stem.

(** The loop: what is left of the directory, how many entries matched, and the result. *)
Fixpoint cleanup_entries `{Externals} (target_name : text) (entries : list DirEntry) (matched : Z)
    : result ImportError Z * list DirEntry :=
  match entries with
  | [] => (Ok matched, [])
  | e :: entries =>
      let keep r := (r.1, e :: r.2) in
      match de_name e with
      | Some name =>
          if negb (temporary_of target_name name) then keep (cleanup_entries target_name entries matched)
          else
            let matched := matched + 1 in
            if MAX_STALE_ENV_TEMPORARIES <? matched then (Err UnsafeSource, e :: entries)
            else
              match de_stat e with
              | None => (Err SourceIo, e :: entries)
              | Some (private, size) =>
                  if negb private || (size <? 0) || (MAX_IMPORT_BYTES <? size) then (Err UnsafeSource, e :: entries)
                  else if de_unlinks e then cleanup_entries target_name entries matched
                  else (Err SourceIo, e :: entries)
              end
      | None => keep (cleanup_entries target_name entries matched)
      end
  end.

(** The directory of the environment file: its name there, whether the directory can be
    opened, listed and synced, its entries, and the environment file itself. *)
Record EnvDir := mk_env_dir {
  ed_name : text; ed_opens : bool; ed_lists : bool; ed_syncs : bool; ed_entries : list DirEntry; ed_target : EnvPath;
}.
Definition set_entries_of (entries : list DirEntry) (d : EnvDir) : EnvDir :=
  mk_env_dir (ed_name d) (ed_opens d) (ed_lists d) (ed_syncs d) entries (ed_target d).
Definition set_env_target (target : EnvPath) (d : EnvDir) : EnvDir :=
  mk_env_dir (ed_name d) (ed_opens d) (ed_lists d) (ed_syncs d) (ed_entries d) target.

Definition cleanup_dashscope_env_temporaries `{Externals} (d : EnvDir) : result ImportError unit * EnvDir :=
  if negb (ed_opens d) then (Err UnsafeSource, d)
  else if negb (ed_lists d) then (Err SourceIo, d)
  else
    match cleanup_entries (ed_name d) (ed_entries d) 0 with
    | (Err e, entries) => (Err e, set_entries_of entries d)
    | (Ok matched, entries) =>
        (if (0 <? matched) && negb (ed_syncs d) then Err SourceIo else Ok tt, set_entries_of entries d)
    end.

Definition env_line (candidate : bytes) : bytes := DASHSCOPE_VARIABLE ++ [61] ++ candidate ++ [10].

(** A private file with this content, which nobody else changes. *)
Definition written (content : bytes) : EnvPath :=
  EnvPresent (Opened (mk_source_file true true 384 true (blen content) (Some content) true)).

(** [replaced] is how [replace_private_file] goes, and [reads] whether the reading back meets
    no error of the system. *)
Definition configure_dashscope_env `{Externals} (verify : bytes → result VerificationError VerificationReceipt)
    (replaced : Step) (reads : bool) (source : Source) (d : EnvDir) : result ImportError VerificationReceipt * EnvDir :=
  match cleanup_dashscope_env_temporaries d with
  | (Err e, d) => (Err e, d)
  | (Ok _, d) =>
      match load_target_secret source with
      | Err e => (Err e, d)
      | Ok candidate =>
          match verify candidate with
          | Err e => (Err (VerifyFailed e), d)
          | Ok receipt =>
              let d' := match replaced with Refused => d | _ => set_env_target (written (env_line candidate)) d end in
              let readback := if reads then load_private_target_secret (env_source (ed_target d')) else Err SourceIo in
              (match replaced with
               | Done =>
                   let? current := readback in
                   if bool_decide (current = candidate) then Ok receipt else Err SourceIo
               | _ =>
                   match readback with
                   | Ok current => if bool_decide (current = candidate) then Ok receipt else Err SourceIo
                   | Err _ => Err SourceIo
                   end
               end, d')
          end
      end
  end.

(** ** Hexadecimal text *)

Definition hex_char (c : Z) : Prop := 48 <= c < 103.

Lemma hex_digit_char n : 0 ≤ n < 16 → hex_char (hex_digit n) ∧ decode_hex_digit (hex_digit n) = Some n.
Proof.
  intros Hn. unfold hex_char, hex_digit, decode_hex_digit, between. destruct (n <? 10) eqn:E; bool_prop.
  - replace ((48 <=? 48 + n) && (48 + n <=? 57)) with true by lia. split; [lia|]. f_equal. lia.
  - replace ((48 <=? 87 + n) && (87 + n <=? 57)) with false by lia.
    replace ((97 <=? 87 + n) && (87 + n <=? 102)) with true by lia. split; [lia|]. f_equal. lia.
Qed.

Lemma hex_chars b : bytes_ok b → Forall hex_char (encode_hex b).
Proof.
  induction 1 as [|x b Hx Hb IH]; [constructor|]. rewrite encode_hex_cons.
  destruct (nibbles x Hx) as (H1 & H2 & _). constructor; [by apply hex_digit_char|]. constructor; [by apply hex_digit_char|done].
Qed.

Lemma hex_utf8 s : Forall hex_char s → utf8_ok (s ++ [10]) = true.
Proof.
  induction 1 as [|c s Hc _ IH]; [done|]. cbn [app utf8_ok]. unfold hex_char in Hc.
  rewrite utf8_char_one. unfold between. replace ((0 <=? c) && (c <=? 127)) with true by lia. exact IH.
Qed.

Lemma decode_hex_pairs_encode b : bytes_ok b → decode_hex_pairs (encode_hex b) = Some b.
Proof.
  induction 1 as [|x b Hx _ IH]; [done|]. rewrite encode_hex_cons. cbn [decode_hex_pairs].
  destruct (nibbles x Hx) as (H1 & H2 & H3). rewrite (proj2 (hex_digit_char _ H1)), (proj2 (hex_digit_char _ H2)). cbn [mbind option_bind].
  rewrite IH. cbn [mbind option_bind]. by rewrite H3.
Qed.
