(* ===== verification/TtsSession.v ===== *)
(** * The speech session over a WebSocket (app/host/src/dashscope.rs)

    [run_tts_session] opens a session, sends one text and commits it, and then follows the
    service's events until [response.done].  From the commit on the request may be billed:
    no failure after it may be retried.  [serde_json] and [base64] are parameters. *)

From stdpp Require Import gmap.
From S2P Require Import Prelude Bytes StrOps CacheRef StoreTypes Redact TurnPack Audio TtsCache WsFrames.

Definition DASHSCOPE_VERIFICATION_MODEL : text := ascii_bytes "qwen3-tts-instruct-flash-realtime".
Definition DASHSCOPE_VERIFICATION_MODEL_SNAPSHOT : text :=
  ascii_bytes "qwen3-tts-instruct-flash-realtime-2026-01-22".
Definition MAX_TTS_PCM_BYTES : Z := TTS_SAMPLE_RATE * MAX_TTS_SECONDS * 2.
Definition MAX_TTS_SERVER_EVENTS : Z := 32768.
Definition MAX_TTS_AUDIO_DELTAS : Z := 16384.

Record TtsRequest := mk_request { tr_text : text; tr_voice : text; tr_instructions : text }.

Inductive TransportRoute := Direct | HttpsProxy.
Definition route_as_str (r : TransportRoute) : text :=
  match r with Direct => ascii_bytes "direct" | HttpsProxy => ascii_bytes "https_proxy" end.

Record AttemptFailure := mk_failure { af_error : TtsError; af_retryable : bool }.
#[export] Instance AttemptFailure_eq_dec : EqDecision AttemptFailure.
Proof. solve_decision. Defined.

Definition terminal (e : TtsError) : AttemptFailure := mk_failure e false.
Definition retryable (e : TtsError) : AttemptFailure := mk_failure e true.
Definition ambiguous_after_commit : AttemptFailure := terminal TtsAmbiguousAfterCommit.
Definition protocol_failure (request_submitted : bool) : AttemptFailure :=
  if request_submitted then ambiguous_after_commit else terminal TtsProtocol.
Definition retry_before_commit (failure : AttemptFailure) : AttemptFailure :=
  if decide (af_error failure = TtsUnavailable) then retryable TtsUnavailable else failure.

(** What the session takes from [serde_json] and [base64] besides parsing. *)
Class SpeechExternals := {
  json_to_vec : json → option bytes;
  base64_decode : bytes → option bytes;
}.

(** ** Reading JSON ([Value::get], [Value::pointer], [Value::as_u64]) *)

Definition member (k : string) (v : json) : option json := as_object v ≫= get (key k).
Definition pointer (path : list string) (v : json) : option json :=
  foldl (λ v k, v ≫= member k) (Some v) path.
Definition json_u64 (v : json) : option Z :=
  match v with
  | JNumber literal =>
      if negb (length literal =? 0)%nat && forallb is_digit literal
         && (dec_value literal <=? u64_max)
      then Some (dec_value literal) else None
  | _ => None
  end.
Definition is_str (s : text) (v : option json) : bool := bool_decide (v ≫= as_str = Some s).
Definition is_text (s : string) (v : option json) : bool := is_str (key s) v.
Definition is_u64 (n : Z) (v : option json) : bool := bool_decide (v ≫= json_u64 = Some n).

Definition is_empty_array (v : option json) : bool :=
  match v ≫= as_array with Some [] => true | _ => false end.

Definition valid_service_event_id (value : text) : bool :=
  negb (length value =? 0)%nat && (length value <=? 256)%nat
  && forallb (λ b, is_alnum b || one_of [45; 95; 46; 58] b) value.

Definition service_id (value : option json) (request_submitted : bool) : result AttemptFailure text :=
  match value ≫= as_str with
  | Some value => if valid_service_event_id value then Ok value else Err (protocol_failure request_submitted)
  | None => Err (protocol_failure request_submitted)
  end.
Definition require_service_id (value : option json) (allow_empty request_submitted : bool)
    : result AttemptFailure unit :=
  let? value := of_option (protocol_failure request_submitted) (value ≫= as_str) in
  require (allow_empty && (length value =? 0)%nat || valid_service_event_id value)
    (protocol_failure request_submitted).

(** ** The state of a session *)

Record TtsSessionState := mk_session {
  ss_model : text;
  ss_session_id : text;
  ss_response_id : option text;
  ss_item_id : option text;
  ss_committed : bool;
  ss_request_submitted : bool;
  ss_output_item_added : bool;
  ss_content_part_added : bool;
  ss_audio_done : bool;
  ss_content_part_done : bool;
  ss_output_item_done : bool;
  ss_response_done : bool;
  ss_received_audio : bool;
  ss_characters : option Z;
  ss_server_event_ids : gset text;
  ss_server_events : Z;
  ss_audio_deltas : Z;
  ss_pcm : bytes;
}.

(** The assignments of the source. *)
Definition set_response_id (v : text) (s : TtsSessionState) : TtsSessionState :=
  mk_session (ss_model s) (ss_session_id s) (Some v) (ss_item_id s) (ss_committed s)
    (ss_request_submitted s) (ss_output_item_added s) (ss_content_part_added s) (ss_audio_done
    s) (ss_content_part_done s) (ss_output_item_done s) (ss_response_done s) (ss_received_audio
    s) (ss_characters s) (ss_server_event_ids s) (ss_server_events s) (ss_audio_deltas s)
    (ss_pcm s).
Definition set_item_id (v : text) (s : TtsSessionState) : TtsSessionState :=
  mk_session (ss_model s) (ss_session_id s) (ss_response_id s) (Some v) (ss_committed s)
    (ss_request_submitted s) (ss_output_item_added s) (ss_content_part_added s) (ss_audio_done
    s) (ss_content_part_done s) (ss_output_item_done s) (ss_response_done s) (ss_received_audio
    s) (ss_characters s) (ss_server_event_ids s) (ss_server_events s) (ss_audio_deltas s)
    (ss_pcm s).
Definition mark_committed (s : TtsSessionState) : TtsSessionState :=
  mk_session (ss_model s) (ss_session_id s) (ss_response_id s) (ss_item_id s) true
    (ss_request_submitted s) (ss_output_item_added s) (ss_content_part_added s) (ss_audio_done
    s) (ss_content_part_done s) (ss_output_item_done s) (ss_response_done s) (ss_received_audio
    s) (ss_characters s) (ss_server_event_ids s) (ss_server_events s) (ss_audio_deltas s)
    (ss_pcm s).
Definition mark_request_submitted (s : TtsSessionState) : TtsSessionState :=
  mk_session (ss_model s) (ss_session_id s) (ss_response_id s) (ss_item_id s) (ss_committed s)
    true (ss_output_item_added s) (ss_content_part_added s) (ss_audio_done s)
    (ss_content_part_done s) (ss_output_item_done s) (ss_response_done s) (ss_received_audio s)
    (ss_characters s) (ss_server_event_ids s) (ss_server_events s) (ss_audio_deltas s) (ss_pcm
    s).
Definition mark_output_item_added (s : TtsSessionState) : TtsSessionState :=
  mk_session (ss_model s) (ss_session_id s) (ss_response_id s) (ss_item_id s) (ss_committed s)
    (ss_request_submitted s) true (ss_content_part_added s) (ss_audio_done s)
    (ss_content_part_done s) (ss_output_item_done s) (ss_response_done s) (ss_received_audio s)
    (ss_characters s) (ss_server_event_ids s) (ss_server_events s) (ss_audio_deltas s) (ss_pcm
    s).
Definition mark_content_part_added (s : TtsSessionState) : TtsSessionState :=
  mk_session (ss_model s) (ss_session_id s) (ss_response_id s) (ss_item_id s) (ss_committed s)
    (ss_request_submitted s) (ss_output_item_added s) true (ss_audio_done s)
    (ss_content_part_done s) (ss_output_item_done s) (ss_response_done s) (ss_received_audio s)
    (ss_characters s) (ss_server_event_ids s) (ss_server_events s) (ss_audio_deltas s) (ss_pcm
    s).
Definition set_audio_done (s : TtsSessionState) : TtsSessionState :=
  mk_session (ss_model s) (ss_session_id s) (ss_response_id s) (ss_item_id s) (ss_committed s)
    (ss_request_submitted s) (ss_output_item_added s) (ss_content_part_added s) true
    (ss_content_part_done s) (ss_output_item_done s) (ss_response_done s) (ss_received_audio s)
    (ss_characters s) (ss_server_event_ids s) (ss_server_events s) (ss_audio_deltas s) (ss_pcm
    s).
Definition mark_content_part_done (s : TtsSessionState) : TtsSessionState :=
  mk_session (ss_model s) (ss_session_id s) (ss_response_id s) (ss_item_id s) (ss_committed s)
    (ss_request_submitted s) (ss_output_item_added s) (ss_content_part_added s) (ss_audio_done
    s) true (ss_output_item_done s) (ss_response_done s) (ss_received_audio s) (ss_characters s)
    (ss_server_event_ids s) (ss_server_events s) (ss_audio_deltas s) (ss_pcm s).
Definition mark_output_item_done (s : TtsSessionState) : TtsSessionState :=
  mk_session (ss_model s) (ss_session_id s) (ss_response_id s) (ss_item_id s) (ss_committed s)
    (ss_request_submitted s) (ss_output_item_added s) (ss_content_part_added s) (ss_audio_done
    s) (ss_content_part_done s) true (ss_response_done s) (ss_received_audio s) (ss_characters
    s) (ss_server_event_ids s) (ss_server_events s) (ss_audio_deltas s) (ss_pcm s).
Definition set_response_done (characters : option Z) (s : TtsSessionState) : TtsSessionState :=
  mk_session (ss_model s) (ss_session_id s) (ss_response_id s) (ss_item_id s) (ss_committed s)
    (ss_request_submitted s) (ss_output_item_added s) (ss_content_part_added s) (ss_audio_done
    s) (ss_content_part_done s) (ss_output_item_done s) true (ss_received_audio s) characters
    (ss_server_event_ids s) (ss_server_events s) (ss_audio_deltas s) (ss_pcm s).
Definition add_event_id (event_id : text) (s : TtsSessionState) : TtsSessionState :=
  mk_session (ss_model s) (ss_session_id s) (ss_response_id s) (ss_item_id s) (ss_committed s)
    (ss_request_submitted s) (ss_output_item_added s) (ss_content_part_added s) (ss_audio_done
    s) (ss_content_part_done s) (ss_output_item_done s) (ss_response_done s) (ss_received_audio
    s) (ss_characters s) ({[event_id]} ∪ ss_server_event_ids s) (ss_server_events s + 1)
    (ss_audio_deltas s) (ss_pcm s).
Definition count_delta (s : TtsSessionState) : TtsSessionState :=
  mk_session (ss_model s) (ss_session_id s) (ss_response_id s) (ss_item_id s) (ss_committed s)
    (ss_request_submitted s) (ss_output_item_added s) (ss_content_part_added s) (ss_audio_done
    s) (ss_content_part_done s) (ss_output_item_done s) (ss_response_done s) (ss_received_audio
    s) (ss_characters s) (ss_server_event_ids s) (ss_server_events s) (ss_audio_deltas s + 1)
    (ss_pcm s).
Definition extend_pcm (decoded : bytes) (s : TtsSessionState) : TtsSessionState :=
  mk_session (ss_model s) (ss_session_id s) (ss_response_id s) (ss_item_id s) (ss_committed s)
    (ss_request_submitted s) (ss_output_item_added s) (ss_content_part_added s) (ss_audio_done
    s) (ss_content_part_done s) (ss_output_item_done s) (ss_response_done s) true (ss_characters
    s) (ss_server_event_ids s) (ss_server_events s) (ss_audio_deltas s) (ss_pcm s ++ decoded).

(** ** The service's events *)

Section events.
Context `{SpeechExternals}.

(** [protocol_failure(state.request_submitted)] *)
Definition state_failure (s : TtsSessionState) : AttemptFailure := protocol_failure (ss_request_submitted s).

Definition event_type (event : json) : option text := member "type" event ≫= as_str.

Definition parse_created (event : json) : result AttemptFailure (text * text * text) :=
  if negb (is_text "session.created" (member "type" event)) then Err (terminal TtsProtocol)
  else
    let? event_id := service_id (member "event_id" event) false in
    let? model :=
      match pointer ["session"; "model"] event ≫= as_str with
      | Some m =>
          if bool_decide (m = DASHSCOPE_VERIFICATION_MODEL) then Ok DASHSCOPE_VERIFICATION_MODEL
          else if bool_decide (m = DASHSCOPE_VERIFICATION_MODEL_SNAPSHOT)
          then Ok DASHSCOPE_VERIFICATION_MODEL_SNAPSHOT
          else Err (terminal TtsProtocol)
      | None => Err (terminal TtsProtocol)
      end in
    let? session_id := service_id (pointer ["session"; "id"] event) false in
    Ok (model, session_id, event_id).

Definition register_event (event : json) (s : TtsSessionState) : result AttemptFailure TtsSessionState :=
  if MAX_TTS_SERVER_EVENTS <=? ss_server_events s then Err (state_failure s)
  else
    let? event_id := service_id (member "event_id" event) (ss_request_submitted s) in
    if decide (event_id ∈ ss_server_event_ids s) then Err (state_failure s)
    else Ok (add_event_id event_id s).

Definition validate_updated (event : json) (s : TtsSessionState) (voice : text) : result AttemptFailure unit :=
  let? session := of_option (protocol_failure false) (member "session" event) in
  if negb (is_text "session.updated" (member "type" event))
     || negb (is_str (ss_session_id s) (member "id" session))
     || negb (is_str (ss_model s) (member "model" session))
     || negb (is_str voice (member "voice" session))
     || negb (is_text "commit" (member "mode" session))
     || negb (is_text "pcm" (member "response_format" session))
     || negb (is_u64 TTS_SAMPLE_RATE (member "sample_rate" session))
  then Err (protocol_failure false) else Ok tt.

Definition bind_item_id (item_id : text) (s : TtsSessionState) : result AttemptFailure TtsSessionState :=
  match ss_item_id s with
  | Some existing => if bool_decide (existing = item_id) then Ok s else Err (state_failure s)
  | None => Ok (set_item_id item_id s)
  end.

Definition input_committed (event : json) (s : TtsSessionState) : result AttemptFailure TtsSessionState :=
  if ss_committed s || bool_decide (is_Some (ss_response_id s)) then Err (state_failure s)
  else
    let? _ := require_service_id (member "item_id" event) true (ss_request_submitted s) in
    Ok (mark_committed s).

Definition parse_response_created (event : json) (voice : text) (s : TtsSessionState)
    : result AttemptFailure TtsSessionState :=
  if negb (ss_committed s) || bool_decide (is_Some (ss_response_id s)) then Err (state_failure s)
  else
    let? response := of_option (state_failure s) (member "response" event) in
    let? response_id := service_id (member "id" response) (ss_request_submitted s) in
    if negb (is_text "realtime.response" (member "object" response))
       || negb (is_text "in_progress" (member "status" response))
       || negb (is_str voice (member "voice" response))
       || negb (is_empty_array (member "output" response))
    then Err (state_failure s) else Ok (set_response_id response_id s).

(** [state.response_id.as_deref().ok_or_else(..)?], and the event's [response_id] is that one. *)
Definition of_this_response (event : json) (s : TtsSessionState) : bool :=
  match ss_response_id s with
  | Some response_id => is_str response_id (member "response_id" event)
  | None => false
  end.

Definition content_part_event (done : bool) (event : json) (s : TtsSessionState)
    : result AttemptFailure TtsSessionState :=
  let lifecycle_valid :=
    if done
    then ss_output_item_added s && ss_content_part_added s && ss_audio_done s
         && negb (ss_content_part_done s) && negb (ss_output_item_done s)
    else ss_output_item_added s && negb (ss_content_part_added s) && negb (ss_received_audio s)
         && negb (ss_audio_done s) && negb (ss_content_part_done s) && negb (ss_output_item_done s) in
  if negb lifecycle_valid then Err (state_failure s)
  else
    let? item_id := service_id (member "item_id" event) (ss_request_submitted s) in
    let? s := bind_item_id item_id s in
    if negb (is_u64 0 (member "content_index" event))
       || negb (is_text "audio" (pointer ["part"; "type"] event))
    then Err (state_failure s)
    else Ok (if done then mark_content_part_done s else mark_content_part_added s).

Definition output_item_event (done : bool) (event : json) (s : TtsSessionState)
    : result AttemptFailure TtsSessionState :=
  let lifecycle_valid :=
    if done then ss_output_item_added s && ss_content_part_done s && negb (ss_output_item_done s)
    else negb (ss_output_item_added s) && negb (ss_content_part_added s) && negb (ss_received_audio s)
         && negb (ss_audio_done s) && negb (ss_content_part_done s) && negb (ss_output_item_done s) in
  if negb lifecycle_valid then Err (state_failure s)
  else
    let? item_id := service_id (pointer ["item"; "id"] event) (ss_request_submitted s) in
    let? s := bind_item_id item_id s in
    let expected_status := if done then "completed" else "in_progress" in
    if negb (is_text "realtime.item" (pointer ["item"; "object"] event))
       || negb (is_text "message" (pointer ["item"; "type"] event))
       || negb (is_text "assistant" (pointer ["item"; "role"] event))
       || negb (is_text expected_status (pointer ["item"; "status"] event))
    then Err (state_failure s)
    else Ok (if done then mark_output_item_done s else mark_output_item_added s).

Definition validate_response_scaffold (event : json) (s : TtsSessionState)
    : result AttemptFailure TtsSessionState :=
  if negb (of_this_response event s) then Err (state_failure s)
  else if negb (is_u64 0 (member "output_index" event)) then Err (state_failure s)
  else if is_text "response.content_part.added" (member "type" event) then content_part_event false event s
  else if is_text "response.content_part.done" (member "type" event) then content_part_event true event s
  else if is_text "response.output_item.added" (member "type" event) then output_item_event false event s
  else if is_text "response.output_item.done" (member "type" event) then output_item_event true event s
  else Err (state_failure s).

Definition validate_audio_identity (event : json) (s : TtsSessionState)
    : result AttemptFailure TtsSessionState :=
  let? _ := require (bool_decide (is_Some (ss_response_id s))) (state_failure s) in
  let? item_id := service_id (member "item_id" event) (ss_request_submitted s) in
  if negb (of_this_response event s)
     || negb (is_u64 0 (member "output_index" event))
     || negb (is_u64 0 (member "content_index" event))
  then Err (state_failure s) else bind_item_id item_id s.

Definition append_audio_delta (event : json) (s : TtsSessionState) : result AttemptFailure TtsSessionState :=
  let? s := validate_audio_identity event s in
  if negb (ss_output_item_added s) || negb (ss_content_part_added s) || ss_audio_done s
  then Err (state_failure s)
  else if MAX_TTS_AUDIO_DELTAS <=? ss_audio_deltas s then Err (state_failure s)
  else
    let s := count_delta s in
    let? delta := of_option (state_failure s) (member "delta" event ≫= as_str) in
    let? decoded := of_option (state_failure s) (base64_decode delta) in
    if (length decoded =? 0)%nat || negb (Nat.even (length decoded)) then Err (state_failure s)
    else if MAX_TTS_PCM_BYTES <? blen (ss_pcm s) + blen decoded then Err ambiguous_after_commit
    else Ok (extend_pcm decoded s).

Definition mark_audio_done (event : json) (s : TtsSessionState) : result AttemptFailure TtsSessionState :=
  let? s := validate_audio_identity event s in
  if negb (ss_output_item_added s) || negb (ss_content_part_added s) || ss_audio_done s
     || negb (ss_received_audio s) || ss_content_part_done s || ss_output_item_done s
  then Err (state_failure s) else Ok (set_audio_done s).

Definition mark_response_done (event : json) (s : TtsSessionState) : result AttemptFailure TtsSessionState :=
  if negb (ss_audio_done s) || negb (ss_content_part_done s) || negb (ss_output_item_done s)
     || ss_response_done s
  then Err (state_failure s)
  else
    let? response := of_option (state_failure s) (member "response" event) in
    if negb (bool_decide (member "id" response ≫= as_str = ss_response_id s))
       || negb (is_text "realtime.response" (member "object" response))
       || negb (is_text "completed" (member "status" response))
    then Err (state_failure s)
    else Ok (set_response_done (pointer ["usage"; "characters"] response ≫= json_u64) s).

Definition classify_tts_service_error (event : json) (request_submitted : bool) : AttemptFailure :=
  let code := lowercase (default [] (pointer ["error"; "code"] event ≫= as_str)) in
  let has k := contains (ascii_bytes k) code in
  let kind :=
    if has "rate" || has "throttl" || has "429" then TtsRateLimited
    else if has "auth" || has "credential" || has "401" then TtsRejected
    else if has "server" || has "internal" || has "unavailable" then TtsUnavailable
    else TtsProtocol in
  if request_submitted then ambiguous_after_commit
  else match kind with
       | TtsRateLimited | TtsUnavailable => retryable kind
       | _ => terminal kind
       end.

(** The body of the loop over the response's events, after the event was read. *)
Definition handle_event (voice : text) (event : json) (s : TtsSessionState)
    : result AttemptFailure TtsSessionState :=
  let? s := register_event event s in
  let? _ := of_option (protocol_failure true) (event_type event) in
  let named k := is_text k (member "type" event) in
  if named "input_text_buffer.committed" then input_committed event s
  else if named "response.created" then parse_response_created event voice s
  else if named "response.output_item.added" || named "response.content_part.added"
          || named "response.content_part.done" || named "response.output_item.done"
  then validate_response_scaffold event s
  else if named "response.audio.delta" then append_audio_delta event s
  else if named "response.audio.done" then mark_audio_done event s
  else if named "response.done" then mark_response_done event s
  else if named "error" then Err (classify_tts_service_error event (ss_request_submitted s))
  else Err (state_failure s).
End events.

(** ** The session *)

Section session.
Context `{Uuids, Serde, SpeechExternals}.

(** One turn of the loop of [read_tts_event]: [None] when the loop goes on. *)
Definition read_event_step (request_submitted : bool) : Io AttemptFailure (option json) :=
  let^ frame :=
    iomap_err
      (λ e, match e with
            | Unavailable =>
                if request_submitted then ambiguous_after_commit else retryable TtsUnavailable
            | _ => protocol_failure request_submitted
            end) read_server_frame in
  if one_of [0x0; 0x1] (sf_opcode frame) then
    let^ assembled := iomap_err (λ _, protocol_failure request_submitted) (assemble_text_frame frame) in
    match assembled with
    | Some payload =>
        iolift (of_option (protocol_failure request_submitted) (Some <$> json_from_slice payload))
    | None => ioret None
    end
  else if sf_opcode frame =? 0x8 then iofail (protocol_failure request_submitted)
  else if sf_opcode frame =? 0x9 then
    let^ _ :=
      iomap_err (λ _, if request_submitted then ambiguous_after_commit else retryable TtsUnavailable)
        (write_masked_pong (sf_payload frame)) in
    ioret None
  else if sf_opcode frame =? 0xA then ioret None
  else iofail (protocol_failure request_submitted).

Definition read_tts_event (request_submitted : bool) : Io AttemptFailure json :=
  frame_loop (read_event_step request_submitted) (protocol_failure request_submitted).

(** [format!("event_{}", id.simple())] *)
Definition event_id_text (id : bytes) : text :=
  key "event_" ++ mjoin ((λ b, [hex_digit (b / 16); hex_digit (b mod 16)]) <$> id).

(** [format!("event_{}", Uuid::new_v4().simple())] *)
Definition client_event_id {E} : Io E text :=
  let^ id := draw_uuid in ioret (event_id_text id).

Definition send_client_event (event : json) : Io AttemptFailure unit :=
  let^ payload := iolift (of_option (terminal TtsProtocol) (json_to_vec event)) in
  if (MAX_SERVER_EVENT_BYTES <? length payload)%nat then iofail (terminal TtsInvalidRequest)
  else iomap_err (λ _, terminal TtsUnavailable) (write_masked_text payload).

(** The client's events, in the order they are sent. *)
Definition session_update_event (request : TtsRequest) (event_id : text) : json :=
  JObject
    [(key "event_id", JString event_id);
     (key "type", JString (key "session.update"));
     (key "session", JObject
        [(key "voice", JString (tr_voice request));
         (key "mode", JString (key "commit"));
         (key "language_type", JString (key "Auto"));
         (key "response_format", JString (key "pcm"));
         (key "sample_rate", JNumber (u64_to_string TTS_SAMPLE_RATE));
         (key "instructions", JString (tr_instructions request));
         (key "optimize_instructions", JBool false)])].
Definition append_event (request : TtsRequest) (event_id : text) : json :=
  JObject
    [(key "event_id", JString event_id);
     (key "type", JString (key "input_text_buffer.append"));
     (key "text", JString (tr_text request))].
Definition commit_event (event_id : text) : json :=
  JObject
    [(key "event_id", JString event_id); (key "type", JString (key "input_text_buffer.commit"))].
Definition finish_event (event_id : text) : json :=
  JObject [(key "event_id", JString event_id); (key "type", JString (key "session.finish"))].

Definition send (event : text → json) : Io AttemptFailure unit :=
  let^ event_id := client_event_id in send_client_event (event event_id).

(** [while !state.response_done]: [register_event] lets at most [MAX_TTS_SERVER_EVENTS]
    events through ([response_loop_step] is the loop's own equation). *)
Fixpoint response_loop_fuel (fuel : nat) (voice : text) (s : TtsSessionState)
    : Io AttemptFailure TtsSessionState :=
  if ss_response_done s then ioret s
  else
    match fuel with
    | O => iofail (protocol_failure true)
    | S fuel =>
        let^ event := read_tts_event true in
        let^ s := iolift (handle_event voice event s) in
        response_loop_fuel fuel voice s
    end.
Definition response_loop (voice : text) (s : TtsSessionState) : Io AttemptFailure TtsSessionState :=
  response_loop_fuel (Z.to_nat MAX_TTS_SERVER_EVENTS) voice s.

Definition new_session (model session_id event_id : text) : TtsSessionState :=
  mk_session model session_id None None false false false false false false false false false
    None {[event_id]} 1 0 [].

(** The best-effort end: nothing that happens here is reported. *)
Definition teardown (s : TtsSessionState) : Io AttemptFailure TtsSessionState :=
  let^ sent := iotry (send finish_event) in
  let^ s :=
    match sent with
    | Ok _ =>
        let^ finished := iotry (read_tts_event true) in
        ioret (match finished with
               | Ok finished => match register_event finished s with Ok s => s | Err _ => s end
               | Err _ => s
               end)
    | Err _ => ioret s
    end in
  let^ _ := iotry (write_masked_close (be_bytes_of 2 1000)) in
  let^ _ := iotry await_peer_close in
  ioret s.

(** [let mut fragmented = None] *)
Definition fresh_fragments {E} : Io E unit := λ c, (Ok tt, with_fragmented None c).

(** [run_tts_session] up to the commit: the session's state. *)
Definition open_session (request : TtsRequest) : Io AttemptFailure TtsSessionState :=
  let^ _ := fresh_fragments in
  let^ created := read_tts_event false in
  let^ '(model, session_id, event_id) := iolift (parse_created created) in
  let s := new_session model session_id event_id in
  let^ _ := iomap_err retry_before_commit (send (session_update_event request)) in
  let^ updated := read_tts_event false in
  let^ s := iolift (register_event updated s) in
  let^ _ := iolift (validate_updated updated s (tr_voice request)) in
  let^ _ := iomap_err retry_before_commit (send (append_event request)) in
  ioret s.

Definition run_tts_session (request : TtsRequest) (transport : TransportRoute)
    : Io AttemptFailure TtsAudio :=
  let^ s := open_session request in
  let s := mark_request_submitted s in
  let^ _ := iomap_err (λ _, ambiguous_after_commit) (send commit_event) in
  let^ s := response_loop (tr_voice request) s in
  let^ s := teardown s in
  ioret {| ta_pcm := ss_pcm s; ta_model := ss_model s; ta_voice := tr_voice request;
           ta_sample_rate := TTS_SAMPLE_RATE; ta_samples := Z.of_nat (length (ss_pcm s) / 2);
           ta_characters := ss_characters s; ta_transport := route_as_str transport;
           ta_attempts := 1 |}.
End session.
