(* ===== verification/TtsSays.v ===== *)
(** * The speech session: the events read

    A successful read of an event is a framed message of the stream, and every framed
    message is read ([read_tts_event_wire], [read_tts_event_framed]). *)

From stdpp Require Import gmap.
From S2P Require Import Prelude Bytes StrOps CacheRef StoreTypes TurnPack TtsCache WsFrames.
From S2P Require Import WsFramesProps TtsSession.

(** ** Reading an event *)

Section reading.
Context `{Uuids, Serde, SpeechExternals}.

(** The frame decides the turn. *)
Lemma iomap_err_ok {E F A} (f : E → F) (m : Io E A) c a c' :
  iomap_err f m c = (Ok a, c') ↔ m c = (Ok a, c').
Proof. unfold iomap_err. destruct (m c) as [[?|?] ?]; naive_solver. Qed.

Lemma pong_keeps payload c u c' :
  write_masked_pong payload c = (Ok u, c') →
  stream c' = stream c ∧ cn_fragmented c' = cn_fragmented c.
Proof.
  unfold write_masked_pong, write_masked_control_frame. destruct (_ <? _)%nat; [discriminate|].
  unfold iobind, draw_uuid, iomap_err, write_all_flush. cbn.
  destruct (cn_outcomes c) as [|[|] o]; intros E; try discriminate E; by injection E as <- <-.
Qed.

(** A turn that ends with no event has read a control frame or a fragment. *)
Inductive turn_wire (c : Conn) : option json → bytes → option bytes → Prop :=
| tw_control opcode payload :
    opcode ∈ [9; 10] → (length payload ≤ 125)%nat →
    turn_wire c None (encode_server_frame true opcode payload) (cn_fragmented c)
| tw_first payload :
    cn_fragmented c = None → (length payload ≤ MAX_SERVER_EVENT_BYTES)%nat →
    turn_wire c None (encode_server_frame false 1 payload) (Some payload)
| tw_next acc payload :
    cn_fragmented c = Some acc → (length (acc ++ payload) ≤ MAX_SERVER_EVENT_BYTES)%nat →
    turn_wire c None (encode_server_frame false 0 payload) (Some (acc ++ payload))
| tw_whole payload event :
    cn_fragmented c = None → (length payload ≤ MAX_SERVER_EVENT_BYTES)%nat →
    json_from_slice payload = Some event →
    turn_wire c (Some event) (encode_server_frame true 1 payload) None
| tw_last acc payload event :
    cn_fragmented c = Some acc → (length (acc ++ payload) ≤ MAX_SERVER_EVENT_BYTES)%nat →
    json_from_slice (acc ++ payload) = Some event →
    turn_wire c (Some event) (encode_server_frame true 0 payload) None.

Lemma read_event_step_wire b c r c' :
  bytes_ok (stream c) → read_event_step b c = (Ok r, c') →
  ∃ wire, stream c = wire ++ stream c' ∧ turn_wire c r wire (cn_fragmented c').
Proof.
  intros Hok (frame & c1 & Ef%iomap_err_ok & E)%iobind_ok.
  destruct (read_server_frame_canonical _ _ _ Hok Ef) as [Ha Hv].
  destruct frame as [fin opcode payload]; cbn [sf_fin sf_opcode sf_payload] in *.
  destruct (one_of [0; 1] opcode) eqn:Eo.
  - apply iobind_ok in E as (assembled & c2 & Eas%iomap_err_ok & E).
    assert (opcode = 0 ∨ opcode = 1) as Hop.
    { apply one_of_elem in Eo. rewrite !elem_of_cons in Eo. destruct Eo as [|[|Eo]]; [tauto..|by apply elem_of_nil in Eo]. }
    assert (length payload ≤ MAX_SERVER_EVENT_BYTES)%nat as Hl.
    { destruct Hv as [[_ ?]|[Hop' _]]; [done|]. rewrite !elem_of_cons in Hop'. exfalso. destruct Hop' as [|[|[|Hop']]]; [lia..|by apply elem_of_nil in Hop']. }
    exists (encode_server_frame fin opcode payload). unfold assemble_text_frame in Eas. rewrite (ad_fragmented _ _ _ Ha) in Eas.
    cbn [sf_fin sf_opcode sf_payload] in Eas.
    destruct (cn_fragmented c) as [acc|] eqn:Efr; destruct Hop as [->| ->]; cbn [Z.eqb] in Eas; try discriminate Eas.
    + destruct (Nat.ltb_spec MAX_SERVER_EVENT_BYTES (length acc + length payload)); [discriminate Eas|].
      rewrite <-length_app in *. destruct fin; injection Eas as <- <-.
      * destruct (json_from_slice (acc ++ payload)) eqn:Ej; [|discriminate E]. injection E as <- <-.
        split; [exact (ad_stream _ _ _ Ha)|]. by apply (tw_last _ acc).
      * injection E as <- <-. split; [exact (ad_stream _ _ _ Ha)|]. by apply tw_next.
    + destruct fin; injection Eas as <- <-.
      * destruct (json_from_slice payload) eqn:Ej; [|discriminate E]. injection E as <- <-.
        split; [exact (ad_stream _ _ _ Ha)|]. rewrite (ad_fragmented _ _ _ Ha), Efr. by apply tw_whole.
      * injection E as <- <-. split; [exact (ad_stream _ _ _ Ha)|]. by apply tw_first.
  - destruct (Z.eqb_spec opcode 8); [discriminate E|].
    assert (opcode ∈ [9; 10] → fin = true ∧ (length payload ≤ 125)%nat) as Hctl.
    { intros Hop. destruct Hv as [[Hop' _]|[_ ?]]; [|done]. exfalso.
      rewrite !elem_of_cons, elem_of_nil in Hop; rewrite !elem_of_cons, elem_of_nil in Hop'. lia. }
    exists (encode_server_frame fin opcode payload).
    destruct (Z.eqb_spec opcode 9) as [->|]; [|destruct (Z.eqb_spec opcode 10) as [->|]; [|discriminate E]].
    + destruct Hctl as [-> ?]; [set_solver|]. apply iobind_ok in E as (u & c2 & Ep%iomap_err_ok & [= <- <-]).
      destruct (pong_keeps _ _ _ _ Ep) as [-> ->]. rewrite (ad_fragmented _ _ _ Ha).
      split; [exact (ad_stream _ _ _ Ha)|]. apply tw_control; [set_solver|done].
    + destruct Hctl as [-> ?]; [set_solver|]. injection E as <- <-. rewrite (ad_fragmented _ _ _ Ha).
      split; [exact (ad_stream _ _ _ Ha)|]. apply tw_control; [set_solver|done].
Qed.

Lemma assemble_keeps frame c r c' :
  assemble_text_frame frame c = (Ok r, c') → stream c' = stream c.
Proof.
  unfold assemble_text_frame. intros E.
  repeat match type of E with
  | match ?x with _ => _ end = _ => destruct x
  | (if ?b then _ else _) = _ => destruct b
  end; try discriminate E; by injection E as <- <-.
Qed.

Lemma read_event_step_consumes b c c' :
  read_event_step b c = (Ok None, c') → (available c' < available c)%nat.
Proof.
  intros (frame & c1 & Ef%iomap_err_ok & E)%iobind_ok.
  destruct (server_frame_consumes _ _ _ Ef) as (bs & Ha & Hl). rewrite (advanced_available _ _ _ Ha).
  assert (stream c' = stream c1) as Es; [|rewrite !available_stream, Es; lia].
  destruct (one_of _ _).
  - apply iobind_ok in E as (assembled & c2 & Eas%iomap_err_ok & E).
    rewrite <-(assemble_keeps _ _ _ _ Eas). destruct assembled; [|by injection E as <-].
    unfold iolift in E. destruct (json_from_slice _); discriminate E.
  - destruct (_ =? 8); [discriminate E|]. destruct (_ =? 9); [|destruct (_ =? 10); [by injection E as <-|discriminate E]].
    apply iobind_ok in E as (u & c2 & Ep%iomap_err_ok & [= <-]). apply (pong_keeps _ _ _ _ Ep).
Qed.

(** [read_tts_event] is its loop. *)
Lemma read_tts_event_step b c :
  read_tts_event b c =
  (let^ r := read_event_step b in
   match r with Some event => ioret event | None => read_tts_event b end) c.
Proof. apply frame_loop_step. apply read_event_step_consumes. Qed.

(** An event that was read came framed. *)
Lemma read_tts_event_wire b c event c' :
  bytes_ok (stream c) → read_tts_event b c = (Ok event, c') →
  ∃ message wire, framed (cn_fragmented c) message wire ∧ stream c = wire ++ stream c'
    ∧ json_from_slice message = Some event ∧ cn_fragmented c' = None.
Proof.
  remember (available c) as n eqn:En. revert c En.
  induction n as [n IH] using lt_wf_ind. intros c -> Hok E. rewrite read_tts_event_step in E.
  apply iobind_ok in E as (r & c1 & Er & E).
  destruct (read_event_step_wire _ _ _ _ Hok Er) as (wire & Es & Ht).
  assert (bytes_ok (stream c1)) as Hok1 by (rewrite Es in Hok; by apply Forall_app in Hok as [_ ?]).
  pose proof (read_event_step_consumes b c c1) as Hless.
  assert (r = None → ∃ message w, (∃ wire', framed (cn_fragmented c1) message wire' ∧ w = wire ++ wire')
    ∧ stream c = w ++ stream c' ∧ json_from_slice message = Some event ∧ cn_fragmented c' = None) as Hnext.
  { intros ->. destruct (IH _ (Hless Er) c1 eq_refl Hok1 E) as (message & wire' & ? & Es' & ? & ?).
    exists message, (wire ++ wire'). rewrite <-app_assoc, <-Es'. split_and!; [by exists wire'|done..]. }
  remember (cn_fragmented c1) as f1 eqn:Ef1. destruct Ht as [opcode payload|payload Efr|acc payload Efr|payload event1 Efr|acc payload event1 Efr].
  1-3: destruct (Hnext eq_refl) as (message & w & (wire' & Hf & ->) & Es' & Ej & Efr'); eexists message, _.
  4-5: injection E as <- <-.
  - split_and!; [by apply framed_control|done..].
  - rewrite Efr. split_and!; [by apply framed_first|done..].
  - rewrite Efr. split_and!; [by apply framed_next|done..].
  - rewrite Efr. exists payload, (encode_server_frame true 1 payload). split_and!; [by apply framed_whole|done..].
  - rewrite Efr. exists (acc ++ payload), (encode_server_frame true 0 payload). split_and!; [by apply framed_last|done..].
Qed.

(** The connection of a client whose writes succeed, between two messages or within one. *)
Definition open_at (acc : option bytes) (rest : bytes) (c : Conn) : Prop :=
  cn_fragmented c = acc ∧ cn_outcomes c = [] ∧ stream c = rest.

Lemma open_read fin opcode payload rest acc c :
  valid_server_frame fin opcode payload →
  open_at acc (encode_server_frame fin opcode payload ++ rest) c →
  ∃ c', read_server_frame c = (Ok (mk_frame fin opcode payload), c') ∧ open_at acc rest c'.
Proof.
  intros Hv (Ea & Eo & Es). destruct (read_encoded_frame _ _ _ _ _ Hv Es) as (c' & Er & [] & Es').
  exists c'. split; [done|]. unfold open_at. split_and!; congruence.
Qed.

Lemma open_pong payload acc rest c :
  (length payload ≤ 125)%nat → open_at acc rest c →
  ∃ c', write_masked_pong payload c = (Ok tt, c') ∧ open_at acc rest c'.
Proof.
  intros Hl (Ea & Eo & Es). unfold write_masked_pong, write_masked_control_frame.
  rewrite (proj2 (Nat.ltb_ge _ _)) by lia. unfold iobind, draw_uuid, iomap_err, write_all_flush. cbn.
  rewrite Eo. eexists. split; [done|]. by split_and!.
Qed.

Lemma read_tts_event_framed b acc message wire event rest :
  framed acc message wire → json_from_slice message = Some event →
  ∀ c, open_at acc (wire ++ rest) c →
  ∃ c', read_tts_event b c = (Ok event, c') ∧ open_at None rest c'.
Proof.
  intros Hf Ej. induction Hf as [payload Hl|acc payload Hl|payload message wire Hl Hf IH|acc payload message wire Hl Hf IH
    |acc opcode payload message wire Hop Hl Hf IH]; intros c Ho; rewrite read_tts_event_step; rewrite <-?app_assoc in Ho.
  all: eapply open_read in Ho as (c1 & Er & Ho1).
  all: try (apply valid_data; [tauto|rewrite ?length_app in Hl; lia]).
  all: try (by apply valid_control).
  all: unfold iobind at 1, read_event_step, iobind at 1, iomap_err at 1; rewrite Er; cbn [sf_opcode sf_payload one_of existsb Z.eqb Pos.eqb orb].
  all: pose proof Ho1 as (Ea1 & Eo1 & Es1).
  - unfold iobind, iomap_err, assemble_text_frame. rewrite Ea1. cbn. rewrite Ej. by exists c1.
  - unfold iobind, iomap_err, assemble_text_frame. rewrite Ea1. cbn [sf_opcode sf_fin sf_payload Z.eqb]. rewrite <-length_app, (proj2 (Nat.ltb_ge _ _)) by lia.
    rewrite Ej. cbn. eexists. split; [done|]. by split_and!.
  - unfold iobind, iomap_err, assemble_text_frame. rewrite Ea1. cbn. apply IH; [done|]. by split_and!.
  - unfold iobind, iomap_err, assemble_text_frame. rewrite Ea1. cbn [sf_opcode sf_fin sf_payload Z.eqb]. rewrite <-length_app, (proj2 (Nat.ltb_ge _ _)) by lia.
    apply IH; [done|]. by split_and!.
  - destruct (open_pong payload _ _ _ Hl Ho1) as (c2 & Ew & Ho2).
    opcode_cases Hop; cbn [Z.eqb Pos.eqb one_of existsb orb]; [|by apply IH].
    unfold iobind, iomap_err. rewrite Ew. by apply IH.
Qed.
End reading.

(** * The speech session: the events sent

    What a session writes, as a server decodes it, is an initial part of its four events in
    order, and its result says how far it came ([says_session]). *)

(** ** What a session says: the text messages a server decodes from its writes *)

Definition client_text (f : bytes) : option bytes :=
  match decode_client_frame f with Some (1, message) => Some message | _ => None end.

Lemma one_client_text f opcode message :
  decode_client_frame f = Some (opcode, message) →
  omap client_text [f] = if opcode =? 1 then [message] else [].
Proof.
  intros E. assert (client_text f = if opcode =? 1 then Some message else None) as Ef.
  { unfold client_text. rewrite E. destruct (Z.eqb_spec opcode 1) as [->|]; [done|].
    destruct opcode as [|[]|]; done. }
  cbn [omap list_omap]. rewrite Ef. by destruct (opcode =? 1).
Qed.

(** [m] adds writes whose messages, with its result, satisfy [Q]. *)
Definition says {E A} (m : Io E A) (Q : result E A → list bytes → Prop) : Prop := ∀ c,
  ∃ ws, cn_written (m c).2 = cn_written c ++ ws ∧ Q (m c).1 (omap client_text ws).

Definition silent {E A} (Q : result E A → Prop) (r : result E A) (ts : list bytes) : Prop := ts = [] ∧ Q r.

Definition fails_with {E A} (P : E → Prop) (r : result E A) : Prop :=
  match r with Ok _ => True | Err e => P e end.

Section saying.
Context {E A B : Type}.

Lemma says_weaken (m : Io E A) Q Q' : says m Q → (∀ r ts, Q r ts → Q' r ts) → says m Q'.
Proof. intros Hm HQ c. destruct (Hm c) as (ws & ? & ?). eauto. Qed.

Lemma says_lift (r : result E A) : says (iolift r) (silent (λ r', r' = r)).
Proof. intros c. exists []. by rewrite app_nil_r. Qed.

Lemma says_bind (m : Io E A) (k : A → Io E B) Q (Q' : result E B → list bytes → Prop) :
  says m Q →
  (∀ e ts, Q (Err e) ts → Q' (Err e) ts) →
  (∀ a ts, Q (Ok a) ts → says (k a) (λ r ts', Q' r (ts ++ ts'))) →
  says (iobind m k) Q'.
Proof.
  intros Hm He Hk c. unfold iobind. destruct (Hm c) as (ws & Ew & HQ). destruct (m c) as [[a|e] c1]; cbn in *.
  - destruct (Hk a _ HQ c1) as (ws' & Ew' & HQ'). exists (ws ++ ws').
    rewrite Ew', Ew, app_assoc, omap_app. done.
  - eauto.
Qed.

(** A silent step before another. *)
Lemma says_after (m : Io E A) (k : A → Io E B) (Q : result E A → Prop) Q' :
  says m (silent Q) → (∀ e, Q (Err e) → Q' (Err e) []) → (∀ a, Q (Ok a) → says (k a) Q') → says (iobind m k) Q'.
Proof.
  intros Hm He Hk. eapply says_bind; [exact Hm| |].
  - intros e ts [-> ?]. auto.
  - intros a ts [-> ?]. by apply Hk.
Qed.
End saying.

Lemma says_map_err {E F A} (f : E → F) (m : Io E A) Q Q' :
  says m Q → (∀ a ts, Q (Ok a) ts → Q' (Ok a) ts) → (∀ e ts, Q (Err e) ts → Q' (Err (f e)) ts) →
  says (iomap_err f m) Q'.
Proof.
  intros Hm Ha He c. unfold iomap_err. destruct (Hm c) as (ws & ? & ?).
  destruct (m c) as [[?|?] ?]; cbn in *; eauto.
Qed.

Lemma says_try {E F A} (m : Io E A) Q (Q' : result F (result E A) → list bytes → Prop) :
  says m Q → (∀ r ts, Q r ts → Q' (Ok r) ts) → says (iotry m) Q'.
Proof.
  intros Hm Hq c. unfold iotry. destruct (Hm c) as (ws & ? & ?). destruct (m c) as [? ?]; cbn in *; eauto.
Qed.

Lemma says_reader {E A} (m : Io E A) : reader m → says m (silent (λ _, True)).
Proof.
  intros Hm c. specialize (Hm c). exists []. rewrite app_nil_r. split; [|done].
  destruct (m c) as [[a|e] c']; [|done]. destruct Hm as [bs Ha]. apply (ad_written _ _ _ Ha).
Qed.

(** A loop over silent turns whose failures satisfy [Q]. *)
Lemma says_frame_loop {E A} (turn : Io E (option A)) e (Q : E → Prop) :
  says turn (silent (fails_with Q)) → Q e →
  says (frame_loop turn e) (silent (fails_with Q)).
Proof.
  intros Ht He c. unfold frame_loop. generalize (S (available c)). intros fuel. revert c.
  induction fuel as [|fuel IH]; [intros c; exists []; by rewrite app_nil_r|].
  change (says (frame_loop_fuel (S fuel) turn e) (silent (fails_with Q))). simpl.
  eapply says_after; [exact Ht| |].
  - by split.
  - intros [a|] _; [|exact IH]. intros c. exists []. by rewrite app_nil_r.
Qed.

(** ** From the commit on, every failure is [AmbiguousAfterCommit] *)

Definition safe_step (r : result AttemptFailure TtsSessionState) : Prop :=
  match r with
  | Ok s => ss_request_submitted s = true
  | Err f => f = ambiguous_after_commit
  end.

Lemma safe_bind {A} (r : result AttemptFailure A) (k : A → result AttemptFailure TtsSessionState) :
  (∀ f, r = Err f → f = ambiguous_after_commit) → (∀ a, r = Ok a → safe_step (k a)) → safe_step (rbind r k).
Proof. destruct r; simpl; auto. Qed.

Lemma safe_bind_step r (k : TtsSessionState → result AttemptFailure TtsSessionState) :
  safe_step r → (∀ s, ss_request_submitted s = true → safe_step (k s)) → safe_step (rbind r k).
Proof. destruct r; simpl; auto. Qed.

Lemma safe_state_failure s : ss_request_submitted s = true → state_failure s = ambiguous_after_commit.
Proof. unfold state_failure. by intros ->. Qed.

Lemma service_id_failure v b f : service_id v b = Err f → f = protocol_failure b.
Proof. unfold service_id. destruct (v ≫= as_str) as [value|]; [destruct (valid_service_event_id value)|]; congruence. Qed.

Lemma require_service_id_failure v b b' f : require_service_id v b b' = Err f → f = protocol_failure b'.
Proof.
  unfold require_service_id. intros [E|(value & E & E')]%rbind_err.
  - destruct (v ≫= as_str); simpl in E; congruence.
  - by apply require_err in E' as [_ <-].
Qed.

(** A handler's branches, one at a time. *)
Ltac safe_steps :=
  repeat first
    [ reflexivity | assumption
    | match goal with |- safe_step (if ?b then _ else _) => destruct b end
    | match goal with |- safe_step (Err (state_failure _)) => by apply safe_state_failure end
    | match goal with H : ss_request_submitted ?s = true |- safe_step (Ok _) => exact H end
    | match goal with |- safe_step (rbind (service_id _ _) _) => apply safe_bind; [intros ? ->%service_id_failure; (by apply safe_state_failure) || reflexivity|intros ? _] end
    | match goal with |- safe_step (rbind (of_option _ ?o) _) => destruct o; simpl; [|by apply safe_state_failure] end ].

Section safe.
Context `{SpeechExternals}.
Implicit Types (s : TtsSessionState).

Lemma register_event_safe event s : ss_request_submitted s = true → safe_step (register_event event s).
Proof. intros Hs. unfold register_event. rewrite Hs. safe_steps. Qed.

Lemma bind_item_id_safe id s : ss_request_submitted s = true → safe_step (bind_item_id id s).
Proof. intros Hs. unfold bind_item_id. destruct (ss_item_id s); safe_steps. Qed.

Lemma validate_audio_identity_safe event s : ss_request_submitted s = true → safe_step (validate_audio_identity event s).
Proof.
  intros Hs. unfold validate_audio_identity. rewrite Hs. apply safe_bind.
  - intros f [_ <-]%require_err. by apply safe_state_failure.
  - intros _ _. safe_steps. by apply bind_item_id_safe.
Qed.

Lemma scaffold_safe event s : ss_request_submitted s = true → safe_step (validate_response_scaffold event s).
Proof.
  intros Hs. unfold validate_response_scaffold, content_part_event, output_item_event. rewrite Hs. cbv zeta.
  safe_steps; (apply safe_bind_step; [by apply bind_item_id_safe|intros s' Hs']); safe_steps.
Qed.

Lemma append_audio_delta_safe event s : ss_request_submitted s = true → safe_step (append_audio_delta event s).
Proof.
  intros Hs. unfold append_audio_delta. apply safe_bind_step; [by apply validate_audio_identity_safe|].
  intros s' Hs'. cbv zeta. safe_steps.
Qed.

Lemma handle_event_safe voice event s : ss_request_submitted s = true → safe_step (handle_event voice event s).
Proof.
  intros Hs. unfold handle_event. apply safe_bind_step; [by apply register_event_safe|]. clear s Hs. intros s Hs.
  destruct (event_type event); [|reflexivity]. cbn [rbind of_option]. cbv zeta.
  repeat match goal with |- safe_step (if ?b then _ else _) => destruct b end.
  - unfold input_committed. rewrite Hs. safe_steps.
    apply safe_bind; [by intros f ->%require_service_id_failure|]. intros ? _. safe_steps.
  - unfold parse_response_created. rewrite Hs. safe_steps.
  - by apply scaffold_safe.
  - by apply append_audio_delta_safe.
  - unfold mark_audio_done. apply safe_bind_step; [by apply validate_audio_identity_safe|]. intros s' Hs'. safe_steps.
  - unfold mark_response_done. safe_steps.
  - by rewrite Hs.
  - safe_steps.
Qed.
End safe.

(** ** The session, write by write *)

Section session_says.
Context `{Uuids, Serde, SpeechExternals}.

Definition sent_by (event : text → json) (message : bytes) : Prop :=
  ∃ event_id, json_to_vec (event event_id) = Some message.

Lemma says_write frame :
  says (write_all_flush frame) (λ _ ts, ts = omap client_text [frame]).
Proof.
  intros c. exists [frame]. unfold write_all_flush. by destruct (cn_outcomes c) as [|[|] ?].
Qed.

Lemma says_draw {E} : says (draw_uuid (E := E)) (silent (λ r, ∃ id, r = Ok id ∧ length id = 16%nat)).
Proof. intros c. exists []. rewrite app_nil_r. repeat split. eexists. split; [done|apply new_v4_length]. Qed.

Lemma says_masked_text message :
  Z.of_nat (length message) ≤ u64_max → says (write_masked_text message) (λ _ ts, ts = [message]).
Proof.
  intros Hl. unfold write_masked_text. eapply says_after; [apply says_draw|by intros e (? & ? & _)|].
  intros id (? & [= <-] & Hid). cbv zeta. eapply says_weaken; [apply says_write|]. cbv beta. intros _ ts ->.
  rewrite (one_client_text _ 1 message); [done|]. apply decode_text_frame; [rewrite length_take; lia|done].
Qed.

Lemma says_control opcode payload :
  opcode ∈ [8; 9; 10] → says (write_masked_control_frame opcode payload) (silent (λ _, True)).
Proof.
  intros Hop. unfold write_masked_control_frame. destruct (Nat.ltb_spec 125 (length payload)).
  { apply says_reader. auto with frames. }
  eapply says_after; [apply says_draw|done|]. intros id (? & [= <-] & Hid). cbv zeta.
  assert (omap client_text [[Z.lor 0x80 opcode; Z.lor 0x80 (Z.of_nat (length payload))]
    ++ take 4 id ++ mask_bytes (take 4 id) payload] = []) as E.
  { rewrite (one_client_text _ opcode payload); [by opcode_cases Hop|].
    apply decode_control_frame; [rewrite length_take; lia| |lia]. opcode_cases Hop; lia. }
  eapply says_map_err; [apply says_write| |]; intros ? ts ->; rewrite E; by split.
Qed.

(** A read fails as the phase demands. *)
Definition failure_ok (request_submitted : bool) (f : AttemptFailure) : Prop :=
  if request_submitted then f = ambiguous_after_commit else f ≠ ambiguous_after_commit.

Lemma protocol_failure_ok b : failure_ok b (protocol_failure b).
Proof. by destruct b. Qed.

Lemma says_read_event b :
  says (read_tts_event b) (silent (fails_with (failure_ok b))).
Proof.
  apply says_frame_loop; [|apply protocol_failure_ok]. unfold read_event_step.
  eapply (says_after _ _ (fails_with (failure_ok b))).
  - eapply says_map_err; [apply says_reader, reader_server_frame|by intros ? ? [-> _]|].
    intros e ? [-> _]. split; [done|]. by destruct e, b.
  - by split.
  - intros frame _. destruct (one_of _ _); [|destruct (_ =? 8); [|destruct (_ =? 9); [|destruct (_ =? 10)]]].
    + eapply (says_after _ _ (fails_with (failure_ok b))); [|by split|].
      * eapply (says_map_err _ _ (silent (λ _, True))); [|by intros ? ? [-> _]|].
        -- intros c. exists []. rewrite app_nil_r. unfold silent. repeat split. unfold assemble_text_frame.
           repeat match goal with |- context [match ?x with _ => _ end] => destruct x end; done.
        -- intros e ? [-> _]. split; [done|]. apply protocol_failure_ok.
      * intros [message|] _; [|intros c; exists []; by rewrite app_nil_r].
        eapply says_weaken; [apply says_lift|]. intros r ts [-> ->]. split; [done|].
        destruct (json_from_slice message); [done|]. apply protocol_failure_ok.
    + intros c. exists []. rewrite app_nil_r. repeat split. apply protocol_failure_ok.
    + eapply (says_after _ _ (fails_with (failure_ok b))); [|by split|].
      * eapply says_map_err; [apply says_control; rewrite !elem_of_cons; tauto|by intros ? ? [-> _]|].
        intros e ? [-> _]. split; [done|]. by destruct b.
      * intros ? _ c. exists []. by rewrite app_nil_r.
    + intros c. exists []. by rewrite app_nil_r.
    + intros c. exists []. rewrite app_nil_r. repeat split. apply protocol_failure_ok.
Qed.

(** One event: it is not sent, or the one message is. *)
Definition sends (event : text → json) (r : result AttemptFailure unit) (ts : list bytes) : Prop :=
  (ts = [] ∧ ∃ f, r = Err f ∧ f ≠ ambiguous_after_commit)
  ∨ (∃ message, sent_by event message ∧ ts = [message] ∧ (r = Ok tt ∨ r = Err (terminal TtsUnavailable))).

Lemma says_send event : says (send event) (sends event).
Proof.
  unfold send. eapply (says_after _ _ (λ r, ∃ id, r = Ok id)); [|by intros e (? & ?)|].
  - unfold client_event_id. eapply says_after; [apply says_draw|by intros e (? & ? & _)|].
    intros id _ c. exists []. rewrite app_nil_r. repeat split. by eexists.
  - intros id _. cbv beta. unfold send_client_event. eapply says_after; [apply says_lift| |].
    + intros e He. left. split; [done|]. destruct (json_to_vec (event id)); simpl in He; [done|]. injection He as ->. by eexists.
    + intros payload He. destruct (Nat.ltb_spec MAX_SERVER_EVENT_BYTES (length payload)) as [|Hl].
      { intros c. exists []. rewrite app_nil_r. split; [done|]. left. split; [done|]. by eexists. }
      assert (sent_by event payload) as Hs.
      { exists id. destruct (json_to_vec (event id)); simpl in He; congruence. }
      eapply says_map_err; [apply says_masked_text; unfold MAX_SERVER_EVENT_BYTES in Hl; width_lia| |].
      * intros [] ts ->. right. exists payload. auto.
      * intros e ts ->. right. exists payload. auto.
Qed.

Lemma says_response_loop voice fuel s :
  ss_request_submitted s = true →
  says (response_loop_fuel fuel voice s) (silent (fails_with (failure_ok true))).
Proof.
  revert s. induction fuel as [|fuel IH]; intros s Hs; simpl; destruct (ss_response_done s).
  1,3: intros c; exists []; by rewrite app_nil_r.
  - intros c. exists []. by rewrite app_nil_r.
  - eapply says_after; [apply says_read_event|by split|]. intros event _.
    pose proof (handle_event_safe voice event s Hs) as Hsafe.
    eapply says_after; [apply says_lift| |].
    + intros e He. split; [done|]. by rewrite <-He in Hsafe.
    + intros s' He. apply IH. by rewrite <-He in Hsafe.
Qed.

Lemma says_teardown s :
  says (teardown s) (λ r ts, (∃ s', r = Ok s') ∧ (ts = [] ∨ ∃ m, sent_by finish_event m ∧ ts = [m])).
Proof.
  assert (∀ s, says (E := AttemptFailure) (A := TtsSessionState) (let^ _ := iotry (write_masked_close (be_bytes_of 2 1000)) in
    let^ _ := iotry await_peer_close in ioret s) (silent (λ r, r = Ok s))) as Hend.
  { intros s0. eapply (says_after _ _ (λ r, ∃ x, r = Ok x)); [|by intros e (x & ?)|intros _ _; eapply (says_after _ _ (λ r, ∃ x, r = Ok x)); [|by intros e (x & ?)|]].
    - eapply says_try; [apply says_control; rewrite !elem_of_cons; tauto|]. intros r ts [-> _]. split; eauto.
    - eapply (says_try _ (silent (fails_with (λ _, True)))); [|intros r ts [-> _]; split; eauto].
      apply says_frame_loop; [|done]. unfold peer_close_step.
      eapply (says_after _ _ (fails_with (λ _, True))); [eapply says_weaken; [apply says_reader, reader_server_frame|]| |].
      + intros r ts [-> _]. split; [done|]. by destruct r.
      + by split.
      + intros frame _. destruct (_ =? 8); [|destruct (_ =? 9); [|destruct (_ =? 10)]].
        * eapply says_after; [apply says_lift|by split|]. intros ? _ c. exists []. by rewrite app_nil_r.
        * eapply says_after; [apply says_control; rewrite !elem_of_cons; tauto|by split|]. intros ? _ c. exists []. by rewrite app_nil_r.
        * intros c. exists []. by rewrite app_nil_r.
        * intros c. exists []. by rewrite app_nil_r.
    - intros _ _ c. exists []. by rewrite app_nil_r. }
  unfold teardown.
  eapply says_bind; [eapply (says_try _ _ (λ r ts, ∃ x, r = Ok x ∧ (ts = [] ∨ ∃ m, sent_by finish_event m ∧ ts = [m]))); [apply says_send|]| |].
  - intros r ts [[-> _]|(m & ? & -> & _)]; eauto 6.
  - intros e ts (x & ? & _). discriminate.
  - intros sent ts (x & _ & Hts).
    eapply (says_after _ _ (λ r, ∃ x, r = Ok x)); [|by intros e (? & ?)|].
    + destruct sent.
      * eapply (says_after _ _ (λ r, ∃ x, r = Ok x)); [|by intros e (? & ?)|].
        -- eapply says_try; [apply says_read_event|]. intros r ts' [-> _]. split; eauto.
        -- intros finished _ c. exists []. rewrite app_nil_r. repeat split. eauto.
      * intros c. exists []. rewrite app_nil_r. repeat split. eauto.
    + intros s' _. eapply says_weaken; [apply Hend|]. intros r ts' [-> ->]. rewrite app_nil_r. eauto.
Qed.

(** The events of a session, in order, and what its result says about them. *)
Definition session_events (request : TtsRequest) : list (text → json) :=
  [session_update_event request; append_event request; commit_event; finish_event].

Definition one_submission {A} (request : TtsRequest) (r : result AttemptFailure A) (ts : list bytes) : Prop :=
  Forall2 sent_by (take (length ts) (session_events request)) ts ∧
  match r with
  | Ok _ => (3 ≤ length ts)%nat
  | Err f =>
      (af_retryable f = true → (length ts ≤ 2)%nat)
      ∧ ((3 ≤ length ts)%nat → f = ambiguous_after_commit)
      ∧ (f = ambiguous_after_commit → (2 ≤ length ts)%nat)
  end.

Lemma early_failure {A} request f ts :
  f ≠ ambiguous_after_commit → (length ts ≤ 2)%nat →
  Forall2 sent_by (take (length ts) (session_events request)) ts →
  one_submission (A := A) request (Err f) ts.
Proof. intros Hf Hl Hs. split; [done|]. split_and!; [done|lia|done]. Qed.

(** Before the commit no failure is ambiguous. *)
Abbreviation calm := (fails_with (λ f, f ≠ ambiguous_after_commit)).

Lemma calm_bind {A B} (r : result AttemptFailure A) (k : A → result AttemptFailure B) :
  calm r → (∀ a, calm (k a)) → calm (rbind r k).
Proof. destruct r; simpl; auto. Qed.
Lemma calm_service_id v : calm (service_id v false).
Proof. unfold service_id. destruct (v ≫= as_str) as [value|]; [|done]. by destruct (valid_service_event_id value). Qed.

Lemma calm_parse_created event : calm (parse_created event).
Proof.
  unfold parse_created. destruct (negb _); [done|]. apply calm_bind; [apply calm_service_id|intros event_id].
  apply calm_bind; [|intros model; apply calm_bind; [apply calm_service_id|done]].
  destruct (pointer _ event ≫= as_str); [|done]. by repeat case_bool_decide.
Qed.

Lemma calm_register event s : ss_request_submitted s = false → calm (register_event event s).
Proof.
  intros Hs. unfold register_event, state_failure. rewrite Hs. destruct (_ <=? _); [done|].
  apply calm_bind; [apply calm_service_id|]. intros id. by destruct (decide _).
Qed.

Lemma calm_updated event s voice : calm (validate_updated event s voice).
Proof.
  unfold validate_updated. apply calm_bind; [by destruct (member _ _)|]. intros session.
  match goal with |- calm (if ?b then _ else _) => by destruct b end.
Qed.

Lemma says_send_before_commit event :
  says (iomap_err retry_before_commit (send event))
    (λ r ts, calm r ∧ ((ts = [] ∧ ∃ f, r = Err f) ∨ ∃ m, sent_by event m ∧ ts = [m])).
Proof.
  eapply says_map_err; [apply says_send| |].
  - intros [] ts [[_ (f & ? & _)]|(m & ? & -> & _)]; [done|]. split; [done|]. eauto.
  - intros e ts Hs. assert (retry_before_commit e ≠ ambiguous_after_commit) as Hne.
    { destruct Hs as [[_ (f & [= <-] & Hf)]|(m & _ & _ & [?|[= ->]])]; [|done|done].
      unfold retry_before_commit. by destruct (decide _). }
    destruct Hs as [[-> _]|(m & ? & -> & _)]; (split; [done|]); eauto.
Qed.

(** The part of a session before the commit: what was said is an initial part of the first
    two events, or both of them when the session goes on. *)
Definition before_commit {A} (request : TtsRequest) (r : result AttemptFailure A) (ts : list bytes) : Prop :=
  calm r ∧ (length ts ≤ 2)%nat ∧ Forall2 sent_by (take (length ts) (session_events request)) ts
  ∧ (is_ok r → length ts = 2%nat).

Lemma before_commit_failure {A B} request f ts :
  before_commit (A := A) request (Err f) ts → one_submission (A := B) request (Err f) ts.
Proof. intros (? & ? & ? & _). by apply early_failure. Qed.

Lemma after_commit_failure {A} request ts :
  (2 ≤ length ts)%nat → Forall2 sent_by (take (length ts) (session_events request)) ts →
  one_submission (A := A) request (Err ambiguous_after_commit) ts.
Proof. intros ? ?. split; [done|]. split_and!; done || lia. Qed.

(** [calm] and silent steps of [open_session]. *)
Lemma before_commit_silent {A B} request (m : Io AttemptFailure A) (k : A → Io AttemptFailure B) said :
  (length said ≤ 2)%nat → Forall2 sent_by (take (length said) (session_events request)) said →
  says m (silent calm) →
  (∀ a, m ≠ iofail ambiguous_after_commit → says (k a) (λ r ts, before_commit request r (said ++ ts))) →
  says (iobind m k) (λ r ts, before_commit request r (said ++ ts)).
Proof.
  intros Hl Hs Hm Hk. eapply says_after; [exact Hm| |].
  - intros e He. rewrite app_nil_r. split_and!; try done. by intros [? ?].
  - intros a _. apply Hk. intros ->. destruct (Hm (mk_conn [] None [] [] [] 0)) as (? & _ & _ & Hc). by apply Hc.
Qed.

Lemma says_calm_lift {A} (r : result AttemptFailure A) : calm r → says (iolift r) (silent calm).
Proof. intros Hr. eapply says_weaken; [apply says_lift|]. by intros ? ts [-> ->]. Qed.

Lemma says_open_session request : says (open_session request) (before_commit request).
Proof.
  assert (∀ said, (length said ≤ 2)%nat → Forall2 sent_by (take (length said) (session_events request)) said →
    ∀ A (f : AttemptFailure), f ≠ ambiguous_after_commit → before_commit (A := A) request (Err f) said) as Hfail.
  { intros said Hl Hs A f Hf. split_and!; try done. by intros [? ?]. }
  unfold open_session. change (before_commit request) with (λ (r : result AttemptFailure TtsSessionState) ts, before_commit request r ([] ++ ts)).
  apply before_commit_silent; [simpl; lia|constructor|intros c; exists []; by rewrite app_nil_r|intros _ _].
  apply before_commit_silent; [simpl; lia|constructor|apply (says_read_event false)|intros created _].
  apply before_commit_silent; [simpl; lia|constructor|apply says_calm_lift, calm_parse_created|intros [[model session_id] event_id] _].
  cbv zeta. eapply says_bind; [apply says_send_before_commit| |].
  { intros e ts [He [[-> _]|(m & Hm & ->)]]; (apply Hfail; [simpl; lia|by repeat constructor|exact He]). }
  intros [] ts [_ [[_ (f & ?)]|(m1 & Hm1 & ->)]]; [done|]. cbn [app].
  apply (before_commit_silent request _ _ [m1]); [simpl; lia|by repeat constructor|apply (says_read_event false)|intros updated _].
  apply (before_commit_silent request _ _ [m1]); [simpl; lia|by repeat constructor|by apply says_calm_lift, calm_register|intros s _].
  apply (before_commit_silent request _ _ [m1]); [simpl; lia|by repeat constructor|apply says_calm_lift, calm_updated|intros _ _].
  eapply says_bind; [apply says_send_before_commit| |].
  { intros e ts [He [[-> _]|(m & Hm & ->)]]; (apply (Hfail (_ :: _)); [simpl; lia|by repeat constructor|exact He]). }
  intros [] ts [_ [[_ (f & ?)]|(m2 & Hm2 & ->)]]; [done|]. intros c. exists []. rewrite app_nil_r. split; [done|].
  split_and!; [done|simpl; lia|by repeat constructor|done].
Qed.

Lemma says_commit :
  says (iomap_err (λ _, ambiguous_after_commit) (send commit_event))
    (λ r ts, match r with
             | Ok _ => ∃ m, sent_by commit_event m ∧ ts = [m]
             | Err f => f = ambiguous_after_commit ∧ (ts = [] ∨ ∃ m, sent_by commit_event m ∧ ts = [m])
             end).
Proof.
  eapply says_map_err; [apply says_send| |].
  - intros a ts [[_ (f & ? & _)]|(m & ? & -> & _)]; [done|]. eauto.
  - intros e ts [[-> _]|(m & ? & -> & _)]; eauto.
Qed.

Lemma says_session request transport : says (run_tts_session request transport) (one_submission request).
Proof.
  unfold run_tts_session. eapply says_bind; [apply says_open_session|intros e ts He; exact (before_commit_failure (A := TtsSessionState) request e ts He)|].
  intros s said (_ & _ & Hs & Hl). specialize (Hl ltac:(by eexists)). cbv zeta.
  destruct said as [|m1 [|m2 [|]]]; try discriminate Hl. clear Hl.
  assert (∀ more, Forall2 sent_by (take (length more) [commit_event; finish_event]) more →
    Forall2 sent_by (take (length (m1 :: m2 :: more)) (session_events request)) (m1 :: m2 :: more)) as Hmore.
  { intros more Hm. cbn in Hs |- *. inversion Hs as [|? ? ? ? ? Hs']; subst. inversion Hs'; subst. by repeat constructor. }
  assert (∀ more, Forall2 sent_by (take (length more) [commit_event; finish_event]) more →
    one_submission (A := TtsAudio) request (Err ambiguous_after_commit) (m1 :: m2 :: more)) as Hfail.
  { intros more Hm. apply after_commit_failure; [simpl; lia|by apply Hmore]. }
  eapply says_bind; [apply says_commit| |].
  - intros e ts [-> [->|(m3 & Hm3 & ->)]]; (apply Hfail; by repeat constructor).
  - intros [] ts (m3 & Hm3 & ->).
    eapply says_bind; [apply says_response_loop; done| |].
    + intros e ts [-> He]. cbn in He. rewrite He. apply (Hfail [m3]). by repeat constructor.
    + intros s' ts [-> _]. eapply says_bind; [apply says_teardown| |].
      * intros e ts [(? & ?) _]. done.
      * intros s'' ts [_ Hts] c. exists []. rewrite app_nil_r. split; [done|]. split; [|simpl; lia].
        cbn [app]. rewrite app_nil_r. apply (Hmore (m3 :: ts)).
        destruct Hts as [->|(m4 & Hm4 & ->)]; by repeat constructor.
Qed.
End session_says.
