(* ===== verification/TtsPhases.v ===== *)
(** * The speech session: its protocol

    The flags of [TtsSessionState] are nine phases passed in one order; [speaks] says which
    event leads from a phase to the next.  [handle_event] implements exactly this relation
    ([handle_event_refines]), so that the audio of a session is the audio of one complete
    response. *)

From stdpp Require Import gmap.
From S2P Require Import Prelude Bytes StrOps CacheRef StoreTypes TurnPack Audio TtsCache WsFrames TtsSession.

(** ** Phases *)

Inductive Phase :=
| PhSubmitted
| PhCommitted
| PhCreated (response_id : text)
| PhItem (response_id item_id : text)
| PhPart (response_id item_id : text) (chunks : list bytes)
| PhAudio (response_id item_id : text) (chunks : list bytes)
| PhPartDone (response_id item_id : text) (chunks : list bytes)
| PhItemDone (response_id item_id : text) (chunks : list bytes)
| PhFinished (response_id item_id : text) (chunks : list bytes) (characters : option Z).

Definition phase_rank (ph : Phase) : nat :=
  match ph with
  | PhSubmitted => 0 | PhCommitted => 1 | PhCreated _ => 2 | PhItem _ _ => 3 | PhPart _ _ _ => 4
  | PhAudio _ _ _ => 5 | PhPartDone _ _ _ => 6 | PhItemDone _ _ _ => 7 | PhFinished _ _ _ _ => 8
  end.
Definition phase_response (ph : Phase) : option text :=
  match ph with
  | PhSubmitted | PhCommitted => None
  | PhCreated r | PhItem r _ | PhPart r _ _ | PhAudio r _ _ | PhPartDone r _ _ | PhItemDone r _ _
  | PhFinished r _ _ _ => Some r
  end.
Definition phase_item (ph : Phase) : option text :=
  match ph with
  | PhSubmitted | PhCommitted | PhCreated _ => None
  | PhItem _ i | PhPart _ i _ | PhAudio _ i _ | PhPartDone _ i _ | PhItemDone _ i _
  | PhFinished _ i _ _ => Some i
  end.
Definition phase_chunks (ph : Phase) : list bytes :=
  match ph with
  | PhSubmitted | PhCommitted | PhCreated _ | PhItem _ _ => []
  | PhPart _ _ l | PhAudio _ _ l | PhPartDone _ _ l | PhItemDone _ _ l | PhFinished _ _ l _ => l
  end.
Definition phase_characters (ph : Phase) : option Z :=
  match ph with PhFinished _ _ _ characters => characters | _ => None end.

(** The state of a session that submitted its text, in a phase. *)
Definition session_at (model session_id : text) (ph : Phase) (ids : gset text) (events : Z) : TtsSessionState :=
  {| ss_model := model; ss_session_id := session_id;
     ss_response_id := phase_response ph; ss_item_id := phase_item ph;
     ss_committed := (1 <=? phase_rank ph)%nat; ss_request_submitted := true;
     ss_output_item_added := (3 <=? phase_rank ph)%nat;
     ss_content_part_added := (4 <=? phase_rank ph)%nat;
     ss_audio_done := (5 <=? phase_rank ph)%nat;
     ss_content_part_done := (6 <=? phase_rank ph)%nat;
     ss_output_item_done := (7 <=? phase_rank ph)%nat;
     ss_response_done := (8 <=? phase_rank ph)%nat;
     ss_received_audio := negb (length (phase_chunks ph) =? 0)%nat;
     ss_characters := phase_characters ph;
     ss_server_event_ids := ids; ss_server_events := events;
     ss_audio_deltas := Z.of_nat (length (phase_chunks ph));
     ss_pcm := mjoin (phase_chunks ph) |}.

(** ** Events *)

Inductive EventKind :=
| InputCommitted | ResponseCreated | ItemAdded | PartAdded | AudioDelta | AudioDone | PartDone
| ItemDone | ResponseDone.

Definition kind_name (k : EventKind) : text :=
  key match k with
      | InputCommitted => "input_text_buffer.committed"
      | ResponseCreated => "response.created"
      | ItemAdded => "response.output_item.added"
      | PartAdded => "response.content_part.added"
      | AudioDelta => "response.audio.delta"
      | AudioDone => "response.audio.done"
      | PartDone => "response.content_part.done"
      | ItemDone => "response.output_item.done"
      | ResponseDone => "response.done"
      end.

Definition has (v : option json) (s : text) : Prop := v ≫= as_str = Some s.
Definition has_u64 (v : option json) (n : Z) : Prop := v ≫= json_u64 = Some n.
Definition of_kind (k : EventKind) (e : json) : Prop := has (member "type" e) (kind_name k).

(** What names the response, and the one item of it. *)
Definition of_response (rid : text) (e : json) : Prop :=
  has (member "response_id" e) rid ∧ has_u64 (member "output_index" e) 0.
Definition of_content (rid iid : text) (e : json) : Prop :=
  of_response rid e ∧ has (member "item_id" e) iid ∧ has_u64 (member "content_index" e) 0
  ∧ valid_service_event_id iid = true.
Definition of_item (rid iid : text) (status : string) (e : json) : Prop :=
  of_response rid e ∧ has (pointer ["item"; "id"] e) iid ∧ valid_service_event_id iid = true
  ∧ has (pointer ["item"; "object"] e) (key "realtime.item")
  ∧ has (pointer ["item"; "type"] e) (key "message")
  ∧ has (pointer ["item"; "role"] e) (key "assistant")
  ∧ has (pointer ["item"; "status"] e) (key status).

Section protocol.
Context `{SpeechExternals} (voice : text).

Inductive speaks : Phase → json → Phase → Prop :=
| speaks_committed e id :
    of_kind InputCommitted e → has (member "item_id" e) id →
    id = [] ∨ valid_service_event_id id = true →
    speaks PhSubmitted e PhCommitted
| speaks_created e r rid :
    of_kind ResponseCreated e → member "response" e = Some r →
    has (member "id" r) rid → valid_service_event_id rid = true →
    has (member "object" r) (key "realtime.response") →
    has (member "status" r) (key "in_progress") →
    has (member "voice" r) voice → member "output" r ≫= as_array = Some [] →
    speaks PhCommitted e (PhCreated rid)
| speaks_item_added e rid iid :
    of_kind ItemAdded e → of_item rid iid "in_progress" e →
    speaks (PhCreated rid) e (PhItem rid iid)
| speaks_part_added e rid iid :
    of_kind PartAdded e → of_content rid iid e → has (pointer ["part"; "type"] e) (key "audio") →
    speaks (PhItem rid iid) e (PhPart rid iid [])
| speaks_delta e rid iid chunks delta pcm :
    of_kind AudioDelta e → of_content rid iid e →
    has (member "delta" e) delta → base64_decode delta = Some pcm →
    pcm ≠ [] → Nat.even (length pcm) = true →
    Z.of_nat (length chunks) < MAX_TTS_AUDIO_DELTAS →
    blen (mjoin chunks) + blen pcm ≤ MAX_TTS_PCM_BYTES →
    speaks (PhPart rid iid chunks) e (PhPart rid iid (chunks ++ [pcm]))
| speaks_audio_done e rid iid chunks :
    of_kind AudioDone e → of_content rid iid e → chunks ≠ [] →
    speaks (PhPart rid iid chunks) e (PhAudio rid iid chunks)
| speaks_part_done e rid iid chunks :
    of_kind PartDone e → of_content rid iid e → has (pointer ["part"; "type"] e) (key "audio") →
    speaks (PhAudio rid iid chunks) e (PhPartDone rid iid chunks)
| speaks_item_done e rid iid chunks :
    of_kind ItemDone e → of_item rid iid "completed" e →
    speaks (PhPartDone rid iid chunks) e (PhItemDone rid iid chunks)
| speaks_done e r rid iid chunks :
    of_kind ResponseDone e → member "response" e = Some r →
    has (member "id" r) rid →
    has (member "object" r) (key "realtime.response") →
    has (member "status" r) (key "completed") →
    speaks (PhItemDone rid iid chunks) e
      (PhFinished rid iid chunks (pointer ["usage"; "characters"] r ≫= json_u64)).
End protocol.

(** ** The tests of the code, as these propositions *)

Lemma is_str_true s v : is_str s v = true ↔ has v s.
Proof. apply bool_decide_eq_true. Qed.
Lemma is_text_true s v : is_text s v = true ↔ has v (key s).
Proof. apply bool_decide_eq_true. Qed.
Lemma is_u64_true n v : is_u64 n v = true ↔ has_u64 v n.
Proof. apply bool_decide_eq_true. Qed.

Lemma service_id_ok v b id : service_id v b = Ok id ↔ has v id ∧ valid_service_event_id id = true.
Proof.
  unfold service_id, has. destruct (v ≫= as_str) as [value|]; [|by split; [|intros [? ?]]].
  destruct (valid_service_event_id value) eqn:E.
  - split; [by intros [= <-]|by intros [[= ->] _]].
  - split; [done|]. intros [[= ->] ?]. congruence.
Qed.

Lemma kind_name_inj k k' : kind_name k = kind_name k' → k = k'.
Proof. destruct k, k'; try done; intros E; vm_compute in E; discriminate E. Qed.

Lemma of_kind_inj k k' e : of_kind k e → of_kind k' e → k = k'.
Proof. unfold of_kind, has. intros E E'. apply kind_name_inj. congruence. Qed.

Lemma is_text_kind k e name :
  of_kind k e → is_text name (member "type" e) = bool_decide (kind_name k = key name).
Proof.
  intros Hk. unfold is_text, is_str. rewrite Hk. apply bool_decide_ext. split; [by intros [= E]|by intros ->].
Qed.

Lemma is_empty_array_true v : is_empty_array v = true ↔ v ≫= as_array = Some [].
Proof. unfold is_empty_array. by destruct (v ≫= as_array) as [[|]|]. Qed.

(** Guards that held become propositions ... *)
Ltac guards :=
  repeat match goal with
  | H : is_str _ _ = true |- _ => apply is_str_true in H
  | H : is_text _ _ = true |- _ => apply is_text_true in H
  | H : is_u64 _ _ = true |- _ => apply is_u64_true in H
  | H : is_empty_array _ = true |- _ => apply is_empty_array_true in H
  | H : service_id _ _ = Ok _ |- _ => apply service_id_ok in H as [? ?]
  | H : rbind _ _ = Ok _ |- _ => apply rbind_ok in H as (? & ? & H)
  | H : require _ _ = Ok _ |- _ => apply require_ok in H
  | H : of_option _ ?o = Ok _ |- _ => destruct o eqn:?; [injection H as <-|discriminate H]
  | H : (if ?b then Err _ else _) = Ok _ |- _ => destruct b eqn:?; [discriminate H|]
  | H : Ok _ = Ok _ |- _ => injection H as <-
  | H : Err _ = Ok _ |- _ => discriminate H
  | H : of_this_response _ _ = true |- _ => unfold of_this_response in H; cbn in H
  | H : (_ <? _) = false |- _ => apply Z.ltb_ge in H
  | _ => progress bool_prop
  end.

(** ... and propositions decide the guards. *)
Ltac decide_guards :=
  repeat match goal with
  | H : has ?v (key ?k) |- context [is_text ?k ?v] => rewrite (proj2 (is_text_true k v) H)
  | H : has ?v ?s |- context [is_str ?s ?v] => rewrite (proj2 (is_str_true s v) H)
  | H : has_u64 ?v ?n |- context [is_u64 ?n ?v] => rewrite (proj2 (is_u64_true n v) H)
  | H : ?v ≫= as_array = Some [] |- context [is_empty_array ?v] => rewrite (proj2 (is_empty_array_true v) H)
  | H : has ?v ?s, Hv : valid_service_event_id ?s = true |- context [service_id ?v ?b] =>
      rewrite (proj2 (service_id_ok v b s) (conj H Hv))
  | H : member ?k ?e = Some ?r |- context [member ?k ?e] => rewrite H
  | H : of_kind _ ?e |- context [is_text ?name (member "type" ?e)] => rewrite (is_text_kind _ e name H)
  | |- context [bool_decide (?x = ?x)] => rewrite (bool_decide_eq_true_2 (x = x)) by reflexivity
  | _ => progress cbn
  end.

#[local] Arguments is_str : simpl never.
#[local] Arguments is_text : simpl never.
#[local] Arguments is_u64 : simpl never.
#[local] Arguments is_empty_array : simpl never.
#[local] Arguments member : simpl never.
#[local] Arguments pointer : simpl never.
#[local] Arguments key : simpl never.
#[local] Arguments service_id : simpl never.
#[local] Arguments kind_name : simpl never.
#[local] Arguments mjoin : simpl never.
#[local] Arguments bind_item_id : simpl never.
#[local] Arguments Nat.even : simpl never.

(** The names of the kinds are apart: each test on the type is decided by the kind. *)
Ltac decide_kind Hk :=
  rewrite ?(is_text_kind _ _ _ Hk);
  repeat match goal with
  | |- context [bool_decide (kind_name ?k = ?x)] =>
      let b := eval vm_compute in (bool_decide (kind_name k = x)) in
      change (bool_decide (kind_name k = x)) with b
  end; cbn iota.

Section refinement.
Context `{SpeechExternals} (voice model session_id : text) (ids : gset text) (events : Z).
Notation at_phase := (λ ph, session_at model session_id ph ids events).

(** The handler of one kind of event takes a phase to the next one, or fails. *)
Definition implements (k : EventKind) (handler : json → TtsSessionState → result AttemptFailure TtsSessionState) : Prop :=
  ∀ e ph s', of_kind k e →
    (handler e (at_phase ph) = Ok s' ↔ ∃ ph', speaks voice ph e ph' ∧ s' = at_phase ph').

(** The rules of the other kinds do not apply. *)
Ltac rules Hk Hs :=
  destruct Hs; try (match goal with H : of_kind _ _ |- _ => by pose proof (of_kind_inj _ _ _ Hk H) end).

Lemma input_committed_refines : implements InputCommitted input_committed.
Proof.
  intros e ph s' Hk. split.
  - unfold input_committed, require_service_id. destruct ph; cbn; try discriminate. intros E. guards.
    exists PhCommitted. split; [|done]. eapply speaks_committed; [done..|].
    match goal with H : _ || _ = true |- _ => apply orb_prop in H as [E|?]; [left|by right] end.
    by apply Nat.eqb_eq, length_zero_iff_nil in E.
  - intros (ph' & Hs & ->). rules Hk Hs. unfold input_committed, require_service_id. cbn.
    match goal with H : has (member "item_id" e) ?id, Hv : ?id = [] ∨ _ |- _ => 
      rewrite H; cbn; destruct Hv as [->|E]; [done|by rewrite E, orb_true_r] end.
Qed.

Lemma response_created_refines : implements ResponseCreated (λ e, parse_response_created e voice).
Proof.
  intros e ph s' Hk. split.
  - unfold parse_response_created. destruct ph; cbn; try discriminate. intros E. guards.
    eexists. split; [by eapply speaks_created|done].
  - intros (ph' & Hs & ->). rules Hk Hs. unfold parse_response_created. cbn. by decide_guards.
Qed.
(** [bind_item_id] in a phase. *)
Lemma bind_item_id_at iid ph s' :
  bind_item_id iid (at_phase ph) = Ok s' ↔
  match phase_item ph with
  | Some existing => existing = iid ∧ s' = at_phase ph
  | None => s' = set_item_id iid (at_phase ph)
  end.
Proof.
  unfold bind_item_id. cbn [ss_item_id session_at]. destruct (phase_item ph) as [existing|].
  - case_bool_decide; split; [by intros [= <-]|by intros [_ ->]|done|by intros [? _]].
  - split; [by intros [= <-]|by intros ->].
Qed.

(** A handler that goes through [bind_item_id]. *)
Ltac bound :=
  repeat match goal with
  | H : bind_item_id _ _ = Ok _ |- _ => apply bind_item_id_at in H; cbn in H
  | H : _ = _ ∧ _ = _ |- _ => destruct H as [-> ->]
  | H : ?s = set_item_id _ _ |- _ => subst s
  end; cbn in *.

Lemma item_added_refines : implements ItemAdded validate_response_scaffold.
Proof.
  intros e ph s' Hk. unfold validate_response_scaffold, of_this_response. decide_kind Hk. split.
  - unfold output_item_event. destruct ph; cbn; try discriminate; intros E; guards; try done. bound. guards.
    eexists. split; [apply speaks_item_added; [done|]|done]. by split_and!.
  - intros (ph' & Hs & ->). rules Hk Hs. destruct H1 as ([] & ? & ? & ? & ? & ? & ?).
    unfold output_item_event. cbn. by decide_guards.
Qed.

Lemma part_added_refines : implements PartAdded validate_response_scaffold.
Proof.
  intros e ph s' Hk. unfold validate_response_scaffold, of_this_response. decide_kind Hk. split.
  - unfold content_part_event. destruct ph; cbn; try discriminate; intros E; guards; try done. bound. guards.
    eexists. split; [apply speaks_part_added; [done| |done]|done]. by split_and!.
  - intros (ph' & Hs & ->). rules Hk Hs. destruct H1 as ([] & ? & ? & ?).
    unfold content_part_event, bind_item_id. cbn. by decide_guards.
Qed.

Lemma part_done_refines : implements PartDone validate_response_scaffold.
Proof.
  intros e ph s' Hk. unfold validate_response_scaffold, of_this_response. decide_kind Hk. split.
  - unfold content_part_event. destruct ph; cbn; try discriminate; intros E; guards; try done. bound. guards.
    eexists. split; [apply speaks_part_done; [done| |done]|done]. by split_and!.
  - intros (ph' & Hs & ->). rules Hk Hs. destruct H1 as ([] & ? & ? & ?).
    unfold content_part_event, bind_item_id. cbn. by decide_guards.
Qed.

Lemma item_done_refines : implements ItemDone validate_response_scaffold.
Proof.
  intros e ph s' Hk. unfold validate_response_scaffold, of_this_response. decide_kind Hk. split.
  - unfold output_item_event. destruct ph; cbn; try discriminate; intros E; guards; try done. bound. guards.
    eexists. split; [apply speaks_item_done; [done|]|done]. by split_and!.
  - intros (ph' & Hs & ->). rules Hk Hs. destruct H1 as ([] & ? & ? & ? & ? & ? & ?).
    unfold output_item_event, bind_item_id. cbn. by decide_guards.
Qed.

(** [validate_audio_identity] from the phase on in which the item is known. *)
Lemma audio_identity_at e ph s' :
  (3 ≤ phase_rank ph)%nat →
  validate_audio_identity e (at_phase ph) = Ok s' ↔
  s' = at_phase ph ∧ ∃ rid iid, phase_response ph = Some rid ∧ phase_item ph = Some iid ∧ of_content rid iid e.
Proof.
  intros Hr. unfold validate_audio_identity, of_this_response. split.
  - destruct ph; cbn in *; try lia; intros E; guards; try done. all: bound; guards.
    all: split; [done|]; do 2 eexists; by split_and!.
  - intros (-> & rid & iid & Er & Ei & [] & ? & ? & ?). destruct ph; cbn in *; try lia.
    all: injection Er as ->; injection Ei as ->; unfold bind_item_id; cbn; by decide_guards.
Qed.

Lemma audio_identity_part e rid iid chunks :
  of_content rid iid e →
  validate_audio_identity e (at_phase (PhPart rid iid chunks)) = Ok (at_phase (PhPart rid iid chunks)).
Proof. intros Hc. apply audio_identity_at; [cbn; lia|]. split; [done|by do 2 eexists]. Qed.

Lemma audio_identity_early e ph s' :
  (phase_rank ph < 3)%nat → validate_audio_identity e (at_phase ph) = Ok s' →
  ss_output_item_added s' = false.
Proof.
  intros Hr. unfold validate_audio_identity. destruct ph; cbn in *; try lia; intros E; guards; try done. by bound.
Qed.

(** An audio event that is accepted finds the response and its item. *)
Lemma audio_phase e ph s1 :
  validate_audio_identity e (at_phase ph) = Ok s1 → ss_output_item_added s1 = true →
  s1 = at_phase ph ∧ ∃ rid iid, phase_response ph = Some rid ∧ phase_item ph = Some iid ∧ of_content rid iid e.
Proof.
  intros E Hadded. destruct (Nat.le_gt_cases 3 (phase_rank ph)) as [Hr|Hr].
  - by apply audio_identity_at in E.
  - rewrite (audio_identity_early _ _ _ Hr E) in Hadded. done.
Qed.

Lemma mjoin_snoc (chunks : list bytes) pcm : mjoin (chunks ++ [pcm]) = mjoin chunks ++ pcm.
Proof. by rewrite mjoin_app, mjoin_cons, app_nil_r. Qed.

Lemma audio_delta_refines : implements AudioDelta append_audio_delta.
Proof.
  intros e ph s' Hk. split.
  - unfold append_audio_delta. cbv zeta. intros E. guards.
    match goal with H : validate_audio_identity _ _ = Ok _ |- _ =>
      destruct (audio_phase _ _ _ H) as (-> & rid & iid & Er & Ei & Hc); [done|] end.
    destruct ph as [| | | |r i chunks| | | |]; cbn in *; try discriminate. injection Er as ->. injection Ei as ->.
    match goal with Hd : base64_decode _ = Some ?pcm |- _ => exists (PhPart rid iid (chunks ++ [pcm])) end.
    split; [eapply speaks_delta; try done|].
    + by intros ->.
    + unfold count_delta, extend_pcm, session_at. cbn. rewrite mjoin_snoc, length_app. cbn. f_equal; lia || by destruct chunks.
  - intros (ph' & Hs & ->). rules Hk Hs. unfold append_audio_delta.
    rewrite audio_identity_part by done.
    cbn. match goal with H : has (member "delta" e) _ |- _ => rewrite H end. cbn.
    rewrite (proj2 (Z.leb_gt _ _)) by lia. match goal with H : base64_decode _ = _ |- _ => rewrite H end. cbn.
    rewrite (proj2 (Nat.eqb_neq _ _)) by (by intros ?%length_zero_iff_nil).
    match goal with H : Nat.even _ = true |- _ => rewrite H end. cbn. rewrite (proj2 (Z.ltb_ge _ _)) by lia.
    unfold count_delta, extend_pcm, session_at. cbn. rewrite mjoin_snoc, length_app. cbn. do 2 f_equal; lia || by destruct chunks.
Qed.

Lemma audio_done_refines : implements AudioDone mark_audio_done.
Proof.
  intros e ph s' Hk. split.
  - unfold mark_audio_done. intros E. guards.
    match goal with H : validate_audio_identity _ _ = Ok _ |- _ =>
      destruct (audio_phase _ _ _ H) as (-> & rid & iid & Er & Ei & Hc); [done|] end.
    destruct ph as [| | | |r i chunks| | | |]; cbn in *; try discriminate. injection Er as ->. injection Ei as ->.
    exists (PhAudio rid iid chunks). split; [|done]. apply speaks_audio_done; [done..|]. by intros ->.
  - intros (ph' & Hs & ->). rules Hk Hs. unfold mark_audio_done.
    rewrite audio_identity_part by done.
    cbn. rewrite (proj2 (Nat.eqb_neq _ _)) by (by intros ?%length_zero_iff_nil). done.
Qed.

Lemma response_done_refines : implements ResponseDone mark_response_done.
Proof.
  intros e ph s' Hk. split.
  - unfold mark_response_done. destruct ph; cbn; try discriminate; intros E; guards; try done.
    eexists. split; [by eapply speaks_done|done].
  - intros (ph' & Hs & ->). rules Hk Hs. unfold mark_response_done. cbn.
    match goal with H : member "response" e = _ |- _ => rewrite H end. cbn.
    match goal with H : has (member "id" r) rid |- _ => rewrite (bool_decide_eq_true_2 _ H) end. by decide_guards.
Qed.
End refinement.

(** ** One event *)

Section event.
Context `{SpeechExternals} (voice model session_id : text).
Notation at_phase := (session_at model session_id).

(** The name of an event that [register_event] accepts. *)
Definition new_event (ids : gset text) (events : Z) (e : json) (id : text) : Prop :=
  has (member "event_id" e) id ∧ valid_service_event_id id = true ∧ id ∉ ids ∧ events < MAX_TTS_SERVER_EVENTS.

Lemma register_event_at e ph ids events s' :
  register_event e (at_phase ph ids events) = Ok s' ↔
  ∃ id, new_event ids events e id ∧ s' = at_phase ph ({[id]} ∪ ids) (events + 1).
Proof.
  unfold register_event, new_event. cbn [ss_server_events ss_request_submitted ss_server_event_ids session_at]. split.
  - intros E. guards.
    eexists. split; [split_and!; done || lia|done].
  - intros (id & (Hid & Hv & Hnew & Hlt) & ->). rewrite (proj2 (Z.leb_gt _ _)) by lia.
    rewrite (proj2 (service_id_ok _ _ _) (conj Hid Hv)). cbn. by rewrite decide_False.
Qed.

(** The handlers of the code, by kind. *)
Definition kind_handler (k : EventKind) (e : json) (s : TtsSessionState) : result AttemptFailure TtsSessionState :=
  match k with
  | InputCommitted => input_committed e s
  | ResponseCreated => parse_response_created e voice s
  | ItemAdded | PartAdded | PartDone | ItemDone => validate_response_scaffold e s
  | AudioDelta => append_audio_delta e s
  | AudioDone => mark_audio_done e s
  | ResponseDone => mark_response_done e s
  end.

Lemma kind_handler_refines k ids events : implements voice model session_id ids events k (kind_handler k).
Proof.
  destruct k; cbn [kind_handler].
  - apply input_committed_refines.
  - apply response_created_refines.
  - apply item_added_refines.
  - apply part_added_refines.
  - apply audio_delta_refines.
  - apply audio_done_refines.
  - apply part_done_refines.
  - apply item_done_refines.
  - apply response_done_refines.
Qed.

(** The dispatch on the type reaches the kind's handler, and only nine types are handled. *)
Lemma handle_event_kind k e s :
  of_kind k e → handle_event voice e s = (let? s := register_event e s in kind_handler k e s).
Proof.
  intros Hk. unfold handle_event, event_type. destruct (register_event e s); [|done]. cbn [rbind].
  rewrite Hk. cbn [of_option rbind]. cbv zeta. destruct k; decide_kind Hk; reflexivity.
Qed.

Lemma handle_event_known e s s' :
  handle_event voice e s = Ok s' → ∃ k, of_kind k e.
Proof.
  unfold handle_event. intros (s1 & _ & E)%rbind_ok. apply rbind_ok in E as (t & _ & E). cbv zeta in E.
  assert (∀ k, is_text k (member "type" e) = true → has (member "type" e) (key k)) as Hname
    by (intros k; apply is_text_true).
  repeat match type of E with
  | (if ?b then _ else _) = Ok _ => destruct b eqn:?
  | Err _ = Ok _ => discriminate E
  end.
  - exists InputCommitted. by apply Hname.
  - exists ResponseCreated. by apply Hname.
  - match goal with H : _ || _ = true |- _ => apply orb_prop in H as [[[H|H]%orb_prop|H]%orb_prop|H]; apply Hname in H end.
    + by exists ItemAdded.
    + by exists PartAdded.
    + by exists PartDone.
    + by exists ItemDone.
  - exists AudioDelta. by apply Hname.
  - exists AudioDone. by apply Hname.
  - exists ResponseDone. by apply Hname.
Qed.

Lemma handle_event_at e ph ids events s' :
  handle_event voice e (at_phase ph ids events) = Ok s' ↔
  ∃ id ph', new_event ids events e id ∧ speaks voice ph e ph'
    ∧ s' = at_phase ph' ({[id]} ∪ ids) (events + 1).
Proof.
  split.
  - intros E. destruct (handle_event_known _ _ _ E) as [k Hk]. rewrite (handle_event_kind k) in E by done.
    apply rbind_ok in E as (s1 & (id & Hnew & ->)%register_event_at & E).
    apply (kind_handler_refines k) in E as (ph' & ? & ->); [|done]. by exists id, ph'.
  - intros (id & ph' & Hnew & Hs & ->).
    assert (∃ k, of_kind k e) as [k Hk] by (destruct Hs; eauto).
    rewrite (handle_event_kind k) by done. apply rbind_ok.
    exists (at_phase ph ({[id]} ∪ ids) (events + 1)). split; [apply register_event_at; by exists id|].
    apply (kind_handler_refines k); [done|]. by exists ph'.
Qed.
End event.
