(* ===== verification/TtsSpeech.v ===== *)
(** * The speech session, end to end

    A session returns audio exactly for the streams on which the service says one complete
    response ([speech_is_one_response], [complete_response_is_spoken]), and it submits its
    text at most once ([submits_at_most_once]). *)

From stdpp Require Import gmap.
From S2P Require Import Prelude Bytes StrOps CacheRef StoreTypes TurnPack Audio TtsCache WsFrames WsFramesProps TtsSession TtsSays TtsPhases.

Section speech.
Context `{Uuids, Serde, SpeechExternals}.

(** The stream carries these events, each as one framed message. *)
Inductive carries : list json → bytes → Prop :=
| carries_nil : carries [] []
| carries_cons event message wire events wires :
    framed None message wire → json_from_slice message = Some event → carries events wires →
    carries (event :: events) (wire ++ wires).

(** Events that each have a new name and take the protocol from a phase to another. *)
Inductive answer (voice : text) : gset text → Z → Phase → list json → Phase → Prop :=
| answer_nil ids n ph : answer voice ids n ph [] ph
| answer_cons ids n ph e id ph' events ph'' :
    new_event ids n e id → speaks voice ph e ph' →
    answer voice ({[id]} ∪ ids) (n + 1) ph' events ph'' →
    answer voice ids n ph (e :: events) ph''.

(** The whole of what the service says in a session: the session is opened as requested, and
    one response is given from its first event to its last. *)
Definition whole_response (request : TtsRequest) (created updated : json) (events : list json)
    (model : text) (chunks : list bytes) (characters : option Z) : Prop :=
  ∃ session_id id0 id1 response_id item_id,
    parse_created created = Ok (model, session_id, id0)
    ∧ new_event {[id0]} 1 updated id1
    ∧ validate_updated updated (new_session model session_id id0) (tr_voice request) = Ok tt
    ∧ answer (tr_voice request) ({[id1]} ∪ {[id0]}) 2 PhSubmitted events
        (PhFinished response_id item_id chunks characters).

(** ** What a response's audio is *)

Definition phase_ok (ph : Phase) : Prop :=
  Nat.even (length (mjoin (phase_chunks ph))) = true
  ∧ blen (mjoin (phase_chunks ph)) ≤ MAX_TTS_PCM_BYTES
  ∧ ((5 ≤ phase_rank ph)%nat → mjoin (phase_chunks ph) ≠ [])
  ∧ (phase_chunks ph ≠ [] → mjoin (phase_chunks ph) ≠ []).

Lemma speaks_ok voice ph e ph' : speaks voice ph e ph' → phase_ok ph → phase_ok ph'.
Proof.
  intros Hs (He & Hb & Hn & Hc). unfold phase_ok.
  destruct Hs; cbn [phase_chunks phase_rank] in *; try (split_and!; [done|done|lia|done]).
  - rewrite mjoin_snoc, length_app. split_and!; [|unfold blen in *; rewrite length_app; lia|lia|].
    2: by intros _ [_ ?]%app_eq_nil.
    rewrite Nat.even_add, He. by match goal with E : Nat.even _ = true |- _ => rewrite E end.
  - split_and!; auto.
  - split_and!; auto with lia.
  - split_and!; auto with lia.
  - split_and!; auto with lia.
Qed.

Lemma answer_ok voice ids n ph events ph' : answer voice ids n ph events ph' → phase_ok ph → phase_ok ph'.
Proof. induction 1; [done|]. eauto using speaks_ok. Qed.

Lemma answer_length voice ids n ph events ph' :
  answer voice ids n ph events ph' → events = [] ∨ n + Z.of_nat (length events) ≤ MAX_TTS_SERVER_EVENTS.
Proof.
  induction 1 as [|? ? ? ? ? ? ? ? (_ & _ & _ & Hlt) _ _ [->|IH]]; [by left|right; cbn; lia|right].
  rewrite length_cons. lia.
Qed.

Lemma whole_response_pcm request created updated events model chunks characters :
  whole_response request created updated events model chunks characters →
  validate_pcm (mjoin chunks) = Ok (Z.of_nat (length (mjoin chunks) / 2)).
Proof.
  intros (? & ? & ? & ? & ? & _ & _ & _ & Ha). apply answer_ok in Ha as (He & Hb & Hn & _).
  2:{ split_and!; try done. cbn. lia. }
  cbn [phase_chunks phase_rank] in *. unfold validate_pcm. rewrite He.
  rewrite (proj2 (Nat.eqb_neq _ _)) by (intros ?%length_zero_iff_nil; by apply Hn; [lia|]). cbn [negb orb].
  rewrite (proj2 (Z.ltb_ge _ _)); [done|]. unfold blen, MAX_TTS_PCM_BYTES, MAX_TTS_SAMPLES, TTS_SAMPLE_RATE, MAX_TTS_SECONDS in *.
  rewrite Nat2Z.inj_div. change (Z.of_nat 2) with 2. div_lia.
Qed.

(** ** The loop over the response *)

Section loop.
Context (voice model session_id : text).
Notation at_phase := (session_at model session_id).

Lemma response_loop_answer fuel ph ids n c s c' :
  bytes_ok (stream c) → cn_fragmented c = None →
  response_loop_fuel fuel voice (at_phase ph ids n) c = (Ok s, c') →
  ∃ events wire ph' ids' n', carries events wire ∧ stream c = wire ++ stream c'
    ∧ answer voice ids n ph events ph' ∧ phase_rank ph' = 8%nat ∧ s = at_phase ph' ids' n'.
Proof.
  revert ph ids n c. induction fuel as [|fuel IH]; intros ph ids n c Hok Hf E; cbn [response_loop_fuel ss_response_done session_at] in E.
  all: destruct (phase_rank ph =? 8)%nat eqn:Er.
  1,3: apply Nat.eqb_eq in Er; rewrite Er in E; injection E as <- <-;
    exists [], [], ph, ids, n; split_and!; [constructor|done|constructor|done|done].
  all: assert ((8 <=? phase_rank ph)%nat = false) as Er'
    by (apply Nat.eqb_neq in Er; apply Nat.leb_gt; destruct ph; cbn in *; lia).
  all: rewrite Er' in E.
  { discriminate E. }
  apply iobind_ok in E as (e & c1 & Ee & E). apply iobind_ok in E as (s1 & c2 & Eh & E).
  destruct (read_tts_event_wire _ _ _ _ Hok Ee) as (message & wire & Hfr & Es & Ej & Hf1). rewrite Hf in Hfr.
  injection Eh as Eh <-. apply handle_event_at in Eh as (id & ph1 & Hnew & Hs & ->).
  assert (bytes_ok (stream c1)) as Hok1 by (rewrite Es in Hok; by apply Forall_app in Hok as [_ ?]).
  destruct (IH _ _ _ _ Hok1 Hf1 E) as (events & wires & ph' & ids' & n' & Hc & Es' & Ha & Hr & ->).
  exists (e :: events), (wire ++ wires), ph', ids', n'.
  split_and!; [by econstructor|by rewrite Es, Es', app_assoc|by econstructor|done|done].
Qed.

Lemma answer_response_loop ids n ph events ph' :
  answer voice ids n ph events ph' → phase_rank ph' = 8%nat →
  ∀ fuel wire rest c, (length events ≤ fuel)%nat → carries events wire → open_at None (wire ++ rest) c →
  ∃ ids' n' c', response_loop_fuel fuel voice (at_phase ph ids n) c = (Ok (at_phase ph' ids' n'), c')
    ∧ open_at None rest c'.
Proof.
  induction 1 as [ids n ph|ids n ph e id ph1 events ph' Hnew Hs Ha IH]; intros Hr fuel wire rest c Hl Hc Ho.
  - inversion Hc; subst. exists ids, n, c. split; [|done].
    destruct fuel; cbn [response_loop_fuel ss_response_done session_at]; by rewrite Hr.
  - inversion Hc as [|? message w ? ws Hfr Ej Hc' E1 E2]; subst. destruct fuel as [|fuel]; [cbn in Hl; lia|].
    rewrite <-app_assoc in Ho.
    destruct (read_tts_event_framed true _ _ _ _ _ Hfr Ej c Ho) as (c1 & Er & Ho1).
    destruct (IH Hr fuel ws rest c1 ltac:(cbn in Hl; lia) Hc' Ho1) as (ids' & n' & c2 & E & Ho2).
    exists ids', n', c2. split; [|done].
    cbn [response_loop_fuel ss_response_done session_at]. assert ((8 <=? phase_rank ph)%nat = false) as -> by (destruct Hs; done).
    unfold iobind at 1. rewrite Er. unfold iobind, iolift.
    assert (handle_event voice e (at_phase ph ids n) = Ok (at_phase ph1 ({[id]} ∪ ids) (n + 1))) as ->; [|exact E].
    apply handle_event_at. by exists id, ph1.
Qed.

Lemma response_loop_ok ph ids n c s c' :
  bytes_ok (stream c) → cn_fragmented c = None →
  response_loop voice (at_phase ph ids n) c = (Ok s, c') →
  ∃ events wire ph' ids' n', carries events wire ∧ stream c = wire ++ stream c'
    ∧ answer voice ids n ph events ph' ∧ phase_rank ph' = 8%nat ∧ s = at_phase ph' ids' n'.
Proof.
  unfold response_loop. generalize (Z.to_nat MAX_TTS_SERVER_EVENTS). intros fuel.
  apply response_loop_answer.
Qed.

Lemma response_loop_total ids n ph events ph' wire rest c :
  answer voice ids n ph events ph' → phase_rank ph' = 8%nat → 0 ≤ n →
  carries events wire → open_at None (wire ++ rest) c →
  ∃ ids' n' c', response_loop voice (at_phase ph ids n) c = (Ok (at_phase ph' ids' n'), c') ∧ open_at None rest c'.
Proof.
  intros Ha Hr Hn Hc Ho. unfold response_loop.
  assert (length events ≤ Z.to_nat MAX_TTS_SERVER_EVENTS)%nat as Hl.
  { destruct (answer_length _ _ _ _ _ _ Ha) as [->|]; cbn [length]; lia. }
  revert Hl. generalize (Z.to_nat MAX_TTS_SERVER_EVENTS). intros fuel Hl.
  by eapply answer_response_loop.
Qed.
End loop.

(** ** The ends of a session *)

(** Writing leaves what is read alone. *)
Lemma iotry_inv {E F A} (m : Io E A) c (r : result F (result E A)) c' :
  iotry m c = (r, c') → ∃ x, r = Ok x ∧ m c = (x, c').
Proof. unfold iotry. destruct (m c) as [x c1]. intros [= <- <-]. eauto. Qed.

Lemma teardown_keeps s c r c' :
  teardown s c = (r, c') →
  ∃ s', r = Ok s' ∧ ss_pcm s' = ss_pcm s ∧ ss_model s' = ss_model s ∧ ss_characters s' = ss_characters s.
Proof.
  assert (∀ e s', register_event e s = Ok s' → ss_pcm s' = ss_pcm s ∧ ss_model s' = ss_model s ∧ ss_characters s' = ss_characters s) as Hreg.
  { intros e s'. unfold register_event. intros E. destruct (_ <=? _); [discriminate E|].
    apply rbind_ok in E as (id & _ & E). destruct (decide _); [discriminate E|]. by injection E as <-. }
  unfold teardown, iobind, iotry, ioret. destruct (send finish_event c) as [[u|f] c1].
  - destruct (read_tts_event true c1) as [[e|f] c2].
    + destruct (write_masked_close _ c2) as [? c3]. destruct (await_peer_close c3) as [? c4]. intros [= <- <-].
      eexists. split; [done|]. destruct (register_event e s) eqn:Ereg; [by eapply Hreg|done].
    + destruct (write_masked_close _ c2) as [? c3]. destruct (await_peer_close c3) as [? c4]. intros [= <- <-]. by eexists.
  - destruct (write_masked_close _ c1) as [? c3]. destruct (await_peer_close c3) as [? c4]. intros [= <- <-]. by eexists.
Qed.

(** Sending keeps the readers' side of the connection. *)
Definition keeps_reading {E A} (m : Io E A) : Prop := ∀ c,
  stream (m c).2 = stream c ∧ cn_fragmented (m c).2 = cn_fragmented c.

Lemma keeps_reading_bind {E A B} (m : Io E A) (k : A → Io E B) :
  keeps_reading m → (∀ a, keeps_reading (k a)) → keeps_reading (iobind m k).
Proof.
  intros Hm Hk c. unfold iobind. destruct (Hm c) as [E1 E2]. destruct (m c) as [[a|e] c1]; [|done].
  destruct (Hk a c1) as [E3 E4]. cbn in *. by rewrite E3, E4.
Qed.

Lemma keeps_map_err {E F A} (f : E → F) (m : Io E A) : keeps_reading m → keeps_reading (iomap_err f m).
Proof. intros Hm c. specialize (Hm c). unfold iomap_err. by destruct (m c) as [[?|?] ?]. Qed.

Lemma keeps_write frame : keeps_reading (write_all_flush frame).
Proof. intros c. unfold write_all_flush. by destruct (cn_outcomes c) as [|[|] ?]. Qed.

Lemma keeps_send event : keeps_reading (send event).
Proof.
  unfold send, client_event_id, send_client_event, write_masked_text, draw_uuid.
  repeat (apply keeps_reading_bind; [|intros ?]); try by intros c.
  destruct (_ <? _)%nat; [by intros c|]. apply keeps_map_err, keeps_reading_bind; [by intros c|]. intros ?. apply keeps_write.
Qed.

(** An event identity of the client is 38 characters long. *)
Lemma event_id_length id : length (event_id_text id) = (6 + 2 * length id)%nat.
Proof.
  unfold event_id_text. rewrite length_app. f_equal.
  induction id as [|b id IH]; [done|]. rewrite fmap_cons, mjoin_cons, length_app, IH. cbn [length]. lia.
Qed.

Lemma client_event_id_length n : length (event_id_text (new_v4 n)) = 38%nat.
Proof. by rewrite event_id_length, new_v4_length. Qed.

(** An event of the client that fits a message under each of the identities
    [client_event_id] makes. *)
Definition sendable (event : text → json) : Prop :=
  ∀ n, ∃ message, json_to_vec (event (event_id_text (new_v4 n))) = Some message
    ∧ (length message ≤ MAX_SERVER_EVENT_BYTES)%nat.

Lemma open_send event rest c :
  sendable event → open_at None rest c → ∃ c', send event c = (Ok tt, c') ∧ open_at None rest c'.
Proof.
  intros Hs (Ef & Eo & Es). unfold send, client_event_id, iobind, draw_uuid, ioret, send_client_event, iolift.
  destruct (Hs (cn_uuids c)) as (message & -> & Hl). cbn [of_option].
  unfold iobind. rewrite (proj2 (Nat.ltb_ge _ _)) by lia. unfold iomap_err, write_masked_text, iobind, draw_uuid, write_all_flush. cbn.
  rewrite Eo. eexists. split; [done|]. by split_and!.
Qed.

(** ** The session *)

(** What a session that follows this response returns. *)
Definition response_audio (request : TtsRequest) (transport : TransportRoute) (model : text)
    (chunks : list bytes) (characters : option Z) : TtsAudio :=
  {| ta_pcm := mjoin chunks; ta_model := model; ta_voice := tr_voice request;
     ta_sample_rate := TTS_SAMPLE_RATE; ta_samples := Z.of_nat (length (mjoin chunks) / 2);
     ta_characters := characters; ta_transport := route_as_str transport; ta_attempts := 1 |}.

Lemma register_event_ok e s s' :
  register_event e s = Ok s' ↔
  ∃ id, new_event (ss_server_event_ids s) (ss_server_events s) e id ∧ s' = add_event_id id s.
Proof.
  unfold register_event, new_event. split.
  - destruct (Z.leb_spec MAX_TTS_SERVER_EVENTS (ss_server_events s)); [done|].
    intros (id & [? ?]%service_id_ok & E)%rbind_ok. destruct (decide _); [done|]. injection E as <-. by exists id.
  - intros (id & (Hid & Hv & Hnew & Hlt) & ->). rewrite (proj2 (Z.leb_gt _ _)) by lia.
    rewrite (proj2 (service_id_ok _ _ _) (conj Hid Hv)). cbn. by rewrite decide_False.
Qed.

(** A read and a send, followed along the stream. *)
Lemma read_along b c event c' :
  bytes_ok (stream c) → cn_fragmented c = None → read_tts_event b c = (Ok event, c') →
  bytes_ok (stream c') ∧ cn_fragmented c' = None
  ∧ ∃ wire, stream c = wire ++ stream c' ∧ carries [event] wire.
Proof.
  intros Hok Hf E. destruct (read_tts_event_wire _ _ _ _ Hok E) as (message & wire & Hfr & Es & Ej & Hf1).
  rewrite Hf in Hfr. rewrite Es in Hok. apply Forall_app in Hok as [_ ?]. split_and!; [done..|].
  exists wire. split; [done|]. rewrite <-(app_nil_r wire). by econstructor; [| |constructor].
Qed.

Lemma send_along {F} (f : AttemptFailure → F) event c u c' :
  bytes_ok (stream c) → cn_fragmented c = None → iomap_err f (send event) c = (Ok u, c') →
  bytes_ok (stream c') ∧ cn_fragmented c' = None ∧ stream c' = stream c.
Proof.
  intros Hok Hf E. destruct (keeps_map_err f _ (keeps_send event) c) as [Es Ef]. rewrite E in Es, Ef. cbn in *.
  split_and!; congruence.
Qed.

Lemma carries_app es ws es' ws' : carries es ws → carries es' ws' → carries (es ++ es') (ws ++ ws').
Proof. induction 1; intros; cbn; [done|]. rewrite <-app_assoc. econstructor; eauto. Qed.

Lemma open_session_reads request c s c' :
  bytes_ok (stream c) → open_session request c = (Ok s, c') →
  bytes_ok (stream c') ∧ cn_fragmented c' = None
  ∧ ∃ created updated wire model session_id id0 id1,
      stream c = wire ++ stream c' ∧ carries [created; updated] wire
      ∧ parse_created created = Ok (model, session_id, id0) ∧ new_event {[id0]} 1 updated id1
      ∧ validate_updated updated (new_session model session_id id0) (tr_voice request) = Ok tt
      ∧ mark_request_submitted s = session_at model session_id PhSubmitted ({[id1]} ∪ {[id0]}) 2.
Proof.
  intros Hok E. unfold open_session in E. apply iobind_ok in E as ([] & c0 & E0 & E). injection E0 as <-.
  assert (bytes_ok (stream (with_fragmented None c))) as Hok0 by done.
  apply iobind_ok in E as (created & c1 & E1 & E). destruct (read_along _ _ _ _ Hok0 eq_refl E1) as (Hok1 & Hf1 & w1 & Es1 & Hc1).
  apply iobind_ok in E as ([[model session_id] id0] & c2 & E2 & E). injection E2 as E2 <-. cbv zeta in E.
  apply iobind_ok in E as ([] & c3 & E3 & E). destruct (send_along _ _ _ _ _ Hok1 Hf1 E3) as (Hok3 & Hf3 & Es3).
  apply iobind_ok in E as (updated & c4 & E4 & E). destruct (read_along _ _ _ _ Hok3 Hf3 E4) as (Hok4 & Hf4 & w2 & Es4 & Hc2).
  apply iobind_ok in E as (s1 & c5 & E5 & E). injection E5 as E5 <-. apply register_event_ok in E5 as (id1 & Hnew & ->).
  apply iobind_ok in E as ([] & c6 & E6 & E). injection E6 as E6 <-.
  apply iobind_ok in E as ([] & c7 & E7 & E). destruct (send_along _ _ _ _ _ Hok4 Hf4 E7) as (Hok7 & Hf7 & Es7).
  injection E as <- <-. split_and!; [done..|]. exists created, updated, (w1 ++ w2), model, session_id, id0, id1.
  split_and!; [|by apply (carries_app [created] w1 [updated] w2)|done|done|exact E6|done].
  change (stream c) with (stream (with_fragmented None c)). by rewrite Es1, <-Es3, Es4, Es7, app_assoc.
Qed.

(** ** The states of a session *)

(** The handler over the events that arrive after the commit. *)
Fixpoint follow (voice : text) (events : list json) (s : TtsSessionState) : result AttemptFailure TtsSessionState :=
  match events with
  | [] => Ok s
  | e :: events => let? s := handle_event voice e s in follow voice events s
  end.

(** A well-formed session: the flags are set in the order of the protocol, the identities
    are known from where they are, the audio is whole samples within its bounds, and the
    events are counted by their names. *)
Record session_wf (s : TtsSessionState) : Prop := mk_session_wf {
  wf_submitted : ss_request_submitted s = true;
  wf_response : is_Some (ss_response_id s) → ss_committed s = true;
  wf_item_id : is_Some (ss_item_id s) ↔ ss_output_item_added s = true;
  wf_item : ss_output_item_added s = true → is_Some (ss_response_id s);
  wf_part : ss_content_part_added s = true → ss_output_item_added s = true;
  wf_received : ss_received_audio s = true → ss_content_part_added s = true;
  wf_audio_done : ss_audio_done s = true → ss_received_audio s = true;
  wf_part_done : ss_content_part_done s = true → ss_audio_done s = true;
  wf_item_done : ss_output_item_done s = true → ss_content_part_done s = true;
  wf_done : ss_response_done s = true → ss_output_item_done s = true;
  wf_characters : is_Some (ss_characters s) → ss_response_done s = true;
  wf_pcm : ss_received_audio s = true ↔ ss_pcm s ≠ [];
  wf_samples : Nat.even (length (ss_pcm s)) = true;
  wf_pcm_bound : blen (ss_pcm s) ≤ MAX_TTS_PCM_BYTES;
  wf_deltas : 0 ≤ ss_audio_deltas s ≤ MAX_TTS_AUDIO_DELTAS;
  wf_events : ss_server_events s = Z.of_nat (size (ss_server_event_ids s));
  wf_events_bound : ss_server_events s ≤ MAX_TTS_SERVER_EVENTS;
}.

(** Phases with as many pieces as may be counted, and audio once it is closed. *)
Definition phase_counted (ph : Phase) : Prop :=
  Z.of_nat (length (phase_chunks ph)) ≤ MAX_TTS_AUDIO_DELTAS ∧ ((5 ≤ phase_rank ph)%nat → phase_chunks ph ≠ []).

Lemma speaks_counted voice ph e ph' : speaks voice ph e ph' → phase_counted ph → phase_counted ph'.
Proof.
  intros Hs [Hl Hc]. unfold phase_counted.
  destruct Hs; cbn [phase_chunks phase_rank] in *; rewrite ?length_app; cbn [length]; split; auto with lia; lia.
Qed.

Lemma session_at_wf model session_id ph ids n :
  phase_ok ph → phase_counted ph → n = Z.of_nat (size ids) → n ≤ MAX_TTS_SERVER_EVENTS →
  session_wf (session_at model session_id ph ids n).
Proof.
  intros (He & Hb & _ & Hc) [Hl Hc5] -> Hn.
  assert (∀ l : list bytes, negb (length l =? 0)%nat = true ↔ l ≠ []) as Hlen by (by intros []).
  split; cbn [session_at ss_request_submitted ss_response_id ss_committed ss_item_id ss_output_item_added
    ss_content_part_added ss_received_audio ss_audio_done ss_content_part_done ss_output_item_done
    ss_response_done ss_characters ss_pcm ss_audio_deltas ss_server_events ss_server_event_ids]; rewrite ?Hlen; try done; try lia.
  all: try (destruct ph; cbn in *; intuition (try done; eauto with lia); fail).
  split; [done|]. intros Hne Hnil. by rewrite Hnil in Hne.
Qed.

Lemma follow_wf voice model session_id events ph ids n s :
  phase_ok ph → phase_counted ph → n = Z.of_nat (size ids) → n ≤ MAX_TTS_SERVER_EVENTS →
  follow voice events (session_at model session_id ph ids n) = Ok s → session_wf s.
Proof.
  revert ph ids n. induction events as [|e events IH]; intros ph ids n Hok Hc Hn Hmax E; cbn [follow] in E.
  - injection E as <-. by apply session_at_wf.
  - apply rbind_ok in E as (s1 & (id & ph1 & (_ & _ & Hnew & Hlt) & Hs & ->)%handle_event_at & E).
    apply (IH ph1 _ _ (speaks_ok _ _ _ _ Hs Hok) (speaks_counted _ _ _ _ Hs Hc)) in E; [done| |lia].
    rewrite size_union, size_singleton by set_solver. lia.
Qed.

(** C35: the eighteen fields of a session are always consistent: from the state in which the
    text was submitted, whatever events the service sends, every state that the handler
    produces has its flags set in the order of the protocol, knows the response and the item
    exactly from where they were named, holds whole samples of audio within the bound,
    received audio exactly if it holds some, and counts as many events as it has names of,
    at most the limit. *)
Theorem session_states_well_formed request c s0 c' events s :
  bytes_ok (stream c) → open_session request c = (Ok s0, c') →
  follow (tr_voice request) events (mark_request_submitted s0) = Ok s → session_wf s.
Proof.
  intros Hok E Hf. destruct (open_session_reads _ _ _ _ Hok E)
    as (_ & _ & created & updated & w & model & sid & id0 & id1 & _ & _ & _ & (_ & _ & Hnew & _) & _ & Es).
  rewrite Es in Hf. eapply (follow_wf _ _ _ _ PhSubmitted); [| | | |exact Hf].
  - split_and!; cbn; done || lia.
  - split; cbn; done || lia.
  - rewrite size_union, !size_singleton by set_solver. done.
  - done.
Qed.

(** C31: a session that returns audio has heard one whole response: after the session was
    opened as requested, the events of the stream were, in this order and with names that
    were never used twice, the committed input, the response, its one item and its one part,
    at least one piece of audio, and the ends of the audio, part, item and response, all of
    them about that response and item; the audio is the pieces put together, and is within
    what the audio containers take.  Nothing else is ever returned. *)
Theorem speech_is_one_response request transport audio c c' :
  bytes_ok (stream c) → run_tts_session request transport c = (Ok audio, c') →
  ∃ created updated events wire rest model chunks characters,
    stream c = wire ++ rest ∧ carries (created :: updated :: events) wire
    ∧ whole_response request created updated events model chunks characters
    ∧ audio = response_audio request transport model chunks characters
    ∧ validate_pcm (ta_pcm audio) = Ok (ta_samples audio).
Proof.
  intros Hok E. unfold run_tts_session in E. apply iobind_ok in E as (s0 & c1 & E1 & E).
  destruct (open_session_reads _ _ _ _ Hok E1) as (Hok1 & Hf1 & created & updated & w & model & sid & id0 & id1 & Es & Hc & Hp & Hn & Hv & Es0).
  cbv zeta in E. rewrite Es0 in E. apply iobind_ok in E as ([] & c2 & E2 & E).
  destruct (send_along _ _ _ _ _ Hok1 Hf1 E2) as (Hok2 & Hf2 & Es2).
  apply iobind_ok in E as (s2 & c3 & E3 & E).
  destruct (response_loop_ok _ _ _ _ _ _ _ _ _ Hok2 Hf2 E3) as (events & wires & ph & ids & n & Hc' & Es' & Ha & Hr & ->).
  apply iobind_ok in E as (s4 & c4 & E4 & E). destruct (teardown_keeps _ _ _ _ E4) as (s4' & [= <-] & Epcm & Emodel & Echars).
  injection E as <- <-. destruct ph as [| | | | | | | |rid iid chunks characters]; try discriminate Hr.
  assert (whole_response request created updated events model chunks characters) as Hw by (by exists sid, id0, id1, rid, iid).
  exists created, updated, events, (w ++ wires), (stream c3), model, chunks, characters.
  rewrite Epcm, Emodel, Echars. split_and!; [|by apply (carries_app [created; updated])|done|done|by eapply whole_response_pcm].
  by rewrite Es, <-Es2, Es', app_assoc.
Qed.

(** C33: a service that speaks the protocol is heard: when the stream carries, in any
    fragments and with control frames anywhere between them, the opening of the session and
    one whole response, and the client's writes succeed, the session returns the response's
    audio, whatever follows on the stream.  The client's three events up to the commit must
    fit the messages it may send: under each 38-character identity it draws, the serializer
    gives at most [MAX_SERVER_EVENT_BYTES] bytes ([sendable]). *)
Theorem complete_response_is_spoken request transport created updated events model chunks characters wire rest c :
  Forall sendable [session_update_event request; append_event request; commit_event] →
  carries (created :: updated :: events) wire →
  whole_response request created updated events model chunks characters →
  cn_outcomes c = [] → stream c = wire ++ rest →
  ∃ c', run_tts_session request transport c = (Ok (response_audio request transport model chunks characters), c').
Proof.
  intros Hsend Hcarry (sid & id0 & id1 & rid & iid & Hp & Hn & Hv & Ha) Ho Es.
  apply Forall_cons in Hsend as [Hs1 [Hs2 [Hs3 _]%Forall_cons]%Forall_cons].
  inversion Hcarry as [|? m1 w1 ? ws1 Hf1 Ej1 Hc1]; subst. inversion Hc1 as [|? m2 w2 ? ws2 Hf2 Ej2 Hc2]; subst.
  rewrite <-!app_assoc in Es. set (c0 := with_fragmented None c).
  assert (open_at None (w1 ++ w2 ++ ws2 ++ rest) c0) as Ho0 by done.
  destruct (read_tts_event_framed false _ _ _ _ _ Hf1 Ej1 _ Ho0) as (c1 & E1 & Ho1).
  destruct (open_send _ _ _ Hs1 Ho1) as (c2 & E2 & Ho2).
  destruct (read_tts_event_framed false _ _ _ _ _ Hf2 Ej2 _ Ho2) as (c3 & E3 & Ho3).
  destruct (open_send _ _ _ Hs2 Ho3) as (c4 & E4 & Ho4).
  destruct (open_send _ _ _ Hs3 Ho4) as (c5 & E5 & Ho5).
  set (s1 := add_event_id id1 (new_session model sid id0)).
  assert (register_event updated (new_session model sid id0) = Ok s1) as Ereg by (apply register_event_ok; by exists id1).
  assert (open_session request c = (Ok s1, c4)) as Eopen.
  { unfold open_session, iobind at 1, fresh_fragments. fold c0. unfold iobind at 1. rewrite E1. unfold iobind at 1, iolift at 1. rewrite Hp.
    unfold iobind at 1, iomap_err at 1. rewrite E2. unfold iobind at 1. rewrite E3.
    unfold iobind at 1, iolift at 1. rewrite Ereg. unfold iobind at 1, iolift at 1.
    change (validate_updated updated s1 (tr_voice request)) with (validate_updated updated (new_session model sid id0) (tr_voice request)).
    rewrite Hv. unfold iobind, iomap_err. by rewrite E4. }
  destruct (response_loop_total (tr_voice request) model sid _ _ _ _ _ ws2 rest c5 Ha)
    as (ids & n & c6 & E6 & Ho6); [done|lia|done|done|].
  unfold run_tts_session, iobind at 1. rewrite Eopen. cbv zeta. unfold iobind at 1, iomap_err. rewrite E5.
  change (mark_request_submitted s1) with (session_at model sid PhSubmitted ({[id1]} ∪ {[id0]}) 2).
  unfold iobind at 1. rewrite E6. unfold iobind.
  destruct (teardown (session_at model sid (PhFinished rid iid chunks characters) ids n) c6) as [r c7] eqn:E7.
  destruct (teardown_keeps _ _ _ _ E7) as (s' & -> & Epcm & Emodel & Echars). exists c7.
  unfold ioret, response_audio. by rewrite Epcm, Emodel, Echars.
Qed.

(** C32: a text is submitted at most once, whatever the service and the transport do: the
    messages a server finds in what a session writes are an initial part of the session's
    four events, in their order, so that there is at most one commit; a failure that may be
    retried is one of a session that did not write the commit; when the commit was written,
    every failure is [AmbiguousAfterCommit] and final; and that error is only reported when
    the text was already given to the service. *)
Theorem submits_at_most_once request transport c r c' :
  run_tts_session request transport c = (r, c') →
  ∃ writes, cn_written c' = cn_written c ++ writes ∧
    let said := omap client_text writes in
    Forall2 sent_by (take (length said) (session_events request)) said ∧
    match r with
    | Ok _ => (3 ≤ length said)%nat
    | Err f =>
        (af_retryable f = true → (length said ≤ 2)%nat)
        ∧ ((3 ≤ length said)%nat → f = ambiguous_after_commit)
        ∧ (f = ambiguous_after_commit → (2 ≤ length said)%nat)
    end.
Proof. intros E. destruct (says_session request transport c) as (ws & Ew & Hs). rewrite E in Ew, Hs. by exists ws. Qed.
End speech.
