(* ===== verification/TtsHttp.v ===== *)
(** * Speech over HTTP (app/host/src/dashscope.rs, [DashScopeTtsClient])

    A text is cut into chunks; each is posted, the answer names a file, the file is fetched
    and decoded, and the pieces are put together.  An attempt that fails may be repeated when
    its failure says so.  What the network does in an attempt is an [AttemptWorld]; the crate
    [httparse] is a parameter, and the requests that were written are the second result. *)

From stdpp Require Import gmap.
From S2P Require Import Prelude Bytes StrOps CacheRef StoreTypes TurnPack Audio TtsCache WsFrames TtsSession.

Definition HOST : text := ascii_bytes "dashscope.aliyuncs.com".
Definition TTS_REQUEST_TARGET : text := ascii_bytes "/api/v1/services/audio/tts/SpeechSynthesizer".
Definition TTS_AUDIO_HOST : text := ascii_bytes "dashscope-result-bj.oss-cn-beijing.aliyuncs.com".
Definition MAX_HTTP_HEADER_BYTES : nat := 16 * 1024.
Definition MAX_TTS_TEXT_BYTES : nat := 64 * 1024.
Definition MAX_TTS_INSTRUCTIONS_BYTES : nat := 16 * 1024.
Definition MAX_TTS_WAV_BYTES : Z := MAX_TTS_PCM_BYTES + 44.
Definition MAX_TTS_RESPONSE_BYTES : Z := 128 * 1024.
Definition MAX_TTS_ATTEMPTS : Z := 3.
Definition MAX_TTS_CHUNK_CHARS : nat := 40.

Record HandshakeTarget := mk_target { ht_host : text; ht_port : Z; ht_request_target : text }.
(** [HandshakeTarget::tts] *)
Definition tts_target : HandshakeTarget := mk_target HOST 443 TTS_REQUEST_TARGET.

(** ** Errors *)

Definition map_verification_error (e : VerificationError) : TtsError :=
  match e with Rejected => TtsRejected | Unavailable => TtsUnavailable | Protocol => TtsProtocol end.
(** [AttemptFailure::transport] *)
Definition transport_failure (e : VerificationError) : AttemptFailure :=
  match e with
  | Rejected => terminal TtsRejected
  | Unavailable => retryable TtsUnavailable
  | Protocol => terminal TtsProtocol
  end.

(** ** Texts *)

(** [char::is_control] *)
Definition is_control (c : bytes) : bool :=
  match c with
  | [b] => between 0 31 b || (b =? 127)
  | [b; c1] => (b =? 194) && between 128 159 c1
  | _ => false
  end.

Definition validate_tts_request (request : TtsRequest) : result TtsError unit :=
  let valid_text :=
    negb (length (tr_text request) =? 0)%nat && (length (tr_text request) <=? MAX_TTS_TEXT_BYTES)%nat
    && negb (existsb is_control (utf8_split (tr_text request))) in
  let valid_voice :=
    negb (length (tr_voice request) =? 0)%nat && (length (tr_voice request) <=? 64)%nat
    && forallb (λ b, is_alnum b || one_of [32; 45; 95] b) (tr_voice request) in
  let valid_instructions :=
    (length (tr_instructions request) <=? MAX_TTS_INSTRUCTIONS_BYTES)%nat
    && negb (existsb is_control (utf8_split (tr_instructions request))) in
  require (valid_text && valid_voice && valid_instructions) TtsInvalidRequest.

(** The characters after which a chunk may end early. *)
Definition natural_boundary (c : bytes) : bool :=
  existsb (λ b, bool_decide (b = c))
    [[227; 128; 130]; [239; 188; 129]; [239; 188; 159]; [239; 188; 155]; [10]].

(** The loop of [split_tts_text]: the characters of the current chunk and their number. *)
Fixpoint split_chars (max_chars : nat) (current : bytes) (count : nat) (cs : list bytes) : list bytes :=
  match cs with
  | [] => match current with [] => [] | _ => [current] end
  | c :: cs =>
      let current := current ++ c in
      let count := S count in
      if (max_chars <=? count)%nat || natural_boundary c && (max_chars / 2 <=? count)%nat
      then current :: split_chars max_chars [] 0 cs
      else split_chars max_chars current count cs
  end.
Definition split_tts_text (s : text) (max_chars : nat) : list bytes := split_chars max_chars [] 0 (utf8_split s).

(** ** Putting the pieces together *)

Definition combine_one (acc chunk : TtsAudio) : result TtsError TtsAudio :=
  if negb (bool_decide (ta_model chunk = ta_model acc)) || negb (bool_decide (ta_voice chunk = ta_voice acc))
     || negb (ta_sample_rate chunk =? ta_sample_rate acc)
     || negb (bool_decide (ta_transport chunk = ta_transport acc))
  then Err TtsProtocol
  else if MAX_TTS_PCM_BYTES <? blen (ta_pcm acc) + blen (ta_pcm chunk) then Err TtsAudioLimit
  else
    let? samples := of_option TtsAudioLimit (checked_add u64_max (ta_samples acc) (ta_samples chunk)) in
    Ok {| ta_pcm := ta_pcm acc ++ ta_pcm chunk; ta_model := ta_model acc; ta_voice := ta_voice acc;
          ta_sample_rate := ta_sample_rate acc; ta_samples := samples;
          ta_characters :=
            match ta_characters acc, ta_characters chunk with
            | Some a, Some b => Some (saturating_add u64_max a b)
            | _, _ => None
            end;
          ta_transport := ta_transport acc;
          ta_attempts := saturating_add u8_max (ta_attempts acc) (ta_attempts chunk) |}.
Fixpoint combine_all (acc : TtsAudio) (chunks : list TtsAudio) : result TtsError TtsAudio :=
  match chunks with
  | [] => Ok acc
  | chunk :: chunks => let? acc := combine_one acc chunk in combine_all acc chunks
  end.
Definition combine_tts_audio (chunks : list TtsAudio) : result TtsError TtsAudio :=
  match chunks with [] => Err TtsInvalidRequest | first :: chunks => combine_all first chunks end.

(** ** One HTTP exchange *)

Record ParsedResponse := mk_parsed {
  pr_complete : bool; pr_version : option Z; pr_code : option Z; pr_headers : list (bytes * bytes) }.
(** [httparse::Response::parse] with room for 32 headers *)
Class HttpParser := { parse_response : bytes → option ParsedResponse }.

(** A stream: whether the request's write succeeds, and what the reads deliver; [None] is a
    failing read, the end of the list the end of the stream. *)
Record HttpStream := mk_http { hs_write : bool; hs_reads : list (option bytes) }.

(** [stream.read(&mut chunk[..limit])]; an empty result is the end of the stream. *)
Definition http_read (limit : nat) (reads : list (option bytes)) : option bytes * list (option bytes) :=
  match reads with
  | [] => (Some [], [])
  | None :: reads => (None, reads)
  | Some b :: reads =>
      if (length b <=? limit)%nat then (Some b, reads) else (Some (take limit b), Some (drop limit b) :: reads)
  end.
Definition readable (reads : list (option bytes)) : nat := sum_list ((λ r, length (default [] r)) <$> reads).

Inductive HeaderScan := NeedMore | Complete (header_end : nat) | TooLarge.
Definition scan_http_header (response : bytes) (maximum : nat) : HeaderScan :=
  match find_str [13; 10; 13; 10] response with
  | Some index => let end_ := (index + 4)%nat in if (end_ <=? maximum)%nat then Complete end_ else TooLarge
  | None => if (maximum <=? length response)%nat then TooLarge else NeedMore
  end.

(** The loop that reads the header: every read that is not the end delivers a byte, so that
    the bytes left bound its turns. *)
Fixpoint read_header (fuel : nat) (response : bytes) (reads : list (option bytes))
    : result AttemptFailure (bytes * nat * list (option bytes)) :=
  match scan_http_header response MAX_HTTP_HEADER_BYTES with
  | Complete header_end => Ok (response, header_end, reads)
  | TooLarge => Err ambiguous_after_commit
  | NeedMore =>
      match fuel with
      | O => Err ambiguous_after_commit
      | S fuel =>
          match http_read 4096 reads with
          | (None, _) | (Some [], _) => Err ambiguous_after_commit
          | (Some chunk, reads) => read_header fuel (response ++ chunk) reads
          end
      end
  end.

(** The loop that reads up to [total] bytes. *)
Fixpoint read_body (fuel chunk_bytes total : nat) (response : bytes) (reads : list (option bytes))
    : result AttemptFailure bytes :=
  if (total <=? length response)%nat then Ok response
  else
    match fuel with
    | O => Err ambiguous_after_commit
    | S fuel =>
        match http_read (Nat.min (total - length response) chunk_bytes) reads with
        | (None, _) | (Some [], _) => Err ambiguous_after_commit
        | (Some chunk, reads) => read_body fuel chunk_bytes total (response ++ chunk) reads
        end
    end.

(** The shape of [read_batch_tts_response] and of the reading half of [get_batch_tts_audio]. *)
Definition read_http_response (validate : bytes → result AttemptFailure Z) (max_body : Z)
    (too_large : AttemptFailure) (chunk_bytes : nat) (reads : list (option bytes)) : result AttemptFailure bytes :=
  let? '(response, header_end, reads) := read_header (S (readable reads)) [] reads in
  let? body_length := validate (take header_end response) in
  if max_body <? body_length then Err too_large
  else
    let total := (header_end + Z.to_nat body_length)%nat in
    let? response := read_body (S (readable reads)) chunk_bytes total response reads in
    if negb (length response =? total)%nat then Err ambiguous_after_commit
    else Ok (drop header_end response).

Section http.
Context `{Serde, SpeechExternals, HttpParser}.

Definition eq_ignore_ascii_case (a b : bytes) : bool := bool_decide (lowercase a = lowercase b).

Definition unique_header_value (headers : list (bytes * bytes)) (name : string) : result VerificationError (option bytes) :=
  match filter (λ h, eq_ignore_ascii_case h.1 (ascii_bytes name) = true) headers with
  | [] => Ok None
  | [h] => Ok (Some h.2)
  | _ => Err Protocol
  end.
(** ... with its error mapped as both readers map it *)
Definition header_value (headers : list (bytes * bytes)) (name : string) : result AttemptFailure (option bytes) :=
  map_err (λ _, ambiguous_after_commit) (unique_header_value headers name).

(** [Transfer-Encoding] is absent, and [Content-Length] is a [usize]. *)
Definition content_length (headers : list (bytes * bytes)) : result AttemptFailure Z :=
  let? encoding := header_value headers "transfer-encoding" in
  let? _ := require (bool_decide (encoding = None)) ambiguous_after_commit in
  let? length := header_value headers "content-length" in
  let? length := of_option ambiguous_after_commit length in
  of_option ambiguous_after_commit (if utf8_ok length then parse_u64 length else None).

Definition validate_batch_tts_header (header : bytes) : result AttemptFailure Z :=
  let? parsed := of_option ambiguous_after_commit (parse_response header) in
  if negb (pr_complete parsed) || negb (bool_decide (pr_version parsed = Some 1)) then Err ambiguous_after_commit
  else
    let? _ :=
      match pr_code parsed with
      | Some code =>
          if code =? 200 then Ok tt
          else if one_of [401; 403] code then Err (terminal TtsRejected)
          else if code =? 429 then Err (terminal TtsRateLimited)
          else if between 500 599 code then Err (terminal TtsUnavailable)
          else Err (terminal TtsProtocol)
      | None => Err (terminal TtsProtocol)
      end in
    content_length (pr_headers parsed).

(** [value.split(';').next().map(str::trim)] is one of the two WAV types. *)
Definition wav_content_type (value : bytes) : bool :=
  utf8_ok value
  && match split_on 59 value with
     | first :: _ => existsb (λ t, bool_decide (trim first = t)) [ascii_bytes "audio/wav"; ascii_bytes "audio/x-wav"]
     | [] => false
     end.

Definition validate_batch_tts_audio_header (header : bytes) : result AttemptFailure Z :=
  let? parsed := of_option ambiguous_after_commit (parse_response header) in
  if negb (pr_complete parsed) || negb (bool_decide (pr_version parsed = Some 1))
     || negb (bool_decide (pr_code parsed = Some 200))
  then Err ambiguous_after_commit
  else
    let? content_type := header_value (pr_headers parsed) "content-type" in
    let? _ := require (match content_type with Some value => wav_content_type value | None => false end)
                ambiguous_after_commit in
    content_length (pr_headers parsed).

Definition read_batch_tts_response (reads : list (option bytes)) : result AttemptFailure bytes :=
  read_http_response validate_batch_tts_header MAX_TTS_RESPONSE_BYTES ambiguous_after_commit 4096 reads.

Definition strip_prefix (p s : bytes) : option bytes :=
  if has_prefix p s then Some (drop (length p) s) else None.

Definition parse_batch_tts_audio_url (url : text) : result AttemptFailure HandshakeTarget :=
  let stripped :=
    match strip_prefix (ascii_bytes "https://" ++ TTS_AUDIO_HOST) url with
    | Some t => Some t
    | None => strip_prefix (ascii_bytes "http://" ++ TTS_AUDIO_HOST) url
    end in
  match stripped with
  | Some target =>
      if head_is (Z.eqb 47) target && (length target <=? 16 * 1024)%nat
         && forallb (λ b, b <? 128) target && negb (one_of target 35)
         && negb (existsb (λ b, between 0 31 b || (b =? 127) || (b =? 32)) target)
      then Ok (mk_target TTS_AUDIO_HOST 443 target)
      else Err ambiguous_after_commit
  | None => Err ambiguous_after_commit
  end.

Definition parse_batch_tts_response (response : bytes) : result AttemptFailure (HandshakeTarget * option Z) :=
  let? value := of_option ambiguous_after_commit (json_from_slice response) in
  if negb (is_text "stop" (pointer ["output"; "finish_reason"] value)) then Err ambiguous_after_commit
  else
    let? url := of_option ambiguous_after_commit (pointer ["output"; "audio"; "url"] value ≫= as_str) in
    let? target := parse_batch_tts_audio_url url in
    Ok (target, pointer ["usage"; "characters"] value ≫= json_u64).

(** ** The requests *)

Definition crlf : bytes := [13; 10].
Definition host_line (target : HandshakeTarget) : bytes :=
  ascii_bytes " HTTP/1.1" ++ crlf ++ ascii_bytes "Host: " ++ ht_host target
  ++ (if ht_port target =? 443 then [] else [58] ++ u64_to_string (ht_port target)) ++ crlf.

Definition tts_body (request : TtsRequest) : json :=
  JObject
    [(key "model", JString TTS_MODEL);
     (key "input", JObject
        [(key "text", JString (tr_text request)); (key "voice", JString (tr_voice request));
         (key "format", JString (key "wav")); (key "sample_rate", JNumber (u64_to_string TTS_SAMPLE_RATE));
         (key "instruction", JString (tr_instructions request))])].
Definition post_request (target : HandshakeTarget) (secret body : bytes) : bytes :=
  ascii_bytes "POST " ++ ht_request_target target ++ host_line target
  ++ ascii_bytes "Authorization: Bearer " ++ secret ++ crlf
  ++ ascii_bytes "Content-Type: application/json" ++ crlf ++ ascii_bytes "Connection: close" ++ crlf
  ++ ascii_bytes "User-Agent: codex-keyboard/0.1" ++ crlf
  ++ ascii_bytes "Content-Length: " ++ u64_to_string (blen body) ++ crlf ++ crlf ++ body.

(** The failure of the write, the one of the answer, and the requests written. *)
Definition post_batch_tts_request (stream : HttpStream) (secret : bytes) (target : HandshakeTarget) (request : TtsRequest)
    : result AttemptFailure bytes * list bytes :=
  match json_to_vec (tts_body request) with
  | None => (Err (terminal TtsInvalidRequest), [])
  | Some body =>
      (if hs_write stream then read_batch_tts_response (hs_reads stream) else Err ambiguous_after_commit,
       [post_request target secret body])
  end.

Definition get_request (target : HandshakeTarget) : bytes :=
  ascii_bytes "GET " ++ ht_request_target target ++ host_line target
  ++ ascii_bytes "Accept: audio/wav, audio/x-wav" ++ crlf ++ ascii_bytes "Connection: close" ++ crlf
  ++ ascii_bytes "User-Agent: codex-keyboard/0.1" ++ crlf ++ crlf.

(** ** One attempt *)

(** What the platform and the network do in one attempt: reading the proxy settings and the
    root certificates, connecting and starting TLS, for the service and for the file. *)
Record AttemptWorld := mk_attempt {
  aw_platform : result VerificationError unit;
  aw_connect : result VerificationError TransportRoute;
  aw_tls : result VerificationError unit;
  aw_post : HttpStream;
  aw_audio_platform : result VerificationError unit;
  aw_audio_connect : result VerificationError TransportRoute;
  aw_audio_tls : result VerificationError unit;
  aw_get : HttpStream;
}.

Definition get_batch_tts_audio (w : AttemptWorld) : result AttemptFailure bytes :=
  let? _ := map_err (λ _, ambiguous_after_commit) (aw_audio_connect w) in
  let? _ := map_err (λ _, ambiguous_after_commit) (aw_audio_tls w) in
  let? _ := require (hs_write (aw_get w)) ambiguous_after_commit in
  read_http_response validate_batch_tts_audio_header MAX_TTS_WAV_BYTES (terminal TtsAudioLimit) (8 * 1024)
    (hs_reads (aw_get w)).

(** [synthesize_http_once] after the post. *)
Definition fetch_audio (w : AttemptWorld) (request : TtsRequest) (transport : TransportRoute) (response : bytes)
    : result AttemptFailure TtsAudio :=
  let? '(_, characters) := parse_batch_tts_response response in
  let? _ := map_err transport_failure (aw_audio_platform w) in
  let? wav := get_batch_tts_audio w in
  let? pcm := map_err (λ _, ambiguous_after_commit) (decode_wav wav) in
  Ok {| ta_pcm := pcm; ta_model := TTS_MODEL; ta_voice := tr_voice request; ta_sample_rate := TTS_SAMPLE_RATE;
        ta_samples := Z.of_nat (length pcm / 2); ta_characters := characters;
        ta_transport := route_as_str transport; ta_attempts := 1 |}.

Definition synthesize_http_once (w : AttemptWorld) (secret : bytes) (request : TtsRequest) (transport : TransportRoute)
    : result AttemptFailure TtsAudio * list bytes :=
  let '(response, posts) := post_batch_tts_request (aw_post w) secret tts_target request in
  (rbind response (fetch_audio w request transport), posts).

(** The target of [prepare_tts_platform] is always the one of the batch service, so that
    [synthesize_once] takes its HTTP branch. *)
Definition synthesize_once (w : AttemptWorld) (secret : bytes) (request : TtsRequest)
    : result AttemptFailure TtsAudio * list bytes :=
  match aw_platform w with
  | Err e =>
      let error := map_verification_error e in
      (Err (match error with TtsUnavailable | TtsRateLimited => retryable error | _ => terminal error end), [])
  | Ok _ =>
      match map_err transport_failure (aw_connect w) with
      | Err f => (Err f, [])
      | Ok transport =>
          match map_err transport_failure (aw_tls w) with
          | Err f => (Err f, [])
          | Ok _ => synthesize_http_once w secret request transport
          end
      end
  end.

(** ** The client *)

(** The loop over the attempts: [remaining] more after this one, which is number [attempt]. *)
Fixpoint synthesize_attempts (worlds : Z → AttemptWorld) (secret : bytes) (request : TtsRequest)
    (remaining : nat) (attempt : Z) : result TtsError TtsAudio * list bytes :=
  let '(r, posts) := synthesize_once (worlds attempt) secret request in
  match r with
  | Ok audio =>
      (Ok {| ta_pcm := ta_pcm audio; ta_model := ta_model audio; ta_voice := ta_voice audio;
             ta_sample_rate := ta_sample_rate audio; ta_samples := ta_samples audio;
             ta_characters := ta_characters audio; ta_transport := ta_transport audio;
             ta_attempts := attempt |}, posts)
  | Err failure =>
      match remaining with
      | S remaining =>
          if af_retryable failure
          then let '(r, more) := synthesize_attempts worlds secret request remaining (attempt + 1) in (r, posts ++ more)
          else (Err (af_error failure), posts)
      | O => (Err (af_error failure), posts)
      end
  end.

(** The two lookups in the secret store; [None] is an error of the store. *)
Record SecretLookup := mk_lookup { sl_installed : option bool; sl_secret : option (option bytes) }.

Definition synthesize (max_attempts : Z) (lookup : SecretLookup) (worlds : Z → AttemptWorld) (request : TtsRequest)
    : result TtsError TtsAudio * list bytes :=
  match validate_tts_request request with
  | Err e => (Err e, [])
  | Ok _ =>
      match sl_installed lookup, sl_secret lookup with
      | Some true, Some (Some secret) =>
          let attempts := Z.max 1 (Z.min max_attempts MAX_TTS_ATTEMPTS) in
          synthesize_attempts worlds secret request (Z.to_nat attempts - 1) 1
      | _, _ => (Err TtsCredential, [])
      end
  end.

(** [synthesize] for each chunk, until one fails; chunk [n] has its own lookups and worlds. *)
Fixpoint synthesize_each (max_attempts : Z) (lookups : nat → SecretLookup) (worlds : nat → Z → AttemptWorld)
    (request : TtsRequest) (n : nat) (chunks : list bytes) : result TtsError (list TtsAudio) * list bytes :=
  match chunks with
  | [] => (Ok [], [])
  | chunk :: chunks =>
      match synthesize max_attempts (lookups n) (worlds n) (mk_request chunk (tr_voice request) (tr_instructions request)) with
      | (Err e, posts) => (Err e, posts)
      | (Ok audio, posts) =>
          let '(rest, more) := synthesize_each max_attempts lookups worlds request (S n) chunks in
          (let? rest := rest in Ok (audio :: rest), posts ++ more)
      end
  end.
Definition synthesize_chunked (max_attempts : Z) (lookups : nat → SecretLookup) (worlds : nat → Z → AttemptWorld)
    (request : TtsRequest) : result TtsError TtsAudio * list bytes :=
  let '(synthesized, posts) :=
    synthesize_each max_attempts lookups worlds request 0 (split_tts_text (tr_text request) MAX_TTS_CHUNK_CHARS) in
  (rbind synthesized combine_tts_audio, posts).
End http.
