(* ===== verification/TtsHttpProps.v ===== *)
(** * Speech over HTTP: what is spoken and what is billed

    A text is cut without loss ([split_tts_text_spec]); its speech is the speech of its
    chunks ([chunked_speech_is_the_whole_text]); and a chunk is posted at most once, unless
    the platform cannot be set up for fetching the file ([chunk_billed_once],
    [audio_setup_failure_bills_again]). *)

From stdpp Require Import gmap.
From S2P Require Import Prelude Bytes StrOps CacheRef StoreTypes TurnPack Audio AudioProps TtsCache WsFrames WsFramesProps TtsSession TtsSays TtsHttp.

(** ** Cutting a text *)

Lemma split_chars_join m cs current count : mjoin (split_chars m current count cs) = current ++ mjoin cs.
Proof.
  revert current count. induction cs as [|c cs IH]; intros current count; cbn [split_chars].
  - destruct current as [|b current]; [done|]. by rewrite mjoin_cons.
  - cbv zeta. rewrite mjoin_cons. destruct (_ || _).
    + rewrite mjoin_cons, IH. by rewrite <-app_assoc.
    + by rewrite IH, <-app_assoc.
Qed.

(** A group of characters that may be a chunk before the last. *)
Definition full_group (m : nat) (g : list bytes) : Prop :=
  length g = m ∨ ((m / 2 ≤ length g)%nat ∧ ∃ c, last g = Some c ∧ natural_boundary c = true).

Inductive grouped (m : nat) : list (list bytes) → Prop :=
| grouped_nil : grouped m []
| grouped_last g : (1 ≤ length g ≤ m)%nat → grouped m [g]
| grouped_cons g gs : (1 ≤ length g ≤ m)%nat → full_group m g → grouped m gs → grouped m (g :: gs).

Lemma split_chars_groups m cs pre :
  (0 < m)%nat → (length pre < m)%nat → Forall (λ c, c ≠ []) (pre ++ cs) →
  ∃ gs, split_chars m (mjoin pre) (length pre) cs = mjoin <$> gs ∧ mjoin gs = pre ++ cs ∧ grouped m gs.
Proof.
  intros Hm. revert pre. induction cs as [|c cs IH]; intros pre Hpre Hne; cbn [split_chars].
  - destruct pre as [|p pre]; [exists []; split_and!; [done|done|constructor]|].
    exists [p :: pre]. rewrite app_nil_r in *. split_and!; [|by rewrite mjoin_cons, app_nil_r|apply grouped_last; cbn in *; lia].
    rewrite mjoin_cons. apply Forall_cons in Hne as [Hp _]. by destruct p.
  - cbv zeta.
    assert (mjoin pre ++ c = mjoin (pre ++ [c]) ∧ S (length pre) = length (pre ++ [c])) as [-> ->].
    { split; [by rewrite mjoin_app, mjoin_cons, app_nil_r|rewrite length_app; cbn; lia]. }
    rewrite (app_assoc pre [c] cs : pre ++ c :: cs = _) in *.
    destruct (_ || _) eqn:Ecut.
    + assert (Forall (λ c, c ≠ []) ([] ++ cs)) as Hcs by (by apply Forall_app in Hne as [_ ?]).
      destruct (IH [] Hm Hcs) as (gs & E & Ej & Hg). exists ((pre ++ [c]) :: gs).
      cbn [length mjoin] in E. cbn in E. rewrite E. split_and!; [done|by rewrite mjoin_cons, Ej|].
      apply grouped_cons; [rewrite length_app; cbn; lia| |done].
      apply orb_prop in Ecut as [El%Nat.leb_le|[Eb Eh%Nat.leb_le]%andb_prop].
      * left. rewrite length_app in *. cbn in *. lia.
      * right. split; [done|]. exists c. by rewrite last_snoc.
    + apply orb_false_elim in Ecut as [El%Nat.leb_gt _]. by apply IH.
Qed.

Lemma utf8_characters s : utf8 s →
  mjoin (utf8_split s) = s ∧ Forall (λ c, c ≠ []) (utf8_split s).
Proof.
  intros Hs. assert (∃ cs, Forall (λ c, utf8_char c = true) cs ∧ s = mjoin cs) as (cs & Hcs & ->).
  { induction Hs as [|c s Hc _ (cs & Hcs & ->)]; [by exists []|]. exists (c :: cs). split; [by constructor|]. by rewrite mjoin_cons. }
  rewrite utf8_split_join by done. split; [done|]. eapply Forall_impl; [exact Hcs|]. by intros [|].
Qed.

(** What [split_tts_text] promises: the chunks are groups of at most [m] characters that make
    up the text, and every group but the last is full. *)
Definition split_spec (m : nat) (s : text) (chunks : list bytes) : Prop :=
  ∃ gs, chunks = mjoin <$> gs ∧ mjoin gs = utf8_split s ∧ grouped m gs ∧ mjoin chunks = s.

Lemma split_tts_text_ok s m : (0 < m)%nat → utf8 s → split_spec m s (split_tts_text s m).
Proof.
  intros Hm [Hj Hne]%utf8_characters. unfold split_tts_text.
  destruct (split_chars_groups m (utf8_split s) [] Hm Hm Hne) as (gs & E & Eg & Hg).
  exists gs. split_and!; [exact E|exact Eg|done|]. rewrite split_chars_join. exact Hj.
Qed.

(** ** What an attempt bills *)

Section billing.
Context `{Serde, SpeechExternals, HttpParser}.

(** No failure of [r] may be retried. *)
Definition final {A} (r : result AttemptFailure A) : Prop := fails_with (λ f, af_retryable f = false) r.

Lemma final_bind {A B} (r : result AttemptFailure A) (k : A → result AttemptFailure B) :
  final r → (∀ a, r = Ok a → final (k a)) → final (rbind r k).
Proof. destruct r; cbn; auto. Qed.

Lemma final_require c : final (require c ambiguous_after_commit).
Proof. by destruct c. Qed.
Lemma final_option {A} (o : option A) : final (of_option ambiguous_after_commit o).
Proof. by destruct o. Qed.
Lemma final_mapped {E A} (r : result E A) : final (map_err (λ _, ambiguous_after_commit) r).
Proof. by destruct r. Qed.

Create HintDb final.
#[local] Hint Resolve final_bind final_require final_option final_mapped : final.

(** One branch after another. *)
Ltac finals :=
  repeat first
    [ reflexivity
    | progress (auto with final)
    | apply final_bind; [|intros ? ?]
    | match goal with |- final (if ?b then _ else _) => destruct b end
    | match goal with |- final (let '(_, _) := ?p in _) => destruct p end
    | match goal with |- final (match ?x with _ => _ end) => destruct x end ].

Lemma final_read_header fuel response reads : final (read_header fuel response reads).
Proof. revert response reads. induction fuel as [|fuel IH]; intros; cbn [read_header]; finals. Qed.
Lemma final_read_body fuel n total response reads : final (read_body fuel n total response reads).
Proof. revert response reads. induction fuel as [|fuel IH]; intros; cbn [read_body]; finals. Qed.
#[local] Hint Resolve final_read_header final_read_body : final.

Lemma final_content_length headers : final (content_length headers).
Proof. unfold content_length, header_value. finals. Qed.
#[local] Hint Resolve final_content_length : final.

Lemma final_batch_header header : final (validate_batch_tts_header header).
Proof. unfold validate_batch_tts_header. finals. Qed.
Lemma final_audio_header header : final (validate_batch_tts_audio_header header).
Proof. unfold validate_batch_tts_audio_header, header_value. finals. Qed.
#[local] Hint Resolve final_batch_header final_audio_header : final.

Lemma final_read_http validate max_body too_large n reads :
  (∀ h, final (validate h)) → af_retryable too_large = false →
  final (read_http_response validate max_body too_large n reads).
Proof. intros Hv Ht. unfold read_http_response. finals. all: try apply Hv; try exact Ht. Qed.

Lemma final_get w : final (get_batch_tts_audio w).
Proof. unfold get_batch_tts_audio. finals. all: try (apply final_read_http; auto with final). Qed.
#[local] Hint Resolve final_get : final.

Lemma final_parse response : final (parse_batch_tts_response response).
Proof. unfold parse_batch_tts_response, parse_batch_tts_audio_url. finals. Qed.
#[local] Hint Resolve final_parse : final.

Lemma final_fetch w request transport response :
  aw_audio_platform w ≠ Err Unavailable → final (fetch_audio w request transport response).
Proof.
  intros Hp. unfold fetch_audio. apply final_bind; [auto with final|intros [target characters] _].
  apply final_bind; [destruct (aw_audio_platform w) as [|[]]; [exact I|reflexivity|by destruct Hp|reflexivity]|intros _ _]. finals.
Qed.

(** What one attempt leads to: nothing was posted, or one request was and the failure is
    final. *)
Lemma attempt_bills w secret request r posts :
  synthesize_once w secret request = (r, posts) →
  (posts = [] ∧ ∃ f, r = Err f)
  ∨ (length posts = 1%nat ∧ (aw_audio_platform w ≠ Err Unavailable → final r)).
Proof.
  unfold synthesize_once, synthesize_http_once, post_batch_tts_request. intros E.
  destruct (aw_platform w); [|injection E as <- <-; left; eauto].
  destruct (aw_connect w) as [route|]; cbn in E; [|injection E as <- <-; left; eauto].
  destruct (aw_tls w); cbn in E; [|injection E as <- <-; left; eauto].
  destruct (json_to_vec (tts_body request)); [|injection E as <- <-; left; eauto].
  pose proof (f_equal fst E) as Er. pose proof (f_equal snd E) as Eposts. cbn [fst snd] in Er, Eposts. subst r posts. clear E.
  right. split; [done|]. intros Hp.
  apply final_bind; [|intros response _; by apply final_fetch].
  destruct (hs_write (aw_post w)); [|done]. apply final_read_http; auto with final.
Qed.

(** The files can be fetched: their platform is never unavailable. *)
Definition audio_platform_ready (worlds : Z → AttemptWorld) : Prop :=
  ∀ k, aw_audio_platform (worlds k) ≠ Err Unavailable.

Lemma attempts_bill worlds secret request remaining k r posts :
  audio_platform_ready worlds → synthesize_attempts worlds secret request remaining k = (r, posts) →
  (length posts ≤ 1)%nat ∧ (is_ok r → length posts = 1%nat).
Proof.
  intros Hready. revert k r posts. induction remaining as [|remaining IH]; intros k r posts E; cbn [synthesize_attempts] in E;
    destruct (synthesize_once (worlds k) secret request) as [r1 posts1] eqn:E1;
    destruct (attempt_bills _ _ _ _ _ E1) as [[-> (f & ->)]|[Hl Hf]].
  - injection E as <- <-. split; [cbn; lia|by intros [? ?]].
  - destruct r1; injection E as <- <-; split; lia || done.
  - destruct (af_retryable f); [|injection E as <- <-; split; [cbn; lia|by intros [? ?]]].
    destruct (synthesize_attempts worlds secret request remaining (k + 1)) as [r2 more] eqn:E2.
    injection E as <- <-. by eapply IH.
  - specialize (Hf (Hready k)). destruct r1 as [audio|f]; [injection E as <- <-; split; lia|].
    cbn in Hf. rewrite Hf in E. injection E as <- <-. split; lia.
Qed.

Lemma synthesize_bills max_attempts lookup worlds request r posts :
  audio_platform_ready worlds → synthesize max_attempts lookup worlds request = (r, posts) →
  (length posts ≤ 1)%nat ∧ (is_ok r → length posts = 1%nat).
Proof.
  intros Hready. unfold synthesize. destruct (validate_tts_request request); [|intros [= <- <-]; split; [cbn; lia|by intros [? ?]]].
  destruct (sl_installed lookup) as [[|]|], (sl_secret lookup) as [[secret|]|];
    try (intros [= <- <-]; split; [cbn; lia|by intros [? ?]]).
  cbv zeta. by apply attempts_bill.
Qed.

(** ** What the pieces are *)

Definition speech_ok (a : TtsAudio) : Prop := validate_pcm (ta_pcm a) = Ok (ta_samples a).

Lemma validate_pcm_iff pcm n :
  validate_pcm pcm = Ok n ↔
  pcm ≠ [] ∧ Nat.even (length pcm) = true ∧ blen pcm ≤ MAX_TTS_PCM_BYTES ∧ n = Z.of_nat (length pcm / 2).
Proof.
  unfold validate_pcm, blen, MAX_TTS_PCM_BYTES, MAX_TTS_SAMPLES, TTS_SAMPLE_RATE, MAX_TTS_SECONDS.
  destruct pcm as [|b pcm]; [cbn; split; [done|by intros [? _]]|]. set (l := b :: pcm).
  change (length l =? 0)%nat with false. cbn [orb]. destruct (Nat.even (length l)) eqn:Ee; cbn [negb]; [|split; [done|by intros (_ & ? & _)]].
  apply Nat.even_spec in Ee as [k Ek]. rewrite Ek, (Nat.mul_comm 2), Nat.div_mul by lia.
  destruct (Z.ltb_spec (48000 * 150) (Z.of_nat k)); (split; [intros [=]; subst; split_and!; done || lia|intros (_ & _ & ? & ->); done || lia]).
Qed.

Lemma fetch_audio_ok w request transport response audio :
  fetch_audio w request transport response = Ok audio →
  speech_ok audio ∧ ta_model audio = TTS_MODEL ∧ ta_voice audio = tr_voice request ∧ ta_sample_rate audio = TTS_SAMPLE_RATE.
Proof.
  unfold fetch_audio. intros ([target characters] & _ & (_ & _ & (wav & _ & (pcm & Ed & E)%rbind_ok)%rbind_ok)%rbind_ok)%rbind_ok.
  injection E as <-. split_and!; [|done..]. unfold speech_ok. cbn [ta_pcm ta_samples].
  destruct (decode_wav wav) as [pcm'|] eqn:Edec; [|done]. injection Ed as ->.
  unfold decode_wav in Edec. repeat (apply rbind_ok in Edec as (? & _ & Edec)). cbv zeta in Edec.
  destruct (validate_pcm _) as [n|] eqn:Ev in Edec; [|done]. injection Edec as <-.
  rewrite Ev. f_equal. by apply validate_pcm_iff in Ev as (_ & _ & _ & ->).
Qed.

Lemma attempts_ok worlds secret request remaining k audio posts :
  synthesize_attempts worlds secret request remaining k = (Ok audio, posts) →
  speech_ok audio ∧ ta_model audio = TTS_MODEL ∧ ta_voice audio = tr_voice request ∧ ta_sample_rate audio = TTS_SAMPLE_RATE.
Proof.
  revert k posts. induction remaining as [|remaining IH]; intros k posts E; cbn [synthesize_attempts] in E;
    destruct (synthesize_once (worlds k) secret request) as [[a|f] posts1] eqn:E1; try discriminate E.
  3: { destruct (af_retryable f); [|discriminate E].
       destruct (synthesize_attempts worlds secret request remaining (k + 1)) as [r2 more] eqn:E2.
       injection E as -> _. by eapply IH. }
  all: injection E as <- _; unfold synthesize_once, synthesize_http_once in E1.
  all: destruct (aw_platform _); [|discriminate E1]; destruct (map_err transport_failure (aw_connect _)) as [route|]; [|discriminate E1].
  all: destruct (map_err transport_failure (aw_tls _)); [|discriminate E1].
  all: destruct (post_batch_tts_request _ _ _ _) as [response posts2]; injection E1 as E1 _.
  all: apply rbind_ok in E1 as (body & _ & E1%fetch_audio_ok); exact E1.
Qed.

Lemma synthesize_ok max_attempts lookup worlds request audio posts :
  synthesize max_attempts lookup worlds request = (Ok audio, posts) →
  speech_ok audio ∧ ta_model audio = TTS_MODEL ∧ ta_voice audio = tr_voice request ∧ ta_sample_rate audio = TTS_SAMPLE_RATE.
Proof.
  unfold synthesize. destruct (validate_tts_request request); [|done].
  destruct (sl_installed lookup) as [[|]|], (sl_secret lookup) as [[secret|]|]; try done.
  cbv zeta. apply attempts_ok.
Qed.

(** ** Putting the pieces together *)

Lemma speech_ok_app acc chunk audio :
  speech_ok acc → speech_ok chunk → combine_one acc chunk = Ok audio →
  speech_ok audio ∧ ta_pcm audio = ta_pcm acc ++ ta_pcm chunk
  ∧ ta_model audio = ta_model acc ∧ ta_voice audio = ta_voice acc ∧ ta_sample_rate audio = ta_sample_rate acc.
Proof.
  unfold speech_ok. rewrite !validate_pcm_iff. intros (Hne & He & Hb & En) (_ & He' & _ & En').
  unfold combine_one. destruct (_ || _); [done|]. destruct (Z.ltb_spec MAX_TTS_PCM_BYTES (blen (ta_pcm acc) + blen (ta_pcm chunk))); [done|].
  intros (samples & Es & E)%rbind_ok. injection E as <-. cbn [ta_pcm ta_samples ta_model ta_voice ta_sample_rate].
  split; [|done]. unfold blen in *. rewrite length_app.
  destruct (checked_add _ _ _) as [n|] eqn:Ec in Es; [|done]. injection Es as <-. apply checked_add_some in Ec as [-> _].
  apply Nat.even_spec in He as [k Ek]. apply Nat.even_spec in He' as [k' Ek']. rewrite Ek, Ek' in *.
  split_and!; [by intros [? _]%app_eq_nil|by rewrite <-Nat.mul_add_distr_l, Nat.even_mul|lia|].
  rewrite En, En', <-Nat.mul_add_distr_l, !(Nat.mul_comm 2), !Nat.div_mul by lia. lia.
Qed.

Lemma combine_all_ok chunks acc audio :
  speech_ok acc → Forall speech_ok chunks → combine_all acc chunks = Ok audio →
  speech_ok audio ∧ ta_pcm audio = ta_pcm acc ++ mjoin (ta_pcm <$> chunks)
  ∧ ta_model audio = ta_model acc ∧ ta_voice audio = ta_voice acc ∧ ta_sample_rate audio = ta_sample_rate acc.
Proof.
  revert acc. induction chunks as [|chunk chunks IH]; intros acc Hacc Hall E; cbn [combine_all] in E.
  - injection E as <-. cbn. by rewrite app_nil_r.
  - apply Forall_cons in Hall as [Hc Hall]. apply rbind_ok in E as (acc' & E1 & E).
    destruct (speech_ok_app _ _ _ Hacc Hc E1) as (Hacc' & Ep & Em & Ev & Er).
    destruct (IH acc' Hacc' Hall E) as (Ha & Ep' & Em' & Ev' & Er').
    rewrite fmap_cons, mjoin_cons. split_and!; [done| |congruence..]. by rewrite Ep', Ep, <-app_assoc.
Qed.

(** Chunk [n] was spoken as this piece. *)
Definition spoken max_attempts lookups (worlds : nat → Z → AttemptWorld) (request : TtsRequest) (n : nat) (chunk : bytes) (piece : TtsAudio) : Prop :=
  (synthesize max_attempts (lookups n) (worlds n) (mk_request chunk (tr_voice request) (tr_instructions request))).1 = Ok piece.

Lemma synthesize_each_ok max_attempts lookups worlds request n chunks pieces posts :
  synthesize_each max_attempts lookups worlds request n chunks = (Ok pieces, posts) →
  length pieces = length chunks
  ∧ (∀ i chunk piece, chunks !! i = Some chunk → pieces !! i = Some piece → spoken max_attempts lookups worlds request (n + i) chunk piece)
  ∧ ((∀ k, audio_platform_ready (worlds k)) → length posts = length chunks).
Proof.
  revert n pieces posts. induction chunks as [|chunk chunks IH]; intros n pieces posts E; cbn [synthesize_each] in E.
  - injection E as <- <-. done.
  - destruct (synthesize _ _ _ _) as [[piece|e] posts1] eqn:E1; [|done].
    destruct (synthesize_each _ _ _ _ _ _) as [rest more] eqn:E2. injection E as E <-.
    apply rbind_ok in E as (pieces' & -> & E). injection E as <-.
    destruct (IH _ _ _ E2) as (El & Hs & Hp). split_and!; [cbn; lia| |].
    + intros [|i] c p; cbn; [|intros; replace (n + S i)%nat with (S n + i)%nat by lia; eauto].
      intros [= <-] [= <-]. unfold spoken. by rewrite Nat.add_0_r, E1.
    + intros Hr. destruct (synthesize_bills _ _ _ _ _ _ (Hr n) E1) as [_ Hl].
      rewrite length_app, Hl, Hp by (done || by eexists). done.
Qed.

(** An attempt whose request is answered and whose file cannot be asked for, because the
    proxy settings and certificates could not be read again in time. *)
Definition answered_without_audio (w : AttemptWorld) : Prop :=
  is_ok (aw_platform w) ∧ is_ok (aw_connect w) ∧ is_ok (aw_tls w) ∧ hs_write (aw_post w) = true
  ∧ (∃ response, read_batch_tts_response (hs_reads (aw_post w)) = Ok response ∧ is_ok (parse_batch_tts_response response))
  ∧ aw_audio_platform w = Err Unavailable.

Lemma answered_attempt w secret request body :
  answered_without_audio w → json_to_vec (tts_body request) = Some body →
  synthesize_once w secret request = (Err (retryable TtsUnavailable), [post_request tts_target secret body]).
Proof.
  intros ([u Ep] & [route Ec] & [u' Et] & Hw & (response & Er & [[target characters] Epr]) & Ea) Eb.
  unfold synthesize_once, synthesize_http_once, post_batch_tts_request, fetch_audio.
  by rewrite Ep, Ec, Et, Eb, Hw, Er; cbn [map_err rbind]; rewrite Epr, Ea.
Qed.

(** A chunk is posted at most once.  [synthesize] repeats an attempt only when nothing
    was posted in it: as long as the platform can be set up to fetch the file (the
    hypothesis; the next theorem is about when it cannot), at most one request is ever
    written, in whatever way the service, the network and the secret store behave, and a
    result that is audio cost exactly one. *)
Theorem chunk_billed_once max_attempts lookup worlds request r posts :
  audio_platform_ready worlds → synthesize max_attempts lookup worlds request = (r, posts) →
  (length posts ≤ 1)%nat ∧ (is_ok r → length posts = 1%nat).
Proof. apply synthesize_bills. Qed.

(** The exception.  When the answer of the service was received but the platform for
    fetching the file is unavailable (run_blocking_with_deadline ran out of the time the
    attempt still had, or no certificate could be loaded), the failure counts as one that
    may be retried although the request was accepted: the same request is posted again in
    every attempt, and nothing is spoken. *)
Theorem audio_setup_failure_bills_again max_attempts lookup worlds request secret body :
  validate_tts_request request = Ok tt → sl_installed lookup = Some true → sl_secret lookup = Some (Some secret) →
  json_to_vec (tts_body request) = Some body → (∀ k, answered_without_audio (worlds k)) →
  synthesize max_attempts lookup worlds request =
    (Err TtsUnavailable,
     replicate (Z.to_nat (Z.max 1 (Z.min max_attempts MAX_TTS_ATTEMPTS))) (post_request tts_target secret body)).
Proof.
  intros Hv Hi Hs Hb Hw. unfold synthesize. rewrite Hv, Hi, Hs. cbv zeta.
  assert (∀ remaining k, synthesize_attempts worlds secret request remaining k
    = (Err TtsUnavailable, replicate (S remaining) (post_request tts_target secret body))) as Hall.
  { induction remaining as [|remaining IH]; intros k; cbn [synthesize_attempts];
      rewrite (answered_attempt _ _ _ _ (Hw k) Hb); [done|]. cbn [af_retryable retryable]. by rewrite IH. }
  rewrite Hall. do 2 f_equal. lia.
Qed.

(** C34: what is spoken is the whole text.  When [synthesize_chunked] returns audio, the text
    was cut into chunks of at most forty characters that make it up again, each chunk was
    synthesised, and the audio is their speech in the order of the text, with the number of
    its samples, in the voice that was asked for and within what the audio containers take.
    As many requests were billed as there are chunks provided that the connection for the
    file could always be set up ([audio_platform_ready]); where it could not, a chunk is
    billed again ([audio_setup_failure_bills_again]). *)
Theorem chunked_speech_is_the_whole_text max_attempts lookups worlds request audio posts :
  utf8 (tr_text request) → synthesize_chunked max_attempts lookups worlds request = (Ok audio, posts) →
  ∃ chunks pieces,
    split_spec MAX_TTS_CHUNK_CHARS (tr_text request) chunks
    ∧ length pieces = length chunks
    ∧ (∀ i chunk piece, chunks !! i = Some chunk → pieces !! i = Some piece →
         spoken max_attempts lookups worlds request i chunk piece)
    ∧ ta_pcm audio = mjoin (ta_pcm <$> pieces)
    ∧ validate_pcm (ta_pcm audio) = Ok (ta_samples audio)
    ∧ ta_model audio = TTS_MODEL ∧ ta_voice audio = tr_voice request ∧ ta_sample_rate audio = TTS_SAMPLE_RATE
    ∧ ((∀ k, audio_platform_ready (worlds k)) → length posts = length chunks).
Proof.
  intros Hu. unfold synthesize_chunked.
  pose proof (split_tts_text_ok _ MAX_TTS_CHUNK_CHARS ltac:(unfold MAX_TTS_CHUNK_CHARS; lia) Hu) as Hsplit.
  destruct (synthesize_each _ _ _ _ _ _) as [synthesized posts'] eqn:E. intros [= Ec <-].
  apply rbind_ok in Ec as (pieces & -> & Ec). destruct (synthesize_each_ok _ _ _ _ _ _ _ _ E) as (El & Hs & Hp).
  assert (Forall (λ p, speech_ok p ∧ ta_model p = TTS_MODEL ∧ ta_voice p = tr_voice request ∧ ta_sample_rate p = TTS_SAMPLE_RATE) pieces) as Hall.
  { apply Forall_lookup. intros i piece Hi.
    destruct (lookup_lt_is_Some_2 (split_tts_text (tr_text request) MAX_TTS_CHUNK_CHARS) i) as [chunk Hc];
      [rewrite <-El; by eapply lookup_lt_Some|].
    specialize (Hs _ _ _ Hc Hi). unfold spoken in Hs. destruct (synthesize _ _ _ _) as [r p] eqn:Es. cbn in Hs. subst r.
    by apply synthesize_ok in Es. }
  destruct pieces as [|first pieces]; [discriminate Ec|]. apply Forall_cons in Hall as ((Hf & Em & Ev & Er) & Hall).
  destruct (combine_all_ok pieces first audio Hf) as (Ha & Ep & Em' & Ev' & Er'); [|exact Ec|].
  { eapply Forall_impl; [exact Hall|]. by intros ? (? & _). }
  exists (split_tts_text (tr_text request) MAX_TTS_CHUNK_CHARS), (first :: pieces).
  rewrite fmap_cons, mjoin_cons. split_and!; [done|done|exact Hs|done|done|congruence..|done].
Qed.
End billing.
