(* ===== verification/SpeechDemo.v ===== *)
(** * The speech client on small inputs: the witnesses of its properties *)

From stdpp Require Import gmap.
From S2P Require Import Prelude Bytes Audio StrOps CacheRef StoreTypes TurnPack RecordCapture.
From S2P Require Import TtsCache WsFrames WsFramesProps TtsSession TtsSays TtsPhases TtsSpeech.
From S2P Require Import TtsHttp TtsHttpProps.

(** * A speech session, run

    A service that says one short response in framed messages, one of them in two fragments
    with a ping between; the witnesses of the session's properties. *)

Module Session.

Definition demo_str (s : string) : json := JString (key s).
Definition demo_obj (fields : list (string * json)) : json := JObject (prod_map key id <$> fields).
Definition demo_zero : json := JNumber [48].

Definition demo_item (status : string) : json :=
  demo_obj [("id", demo_str "item_1"); ("object", demo_str "realtime.item"); ("type", demo_str "message");
            ("role", demo_str "assistant"); ("status", demo_str status)].
Definition demo_content (event_id type : string) (more : list (string * json)) : json :=
  demo_obj ([("event_id", demo_str event_id); ("type", demo_str type); ("response_id", demo_str "resp_1");
             ("item_id", demo_str "item_1"); ("output_index", demo_zero); ("content_index", demo_zero)] ++ more).

Definition demo_created : json :=
  demo_obj [("event_id", demo_str "e0"); ("type", demo_str "session.created");
            ("session", demo_obj [("id", demo_str "s1"); ("model", JString DASHSCOPE_VERIFICATION_MODEL)])].
Definition demo_updated : json :=
  demo_obj [("event_id", demo_str "e1"); ("type", demo_str "session.updated");
            ("session", demo_obj
               [("id", demo_str "s1"); ("model", JString DASHSCOPE_VERIFICATION_MODEL); ("voice", demo_str "Cherry");
                ("mode", demo_str "commit"); ("response_format", demo_str "pcm");
                ("sample_rate", JNumber (u64_to_string TTS_SAMPLE_RATE))])].
Definition demo_answer : list json :=
  [demo_obj [("event_id", demo_str "e2"); ("type", demo_str "input_text_buffer.committed"); ("item_id", demo_str "")];
   demo_obj [("event_id", demo_str "e3"); ("type", demo_str "response.created");
             ("response", demo_obj [("id", demo_str "resp_1"); ("object", demo_str "realtime.response");
                                    ("status", demo_str "in_progress"); ("voice", demo_str "Cherry"); ("output", JArray [])])];
   demo_obj [("event_id", demo_str "e4"); ("type", demo_str "response.output_item.added");
             ("response_id", demo_str "resp_1"); ("output_index", demo_zero); ("item", demo_item "in_progress")];
   demo_content "e5" "response.content_part.added" [("part", demo_obj [("type", demo_str "audio")])];
   demo_content "e6" "response.audio.delta" [("delta", demo_str "abcd")];
   demo_content "e7" "response.audio.delta" [("delta", demo_str "ef")];
   demo_content "e8" "response.audio.done" [];
   demo_content "e9" "response.content_part.done" [("part", demo_obj [("type", demo_str "audio")])];
   demo_obj [("event_id", demo_str "e10"); ("type", demo_str "response.output_item.done");
             ("response_id", demo_str "resp_1"); ("output_index", demo_zero); ("item", demo_item "completed")];
   demo_obj [("event_id", demo_str "e11"); ("type", demo_str "response.done");
             ("response", demo_obj [("id", demo_str "resp_1"); ("object", demo_str "realtime.response");
                                    ("status", demo_str "completed"); ("usage", demo_obj [("characters", JNumber [55])])])]].
Definition demo_events : list json := demo_created :: demo_updated :: demo_answer.

(** The text of the n-th event is [n; 0]; Base64 is read as it stands, and what the client
    says is printed in full. *)
#[local] Instance demo_uuids : Uuids :=
  {| new_v4 n := replicate 16 (Z.of_nat n mod 256); new_v4_length n := length_replicate 16 _ |}.
#[local] Instance demo_json : Serde :=
  {| json_from_slice b := match b with [n; _] => demo_events !! Z.to_nat n | _ => None end;
     turn_pack_to_string _ := None |}.
(** Compact JSON, of strings that need no escape. *)
Fixpoint print (v : json) : bytes :=
  match v with
  | JNull => key "null"
  | JBool b => key (if b then "true" else "false")
  | JNumber n => n
  | JString s => [34] ++ s ++ [34]
  | JArray items => [91] ++ drop 1 (mjoin ((λ x, 44 :: print x) <$> items)) ++ [93]
  | JObject fields => [123] ++ drop 1 (mjoin ((λ kv, [44; 34] ++ kv.1 ++ [34; 58] ++ print kv.2) <$> fields)) ++ [125]
  end.
#[local] Instance demo_speech : SpeechExternals := {| json_to_vec v := Some (print v); base64_decode b := Some b |}.

Definition demo_request : TtsRequest := mk_request (key "hello") (key "Cherry") (key "calm").

Definition demo_message (n : nat) : bytes :=
  if (n =? 6)%nat
  then encode_server_frame false 1 [Z.of_nat n] ++ encode_server_frame true 9 [1; 2] ++ encode_server_frame true 0 [0]
  else encode_server_frame true 1 [Z.of_nat n; 0].
Definition demo_wire : bytes := mjoin (demo_message <$> seq 0 12).
Definition demo_conn (wire : bytes) : Conn := mk_conn (take 3 wire) None (drop 3 wire) [] [] 0.
Definition demo_audio : TtsAudio :=
  response_audio demo_request Direct DASHSCOPE_VERIFICATION_MODEL [key "abcd"; key "ef"] (Some 7).

Example demo_session : (run_tts_session demo_request Direct (demo_conn demo_wire)).1 = Ok demo_audio.
Proof. vm_compute. reflexivity. Qed.

(** A service that is gone after it accepted the text. *)
Example demo_lost :
  (run_tts_session demo_request Direct (demo_conn (take 20 demo_wire))).1 = Err ambiguous_after_commit
  ∧ omap client_text (cn_written (run_tts_session demo_request Direct (demo_conn (take 20 demo_wire))).2)
    = print <$> [session_update_event demo_request (event_id_text (new_v4 0));
                 append_event demo_request (event_id_text (new_v4 2)); commit_event (event_id_text (new_v4 4))].
Proof. vm_compute. by split. Qed.

Lemma demo_wire_carries n events :
  (∀ i e, events !! i = Some e → demo_events !! (n + i)%nat = Some e) → (n + length events ≤ 12)%nat →
  carries events (mjoin (demo_message <$> seq n (length events))).
Proof.
  revert n. induction events as [|e events IH]; intros n He Hl; cbn [length seq]; [constructor|].
  pose proof (He 0%nat e eq_refl) as Ee. rewrite Nat.add_0_r in Ee. cbn in Hl.
  assert (length [Z.of_nat n; 0%Z] ≤ MAX_SERVER_EVENT_BYTES)%nat as Hmax by (unfold MAX_SERVER_EVENT_BYTES; cbn [length]; lia).
  rewrite fmap_cons, mjoin_cons. apply (carries_cons e [Z.of_nat n; 0]).
  - unfold demo_message. destruct (Nat.eqb_spec n 6); [|by apply framed_whole].
    apply framed_first; [cbn [length] in *; lia|]. apply framed_control; [rewrite elem_of_cons; tauto|cbn; lia|].
    by apply (framed_last [Z.of_nat n] [0]).
  - cbn. by rewrite Nat2Z.id.
  - apply IH; [|lia]. intros i e' Hi. rewrite <-(He (S i) e' Hi). f_equal. lia.
Qed.

(** A printed event is as long with one identity as with another. *)
Ltac print_fits :=
  intros n; eexists; split; [reflexivity|]; apply (Nat.le_trans _ 400); [|unfold MAX_SERVER_EVENT_BYTES; lia];
  pose proof (client_event_id_length n) as Hl; revert Hl; generalize (event_id_text (new_v4 n)); intros id Hl;
  simpl; repeat (rewrite ?length_app, ?Hl; simpl); lia.

Lemma demo_events_sendable : Forall sendable [session_update_event demo_request; append_event demo_request; commit_event].
Proof. repeat constructor; print_fits. Qed.

Ltac field := vm_compute; first [reflexivity | discriminate].
Ltac fields := unfold of_item, of_content, of_response; split_and!; field.
Ltac new_name id :=
  eapply (answer_cons _ _ _ _ _ (key id)); [split_and!; [field|field|by apply (bool_decide_unpack _); field|done]| |].

Lemma demo_answers : answer (key "Cherry") {[key "e1"; key "e0"]} 2 PhSubmitted demo_answer
  (PhFinished (key "resp_1") (key "item_1") [key "abcd"; key "ef"] (Some 7)).
Proof.
  unfold demo_answer.
  new_name "e2". { eapply speaks_committed; [field|field|by left]. }
  new_name "e3". { eapply (speaks_created _ _ _ (key "resp_1")); field. }
  new_name "e4". { apply (speaks_item_added _ _ _ (key "item_1")); [field|]. fields. }
  new_name "e5". { apply speaks_part_added; [field| |field]. fields. }
  new_name "e6". { eapply (speaks_delta _ _ _ _ [] (key "abcd")); try field; fields. }
  new_name "e7". { eapply (speaks_delta _ _ _ _ [_] (key "ef")); try field; fields. }
  new_name "e8". { apply speaks_audio_done; [field|fields|done]. }
  new_name "e9". { apply speaks_part_done; [field|fields|field]. }
  new_name "e10". { apply speaks_item_done; [field|]. fields. }
  new_name "e11". { eapply (speaks_done _ _ _ (key "resp_1") _ _); field. }
  constructor.
Qed.

Lemma demo_bytes : bytes_ok (stream (demo_conn demo_wire)).
Proof.
  apply Forall_forall. intros b Hb.
  assert (forallb (λ b, (0 <=? b) && (b <? 256)) (stream (demo_conn demo_wire)) = true) as Hall by (vm_compute; reflexivity).
  rewrite forallb_forall in Hall. apply list_elem_of_In, Hall in Hb. bool_prop. unfold is_byte. lia.
Qed.

Lemma speech_is_one_response_witness :
  ∃ created updated events wire rest model chunks characters,
    stream (demo_conn demo_wire) = wire ++ rest ∧ carries (created :: updated :: events) wire
    ∧ whole_response demo_request created updated events model chunks characters
    ∧ demo_audio = response_audio demo_request Direct model chunks characters
    ∧ validate_pcm (ta_pcm demo_audio) = Ok (ta_samples demo_audio).
Proof.
  assert (run_tts_session demo_request Direct (demo_conn demo_wire)
    = (Ok demo_audio, (run_tts_session demo_request Direct (demo_conn demo_wire)).2)) as E by (vm_compute; reflexivity).
  exact (speech_is_one_response demo_request Direct demo_audio (demo_conn demo_wire) _ demo_bytes E).
Defined.

Lemma complete_response_is_spoken_witness :
  ∃ c', run_tts_session demo_request Direct (demo_conn demo_wire) = (Ok demo_audio, c').
Proof.
  apply (complete_response_is_spoken demo_request Direct demo_created demo_updated demo_answer
    DASHSCOPE_VERIFICATION_MODEL [key "abcd"; key "ef"] (Some 7) demo_wire []).
  - apply demo_events_sendable.
  - apply (demo_wire_carries 0 demo_events); [done|cbn; lia].
  - exists (key "s1"), (key "e0"), (key "e1"), (key "resp_1"), (key "item_1"). split_and!; [field| |field|apply demo_answers].
    split_and!; [field|field|by apply (bool_decide_unpack _); field|done].
  - reflexivity.
  - by rewrite app_nil_r.
Defined.

Lemma submits_at_most_once_witness :
  ∃ writes, cn_written (run_tts_session demo_request Direct (demo_conn (take 20 demo_wire))).2 = [] ++ writes
    ∧ Forall2 sent_by (take (length (omap client_text writes)) (session_events demo_request)) (omap client_text writes)
    ∧ ((3 ≤ length (omap client_text writes))%nat → ambiguous_after_commit = ambiguous_after_commit).
Proof.
  assert (run_tts_session demo_request Direct (demo_conn (take 20 demo_wire))
    = (Err ambiguous_after_commit, (run_tts_session demo_request Direct (demo_conn (take 20 demo_wire))).2)) as E by (vm_compute; reflexivity).
  destruct (submits_at_most_once demo_request Direct (demo_conn (take 20 demo_wire)) _ _ E) as (writes & Ew & Hs & _ & Hc & _).
  exists writes. split; [exact Ew|]. split; [exact Hs|exact Hc].
Defined.

(** The state after the opening, and after the whole answer. *)
Definition state_of (r : result AttemptFailure TtsSessionState) : TtsSessionState :=
  match r with Ok s => s | Err _ => new_session [] [] [] end.
Definition demo_opened : TtsSessionState := state_of (open_session demo_request (demo_conn demo_wire)).1.
Definition demo_final : TtsSessionState :=
  state_of (follow (key "Cherry") demo_answer (mark_request_submitted demo_opened)).

Lemma session_states_well_formed_witness : ss_response_done demo_final = true ∧ session_wf demo_final.
Proof.
  split; [vm_compute; reflexivity|].
  assert (open_session demo_request (demo_conn demo_wire)
    = (Ok demo_opened, (open_session demo_request (demo_conn demo_wire)).2)) as E by (vm_compute; reflexivity).
  assert (follow (tr_voice demo_request) demo_answer (mark_request_submitted demo_opened) = Ok demo_final) as Ef
    by (vm_compute; reflexivity).
  exact (session_states_well_formed demo_request (demo_conn demo_wire) demo_opened _ demo_answer demo_final demo_bytes E Ef).
Defined.

End Session.

(** * Speech over HTTP, run

    A text of two chunks, a service that answers and a file host that serves two samples; the
    witnesses of the client's properties. *)

Module Http.

Definition demo_pcm : bytes := [1; 0; 255; 127].
Definition demo_wav : bytes := match encode_wav demo_pcm with Ok wav => wav | Err _ => [] end.
Definition demo_url : text := ascii_bytes "https://" ++ TTS_AUDIO_HOST ++ ascii_bytes "/a.wav?sig=1".
Definition demo_response : json :=
  JObject [(key "output", JObject [(key "finish_reason", JString (key "stop"));
                                   (key "audio", JObject [(key "url", JString demo_url)])]);
           (key "usage", JObject [(key "characters", JNumber [52; 49])])].

Definition post_header : bytes := ascii_bytes "P" ++ crlf ++ crlf.
Definition get_header : bytes := ascii_bytes "G" ++ crlf ++ crlf.

#[local] Instance demo_serde : Serde :=
  {| json_from_slice b := if bool_decide (b = [7]) then Some demo_response else None; turn_pack_to_string _ := None |}.
#[local] Instance demo_externals : SpeechExternals :=
  {| json_to_vec _ := Some (ascii_bytes "{}"); base64_decode _ := None |}.
#[local] Instance demo_parser : HttpParser :=
  {| parse_response h :=
       if bool_decide (h = post_header)
       then Some (mk_parsed true (Some 1) (Some 200) [(ascii_bytes "content-length", ascii_bytes "1")])
       else if bool_decide (h = get_header)
       then Some (mk_parsed true (Some 1) (Some 200)
              [(ascii_bytes "Content-Type", ascii_bytes "audio/wav; rate=48000"); (ascii_bytes "Content-Length", ascii_bytes "48")])
       else None |}.

Definition demo_post : HttpStream := mk_http true [Some (post_header ++ [7])].
Definition demo_get : HttpStream := mk_http true [Some (take 3 get_header); Some (drop 3 get_header); Some demo_wav].
Definition good_world : AttemptWorld :=
  mk_attempt (Ok tt) (Ok Direct) (Ok tt) demo_post (Ok tt) (Ok Direct) (Ok tt) demo_get.
Definition unreachable : AttemptWorld :=
  mk_attempt (Ok tt) (Err Unavailable) (Ok tt) demo_post (Ok tt) (Ok Direct) (Ok tt) demo_get.
Definition no_audio_platform : AttemptWorld :=
  mk_attempt (Ok tt) (Ok Direct) (Ok tt) demo_post (Err Unavailable) (Ok Direct) (Ok tt) demo_get.
Definition demo_lookup : SecretLookup := mk_lookup (Some true) (Some (Some (ascii_bytes "sk-1"))).

(** The service cannot be reached at first. *)
Definition second_try (k : Z) : AttemptWorld := if k =? 1 then unreachable else good_world.
Definition demo_chunk : TtsRequest := mk_request (ascii_bytes "Done.") (ascii_bytes "Cherry") [].

(** Twenty letters, a full stop of three bytes, and two letters more. *)
Definition demo_characters : list bytes := replicate 20 [97] ++ [[227; 128; 130]; [111]; [107]].
Definition demo_text : text := mjoin demo_characters.
Definition demo_request : TtsRequest := mk_request demo_text (ascii_bytes "Cherry") [].

Example demo_chunks : length <$> split_tts_text demo_text MAX_TTS_CHUNK_CHARS = [23; 2]%nat.
Proof. vm_compute. reflexivity. Qed.

Lemma chunk_billed_once_witness :
  let '(r, posts) := synthesize 3 demo_lookup second_try demo_chunk in
  match r with Ok audio => ta_attempts audio = 2 | Err _ => False end
  ∧ (length posts ≤ 1)%nat ∧ (is_ok r → length posts = 1%nat).
Proof.
  destruct (synthesize 3 demo_lookup second_try demo_chunk) as [r posts] eqn:E.
  split.
  - assert (match (synthesize 3 demo_lookup second_try demo_chunk).1 with Ok audio => ta_attempts audio = 2 | Err _ => False end) as H
      by (vm_compute; reflexivity). by rewrite E in H.
  - apply (chunk_billed_once 3 demo_lookup second_try demo_chunk r posts); [|exact E].
    intros k. unfold second_try. by destruct (k =? 1).
Defined.

Lemma audio_setup_failure_bills_again_witness :
  synthesize 3 demo_lookup (λ _, no_audio_platform) demo_chunk =
    (Err TtsUnavailable, replicate 3 (post_request tts_target (ascii_bytes "sk-1") (ascii_bytes "{}"))).
Proof.
  apply (audio_setup_failure_bills_again 3 demo_lookup (λ _, no_audio_platform) demo_chunk (ascii_bytes "sk-1") (ascii_bytes "{}"));
    [vm_compute; reflexivity|reflexivity|reflexivity|reflexivity|].
  intros _. split_and!; try by eexists.
  exists [7]. split; [vm_compute; reflexivity|].
  eexists (_, _). vm_compute. reflexivity.
Defined.

Definition demo_result : result TtsError TtsAudio * list bytes :=
  synthesize_chunked 3 (λ _, demo_lookup) (λ _, second_try) demo_request.
Definition demo_speech : TtsAudio :=
  {| ta_pcm := demo_pcm ++ demo_pcm; ta_model := TTS_MODEL; ta_voice := ascii_bytes "Cherry"; ta_sample_rate := 48000;
     ta_samples := 4; ta_characters := Some 82; ta_transport := ascii_bytes "direct"; ta_attempts := 4 |}.

Lemma chunked_speech_is_the_whole_text_witness :
  ∃ chunks pieces,
    split_spec MAX_TTS_CHUNK_CHARS demo_text chunks ∧ length pieces = length chunks
    ∧ ta_pcm demo_speech = mjoin (ta_pcm <$> pieces) ∧ length demo_result.2 = length chunks.
Proof.
  assert (demo_result = (Ok demo_speech, demo_result.2)) as E by (vm_compute; reflexivity).
  destruct (chunked_speech_is_the_whole_text 3 (λ _, demo_lookup) (λ _, second_try) demo_request demo_speech demo_result.2)
    as (chunks & pieces & Hs & Hl & _ & Hp & _ & _ & _ & _ & Hb).
  - apply utf8_mjoin. unfold demo_characters. cbn. repeat constructor.
  - exact E.
  - exists chunks, pieces. split; [exact Hs|]. split; [exact Hl|]. split; [exact Hp|]. apply Hb.
    intros _ k. unfold second_try. by destruct (k =? 1).
Defined.

End Http.
