(* ===== verification/CacheTree.v ===== *)
(** * The directory of the object cache (app/host/src/cache.rs, the [*_at] functions on Unix)

    The cache's root holds one directory per task, which holds one directory per generation,
    which holds the encrypted objects.  The functions act on a tree of these three levels.
    Every system call may fail: [wd_faults] says which ones do, and after how many bytes a
    write stops.  A crash of the process is a plan in which everything fails from some call
    on.  The process holds the cache's lock, so nobody else changes the tree; that a
    directory was replaced between two calls is still checked, as the source does. *)

From stdpp Require Import gmap.
From S2P Require Import Prelude Bytes CacheRef StoreTypes.

(** What [fstat] says of a file: a regular file, of the host's user, its permission bits. *)
Record FileMeta := mk_file_meta { fm_regular : bool; fm_own : bool; fm_mode : Z }.

Inductive ChildEntry := Child (m : FileMeta) (contents : bytes) | ChildLink.

(** Directories: owner, permission bits, entries.  The other entries cannot be opened as a
    directory. *)
Record GenDir := mk_gen_dir { gn_own : bool; gn_mode : Z; gn_entries : gmap bytes ChildEntry }.
Inductive GenEntry := GenDirectory (d : GenDir) | GenOther.
Record TaskDir := mk_task_dir {
  td_own : bool; td_mode : Z; td_identity : Z * Z; td_entries : gmap bytes GenEntry
}.
Inductive RootEntry := RootTask (d : TaskDir) | RootFile (m : FileMeta) (contents : bytes) | RootLink.
Record Tree := mk_tree { tr_own : bool; tr_mode : Z; tr_entries : gmap bytes RootEntry }.

Record World := mk_world {
  wd_tree : Tree;
  wd_faults : list (option nat);
  wd_uuids : list text;
  wd_random : list (bytes * bytes);
  wd_inodes : list Z;
}.

Definition on_tree (f : Tree → Tree) (w : World) : World :=
  mk_world (f (wd_tree w)) (wd_faults w) (wd_uuids w) (wd_random w) (wd_inodes w).

(** ** Computations *)

Definition Fs (A : Type) : Type := World → result CacheError A * World.

Definition fret {A} (a : A) : Fs A := λ w, (Ok a, w).
Definition ffail {A} (e : CacheError) : Fs A := λ w, (Err e, w).
Definition fbind {A B} (m : Fs A) (k : A → Fs B) : Fs B :=
  λ w, match m w with (Ok a, w) => k a w | (Err e, w) => (Err e, w) end.
Definition flift {A} (r : result CacheError A) : Fs A := λ w, (r, w).

Declare Scope fs_scope.
Delimit Scope fs_scope with fs.
#[global] Open Scope fs_scope.
Notation "'let~' x ':=' m 'in' k" := (fbind m (λ x, k))
  (at level 10, x binder, m at level 100, k at level 200) : fs_scope.

Definition frequire (c : bool) (e : CacheError) : Fs unit := flift (require c e).

(** One system call: fails, with the number of bytes it got through, or succeeds. *)
Definition sys_call (w : World) : option nat * World :=
  match wd_faults w with
  | [] => (None, w)
  | f :: fs => (f, mk_world (wd_tree w) fs (wd_uuids w) (wd_random w) (wd_inodes w))
  end.

(** A system call that changes the tree by [f], or fails and changes nothing. *)
Definition sys (f : Tree → Tree) : Fs unit := λ w,
  match sys_call w with
  | (None, w) => (Ok tt, on_tree f w)
  | (Some _, w) => (Err CacheIo, w)
  end.

(** One that is refused in some trees. *)
Definition sys_if (allowed : Tree → bool) (f : Tree → Tree) : Fs unit := λ w,
  match sys_call w with
  | (None, w) => if allowed (wd_tree w) then (Ok tt, on_tree f w) else (Err CacheIo, w)
  | (Some _, w) => (Err CacheIo, w)
  end.

(** [m], and when it fails [undo], whose own failure is ignored. *)
Definition or_undo (m undo : Fs unit) : Fs unit := λ w,
  match m w with
  | (Ok _, w) => (Ok tt, w)
  | (Err e, w) => (Err e, (undo w).2)
  end.

(** A system call that reads the tree. *)
Definition look {A} (f : Tree → result CacheError A) : Fs A := λ w,
  match sys_call w with
  | (None, w) => (f (wd_tree w), w)
  | (Some _, w) => (Err CacheIo, w)
  end.

Definition fresh_uuid : Fs text := λ w,
  (Ok (default [] (head (wd_uuids w))), mk_world (wd_tree w) (wd_faults w) (tail (wd_uuids w)) (wd_random w) (wd_inodes w)).
Definition fresh_random : Fs (bytes * bytes) := λ w,
  (Ok (default ([], []) (head (wd_random w))), mk_world (wd_tree w) (wd_faults w) (wd_uuids w) (tail (wd_random w)) (wd_inodes w)).
Definition fresh_inode : Fs Z := λ w,
  (Ok (default 0 (head (wd_inodes w))), mk_world (wd_tree w) (wd_faults w) (wd_uuids w) (wd_random w) (tail (wd_inodes w))).

(** ** The tree *)

Definition task_at (t : Tree) (task : bytes) : option TaskDir :=
  match tr_entries t !! task with Some (RootTask d) => Some d | _ => None end.
Definition entry_at (t : Tree) (task name : bytes) : option GenEntry :=
  d ← task_at t task; td_entries d !! name.
Definition gen_at (t : Tree) (task name : bytes) : option GenDir :=
  match entry_at t task name with Some (GenDirectory d) => Some d | _ => None end.

Definition set_root (name : bytes) (e : RootEntry) (t : Tree) : Tree :=
  mk_tree (tr_own t) (tr_mode t) (<[name := e]> (tr_entries t)).
Definition set_entries (es : gmap bytes GenEntry) (d : TaskDir) : TaskDir :=
  mk_task_dir (td_own d) (td_mode d) (td_identity d) es.

(** Changes the entries of a task's directory; nothing when there is none. *)
Definition in_task (task : bytes) (f : gmap bytes GenEntry → gmap bytes GenEntry) (t : Tree) : Tree :=
  match task_at t task with
  | Some d => set_root task (RootTask (set_entries (f (td_entries d)) d)) t
  | None => t
  end.

(** Changes the files of a generation's directory. *)
Definition in_gen (task name : bytes) (f : gmap bytes ChildEntry → gmap bytes ChildEntry) (t : Tree) : Tree :=
  in_task task (λ es,
    match es !! name with
    | Some (GenDirectory d) => <[name := GenDirectory (mk_gen_dir (gn_own d) (gn_mode d) (f (gn_entries d)))]> es
    | _ => es
    end) t.

(** ** Files and directories *)

Definition validate_directory (own : bool) (mode : Z) : result CacheError unit :=
  require (own && (Z.land mode 511 =? 448)) Corrupt.
Definition validate_file (m : FileMeta) : result CacheError unit :=
  require (fm_regular m && fm_own m && (Z.land (fm_mode m) 511 =? 384)) Corrupt.

(** [open_directory_at]; [None] when there is no such entry. *)
Definition open_task (task : bytes) : Fs (option TaskDir) :=
  look (λ t,
    match tr_entries t !! task with
    | None => Ok None
    | Some (RootTask d) => Ok (Some d)
    | Some _ => Err CacheIo
    end).
Definition open_gen (task name : bytes) : Fs (option GenDir) :=
  look (λ t,
    match entry_at t task name with
    | None => Ok None
    | Some (GenDirectory d) => Ok (Some d)
    | Some GenOther => Err CacheIo
    end).

(** With [?] on the error of a missing entry. *)
Definition existing {A} (m : Fs (option A)) : Fs A :=
  let~ d := m in match d with Some d => fret d | None => ffail CacheIo end.

(** [directory_names]; the order is the file system's. *)
Definition directory_names {E} (entries : gmap bytes E) : Fs (list bytes) :=
  look (λ _, Ok (fst <$> map_to_list entries)).

Definition sync_directory : Fs unit := sys id.

Definition entry_exists (task name : bytes) : Fs bool :=
  look (λ t, Ok (bool_decide (is_Some (entry_at t task name)))).

(** [rename_noreplace] within a task's directory *)
Definition rename_noreplace (task old_name new_name : bytes) : Fs unit := λ w,
  match sys_call w with
  | (Some _, w) => (Err CacheIo, w)
  | (None, w) =>
      match entry_at (wd_tree w) task old_name, entry_at (wd_tree w) task new_name with
      | None, _ => (Err CacheIo, w)
      | Some _, Some _ => (Err AlreadyPublished, w)
      | Some e, None => (Ok tt, on_tree (in_task task (λ es, <[new_name := e]> (delete old_name es))) w)
      end
  end.

(** [open_or_create_directory_at] on the root: whether it was created.  The entry is made
    ([mkdirat]), its mode set, and on failure removed again; then it is opened, its mode
    set once more, and validated. *)
Definition create_task (task : bytes) : Fs unit :=
  let~ inode := fresh_inode in
  let~ _ := sys_if (λ t, bool_decide (tr_entries t !! task = None))
              (set_root task (RootTask (mk_task_dir true 448 (0, inode) ∅))) in
  let~ _ := or_undo (sys id) (sys (λ t, mk_tree (tr_own t) (tr_mode t) (delete task (tr_entries t)))) in
  let~ d := existing (open_task task) in
  let~ _ := sys id in
  flift (validate_directory (td_own d) (td_mode d)).

Definition open_or_create_task (task : bytes) : Fs bool :=
  let~ d := open_task task in
  match d with
  | Some d => let~ _ := look (λ _, validate_directory (td_own d) (td_mode d)) in fret false
  | None => let~ _ := create_task task in fret true
  end.

(** [create_directory_at] in a task's directory *)
Definition create_gen (task name : bytes) : Fs unit :=
  let~ _ := sys_if (λ t, bool_decide (entry_at t task name = None))
              (in_task task (<[name := GenDirectory (mk_gen_dir true 448 ∅)]>)) in
  let~ _ := or_undo (sys id) (sys (in_task task (delete name))) in
  let~ d := existing (open_gen task name) in
  let~ _ := sys id in
  flift (validate_directory (gn_own d) (gn_mode d)).

Definition private_file : FileMeta := mk_file_meta true true 384.

(** [write_create_only_file]: created empty, then written (perhaps in part), then synced. *)
Definition write_create_only_file (task gen name contents : bytes) : Fs unit :=
  let~ _ := sys_if (λ t, match gen_at t task gen with
                         | Some d => bool_decide (gn_entries d !! name = None)
                         | None => false
                         end)
              (in_gen task gen (<[name := Child private_file []]>)) in
  let~ _ := sys id in
  let~ _ := λ w,
    match sys_call w with
    | (None, w) => (Ok tt, on_tree (in_gen task gen (<[name := Child private_file contents]>)) w)
    | (Some n, w) =>
        (Err CacheIo, on_tree (in_gen task gen (<[name := Child private_file (take n contents)]>)) w)
    end in
  sys id.

(** The loop of [remove_flat_directory_at]: [entry_regular], then [unlinkat]. *)
Fixpoint unlink_all (task name : bytes) (d : GenDir) (names : list bytes) : Fs unit :=
  match names with
  | [] => fret tt
  | child :: names =>
      let~ regular := look (λ _,
        match gn_entries d !! child with
        | Some (Child m _) => Ok (fm_regular m && fm_own m)
        | Some ChildLink => Ok false
        | None => Err CacheIo
        end) in
      let~ _ := frequire regular Corrupt in
      let~ _ := sys (in_gen task name (delete child)) in
      unlink_all task name d names
  end.

Definition remove_flat_directory (task name : bytes) : Fs unit :=
  let~ d := existing (open_gen task name) in
  let~ _ := look (λ _, require (gn_own d) Corrupt) in
  let~ names := directory_names (gn_entries d) in
  let~ _ := unlink_all task name d names in
  let~ _ := sync_directory in
  sys (in_task task (delete name)).
