(* ===== verification/CacheOps.v ===== *)
(** * The object cache: operations (app/host/src/cache.rs, [CacheStore])

    A generation is published by writing its three objects into a temporary directory that
    is then renamed; [reconcile_unlocked] removes what the ledger no longer refers to.  The
    temporary names and the random bytes come from the world; the cache key and the limits
    are arguments. *)

From stdpp Require Import gmap sorting.
From S2P Require Import Prelude Bytes StrOps CacheRef StoreTypes Summary TtsCache CacheCodec CacheTree.

Definition TEMP_PREFIX : text := ascii_bytes ".tmp-".
Definition CACHE_LOCK_FILE : text := ascii_bytes ".cache.lock".
Definition MAX_GENERATION_PLAINTEXT_BYTES : Z := 32 * 1024 * 1024.
Definition MAX_ENCODED (k : ObjectKind) : Z := max_plaintext_bytes k + Z.of_nat HEADER_BYTES + Z.of_nat TAG_BYTES.

(** [ObjectKind::ALL] *)
Definition ALL_KINDS : list ObjectKind := [Manifest_; QwenWav; DeviceEiad].

#[export] Instance CacheId_countable : Countable CacheId :=
  inj_countable' (λ id, (ci_task_hash id, ci_generation id)) (λ p, mk_cache_id p.1 p.2) (λ id, match id with mk_cache_id _ _ => eq_refl end).

Record CacheLimits := mk_limits { lm_max_total_bytes : Z; lm_max_generations : Z }.
Record CacheAudit := mk_audit { au_finalized : Z; au_temporary : Z; au_bytes : Z }.
Record CleanupReport := mk_report { cr_temporaries_removed : Z; cr_orphans_removed : Z; cr_bytes_remaining : Z }.
Record TemporaryGeneration := mk_temporary { tg_task_name : text; tg_temporary_name : text; tg_task_identity : Z * Z }.
Record CacheScan := mk_cache_scan {
  cs_audit : CacheAudit;
  cs_finalized : gset CacheId;
  cs_temporaries : list TemporaryGeneration;
  cs_identities : gmap text (Z * Z);
}.

Definition task_directory_name (id : CacheId) : text := encode_hex (ci_task_hash id).
Definition generation_name (id : CacheId) : text := u64_to_string (ci_generation id).

Definition part_of (k : ObjectKind) (b : CacheBundle) : bytes :=
  match k with
  | KeyCheck => []
  | Manifest_ => cb_manifest_json b
  | QwenWav => cb_qwen_wav b
  | DeviceEiad => cb_device_eiad b
  end.

(** The sum of the sizes of the objects, checked. *)
Definition bundle_total (b : CacheBundle) : option Z :=
  total ← checked_add u64_max (blen (cb_manifest_json b)) (blen (cb_qwen_wav b));
  checked_add u64_max total (blen (cb_device_eiad b)).

Definition validate_bundle (b : CacheBundle) : result CacheError unit :=
  let? _ := require (forallb (λ k, blen (part_of k b) <=? max_plaintext_bytes k) ALL_KINDS) ObjectTooLarge in
  let? total := of_option GenerationTooLarge (bundle_total b) in
  require (total <=? MAX_GENERATION_PLAINTEXT_BYTES) GenerationTooLarge.

Definition encoded_bundle_bytes (b : CacheBundle) : result CacheError Z :=
  of_option CapacityExceeded (total ← bundle_total b;
    checked_add u64_max total ((Z.of_nat HEADER_BYTES + Z.of_nat TAG_BYTES) * Z.of_nat (length ALL_KINDS))).

(** [ObjectKind::ALL.into_iter().find(..)] *)
Definition kind_named (name : text) : result CacheError ObjectKind :=
  of_option Corrupt (head (filter (λ k, file_name k = name) ALL_KINDS)).

(** Opening a file by name, and its metadata with its length. *)
Definition open_file (entries : gmap bytes ChildEntry) (name : text) (missing : CacheError) : Fs (FileMeta * bytes) :=
  look (λ _,
    match entries !! name with
    | None => Err missing
    | Some ChildLink => Err CacheIo
    | Some (Child m contents) => Ok (m, contents)
    end).

(** ** Inspecting directories *)

Fixpoint inspect_final (entries : gmap bytes ChildEntry) (names : list text) (sizes : gmap Z Z) : Fs (gmap Z Z) :=
  match names with
  | [] => fret sizes
  | name :: names =>
      let~ kind := flift (kind_named name) in
      let~ f := open_file entries name CacheIo in
      let~ _ := look (λ _, validate_file f.1) in
      let~ _ := frequire (negb ((blen f.2 <? Z.of_nat HEADER_BYTES + Z.of_nat TAG_BYTES)
                                || (MAX_ENCODED kind <? blen f.2))) Corrupt in
      let~ _ := frequire (bool_decide (sizes !! kind_byte kind = None)) Corrupt in
      inspect_final entries names (<[kind_byte kind := blen f.2]> sizes)
  end.

(** The sizes are summed in the order of the kinds. *)
Definition sum_sizes (sizes : gmap Z Z) : option Z :=
  foldl (λ total k, total ← total; checked_add u64_max total (default 0 (sizes !! kind_byte k))) (Some 0) ALL_KINDS.

Definition inspect_final_directory (d : GenDir) : Fs Z :=
  let~ names := directory_names (gn_entries d) in
  let~ sizes := inspect_final (gn_entries d) names ∅ in
  let~ _ := frequire (size sizes =? length ALL_KINDS)%nat Corrupt in
  flift (of_option CapacityExceeded (sum_sizes sizes)).

Fixpoint inspect_temporary (entries : gmap bytes ChildEntry) (names : list text) (total : Z) : Fs Z :=
  match names with
  | [] => fret total
  | name :: names =>
      let~ kind := flift (kind_named name) in
      let~ f := open_file entries name CacheIo in
      let~ _ := look (λ _, validate_file f.1) in
      let~ _ := frequire (blen f.2 <=? MAX_ENCODED kind) CapacityExceeded in
      let~ total := flift (of_option CapacityExceeded (checked_add u64_max total (blen f.2))) in
      inspect_temporary entries names total
  end.

Definition inspect_temporary_directory (d : GenDir) : Fs Z :=
  let~ names := directory_names (gn_entries d) in inspect_temporary (gn_entries d) names 0.

(** [name.strip_prefix(TEMP_PREFIX)] *)
Definition strip_temp (name : text) : option text :=
  if bool_decide (take (length TEMP_PREFIX) name = TEMP_PREFIX) then Some (drop (length TEMP_PREFIX) name) else None.

(** [open_directory_at(..).map_err(|_| CacheError::Corrupt)] *)
Definition or_corrupt {A} (m : Fs (option A)) : Fs A := λ w,
  match m w with
  | (Ok (Some a), w) => (Ok a, w)
  | (Ok None, w) | (Err _, w) => (Err Corrupt, w)
  end.

Section cache.
Context `{Externals, Crypto, KeyDerivation} (key : bytes) (limits : CacheLimits).

Definition add_bytes (n : Z) (a : CacheAudit) : result CacheError CacheAudit :=
  let? total := of_option CapacityExceeded (checked_add u64_max (au_bytes a) n) in
  Ok (mk_audit (au_finalized a) (au_temporary a) total).
Definition add_temporary (a : CacheAudit) : result CacheError CacheAudit :=
  let? n := of_option CapacityExceeded (checked_add u64_max (au_temporary a) 1) in
  Ok (mk_audit (au_finalized a) n (au_bytes a)).
Definition add_finalized (a : CacheAudit) : result CacheError CacheAudit :=
  let? n := of_option CapacityExceeded (checked_add u64_max (au_finalized a) 1) in
  Ok (mk_audit n (au_temporary a) (au_bytes a)).

(** The entries of a task's directory. *)
Fixpoint scan_generations (task : text) (identity : Z * Z) (names : list text) (s : CacheScan) : Fs CacheScan :=
  match names with
  | [] => fret s
  | name :: names =>
      let~ d := or_corrupt (open_gen task name) in
      let~ _ := look (λ _, validate_directory (gn_own d) (gn_mode d)) in
      match strip_temp name with
      | Some uuid =>
          let~ _ := frequire (uuid_ok uuid) Corrupt in
          let~ audit := flift (add_temporary (cs_audit s)) in
          let~ n := inspect_temporary_directory d in
          let~ audit := flift (add_bytes n audit) in
          scan_generations task identity names
            (mk_cache_scan audit (cs_finalized s) (cs_temporaries s ++ [mk_temporary task name identity]) (cs_identities s))
      | None =>
          let~ id := flift (match from_reference (task ++ 47 :: name) with Ok id => Ok id | Err _ => Err Corrupt end) in
          let~ n := inspect_final_directory d in
          let~ _ := frequire (bool_decide (id ∉ cs_finalized s)) Corrupt in
          let~ audit := flift (add_finalized (cs_audit s)) in
          let~ audit := flift (add_bytes n audit) in
          scan_generations task identity names
            (mk_cache_scan audit ({[id]} ∪ cs_finalized s) (cs_temporaries s) (cs_identities s))
      end
  end.

(** The entries of the root. *)
Definition scan_root_file (name : text) : Fs (FileMeta * bytes) :=
  look (λ t,
    match tr_entries t !! name with
    | Some (RootFile m contents) => let? _ := validate_file m in Ok (m, contents)
    | Some (RootTask _) => Err Corrupt
    | Some RootLink | None => Err CacheIo
    end).

Fixpoint scan_tasks (names : list text) (s : CacheScan) : Fs CacheScan :=
  match names with
  | [] => fret s
  | name :: names =>
      if bool_decide (name = CACHE_LOCK_FILE) then
        let~ _ := scan_root_file name in scan_tasks names s
      else if bool_decide (name = KEY_MARKER_FILE) then
        let~ f := scan_root_file name in
        let~ audit := flift (add_bytes (blen f.2) (cs_audit s)) in
        scan_tasks names (mk_cache_scan audit (cs_finalized s) (cs_temporaries s) (cs_identities s))
      else
        let~ _ := frequire (is_task_hash name) Corrupt in
        let~ d := or_corrupt (open_task name) in
        let~ _ := look (λ _, validate_directory (td_own d) (td_mode d)) in
        let~ _ := frequire (bool_decide (cs_identities s !! name = None)) Corrupt in
        let~ generations := directory_names (td_entries d) in
        let~ s := scan_generations name (td_identity d) generations
                    (mk_cache_scan (cs_audit s) (cs_finalized s) (cs_temporaries s) (<[name := td_identity d]> (cs_identities s))) in
        scan_tasks names s
  end.

Definition scan_unlocked : Fs CacheScan :=
  let~ names := look (λ t, let? _ := validate_directory (tr_own t) (tr_mode t) in
                           Ok (fst <$> map_to_list (tr_entries t))) in
  scan_tasks names (mk_cache_scan (mk_audit 0 0 0) ∅ [] ∅).

(** ** Objects *)

(** The salt and the nonce are arrays of their size. *)
Definition write_object (task gen : text) (id : CacheId) (kind : ObjectKind) (plaintext : bytes) : Fs unit :=
  let~ r := fresh_random in
  let salt := resize SALT_BYTES 0 r.1 in
  let nonce := resize NONCE_BYTES 0 r.2 in
  write_create_only_file task gen (file_name kind) (encrypt_object salt nonce key id kind plaintext).

Definition read_object (d : GenDir) (id : CacheId) (kind : ObjectKind) : Fs bytes :=
  let~ f := open_file (gn_entries d) (file_name kind) MissingObject in
  let~ _ := look (λ _, validate_file f.1) in
  let~ _ := frequire (blen f.2 <=? MAX_ENCODED kind) ObjectTooLarge in
  let~ encoded := look (λ _, Ok f.2) in
  flift (decrypt_object key id kind encoded).

Definition read_unlocked (id : CacheId) : Fs CacheBundle :=
  let~ task := open_task (task_directory_name id) in
  match task with
  | None => ffail MissingObject
  | Some _ =>
      let~ directory := open_gen (task_directory_name id) (generation_name id) in
      match directory with
      | None => ffail MissingObject
      | Some d =>
          let~ manifest_json := read_object d id Manifest_ in
          let~ qwen_wav := read_object d id QwenWav in
          let~ device_eiad := read_object d id DeviceEiad in
          let~ _ := inspect_final_directory d in
          fret (mk_bundle manifest_json qwen_wav device_eiad)
      end
  end.

(** ** Publishing *)

(** Up to the rename. *)
Definition write_generation (task temporary : text) (id : CacheId) (b : CacheBundle) : Fs unit :=
  let~ _ := write_object task temporary id Manifest_ (cb_manifest_json b) in
  let~ _ := write_object task temporary id QwenWav (cb_qwen_wav b) in
  let~ _ := write_object task temporary id DeviceEiad (cb_device_eiad b) in
  let~ _ := sync_directory in
  rename_noreplace task temporary (generation_name id).

Definition publish_observed (id : CacheId) (b : CacheBundle) : Fs unit :=
  let~ _ := flift (validate_bundle b) in
  let~ predicted_bytes := flift (encoded_bundle_bytes b) in
  let~ s := scan_unlocked in
  let current := cs_audit s in
  let~ _ := frequire (negb ((lm_max_generations limits <=? au_finalized current)
      || match checked_add u64_max (au_bytes current) predicted_bytes with
         | None => true
         | Some total => lm_max_total_bytes limits <? total
         end)) CapacityExceeded in
  let task := task_directory_name id in
  let~ created := open_or_create_task task in
  let~ _ := if (created : bool) then sync_directory else fret tt in
  let~ exists_ := entry_exists task (generation_name id) in
  let~ _ := frequire (negb exists_) AlreadyPublished in
  let~ uuid := fresh_uuid in
  let temporary := TEMP_PREFIX ++ uuid in
  let~ _ := create_gen task temporary in
  let~ _ := or_undo (write_generation task temporary id b) (remove_flat_directory task temporary) in
  sync_directory.

Definition bundle_eqb (a b : CacheBundle) : bool :=
  bool_decide (cb_manifest_json a = cb_manifest_json b) && bool_decide (cb_qwen_wav a = cb_qwen_wav b)
  && bool_decide (cb_device_eiad a = cb_device_eiad b).

Definition publish_or_verify_unlocked (id : CacheId) (b : CacheBundle) : Fs unit := λ w,
  match read_unlocked id w with
  | (Ok existing, w) => frequire (bundle_eqb existing b) AlreadyPublished w
  | (Err MissingObject, w) =>
      (let~ _ := publish_observed id b in
       let~ existing := read_unlocked id in
       frequire (bundle_eqb existing b) Corrupt) w
  | (Err e, w) => (Err e, w)
  end.

(** The bundle a callback is run on. *)
Definition publish_or_verify_with (id : CacheId) (b : CacheBundle) : Fs CacheBundle :=
  let~ _ := publish_or_verify_unlocked id b in read_unlocked id.

(** ** Cleaning up *)

Definition validate_identity (task : text) (expected : Z * Z) : Fs unit :=
  let~ d := existing (open_task task) in
  let~ _ := look (λ _, validate_directory (td_own d) (td_mode d)) in
  look (λ _, require (bool_decide (td_identity d = expected)) Corrupt).

Definition remove_orphan_atomically (id : CacheId) (identity : Z * Z) : Fs unit :=
  let task := task_directory_name id in
  let~ _ := validate_identity task identity in
  let~ uuid := fresh_uuid in
  let temporary := TEMP_PREFIX ++ uuid in
  let~ _ := rename_noreplace task (generation_name id) temporary in
  let~ _ := sync_directory in
  let~ _ := remove_flat_directory task temporary in
  sync_directory.

Definition remove_temporary (t : TemporaryGeneration) : Fs unit :=
  let~ _ := validate_identity (tg_task_name t) (tg_task_identity t) in
  let~ _ := remove_flat_directory (tg_task_name t) (tg_temporary_name t) in
  sync_directory.

Fixpoint for_each {A} (f : A → Fs unit) (l : list A) : Fs unit :=
  match l with [] => fret tt | a :: l => let~ _ := f a in for_each f l end.

Definition sync_all_task_directories : Fs unit :=
  let~ names := look (λ t, Ok (fst <$> map_to_list (tr_entries t))) in
  let~ _ := for_each (λ name, if is_task_hash name
              then let~ _ := existing (open_task name) in sync_directory else fret tt) names in
  sync_directory.

Definition parse_references (references : gset text) : result CacheError (gset CacheId) :=
  foldr (λ r acc, let? ids := acc in let? id := from_reference r in Ok ({[id]} ∪ ids)) (Ok ∅) (elements references).

(** A [BTreeSet<CacheId>] is traversed in the order of the hash, then of the generation. *)
Definition id_leb (a b : CacheId) : bool :=
  if bool_decide (ci_task_hash a = ci_task_hash b) then ci_generation a <=? ci_generation b
  else bytes_leb (ci_task_hash a) (ci_task_hash b).
Definition in_order (ids : gset CacheId) : list CacheId := merge_sort (λ a b, id_leb a b) (elements ids).

Definition reconcile_unlocked (references : gset text) : Fs CleanupReport :=
  let~ expected := flift (parse_references references) in
  let~ s := scan_unlocked in
  let~ _ := frequire (bool_decide (expected ⊆ cs_finalized s)) MissingReference in
  let~ _ := for_each (λ id, let~ _ := read_unlocked id in fret tt) (in_order expected) in
  let~ _ := for_each remove_temporary (cs_temporaries s) in
  let orphans := in_order (cs_finalized s ∖ expected) in
  let~ _ := for_each (λ id,
      let~ identity := flift (of_option Corrupt (cs_identities s !! task_directory_name id)) in
      remove_orphan_atomically id identity) orphans in
  let~ _ := sync_all_task_directories in
  let~ final := scan_unlocked in
  fret (mk_report (Z.of_nat (length (cs_temporaries s))) (Z.of_nat (length orphans)) (au_bytes (cs_audit final))).

End cache.
