(* ===== verification/CacheOpen.v ===== *)
(** * Opening the object cache (app/host/src/cache.rs, [CacheKey], [CacheStore::initialize]
      and [open_existing])

    The cache's objects are sealed with one key, which is kept in a [SecretStore].  A marker
    file in the cache's root, sealed with the key, says that the cache has been used and with
    which key.  The key is drawn when there is neither; it must never be drawn again. *)

From stdpp Require Import gmap.
From S2P Require Import Prelude Bytes StrOps CacheRef StoreTypes WsFrames Secrets Summary TtsCache CacheCodec CacheTree.
From S2P Require Import CacheOps.

Definition KEY_MARKER_TEMP_PREFIX : text := ascii_bytes ".key-check.tmp-".

(** What the cache needs of the store that keeps its key: reading tells what is kept, and a
    key that is created, perhaps by a call that then fails, replaces nothing. *)
Class KeepsKey {S} (store : SecretStore S) (account : text) := {
  kept_key : S → option bytes;
  kept_get s r s' : st_get store account s = (r, s') →
    kept_key s' = kept_key s ∧ ∀ v, r = Ok v → v = kept_key s;
  kept_create key s r s' : length key = CACHE_KEY_BYTES → bytes_ok key → st_create store account key s = (r, s') →
    (kept_key s' = kept_key s ∧ ∃ e, r = Err e) ∨ kept_key s = None ∧ kept_key s' = Some key;
}.

(** ** The root's files *)

Definition root_entry_exists (name : text) : Fs bool := look (λ t, Ok (bool_decide (is_Some (tr_entries t !! name)))).

Definition delete_root (name : text) (t : Tree) : Tree := mk_tree (tr_own t) (tr_mode t) (delete name (tr_entries t)).

(** [unlink_file_at] *)
Definition unlink_root (name : text) : Fs unit :=
  sys_if (λ t, match tr_entries t !! name with Some (RootFile _ _) | Some RootLink => true | _ => false end) (delete_root name).

(** [entry_regular] *)
Definition root_entry_regular (name : text) : Fs bool :=
  look (λ t,
    match tr_entries t !! name with
    | Some (RootFile m _) => Ok (fm_regular m && fm_own m)
    | Some _ => Ok false
    | None => Err CacheIo
    end).

(** [write_create_only_file] in the root *)
Definition write_create_only_root (name contents : bytes) : Fs unit :=
  let~ _ := sys_if (λ t, bool_decide (tr_entries t !! name = None)) (set_root name (RootFile private_file [])) in
  let~ _ := sys id in
  let~ _ := λ w,
    match sys_call w with
    | (None, w) => (Ok tt, on_tree (set_root name (RootFile private_file contents)) w)
    | (Some n, w) => (Err CacheIo, on_tree (set_root name (RootFile private_file (take n contents))) w)
    end in
  sys id.

(** [rename_noreplace] within the root *)
Definition rename_noreplace_root (old_name new_name : text) : Fs unit := λ w,
  match sys_call w with
  | (Some _, w) => (Err CacheIo, w)
  | (None, w) =>
      match tr_entries (wd_tree w) !! old_name, tr_entries (wd_tree w) !! new_name with
      | None, _ => (Err CacheIo, w)
      | Some _, Some _ => (Err AlreadyPublished, w)
      | Some e, None => (Ok tt, on_tree (λ t, set_root new_name e (delete_root old_name t)) w)
      end
  end.

(** ** The lock and the root *)

Definition set_mode (mode : Z) (t : Tree) : Tree := mk_tree (tr_own t) mode (tr_entries t).

(** A change of the lock's file; the first opening creates it. *)
Definition on_lock (f : FileMeta * bytes → FileMeta * bytes) (t : Tree) : Tree :=
  match tr_entries t !! CACHE_LOCK_FILE with
  | Some (RootFile m c) => set_root CACHE_LOCK_FILE (RootFile (f (m, c)).1 (f (m, c)).2) t
  | _ => t
  end.
Definition create_lock (t : Tree) : Tree :=
  match tr_entries t !! CACHE_LOCK_FILE with
  | None => set_root CACHE_LOCK_FILE (RootFile private_file []) t
  | _ => t
  end.

(** [contended]: another process holds the lock.  [secure_directory] and
    [open_owned_directory_chain] refuse a root that is not the user's. *)
Definition prepare_root_and_lock (limits : CacheLimits) (contended : bool) : Fs unit :=
  let~ _ := frequire (negb ((lm_max_total_bytes limits =? 0) || (lm_max_generations limits =? 0))) CapacityExceeded in
  let~ _ := sys_if tr_own (set_mode 448) in
  let~ _ := look (λ t, require (tr_own t) CacheIo) in
  let~ _ := sys (set_mode 448) in
  let~ _ := look (λ t, validate_directory (tr_own t) (tr_mode t)) in
  let~ _ := sys_if (λ t, match tr_entries t !! CACHE_LOCK_FILE with None | Some (RootFile _ _) => true | _ => false end) create_lock in
  let~ _ := sys (on_lock (λ f, (mk_file_meta (fm_regular f.1) (fm_own f.1) 384, f.2))) in
  let~ _ := look (λ t, match tr_entries t !! CACHE_LOCK_FILE with Some (RootFile m _) => validate_file m | _ => Err CacheIo end) in
  let~ _ := look (λ _, if contended then Err AlreadyOpen else Ok tt) in
  let~ _ := sys (on_lock (λ f, (f.1, []))) in
  sys id.

Section open.
Context `{Externals, Crypto, KeyDerivation}.

(** ** The marker *)

Definition key_marker_id : CacheId := mk_cache_id (sha256 (ascii_bytes "easy-codex-input/cache-key-check/v1")) 1.

Definition marker_temporary (name : text) : option text :=
  if utf8_ok name && has_prefix KEY_MARKER_TEMP_PREFIX name then Some (drop (length KEY_MARKER_TEMP_PREFIX) name) else None.

(** The loop of [cleanup_key_marker_temporaries]: whether anything was removed. *)
Fixpoint cleanup_markers (names : list text) (removed : bool) : Fs bool :=
  match names with
  | [] => fret removed
  | name :: names =>
      match marker_temporary name with
      | None => cleanup_markers names removed
      | Some uuid =>
          let~ _ := frequire (uuid_ok uuid) Corrupt in
          let~ regular := root_entry_regular name in
          let~ _ := frequire regular Corrupt in
          let~ _ := unlink_root name in
          cleanup_markers names true
      end
  end.
Definition root_names : Fs (list text) := look (λ t, Ok (fst <$> map_to_list (tr_entries t))).
Definition cleanup_key_marker_temporaries : Fs unit :=
  let~ names := root_names in
  let~ removed := cleanup_markers names false in
  if removed : bool then sync_directory else fret tt.

Definition ensure_uninitialized_root_is_empty : Fs unit :=
  let~ names := root_names in
  frequire (forallb (λ name, bool_decide (name = CACHE_LOCK_FILE)) names) InvalidKey.

Definition write_key_marker (key : bytes) : Fs unit :=
  let~ r := fresh_random in
  let encoded := encrypt_object (resize SALT_BYTES 0 r.1) (resize NONCE_BYTES 0 r.2) key key_marker_id KeyCheck KEY_MARKER_PLAINTEXT in
  let~ uuid := fresh_uuid in
  let temporary_name := KEY_MARKER_TEMP_PREFIX ++ uuid in
  or_undo
    (let~ _ := write_create_only_root temporary_name encoded in
     let~ _ := sync_directory in
     let~ _ := rename_noreplace_root temporary_name KEY_MARKER_FILE in
     sync_directory)
    (unlink_root temporary_name).

(** [map_err(|_| CacheError::InvalidKey)] *)
Definition or_invalid_key {A} (m : Fs A) : Fs A := λ w,
  match m w with (Ok a, w) => (Ok a, w) | (Err _, w) => (Err InvalidKey, w) end.

Definition verify_key_marker (key : bytes) : Fs unit :=
  let~ file := or_invalid_key (look (λ t,
    match tr_entries t !! KEY_MARKER_FILE with
    | Some (RootFile m c) => Ok (m, c)
    | Some (RootTask d) => Ok (mk_file_meta false (td_own d) (td_mode d), [])
    | _ => Err CacheIo
    end)) in
  let~ _ := look (λ _, validate_file file.1) in
  let~ _ := frequire (length file.2 =? HEADER_BYTES + length KEY_MARKER_PLAINTEXT + TAG_BYTES)%nat InvalidKey in
  let~ encoded := look (λ _, Ok file.2) in
  let~ plaintext := or_invalid_key (flift (decrypt_object key key_marker_id KeyCheck encoded)) in
  frequire (bool_decide (plaintext = KEY_MARKER_PLAINTEXT)) InvalidKey.

(** ** The key *)

Definition from_secret (secret : bytes) : result CacheError bytes :=
  if (length secret =? CACHE_KEY_BYTES)%nat then Ok secret else Err InvalidKey.

Section key.
Context {S : Type} (store : SecretStore S) (accounts : KeychainAccounts).

(** A computation on the store and the directory *)
Definition Opening (A : Type) : Type := S → World → result CacheError A * S * World.
Definition in_root {A} (m : Fs A) : Opening A := λ s w, let '(r, w) := m w in (r, s, w).
Definition in_store {A} (m : S → result CacheError A * S) : Opening A := λ s w, let '(r, s) := m s in (r, s, w).
Definition obind {A B} (m : Opening A) (k : A → Opening B) : Opening B :=
  λ s w, match m s w with (Ok a, s, w) => k a s w | (Err e, s, w) => (Err e, s, w) end.

Definition get_secret : S → result CacheError (option bytes) * S := λ s,
  match st_get store (ka_cache_key accounts) s with
  | (Ok v, s) => (Ok v, s)
  | (Err _, s) => (Err SecretStoreFailed, s)
  end.

(** [CacheKey::load] *)
Definition load_key : S → result CacheError bytes * S := λ s,
  match get_secret s with
  | (Ok secret, s) => (let? secret := of_option InvalidKey secret in from_secret secret, s)
  | (Err e, s) => (Err e, s)
  end.

(** [CacheKey::initialize]; [candidate] is what the system's generator gives. *)
Definition initialize_key (candidate : bytes) : S → result CacheError bytes * S := λ s,
  match get_secret s with
  | (Err e, s) => (Err e, s)
  | (Ok (Some secret), s) => (from_secret secret, s)
  | (Ok None, s) =>
      match st_create store (ka_cache_key accounts) candidate s with
      | (Ok _, s) | (Err AlreadyExists, s) => load_key s
      | (Err Backend, s) => (Err SecretStoreFailed, s)
      end
  end.

(** [CacheStore::initialize] and [open_existing]: the key that the store is built with. *)
Definition initialize (limits : CacheLimits) (contended : bool) (candidate : bytes) : Opening bytes :=
  obind (in_root (prepare_root_and_lock limits contended)) (λ _,
  obind (in_root cleanup_key_marker_temporaries) (λ _,
  obind (in_root (root_entry_exists KEY_MARKER_FILE)) (λ marker_exists,
  obind
    (if marker_exists : bool then in_store load_key
     else
       obind (in_root ensure_uninitialized_root_is_empty) (λ _,
       obind (in_store (initialize_key candidate)) (λ key,
       obind (in_root (write_key_marker key)) (λ _, in_root (fret key)))))
    (λ key,
  obind (in_root (verify_key_marker key)) (λ _, in_root (fret key)))))).

Definition open_existing (root_exists : bool) (limits : CacheLimits) (contended : bool) : Opening bytes :=
  if negb root_exists then in_root (ffail InvalidKey)
  else
    obind (in_root (prepare_root_and_lock limits contended)) (λ _,
    obind (in_root cleanup_key_marker_temporaries) (λ _,
    obind (in_store load_key) (λ key,
    obind (in_root (verify_key_marker key)) (λ _, in_root (fret key))))).

End key.
End open.

(** ** Attempts *)

(** An attempt to open, with what its system calls and generators will give. *)
Inductive Attempt :=
| Initialize (limits : CacheLimits) (contended : bool) (candidate : bytes)
| OpenExisting (root_exists : bool) (limits : CacheLimits) (contended : bool).
Record Plan := mk_plan { pn_attempt : Attempt; pn_faults : list (option nat); pn_uuids : list text; pn_random : list (bytes * bytes) }.

(** The candidate is an array of the key's size. *)
Definition fresh_candidate (a : Attempt) : Prop :=
  match a with Initialize _ _ candidate => length candidate = CACHE_KEY_BYTES ∧ bytes_ok candidate | OpenExisting _ _ _ => True end.

Section attempts.
Context `{Externals, Crypto, KeyDerivation} {S : Type} (store : SecretStore S) (accounts : KeychainAccounts).

Definition run_attempt (a : Attempt) : Opening bytes :=
  match a with
  | Initialize limits contended candidate => initialize store accounts limits contended candidate
  | OpenExisting root_exists limits contended => open_existing store accounts root_exists limits contended
  end.

(** One attempt after the other on the same store and directory: what each of them gave. *)
Fixpoint run_attempts (plans : list Plan) (s : S) (t : Tree) : list (result CacheError bytes) * S * Tree :=
  match plans with
  | [] => ([], s, t)
  | p :: plans =>
      let '(r, s, w) := run_attempt (pn_attempt p) s (mk_world t (pn_faults p) (pn_uuids p) (pn_random p) []) in
      let '(rs, s, t) := run_attempts plans s (wd_tree w) in (r :: rs, s, t)
  end.
End attempts.

(** ** What an attempt may change *)

(** Entries whose name [P] does not hold of stay. *)
Definition others_stay (P : text → Prop) (t t' : Tree) : Prop :=
  ∀ name, ¬ P name → tr_entries t' !! name = tr_entries t !! name.
Definition stays (P : text → Prop) {A} (m : Fs A) : Prop := ∀ w, others_stay P (wd_tree w) (wd_tree (m w).2).

Section stays.
Context (P : text → Prop).

Lemma sys_call_keeps w : wd_tree (sys_call w).2 = wd_tree w.
Proof. unfold sys_call. by destruct (wd_faults w). Qed.

Lemma stays_pure {A} (r : result CacheError A) : stays P (flift r).
Proof. by intros w name. Qed.
Lemma stays_look {A} (f : Tree → result CacheError A) : stays P (look f).
Proof. intros w name _. unfold look. pose proof (sys_call_keeps w) as E. destruct (sys_call w) as [[]]; cbn in *; by rewrite E. Qed.
Lemma stays_sys f : (∀ t, others_stay P t (f t)) → stays P (sys f).
Proof.
  intros Hf w name Hn. unfold sys. pose proof (sys_call_keeps w) as E.
  destruct (sys_call w) as [[] w1]; cbn in *; rewrite E; [done|by apply Hf].
Qed.
Lemma stays_sys_if allowed f : (∀ t, others_stay P t (f t)) → stays P (sys_if allowed f).
Proof.
  intros Hf w name Hn. unfold sys_if. pose proof (sys_call_keeps w) as E.
  destruct (sys_call w) as [[] w1]; cbn in *; [by rewrite E|]. rewrite E. destruct (allowed _); cbn; rewrite ?E; [by apply Hf|done].
Qed.
Lemma stays_bind {A B} (m : Fs A) (k : A → Fs B) : stays P m → (∀ a, stays P (k a)) → stays P (fbind m k).
Proof.
  intros Hm Hk w name Hn. unfold fbind. specialize (Hm w name Hn). destruct (m w) as [[a|e] w1]; [|done].
  by rewrite (Hk a w1 name Hn).
Qed.
Lemma stays_undo m undo : stays P m → stays P undo → stays P (or_undo m undo).
Proof.
  intros Hm Hu w name Hn. unfold or_undo. specialize (Hm w name Hn). destruct (m w) as [[a|e] w1]; [done|].
  cbn. by rewrite (Hu w1 name Hn).
Qed.
Lemma stays_uuid : stays P fresh_uuid.
Proof. by intros w name. Qed.
Lemma stays_random : stays P fresh_random.
Proof. by intros w name. Qed.
Lemma stays_invalid {A} (m : Fs A) : stays P m → stays P (or_invalid_key m).
Proof. intros Hm w name Hn. unfold or_invalid_key. specialize (Hm w name Hn). by destruct (m w) as [[]]. Qed.

Lemma others_set name e t : P name → others_stay P t (set_root name e t).
Proof. intros Hp a Ha. cbn. apply lookup_insert_ne. by intros ->. Qed.
Lemma others_delete_root name t : P name → others_stay P t (delete_root name t).
Proof. intros Hp a Ha. cbn. apply lookup_delete_ne. by intros ->. Qed.
End stays.

(** The names that an attempt may change beside the marker's *)
Definition opening_name (name : text) : Prop := name = CACHE_LOCK_FILE ∨ has_prefix KEY_MARKER_TEMP_PREFIX name = true.

Create HintDb stays.
#[export] Hint Resolve stays_pure stays_look stays_sys stays_sys_if stays_bind stays_undo stays_uuid stays_random stays_invalid
  others_set others_delete_root : stays.

Lemma stays_lock f : stays opening_name (sys (on_lock f)).
Proof.
  apply stays_sys. intros t. unfold on_lock. destruct (tr_entries t !! _) as [[| |]|]; try done. apply others_set. by left.
Qed.

Lemma stays_prepare limits contended : stays opening_name (prepare_root_and_lock limits contended).
Proof.
  unfold prepare_root_and_lock. repeat (apply stays_bind; [|intros _]); try apply stays_lock; try apply stays_look; try apply stays_pure;
    try (apply stays_sys_if); try (apply stays_sys); try done.
  intros t. unfold create_lock. destruct (tr_entries t !! _); [done|]. apply others_set. by left.
Qed.

Section opening.
Context `{Externals, Crypto, KeyDerivation}.

Lemma marker_is_not_opening : ¬ opening_name KEY_MARKER_FILE.
Proof. intros [Hx|Hx]; vm_compute in Hx; discriminate Hx. Qed.

Lemma marker_temporary_name name uuid : marker_temporary name = Some uuid → opening_name name.
Proof. unfold marker_temporary. destruct (_ && _) eqn:E; [|done]. intros _. bool_prop. by right. Qed.

Lemma stays_unlink P name : P name → stays P (unlink_root name).
Proof. intros Hp. apply stays_sys_if. intros t. by apply others_delete_root. Qed.

Lemma stays_cleanup : stays opening_name cleanup_key_marker_temporaries.
Proof.
  assert (∀ names removed, stays opening_name (cleanup_markers names removed)) as Hloop.
  { induction names as [|name names IH]; intros removed; [by intros w n|]. cbn [cleanup_markers].
    destruct (marker_temporary name) eqn:Em; [|apply IH]. apply stays_bind; [apply stays_pure|intros _].
    apply stays_bind; [apply stays_look|intros regular]. apply stays_bind; [apply stays_pure|intros _].
    apply stays_bind; [by eapply stays_unlink, marker_temporary_name|intros _; apply IH]. }
  apply stays_bind; [apply stays_look|intros names]. apply stays_bind; [apply Hloop|intros [|]]; [by apply stays_sys|by intros w n].
Qed.

Lemma stays_empty : stays opening_name ensure_uninitialized_root_is_empty.
Proof. apply stays_bind; [apply stays_look|intros names; apply stays_pure]. Qed.

Lemma stays_verify key : stays opening_name (verify_key_marker key).
Proof.
  unfold verify_key_marker. apply stays_bind; [apply stays_invalid, stays_look|intros file].
  apply stays_bind; [apply stays_look|intros _]. apply stays_bind; [apply stays_pure|intros _].
  apply stays_bind; [apply stays_look|intros encoded]. apply stays_bind; [apply stays_invalid, stays_pure|intros plaintext; apply stays_pure].
Qed.

(** The marker's file is one that the key opens. *)
Definition marks (key : bytes) (t : Tree) : Prop :=
  ∃ m c, tr_entries t !! KEY_MARKER_FILE = Some (RootFile m c) ∧ decrypt_object key key_marker_id KeyCheck c = Ok KEY_MARKER_PLAINTEXT.

Lemma verify_marks key w u w' : verify_key_marker key w = (Ok u, w') → marks key (wd_tree w).
Proof.
  unfold verify_key_marker, fbind, or_invalid_key. unfold look at 1.
  destruct (sys_call w) as [[n|] w1] eqn:E1; [done|].
  assert (wd_tree w1 = wd_tree w) as Et by (pose proof (sys_call_keeps w) as E; by rewrite E1 in E). rewrite Et.
  destruct (tr_entries (wd_tree w) !! KEY_MARKER_FILE) as [[d|m c|]|] eqn:Em; [|..|done|done].
  { unfold look at 1. destruct (sys_call w1) as [[n|] w2]; [done|]. cbn. done. }
  unfold look at 1. destruct (sys_call w1) as [[n|] w2]; [done|]. destruct (validate_file _) as [[]|]; [|done].
  unfold frequire, flift, require. destruct (_ =? _)%nat; [|done]. unfold look.
  destruct (sys_call w2) as [[n|] w3]; [done|]. cbn [snd]. destruct (decrypt_object _ _ _ c) as [p|] eqn:Ed; [|done].
  case_bool_decide as Hp; [|done]. intros _. exists m, c. by rewrite Hp in Ed.
Qed.

(** ** Writing the marker *)

Lemma write_create_only_root_spec name c w r w' :
  write_create_only_root name c w = (r, w') →
  others_stay (eq name) (wd_tree w) (wd_tree w') ∧ (∀ u, r = Ok u → tr_entries (wd_tree w') !! name = Some (RootFile private_file c)).
Proof.
  assert (stays (eq name) (write_create_only_root name c)) as Hs.
  { unfold write_create_only_root. repeat (apply stays_bind; [|intros _]); try (by apply stays_sys);
      [apply stays_sys_if; intros t; by apply others_set|]. intros w0 n Hn. pose proof (sys_call_keeps w0) as E.
    destruct (sys_call w0) as [[k|] w1]; cbn [snd on_tree wd_tree] in *; rewrite <- E; apply (others_set (eq name)); done. }
  intros Hw. split; [pose proof (Hs w) as Hx; by rewrite Hw in Hx|]. intros u ->. revert Hw.
  unfold write_create_only_root, fbind, sys, sys_if.
  destruct (sys_call w) as [[n|] w1]; [done|]. destruct (bool_decide _); [|done].
  destruct (sys_call (on_tree _ w1)) as [[n|] w2]; [done|].
  destruct (sys_call (on_tree id w2)) as [[n|] w3]; [done|].
  destruct (sys_call (on_tree (set_root _ _) w3)) as [[n|] w4] eqn:E4; [done|].
  intros [= _ <-]. pose proof (sys_call_keeps (on_tree (set_root name (RootFile private_file c)) w3)) as E.
  rewrite E4 in E. cbn in E |- *. rewrite E. cbn. apply lookup_insert_eq.
Qed.

Lemma rename_root_spec old new w r w' :
  rename_noreplace_root old new w = (r, w') → old ≠ new →
  (wd_tree w' = wd_tree w ∧ ∃ e, r = Err e)
  ∨ ∃ e, tr_entries (wd_tree w) !! old = Some e ∧ tr_entries (wd_tree w) !! new = None
      ∧ wd_tree w' = set_root new e (delete_root old (wd_tree w)).
Proof.
  unfold rename_noreplace_root. pose proof (sys_call_keeps w) as E. destruct (sys_call w) as [[n|] w1]; cbn in E.
  { intros [= <- <-] _. left. eauto. }
  rewrite <- E. destruct (tr_entries (wd_tree w1) !! old) as [e|] eqn:Eo; [|intros [= <- <-] _; left; eauto].
  destruct (tr_entries (wd_tree w1) !! new) eqn:En; intros [= <- <-] _; [left; eauto|right; eauto].
Qed.

Lemma marker_body_spec temp encoded w r w' :
  temp ≠ KEY_MARKER_FILE →
  (let~ _ := write_create_only_root temp encoded in
   let~ _ := sync_directory in
   let~ _ := rename_noreplace_root temp KEY_MARKER_FILE in
   sync_directory) w = (r, w') →
  others_stay (λ n, temp = n ∨ n = KEY_MARKER_FILE) (wd_tree w) (wd_tree w')
  ∧ (tr_entries (wd_tree w') !! KEY_MARKER_FILE = tr_entries (wd_tree w) !! KEY_MARKER_FILE
     ∨ tr_entries (wd_tree w') !! KEY_MARKER_FILE = Some (RootFile private_file encoded)).
Proof.
  intros Hne. unfold fbind.
  destruct (write_create_only_root temp encoded w) as [r1 w1] eqn:E1. apply write_create_only_root_spec in E1 as [Ho1 Hf1].
  assert (others_stay (λ n, temp = n ∨ n = KEY_MARKER_FILE) (wd_tree w) (wd_tree w1)) as Ho1' by (intros n Hn; apply Ho1; tauto).
  pose proof (Ho1 KEY_MARKER_FILE Hne) as Hm1.
  destruct r1 as [[]|e]; [|intros [= <- <-]; auto]. specialize (Hf1 _ eq_refl).
  destruct (sync_directory w1) as [r2 w2] eqn:E2. assert (wd_tree w2 = wd_tree w1) as Et2.
  { revert E2. unfold sync_directory, sys. pose proof (sys_call_keeps w1) as E. destruct (sys_call w1) as [[n|] w0]; intros [= <- <-]; exact E. }
  destruct r2 as [[]|e]; [|intros [= <- <-]; rewrite Et2; auto].
  destruct (rename_noreplace_root _ _ w2) as [r3 w3] eqn:E3. apply rename_root_spec in E3; [|done]. rewrite Et2 in E3.
  destruct E3 as [[Et3 [e ->]]|(e & He & Hnone & Et3)]; [intros [= <- <-]; rewrite Et3; auto|].
  rewrite Hf1 in He. injection He as <-.
  assert (others_stay (λ n, temp = n ∨ n = KEY_MARKER_FILE) (wd_tree w) (wd_tree w3)) as Ho3.
  { intros n Hn. rewrite Et3. cbn. rewrite lookup_insert_ne, lookup_delete_ne by (intros E; apply Hn; auto). by apply Ho1'. }
  assert (tr_entries (wd_tree w3) !! KEY_MARKER_FILE = Some (RootFile private_file encoded)) as Hm3 by (rewrite Et3; apply lookup_insert_eq).
  destruct r3 as [[]|e3]; [|intros [= <- <-]; auto].
  unfold sync_directory, sys. pose proof (sys_call_keeps w3) as E. destruct (sys_call w3) as [[n|] w0]; intros [= <- <-]; cbn in *; rewrite E; auto.
Qed.

(** A marker that is written is one of the key; it replaces none. *)
Lemma write_key_marker_spec key w r w' :
  write_key_marker key w = (r, w') →
  others_stay (λ n, opening_name n ∨ n = KEY_MARKER_FILE) (wd_tree w) (wd_tree w')
  ∧ (tr_entries (wd_tree w') !! KEY_MARKER_FILE = tr_entries (wd_tree w) !! KEY_MARKER_FILE ∨ marks key (wd_tree w')).
Proof.
  unfold write_key_marker. unfold fbind at 1. unfold fresh_random at 1. cbn beta iota.
  set (w1 := mk_world _ _ _ _ _). set (r0 := default _ _). set (encoded := encrypt_object _ _ _ _ _ _).
  unfold fbind at 1. unfold fresh_uuid at 1. cbn beta iota zeta. set (w2 := mk_world _ _ _ _ _). set (temp := _ ++ default _ _).
  change (wd_tree w) with (wd_tree w2).
  assert (opening_name temp) as Htemp by (right; apply has_prefix_app).
  assert (temp ≠ KEY_MARKER_FILE) as Hne by (intros E; rewrite E in Htemp; by apply marker_is_not_opening).
  unfold or_undo. destruct ((let~ _ := write_create_only_root temp encoded in _) w2) as [r1 w3] eqn:E1.
  apply marker_body_spec in E1 as [Ho Hm]; [|done].
  assert (∀ t, tr_entries t !! KEY_MARKER_FILE = Some (RootFile private_file encoded) → marks key t) as Hmarks.
  { intros t Ht. exists private_file, encoded. split; [done|].
    apply decrypt_encrypt; [apply length_resize|apply length_resize|by vm_compute]. }
  assert (others_stay (λ n, opening_name n ∨ n = KEY_MARKER_FILE) (wd_tree w2) (wd_tree w3)) as Ho' by (intros n Hn; apply Ho; intros [E|E]; apply Hn; [left; by rewrite <- E|by right]).
  destruct r1 as [[]|e]; intros [= <- <-]; [split; [done|]; destruct Hm; auto|].
  pose proof (stays_unlink (eq temp) temp eq_refl w3) as Hu. split.
  - intros n Hn. rewrite Hu; [by apply Ho'|]. intros E. apply Hn. left. by rewrite <- E.
  - rewrite <- (Hu KEY_MARKER_FILE Hne) in Hm. destruct Hm; auto.
Qed.

End opening.

(** ** The key is kept *)

Section kept.
Context `{Externals, Crypto, KeyDerivation} {S : Type} (store : SecretStore S) (accounts : KeychainAccounts).
Context `{!KeepsKey store (ka_cache_key accounts)}.

Lemma get_secret_spec s r s' :
  get_secret store accounts s = (r, s') → kept_key s' = kept_key s ∧ ∀ v, r = Ok v → v = kept_key s.
Proof.
  unfold get_secret. destruct (st_get _ _ s) as [r1 s1] eqn:Eg. apply kept_get in Eg as [Hk Hv].
  destruct r1; intros [= <- <-]; (split; [done|]); intros v' Hv'; simplify_eq; by apply Hv.
Qed.

Lemma load_key_spec s r s' :
  load_key store accounts s = (r, s') → kept_key s' = kept_key s ∧ ∀ key, r = Ok key → kept_key s' = Some key.
Proof.
  unfold load_key. destruct (get_secret store accounts s) as [r1 s1] eqn:Eg. apply get_secret_spec in Eg as [Hk Hv].
  destruct r1 as [v|e]; intros [= <- <-]; (split; [done|]); intros key Hr; [|done].
  specialize (Hv _ eq_refl). rewrite Hk, <- Hv. destruct v as [v|]; [|done]. cbn in Hr. unfold from_secret in Hr.
  by destruct (_ =? _)%nat; simplify_eq.
Qed.

Lemma initialize_key_spec candidate s r s' :
  length candidate = CACHE_KEY_BYTES → bytes_ok candidate → initialize_key store accounts candidate s = (r, s') →
  (∀ k, kept_key s = Some k → kept_key s' = Some k) ∧ ∀ key, r = Ok key → kept_key s' = Some key.
Proof.
  intros Hl Hb. unfold initialize_key. destruct (get_secret store accounts s) as [r1 s1] eqn:Eg. apply get_secret_spec in Eg as [Hk Hv].
  destruct r1 as [[v|]|e].
  - intros [= <- <-]. rewrite Hk. split; [done|]. intros key Hr. specialize (Hv _ eq_refl). rewrite <- Hv.
    unfold from_secret in Hr. by destruct (_ =? _)%nat; simplify_eq.
  - specialize (Hv _ eq_refl). destruct (st_create _ _ _ s1) as [r2 s2] eqn:Ec.
    apply kept_create in Ec; [|done|done]. rewrite Hk in Ec.
    assert (∀ k, kept_key s = Some k → kept_key s2 = Some k) as Hmono by (intros k E; rewrite E in Hv; done).
    destruct r2 as [u|[|]]; [|intros [= <- <-]; done|]; intros Hload; apply load_key_spec in Hload as [Hk3 Hr]; rewrite Hk3 in *; auto.
  - intros [= <- <-]. rewrite Hk. by split.
Qed.

(** A marker's file is one that the kept key opens. *)
Definition marked (s : S) (t : Tree) : Prop :=
  ∀ m c, tr_entries t !! KEY_MARKER_FILE = Some (RootFile m c) → ∃ key, kept_key s = Some key ∧ marks key t.

Definition attempt_name (name : text) : Prop := opening_name name ∨ name = KEY_MARKER_FILE.

(** What holds after an attempt, or up to a point of it *)
Record kept_so_far (s : S) (t : Tree) (s' : S) (t' : Tree) : Prop := {
  kf_marked : marked s' t';
  kf_key : ∀ key, kept_key s = Some key → kept_key s' = Some key;
  kf_entries : others_stay attempt_name t t';
}.

Lemma marks_entry key t t' :
  tr_entries t' !! KEY_MARKER_FILE = tr_entries t !! KEY_MARKER_FILE → marks key t → marks key t'.
Proof. unfold marks. by intros ->. Qed.

(** A step that leaves the marker alone *)
Lemma kept_step s t s1 t1 s2 t2 :
  kept_so_far s t s1 t1 → (∀ key, kept_key s1 = Some key → kept_key s2 = Some key) → others_stay opening_name t1 t2 →
  kept_so_far s t s2 t2.
Proof.
  intros [Hm Hk He] Hk2 He2. pose proof (He2 _ marker_is_not_opening) as Hmark. split.
  - intros m c Hf. rewrite Hmark in Hf. destruct (Hm _ _ Hf) as (key & Hkey & Hmk). exists key. split; [by apply Hk2|by eapply marks_entry].
  - auto.
  - intros n Hn. rewrite He2 by (intros Hx; apply Hn; by left). by apply He.
Qed.

Lemma kept_refl s t : marked s t → kept_so_far s t s t.
Proof. intros Hm. by split. Qed.

Lemma in_root_step {A} (m : Fs A) s t s1 w1 r s2 w2 :
  in_root m s1 w1 = (r, s2, w2) → stays opening_name m → kept_so_far s t s1 (wd_tree w1) → kept_so_far s t s2 (wd_tree w2).
Proof.
  unfold in_root. intros Hr Hs Hk. specialize (Hs w1). destruct (m w1) as [r1 w3]. injection Hr as <- <- <-.
  by eapply kept_step.
Qed.

(** The marker of a key that is kept is written. *)
Lemma write_step key s t s1 w1 r s2 w2 :
  in_root (write_key_marker key) s1 w1 = (r, s2, w2) → kept_key s1 = Some key →
  kept_so_far s t s1 (wd_tree w1) → kept_so_far s t s2 (wd_tree w2) ∧ kept_key s2 = Some key.
Proof.
  unfold in_root. destruct (write_key_marker key w1) as [r1 w3] eqn:Ew. intros [= <- <- <-] Hkey [Hm Hk He].
  apply write_key_marker_spec in Ew as [Ho Hmark]. split; [|done]. split; [|done|].
  - intros m c Hf. destruct Hmark as [Hmark|Hmark]; [|by exists key].
    rewrite Hmark in Hf. destruct (Hm _ _ Hf) as (key' & ? & ?). exists key'. split; [done|by eapply marks_entry].
  - intros n Hn. rewrite Ho by exact Hn. by apply He.
Qed.

(** Reading the key, which succeeds with the one that is kept *)
Lemma load_step s t s1 w1 r s2 w2 :
  in_store (load_key store accounts) s1 w1 = (r, s2, w2) → kept_so_far s t s1 (wd_tree w1) →
  kept_so_far s t s2 (wd_tree w2) ∧ ∀ key, r = Ok key → kept_key s2 = Some key.
Proof.
  unfold in_store. destruct (load_key store accounts s1) as [r1 s3] eqn:El. apply load_key_spec in El as [Hk Hr].
  intros [= <- <- <-] Hs. split; [|done]. eapply kept_step; [exact Hs|by rewrite Hk|by intros n].
Qed.

Lemma draw_step candidate s t s1 w1 r s2 w2 :
  length candidate = CACHE_KEY_BYTES → bytes_ok candidate →
  in_store (initialize_key store accounts candidate) s1 w1 = (r, s2, w2) → kept_so_far s t s1 (wd_tree w1) →
  kept_so_far s t s2 (wd_tree w2) ∧ ∀ key, r = Ok key → kept_key s2 = Some key.
Proof.
  intros Hl Hb. unfold in_store. destruct (initialize_key store accounts candidate s1) as [r1 s3] eqn:El.
  apply initialize_key_spec in El as [Hk Hr]; [|done|done].
  intros [= <- <- <-] Hs. split; [|done]. eapply kept_step; [exact Hs|exact Hk|by intros n].
Qed.

(** The end of both ways to open *)
Lemma verify_step key s t s1 w1 r s2 w2 :
  kept_key s1 = Some key → kept_so_far s t s1 (wd_tree w1) →
  obind (in_root (verify_key_marker key)) (λ _, in_root (fret key)) s1 w1 = (r, s2, w2) →
  kept_so_far s t s2 (wd_tree w2) ∧ ∀ key', r = Ok key' → kept_key s2 = Some key' ∧ marks key' (wd_tree w2).
Proof.
  intros Hkey Hs. unfold obind. destruct (in_root (verify_key_marker key) s1 w1) as [[r1 s3] w3] eqn:Ev.
  pose proof (in_root_step _ _ _ _ _ _ _ _ Ev (stays_verify key) Hs) as Hs3.
  unfold in_root in Ev. pose proof (stays_verify key w1 _ marker_is_not_opening) as Hmark.
  destruct (verify_key_marker key w1) as [r4 w4] eqn:Ev4. injection Ev as <- <- <-.
  destruct r4 as [u|e]; intros [= <- <- <-]; (split; [done|]); [|done]. intros key' [= <-]. split; [done|].
  eapply marks_entry; [exact Hmark|]. by eapply verify_marks.
Qed.

Ltac next_root Hs :=
  unfold obind at 1;
  match goal with |- context [in_root ?m ?s1 ?w1] =>
    let r := fresh "r" in let s2 := fresh "s" in let w2 := fresh "w" in let E := fresh "E" in
    destruct (in_root m s1 w1) as [[r s2] w2] eqn:E; eapply in_root_step in E; [|..|exact Hs]
  end.

(** Until the key is known: the marker's, or the one that is drawn and marked. *)
Lemma key_step candidate (marker : bool) s t s1 w1 r s2 w2 :
  length candidate = CACHE_KEY_BYTES → bytes_ok candidate → kept_so_far s t s1 (wd_tree w1) →
  (if marker then in_store (load_key store accounts)
   else
     obind (in_root ensure_uninitialized_root_is_empty) (λ _,
     obind (in_store (initialize_key store accounts candidate)) (λ key,
     obind (in_root (write_key_marker key)) (λ _, in_root (fret key))))) s1 w1 = (r, s2, w2) →
  kept_so_far s t s2 (wd_tree w2) ∧ ∀ key, r = Ok key → kept_key s2 = Some key.
Proof.
  intros Hl Hb Hs. destruct marker; [intros Hr; by eapply load_step|].
  next_root Hs; [|apply stays_empty]. destruct r0 as [[]|e]; [|by intros [= <- <- <-]].
  unfold obind at 1. destruct (in_store _ s0 w) as [[r1 s3] w3] eqn:Ei.
  eapply draw_step in Ei as [Hs3 Hkey]; [|done..]. destruct r1 as [key|e]; [|by intros [= <- <- <-]].
  unfold obind. destruct (in_root (write_key_marker key) s3 w3) as [[r4 s4] w4] eqn:Ew.
  eapply write_step in Ew as [Hs4 Hk4]; [|by apply Hkey|exact Hs3].
  destruct r4 as [[]|e]; intros [= <- <- <-]; (split; [done|]); [by intros key' [= <-]|done].
Qed.

Lemma attempt_keeps a s w r s' w' :
  fresh_candidate a → marked s (wd_tree w) → run_attempt store accounts a s w = (r, s', w') →
  kept_so_far s (wd_tree w) s' (wd_tree w')
  ∧ ∀ key, r = Ok key → kept_key s' = Some key ∧ marks key (wd_tree w').
Proof.
  intros Hc Hm. pose proof (kept_refl s (wd_tree w) Hm) as Hs. destruct a as [limits contended candidate|exists_ limits contended]; cbn [run_attempt].
  - destruct Hc as [Hl Hb]. unfold initialize.
    next_root Hs; [|apply stays_prepare]. destruct r0 as [[]|e]; [|by intros [= <- <- <-]].
    next_root E; [|apply stays_cleanup]. destruct r0 as [[]|e]; [|by intros [= <- <- <-]].
    next_root E0; [|apply stays_look]. destruct r0 as [marker|e]; [|by intros [= <- <- <-]].
    unfold obind at 1. match goal with |- context [(if marker then ?x else ?y) s2 w2] =>
      destruct ((if marker then x else y) s2 w2) as [[r1 s3] w3] eqn:E3 end.
    eapply key_step in E3 as [Hs3 Hkey]; [|done..]. destruct r1 as [key|e]; [|by intros [= <- <- <-]].
    intros Hv. eapply verify_step in Hv; [done|by apply Hkey|exact Hs3].
  - unfold open_existing. destruct exists_; [|by intros [= <- <- <-]]. cbn [negb].
    next_root Hs; [|apply stays_prepare]. destruct r0 as [[]|e]; [|by intros [= <- <- <-]].
    next_root E; [|apply stays_cleanup]. destruct r0 as [[]|e]; [|by intros [= <- <- <-]].
    unfold obind at 1. destruct (in_store _ s1 w1) as [[r1 s3] w3] eqn:E3.
    eapply load_step in E3 as [Hs3 Hkey]; [|done..]. destruct r1 as [key|e]; [|by intros [= <- <- <-]].
    intros Hv. eapply verify_step in Hv; [done|by apply Hkey|exact Hs3].
Qed.

(** C11: the key of the cache is drawn once.  Whatever attempts are made to open the cache, one
    after the other, with whatever system calls failing or cut short in each of them: every
    attempt that succeeds gives the same key, the one that the store keeps and that the
    marker is sealed with; a key that was kept is never replaced; and no entry of the root
    changes but the lock, the marker and the marker's temporaries, so that no object is
    touched. *)
Theorem cache_key_is_kept plans s t rs s' t' :
  Forall (λ p, fresh_candidate (pn_attempt p)) plans → marked s t →
  run_attempts store accounts plans s t = (rs, s', t') →
  marked s' t' ∧ others_stay attempt_name t t'
  ∧ (∀ key, kept_key s = Some key → kept_key s' = Some key)
  ∧ (∀ key, Ok key ∈ rs → kept_key s' = Some key).
Proof.
  revert s t rs. induction plans as [|p plans IH]; intros s t rs Hp Hm Hr.
  { injection Hr as <- <- <-. split_and!; [done|by intros n|done|]. by intros key ?%elem_of_nil. }
  inversion Hp; subst. cbn [run_attempts] in Hr.
  destruct (run_attempt _ _ _ _ _) as [[r s1] w1] eqn:Ea. apply attempt_keeps in Ea as [[Hm1 Hk1 He1] Hok]; [|done|done]. cbn [wd_tree] in *.
  destruct (run_attempts store accounts plans s1 (wd_tree w1)) as [[rs1 s2] t2] eqn:Ers. injection Hr as <- <- <-.
  apply IH in Ers as (Hm2 & He2 & Hk2 & Hok2); [|done|done]. split_and!; [done| |auto|].
  - intros n Hn. rewrite He2 by done. by apply He1.
  - intros key [E|Hin]%elem_of_cons; [|by apply Hok2]. apply Hk2. by apply Hok.
Qed.

End kept.
