(* ===== verification/CacheProps.v ===== *)
(** * What the object cache guarantees

    Every operation changes only the temporary entries, except for the one rename that makes
    a complete generation visible; so whatever system call fails or is never reached, a
    reader finds the old generation or the new one. *)

From stdpp Require Import gmap.
From S2P Require Import Prelude Bytes StrOps CacheRef StoreTypes Summary TtsCache CacheCodec CacheTree CacheOps.

(** ** Entries of a changed tree *)

Lemma task_at_set_root t task d a :
  task_at (set_root task (RootTask d) t) a = if decide (a = task) then Some d else task_at t a.
Proof. unfold task_at, set_root. cbn. rewrite lookup_insert. repeat case_decide; congruence. Qed.

Lemma entry_at_in_task t task f a n :
  entry_at (in_task task f t) a n =
    if decide (a = task) then d ← task_at t task; f (td_entries d) !! n else entry_at t a n.
Proof.
  unfold in_task, entry_at. destruct (task_at t task) as [d|] eqn:Ed; cbn.
  - rewrite task_at_set_root. case_decide as Ha; [done|]. done.
  - case_decide as Ha; [subst; by rewrite Ed|done].
Qed.

Lemma gen_at_in_gen t task name f d :
  gen_at t task name = Some d →
  gen_at (in_gen task name f t) task name = Some (mk_gen_dir (gn_own d) (gn_mode d) (f (gn_entries d))).
Proof.
  unfold gen_at, in_gen. rewrite entry_at_in_task, decide_True by done. unfold entry_at.
  destruct (task_at t task) as [td|]; [|done]. cbn. destruct (td_entries td !! name) as [[g|]|] eqn:E; try done.
  intros [= ->]. by rewrite lookup_insert_eq.
Qed.

(** ** What a computation may change *)

(** Entries outside [S] stay, whatever happens. *)
Definition touches (S : bytes → bytes → Prop) {A} (m : Fs A) : Prop :=
  ∀ w a n, ¬ S a n → entry_at (wd_tree (m w).2) a n = entry_at (wd_tree w) a n.

Definition tree_touches (S : bytes → bytes → Prop) (f : Tree → Tree) : Prop :=
  ∀ t a n, ¬ S a n → entry_at (f t) a n = entry_at t a n.

Section touches.
Context (S : bytes → bytes → Prop).

Lemma touches_ret {A} (a : A) : touches S (fret a).
Proof. by intros w. Qed.
Lemma touches_fail {A} e : touches S (@ffail A e).
Proof. by intros w. Qed.
Lemma touches_lift {A} (r : result CacheError A) : touches S (flift r).
Proof. by intros w. Qed.
Lemma touches_require c e : touches S (frequire c e).
Proof. by intros w. Qed.
Lemma touches_bind {A B} (m : Fs A) (k : A → Fs B) :
  touches S m → (∀ a, touches S (k a)) → touches S (fbind m k).
Proof.
  intros Hm Hk w a n Hn. unfold fbind. specialize (Hm w a n Hn). destruct (m w) as [[x|e] w1]; [|done].
  rewrite Hk by done. done.
Qed.
Lemma sys_call_tree w : wd_tree (sys_call w).2 = wd_tree w.
Proof. unfold sys_call. by destruct (wd_faults w). Qed.
Lemma touches_look {A} (f : Tree → result CacheError A) : touches S (look f).
Proof.
  intros w a n _. unfold look. pose proof (sys_call_tree w) as E. destruct (sys_call w) as [[k|] w1]; by rewrite <- E.
Qed.
Lemma touches_sys f : tree_touches S f → touches S (sys f).
Proof.
  intros Hf w a n Hn. unfold sys. pose proof (sys_call_tree w) as E. destruct (sys_call w) as [[k|] w1]; cbn in *; rewrite <- E; auto.
Qed.
Lemma touches_sys_if c f : tree_touches S f → touches S (sys_if c f).
Proof.
  intros Hf w a n Hn. unfold sys_if. pose proof (sys_call_tree w) as E.
  destruct (sys_call w) as [[k|] w1]; cbn in *; [|case_match]; rewrite <- E; cbn; auto.
Qed.
Lemma touches_or_undo m undo : touches S m → touches S undo → touches S (or_undo m undo).
Proof.
  intros Hm Hu w a n Hn. unfold or_undo. specialize (Hm w a n Hn). destruct (m w) as [[x|e] w1]; [done|].
  cbn in *. by rewrite Hu.
Qed.
Lemma touches_uuid : touches S fresh_uuid. Proof. by intros w. Qed.
Lemma touches_random : touches S fresh_random. Proof. by intros w. Qed.
Lemma touches_inode : touches S fresh_inode. Proof. by intros w. Qed.

Lemma tree_touches_id : tree_touches S id.
Proof. by intros t. Qed.
Lemma tree_touches_task task f :
  (∀ es n, ¬ S task n → f es !! n = es !! n) → tree_touches S (in_task task f).
Proof.
  intros Hf t a n Hn. rewrite entry_at_in_task. case_decide as Ha; [|done]. subst a. unfold entry_at.
  destruct (task_at t task); [cbn; by apply Hf|done].
Qed.
Lemma tree_touches_gen task name f : S task name → tree_touches S (in_gen task name f).
Proof.
  intros Hs. apply tree_touches_task. intros es n Hn. destruct (es !! name) as [[]|]; try done.
  rewrite lookup_insert_ne; [done|]. by intros ->.
Qed.
End touches.

#[export] Hint Resolve touches_ret touches_fail touches_lift touches_require touches_look touches_uuid touches_random
  touches_inode tree_touches_id : touches.

Ltac touch :=
  repeat first
    [ progress eauto 2 with touches
    | apply touches_bind; [|intros]
    | apply touches_sys | apply touches_sys_if | apply touches_or_undo
    | apply tree_touches_gen
    | apply tree_touches_task; intros; rewrite ?lookup_insert_ne, ?lookup_delete_ne by congruence
    | match goal with |- touches _ (match ?x with _ => _ end) => destruct x end ].

Section ops.
Context (S : bytes → bytes → Prop).

Lemma touches_existing {A} (m : Fs (option A)) : touches S m → touches S (existing m).
Proof. intros Hm. unfold existing. touch. Qed.
Hint Resolve touches_existing : touches.

Lemma touches_open_task task : touches S (open_task task).
Proof. apply touches_look. Qed.
Lemma touches_open_gen task name : touches S (open_gen task name).
Proof. apply touches_look. Qed.
Hint Resolve touches_open_task touches_open_gen : touches.

(** A new task directory is empty. *)
Lemma entry_at_new_task t task d a n :
  tr_entries t !! task = None → td_entries d = ∅ → entry_at (set_root task (RootTask d) t) a n = entry_at t a n.
Proof.
  intros Hn Hd. unfold entry_at. rewrite task_at_set_root. case_decide as Ha; [|done]. subst a.
  unfold task_at. rewrite Hn. cbn. by rewrite Hd, lookup_empty.
Qed.

Lemma entry_at_remove_task t task d a n :
  task_at t task = Some d → td_entries d = ∅ →
  entry_at (mk_tree (tr_own t) (tr_mode t) (delete task (tr_entries t))) a n = entry_at t a n.
Proof.
  intros Ht Hd. unfold entry_at, task_at in *. cbn. destruct (decide (a = task)) as [->|Hne].
  - rewrite lookup_delete_eq. destruct (tr_entries t !! task) as [[]|]; try done. injection Ht as ->. cbn.
    by rewrite Hd, lookup_empty.
  - by rewrite lookup_delete_ne.
Qed.

Lemma touches_create_task task : touches S (create_task task).
Proof.
  intros w a n Hn. unfold create_task. unfold fbind at 1. cbn [fresh_inode]. 
  set (d := mk_task_dir _ _ _ _). set (w0 := mk_world _ _ _ _ _).
  assert (wd_tree w0 = wd_tree w) as Ew by done. rewrite <- Ew. clearbody w0. clear Ew.
  unfold fbind at 1, sys_if. pose proof (sys_call_tree w0) as Et.
  destruct (sys_call w0) as [[k|] w1]; cbn in Et; [by rewrite <- Et|].
  case_bool_decide as Hnone; [|by rewrite <- Et]. cbn -[set_root].
  set (w2 := on_tree _ w1).
  assert (task_at (wd_tree w2) task = Some d) as Ht.
  { unfold w2. cbn -[set_root]. rewrite task_at_set_root. by rewrite decide_True. }
  assert (entry_at (wd_tree w2) a n = entry_at (wd_tree w0) a n) as Ee.
  { unfold w2. cbn -[set_root]. rewrite <- Et. by apply entry_at_new_task. }
  rewrite <- Ee. clearbody w2. clear Et Hnone Ee w0 w1.
  unfold fbind at 1, or_undo, sys at 1. pose proof (sys_call_tree w2) as Et.
  destruct (sys_call w2) as [[k|] w3]; cbn in Et |- *.
  - unfold sys. pose proof (sys_call_tree w3) as Et3. destruct (sys_call w3) as [[j|] w4]; cbn in Et3 |- *; [congruence|].
    rewrite <- Et, <- Et3. apply (entry_at_remove_task _ _ d); [congruence|done].
  - rewrite <- Et. change (wd_tree w3) with (wd_tree (on_tree id w3)).
    assert (touches S (let~ d0 := existing (open_task task) in
       let~ _ := sys id in flift (validate_directory (td_own d0) (td_mode d0)))) as Hrest by touch.
    by apply Hrest.
Qed.
Hint Resolve touches_create_task : touches.

Lemma touches_open_or_create task : touches S (open_or_create_task task).
Proof. unfold open_or_create_task. touch. Qed.

Lemma touches_create_gen task name : S task name → touches S (create_gen task name).
Proof. intros Hs. unfold create_gen. touch. Qed.

Lemma touches_write_file task gen name contents :
  S task gen → touches S (write_create_only_file task gen name contents).
Proof.
  intros Hs. unfold write_create_only_file. touch.
  intros w x n Hn. pose proof (sys_call_tree w) as Et.
  destruct (sys_call w) as [[k|] w1]; cbn -[in_gen] in *; rewrite <- Et; by apply (tree_touches_gen S).
Qed.
Hint Resolve touches_write_file touches_create_gen touches_open_or_create : touches.

Lemma touches_unlink_all task name d names : S task name → touches S (unlink_all task name d names).
Proof. intros Hs. induction names as [|c names IH]; cbn [unlink_all]; touch. Qed.
Hint Resolve touches_unlink_all : touches.

Lemma touches_remove_flat task name : S task name → touches S (remove_flat_directory task name).
Proof. intros Hs. unfold remove_flat_directory, directory_names, sync_directory. touch. Qed.
Hint Resolve touches_remove_flat : touches.

Lemma touches_rename task old new : S task old → S task new → touches S (rename_noreplace task old new).
Proof.
  intros Ho Hn w a n Hs. unfold rename_noreplace. pose proof (sys_call_tree w) as E.
  destruct (sys_call w) as [[k|] w1]; cbn -[in_task] in *; [by rewrite <- E|].
  rewrite E. repeat case_match; cbn -[in_task]; rewrite ?E; try done.
  apply (tree_touches_task S task); [|done]. intros es m Hm.
  rewrite lookup_insert_ne, lookup_delete_ne; [done|..]; by intros ->.
Qed.
Hint Resolve touches_rename : touches.

End ops.

#[export] Hint Resolve touches_rename touches_existing touches_open_task touches_open_gen touches_create_task touches_open_or_create
  touches_create_gen touches_write_file touches_remove_flat : touches.

(** ** Reading changes nothing *)

Definition reads {A} (m : Fs A) : Prop := ∀ w, wd_tree (m w).2 = wd_tree w.

Section reads.
Lemma touches_reads {A} S (m : Fs A) : reads m → touches S m.
Proof. intros Hm w a n _. by rewrite Hm. Qed.
Lemma fs_reads_look {A} (f : Tree → result CacheError A) : reads (look f).
Proof. intros w. unfold look. pose proof (sys_call_tree w) as E. destruct (sys_call w) as [[k|] w1]; done. Qed.
Lemma fs_reads_lift {A} (r : result CacheError A) : reads (flift r).
Proof. done. Qed.
Lemma fs_reads_bind {A B} (m : Fs A) (k : A → Fs B) : reads m → (∀ a, reads (k a)) → reads (fbind m k).
Proof. intros Hm Hk w. unfold fbind. specialize (Hm w). destruct (m w) as [[a|e] w1]; [by rewrite Hk|done]. Qed.
Lemma reads_or_corrupt {A} (m : Fs (option A)) : reads m → reads (or_corrupt m).
Proof. intros Hm w. unfold or_corrupt. specialize (Hm w). by destruct (m w) as [[[x|]|e] w1]. Qed.
Lemma reads_ok {A} (m : Fs A) w r w' : reads m → m w = (r, w') → wd_tree w' = wd_tree w.
Proof. intros Hm E. specialize (Hm w). by rewrite E in Hm. Qed.
End reads.

Ltac reading :=
  repeat first
    [ assumption
    | apply fs_reads_look | apply fs_reads_lift | apply reads_or_corrupt
    | progress eauto 1 with reads nocore
    | apply fs_reads_bind; [|intros]
    | match goal with |- reads (match ?x with _ => _ end) => destruct x end ].

Create HintDb reads.

Section reading.
Lemma reads_existing {A} (m : Fs (option A)) : reads m → reads (existing m).
Proof. intros. apply fs_reads_bind; [done|]. by intros []. Qed.
Lemma reads_sync : reads sync_directory.
Proof. intros w. unfold sync_directory, sys. pose proof (sys_call_tree w) as E. by destruct (sys_call w) as [[k|] w1]. Qed.
Lemma reads_names {E} (es : gmap bytes E) : reads (directory_names es).
Proof. apply fs_reads_look. Qed.
Lemma reads_exists task name : reads (entry_exists task name).
Proof. apply fs_reads_look. Qed.
Lemma reads_file es name e : reads (open_file es name e).
Proof. apply fs_reads_look. Qed.
Hint Resolve reads_names reads_file : reads.

Lemma reads_inspect_final es names sizes : reads (inspect_final es names sizes).
Proof. revert sizes. induction names as [|n names IH]; intros sizes; cbn [inspect_final]; reading. Qed.
Hint Resolve reads_inspect_final : reads.
Lemma reads_final_directory d : reads (inspect_final_directory d).
Proof. unfold inspect_final_directory. reading. Qed.
Lemma reads_inspect_temporary es names total : reads (inspect_temporary es names total).
Proof. revert total. induction names as [|n names IH]; intros total; cbn [inspect_temporary]; reading; auto. Qed.
Hint Resolve reads_final_directory reads_inspect_temporary : reads.
Lemma reads_temporary_directory d : reads (inspect_temporary_directory d).
Proof. unfold inspect_temporary_directory. reading. Qed.
Hint Resolve reads_temporary_directory : reads.

Context `{Externals, Crypto, KeyDerivation} (key : bytes).

Lemma reads_scan_generations task i names s : reads (scan_generations task i names s).
Proof. revert s. induction names as [|n names IH]; intros s; cbn [scan_generations]; reading; auto. Qed.
Hint Resolve reads_scan_generations : reads.
Lemma reads_scan_tasks names s : reads (scan_tasks names s).
Proof.
  revert s. induction names as [|n names IH]; intros s; cbn [scan_tasks]; [by apply fs_reads_lift|].
  assert (reads (scan_root_file n)) by apply fs_reads_look. reading; auto. all: apply fs_reads_look.
Qed.
Hint Resolve reads_scan_tasks : reads.
Lemma reads_scan : reads scan_unlocked.
Proof. unfold scan_unlocked. reading. Qed.
Lemma reads_read_object d id k : reads (read_object key d id k).
Proof. unfold read_object. reading. Qed.
Hint Resolve reads_read_object : reads.
Lemma reads_read id : reads (read_unlocked key id).
Proof. unfold read_unlocked. reading; apply fs_reads_look. Qed.
End reading.

#[export] Hint Resolve reads_existing reads_sync reads_names reads_exists reads_file reads_scan reads_read : reads.
#[export] Hint Resolve touches_reads : touches.
#[export] Hint Extern 2 (reads _) => solve [eauto 2 with reads] : touches.

(** ** What successful operations leave *)

Lemma fbind_ok {A B} (m : Fs A) (k : A → Fs B) w b w' :
  fbind m k w = (Ok b, w') → ∃ a w1, m w = (Ok a, w1) ∧ k a w1 = (Ok b, w').
Proof. unfold fbind. destruct (m w) as [[a|e] w1]; [eauto|done]. Qed.

Lemma sys_ok f w u w' : sys f w = (Ok u, w') → wd_tree w' = f (wd_tree w).
Proof.
  unfold sys. pose proof (sys_call_tree w) as E. destruct (sys_call w) as [[k|] w1]; [done|]. intros [= _ <-]. by rewrite <- E.
Qed.
Lemma sys_if_ok c f w u w' : sys_if c f w = (Ok u, w') → c (wd_tree w) = true ∧ wd_tree w' = f (wd_tree w).
Proof.
  unfold sys_if. pose proof (sys_call_tree w) as E. destruct (sys_call w) as [[k|] w1]; [done|].
  cbn in E. rewrite E. destruct (c (wd_tree w)); [|done]. intros [= _ <-]. cbn. by rewrite E.
Qed.
Lemma look_ok {A} (f : Tree → result CacheError A) w a w' :
  look f w = (Ok a, w') → wd_tree w' = wd_tree w ∧ f (wd_tree w) = Ok a.
Proof.
  unfold look. pose proof (sys_call_tree w) as E. destruct (sys_call w) as [[k|] w1]; [done|]. cbn in E. rewrite E.
  by intros [= -> <-].
Qed.
Lemma or_undo_ok m undo w u w' : or_undo m undo w = (Ok u, w') → ∃ v, m w = (Ok v, w').
Proof. unfold or_undo. destruct (m w) as [[v|e] w1]; [intros [= _ <-]; eauto|done]. Qed.
Lemma existing_ok {A} (m : Fs (option A)) w a w' : existing m w = (Ok a, w') → m w = (Ok (Some a), w').
Proof. intros (o & w1 & Hm & Hr)%fbind_ok. destruct o; [by injection Hr as <- <-|done]. Qed.

Lemma create_gen_ok task name w u w' :
  create_gen task name w = (Ok u, w') → gen_at (wd_tree w') task name = Some (mk_gen_dir true 448 ∅).
Proof.
  unfold create_gen. intros (u1 & w1 & Hs & Hr)%fbind_ok. apply sys_if_ok in Hs as [_ Et].
  apply fbind_ok in Hr as (u2 & w2 & (v & Hs)%or_undo_ok & Hr). apply sys_ok in Hs as E2.
  apply fbind_ok in Hr as (d & w3 & Ho%existing_ok & Hr). apply look_ok in Ho as [E3 Ho].
  apply fbind_ok in Hr as (u3 & w4 & E4%sys_ok & Hr). injection Hr as _ <-.
  unfold gen_at. rewrite E4, E3. unfold id in *. rewrite E2, Et in *.
  destruct (entry_at _ task name) as [[g|]|] eqn:Ee; try done. injection Ho as ->.
  rewrite entry_at_in_task, decide_True in Ee by done.
  destruct (task_at (wd_tree w) task) as [td|]; [|done]. cbn in Ee. rewrite lookup_insert_eq in Ee. by injection Ee as <-.
Qed.

Lemma write_file_ok task gen name contents d w u w' :
  gen_at (wd_tree w) task gen = Some d → write_create_only_file task gen name contents w = (Ok u, w') →
  gen_at (wd_tree w') task gen
  = Some (mk_gen_dir (gn_own d) (gn_mode d) (<[name := Child private_file contents]> (gn_entries d))).
Proof.
  intros Hd. unfold write_create_only_file. intros (u1 & w1 & Hs & Hr)%fbind_ok. apply sys_if_ok in Hs as [_ E1].
  apply fbind_ok in Hr as (u2 & w2 & E2%sys_ok & Hr). apply fbind_ok in Hr as (u3 & w3 & Hw & E4%sys_ok).
  rewrite E4. unfold id in *. pose proof (sys_call_tree w2) as E3. destruct (sys_call w2) as [[k|] w2']; [done|].
  injection Hw as _ <-. cbn -[in_gen] in *. rewrite E3, E2, E1.
  apply (gen_at_in_gen _ _ _ (<[name := Child private_file []]>)) in Hd.
  rewrite (gen_at_in_gen _ _ _ _ _ Hd). cbn. by rewrite insert_insert_eq.
Qed.

Lemma rename_ok task old new w u w' :
  rename_noreplace task old new w = (Ok u, w') →
  entry_at (wd_tree w') task new = entry_at (wd_tree w) task old ∧ entry_at (wd_tree w) task new = None.
Proof.
  unfold rename_noreplace. pose proof (sys_call_tree w) as E. destruct (sys_call w) as [[k|] w1]; [done|]. cbn in E. rewrite E.
  destruct (entry_at (wd_tree w) task old) as [e|] eqn:Eo; [|done]. destruct (entry_at (wd_tree w) task new) eqn:En; [done|].
  intros [= _ <-]. split; [|done]. cbn -[in_task]. rewrite entry_at_in_task, decide_True by done. unfold entry_at in Eo. rewrite E.
  destruct (task_at (wd_tree w) task); [|done]. cbn. by rewrite lookup_insert_eq.
Qed.

Lemma rename_err task old new w e w' : rename_noreplace task old new w = (Err e, w') → wd_tree w' = wd_tree w.
Proof.
  unfold rename_noreplace. pose proof (sys_call_tree w) as E. destruct (sys_call w) as [[k|] w1]; [by intros [= _ <-]|].
  cbn in E. rewrite E. repeat case_match; intros [= _ <-]; done.
Qed.
