(* ===== verification/CacheReconcile.v ===== *)
(** * Publishing is all or nothing, and cleaning up keeps what the ledger refers to *)

From stdpp Require Import gmap.
From stdpp Require Import gmap sorting.
From S2P Require Import Prelude Bytes StrOps CacheRef StoreTypes Summary CacheCodec TtsCache.
From S2P Require Import CacheTree CacheOps CacheProps.

(** * Publishing is all or nothing *)

(** ** Names *)

Definition is_temporary (name : bytes) : Prop := ∃ u, name = TEMP_PREFIX ++ u.

Lemma temporary_not_generation name : is_temporary name → is_canonical_generation name = false.
Proof. intros [u ->]. reflexivity. Qed.

Lemma generation_canonical id : cache_id_wf id → is_canonical_generation (generation_name id) = true.
Proof. intros (_ & _ & Hg). by apply u64_to_string_spec. Qed.

Lemma generation_not_temporary id : cache_id_wf id → ¬ is_temporary (generation_name id).
Proof. intros Hw Ht%temporary_not_generation. by rewrite generation_canonical in Ht. Qed.

Lemma names_inj id id' :
  cache_id_wf id → cache_id_wf id' → task_directory_name id = task_directory_name id' →
  generation_name id = generation_name id' → id = id'.
Proof.
  intros Hw Hw' Et Eg. assert (reference id = reference id') as Er.
  { unfold reference. unfold task_directory_name, generation_name in *. by rewrite Et, Eg. }
  pose proof (from_reference_reference id Hw) as H1. rewrite Er, from_reference_reference in H1 by done. by injection H1 as ->.
Qed.

(** The temporary entries of a task. *)
Definition temporaries (task : bytes) : bytes → bytes → Prop := λ a n, a = task ∧ is_temporary n.
(** The temporary entries of all tasks. *)
Definition all_temporaries : bytes → bytes → Prop := λ _ n, is_temporary n.

Lemma temporaries_prefix task u : temporaries task task (TEMP_PREFIX ++ u).
Proof. split; [done|by exists u]. Qed.
#[export] Hint Resolve temporaries_prefix : touches.

Section cache.
Context `{Externals, Crypto, KeyDerivation} (key : bytes) (limits : CacheLimits).

(** ** A generation on disk *)

Definition object_file (id : CacheId) (k : ObjectKind) (r : bytes * bytes) (b : CacheBundle) : ChildEntry :=
  Child private_file (encrypt_object (resize SALT_BYTES 0 r.1) (resize NONCE_BYTES 0 r.2) key id k (part_of k b)).

(** The three objects of [b], encrypted with some salts and nonces, and nothing else. *)
Definition complete_files (id : CacheId) (b : CacheBundle) (r1 r2 r3 : bytes * bytes) : gmap bytes ChildEntry :=
  <[file_name DeviceEiad := object_file id DeviceEiad r3 b]>
    (<[file_name QwenWav := object_file id QwenWav r2 b]>
      (<[file_name Manifest_ := object_file id Manifest_ r1 b]> ∅)).

Definition complete_entry (id : CacheId) (b : CacheBundle) (e : GenEntry) : Prop :=
  ∃ r1 r2 r3, e = GenDirectory (mk_gen_dir true 448 (complete_files id b r1 r2 r3)).

Lemma write_object_ok task gen id k p d w u w' :
  gen_at (wd_tree w) task gen = Some d → write_object key task gen id k p w = (Ok u, w') →
  ∃ r, gen_at (wd_tree w') task gen = Some (mk_gen_dir (gn_own d) (gn_mode d)
    (<[file_name k := Child private_file
        (encrypt_object (resize SALT_BYTES 0 r.1) (resize NONCE_BYTES 0 r.2) key id k p)]> (gn_entries d))).
Proof.
  intros Hd. unfold write_object. intros (r & w1 & Hf & Hr)%fbind_ok. injection Hf as <- <-.
  eexists. eapply write_file_ok, Hr. exact Hd.
Qed.

Lemma write_generation_ok task temporary id b w u w' :
  gen_at (wd_tree w) task temporary = Some (mk_gen_dir true 448 ∅) →
  write_generation key task temporary id b w = (Ok u, w') →
  entry_at (wd_tree w') task (generation_name id) ≠ None
  ∧ ∀ e, entry_at (wd_tree w') task (generation_name id) = Some e → complete_entry id b e.
Proof.
  intros Hd. unfold write_generation. intros (u1 & w1 & W1 & Hr)%fbind_ok.
  apply fbind_ok in Hr as (u2 & w2 & W2 & Hr). apply fbind_ok in Hr as (u3 & w3 & W3 & Hr).
  apply fbind_ok in Hr as (u4 & w4 & W4%sys_ok & Hr). apply rename_ok in Hr as [Hr _].
  apply (write_object_ok _ _ _ _ _ _ _ _ _ Hd) in W1 as [r1 W1].
  apply (write_object_ok _ _ _ _ _ _ _ _ _ W1) in W2 as [r2 W2].
  apply (write_object_ok _ _ _ _ _ _ _ _ _ W2) in W3 as [r3 W3]. cbn in W3.
  rewrite Hr, W4. unfold Datatypes.id, gen_at in *.
  destruct (entry_at (wd_tree w3) task temporary) as [[g|]|]; try done. injection W3 as ->.
  split; [done|]. intros e [= <-]. by exists r1, r2, r3.
Qed.

(** [m] changes only [S] when it fails. *)
Definition fails_within (S : bytes → bytes → Prop) {A} (m : Fs A) : Prop :=
  ∀ w e w', m w = (Err e, w') → ∀ a n, ¬ S a n → entry_at (wd_tree w') a n = entry_at (wd_tree w) a n.

Lemma fails_within_bind (S : bytes → bytes → Prop) {A B} (m : Fs A) (k : A → Fs B) :
  touches S m → (∀ a, fails_within S (k a)) → fails_within S (fbind m k).
Proof.
  intros Hm Hk w e w' Hr a n Hn. unfold fbind in Hr. specialize (Hm w a n Hn).
  destruct (m w) as [[x|e1] w1]; [|by injection Hr as _ <-]. cbn in Hm. rewrite <- Hm. by eapply Hk.
Qed.

(** Before the rename only the temporary entry changes, and a failing rename changes nothing. *)
Lemma write_generation_err task u id b :
  fails_within (temporaries task) (write_generation key task (TEMP_PREFIX ++ u) id b).
Proof.
  unfold write_generation. repeat (apply fails_within_bind; [unfold write_object; touch|intros _]).
  intros w e w' Hr a n _. by rewrite (rename_err _ _ _ _ _ _ Hr).
Qed.

(** ** The operation *)

(** A reader of [w'] finds what a reader of [w] finds, or the complete new generation. *)
Record all_or_nothing (id : CacheId) (b : CacheBundle) (w : World) (out : result CacheError unit) (w' : World) : Prop := {
  an_others a n : ¬ is_temporary n → (a, n) ≠ (task_directory_name id, generation_name id) →
    entry_at (wd_tree w') a n = entry_at (wd_tree w) a n;
  an_this : entry_at (wd_tree w') (task_directory_name id) (generation_name id)
              = entry_at (wd_tree w) (task_directory_name id) (generation_name id) ∧ out ≠ Ok tt
    ∨ entry_at (wd_tree w) (task_directory_name id) (generation_name id) = None
      ∧ ∃ e, entry_at (wd_tree w') (task_directory_name id) (generation_name id) = Some e ∧ complete_entry id b e;
}.

Context (id : CacheId) (b : CacheBundle) (Hwf : cache_id_wf id).

Definition same_entries (w w' : World) : Prop :=
  ∀ a n, ¬ is_temporary n → entry_at (wd_tree w') a n = entry_at (wd_tree w) a n.

Lemma same_nothing w e w' : same_entries w w' → all_or_nothing id b w (Err e) w'.
Proof.
  intros Hs. split; [by intros; apply Hs|]. left. split; [|done]. apply Hs. by apply generation_not_temporary.
Qed.

(** [x], run at [w], completes what began at [w0]. *)
Definition leads (w0 : World) (x : Fs unit) (w : World) : Prop := all_or_nothing id b w0 (x w).1 (x w).2.

(** One more operation that only touches temporary entries. *)
Lemma publish_after {A} (m : Fs A) (k : A → Fs unit) w0 w :
  touches all_temporaries m → same_entries w0 w →
  (∀ a w1, m w = (Ok a, w1) → same_entries w0 w1 → leads w0 (k a) w1) → leads w0 (fbind m k) w.
Proof.
  intros Hm Hs Hk. unfold leads, fbind. pose proof (Hm w) as Ht.
  destruct (m w) as [[a|e] w1] eqn:Em; cbn in Ht |- *.
  - apply (Hk a w1); [done|]. intros x n Hn. rewrite Ht by done. by apply Hs.
  - apply same_nothing. intros x n Hn. rewrite Ht by done. by apply Hs.
Qed.

(** From the temporary directory on. *)
Lemma publish_tail u w0 w :
  same_entries w0 w → gen_at (wd_tree w) (task_directory_name id) (TEMP_PREFIX ++ u) = Some (mk_gen_dir true 448 ∅) →
  entry_at (wd_tree w) (task_directory_name id) (generation_name id) = None →
  leads w0 (let~ _ := or_undo (write_generation key (task_directory_name id) (TEMP_PREFIX ++ u) id b)
                        (remove_flat_directory (task_directory_name id) (TEMP_PREFIX ++ u)) in sync_directory) w.
Proof.
  intros Hs Hd Hnone. unfold leads. destruct (fbind _ _ w) as [out w'] eqn:Hr. cbn [fst snd]. pose proof (generation_not_temporary id Hwf) as Hng. unfold fbind, or_undo in Hr.
  destruct (write_generation _ _ _ _ _ w) as [[v|e] w1] eqn:Ew.
  - assert (entry_at (wd_tree w') (task_directory_name id) (generation_name id)
      = entry_at (wd_tree w1) (task_directory_name id) (generation_name id)
      ∧ ∀ a n, entry_at (wd_tree w') a n = entry_at (wd_tree w1) a n) as [Ethis Esame].
    { assert (∀ a n, entry_at (wd_tree w') a n = entry_at (wd_tree w1) a n) as Eall; [|by split].
      intros a n. pose proof (reads_sync w1) as Et. rewrite Hr in Et. cbn [snd] in Et. by rewrite Et. }
    destruct (write_generation_ok _ _ _ _ _ _ _ Hd Ew) as [Hsome Hcomplete]. split.
    + intros a n Hn Hne. rewrite Esame.
      assert (touches (λ a n, temporaries (task_directory_name id) a n ∨ (a, n) = (task_directory_name id, generation_name id))
        (write_generation key (task_directory_name id) (TEMP_PREFIX ++ u) id b)) as Ht.
      { set (S := λ a n, _ ∨ _). assert (S (task_directory_name id) (TEMP_PREFIX ++ u)) by (left; apply temporaries_prefix).
        assert (S (task_directory_name id) (generation_name id)) by by right.
        clearbody S. unfold write_generation, write_object. touch. }
      specialize (Ht w a n). rewrite Ew in Ht. cbn in Ht. rewrite Ht; [by apply Hs|].
      intros [[_ ?]|E]; [done|by apply Hne].
    + right. split; [rewrite <- Hs by done; done|]. rewrite Ethis.
      destruct (entry_at (wd_tree w1) _ _) as [e|]; [|done]. exists e. split; [done|]. by apply Hcomplete.
  - pose proof (f_equal fst Hr) as E1. pose proof (f_equal snd Hr) as E2. cbn [fst snd] in E1, E2. subst out w'.
    apply same_nothing. intros a n Hn.
    rewrite (touches_remove_flat (temporaries (task_directory_name id)) _ _ (temporaries_prefix _ u) w1 a n) by (intros [_ ?]; done).
    rewrite (write_generation_err _ _ _ _ _ _ _ Ew a n) by (intros [_ ?]; done). by apply Hs.
Qed.

Lemma publish_spec w : leads w (publish_observed key limits id b) w.
Proof.
  unfold publish_observed. assert (same_entries w w) as Hs by done. revert Hs. generalize w at 2 4 as w1. intros w1 Hs.
  apply publish_after; [touch|done|]. clear Hs. intros _ w2 _ Hs.
  apply publish_after; [touch|done|]. clear Hs. intros predicted w3 _ Hs.
  apply publish_after; [touch|done|]. clear Hs. intros s w4 _ Hs.
  apply publish_after; [touch|done|]. clear Hs. intros _ w5 _ Hs.
  apply publish_after; [touch|done|]. clear Hs. intros created w6 _ Hs.
  apply publish_after; [touch|done|]. clear Hs. intros _ w7 _ Hs.
  apply publish_after; [touch|done|]. clear Hs. intros ex w8 [E8 [= Hex]]%look_ok Hs.
  apply publish_after; [touch|done|]. clear Hs. intros [] w9 Hreq Hs.
  apply publish_after; [touch|done|]. clear Hs. intros u w10 Hu Hs.
  apply publish_after; [|done|].
  { apply touches_create_gen. by exists u. }
  clear Hs. intros [] w11 Hc Hs. apply publish_tail; [done|by eapply create_gen_ok|].
  assert (touches (λ a n, (a, n) = (task_directory_name id, TEMP_PREFIX ++ u))
    (create_gen (task_directory_name id) (TEMP_PREFIX ++ u))) as Ht by by apply touches_create_gen.
  specialize (Ht w10 (task_directory_name id) (generation_name id)). rewrite Hc in Ht. cbn [snd] in Ht. rewrite Ht.
  - injection Hu as _ <-. injection Hreq as Hreq <-. cbn [wd_tree]. rewrite E8.
    destruct ex; [done|]. apply bool_decide_eq_false in Hex. by apply eq_None_not_Some.
  - intros E. injection E as E. apply (generation_not_temporary id Hwf). by exists u.
Qed.

(** ** Reading back *)

Lemma look_quiet {A} (f : Tree → result CacheError A) w : wd_faults w = [] → look f w = (f (wd_tree w), w).
Proof. unfold look, sys_call. by intros ->. Qed.

Lemma fbind_quiet {A B} (m : Fs A) (k : A → Fs B) w a : m w = (Ok a, w) → fbind m k w = k a w.
Proof. unfold fbind. by intros ->. Qed.

Lemma validate_bundle_parts k : validate_bundle b = Ok tt → k ∈ ALL_KINDS → blen (part_of k b) <= max_plaintext_bytes k.
Proof.
  intros (u & Hf & _)%rbind_ok Hk. apply require_ok in Hf. rewrite forallb_forall in Hf.
  apply list_elem_of_In, Hf, Z.leb_le in Hk. done.
Qed.

Lemma object_file_size k r :
  match object_file id k r b with
  | Child _ contents => blen contents = blen (part_of k b) + Z.of_nat HEADER_BYTES + Z.of_nat TAG_BYTES
  | ChildLink => False
  end.
Proof. unfold object_file, blen. rewrite length_encrypt_object by apply length_resize. lia. Qed.

Lemma read_object_quiet es k r w :
  wd_faults w = [] → es !! file_name k = Some (object_file id k r b) → blen (part_of k b) <= max_plaintext_bytes k →
  read_object key (mk_gen_dir true 448 es) id k w = (Ok (part_of k b), w).
Proof.
  intros Hq He Hmax. pose proof (object_file_size k r) as Hsize. unfold object_file in *. unfold read_object.
  erewrite fbind_quiet by (unfold open_file; rewrite look_quiet by done; cbn [gn_entries]; by rewrite He).
  erewrite fbind_quiet by (by rewrite look_quiet). cbn [fst snd].
  erewrite fbind_quiet by (unfold frequire, flift, MAX_ENCODED; rewrite (proj2 (Z.leb_le _ _)) by lia; reflexivity).
  erewrite fbind_quiet by (by rewrite look_quiet).
  unfold flift. by rewrite decrypt_encrypt by (done || apply length_resize).
Qed.

(** The entries of a complete generation, in the order of the map. *)
Lemma complete_entries (x y z : ChildEntry) :
  map_to_list (<[file_name DeviceEiad := x]> (<[file_name QwenWav := y]>
    (<[file_name Manifest_ := z]> (∅ : gmap bytes ChildEntry))))
  = [(file_name QwenWav, y); (file_name Manifest_, z); (file_name DeviceEiad, x)].
Proof. vm_compute. reflexivity. Qed.

Lemma inspect_final_step es k r names sizes w :
  wd_faults w = [] → k ∈ ALL_KINDS → es !! file_name k = Some (object_file id k r b) →
  blen (part_of k b) <= max_plaintext_bytes k → sizes !! kind_byte k = None →
  inspect_final es (file_name k :: names) sizes w
  = inspect_final es names (<[kind_byte k := blen (part_of k b) + Z.of_nat HEADER_BYTES + Z.of_nat TAG_BYTES]> sizes) w.
Proof.
  intros Hq Hk He Hmax Hnew. pose proof (object_file_size k r) as Hsize. unfold object_file in *. cbn [inspect_final].
  erewrite fbind_quiet with (a := k).
  2:{ unfold flift. f_equal. apply list_elem_of_In in Hk. cbn in Hk. by destruct Hk as [<-|[<-|[<-|[]]]]. }
  erewrite fbind_quiet by (unfold open_file; rewrite look_quiet by done; by rewrite He).
  erewrite fbind_quiet by (by rewrite look_quiet). cbn [fst snd]. rewrite Hsize.
  assert (0 <= blen (part_of k b)) by (unfold blen; lia).
  erewrite fbind_quiet.
  2:{ unfold frequire, flift, MAX_ENCODED. rewrite !(proj2 (Z.ltb_ge _ _)) by lia. reflexivity. }
  erewrite fbind_quiet by (unfold frequire, flift; rewrite bool_decide_true by done; reflexivity).
  done.
Qed.

Definition object_size (k : ObjectKind) : Z := blen (part_of k b) + Z.of_nat HEADER_BYTES + Z.of_nat TAG_BYTES.

Lemma object_size_small k :
  validate_bundle b = Ok tt → k ∈ ALL_KINDS → 0 <= object_size k <= 33558528.
Proof.
  intros Hv Hk. pose proof (validate_bundle_parts k Hv Hk) as Hm. unfold object_size, blen in *.
  assert (max_plaintext_bytes k <= 33554432) by (destruct k; vm_compute; congruence).
  change (Z.of_nat HEADER_BYTES) with 48. change (Z.of_nat TAG_BYTES) with 16. lia.
Qed.

Lemma sum_sizes_complete (sizes : gmap Z Z) :
  (∀ k, k ∈ ALL_KINDS → 0 <= default 0 (sizes !! kind_byte k) <= 33558528) → is_Some (sum_sizes sizes).
Proof.
  intros Hs. unfold sum_sizes, ALL_KINDS. cbn [foldl]. pose proof (Hs Manifest_ ltac:(by left)) as H1'.
  pose proof (Hs QwenWav ltac:(by right; left)) as H2'. pose proof (Hs DeviceEiad ltac:(by right; right; left)) as H3'.
  assert (∀ x y, 0 <= x <= 2 ^ 60 → 0 <= y <= 33558528 → checked_add u64_max x y = Some (x + y)) as Hadd.
  { intros x y Hx Hy. unfold checked_add, u64_max. by rewrite (proj2 (Z.leb_le _ _)) by lia. }
  cbn [mbind option_bind]. do 3 (rewrite Hadd by lia; cbn [mbind option_bind]). eauto.
Qed.

Lemma complete_lookup r1 r2 r3 k :
  k ∈ ALL_KINDS → ∃ r, complete_files id b r1 r2 r3 !! file_name k = Some (object_file id k r b).
Proof.
  unfold complete_files. intros Hk%list_elem_of_In.
  destruct Hk as [<-|[<-|[<-|[]]]]; rewrite ?lookup_insert_ne by done; eexists; apply lookup_insert_eq.
Qed.

Lemma inspect_complete w r1 r2 r3 :
  wd_faults w = [] → validate_bundle b = Ok tt →
  ∃ total, inspect_final_directory (mk_gen_dir true 448 (complete_files id b r1 r2 r3)) w = (Ok total, w).
Proof.
  intros Hq Hv. assert (∀ k, In k ALL_KINDS → k ∈ ALL_KINDS) as Hin by (intros; by apply list_elem_of_In).
  destruct (complete_lookup r1 r2 r3 Manifest_) as [q1 E1]; [apply Hin; cbn; tauto|].
  destruct (complete_lookup r1 r2 r3 QwenWav) as [q2 E2]; [apply Hin; cbn; tauto|].
  destruct (complete_lookup r1 r2 r3 DeviceEiad) as [q3 E3]; [apply Hin; cbn; tauto|].
  set (sizes := <[kind_byte DeviceEiad := object_size DeviceEiad]> (<[kind_byte Manifest_ := object_size Manifest_]>
    (<[kind_byte QwenWav := object_size QwenWav]> (∅ : gmap Z Z)))).
  destruct (sum_sizes_complete sizes) as [total Esum].
  { intros k Hk. pose proof (object_size_small k Hv Hk) as Hsz.
    apply list_elem_of_In in Hk. destruct Hk as [<-|[<-|[<-|[]]]]; exact Hsz. }
  exists total. unfold inspect_final_directory. cbn [gn_entries].
  erewrite fbind_quiet by (unfold directory_names; rewrite look_quiet by done; reflexivity).
  unfold complete_files at 2. rewrite complete_entries. cbn [fst fmap list_fmap].
  erewrite fbind_quiet with (a := sizes).
  2:{ do 3 (erewrite inspect_final_step by (eauto using validate_bundle_parts with nocore || (apply validate_bundle_parts; [done|]; apply Hin; cbn; tauto) || (apply Hin; cbn; tauto) || done)). reflexivity. }
  erewrite fbind_quiet by reflexivity. by rewrite Esum.
Qed.

(** A reader to whom no system call fails gets the bundle. *)
Lemma read_complete w e :
  wd_faults w = [] → validate_bundle b = Ok tt →
  entry_at (wd_tree w) (task_directory_name id) (generation_name id) = Some e → complete_entry id b e →
  read_unlocked key id w = (Ok b, w).
Proof.
  intros Hq Hv He (r1 & r2 & r3 & ->).
  assert (∃ td, tr_entries (wd_tree w) !! task_directory_name id = Some (RootTask td)) as [td Ht].
  { unfold entry_at, task_at in He. destruct (tr_entries (wd_tree w) !! _) as [[]|]; try done. eauto. }
  assert (∀ k, k ∈ ALL_KINDS →
    read_object key (mk_gen_dir true 448 (complete_files id b r1 r2 r3)) id k w = (Ok (part_of k b), w)) as Hread.
  { intros k Hk. destruct (complete_lookup r1 r2 r3 k Hk) as [r E].
    eapply read_object_quiet; eauto using validate_bundle_parts. }
  destruct (inspect_complete w r1 r2 r3 Hq Hv) as [total Hins].
  unfold read_unlocked. erewrite fbind_quiet by (unfold open_task; rewrite look_quiet by done; by rewrite Ht). cbn beta iota.
  erewrite fbind_quiet by (unfold open_gen; rewrite look_quiet by done; by rewrite He). cbn beta iota.
  do 3 (erewrite fbind_quiet by (apply Hread; apply list_elem_of_In; cbn; tauto)).
  erewrite fbind_quiet by exact Hins. by destruct b.
Qed.

(** C12: publishing is all or nothing.  Whichever system calls fail, however much of a write
    got through and wherever the process stops, every entry but the temporary ones and the
    published one stays as it was; the generation's own entry is as it was, and then the
    operation did not report success, or it did not exist and is now complete, and every
    reader to whom no system call fails reads back exactly the bundle. *)
Theorem publish_all_or_nothing w w' :
  wd_faults w' = [] → wd_tree w' = wd_tree (publish_observed key limits id b w).2 →
  (∀ a n, ¬ is_temporary n → (a, n) ≠ (task_directory_name id, generation_name id) →
    entry_at (wd_tree w') a n = entry_at (wd_tree w) a n)
  ∧ let at_name t := entry_at t (task_directory_name id) (generation_name id) in
    (at_name (wd_tree w') = at_name (wd_tree w) ∧ (publish_observed key limits id b w).1 ≠ Ok tt
     ∨ at_name (wd_tree w) = None ∧ read_unlocked key id w' = (Ok b, w')).
Proof.
  intros Hq Ht. destruct (publish_spec w) as [Hothers Hthis]. rewrite <- Ht in Hothers, Hthis.
  split; [exact Hothers|]. destruct (validate_bundle b) as [[]|e] eqn:Hv.
  - destruct Hthis as [?|(Hnone & e & He & Hc)]; [by left|]. right. split; [done|]. by eapply read_complete.
  - left. assert (publish_observed key limits id b w = (Err e, w)) as E
      by (unfold publish_observed, fbind at 1, flift; by rewrite Hv).
    rewrite Ht, E. done.
Qed.

End cache.

(** * Cleaning up keeps what the ledger refers to *)

Lemma elem_of_in_order (ids : gset CacheId) id : id ∈ in_order ids ↔ id ∈ ids.
Proof. unfold in_order. by rewrite merge_sort_Permutation, elem_of_elements. Qed.

Lemma cut_unique (sep : Z) x y a n : sep ∉ x → sep ∉ y → x ++ sep :: y = a ++ sep :: n → a = x ∧ n = y.
Proof.
  revert a. induction x as [|c x IH]; intros [|d a] Hx Hy E; cbn in E.
  - by injection E as ->.
  - injection E as -> ->. exfalso. apply Hy, elem_of_app. right. left.
  - injection E as -> _. exfalso. apply Hx. left.
  - injection E as -> E. destruct (IH a) as [-> ->]; [|done..]. intros ?. apply Hx. by right.
Qed.

Section reconcile.
Context `{Externals, Crypto, KeyDerivation} (key : bytes).

(** ** What a scan finds *)

Definition names_entry (id : CacheId) (a n : bytes) : Prop := a = task_directory_name id ∧ n = generation_name id.

(** The scan has seen the entry [n] of the task [a]. *)
Definition found (s : CacheScan) (a n : bytes) : Prop :=
  (∃ i, mk_temporary a n i ∈ cs_temporaries s) ∨ ∃ id, id ∈ cs_finalized s ∧ names_entry id a n.

Record scan_ok (s : CacheScan) : Prop := {
  sk_temporaries t : t ∈ cs_temporaries s → is_temporary (tg_temporary_name t);
  sk_finalized id : id ∈ cs_finalized s → cache_id_wf id;
}.

Definition extends (s s' : CacheScan) : Prop :=
  (scan_ok s → scan_ok s') ∧ ∀ a n, found s a n → found s' a n.

Lemma scan_extends_refl s : extends s s.
Proof. by split. Qed.
Lemma scan_extends_trans s1 s2 s3 : extends s1 s2 → extends s2 s3 → extends s1 s3.
Proof. intros [A1 B1] [A2 B2]. split; auto. Qed.

Lemma strip_temp_some name u : strip_temp name = Some u → is_temporary name.
Proof.
  unfold strip_temp. case_bool_decide as E; [|done]. intros [= <-]. exists (drop (length TEMP_PREFIX) name).
  rewrite <- E at 1. by rewrite take_drop.
Qed.

Lemma add_temporary_found s audit a n i :
  is_temporary n →
  let s' := mk_cache_scan audit (cs_finalized s) (cs_temporaries s ++ [mk_temporary a n i]) (cs_identities s) in
  extends s s' ∧ found s' a n.
Proof.
  intros Ht s'. split; [split; [intros Hok; split|]|].
  - intros t Hin. cbn in Hin. rewrite elem_of_app, list_elem_of_singleton in Hin. destruct Hin as [Hin| ->]; [|done].
    by apply (sk_temporaries s).
  - intros id. by apply (sk_finalized s).
  - intros x y [[j Hj]|?]; [left|by right]. exists j. cbn. rewrite elem_of_app. by left.
  - left. exists i. cbn. rewrite elem_of_app, list_elem_of_singleton. by right.
Qed.

Lemma reference_names a n id : from_reference (a ++ 47 :: n) = Ok id → names_entry id a n.
Proof.
  intros [Hr Hwf]%reference_from_reference. unfold reference in Hr.
  destruct (cut_unique 47 (task_directory_name id) (generation_name id) a n) as [-> ->]; [..|exact Hr|done].
  - apply hex_no_slash, encode_hex_lower, Hwf.
  - apply digits_no_slash. apply generation_canonical in Hwf. by apply andb_prop in Hwf as [_ ?].
Qed.

Lemma names_reference id a n : names_entry id a n → reference id = a ++ 47 :: n.
Proof. by intros [-> ->]. Qed.

Lemma add_finalized_found s audit id a n :
  from_reference (a ++ 47 :: n) = Ok id →
  let s' := mk_cache_scan audit ({[id]} ∪ cs_finalized s) (cs_temporaries s) (cs_identities s) in
  extends s s' ∧ found s' a n.
Proof.
  intros Hid s'. destruct (reference_from_reference _ _ Hid) as [_ Hwf]. apply reference_names in Hid as Hn.
  split; [split; [intros Hok; split|]|].
  - intros t. by apply (sk_temporaries s).
  - intros x [->%elem_of_singleton|Hx]%elem_of_union; [done|by apply (sk_finalized s)].
  - intros x y [?|(i & Hi & ?)]; [by left|right]. exists i. cbn. set_solver.
  - right. exists id. cbn. set_solver.
Qed.

Lemma scan_generations_ok task i names s w s' w' :
  scan_generations task i names s w = (Ok s', w') →
  extends s s' ∧ ∀ n, n ∈ names → found s' task n.
Proof.
  revert s w. induction names as [|name names IH]; intros s w; cbn [scan_generations].
  { intros [= <- <-]. split; [apply scan_extends_refl|]. by intros n ?%elem_of_nil. }
  intros (d & w1 & _ & Hr)%fbind_ok. apply fbind_ok in Hr as (u1 & w2 & _ & Hr).
  assert (∃ s1 w3, scan_generations task i names s1 w3 = (Ok s', w') ∧ extends s s1 ∧ found s1 task name)
    as (s1 & w3 & Hrest & Hext & Hfound).
  { destruct (strip_temp name) as [uuid|] eqn:Et.
    - apply fbind_ok in Hr as (u2 & w3 & _ & Hr). apply fbind_ok in Hr as (audit & w4 & _ & Hr).
      apply fbind_ok in Hr as (n & w5 & _ & Hr). apply fbind_ok in Hr as (audit2 & w6 & _ & Hr).
      do 2 eexists. split; [exact Hr|]. apply add_temporary_found. by eapply strip_temp_some.
    - apply fbind_ok in Hr as (id & w3 & Hid & Hr). apply fbind_ok in Hr as (n & w4 & _ & Hr).
      apply fbind_ok in Hr as (u2 & w5 & _ & Hr). apply fbind_ok in Hr as (audit & w6 & _ & Hr).
      apply fbind_ok in Hr as (audit2 & w7 & _ & Hr).
      do 2 eexists. split; [exact Hr|]. apply add_finalized_found.
      unfold flift in Hid. destruct (from_reference _) as [id'|]; [|done]. by injection Hid as <- _. }
  destruct (IH _ _ Hrest) as [Hext' Hall]. split; [by eapply scan_extends_trans|].
  intros n [->|Hn]%elem_of_cons; [|by apply Hall]. by apply Hext'.
Qed.

Lemma scan_tasks_ok names s w s' w' :
  scan_tasks names s w = (Ok s', w') →
  extends s s' ∧ ∀ a n, a ∈ names → is_Some (entry_at (wd_tree w) a n) → found s' a n.
Proof.
  revert s w. induction names as [|name names IH]; intros s w; cbn [scan_tasks].
  { intros [= <- <-]. split; [apply scan_extends_refl|]. by intros a n ?%elem_of_nil. }
  assert (∀ f w1, scan_root_file name w = (Ok f, w1) →
    wd_tree w1 = wd_tree w ∧ ∀ n, entry_at (wd_tree w) name n = None) as Hfile.
  { intros f w1 [Et Ef]%look_ok. split; [done|]. intros n. unfold entry_at, task_at.
    destruct (tr_entries (wd_tree w) !! name) as [[]|]; done. }
  intros Hr.
  assert (∃ s1 w1, scan_tasks names s1 w1 = (Ok s', w') ∧ wd_tree w1 = wd_tree w ∧ extends s s1
    ∧ ∀ n, is_Some (entry_at (wd_tree w) name n) → found s1 name n) as (s1 & w1 & Hrest & Et & Hext & Hname).
  { case_bool_decide; [|case_bool_decide].
    - apply fbind_ok in Hr as (f & w1 & [Et Hno]%Hfile & Hr). exists s, w1.
      split; [done|split; [done|split; [apply scan_extends_refl|]]]. intros n. rewrite Hno. by intros [].
    - apply fbind_ok in Hr as (f & w1 & [Et Hno]%Hfile & Hr). apply fbind_ok in Hr as (audit & w2 & E2 & Hr).
      assert (w2 = w1) as -> by by injection E2. do 2 eexists.
      split; [exact Hr|split; [done|split; [by split; [intros []; split|]|]]]. intros n. rewrite Hno. by intros [].
    - apply fbind_ok in Hr as (u1 & w1 & E1 & Hr). assert (w1 = w) as -> by by injection E1.
      apply fbind_ok in Hr as (d & w2 & Hd & Hr). apply fbind_ok in Hr as (u2 & w3 & [E3 _]%look_ok & Hr).
      apply fbind_ok in Hr as (u3 & w4 & E4 & Hr). assert (w4 = w3) as -> by by injection E4.
      apply fbind_ok in Hr as (gens & w5 & [E5 [= <-]]%look_ok & Hr). apply fbind_ok in Hr as (s1 & w6 & Hs & Hr).
      unfold or_corrupt in Hd. destruct (open_task name w) as [[[d'|]|] w2'] eqn:Ho; [|done..].
      injection Hd as -> ->. apply look_ok in Ho as [E2 Ho].
      pose proof (reads_ok _ _ _ _ (reads_scan_generations _ _ _ _) Hs) as E6.
      apply scan_generations_ok in Hs as [Hext Hall]. exists s1, w6. split; [done|]. split; [congruence|].
      split; [eapply scan_extends_trans; [|exact Hext]; by split; [intros []; split|]|]. intros n [e He]. apply Hall. unfold entry_at, task_at in He.
      destruct (tr_entries (wd_tree w) !! name) as [[]|]; try done. injection Ho as ->. cbn in He.
      apply list_elem_of_fmap. exists (n, e). split; [done|]. by apply elem_of_map_to_list. }
  destruct (IH _ _ Hrest) as [Hext' Hall]. split; [by eapply scan_extends_trans|].
  intros a n [->|Ha]%elem_of_cons Hn; [by apply Hext', Hname|]. apply Hall; [done|]. by rewrite Et.
Qed.

Lemma scan_unlocked_ok w s w' :
  scan_unlocked w = (Ok s, w') →
  scan_ok s ∧ ∀ a n, is_Some (entry_at (wd_tree w) a n) → found s a n.
Proof.
  unfold scan_unlocked. intros (names & w1 & [E1 Hn]%look_ok & Hr)%fbind_ok.
  apply rbind_ok in Hn as (u & _ & [= <-]). apply scan_tasks_ok in Hr as [[Hok _] Hall]. split.
  - apply Hok. split; [by intros t ?%elem_of_nil|]. by intros id ?%elem_of_empty.
  - intros a n Hs. apply Hall; [|by rewrite E1]. destruct Hs as [e He]. unfold entry_at, task_at in He.
    destruct (tr_entries (wd_tree w) !! a) as [r|] eqn:Er; [|done]. apply list_elem_of_fmap. exists (a, r).
    split; [done|]. by apply elem_of_map_to_list.
Qed.

(** ** What the removals leave *)

(** After success nothing is new and [P] is gone. *)
Definition removes (P : bytes → bytes → Prop) {A} (m : Fs A) : Prop :=
  ∀ w r w', m w = (Ok r, w') → ∀ a n, is_Some (entry_at (wd_tree w') a n) → is_Some (entry_at (wd_tree w) a n) ∧ ¬ P a n.

Lemma removes_reads {A} (m : Fs A) : reads m → removes (λ _ _, False) m.
Proof. intros Hm w r w' Hr a n. rewrite (reads_ok _ _ _ _ Hm Hr). tauto. Qed.

Lemma removes_bind P Q {A B} (m : Fs A) (k : A → Fs B) :
  removes P m → (∀ x, removes Q (k x)) → removes (λ a n, P a n ∨ Q a n) (fbind m k).
Proof.
  intros Hm Hk w r w' (x & w1 & H1' & H2')%fbind_ok a n Hs.
  apply (Hk _ _ _ _ H2') in Hs as [Hs ?]. apply (Hm _ _ _ H1') in Hs as [? ?]. tauto.
Qed.

Lemma removes_weaken (P Q : bytes → bytes → Prop) {A} (m : Fs A) : (∀ a n, Q a n → P a n) → removes P m → removes Q m.
Proof. intros Himp Hm w r w' Hr a n Hs. destruct (Hm _ _ _ Hr a n Hs). split; [done|]. auto. Qed.

Lemma removes_for_each {A} (P : A → bytes → bytes → Prop) (f : A → Fs unit) l :
  (∀ x, x ∈ l → removes (P x) (f x)) → removes (λ a n, ∃ x, x ∈ l ∧ P x a n) (for_each f l).
Proof.
  induction l as [|x l IH]; intros Hf; cbn [for_each].
  - eapply removes_weaken; [|by apply removes_reads; intros w]. intros a n (y & ?%elem_of_nil & _). done.
  - eapply removes_weaken; [|apply removes_bind; [apply Hf; by left|intros _; apply IH; intros; apply Hf; by right]].
    intros a n (y & [->|Hy]%elem_of_cons & Hp); [by left|right; eauto].
Qed.

Lemma removes_flat task name :
  removes (λ a n, a = task ∧ n = name) (remove_flat_directory task name).
Proof.
  intros w r w' Hr a n Hs.
  pose proof (touches_remove_flat (λ a n, a = task ∧ n = name) task name (conj eq_refl eq_refl) w a n) as Ht.
  rewrite Hr in Ht. cbn [snd] in Ht. destruct (decide (a = task ∧ n = name)) as [[-> ->]|Hne]; [|by rewrite <- Ht].
  exfalso. unfold remove_flat_directory in Hr. apply fbind_ok in Hr as (d & w1 & _ & Hr).
  apply fbind_ok in Hr as (u1 & w2 & _ & Hr). apply fbind_ok in Hr as (ns & w3 & _ & Hr).
  apply fbind_ok in Hr as (u2 & w4 & _ & Hr). apply fbind_ok in Hr as (u3 & w5 & _ & Hr).
  apply sys_ok in Hr as E. rewrite E, entry_at_in_task, decide_True in Hs by done.
  destruct (task_at (wd_tree w5) task); cbn in Hs; [rewrite lookup_delete_eq in Hs|]; by destruct Hs.
Qed.

Lemma removes_rename task old new :
  old ≠ new → ∀ w u w', rename_noreplace task old new w = (Ok u, w') →
  ∀ a n, is_Some (entry_at (wd_tree w') a n) →
    (is_Some (entry_at (wd_tree w) a n) ∧ ¬ (a = task ∧ n = old)) ∨ (a = task ∧ n = new).
Proof.
  intros Hne w u w'. unfold rename_noreplace. pose proof (sys_call_tree w) as E.
  destruct (sys_call w) as [[k|] w1]; [done|]. cbn in E.
  destruct (entry_at (wd_tree w1) task old) as [e|]; [|done]. destruct (entry_at (wd_tree w1) task new); [done|].
  intros [= _ <-] a n. cbn -[in_task]. rewrite entry_at_in_task, <- E. case_decide as Ha; [|intros; left; naive_solver].
  subst a. unfold entry_at. destruct (task_at (wd_tree w1) task); cbn; [|by intros []].
  destruct (decide (n = new)) as [->|Hn]; [by right|]. rewrite lookup_insert_ne by done.
  destruct (decide (n = old)) as [->|Ho]; [rewrite lookup_delete_eq; by intros []|].
  rewrite lookup_delete_ne by done. left. naive_solver.
Qed.

Lemma reads_validate_identity task i : reads (validate_identity task i).
Proof. unfold validate_identity, open_task, existing. reading. Qed.

Lemma removes_orphan id i : cache_id_wf id → removes (names_entry id) (remove_orphan_atomically id i).
Proof.
  intros Hwf w r w' Hr a n Hs. unfold remove_orphan_atomically in Hr.
  apply fbind_ok in Hr as (u1 & w1 & E1%reads_ok & Hr); [|apply reads_validate_identity].
  apply fbind_ok in Hr as (uuid & w2 & E2 & Hr). assert (wd_tree w2 = wd_tree w1) as E2' by by injection E2 as _ <-.
  apply fbind_ok in Hr as (u3 & w3 & E3 & Hr). apply fbind_ok in Hr as (u4 & w4 & E4%reads_ok & Hr); [|apply reads_sync].
  apply fbind_ok in Hr as (u5 & w5 & E5 & E6%reads_ok); [|apply reads_sync].
  rewrite E6 in Hs. apply (removes_flat _ _ _ _ _ E5) in Hs as [Hs Hno]. rewrite E4 in Hs.
  assert (generation_name id ≠ TEMP_PREFIX ++ uuid) as Hne by (intros E; apply (generation_not_temporary id Hwf); by exists uuid).
  apply (removes_rename _ _ _ Hne _ _ _ E3) in Hs.
  destruct Hs as [[Hs Hn]|?]; [|done]. by rewrite E2', E1 in Hs.
Qed.

Lemma removes_temporary t : removes (λ a n, a = tg_task_name t ∧ n = tg_temporary_name t) (remove_temporary t).
Proof.
  unfold remove_temporary. eapply removes_weaken; [|apply removes_bind; [apply removes_reads, reads_validate_identity|]];
    [|intros _; apply removes_bind; [apply removes_flat|intros _; apply removes_reads, reads_sync]].
  cbn. tauto.
Qed.

(** ** What may change *)

Lemma touches_for_each (S : bytes → bytes → Prop) {A} (f : A → Fs unit) l :
  (∀ x, x ∈ l → touches S (f x)) → touches S (for_each f l).
Proof.
  induction l as [|x l IH]; intros Hf; cbn [for_each]; [apply touches_ret|].
  apply touches_bind; [apply Hf; by left|intros _; apply IH; intros; apply Hf; by right].
Qed.

Lemma touches_orphan (S : bytes → bytes → Prop) id i :
  (∀ a n, is_temporary n → S a n) → S (task_directory_name id) (generation_name id) →
  touches S (remove_orphan_atomically id i).
Proof.
  intros Ht Hs. unfold remove_orphan_atomically. pose proof (reads_validate_identity (task_directory_name id) i).
  apply touches_bind; [by apply touches_reads|intros _]. apply touches_bind; [apply touches_uuid|intros u].
  assert (S (task_directory_name id) (TEMP_PREFIX ++ u)) by (apply Ht; by exists u). touch.
Qed.

Lemma touches_temporary (S : bytes → bytes → Prop) t :
  S (tg_task_name t) (tg_temporary_name t) → touches S (remove_temporary t).
Proof.
  intros Hs. unfold remove_temporary. pose proof (reads_validate_identity (tg_task_name t) (tg_task_identity t)).
  apply touches_bind; [by apply touches_reads|intros _]. touch.
Qed.

Lemma reads_for_each {A} (f : A → Fs unit) l : (∀ x, reads (f x)) → reads (for_each f l).
Proof. intros Hf. induction l as [|x l IH]; cbn [for_each]; [by intros w|]. by apply fs_reads_bind. Qed.

Lemma reads_sync_all : reads sync_all_task_directories.
Proof.
  unfold sync_all_task_directories. apply fs_reads_bind; [apply fs_reads_look|intros names].
  apply fs_reads_bind; [|intros _; apply reads_sync]. apply reads_for_each. intros name. unfold open_task.
  reading; auto with reads.
Qed.

(** ** The operation *)

Lemma parse_references_ok references ids :
  parse_references references = Ok ids →
  ∀ id, id ∈ ids ↔ ∃ r, r ∈ references ∧ from_reference r = Ok id.
Proof.
  unfold parse_references. intros Hp id. assert (∀ r, r ∈ references ↔ r ∈ elements references) as Hel
    by (intros; by rewrite elem_of_elements). setoid_rewrite Hel. clear Hel.
  revert ids Hp. induction (elements references) as [|r l IH]; cbn [foldr]; intros ids.
  - intros [= <-]. rewrite elem_of_empty. setoid_rewrite elem_of_nil. naive_solver.
  - intros (ids' & Hp & Hr)%rbind_ok. apply rbind_ok in Hr as (x & Hx & [= <-]). specialize (IH ids' Hp).
    rewrite elem_of_union, elem_of_singleton, IH. setoid_rewrite elem_of_cons. split.
    + intros [->|(r' & ? & ?)]; eauto.
    + intros (r' & [->|?] & ?); [left; congruence|eauto].
Qed.

Lemma parse_references_all references ids r :
  parse_references references = Ok ids → r ∈ references → ∃ id, from_reference r = Ok id ∧ id ∈ ids.
Proof.
  intros Hp Hr. assert (∃ id, from_reference r = Ok id) as [id Hid].
  { unfold parse_references in Hp. apply elem_of_elements in Hr. revert ids Hp Hr.
    induction (elements references) as [|x l IH]; cbn [foldr]; intros ids Hp Hr; [by apply elem_of_nil in Hr|].
    apply rbind_ok in Hp as (ids' & Hp & Hx). apply rbind_ok in Hx as (id & Hx & _).
    apply elem_of_cons in Hr as [->|Hr]; eauto. }
  exists id. split; [done|]. apply (parse_references_ok _ _ Hp). eauto.
Qed.

Lemma fbind_reads {A B} (m : Fs A) (k : A → Fs B) w out w' :
  reads m → fbind m k w = (out, w') →
  (∃ e, out = Err e ∧ wd_tree w' = wd_tree w)
  ∨ ∃ a w1, m w = (Ok a, w1) ∧ wd_tree w1 = wd_tree w ∧ k a w1 = (out, w').
Proof.
  intros Hm. unfold fbind. specialize (Hm w). destruct (m w) as [[a|e] w1]; [intros Hk|intros [= <- <-]].
  - right. by exists a, w1.
  - left. eauto.
Qed.

(** What follows the authentication of the retained generations. *)
Definition clean (expected : gset CacheId) (s : CacheScan) : Fs CleanupReport :=
  let~ _ := for_each remove_temporary (cs_temporaries s) in
  let orphans := in_order (cs_finalized s ∖ expected) in
  let~ _ := for_each (λ id,
      let~ identity := flift (of_option Corrupt (cs_identities s !! task_directory_name id)) in
      remove_orphan_atomically id identity) orphans in
  let~ _ := sync_all_task_directories in
  let~ final := scan_unlocked in
  fret (mk_report (Z.of_nat (length (cs_temporaries s))) (Z.of_nat (length orphans)) (au_bytes (cs_audit final))).

Definition authenticated (id : CacheId) (w : World) : Prop :=
  ∃ b w1 w2, wd_tree w1 = wd_tree w ∧ read_unlocked key id w1 = (Ok b, w2).

Lemma authenticate_all ids w u w' :
  for_each (λ id, let~ _ := read_unlocked key id in fret tt) ids w = (Ok u, w') → ∀ id, id ∈ ids → authenticated id w.
Proof.
  revert w. induction ids as [|x ids IH]; intros w; cbn [for_each]; [by intros _ id ?%elem_of_nil|].
  intros (v & w1 & Hx & Hr)%fbind_ok id. apply fbind_ok in Hx as (b & w2 & Hb & [= _ <-]).
  pose proof (reads_ok _ _ _ _ (reads_read key x) Hb) as E.
  intros [->|Hid]%elem_of_cons; [by exists b, w, w2|].
  destruct (IH _ Hr id Hid) as (b' & wa & wb & Ea & ?). exists b', wa, wb. by rewrite Ea, E.
Qed.

Lemma reconcile_phases references w out w' :
  reconcile_unlocked key references w = (out, w') →
  (∃ e, out = Err e ∧ wd_tree w' = wd_tree w)
  ∨ ∃ expected s w1, parse_references references = Ok expected ∧ scan_ok s
    ∧ (∀ a n, is_Some (entry_at (wd_tree w) a n) → found s a n)
    ∧ (∀ id, id ∈ expected → authenticated id w)
    ∧ wd_tree w1 = wd_tree w ∧ clean expected s w1 = (out, w').
Proof.
  unfold reconcile_unlocked. intros [?|(expected & w1 & Hp & E1 & Hr)]%fbind_reads; [by left| |apply fs_reads_lift].
  apply fbind_reads in Hr as [(e & ? & E)|(s & w2 & Hs & E2 & Hr)]; [left; exists e; by rewrite E| |apply reads_scan].
  apply fbind_reads in Hr as [(e & ? & E)|(u & w3 & _ & E3 & Hr)]; [left; exists e; by rewrite E, E2| |apply fs_reads_lift].
  apply fbind_reads in Hr as [(e & ? & E)|(v & w4 & Ha & E4 & Hr)]; [left; exists e; by rewrite E, E3, E2| |].
  2:{ apply reads_for_each. intros id. apply fs_reads_bind; [apply reads_read|by intros ? w5]. }
  right. exists expected, s, w4. apply scan_unlocked_ok in Hs as [Hok Hf]. rewrite E1 in Hf.
  split; [by injection Hp|]. split; [done|]. split; [done|]. split; [|split; [congruence|exact Hr]].
  intros id Hid. destruct (authenticate_all _ _ _ _ Ha id) as (b & wa & wb & Ea & Hb); [by apply elem_of_in_order|].
  exists b, wa, wb. split; [congruence|done].
Qed.

(** Names of retained generations. *)
Definition retained (expected : gset CacheId) (a n : bytes) : Prop := ∃ id, id ∈ expected ∧ names_entry id a n.

Lemma clean_touches expected s :
  scan_ok s → (∀ id, id ∈ expected → cache_id_wf id) → touches (λ a n, ¬ retained expected a n) (clean expected s).
Proof.
  intros [Htemp Hfin] Hexp. unfold clean.
  assert (∀ a n, is_temporary n → ¬ retained expected a n) as Hnot.
  { intros a n Hn (id & Hid & _ & ->). by apply (generation_not_temporary id); [apply Hexp|]. }
  apply touches_bind; [|intros _; apply touches_bind; [|intros _]].
  - apply touches_for_each. intros t Ht. apply touches_temporary. apply Hnot. by apply Htemp.
  - apply touches_for_each. intros id [Hid Hne]%elem_of_in_order%elem_of_difference.
    apply touches_bind; [apply touches_lift|intros i]. apply touches_orphan; [apply Hnot|].
    intros (id' & Hid' & Et & Eg). apply Hne. rewrite (names_inj id id'); auto.
  - apply touches_reads. apply fs_reads_bind; [apply reads_sync_all|intros _].
    apply fs_reads_bind; [apply reads_scan|by intros ? w].
Qed.

Lemma clean_removes expected s :
  scan_ok s → removes (λ a n, (∃ i, mk_temporary a n i ∈ cs_temporaries s)
    ∨ ∃ id, id ∈ cs_finalized s ∧ id ∉ expected ∧ names_entry id a n) (clean expected s).
Proof.
  intros [_ Hfin]. unfold clean. eapply removes_weaken; [|apply removes_bind;
    [apply removes_for_each; intros t _; apply removes_temporary
    |intros _; apply removes_bind; [apply removes_for_each with (P := names_entry)|]]].
  - cbn. intros a n [[i Hi]|(id & Hid & Hne & Hn)]; [left; by exists (mk_temporary a n i)|right; left].
    exists id. rewrite elem_of_in_order. set_solver.
  - intros id [Hid _]%elem_of_in_order%elem_of_difference.
    eapply removes_weaken; [|apply removes_bind; [apply removes_reads, fs_reads_lift|intros i; by apply removes_orphan, Hfin]].
    by right.
  - intros _. apply removes_reads. apply fs_reads_bind; [apply reads_sync_all|intros _].
    apply fs_reads_bind; [apply reads_scan|by intros ? w].
Qed.

Lemma authenticated_exists id w :
  authenticated id w → is_Some (entry_at (wd_tree w) (task_directory_name id) (generation_name id)).
Proof.
  intros (b & w1 & w2 & <- & Hr). unfold read_unlocked in Hr.
  apply fbind_ok in Hr as ([task|] & w3 & [E _]%look_ok & Hr); [|done]. rewrite <- E.
  apply fbind_ok in Hr as ([d|] & w4 & [_ Hd]%look_ok & Hr); [|done].
  destruct (entry_at _ _ _); [eauto|done].
Qed.

(** C13: cleaning up keeps what the ledger refers to.  Whatever fails and wherever it stops,
    no entry of a referenced generation changes; if a single referenced object is missing or
    does not authenticate, nothing on the disk changes; and when cleaning up reports success,
    what is left under the task directories is exactly the referenced generations. *)
Theorem reconcile_keeps_references references w :
  let out := (reconcile_unlocked key references w).1 in
  let w' := (reconcile_unlocked key references w).2 in
  (∀ r id, r ∈ references → from_reference r = Ok id →
    entry_at (wd_tree w') (task_directory_name id) (generation_name id)
    = entry_at (wd_tree w) (task_directory_name id) (generation_name id))
  ∧ (wd_tree w' = wd_tree w
     ∨ ∀ r, r ∈ references → ∃ id, from_reference r = Ok id ∧ authenticated id w)
  ∧ ∀ report, out = Ok report →
      ∀ a n, is_Some (entry_at (wd_tree w') a n) ↔ a ++ 47 :: n ∈ references.
Proof.
  destruct (reconcile_unlocked key references w) as [out w'] eqn:Hr. cbn [fst snd].
  apply reconcile_phases in Hr as [(e & -> & E)|(expected & s & w1 & Hp & Hok & Hfound & Hauth & E1 & Hc)].
  { rewrite E. split; [done|]. split; [by left|done]. }
  pose proof (parse_references_ok _ _ Hp) as Hexp.
  assert (∀ id, id ∈ expected → cache_id_wf id) as Hwf.
  { intros id (r & _ & Hid)%Hexp. by apply reference_from_reference in Hid as [_ ?]. }
  assert (∀ id, id ∈ expected → entry_at (wd_tree w') (task_directory_name id) (generation_name id)
    = entry_at (wd_tree w) (task_directory_name id) (generation_name id)) as Hkeep.
  { intros id Hid. rewrite <- E1. pose proof (clean_touches expected s Hok Hwf w1) as Ht.
    rewrite Hc in Ht. apply Ht. intros Hn. apply Hn. by exists id. }
  assert (∀ r, r ∈ references → ∃ id, from_reference r = Ok id ∧ id ∈ expected) as Hall by (intros; by eapply parse_references_all).
  split; [intros r id Hr Hid; apply Hkeep, Hexp; eauto|]. split.
  - right. intros r Hr. destruct (Hall r Hr) as (id & Hid & Hin). eauto.
  - intros report -> a n. split.
    + intros Hs. apply (clean_removes expected s Hok _ _ _ Hc) in Hs as [Hs Hno]. rewrite E1 in Hs.
      destruct (Hfound a n Hs) as [?|(id & Hid & Hn)]; [tauto|].
      destruct (decide (id ∈ expected)) as [Hin|Hout]; [|destruct Hno; eauto].
      apply Hexp in Hin as (r & Hr & [<- _]%reference_from_reference). by rewrite <- (names_reference id a n Hn).
    + intros Hr. destruct (Hall _ Hr) as (id & [-> ->]%reference_names & Hin). rewrite Hkeep by done.
      by apply authenticated_exists, Hauth.
Qed.

End reconcile.
