(* ===== verification/Orchestrator.v ===== *)
(** * Summary runs (app/host/src/summary_orchestrator.rs, app/host/src/summary_worker.rs)

    A run claims a task's completions, lets the language model write the summary, the
    speech service speak it, stores the audio and publishes the claim; whatever goes wrong
    in between, the claim is abandoned.  The model and the speech service are traits of the
    source ([SummaryGenerator], [SummarySynthesizer]).  Both take their time, during which
    the other threads of the host go on using the store: [during_generation] and
    [during_synthesis] are what they do to it. *)

From stdpp Require Import gmap.
From S2P Require Import Prelude Bytes Audio CacheRef Sql StoreTypes StoreJobs StoreRollout StoreSummary Summary TtsCache.

Definition SUMMARY_TTS_VOICE : text := ascii_bytes "longanfengyue".
Definition SUMMARY_TTS_INSTRUCTIONS : text := ascii_bytes "请用自然、清晰、克制的普通话女声，像熟悉工作的同事当面简洁汇报。整体语速中等，句间只做必要的短停顿；最新结果、数字、限制和待办要清楚。语气平实、有温度，不要播音腔、客服腔、广告腔、夸张情绪或撒娇；英文技术词、数字和缩写按自然语境读，不朗读标点和格式符号。".

(** [E] is the error type of the model's runner. *)
Class SummaryGenerator (E : Type) := {
  generate : SummaryClaim → option SummaryDocument → result E SummaryDocument;
}.
Class SummarySynthesizer := {
  synthesize : text → text → text → result TtsError TtsAudio;
}.

Inductive SummaryCheckpoint :=
| ClaimAcquired | PreviousUnreadLoaded | SparkGenerated | TtsAttemptStarted | TtsGenerated | CacheAuthenticated
| LedgerPublished.

Inductive SummaryRunOutcome :=
| Idle
| AlreadyPublishedAs (generation : Z)
| PublishedSummary (unread : UnreadSummary) (audio : PublishedTtsGeneration) (recovered_from_cache : bool)
| ManualTtsReconciliationRequired (generation : Z).

Inductive OrchestratorError (E : Type) :=
| StoreFault (e : StoreError)
| SummaryFault (e : SummaryDocumentError)
| PreviousCache (e : TtsCacheError)
| SparkFault (e : E)
| TtsFault (e : TtsError)
| TtsCacheFault (e : TtsCacheError).
Arguments StoreFault {E}.
Arguments SummaryFault {E}.
Arguments PreviousCache {E}.
Arguments SparkFault {E}.
Arguments TtsFault {E}.
Arguments TtsCacheFault {E}.

Inductive RecoveryCommitError := RecoveryStore (e : StoreError) | RecoverySummary (e : SummaryDocumentError).

(** What a run works on: the store, the object cache, and the checkpoints it reported. *)
Record Run (C : Type) := mk_run { rn_store : Db; rn_cache : C; rn_reached : list SummaryCheckpoint }.
Arguments mk_run {C}.
Arguments rn_store {C}.
Arguments rn_cache {C}.
Arguments rn_reached {C}.

Definition run_on {C} (db : Db) (w : Run C) : Run C := mk_run db (rn_cache w) (rn_reached w).
Definition reached {C} (c : SummaryCheckpoint) (w : Run C) : Run C :=
  mk_run (rn_store w) (rn_cache w) (rn_reached w ++ [c]).

(** A computation of the orchestrator. *)
Definition Orch (C E A : Type) : Type := Run C → result (OrchestratorError E) A * Run C.

Definition rret {C E A} (a : A) : Orch C E A := λ w, (Ok a, w).
Definition rfail {C E A} (e : OrchestratorError E) : Orch C E A := λ w, (Err e, w).
Definition rthen {C E A B} (x : Orch C E A) (k : A → Orch C E B) : Orch C E B :=
  λ w, match x w with (Ok a, w) => k a w | (Err e, w) => (Err e, w) end.

Declare Scope run_scope.
Delimit Scope run_scope with run.
#[global] Open Scope run_scope.
Notation "'let+' x ':=' m 'in' k" := (rthen m (λ x, k))
  (at level 10, x binder, m at level 100, k at level 200) : run_scope.

Section orchestrator.
Context `{Externals, Crypto, SummarySerde, ManifestSerde} {C : Type} `{ObjectCache C} {E : Type} `{SummaryGenerator E}.
Context `{SummarySynthesizer} (now : Z) (during_generation during_synthesis : Db → Db).

(** A transaction of the store; a failing one changes nothing. *)
Definition transact {A} (t : Tx A) : Orch C E A := λ w,
  match t (rn_store w) with
  | Ok (a, db) => (Ok a, run_on db w)
  | Err e => (Err (StoreFault e), w)
  end.
Definition checkpoint (c : SummaryCheckpoint) : Orch C E unit := λ w, (Ok tt, reached c w).

Definition abandon (claim : SummaryClaim) : Orch C E unit :=
  let+ changed := transact (abandon_summary_claim now claim) in
  if (changed : bool) then rret tt else rfail (StoreFault SummaryClaimChanged).

(** [abandon] and then the outcome. *)
Definition abandon_with {A} (claim : SummaryClaim) (outcome : result (OrchestratorError E) A) : Orch C E A :=
  let+ _ := abandon claim in λ w, (outcome, w).

Definition expected_covers (claim : SummaryClaim) : list text := pc_completion_id <$> sc_completions claim.

(** The publication of the claim, as a callback on the store and the checkpoints. *)
Definition publish_claim (claim : SummaryClaim) (audio : PublishedTtsGeneration) (s : Db * list SummaryCheckpoint)
    : result StoreError (UnreadSummary * PublishedTtsGeneration) * (Db * list SummaryCheckpoint) :=
  match publish_summary now claim (pg_cache_reference audio) s.1 with
  | Ok (unread, db) => (Ok (unread, audio), (db, s.2 ++ [CacheAuthenticated]))
  | Err e => (Err e, (s.1, s.2 ++ [CacheAuthenticated]))
  end.

(** The audio of the claim's generation may already be in the cache. *)
Definition recover_authenticated_cache (claim : SummaryClaim) : Orch C E (option SummaryRunOutcome) := λ w,
  let callback (cached : CachedTtsGeneration) (s : Db * list SummaryCheckpoint) :=
    match validate_expected_covers (expected_covers claim) (cg_summary cached) with
    | Err e => (Err (RecoverySummary e), s)
    | Ok _ =>
        match publish_claim claim (cg_publication cached) s with
        | (Ok published, s) => (Ok published, s)
        | (Err e, s) => (Err (RecoveryStore e), s)
        end
    end in
  let '(loaded, s) :=
    load_tts_generation_with (sc_task_id claim) (sc_generation claim) callback (rn_cache w) (rn_store w, rn_reached w) in
  let w := mk_run s.1 (rn_cache w) s.2 in
  match loaded with
  | Ok (Ok (unread, audio)) => (Ok (Some (PublishedSummary unread audio true)), reached LedgerPublished w)
  | Ok (Err (RecoveryStore e)) => (Err (StoreFault e), w)
  | Ok (Err (RecoverySummary e)) => (Err (SummaryFault e), w)
  | Err (CacheFault MissingObject) => (Ok None, w)
  | Err e => (Err (TtsCacheFault e), w)
  end.

Definition load_previous_summary (claim : SummaryClaim) : Orch C E (option SummaryDocument) := λ w,
  match sc_previous_unread claim with
  | None => (Ok None, w)
  | Some previous =>
      match load_tts_summary (sc_task_id claim) (us_generation previous) (rn_cache w) with
      | Ok summary => (Ok (Some summary), w)
      | Err e => abandon_with claim (Err (PreviousCache e)) w
      end
  end.

Definition generate_summary (claim : SummaryClaim) (previous : option SummaryDocument) : Orch C E SummaryDocument :=
  λ w,
  let w := run_on (during_generation (rn_store w)) w in
  match generate claim previous with
  | Ok summary =>
      match validate_expected_covers (expected_covers claim) summary with
      | Ok _ => (Ok summary, w)
      | Err e => abandon_with claim (Err (SummaryFault e)) w
      end
  | Err e => abandon_with claim (Err (SparkFault e)) w
  end.

(** The speech of the summary; [None] when the claim was abandoned without an error. *)
Definition synthesize_summary (claim : SummaryClaim) (summary : SummaryDocument) : Orch C E (option TtsAudio) :=
  λ w,
  let w := run_on (during_synthesis (rn_store w)) w in
  match synthesize (sd_spoken_text summary) SUMMARY_TTS_VOICE SUMMARY_TTS_INSTRUCTIONS with
  | Ok tts =>
      if bool_decide (ta_voice tts = SUMMARY_TTS_VOICE) then (Ok (Some tts), w) else abandon_with claim (Ok None) w
  | Err TtsAmbiguousAfterCommit => abandon_with claim (Ok None) w
  | Err e => abandon_with claim (Err (TtsFault e)) w
  end.

Definition commit_summary (claim : SummaryClaim) (summary : SummaryDocument) (tts : TtsAudio)
    : Orch C E SummaryRunOutcome := λ w,
  let '(committed, cache, s) :=
    publish_tts_generation_with (sc_task_id claim) (sc_generation claim) summary tts (publish_claim claim)
      (rn_cache w) (rn_store w, rn_reached w) in
  let w := mk_run s.1 cache s.2 in
  match committed with
  | Ok (Ok (unread, audio)) => (Ok (PublishedSummary unread audio false), reached LedgerPublished w)
  | Ok (Err e) => (Err (StoreFault e), w)
  | Err _ =>
      match recover_authenticated_cache claim w with
      | (Ok (Some outcome), w) => (Ok outcome, w)
      | (Ok None, w) => abandon_with claim (Ok Idle) w
      | (Err e, w) => abandon_with claim (Err e) w
      end
  end.

Definition execute_claim (claim : SummaryClaim) : Orch C E SummaryRunOutcome :=
  let+ _ := checkpoint ClaimAcquired in
  let+ recovered := recover_authenticated_cache claim in
  match recovered with
  | Some outcome => rret outcome
  | None =>
      let+ attempt := transact (summary_tts_attempt claim) in
      match attempt with
      | Some _ => abandon_with claim (Ok Idle)
      | None =>
          let+ previous := load_previous_summary claim in
          let+ _ := checkpoint PreviousUnreadLoaded in
          let+ summary := generate_summary claim previous in
          let+ _ := checkpoint SparkGenerated in
          let+ state := transact (begin_summary_tts_attempt now claim) in
          if negb (bool_decide (state = Started)) then abandon_with claim (Ok Idle)
          else
            let+ _ := checkpoint TtsAttemptStarted in
            let+ tts := synthesize_summary claim summary in
            match tts with
            | None => rret Idle
            | Some tts =>
                let+ _ := checkpoint TtsGenerated in
                commit_summary claim summary tts
            end
      end
  end.

Definition resume (task_id : text) : Orch C E SummaryRunOutcome :=
  let+ claim := transact (resume_interrupted_summary now task_id) in
  match claim with
  | None => rret Idle
  | Some claim => execute_claim claim
  end.

Definition run (task_id request_id : text) : Orch C E SummaryRunOutcome :=
  let+ claim := transact (claim_summary now task_id request_id) in
  match claim with
  | None => rret Idle
  | Some (Published _ generation) => rret (AlreadyPublishedAs generation)
  | Some (Claimed claim) => execute_claim claim
  end.

(** What the worker does for one task: resume an interrupted claim, or make a new one. *)
Definition summarize_task (task_id request_id : text) : Orch C E SummaryRunOutcome :=
  let+ resumed := resume task_id in
  match resumed with
  | Idle => run task_id request_id
  | other => rret other
  end.

End orchestrator.
