(* ===== verification/OrchestratorProps.v ===== *)
(** * What a summary run leaves behind

    [settled] is the contract of [execute_claim]: every way it ends says what became of the
    claim, and what was published is the authenticated speech of a document that covers
    exactly the claim; a cached object that cannot be used ends a run before it has changed
    anything ([unauthenticated]).  A claim whose speech was requested once is never spoken again. *)

From stdpp Require Import gmap.
From S2P Require Import Prelude Bytes Audio CacheRef Sql StoreTypes StoreJobs StoreRollout StoreSummary StorePlayback.
From S2P Require Import Summary TtsCache Orchestrator SummaryInv SummaryWedge StoreSystem.

Section orchestrator.
Context `{Externals, Crypto, SummarySerde, ManifestSerde} {C : Type} `{ObjectCache C} {E : Type} `{SummaryGenerator E}.
Context `{SummarySynthesizer} (now : Z) (during_generation during_synthesis : Db → Db).

Notation execute_claim := (execute_claim (E:=E) now during_generation during_synthesis).

(** ** The contract *)

Definition abandoned_in (claim : SummaryClaim) (w : Run C) : Prop :=
  ∃ db, abandon_summary_claim now claim db = Ok (true, rn_store w).

(** The transaction of the store that failed, on the store the run leaves. *)
Definition refused (claim : SummaryClaim) (e : StoreError) (w : Run C) : Prop :=
  (∃ cache, publish_summary now claim cache (rn_store w) = Err e)
  ∨ summary_tts_attempt claim (rn_store w) = Err e
  ∨ begin_summary_tts_attempt now claim (rn_store w) = Err e
  ∨ abandon_summary_claim now claim (rn_store w) = Err e
  ∨ e = SummaryClaimChanged ∧ ∃ db, abandon_summary_claim now claim db = Ok (false, rn_store w).

(** The audio is in the cache and agrees with its manifest; it speaks [doc], which covers
    exactly the claim's completions. *)
Definition spoken (claim : SummaryClaim) (audio : PublishedTtsGeneration) (recovered : bool) (c : C) : Prop :=
  ∃ id bundle manifest pcm md doc,
    for_task (sc_task_id claim) (sc_generation claim) = Ok id ∧ pg_cache_reference audio = reference id
    ∧ cache_read id c = Ok bundle ∧ manifest_from_json (cb_manifest_json bundle) = Some manifest
    ∧ decode_wav (cb_qwen_wav bundle) = Ok pcm ∧ blen pcm / 2 = pg_samples audio
    ∧ inspect_eiad (cb_device_eiad bundle) = Ok md ∧ md_samples md = pg_samples audio
    ∧ md_frames md = pg_eiad_frames audio
    ∧ validate_expected_covers (expected_covers claim) doc = Ok tt
    ∧ (if recovered then doc = mf_summary manifest
       else ∃ tts, synthesize (sd_spoken_text doc) SUMMARY_TTS_VOICE SUMMARY_TTS_INSTRUCTIONS = Ok tts ∧ ta_pcm tts = pcm).

Definition published_in (claim : SummaryClaim) (unread : UnreadSummary) (audio : PublishedTtsGeneration)
    (recovered : bool) (w : Run C) : Prop :=
  (∃ db, publish_summary now claim (pg_cache_reference audio) db = Ok (unread, rn_store w))
  ∧ spoken claim audio recovered (rn_cache w).

(** The object cached for the claim cannot be read or authenticated, or what it says does
    not cover the claim: the run ends before it has touched anything. *)
Definition unauthenticated (claim : SummaryClaim) (e : OrchestratorError E) (w w' : Run C) : Prop :=
  rn_store w' = rn_store w ∧ rn_cache w' = rn_cache w ∧
  let loaded := load_tts_generation (sc_task_id claim) (sc_generation claim) (rn_cache w) in
  match e with
  | TtsCacheFault f => loaded = Err f ∧ f ≠ CacheFault MissingObject
  | SummaryFault f =>
      ∃ cached, loaded = Ok cached ∧ validate_expected_covers (expected_covers claim) (cg_summary cached) = Err f
  | _ => False
  end.

Definition settled (claim : SummaryClaim) (w : Run C) (out : result (OrchestratorError E) SummaryRunOutcome)
    (w' : Run C) : Prop :=
  match out with
  | Ok (PublishedSummary unread audio recovered) => published_in claim unread audio recovered w'
  | Ok Idle => abandoned_in claim w'
  | Ok _ => False
  | Err (PreviousCache _) | Err (SparkFault _) | Err (TtsFault _) => abandoned_in claim w'
  | Err (StoreFault e) => refused claim e w' ∨ abandoned_in claim w'
  | Err ((SummaryFault _ | TtsCacheFault _) as e) => abandoned_in claim w' ∨ unauthenticated claim e w w'
  end.

(** ** The parts of a run *)

Lemma rthen_inv {A B} (x : Orch C E A) (k : A → Orch C E B) w out w' :
  rthen x k w = (out, w') →
  (∃ a w1, x w = (Ok a, w1) ∧ k a w1 = (out, w')) ∨ ∃ e, x w = (Err e, w') ∧ out = Err e.
Proof.
  unfold rthen. destruct (x w) as [[a|e] w1]; [by left; eauto|]. intros [= <- <-]. right. eauto.
Qed.

Lemma transact_inv {A} (t : Tx A) (w : Run C) (out : result (OrchestratorError E) A) w' :
  transact t w = (out, w') →
  (∃ a db, t (rn_store w) = Ok (a, db) ∧ out = Ok a ∧ w' = run_on db w)
  ∨ ∃ e, t (rn_store w) = Err e ∧ out = Err (StoreFault e) ∧ w' = w.
Proof.
  unfold transact. destruct (t (rn_store w)) as [[a db]|e]; intros [= <- <-]; [left|right]; eauto 10.
Qed.

Lemma abandon_with_inv {A} claim (outcome out : result (OrchestratorError E) A) (w w' : Run C) :
  abandon_with now claim outcome w = (out, w') →
  rn_cache w' = rn_cache w
  ∧ (out = outcome ∧ abandoned_in claim w' ∨ ∃ e, out = Err (StoreFault e) ∧ refused claim e w').
Proof.
  unfold abandon_with, abandon. intros [(a & w1 & Hab & [= <- <-])|(e & Hab & ->)]%rthen_inv.
  - apply rthen_inv in Hab as [(b & w2 & Ht & Hb)|(? & _ & [=])].
    apply transact_inv in Ht as [(b' & db & Ht & [= <-] & ->)|(? & _ & [=] & _)].
    destruct b; [|discriminate Hb]. injection Hb as <- <-. split; [done|]. left. split; [done|]. by exists (rn_store w).
  - apply rthen_inv in Hab as [(b & w2 & Ht & Hb)|(e' & Ht & [= ->])].
    + apply transact_inv in Ht as [(b' & db & Ht & [= <-] & ->)|(? & _ & [=] & _)].
      destruct b; [discriminate Hb|]. injection Hb as <- <-. split; [done|]. right. eexists. split; [done|].
      do 4 right. split; [done|]. by exists (rn_store w).
    + apply transact_inv in Ht as [(? & ? & _ & [=] & _)|(e'' & Ht & [= ->] & ->)]. split; [done|]. right.
      eexists. split; [done|]. do 3 right. by left.
Qed.

(** Giving up settles the claim whatever outcome is announced, except a publication. *)
Lemma abandon_with_settled claim outcome w0 (w : Run C) out w' :
  abandon_with now claim outcome w = (out, w') →
  match outcome with Ok Idle | Err _ => True | _ => False end → settled claim w0 out w'.
Proof.
  intros (_ & [[-> Hab]|(e & -> & Hr)])%abandon_with_inv Ho; [|by left].
  destruct outcome as [[]|[]]; simpl; auto; done.
Qed.

Lemma audio_fault_ok {A} (r : result AudioError A) a : audio_fault r = Ok a → r = Ok a.
Proof. by destruct r; [intros [= ->]|]. Qed.
Lemma cache_fault_ok {A} (r : result CacheError A) a : cache_fault r = Ok a → r = Ok a.
Proof. by destruct r; [intros [= ->]|]. Qed.
Lemma of_option_ok {A X} (e : X) (o : option A) a : of_option e o = Ok a → o = Some a.
Proof. by destruct o; [intros [= ->]|]. Qed.

Lemma eiad_matches_ok manifest eiad u :
  eiad_matches manifest eiad = Ok u →
  ∃ md, inspect_eiad eiad = Ok md ∧ md_samples md = mf_samples manifest ∧ md_frames md = mf_eiad_frames manifest.
Proof.
  intros (md & Hm%audio_fault_ok & Hr)%rbind_ok. apply require_ok in Hr. bool_prop. exists md. split_and!; [done|lia..].
Qed.

Lemma abandon_with_fails {A} claim e w0 (w : Run C) (out : result (OrchestratorError E) A) w' :
  abandon_with now claim (Err e) w = (out, w') → ∃ e', out = Err e' ∧ settled claim w0 (Err e') w'.
Proof.
  intros (_ & [[-> Hab]|(e' & -> & Hr)])%abandon_with_inv; eexists; (split; [done|]); [|by left].
  destruct e; simpl; auto.
Qed.

Lemma load_tts_inv task gen c cached :
  load_tts_generation task gen c = Ok cached →
  ∃ id bundle manifest pcm md, for_task task gen = Ok id ∧ cache_read id c = Ok bundle
    ∧ manifest_from_json (cb_manifest_json bundle) = Some manifest
    ∧ decode_wav (cb_qwen_wav bundle) = Ok pcm ∧ blen pcm / 2 = mf_samples manifest
    ∧ inspect_eiad (cb_device_eiad bundle) = Ok md ∧ md_samples md = mf_samples manifest
    ∧ md_frames md = mf_eiad_frames manifest
    ∧ cached = mk_cached (mf_summary manifest)
        (mk_generation (reference id) (mf_samples manifest) (mf_duration_ms manifest) (mf_eiad_frames manifest)).
Proof.
  unfold load_tts_generation. intros (id & Eid%cache_fault_ok & Hr)%rbind_ok.
  apply rbind_ok in Hr as (bundle & Eb%cache_fault_ok & Hr). apply rbind_ok in Hr as (manifest & Em%of_option_ok & Hr).
  apply rbind_ok in Hr as ([] & Hv & [= <-]).
  unfold validate_cached_manifest in Hv. apply rbind_ok in Hv as (? & _ & Hv). apply rbind_ok in Hv as (? & _ & Hv).
  apply rbind_ok in Hv as (pcm & Ew%audio_fault_ok & Hv). apply rbind_ok in Hv as (? & Hn & Hv).
  apply require_ok in Hn. bool_prop. apply eiad_matches_ok in Hv as (md & ? & ? & ?).
  exists id, bundle, manifest, pcm, md. by split_and!.
Qed.

(** The callback of a publication. *)
Lemma publish_claim_inv claim audio s r s' :
  publish_claim now claim audio s = (r, s') →
  (∃ unread, r = Ok (unread, audio) ∧ publish_summary now claim (pg_cache_reference audio) s.1 = Ok (unread, s'.1))
  ∨ ∃ e, r = Err e ∧ s'.1 = s.1 ∧ publish_summary now claim (pg_cache_reference audio) s.1 = Err e.
Proof.
  unfold publish_claim. destruct (publish_summary _ _ _ _) as [[u db]|e]; intros [= <- <-]; [left|right]; eauto.
Qed.

Lemma recover_settled claim (w : Run C) out w' :
  recover_authenticated_cache now claim w = (out, w') →
  rn_cache w' = rn_cache w ∧
  match out with
  | Ok (Some (PublishedSummary unread audio recovered)) => published_in claim unread audio recovered w'
  | Ok (Some _) => False
  | Ok None => rn_store w' = rn_store w
  | Err e => settled claim w (Err e) w' ∧ rn_store w' = rn_store w
  end.
Proof.
  unfold recover_authenticated_cache, load_tts_generation_with.
  destruct (load_tts_generation _ _ _) as [cached|e] eqn:El.
  - destruct (validate_expected_covers _ _) as [[]|e] eqn:Ev; cbn [fst snd].
    + destruct (publish_claim _ _ _ _) as [[[u au]|e] s'] eqn:Ep; cbn [fst snd];
        apply publish_claim_inv in Ep as [(u' & [=] & Hp)|(e' & [=] & Hs & Hp)]; subst; intros [= <- <-].
      * split; [done|]. split; [by exists (rn_store w)|]. cbn.
        apply load_tts_inv in El as (id & b & m & pcm & md & ? & ? & ? & ? & ? & ? & ? & ? & ->).
        exists id, b, m, pcm, md, (mf_summary m). by split_and!.
      * split; [done|]. split; [|done]. left. left. cbn. rewrite Hs. eauto.
    + intros [= <- <-]. split; [done|]. split; [|done]. right. split_and!; [done..|]. by exists cached.
  - destruct e as [|[]| |]; intros [= <- <-]; (split; [done|]); cbn; auto; (split; [right|done]); by split_and!.
Qed.

(** Speech that went to the cache and came back. *)
Definition stored_speech (task : text) (gen : Z) (tts : TtsAudio) (audio : PublishedTtsGeneration) (c : C) : Prop :=
  ∃ id bundle manifest md, for_task task gen = Ok id ∧ pg_cache_reference audio = reference id
    ∧ cache_read id c = Ok bundle ∧ manifest_from_json (cb_manifest_json bundle) = Some manifest
    ∧ decode_wav (cb_qwen_wav bundle) = Ok (ta_pcm tts) ∧ blen (ta_pcm tts) / 2 = pg_samples audio
    ∧ inspect_eiad (cb_device_eiad bundle) = Ok md ∧ md_samples md = pg_samples audio
    ∧ md_frames md = pg_eiad_frames audio.

Lemma check_published_inv id tts bundle audio :
  check_published id tts bundle = Ok audio → ta_samples tts = blen (ta_pcm tts) / 2 →
  ∃ manifest md, pg_cache_reference audio = reference id ∧ manifest_from_json (cb_manifest_json bundle) = Some manifest
    ∧ decode_wav (cb_qwen_wav bundle) = Ok (ta_pcm tts) ∧ blen (ta_pcm tts) / 2 = pg_samples audio
    ∧ inspect_eiad (cb_device_eiad bundle) = Ok md ∧ md_samples md = pg_samples audio ∧ md_frames md = pg_eiad_frames audio.
Proof.
  unfold check_published. intros (manifest & Em%of_option_ok & Hr)%rbind_ok Hn.
  apply rbind_ok in Hr as (? & Hv & Hr). apply rbind_ok in Hr as (pcm & Ew%audio_fault_ok & Hr).
  apply rbind_ok in Hr as (? & Hp & Hr). apply require_ok in Hp. bool_prop. subst pcm.
  apply rbind_ok in Hr as (? & (md & ? & ? & ?)%eiad_matches_ok & [= <-]).
  unfold validate_manifest in Hv. apply rbind_ok in Hv as (? & _ & Hv). apply require_ok in Hv.
  assert (mf_samples manifest = ta_samples tts).
  { destruct (mf_samples manifest =? ta_samples tts) eqn:Es; [lia|]. exfalso. revert Hv. cbn [negb]. rewrite ?orb_true_r. cbn. rewrite ?orb_true_r. done. }
  exists manifest, md. cbn. split_and!; try done. congruence.
Qed.

Lemma publish_with_inv {R X S} task gen summary tts (cb : PublishedTtsGeneration → S → result X R * S) (c : C) store r c' store' :
  publish_tts_generation_with task gen summary tts cb c store = (r, c', store') →
  (∃ audio rr, r = Ok rr ∧ cb audio store = (rr, store') ∧ stored_speech task gen tts audio c')
  ∨ ∃ e, r = Err e ∧ store' = store.
Proof.
  unfold publish_tts_generation_with. destruct (tts_bundle summary tts) as [bundle|e] eqn:Eb; [|intros [= <- <- <-]; eauto].
  destruct (for_task task gen) as [id|e] eqn:Eid; [|intros [= <- <- <-]; eauto].
  destruct (cache_publish_or_verify _ _ _) as [[[]|e] c1] eqn:Ec; [|intros [= <- <- <-]; eauto].
  destruct (cache_read id c1) as [published|e] eqn:Er; [|intros [= <- <- <-]; eauto].
  destruct (check_published _ _ _) as [audio|e] eqn:Ech; [|intros [= <- <- <-]; eauto].
  intros [= <- <- <-]. left. exists audio. destruct (cb audio store) as [rr store'] eqn:Ecb.
  exists rr. split_and!; [done|done|]. apply check_published_inv in Ech as (m & md & Hm).
  - exists id, published, m, md. destruct_and! Hm. by split_and!.
  - unfold tts_bundle in Eb. apply rbind_ok in Eb as (? & _ & Eb). apply rbind_ok in Eb as (? & Hn & _).
    apply require_ok in Hn. bool_prop. lia.
Qed.

Lemma commit_settled claim summary tts w0 (w : Run C) out w' :
  validate_expected_covers (expected_covers claim) summary = Ok tt →
  synthesize (sd_spoken_text summary) SUMMARY_TTS_VOICE SUMMARY_TTS_INSTRUCTIONS = Ok tts →
  commit_summary now claim summary tts w = (out, w') → settled claim w0 out w'.
Proof.
  intros Hcov Hsyn. unfold commit_summary.
  destruct (publish_tts_generation_with _ _ _ _ _ _ _) as [[committed c] s] eqn:Ep.
  apply publish_with_inv in Ep as [(audio & rr & -> & Hcb & Hstored)|(e & -> & ->)].
  - apply publish_claim_inv in Hcb as [(u & -> & Hp)|(e & -> & Es & Hp)]; intros [= <- <-].
    + split; [by exists (rn_store w)|]. destruct Hstored as (id & b & m & md & Hst). destruct_and! Hst.
      exists id, b, m, (ta_pcm tts), md, summary. split_and!; try done. by exists tts.
    + left. left. cbn. rewrite Es. eauto.
  - destruct (recover_authenticated_cache _ _ _) as [r w1] eqn:Er. apply recover_settled in Er as [_ Er].
    destruct r as [[outcome|]|e2]; [|by intros Hg; eapply abandon_with_settled..].
    intros [= <- <-]. by destruct outcome.
Qed.

(** ** Whole runs *)

(** A part of a run that starts from [w0]: it fails with the claim settled, or answers
    something that satisfies [P]. *)
Definition part {A} (claim : SummaryClaim) (w0 : Run C) (x : Orch C E A) (P : A → Prop) : Prop :=
  ∀ w, match x w with (Ok a, _) => P a | (Err e, w') => settled claim w0 (Err e) w' end.

Definition settles (claim : SummaryClaim) (w0 : Run C) (x : Orch C E SummaryRunOutcome) : Prop :=
  ∀ w out w', x w = (out, w') → settled claim w0 out w'.

Lemma part_then {A} claim w0 (x : Orch C E A) P k :
  part claim w0 x P → (∀ a, P a → settles claim w0 (k a)) → settles claim w0 (rthen x k).
Proof.
  intros Hx Hk w out w'. unfold rthen. specialize (Hx w). destruct (x w) as [[a|e] w1]; [by apply Hk|by intros [= <- <-]].
Qed.

Lemma abandon_with_part {A} claim w0 e (P : A → Prop) : part claim w0 (abandon_with now claim (Err e)) P.
Proof.
  intros w. destruct (abandon_with now claim (Err e) w) as [out w'] eqn:Hg.
  by apply (abandon_with_fails _ _ w0) in Hg as (e' & -> & ?).
Qed.

Lemma abandon_with_settles claim w0 outcome :
  match outcome with Ok Idle | Err _ => True | _ => False end → settles claim w0 (abandon_with now claim outcome).
Proof. intros Ho w out w' Hg. by eapply abandon_with_settled. Qed.

Lemma checkpoint_part claim w0 c : part claim w0 (checkpoint c) (λ _, True).
Proof. by intros w. Qed.

Lemma load_previous_part claim w0 : part claim w0 (load_previous_summary now claim) (λ _, True).
Proof.
  intros w. unfold load_previous_summary. destruct (sc_previous_unread claim) as [p|]; [|done].
  destruct (load_tts_summary _ _ _) as [|e]; [done|]. apply (abandon_with_part claim w0 (PreviousCache e) (λ _, True)).
Qed.

Lemma generate_part claim previous w0 :
  part claim w0 (generate_summary now during_generation claim previous)
    (λ summary, validate_expected_covers (expected_covers claim) summary = Ok tt).
Proof.
  intros w. unfold generate_summary. destruct (generate claim previous) as [summary|e];
    [destruct (validate_expected_covers _ _) as [[]|e] eqn:Ev; [done|]|]; apply abandon_with_part.
Qed.

(** The end of a run, from the speech on. *)
Lemma speak_settles claim summary w0 :
  validate_expected_covers (expected_covers claim) summary = Ok tt →
  settles claim w0
    (rthen (synthesize_summary now during_synthesis claim summary)
      (λ tts, match tts with
              | None => rret Idle
              | Some tts => rthen (checkpoint TtsGenerated) (λ _, commit_summary now claim summary tts)
              end)).
Proof.
  intros Hcov w out w'. unfold rthen at 1, synthesize_summary. destruct (synthesize _ _ _) as [tts|e] eqn:Es.
  - case_bool_decide; [by intros Hr; eapply commit_settled; [exact Hcov|exact Es|exact Hr]|].
    destruct (abandon_with _ _ _ _) as [r w1] eqn:Hg. apply abandon_with_inv in Hg as (_ & [[-> Hab]|(e & -> & Hr)]);
      intros [= <- <-]; [done|by left].
  - assert (∀ r w1, (r = Ok None ∧ abandoned_in claim w1 ∨ ∃ e', r = Err e' ∧ settled claim w0 (Err e') w1) →
      match r with Ok tts => match tts with
              | None => rret Idle
              | Some tts => rthen (checkpoint TtsGenerated) (λ _, commit_summary now claim summary tts)
              end w1 | Err e' => (Err e', w1) end = (out, w') → settled claim w0 out w') as Hend.
    { intros r w1 [[-> Hab]|(e' & -> & Hr)] [= <- <-]; done. }
    destruct e; (destruct (abandon_with _ _ _ _) as [r w1] eqn:Hg; apply Hend); clear Hend;
      try (right; by apply (abandon_with_fails _ _ w0) in Hg).
    apply abandon_with_inv in Hg as (_ & [?|(e & -> & Hr)]); [by left|right]. eexists. split; [done|by left].
Qed.

Lemma begin_part claim w0 : part claim w0 (transact (begin_summary_tts_attempt now claim)) (λ _, True).
Proof.
  intros w. destruct (transact _ w) as [out w'] eqn:Ht.
  apply transact_inv in Ht as [(? & ? & Ht & -> & ->)|(? & Ht & -> & ->)]; [done|]. left. do 2 right. by left.
Qed.

Lemma attempt_part claim w0 : part claim w0 (transact (summary_tts_attempt claim)) (λ _, True).
Proof.
  intros w. destruct (transact _ w) as [out w'] eqn:Ht.
  apply transact_inv in Ht as [(? & ? & Ht & -> & ->)|(? & Ht & -> & ->)]; [done|]. left. right. by left.
Qed.

(** C26 (refinement, summary_orchestrator.rs and tts_cache.rs): every run of a claim
    implements the contract [settled], whatever the model, the speech service, the object
    cache and the host's other threads (which use the store during the two slow calls) do.
    An outcome that announces a publication comes with the ledger transaction that published
    the claim under the reference of the cached object, and the object read back from the
    cache is the speech of a document that covers exactly the claim's completions; [Idle]
    and the errors of the model, of the speech service and of the previous summary's object
    come with the abandoned claim.  What leaves the claim unsettled is a refused transaction,
    or that the object already cached for the claim is there and cannot be read or
    authenticated or does not cover the claim: then the run fails with that error
    ([SummaryFault] or [TtsCacheFault]) before it has changed the store or the cache, and the
    claim stays claimed. *)
Theorem execute_claim_settles claim (w : Run C) :
  settled claim w (execute_claim claim w).1 (execute_claim claim w).2.
Proof.
  destruct (execute_claim claim w) as [out w'] eqn:Hr. cbn [fst snd]. revert Hr.
  unfold Orchestrator.execute_claim. unfold rthen at 1, checkpoint at 1. unfold rthen at 1.
  destruct (recover_authenticated_cache _ _ _) as [[[outcome|]|e] w1] eqn:Hrec;
    apply recover_settled in Hrec as [_ Hrec];
    [by intros [= <- <-]; destruct outcome| |by intros [= <- <-]; destruct Hrec as [Hrec _], e].
  clear Hrec. revert w1 out w'. apply (part_then _ _ _ _ _ (attempt_part claim w)). intros [s|] _; [by apply abandon_with_settles|].
  apply (part_then _ _ _ _ _ (load_previous_part claim w)). intros previous _.
  apply (part_then _ _ _ _ _ (checkpoint_part claim w _)). intros _ _.
  apply (part_then _ _ _ _ _ (generate_part claim previous w)). intros summary Hcov.
  apply (part_then _ _ _ _ _ (checkpoint_part claim w _)). intros _ _.
  apply (part_then _ _ _ _ _ (begin_part claim w)). intros state _. case_bool_decide; cbn [negb]; [|by apply abandon_with_settles].
  apply (part_then _ _ _ _ _ (checkpoint_part claim w _)). intros _ _. by apply speak_settles.
Qed.

(** ** A wedged task *)

Lemma transact_err {A} (t : Tx A) (w : Run C) e : t (rn_store w) = Err e → transact (E:=E) t w = (Err (StoreFault e), w).
Proof. unfold transact. by intros ->. Qed.

Lemma wedged_summarize task gen request (w : Run C) :
  store_inv (rn_store w) → wedged task gen (rn_store w) →
  (∀ r, r ∈ db_summaries (rn_store w) → sm_request_id r ≠ Some request) →
  ∃ e, summarize_task (E:=E) now during_generation during_synthesis task request w = (Err (StoreFault e), w).
Proof.
  intros [Hs _ Hi _] Hw Hfresh. unfold summarize_task, resume, run.
  destruct (wedged_resume task gen _ Hs Hw now) as [[e Hr]|Hr].
  - exists e. unfold rthen at 1 2. by rewrite (transact_err _ _ e).
  - destruct (wedged_claim task gen _ Hs Hi Hw now request Hfresh) as (e & Hc & _). exists e.
    unfold rthen at 1 2. unfold transact at 1. rewrite Hr. cbn. unfold rthen.
    rewrite (transact_err _ _ e); [by destruct w|done].
Qed.

(** C36 (error, store.rs and summary_orchestrator.rs): when the unread summary that a claim
    was going to replace is heard while the claim is in progress, the task stops for good.
    From then on, whatever the host's threads do, no publication for the task succeeds, and
    what the worker does for the task (resume the claim, or make a new one) fails and changes
    nothing, even after a restart, until somebody abandons the claim by hand. *)
Theorem heard_during_generation_wedges task r l now' db db' db'' :
  reachable db → r ∈ db_summaries db → sm_task_id r = task → active_claim r → pl_task_id l = task →
  (∃ u, u ∈ db_summaries db ∧ sm_task_id u = task ∧ sm_generation u = pl_summary_generation l ∧ current_unread u) →
  finish_summary_playback now' l db = Ok (true, db') →
  rtc step db' db'' → ¬ given_up task (sm_generation r) db'' →
  (∀ claim cache u d, sc_task_id claim = task → publish_summary now claim cache db'' ≠ Ok (u, d))
  ∧ ∀ request (w : Run C), rn_store w = db'' →
      (∀ s, s ∈ db_summaries db'' → sm_request_id s ≠ Some request) →
      ∃ e, summarize_task (E:=E) now during_generation during_synthesis task request w = (Err (StoreFault e), w).
Proof.
  intros Hreach Hr Et Ha El Hu Hf Hsteps Hng. pose proof (reachable_inv _ Hreach) as Hinv.
  assert (store_inv db') as Hinv' by (eapply step_inv; [by eapply step_finish|done]).
  assert (store_inv db'') as Hinv'' by (by eapply steps_inv).
  assert (wedged task (sm_generation r) db'') as Hw.
  { assert (wedged task (sm_generation r) db') as Hw'.
    { destruct Hinv. eapply (finish_wedges task _ now' l r db); try done. unfold sm_key. congruence. }
    by destruct (steps_stuck task (sm_generation r) _ _ Hsteps Hinv' (or_introl Hw')). }
  split.
  - intros claim cache u d Ec. destruct Hinv''. by eapply wedged_not_published.
  - intros request w <- Hfresh. by eapply wedged_summarize.
Qed.

End orchestrator.
