(* ===== verification/SpeechOnce.v ===== *)
(** * Speech is asked for once per claim

    Asking the speech service costs money and cannot be repeated safely, so the attempt is
    recorded before the request.  An attempt stays recorded as long as its claim is in
    progress, and a claim that ended stays ended; so no later run of the claim speaks. *)

From stdpp Require Import gmap.
From S2P Require Import Prelude Bytes Audio CacheRef Sql StoreTypes StoreJobs StoreRollout StoreSummary StorePlayback.
From S2P Require Import SummaryInv SummaryPublish PlaybackOps StoreSystem Summary TtsCache Orchestrator OrchestratorProps.

Section store.
Context `{Externals, Crypto} (k : text * Z).

Definition attempted (db : Db) : Prop := ∃ a, a ∈ db_attempts db ∧ at_key a = k.
Definition ended (db : Db) : Prop := ∃ r, r ∈ db_summaries db ∧ sm_key r = k ∧ ¬ active_claim r.

Definition stays_ended (db db' : Db) : Prop := ended db → ended db'.
Definition stays_asked (db db' : Db) : Prop := attempted db ∨ ended db → attempted db' ∨ ended db'.

#[local] Instance stays_ended_preorder : PreOrder stays_ended.
Proof. split; [by intros db ?|]. intros a b c Hab Hbc Ha. by apply Hbc, Hab. Qed.
#[local] Instance stays_asked_preorder : PreOrder stays_asked.
Proof. split; [by intros db ?|]. intros a b c Hab Hbc Ha. by apply Hbc, Hab. Qed.

Lemma ended_same db db' : db_summaries db' = db_summaries db → stays_ended db db'.
Proof. unfold stays_ended, ended. by intros ->. Qed.

Lemma ended_update P `{∀ r, Decision (P r)} f db :
  (∀ r, sm_key (f r) = sm_key r) → (∀ r, P r → active_claim (f r) → active_claim r) →
  stays_ended db (update_summaries P f db).1.
Proof.
  intros Hk Hf (r & Hr & Ek & Hn). exists (upd P f r). split; [apply elem_of_update; eauto|].
  unfold upd. case_decide as HP; [|done]. split; [by rewrite Hk|]. intros Ha. by apply Hn, Hf.
Qed.

Lemma ended_insert r db : stays_ended db (insert_summary r db).1.
Proof. intros (s & Hs & E). exists s. split; [apply elem_of_app; by left|done]. Qed.

Lemma asked_of (db db' : Db) :
  stays_ended db db' → (∀ a, a ∈ db_attempts db → at_key a = k → attempted db' ∨ ended db') → stays_asked db db'.
Proof. intros He Ha [(a & Hin & Ek)|Hend]; [by eapply Ha | right; by apply He]. Qed.

Lemma asked_same db db' : stays_ended db db' → db_attempts db' = db_attempts db → stays_asked db db'.
Proof. intros He E. apply asked_of; [done|]. intros a Ha Ek. left. exists a. by rewrite E. Qed.

Lemma asked_insert r db : stays_asked db (insert_attempt_if_absent r db).1.
Proof.
  apply asked_of; [apply ended_same; unfold insert_attempt_if_absent; by case_match|].
  intros a Ha Ek. left. exists a. split; [|done]. unfold insert_attempt_if_absent. case_match; [done|].
  apply elem_of_app. by left.
Qed.

Lemma asked_update_attempts P `{∀ r, Decision (P r)} s now db :
  stays_asked db (update_attempts P (set_attempt s now) db).1.
Proof.
  apply asked_of; [by apply ended_same|]. intros a Ha Ek. left. exists (upd P (set_attempt s now) a).
  split; [apply elem_of_update; eauto|]. unfold upd. by case_decide.
Qed.

(** The attempt of a claim goes with the claim. *)
Lemma asked_ended_attempt P `{∀ r, Decision (P r)} f task gen db r0 :
  (∀ r, sm_key (f r) = sm_key r) → (∀ r, P r → ¬ active_claim (f r)) →
  r0 ∈ db_summaries db → P r0 → sm_key r0 = (task, gen) →
  stays_asked db (delete_attempt task gen (update_summaries P f db).1).1.
Proof.
  intros Hk Hf Hr HP Ek0. apply asked_of.
  - apply (ended_update P f db Hk). intros r Hp Ha. by destruct (Hf r Hp).
  - intros a Ha Ek. destruct (decide (k = (task, gen))) as [Eq|Hne].
    + right. exists (f r0). split_and!; [|rewrite Hk; congruence|by apply Hf]. apply elem_of_update. exists r0.
      split; [done|]. unfold upd. by rewrite decide_True.
    + left. exists a. split; [|done]. apply elem_of_delete. split; [done|]. intros [<- <-]. apply Hne. by rewrite <- Ek.
Qed.

Ltac ended_tac :=
  first
  [ by apply ended_same
  | apply ended_insert
  | apply ended_update; [done|];
    unfold active_row, active_claim, publishable, current_unread, returned_state; simpl; intros;
    repeat case_match; destruct_and?; intuition congruence ].

Ltac asked_tac :=
  first
  [ apply asked_same; [ended_tac|done]
  | apply asked_insert | apply asked_update_attempts ].

Lemma step_ended db db' : step db db' → store_inv db → stays_ended db db'.
Proof.
  intros Hstep Hinv. destruct (ledger_step stays_ended db db') as [?|(now & l & b & Hr)]; try done.
  - intros. by apply ended_same.
  - intros. by apply ended_same.
  - intros. unfold claim_summary, claim_prior, reactivate, claim_new. keeps_with ended_tac.
  - intros. unfold abandon_summary_claim. keeps_with ended_tac.
  - intros. unfold abandon_interrupted_summary_for_task. keeps_with ended_tac.
  - intros. unfold resume_interrupted_summary. keeps_with ended_tac.
  - intros. unfold publish_summary, supersede_previous. keeps_with ended_tac.
    all: induction (sc_completions claim) as [|p cs IH]; simpl; keeps_with ended_tac; done.
  - intros. unfold acquire_summary_playback. keeps_with ended_tac.
  - intros. unfold cancel_summary_playback. keeps_with ended_tac.
  - intros. unfold recover_interrupted_summaries. keeps_with ended_tac.
  - intros. unfold recover_interrupted_playback_leases. keeps_with ended_tac.
  - unfold finish_summary_playback in Hr. eapply (_ : keeps stays_ended _); [apply Hinv|exact Hr].
    Unshelve. keeps_with ended_tac.
Qed.

Lemma publish_asked now claim cache db u db' :
  store_inv db → in_u64 (sc_generation claim) → publish_summary now claim cache db = Ok (u, db') → stays_asked db db'.
Proof.
  intros Hinv Hg Hr.
  assert (stays_ended db db') as Hend by (apply step_ended; [by eapply step_publish|done]).
  destruct (publish_ok _ _ _ _ _ _ (inv_schema _ Hinv) (inv_summaries _ Hinv) (proj1 Hg) Hr) as (R & He & _).
  apply asked_of; [done|]. intros a Ha Ek. destruct (decide (k = (sc_task_id claim, sc_generation claim))) as [Eq|Hne].
  - right. destruct (effect_new_row now claim cache db R u db' (inv_schema _ Hinv) (inv_summaries _ Hinv) He) as (Hin & Hl & _).
    exists (publish_row now cache R). split_and!; [done| |].
    + rewrite Eq. by eapply (effect_key now claim cache db R u db').
    + intros Hact. by eapply active_not_published, live_published.
  - left. exists a. split; [|done]. rewrite (pe_attempts _ _ _ _ _ _ _ He). apply elem_of_delete.
    split; [done|]. intros [E1 E2]. apply Hne. rewrite <- Ek. unfold at_key. congruence.
Qed.

Lemma abandoned_asked P `{∀ r, Decision (P r)} now task gen db :
  (∀ r, P r → sm_task_id r = task ∧ sm_generation r = gen) → count_rows P (db_summaries db) = 1 →
  stays_asked db (delete_attempt task gen (update_summaries P
    (λ r, set_summary Abandoned (sm_cache_object r) None (sm_superseded_by r) now r) db).1).1.
Proof.
  intros HP Hn. assert (0 < count_rows P (db_summaries db)) as (r & Hr & Hp)%count_rows_pos by lia.
  apply (asked_ended_attempt _ _ _ _ _ r); try done.
  - intros s _ [E|E]; discriminate E.
  - unfold sm_key. by destruct (HP r Hp) as [-> ->].
Qed.

Lemma abandon_asked now claim b db db' :
  abandon_summary_claim now claim db = Ok (b, db') → stays_asked db db'.
Proof.
  unfold abandon_summary_claim. intros Hr. run_tx Hr.
  - injection Hrun1 as <- Hn. injection Hrun2 as <- _. apply abandoned_asked; [unfold active_row; tauto|]. lia.
  - exec_result Hrun1. by apply asked_same; [ended_tac|].
Qed.

Lemma abandon_interrupted_asked now task o db db' :
  abandon_interrupted_summary_for_task now task db = Ok (o, db') → stays_asked db db'.
Proof.
  unfold abandon_interrupted_summary_for_task. intros Hr. run_tx Hr; [|by intros ?].
  injection Hrun as <- Hn. injection Hrun0 as <- _. apply abandoned_asked; [tauto|]. bool_prop. lia.
Qed.

Lemma step_asked db db' : step db db' → store_inv db → stays_asked db db'.
Proof.
  intros Hstep Hinv. pose proof Hinv as [Hs Hj Hi Hb].
  assert (same_other_tables db db' → stays_asked db db') as Hother.
  { intros (_ & _ & _ & Es & Ea & _). by apply asked_same; [apply ended_same|]. }
  destruct Hstep as
    [now job o Hr|now o Hr|now req g b Hr|now req g k' b Hr|now n Hr|now slot e task o Hr
    |now b e next cid tp o Hr|now task req o Hr|now claim b Hr|now task o Hr|now claim s Hr
    |now claim u Hr|now task o Hr|now claim cache u Hg Hr|now slot rg cg lease o Hr|now l b Hr
    |now l b Hr|now n Hr|now u Hr].
  - by eapply Hother, enqueue_inv.
  - by eapply Hother, claim_next_inv.
  - by eapply Hother, mark_completed_inv.
  - by eapply Hother, mark_failed_inv.
  - by eapply Hother, recover_jobs_inv.
  - apply set_binding_ok in Hr as [[_ ->]|(g & _ & _ & _ & ->)]; by apply asked_same; [apply ended_same|].
  - apply commit_ok in Hr as (_ & _ & _ & _ & _ & _ & _ & _ & db1 & Hr & ->).
    apply record_completion_ok in Hr as [(_ & -> & _)|(_ & _ & ->)]; by apply asked_same; [apply ended_same|].
  - refine (proj2 ((_ : keeps stays_asked (claim_summary now task req)) _ _ _ Hs Hr)).
    unfold claim_summary, claim_prior, reactivate, claim_new. keeps_with asked_tac.
  - by eapply abandon_asked.
  - by eapply abandon_interrupted_asked.
  - refine (proj2 ((_ : keeps stays_asked (begin_summary_tts_attempt now claim)) _ _ _ Hs Hr)).
    unfold begin_summary_tts_attempt. keeps_with asked_tac.
  - refine (proj2 ((_ : keeps stays_asked (mark_summary_tts_ambiguous now claim)) _ _ _ Hs Hr)).
    unfold mark_summary_tts_ambiguous. keeps_with asked_tac.
  - refine (proj2 ((_ : keeps stays_asked (resume_interrupted_summary now task)) _ _ _ Hs Hr)).
    unfold resume_interrupted_summary. keeps_with asked_tac.
  - by eapply publish_asked.
  - refine (proj2 ((_ : keeps stays_asked (acquire_summary_playback now slot rg cg lease)) _ _ _ Hs Hr)).
    unfold acquire_summary_playback. keeps_with asked_tac.
  - refine (proj2 ((_ : keeps stays_asked (cancel_summary_playback now l)) _ _ _ Hs Hr)).
    unfold cancel_summary_playback. keeps_with asked_tac.
  - refine (proj2 ((_ : keeps stays_asked (finish_summary_playback now l)) _ _ _ Hs Hr)).
    unfold finish_summary_playback. keeps_with asked_tac.
  - refine (proj2 ((_ : keeps stays_asked (recover_interrupted_summaries now)) _ _ _ Hs Hr)).
    unfold recover_interrupted_summaries. keeps_with asked_tac.
  - refine (proj2 ((_ : keeps stays_asked (recover_interrupted_playback_leases now)) _ _ _ Hs Hr)).
    unfold recover_interrupted_playback_leases. keeps_with asked_tac.
Qed.

Lemma steps_of (F : Db → Db → Prop) `{!PreOrder F} db db' :
  (∀ a b, step a b → store_inv a → F a b) → rtc step db db' → store_inv db → F db db'.
Proof.
  intros Hstep. induction 1 as [|a b c Hab _ IH]; intros Hinv; [done|].
  transitivity b; [by apply Hstep|]. apply IH. by eapply step_inv.
Qed.

Lemma steps_ended db db' : rtc step db db' → store_inv db → stays_ended db db'.
Proof. apply steps_of; [apply _|apply step_ended]. Qed.
Lemma steps_asked db db' : rtc step db db' → store_inv db → stays_asked db db'.
Proof. apply steps_of; [apply _|apply step_asked]. Qed.

End store.

(** ** Runs *)

Definition claim_key (claim : SummaryClaim) : text * Z := (sc_task_id claim, sc_generation claim).

Section runs.
Context `{Externals, Crypto, SummarySerde, ManifestSerde} {C : Type} `{ObjectCache C} {E : Type} `{SummaryGenerator E}.
Context (now : Z) (claim : SummaryClaim).

Lemma rthen_ext {A B} (x : Orch C E A) (k1 k2 : A → Orch C E B) (w : Run C) :
  (∀ a w1, x w = (Ok a, w1) → k1 a w1 = k2 a w1) → rthen x k1 w = rthen x k2 w.
Proof. unfold rthen. destruct (x w) as [[a|e] w1]; [|done]. intros Hk. by apply Hk. Qed.

Lemma begin_attempted db s db' :
  begin_summary_tts_attempt now claim db = Ok (s, db') → attempted (claim_key claim) db'.
Proof.
  unfold begin_summary_tts_attempt. intros Hr.
  apply tbind_ok in Hr as ([] & ? & Hv & Hr). apply lift_ok in Hv as [_ <-].
  apply tbind_ok in Hr as (g & ? & Hg & Hr). apply lift_ok in Hg as [Hg <-]. apply to_i64_ok in Hg as [-> _].
  rewrite tbind_query in Hr. case_match; [done|].
  apply tbind_ok in Hr as (n & db1 & Hx & Hr). apply query_result_ok in Hr as [Hr <-].
  destruct (query_row _ _) as [a|] eqn:Ea; [|done]. apply query_row_some in Ea as (Ha & E1 & E2).
  exists a. split; [done|]. unfold at_key, claim_key. congruence.
Qed.

Lemma begin_ended db s db' :
  schema_ok db → ended (claim_key claim) db → begin_summary_tts_attempt now claim db ≠ Ok (s, db').
Proof.
  unfold begin_summary_tts_attempt. intros Hs (r & Hin & Ek & Hn) Hr.
  apply tbind_ok in Hr as ([] & ? & Hv & Hr). apply lift_ok in Hv as [_ <-].
  apply tbind_ok in Hr as (g & ? & Hg & Hr). apply lift_ok in Hg as [Hg <-]. apply to_i64_ok in Hg as [-> _].
  rewrite tbind_query in Hr. destruct (exists_row _ _) eqn:Ex; [|done].
  apply exists_row_true in Ex as (r' & Hin' & (Et & Eg & Hact) & _).
  assert (r = r') as ->; [|done]. eapply summary_key_unique; try done.
  rewrite Ek. unfold claim_key, sm_key. congruence.
Qed.

(** A recorded attempt is found by the claim that owns the row. *)
Lemma attempt_found db v db' :
  summary_inv db → attempted (claim_key claim) db →
  (∀ r, r ∈ db_summaries db → sm_key r = claim_key claim → sm_request_id r = Some (sc_request_id claim)) →
  summary_tts_attempt claim db = Ok (v, db') → v ≠ None.
Proof.
  intros Hi (a & Ha & Ek) Hown Hr ->. unfold summary_tts_attempt in Hr.
  apply tbind_ok in Hr as ([] & ? & Hv & Hr). apply lift_ok in Hv as [_ <-].
  apply tbind_ok in Hr as (g & ? & Hg & Hr). apply lift_ok in Hg as [Hg <-]. apply to_i64_ok in Hg as [-> _].
  apply query_ok in Hr as [Hr _]. destruct (query_row _ _) eqn:Eq; [done|].
  apply (query_row_none_1 _ _ a Eq Ha). injection Ek as E1 E2. split_and!; [done|done|].
  destruct (si_attempts _ Hi a Ha) as (r & Hin & Hact & Er). apply Exists_exists. exists r. split; [done|].
  assert (sm_key r = claim_key claim) as Erk by (rewrite Er; unfold at_key, claim_key; congruence).
  split; [|by apply Hown]. injection Erk as ? ?. done.
Qed.

Lemma generate_store previous (w : Run C) dg s w' :
  generate_summary (E:=E) now dg claim previous w = (Ok s, w') → rn_store w' = dg (rn_store w).
Proof.
  unfold generate_summary. destruct (generate _ _); [destruct (validate_expected_covers _ _); [by intros [= <- <-]|]|];
    by intros (_ & [[? _]|(? & ? & _)])%abandon_with_inv.
Qed.

Lemma load_previous_store (w : Run C) a w' : load_previous_summary (E:=E) now claim w = (Ok a, w') → w' = w.
Proof.
  unfold load_previous_summary. destruct (sc_previous_unread claim); [destruct (load_tts_summary _ _ _)|]; try by intros [= <- <-].
  by intros (_ & [[? _]|(? & ? & _)])%abandon_with_inv.
Qed.

(** A run against a speech service, during whose call the store changes by [ds]. *)
Definition run_with (dg : Db → Db) (service : SummarySynthesizer) (ds : Db → Db) (w : Run C) :=
  execute_claim (E:=E) now dg ds claim w.

(** C30 (safety, summary_orchestrator.rs and store.rs): a claim's speech is requested at most
    once, across crashes, restarts and whatever the host's other threads do.  When the
    speech service is called, the attempt is on record (the run depends on what happens
    during the call only in stores that hold the attempt); and once the attempt of a claim
    has been recorded, no later run of the claim, in any state the store can reach from
    there, depends on the speech service at all. *)
Theorem speech_requested_once (dg : Db → Db) (w : Run C) :
  (∀ service ds1 ds2, (∀ db, attempted (claim_key claim) db → ds1 db = ds2 db) →
     run_with dg service ds1 w = run_with dg service ds2 w)
  ∧ ∀ db0, reachable db0 → attempted (claim_key claim) db0 → rtc step db0 (rn_store w) →
     (∀ db, rtc step db (dg db)) →
     (∀ r, r ∈ db_summaries (rn_store w) → sm_key r = claim_key claim →
        sm_request_id r = Some (sc_request_id claim)) →
     ∀ service1 service2 ds1 ds2, run_with dg service1 ds1 w = run_with dg service2 ds2 w.
Proof.
  split.
  - intros service ds1 ds2 Hds. unfold run_with, execute_claim.
    apply rthen_ext. intros _ w1 _. apply rthen_ext. intros [outcome|] w2 _; [done|].
    apply rthen_ext. intros [s|] w3 _; [done|]. apply rthen_ext. intros previous w4 _.
    apply rthen_ext. intros _ w5 _. apply rthen_ext. intros summary w6 _.
    apply rthen_ext. intros _ w7 _. apply rthen_ext. intros state w8 Hbegin.
    apply transact_inv in Hbegin as [(? & db & Hbegin & _ & ->)|(? & _ & [=] & _)]. case_match; [done|].
    unfold rthen at 1 3. unfold checkpoint at 1 3. unfold rthen at 1 3. unfold synthesize_summary.
    cbn [rn_store reached run_on]. by rewrite Hds by by eapply begin_attempted.
  - intros db0 Hreach Hatt Hsteps Hdg Hown service1 service2 ds1 ds2. unfold run_with, execute_claim.
    apply rthen_ext. intros [] w1 [= <-]. apply rthen_ext. intros [outcome|] w2 Hrec; [done|].
    apply recover_settled in Hrec as [_ Hrec]. cbn [rn_store reached] in Hrec.
    assert (store_inv (rn_store w)) as Hinv by (eapply steps_inv; [exact Hsteps|by apply reachable_inv]).
    apply rthen_ext. intros attempt w3 Hw3.
    apply transact_inv in Hw3 as [(? & db & Hquery & [= <-] & ->)|(? & _ & [=] & _)]. rewrite Hrec in Hquery.
    destruct attempt as [s|]; [done|].
    assert (ended (claim_key claim) (rn_store w)) as Hend.
    { destruct (steps_asked (claim_key claim) _ _ Hsteps (reachable_inv _ Hreach) (or_introl Hatt)) as [Ha|?]; [|done].
      by destruct (attempt_found _ _ _ (inv_summaries _ Hinv) Ha Hown Hquery). }
    assert (db = rn_store w) as ->.
    { unfold summary_tts_attempt in Hquery. apply tbind_ok in Hquery as ([] & ? & Hv & Hq). apply lift_ok in Hv as [_ <-].
      apply tbind_ok in Hq as (g & ? & Hg & Hq). apply lift_ok in Hg as [_ <-]. by apply query_ok in Hq as [_ <-]. }
    apply rthen_ext. intros previous w4 ->%load_previous_store.
    apply rthen_ext. intros [] w5 [= <-]. apply rthen_ext. intros summary w6 Hgen%generate_store.
    cbn [rn_store reached run_on] in Hgen.
    apply rthen_ext. intros [] w7 [= <-]. apply rthen_ext. intros state w8 Hbegin. exfalso.
    apply transact_inv in Hbegin as [(? & db & Hbegin & _ & _)|(? & _ & [=] & _)].
    cbn [rn_store reached] in Hbegin. rewrite Hgen in Hbegin.
    eapply begin_ended; [| |exact Hbegin]; [apply inv_schema; by eapply steps_inv; [apply Hdg|]|].
    by eapply steps_ended; [apply Hdg|..].
Qed.

End runs.
