(* ===== verification/SummaryWorker.v ===== *)
(** * The summary worker (app/host/src/summary_worker.rs)

    The worker goes through the tasks that have work, a page of 32 at a time, and runs each
    of them ([summarize_task]) unless its last run failed a short while ago.  A pass of the
    loop is a function of the worker's state and of what the surroundings give it ([Around]):
    the clock, the shutdown flag, the answers of the language model and of the speech
    service, and what the other threads of the host do to the store meanwhile.

    A run that fails is not tried again before its back-off ends ([backoff_is_kept]), and
    however many tasks fail, every task that has work gets its turn ([every_task_gets_a_turn]). *)

From stdpp Require Import gmap.
From S2P Require Import Prelude Bytes Audio CacheRef Sql StoreTypes StoreJobs StoreRollout StoreSummary Summary TtsCache.
From S2P Require Import Orchestrator.

(** In milliseconds. *)
Definition POLL_INTERVAL : Z := 250.
Definition FAILURE_BACKOFF : Z := 30 * 1000.
Definition MANUAL_BACKOFF : Z := 60 * 60 * 1000.

Section worker.
Context `{Externals, Crypto, SummarySerde, ManifestSerde} {C : Type} `{ObjectCache C} {E : Type}.

(** What a task of the page meets: the flag, the clock when its back-off is looked at, the
    run's clock of the store, its request id, its services, the store meanwhile, and the
    clock when it has ended. *)
Record Around := mk_around {
  ar_shutdown : bool; ar_checked : Z; ar_now : Z; ar_request_id : text;
  ar_generate : SummaryClaim → option SummaryDocument → result E SummaryDocument;
  ar_synthesize : text → text → text → result TtsError TtsAudio;
  ar_before : Db → Db; ar_during_generation : Db → Db; ar_during_synthesis : Db → Db;
  ar_finished : Z;
}.

(** [retry_after] is the map of the source, [wk_scan_after] its cursor. *)
Record WorkerState := mk_worker_state {
  wk_store : Db; wk_cache : C; wk_retry_after : gmap text Z; wk_scan_after : option text;
}.

Inductive WorkerEvent :=
| BackedOff (task_id : text) (at_ : Z)
| Attempted (task_id : text) (started finished : Z) (outcome : result (OrchestratorError E) SummaryRunOutcome).

Definition event_task (e : WorkerEvent) : text :=
  match e with BackedOff t _ => t | Attempted t _ _ _ => t end.

(** How long a task is left alone after an outcome. *)
Definition backoff (outcome : result (OrchestratorError E) SummaryRunOutcome) : option Z :=
  match outcome with
  | Ok (PublishedSummary _ _ _) | Ok (AlreadyPublishedAs _) | Ok Idle => None
  | Ok (ManualTtsReconciliationRequired _) => Some MANUAL_BACKOFF
  | Err _ => Some FAILURE_BACKOFF
  end.

(** [retry_after.get(&task_id).is_some_and(|deadline| *deadline > Instant::now())] *)
Definition is_backed_off (checked : Z) (task_id : text) (retry_after : gmap text Z) : bool :=
  match retry_after !! task_id with Some deadline => checked <? deadline | None => false end.

Definition note_outcome (finished : Z) (task_id : text) (outcome : result (OrchestratorError E) SummaryRunOutcome)
    (retry_after : gmap text Z) : gmap text Z :=
  match backoff outcome with
  | Some pause => <[task_id := finished + pause]> retry_after
  | None => delete task_id retry_after
  end.

(** One task of the page. *)
Definition attend (a : Around) (task_id : text) (w : WorkerState) : WorkerEvent * WorkerState :=
  let store := ar_before a (wk_store w) in
  if is_backed_off (ar_checked a) task_id (wk_retry_after w)
  then (BackedOff task_id (ar_checked a), mk_worker_state store (wk_cache w) (wk_retry_after w) (wk_scan_after w))
  else
    let generator : SummaryGenerator E := {| generate := ar_generate a |} in
    let synthesizer : SummarySynthesizer := {| synthesize := ar_synthesize a |} in
    match summarize_task (ar_now a) (ar_during_generation a) (ar_during_synthesis a) task_id (ar_request_id a)
            (mk_run store (wk_cache w) []) with
    | (outcome, run) =>
        (Attempted task_id (ar_checked a) (ar_finished a) outcome,
         mk_worker_state (rn_store run) (rn_cache run) (note_outcome (ar_finished a) task_id outcome (wk_retry_after w)) (wk_scan_after w))
    end.

(** The tasks of the page, the [k]th of them first, until the shutdown. *)
Fixpoint attend_all (around : nat → Around) (k : nat) (tasks : list text) (w : WorkerState) : list WorkerEvent * WorkerState :=
  match tasks with
  | [] => ([], w)
  | task_id :: tasks =>
      if ar_shutdown (around k) then ([], w)
      else
        match attend (around k) task_id w with
        | (event, w) => match attend_all around (S k) tasks w with (events, w) => (event :: events, w) end
        end
  end.

Definition move_cursor (after : option text) (w : WorkerState) : WorkerState :=
  mk_worker_state (wk_store w) (wk_cache w) (wk_retry_after w) after.

(** One turn of the loop of [run_ready]: what happened, and how long it then sleeps. *)
Definition scan (around : nat → Around) (w : WorkerState) : list WorkerEvent * Z * WorkerState :=
  match summary_work_tasks_after (wk_scan_after w) (wk_store w) with
  | Err _ => ([], FAILURE_BACKOFF, w)
  | Ok (tasks, _) =>
      if bool_decide (tasks = []) then ([], POLL_INTERVAL, move_cursor None w)
      else
        match attend_all around 0 tasks (move_cursor (last tasks) w) with (events, w) => (events, POLL_INTERVAL, w) end
  end.

(** A turn, and what the other threads do to the store while the worker sleeps. *)
Record Lap := mk_lap { lp_around : nat → Around; lp_after : Db → Db }.

Definition lap (l : Lap) (w : WorkerState) : list WorkerEvent * WorkerState :=
  match scan (lp_around l) w with
  | (events, _, w) => (events, mk_worker_state (lp_after l (wk_store w)) (wk_cache w) (wk_retry_after w) (wk_scan_after w))
  end.

(** [run_ready], a lap for each turn until the shutdown. *)
Fixpoint run_ready (laps : list Lap) (w : WorkerState) : list WorkerEvent * WorkerState :=
  match laps with
  | [] => ([], w)
  | l :: laps =>
      match lap l w with
      | (events, w) => match run_ready laps w with (more, w) => (events ++ more, w) end
      end
  end.

(** The worker as it starts. *)
Definition new_worker (store : Db) (cache : C) : WorkerState := mk_worker_state store cache ∅ None.

End worker.

(** ** The order of the identifiers *)

Lemma text_leb_refl a : text_leb a a = true.
Proof. induction a as [|x a IH]; [done|]. cbn. rewrite Z.ltb_irrefl, Z.eqb_refl. exact IH. Qed.

Lemma text_leb_total a b : text_leb a b = false → text_leb b a = true.
Proof.
  revert b. induction a as [|x a IH]; intros [|y b]; cbn; try done. intros Hf. apply orb_false_elim in Hf as [Hl He].
  destruct (y <? x) eqn:E; [done|]. assert (x = y) as -> by lia. rewrite Z.eqb_refl in *. cbn in *. by apply IH.
Qed.

Lemma text_leb_trans a b c : text_leb a b = true → text_leb b c = true → text_leb a c = true.
Proof.
  revert b c. induction a as [|x a IH]; intros [|y b] [|z c]; cbn; try done. intros Hab Hbc.
  apply orb_prop in Hab, Hbc. apply orb_true_intro.
  destruct Hab as [?|[??]%andb_prop], Hbc as [?|[??]%andb_prop]; [left; lia|left; lia|left; lia|right].
  apply andb_true_intro. split; [lia|]. by eapply IH.
Qed.

Lemma text_leb_antisym a b : text_leb a b = true → text_leb b a = true → a = b.
Proof.
  revert b. induction a as [|x a IH]; intros [|y b]; cbn; try done. intros Hab Hba.
  apply orb_prop in Hab, Hba. destruct Hab as [?|[??]%andb_prop], Hba as [?|[??]%andb_prop]; try lia.
  f_equal; [lia|]. by apply IH.
Qed.

Lemma after_task_trans c a b : after_task c a → after_task (Some a) b → after_task c b.
Proof.
  destruct c as [c|]; [|done]. intros [H1 N1] [H2 N2]. split; [by eapply text_leb_trans|]. intros ->.
  by apply N1, text_leb_antisym.
Qed.

Lemma after_task_irrefl a : ¬ after_task (Some a) a.
Proof. by intros [_ []]. Qed.

(** ** Pages *)

Section scanning.
Context `{Externals}.

(** The tasks that have work: an interrupted claim or a completion that no summary covers. *)
Definition summary_work (db : Db) : list text :=
  remove_dups ((sm_task_id <$> filter (λ r, sm_state r = Interrupted) (db_summaries db))
    ++ (cp_task_id <$> filter (λ c, cp_summarized_generation c = None) (db_completions db))).

Definition page (after : option text) (db : Db) : list text :=
  take 32 (order_by text_leb (filter (after_task after) (summary_work db))).

Lemma elem_of_page after db t : t ∈ page after db → after_task after t ∧ t ∈ summary_work db.
Proof.
  intros (i & Hi & _)%elem_of_take. apply list_elem_of_lookup_2 in Hi. rewrite elem_of_order_by in Hi.
  by apply list_elem_of_filter in Hi.
Qed.

Lemma summary_work_tasks_after_page after db :
  Forall (λ t, uuid_ok t = true) (summary_work db) → summary_work_tasks_after after db = Ok (page after db, db).
Proof.
  intros Hu. unfold summary_work_tasks_after, query_result. cbn zeta. fold (summary_work db). fold (page after db).
  replace (forallb uuid_ok (page after db)) with true; [done|]. symmetry. apply forallb_forall. intros t Ht.
  apply list_elem_of_In, elem_of_page in Ht as [_ Ht]. rewrite Forall_forall in Hu. by apply Hu.
Qed.

(** A task with work beyond the cursor is on the page, or the page ends before it. *)
Lemma page_reaches after db t :
  t ∈ summary_work db → after_task after t →
  t ∈ page after db ∨ ∃ l, last (page after db) = Some l ∧ after_task (Some l) t.
Proof.
  intros Ht Ha. destruct (decide (t ∈ page after db)) as [|Hn]; [by left|right].
  set (sorted := order_by text_leb (filter (after_task after) (summary_work db))).
  assert (t ∈ sorted) as Hs by (unfold sorted; rewrite elem_of_order_by; by apply list_elem_of_filter).
  assert (Sorted text_leb sorted) as Hsorted by apply order_by_sorted, text_leb_total.
  apply Sorted_StronglySorted in Hsorted;
    [|intros x y z Hxy Hyz; apply Is_true_true in Hxy, Hyz; apply Is_true_true; by eapply text_leb_trans].
  rewrite <- (take_drop 32 sorted) in Hs, Hsorted. apply elem_of_app in Hs as [Hs|Hs]; [by destruct Hn|].
  change (page after db) with (take 32 sorted) in *. destruct (last (take 32 sorted)) as [l|] eqn:El.
  - exists l. split; [done|]. assert (l ∈ take 32 sorted) as Hl by (by apply last_Some_elem_of).
    split; [|by intros ->]. apply Is_true_true. exact (StronglySorted_app_1_elem_of _ _ _ _ _ Hsorted Hl Hs).
  - apply last_None in El. destruct sorted; [|done]. by apply elem_of_nil in Hs.
Qed.
End scanning.

Section backing_off.
Context `{Externals, Crypto, SummarySerde, ManifestSerde} {C : Type} `{ObjectCache C} {E : Type}.
Implicit Types (w : WorkerState (C:=C)) (log : list (WorkerEvent (E:=E))) (m : gmap text Z).

(** ** The back-off *)

Definition attempt_of (t : text) (e : WorkerEvent (E:=E)) : Prop := ∃ s f o, e = Attempted t s f o.
Definition unattempted (t : text) log : Prop := Forall (λ e, ¬ attempt_of t e) log.

(** What the events make of the map. *)
Definition note_event m (e : WorkerEvent (E:=E)) : gmap text Z :=
  match e with BackedOff _ _ => m | Attempted t _ f o => note_outcome f t o m end.

Fixpoint consistent m log : Prop :=
  match log with
  | [] => True
  | e :: log =>
      match e with
      | BackedOff t s => is_backed_off s t m = true
      | Attempted t s _ _ => is_backed_off s t m = false
      end ∧ consistent (note_event m e) log
  end.

Lemma consistent_app m l1 l2 : consistent m (l1 ++ l2) ↔ consistent m l1 ∧ consistent (foldl note_event m l1) l2.
Proof. revert m. induction l1 as [|e l1 IH]; intros m; cbn; [tauto|]. rewrite IH. tauto. Qed.

Lemma attend_consistent a t w e w' :
  attend a t w = (e, w') →
  event_task e = t ∧ wk_scan_after w' = wk_scan_after w
  ∧ wk_retry_after w' = note_event (wk_retry_after w) e ∧ consistent (wk_retry_after w) [e].
Proof.
  unfold attend. destruct (is_backed_off _ _ _) eqn:Eb; [by intros [= <- <-]|]. cbv zeta.
  destruct (summarize_task _ _ _ _ _ _) as [o r]. by intros [= <- <-].
Qed.

Lemma attend_all_consistent around k tasks w log w' :
  attend_all around k tasks w = (log, w') →
  wk_scan_after w' = wk_scan_after w
  ∧ wk_retry_after w' = foldl note_event (wk_retry_after w) log ∧ consistent (wk_retry_after w) log
  ∧ ((∀ j, ar_shutdown (around j) = false) → event_task <$> log = tasks).
Proof.
  revert k w log. induction tasks as [|t tasks IH]; intros k w log; cbn; [by intros [= <- <-]|].
  destruct (ar_shutdown (around k)) eqn:Es.
  { intros [= <- <-]. do 3 (split; [done|]). intros Hf. by rewrite Hf in Es. }
  destruct (attend _ _ _) as [e w1] eqn:Ea. destruct (attend_all _ _ _ _) as [es w2] eqn:Eas. intros [= <- <-].
  destruct (attend_consistent _ _ _ _ _ Ea) as (Ht & Hs1 & Hr1 & Hc1). destruct (IH _ _ _ Eas) as (Hs2 & Hr2 & Hc2 & Hm).
  split; [congruence|]. split; [by rewrite Hr2, Hr1|]. rewrite Hr1 in Hc2. split; [by apply (consistent_app _ [e])|].
  intros Hf. cbn. by rewrite Ht, Hm.
Qed.

Lemma lap_consistent l w log w' :
  lap l w = (log, w') →
  wk_retry_after w' = foldl note_event (wk_retry_after w) log ∧ consistent (wk_retry_after w) log.
Proof.
  unfold lap, scan. destruct (summary_work_tasks_after _ _) as [[tasks db]|e]; [|by intros [= <- <-]].
  destruct (bool_decide _); [by intros [= <- <-]|]. destruct (attend_all _ _ _ _) as [es w1] eqn:Ea. intros [= <- <-].
  by destruct (attend_all_consistent _ _ _ _ _ _ Ea) as (_ & ? & ? & _).
Qed.

Lemma run_ready_consistent laps w log w' :
  run_ready laps w = (log, w') →
  wk_retry_after w' = foldl note_event (wk_retry_after w) log ∧ consistent (wk_retry_after w) log.
Proof.
  revert w log. induction laps as [|l laps IH]; intros w log; cbn; [by intros [= <- <-]|].
  destruct (lap l w) as [es w1] eqn:El. destruct (run_ready laps w1) as [more w2] eqn:Er. intros [= <- <-].
  destruct (lap_consistent _ _ _ _ El) as [Hr1 Hc1]. destruct (IH _ _ Er) as [Hr2 Hc2].
  rewrite Hr1 in Hr2, Hc2. by rewrite foldl_app, consistent_app.
Qed.

Lemma note_other t e m : ¬ attempt_of t e → note_event m e !! t = m !! t.
Proof.
  intros Hn. destruct e as [t' s|t' s f o]; [done|]. cbn. assert (t' ≠ t) by (intros ->; apply Hn; by eexists _, _, _).
  unfold note_outcome. destruct (backoff o); [by rewrite lookup_insert_ne|by rewrite lookup_delete_ne].
Qed.

Lemma note_all_other t log m : unattempted t log → foldl note_event m log !! t = m !! t.
Proof.
  intros Hu. revert m. induction Hu as [|e log He _ IH]; intros m; [done|]. cbn. by rewrite IH, note_other.
Qed.

(** A deadline comes from the last attempt of its task. *)
Lemma deadline_from_attempt t log d :
  foldl note_event ∅ log !! t = Some d →
  ∃ l1 s f o l2 pause, log = l1 ++ Attempted t s f o :: l2 ∧ unattempted t l2 ∧ backoff o = Some pause ∧ d = f + pause.
Proof.
  induction log as [|e log IH] using rev_ind; [done|]. rewrite foldl_app. cbn. intros Hl.
  destruct e as [t' s|t' s f o]; [|destruct (decide (t' = t)) as [->|Hn]].
  - destruct (IH Hl) as (l1 & s1 & f1 & o1 & l2 & p & -> & Hu & Hb). exists l1, s1, f1, o1, (l2 ++ [BackedOff t' s]), p.
    rewrite <- app_assoc. split; [done|]. split; [|done]. apply Forall_app. split; [done|]. repeat constructor. by intros (? & ? & ? & ?).
  - cbn in Hl. unfold note_outcome in Hl. destruct (backoff o) as [p|] eqn:Eb; simplify_map_eq.
    exists log, s, f, o, [], p. split; [done|]. split; [constructor|]. done.
  - rewrite note_other in Hl by (intros (? & ? & ? & ?); congruence).
    destruct (IH Hl) as (l1 & s1 & f1 & o1 & l2 & p & -> & Hu & Hb). exists l1, s1, f1, o1, (l2 ++ [Attempted t' s f o]), p.
    rewrite <- app_assoc. split; [done|]. split; [|done]. apply Forall_app. split; [done|]. repeat constructor.
    intros (? & ? & ? & ?); congruence.
Qed.

(** After a run that failed (or asks for a manual reconciliation), the worker leaves the
    task alone for thirty seconds (an hour) from the end of that run, whatever else it does
    meanwhile; and it passes over a task only for that reason. *)
Theorem backoff_is_kept laps store (cache : C) log w' :
  run_ready laps (new_worker store cache) = (log, w') →
  (∀ t s1 f1 o1 s2 f2 o2 l1 l2 l3 pause,
     log = l1 ++ Attempted t s1 f1 o1 :: l2 ++ Attempted t s2 f2 o2 :: l3 → unattempted t l2 →
     backoff o1 = Some pause → f1 + pause <= s2)
  ∧ (∀ t s l1 l2, log = l1 ++ BackedOff t s :: l2 →
       ∃ l0 s1 f1 o1 l0' pause, l1 = l0 ++ Attempted t s1 f1 o1 :: l0' ∧ unattempted t l0'
         ∧ backoff o1 = Some pause ∧ s < f1 + pause).
Proof.
  intros Hrun. apply run_ready_consistent in Hrun as [_ Hc]. cbn in Hc. split.
  - intros t s1 f1 o1 s2 f2 o2 l1 l2 l3 pause -> Hu Hb. apply consistent_app in Hc as [_ [_ Hc]].
    apply consistent_app in Hc as [_ [Hc _]]. unfold is_backed_off in Hc. rewrite note_all_other in Hc by done.
    cbn in Hc. unfold note_outcome in Hc. rewrite Hb, lookup_insert_eq in Hc. lia.
  - intros t s l1 l2 ->. apply consistent_app in Hc as [_ [Hc _]]. unfold is_backed_off in Hc.
    destruct (foldl _ _ _ !! t) as [d|] eqn:El; [|done].
    destruct (deadline_from_attempt _ _ _ El) as (l0 & s1 & f1 & o1 & l0' & pause & -> & Hu & Hb & ->).
    exists l0, s1, f1, o1, l0', pause. split; [done|]. split; [done|]. split; [done|]. lia.
Qed.

End backing_off.

(** ** Every task's turn *)

Section turns.
Context `{Externals, Crypto, SummarySerde, ManifestSerde} {C : Type} `{ObjectCache C} {E : Type}.
Implicit Types (w : WorkerState (C:=C)) (log es : list (WorkerEvent (E:=E))) (l : Lap (E:=E)).

(** [P] holds of the store at every scan. *)
Fixpoint every_scan (P : Db → Prop) (laps : list (Lap (E:=E))) w : Prop :=
  match laps with
  | [] => True
  | l :: laps => P (wk_store w) ∧ every_scan P laps (lap l w).2
  end.

(** [t] has work, and so have only tasks of [U]. *)
Definition working (U : list text) (t : text) (db : Db) : Prop :=
  t ∈ summary_work db ∧ (∀ x, x ∈ summary_work db → x ∈ U) ∧ Forall (λ x, uuid_ok x = true) (summary_work db).

Definition beyond (U : list text) (after : option text) : nat := length (filter (after_task after) U).

Lemma length_filter_lt {A} (P Q : A → Prop) `{∀ x, Decision (P x), ∀ x, Decision (Q x)} (l : list A) y :
  (∀ x, P x → Q x) → y ∈ l → Q y → ¬ P y → (length (filter P l) < length (filter Q l))%nat.
Proof.
  intros Hpq Hy Hq Hp. assert (∀ l : list A, length (filter P l) <= length (filter Q l))%nat as Hle.
  { intros k. induction k as [|x k IH]; [done|]. rewrite !filter_cons. destruct (decide (P x)), (decide (Q x)); cbn; try lia.
    by destruct n; apply Hpq. }
  induction l as [|x l IH]; [by apply elem_of_nil in Hy|]. rewrite !filter_cons. pose proof (Hle l).
  apply elem_of_cons in Hy as [<-|Hy].
  - rewrite decide_False, decide_True by done. cbn. lia.
  - specialize (IH Hy). destruct (decide (P x)), (decide (Q x)); cbn; try lia. by destruct n; apply Hpq.
Qed.

Lemma beyond_lt U after x : after_task after x → x ∈ U → (beyond U (Some x) < beyond U after)%nat.
Proof.
  intros Ha Hx. apply (length_filter_lt _ _ _ x); [|done..|apply after_task_irrefl].
  intros y Hy. by eapply after_task_trans.
Qed.

Lemma lap_events l w es w1 :
  lap l w = (es, w1) → (∀ k, ar_shutdown (lp_around l k) = false) →
  Forall (λ x, uuid_ok x = true) (summary_work (wk_store w)) →
  event_task (E:=E) <$> es = page (wk_scan_after w) (wk_store w) ∧ wk_scan_after w1 = last (page (wk_scan_after w) (wk_store w)).
Proof.
  unfold lap, scan. intros Hl Hs Hu. rewrite summary_work_tasks_after_page in Hl by done.
  destruct (bool_decide _) eqn:Eb.
  - apply bool_decide_eq_true_1 in Eb. rewrite Eb. by injection Hl as <- <-.
  - destruct (attend_all _ _ _ _) as [events w2] eqn:Ea. injection Hl as <- <-.
    destruct (attend_all_consistent _ _ _ _ _ _ Ea) as (Hc & _ & _ & Hm). by rewrite Hm.
Qed.

Lemma lap_turn U t l w es w1 :
  lap l w = (es, w1) → (∀ k, ar_shutdown (lp_around l k) = false) → working U t (wk_store w) →
  t ∈ event_task (E:=E) <$> es
  ∨ (∃ x, wk_scan_after w1 = Some x ∧ (beyond U (Some x) < beyond U (wk_scan_after w))%nat
       ∧ (after_task (wk_scan_after w) t → after_task (Some x) t))
  ∨ wk_scan_after w1 = None ∧ ¬ after_task (wk_scan_after w) t.
Proof.
  intros Hl Hs (Ht & HU & Hu). destruct (lap_events _ _ _ _ Hl Hs Hu) as [-> Hc].
  destruct (decide (t ∈ page (wk_scan_after w) (wk_store w))) as [|Hn]; [by left|]. right.
  assert (after_task (wk_scan_after w) t → ∃ x, last (page (wk_scan_after w) (wk_store w)) = Some x ∧ after_task (Some x) t) as Hr
    by (intros Ha; by destruct (page_reaches _ _ _ Ht Ha)).
  rewrite Hc. destruct (last (page _ _)) as [x|] eqn:El.
  - left. exists x. split; [done|]. apply last_Some_elem_of, elem_of_page in El as [Ha Hx]. split; [by apply beyond_lt; [|apply HU]|].
    intros Ht'. by destruct (Hr Ht') as (y & [= <-] & Hy).
  - right. split; [done|]. intros Ht'. by destruct (Hr Ht') as (y & [=] & _).
Qed.

(** C29: however many tasks there are and however often they fail, a task that has work is
    reached, to be run or to be passed over for its own back-off, within 2n + 1 turns of the
    worker's loop, n being the number of tasks that have work at some of these turns: the
    pages of 32 starve nobody. *)
Theorem every_task_gets_a_turn U t laps w log w' :
  run_ready laps w = (log, w') → (∀ l k, l ∈ laps → ar_shutdown (lp_around l k) = false) →
  every_scan (working U t) laps w → (2 * length U + 1 <= length laps)%nat →
  ∃ e, e ∈ log ∧ event_task e = t.
Proof.
  intros Hrun Hs Hw Hlen. enough (t ∈ event_task (E:=E) <$> log) as Hin by (apply list_elem_of_fmap in Hin as (e & -> & He); eauto).
  destruct laps as [|l0 laps0] eqn:E0; [cbn in Hlen; lia|]. assert (t ∈ U) as HtU by (destruct Hw as [(Ht & HU & _) _]; by apply HU).
  rewrite <- E0 in *. clear E0 l0 laps0.
  enough (∀ n, (n <= length laps)%nat → (after_task (wk_scan_after w) t ∧ beyond U (wk_scan_after w) <= n
      ∨ beyond U (wk_scan_after w) + 1 + length U <= n)%nat → t ∈ event_task (E:=E) <$> log) as Hgo.
  { apply (Hgo (length laps)); [lia|]. right. unfold beyond. pose proof (length_filter (after_task (wk_scan_after w)) U). lia. }
  clear Hlen. revert w log Hrun Hw. induction laps as [|l laps IH]; intros w log Hrun Hw n Hn Hcase.
  { exfalso. cbn in Hn. destruct Hcase as [[Ha Hb]|Hb]; [|lia].
    assert (beyond U (Some t) < beyond U (wk_scan_after w))%nat by (by apply beyond_lt). lia. }
  cbn in Hrun, Hw. destruct (lap l w) as [es w1] eqn:El. destruct (run_ready laps w1) as [more w2] eqn:Er.
  injection Hrun as <- <-. destruct Hw as [Hp Hw]. cbn [snd] in Hw. rewrite fmap_app, elem_of_app.
  assert (∀ k, ar_shutdown (lp_around l k) = false) as Hs1 by (intros k; apply Hs; constructor).
  destruct (lap_turn _ _ _ _ _ _ El Hs1 Hp) as [|Hnext]; [by left|right].
  apply (IH (λ l k Hl, Hs l k (list_elem_of_further _ _ _ Hl)) w1 more Er Hw (n - 1)%nat); [cbn in Hn; lia|].
  destruct Hnext as [(x & -> & Hlt & Hpres)|[-> Hna]].
  - destruct Hcase as [[Ha Hb]|Hb]; [left; split; [by apply Hpres|lia]|right; lia].
  - destruct Hcase as [[Ha _]|Hb]; [done|]. left. split; [done|]. unfold beyond at 1.
    pose proof (length_filter (after_task None) U). lia.
Qed.

End turns.
