(* ===== verification/SparkRunner.v ===== *)
(** * The summary model's runner (app/host/src/spark_runner.rs)

    A summary is written by a Codex process that runs in a private workspace, with its tools
    and plugins switched off.  The runner checks the claim, makes the prompt from the final
    replies of the turns, starts the process and watches over it: again and again it audits
    the workspace, the copied credential and the output file, and it kills the process when
    anything is not as expected.  What the process wrote is taken only when it is a document
    that covers the claim, and it is redacted.

    The file system and the processes are arguments: what [symlink_metadata], [read_dir] and
    [read_link] answer, how a started process and its descendants behave ([Poll]), and what
    the pipes give.  What the runner does to the processes is modelled: [ChildGuard] kills the
    child's process group and waits for the child, or it does not; and a thread that reads or
    writes a pipe ends only when the pipe lets it ([join_io_threads]).
    [run_with_cancel_report] composes them as the source does (without the supervisor process
    of macOS). *)

From stdpp Require Import gmap.
From S2P Require Import Prelude Bytes StrOps CacheRef Sql StoreTypes StoreSummary Redact TurnPack Summary.

Definition MAX_AUTH_BYTES : Z := 64 * 1024.
Definition MAX_TURN_PACK_BYTES : Z := 64 * 1024.
Definition MAX_TURN_PACK_TOTAL_BYTES : Z := 1024 * 1024.
Definition MAX_PROMPT_BYTES : Z := 2 * 1024 * 1024.
Definition SPARK_MAX_WORKSPACE_BYTES : Z := 8 * 1024 * 1024.
Definition SPARK_MAX_WORKSPACE_NODES : Z := 32.
Definition MAX_RUNTIME_DATABASE_BYTES : Z := 2 * 1024 * 1024.
Definition MAX_RUNTIME_WAL_BYTES : Z := 4 * 1024 * 1024.
Definition MAX_RUNTIME_SHM_BYTES : Z := 256 * 1024.
Definition MAX_MODEL_CACHE_BYTES : Z := 2 * 1024 * 1024.
Definition MAX_STDOUT_BYTES : Z := 4 * 1024 * 1024.
Definition MAX_STDERR_BYTES : Z := 64 * 1024.
Definition OUTPUT_OK : Z := 0.
Definition OUTPUT_TOO_LARGE : Z := 1.
Definition OUTPUT_IO : Z := 2.

(** [SparkPanic] stands for a panic. *)
Inductive SparkError :=
| CliMissing | Authentication | UnsafeWorkspace | InvalidInput | InvalidOutput | OutputTooLarge | SparkTimeout
| Cancelled | Busy | ProcessIo | RateLimited | ServiceUnavailable | ResourceLimit | ModelUnavailable
| LocalRuntime | SilentExitFailure | ExitFailure | SparkPanic.
#[export] Instance SparkError_eq_dec : EqDecision SparkError.
Proof. solve_decision. Defined.

(** ** Input *)

(** [serde_json] on a stored turn pack and on the prompt's input. *)
Class PromptSerde := {
  turn_pack_from_str : text → option TurnPack;
  prompt_input_to_json : Z → option SummaryDocument → list (text * text) → bytes;
  is_json_value : bytes → bool;
}.

Section input.
Context `{Externals, SummarySerde, PromptSerde}.

Definition assistant_pack (completion_id : text) (pack : TurnPack) : bool :=
  (tp_v pack =? 1) && bool_decide (tp_turn_id pack = completion_id)
  && match tp_assistant pack with [reply] => negb (bool_decide (trim reply = [])) | _ => false end.

Definition valid_assistant_turn_pack (completion : PendingSummaryCompletion) : bool :=
  match turn_pack_from_str (pc_turn_pack completion) with
  | Some pack => assistant_pack (pc_completion_id completion) pack
  | None => false
  end.

(** The loop over the completions; [total] is a [usize]. *)
Fixpoint validate_completions (total : Z) (completions : list PendingSummaryCompletion) : result SparkError unit :=
  match completions with
  | [] => Ok tt
  | c :: completions =>
      let? total := of_option InvalidInput (checked_add u64_max total (blen (pc_turn_pack c))) in
      if negb (uuid_ok (pc_completion_id c)) || bool_decide (pc_turn_pack c = [])
         || (MAX_TURN_PACK_BYTES <? blen (pc_turn_pack c)) || (MAX_TURN_PACK_TOTAL_BYTES <? total)
         || negb (valid_assistant_turn_pack c)
      then Err InvalidInput
      else validate_completions total completions
  end.

Definition validate_claim_input (claim : SummaryClaim) (previous_unheard : option SummaryDocument) : result SparkError unit :=
  if negb (uuid_ok (sc_task_id claim)) || (sc_generation claim =? 0) || bool_decide (sc_completions claim = [])
     || (MAX_SUMMARY_COMPLETIONS_PER_CLAIM <? Z.of_nat (length (sc_completions claim)))
     || negb (bool_decide (is_Some (sc_previous_unread claim) ↔ is_Some previous_unheard))
     || match sc_previous_unread claim with Some previous => negb (bool_decide (us_task_id previous = sc_task_id claim)) | None => false end
  then Err InvalidInput
  else
    let? _ := validate_completions 0 (sc_completions claim) in
    match previous_unheard with
    | Some document => match validate_document document with Ok _ => Ok tt | Err _ => Err InvalidInput end
    | None => Ok tt
    end.

Definition INSTRUCTIONS : bytes := ascii_bytes "Create a concrete cumulative unread task summary from the JSON input below. Each new completion contains only the authoritative final assistant reply from one completed task turn. Summarize only what those assistant_final fields reported: the user-visible result, still-relevant next work, and explicit decisions. Do not invent or reconstruct user messages, tool calls, intermediate progress, tests, logs, hidden reasoning, or implementation details that are not useful to the user. When previous_unheard is present, use it as cumulative context, then naturally re-summarize the still-relevant old unread content together with every new completion. Do not copy previous spoken_text verbatim and do not narrate a chronological history. Write spoken_text as a natural Simplified Chinese briefing of at most 480 letters, digits, or Han characters. Match its length to the actual information: keep a trivial confirmation to one short sentence; for an ordinary result, retain only the most important conclusion, core numbers, limitations, decisions, and any action the user truly needs; use more length for cumulative unread material only when needed to preserve useful meaning. Never pad toward a target length or paraphrase the whole source. Lead immediately with the newest concrete user-visible result, prioritizing the last new completion, then briefly fold in other material unread outcomes or decisions. End with a next action only when the source contains a real actionable next step; never add a generic closing such as saying work can continue. It must be self-contained and say what was actually completed, what result matters, and any relevant next step or decision; do not merely say that a task is done. Omit test commands, validation mechanics, and implementation detail unless the user must act on them. The TTS reads spoken_text exactly, so never include schema labels, validation notes, section headings, or boilerplate that a person should not hear. Return only the output-schema JSON. covers_new_completions must exactly equal the ordered completion_id values in new_completions. Never emit credentials, hidden reasoning, or local absolute paths." ++ [10].

Fixpoint assistant_completions (completions : list PendingSummaryCompletion) : result SparkError (list (text * text)) :=
  match completions with
  | [] => Ok []
  | c :: completions =>
      let? pack := of_option InvalidInput (turn_pack_from_str (pc_turn_pack c)) in
      if negb (assistant_pack (pc_completion_id c) pack) then Err InvalidInput
      else
        let? rest := assistant_completions completions in
        Ok ((pc_completion_id c, default [] (head (tp_assistant pack))) :: rest)
  end.

(** [BoundedSensitiveWriter::write] *)
Definition bounded_write (limit : Z) (bytes_ more : bytes) : option bytes :=
  next ← checked_add u64_max (blen bytes_) (blen more);
  if next <=? limit then Some (bytes_ ++ more) else None.

Definition build_prompt (claim : SummaryClaim) (previous_unheard : option SummaryDocument) : result SparkError bytes :=
  let? completions := assistant_completions (sc_completions claim) in
  let? prompt := of_option InvalidInput (bounded_write MAX_PROMPT_BYTES [] INSTRUCTIONS) in
  of_option InvalidInput (bounded_write MAX_PROMPT_BYTES prompt (prompt_input_to_json 1 previous_unheard completions)).

End input.

(** ** The file system *)

Inductive NodeKind := RegularFile | Directory | Symlink | OtherKind.
#[export] Instance NodeKind_eq_dec : EqDecision NodeKind.
Proof. solve_decision. Defined.

Record FileIdentity := mk_identity { id_device : Z; id_inode : Z }.

(** [fs::Metadata]; [mt_mode] is masked with 0o777, and a size is unsigned. *)
Record Metadata := mk_metadata {
  mt_kind : NodeKind; mt_uid : Z; mt_mode : Z; mt_nlink : Z; mt_size : N; mt_device : Z; mt_inode : Z;
}.
Definition mt_len (m : Metadata) : Z := Z.of_N (mt_size m).

Definition identity_matches (self : FileIdentity) (m : Metadata) : bool :=
  (mt_device m =? id_device self) && (mt_inode m =? id_inode self).
Definition identity_of (m : Metadata) : FileIdentity := mk_identity (mt_device m) (mt_inode m).

(** What the calls on an entry of a directory answer: its name, when it is UTF-8, its
    [symlink_metadata], its [read_link] and its [read_dir], whose items may fail. *)
Inductive Node := mk_node (name : option text) (metadata : option Metadata) (link : option text) (children : option (list (option Node))).
Definition nd_name (n : Node) := match n with mk_node name _ _ _ => name end.
Definition nd_metadata (n : Node) := match n with mk_node _ metadata _ _ => metadata end.
Definition nd_link (n : Node) := match n with mk_node _ _ link _ => link end.
Definition nd_children (n : Node) := match n with mk_node _ _ _ children => children end.

Definition is_dir (m : Metadata) : bool := bool_decide (mt_kind m = Directory).
Definition is_file (m : Metadata) : bool := bool_decide (mt_kind m = RegularFile).
Definition is_symlink (m : Metadata) : bool := bool_decide (mt_kind m = Symlink).

(** The directories the monitor looks at, and the effective user. *)
Record Workspace := mk_workspace {
  ws_euid : Z; ws_root : option Metadata; ws_entries : option (list (option Node));
  ws_process_tmp : option Metadata; ws_process_tmp_entries : option (list (option Node));
}.

Record SparkWorkspaceMonitor := mk_monitor {
  wm_root_identity : FileIdentity; wm_auth_identity : option FileIdentity; wm_sandbox_marker_identity : FileIdentity;
  wm_skills_identity : FileIdentity; wm_tmp_identity : FileIdentity; wm_arg0_identity : FileIdentity;
  wm_process_tmp_identity : FileIdentity; wm_alias_target : text; wm_max_nodes : Z; wm_max_bytes : Z;
}.

(** The literals are octal in the source. *)
Definition private_directory_matches (euid mode : Z) (identity : FileIdentity) (m : Metadata) : bool :=
  is_dir m && (mt_uid m =? euid) && (mt_mode m =? mode) && identity_matches identity m.
Definition MODE_500 : Z := 320.
Definition MODE_700 : Z := 448.
Definition MODE_400 : Z := 256.
Definition MODE_755 : Z := 493.
Definition MODE_644 : Z := 420.
Definition MODE_133 : Z := 91.

Definition runtime_file_limit (name : text) : option Z :=
  if bool_decide (name = ascii_bytes "installation_id") then Some 128
  else if bool_decide (name = ascii_bytes "models_cache.json") then Some MAX_MODEL_CACHE_BYTES
  else if bool_decide (name ∈ ascii_bytes <$> ["goals_1.sqlite"; "memories_1.sqlite"; "logs_2.sqlite"; "state_5.sqlite"]%string)
    then Some MAX_RUNTIME_DATABASE_BYTES
  else if bool_decide (name ∈ ascii_bytes <$> ["goals_1.sqlite-wal"; "memories_1.sqlite-wal"; "logs_2.sqlite-wal"; "state_5.sqlite-wal"]%string)
    then Some MAX_RUNTIME_WAL_BYTES
  else if bool_decide (name ∈ ascii_bytes <$> ["goals_1.sqlite-shm"; "memories_1.sqlite-shm"; "logs_2.sqlite-shm"; "state_5.sqlite-shm"]%string)
    then Some MAX_RUNTIME_SHM_BYTES
  else None.

Definition is_ascii_alphanumeric (b : Z) : bool :=
  (48 <=? b) && (b <=? 57) || (65 <=? b) && (b <=? 90) || (97 <=? b) && (b <=? 122).

Definition unsafe {A} : result SparkError A := Err UnsafeWorkspace.
Definition ensure (b : bool) : result SparkError unit := if b then Ok tt else unsafe.

(** The children of the scratch directory: [seen] are the names before. *)
Fixpoint audit_aliases (euid : Z) (alias_target : text) (children : list (option Node)) (seen : list text) (nodes bytes_ : Z)
    : result SparkError (Z * Z) :=
  match children with
  | [] => Ok (nodes, bytes_)
  | child :: children =>
      let? child := of_option UnsafeWorkspace child in
      let? child_name := of_option UnsafeWorkspace (nd_name child) in
      if bool_decide (child_name ∈ seen) then unsafe
      else
        let? m := of_option UnsafeWorkspace (nd_metadata child) in
        if negb (mt_uid m =? euid) || negb (mt_nlink m =? 1) then unsafe
        else
          let? _ :=
            if bool_decide (child_name = ascii_bytes ".lock") then
              ensure (is_file m && (mt_mode m =? MODE_644) && (mt_len m =? 0))
            else if bool_decide (child_name ∈ ascii_bytes <$> ["apply_patch"; "applypatch"; "codex-execve-wrapper"]%string) then
              if negb (is_symlink m) || (4096 <? mt_len m) then unsafe
              else
                let? target := of_option UnsafeWorkspace (nd_link child) in
                ensure (bool_decide (target = alias_target))
            else unsafe in
          let? nodes := of_option UnsafeWorkspace (checked_add u64_max nodes 1) in
          let? bytes_ := of_option UnsafeWorkspace (checked_add u64_max bytes_ (mt_len m)) in
          audit_aliases euid alias_target children (child_name :: seen) nodes bytes_
  end.

Definition audit_arg0_scratch (euid : Z) (alias_target : text) (arg0 : Node) : result SparkError (Z * Z) :=
  let? entries := of_option UnsafeWorkspace (nd_children arg0) in
  match entries with
  | [] => Ok (0, 0)
  | entry :: entries =>
      let? entry := of_option UnsafeWorkspace entry in
      if negb (bool_decide (entries = [])) then unsafe
      else
        let? name := of_option UnsafeWorkspace (nd_name entry) in
        if negb (has_prefix (ascii_bytes "codex-arg0") name) then unsafe
        else
          let suffix := drop 10 name in
          if negb (length suffix =? 6)%nat || negb (forallb is_ascii_alphanumeric suffix) then unsafe
          else
            let? m := of_option UnsafeWorkspace (nd_metadata entry) in
            if negb (is_dir m) || negb (mt_uid m =? euid) || negb (mt_mode m =? MODE_755) then unsafe
            else
              let? children := of_option UnsafeWorkspace (nd_children entry) in
              audit_aliases euid alias_target children [] 1 0
  end.

Section audit.
Context (self : SparkWorkspaceMonitor) (euid : Z).

(** [nodes.checked_add(n)] and the limit after it *)
Definition add_nodes (nodes n : Z) : result SparkError Z :=
  let? nodes := of_option UnsafeWorkspace (checked_add u64_max nodes n) in
  if SPARK_MAX_WORKSPACE_NODES <? nodes then unsafe else Ok nodes.
Definition add_bytes (bytes_ n : Z) : result SparkError Z :=
  let? bytes_ := of_option UnsafeWorkspace (checked_add u64_max bytes_ n) in
  if bytes_ <=? SPARK_MAX_WORKSPACE_BYTES then Ok bytes_ else unsafe.

(** A directory of the root; the node itself is counted already. *)
Definition audit_directory (name : text) (m : Metadata) (entry : Node) (nodes bytes_ : Z) : result SparkError (Z * Z) :=
  if bool_decide (name = ascii_bytes "skills") then
    if negb (private_directory_matches euid MODE_500 (wm_skills_identity self) m) then unsafe
    else
      let? children := of_option UnsafeWorkspace (nd_children entry) in
      if bool_decide (children = []) then Ok (nodes, bytes_) else unsafe
  else if bool_decide (name = ascii_bytes "tmp") then
    if negb (private_directory_matches euid MODE_500 (wm_tmp_identity self) m) then unsafe
    else
      let? children := of_option UnsafeWorkspace (nd_children entry) in
      match children with
      | Some child :: more =>
          if negb (bool_decide (more = [])) || negb (bool_decide (nd_name child = Some (ascii_bytes "arg0")))
             || negb (match nd_metadata child with
                      | Some m => private_directory_matches euid MODE_700 (wm_arg0_identity self) m
                      | None => false
                      end)
          then unsafe
          else
            let? arg0 := audit_arg0_scratch euid (wm_alias_target self) child in
            let? nodes := of_option UnsafeWorkspace (checked_add u64_max nodes (1 + arg0.1)) in
            let? bytes_ := add_bytes bytes_ arg0.2 in
            if SPARK_MAX_WORKSPACE_NODES <? nodes then unsafe else Ok (nodes, bytes_)
      | _ => unsafe
      end
  else unsafe.

(** The size that a file of this name may have, after its other checks. *)
Definition file_limit (name : text) (m : Metadata) (failed : SparkError) : result SparkError Z :=
  if bool_decide (name = ascii_bytes "auth.json") then
    if negb (match wm_auth_identity self with Some identity => identity_matches identity m | None => false end)
       || negb (mt_mode m =? MODE_400)
    then Err failed
    else if (mt_len m =? 0) || (MAX_AUTH_BYTES <? mt_len m) then Err failed else Ok MAX_AUTH_BYTES
  else if bool_decide (name = ascii_bytes ".sandbox_migration") then
    if negb (identity_matches (wm_sandbox_marker_identity self) m) || negb (mt_mode m =? MODE_400) || negb (mt_len m =? 3)
    then unsafe else Ok 3
  else if negb (Z.land (mt_mode m) MODE_133 =? 0) then unsafe
  else of_option UnsafeWorkspace (runtime_file_limit name).

Definition audit_entry (entry : option Node) (nodes bytes_ : Z) : result SparkError (Z * Z) :=
  let? entry := of_option UnsafeWorkspace entry in
  let? name := of_option UnsafeWorkspace (nd_name entry) in
  let? m := of_option UnsafeWorkspace (nd_metadata entry) in
  let is_auth := bool_decide (name = ascii_bytes "auth.json") && bool_decide (is_Some (wm_auth_identity self)) in
  let failed := if is_auth then Authentication else UnsafeWorkspace in
  let? nodes := add_nodes nodes 1 in
  if negb (mt_uid m =? euid) then Err failed
  else if is_auth && negb (is_file m) then Err Authentication
  else if is_dir m then audit_directory name m entry nodes bytes_
  else if negb (is_file m) || negb (mt_nlink m =? 1) then Err failed
  else
    let? limit := file_limit name m failed in
    if limit <? mt_len m then unsafe
    else
      let? bytes_ := add_bytes bytes_ (mt_len m) in
      Ok (nodes, bytes_).

Fixpoint audit_entries (entries : list (option Node)) (nodes bytes_ : Z) : result SparkError (Z * Z) :=
  match entries with
  | [] => Ok (nodes, bytes_)
  | entry :: entries =>
      let? counted := audit_entry entry nodes bytes_ in
      audit_entries entries counted.1 counted.2
  end.

End audit.

Definition audit (self : SparkWorkspaceMonitor) (ws : Workspace) : result SparkError (Z * Z) :=
  let euid := ws_euid ws in
  let? root := of_option UnsafeWorkspace (ws_root ws) in
  if negb (private_directory_matches euid MODE_700 (wm_root_identity self) root) then unsafe
  else
    let? entries := of_option UnsafeWorkspace (ws_entries ws) in
    let? counted := audit_entries self euid entries 1 0 in
    let? process_tmp := of_option UnsafeWorkspace (ws_process_tmp ws) in
    if negb (private_directory_matches euid MODE_700 (wm_process_tmp_identity self) process_tmp) then unsafe
    else
      let? remaining := of_option UnsafeWorkspace (ws_process_tmp_entries ws) in
      if negb (bool_decide (remaining = [])) then unsafe
      else
        let? nodes := add_nodes counted.1 1 in
        Ok (nodes, counted.2).

Definition note_audit (nodes bytes_ : Z) (self : SparkWorkspaceMonitor) : SparkWorkspaceMonitor :=
  mk_monitor (wm_root_identity self) (wm_auth_identity self) (wm_sandbox_marker_identity self) (wm_skills_identity self)
    (wm_tmp_identity self) (wm_arg0_identity self) (wm_process_tmp_identity self) (wm_alias_target self)
    (Z.max (wm_max_nodes self) nodes) (Z.max (wm_max_bytes self) bytes_).

(** [check]: up to three audits, a millisecond apart; [at_ k] is what the [k]th finds. *)
Fixpoint check_from (self : SparkWorkspaceMonitor) (at_ : nat → Workspace) (attempt retries : nat) : result SparkError SparkWorkspaceMonitor :=
  match audit self (at_ attempt), retries with
  | Ok (nodes, bytes_), _ => Ok (note_audit nodes bytes_ self)
  | Err e, S retries => check_from self at_ (S attempt) retries
  | Err e, O => Err e
  end.
Definition check (self : SparkWorkspaceMonitor) (at_ : nat → Workspace) : result SparkError SparkWorkspaceMonitor :=
  check_from self at_ 0 2.

(** ** The credential and the output file *)

(** A file that opens: its metadata and its bytes. *)
Record OpenFile := mk_open_file { of_metadata : Metadata; of_bytes : bytes }.

(** [open_auth]; [file] is [None] when a check of its path or the opening fails. *)
Definition open_auth (euid : Z) (file : option OpenFile) : result SparkError OpenFile :=
  let? file := of_option Authentication file in
  let m := of_metadata file in
  if negb (is_file m) || negb (mt_uid m =? euid) || negb (Z.land (mt_mode m) 63 =? 0) || (mt_len m =? 0) || (MAX_AUTH_BYTES <? mt_len m)
  then Err Authentication else Ok file.

Definition not_space (b : Z) : bool := negb (is_ascii_whitespace b).

Definition read_auth_bytes `{PromptSerde} (file : OpenFile) : result SparkError bytes :=
  let b := of_bytes file in
  let visible := filter (λ x, not_space x = true) b in
  if bool_decide (b = []) || (MAX_AUTH_BYTES <? blen b) || negb (bool_decide (head visible = Some 123))
     || negb (bool_decide (last visible = Some 125)) || negb (is_json_value b)
  then Err Authentication else Ok b.

Record AuthSnapshot := mk_auth_snapshot { as_bytes : bytes; as_identity : FileIdentity; as_digest : bytes }.

Definition load_auth `{Crypto, PromptSerde} (euid : Z) (file : option OpenFile) : result SparkError AuthSnapshot :=
  let? file := open_auth euid file in
  let? b := read_auth_bytes file in
  Ok (mk_auth_snapshot b (identity_of (of_metadata file)) (sha256 b)).

Definition verify_source `{Crypto, PromptSerde} (self : AuthSnapshot) (euid : Z) (file : option OpenFile) : result SparkError unit :=
  let? file := open_auth euid file in
  if negb (identity_matches (as_identity self) (of_metadata file)) then Err Authentication
  else
    let? b := read_auth_bytes file in
    if bool_decide (sha256 b = as_digest self) then Ok tt else Err Authentication.

Definition open_output_for_read (euid : Z) (file : option OpenFile) : result SparkError OpenFile :=
  let? file := of_option InvalidOutput file in
  if negb (is_file (of_metadata file)) || negb (mt_uid (of_metadata file) =? euid) then Err InvalidOutput else Ok file.

(** [OutputFileMonitor::check] *)
Definition check_output (identity : FileIdentity) (euid : Z) (file : option OpenFile) : result SparkError unit :=
  let? file := open_output_for_read euid file in
  if negb (identity_matches identity (of_metadata file)) then Err InvalidOutput
  else if MAX_SUMMARY_DOCUMENT_BYTES <? mt_len (of_metadata file) then Err OutputTooLarge else Ok tt.

(** [AuthCopyMonitor::check] *)
Definition check_auth_copy (identity : FileIdentity) (euid : Z) (file : option Metadata) : result SparkError unit :=
  let? m := of_option Authentication file in
  if negb (is_file m) || negb (mt_uid m =? euid) || negb (mt_mode m =? MODE_400) || negb (identity_matches identity m)
     || (mt_len m =? 0) || (MAX_AUTH_BYTES <? mt_len m)
  then Err Authentication else Ok tt.

Definition read_bounded_output (identity : FileIdentity) (euid : Z) (file : option OpenFile) : result SparkError bytes :=
  let? file := open_output_for_read euid file in
  if negb (identity_matches identity (of_metadata file)) || (mt_len (of_metadata file) =? 0) then Err InvalidOutput
  else if MAX_SUMMARY_DOCUMENT_BYTES <? mt_len (of_metadata file) then Err OutputTooLarge
  else if MAX_SUMMARY_DOCUMENT_BYTES <? blen (of_bytes file) then Err OutputTooLarge else Ok (of_bytes file).

(** The runtime's databases: what is found of each of them, and the number of rows that each
    query gives. *)
Inductive Database := NoDatabase | Unopenable | Tables (rows : text → option Z).

Definition DATABASE_TABLES : list (text * list text) :=
  [(ascii_bytes "goals_1.sqlite", ascii_bytes <$> ["thread_goals"; "thread_goal_continuation_deferrals"]%string);
   (ascii_bytes "memories_1.sqlite", ascii_bytes <$> ["jobs"; "stage1_outputs"]%string);
   (ascii_bytes "logs_2.sqlite", [ascii_bytes "logs"]);
   (ascii_bytes "state_5.sqlite",
    ascii_bytes <$> ["external_agent_config_imports"; "remote_control_enrollments"; "thread_dynamic_tools"; "thread_spawn_edges"; "threads"]%string)].

Definition validate_database (database : Database) (tables : list text) : bool :=
  match database with
  | NoDatabase => true
  | Unopenable => false
  | Tables rows => forallb (λ t, bool_decide (rows t = Some 0)) tables
  end.
Definition validate_runtime_databases (databases : text → Database) : result SparkError unit :=
  ensure (forallb (λ d, validate_database (databases d.1) d.2) DATABASE_TABLES).

(** ** The document *)

Definition redact_text (s : text) : result SparkError text :=
  match redact_sensitive_text s with Ok t => Ok t | Err _ => Err SparkPanic end.

Fixpoint redact_all (l : list text) : result SparkError (list text) :=
  match l with
  | [] => Ok []
  | s :: l => let? s := redact_text s in let? l := redact_all l in Ok (s :: l)
  end.

Definition redact_document (d : SummaryDocument) : result SparkError SummaryDocument :=
  let? facts := redact_all (sd_facts d) in
  let? pending := redact_all (sd_pending d) in
  let? decisions := redact_all (sd_decisions d) in
  let? quotes := redact_all (se_exact_quote <$> sd_source_evidence d) in
  let? spoken_text := redact_text (sd_spoken_text d) in
  Ok (mk_document (sd_schema d) facts pending decisions spoken_text
        (zip_with mk_evidence (se_completion_id <$> sd_source_evidence d) quotes) (sd_covers_new_completions d)).

(** The part of [run_with_cancel_report] after the process has ended well. *)
Definition take_document `{Externals, SummarySerde} (expected_covers : list text) (b : bytes) : result SparkError SummaryDocument :=
  let? document := map_err (λ _, InvalidOutput) (parse_document b) in
  let? _ := map_err (λ _, InvalidOutput) (validate_expected_covers expected_covers document) in
  let? document := redact_document document in
  let? _ := map_err (λ _, InvalidOutput) (validate_expected_covers expected_covers document) in
  Ok document.

(** ** The process *)

Record ExitStatus := mk_status { es_code : option Z; es_signal : option Z }.
Definition success (s : ExitStatus) : bool := bool_decide (es_code s = Some 0).

(** A process that lives: its process group, and the ends of the child's pipes it holds (it
    reads the standard input, and writes the other two). *)
Record Process := mk_process { pr_group : Z; pr_stdin : bool; pr_stdout : bool; pr_stderr : bool }.

(** The processes that live, by their number, and whether the child was waited for. *)
Record System := mk_system { sy_alive : gmap Z Process; sy_waited : bool }.

(** [libc::kill(-group, SIGKILL)], [Child::kill] and [Child::wait], which blocks while the
    child lives ([None]). *)
Definition kill_group (group : Z) (sys : System) : System :=
  mk_system (filter (λ p, pr_group p.2 ≠ group) (sy_alive sys)) (sy_waited sys).
Definition child_kill (child : Z) (sys : System) : System := mk_system (delete child (sy_alive sys)) (sy_waited sys).
Definition child_wait (child : Z) (sys : System) : option System :=
  match sy_alive sys !! child with Some _ => None | None => Some (mk_system (sy_alive sys) true) end.

Record ChildGuard := mk_guard { cg_child : option Z; cg_process_group : Z }.

(** [ChildGuard::new]; [kill_and_wait] is [drop] as well. *)
Definition new_guard (child process_group : Z) : ChildGuard := mk_guard (Some child) process_group.
Definition kill_and_wait (self : ChildGuard) (sys : System) : option (ChildGuard * System) :=
  match cg_child self with
  | None => Some (self, sys)
  | Some child =>
      let sys := kill_group (cg_process_group self) sys in
      let sys := child_kill child sys in
      sys ← child_wait child sys;
      Some (mk_guard None (cg_process_group self), sys)
  end.
Definition disarm (self : ChildGuard) (sys : System) : ChildGuard * System :=
  (mk_guard None (cg_process_group self), kill_group (cg_process_group self) sys).
Definition into_child (self : ChildGuard) : result SparkError Z * ChildGuard :=
  (of_option SparkPanic (cg_child self), mk_guard None (cg_process_group self)).

(** What a call of [read] on a pipe gives; no bytes are the end of the pipe.  After the last
    of them [read] gives the end of the pipe when no process can write to it any more
    ([closed]), and blocks otherwise: a thread that is blocked has no result. *)
Inductive PipeRead := PipeBytes (chunk : bytes) | PipeInterrupted | PipeFailed.

(** [drain_bounded] *)
Fixpoint drain_bounded (limit total : Z) (reads : list PipeRead) (closed : bool) : option Z :=
  match reads with
  | [] => if closed then Some OUTPUT_OK else None
  | PipeBytes [] :: _ => Some OUTPUT_OK
  | PipeBytes chunk :: reads =>
      match checked_add u64_max total (blen chunk) with
      | Some total => if total <=? limit then drain_bounded limit total reads closed else Some OUTPUT_TOO_LARGE
      | None => Some OUTPUT_TOO_LARGE
      end
  | PipeInterrupted :: reads => drain_bounded limit total reads closed
  | PipeFailed :: _ => Some OUTPUT_IO
  end.

(** [read_stderr]: what is beyond the limit is read and dropped. *)
Fixpoint read_stderr (limit : nat) (output : bytes) (reads : list PipeRead) (closed : bool) : option bytes :=
  match reads with
  | [] => if closed then Some output else None
  | PipeFailed :: _ | PipeBytes [] :: _ => Some output
  | PipeBytes chunk :: reads => read_stderr limit (output ++ take (limit - length output) chunk) reads closed
  | PipeInterrupted :: reads => read_stderr limit output reads closed
  end.

(** The thread that writes the prompt: what [write_all] and [flush] give, or [None] when the
    pipe is full and nothing reads from it any more; the write then fails once no process can
    read from it. *)
Definition write_prompt (written : option bool) (closed : bool) : option bool :=
  match written with Some succeeded => Some succeeded | None => if closed then Some false else None end.

(** [u8::to_ascii_lowercase] *)
Definition ascii_lower (b : Z) : Z := if (65 <=? b) && (b <=? 90) then b + 32 else b.
Definition contains_ascii_case_insensitive (needle haystack : bytes) : bool :=
  contains (ascii_lower <$> needle) (ascii_lower <$> haystack).

Definition classify_stderr (stderr : bytes) : SparkError :=
  let has s := contains_ascii_case_insensitive (ascii_bytes s) stderr in
  let has_code s := contains (ascii_bytes s) stderr in
  if has "not logged in"%string || has "authentication"%string || has "unauthorized"%string || has_code "401"%string
  then Authentication
  else if has_code "429"%string || has "rate limit"%string || has "usage limit"%string then RateLimited
  else if has "file size limit"%string || has "sigxfsz"%string || has "signal: 25"%string then ResourceLimit
  else if has "model"%string
          && (has "not found"%string || has "not supported"%string || has "unavailable"%string || has "does not exist"%string
              || has "no access"%string)
  then ModelUnavailable
  else if has "permission denied"%string || has "failed to initialize"%string || has "no space left"%string then LocalRuntime
  else if has_code "500"%string || has_code "502"%string || has_code "503"%string || has_code "504"%string
          || has "service unavailable"%string || has "server error"%string || has "stream disconnected"%string
          || has "error sending request"%string || has "connection reset"%string
  then ServiceUnavailable
  else if bool_decide (stderr = []) then SilentExitFailure
  else ExitFailure.

Inductive ChildState := Running | Exited (s : ExitStatus) | WaitFailed.

(** What a turn of the watching loop finds: the copied credential, the output file, the
    workspace (at each of the three audits), the processes that live, what [try_wait] answers,
    the state of the stdout thread, and whether the deadline has passed and the run is
    cancelled. *)
Record Poll := mk_poll {
  po_auth : option Metadata; po_output : option OpenFile; po_workspace : nat → Workspace;
  po_processes : gmap Z Process; po_child : ChildState; po_output_state : Z; po_deadline : bool; po_cancelled : bool;
}.

Record Watched := mk_watched { wt_auth : FileIdentity; wt_output : FileIdentity; wt_euid : Z }.

(** The loop of [drive_child]: with the status that [try_wait] gave, or with the error after
    [guard.kill_and_wait()]; [None] while the loop still runs, or the guard waits. *)
Fixpoint watch (w : Watched) (guard : ChildGuard) (monitor : SparkWorkspaceMonitor) (polls : list Poll)
    : option (result SparkError ExitStatus * ChildGuard * System * SparkWorkspaceMonitor) :=
  match polls with
  | [] => None
  | p :: polls =>
      let stop monitor e :=
        '(guard, sys) ← kill_and_wait guard (mk_system (po_processes p) false);
        Some (Err e, guard, sys, monitor) in
      match check_auth_copy (wt_auth w) (wt_euid w) (po_auth p) with
      | Err e => stop monitor e
      | Ok _ =>
          match check_output (wt_output w) (wt_euid w) (po_output p) with
          | Err e => stop monitor e
          | Ok _ =>
              match check monitor (po_workspace p) with
              | Err e => stop monitor e
              | Ok monitor =>
                  match po_child p with
                  | Exited s => Some (Ok s, guard, mk_system (po_processes p) true, monitor)
                  | WaitFailed => stop monitor ProcessIo
                  | Running =>
                      if po_output_state p =? OUTPUT_TOO_LARGE then stop monitor OutputTooLarge
                      else if po_output_state p =? OUTPUT_IO then stop monitor ProcessIo
                      else if po_deadline p then stop monitor SparkTimeout
                      else if po_cancelled p then stop monitor Cancelled
                      else watch w guard monitor polls
                  end
              end
          end
      end
  end.

(** The pipes: what the three threads meet, and what becomes of the processes that the guard
    left, while the threads are waited for ([pp_later]). *)
Record Pipes := mk_pipes {
  pp_stdout : list PipeRead; pp_stderr : list PipeRead; pp_stdin : option bool;
  pp_later : gmap Z Process → gmap Z Process;
}.

(** No process holds this end. *)
Definition closed (holds : Process → bool) (alive : gmap Z Process) : bool :=
  bool_decide (map_Forall (λ _ p, holds p = false) alive).

(** [join_io_threads], and the joins after the loop: [None] while one of the threads is
    blocked. *)
Definition join_io_threads (pipes : Pipes) (sys : System) : option (Z * bytes * bool) :=
  let alive := pp_later pipes (sy_alive sys) in
  stdout ← drain_bounded MAX_STDOUT_BYTES 0 (pp_stdout pipes) (closed pr_stdout alive);
  stderr ← read_stderr (Z.to_nat MAX_STDERR_BYTES) [] (pp_stderr pipes) (closed pr_stderr alive);
  stdin ← write_prompt (pp_stdin pipes) (closed pr_stdin alive);
  Some (stdout, stderr, stdin).

Definition judge (status : ExitStatus) (joined : Z * bytes * bool) : result SparkError unit :=
  let '(stdout_result, stderr, stdin_succeeded) := joined in
  if stdout_result =? OUTPUT_TOO_LARGE then Err OutputTooLarge
  else if negb (stdout_result =? OUTPUT_OK) || negb stdin_succeeded then Err ProcessIo
  else if success status then Ok tt
  else if bool_decide (is_Some (es_signal status)) then Err ExitFailure
  else Err (classify_stderr stderr).

(** How the watching ended: the status when the child ended by itself, and the processes when
    the guard had done its work. *)
Record ChildEnd := mk_child_end { ce_status : option ExitStatus; ce_left : System }.

(** How far a call has come: it still watches the child; it waits for the threads of the
    pipes; it has returned. *)
Inductive Progress (A : Type) := Watching | Joining (end_ : ChildEnd) | Done (a : A) (end_ : option ChildEnd).
Arguments Watching {_}.
Arguments Joining {_} _.
Arguments Done {_} _ _.

Definition drive_child (w : Watched) (child : Z) (monitor : SparkWorkspaceMonitor) (polls : list Poll) (pipes : Pipes)
    : Progress (result SparkError unit * SparkWorkspaceMonitor) :=
  match watch w (new_guard child child) monitor polls with
  | None => Watching
  | Some (status, guard, sys, monitor) =>
      let '(guard, sys) := match status with Ok _ => disarm guard sys | Err _ => (guard, sys) end in
      let ended sys := mk_child_end (match status with Ok s => Some s | Err _ => None end) sys in
      match join_io_threads pipes sys with
      | None => Joining (ended sys)
      | Some joined =>
          match kill_and_wait guard sys with
          | None => Watching
          | Some (_, sys) => Done (match status with Ok s => judge s joined | Err e => Err e end, monitor) (Some (ended sys))
          end
      end
  end.

(** ** The run *)

(** The files that [SparkRunFiles::create] leaves open or creates, as they are looked at. *)
Record SparkRunFiles := mk_run_files {
  rf_auth : option Metadata; rf_output : option Metadata; rf_sandbox_marker : option Metadata;
  rf_root : option Metadata; rf_skills : option Metadata; rf_home_tmp : option Metadata; rf_home_arg0 : option Metadata;
  rf_process_tmp : option Metadata;
}.

(** [trusted_executable_path]: the canonical path, when the file passes the checks. *)
Definition trusted_executable_path (euid : Z) (executable : option (text * Metadata)) : result SparkError text :=
  let? found := of_option CliMissing executable in
  let m := found.2 in
  if negb (is_file m) || negb (mt_uid m =? euid) && negb (mt_uid m =? 0) || negb (Z.land (mt_mode m) 18 =? 0)
     || (Z.land (mt_mode m) 73 =? 0)
  then Err CliMissing else Ok found.1.

Definition private_directory_identity (euid mode : Z) (directory : option Metadata) : result SparkError FileIdentity :=
  let? m := of_option UnsafeWorkspace directory in
  if private_directory_matches euid mode (identity_of m) m then Ok (identity_of m) else unsafe.

(** [SparkWorkspaceMonitor::new] *)
Definition new_monitor (euid : Z) (files : SparkRunFiles) (executable : option (text * Metadata)) (at_ : nat → Workspace)
    : result SparkError SparkWorkspaceMonitor :=
  let? root := private_directory_identity euid MODE_700 (rf_root files) in
  let? skills := private_directory_identity euid MODE_500 (rf_skills files) in
  let? tmp := private_directory_identity euid MODE_500 (rf_home_tmp files) in
  let? arg0 := private_directory_identity euid MODE_700 (rf_home_arg0 files) in
  let? process_tmp := private_directory_identity euid MODE_700 (rf_process_tmp files) in
  let? auth := of_option UnsafeWorkspace (rf_auth files) in
  let? marker := of_option UnsafeWorkspace (rf_sandbox_marker files) in
  let? alias_target := trusted_executable_path euid executable in
  check (mk_monitor root (Some (identity_of auth)) (identity_of marker) skills tmp arg0 process_tmp alias_target 0 0) at_.

(** What a run meets, in the order in which it meets it. *)
Record SparkWorld := mk_world {
  sw_euid : Z; sw_auth : option OpenFile; sw_temp_root_secured : bool; sw_created : result SparkError SparkRunFiles;
  sw_auth_again : option OpenFile; sw_executable : option (text * Metadata); sw_before : nat → Workspace;
  sw_cancelled : bool; sw_spawned : result SparkError Z; sw_polls : list Poll; sw_pipes : Pipes;
  sw_after : nat → Workspace; sw_databases : text → Database; sw_auth_last : option OpenFile; sw_output : option OpenFile;
}.

Record SparkRunOutcome := mk_outcome { so_document : SummaryDocument; so_max_nodes : Z; so_max_bytes : Z }.

Section run.
Context `{Externals, Crypto, SummarySerde, PromptSerde}.

(** Up to the start of the process: the prompt, the snapshot of the credential, what is
    watched, the monitor and the number of the process, which leads its own group. *)
Definition prepare_run (claim : SummaryClaim) (previous_unheard : option SummaryDocument) (world : SparkWorld)
    : result SparkError (bytes * AuthSnapshot * Watched * SparkWorkspaceMonitor * Z) :=
  let? _ := validate_claim_input claim previous_unheard in
  let? prompt := build_prompt claim previous_unheard in
  let? auth := load_auth (sw_euid world) (sw_auth world) in
  let? _ := ensure (sw_temp_root_secured world) in
  let? files := sw_created world in
  let? _ := verify_source auth (sw_euid world) (sw_auth_again world) in
  let? output := of_option InvalidOutput (rf_output files) in
  let? copy := of_option Authentication (rf_auth files) in
  let? monitor := new_monitor (sw_euid world) files (sw_executable world) (sw_before world) in
  if sw_cancelled world then Err Cancelled
  else
    let? child := sw_spawned world in
    Ok (prompt, auth, mk_watched (identity_of copy) (identity_of output) (sw_euid world), monitor, child).

(** After the process has ended well. *)
Definition finish_run (claim : SummaryClaim) (world : SparkWorld) (auth : AuthSnapshot) (w : Watched)
    (monitor : SparkWorkspaceMonitor) : result SparkError SparkRunOutcome :=
  let? monitor := check monitor (sw_after world) in
  let? _ := validate_runtime_databases (sw_databases world) in
  let? _ := verify_source auth (sw_euid world) (sw_auth_last world) in
  let? b := read_bounded_output (wt_output w) (wt_euid w) (sw_output world) in
  let? document := take_document (pc_completion_id <$> sc_completions claim) b in
  Ok (mk_outcome document (wm_max_nodes monitor) (wm_max_bytes monitor)).

(** The prompt goes to the child's standard input; the guard of the start gives the child up
    to [drive_child].  With the result comes how the watching ended, when a child was
    started. *)
Definition run_with_cancel_report (claim : SummaryClaim) (previous_unheard : option SummaryDocument) (world : SparkWorld)
    : Progress (result SparkError SparkRunOutcome) :=
  match prepare_run claim previous_unheard world with
  | Err e => Done (Err e) None
  | Ok (_, auth, w, monitor, child) =>
      match (into_child (new_guard child child)).1 with
      | Err e => Done (Err e) None
      | Ok child =>
          match drive_child w child monitor (sw_polls world) (sw_pipes world) with
          | Watching => Watching
          | Joining end_ => Joining end_
          | Done (driven, monitor) end_ =>
              Done (match driven with
                    | Err e => Err e
                    | Ok _ => finish_run claim world auth w monitor
                    end) end_
          end
      end
  end.

End run.
