(* ===== verification/Catalog.v ===== *)
(** * The task catalogue (app/host/src/codex_catalog.rs)

    The tasks of the Codex application that the host may use: the pinned ones in the order of
    the sidebar, then the most recent ones.  What the files and the snapshot of the database
    answer is [CatalogFiles]; what is read from them, the query's conditions included, is
    decided here.  Text is UTF-8. *)

From stdpp Require Import gmap.
From S2P Require Import Prelude Bytes StrOps Sql StoreTypes Redact TurnPack.

Definition MAX_SESSION_INDEX_LINES : nat := 2048.
Definition MAX_SESSION_INDEX_LINE_BYTES : Z := 64 * 1024.
Definition MAX_PINNED_CANDIDATES : nat := 64.
Definition MAX_RECENT_CANDIDATES : nat := 64.
Definition CATALOG_READ_ATTEMPTS : nat := 4.
Definition MAX_PINNED_TASKS : nat := 16.
Definition MAX_RECENT_TASKS : nat := 8.
Definition MAX_TASK_NAME_CHARS : nat := 96.
Definition MAX_PROJECT_NAME_CHARS : nat := 64.

Inductive CatalogError := CatalogIo | CatalogSqlite | InvalidIndex | IndexTooLarge | UnsafePath | NotAllowlisted.
#[export] Instance CatalogError_eq_dec : EqDecision CatalogError.
Proof. solve_decision. Defined.

Record CodexTask := mk_task {
  ct_task_id : text; ct_name : text; ct_project : text; ct_cwd : path; ct_rollout_path : path;
  ct_updated_at_ms : Z; ct_pinned : bool;
}.

Record DatabaseTask := mk_db_task {
  dt_name : text; dt_title : text; dt_cwd : path; dt_rollout_path : path; dt_updated_at_ms : Z;
}.
Record DatabaseCatalog := mk_db_catalog {
  dc_pinned : gmap text DatabaseTask; dc_recent : list (text * DatabaseTask);
}.

(** The columns of the table [threads] that the query reads. *)
Record ThreadRow := mk_thread {
  th_id : text; th_name : option text; th_title : option text; th_cwd : option text;
  th_rollout_path : option text; th_archived : option Z; th_recency_at_ms : option Z;
  th_updated_at_ms : option Z; th_updated_at : option Z; th_source : option text;
  th_thread_source : option text; th_agent_role : option text;
}.
Record RawDatabaseRow := mk_raw {
  rr_id : text; rr_name : text; rr_title : text; rr_cwd : text; rr_rollout_path : text;
  rr_updated : Z; rr_source : text; rr_thread_source : text; rr_agent_role : text;
}.

(** What one reading of the files answers: the global state, the session index and whether it
    was replaced meanwhile, the snapshot of the database and whether the database changed
    meanwhile, and whether a rollout file is there and trusted. *)
Record CatalogFiles := mk_files {
  cf_global : result CatalogError bytes;
  cf_index : result CatalogError bytes;
  cf_index_unchanged : result CatalogError unit;
  cf_threads : result CatalogError (list ThreadRow);
  cf_threads_unchanged : result CatalogError unit;
  cf_rollout_file : path → result CatalogError bool;
}.

(** [serde_json::from_slice::<SessionIndexRow>]: the id and the name. *)
Class IndexSerde := { session_index_row : bytes → option (text * text) }.

(** ** Texts *)

(** [value.chars().take(n).collect()] *)
Definition take_chars (n : nat) (s : text) : text := mjoin (take n (utf8_split s)).

Definition clean_text (value : text) (max_chars : nat) : text :=
  take_chars max_chars (join_spaces (split_whitespace (filter (λ b, b ≠ 0) value))).

(** Lowering a character that is not ASCII gives no letter of the prefix. *)
Definition is_internal_task_name (value : text) : bool :=
  has_prefix (ascii_bytes "the following is the codex agent history whose request action") (lowercase value).

Definition eq_ignore_ascii_case (a b : text) : bool := bool_decide (lowercase a = lowercase b).

(** [Path::file_name]: the last component, when it is a name. *)
Definition path_file_name (p : path) : option text :=
  match last (path_components p).2 with
  | Some c => if bool_decide (c = [46; 46]) then None else Some c
  | None => None
  end.

(** ** The query *)

(** [length] and [substr] of SQLite stop at a zero byte. *)
Definition before_nul (s : text) : text :=
  match list_find (λ b, b = 0) s with Some (i, _) => take i s | None => s end.
Definition sql_length (s : text) : Z := Z.of_nat (length (utf8_split (before_nul s))).
Definition sql_substr (n : N) (s : text) : text := take_chars (N.to_nat n) (before_nul s).

Definition length_between (lo hi : Z) (s : option text) : bool :=
  match s with Some s => (lo <=? sql_length s) && (sql_length s <=? hi) | None => false end.

(** [BOUNDED_THREAD_PREDICATE] *)
Definition bounded_thread (r : ThreadRow) : bool :=
  bool_decide (th_archived r = Some 0) && length_between 1 36 (Some (th_id r))
  && (sql_length (default [] (th_name r)) <=? 4096) && (sql_length (default [] (th_title r)) <=? 4096)
  && length_between 1 4096 (th_cwd r) && length_between 1 4096 (th_rollout_path r)
  && (sql_length (default [] (th_source r)) <=? 8192)
  && (sql_length (default [] (th_thread_source r)) <=? 64)
  && (sql_length (default [] (th_agent_role r)) <=? 256).

(** [MAX(..)] of three integers; a product out of range is a floating-point number, which is
    refused when it is the result. *)
Definition sql_updated (r : ThreadRow) : result CatalogError Z :=
  let a := Z.max (default 0 (th_recency_at_ms r)) (default 0 (th_updated_at_ms r)) in
  let c := default 0 (th_updated_at r) * 1000 in
  if i64_max <? c then Err InvalidIndex
  else if c <? - i64_max - 1 then Ok a else Ok (Z.max a c).

(** [database_row_from_sql] on [THREAD_COLUMNS] *)
Definition database_row_from_sql (r : ThreadRow) : result CatalogError RawDatabaseRow :=
  let? cwd := of_option InvalidIndex (th_cwd r) in
  let? rollout := of_option InvalidIndex (th_rollout_path r) in
  let? updated := sql_updated r in
  Ok (mk_raw (th_id r) (sql_substr 4096%N (default [] (th_name r))) (sql_substr 4096%N (default [] (th_title r)))
        (sql_substr 4096%N cwd) (sql_substr 4096%N rollout) updated (sql_substr 8192%N (default [] (th_source r)))
        (sql_substr 64%N (default [] (th_thread_source r))) (sql_substr 256%N (default [] (th_agent_role r)))).

(** [ORDER BY recency_at_ms DESC, id DESC] *)
Definition more_recent (a b : ThreadRow) : bool :=
  let ra := default 0 (th_recency_at_ms a) in
  let rb := default 0 (th_recency_at_ms b) in
  (rb <? ra) || ((rb =? ra) && bytes_leb (th_id b) (th_id a)).

Section catalog.
Context `{Externals, Serde, IndexSerde} (codex_home : path).

(** ** Rows *)

Definition is_user_owned_thread (source thread_source agent_role : text) : bool :=
  if negb (length (trim agent_role) =? 0)%nat || eq_ignore_ascii_case (trim thread_source) (ascii_bytes "subagent")
  then false
  else
    let source := trim source in
    if eq_ignore_ascii_case source (ascii_bytes "subagent") then false
    else if head_is (Z.eqb 123) source then
      match json_from_slice source with
      | None => false
      | Some value =>
          match as_object value with
          | Some object => bool_decide (get (key "subagent") object = None)
          | None => true
          end
      end
    else true.

(** The path must lie under [sessions]; the file itself is the file system's answer. *)
Definition validate_rollout_path (file : path → result CatalogError bool) (p : path) : result CatalogError bool :=
  let sessions := path_components codex_home in
  let parts := path_components p in
  if negb (is_absolute p)
     || negb (bool_decide (sessions.1 = parts.1)
              && bool_decide (take (length sessions.2 + 1) parts.2 = sessions.2 ++ [ascii_bytes "sessions"]))
     || bool_decide ([46; 46] ∈ parts.2)
  then Ok false
  else file p.

Definition validate_database_row (file : path → result CatalogError bool) (row : RawDatabaseRow)
    : result CatalogError (option (text * DatabaseTask)) :=
  if negb (uuid_ok (rr_id row)) || (rr_updated row <? 0)
     || negb (is_user_owned_thread (rr_source row) (rr_thread_source row) (rr_agent_role row))
  then Ok None
  else
    let? valid := validate_rollout_path file (rr_rollout_path row) in
    if negb (valid : bool) then Ok None
    else Ok (Some (rr_id row, mk_db_task (rr_name row) (rr_title row) (rr_cwd row) (rr_rollout_path row) (rr_updated row))).

Fixpoint read_pinned (file : path → result CatalogError bool) (threads : list ThreadRow) (ids : list text)
    (pinned : gmap text DatabaseTask) : result CatalogError (gmap text DatabaseTask) :=
  match ids with
  | [] => Ok pinned
  | id :: ids =>
      match query_row (λ r, th_id r = id ∧ bounded_thread r = true) threads with
      | None => read_pinned file threads ids pinned
      | Some r =>
          let? raw := database_row_from_sql r in
          let? row := validate_database_row file raw in
          read_pinned file threads ids (match row with Some (id, task) => <[id := task]> pinned | None => pinned end)
      end
  end.

Fixpoint read_recent (file : path → result CatalogError bool) (rows : list ThreadRow)
    : result CatalogError (list (text * DatabaseTask)) :=
  match rows with
  | [] => Ok []
  | r :: rows =>
      let? raw := database_row_from_sql r in
      let? row := validate_database_row file raw in
      let? recent := read_recent file rows in
      Ok (match row with Some row => row :: recent | None => recent end)
  end.

Definition recent_rows (threads : list ThreadRow) : list ThreadRow :=
  take MAX_RECENT_CANDIDATES (order_by more_recent
    (filter (λ r, th_recency_at_ms r ≠ None ∧ bounded_thread r = true) threads)).

Definition read_database (files : CatalogFiles) (pinned_ids : list text) : result CatalogError DatabaseCatalog :=
  let? threads := cf_threads files in
  let? pinned := read_pinned (cf_rollout_file files) threads (take MAX_PINNED_CANDIDATES pinned_ids) ∅ in
  let? recent := read_recent (cf_rollout_file files) (recent_rows threads) in
  let? _ := cf_threads_unchanged files in
  Ok (mk_db_catalog pinned recent).

(** ** The two index files *)

Definition read_global_state (files : CatalogFiles) : result CatalogError (list (text * json)) :=
  let? bytes := cf_global files in
  let? value := of_option InvalidIndex (json_from_slice bytes) in
  of_option InvalidIndex (as_object value).

(** [read_until]: the lines with their line feeds. *)
Fixpoint raw_lines (acc s : bytes) : list bytes :=
  match s with
  | [] => match acc with [] => [] | _ => [rev acc] end
  | b :: s => if b =? 10 then rev (b :: acc) :: raw_lines [] s else raw_lines (b :: acc) s
  end.

Fixpoint index_rows (budget : nat) (ls : list bytes) (names : gmap text text) : result CatalogError (gmap text text) :=
  match budget, ls with
  | O, [] | S _, [] => Ok names
  | O, _ :: _ => Err IndexTooLarge
  | S budget, line :: ls =>
      let? _ := require (blen line <=? MAX_SESSION_INDEX_LINE_BYTES) IndexTooLarge in
      let? row := of_option InvalidIndex (session_index_row line) in
      let? _ := require (uuid_ok row.1 && negb (length (trim row.2) =? 0)%nat) InvalidIndex in
      index_rows budget ls (<[row.1 := clean_text row.2 MAX_TASK_NAME_CHARS]> names)
  end.

Definition read_session_index (files : CatalogFiles) : result CatalogError (gmap text text) :=
  let? content := cf_index files in
  let? names := index_rows MAX_SESSION_INDEX_LINES (raw_lines [] content) ∅ in
  let? _ := cf_index_unchanged files in
  Ok names.

(** ** Pinned tasks *)

Definition push_new (id : text) (ids : list text) : list text := if bool_decide (id ∈ ids) then ids else ids ++ [id].

Fixpoint collect_pinned (values : list json) (pinned : list text) : result CatalogError (list text) :=
  match values with
  | [] => Ok pinned
  | v :: values =>
      let? task_id := of_option InvalidIndex (as_str v) in
      let? _ := require (uuid_ok task_id) InvalidIndex in
      collect_pinned values (push_new task_id pinned)
  end.

(** [value.strip_prefix("codex:thread:local:")] *)
Definition strip_thread (value : text) : option text :=
  let prefix := ascii_bytes "codex:thread:local:" in
  if has_prefix prefix value then Some (drop (length prefix) value) else None.

Fixpoint collect_order (values : list json) (pinned ordered : list text) : result CatalogError (list text) :=
  match values with
  | [] => Ok ordered
  | v :: values =>
      let? value := of_option InvalidIndex (as_str v) in
      collect_order values pinned
        match strip_thread value with
        | None => ordered
        | Some task_id =>
            if uuid_ok task_id && bool_decide (task_id ∈ pinned) then push_new task_id ordered else ordered
        end
  end.

Definition pinned_ids (global : list (text * json)) : result CatalogError (list text) :=
  match get (key "pinned-thread-ids") global with
  | None => Ok []
  | Some values =>
      let? values := of_option InvalidIndex (as_array values) in
      let? _ := require (length values <=? MAX_PINNED_CANDIDATES)%nat IndexTooLarge in
      let? pinned := collect_pinned values [] in
      match atoms ← get_object "electron-persisted-atom-state" global;
            order ← get (key "unified-sidebar-pinned-order-v1") atoms; as_array order with
      | None => Ok pinned
      | Some order =>
          let? ordered := collect_order order pinned [] in
          Ok (foldl (λ ordered task_id, push_new task_id ordered) ordered pinned)
      end
  end.

(** ** Projects *)

(** The last of the labels whose path is equal. *)
Fixpoint label_of (labels : list (path * text)) (p : path) : option text :=
  match labels with
  | [] => None
  | (q, label) :: labels =>
      match label_of labels p with
      | Some label' => Some label'
      | None => if path_eqb q p then Some label else None
      end
  end.

(** The entries of an object in the order of their keys, the last of equal keys. *)
Definition object_entries (fields : list (text * json)) : list (text * json) :=
  omap (λ k, v ← get k fields; Some (k, v))
    (merge_sort (λ a b, bytes_leb a b) (remove_dups fields.*1)).

Fixpoint collect_labels (entries : list (text * json)) : result CatalogError (list (path * text)) :=
  match entries with
  | [] => Ok []
  | (p, v) :: entries =>
      let? label := of_option InvalidIndex (as_str v) in
      let? labels := collect_labels entries in
      Ok (if (length (trim label) =? 0)%nat then labels else (p, clean_text label MAX_PROJECT_NAME_CHARS) :: labels)
  end.

Definition project_labels (global : list (text * json)) : result CatalogError (list (path * text)) :=
  match get_object "electron-workspace-root-labels" global with
  | None => Ok []
  | Some labels => collect_labels (object_entries labels)
  end.

(** ** The list *)

(** The text of a uuid has at least eight ASCII characters. *)
Definition build_task (task_id : text) (database : DatabaseTask) (index_name : option text)
    (labels : list (path * text)) (pinned : bool) : option CodexTask :=
  let fallback := default (take 8 task_id) (path_file_name (dt_cwd database)) in
  let names := option_list index_name ++ [dt_name database; dt_title database; fallback] in
  name ← head (filter (λ n, n ≠ []) ((λ n, clean_text n MAX_TASK_NAME_CHARS) <$> names));
  if is_internal_task_name name then None
  else
    let project := default [] (match label_of labels (dt_cwd database) with
      | Some label => Some label
      | None => (λ n, clean_text n MAX_PROJECT_NAME_CHARS) <$> path_file_name (dt_cwd database)
      end) in
    Some (mk_task task_id name project (dt_cwd database) (dt_rollout_path database) (dt_updated_at_ms database) pinned).

Fixpoint list_pinned (ids : list text) (database : DatabaseCatalog) (index : gmap text text)
    (labels : list (path * text)) (tasks : list CodexTask) : list CodexTask :=
  match ids with
  | [] => tasks
  | id :: ids =>
      match row ← dc_pinned database !! id; build_task id row (index !! id) labels true with
      | None => list_pinned ids database index labels tasks
      | Some task =>
          let tasks := tasks ++ [task] in
          if (length tasks =? MAX_PINNED_TASKS)%nat then tasks else list_pinned ids database index labels tasks
      end
  end.

Definition list_recent (database : DatabaseCatalog) (index : gmap text text) (labels : list (path * text))
    (seen : list text) : list CodexTask :=
  omap (λ row : text * DatabaseTask,
    if bool_decide (row.1 ∈ seen) then None else build_task row.1 row.2 (index !! row.1) labels false) (dc_recent database).

(** The tasks seen are the pinned ones listed. *)
Definition list_tasks_once (files : CatalogFiles) : result CatalogError (list CodexTask) :=
  let? global := read_global_state files in
  let? index := read_session_index files in
  let? pinned := pinned_ids global in
  let? database := read_database files pinned in
  let? labels := project_labels global in
  let tasks := list_pinned pinned database index labels [] in
  Ok (tasks ++ take MAX_RECENT_TASKS (list_recent database index labels (ct_task_id <$> tasks))).

Definition catalog_read_is_retryable (e : CatalogError) : bool :=
  match e with IndexTooLarge | NotAllowlisted => false | _ => true end.

(** [remaining] more attempts after this one; each reads the files again. *)
Fixpoint retry_catalog_read (remaining : nat) (attempt : nat) (files : nat → CatalogFiles)
    : result CatalogError (list CodexTask) :=
  match list_tasks_once (files attempt) with
  | Ok value => Ok value
  | Err e =>
      if negb (catalog_read_is_retryable e) then Err e
      else match remaining with
           | O => Err e
           | S remaining => retry_catalog_read remaining (S attempt) files
           end
  end.

Definition list_tasks (files : nat → CatalogFiles) : result CatalogError (list CodexTask) :=
  retry_catalog_read (CATALOG_READ_ATTEMPTS - 1) 0 files.

Definition allowlisted (files : nat → CatalogFiles) (task_id : text) : result CatalogError CodexTask :=
  if negb (uuid_ok task_id) then Err NotAllowlisted
  else
    let? tasks := list_tasks files in
    of_option NotAllowlisted (head (filter (λ t, ct_task_id t = task_id) tasks)).

End catalog.
