(* ===== verification/CatalogProps.v ===== *)
(** * What the catalogue offers *)

From stdpp Require Import gmap.
From S2P Require Import Prelude Bytes StrOps Sql StoreTypes Redact TurnPack Catalog.

Section props.
Context `{Externals, Serde, IndexSerde} (codex_home : path).

(** ** Rows *)

(** A row of the table that passes every check, and what is kept of it. *)
Inductive offered (file : path → result CatalogError bool) (threads : list ThreadRow) (id : text) (task : DatabaseTask) : Prop :=
| offered_row r raw : r ∈ threads → bounded_thread r = true → database_row_from_sql r = Ok raw →
    validate_database_row codex_home file raw = Ok (Some (id, task)) → offered file threads id task.

Lemma database_row_id r raw : database_row_from_sql r = Ok raw → rr_id raw = th_id r.
Proof. intros (cwd & _ & (rollout & _ & (u & _ & [= <-])%rbind_ok)%rbind_ok)%rbind_ok. done. Qed.

Lemma validate_row_ok file raw id task :
  validate_database_row codex_home file raw = Ok (Some (id, task)) →
  id = rr_id raw ∧ uuid_ok id = true ∧ 0 <= rr_updated raw
  ∧ is_user_owned_thread (rr_source raw) (rr_thread_source raw) (rr_agent_role raw) = true
  ∧ validate_rollout_path codex_home file (rr_rollout_path raw) = Ok true
  ∧ task = mk_db_task (rr_name raw) (rr_title raw) (rr_cwd raw) (rr_rollout_path raw) (rr_updated raw).
Proof.
  unfold validate_database_row. destruct (_ || _) eqn:E; [done|]. intros (valid & Hv & Hr)%rbind_ok.
  bool_prop. destruct valid; [|done]. injection Hr as <- <-. by split_and!.
Qed.

Lemma offered_id file threads id task : offered file threads id task → ∃ r, r ∈ threads ∧ th_id r = id.
Proof.
  intros [r raw Hr _ Hraw Hv]. exists r. split; [done|]. apply validate_row_ok in Hv as [-> _].
  by rewrite (database_row_id _ _ Hraw).
Qed.

Lemma read_pinned_ok file threads ids pinned pinned' :
  read_pinned codex_home file threads ids pinned = Ok pinned' →
  (∀ id task, pinned !! id = Some task → offered file threads id task) →
  ∀ id task, pinned' !! id = Some task → offered file threads id task.
Proof.
  revert pinned. induction ids as [|i ids IH]; intros pinned; cbn [read_pinned]; [by intros [= <-]|].
  destruct (query_row _ threads) as [r|] eqn:Eq; [|apply IH].
  intros (raw & Hraw & Hr)%rbind_ok. apply rbind_ok in Hr as (row & Hrow & Hr). intros Hp.
  apply query_row_some in Eq as [Hin [Hid Hb]]. eapply IH; [exact Hr|]. destruct row as [[k task]|]; [|done].
  intros id t. destruct (decide (id = k)) as [->|Hne]; [|rewrite lookup_insert_ne by done; apply Hp].
  rewrite lookup_insert_eq. intros [= ->]. by econstructor.
Qed.

Lemma read_recent_ok file threads rows recent :
  (∀ r, r ∈ rows → r ∈ threads ∧ bounded_thread r = true) →
  read_recent codex_home file rows = Ok recent →
  (∀ id task, (id, task) ∈ recent → offered file threads id task) ∧ recent.*1 `sublist_of` th_id <$> rows.
Proof.
  revert recent. induction rows as [|r rows IH]; intros recent Hin; cbn [read_recent].
  { intros [= <-]. split; [by intros ?? ?%elem_of_nil|done]. }
  intros (raw & Hraw & Hr)%rbind_ok. apply rbind_ok in Hr as (row & Hrow & Hr). apply rbind_ok in Hr as (rest & Hrest & Hr).
  destruct (IH rest) as [Hall Hsub]; [intros; apply Hin; by right|done|]. destruct (Hin r) as [Hr1 Hr2]; [by left|].
  destruct row as [[k task]|]; injection Hr as <-.
  - split; [|].
    + intros id t [[= -> ->]|Hin']%elem_of_cons; [by econstructor|by apply Hall].
    + cbn. apply validate_row_ok in Hrow as [-> _]. rewrite (database_row_id _ _ Hraw). by apply sublist_skip.
  - split; [done|]. cbn. by apply sublist_cons.
Qed.

Lemma recent_rows_in threads r : r ∈ recent_rows threads → r ∈ threads ∧ bounded_thread r = true.
Proof.
  unfold recent_rows. intros Hr%elem_of_take. destruct Hr as (i & Hr & _). apply list_elem_of_lookup_2 in Hr.
  rewrite elem_of_order_by in Hr. apply list_elem_of_filter in Hr. tauto.
Qed.

(** ** Names and lists *)

Lemma build_task_ok id row name labels p task :
  build_task id row name labels p = Some task →
  ct_task_id task = id ∧ ct_cwd task = dt_cwd row ∧ ct_rollout_path task = dt_rollout_path row ∧ ct_pinned task = p
  ∧ ct_name task ≠ [].
Proof.
  unfold build_task. destruct (head _) as [n|] eqn:En; [|done]. cbn. case_match; [done|]. intros [= <-].
  apply head_Some_elem_of, list_elem_of_filter in En as [? _]. by split_and!.
Qed.

(** The task is an offered row. *)
Definition from_row (file : path → result CatalogError bool) (threads : list ThreadRow) (t : CodexTask) : Prop :=
  ∃ row, offered file threads (ct_task_id t) row ∧ ct_cwd t = dt_cwd row ∧ ct_rollout_path t = dt_rollout_path row
  ∧ ct_name t ≠ [].

Lemma list_pinned_eq ids database index labels tasks :
  (length tasks < MAX_PINNED_TASKS)%nat →
  list_pinned ids database index labels tasks
  = tasks ++ take (MAX_PINNED_TASKS - length tasks)
      (omap (λ id, row ← dc_pinned database !! id; build_task id row (index !! id) labels true) ids).
Proof.
  revert tasks. induction ids as [|id ids IH]; intros tasks Hlen; cbn [list_pinned omap list_omap].
  { by rewrite take_nil, app_nil_r. }
  destruct (row ← _; _) as [t|] eqn:Et; [|by apply IH].
  assert (MAX_PINNED_TASKS - length tasks = S (MAX_PINNED_TASKS - length (tasks ++ [t])))%nat as ->
    by (rewrite length_app; cbn [length]; lia).
  cbn [take]. case_match eqn:Efull.
  - apply Nat.eqb_eq in Efull. rewrite Efull, Nat.sub_diag, take_0. done.
  - apply Nat.eqb_neq in Efull. rewrite IH, <- app_assoc; [done|]. rewrite length_app in *. cbn [length] in *. lia.
Qed.

(** The tasks made of a list of keys, in its order. *)
Lemma omap_keys {A} (key : A → text) (f : A → option CodexTask) l :
  (∀ a t, f a = Some t → ct_task_id t = key a) → (ct_task_id <$> omap f l) `sublist_of` key <$> l.
Proof.
  intros Hf. induction l as [|a l IH]; [done|]. cbn. destruct (f a) as [t|] eqn:E; cbn.
  - rewrite (Hf _ _ E). by apply sublist_skip.
  - by apply sublist_cons.
Qed.

Lemma elem_of_take_omap {A B} (f : A → option B) n l b : b ∈ take n (omap f l) → ∃ a, a ∈ l ∧ f a = Some b.
Proof. intros (i & Hi & _)%elem_of_take. apply list_elem_of_lookup_2, list_elem_of_omap in Hi. done. Qed.

Lemma push_new_NoDup id ids : NoDup ids → NoDup (push_new id ids).
Proof.
  unfold push_new. case_bool_decide as E; [done|]. intros Hn. apply NoDup_app. split; [done|].
  split; [|apply NoDup_singleton]. intros x Hx ->%list_elem_of_singleton. done.
Qed.

Lemma pinned_ids_NoDup global ids : pinned_ids global = Ok ids → NoDup ids.
Proof.
  assert (∀ values pinned pinned', collect_pinned values pinned = Ok pinned' → NoDup pinned → NoDup pinned') as Hc.
  { induction values as [|v values IH]; intros pinned pinned'; cbn [collect_pinned]; [by intros [= <-]|].
    intros (id & _ & (u & _ & Hr)%rbind_ok)%rbind_ok Hn. eapply IH; [exact Hr|]. by apply push_new_NoDup. }
  assert (∀ values pinned ordered ordered', collect_order values pinned ordered = Ok ordered' → NoDup ordered → NoDup ordered') as Ho.
  { induction values as [|v values IH]; intros pinned ordered ordered'; cbn [collect_order]; [by intros [= <-]|].
    intros (value & _ & Hr)%rbind_ok Hn. eapply IH; [exact Hr|]. repeat case_match; auto using push_new_NoDup. }
  assert (∀ l ordered, NoDup ordered → NoDup (foldl (λ ordered task_id, push_new task_id ordered) ordered l)) as Hf.
  { induction l as [|id l IH]; intros ordered Hn; [done|]. apply IH. by apply push_new_NoDup. }
  unfold pinned_ids. destruct (get _ global); [|intros [= <-]; apply NoDup_nil_2].
  intros (values & _ & (u & _ & (pinned & Hp & Hr)%rbind_ok)%rbind_ok)%rbind_ok.
  apply Hc in Hp; [|apply NoDup_nil_2]. case_match; [|by injection Hr as <-].
  apply rbind_ok in Hr as (ordered & Hord & [= <-]). apply Hf. eapply Ho; [exact Hord|apply NoDup_nil_2].
Qed.

(** ** One reading *)

Lemma read_database_ok files ids database threads :
  cf_threads files = Ok threads → read_database codex_home files ids = Ok database →
  (∀ id row, dc_pinned database !! id = Some row → offered (cf_rollout_file files) threads id row)
  ∧ (∀ id row, (id, row) ∈ dc_recent database → offered (cf_rollout_file files) threads id row)
  ∧ (dc_recent database).*1 `sublist_of` th_id <$> recent_rows threads.
Proof.
  intros Ht. unfold read_database. rewrite Ht. cbn [rbind].
  intros (pinned & Hp & (recent & Hr & (u & _ & [= <-])%rbind_ok)%rbind_ok)%rbind_ok. cbn.
  apply read_recent_ok with (threads := threads) in Hr as [Hall Hsub]; [|apply recent_rows_in].
  split_and!; [|done|done]. eapply read_pinned_ok; [exact Hp|]. intros id task. by rewrite lookup_empty.
Qed.

Lemma list_tasks_once_ok files tasks :
  list_tasks_once codex_home files = Ok tasks →
  ∃ threads, cf_threads files = Ok threads
  ∧ Forall (from_row (cf_rollout_file files) threads) tasks
  ∧ (length tasks <= MAX_PINNED_TASKS + MAX_RECENT_TASKS)%nat
  ∧ (NoDup (th_id <$> threads) → NoDup (ct_task_id <$> tasks)).
Proof.
  unfold list_tasks_once. intros (global & _ & Hr)%rbind_ok. apply rbind_ok in Hr as (index & _ & Hr).
  apply rbind_ok in Hr as (ids & Hids & Hr). apply rbind_ok in Hr as (database & Hdb & Hr).
  apply rbind_ok in Hr as (labels & _ & [= <-]).
  destruct (cf_threads files) as [threads|e] eqn:Ht; [|unfold read_database in Hdb; by rewrite Ht in Hdb].
  unfold list_recent. exists threads. split; [done|]. apply (read_database_ok _ _ _ threads) in Hdb as (Hpin & Hrec & Hsub); [|done].
  rewrite list_pinned_eq by (cbn; unfold MAX_PINNED_TASKS; lia). cbn [app length]. rewrite Nat.sub_0_r.
  set (f := λ id, row ← dc_pinned database !! id; _). set (listed := take _ (omap f ids)).
  assert (∀ id t, f id = Some t → ct_task_id t = id ∧ from_row (cf_rollout_file files) threads t) as Hf.
  { intros id t Hid. unfold f in Hid. destruct (dc_pinned database !! id) as [row|] eqn:Er; [|done]. cbn in Hid.
    apply build_task_ok in Hid as (<- & Ec & El & _ & Hne). split; [done|]. exists row. by split; [apply Hpin|]. }
  set (g := λ row : text * DatabaseTask, if bool_decide _ then None else _).
  assert (∀ row t, g row = Some t → ct_task_id t = row.1 ∧ row.1 ∉ (ct_task_id <$> listed)
    ∧ ((row ∈ dc_recent database) → from_row (cf_rollout_file files) threads t)) as Hg.
  { intros [id row] t Hid. unfold g in Hid. case_bool_decide as Hs; [done|]. cbn in *.
    apply build_task_ok in Hid as (<- & Ec & El & _ & Hne). split; [done|]. split; [done|]. intros Hin.
    exists row. by split; [apply Hrec|]. }
  split_and!.
  - apply Forall_app. split; apply Forall_forall; intros t (x & Hx & Ex)%elem_of_take_omap; [by apply (Hf x)|].
    by apply (Hg x t).
  - rewrite length_app. unfold listed. rewrite !length_take. lia.
  - intros Hnd. rewrite fmap_app. apply NoDup_app. split_and!.
    + eapply sublist_NoDup; [eapply (pinned_ids_NoDup _ _ Hids)|]. transitivity (ct_task_id <$> omap f ids).
      * apply fmap_sublist, sublist_take.
      * rewrite <- (list_fmap_id ids) at 2. apply (omap_keys id). intros a t. apply Hf.
    + intros x Hx (t & -> & (row & Hrow & Eg)%elem_of_take_omap)%list_elem_of_fmap.
      apply Hg in Eg as (E & Hno & _). by rewrite E in Hx.
    + eapply sublist_NoDup.
      2:{ transitivity (ct_task_id <$> omap g (dc_recent database)); [apply fmap_sublist, sublist_take|].
          transitivity ((dc_recent database).*1); [apply (omap_keys fst); intros a t Ha; by apply Hg|exact Hsub]. }
      unfold recent_rows. eapply sublist_NoDup; [|apply fmap_sublist, sublist_take].
      rewrite order_by_perm. eapply sublist_NoDup; [exact Hnd|]. apply fmap_sublist, sublist_filter.
Qed.


(** ** What may be used *)

Lemma retry_ok remaining attempt files tasks :
  retry_catalog_read codex_home remaining attempt files = Ok tasks →
  ∃ n, (attempt <= n <= attempt + remaining)%nat ∧ list_tasks_once codex_home (files n) = Ok tasks.
Proof.
  revert attempt. induction remaining as [|remaining IH]; intros attempt; cbn [retry_catalog_read];
    destruct (list_tasks_once codex_home (files attempt)) as [ts|e] eqn:E.
  - intros [= ->]. exists attempt. split; [lia|done].
  - by destruct (negb _).
  - intros [= ->]. exists attempt. split; [lia|done].
  - destruct (negb _); [done|]. intros (n & ? & ?)%IH. exists n. split; [lia|done].
Qed.

(** The list: its tasks have uuids and names; each is listed once. *)
Lemma list_tasks_ok files tasks :
  (∀ n threads, cf_threads (files n) = Ok threads → NoDup (th_id <$> threads)) →
  list_tasks codex_home files = Ok tasks →
  Forall (λ t, uuid_ok (ct_task_id t) = true ∧ ct_name t ≠ []) tasks
  ∧ (length tasks <= MAX_PINNED_TASKS + MAX_RECENT_TASKS)%nat ∧ NoDup (ct_task_id <$> tasks).
Proof.
  intros Hk (n & _ & Hl)%retry_ok. apply list_tasks_once_ok in Hl as (threads & Ht & Hall & Hlen & Hnd).
  split_and!; [|done|by eapply Hnd, Hk]. eapply Forall_impl; [exact Hall|].
  intros t (row & [r raw _ _ _ Hv] & _ & _ & Hne). apply validate_row_ok in Hv as (_ & Hu & _). done.
Qed.

(** The host uses only tasks that belong to the user.  A task that the catalogue allows
    has the id that was asked for, and at one of at most four readings it was a row of the
    database that is not archived, was not started by a sub-agent, has a trusted rollout file
    under the sessions directory and the working directory that is used; a reading lists at
    most 24 tasks, each once. *)
Theorem allowlisted_task_is_user_thread files task_id task :
  allowlisted codex_home files task_id = Ok task →
  ct_task_id task = task_id ∧ uuid_ok task_id = true
  ∧ ∃ n threads r raw tasks, (n < CATALOG_READ_ATTEMPTS)%nat ∧ cf_threads (files n) = Ok threads
    ∧ r ∈ threads ∧ th_id r = task_id ∧ th_archived r = Some 0
    ∧ database_row_from_sql r = Ok raw ∧ ct_cwd task = rr_cwd raw ∧ ct_rollout_path task = rr_rollout_path raw
    ∧ is_user_owned_thread (rr_source raw) (rr_thread_source raw) (rr_agent_role raw) = true
    ∧ validate_rollout_path codex_home (cf_rollout_file (files n)) (rr_rollout_path raw) = Ok true
    ∧ list_tasks_once codex_home (files n) = Ok tasks ∧ task ∈ tasks
    ∧ (length tasks <= 24)%nat ∧ (NoDup (th_id <$> threads) → NoDup (ct_task_id <$> tasks)).
Proof.
  unfold allowlisted. destruct (uuid_ok task_id) eqn:Hu; [|done]. intros (tasks & Hl & Hr)%rbind_ok.
  apply retry_ok in Hl as (n & Hn & Hl). destruct (head _) as [t|] eqn:Eh in Hr; [|done]. injection Hr as ->.
  assert (task ∈ filter (λ t, ct_task_id t = task_id) tasks) as [Hid Hin]%list_elem_of_filter
    by (by apply head_Some_elem_of).
  destruct (list_tasks_once_ok _ _ Hl) as (threads & Ht & Hall & Hlen & Hnd). rewrite Forall_forall in Hall.
  destruct (Hall task Hin) as (row & [r raw Hr Hb Hraw Hv] & Ec & El & _).
  apply validate_row_ok in Hv as (Eid & _ & _ & Huser & Hroll & ->). cbn in Ec, El.
  split; [done|split; [done|]]. exists n, threads, r, raw, tasks.
  unfold bounded_thread in Hb. bool_prop. unfold CATALOG_READ_ATTEMPTS in *. split_and!; try done.
  - lia.
  - rewrite <- (database_row_id _ _ Hraw). congruence.
Qed.

End props.
