(* ===== verification/PromptQueue.v ===== *)
(** * Prompts: bindings, the queue service and the scheduler (app/host/src/bindings.rs,
    prompt_queue.rs)

    A prompt goes to the task bound to its slot.  The scheduler runs the queued jobs, each in
    a thread of its own; the threads send their results through a channel that [tick] empties
    before it starts more jobs.  What a thread's run of the Codex application answers is an
    event of the system ([WorkerDone]); the clock is an argument, read once per operation of
    the store. *)

From stdpp Require Import gmap.
From S2P Require Import Prelude Bytes CacheRef Sql StoreTypes StoreJobs StoreRollout TurnPack Catalog StoreSystem.

(** ** Bindings *)

Inductive BindingError := CatalogFault (e : CatalogError) | BindingStore (e : StoreError).

Inductive PromptQueueError := UnboundSlot | QueueBinding (e : BindingError) | QueueStore (e : StoreError).

(** Runs an operation of the store for a caller with its own errors; an error changes nothing. *)
Definition with_error {A E} (f : StoreError → E) (m : Tx A) (store : Db) : result E A * Db :=
  match m store with Ok (a, store) => (Ok a, store) | Err e => (Err (f e), store) end.

Section service.
Context `{Externals, Crypto, Serde, IndexSerde} (codex_home : path).

Definition bind (files : nat → CatalogFiles) (now slot : Z) (expected_generation : option Z) (task_id : text)
    (store : Db) : result BindingError (option Binding) * Db :=
  match allowlisted codex_home files task_id with
  | Err e => (Err (CatalogFault e), store)
  | Ok _ => with_error BindingStore (set_binding now slot expected_generation task_id) store
  end.

Definition resolve (files : nat → CatalogFiles) (slot : Z) (store : Db)
    : result BindingError (option (Binding * CodexTask)) :=
  match binding slot store with
  | Err e => Err (BindingStore e)
  | Ok (None, _) => Ok None
  | Ok (Some b, _) =>
      match allowlisted codex_home files (bd_task_id b) with
      | Err e => Err (CatalogFault e)
      | Ok task => Ok (Some (b, task))
      end
  end.

Definition enqueue_slot (files : nat → CatalogFiles) (now slot : Z) (request_id prompt : text) (store : Db)
    : result PromptQueueError EnqueueOutcome * Db :=
  match resolve files slot store with
  | Err e => (Err (QueueBinding e), store)
  | Ok None => (Err UnboundSlot, store)
  | Ok (Some (b, task)) =>
      with_error QueueStore (enqueue now {|
        nj_request_id := request_id; nj_task_id := bd_task_id b; nj_slot := slot;
        nj_generation := bd_generation b; nj_prompt := prompt; nj_cwd := ct_cwd task |}) store
  end.

End service.

(** ** The scheduler *)

Record WorkerResult := mk_result {
  wr_request_id : text; wr_claim_generation : Z; wr_result : result JobFailureKind unit;
}.

(** A thread: the job it was given, its cancel flag, and whether it has sent its result. *)
Record Worker := mk_worker { wk_job : Job; wk_cancel : bool; wk_sent : bool }.

Record DurablePromptScheduler := mk_scheduler {
  ds_channel : list WorkerResult;
  ds_workers : gmap text Worker;
}.

Definition new_scheduler : DurablePromptScheduler := mk_scheduler [] ∅.

Definition start (job : Job) (workers : gmap text Worker) : gmap text Worker :=
  <[job_request_id job := mk_worker job false false]> workers.

Definition record_outcome (now : Z) (outcome : WorkerResult) : Tx bool :=
  match wr_result outcome with
  | Ok _ => mark_completed now (wr_request_id outcome) (wr_claim_generation outcome)
  | Err failure => mark_failed now (wr_request_id outcome) (wr_claim_generation outcome) failure
  end.

(** The first loop of [tick], on what is in the channel; [clock n] is the [n]th reading.  A
    result that arrives meanwhile is as if it had been sent before. *)
Fixpoint drain (clock : nat → Z) (n : nat) (channel : list WorkerResult) (workers : gmap text Worker) (store : Db)
    : result StoreError unit * nat * DurablePromptScheduler * Db :=
  match channel with
  | [] => (Ok tt, n, mk_scheduler [] workers, store)
  | outcome :: channel =>
      let workers := delete (wr_request_id outcome) workers in
      match record_outcome (clock n) outcome store with
      | Ok (_, store) => drain clock (S n) channel workers store
      | Err e => (Err e, n, mk_scheduler channel workers, store)
      end
  end.

(** The second loop; a round that goes on has made a queued job running. *)
Fixpoint fill (fuel : nat) (clock : nat → Z) (n : nat) (self : DurablePromptScheduler) (store : Db)
    : result StoreError unit * DurablePromptScheduler * Db :=
  match fuel with
  | O => (Ok tt, self, store)
  | S fuel =>
      if Z.of_nat (size (ds_workers self)) <? MAX_GLOBAL_RUNNING_JOBS then
        match claim_next_runnable (clock n) store with
        | Err e => (Err e, self, store)
        | Ok (None, store) => (Ok tt, self, store)
        | Ok (Some job, store) =>
            fill fuel clock (S n) (mk_scheduler (ds_channel self) (start job (ds_workers self))) store
        end
      else (Ok tt, self, store)
  end.

Definition tick (clock : nat → Z) (self : DurablePromptScheduler) (store : Db)
    : result StoreError unit * DurablePromptScheduler * Db :=
  match drain clock 0 (ds_channel self) (ds_workers self) store with
  | (Err e, _, self, store) => (Err e, self, store)
  | (Ok _, n, self, store) => fill (S (length (db_jobs store))) clock n self store
  end.

Definition in_flight (self : DurablePromptScheduler) : Z := Z.of_nat (size (ds_workers self)).

(** The threads are told to stop and are waited for; what they sent is dropped. *)
Definition shutdown_without_acknowledging (self : DurablePromptScheduler) : DurablePromptScheduler :=
  mk_scheduler [] ∅.

(** The end of a thread: its result is sent once. *)
Definition worker_done (request_id : text) (answer : result JobFailureKind unit) (self : DurablePromptScheduler)
    : option DurablePromptScheduler :=
  w ← ds_workers self !! request_id;
  if wk_sent w then None
  else Some (mk_scheduler
    (ds_channel self ++ [mk_result request_id (job_claim_generation (wk_job w)) answer])
    (<[request_id := mk_worker (wk_job w) (wk_cancel w) true]> (ds_workers self))).

(** ** The host: the scheduler, its threads, the store and everybody else who uses it *)

Section host.
Context `{Externals, Crypto}.

Definition Host : Type := DurablePromptScheduler * Db.

(** What others do to the store: prompts arrive, and the ledger, the observer and the bindings
    move on without touching the jobs. *)
Definition elsewhere (db db' : Db) : Prop :=
  (∃ now job o, enqueue now job db = Ok (o, db'))
  ∨ step db db' ∧ db_jobs db' = db_jobs db ∧ db_job_sequence db' = db_job_sequence db.

(** A restart follows [shutdown_without_acknowledging] or a kill; either way the results in
    the channel are gone. *)
Inductive scheduler_step : Host → Host → Prop :=
| Tick clock self store r self' store' :
    tick clock self store = (r, self', store') → scheduler_step (self, store) (self', store')
| WorkerDone request_id answer self self' store :
    worker_done request_id answer self = Some self' → scheduler_step (self, store) (self', store)
| Elsewhere self store store' : elsewhere store store' → scheduler_step (self, store) (self, store')
| HostRestart self store now counts store' :
    recover_on_open now store = (Ok counts, store') → scheduler_step (self, store) (new_scheduler, store').

End host.
