(* ===== verification/SchedulerProps.v ===== *)
(** * The scheduler and the queue agree *)

From stdpp Require Import gmap.
From S2P Require Import Prelude Bytes CacheRef Sql StoreTypes StoreJobs StoreRollout StoreSummary StorePlayback SummaryInv SummaryOps SummaryClaims SummaryPublish PlaybackOps.
From S2P Require Import StoreSystem TurnPack Catalog PromptQueue.

(** ** Running rows *)

(** The row of the request is running with this claim generation. *)
Definition runs (db : Db) (req : text) (g : Z) (task : text) : Prop :=
  ∃ r, r ∈ db_jobs db ∧ jb_state r = Running ∧ jb_request_id r = req
       ∧ jb_claim_generation r = g ∧ jb_task_id r = task.

Lemma runs_same db db' : db_jobs db' = db_jobs db → ∀ req g task, runs db' req g task ↔ runs db req g task.
Proof. unfold runs. by intros ->. Qed.

Lemma runs_unique db req g g' task task' :
  jobs_inv db → runs db req g task → runs db req g' task' → g' = g ∧ task' = task.
Proof.
  intros Hj (r & Hr & _ & Er & <- & <-) (s & Hs & _ & Es & <- & <-).
  assert (s = r) as -> by (apply (job_request_unique (db_jobs db)); congruence || apply Hj || done). done.
Qed.

Lemma runs_task db req req' g g' task :
  jobs_inv db → runs db req g task → runs db req' g' task → req' = req.
Proof.
  intros Hj (r & Hr & Rr & Er & _ & Tr) (s & Hs & Rs & Es & _ & Ts).
  destruct (ji_schema _ Hj) as (_ & _ & Hu & _).
  assert (s = r) as -> by (apply (unique_on_elem job_running jb_task_id (db_jobs db)); congruence || done). congruence.
Qed.

Section scheduler.
Context `{Externals, Crypto}.

(** The update that ends a run. *)
Lemma end_run f req g task db :
  store_inv db → runs db req g task →
  (∀ r, jb_state (f r) ≠ Running ∧ jb_sequence (f r) = jb_sequence r ∧ jb_request_id (f r) = jb_request_id r
     ∧ jb_task_id (f r) = jb_task_id r ∧ (job_check r → job_check (f r))) →
  let P := λ r, jb_request_id r = req ∧ jb_state r = Running ∧ jb_claim_generation r = g in
  schema_ok (update_jobs P f db).1 ∧ count_rows P (db_jobs db) = 1
  ∧ (∀ req' g' task', runs (update_jobs P f db).1 req' g' task' ↔ runs db req' g' task' ∧ req' ≠ req)
  ∧ ∃ r, r ∈ db_jobs db ∧ jb_request_id r = req ∧ jb_claim_generation r = g ∧ f r ∈ db_jobs (update_jobs P f db).1.
Proof.
  intros [Hs Hj _ _] (r & Hr & Hrun & Er & Eg & Et) Hf P.
  assert (∀ s, s ∈ db_jobs db → jb_request_id s = req → s = r) as Hone.
  { intros s Hin Es. apply (job_request_unique (db_jobs db)); [apply Hj|done..|congruence]. }
  split_and!.
  - eapply schema_ok_jobs; [exact Hs|done|]. apply jobs_schema_update; [apply Hj|..].
    + intros s Hin _. destruct (Hf s) as (_ & ? & ? & ? & Hc). split_and!; [done..|].
      eapply Hc, job_row_check; [apply Hj|done].
    + apply unique_on_update; [apply Hj|]. intros s _ _ Hs'. by destruct (Hf s).
  - assert (count_rows P (db_jobs db) ≤ 1) by (apply (count_request_le _ req); [apply Hj|by intros s (? & _)]).
    assert (0 < count_rows P (db_jobs db)) by (apply count_rows_pos; exists r; by split). lia.
  - intros req' g' task'. split.
    + intros (s' & (s & Hin & ->)%elem_of_update & Hrun' & Es & Es' & Es''). unfold upd in *. case_decide as HP.
      * by destruct (Hf s).
      * split; [by exists s|]. intros ->. apply HP. rewrite (Hone s) by done. done.
    + intros [(s & Hin & Hrun' & Es & Es' & Es'') Hne]. exists s. split; [|done].
      apply elem_of_update. exists s. split; [done|]. unfold upd. rewrite decide_False; [done|]. intros (? & _). congruence.
  - exists r. split_and!; [done..|]. apply elem_of_update. exists r. split; [done|]. unfold upd. by rewrite decide_True.
Qed.

Lemma runs_generation db req g task : store_inv db → runs db req g task → 0 ≤ g ≤ i64_max.
Proof.
  intros Hinv (r & Hr & _ & _ & <- & _). pose proof (job_row_check _ _ (ji_schema _ (inv_jobs _ Hinv)) Hr) as (_&_&_&?).
  pose proof (ji_range _ (inv_jobs _ Hinv)) as Hrange. rewrite Forall_forall in Hrange. by destruct (Hrange r Hr).
Qed.

(** Recording the outcome of a running job succeeds and ends exactly that run. *)
Lemma record_outcome_runs now o db task :
  store_inv db → runs db (wr_request_id o) (wr_claim_generation o) task →
  ∃ db', record_outcome now o db = Ok (true, db') ∧ store_inv db'
    ∧ (∀ req g task', runs db' req g task' ↔ runs db req g task' ∧ req ≠ wr_request_id o)
    ∧ ∃ r, r ∈ db_jobs db' ∧ jb_request_id r = wr_request_id o ∧ jb_claim_generation r = wr_claim_generation o
        ∧ match wr_result o with
          | Ok _ => jb_state r = Completed
          | Err k => jb_state r = Failed ∧ jb_failure_kind r = Some k
          end.
Proof.
  intros Hinv Hruns. pose proof (runs_generation _ _ _ _ Hinv Hruns) as Hg. destruct o as [req g out]. cbn in *.
  unfold record_outcome. cbn. destruct out as [u|k].
  - destruct (end_run (λ r, set_job Completed (jb_recovery_count r) (jb_claim_generation r) (jb_failure_kind r) now r)
      req g task db) as (Hs & Hc & Hr & r & Hin & Er & Eg & Hin'); [done..|intros r; split_and!; [cbn; discriminate|done..]|].
    assert (mark_completed now req g db = Ok (true, (update_jobs
      (λ r, jb_request_id r = req ∧ jb_state r = Running ∧ jb_claim_generation r = g)
      (λ r, set_job Completed (jb_recovery_count r) (jb_claim_generation r) (jb_failure_kind r) now r) db).1)) as E.
    { unfold mark_completed. rewrite (tbind_lift _ _ _ g) by (apply to_i64_fit; lia).
      erewrite tbind_exec; [|reflexivity|exact Hs]. by rewrite Hc. }
    eexists. split; [exact E|]. split; [eapply step_inv; [by eapply step_completed|done]|]. split; [done|].
    eexists. split; [exact Hin'|done].
  - destruct (end_run (λ r, set_job Failed (jb_recovery_count r) (jb_claim_generation r) (Some k) now r)
      req g task db) as (Hs & Hc & Hr & r & Hin & Er & Eg & Hin'); [done..|intros r; split_and!; [cbn; discriminate|done..]|].
    assert (mark_failed now req g k db = Ok (true, (update_jobs
      (λ r, jb_request_id r = req ∧ jb_state r = Running ∧ jb_claim_generation r = g)
      (λ r, set_job Failed (jb_recovery_count r) (jb_claim_generation r) (Some k) now r) db).1)) as E.
    { unfold mark_failed. rewrite (tbind_lift _ _ _ g) by (apply to_i64_fit; lia).
      erewrite tbind_exec; [|reflexivity|exact Hs]. by rewrite Hc. }
    eexists. split; [exact E|]. split; [eapply step_inv; [by eapply step_failed|done]|]. split; [done|].
    eexists. split; [exact Hin'|done].
Qed.

(** A claim starts a run of the job it hands out. *)
Lemma claim_runs now db o db' :
  store_inv db → claim_next_runnable now db = Ok (o, db') →
  store_inv db' ∧
  match o with
  | None => db' = db ∧ (MAX_GLOBAL_RUNNING_JOBS ≤ count_rows job_running (db_jobs db)
                        ∨ ∀ s, s ∈ db_jobs db → ¬ runnable (db_jobs db) s)
  | Some job =>
      (∀ g task, ¬ runs db (job_request_id job) g task)
      ∧ ∀ req g task, runs db' req g task ↔
          runs db req g task ∨ req = job_request_id job ∧ g = job_claim_generation job ∧ task = job_task_id job
  end.
Proof.
  intros Hinv Hr. split; [eapply step_inv; [by eapply step_claim_next|done]|]. pose proof (inv_jobs _ Hinv) as Hj.
  apply claim_next_ok in Hr; [|apply Hj].
  destruct Hr as [(-> & -> & Hno)|(c & job & -> & (Hin & Hrunnable & Hleast) & Hlt & Hgc & Hjob & -> & _)]; [done|].
  pose proof (ji_range _ Hj) as Hrange. rewrite Forall_forall in Hrange.
  rewrite map_claim_row in Hjob; [|by eapply job_row_check; [apply Hj|]|done|by apply Hrange]. injection Hjob as <-. cbn.
  assert (∀ s, s ∈ db_jobs db → jb_request_id s = jb_request_id c → s = c) as Hone.
  { intros s Hs Es. by apply (job_request_unique (db_jobs db)); [apply Hj|..]. }
  pose proof (λ r, claim_update_elem now c (db_jobs db) r (ji_schema _ Hj) Hin (proj1 Hrunnable)) as Helem.
  split.
  - intros g task (r & Hr & Hrun & Er & _). rewrite (Hone r) in Hrun by done. destruct Hrunnable as [Hq _]. congruence.
  - intros req g task. unfold runs. setoid_rewrite Helem. split.
    + intros (r & [->|[Hr Hne]] & Hrun & <- & <- & <-); [by right|left; by exists r].
    + intros [(r & Hr & Hrun & Er & Eg & Et)|(-> & -> & ->)].
      * exists r. split; [|done]. right. split; [done|]. intros ->. destruct Hrunnable as [Hq _]. congruence.
      * exists (claim_row now c). split; [by left|done].
Qed.

(** ** Agreement *)

(** The threads are exactly the running rows, and each result in the channel is the one
    result of a thread that has sent it. *)
Record agree (self : DurablePromptScheduler) (db : Db) : Prop := {
  ag_runs req g task : runs db req g task ↔
    ∃ w, ds_workers self !! req = Some w ∧ job_claim_generation (wk_job w) = g ∧ job_task_id (wk_job w) = task;
  ag_worker req w : ds_workers self !! req = Some w → job_request_id (wk_job w) = req;
  ag_once : NoDup (wr_request_id <$> ds_channel self);
  ag_channel o : o ∈ ds_channel self → ∃ w, ds_workers self !! wr_request_id o = Some w ∧ wk_sent w = true
    ∧ wr_claim_generation o = job_claim_generation (wk_job w);
  ag_sent req w : ds_workers self !! req = Some w → wk_sent w = true → req ∈ wr_request_id <$> ds_channel self;
}.

Definition scheduler_inv (h : Host) : Prop := store_inv h.2 ∧ agree h.1 h.2.

(** The number of threads is the number of running rows. *)
Lemma agree_size self db :
  jobs_inv db → agree self db → in_flight self = count_rows job_running (db_jobs db).
Proof.
  intros Hj Hag. unfold in_flight, count_rows. f_equal.
  rewrite <- size_dom. rewrite <- (length_fmap jb_request_id (filter job_running (db_jobs db))).
  assert (NoDup (jb_request_id <$> filter job_running (db_jobs db))) as Hnd.
  { apply unique_on_NoDup. destruct (ji_schema _ Hj) as (_ & Hu & _). intros i j r s ???? E. by apply (Hu i j r s). }
  rewrite <- (size_list_to_set (C:=gset text)) by done. f_equal. apply set_eq. intros req.
  rewrite elem_of_dom, elem_of_list_to_set, list_elem_of_fmap. split.
  - intros [w Hw]. destruct (proj2 (ag_runs _ _ Hag req (job_claim_generation (wk_job w)) (job_task_id (wk_job w))))
      as (r & Hr & Hrun & Er & _); [eauto|]. exists r. split; [done|]. by apply list_elem_of_filter.
  - intros (r & -> & [Hrun Hr]%list_elem_of_filter).
    destruct (proj1 (ag_runs _ _ Hag (jb_request_id r) (jb_claim_generation r) (jb_task_id r))) as (w & Hw & _);
      [by exists r|eauto].
Qed.

(** Different threads run different tasks. *)
Lemma agree_tasks self db req req' w w' :
  jobs_inv db → agree self db → ds_workers self !! req = Some w → ds_workers self !! req' = Some w' →
  job_task_id (wk_job w) = job_task_id (wk_job w') → req = req'.
Proof.
  intros Hj Hag Hw Hw' E.
  eapply (runs_task db req' req _ _ (job_task_id (wk_job w'))); [done|..]; apply (ag_runs _ _ Hag); eauto.
Qed.

Lemma agree_same self db db' : db_jobs db' = db_jobs db → agree self db → agree self db'.
Proof. intros E []. split; try done. intros. by rewrite (runs_same db db'). Qed.

(** One outcome recorded. *)
Lemma drain_one now o channel workers db :
  scheduler_inv (mk_scheduler (o :: channel) workers, db) →
  ∃ db', record_outcome now o db = Ok (true, db')
    ∧ scheduler_inv (mk_scheduler channel (delete (wr_request_id o) workers), db')
    ∧ ∃ r, r ∈ db_jobs db' ∧ jb_request_id r = wr_request_id o ∧ jb_claim_generation r = wr_claim_generation o
        ∧ match wr_result o with
          | Ok _ => jb_state r = Completed
          | Err k => jb_state r = Failed ∧ jb_failure_kind r = Some k
          end.
Proof.
  intros [Hinv [Hruns Hreq Hnd Hch Hsent]]. cbn in *.
  destruct (Hch o) as (w & Hw & _ & Eg); [by left|].
  destruct (record_outcome_runs now o db (job_task_id (wk_job w))) as (db' & Hrec & Hinv' & Hruns' & Hrow); [done| |].
  { apply Hruns. eauto. }
  exists db'. split; [done|]. split; [|done]. split; [done|]. apply NoDup_cons in Hnd as [Hfresh Hnd]. split; cbn.
  - intros req g task. rewrite Hruns', Hruns. split.
    + intros [(w' & ? & ?) ?]. exists w'. by rewrite lookup_delete_ne.
    + intros (w' & [? ?]%lookup_delete_Some & ?). split; [by exists w'|done].
  - intros req w' [_ ?]%lookup_delete_Some. by apply Hreq.
  - done.
  - intros o' Ho'. destruct (Hch o') as (w' & ? & ?); [by right|]. exists w'. rewrite lookup_delete_ne; [done|].
    intros E. apply Hfresh. rewrite E. by apply list_elem_of_fmap_2.
  - intros req w' [Hne Hw']%lookup_delete_Some Hs. apply (Hsent _ _ Hw') in Hs. apply elem_of_cons in Hs as [?|?]; [congruence|done].
Qed.

(** What was sent for a request is recorded: completed, or failed with the reported kind. *)
Definition recorded (o : WorkerResult) (db : Db) : Prop :=
  ∃ r, r ∈ db_jobs db ∧ jb_request_id r = wr_request_id o ∧ jb_claim_generation r = wr_claim_generation o
    ∧ match wr_result o with
      | Ok _ => jb_state r = Completed
      | Err k => jb_state r = Failed ∧ jb_failure_kind r = Some k
      end.

(** ** Settled rows stay *)

Definition settled (r : JobRow) : Prop := jb_state r = Completed ∨ jb_state r = Failed.
Definition settled_kept (db db' : Db) : Prop := ∀ r, r ∈ db_jobs db → settled r → r ∈ db_jobs db'.

#[local] Instance settled_kept_preorder : PreOrder settled_kept.
Proof. split; [by intros db r|]. intros a b c Hab Hbc r Hr Hs. by apply Hbc; [apply Hab|]. Qed.

Lemma update_settled P `{∀ r, Decision (P r)} f db :
  (∀ r, settled r → ¬ P r) → settled_kept db (update_jobs P f db).1.
Proof.
  intros HP r Hr Hs. apply elem_of_update. exists r. split; [done|]. unfold upd. rewrite decide_False; [done|]. by apply HP.
Qed.

Lemma record_settled now o db b db' : record_outcome now o db = Ok (b, db') → settled_kept db db'.
Proof.
  unfold record_outcome. destruct (wr_result o).
  - intros (_ & _ & -> & _)%mark_completed_ok. apply update_settled. intros r [E|E] (_ & E' & _); congruence.
  - intros (_ & _ & -> & _)%mark_failed_ok. apply update_settled. intros r [E|E] (_ & E' & _); congruence.
Qed.

Lemma claim_settled now db o db' :
  store_inv db → claim_next_runnable now db = Ok (o, db') → settled_kept db db' ∧ length (db_jobs db') = length (db_jobs db).
Proof.
  intros Hinv Hr. apply claim_next_ok in Hr; [|apply Hinv].
  destruct Hr as [(_ & -> & _)|(c & j & _ & _ & _ & _ & _ & -> & _)]; [done|]. split; [|apply length_update].
  apply update_settled. intros r [E|E] [_ E']; congruence.
Qed.

Lemma recorded_kept o db db' : settled_kept db db' → recorded o db → recorded o db'.
Proof.
  intros Hk (r & Hr & Er & Eg & Hst). exists r. split; [|done]. apply Hk; [done|]. unfold settled.
  destruct (wr_result o); tauto.
Qed.

(** ** The two loops *)

(** A queued job can still be claimed: 2^63 claims of one job are not used up. *)
Definition claims_left (db : Db) : Prop :=
  ∀ c, c ∈ db_jobs db → jb_state c = Queued → jb_claim_generation c < i64_max.

Lemma update_claims_left P `{∀ r, Decision (P r)} f db :
  (∀ r, jb_state (f r) ≠ Queued) → claims_left db → claims_left (update_jobs P f db).1.
Proof.
  intros Hf Hleft r (s & Hs & ->)%elem_of_update Hq. unfold upd in *. case_decide; [by destruct (Hf s)|by apply Hleft].
Qed.

Lemma record_claims_left now o db b db' : record_outcome now o db = Ok (b, db') → claims_left db → claims_left db'.
Proof.
  unfold record_outcome. destruct (wr_result o).
  - intros (_ & _ & -> & _)%mark_completed_ok. by apply update_claims_left.
  - intros (_ & _ & -> & _)%mark_failed_ok. by apply update_claims_left.
Qed.

Lemma drain_spec clock n channel workers db :
  scheduler_inv (mk_scheduler channel workers, db) →
  ∃ n' workers' db', drain clock n channel workers db = (Ok tt, n', mk_scheduler [] workers', db')
    ∧ scheduler_inv (mk_scheduler [] workers', db') ∧ settled_kept db db' ∧ (∀ o, o ∈ channel → recorded o db')
    ∧ (claims_left db → claims_left db').
Proof.
  revert n workers db. induction channel as [|o channel IH]; intros n workers db Hinv; cbn [drain].
  { exists n, workers, db. split_and!; [done..|by intros o ?%elem_of_nil|done]. }
  destruct (drain_one (clock n) o channel workers db Hinv) as (db1 & Hrec & Hinv1 & Hrow). rewrite Hrec.
  destruct (IH (S n) _ db1 Hinv1) as (n' & workers' & db' & -> & Hinv' & Hk & Hall & Hleft).
  exists n', workers', db'. split; [done|]. split; [done|]. split.
  - transitivity db1; [by eapply record_settled|done].
  - split; [intros o' [->|Ho']%elem_of_cons; [by eapply recorded_kept|by apply Hall]|].
    intros Hl. eapply Hleft, record_claims_left; [exact Hrec|done].
Qed.

(** Every queued job is behind a running job of its task. *)
Definition all_busy (db : Db) : Prop :=
  ∀ q, q ∈ db_jobs db → jb_state q = Queued →
    ∃ r, r ∈ db_jobs db ∧ jb_state r = Running ∧ jb_task_id r = jb_task_id q.

Lemma no_runnable_busy db : (∀ s, s ∈ db_jobs db → ¬ runnable (db_jobs db) s) → all_busy db.
Proof.
  intros Hno q Hq HQ.
  destruct (decide (Exists (λ r, jb_state r = Running ∧ jb_task_id r = jb_task_id q) (db_jobs db)))
    as [(r & ? & ? & ?)%list.Exists_exists|Hex]; [eauto|]. exfalso.
  destruct (earliest_runnable (db_jobs db) q) as (r & Hr & Hr2); [done..| |by eapply Hno].
  intros s Hs Ht E. apply Hex, list.Exists_exists. eauto.
Qed.

Lemma claim_claims_left now db o db' :
  store_inv db → claim_next_runnable now db = Ok (o, db') → claims_left db → claims_left db'.
Proof.
  intros Hinv Hr Hleft. apply claim_next_ok in Hr; [|apply Hinv].
  destruct Hr as [(_ & -> & _)|(c & j & _ & (Hin & Hrun & _) & _ & _ & _ & -> & _)]; [done|].
  intros r Hr Hq. apply (claim_update_elem now c) in Hr; [|apply Hinv|done|apply Hrun].
  destruct Hr as [->|[Hr _]]; [done|by apply Hleft].
Qed.

Lemma start_agree job channel workers db db' :
  agree (mk_scheduler channel workers) db →
  (∀ g task, ¬ runs db (job_request_id job) g task) →
  (∀ req g task, runs db' req g task ↔
     runs db req g task ∨ req = job_request_id job ∧ g = job_claim_generation job ∧ task = job_task_id job) →
  agree (mk_scheduler channel (start job workers)) db' ∧ workers !! job_request_id job = None.
Proof.
  intros [Hruns Hreq Hnd Hch Hsent] Hfresh Hruns'. cbn in *.
  assert (workers !! job_request_id job = None) as Hnone.
  { destruct (workers !! job_request_id job) as [w|] eqn:Ew; [|done]. exfalso. eapply Hfresh. apply Hruns. eauto. }
  split; [|done]. unfold start. split; cbn.
  - intros req g task. rewrite Hruns', Hruns. split.
    + intros [(w & Hw & <- & <-)|(-> & -> & ->)].
      * exists w. split; [|done]. rewrite lookup_insert_ne; [done|]. intros E. congruence.
      * eexists. by rewrite lookup_insert_eq.
    + intros (w & [[<- <-]|[Hne Hw]]%lookup_insert_Some & <- & <-); [by right|left; eauto].
  - intros req w [[<- <-]|[Hne Hw]]%lookup_insert_Some; [done|by apply Hreq].
  - done.
  - intros o Ho. destruct (Hch o Ho) as (w & Hw & ? & ?). exists w. rewrite lookup_insert_ne; [done|]. intros E. congruence.
  - intros req w [[<- <-]|[Hne Hw]]%lookup_insert_Some; [done|by apply Hsent].
Qed.

Lemma fill_spec fuel clock n workers db :
  scheduler_inv (mk_scheduler [] workers, db) → claims_left db →
  Z.of_nat (length (db_jobs db)) - Z.of_nat (size workers) < Z.of_nat fuel →
  ∃ workers' db', fill fuel clock n (mk_scheduler [] workers) db = (Ok tt, mk_scheduler [] workers', db')
    ∧ scheduler_inv (mk_scheduler [] workers', db') ∧ settled_kept db db'
    ∧ (MAX_GLOBAL_RUNNING_JOBS <= Z.of_nat (size workers') ∨ all_busy db').
Proof.
  revert n workers db. induction fuel as [|fuel IH]; intros n workers db [Hinv Hag] Hleft Hfuel; cbn [fst snd] in *.
  { pose proof (agree_size _ _ (inv_jobs _ Hinv) Hag) as Hsize. unfold in_flight, count_rows in Hsize. cbn in Hsize.
    pose proof (length_filter job_running (db_jobs db)). lia. }
  pose proof (agree_size _ _ (inv_jobs _ Hinv) Hag) as Hsize. unfold in_flight in Hsize. cbn [ds_workers] in Hsize.
  cbn [fill ds_workers ds_channel]. destruct (Z.ltb_spec (Z.of_nat (size workers)) MAX_GLOBAL_RUNNING_JOBS) as [Hlt|Hge].
  2:{ exists workers, db. split_and!; [done|done|done|by left]. }
  destruct (claim_next_total (clock n) db (inv_schema _ Hinv) (inv_jobs _ Hinv) Hleft) as (o & db1 & Hc). rewrite Hc.
  pose proof (claim_runs _ _ _ _ Hinv Hc) as [Hinv1 Hruns]. destruct (claim_settled _ _ _ _ Hinv Hc) as [Hk Hlen].
  pose proof (claim_claims_left _ _ _ _ Hinv Hc Hleft) as Hleft1. destruct o as [job|].
  - destruct Hruns as [Hfresh Hruns]. destruct (start_agree job [] workers db db1 Hag Hfresh Hruns) as [Hag1 Hnone].
    destruct (IH (S n) (start job workers) db1) as (workers' & db' & -> & Hinv' & Hk' & Hend); [done|done| |].
    { rewrite Hlen. unfold start. rewrite map_size_insert_None by done. lia. }
    exists workers', db'. split_and!; [done..|by transitivity db1|done].
  - destruct Hruns as [-> [?|Hno]]; [lia|]. exists workers, db.
    split_and!; [done|done|done|right; by apply no_runnable_busy].
Qed.

(** ** The host *)

Lemma fill_inv fuel clock n workers db r self' db' :
  scheduler_inv (mk_scheduler [] workers, db) → fill fuel clock n (mk_scheduler [] workers) db = (r, self', db') →
  scheduler_inv (self', db').
Proof.
  revert n workers db. induction fuel as [|fuel IH]; intros n workers db Hh; cbn [fill ds_workers ds_channel];
    [by intros [= <- <- <-]|].
  destruct (_ <? _); [|by intros [= <- <- <-]]. destruct Hh as [Hinv Hag]. cbn [fst snd] in *.
  destruct (claim_next_runnable _ db) as [[[job|] db1]|e] eqn:Hc; [|intros [= <- <- <-]..].
  - apply IH. destruct (claim_runs _ _ _ _ Hinv Hc) as [Hinv1 [Hfresh Hruns]].
    destruct (start_agree job [] workers db db1 Hag Hfresh Hruns) as [Hag1 _]. done.
  - by destruct (claim_runs _ _ _ _ Hinv Hc) as [_ [-> _]].
  - done.
Qed.

Lemma tick_inv clock self db r self' db' :
  scheduler_inv (self, db) → tick clock self db = (r, self', db') → scheduler_inv (self', db').
Proof.
  intros Hh. unfold tick. destruct self as [channel workers]. cbn [ds_channel ds_workers].
  destruct (drain_spec clock 0 channel workers db Hh) as (n & workers' & db1 & -> & Hh1 & _). by apply fill_inv.
Qed.

Lemma worker_done_inv req answer self self' db :
  scheduler_inv (self, db) → worker_done req answer self = Some self' → scheduler_inv (self', db).
Proof.
  intros [Hinv [Hruns Hreq Hnd Hch Hsent]] Hd. unfold worker_done in Hd.
  destruct (ds_workers self !! req) as [w|] eqn:Ew; [|done]. cbn in Hd. destruct (wk_sent w) eqn:Es; [done|].
  injection Hd as <-. split; [done|]. cbn in *.
  assert (req ∉ wr_request_id <$> ds_channel self) as Hfresh.
  { intros (o & -> & Ho)%list_elem_of_fmap. destruct (Hch o Ho) as (w' & E & Es' & _). congruence. }
  split; cbn.
  - intros r g task. rewrite Hruns. split.
    + intros (w' & Hw' & <- & <-). destruct (decide (r = req)) as [->|Hne].
      * eexists. rewrite lookup_insert_eq. split; [done|]. cbn. by simplify_eq.
      * exists w'. by rewrite lookup_insert_ne.
    + intros (w' & [[<- <-]|[Hne Hw']]%lookup_insert_Some & <- & <-); eauto.
  - intros r w' [[<- <-]|[Hne Hw']]%lookup_insert_Some; [exact (Hreq _ _ Ew)|by apply Hreq].
  - rewrite fmap_app. apply NoDup_app. split_and!; [done| |apply NoDup_singleton].
    intros x Hx ->%list_elem_of_singleton. done.
  - intros o [Ho| ->%list_elem_of_singleton]%elem_of_app.
    + destruct (Hch o Ho) as (w' & Hw' & ? & ?). exists w'. rewrite lookup_insert_ne; [done|].
      intros ->. apply Hfresh. by apply list_elem_of_fmap_2.
    + cbn. eexists. by rewrite lookup_insert_eq.
  - intros r w' Hw' Hs. rewrite fmap_app, elem_of_app. apply lookup_insert_Some in Hw' as [[<- <-]|[Hne Hw']].
    + right. by apply list_elem_of_singleton.
    + left. by eapply Hsent.
Qed.

Lemma elsewhere_inv self db db' : scheduler_inv (self, db) → elsewhere db db' → scheduler_inv (self, db').
Proof.
  intros [Hinv Hag] [(now & job & o & Hr)|(Hstep & E & _)]; cbn in *.
  - split; [eapply step_inv; [by eapply step_enqueue|done]|].
    apply enqueue_ok in Hr as (_ & _ & [(_ & -> & _)|(_ & _ & _ & _ & _ & -> & _)]); [done|].
    destruct Hag. split; try done. intros req g task. rewrite <- ag_runs0. unfold runs. cbn. setoid_rewrite elem_of_app.
    split; [|naive_solver]. intros (r & [Hr| ->%list_elem_of_singleton] & Hrun & ?); [by exists r|done].
  - split; [by eapply step_inv|]. by eapply agree_same.
Qed.

Lemma recover_no_runs now db counts db' :
  store_inv db → recover_on_open now db = (Ok counts, db') → store_inv db' ∧ ∀ req g task, ¬ runs db' req g task.
Proof.
  intros Hinv. unfold recover_on_open.
  destruct (recover_interrupted_jobs now db) as [[jobs db1]|] eqn:H1'; [|done].
  destruct (recover_interrupted_summaries now db1) as [[summaries db2]|] eqn:H2'; [|done].
  destruct (recover_interrupted_playback_leases now db2) as [[u db3]|] eqn:H3'; [|done]. intros [= _ <-].
  assert (store_inv db1) as Hinv1 by (eapply step_inv; [by eapply step_recover_jobs|done]).
  assert (store_inv db2) as Hinv2 by (eapply step_inv; [by eapply step_recover_summaries|done]).
  split; [eapply step_inv; [by eapply step_recover_leases|done]|]. intros req g task.
  assert (db_jobs db3 = db_jobs db1) as E.
  { transitivity (db_jobs db2).
    - by destruct (recover_leases_good _ _ _ _ (inv_schema _ Hinv2) H3') as [_ [? _]].
    - by destruct (recover_summaries_good _ _ _ _ (inv_schema _ Hinv1) H2') as [_ [? _]]. }
  rewrite (runs_same db1 db3) by done. apply exec_frame in H1' as [_ ->].
  intros (r & (s & Hs & ->)%elem_of_update & Hrun & _). unfold upd in Hrun. case_decide as Hd; [done|]. by apply Hd.
Qed.

Lemma new_agree db : (∀ req g task, ¬ runs db req g task) → agree new_scheduler db.
Proof.
  intros Hno. split; cbn.
  - intros req g task. split; [by intros ?%Hno|]. by intros (w & ? & _).
  - done.
  - constructor.
  - by intros o ?%elem_of_nil.
  - done.
Qed.

Lemma scheduler_step_inv h h' : scheduler_step h h' → scheduler_inv h → scheduler_inv h'.
Proof.
  intros [clock self store r self' store' Ht|req answer self self' store Hd|self store store' He|self store now counts store' Hr] Hh.
  - by eapply tick_inv.
  - by eapply worker_done_inv.
  - by eapply elsewhere_inv.
  - destruct Hh as [Hinv _]. apply recover_no_runs in Hr as [Hinv' Hno]; [|done]. split; [done|]. by apply new_agree.
Qed.

Definition host_reachable (h : Host) : Prop := rtc scheduler_step (new_scheduler, empty_db) h.

Lemma host_reachable_inv h : host_reachable h → scheduler_inv h.
Proof.
  unfold host_reachable. intros Hr. assert (scheduler_inv (new_scheduler, empty_db)) as Hi.
  { split; [apply inv_empty|]. apply new_agree. by intros req g task (r & ?%elem_of_nil & _). }
  revert Hi. induction Hr as [h|h1 h2 h3 Hs _ IH]; intros Hi; [done|]. by eapply IH, scheduler_step_inv.
Qed.

(** The scheduler and the queue never disagree.  In every state the host can reach, with
    threads ending in any order, prompts arriving, other threads using the store, and crashes
    and restarts at any point: at most four jobs are in flight, never two of one task; a row
    is running exactly when a thread runs that job with that claim generation; and every
    result waiting in the channel is of the current run of its job, so that none is stale. *)
Theorem scheduler_runs_claimed_jobs self db :
  host_reachable (self, db) →
  in_flight self <= MAX_GLOBAL_RUNNING_JOBS
  ∧ (∀ req req' w w', ds_workers self !! req = Some w → ds_workers self !! req' = Some w' →
       job_task_id (wk_job w) = job_task_id (wk_job w') → req = req')
  ∧ (∀ r, r ∈ db_jobs db → jb_state r = Running ↔
       ∃ w, ds_workers self !! jb_request_id r = Some w ∧ job_request_id (wk_job w) = jb_request_id r
            ∧ job_claim_generation (wk_job w) = jb_claim_generation r ∧ job_task_id (wk_job w) = jb_task_id r)
  ∧ (∀ o, o ∈ ds_channel self → ∃ r, r ∈ db_jobs db ∧ jb_request_id r = wr_request_id o
       ∧ jb_state r = Running ∧ jb_claim_generation r = wr_claim_generation o).
Proof.
  intros [Hinv Hag]%host_reachable_inv. cbn in *. pose proof (inv_jobs _ Hinv) as Hj. split_and!.
  - rewrite (agree_size self db) by done. apply Hj.
  - intros req req' w w'. by apply (agree_tasks self db).
  - intros r Hr. split.
    + intros Hrun. destruct (proj1 (ag_runs _ _ Hag (jb_request_id r) (jb_claim_generation r) (jb_task_id r)))
        as (w & Hw & ? & ?); [by exists r|]. exists w. split_and!; [done| |done..]. by apply (ag_worker _ _ Hag).
    + intros (w & Hw & _ & Eg & Et). destruct (proj2 (ag_runs _ _ Hag (jb_request_id r) (jb_claim_generation r) (jb_task_id r)))
        as (s & Hs & Hrun & Es & _); [eauto|]. by rewrite <- (job_request_unique (db_jobs db) s r (ji_schema _ Hj)).
  - intros o Ho. destruct (ag_channel _ _ Hag o Ho) as (w & Hw & _ & Eg).
    destruct (proj2 (ag_runs _ _ Hag (wr_request_id o) (wr_claim_generation o) (job_task_id (wk_job w))))
      as (r & Hr & ? & ? & ? & _); [eauto|]. eauto.
Qed.

(** A tick makes the progress it can.  In every state the host can reach, a tick
    succeeds; afterwards the channel is empty and everything that was in it is recorded,
    completed or failed with the reported kind; every job that had ended is as it was; and
    four jobs are in flight, or every queued job waits for a running one of its task. *)
Theorem tick_settles clock self db :
  host_reachable (self, db) → claims_left db →
  ∃ self' db', tick clock self db = (Ok tt, self', db') ∧ ds_channel self' = []
    ∧ (∀ o, o ∈ ds_channel self → recorded o db') ∧ settled_kept db db'
    ∧ (in_flight self' = MAX_GLOBAL_RUNNING_JOBS ∨ all_busy db').
Proof.
  intros Hh%host_reachable_inv Hleft. unfold tick. destruct self as [channel workers]. cbn [ds_channel ds_workers].
  destruct (drain_spec clock 0 channel workers db Hh) as (n & workers1 & db1 & Hd & Hh1 & Hk1 & Hrec & Hl1).
  rewrite Hd. destruct (fill_spec (S (length (db_jobs db1))) clock n workers1 db1) as (workers2 & db2 & Hf & [Hinv2 Hag2] & Hk2 & Hend).
  - done.
  - by apply Hl1.
  - lia.
  - rewrite Hf. eexists _, _. split; [done|]. split; [done|]. split_and!.
    + intros o Ho. eapply recorded_kept; [exact Hk2|by apply Hrec].
    + by transitivity db1.
    + destruct Hend as [Hge|?]; [left|by right]. pose proof (agree_size _ _ (inv_jobs _ Hinv2) Hag2) as Hsize.
      pose proof (ji_running _ (inv_jobs _ Hinv2)) as Hmax. unfold in_flight in *. cbn in *. lia.
Qed.

End scheduler.

(** ** The queue service *)

Section service.
Context `{Externals, Crypto, Serde, IndexSerde} (codex_home : path).

Lemma binding_ok slot db o db' :
  binding slot db = Ok (o, db') → db' = db ∧ validate_slot slot = Ok tt ∧
  match o with
  | Some b => ∃ r, r ∈ db_bindings db ∧ br_slot r = slot ∧ br_task_id r = bd_task_id b ∧ as_u64 (br_generation r) = bd_generation b
  | None => ∀ r, r ∈ db_bindings db → br_slot r ≠ slot
  end.
Proof.
  unfold binding, tbind, lift, query_result. destruct (validate_slot slot) as [[]|] eqn:Hv; [|done]. cbn [rbind fst snd].
  destruct (query_row (λ r, br_slot r = slot) (db_bindings db)) as [r|] eqn:Eq.
  - destruct (binding_of r) as [b|] eqn:Hb; [|done]. intros [= <- <-]. split; [done|]. split; [done|]. apply query_row_some in Eq as [Hin Hslot].
    unfold binding_of in Hb. apply rbind_ok in Hb as (sl & _ & [= <-]). by exists r.
  - intros [= <- <-]. split; [done|]. split; [done|]. intros r. by apply (query_row_none_1 (λ r, br_slot r = slot)).
Qed.

(** C7: a spoken prompt goes to the task bound to its key, and nowhere else.  When it is
    accepted, exactly one job is queued, for the task and the generation of the slot's binding
    and with the working directory the catalogue gives for that task, which it allows; a
    repeated request changes nothing, and neither does any error: no binding, a task the
    catalogue does not allow, a full queue, a request id that was used for something else. *)
Theorem prompt_reaches_bound_task files now slot request_id prompt db out db' :
  enqueue_slot codex_home files now slot request_id prompt db = (out, db') →
  match out with
  | Ok EnqueueInserted => ∃ b r task,
      r ∈ db_bindings db ∧ br_slot r = slot ∧ br_task_id r = bd_task_id b ∧ as_u64 (br_generation r) = bd_generation b
      ∧ allowlisted codex_home files (bd_task_id b) = Ok task ∧ ct_task_id task = bd_task_id b
      ∧ db_jobs db' = db_jobs db ++ [{|
          jb_sequence := db_job_sequence db + 1; jb_request_id := request_id; jb_task_id := bd_task_id b;
          jb_slot := slot; jb_generation := bd_generation b; jb_prompt := prompt;
          jb_cwd := encode_path (ct_cwd task); jb_state := Queued; jb_recovery_count := 0;
          jb_claim_generation := 0; jb_failure_kind := None; jb_created_at := now; jb_updated_at := now |}]
      ∧ same_other_tables db db'
  | _ => db' = db
  end.
Proof.
  unfold enqueue_slot. destruct (resolve _ _ _ _) as [[[b task]|]|e] eqn:Hr; [|by intros [= <- <-]..].
  unfold resolve in Hr. destruct (binding slot db) as [[[b'|] db1]|] eqn:Hb; [|done..].
  destruct (allowlisted _ _ _) as [task'|] eqn:Ha; [|done]. injection Hr as -> ->.
  apply binding_ok in Hb as (_ & _ & r & Hin & Hslot & Htask & Hgen).
  unfold with_error. destruct (enqueue _ _ _) as [[o db2]|e] eqn:He; [|by intros [= <- <-]]. intros [= <- <-].
  apply enqueue_ok in He as (_ & _ & [(-> & -> & _)|(-> & _ & _ & _ & _ & -> & _)]); [done|].
  assert (ct_task_id task = bd_task_id b) as Hid.
  { unfold allowlisted in Ha. destruct (negb _); [done|]. apply rbind_ok in Ha as (tasks & _ & Ha).
    destruct (head _) as [t|] eqn:Eh in Ha; [|done]. injection Ha as ->.
    apply head_Some_elem_of, list_elem_of_filter in Eh. tauto. }
  exists b, r, task. by split_and!.
Qed.

End service.
