(* ===== verification/Control.v ===== *)
(** * The local control endpoint (app/host/src/health.rs)

    The desktop application talks to the host over a private socket: one line of JSON each
    way.  A client's thread reads the request ([read_bounded]), answers health requests
    itself and forwards the others to the main loop ([forward_control]), which binds slots
    and builds the dashboard ([process_control_request]); the desktop's side checks what it
    receives ([query_host], [validate_dashboard]). *)

From stdpp Require Import gmap.
From S2P Require Import Prelude Bytes StrOps CacheRef Sql StoreTypes StoreJobs StoreRollout.
From S2P Require Import StoreSummary TtsCache Orchestrator TurnPack Catalog PromptQueue.

Definition HEALTH_PROTOCOL_VERSION : Z := 1.
Definition HEALTH_SOCKET_NAME : text := ascii_bytes "host.sock".
Definition MAX_REQUEST_BYTES : Z := 4 * 1024.
Definition MAX_RESPONSE_BYTES : Z := 16 * 1024.
Definition MAX_ACTIVE_CLIENTS : Z := 16.
(** [mpsc::sync_channel::<ControlRequest>(16)] *)
Definition CONTROL_CAPACITY : nat := 16.
Definition ASR_MODEL : text := ascii_bytes "qwen3-asr-flash".

Inductive HealthError :=
| HealthIo | HealthStore (e : StoreError) | HealthObserver | HealthCatalog (e : CatalogError)
| HealthLanVoice | HealthCache | AlreadyRunning | UnsafeSocket | SocketPathTooLong
| RequestTooLarge | ResponseTooLarge | InvalidResponse | Rejected (error : text).

(** ** What is said *)

Record HealthSnapshot := mk_health {
  hl_v : Z; hl_ready : bool; hl_host_version : text; hl_pid : Z; hl_started_at_unix_ms : Z;
  hl_socket : text; hl_database_schema : Z; hl_recovered_jobs_on_start : Z;
}.

Inductive HostRequest :=
| Health (v : Z)
| Dashboard (v : Z)
| BindSlot (v slot : Z) (task_id : text) (expected_generation : option Z).

Record DashboardTask := mk_dashboard_task {
  da_task_id : text; da_name : text; da_project : text; da_updated_at_ms : Z; da_pinned : bool;
}.

Record DashboardSlot := mk_dashboard_slot {
  sl_slot : Z; sl_task_id : option text; sl_task_name : option text; sl_project : option text;
  sl_binding_generation : option Z; sl_pending_jobs : Z; sl_unread_generation : option Z;
  sl_unread_coverage : option Z; sl_latest_job_state : option text;
  sl_latest_job_failure : option text;
}.

Record ProviderSnapshot := mk_provider {
  pv_configured : bool; pv_region : text; pv_asr_model : text; pv_tts_model : text; pv_voice : text;
}.

(** The counters of the voice ingress (lan_voice.rs). *)
Record LanVoiceDiagnosticsSnapshot := mk_diagnostics {
  dg_secret_file_present : bool; dg_secret_file_readable : bool; dg_auth_key_loaded : bool;
  dg_udp_received : Z; dg_audio_auth_rejected : Z; dg_heartbeat_received : Z;
  dg_heartbeat_authenticated : Z; dg_mailbox_sent : Z; dg_mailbox_send_failed : Z;
  dg_playback_received : Z; dg_audio_frames_accepted : Z; dg_audio_ends_accepted : Z;
  dg_captures_ready : Z; dg_captures_rejected : Z; dg_asr_succeeded : Z; dg_asr_failed : Z;
  dg_prompts_delivered : Z; dg_queue_inserted : Z; dg_queue_replayed : Z; dg_queue_rejected : Z;
}.

Record DashboardSnapshot := mk_dashboard {
  dd_v : Z; dd_tasks : list DashboardTask; dd_slots : list DashboardSlot;
  dd_provider : ProviderSnapshot; dd_lan : LanVoiceDiagnosticsSnapshot;
}.

(** Both requests carry the channel of their reply, which is the result here. *)
Inductive ControlRequest :=
| ControlDashboard
| ControlBindSlot (slot : Z) (task_id : text) (expected_generation : option Z).

Inductive Reply := ReplyHealth (h : HealthSnapshot) | ReplyDashboard (d : DashboardSnapshot) | ReplyError (v : Z) (ok : bool) (error : text).

(** The derived serializers: compact JSON, with the unknown fields refused when reading. *)
Class ControlSerde := {
  request_to_vec : HostRequest → bytes;
  request_from_slice : bytes → option HostRequest;
  authenticated_to_vec : text → HostRequest → bytes;
  authenticated_from_slice : bytes → option (text * HostRequest);
  reply_to_vec : Reply → bytes;
  health_from_slice : bytes → option HealthSnapshot;
  dashboard_from_slice : bytes → option DashboardSnapshot;
  error_reply_from_slice : bytes → option (Z * bool * text);
}.

(** ** The socket *)

(** What one call of [read] gives, at most 1024 bytes and none at the end of the stream; the
    deadline passing while the host waits is a failure. *)
Inductive ReadOutcome := ReadBytes (chunk : bytes) | ReadInterrupted | ReadFailed.
Inductive WriteOutcome := Written (n : nat) | WriteInterrupted | WriteFailed.

Inductive LimitKind := RequestLimit | ResponseLimit.

(** [bytes] were read before; when [reads] ends the deadline has passed. *)
Fixpoint read_bounded (limit : Z) (kind : LimitKind) (bytes : bytes) (reads : list ReadOutcome)
    : result HealthError (list Z) :=
  match reads with
  | [] | ReadFailed :: _ => Err HealthIo
  | ReadInterrupted :: reads => read_bounded limit kind bytes reads
  | ReadBytes [] :: _ => Err InvalidResponse
  | ReadBytes chunk :: reads =>
      let bytes := bytes ++ chunk in
      if limit <? blen bytes then
        Err match kind with RequestLimit => RequestTooLarge | ResponseLimit => ResponseTooLarge end
      else
        match list_find (λ b, b = 10) bytes with
        | Some (newline, _) =>
            if existsb (λ b, negb (is_ascii_whitespace b)) (drop (S newline) bytes)
            then Err InvalidResponse
            else Ok (take newline bytes)
        | None => read_bounded limit kind bytes reads
        end
  end.

(** The loop of [write_json_line] over what is left; the second component is what the peer
    gets. *)
Fixpoint write_all (bytes : bytes) (writes : list WriteOutcome) : result HealthError unit * list Z :=
  match bytes with
  | [] => (Ok tt, [])
  | _ =>
      match writes with
      | [] | WriteFailed :: _ => (Err HealthIo, [])
      | WriteInterrupted :: writes => write_all bytes writes
      | Written O :: _ => (Err HealthIo, [])
      | Written n :: writes =>
          match write_all (drop n bytes) writes with (r, sent) => (r, take n bytes ++ sent) end
      end
  end.

Definition write_json_line (json : bytes) (writes : list WriteOutcome) : result HealthError unit * bytes :=
  write_all (json ++ [10]) writes.

(** ** The clients' threads *)

(** [reserve_client]: the new count, unless the limit is reached. *)
Definition reserve_client (count : Z) : option Z :=
  if count <? MAX_ACTIVE_CLIENTS then Some (count + 1) else None.
(** [ClientReservation::drop] *)
Definition release_client (count : Z) : Z := count - 1.

(** What becomes of a forwarded request: the channel is full or closed, no reply comes in
    time, or the main loop replies. *)
Inductive ControlFate :=
| ChannelRefused
| NoReply
| Replied (r : result text DashboardSnapshot).

Definition error_reply (error : text) : Reply := ReplyError HEALTH_PROTOCOL_VERSION false error.

Definition forward_control (fate : ControlRequest → ControlFate) (request : ControlRequest) : result HealthError Reply :=
  match fate request with
  | ChannelRefused => Ok (error_reply (ascii_bytes "host_busy"))
  | NoReply => Err InvalidResponse
  | Replied (Ok snapshot) => Ok (ReplyDashboard snapshot)
  | Replied (Err error) => Ok (error_reply error)
  end.

Section clients.
Context `{ControlSerde}.

(** On Windows the request comes in an envelope with the endpoint's token. *)
Definition parse_request (auth_token : option text) (request_bytes : bytes) : option HostRequest :=
  match auth_token with
  | None => request_from_slice request_bytes
  | Some auth_token =>
      '(token, request) ← authenticated_from_slice request_bytes;
      if bool_decide (token = auth_token) then Some request else None
  end.

(** [handle_client] on the request line: what is written back. *)
Definition handle_client (auth_token : option text) (snapshot : HealthSnapshot) (fate : ControlRequest → ControlFate)
    (reads : list ReadOutcome) : result HealthError Reply :=
  let? request_bytes := read_bounded MAX_REQUEST_BYTES RequestLimit [] reads in
  match parse_request auth_token request_bytes with
  | Some (Health v) =>
      if v =? HEALTH_PROTOCOL_VERSION then Ok (ReplyHealth snapshot)
      else Ok (error_reply (ascii_bytes "invalid_request"))
  | Some (Dashboard v) =>
      if v =? HEALTH_PROTOCOL_VERSION then forward_control fate ControlDashboard
      else Ok (error_reply (ascii_bytes "invalid_request"))
  | Some (BindSlot v slot task_id expected_generation) =>
      if v =? HEALTH_PROTOCOL_VERSION then forward_control fate (ControlBindSlot slot task_id expected_generation)
      else Ok (error_reply (ascii_bytes "invalid_request"))
  | None => Ok (error_reply (ascii_bytes "invalid_request"))
  end.

End clients.

(** ** The main loop's side *)

(** [BTreeMap::from_iter(l).get(k)]: the last entry of a key counts. *)
Definition lookup_last {K A} `{EqDecision K} (key : A → K) (k : K) (l : list A) : option A :=
  head (filter (λ a, key a = k) (reverse l)).

(** [binding.map(query).transpose()] on the store's connection *)
Definition ask {A B} (o : option A) (query : A → Tx B) (store : Db) : result text (option B) :=
  match o with
  | None => Ok None
  | Some a => match query a store with Ok (b, _) => Ok (Some b) | Err _ => Err (ascii_bytes "state_failed") end
  end.

(** [.flatten()] *)
Definition flatten {A} (o : option (option A)) : option A := a ← o; a.

Section dashboard.
Context `{Externals, Crypto, Serde, IndexSerde} (codex_home : path).

(** What is shown of a slot: its binding, the binding's task, and what the store told of it. *)
Definition show_slot (slot : Z) (binding : option Binding) (task : option CodexTask) (pending_jobs : option Z)
    (unread : option (option UnreadSummary)) (latest_job : option (option (text * option text))) : DashboardSlot :=
  let unread := flatten unread in
  let latest_job := flatten latest_job in
  {| sl_slot := slot;
     sl_task_id := bd_task_id <$> binding;
     sl_task_name := ct_name <$> task;
     sl_project := ct_project <$> task;
     sl_binding_generation := bd_generation <$> binding;
     sl_pending_jobs := default 0 pending_jobs;
     sl_unread_generation := us_generation <$> unread;
     sl_unread_coverage := us_coverage_count <$> unread;
     sl_latest_job_state := fst <$> latest_job;
     sl_latest_job_failure := job ← latest_job; snd job |}.

Definition bound_to (bs : list Binding) (slot : Z) : option Binding := lookup_last bd_slot slot bs.
Definition task_of (tasks : list CodexTask) (binding : option Binding) : option CodexTask :=
  binding ← binding; lookup_last ct_task_id (bd_task_id binding) tasks.

Definition ask_pending (binding : option Binding) : Db → result text (option Z) :=
  ask binding (λ b, pending_count (bd_task_id b)).
Definition ask_unread (binding : option Binding) : Db → result text (option (option UnreadSummary)) :=
  ask binding (λ b, current_unread_summary (bd_task_id b)).
Definition ask_latest (binding : option Binding) : Db → result text (option (option (text * option text))) :=
  ask binding (λ b, latest_job_outcome (bd_task_id b) (bd_generation b)).

Definition dashboard_slot (tasks : list CodexTask) (bs : list Binding) (store : Db) (slot : Z) : result text DashboardSlot :=
  let binding := bound_to bs slot in
  let? pending_jobs := ask_pending binding store in
  let? unread := ask_unread binding store in
  let? latest_job := ask_latest binding store in
  Ok (show_slot slot binding (task_of tasks binding) pending_jobs unread latest_job).

(** The loop over the slots, with its early returns. *)
Fixpoint dashboard_slots (tasks : list CodexTask) (bs : list Binding) (store : Db) (slots : list Z)
    : result text (list DashboardSlot) :=
  match slots with
  | [] => Ok []
  | slot :: slots =>
      let? s := dashboard_slot tasks bs store slot in
      let? rest := dashboard_slots tasks bs store slots in
      Ok (s :: rest)
  end.

Definition dashboard_task (task : CodexTask) : DashboardTask :=
  mk_dashboard_task (ct_task_id task) (ct_name task) (ct_project task) (ct_updated_at_ms task) (ct_pinned task).

(** [configured] is [dashscope_ready]: whether the key store holds the speech key. *)
Definition show_dashboard (lan : LanVoiceDiagnosticsSnapshot) (configured : bool) (tasks : list CodexTask)
    (slots : list DashboardSlot) : DashboardSnapshot :=
  {| dd_v := HEALTH_PROTOCOL_VERSION; dd_tasks := dashboard_task <$> tasks; dd_slots := slots; dd_lan := lan;
     dd_provider := mk_provider configured (ascii_bytes "cn-beijing") ASR_MODEL TTS_MODEL SUMMARY_TTS_VOICE |}.

Definition build_dashboard (files : nat → CatalogFiles) (lan : LanVoiceDiagnosticsSnapshot) (configured : bool) (store : Db)
    : result text DashboardSnapshot :=
  match list_tasks codex_home files with
  | Err _ => Err (ascii_bytes "catalog_failed")
  | Ok tasks =>
      match bindings store with
      | Err _ => Err (ascii_bytes "state_failed")
      | Ok (bs, _) =>
          let? slots := dashboard_slots tasks bs store [1; 2; 3; 4] in
          Ok (show_dashboard lan configured tasks slots)
      end
  end.

(** The catalogue is read again for the dashboard that follows a binding. *)
Definition process_control_request (files files' : nat → CatalogFiles) (now : Z) (lan : LanVoiceDiagnosticsSnapshot)
    (configured : bool) (request : ControlRequest) (store : Db) : result text DashboardSnapshot * Db :=
  match request with
  | ControlDashboard => (build_dashboard files lan configured store, store)
  | ControlBindSlot slot task_id expected_generation =>
      match bind codex_home files now slot expected_generation task_id store with
      | (Err _, store) => (Err (ascii_bytes "binding_failed"), store)
      | (Ok None, store) => (Err (ascii_bytes "stale_binding"), store)
      | (Ok (Some _), store) => (build_dashboard files' lan configured store, store)
      end
  end.

End dashboard.

(** ** The desktop's side *)

Section desktop.
Context `{Externals, ControlSerde}.

Fixpoint validate_tasks (task_ids : list text) (tasks : list DashboardTask) : result HealthError unit :=
  match tasks with
  | [] => Ok tt
  | task :: tasks =>
      if negb (uuid_ok (da_task_id task)) || bool_decide (da_name task = []) || bool_decide (da_project task = [])
         || bool_decide (da_task_id task ∈ task_ids)
      then Err InvalidResponse
      else validate_tasks (da_task_id task :: task_ids) tasks
  end.

Fixpoint validate_slots (seen : list Z) (slots : list DashboardSlot) : result HealthError unit :=
  match slots with
  | [] => Ok tt
  | slot :: slots =>
      if negb ((1 <=? sl_slot slot) && (sl_slot slot <=? 4)) || bool_decide (sl_slot slot ∈ seen)
         || bool_decide (sl_binding_generation slot = Some 0)
         || match sl_task_id slot with Some task_id => negb (uuid_ok task_id) | None => false end
      then Err InvalidResponse
      else validate_slots (sl_slot slot :: seen) slots
  end.

Definition validate_dashboard (d : DashboardSnapshot) : result HealthError unit :=
  if negb (dd_v d =? HEALTH_PROTOCOL_VERSION)
     || (MAX_PINNED_TASKS + MAX_RECENT_TASKS <? length (dd_tasks d))%nat
     || negb (length (dd_slots d) =? 4)%nat
     || negb (bool_decide (pv_region (dd_provider d) = ascii_bytes "cn-beijing"))
     || negb (bool_decide (pv_asr_model (dd_provider d) = ASR_MODEL))
     || negb (bool_decide (pv_tts_model (dd_provider d) = TTS_MODEL))
     || negb (bool_decide (pv_voice (dd_provider d) = SUMMARY_TTS_VOICE))
  then Err InvalidResponse
  else
    let? _ := validate_tasks [] (dd_tasks d) in
    validate_slots [] (dd_slots d).

(** [query_host] after the socket was checked and connected. *)
Definition query_host {T} (from_slice : bytes → option T) (reads : list ReadOutcome) : result HealthError T :=
  let? response := read_bounded MAX_RESPONSE_BYTES ResponseLimit [] reads in
  match error_reply_from_slice response with
  | Some (v, ok, error) =>
      if (v =? HEALTH_PROTOCOL_VERSION) && negb ok && negb (bool_decide (error = []))
      then Err (Rejected error)
      else of_option InvalidResponse (from_slice response)
  | None => of_option InvalidResponse (from_slice response)
  end.

Definition query_health (reads : list ReadOutcome) : result HealthError HealthSnapshot :=
  let? health := query_host health_from_slice reads in
  if negb (hl_v health =? HEALTH_PROTOCOL_VERSION)
     || negb (bool_decide (hl_socket health = ascii_bytes "run/" ++ HEALTH_SOCKET_NAME))
     || bool_decide (hl_host_version health = []) || (hl_pid health =? 0)
  then Err InvalidResponse
  else Ok health.

Definition query_dashboard (reads : list ReadOutcome) : result HealthError DashboardSnapshot :=
  let? dashboard := query_host dashboard_from_slice reads in
  let? _ := validate_dashboard dashboard in
  Ok dashboard.

(** The guards of [bind_dashboard_slot] before it connects: the request it sends. *)
Definition bind_request (slot : Z) (task_id : text) (expected_generation : option Z) : result HealthError HostRequest :=
  if negb ((1 <=? slot) && (slot <=? 4)) || negb (uuid_ok task_id) || bool_decide (expected_generation = Some 0)
  then Err InvalidResponse
  else Ok (BindSlot HEALTH_PROTOCOL_VERSION slot task_id expected_generation).

(** The line the desktop sends. *)
Definition request_line (auth_token : option text) (request : HostRequest) : bytes :=
  match auth_token with None => request_to_vec request | Some token => authenticated_to_vec token request end.

End desktop.
