(* ===== verification/ControlProps.v ===== *)
(** * The control endpoint: lines cross the socket whole, and what they carry

    [read_bounded] returns exactly the line that was written, however it is cut, unless it is
    longer than the limit.  A slot of a dashboard shows its binding and the work on its task
    ([slot_shows]).  A dashboard of a reachable store passes every check of the desktop but
    one: the projects must have names. *)

From stdpp Require Import gmap.
From S2P Require Import Prelude Bytes CacheRef Sql StoreTypes StoreJobs StoreRollout.
From S2P Require Import StoreSummary StorePlayback SummaryInv SummaryOps SummaryClaims.
From S2P Require Import SummaryPublish PlaybackOps StoreSystem TtsCache Orchestrator TurnPack.
From S2P Require Import Catalog CatalogProps PromptQueue Control.

(** ** Lines *)

(** The calls of [read] that together give [b]. *)
Inductive delivers : list ReadOutcome → bytes → Prop :=
| delivers_nil : delivers [] []
| delivers_interrupted reads b : delivers reads b → delivers (ReadInterrupted :: reads) b
| delivers_chunk c reads b : c ≠ [] → delivers reads b → delivers (ReadBytes c :: reads) (c ++ b).

Definition too_large (kind : LimitKind) : HealthError :=
  match kind with RequestLimit => RequestTooLarge | ResponseLimit => ResponseTooLarge end.

(** What the reader of a line of JSON gets. *)
Definition line_read (limit : Z) (kind : LimitKind) (json : bytes) : result HealthError bytes :=
  if limit <? blen json + 1 then Err (too_large kind) else Ok json.

Lemma find_newline line : 10 ∉ line → list_find (λ b, b = 10) (line ++ [10]) = Some (length line, 10).
Proof.
  intros Hn. apply list_find_Some. split_and!; [by apply list_lookup_middle|done|].
  intros i b Hi Hlt ->. rewrite lookup_app_l in Hi by done. apply Hn. by eapply list_elem_of_lookup_2.
Qed.

Lemma no_newline line : 10 ∉ line → list_find (λ b, b = 10) line = None.
Proof. intros Hn. apply list_find_None, Forall_forall. intros b Hb ->. done. Qed.

Lemma read_bounded_from limit kind line reads before b :
  delivers reads b → before ++ b = line ++ [10] → 10 ∉ line → b ≠ [] →
  read_bounded limit kind before reads = line_read limit kind line.
Proof.
  intros Hd. revert before. induction Hd as [|reads b _ IH|c reads b Hc Hd IH]; intros before E Hn Hb; [done|by apply IH|].
  cbn [read_bounded]. destruct c as [|x c]; [done|]. set (chunk := x :: c) in *.
  rewrite app_assoc in E. unfold line_read, blen. destruct b as [|y b'].
  - rewrite app_nil_r in E. rewrite E, find_newline, length_app by done. cbn [length].
    replace (Z.of_nat (length line + 1)) with (Z.of_nat (length line) + 1) by lia.
    destruct (_ <? _); [done|]. by rewrite drop_ge, take_app_length by (rewrite length_app; simpl; lia).
  - (* more is to come: the line feed is its last byte *)
    destruct (exists_last (l := y :: b')) as (b1 & z & Eb); [done|]. rewrite Eb, app_assoc in E.
    apply app_inj_2 in E as [E [= ->]]; [|done].
    assert (length (before ++ chunk) <= length line)%nat as Hlen by (rewrite <- E, !length_app; lia).
    destruct (limit <? Z.of_nat (length (before ++ chunk))) eqn:El.
    { bool_prop. destruct (Z.ltb_spec limit (Z.of_nat (length line) + 1)); [done|lia]. }
    rewrite no_newline by (rewrite <- E in Hn; intros Hin; apply Hn, elem_of_app; by left).
    rewrite IH; [done|by rewrite Eb, app_assoc, E|done|done].
Qed.

Lemma read_bounded_line limit kind json reads :
  delivers reads (json ++ [10]) → 10 ∉ json → read_bounded limit kind [] reads = line_read limit kind json.
Proof. intros Hd Hn. by eapply read_bounded_from; [exact Hd| | |destruct json]. Qed.

Lemma write_all_prefix b writes : ∃ rest, b = (write_all b writes).2 ++ rest ∧ (is_ok (write_all b writes).1 → rest = []).
Proof.
  revert b. induction writes as [|w writes IH]; intros b; destruct b as [|x b]; cbn [write_all].
  1,3: by exists []. { eexists. split; [done|]. by intros []. }
  destruct w as [[|n]| |].
  - eexists. split; [done|]. by intros [].
  - destruct (IH (drop (S n) (x :: b))) as (rest & E & Hok). destruct (write_all (drop _ _) writes) as [r sent]. cbn [fst snd] in *.
    exists rest. split; [|done]. by rewrite <- app_assoc, <- E, take_drop.
  - apply IH.
  - eexists. split; [done|]. by intros [].
Qed.

(** A line of JSON crosses the socket whole.  Whatever the calls of [write] accept, the
    peer receives an initial part of the line, all of it when [write_json_line] succeeds;
    and however the line is cut into reads, with interruptions, [read_bounded] returns
    exactly the JSON, or the error of its limit when the line is longer. *)
Theorem control_line_round_trip limit kind json writes reads :
  10 ∉ json → delivers reads (json ++ [10]) →
  read_bounded limit kind [] reads = line_read limit kind json
  ∧ (write_json_line json writes).2 `prefix_of` json ++ [10]
  ∧ (is_ok (write_json_line json writes).1 → (write_json_line json writes).2 = json ++ [10]).
Proof.
  intros Hn Hd. split; [by apply read_bounded_line|]. unfold write_json_line.
  destruct (write_all_prefix (json ++ [10]) writes) as (rest & E & Hok). split; [by exists rest|].
  intros ->%Hok. by rewrite app_nil_r in E.
Qed.

(** ** The dashboard *)

Lemma lookup_last_in {K A} `{EqDecision K} (key : A → K) k l a : lookup_last key k l = Some a → a ∈ l ∧ key a = k.
Proof.
  unfold lookup_last. intros Hh%head_Some_elem_of. apply list_elem_of_filter in Hh as [? Hin].
  by rewrite elem_of_reverse in Hin.
Qed.

Section dashboard.
Context `{Externals, Crypto, Serde, IndexSerde} (codex_home : path).

Lemma bindings_generation store bs store' b :
  store_inv store → bindings store = Ok (bs, store') → b ∈ bs → bd_generation b ≠ 0.
Proof.
  intros Hi Hb Hin. unfold bindings, query_result, query_bindings in Hb. apply rbind_ok in Hb as (bs' & Hc & [= -> _]).
  apply collect_ok in Hc. apply list_elem_of_lookup in Hin as [i Hi'].
  destruct (Forall2_lookup_r _ _ _ _ _ Hc Hi') as (x & Hx & ->).
  apply list_lookup_fmap_Some in Hx as (r & Er & Hr). apply list_elem_of_lookup_2 in Hr.
  apply elem_of_take in Hr as (j & Hj & _). apply list_elem_of_lookup_2 in Hj. rewrite elem_of_order_by in Hj.
  symmetry in Er. unfold binding_of in Er. apply rbind_ok in Er as (slot & _ & [= <-]). cbn [bd_generation].
  pose proof (bindings_schema_of _ (inv_schema _ Hi)) as [_ Hs]. pose proof (inv_bindings _ Hi) as Hr.
  unfold bindings_range in Hr. rewrite Forall_forall in Hs, Hr. pose proof (Hs r Hj) as [_ ?]. pose proof (Hr r Hj).
  cbv beta in *. rewrite as_u64_small; width_lia.
Qed.

Lemma ask_ok {A B} (o : option A) (q : A → Tx B) store r a :
  ask o q store = Ok r → o = Some a → ∃ b store', q a store = Ok (b, store').
Proof. intros Hr ->. cbn in Hr. destruct (q a store) as [[b store']|] eqn:E; [|done]. by exists b, store'. Qed.

Lemma dashboard_slot_ok tasks bs store store' slot s :
  store_inv store → bindings store = Ok (bs, store') → dashboard_slot tasks bs store slot = Ok s →
  sl_slot s = slot ∧ sl_binding_generation s ≠ Some 0
  ∧ (∀ id, sl_task_id s = Some id → uuid_ok id = true).
Proof.
  intros Hi Hb. unfold dashboard_slot. intros (p & Hp & (u & Hu & (j & Hj & [= <-])%rbind_ok)%rbind_ok)%rbind_ok. cbn.
  split; [done|]. split.
  - intros (b & Hl & E)%fmap_Some. apply lookup_last_in in Hl as [Hin _]. symmetry in E. by eapply bindings_generation in Hin.
  - intros id (b & Hl & ->)%fmap_Some. apply (ask_ok _ _ _ _ b) in Hu as (o & st & Hq); [|done].
    unfold current_unread_summary in Hq. by destruct (uuid_ok (bd_task_id b)).
Qed.

(** ** What the slots show *)

(** The key-1-to-4 bindings that the query returns are the rows of the table. *)
Lemma bindings_rows store bs store' :
  store_inv store → bindings store = Ok (bs, store') →
  ∀ b, b ∈ bs ↔ ∃ row, row ∈ db_bindings store ∧ b = mk_binding (br_slot row) (br_task_id row) (br_generation row).
Proof.
  intros Hi Hb b. unfold bindings, query_result, query_bindings in Hb. apply rbind_ok in Hb as (bs' & Hc & [= -> _]).
  pose proof (bindings_schema_of _ (inv_schema _ Hi)) as [Hu Hs]. pose proof (inv_bindings _ Hi) as Hr.
  unfold bindings_range in Hr. rewrite Forall_forall in Hs, Hr.
  rewrite take_ge in Hc.
  2:{ rewrite length_order_by, <- (length_fmap br_slot). change 4%nat with (length [1; 2; 3; 4]).
      apply NoDup_incl_length.
      - apply NoDup_ListNoDup, NoDup_alt. intros i j x (r & -> & Hi')%list_lookup_fmap_Some (r' & E & Hj)%list_lookup_fmap_Some.
        by apply (Hu i j r r').
      - intros x (r & -> & Hin)%list_elem_of_In%list_elem_of_fmap. apply list_elem_of_In.
        destruct (Hs r Hin) as [[? ?] _]. assert (br_slot r = 1 ∨ br_slot r = 2 ∨ br_slot r = 3 ∨ br_slot r = 4) by lia. rewrite !elem_of_cons. tauto. }
  assert (∀ r, r ∈ db_bindings store → binding_of r = Ok (mk_binding (br_slot r) (br_task_id r) (br_generation r))) as Hof.
  { intros r Hin. destruct (Hs r Hin) as [[? ?] ?]. pose proof (Hr r Hin) as Hg. cbv beta in Hg. unfold binding_of.
    rewrite sql_u8_fit by width_lia. cbn. by rewrite as_u64_small by width_lia. }
  apply collect_ok in Hc. split.
  - intros [i Hi']%list_elem_of_lookup. destruct (Forall2_lookup_r _ _ _ _ _ Hc Hi') as (x & Hx & ->).
    apply list_lookup_fmap_Some in Hx as (r & Er & Hin%list_elem_of_lookup_2). rewrite elem_of_order_by in Hin.
    exists r. split; [done|]. rewrite Hof in Er by done. by injection Er.
  - intros (r & Hin & ->). assert (r ∈ order_by (λ a b, br_slot a <=? br_slot b) (db_bindings store)) as [i Hi']%list_elem_of_lookup
      by by rewrite elem_of_order_by.
    destruct (Forall2_lookup_l _ _ _ i (binding_of r) Hc) as (b' & Hb' & E); [by rewrite list_lookup_fmap, Hi'|].
    rewrite Hof in E by done. injection E as ->. by eapply list_elem_of_lookup_2.
Qed.

Lemma lookup_last_none {K A} `{EqDecision K} (key : A → K) k l : lookup_last key k l = None → ∀ a, a ∈ l → key a ≠ k.
Proof.
  unfold lookup_last. intros Hh a Hin E. assert (a ∈ filter (λ a, key a = k) (reverse l)) as Hf
    by (apply list_elem_of_filter; by rewrite elem_of_reverse).
  destruct (filter _ _); [by apply not_elem_of_nil in Hf|done].
Qed.

Lemma bound_to_spec store bs store' slot :
  store_inv store → bindings store = Ok (bs, store') →
  (∀ row, row ∈ db_bindings store → br_slot row = slot →
     bound_to bs slot = Some (mk_binding slot (br_task_id row) (br_generation row)))
  ∧ ((∀ row, row ∈ db_bindings store → br_slot row ≠ slot) → bound_to bs slot = None).
Proof.
  intros Hi Hb. pose proof (bindings_rows _ _ _ Hi Hb) as Hrows. pose proof (bindings_schema_of _ (inv_schema _ Hi)) as [Hu _].
  unfold bound_to. destruct (lookup_last bd_slot slot bs) as [b|] eqn:El.
  - apply lookup_last_in in El as [(row & Hin & ->)%Hrows Hslot]. cbn in Hslot. subst slot. split; [|by intros Hno; destruct (Hno row Hin)].
    intros row' Hin' E. apply list_elem_of_lookup in Hin as [i Hi1], Hin' as [j Hj1].
    rewrite (Hu j i row' row Hj1 Hi1 I I E) in Hj1. by simplify_eq.
  - split; [|done]. intros row Hin E. exfalso. by eapply (lookup_last_none _ _ _ El); [apply Hrows; eauto|].
Qed.

(** The unread summary of a task, as shown: its row's generation and its coverage. *)
Definition unread_shown (store : Db) (task_id : text) (s : DashboardSlot) : Prop :=
  (∀ r, r ∈ db_summaries store → sm_task_id r = task_id → current_unread r →
     sl_unread_generation s = Some (sm_generation r)
     ∧ sl_unread_coverage s = Some (coverage_of task_id (sm_generation r) store))
  ∧ ((∀ r, r ∈ db_summaries store → sm_task_id r = task_id → ¬ current_unread r) →
     sl_unread_generation s = None ∧ sl_unread_coverage s = None).

(** The last job of a binding, as shown. *)
Definition latest_shown (store : Db) (task_id : text) (generation : Z) (s : DashboardSlot) : Prop :=
  (∀ r, r ∈ db_jobs store → jb_task_id r = task_id → jb_generation r = generation →
     (∀ r', r' ∈ db_jobs store → jb_task_id r' = task_id → jb_generation r' = generation → jb_sequence r' <= jb_sequence r) →
     sl_latest_job_state s = Some (job_state_text (jb_state r))
     ∧ sl_latest_job_failure s = failure_as_str <$> jb_failure_kind r)
  ∧ ((∀ r, r ∈ db_jobs store → jb_task_id r = task_id → jb_generation r ≠ generation) →
     sl_latest_job_state s = None ∧ sl_latest_job_failure s = None).

(** The task of a binding, as shown: named if the catalogue lists it. *)
Definition task_shown (tasks : list CodexTask) (task_id : text) (s : DashboardSlot) : Prop :=
  (∀ t, t ∈ tasks → ct_task_id t = task_id → sl_task_name s = Some (ct_name t) ∧ sl_project s = Some (ct_project t))
  ∧ ((∀ t, t ∈ tasks → ct_task_id t ≠ task_id) → sl_task_name s = None ∧ sl_project s = None).

(** A slot of the dashboard shows the row of its binding in the store, the work waiting for
    its task, and is empty without one. *)
Definition slot_shows (tasks : list CodexTask) (store : Db) (slot : Z) (s : DashboardSlot) : Prop :=
  sl_slot s = slot
  ∧ (∀ row, row ∈ db_bindings store → br_slot row = slot →
       sl_task_id s = Some (br_task_id row) ∧ sl_binding_generation s = Some (br_generation row)
       ∧ sl_pending_jobs s = count_rows (pending (br_task_id row)) (db_jobs store)
       ∧ task_shown tasks (br_task_id row) s ∧ unread_shown store (br_task_id row) s
       ∧ latest_shown store (br_task_id row) (br_generation row) s)
  ∧ ((∀ row, row ∈ db_bindings store → br_slot row ≠ slot) →
       s = mk_dashboard_slot slot None None None None 0 None None None None).

Lemma unread_answer store task_id o st :
  store_inv store → current_unread_summary task_id store = Ok (o, st) →
  ∀ s, sl_unread_generation s = us_generation <$> o → sl_unread_coverage s = us_coverage_count <$> o →
  unread_shown store task_id s.
Proof.
  intros Hi Hq s Eg Ec. unfold current_unread_summary in Hq. destruct (uuid_ok task_id); [|done]. cbn [negb] in Hq.
  apply rbind_ok in Hq as (o' & Hq & [= -> _]). unfold unread_shown. rewrite Eg, Ec. split.
  - intros r Hr Ht Hu. destruct (current_unread_row _ _ _ _ (inv_schema _ Hi) (inv_summaries _ Hi) Hq Hr Ht Hu) as (u & -> & E1 & E2).
    cbn. by rewrite E1, E2.
  - intros Hno. destruct o as [u|]; [|done]. apply current_unread_ok in Hq as (r & Hr & Ht & Hu & _). by destruct (Hno r Hr Ht).
Qed.

Lemma latest_answer store task_id generation o st :
  store_inv store → 0 <= generation <= i64_max → latest_job_outcome task_id generation store = Ok (o, st) →
  ∀ s, sl_latest_job_state s = fst <$> o → sl_latest_job_failure s = (j ← o; snd j) → latest_shown store task_id generation s.
Proof.
  intros Hi Hg Hq s Es Ef. unfold latest_job_outcome, tbind, lift in Hq. rewrite to_i64_fit in Hq by width_lia. cbn [rbind fst snd] in Hq.
  injection Hq as <- _. unfold latest_shown. rewrite Es, Ef.
  set (t := filter (λ r, jb_task_id r = task_id ∧ jb_generation r = generation) (db_jobs store)) in *.
  assert (∀ r, r ∈ t ↔ r ∈ db_jobs store ∧ jb_task_id r = task_id ∧ jb_generation r = generation) as Ht
    by (intros r; unfold t; rewrite list_elem_of_filter; tauto).
  destruct (head (order_by (λ a b, sequence_le b a) t)) as [r0|] eqn:Eh; cbn [fmap option_fmap option_map].
  - apply head_order_by_least in Eh as [Hlast%Ht Hmax];
      [|by unfold sequence_le; intros a b ?%Z.leb_gt; apply Z.leb_le; lia
       |by unfold sequence_le; intros a b c ?%Z.leb_le ?%Z.leb_le; apply Z.leb_le; lia
       |by intros a; apply Z.leb_refl].
    split; [|by intros Hno; destruct (Hno r0); tauto]. intros r Hr Hrt Hrg Hall.
    assert (jb_sequence r = jb_sequence r0) as E.
    { specialize (Hmax r (proj2 (Ht r) (conj Hr (conj Hrt Hrg)))). unfold sequence_le in Hmax. apply Z.leb_le in Hmax.
      destruct Hlast as (H01 & H02 & H03). specialize (Hall r0 H01 H02 H03). lia. }
    destruct Hlast as (H01 & _). destruct (ji_schema _ (inv_jobs _ Hi)) as (Hu & _).
    apply list_elem_of_lookup in H01 as [i Hi1], Hr as [j Hj1]. rewrite (Hu j i r r0 Hj1 Hi1 I I E) in Hj1. by simplify_eq.
  - assert (t = []) as Et.
    { destruct t as [|x t]; [done|]. assert (x ∈ order_by (λ a b, sequence_le b a) (x :: t)) as Hx by (rewrite elem_of_order_by; by left).
      destruct (order_by _ _); [by apply not_elem_of_nil in Hx|done]. }
    split; [|done]. intros r Hr Hrt Hrg _. assert (r ∈ t) as Hin by (apply Ht; done). rewrite Et in Hin. by apply not_elem_of_nil in Hin.
Qed.

Lemma task_of_shown tasks b s :
  NoDup (ct_task_id <$> tasks) →
  sl_task_name s = ct_name <$> task_of tasks (Some b) → sl_project s = ct_project <$> task_of tasks (Some b) →
  task_shown tasks (bd_task_id b) s.
Proof.
  intros Hnd En Ep. unfold task_shown. rewrite En, Ep. cbn.
  destruct (lookup_last ct_task_id (bd_task_id b) tasks) as [t|] eqn:El.
  - apply lookup_last_in in El as [Hin Et]. split; [|by intros Hno; destruct (Hno t Hin)]. intros t' Hin' Et'.
    assert (t' = t) as ->; [|done]. apply list_elem_of_lookup in Hin as [i Hi], Hin' as [j Hj].
    assert (i = j) as ->; [|congruence]. eapply NoDup_lookup; [exact Hnd|by rewrite list_lookup_fmap, Hi|].
    rewrite list_lookup_fmap, Hj. cbn. congruence.
  - split; [|done]. intros t Hin Et. exfalso. by eapply lookup_last_none in El.
Qed.

Lemma dashboard_slot_shows tasks bs store store' slot s :
  store_inv store → NoDup (ct_task_id <$> tasks) → bindings store = Ok (bs, store') →
  dashboard_slot tasks bs store slot = Ok s → slot_shows tasks store slot s.
Proof.
  intros Hi Hnd Hb. destruct (bound_to_spec _ _ _ slot Hi Hb) as [Hsome Hnone]. unfold dashboard_slot.
  intros (p & Hp & (u & Hu & (j & Hj & [= <-])%rbind_ok)%rbind_ok)%rbind_ok. split; [done|]. split.
  - intros row Hin Hslot. rewrite (Hsome row Hin Hslot) in Hp, Hu, Hj |- *. set (b := mk_binding slot _ _) in *.
    pose proof (bindings_schema_of _ (inv_schema _ Hi)) as [_ Hs]. pose proof (inv_bindings _ Hi) as Hr.
    unfold bindings_range in Hr. rewrite Forall_forall in Hs, Hr. destruct (Hs row Hin) as [_ Hg]. pose proof (Hr row Hin) as Hg'. cbv beta in Hg'.
    unfold ask_pending, ask_unread, ask_latest, ask in Hp, Hu, Hj.
    destruct (pending_count _ store) as [[n st1]|] eqn:E1; [|done]. destruct (current_unread_summary _ store) as [[o st2]|] eqn:E2; [|done].
    destruct (latest_job_outcome _ _ store) as [[l st3]|] eqn:E3; [|done]. injection Hp as <-. injection Hu as <-. injection Hj as <-.
    split_and!; [done|done| |by apply (task_of_shown tasks b)| |].
    + cbn. unfold pending_count, query_result in E1. apply rbind_ok in E1 as (v & Hv & [= <- _]). unfold sql_u32 in Hv.
      case_match; by simplify_eq.
    + by eapply (unread_answer _ _ _ _ Hi E2).
    + eapply (latest_answer _ _ _ _ _ Hi); [|exact E3|done..]. cbn. lia.
  - intros Hno. rewrite (Hnone Hno) in Hp, Hu, Hj |- *. injection Hp as <-. injection Hu as <-. by injection Hj as <-.
Qed.

Lemma dashboard_slots_ok tasks bs store store' slots l :
  store_inv store → bindings store = Ok (bs, store') → dashboard_slots tasks bs store slots = Ok l →
  Forall2 (λ slot s, sl_slot s = slot ∧ sl_binding_generation s ≠ Some 0
    ∧ (∀ id, sl_task_id s = Some id → uuid_ok id = true)) slots l.
Proof.
  intros Hi Hb. revert l. induction slots as [|slot slots IH]; intros l; cbn [dashboard_slots]; [intros [= <-]; constructor|].
  intros (s & Hs & (rest & Hr & [= <-])%rbind_ok)%rbind_ok. constructor; [|by apply IH].
  by eapply dashboard_slot_ok.
Qed.

Lemma validate_slots_ok (slots : list Z) l seen :
  Forall2 (λ slot s, sl_slot s = slot ∧ sl_binding_generation s ≠ Some 0
    ∧ (∀ id, sl_task_id s = Some id → uuid_ok id = true)) slots l →
  Forall (λ slot, 1 ≤ slot ≤ 4) slots → NoDup slots → (∀ slot, slot ∈ slots → slot ∉ seen) →
  validate_slots seen l = Ok tt.
Proof.
  intros Hf. revert seen. induction Hf as [|slot s slots l (<- & Hg & Hid) Hf IH]; intros seen Hr Hnd Hs; [done|].
  cbn [validate_slots]. apply Forall_cons in Hr as [Hr1 Hr]. apply NoDup_cons in Hnd as [Hn Hnd].
  rewrite (bool_decide_eq_false_2 (sl_slot s ∈ seen)) by (apply Hs; by left).
  rewrite (bool_decide_eq_false_2 (sl_binding_generation s = Some 0)) by done.
  replace (_ <=? _) with true by lia. replace (_ <=? _) with true by lia. cbn [andb negb orb].
  assert (match sl_task_id s with Some id => negb (uuid_ok id) | None => false end = false) as ->.
  { destruct (sl_task_id s) as [id|]; [|done]. by rewrite (Hid id). }
  apply IH; [done..|]. intros slot Hin. rewrite not_elem_of_cons. split; [congruence|]. apply Hs. by right.
Qed.

Lemma ask_err {A B} (o : option A) (q : A → Tx B) store e : ask o q store = Err e → e = ascii_bytes "state_failed".
Proof. unfold ask. destruct o; [|done]. destruct (q a store) as [[]|]; [done|]. by intros [= <-]. Qed.

Lemma dashboard_slots_err tasks bs store slots e :
  dashboard_slots tasks bs store slots = Err e → e = ascii_bytes "state_failed".
Proof.
  induction slots as [|slot slots IH]; cbn [dashboard_slots]; [done|].
  intros [Hs|(s & _ & [Hr|(rest & _ & [=])]%rbind_err)]%rbind_err; [|by apply IH].
  unfold dashboard_slot in Hs. repeat (apply rbind_err in Hs as [Hs|(? & _ & Hs)]; [by apply ask_err in Hs|]). done.
Qed.

Lemma build_dashboard_err files lan configured store e :
  build_dashboard codex_home files lan configured store = Err e →
  e = ascii_bytes "catalog_failed" ∨ e = ascii_bytes "state_failed".
Proof.
  unfold build_dashboard. destruct (list_tasks codex_home files); [|left; congruence].
  destruct (bindings store) as [[bs st]|]; [|right; congruence].
  intros [Hs|(? & _ & [=])]%rbind_err. right. by eapply dashboard_slots_err.
Qed.

Definition unnamed_project (t : CodexTask) : bool := bool_decide (ct_project t = []).

Lemma validate_tasks_spec tasks seen :
  Forall (λ t, uuid_ok (ct_task_id t) = true ∧ ct_name t ≠ []) tasks → NoDup (ct_task_id <$> tasks) →
  (∀ t, t ∈ tasks → ct_task_id t ∉ seen) →
  validate_tasks seen (dashboard_task <$> tasks) = require (negb (existsb unnamed_project tasks)) InvalidResponse.
Proof.
  revert seen. induction tasks as [|t tasks IH]; intros seen Ht Hnd Hs; [done|].
  apply Forall_cons in Ht as [[Hu Hn] Ht]. rewrite fmap_cons in Hnd. apply NoDup_cons in Hnd as [Hni Hnd].
  rewrite fmap_cons. cbn [validate_tasks existsb]. cbn [dashboard_task da_task_id da_name da_project].
  rewrite Hu, (bool_decide_eq_false_2 (ct_name t = [])), (bool_decide_eq_false_2 (ct_task_id t ∈ seen)) by (done || (apply Hs; by left)).
  cbn [negb orb]. rewrite orb_false_r. fold (unnamed_project t). destruct (unnamed_project t); [done|]. cbn [orb].
  apply IH; [done..|]. intros t' Hin. rewrite not_elem_of_cons. split; [|apply Hs; by right].
  intros E. apply Hni. rewrite <- E. by apply list_elem_of_fmap_2.
Qed.

(** The id of a thread is the primary key of its table. *)
Definition threads_keyed (files : nat → CatalogFiles) : Prop :=
  ∀ n threads, cf_threads (files n) = Ok threads → NoDup (th_id <$> threads).

Lemma built_dashboard_checked files lan configured store d tasks :
  store_inv store → threads_keyed files → list_tasks codex_home files = Ok tasks →
  build_dashboard codex_home files lan configured store = Ok d →
  dd_tasks d = dashboard_task <$> tasks
  ∧ validate_dashboard d = require (negb (existsb unnamed_project tasks)) InvalidResponse.
Proof.
  intros Hi Hk Hl. unfold build_dashboard. rewrite Hl. destruct (bindings store) as [[bs store']|] eqn:Eb; [|done].
  intros (slots & Hs & [= <-])%rbind_ok. cbn [dd_tasks]. split; [done|].
  destruct (list_tasks_ok _ _ _ Hk Hl) as (Ht & Hlen & Hnd).
  eapply dashboard_slots_ok in Hs; [|done..]. unfold validate_dashboard, show_dashboard.
  cbn [dd_v dd_tasks dd_slots dd_provider pv_region pv_asr_model pv_tts_model pv_voice].
  rewrite length_fmap, <- (Forall2_length _ _ _ Hs), Z.eqb_refl, !bool_decide_eq_true_2 by done.
  destruct (Nat.ltb_spec (MAX_PINNED_TASKS + MAX_RECENT_TASKS) (length tasks)); [lia|].
  cbn [length Nat.eqb negb orb]. rewrite validate_tasks_spec; [|done|done|intros ?? []%not_elem_of_nil].
  destruct (negb _); [|done]. cbn [require rbind]. eapply validate_slots_ok; [exact Hs| | |].
  - repeat constructor; lia.
  - apply (bool_decide_unpack _); by vm_compute.
  - intros slot _. apply not_elem_of_nil.
Qed.

(** Whatever dashboard the host builds shows its store. *)
Lemma built_dashboard_shows files lan configured store d :
  store_inv store → threads_keyed files → build_dashboard codex_home files lan configured store = Ok d →
  ∃ tasks s1 s2 s3 s4, list_tasks codex_home files = Ok tasks
    ∧ dd_tasks d = dashboard_task <$> tasks ∧ dd_lan d = lan ∧ pv_configured (dd_provider d) = configured
    ∧ dd_slots d = [s1; s2; s3; s4] ∧ slot_shows tasks store 1 s1 ∧ slot_shows tasks store 2 s2
    ∧ slot_shows tasks store 3 s3 ∧ slot_shows tasks store 4 s4.
Proof.
  intros Hi Hk. unfold build_dashboard. destruct (list_tasks codex_home files) as [tasks|] eqn:El; [|done].
  destruct (bindings store) as [[bs store']|] eqn:Eb; [|done]. destruct (list_tasks_ok _ _ _ Hk El) as (_ & _ & Hnd).
  intros (slots & Hs & [= <-])%rbind_ok. cbn [dashboard_slots] in Hs.
  apply rbind_ok in Hs as (s1 & H1' & (l1 & (s2 & H2' & (l2 & (s3 & H3' & (l3 & (s4 & H4' & (l4 & [= <-] & [= <-])%rbind_ok)%rbind_ok
    & [= <-])%rbind_ok)%rbind_ok & [= <-])%rbind_ok)%rbind_ok & [= <-])%rbind_ok).
  exists tasks, s1, s2, s3, s4. split_and!; try done; by eapply dashboard_slot_shows.
Qed.

(** A client's request to bind a slot is a compare-and-swap that the reply reports
    truthfully.  Either the reply names a refusal and the store is as it was; or the task is
    one the catalogue allows, the slot had the generation the client expected, it is now bound
    to the task at the next one, the rows of the other slots are untouched, and the reply is
    the dashboard of the new store (or its error). *)
Theorem bind_request_swaps_or_refuses files files' now lan configured slot task expected store r store' :
  store_inv store →
  process_control_request codex_home files files' now lan configured (ControlBindSlot slot task expected) store = (r, store') →
  ((r = Err (ascii_bytes "binding_failed") ∨ r = Err (ascii_bytes "stale_binding")) ∧ store' = store)
  ∨ ((∃ t, allowlisted codex_home files task = Ok t) ∧ current_generation slot store = expected
     ∧ binding slot store' = Ok (Some (mk_binding slot task (default 0 expected + 1)), store')
     ∧ (∀ row, br_slot row ≠ slot → row ∈ db_bindings store' ↔ row ∈ db_bindings store)
     ∧ r = build_dashboard codex_home files' lan configured store').
Proof.
  intros Hi. unfold process_control_request, bind.
  destruct (allowlisted codex_home files task) as [t|] eqn:Ea; [|intros [= <- <-]; left; by split; [left|]].
  destruct (validate_slot slot) as [[]|] eqn:Ev.
  2:{ unfold set_binding, with_error, lift, tbind. rewrite Ev. cbn. intros [= <- <-]. left. by split; [left|]. }
  destruct (set_binding_compare_and_swap now slot expected task store (inv_schema _ Hi) (inv_bindings _ Hi) Ev)
    as (Hstale & Hswap & Hlast). unfold with_error.
  destruct (decide (current_generation slot store = expected)) as [E|E].
  2:{ rewrite (Hstale E). intros [= <- <-]. left. by split; [right|]. }
  destruct (decide (default 0 expected < i64_max)) as [Hlt|Hge].
  - destruct (Hswap E Hlt) as (db' & -> & Hrows & Hb). intros [= <- <-]. right. split_and!; [by exists t|done|done| |done].
    intros row Hne. rewrite Hrows. split; [|by right]. intros [->|[? _]]; done.
  - assert (expected = Some i64_max) as Em.
    { unfold current_generation in E. destruct (query_row _ (db_bindings store)) as [row|] eqn:Eq; cbn in E; subst expected; cbn in Hge; [|width_lia].
      destruct (query_binding_generation _ _ _ (inv_schema _ Hi) (inv_bindings _ Hi) Eq) as (? & _). f_equal. lia. }
    rewrite (Hlast E Em). intros [= <- <-]. left. by split; [left|].
Qed.

End dashboard.

(** ** From the host's state to the desktop *)

(** What the derived serializers promise: a value that was written is read back, compact JSON
    has no line feed (in strings it is escaped), and an error reply is none of the others. *)
Class ControlSerdeLaws `{ControlSerde} := {
  request_round_trip r : request_from_slice (request_to_vec r) = Some r;
  request_one_line r : 10 ∉ request_to_vec r;
  authenticated_round_trip token r : authenticated_from_slice (authenticated_to_vec token r) = Some (token, r);
  authenticated_one_line token r : 10 ∉ authenticated_to_vec token r;
  reply_one_line r : 10 ∉ reply_to_vec r;
  health_round_trip h : health_from_slice (reply_to_vec (ReplyHealth h)) = Some h;
  dashboard_round_trip d : dashboard_from_slice (reply_to_vec (ReplyDashboard d)) = Some d;
  error_round_trip v ok e : error_reply_from_slice (reply_to_vec (ReplyError v ok e)) = Some (v, ok, e);
  health_is_no_error h : error_reply_from_slice (reply_to_vec (ReplyHealth h)) = None;
  dashboard_is_no_error d : error_reply_from_slice (reply_to_vec (ReplyDashboard d)) = None;
}.

Section endpoint.
Context `{Externals, Crypto, Serde, IndexSerde, ControlSerdeLaws} (codex_home : path).

(** The request line arrives and is understood; [auth_token] is the same on both sides. *)
Lemma handle_client_line auth_token snapshot fate request reads :
  delivers reads (request_line auth_token request ++ [10]) →
  blen (request_line auth_token request) < MAX_REQUEST_BYTES →
  handle_client auth_token snapshot fate reads =
    match request with
    | Health v => if v =? HEALTH_PROTOCOL_VERSION then Ok (ReplyHealth snapshot)
                  else Ok (error_reply (ascii_bytes "invalid_request"))
    | Dashboard v => if v =? HEALTH_PROTOCOL_VERSION then forward_control fate ControlDashboard
                     else Ok (error_reply (ascii_bytes "invalid_request"))
    | BindSlot v slot task_id expected =>
        if v =? HEALTH_PROTOCOL_VERSION then forward_control fate (ControlBindSlot slot task_id expected)
        else Ok (error_reply (ascii_bytes "invalid_request"))
    end.
Proof.
  intros Hd Hlen. unfold handle_client. rewrite (read_bounded_line _ _ _ _ Hd).
  2:{ destruct auth_token; [apply authenticated_one_line|apply request_one_line]. }
  unfold line_read. destruct (Z.ltb_spec MAX_REQUEST_BYTES (blen (request_line auth_token request) + 1)); [lia|].
  cbn [rbind]. unfold parse_request, request_line. destruct auth_token as [token|].
  - rewrite authenticated_round_trip. cbn. by rewrite bool_decide_eq_true_2.
  - by rewrite request_round_trip.
Qed.

(** What the desktop makes of a reply line. *)
Lemma query_host_reply {T} (from_slice : bytes → option T) reply reads :
  delivers reads (reply_to_vec reply ++ [10]) →
  query_host from_slice reads =
    if MAX_RESPONSE_BYTES <? blen (reply_to_vec reply) + 1 then Err ResponseTooLarge
    else match reply with
         | ReplyError v ok error =>
             if (v =? HEALTH_PROTOCOL_VERSION) && negb ok && negb (bool_decide (error = []))
             then Err (Rejected error) else of_option InvalidResponse (from_slice (reply_to_vec reply))
         | _ => of_option InvalidResponse (from_slice (reply_to_vec reply))
         end.
Proof.
  intros Hd. unfold query_host. rewrite (read_bounded_line _ _ _ _ Hd) by apply reply_one_line. unfold line_read.
  destruct (_ <? _); [done|]. cbn [rbind]. destruct reply.
  - by rewrite health_is_no_error.
  - by rewrite dashboard_is_no_error.
  - by rewrite error_round_trip.
Qed.

(** The projects of the tasks the catalogue lists have names. *)
Definition projects_named (files : nat → CatalogFiles) : bool :=
  match list_tasks codex_home files with Ok tasks => negb (existsb unnamed_project tasks) | Err _ => true end.

(** C39: what the desktop learns when it asks for the dashboard, end to end.  Over the socket,
    however both lines are cut into reads, the answer of a host in a reachable state is the
    dashboard it built, or its error by name; except that a dashboard longer than the limit
    of a response is refused, and so is, as a whole, one in which a single task has a project
    without a name.  A dashboard that is accepted lists the tasks of the catalogue and shows
    the store, slot by slot: the row of the slot's binding with its generation, the jobs that
    wait or run for its task, the unread summary and its coverage, the last job of that
    binding, and nothing for a slot that is not bound. *)
Theorem dashboard_reaches_the_desktop files lan configured store auth_token snapshot reads reply answer :
  store_inv store → threads_keyed files →
  delivers reads (request_line auth_token (Dashboard HEALTH_PROTOCOL_VERSION) ++ [10]) →
  blen (request_line auth_token (Dashboard HEALTH_PROTOCOL_VERSION)) < MAX_REQUEST_BYTES →
  handle_client auth_token snapshot
    (λ request, Replied (process_control_request codex_home files files 0 lan configured request store).1) reads = Ok reply →
  delivers answer (reply_to_vec reply ++ [10]) →
  query_dashboard answer =
    (if MAX_RESPONSE_BYTES <? blen (reply_to_vec reply) + 1 then Err ResponseTooLarge
     else match build_dashboard codex_home files lan configured store with
          | Err error => Err (Rejected error)
          | Ok d => if projects_named files then Ok d else Err InvalidResponse
          end)
  ∧ ∀ d, query_dashboard answer = Ok d →
      ∃ tasks s1 s2 s3 s4, list_tasks codex_home files = Ok tasks
        ∧ dd_tasks d = dashboard_task <$> tasks ∧ dd_lan d = lan ∧ pv_configured (dd_provider d) = configured
        ∧ dd_slots d = [s1; s2; s3; s4] ∧ slot_shows tasks store 1 s1 ∧ slot_shows tasks store 2 s2
        ∧ slot_shows tasks store 3 s3 ∧ slot_shows tasks store 4 s4.
Proof.
  intros Hi Hk Hd Hlen Hh Ha.
  assert (query_dashboard answer = if MAX_RESPONSE_BYTES <? blen (reply_to_vec reply) + 1 then Err ResponseTooLarge
     else match build_dashboard codex_home files lan configured store with
          | Err error => Err (Rejected error)
          | Ok d => if projects_named files then Ok d else Err InvalidResponse
          end) as Hq.
  { rewrite (handle_client_line _ _ _ _ _ Hd Hlen), Z.eqb_refl in Hh.
    unfold query_dashboard. rewrite (query_host_reply _ _ _ Ha). destruct (MAX_RESPONSE_BYTES <? _); [done|].
    unfold forward_control, process_control_request in Hh. cbn [fst] in Hh.
    destruct (build_dashboard codex_home files lan configured store) as [d|e] eqn:Eb; injection Hh as <-.
    - rewrite dashboard_round_trip. cbn [of_option rbind]. unfold projects_named.
      destruct (list_tasks codex_home files) as [tasks|] eqn:El.
      + destruct (built_dashboard_checked _ _ _ _ _ _ _ Hi Hk El Eb) as [_ ->]. by destruct (negb _).
      + unfold build_dashboard in Eb. by rewrite El in Eb.
    - apply build_dashboard_err in Eb as [-> | ->]; reflexivity. }
  split; [done|]. intros d Hok. rewrite Hq in Hok. destruct (_ <? _); [done|].
  destruct (build_dashboard codex_home files lan configured store) as [d'|] eqn:Eb; [|done].
  destruct (projects_named files); [|done]. injection Hok as ->. by apply (built_dashboard_shows _ _ _ _ _ _ Hi Hk).
Qed.

End endpoint.
