(* ===== verification/HostLoop.v ===== *)
(** * The main loop of the host (app/host/src/health.rs, [HostDaemon::serve_until])

    One iteration refreshes the mailbox lights, queues at most eight spoken prompts, handles
    at most eight playback events, lets the scheduler tick, answers at most eight control
    requests and accepts one client.

    The loop is modelled twice.  [iteration] is a round of its own, as a function.  [advance_loop]
    is the same code cut at its accesses to the state database: one call goes from one such
    access to the next, so that [daemon_step] can let the other threads commit, the channels
    fill and the process die at each of these points.  [HostLoopProps.iteration_advances]
    shows that the points of a round that nobody disturbs add up to [iteration]. *)

From stdpp Require Import gmap.
From S2P Require Import Prelude Bytes PlaybackWire Audio Capture Transport.
From S2P Require Import CacheRef Sql StoreTypes StoreJobs StoreRollout StoreSummary StorePlayback.
From S2P Require Import StoreSystem HostPlayback HostPlaybackProps TtsCache Orchestrator TurnPack Catalog PromptQueue Control.

(** Milliseconds. *)
Definition MAILBOX_REFRESH : Z := 250.
(** The bound of the three inner loops. *)
Definition ROUND : nat := 8.

(** The counters of the voice ingress that the loop moves; [fetch_add] wraps. *)
Record QueueCounters := mk_counters { qc_inserted : Z; qc_replayed : Z; qc_rejected : Z }.
Definition fetch_add (v : Z) : Z := (v + 1) mod 2 ^ 64.
Definition note_queue_inserted (c : QueueCounters) : QueueCounters :=
  mk_counters (fetch_add (qc_inserted c)) (qc_replayed c) (qc_rejected c).
Definition note_queue_replayed (c : QueueCounters) : QueueCounters :=
  mk_counters (qc_inserted c) (fetch_add (qc_replayed c)) (qc_rejected c).
Definition note_queue_rejected (c : QueueCounters) : QueueCounters :=
  mk_counters (qc_inserted c) (qc_replayed c) (fetch_add (qc_rejected c)).
Definition note_prompt {E} (outcome : result E EnqueueOutcome) : QueueCounters → QueueCounters :=
  match outcome with
  | Ok EnqueueInserted => note_queue_inserted
  | Ok EnqueueReplay => note_queue_replayed
  | Err _ => note_queue_rejected
  end.

Record Daemon := mk_daemon {
  dm_host : HostState;                      (* the store, the playbacks, what the transport was told *)
  dm_scheduler : DurablePromptScheduler;
  dm_last_mailbox : option MailboxStatus;
  dm_next_refresh : Z;
  dm_counters : QueueCounters;
  dm_prompts : list LanVoicePrompt;         (* the three channels *)
  dm_events : list LanPlaybackEvent;
  dm_control : list ControlRequest;
  dm_replies : list (result text DashboardSnapshot);
  dm_clients : Z;
}.

Definition dm_store (d : Daemon) : Db := hs_store (dm_host d).

Definition set_host (h : HostState) (d : Daemon) : Daemon :=
  mk_daemon h (dm_scheduler d) (dm_last_mailbox d) (dm_next_refresh d) (dm_counters d) (dm_prompts d) (dm_events d)
    (dm_control d) (dm_replies d) (dm_clients d).
Definition set_store (db : Db) (d : Daemon) : Daemon := set_host (with_store db (dm_host d)) d.
Definition set_scheduler (s : DurablePromptScheduler) (d : Daemon) : Daemon :=
  mk_daemon (dm_host d) s (dm_last_mailbox d) (dm_next_refresh d) (dm_counters d) (dm_prompts d) (dm_events d)
    (dm_control d) (dm_replies d) (dm_clients d).
Definition set_mailbox (m : option MailboxStatus) (next : Z) (d : Daemon) : Daemon :=
  mk_daemon (dm_host d) (dm_scheduler d) m next (dm_counters d) (dm_prompts d) (dm_events d)
    (dm_control d) (dm_replies d) (dm_clients d).
Definition set_prompts (c : QueueCounters) (ps : list LanVoicePrompt) (d : Daemon) : Daemon :=
  mk_daemon (dm_host d) (dm_scheduler d) (dm_last_mailbox d) (dm_next_refresh d) c ps (dm_events d)
    (dm_control d) (dm_replies d) (dm_clients d).
Definition set_events (es : list LanPlaybackEvent) (d : Daemon) : Daemon :=
  mk_daemon (dm_host d) (dm_scheduler d) (dm_last_mailbox d) (dm_next_refresh d) (dm_counters d) (dm_prompts d) es
    (dm_control d) (dm_replies d) (dm_clients d).
Definition set_control (cs : list ControlRequest) (rs : list (result text DashboardSnapshot)) (d : Daemon) : Daemon :=
  mk_daemon (dm_host d) (dm_scheduler d) (dm_last_mailbox d) (dm_next_refresh d) (dm_counters d) (dm_prompts d) (dm_events d)
    cs rs (dm_clients d).
Definition set_clients (n : Z) (d : Daemon) : Daemon :=
  mk_daemon (dm_host d) (dm_scheduler d) (dm_last_mailbox d) (dm_next_refresh d) (dm_counters d) (dm_prompts d) (dm_events d)
    (dm_control d) (dm_replies d) n.

Definition new_daemon (db : Db) : Daemon :=
  mk_daemon (mk_host db ∅ []) new_scheduler None 0 (mk_counters 0 0 0) [] [] [] [] 0.

(** What one iteration meets: whether the two worker threads have ended, the clock (in
    milliseconds for the refresh, read twice; in seconds for the store), the running tasks the
    observer counted, the files of the catalogue at each reading, the surroundings of each
    playback event, the counters shown in a dashboard, and the listener. *)
Inductive Accepted := Connected | WouldBlock | AcceptFailed.

Record Turn := mk_turn {
  tu_observer_finished : bool;
  tu_summary_finished : bool;
  tu_now : Z; tu_refreshed : Z;
  tu_running_tasks : Z;
  tu_ingress_alive : bool;
  tu_prompt_files : nat → nat → CatalogFiles;
  tu_prompt_clock : nat → Z;
  tu_around : nat → Surroundings;
  tu_tick_clock : nat → Z;
  tu_control_files : nat → nat → CatalogFiles;
  tu_control_clock : nat → Z;
  tu_diagnostics : nat → LanVoiceDiagnosticsSnapshot;
  tu_configured : nat → bool;
  tu_accept : Accepted;
}.

(** Why the loop is left. *)
Inductive Stop := ObserverStopped | Failed (e : HealthError).

Section loop.
Context `{Externals, Crypto, Serde, IndexSerde} (codex_home : path).

(** ** The phases *)

(** What follows the reading of the mailbox: the lights are sent when they changed. *)
Definition publish_mailbox (t : Turn) (snapshot : MailboxStatusSnapshot) (d : Daemon) : result Stop unit * Daemon :=
  let current := mk_mailbox (ms_unread_slots snapshot) (tu_running_tasks t) (ms_coverage_by_slot snapshot) in
  if bool_decide (dm_last_mailbox d = Some current)
  then (Ok tt, set_mailbox (dm_last_mailbox d) (tu_refreshed t + MAILBOX_REFRESH) d)
  else if tu_ingress_alive t then
    (Ok tt, set_mailbox (Some current) (tu_refreshed t + MAILBOX_REFRESH)
              (set_host (send_command (Mailbox current) (dm_host d)) d))
  else (Err (Failed HealthIo), d).

Definition refresh_mailbox (t : Turn) (d : Daemon) : result Stop unit * Daemon :=
  if dm_next_refresh d <=? tu_now t then
    match mailbox_status (dm_store d) with
    | Err e => (Err (Failed (HealthStore e)), d)
    | Ok (snapshot, _) => publish_mailbox t snapshot d
    end
  else (Ok tt, d).

(** [n] prompts at most, the [k]th being the next. *)
Fixpoint queue_prompts (t : Turn) (n k : nat) (d : Daemon) : Daemon :=
  match n, dm_prompts d with
  | S n, prompt :: rest =>
      let '(outcome, store) := enqueue_slot codex_home (tu_prompt_files t k) (tu_prompt_clock t k) (vp_slot prompt)
                                 (vp_request_id prompt) (vp_transcript prompt) (dm_store d) in
      queue_prompts t n (S k) (set_prompts (note_prompt outcome (dm_counters d)) rest (set_store store d))
  | _, _ => d
  end.

Fixpoint handle_events (t : Turn) (n k : nat) (d : Daemon) : Daemon :=
  match n, dm_events d with
  | S n, event :: rest =>
      handle_events t n (S k) (set_events rest (set_host (handle_lan_playback_event (tu_around t k) event (dm_host d)) d))
  | _, _ => d
  end.

Definition run_scheduler (t : Turn) (d : Daemon) : result Stop unit * Daemon :=
  match tick (tu_tick_clock t) (dm_scheduler d) (dm_store d) with
  | (Ok _, s, store) => (Ok tt, set_scheduler s (set_store store d))
  | (Err e, s, store) => (Err (Failed (HealthStore e)), set_scheduler s (set_store store d))
  end.

(** A request reads the catalogue at most twice. *)
Fixpoint answer_control (t : Turn) (n k : nat) (d : Daemon) : Daemon :=
  match n, dm_control d with
  | S n, request :: rest =>
      let '(reply, store) := process_control_request codex_home (tu_control_files t (2 * k)) (tu_control_files t (2 * k + 1))
                               (tu_control_clock t k) (tu_diagnostics t k) (tu_configured t k) request (dm_store d) in
      answer_control t n (S k) (set_control rest (dm_replies d ++ [reply]) (set_store store d))
  | _, _ => d
  end.

(** At the limit the connection is dropped. *)
Definition accept_client (t : Turn) (d : Daemon) : result Stop unit * Daemon :=
  match tu_accept t with
  | Connected => (Ok tt, match reserve_client (dm_clients d) with Some n => set_clients n d | None => d end)
  | WouldBlock => (Ok tt, d)
  | AcceptFailed => (Err (Failed HealthIo), d)
  end.

(** ** The loop *)

Definition iteration (t : Turn) (d : Daemon) : result Stop unit * Daemon :=
  if tu_observer_finished t then (Err ObserverStopped, d)
  else if tu_summary_finished t then (Err (Failed HealthIo), d)
  else
    match refresh_mailbox t d with
    | (Err e, d) => (Err e, d)
    | (Ok _, d) =>
        let d := queue_prompts t ROUND 0 d in
        let d := handle_events t ROUND 0 d in
        match run_scheduler t d with
        | (Err e, d) => (Err e, d)
        | (Ok _, d) => accept_client t (answer_control t ROUND 0 d)
        end
    end.

(** [serve_until] up to the end of the loop: an iteration for each turn until the shutdown. *)
Fixpoint serve (turns : list Turn) (d : Daemon) : option Stop * Daemon :=
  match turns with
  | [] => (None, d)
  | t :: turns =>
      match iteration t d with
      | (Ok _, d) => serve turns d
      | (Err e, d) => (Some e, d)
      end
  end.

(** How a thread ended: its own result, or a panic. *)
Inductive Joined := Ended (r : result StoreError unit) | Panicked.

(** After the loop: the threads are joined, and the first failure is the result. *)
Definition daemon_result (stop : option Stop) (observer : Joined) (summary_panicked : bool) : result HealthError unit :=
  let result := match stop with Some (Failed e) => Err e | _ => Ok tt end in
  let result :=
    match observer, result, stop with
    | Ended (Ok _), Ok _, Some ObserverStopped => Err HealthIo
    | Ended (Err e), Ok _, _ => Err (HealthStore e)
    | Panicked, Ok _, _ => Err HealthIo
    | _, _, _ => result
    end in
  if summary_panicked && (match result with Ok _ => true | Err _ => false end) then Err HealthIo else result.

(** The scheduler is stopped: its threads end and their results are dropped. *)
Definition stopped (d : Daemon) : Daemon := set_scheduler (shutdown_without_acknowledging (dm_scheduler d)) d.

(** ** The loop, one access to the database at a time *)

(** A dashboard in the making: what was read of the catalogue and of the bindings, the slots
    that are done and those that are left, with what was asked of the first of these. *)
Inductive Asked :=
| NothingAsked
| PendingAsked (pending : option Z)
| UnreadAsked (pending : option Z) (unread : option (option UnreadSummary)).

Record Reading := mk_reading {
  rd_lan : LanVoiceDiagnosticsSnapshot;
  rd_tasks : list CodexTask; rd_bindings : list Binding;
  rd_shown : list DashboardSlot; rd_slots : list Z; rd_asked : Asked;
}.

(** Where the loop is: each point is followed by at most one access.  [n] counts what is
    left of the bound of an inner loop, without what is being handled. *)
Inductive Point :=
| AtHead
| Refreshing (bs : list Binding) (snapshot : MailboxStatusSnapshot)
| AtPrompts (n : nat)
| Enqueueing (job : NewJob) (n : nat)
| AtEvents (n : nat)
| Superseding (request : PlaybackRequest) (source : SocketAddr) (playing : list (Z * ActiveHostPlayback)) (n : nat)
| Acquiring (request : PlaybackRequest) (source : SocketAddr) (attempts : nat) (n : nat)
| GivingBack (lease : SummaryPlaybackLease) (n : nat)
| Acknowledging (finished : PlaybackFinished) (n : nat)
| Draining (clock : nat)
| Filling (clock : nat)
| AtControl (n : nat)
| Listing (lan : LanVoiceDiagnosticsSnapshot) (bound : bool) (n : nat)
| Building (rd : Reading) (n : nat)
| AtAccept.

(** The number of what is handled, from 0. *)
Definition round_index (n : nat) : nat := (ROUND - S n)%nat.

Definition reply_control (reply : result text DashboardSnapshot) (d : Daemon) : Daemon :=
  set_control (dm_control d) (dm_replies d ++ [reply]) d.

Definition advance_head (t : Turn) (d : Daemon) : result Stop Point * Daemon :=
  if tu_observer_finished t then (Err ObserverStopped, d)
  else if tu_summary_finished t then (Err (Failed HealthIo), d)
  else if dm_next_refresh d <=? tu_now t then
    match bindings (dm_store d) with
    | Err e => (Err (Failed (HealthStore e)), d)
    | Ok (bs, _) => (Ok (Refreshing bs (mk_snapshot 0 [0; 0; 0; 0])), d)
    end
  else (Ok (AtPrompts ROUND), d).

Definition advance_refresh (t : Turn) (bs : list Binding) (snapshot : MailboxStatusSnapshot) (d : Daemon)
    : result Stop Point * Daemon :=
  match bs with
  | b :: bs =>
      match current_unread_summary (bd_task_id b) (dm_store d) with
      | Err e => (Err (Failed (HealthStore e)), d)
      | Ok (None, _) => (Ok (Refreshing bs snapshot), d)
      | Ok (Some unread, _) =>
          match set_coverage (bd_slot b - 1) (Z.min (us_coverage_count unread) u8_max) snapshot with
          | Err e => (Err (Failed (HealthStore e)), d)
          | Ok snapshot => (Ok (Refreshing bs snapshot), d)
          end
      end
  | [] =>
      if mailbox_mismatch snapshot then (Err (Failed (HealthStore InvalidSummaryState)), d)
      else
        match publish_mailbox t snapshot d with
        | (Err e, d) => (Err e, d)
        | (Ok _, d) => (Ok (AtPrompts ROUND), d)
        end
  end.

Definition advance_prompt (t : Turn) (n : nat) (d : Daemon) : Point * Daemon :=
  match n, dm_prompts d with
  | S n, prompt :: rest =>
      match resolve codex_home (tu_prompt_files t (round_index n)) (vp_slot prompt) (dm_store d) with
      | Ok (Some (b, task)) =>
          (Enqueueing {| nj_request_id := vp_request_id prompt; nj_task_id := bd_task_id b; nj_slot := vp_slot prompt;
                         nj_generation := bd_generation b; nj_prompt := vp_transcript prompt; nj_cwd := ct_cwd task |} n,
           set_prompts (dm_counters d) rest d)
      | Ok None | Err _ => (AtPrompts n, set_prompts (note_queue_rejected (dm_counters d)) rest d)
      end
  | _, _ => (AtEvents ROUND, d)
  end.

Definition advance_enqueue (t : Turn) (job : NewJob) (n : nat) (d : Daemon) : Point * Daemon :=
  let '(outcome, store) := with_error QueueStore (enqueue (tu_prompt_clock t (round_index n)) job) (dm_store d) in
  (AtPrompts n, set_prompts (note_prompt outcome (dm_counters d)) (dm_prompts d) (set_store store d)).

(** An event, up to its first transaction that commits something or to its end. *)
Definition advance_event (t : Turn) (n : nat) (d : Daemon) : Point * Daemon :=
  match n, dm_events d with
  | S n, event :: rest =>
      let d := set_events rest d in
      match event with
      | EvRequest request source =>
          if already_playing request (dm_host d) then (AtEvents n, d)
          else (Superseding request source (in_key_order (hs_active (dm_host d))) n, d)
      | EvFinished finished =>
          match commit_heard (tu_around t (round_index n)) finished (dm_host d) with
          | None => (AtEvents n, d)
          | Some h => (Acknowledging finished n, set_host h d)
          end
      | EvCancelled cancelled => (AtEvents n, set_host (cancelled_playback (tu_around t (round_index n)) cancelled (dm_host d)) d)
      end
  | _, _ => (Draining 0, d)
  end.

Definition advance_supersede (t : Turn) (request : PlaybackRequest) (source : SocketAddr)
    (playing : list (Z * ActiveHostPlayback)) (n : nat) (d : Daemon) : Point * Daemon :=
  match playing with
  | [] => (Acquiring request source 4 n, d)
  | entry :: playing =>
      match supersede_all (tu_around t (round_index n)) [entry] (dm_host d) with
      | (Ok _, h) => (Superseding request source playing n, set_host h d)
      | (Err _, h) => (AtEvents n, set_host h d)
      end
  end.

(** One attempt; the clip of a granted lease is loaded before the next access. *)
Definition advance_acquire (t : Turn) (request : PlaybackRequest) (source : SocketAddr) (attempts n : nat) (d : Daemon)
    : Point * Daemon :=
  let su := tu_around t (round_index n) in
  match attempts with
  | O => (AtEvents n, d)
  | S attempts =>
      match acquire_lease su request (take 1 (drop (3 - attempts) (su_random su))) (dm_store d) with
      | (Ok (Some lease), store) =>
          let d := set_store store d in
          match offer su request source lease (dm_host d) with
          | Ok h => (AtEvents n, set_host h d)
          | Err _ => (GivingBack lease n, d)
          end
      | (Err NoLease, _) => (Acquiring request source attempts n, d)
      | (Ok None, _) | (Err _, _) => (AtEvents n, d)
      end
  end.

Definition advance_drain (t : Turn) (clock : nat) (d : Daemon) : result Stop Point * Daemon :=
  match ds_channel (dm_scheduler d) with
  | [] => (Ok (Filling clock), d)
  | outcome :: channel =>
      let d := set_scheduler (mk_scheduler channel (delete (wr_request_id outcome) (ds_workers (dm_scheduler d)))) d in
      match record_outcome (tu_tick_clock t clock) outcome (dm_store d) with
      | Ok (_, store) => (Ok (Draining (S clock)), set_store store d)
      | Err e => (Err (Failed (HealthStore e)), d)
      end
  end.

Definition advance_fill (t : Turn) (clock : nat) (d : Daemon) : result Stop Point * Daemon :=
  let self := dm_scheduler d in
  if Z.of_nat (size (ds_workers self)) <? MAX_GLOBAL_RUNNING_JOBS then
    match claim_next_runnable (tu_tick_clock t clock) (dm_store d) with
    | Err e => (Err (Failed (HealthStore e)), d)
    | Ok (None, store) => (Ok (AtControl ROUND), set_store store d)
    | Ok (Some job, store) =>
        (Ok (Filling (S clock)), set_scheduler (mk_scheduler (ds_channel self) (start job (ds_workers self))) (set_store store d))
    end
  else (Ok (AtControl ROUND), d).

Definition advance_control (t : Turn) (n : nat) (d : Daemon) : Point * Daemon :=
  match n, dm_control d with
  | S n, request :: rest =>
      let d := set_control rest (dm_replies d) d in
      let k := round_index n in
      match request with
      | ControlDashboard => (Listing (tu_diagnostics t k) false n, d)
      | ControlBindSlot slot task_id expected_generation =>
          match bind codex_home (tu_control_files t (2 * k)) (tu_control_clock t k) slot expected_generation task_id (dm_store d) with
          | (Err _, store) => (AtControl n, reply_control (Err (ascii_bytes "binding_failed")) (set_store store d))
          | (Ok None, store) => (AtControl n, reply_control (Err (ascii_bytes "stale_binding")) (set_store store d))
          | (Ok (Some _), store) => (Listing (tu_diagnostics t k) true n, set_store store d)
          end
      end
  | _, _ => (AtAccept, d)
  end.

Definition advance_list (t : Turn) (lan : LanVoiceDiagnosticsSnapshot) (bound : bool) (n : nat) (d : Daemon) : Point * Daemon :=
  match list_tasks codex_home (tu_control_files t (if bound then 2 * round_index n + 1 else 2 * round_index n)%nat) with
  | Err _ => (AtControl n, reply_control (Err (ascii_bytes "catalog_failed")) d)
  | Ok tasks =>
      match bindings (dm_store d) with
      | Err _ => (AtControl n, reply_control (Err (ascii_bytes "state_failed")) d)
      | Ok (bs, _) => (Building (mk_reading lan tasks bs [] [1; 2; 3; 4] NothingAsked) n, d)
      end
  end.

Definition advance_build (t : Turn) (rd : Reading) (n : nat) (d : Daemon) : Point * Daemon :=
  let goes_on shown slots asked := (Building (mk_reading (rd_lan rd) (rd_tasks rd) (rd_bindings rd) shown slots asked) n, d) in
  let failed := (AtControl n, reply_control (Err (ascii_bytes "state_failed")) d) in
  match rd_slots rd with
  | [] =>
      (AtControl n, reply_control (Ok (show_dashboard (rd_lan rd) (tu_configured t (round_index n)) (rd_tasks rd) (rd_shown rd))) d)
  | slot :: slots =>
      let binding := bound_to (rd_bindings rd) slot in
      match rd_asked rd with
      | NothingAsked =>
          match ask_pending binding (dm_store d) with
          | Ok pending => goes_on (rd_shown rd) (slot :: slots) (PendingAsked pending)
          | Err _ => failed
          end
      | PendingAsked pending =>
          match ask_unread binding (dm_store d) with
          | Ok unread => goes_on (rd_shown rd) (slot :: slots) (UnreadAsked pending unread)
          | Err _ => failed
          end
      | UnreadAsked pending unread =>
          match ask_latest binding (dm_store d) with
          | Ok latest =>
              goes_on (rd_shown rd ++ [show_slot slot binding (task_of (rd_tasks rd) binding) pending unread latest])
                slots NothingAsked
          | Err _ => failed
          end
      end
  end.

Definition goes_on {A} (x : A * Daemon) : result Stop A * Daemon := (Ok x.1, x.2).

Definition advance_loop (t : Turn) (p : Point) (d : Daemon) : result Stop Point * Daemon :=
  match p with
  | AtHead => advance_head t d
  | Refreshing bs snapshot => advance_refresh t bs snapshot d
  | AtPrompts n => goes_on (advance_prompt t n d)
  | Enqueueing job n => goes_on (advance_enqueue t job n d)
  | AtEvents n => goes_on (advance_event t n d)
  | Superseding request source playing n => goes_on (advance_supersede t request source playing n d)
  | Acquiring request source attempts n => goes_on (advance_acquire t request source attempts n d)
  | GivingBack lease n => (Ok (AtEvents n), set_host (give_back (tu_around t (round_index n)) lease (dm_host d)) d)
  | Acknowledging finished n =>
      (Ok (AtEvents n), set_host (acknowledge_heard (tu_around t (round_index n)) finished (dm_host d)) d)
  | Draining clock => advance_drain t clock d
  | Filling clock => advance_fill t clock d
  | AtControl n => goes_on (advance_control t n d)
  | Listing lan bound n => goes_on (advance_list t lan bound n d)
  | Building rd n => goes_on (advance_build t rd n d)
  | AtAccept => match accept_client t d with (Err e, d) => (Err e, d) | (Ok _, d) => (Ok AtHead, d) end
  end.

(** ** The other threads *)

(** [try_send] on the control channel. *)
Definition send_control (request : ControlRequest) (d : Daemon) : option Daemon :=
  if (length (dm_control d) <? CONTROL_CAPACITY)%nat then Some (set_control (dm_control d ++ [request]) (dm_replies d) d) else None.

(** The transactions of the observer's thread and of the summary worker's. *)
Inductive worker_commit (db db' : Db) : Prop :=
| observer_commits now b e next cid tp o : commit_rollout_completion_on now b e next cid tp db = Ok (o, db') → worker_commit db db'
| worker_claims now task req o : claim_summary now task req db = Ok (o, db') → worker_commit db db'
| worker_abandons now claim b : abandon_summary_claim now claim db = Ok (b, db') → worker_commit db db'
| worker_abandons_interrupted now task o :
    abandon_interrupted_summary_for_task now task db = Ok (o, db') → worker_commit db db'
| worker_begins_attempt now claim s : begin_summary_tts_attempt now claim db = Ok (s, db') → worker_commit db db'
| worker_marks_ambiguous now claim u : mark_summary_tts_ambiguous now claim db = Ok (u, db') → worker_commit db db'
| worker_resumes now task o : resume_interrupted_summary now task db = Ok (o, db') → worker_commit db db'
| worker_publishes now claim cache u :
    in_u64 (sc_generation claim) → publish_summary now claim cache db = Ok (u, db') → worker_commit db db'.

(** The transport reports the cancellation of what it was given, under its identity. *)
Definition event_expected (p : Point) (d : Daemon) : Prop :=
  match p, dm_events d with
  | AtEvents (S _), event :: _ => event_ok event (dm_host d)
  | _, _ => True
  end.

(** The daemon and where its loop is; the loop can be left. *)
Definition Config : Type := Daemon * option Point.

(** The loop goes on to its next access to the database, or is left; or one of the others
    acts: something arrives, a client leaves, a prompt's thread ends, another thread commits a
    transaction; or the process dies and is started again. *)
Inductive daemon_step : Config → Config → Prop :=
| LoopAdvances t p d p' d' :
    event_expected p d → advance_loop t p d = (Ok p', d') → daemon_step (d, Some p) (d', Some p')
| LoopEnds t p d e d' :
    event_expected p d → advance_loop t p d = (Err e, d') → daemon_step (d, Some p) (d', None)
| PromptArrives at_ d p : daemon_step (d, at_) (set_prompts (dm_counters d) (dm_prompts d ++ [p]) d, at_)
| EventArrives at_ d e : daemon_step (d, at_) (set_events (dm_events d ++ [e]) d, at_)
| RequestArrives at_ d request d' : send_control request d = Some d' → daemon_step (d, at_) (d', at_)
| ClientLeaves at_ d : 0 < dm_clients d → daemon_step (d, at_) (set_clients (release_client (dm_clients d)) d, at_)
| PromptEnds at_ d request_id answer s :
    worker_done request_id answer (dm_scheduler d) = Some s → daemon_step (d, at_) (set_scheduler s d, at_)
| OthersCommit at_ d store : worker_commit (dm_store d) store → daemon_step (d, at_) (set_store store d, at_)
| Reopen at_ d now counts store :
    recover_on_open now (dm_store d) = (Ok counts, store) → daemon_step (d, at_) (new_daemon store, Some AtHead).

End loop.
