(* ===== verification/HostLoopProps.v ===== *)
(** * The main loop keeps the host's parts in agreement, and nothing but its surroundings
    stops it

    [host_parts_agree] is an invariant of [daemon_step]: it holds at every access of the loop
    to the state database.  [iteration_advances] connects the points of the loop with the
    round as a function, on which [only_surroundings_stop_the_host] says who is answered. *)

From stdpp Require Import gmap.
From S2P Require Import Prelude Bytes PlaybackWire Audio Capture Transport.
From S2P Require Import CacheRef Sql StoreTypes StoreJobs StoreRollout StoreSummary StorePlayback.
From S2P Require Import SummaryInv SummaryOps SummaryClaims SummaryPublish PlaybackOps StoreSystem SummaryWedge.
From S2P Require Import HostPlayback HostPlaybackProps TtsCache Orchestrator TurnPack.
From S2P Require Import Catalog CatalogProps PromptQueue SchedulerProps Control ControlProps HostLoop.

Section loop.
Context `{Externals, Crypto, Serde, IndexSerde} (codex_home : path).

(** ** What the phases do to the store *)

(** Moves of the jobs alone, and moves of everything else. *)
Definition job_move (db db' : Db) : Prop := step db db' ∧ same_other_tables db db'.
Definition play_move (db db' : Db) : Prop := step db db' ∧ same_job_tables db db'.

Definition bound_ok (db : Db) : Prop := Forall (λ r, uuid_ok (br_task_id r) = true) (db_bindings db).

Lemma job_moves_playbacks h db : rtc job_move (hs_store h) db → host_inv h → host_inv (with_store db h).
Proof.
  intros Hm. remember (hs_store h) as db0 eqn:E0. revert h E0.
  induction Hm as [db0|db0 db1 db2 [Hs Ho] _ IH]; intros h -> Hi; [by destruct h|].
  assert (host_inv (with_store db1 h)) as Hi1.
  { eapply host_step_inv; [|exact Hi]. apply host_store; [done|]. by destruct Ho as (_ & _ & _ & _ & _ & ?). }
  by apply (IH (with_store db1 h)).
Qed.

Lemma job_moves_bound db db' : rtc job_move db db' → bound_ok db → bound_ok db'.
Proof. induction 1 as [|db0 db1 db2 [_ (E & _)] _ IH]; [done|]. intros Hb. apply IH. unfold bound_ok. by rewrite E. Qed.

Lemma play_moves_elsewhere db db' : rtc play_move db db' → rtc elsewhere db db'.
Proof. apply rtc_subrel. intros a b (Hs & E1 & E2 & _). by right. Qed.

Lemma play_moves_jobs db db' : rtc play_move db db' → same_job_tables db db'.
Proof.
  induction 1 as [|a b c [_ (E1 & E2 & E3)] _ (F1 & F2 & F3)]; [done|]. unfold same_job_tables. split_and!; congruence.
Qed.

Lemma elsewhere_agree self db db' :
  rtc elsewhere db db' → store_inv db → agree self db → store_inv db' ∧ agree self db'.
Proof.
  intros Hr. induction Hr as [|a b c He _ IH]; intros Hi Ha; [done|].
  destruct (elsewhere_inv self a b (conj Hi Ha) He) as [Hi' Ha']. by apply IH.
Qed.

(** The scheduler. *)
Lemma exec_jobs_move P `{∀ r, Decision (P r)} f db n db' :
  exec (update_jobs P f) db = Ok (n, db') → same_other_tables db db'.
Proof. intros [_ ->]%exec_frame. done. Qed.

Lemma record_move now o db b db' : record_outcome now o db = Ok (b, db') → job_move db db'.
Proof.
  unfold record_outcome. destruct (wr_result o); intros Hr; (split; [by econstructor|]).
  - apply mark_completed_ok in Hr as (_ & _ & -> & _). done.
  - apply mark_failed_ok in Hr as (_ & _ & -> & _). done.
Qed.

Lemma drain_moves clock n channel workers db r n' self' db' :
  drain clock n channel workers db = (r, n', self', db') → rtc job_move db db'.
Proof.
  revert n workers db. induction channel as [|o channel IH]; intros n workers db; cbn [drain]; [by intros [= _ _ _ <-]|].
  destruct (record_outcome _ o db) as [[b db1]|] eqn:Hr; [|by intros [= _ _ _ <-]].
  intros Hd. apply (rtc_l _ _ db1); [by eapply record_move|by eapply IH].
Qed.

Lemma fill_moves fuel clock n self db r self' db' :
  store_inv db → fill fuel clock n self db = (r, self', db') → rtc job_move db db'.
Proof.
  revert n self db. induction fuel as [|fuel IH]; intros n self db Hi; cbn [fill]; [by intros [= _ _ <-]|].
  destruct (_ <? _); [|by intros [= _ _ <-]].
  destruct (claim_next_runnable _ db) as [[[job|] db1]|e] eqn:Hc; [|intros [= _ _ <-]..].
  - intros Hf. pose proof (step_claim_next _ _ _ _ Hc) as Hs. apply (rtc_l _ _ db1); [split; [done|]|].
    + apply claim_next_ok in Hc; [|apply (inv_jobs _ Hi)]. destruct Hc as [([=] & _)|(c & j & _ & _ & _ & _ & _ & -> & _)]. done.
    + eapply IH; [by eapply step_inv|exact Hf].
  - by destruct (claim_runs _ _ _ _ Hi Hc) as [_ [-> _]].
  - done.
Qed.

Lemma tick_moves clock self db r self' db' :
  scheduler_inv (self, db) → tick clock self db = (r, self', db') → rtc job_move db db'.
Proof.
  intros Hi. unfold tick. destruct (drain clock 0 _ _ db) as [[[[[]|e] n] self1] db1] eqn:Hd; [|by intros [= _ _ <-]; eapply drain_moves].
  intros Hf. apply drain_moves in Hd as Hm. transitivity db1; [done|]. eapply fill_moves; [|exact Hf].
  assert (store_inv db) as Hs by apply Hi. clear - Hm Hs H0. induction Hm as [|a b c [Hab _] _ IH]; [done|]. apply IH. by eapply step_inv.
Qed.

(** ** Playback events *)

(** The lights the transport was told to show. *)
Definition lights (cs : list LanPlaybackCommand) : list MailboxStatus :=
  omap (λ c, match c with Mailbox s => Some s | _ => None end) cs.

(** The handlers move what is not a job, and tell the transport nothing of lights. *)
Definition plays (h h' : HostState) : Prop :=
  rtc play_move (hs_store h) (hs_store h') ∧ lights (hs_commands h') = lights (hs_commands h).

#[local] Instance plays_preorder : PreOrder plays.
Proof.
  split; [done|]. intros a b c [Hab Eab] [Hbc Ebc]. split; [by transitivity (hs_store b)|congruence].
Qed.

Lemma plays_command c h : lights [c] = [] → plays h (send_command c h).
Proof. intros E. split; [done|]. cbn. unfold lights in *. by rewrite omap_app, E, app_nil_r. Qed.

Lemma plays_store {A} (m : Tx A) h a db :
  schema_ok (hs_store h) → keeps same_job_tables m → m (hs_store h) = Ok (a, db) → step (hs_store h) db → plays h (with_store db h).
Proof. intros Hs Hk Hr Hstep. split; [|done]. apply rtc_once. split; [done|]. by apply (Hk _ _ _ Hs Hr). Qed.

Lemma cancel_plays now l h b db :
  schema_ok (hs_store h) → cancel_summary_playback now l (hs_store h) = Ok (b, db) → plays h (with_store db h).
Proof. intros Hs Hr. eapply (plays_store _ _ _ _ Hs); [|exact Hr|by econstructor]. apply cancel_good. Qed.

Lemma plays_active h a : plays h (mk_host (hs_store h) a (hs_commands h)).
Proof. done. Qed.

Lemma supersede_plays su l h : store_inv (hs_store h) → plays h (supersede_all su l h).2 ∧ store_inv (hs_store (supersede_all su l h).2).
Proof.
  revert h. induction l as [|[id p] l IH]; intros h Hi; cbn [supersede_all]; [done|].
  assert (plays h (send_command (Cancel (ah_identity p)) h)) as Hc by by apply plays_command.
  destruct (ah_heard_committed p).
  - destruct (IH (remove_active id (send_command (Cancel (ah_identity p)) h)) Hi) as [Hp Hi']. split; [|done].
    etransitivity; [exact Hc|exact Hp].
  - destruct (cancel_summary_playback _ _ _) as [[b db]|e] eqn:Ec; [|by split].
    assert (store_inv db) as Hdb by (eapply step_inv; [by eapply step_cancel|exact Hi]).
    destruct (IH (remove_active id (with_store db (send_command (Cancel (ah_identity p)) h))) Hdb) as [Hp Hi']. split; [|done].
    etransitivity; [exact Hc|]. etransitivity; [|exact Hp].
    by apply (cancel_plays _ _ (send_command (Cancel (ah_identity p)) h) _ _ (inv_schema _ Hi) Ec).
Qed.

Lemma acquire_plays su request random h r db :
  store_inv (hs_store h) → acquire_lease su request random (hs_store h) = (r, db) → plays h (with_store db h) ∧ store_inv db.
Proof.
  intros Hi. induction random as [|x random IH]; cbn [acquire_lease]; [intros [= _ <-]; by destruct h|].
  destruct (_ =? 0); [done|].
  destruct (acquire_summary_playback _ _ _ _ _ _) as [[g db1]|e] eqn:Ea.
  - intros [= _ <-]. pose proof (step_acquire _ _ _ _ _ _ _ _ Ea) as Hs. split; [|by eapply step_inv].
    eapply (plays_store _ _ _ _ (inv_schema _ Hi)); [|exact Ea|exact Hs]. apply acquire_good.
  - destruct e; try done; intros [= _ <-]; by destruct h.
Qed.

Lemma give_back_plays su lease h : schema_ok (hs_store h) → plays h (give_back su lease h).
Proof.
  intros Hs. unfold give_back. destruct (cancel_summary_playback _ _ _) as [[b db]|e] eqn:Ec; [|done]. by eapply cancel_plays.
Qed.

Lemma offer_plays su request source lease h h' : offer su request source lease h = Ok h' → plays h h'.
Proof.
  intros ([eiad samples] & _ & Ho)%rbind_ok. destruct (su_transport_alive su); [|done]. injection Ho as <-.
  etransitivity; [|apply plays_active]. by apply plays_command.
Qed.

Lemma begin_plays su request source h : store_inv (hs_store h) → plays h (begin_lan_playback su request source h).2.
Proof.
  intros Hi. unfold begin_lan_playback. case_match; [done|].
  destruct (supersede_plays su (in_key_order (hs_active h)) h Hi) as [Hp1 Hi1].
  destruct (supersede_all su _ h) as [[[]|e] h1]; [|done]. cbn [snd] in *.
  destruct (acquire_lease su request _ (hs_store h1)) as [r db] eqn:Ea.
  apply acquire_plays in Ea as [Hp2 Hi2]; [|done].
  assert (plays h (with_store db h1)) as Hp by (etransitivity; [exact Hp1|exact Hp2]).
  destruct r as [[lease|]|e]; [|done..]. cbv zeta. etransitivity; [exact Hp|].
  destruct (offer _ _ _ _ _) as [h'|e] eqn:Eo; [by eapply offer_plays|by apply give_back_plays, inv_schema].
Qed.

Lemma commit_plays su finished h h' : store_inv (hs_store h) → commit_heard su finished h = Some h' → plays h h'.
Proof.
  intros Hi. unfold commit_heard. destruct (hs_active h !! _) as [p|]; [|done]. case_match; [done|].
  destruct (ah_heard_committed p); [by intros [= <-]|].
  destruct (finish_summary_playback _ _ _) as [[[] db]|e] eqn:Ef; [|done..]. intros [= <-].
  assert (plays h (with_store db h)) as Hp; [|exact Hp].
  eapply (plays_store _ _ _ _ (inv_schema _ Hi)); [|exact Ef|by econstructor]. apply finish_good.
Qed.

Lemma acknowledge_plays su finished h : plays h (acknowledge_heard su finished h).
Proof. unfold acknowledge_heard. case_match; [|done]. by apply (plays_command (FinishAck (fn_identity finished)) h). Qed.

Lemma finished_plays su finished h : store_inv (hs_store h) → plays h (finished_playback su finished h).
Proof.
  intros Hi. unfold finished_playback. destruct (commit_heard su finished h) as [h'|] eqn:Hc; [|done].
  etransitivity; [by eapply commit_plays|apply acknowledge_plays].
Qed.

Lemma cancelled_plays su identity h : store_inv (hs_store h) → plays h (cancelled_playback su identity h).
Proof.
  intros Hi. unfold cancelled_playback. destruct (hs_active h !! _) as [p|]; [|done]. case_match; [done|].
  destruct (cancel_summary_playback _ _ _) as [[b db]|e] eqn:Ec; [|done].
  exact (cancel_plays _ _ h _ _ (inv_schema _ Hi) Ec).
Qed.

Lemma event_plays su event h : store_inv (hs_store h) → plays h (handle_lan_playback_event su event h).
Proof. destruct event; [apply begin_plays|apply finished_plays|apply cancelled_plays]. Qed.

(** ** The lights *)

(** Four slots, and a slot is lit exactly when its summary covers something. *)
Record snapshot_ok (s : MailboxStatusSnapshot) : Prop := {
  so_length : length (ms_coverage_by_slot s) = 4%nat;
  so_high i : 4 ≤ i → Z.testbit (ms_unread_slots s) i = false;
  so_bit (i : nat) c : ms_coverage_by_slot s !! i = Some c → Z.testbit (ms_unread_slots s) (Z.of_nat i) = negb (c =? 0);
}.

Lemma land_bit a i : 0 ≤ i → (Z.land a (Z.shiftl 1 i) =? 0) = negb (Z.testbit a i).
Proof.
  intros Hi. rewrite Z.shiftl_1_l. destruct (Z.testbit a i) eqn:E; cbn.
  - apply Z.eqb_neq. intros E0. assert (Z.testbit (Z.land a (2 ^ i)) i = true) as Hb by (by rewrite Z.land_spec, E, Z.pow2_bits_true).
    by rewrite E0, Z.bits_0 in Hb.
  - apply Z.eqb_eq, Z.bits_inj'. intros j Hj. rewrite Z.land_spec, Z.bits_0. destruct (decide (j = i)) as [->|Hne].
    + by rewrite E.
    + rewrite Z.pow2_bits_false by congruence. apply andb_false_r.
Qed.

Lemma set_coverage_ok slot v s :
  snapshot_ok s → 1 ≤ slot ≤ 4 → 0 < v → ∃ s', set_coverage (slot - 1) v s = Ok s' ∧ snapshot_ok s'.
Proof.
  intros [Hlen Hhigh Hbit] Hslot Hv. unfold set_coverage.
  replace ((0 <=? slot - 1) && (slot - 1 <? 4)) with true by lia. eexists. split; [done|].
  assert (∀ j, 0 ≤ j → Z.testbit (Z.lor (ms_unread_slots s) (Z.shiftl 1 (slot - 1))) j
    = Z.testbit (ms_unread_slots s) j || (j =? slot - 1)) as Hb.
  { intros j Hj. rewrite Z.lor_spec, Z.shiftl_1_l, Z.pow2_bits_eqb by lia. f_equal. apply Z.eqb_sym. }
  split; cbn [ms_unread_slots ms_coverage_by_slot].
  - by rewrite length_insert.
  - intros i Hi. rewrite Hb, Hhigh by lia. cbn. lia.
  - intros i c Hc. rewrite Hb by lia. destruct (decide (i = Z.to_nat (slot - 1))) as [->|Hne].
    + rewrite list_lookup_insert_eq in Hc by lia. injection Hc as <-. rewrite Z2Nat.id by lia. rewrite Z.eqb_refl, orb_true_r. lia.
    + rewrite list_lookup_insert_ne in Hc by done. rewrite (Hbit i c Hc).
      replace (Z.of_nat i =? slot - 1) with false by lia. by rewrite orb_false_r.
Qed.

Lemma no_mismatch s : snapshot_ok s → mailbox_mismatch s = false.
Proof.
  intros [_ _ Hbit]. unfold mailbox_mismatch. destruct (existsb id _) eqn:E; [|done]. exfalso.
  apply existsb_exists in E as (b & Hin & Hb). apply list_elem_of_In, list_elem_of_lookup in Hin as [i Hi].
  rewrite list_lookup_imap in Hi. destruct (ms_coverage_by_slot s !! i) as [c|] eqn:Ec; [|done]. cbn in Hi. injection Hi as <-.
  rewrite land_bit, negb_involutive, (Hbit i c Ec) in Hb by lia. unfold id in Hb. by rewrite eqb_reflx in Hb.
Qed.

Lemma bindings_total db : schema_ok db → ∃ bs, bindings db = Ok (bs, db)
  ∧ ∀ b, b ∈ bs → 1 ≤ bd_slot b ≤ 4 ∧ ∃ r, r ∈ db_bindings db ∧ br_task_id r = bd_task_id b.
Proof.
  intros [_ Hc]%bindings_schema_of. rewrite Forall_forall in Hc. unfold bindings, query_result, query_bindings.
  assert (∀ r, r ∈ take 4 (order_by (λ a b, br_slot a <=? br_slot b) (db_bindings db)) → r ∈ db_bindings db) as Hin.
  { intros r (i & Hi & _)%elem_of_take. apply list_elem_of_lookup_2 in Hi. by rewrite elem_of_order_by in Hi. }
  revert Hin. induction (take 4 _) as [|r l IH]; intros Hin; [exists []; split; [done|]; by intros b ?%elem_of_nil|].
  destruct IH as (bs & E & Hbs); [intros; apply Hin; by right|]. destruct (Hc r) as [[Hl Hu] _]; [apply Hin; by left|].
  rewrite fmap_cons. cbn [collect]. unfold binding_of at 1. rewrite sql_u8_fit by width_lia. cbn [rbind].
  destruct (collect (binding_of <$> l)) as [bs'|]; [|done]. cbn in E |- *. injection E as ->. eexists. split; [done|].
  intros b [->|Hb]%elem_of_cons; [|by apply Hbs]. cbn. split; [done|]. exists r. split; [apply Hin; by left|done].
Qed.

Lemma no_lights : snapshot_ok (mk_snapshot 0 [0; 0; 0; 0]).
Proof.
  split; cbn; [done|intros; apply Z.bits_0|]. intros i c Hc. rewrite Z.bits_0. by repeat (destruct i as [|i]; [injection Hc as <-|]).
Qed.

Lemma mailbox_status_total db :
  store_inv db → bound_ok db → Z.of_nat (length (db_completions db)) ≤ u32_max →
  ∃ s, mailbox_status db = Ok (s, db) ∧ snapshot_ok s.
Proof.
  intros Hi Hb Hlen. unfold mailbox_status. destruct (bindings_total db (inv_schema _ Hi)) as (bs & Ebs & Hbs).
  unfold tbind at 1. rewrite Ebs. cbn [rbind fst snd].
  assert (∀ s, snapshot_ok s → ∃ s', mailbox_loop bs s db = Ok (s', db) ∧ snapshot_ok s') as Hloop.
  { clear Ebs. induction bs as [|b bs IH]; intros s Hs; cbn [mailbox_loop]; [by exists s|].
    destruct (Hbs b) as (Hslot & r & Hr & Et); [by left|]. unfold bound_ok in Hb. rewrite Forall_forall in Hb.
    destruct (current_unread_total (bd_task_id b) db (inv_schema _ Hi) (inv_summaries _ Hi) Hlen) as [o Ho].
    assert (uuid_ok (bd_task_id b) = true) as Hu by (rewrite <- Et; by apply Hb).
    unfold tbind at 1, current_unread_summary. rewrite Hu. cbn [negb]. unfold query_result. rewrite Ho. cbn [rbind fst snd].
    assert (∀ b, b ∈ bs → 1 ≤ bd_slot b ≤ 4 ∧ ∃ r, r ∈ db_bindings db ∧ br_task_id r = bd_task_id b) as Hbs' by (intros; apply Hbs; by right).
    destruct o as [u|]; [|by apply IH]. apply current_unread_ok in Ho as (? & _ & _ & _ & _ & _ & _ & _ & _ & Hpos).
    destruct (set_coverage_ok (bd_slot b) (Z.min (us_coverage_count u) u8_max) s Hs Hslot) as (s' & Es & Hs'); [width_lia|].
    unfold tbind at 1, lift. rewrite Es. cbn [rbind fst snd]. by apply IH. }
  destruct (Hloop (mk_snapshot 0 [0; 0; 0; 0]) no_lights) as (s & Es & Hs).
  unfold tbind. rewrite Es. cbn [rbind fst snd]. rewrite (no_mismatch _ Hs). by exists s.
Qed.

(** ** The invariant *)

Definition lights_of (s : MailboxStatus) : MailboxStatusSnapshot := mk_snapshot (mb_unread_slots s) (mb_coverage_by_slot s).

(** Neighbours differ. *)
Definition changing (l : list MailboxStatus) : Prop := ∀ i s, l !! i = Some s → l !! S i ≠ Some s.

(** The playbacks and the store are as [P] says, which depends on where the loop is; the rest
    holds everywhere. *)
Record daemon_inv_at (P : HostState → Prop) (d : Daemon) : Prop := {
  dv_playbacks : P (dm_host d);
  dv_jobs : agree (dm_scheduler d) (dm_store d);
  dv_bound : bound_ok (dm_store d);
  dv_control : (length (dm_control d) <= CONTROL_CAPACITY)%nat;
  dv_clients : 0 <= dm_clients d <= MAX_ACTIVE_CLIENTS;
  dv_last : dm_last_mailbox d = last (lights (hs_commands (dm_host d)));
  dv_changing : changing (lights (hs_commands (dm_host d)));
}.

#[global] Arguments dv_playbacks {P} d _.
#[global] Arguments dv_jobs {P} d _.
#[global] Arguments dv_bound {P} d _.
#[global] Arguments dv_control {P} d _.
#[global] Arguments dv_clients {P} d _.
#[global] Arguments dv_last {P} d _.
#[global] Arguments dv_changing {P} d _.

Definition daemon_inv : Daemon → Prop := daemon_inv_at host_inv.

Definition dv_store d (Hd : daemon_inv d) : store_inv (dm_store d) := hi_store _ (dv_playbacks d Hd).

Lemma daemon_inv_mono (P Q : HostState → Prop) d : (P (dm_host d) → Q (dm_host d)) → daemon_inv_at P d → daemon_inv_at Q d.
Proof. intros HPQ []. split; auto. Qed.

Lemma changing_snoc l s : changing l → last l ≠ Some s → changing (l ++ [s]).
Proof.
  intros Hc Hl i x Hi Hn. assert (i < length l)%nat as Hlt.
  { apply lookup_lt_Some in Hn. rewrite length_app in Hn. cbn in Hn. lia. }
  rewrite lookup_app_l in Hi by done. destruct (decide (S i = length l)) as [E|Hne].
  - rewrite E, list_lookup_middle in Hn by done. injection Hn as ->. apply Hl. by rewrite last_lookup, <- E.
  - rewrite lookup_app_l in Hn by lia. by apply (Hc i x).
Qed.

(** New playbacks and a new store, under the same lights and beside the same threads. *)
Lemma set_host_inv P (Q : HostState → Prop) d h :
  daemon_inv_at P d → store_inv (dm_store d) → plays (dm_host d) h → Q h → daemon_inv_at Q (set_host h d).
Proof.
  intros Hd Hi [Hm El] HQ. destruct (elsewhere_agree (dm_scheduler d) _ _ (play_moves_elsewhere _ _ Hm) Hi (dv_jobs d Hd)) as [_ Ha].
  pose proof (play_moves_jobs _ _ Hm) as (_ & _ & Eb). destruct Hd as [_ Hj Hb Hco Hcl Hl Hch].
  split; cbn [dm_host dm_scheduler dm_control dm_clients dm_last_mailbox set_host]; rewrite ?El; try done.
  unfold bound_ok, dm_store in *. cbn. by rewrite Eb.
Qed.

(** A new store under the same playbacks, and new threads. *)
Lemma set_store_inv P Q d db s :
  daemon_inv_at P d → Q (with_store db (dm_host d)) → agree s db → bound_ok db → daemon_inv_at Q (set_scheduler s (set_store db d)).
Proof. intros [] ???. by split. Qed.

Lemma same_store_inv P Q d db :
  daemon_inv_at P d → Q (with_store db (dm_host d)) → agree (dm_scheduler d) db → bound_ok db → daemon_inv_at Q (set_store db d).
Proof. intros [] ???. by split. Qed.

Lemma job_move_inv d db s : daemon_inv d → rtc job_move (dm_store d) db → agree s db → daemon_inv (set_scheduler s (set_store db d)).
Proof.
  intros Hd Hm Ha. eapply set_store_inv; [exact Hd| |done|].
  - apply job_moves_playbacks; [exact Hm|apply Hd].
  - by eapply job_moves_bound, dv_bound.
Qed.

Lemma set_prompts_inv P c ps d : daemon_inv_at P d → daemon_inv_at P (set_prompts c ps d).
Proof. intros []. by split. Qed.
Lemma set_events_inv P es d : daemon_inv_at P d → daemon_inv_at P (set_events es d).
Proof. intros []. by split. Qed.
Lemma set_control_inv P cs rs d : daemon_inv_at P d → (length cs <= CONTROL_CAPACITY)%nat → daemon_inv_at P (set_control cs rs d).
Proof. intros [] ?. by split. Qed.
Lemma reply_control_inv P r d : daemon_inv_at P d → daemon_inv_at P (reply_control r d).
Proof. intros Hd. apply set_control_inv; [done|apply Hd]. Qed.

Lemma set_store_same d : set_store (dm_store d) d = d.
Proof. by destruct d as [[] ? ? ? ? ? ? ? ? ?]. Qed.

Lemma publish_mailbox_inv t s d : daemon_inv d → daemon_inv (publish_mailbox t s d).2.
Proof.
  intros Hd. unfold publish_mailbox. set (current := mk_mailbox _ _ _). destruct (bool_decide _) eqn:E.
  { destruct Hd. split; try done. }
  bool_prop. destruct (tu_ingress_alive t); [|done]. destruct Hd as [Hp Hj Hb Hco Hcl Hl Hch].
  assert (lights (hs_commands (send_command (Mailbox current) (dm_host d))) = lights (hs_commands (dm_host d)) ++ [current]) as El
    by (unfold lights; cbn; by rewrite omap_app).
  split; cbn [dm_host dm_scheduler dm_control dm_clients dm_last_mailbox set_mailbox set_host snd]; try done.
  - by apply send_command_inv.
  - by rewrite El, last_snoc.
  - rewrite El. apply changing_snoc; [done|congruence].
Qed.

Lemma refresh_inv t d : daemon_inv d → daemon_inv (refresh_mailbox t d).2.
Proof.
  intros Hd. unfold refresh_mailbox. destruct (_ <=? _); [|done]. destruct (mailbox_status _) as [[s db]|]; [|done].
  by apply publish_mailbox_inv.
Qed.

Lemma bind_step files now slot expected task db r db' :
  bind codex_home files now slot expected task db = (r, db') →
  db' = db ∨ ∃ g, uuid_ok task = true ∧ g ≤ i64_max ∧ step db db' ∧ schema_ok db'
    ∧ db' = (upsert_binding (mk_binding_row slot task g now) db).1.
Proof.
  unfold bind. destruct (allowlisted _ _ _) as [t|e] eqn:Ea; [|by intros [= _ <-]; left].
  unfold with_error. destruct (set_binding _ _ _ _ _) as [[o db1]|e] eqn:Es; intros [= _ <-]; [|by left].
  pose proof (step_set_binding _ _ _ _ _ _ _ Es) as Hstep. apply set_binding_ok in Es as [[_ ->]|(g & _ & Hg & Hs & ->)]; [by left|right].
  exists g. split_and!; try done. unfold allowlisted in Ea. by destruct (uuid_ok task).
Qed.

Lemma upsert_bound_ok slot task g now db :
  schema_ok db → uuid_ok task = true → bound_ok db → bound_ok (upsert_binding (mk_binding_row slot task g now) db).1.
Proof.
  intros [Hu _]%bindings_schema_of Ht Hb. unfold bound_ok in *. rewrite Forall_forall in *. intros r Hr.
  apply (elem_of_upsert br_slot _ (mk_binding_row slot task g now)) in Hr as [->|[Hr _]]; [done|by apply Hb|done].
Qed.

Lemma bind_inv files now slot expected task d r db :
  bind codex_home files now slot expected task (dm_store d) = (r, db) → daemon_inv d → daemon_inv (set_store db d).
Proof.
  intros Hr Hd. apply bind_step in Hr as [->|(g & Hu & Hg & Hstep & Hs & Edb)]; [by rewrite set_store_same|].
  assert (db_jobs db = db_jobs (dm_store d) ∧ db_job_sequence db = db_job_sequence (dm_store d) ∧ db_leases db = db_leases (dm_store d))
    as (E1 & E2 & E3) by by rewrite Edb.
  destruct (elsewhere_agree (dm_scheduler d) (dm_store d) db) as [_ Ha]; [apply rtc_once; by right|apply (dv_store d Hd)|apply Hd|].
  eapply same_store_inv; [exact Hd| |done|].
  - eapply host_step_inv; [|apply Hd]. by apply host_store.
  - rewrite Edb. apply upsert_bound_ok; [apply (inv_schema _ (dv_store d Hd))|done|apply Hd].
Qed.

Lemma accept_client_inv t d : daemon_inv d → daemon_inv (accept_client t d).2.
Proof.
  intros Hd. unfold accept_client. destruct (tu_accept t); [|done..]. cbn [snd]. unfold reserve_client.
  destruct (Z.ltb_spec (dm_clients d) MAX_ACTIVE_CLIENTS); [|done]. destruct Hd. split; try done. cbn. lia.
Qed.

(** ** Where the loop is *)

(** The lease that is about to be given back is the only one, and nothing plays. *)
Definition held (lease : SummaryPlaybackLease) (h : HostState) : Prop :=
  store_inv (hs_store h) ∧ tasks_ok (hs_store h) ∧ hs_active h = ∅ ∧ validate_playback_lease lease = Ok tt
  ∧ ∃ row, db_leases (hs_store h) = [row] ∧ exact_lease lease row.

(** What was read for the lights so far. *)
Definition lights_read (bs : list Binding) (s : MailboxStatusSnapshot) : Prop :=
  (∀ b, b ∈ bs → 1 ≤ bd_slot b ≤ 4 ∧ uuid_ok (bd_task_id b) = true) ∧ snapshot_ok s.

Definition stage (at_ : option Point) (h : HostState) : Prop :=
  match at_ with
  | Some (Refreshing bs s) => host_inv h ∧ lights_read bs s
  | Some (Superseding _ _ l _) => host_inv h ∧ NoDup l.*1 ∧ ∀ id p, (id, p) ∈ l ↔ hs_active h !! id = Some p
  | Some (Acquiring _ _ _ _) => host_inv h ∧ hs_active h = ∅
  | Some (GivingBack lease _) => held lease h
  | Some (Acknowledging finished _) =>
      host_inv h ∧ ∀ q, hs_active h !! id_lease (fn_identity finished) = Some q → ah_heard_committed q = true
  | _ => host_inv h
  end.

Definition loop_inv (c : Config) : Prop := daemon_inv_at (stage c.2) c.1.

Lemma stage_store at_ h : stage at_ h → store_inv (hs_store h) ∧ tasks_ok (hs_store h).
Proof.
  intros Hs. assert ((∃ lease n, at_ = Some (GivingBack lease n)) ∨ host_inv h) as [(lease & n & ->)|Hi].
  { destruct at_ as [[]|]; cbn in Hs; try (by right); try (right; apply Hs). left. eauto. }
  - destruct Hs as (? & ? & _). done.
  - split; apply Hi.
Qed.

Lemma stage_weaken (P : HostState → Prop) d : daemon_inv_at (λ h, host_inv h ∧ P h) d → daemon_inv d.
Proof. by apply daemon_inv_mono; intros []. Qed.

Lemma loop_store d at_ : daemon_inv_at (stage at_) d → store_inv (dm_store d) ∧ tasks_ok (dm_store d).
Proof. intros Hd. apply (stage_store at_), Hd. Qed.

(** *** The other threads *)

Definition same_jobs_leases (db db' : Db) : Prop := same_job_tables db db' ∧ db_leases db' = db_leases db.

#[local] Instance same_jobs_leases_preorder : PreOrder same_jobs_leases.
Proof. split; [done|]. intros a b c [(?&?&?) ?] [(?&?&?) ?]. split; [split_and!|]; congruence. Qed.

Lemma cover_completions_leases task gen cs : keeps same_jobs_leases (cover_completions task gen cs).
Proof. induction cs; simpl; keeps_tac; done. Qed.

Lemma worker_commit_frame db db' :
  schema_ok db → worker_commit db db' → step db db' ∧ same_job_tables db db' ∧ db_leases db' = db_leases db.
Proof.
  intros Hs Hc. assert (∀ {A} (m : Tx A) a, keeps same_jobs_leases m → m db = Ok (a, db') → same_jobs_leases db db') as Hk
    by (intros A m a Hk Hr; by apply (Hk _ _ _ Hs Hr)).
  split.
  - destruct Hc; [by eapply step_commit|by eapply step_claim|by eapply step_abandon|by eapply step_abandon_interrupted
      |by eapply step_begin_attempt|by eapply step_ambiguous|by eapply step_resume|by eapply step_publish].
  - destruct Hc as [now b e next cid tp o Hr|now task req o Hr|now claim b Hr|now task o Hr|now claim x Hr|now claim u Hr|now task o Hr
      |now claim cache u _ Hr].
    1: { apply commit_ok in Hr as (_ & _ & _ & _ & _ & _ & _ & _ & db1 & Hr & ->).
         by apply record_completion_ok in Hr as [(_ & -> & _)|(_ & _ & ->)]. }
    all: eapply Hk; [|exact Hr].
    + unfold claim_summary, claim_prior, reactivate, claim_new. keeps_tac.
    + unfold abandon_summary_claim. keeps_tac.
    + unfold abandon_interrupted_summary_for_task. keeps_tac.
    + unfold begin_summary_tts_attempt. keeps_tac.
    + unfold mark_summary_tts_ambiguous. keeps_tac.
    + unfold resume_interrupted_summary. keeps_tac.
    + unfold publish_summary, supersede_previous. keeps_tac; apply cover_completions_leases.
Qed.

Lemma host_store_inv h db : step (hs_store h) db → db_leases db = db_leases (hs_store h) → host_inv h → host_inv (with_store db h).
Proof. intros Hs Hl. eapply host_step_inv. by apply host_store. Qed.

Lemma stage_others at_ h db :
  step (hs_store h) db → db_leases db = db_leases (hs_store h) → stage at_ h → stage at_ (with_store db h).
Proof.
  intros Hstep Hl Hs. pose proof (host_store_inv h db Hstep Hl) as Hi.
  destruct at_ as [[]|]; cbn in *; try (by apply Hi); try (by destruct Hs as [Hh Hr]; split; [apply Hi|]).
  destruct Hs as (H1' & H2' & Ha & Hv & row & Hrow & Hex). destruct (step_host_store _ _ Hstep H1' H2') as [? ?].
  split_and!; [done..|]. exists row. cbn. by rewrite Hl.
Qed.

(** *** The loop's own steps *)

Lemma head_inv t d r d' :
  daemon_inv d → advance_head t d = (r, d') → d' = d ∧ stage (match r with Ok p => Some p | Err _ => None end) (dm_host d).
Proof.
  intros Hd. pose proof (dv_playbacks d Hd) as Hp. unfold advance_head.
  destruct (tu_observer_finished t); [by intros [= <- <-]|]. destruct (tu_summary_finished t); [by intros [= <- <-]|].
  destruct (_ <=? _); [|by intros [= <- <-]]. destruct (bindings_total (dm_store d) (inv_schema _ (dv_store d Hd))) as (bs & -> & Hbs).
  intros [= <- <-]. split; [done|]. split; [done|]. split; [|apply no_lights].
  intros b Hb. destruct (Hbs b Hb) as (Hslot & r & Hr & Et). split; [done|].
  pose proof (dv_bound d Hd) as Hu. unfold bound_ok in Hu. rewrite Forall_forall in Hu. rewrite <- Et. by apply Hu.
Qed.

Lemma refresh_step_inv t bs s d r d' :
  daemon_inv_at (stage (Some (Refreshing bs s))) d → advance_refresh t bs s d = (r, d') →
  daemon_inv_at (stage (match r with Ok p => Some p | Err _ => None end)) d'.
Proof.
  intros Hd. assert (daemon_inv d) as Hd0 by by apply (stage_weaken (λ _, lights_read bs s)). destruct (dv_playbacks d Hd) as [_ [Hbs Hs]].
  unfold advance_refresh. destruct bs as [|b bs].
  - rewrite (no_mismatch s Hs). pose proof (publish_mailbox_inv t s d Hd0) as Hp.
    destruct (publish_mailbox t s d) as [[[]|e] d1]; by intros [= <- <-].
  - assert (∀ s', snapshot_ok s' → daemon_inv_at (stage (Some (Refreshing bs s'))) d) as Hgo.
    { intros s' Hs'. eapply daemon_inv_mono; [|exact Hd0]. intros Hh. split; [done|]. split; [|done]. intros b' Hb'. apply Hbs. by right. }
    destruct (current_unread_summary _ _) as [[[u|] db]|e] eqn:Eu; [|intros [= <- <-]..]; [|by apply Hgo|done].
    destruct (Hbs b) as [Hslot Hu]; [by left|]. unfold current_unread_summary in Eu. rewrite Hu in Eu. cbn [negb] in Eu.
    apply rbind_ok in Eu as (o & Ho & [= -> _]). apply current_unread_ok in Ho as (? & _ & _ & _ & _ & _ & _ & _ & _ & Hpos).
    destruct (set_coverage_ok (bd_slot b) (Z.min (us_coverage_count u) u8_max) s Hs Hslot) as (s' & -> & Hs'); [width_lia|].
    intros [= <- <-]. by apply Hgo.
Qed.

Lemma enqueue_move now job db out db' :
  with_error QueueStore (enqueue now job) db = (out, db') → rtc job_move db db' ∧ rtc elsewhere db db'.
Proof.
  unfold with_error. destruct (enqueue now job db) as [[o db2]|e] eqn:He; intros [= _ <-]; [|done].
  assert (elsewhere db db2) as Hel by (left; eauto). pose proof (step_enqueue _ _ _ _ _ He) as Hstep.
  split; apply rtc_once; [|done]. apply enqueue_ok in He as (_ & _ & [(_ & -> & _)|(_ & _ & _ & _ & _ & -> & _)]); by split.
Qed.

Lemma prompt_inv t n d p d' : daemon_inv d → advance_prompt codex_home t n d = (p, d') → daemon_inv_at (stage (Some p)) d'.
Proof.
  intros Hd. unfold advance_prompt. destruct n as [|n]; [by intros [= <- <-]|]. destruct (dm_prompts d) as [|prompt rest]; [by intros [= <- <-]|].
  destruct (resolve _ _ _ _) as [[[b task]|]|e]; intros [= <- <-]; by apply set_prompts_inv.
Qed.

Lemma enqueue_step_inv t job n d p d' : daemon_inv d → advance_enqueue t job n d = (p, d') → daemon_inv_at (stage (Some p)) d'.
Proof.
  intros Hd. unfold advance_enqueue. destruct (with_error _ _ _) as [out db] eqn:He. apply enqueue_move in He as [Hm He].
  destruct (elsewhere_agree (dm_scheduler d) _ _ He (dv_store d Hd) (dv_jobs d Hd)) as [_ Ha].
  intros [= <- <-]. apply set_prompts_inv. exact (job_move_inv d db (dm_scheduler d) Hd Hm Ha).
Qed.

Lemma event_inv t n d p d' :
  daemon_inv d → event_expected (AtEvents n) d → advance_event t n d = (p, d') → daemon_inv_at (stage (Some p)) d'.
Proof.
  intros Hd. unfold advance_event. destruct n as [|n]; [by intros _ [= <- <-]|]. cbn [event_expected].
  destruct (dm_events d) as [|event rest]; [by intros _ [= <- <-]|]. intros Hok.
  set (su := tu_around t (round_index n)). pose proof (set_events_inv host_inv rest d Hd) as Hd1.
  destruct event as [request source|finished|identity].
  - destruct (already_playing _ _); intros [= <- <-]; [done|]. eapply daemon_inv_mono; [|exact Hd1]. intros Hh. cbn.
    destruct (in_key_order_spec (hs_active (dm_host d))) as [Hnd Hin]. by split_and!.
  - destruct (commit_heard su finished _) as [h|] eqn:Ec; intros [= <- <-]; [|done].
    apply (set_host_inv host_inv); [done|apply (dv_store d Hd)|by eapply commit_plays, Ec; apply (dv_store d Hd)|].
    by apply (commit_heard_inv su finished (dm_host d)); [apply Hd|].
  - intros [= <- <-]. apply (set_host_inv host_inv); [done|apply (dv_store d Hd)|by apply cancelled_plays, (dv_store d Hd)|].
    by apply cancelled_inv; [apply Hd|].
Qed.

Lemma supersede_one su id p h r h' :
  supersede_all su [(id, p)] h = (r, h') → is_ok r → hs_active h' = delete id (hs_active h).
Proof.
  cbn [supersede_all]. destruct (ah_heard_committed p); [by intros [= <- <-]|].
  destruct (cancel_summary_playback _ _ _) as [[b db]|e]; [by intros [= <- <-]|]. by intros [= <- <-] [? [=]].
Qed.

Lemma supersede_step_inv t request source l n d p d' :
  daemon_inv_at (stage (Some (Superseding request source l n))) d →
  advance_supersede t request source l n d = (p, d') → daemon_inv_at (stage (Some p)) d'.
Proof.
  intros Hd. destruct (dv_playbacks d Hd) as (Hh & Hnd & Hl). unfold advance_supersede. destruct l as [|[id q] l].
  - intros [= <- <-]. eapply daemon_inv_mono; [|exact Hd]. intros _. split; [done|]. apply map_empty. intros id.
    apply eq_None_not_Some. intros [q Hq%Hl]. by apply not_elem_of_nil in Hq.
  - destruct (supersede_all _ [(id, q)] (dm_host d)) as [r h] eqn:Es.
    pose proof (supersede_plays (tu_around t (round_index n)) [(id, q)] (dm_host d) (hi_store _ Hh)) as [Hp _].
    pose proof (supersede_all_inv (tu_around t (round_index n)) [(id, q)] (dm_host d) Hh) as Hs. rewrite Es in Hs, Hp. cbn [snd] in Hp.
    cbn [fmap list_fmap fst] in Hnd. apply NoDup_cons in Hnd as [Hid Hnd].
    assert (∀ id' q', (id', q') ∈ [(id, q)] → hs_active (dm_host d) !! id' = Some q') as Hin
      by (intros id' q' [= -> ->]%list_elem_of_singleton; apply Hl; by left).
    specialize (Hs (NoDup_singleton _) Hin). assert (host_inv h) as Hh' by (destruct r; [apply Hs|done]).
    destruct r as [[]|e]; intros [= <- <-]; (eapply set_host_inv; [exact Hd|apply (hi_store _ Hh)|exact Hp|]); [|exact Hh'].
    split; [exact Hh'|]. split; [done|]. intros id' q'. rewrite (supersede_one _ _ _ _ _ _ Es (ex_intro _ tt eq_refl)), lookup_delete_Some, <- Hl.
    rewrite elem_of_cons. split.
    + intros Hl'. split; [|by right]. intros ->. apply Hid, list_elem_of_fmap. by exists (id', q').
    + intros [Hne [[= -> ->]|?]]; done.
Qed.

Lemma acquire_step_inv t request source attempts n d p d' :
  daemon_inv_at (stage (Some (Acquiring request source attempts n))) d →
  advance_acquire t request source attempts n d = (p, d') → daemon_inv_at (stage (Some p)) d'.
Proof.
  intros Hd. destruct (dv_playbacks d Hd) as [Hh Ha]. pose proof (idle_leases _ Hh Ha) as Hl. unfold advance_acquire.
  assert (daemon_inv d) as Hd0 by by apply (stage_weaken (λ h, hs_active h = ∅)).
  set (su := tu_around t (round_index n)). destruct attempts as [|attempts]; [by intros [= <- <-]|].
  destruct (acquire_lease su request _ (dm_store d)) as [r db] eqn:Eq.
  pose proof (acquire_plays _ _ _ (dm_host d) _ _ (hi_store _ Hh) Eq) as [Hp Hi'].
  destruct r as [[lease|]|[]]; [|by intros [= <- <-]..].
  destruct (acquire_only_lease _ _ _ _ _ _ (hi_store _ Hh) (hi_tasks _ Hh) Hl Eq) as (Hs' & Ht' & Hv & row & Hrow & Hex & Hid).
  destruct (offer su request source lease _) as [h|e] eqn:Eo; intros [= <- <-].
  - change (set_host h (set_store db d)) with (set_host h d).
    apply (set_host_inv host_inv); [done|apply (hi_store _ Hh)|etransitivity; [exact Hp|by eapply offer_plays]|].
    apply rbind_ok in Eo as ([eiad samples] & _ & Eo). destruct (su_transport_alive su); [|done]. injection Eo as <-.
    unfold put_active, send_command, set_store, set_host. cbn [dm_host with_store hs_active hs_store hs_commands]. rewrite Ha.
    by eapply only_entry_inv.
  - apply (set_host_inv host_inv); [done|apply (hi_store _ Hh)|done|]. split_and!; [done..|by exists row].
Qed.

Lemma give_back_step_inv t lease n d :
  daemon_inv_at (held lease) d → daemon_inv (set_host (give_back (tu_around t (round_index n)) lease (dm_host d)) d).
Proof.
  intros Hd. destruct (dv_playbacks d Hd) as (Hs & Ht & Ha & Hv & row & Hrow & Hex).
  eapply set_host_inv; [exact Hd|done|by apply give_back_plays, inv_schema|].
  destruct (dm_host d) as [db act cs]. cbn in *. subst act. by eapply give_back_inv.
Qed.

Lemma drain_step_inv t k d r d' :
  daemon_inv d → advance_drain t k d = (r, d') → daemon_inv d' ∧ ∃ p, r = Ok p ∧ stage (Some p) = host_inv.
Proof.
  intros Hd. unfold advance_drain. destruct (dm_scheduler d) as [channel workers] eqn:Es. cbn [ds_channel ds_workers].
  destruct channel as [|o channel]; [intros [= <- <-]; split; [done|by eexists]|].
  assert (scheduler_inv (mk_scheduler (o :: channel) workers, dm_store d)) as Hs by (rewrite <- Es; split; apply Hd || apply (dv_store d Hd)).
  destruct (drain_one (tu_tick_clock t k) _ _ _ _ Hs) as (db & Hr & [_ Ha] & _). unfold dm_store in *. cbn [dm_host set_scheduler]. rewrite Hr.
  intros [= <- <-]. split; [|by eexists]. exact (job_move_inv d db _ Hd (rtc_once _ _ (record_move _ _ _ _ _ Hr)) Ha).
Qed.

Lemma fill_step_inv t k d r d' :
  daemon_inv d → advance_fill t k d = (r, d') →
  daemon_inv d' ∧ stage (match r with Ok p => Some p | Err _ => None end) = host_inv.
Proof.
  intros Hd. unfold advance_fill. destruct (_ <? _); [|by intros [= <- <-]].
  destruct (claim_next_runnable _ _) as [[[job|] db]|e] eqn:Hc; intros [= <- <-]; (split; [|done]); [| |done].
  - pose proof (claim_runs _ _ _ _ (dv_store d Hd) Hc) as [_ [Hfresh Hruns]].
    destruct (start_agree job (ds_channel (dm_scheduler d)) (ds_workers (dm_scheduler d)) (dm_store d) db) as [Ha _];
      [pose proof (dv_jobs d Hd) as Hj; by destruct (dm_scheduler d)|done..|].
    refine (job_move_inv d db _ Hd (rtc_once _ _ _) Ha). split; [by eapply step_claim_next|].
    apply claim_next_ok in Hc; [|apply (inv_jobs _ (dv_store d Hd))]. by destruct Hc as [([=] & _)|(c & j & _ & _ & _ & _ & _ & -> & _)].
  - destruct (claim_runs _ _ _ _ (dv_store d Hd) Hc) as [_ [-> _]]. by rewrite set_store_same.
Qed.

Lemma control_inv t n d p d' : daemon_inv d → advance_control codex_home t n d = (p, d') → daemon_inv_at (stage (Some p)) d'.
Proof.
  intros Hd. unfold advance_control. destruct n as [|n]; [by intros [= <- <-]|]. pose proof (dv_control d Hd) as Hlen.
  destruct (dm_control d) as [|request rest] eqn:Ec; [by intros [= <- <-]|].
  assert (daemon_inv (set_control rest (dm_replies d) d)) as Hd1 by (apply set_control_inv; [done|cbn in Hlen; lia]).
  destruct request as [|slot task expected]; [by intros [= <- <-]|].
  destruct (bind _ _ _ _ _ _ _) as [r db] eqn:Hb. pose proof (bind_inv _ _ _ _ _ (set_control rest (dm_replies d) d) _ _ Hb Hd1) as Hd2.
  destruct r as [[b|]|e]; intros [= <- <-]; by try apply reply_control_inv.
Qed.

Lemma list_inv t lan bound n d p d' : daemon_inv d → advance_list codex_home t lan bound n d = (p, d') → daemon_inv_at (stage (Some p)) d'.
Proof.
  intros Hd. unfold advance_list. destruct (list_tasks _ _); [|by intros [= <- <-]; apply reply_control_inv].
  destruct (bindings _) as [[bs db]|]; intros [= <- <-]; by try apply reply_control_inv.
Qed.

Lemma build_inv t rd n d p d' : daemon_inv d → advance_build t rd n d = (p, d') → daemon_inv_at (stage (Some p)) d'.
Proof.
  intros Hd. unfold advance_build. destruct (rd_slots rd); [by intros [= <- <-]; apply reply_control_inv|].
  destruct (rd_asked rd); [destruct (ask_pending _ _)|destruct (ask_unread _ _)|destruct (ask_latest _ _)];
    intros [= <- <-]; by try apply reply_control_inv.
Qed.

Lemma advance_inv t p d r d' :
  loop_inv (d, Some p) → event_expected p d → advance_loop codex_home t p d = (r, d') →
  loop_inv (d', match r with Ok p => Some p | Err _ => None end).
Proof.
  unfold loop_inv. cbn [fst snd]. intros Hd Hok.
  destruct p as [|bs s|n|job n|n|request source l n|request source a n|lease n|finished n|k|k|n|lan bound n|rd n|]; cbn [advance_loop].
  all: try (unfold goes_on; match goal with |- (Ok ?x.1, ?x.2) = _ → _ => destruct x as [p' d1] eqn:E; cbn [fst snd]; intros [= <- <-] end).
  - intros Ha. destruct (head_inv t d r d' Hd Ha) as [-> Hs]. by eapply daemon_inv_mono; [|exact Hd].
  - by apply refresh_step_inv.
  - by eapply prompt_inv.
  - by eapply enqueue_step_inv.
  - by eapply event_inv.
  - by eapply supersede_step_inv.
  - by eapply acquire_step_inv.
  - intros [= <- <-]. by apply give_back_step_inv.
  - intros [= <- <-]. destruct (dv_playbacks d Hd) as [Hh Hq].
    eapply set_host_inv; [exact Hd|apply (hi_store _ Hh)|apply acknowledge_plays|by apply acknowledge_heard_inv].
  - intros Ha. destruct (drain_step_inv t k d r d' Hd Ha) as [Hd' (p & -> & E)]. by rewrite E.
  - intros Ha. destruct (fill_step_inv t k d r d' Hd Ha) as [Hd' E]. by rewrite E.
  - by eapply control_inv.
  - by eapply list_inv.
  - by eapply build_inv.
  - pose proof (accept_client_inv t d Hd) as Hd'. destruct (accept_client t d) as [[[]|e] d1]; by intros [= <- <-].
Qed.

(** *** The leases, wherever the loop is *)

Lemma one_row {A} (l : list A) : (∀ i j x y, l !! i = Some x → l !! j = Some y → i = j) → (length l <= 1)%nat.
Proof. destruct l as [|x [|y l]]; cbn; [lia..|]. intros Hu. by specialize (Hu 0%nat 1%nat x y eq_refl eq_refl). Qed.

Lemma stage_leases at_ h :
  stage at_ h →
  (∀ row, row ∈ db_leases (hs_store h) →
     (∃ p, hs_active h !! lr_lease_id row = Some p ∧ ah_heard_committed p = false ∧ exact_lease (ah_lease p) row)
     ∨ ∃ lease n, at_ = Some (GivingBack lease n) ∧ exact_lease lease row ∧ hs_active h = ∅)
  ∧ (∀ id p, hs_active h !! id = Some p → ah_heard_committed p = false →
       ∃ row, row ∈ db_leases (hs_store h) ∧ exact_lease (ah_lease p) row)
  ∧ (length (db_leases (hs_store h)) <= 1)%nat
  ∧ (∀ id id', is_Some (hs_active h !! id) → is_Some (hs_active h !! id') → id = id').
Proof.
  intros Hs. assert ((∃ lease n, at_ = Some (GivingBack lease n)) ∨ host_inv h) as [(lease & n & ->)|Hi].
  { destruct at_ as [[]|]; cbn in Hs; try (by right); try (right; apply Hs). left. eauto. }
  - destruct Hs as (_ & _ & Ha & _ & row & Hrow & Hex). rewrite Hrow, Ha. split_and!.
    + intros r ->%list_elem_of_singleton. right. by exists lease, n.
    + intros id p. by rewrite lookup_empty.
    + done.
    + intros id id'. rewrite lookup_empty. by intros [? [=]].
  - split_and!.
    + intros row Hrow. left. by apply (hi_owned _ Hi).
    + intros id p Hp. apply (eo_row _ _ _ (hi_entry _ Hi id p Hp)).
    + apply one_row. intros i j r1 r2 Hi1 Hj2.
      destruct (hi_owned _ Hi r1) as (p1 & Hp1 & _); [by eapply list_elem_of_lookup_2|].
      destruct (hi_owned _ Hi r2) as (p2 & Hp2 & _); [by eapply list_elem_of_lookup_2|].
      destruct (leases_schema_of _ (inv_schema _ (hi_store _ Hi))) as (Hu & _).
      exact (Hu i j r1 r2 Hi1 Hj2 I I (hi_one _ Hi _ _ _ _ Hp1 Hp2)).
    + intros id id' [p Hid] [p' Hid']. by apply (hi_one _ Hi id id' p p').
Qed.

(** ** Reachable states *)

Lemma new_daemon_inv db :
  store_inv db → tasks_ok db → bound_ok db → db_leases db = [] → (∀ req g task, ¬ runs db req g task) → daemon_inv (new_daemon db).
Proof.
  intros Hi Ht Hb Hl Hno. split; cbn; try done.
  - by apply idle_inv.
  - by apply new_agree.
  - lia.
Qed.

Lemma recover_frees now db counts db' :
  store_inv db → recover_on_open now db = (Ok counts, db') → rtc step db db' ∧ db_bindings db' = db_bindings db ∧ db_leases db' = [].
Proof.
  intros Hinv. unfold recover_on_open.
  destruct (recover_interrupted_jobs now db) as [[jobs db1]|] eqn:R1; [|done].
  destruct (recover_interrupted_summaries now db1) as [[summaries db2]|] eqn:R2; [|done].
  destruct (recover_interrupted_playback_leases now db2) as [[u db3]|] eqn:R3; [|done]. intros [= _ <-].
  assert (store_inv db1) as Hinv1 by (eapply step_inv; [by eapply step_recover_jobs|done]).
  assert (store_inv db2) as Hinv2 by (eapply step_inv; [by eapply step_recover_summaries|done]).
  split; [|split].
  - apply (rtc_l _ _ db1); [by eapply step_recover_jobs|]. apply (rtc_l _ _ db2); [by eapply step_recover_summaries|].
    apply rtc_once. by eapply step_recover_leases.
  - destruct (recover_leases_good _ _ _ _ (inv_schema _ Hinv2) R3) as [_ (_ & _ & ->)].
    destruct (recover_summaries_good _ _ _ _ (inv_schema _ Hinv1) R2) as [_ (_ & _ & ->)].
    by apply exec_frame in R1 as [_ ->].
  - apply recover_leases_ok in R3 as [_ ->]. destruct (db_leases _) as [|l ls] eqn:El; [done|]. exfalso.
    assert (l ∈ l :: ls) as Hin by by left. rewrite <- El in Hin. cbn in Hin. apply list_elem_of_filter in Hin as [Hn _]. by apply Hn.
Qed.

Lemma daemon_step_inv c c' : daemon_step codex_home c c' → loop_inv c → loop_inv c'.
Proof.
  intros Hs Hd. destruct Hs as [t p d p' d' Hok Ha|t p d e d' Hok Ha|at_ d p|at_ d e|at_ d request d' Hsend|at_ d Hpos|at_ d req answer s Hw
    |at_ d store Hc|at_ d now counts store Hr].
  - exact (advance_inv t p d (Ok p') d' Hd Hok Ha).
  - exact (advance_inv t p d (Err e) d' Hd Hok Ha).
  - by apply set_prompts_inv.
  - by apply set_events_inv.
  - unfold send_control in Hsend. destruct (Nat.ltb_spec (length (dm_control d)) CONTROL_CAPACITY); [|done]. injection Hsend as <-.
    apply set_control_inv; [done|]. rewrite length_app. cbn. lia.
  - destruct Hd. split; try done. cbn in *. unfold release_client. lia.
  - destruct (loop_store d at_ Hd) as [Hi _].
    destruct (worker_done_inv req answer (dm_scheduler d) s (dm_store d)) as [_ Ha]; [split; [done|apply Hd]|done|].
    destruct Hd. by split.
  - destruct (loop_store d at_ Hd) as [Hi _]. destruct (worker_commit_frame _ _ (inv_schema _ Hi) Hc) as (Hstep & (Ej & Eq & Eb) & El).
    destruct (elsewhere_agree (dm_scheduler d) (dm_store d) store) as [_ Ha]; [apply rtc_once; by right|done|apply Hd|].
    eapply same_store_inv; [exact Hd|by apply stage_others, Hd|done|].
    pose proof (dv_bound d Hd) as Hb. unfold bound_ok in *. by rewrite Eb.
  - destruct (loop_store d at_ Hd) as [Hi Ht]. destruct (recover_no_runs _ _ _ _ Hi Hr) as [Hi' Hno].
    apply recover_frees in Hr as (Hsteps & Eb & El); [|done]. apply new_daemon_inv; try done.
    + by eapply steps_tasks.
    + pose proof (dv_bound d Hd) as Hb. unfold bound_ok in *. by rewrite Eb.
Qed.

(** The host from its first start on. *)
Definition daemon_reachable (c : Config) : Prop := rtc (daemon_step codex_home) (new_daemon empty_db, Some AtHead) c.

Lemma daemon_reachable_inv c : daemon_reachable c → loop_inv c.
Proof.
  intros Hr. assert (loop_inv (new_daemon empty_db, Some AtHead)) as Hi.
  { apply new_daemon_inv; [exact inv_empty|by intros r ?%elem_of_nil|constructor|done|by intros req g task (r & ?%elem_of_nil & _)]. }
  unfold daemon_reachable in Hr. revert Hi. generalize (new_daemon empty_db, Some AtHead) Hr. clear Hr. intros c0 Hr.
  induction Hr as [|a b c Hs _ IH]; intros Hi; [done|]. by eapply IH, daemon_step_inv.
Qed.

(** ** What a round does to the scheduler, the store and the lights *)

(** A phase after the refresh: the threads still match the store, which went on by its own
    operations, and the lights are as they were. *)
Record quiet (d d' : Daemon) : Prop := {
  qt_store : store_inv (dm_store d');
  qt_jobs : agree (dm_scheduler d') (dm_store d');
  qt_lights : lights (hs_commands (dm_host d')) = lights (hs_commands (dm_host d));
  qt_claims : claims_left (dm_store d) → claims_left (dm_store d');
  qt_steps : rtc step (dm_store d) (dm_store d');
}.

Lemma quiet_refl d : store_inv (dm_store d) → agree (dm_scheduler d) (dm_store d) → quiet d d.
Proof. done. Qed.

Lemma quiet_trans d1 d2 d3 : quiet d1 d2 → quiet d2 d3 → quiet d1 d3.
Proof. intros [] []. split; [done|done|congruence|auto|by etransitivity]. Qed.

Lemma job_moves_steps db db' : rtc job_move db db' → rtc step db db'.
Proof. apply rtc_subrel. by intros a b [? _]. Qed.

Lemma play_moves_steps db db' : rtc play_move db db' → rtc step db db'.
Proof. apply rtc_subrel. by intros a b [? _]. Qed.

Lemma enqueue_slot_move files now slot req prompt db out db' :
  enqueue_slot codex_home files now slot req prompt db = (out, db') → rtc job_move db db' ∧ rtc elsewhere db db'.
Proof.
  unfold enqueue_slot. destruct (resolve _ _ _ _) as [[[b task]|]|e]; [|by intros [= _ <-]..]. apply enqueue_move.
Qed.

Lemma enqueue_claims_left files now slot req prompt db out db' :
  enqueue_slot codex_home files now slot req prompt db = (out, db') → claims_left db → claims_left db'.
Proof.
  unfold enqueue_slot. destruct (resolve _ _ _ _) as [[[b task]|]|e]; [|by intros [= _ <-]..].
  unfold with_error. destruct (enqueue _ _ _) as [[o db2]|e] eqn:He; intros [= _ <-]; [|done].
  apply enqueue_ok in He as (_ & _ & [(_ & -> & _)|(_ & _ & _ & _ & _ & -> & _)]); [done|].
  intros Hl c [Hc| ->%list_elem_of_singleton]%elem_of_app Hq; [by apply Hl|]. cbn. width_lia.
Qed.

(** An accepted prompt has its job. *)
Definition job_of (prompt : LanVoicePrompt) (db : Db) : Prop :=
  ∃ r, r ∈ db_jobs db ∧ jb_request_id r = vp_request_id prompt ∧ jb_slot r = vp_slot prompt ∧ jb_prompt r = vp_transcript prompt.

Lemma enqueue_slot_job files now prompt db o db' :
  enqueue_slot codex_home files now (vp_slot prompt) (vp_request_id prompt) (vp_transcript prompt) db = (Ok o, db') → job_of prompt db'.
Proof.
  unfold enqueue_slot. destruct (resolve _ _ _ _) as [[[b task]|]|e]; [|done..].
  unfold with_error. destruct (enqueue _ _ _) as [[o' db2]|e] eqn:He; intros [= -> <-].
  apply enqueue_ok in He as (_ & _ & [(_ & -> & r & Hr & Er & Es)|(_ & _ & _ & _ & _ & -> & _)]).
  - exists r. destruct Es as (? & ? & ? & ? & ?). cbn in *. by split_and!.
  - eexists. split; [cbn; apply elem_of_app; right; by left|]. done.
Qed.

Lemma job_of_kept prompt db db' : rtc step db db' → store_inv db → job_of prompt db → job_of prompt db'.
Proof.
  intros Hs Hi (r & Hr & E1 & E2 & E3). destruct (steps_jobs_kept _ _ Hs Hi r Hr) as (r' & Hr' & (? & ? & ? & ? & ? & ? & ?) & _).
  exists r'. split_and!; congruence.
Qed.

(** *** The prompts *)

(** What became of the prompts, in order, and the counters they moved. *)
Definition prompt_outcome (db : Db) (prompt : LanVoicePrompt) (outcome : result PromptQueueError EnqueueOutcome) : Prop :=
  (∃ files now store store', enqueue_slot codex_home files now (vp_slot prompt) (vp_request_id prompt) (vp_transcript prompt) store
     = (outcome, store')) ∧ (is_ok outcome → job_of prompt db).

Definition count_outcomes (outcomes : list (result PromptQueueError EnqueueOutcome)) (c : QueueCounters) : QueueCounters :=
  foldl (λ c o, note_prompt o c) c outcomes.

Lemma queue_prompts_spec t n k d :
  store_inv (dm_store d) → agree (dm_scheduler d) (dm_store d) →
  ∃ outcomes, let d' := queue_prompts codex_home t n k d in
    quiet d d' ∧ Forall2 (prompt_outcome (dm_store d')) (take n (dm_prompts d)) outcomes
    ∧ dm_prompts d' = drop n (dm_prompts d) ∧ dm_counters d' = count_outcomes outcomes (dm_counters d)
    ∧ dm_events d' = dm_events d ∧ dm_control d' = dm_control d ∧ dm_replies d' = dm_replies d
    ∧ hs_active (dm_host d') = hs_active (dm_host d) ∧ hs_commands (dm_host d') = hs_commands (dm_host d).
Proof.
  revert k d. induction n as [|n IH]; intros k d Hi Ha; cbn [queue_prompts].
  { exists []. rewrite take_0, drop_0. split_and!; done || constructor. }
  destruct (dm_prompts d) as [|p rest] eqn:Ep; [exists []; rewrite Ep; split_and!; done || constructor|].
  destruct (enqueue_slot _ _ _ _ _ _ _) as [out db] eqn:He.
  pose proof (enqueue_claims_left _ _ _ _ _ _ _ _ He) as Hcl. pose proof (enqueue_slot_move _ _ _ _ _ _ _ _ He) as [Hm Hel].
  destruct (elsewhere_agree _ _ _ Hel Hi Ha) as [Hi' Ha'].
  destruct (IH (S k) (set_prompts (note_prompt out (dm_counters d)) rest (set_store db d)) Hi' Ha')
    as (outcomes & Hq & Hout & E1 & E2 & E3 & E4 & E5 & E6 & E7).
  exists (out :: outcomes). split_and!; try done.
  - eapply quiet_trans; [|exact Hq]. split; try done. by apply job_moves_steps.
  - cbn [take firstn]. constructor; [|exact Hout]. split; [by eexists _, _, _, _|]. intros [o ->].
    eapply job_of_kept; [apply (qt_steps _ _ Hq)|done|]. by eapply enqueue_slot_job.
Qed.

(** *** The events *)

Fixpoint handle_all (t : Turn) (k : nat) (events : list LanPlaybackEvent) (h : HostState) : HostState :=
  match events with
  | [] => h
  | event :: events => handle_all t (S k) events (handle_lan_playback_event (tu_around t k) event h)
  end.

Lemma handle_events_spec t n k d :
  store_inv (dm_store d) → agree (dm_scheduler d) (dm_store d) →
  let d' := handle_events t n k d in
    quiet d d' ∧ dm_host d' = handle_all t k (take n (dm_events d)) (dm_host d) ∧ dm_events d' = drop n (dm_events d)
    ∧ dm_prompts d' = dm_prompts d ∧ dm_counters d' = dm_counters d ∧ dm_control d' = dm_control d ∧ dm_replies d' = dm_replies d.
Proof.
  revert k d. induction n as [|n IH]; intros k d Hi Ha; cbn [handle_events].
  { rewrite take_0, drop_0. by split_and!. }
  destruct (dm_events d) as [|e rest] eqn:Ee; [cbn zeta; rewrite Ee; by split_and!|].
  pose proof (event_plays (tu_around t k) e (dm_host d) Hi) as [Hm El].
  destruct (elsewhere_agree _ _ _ (play_moves_elsewhere _ _ Hm) Hi Ha) as [Hi' Ha']. pose proof (play_moves_jobs _ _ Hm) as (Ej & _).
  destruct (IH (S k) (set_events rest (set_host (handle_lan_playback_event (tu_around t k) e (dm_host d)) d)) Hi' Ha')
    as (Hq & Eh & E1 & E2 & E3 & E4 & E5).
  split_and!; try done. eapply quiet_trans; [|exact Hq]. split; cbn; [done|done|done| |by apply play_moves_steps].
  unfold claims_left, dm_store. cbn. by rewrite Ej.
Qed.

(** *** The scheduler *)

Lemma run_scheduler_spec t d :
  store_inv (dm_store d) → agree (dm_scheduler d) (dm_store d) → claims_left (dm_store d) →
  ∃ s db, run_scheduler t d = (Ok tt, set_scheduler s (set_store db d)) ∧ store_inv db ∧ agree s db ∧ rtc step (dm_store d) db.
Proof.
  intros Hi Ha Hl. unfold run_scheduler, tick. pose proof (tick_moves (tu_tick_clock t) (dm_scheduler d) (dm_store d)) as Hm.
  unfold tick in Hm. destruct (dm_scheduler d) as [channel workers] eqn:Es. cbn [ds_channel ds_workers] in *.
  destruct (drain_spec (tu_tick_clock t) 0 channel workers (dm_store d) (conj Hi Ha)) as (n & workers1 & db1 & Ed & Hh1 & _ & _ & Hl1).
  rewrite Ed in *. destruct (fill_spec (S (length (db_jobs db1))) (tu_tick_clock t) n workers1 db1 Hh1 (Hl1 Hl)) as (workers2 & db2 & Ef & [Hi2 Ha2] & _); [lia|].
  rewrite Ef in *. eexists _, db2. split_and!; [done..|]. by eapply job_moves_steps, (Hm _ _ _ (conj Hi Ha)).
Qed.

(** *** The requests *)

Definition reply_to (request : ControlRequest) (reply : result text DashboardSnapshot) : Prop :=
  ∃ files files' now lan configured store store',
    process_control_request codex_home files files' now lan configured request store = (reply, store').

Lemma process_control_steps files files' now lan configured request db r db' :
  process_control_request codex_home files files' now lan configured request db = (r, db') → rtc step db db'.
Proof.
  destruct request as [|slot task expected]; cbn; [by intros [= _ <-]|].
  destruct (bind _ _ _ _ _ _ _) as [o db1] eqn:Hb. assert (rtc step db db1) as Hr.
  { apply bind_step in Hb as [->|(g & _ & _ & Hs & _)]; [done|by apply rtc_once]. }
  by destruct o as [[b|]|e]; intros [= _ <-].
Qed.

Lemma answer_control_spec t n k d :
  ∃ replies, let d' := answer_control codex_home t n k d in
    Forall2 reply_to (take n (dm_control d)) replies ∧ dm_replies d' = dm_replies d ++ replies
    ∧ dm_control d' = drop n (dm_control d) ∧ rtc step (dm_store d) (dm_store d')
    ∧ dm_prompts d' = dm_prompts d ∧ dm_events d' = dm_events d ∧ dm_counters d' = dm_counters d
    ∧ hs_active (dm_host d') = hs_active (dm_host d) ∧ hs_commands (dm_host d') = hs_commands (dm_host d).
Proof.
  revert k d. induction n as [|n IH]; intros k d; cbn [answer_control].
  { exists []. rewrite take_0, drop_0, app_nil_r. split_and!; done || constructor. }
  destruct (dm_control d) as [|request rest] eqn:Ec; [exists []; rewrite Ec, app_nil_r; split_and!; done || constructor|].
  destruct (process_control_request _ _ _ _ _ _ _ _) as [r db] eqn:Hr.
  destruct (IH (S k) (set_control rest (dm_replies d ++ [r]) (set_store db d))) as (replies & Hrs & E1 & E2 & E3 & E4 & E5 & E6 & E7 & E8).
  exists (r :: replies). split_and!; try done.
  - cbn [take firstn]. constructor; [|exact Hrs]. by eexists _, _, _, _, _, _, _.
  - cbn zeta. rewrite E1. cbn. by rewrite <- app_assoc.
  - transitivity db; [by eapply process_control_steps|exact E3].
Qed.

(** *** The whole round *)

Lemma refresh_frame t d :
  let d' := (refresh_mailbox t d).2 in
  dm_store d' = dm_store d ∧ dm_scheduler d' = dm_scheduler d ∧ hs_active (dm_host d') = hs_active (dm_host d)
  ∧ dm_prompts d' = dm_prompts d ∧ dm_counters d' = dm_counters d ∧ dm_events d' = dm_events d ∧ dm_control d' = dm_control d
  ∧ dm_replies d' = dm_replies d.
Proof. unfold refresh_mailbox, publish_mailbox. repeat case_match; by split_and!. Qed.

Lemma refresh_succeeds t d :
  store_inv (dm_store d) → bound_ok (dm_store d) → Z.of_nat (length (db_completions (dm_store d))) <= u32_max → tu_ingress_alive t = true →
  (refresh_mailbox t d).1 = Ok tt.
Proof.
  intros Hi Hb Hlen E. unfold refresh_mailbox, publish_mailbox. destruct (_ <=? _); [|done].
  destruct (mailbox_status_total _ Hi Hb Hlen) as (s & -> & _). rewrite E. by case_bool_decide.
Qed.

(** What a round did for everybody who waited: the first eight prompts were queued or counted
    as rejected, and the accepted ones have their jobs; the first eight events were handled in
    their order; each of the first eight requests has its reply. *)
Definition answered (t : Turn) (d d' : Daemon) : Prop :=
  (∃ outcomes, Forall2 (prompt_outcome (dm_store d')) (take ROUND (dm_prompts d)) outcomes
     ∧ dm_prompts d' = drop ROUND (dm_prompts d) ∧ dm_counters d' = count_outcomes outcomes (dm_counters d))
  ∧ (∃ h, hs_active h = hs_active (dm_host d) ∧ hs_commands h = hs_commands (dm_host (refresh_mailbox t d).2)
       ∧ let h' := handle_all t 0 (take ROUND (dm_events d)) h in
         hs_active (dm_host d') = hs_active h' ∧ hs_commands (dm_host d') = hs_commands h' ∧ dm_events d' = drop ROUND (dm_events d))
  ∧ (∃ replies, Forall2 reply_to (take ROUND (dm_control d)) replies
       ∧ dm_control d' = drop ROUND (dm_control d) ∧ dm_replies d' = dm_replies d ++ replies).

Lemma round_answers t d :
  store_inv (dm_store d) → agree (dm_scheduler d) (dm_store d) → claims_left (dm_store d) →
  (refresh_mailbox t d).1 = Ok tt → tu_observer_finished t = false → tu_summary_finished t = false → tu_accept t ≠ AcceptFailed →
  ∃ d', iteration codex_home t d = (Ok tt, d') ∧ answered t d d'
    ∧ lights (hs_commands (dm_host d')) = lights (hs_commands (dm_host (refresh_mailbox t d).2)).
Proof.
  intros Hi Ha Hl Hr E1 E2 E3. unfold answered, iteration. rewrite E1, E2. destruct (refresh_frame t d) as (F1 & F2 & F3 & F4 & F5 & F6 & F7 & F8).
  destruct (refresh_mailbox t d) as [r d1]. cbn [fst snd] in *. subst r. rewrite <- F1 in Hi, Ha, Hl. rewrite <- F2 in Ha.
  destruct (queue_prompts_spec t ROUND 0 d1 Hi Ha) as (outcomes & Hq & Hout & G1 & G2 & G3 & G4 & G5 & G6 & G7).
  set (d2 := queue_prompts codex_home t ROUND 0 d1) in *.
  destruct (handle_events_spec t ROUND 0 d2 (qt_store _ _ Hq) (qt_jobs _ _ Hq)) as (He & I1 & I2 & I3 & I4 & I5 & I6).
  set (d3 := handle_events t ROUND 0 d2) in *.
  destruct (run_scheduler_spec t d3 (qt_store _ _ He) (qt_jobs _ _ He) (qt_claims _ _ He (qt_claims _ _ Hq Hl))) as (s & db & -> & Hi4 & _ & Hst).
  set (d4 := set_scheduler s (set_store db d3)) in *.
  destruct (answer_control_spec t ROUND 0 d4) as (replies & Hrs & J1 & J2 & J3 & J4 & J5 & J6 & J7 & J8).
  set (d5 := answer_control codex_home t ROUND 0 d4) in *.
  assert (∃ d', accept_client t d5 = (Ok tt, d') ∧ dm_prompts d' = dm_prompts d5 ∧ dm_counters d' = dm_counters d5 ∧ dm_events d' = dm_events d5
    ∧ dm_control d' = dm_control d5 ∧ dm_replies d' = dm_replies d5 ∧ dm_host d' = dm_host d5) as (d' & -> & K1 & K2 & K3 & K4 & K5 & K6).
  { unfold accept_client. destruct (tu_accept t); [|by eexists|done]. destruct (reserve_client _); by eexists. }
  exists d'. split; [done|]. unfold dm_store in *. rewrite K6.
  assert (hs_active (dm_host d5) = hs_active (dm_host d3) ∧ hs_commands (dm_host d5) = hs_commands (dm_host d3)) as [L1 L2] by by rewrite J7, J8.
  rewrite K1, K2, K3, K4, K5, L1, L2, J1, J2, J4, J5, J6. cbn [d4 set_scheduler set_store set_host dm_prompts dm_counters dm_events dm_control dm_replies].
  rewrite I1, I2, I3, I4, I5, I6, G1, G2, G3, G4, G5, F4, F5, F6, F7, F8. split_and!.
  - exists outcomes. split_and!; [|done..]. rewrite <- F4. eapply Forall2_impl; [exact Hout|]. intros p o [Ho Hj]. split; [done|]. intros Hok.
    eapply job_of_kept; [|apply (qt_store _ _ Hq)|by apply Hj]. etransitivity; [apply (qt_steps _ _ He)|]. by etransitivity.
  - exists (dm_host d2). rewrite G6, G7, F3. by split_and!.
  - exists replies. rewrite <- F7, <- G4, <- I5. by split_and!.
  - rewrite <- F6, <- G3, <- I1. by rewrite (qt_lights _ _ He), (qt_lights _ _ Hq).
Qed.


(** ** The points of an undisturbed round add up to [iteration] *)

Definition moves (t : Turn) (c c' : Daemon * Point) : Prop := advance_loop codex_home t c.2 c.1 = (Ok c'.2, c'.1).

Lemma moves_once t d p d' p' : advance_loop codex_home t p d = (Ok p', d') → rtc (moves t) (d, p) (d', p').
Proof. intros E. by apply rtc_once. Qed.
Lemma moves_next t d p d1 p1 c : advance_loop codex_home t p d = (Ok p1, d1) → rtc (moves t) (d1, p1) c → rtc (moves t) (d, p) c.
Proof. intros E. by apply rtc_l. Qed.

Lemma set_host_same d : set_host (dm_host d) d = d.
Proof. by destruct d. Qed.
Lemma with_store_same h : with_store (hs_store h) h = h.
Proof. by destruct h. Qed.

Lemma refresh_moves t d d1 :
  tu_observer_finished t = false → tu_summary_finished t = false → refresh_mailbox t d = (Ok tt, d1) →
  rtc (moves t) (d, AtHead) (d1, AtPrompts ROUND).
Proof.
  intros E1 E2. unfold refresh_mailbox. assert (advance_loop codex_home t AtHead d = advance_head t d) as Eh by done.
  unfold advance_head in Eh. rewrite E1, E2 in Eh. destruct (_ <=? _); [|by intros [= <-]; apply moves_once].
  unfold mailbox_status, tbind at 1. destruct (bindings (dm_store d)) as [[bs db]|] eqn:Eb; [|done]. cbn [rbind fst snd].
  assert (db = dm_store d) as -> by (unfold bindings, query_result in Eb; apply rbind_ok in Eb as (? & _ & [= _ <-]); done).
  intros Hm. eapply moves_next; [exact Eh|]. clear Eh Eb. revert Hm. generalize (mk_snapshot 0 [0; 0; 0; 0]).
  induction bs as [|b bs IH]; intros s; cbn [mailbox_loop].
  - unfold tbind, tret. cbn [rbind fst snd]. destruct (mailbox_mismatch s) eqn:Em; [done|].
    destruct (publish_mailbox t s d) as [[[]|e] d2] eqn:Ep; [|done]. intros [= ->]. apply moves_once. cbn. by rewrite Em, Ep.
  - unfold tbind at 1 2. destruct (current_unread_summary _ (dm_store d)) as [[o db]|] eqn:Eu; [|done]. cbn [rbind fst snd].
    assert (db = dm_store d) as ->.
    { unfold current_unread_summary in Eu. destruct (negb _); [done|]. apply rbind_ok in Eu as (? & _ & [= _ <-]). done. }
    destruct o as [u|]; [unfold tbind at 1, lift; destruct (set_coverage _ _ s) as [s'|] eqn:Es; [|done]; cbn [rbind fst snd]|];
      intros Hm; (eapply moves_next; [|by apply IH; unfold tbind]); cbn; by rewrite Eu, ?Es.
Qed.

Lemma prompts_moves t n d :
  (n <= ROUND)%nat → rtc (moves t) (d, AtPrompts n) (queue_prompts codex_home t n (ROUND - n) d, AtEvents ROUND).
Proof.
  revert d. induction n as [|n IH]; intros d Hn; [by apply moves_once|]. cbn [queue_prompts].
  assert (advance_loop codex_home t (AtPrompts (S n)) d = goes_on (advance_prompt codex_home t (S n) d)) as Ea by done. unfold advance_prompt in Ea.
  destruct (dm_prompts d) as [|prompt rest] eqn:Ep; [by apply moves_once|]. fold (round_index n). unfold enqueue_slot.
  replace (S (round_index n)) with (ROUND - n)%nat by (unfold round_index; lia).
  destruct (resolve _ _ _ _) as [[[b task]|]|e].
  - eapply moves_next; [exact Ea|]. destruct (with_error _ _ _) as [out db] eqn:Ew.
    eapply moves_next; [|apply IH; lia]. cbn. unfold advance_enqueue. unfold dm_store in *. cbn [dm_host set_prompts]. by rewrite Ew.
  - eapply moves_next; [exact Ea|]. rewrite set_store_same. apply IH. lia.
  - eapply moves_next; [exact Ea|]. rewrite set_store_same. apply IH. lia.
Qed.

Lemma supersede_moves t request source l n d r h :
  supersede_all (tu_around t (round_index n)) l (dm_host d) = (r, h) →
  rtc (moves t) (d, Superseding request source l n)
    (set_host h d, match r with Ok _ => Acquiring request source 4 n | Err _ => AtEvents n end).
Proof.
  revert d. induction l as [|[id p] l IH]; intros d.
  - cbn. intros [= <- <-]. apply moves_once. by rewrite set_host_same.
  - intros Hs. assert (advance_loop codex_home t (Superseding request source ((id, p) :: l) n) d
      = goes_on (advance_supersede t request source ((id, p) :: l) n d)) as Ea by done.
    cbn [advance_supersede supersede_all] in Ea. cbn [supersede_all] in Hs. destruct (ah_heard_committed p).
    + eapply moves_next; [exact Ea|]. exact (IH (set_host _ d) Hs).
    + destruct (cancel_summary_playback _ _ _) as [[b db]|e].
      * eapply moves_next; [exact Ea|]. exact (IH (set_host _ d) Hs).
      * injection Hs as <- <-. by apply moves_once.
Qed.

Lemma drop_S_tail {A} n (l : list A) : drop (S n) l = tail (drop n l).
Proof. replace (S n) with (n + 1)%nat by lia. rewrite <- drop_drop. by destruct (drop n l). Qed.

Lemma acquire_moves t request source a n d :
  (a <= 4)%nat → let su := tu_around t (round_index n) in
  rtc (moves t) (d, Acquiring request source a n)
    match acquire_lease su request (take a (drop (4 - a) (su_random su))) (dm_store d) with
    | (Ok (Some lease), db) =>
        let d := set_store db d in
        match offer su request source lease (dm_host d) with
        | Ok h => (set_host h d, AtEvents n)
        | Err _ => (set_host (give_back su lease (dm_host d)) d, AtEvents n)
        end
    | _ => (d, AtEvents n)
    end.
Proof.
  intros Ha su. induction a as [|a IH]; [by apply moves_once|].
  assert (advance_loop codex_home t (Acquiring request source (S a) n) d = goes_on (advance_acquire t request source (S a) n d)) as Ea by done.
  unfold advance_acquire in Ea. fold su in Ea. replace (4 - S a)%nat with (3 - a)%nat by lia. specialize (IH ltac:(lia)).
  replace (4 - a)%nat with (S (3 - a)) in IH by lia.
  destruct (drop (3 - a) (su_random su)) as [|x xs] eqn:Ed.
  - eapply moves_next; [exact Ea|]. rewrite drop_S_tail, Ed in IH. cbn [tail] in IH. rewrite take_nil in IH. exact IH.
  - rewrite drop_S_tail, Ed in IH. cbn [tail] in IH.
    cbn [take firstn acquire_lease] in Ea |- *. destruct (_ =? 0); [by eapply moves_next; [exact Ea|]|].
    destruct (acquire_summary_playback _ _ _ _ _ _) as [[[lease|] db]|[]] eqn:Eq; try (by apply moves_once); [|by eapply moves_next; [exact Ea|]].
    cbn zeta in *. destruct (offer _ _ _ _ _) as [h|e]; [by apply moves_once|]. eapply moves_next; [exact Ea|]. by apply moves_once.
Qed.

Lemma event_moves t n event rest d :
  dm_events d = event :: rest →
  rtc (moves t) (d, AtEvents (S n))
    (set_events rest (set_host (handle_lan_playback_event (tu_around t (round_index n)) event (dm_host d)) d), AtEvents n).
Proof.
  intros Ee. set (su := tu_around t (round_index n)). set (d0 := set_events rest d).
  assert (advance_loop codex_home t (AtEvents (S n)) d = goes_on (advance_event t (S n) d)) as Ea by done.
  unfold advance_event in Ea. rewrite Ee in Ea. fold su d0 in Ea.
  destruct event as [request source|finished|identity]; cbn [handle_lan_playback_event].
  - unfold begin_lan_playback. destruct (already_playing request (dm_host d)) eqn:Ep.
    + cbn [snd]. rewrite set_host_same. apply moves_once. rewrite Ea. cbn [dm_host d0 set_events]. by rewrite Ep.
    + eapply moves_next; [rewrite Ea; cbn [dm_host d0 set_events]; by rewrite Ep|]. fold d0.
      destruct (supersede_all su (in_key_order (hs_active (dm_host d))) (dm_host d)) as [r h] eqn:Es.
      etransitivity; [exact (supersede_moves t request source _ n d0 r h Es)|]. destruct r as [[]|e]; [|done].
      etransitivity; [exact (acquire_moves t request source 4 n (set_host h d0) (le_n 4))|]. cbn [Nat.sub drop skipn]. fold su.
      unfold dm_store. cbn [dm_host set_host].
      destruct (acquire_lease su request _ (hs_store h)) as [[[lease|]|e] db] eqn:Eq.
      * cbn [dm_host set_store set_host]. by destruct (offer su request source lease (with_store db h)).
      * apply acquire_lease_ok in Eq as ->. by rewrite with_store_same.
      * apply acquire_lease_ok in Eq as ->. by rewrite with_store_same.
  - unfold finished_playback. destruct (commit_heard su finished (dm_host d)) as [h|] eqn:Ec.
    + eapply moves_next; [rewrite Ea; cbn [dm_host d0 set_events]; by rewrite Ec|]. by apply moves_once.
    + rewrite set_host_same. apply moves_once. rewrite Ea. cbn [dm_host d0 set_events]. by rewrite Ec.
  - by apply moves_once.
Qed.

Lemma events_moves t n d :
  (n <= ROUND)%nat → rtc (moves t) (d, AtEvents n) (handle_events t n (ROUND - n) d, Draining 0).
Proof.
  revert d. induction n as [|n IH]; intros d Hn; [by apply moves_once|]. cbn [handle_events].
  destruct (dm_events d) as [|event rest] eqn:Ee; [apply moves_once; cbn; by rewrite Ee|].
  etransitivity; [by apply event_moves|]. replace (ROUND - S n)%nat with (round_index n) by done.
  replace (S (round_index n)) with (ROUND - n)%nat by (unfold round_index; lia). apply IH. lia.
Qed.

Lemma drain_moves_on t k d k' s db :
  drain (tu_tick_clock t) k (ds_channel (dm_scheduler d)) (ds_workers (dm_scheduler d)) (dm_store d) = (Ok tt, k', s, db) →
  rtc (moves t) (d, Draining k) (set_scheduler s (set_store db d), Filling k').
Proof.
  destruct (dm_scheduler d) as [channel workers] eqn:Es. cbn [ds_channel ds_workers]. revert k workers d Es.
  induction channel as [|o channel IH]; intros k workers d Es; cbn [drain].
  - intros [= <- <- <-]. rewrite set_store_same, <- Es. apply moves_once. cbn. unfold advance_drain. rewrite Es. cbn. rewrite <- Es. by destruct d.
  - destruct (record_outcome _ o (dm_store d)) as [[b db1]|e] eqn:Er; [|done]. intros Hd.
    set (s1 := mk_scheduler channel (delete (wr_request_id o) workers)).
    eapply moves_next; [|exact (IH (S k) _ (set_store db1 (set_scheduler s1 d)) eq_refl Hd)].
    cbn. unfold advance_drain. rewrite Es. cbn [ds_channel ds_workers]. fold s1. unfold dm_store in *. cbn [dm_host set_scheduler]. by rewrite Er.
Qed.

Lemma fill_moves_on fuel t k d s db :
  store_inv (dm_store d) → agree (dm_scheduler d) (dm_store d) →
  Z.of_nat (length (db_jobs (dm_store d))) - in_flight (dm_scheduler d) < Z.of_nat fuel →
  fill fuel (tu_tick_clock t) k (dm_scheduler d) (dm_store d) = (Ok tt, s, db) →
  rtc (moves t) (d, Filling k) (set_scheduler s (set_store db d), AtControl ROUND).
Proof.
  revert k d. induction fuel as [|fuel IH]; intros k d Hi Ha Hfuel.
  { pose proof (agree_size _ _ (inv_jobs _ Hi) Ha) as E. unfold count_rows in E.
    pose proof (length_filter job_running (db_jobs (dm_store d))). lia. }
  cbn [fill]. assert (advance_loop codex_home t (Filling k) d = advance_fill t k d) as Ea by done. unfold advance_fill in Ea.
  destruct (_ <? _); [|intros [= <- <-]; apply moves_once; rewrite Ea, set_store_same; by destruct d].
  destruct (claim_next_runnable _ (dm_store d)) as [[[job|] db1]|e] eqn:Hc; [| |done].
  - intros Hf. eapply moves_next; [exact Ea|]. pose proof (claim_runs _ _ _ _ Hi Hc) as [Hi1 [Hfresh Hruns]].
    destruct (claim_settled _ _ _ _ Hi Hc) as [_ Hlen].
    destruct (start_agree job (ds_channel (dm_scheduler d)) (ds_workers (dm_scheduler d)) (dm_store d) db1) as [Ha1 Hnone];
      [by destruct (dm_scheduler d)|done|done|].
    refine (IH (S k) (set_scheduler _ (set_store db1 d)) Hi1 Ha1 _ Hf). unfold in_flight, dm_store, start in *. cbn.
    rewrite map_size_insert_None by done. rewrite Hlen. lia.
  - intros [= <- <-]. apply moves_once. rewrite Ea. by destruct d.
Qed.

Lemma tick_moves_on t d d' :
  store_inv (dm_store d) → agree (dm_scheduler d) (dm_store d) → run_scheduler t d = (Ok tt, d') →
  rtc (moves t) (d, Draining 0) (d', AtControl ROUND).
Proof.
  intros Hi Ha. unfold run_scheduler, tick.
  destruct (drain (tu_tick_clock t) 0 _ _ _) as [[[r n] s1] db1] eqn:Ed. destruct r as [[]|e]; [|done].
  destruct (fill _ _ n s1 db1) as [[r s2] db2] eqn:Ef. destruct r as [[]|e]; [|done]. intros [= <-].
  etransitivity; [by eapply drain_moves_on|].
  destruct (dm_scheduler d) as [channel workers] eqn:Es. cbn [ds_channel ds_workers] in Ed.
  destruct (drain_spec (tu_tick_clock t) 0 channel workers (dm_store d) (conj Hi Ha)) as (n' & workers1 & db1' & Ed' & [Hi1 Ha1] & _).
  rewrite Ed' in Ed. injection Ed as -> <- <-.
  refine (fill_moves_on _ t n (set_scheduler _ (set_store db1' d)) s2 db2 Hi1 Ha1 _ Ef). unfold dm_store. cbn. unfold in_flight. lia.
Qed.

Lemma slots_moves t lan tasks bs shown slots n d :
  let rd := mk_reading lan tasks bs shown slots NothingAsked in
  match dashboard_slots tasks bs (dm_store d) slots with
  | Ok l => rtc (moves t) (d, Building rd n) (d, Building (mk_reading lan tasks bs (shown ++ l) [] NothingAsked) n)
  | Err e => rtc (moves t) (d, Building rd n) (reply_control (Err e) d, AtControl n)
  end.
Proof.
  revert shown. induction slots as [|slot slots IH]; intros shown rd; cbn [dashboard_slots]; [by rewrite app_nil_r|]. unfold dashboard_slot.
  destruct (ask_pending (bound_to bs slot) (dm_store d)) as [p|e] eqn:E1; cbn [rbind].
  2:{ rewrite (ask_err _ _ _ _ E1). apply moves_once. cbn. by rewrite E1. }
  set (rd1 := mk_reading lan tasks bs shown (slot :: slots) (PendingAsked p)).
  assert (moves t (d, Building rd n) (d, Building rd1 n)) as M1 by (unfold moves; cbn; by rewrite E1).
  destruct (ask_unread (bound_to bs slot) (dm_store d)) as [u|e] eqn:E2; cbn [rbind].
  2:{ rewrite (ask_err _ _ _ _ E2). eapply rtc_l; [exact M1|]. apply moves_once. cbn. by rewrite E2. }
  set (rd2 := mk_reading lan tasks bs shown (slot :: slots) (UnreadAsked p u)).
  assert (moves t (d, Building rd1 n) (d, Building rd2 n)) as M2 by (unfold moves; cbn; by rewrite E2).
  destruct (ask_latest (bound_to bs slot) (dm_store d)) as [j|e] eqn:E3; cbn [rbind].
  2:{ rewrite (ask_err _ _ _ _ E3). eapply rtc_l; [exact M1|]. eapply rtc_l; [exact M2|]. apply moves_once. cbn. by rewrite E3. }
  set (s := show_slot slot (bound_to bs slot) (task_of tasks (bound_to bs slot)) p u j).
  assert (moves t (d, Building rd2 n) (d, Building (mk_reading lan tasks bs (shown ++ [s]) slots NothingAsked) n)) as M3
    by (unfold moves; cbn; by rewrite E3).
  specialize (IH (shown ++ [s])). destruct (dashboard_slots tasks bs (dm_store d) slots) as [l|e]; cbn [rbind];
    (eapply rtc_l; [exact M1|]; eapply rtc_l; [exact M2|]; eapply rtc_l; [exact M3|]); [|exact IH].
  by rewrite <- app_assoc in IH.
Qed.

Lemma dashboard_moves t lan bound n d :
  rtc (moves t) (d, Listing lan bound n)
    (reply_control (build_dashboard codex_home (tu_control_files t (if bound then 2 * round_index n + 1 else 2 * round_index n)%nat)
       lan (tu_configured t (round_index n)) (dm_store d)) d, AtControl n).
Proof.
  assert (advance_loop codex_home t (Listing lan bound n) d = goes_on (advance_list codex_home t lan bound n d)) as Ea by done.
  unfold advance_list in Ea. unfold build_dashboard. destruct (list_tasks _ _) as [tasks|]; [|by apply moves_once].
  destruct (bindings (dm_store d)) as [[bs db]|]; [|by apply moves_once]. eapply moves_next; [exact Ea|].
  pose proof (slots_moves t lan tasks bs [] [1; 2; 3; 4] n d) as Hs. cbn zeta in Hs.
  destruct (dashboard_slots tasks bs (dm_store d) [1; 2; 3; 4]) as [l|e]; [|exact Hs].
  etransitivity; [exact Hs|]. by apply moves_once.
Qed.

Lemma control_moves t n d :
  (n <= ROUND)%nat → rtc (moves t) (d, AtControl n) (answer_control codex_home t n (ROUND - n) d, AtAccept).
Proof.
  revert d. induction n as [|n IH]; intros d Hn; [by apply moves_once|]. cbn [answer_control].
  assert (advance_loop codex_home t (AtControl (S n)) d = goes_on (advance_control codex_home t (S n) d)) as Ea by done. unfold advance_control in Ea.
  destruct (dm_control d) as [|request rest] eqn:Ec; [by apply moves_once|]. fold (round_index n).
  replace (S (round_index n)) with (ROUND - n)%nat by (unfold round_index; lia). set (k := round_index n) in *.
  destruct request as [|slot task expected]; cbn [process_control_request].
  - eapply moves_next; [exact Ea|]. etransitivity; [apply dashboard_moves|]. rewrite set_store_same. apply IH. lia.
  - change (dm_store (set_control rest (dm_replies d) d)) with (dm_store d) in Ea.
    destruct (bind _ _ _ _ _ _ (dm_store d)) as [[[b|]|e] db]; (eapply moves_next; [exact Ea|]).
    + etransitivity; [apply dashboard_moves|]. fold k. apply IH. lia.
    + apply IH. lia.
    + apply IH. lia.
Qed.

(** A round of the loop that nothing comes between is [iteration]: its points, taken one after
    the other, lead from the head of the loop back to it with the same outcome. *)
Theorem iteration_advances t d d' :
  store_inv (dm_store d) → agree (dm_scheduler d) (dm_store d) → iteration codex_home t d = (Ok tt, d') →
  rtc (moves t) (d, AtHead) (d', AtHead).
Proof.
  intros Hi Ha. unfold iteration. destruct (tu_observer_finished t) eqn:E1; [done|]. destruct (tu_summary_finished t) eqn:E2; [done|].
  destruct (refresh_frame t d) as (F1 & F2 & _). destruct (refresh_mailbox t d) as [[[]|e] d1] eqn:Er; [|done]. cbn [snd] in *.
  rewrite <- F1 in Hi, Ha. rewrite <- F2 in Ha.
  destruct (queue_prompts_spec t ROUND 0 d1 Hi Ha) as (_ & Hq & _).
  pose proof (handle_events_spec t ROUND 0 _ (qt_store _ _ Hq) (qt_jobs _ _ Hq)) as [He _].
  destruct (run_scheduler t _) as [[[]|e] d2] eqn:Et; [|done]. intros Hacc.
  etransitivity; [by apply refresh_moves|]. etransitivity; [by apply prompts_moves|]. etransitivity; [by apply events_moves|].
  etransitivity; [apply tick_moves_on; [apply He|apply He|exact Et]|]. etransitivity; [by apply control_moves|].
  apply moves_once. cbn [advance_loop]. rewrite Nat.sub_diag. by rewrite Hacc.
Qed.

(** Without reports of the device a round is a run of the host. *)
Lemma advance_no_events t p d r d' : dm_events d = [] → advance_loop codex_home t p d = (r, d') → dm_events d' = [].
Proof.
  intros E. destruct p; cbn [advance_loop]; unfold goes_on.
  - unfold advance_head. repeat case_match; congruence.
  - unfold advance_refresh, publish_mailbox. repeat case_match; intros; simplify_eq; done.
  - unfold advance_prompt. repeat case_match; intros; simplify_eq; done.
  - unfold advance_enqueue. destruct (with_error _ _ _). by intros [= <- <-].
  - unfold advance_event. rewrite E. destruct n; by intros [= <- <-].
  - unfold advance_supersede. destruct playing; [by intros [= <- <-]|]. destruct (supersede_all _ _ _) as [[] h]; by intros [= <- <-].
  - unfold advance_acquire. destruct attempts; [by intros [= <- <-]|]. cbv zeta.
    destruct (acquire_lease _ _ _ _) as [[[lease|]|[]] db]; try (by intros [= <- <-]). destruct (offer _ _ _ _ _); by intros [= <- <-].
  - by intros [= <- <-].
  - by intros [= <- <-].
  - unfold advance_drain. repeat case_match; intros; simplify_eq; done.
  - unfold advance_fill. repeat case_match; intros; simplify_eq; done.
  - unfold advance_control. repeat case_match; intros; simplify_eq; done.
  - unfold advance_list. repeat case_match; intros; simplify_eq; done.
  - unfold advance_build. repeat case_match; intros; simplify_eq; done.
  - unfold accept_client. repeat case_match; intros; simplify_eq; done.
Qed.

Lemma round_reachable t d d' :
  daemon_reachable (d, Some AtHead) → dm_events d = [] → iteration codex_home t d = (Ok tt, d') → daemon_reachable (d', Some AtHead).
Proof.
  intros Hd He Hit. pose proof (daemon_reachable_inv _ Hd) as Hinv. unfold loop_inv in Hinv. cbn [fst snd] in Hinv.
  apply iteration_advances in Hit; [|apply (dv_store d Hinv)|apply Hinv]. clear Hinv.
  change (d', Some AtHead) with ((d', AtHead).1, Some (d', AtHead).2). change (d, Some AtHead) with ((d, AtHead).1, Some (d, AtHead).2) in Hd.
  assert (dm_events (d, AtHead).1 = []) as He' by done. revert Hd He'. clear He. induction Hit as [c|[d1 p1] [d2 p2] c Hs _ IH]; [done|].
  cbn [fst snd] in *. intros Hd He. apply IH; [|by eapply advance_no_events in Hs].
  eapply rtc_r; [exact Hd|]. eapply LoopAdvances; [|exact Hs]. unfold event_expected. rewrite He. by destruct p1 as [| | | |[]| | | | | | | | | |].
Qed.

(** ** The properties *)

(** C4: the parts of the host agree with each other wherever its main loop is.  The loop goes
    from one access to the state database to the next; at each of these points anything may
    happen first: prompts, device events, clients and control requests arrive, prompts end,
    the observer and the summary worker commit their transactions, the process dies and is
    started again.  In every state that is reached so from the first start: the leases of the
    store are exactly the playbacks that are not heard yet, at most one, except for a lease
    that was just granted, could not be played, and is about to be given back; the rows of
    running jobs are exactly the scheduler's threads, at most four; at most sixteen clients are
    served and sixteen requests wait; and the lights were never sent twice in a row.  It is
    assumed that the transport reports a cancellation under the identity of the playback. *)
Theorem host_parts_agree d at_ :
  daemon_reachable (d, at_) →
  store_inv (dm_store d)
  ∧ (∀ row, row ∈ db_leases (dm_store d) →
       (∃ p, hs_active (dm_host d) !! lr_lease_id row = Some p ∧ ah_heard_committed p = false ∧ exact_lease (ah_lease p) row)
       ∨ ∃ lease n, at_ = Some (GivingBack lease n) ∧ exact_lease lease row ∧ hs_active (dm_host d) = ∅)
  ∧ (∀ id p, hs_active (dm_host d) !! id = Some p → ah_heard_committed p = false →
       ∃ row, row ∈ db_leases (dm_store d) ∧ exact_lease (ah_lease p) row)
  ∧ (length (db_leases (dm_store d)) <= 1)%nat
  ∧ (∀ id id', is_Some (hs_active (dm_host d) !! id) → is_Some (hs_active (dm_host d) !! id') → id = id')
  ∧ (∀ req g task, runs (dm_store d) req g task ↔ ∃ w, ds_workers (dm_scheduler d) !! req = Some w
       ∧ job_claim_generation (wk_job w) = g ∧ job_task_id (wk_job w) = task)
  ∧ in_flight (dm_scheduler d) <= MAX_GLOBAL_RUNNING_JOBS
  ∧ 0 <= dm_clients d <= MAX_ACTIVE_CLIENTS ∧ (length (dm_control d) <= CONTROL_CAPACITY)%nat
  ∧ dm_last_mailbox d = last (lights (hs_commands (dm_host d))) ∧ changing (lights (hs_commands (dm_host d))).
Proof.
  intros Hd%daemon_reachable_inv. unfold loop_inv in Hd. cbn [fst snd] in Hd. pose proof (loop_store _ _ Hd) as [Hi _].
  destruct Hd as [Hp Hj _ Hco Hcl Hl Hch]. destruct (stage_leases _ _ Hp) as (L1 & L2 & L3 & L4). split_and!; try done.
  - apply (ag_runs _ _ Hj).
  - rewrite (agree_size _ _ (inv_jobs _ Hi) Hj). apply (inv_jobs _ Hi).
  - lia.
  - lia.
Qed.


(** The lights show the store.  When the refresh is due, after a round that is left alone the
    last lights sent are those of the store as it was: a slot is lit exactly when the unread
    summary of its task covers something, with that count; they are sent only when they
    differ from the last ones, and the other phases send none. *)
Theorem lights_show_the_store t d :
  daemon_reachable (d, Some AtHead) → claims_left (dm_store d) → Z.of_nat (length (db_completions (dm_store d))) <= u32_max →
  tu_observer_finished t = false → tu_summary_finished t = false → tu_ingress_alive t = true → tu_accept t ≠ AcceptFailed →
  dm_next_refresh d <= tu_now t →
  ∃ d' s current, iteration codex_home t d = (Ok tt, d') ∧ mailbox_status (dm_store d) = Ok (s, dm_store d) ∧ snapshot_ok s
    ∧ current = mk_mailbox (ms_unread_slots s) (tu_running_tasks t) (ms_coverage_by_slot s)
    ∧ last (lights (hs_commands (dm_host d'))) = Some current
    ∧ lights (hs_commands (dm_host d'))
      = lights (hs_commands (dm_host d)) ++ (if decide (last (lights (hs_commands (dm_host d))) = Some current) then [] else [current]).
Proof.
  intros Hd%daemon_reachable_inv Hl Hlen E1 E2 E3 E4 Hdue. unfold loop_inv in Hd. cbn [fst snd] in Hd.
  destruct (round_answers t d (dv_store d Hd) (dv_jobs d Hd) Hl) as (d' & Hit & _ & El); [|done..|].
  { by apply refresh_succeeds; [apply (dv_store d Hd)|apply Hd|..]. }
  destruct (mailbox_status_total (dm_store d) (dv_store d Hd) (dv_bound d Hd) Hlen) as (s & Es & Hs).
  eexists d', s, _. split; [done|]. split; [done|]. split; [done|]. split; [done|]. set (current := mk_mailbox _ _ _).
  rewrite El. pose proof (dv_last d Hd) as Hlast. unfold refresh_mailbox, publish_mailbox.
  rewrite (proj2 (Z.leb_le _ _) Hdue), Es, E3. fold current. rewrite Hlast.
  destruct (decide (last (lights (hs_commands (dm_host d))) = Some current)) as [E|E].
  - rewrite bool_decide_eq_true_2 by done. cbn. by rewrite app_nil_r.
  - rewrite bool_decide_eq_false_2 by done. cbn. unfold lights. rewrite omap_app. cbn. by rewrite last_snoc.
Qed.

End loop.
