(* ===== verification/Provisioning.v ===== *)
(** * Provisioning the keyboard over USB (app/host/src/provisioning.rs)

    The host gives the keyboard its network, the host's address and the shared secret as one
    JSON text, cut into HID feature reports with a checksum, and waits for the keyboard's
    acknowledgement.  The keyboard's side is [ConfigReceiver] and the sending of an
    acknowledgement (firmware/components/keyboard/src/config_receiver.cpp and
    firmware/main/platform/usb_hid.cpp).  The secret itself is kept in a private file. *)

From stdpp Require Import gmap.
From S2P Require Import Prelude Bytes StrOps Audio CacheRef Sql StoreTypes.

Definition CONFIG_REPORT_ID : Z := 16.
Definition REPORT_BYTES : nat := 64.
Definition REPORT_BODY_BYTES : nat := REPORT_BYTES - 1.
Definition CONFIG_HEADER_BYTES : nat := 11.
Definition CONFIG_CHUNK_BYTES : nat := REPORT_BODY_BYTES - CONFIG_HEADER_BYTES.
Definition MAX_CONFIG_BYTES : nat := 2048.
Definition APP_COMMAND_REPORT_ID : Z := 17.
Definition APP_COMMAND_CONFIG_ACK : Z := 3.
Definition EASY_INPUT_USB_VID : Z := 0x303A.
Definition EASY_INPUT_USB_PID : Z := 0x1006.
Definition EASY_INPUT_USB_INTERFACE : Z := 0.

(** [SlicePanic] stands for a panic. *)
Inductive ProvisioningError :=
| InvalidSsid | InvalidPassword | InvalidHost | InvalidPort | InvalidPayload | DeviceNotFound
| Hid | HidOpen | HidWrite | HidAck | UnsupportedPlatform | SlicePanic.
#[export] Instance ProvisioningError_eq_dec : EqDecision ProvisioningError.
Proof. solve_decision. Defined.

(** ** The configuration *)

Inductive IpAddr := IpV4 (a b c d : Z) | IpV6 (segments : list Z).

Record LanProvisioning := mk_provisioning {
  lpv_ssid : text; lpv_password : text; lpv_host : Z * Z * Z * Z; lpv_port : Z; lpv_device_secret : bytes;
}.

(** [is_unspecified], [is_loopback], [is_multicast], [is_broadcast] or [is_link_local] of
    [Ipv4Addr] *)
Definition unroutable (a b c d : Z) : bool :=
  (a =? 0) && (b =? 0) && (c =? 0) && (d =? 0)
  || (a =? 127)
  || (224 <=? a) && (a <=? 239)
  || (a =? 255) && (b =? 255) && (c =? 255) && (d =? 255)
  || (a =? 169) && (b =? 254).

Definition all_zero (b : bytes) : bool := forallb (λ x, x =? 0) b.

Definition new_provisioning (ssid password : text) (host : IpAddr) (port : Z) (device_secret : bytes)
    : result ProvisioningError LanProvisioning :=
  if bool_decide (ssid = []) || (32 <? blen ssid) then Err InvalidSsid
  else if 64 <? blen password then Err InvalidPassword
  else match host with
  | IpV6 _ => Err InvalidHost
  | IpV4 a b c d =>
      if unroutable a b c d then Err InvalidHost
      else if port <? 1024 then Err InvalidPort
      else if all_zero device_secret then Err InvalidPayload
      else Ok (mk_provisioning ssid password (a, b, c, d) port device_secret)
  end.

(** [format!("{byte:02x}")] of every byte *)
Definition hex_encode (b : bytes) : text := encode_hex b.

(** The fields of the payload in the order of the derived serializer. *)
Record Profile := mk_profile {
  pr_id : text; pr_keys : list (text * text); pr_encoder : text * text * text;
}.
Record ProvisionPayload := mk_payload {
  pp_schema : text; pp_device_name : text; pp_wifi_ssid : text; pp_wifi_password : text;
  pp_audio_host : text; pp_audio_port : Z; pp_audio_enabled : bool; pp_speaker_sync_key : text;
  pp_speaker_sync_key_epoch : Z; pp_profiles : list Profile;
}.

(** [serde_json::to_vec(&payload)] *)
Class ProvisionSerde := { payload_to_vec : ProvisionPayload → option bytes }.

(** [Ipv4Addr::to_string] *)
Definition ipv4_to_string (h : Z * Z * Z * Z) : text :=
  match h with
  | (a, b, c, d) => u64_to_string a ++ 46 :: u64_to_string b ++ 46 :: u64_to_string c ++ 46 :: u64_to_string d
  end.

Definition provision_payload (self : LanProvisioning) : ProvisionPayload :=
  let disabled := ascii_bytes "disabled" in
  let keys := (λ slot : nat, (ascii_bytes "KEY" ++ u64_to_string (Z.of_nat slot), disabled)) <$> seq 1 8 in
  {| pp_schema := ascii_bytes "ai_keyboard.v1"; pp_device_name := ascii_bytes "Easy Codex Input";
     pp_wifi_ssid := lpv_ssid self; pp_wifi_password := lpv_password self;
     pp_audio_host := ipv4_to_string (lpv_host self); pp_audio_port := lpv_port self; pp_audio_enabled := true;
     pp_speaker_sync_key := hex_encode (lpv_device_secret self); pp_speaker_sync_key_epoch := 1;
     pp_profiles := [mk_profile (ascii_bytes "default") keys (disabled, disabled, disabled)] |}.

Definition payload_json `{ProvisionSerde} (self : LanProvisioning) : result ProvisioningError bytes :=
  match payload_to_vec (provision_payload self) with
  | None => Err InvalidPayload
  | Some json =>
      if bool_decide (json = []) || (MAX_CONFIG_BYTES <? length json)%nat then Err InvalidPayload else Ok json
  end.

(** ** Reports *)

(** One round of the inner loop, on a 16-bit word. *)
Definition crc_shift (crc : Z) : Z :=
  if negb (Z.land crc 0x8000 =? 0) then Z.lxor (Z.land (Z.shiftl crc 1) 0xFFFF) 0x1021
  else Z.land (Z.shiftl crc 1) 0xFFFF.
Definition crc_byte (crc byte : Z) : Z :=
  Nat.iter 8 crc_shift (Z.lxor crc (Z.land (Z.shiftl byte 8) 0xFFFF)).
Definition crc16_ccitt (b : bytes) : Z := foldl crc_byte 0xFFFF b.

Definition encode_report (total_bytes crc total_chunks : Z) (index : nat) (chunk : bytes) : bytes :=
  let report := replicate REPORT_BYTES 0 in
  let report := splice 0 [CONFIG_REPORT_ID] report in
  let report := splice 1 (ascii_bytes "S3C") report in
  let report := splice 4 [1] report in
  let report := splice 5 [Z.of_nat index mod 256] report in
  let report := splice 6 [total_chunks] report in
  let report := splice 7 (le_bytes 2 total_bytes) report in
  let report := splice 9 [blen chunk mod 256] report in
  let report := splice 10 (le_bytes 2 crc) report in
  splice 12 chunk report.

Definition encode_reports (json : bytes) : result ProvisioningError (list bytes) :=
  if bool_decide (json = []) || (MAX_CONFIG_BYTES <? length json)%nat then Err InvalidPayload
  else
    let pieces := chunks CONFIG_CHUNK_BYTES json in
    if bool_decide (pieces = []) || (255 <? length pieces)%nat || (u16_max <? blen json) then Err InvalidPayload
    else
      let total_bytes := blen json mod 65536 in
      let crc := crc16_ccitt json in
      let total_chunks := Z.of_nat (length pieces) mod 256 in
      Ok (imap (encode_report total_bytes crc total_chunks) pieces).

(** ** Acknowledgements *)

Record ConfigAck := mk_ack { ca_phase : Z; ca_ok : bool; ca_bytes : Z; ca_crc16 : Z; ca_saved : bool }.

Definition decode_config_ack (report : bytes) : option ConfigAck :=
  let at_ i := byte_at report i in
  if (length report <? 12)%nat || negb (at_ 0%nat =? APP_COMMAND_REPORT_ID) || negb (at_ 1%nat =? APP_COMMAND_CONFIG_ACK)
     || negb (at_ 2%nat =? 0) || negb (at_ 3%nat =? 1) || negb (at_ 4%nat =? 7) || (1 <? at_ 6%nat) || (1 <? at_ 11%nat)
  then None
  else Some {| ca_phase := at_ 5%nat; ca_ok := at_ 6%nat =? 1; ca_bytes := le_value [at_ 7%nat; at_ 8%nat];
               ca_crc16 := le_value [at_ 9%nat; at_ 10%nat]; ca_saved := at_ 11%nat =? 1 |}.

(** What a call of [read_timeout] gives: nothing yet, the first bytes of a report, or an
    error; the deadline has passed when the list ends. *)
Inductive HidRead := NoReport | HidReport (b : bytes) | HidReadFailed.

Fixpoint await_ack (expected_bytes expected_crc16 : Z) (reads : list HidRead) : result ProvisioningError unit :=
  match reads with
  | [] | HidReadFailed :: _ => Err Hid
  | NoReport :: reads => await_ack expected_bytes expected_crc16 reads
  | HidReport b :: reads =>
      match decode_config_ack (take REPORT_BYTES b) with
      | None => await_ack expected_bytes expected_crc16 reads
      | Some ack =>
          if (ca_phase ack =? 1) && ca_ok ack && ca_saved ack && (ca_bytes ack =? expected_bytes)
             && (ca_crc16 ack =? expected_crc16)
          then Ok tt else Err Hid
      end
  end.

Definition wait_for_config_ack (reads : list HidRead) (expected_bytes : nat) (expected_crc16 : Z) : result ProvisioningError unit :=
  if u16_max <? Z.of_nat expected_bytes then Err Hid
  else await_ack (Z.of_nat expected_bytes) expected_crc16 reads.

(** ** The dialogue *)

Definition is_easy_input_usb_interface (vendor_id product_id interface : Z) : bool :=
  (vendor_id =? EASY_INPUT_USB_VID) && (product_id =? EASY_INPUT_USB_PID)
  && ((interface =? EASY_INPUT_USB_INTERFACE) || (interface =? -1)).

(** A device of the list: whether it opens, the answers of its successive feature reports
    ([true] when there is no entry), and what it sends. *)
Record HidDevice := mk_device {
  hd_vendor : Z; hd_product : Z; hd_interface : Z; hd_product_string : option text;
  hd_opens : bool; hd_accepts : nat → bool; hd_reads : list HidRead;
}.

Record ProvisioningReceipt := mk_receipt {
  rc_transport : text; rc_product : text; rc_payload_bytes : nat; rc_chunks : nat; rc_crc16 : Z;
}.

(** The reports are sent in order up to the first refusal. *)
Definition sends_all (device : HidDevice) (reports : list bytes) : bool :=
  forallb (hd_accepts device) (seq 0 (length reports)).

Fixpoint try_candidates (payload : bytes) (reports : list bytes) (opened wrote_all : bool) (candidates : list HidDevice)
    : result ProvisioningError ProvisioningReceipt :=
  match candidates with
  | [] => if negb opened then Err HidOpen else if negb wrote_all then Err HidWrite else Err HidAck
  | candidate :: candidates =>
      if negb (hd_opens candidate) then try_candidates payload reports opened wrote_all candidates
      else
        let complete := sends_all candidate reports in
        let wrote_all := wrote_all || complete in
        let crc16 := crc16_ccitt payload in
        if complete && match wait_for_config_ack (hd_reads candidate) (length payload) crc16 with Ok _ => true | Err _ => false end
        then Ok {| rc_transport := ascii_bytes "usb_hid"; rc_product := default (ascii_bytes "AI Keyboard") (hd_product_string candidate);
                   rc_payload_bytes := length payload; rc_chunks := length reports; rc_crc16 := crc16 |}
        else try_candidates payload reports true wrote_all candidates
  end.

(** [api] is the device list, when hidapi starts. *)
Definition provision_lan_hid `{ProvisionSerde} (config : LanProvisioning) (api : option (list HidDevice))
    : result ProvisioningError ProvisioningReceipt :=
  let? payload := payload_json config in
  let? reports := encode_reports payload in
  match api with
  | None => Err Hid
  | Some devices =>
      let candidates := filter (λ d, is_easy_input_usb_interface (hd_vendor d) (hd_product d) (hd_interface d) = true) devices in
      if bool_decide (length candidates = 0%nat) then Err DeviceNotFound
      else try_candidates payload reports false false candidates
  end.

(** ** The secret's file *)

Inductive Credential := NoCredential | StoredCredential (secret : bytes) | CredentialUnreadable.

(** What [symlink_metadata] finds; a file as [load_device_secret_path] sees it: whether it is
    a regular file, whether it is private, whether it opens, and its bytes. *)
Record SecretFile := mk_secret_file { sf_is_file : bool; sf_private : bool; sf_opens : bool; sf_content : bytes }.
Inductive SecretPath := Missing | PathUnreadable | Found (f : SecretFile).

(** [char::to_digit(16)] *)
Definition hex_digit16 (c : Z) : option Z :=
  if (48 <=? c) && (c <=? 57) then Some (c - 48)
  else if (97 <=? c) && (c <=? 102) then Some (c - 87)
  else if (65 <=? c) && (c <=? 70) then Some (c - 55)
  else None.

(** [u8::from_str_radix(pair, 16)]: a plus sign may come first. *)
Definition from_str_radix_pair (hi lo : Z) : option Z :=
  if hi =? 43 then hex_digit16 lo else h ← hex_digit16 hi; l ← hex_digit16 lo; Some (16 * h + l).

(** A slice that ends inside a character panics. *)
Definition at_boundary (rest : text) : bool :=
  match rest with [] => true | c :: _ => negb ((128 <=? c) && (c <? 192)) end.

Fixpoint decode_pairs (value : text) : result ProvisioningError bytes :=
  match value with
  | hi :: lo :: rest =>
      if negb (at_boundary rest) then Err SlicePanic
      else match from_str_radix_pair hi lo with
        | None => Err InvalidPayload
        | Some byte => let? bytes_ := decode_pairs rest in Ok (byte :: bytes_)
        end
  | _ => Ok []
  end.

Definition decode_secret_hex (value : text) : result ProvisioningError bytes :=
  if negb (length value =? 64)%nat then Err InvalidPayload
  else
    let? secret := decode_pairs value in
    if all_zero secret then Err InvalidPayload else Ok secret.

Definition load_device_secret_path (file : SecretFile) : result ProvisioningError bytes :=
  if negb (sf_is_file file) || negb (sf_private file) || negb (length (sf_content file) =? 65)%nat then Err InvalidPayload
  else if negb (sf_opens file) || negb (utf8_ok (sf_content file)) then Err InvalidPayload
  else
    let? secret := decode_secret_hex (trim_end (sf_content file)) in
    if all_zero secret then Err InvalidPayload else Ok secret.

(** [credential] is what the system's credential store holds, [replace_private_file] what
    the path holds after the write, when it succeeds. *)
Definition load_device_secret (path : SecretPath) (credential : Credential) (replace_private_file : bytes → option SecretFile)
    : result ProvisioningError bytes :=
  match path with
  | Found file => load_device_secret_path file
  | PathUnreadable => Err InvalidPayload
  | Missing =>
      match credential with
      | StoredCredential secret =>
          match replace_private_file (hex_encode secret ++ [10]) with
          | Some file => load_device_secret_path file
          | None => Ok secret
          end
      | _ => Err InvalidPayload
      end
  end.

(** [prepared] is the answer of [paths.prepare()], [random] that of the system's generator. *)
Definition create_device_secret (credential : Credential) (prepared : bool) (random : option bytes)
    (replace_private_file : bytes → option SecretFile) : result ProvisioningError bytes :=
  if negb prepared then Err InvalidPayload
  else match random with
  | None => Err InvalidPayload
  | Some secret =>
      if all_zero secret then Err InvalidPayload
      else match replace_private_file (hex_encode secret ++ [10]) with
      | None => Err InvalidPayload
      | Some file => load_device_secret (Found file) credential replace_private_file
      end
  end.

Definition load_or_create_device_secret (path : SecretPath) (credential : Credential) (prepared : bool) (random : option bytes)
    (replace_private_file : bytes → option SecretFile) : result ProvisioningError bytes :=
  match path, credential with
  | Found _, _ => load_device_secret path credential replace_private_file
  | PathUnreadable, _ => Err InvalidPayload
  | Missing, CredentialUnreadable => Err InvalidPayload
  | Missing, StoredCredential _ => load_device_secret path credential replace_private_file
  | Missing, NoCredential => create_device_secret credential prepared random replace_private_file
  end.

(** ** The keyboard's receiver (C++) *)

Inductive ConfigReceiveStatus := Pending | Complete | InvalidReport | MalformedChunk | OutOfOrder | CrcMismatch.

Definition kConfigHeaderLen : nat := 11.
Definition kConfigMaxChunkData : nat := 52.
Definition kConfigMaxJsonLen : nat := 2048.

Record ConfigReceiver := mk_receiver {
  cv_buffer : bytes; cv_total_len : Z; cv_expected_crc : Z; cv_total_chunks : Z; cv_next_chunk : Z; cv_received_len : Z;
}.

Definition reset_receiver : ConfigReceiver := mk_receiver (replicate (S kConfigMaxJsonLen) 0) 0 0 0 0 0.

(** The cast to 16 bits comes after the exclusive or here. *)
Definition device_crc_shift (crc : Z) : Z :=
  if negb (Z.land crc 0x8000 =? 0) then Z.land (Z.lxor (Z.shiftl crc 1) 0x1021) 0xFFFF else Z.land (Z.shiftl crc 1) 0xFFFF.
Definition device_crc16 (b : bytes) : Z :=
  foldl (λ crc byte, Nat.iter 8 device_crc_shift (Z.lxor crc (Z.land (Z.shiftl byte 8) 0xFFFF))) 0xFFFF b.

(** [ConfigReceiver::receive]; a report may come with or without its id. *)
Definition receive (data : bytes) (self : ConfigReceiver) : ConfigReceiveStatus * bytes * ConfigReceiver :=
  if bool_decide (data = []) then (InvalidReport, [], self)
  else
    let data := if (byte_at data 0 =? CONFIG_REPORT_ID) && (1 <? length data)%nat then drop 1 data else data in
    if (length data <? kConfigHeaderLen)%nat || negb (byte_at data 0 =? 83) || negb (byte_at data 1 =? 51)
       || negb (byte_at data 2 =? 67) || negb (byte_at data 3 =? 1)
    then (InvalidReport, [], self)
    else
      let chunk_index := byte_at data 4 in
      let total_chunks := byte_at data 5 in
      let total_len := Z.lor (byte_at data 6) (Z.shiftl (byte_at data 7) 8) in
      let chunk_len := byte_at data 8 in
      let expected_crc := Z.lor (byte_at data 9) (Z.shiftl (byte_at data 10) 8) in
      if (total_chunks =? 0) || (total_chunks <=? chunk_index) || (total_len =? 0) || (Z.of_nat kConfigMaxJsonLen <? total_len)
         || (Z.of_nat kConfigMaxChunkData <? chunk_len) || (blen data <? Z.of_nat kConfigHeaderLen + chunk_len)
      then (MalformedChunk, [], self)
      else
        let self := if chunk_index =? 0
          then mk_receiver (replicate (S kConfigMaxJsonLen) 0) total_len expected_crc total_chunks 0 0 else self in
        if negb (chunk_index =? cv_next_chunk self) || negb (total_len =? cv_total_len self)
           || negb (total_chunks =? cv_total_chunks self) || negb (expected_crc =? cv_expected_crc self)
           || (cv_total_len self <? cv_received_len self + chunk_len)
        then (OutOfOrder, [], self)
        else
          let buffer := splice (Z.to_nat (cv_received_len self)) (slice kConfigHeaderLen (Z.to_nat chunk_len) data) (cv_buffer self) in
          let received_len := (cv_received_len self + chunk_len) mod 65536 in
          let next_chunk := (cv_next_chunk self + 1) mod 256 in
          let received := take (Z.to_nat received_len) buffer in
          let self := mk_receiver buffer (cv_total_len self) (cv_expected_crc self) (cv_total_chunks self) next_chunk received_len in
          if next_chunk <? cv_total_chunks self then (Pending, [], self)
          else if negb (received_len =? cv_total_len self) || negb (device_crc16 received =? cv_expected_crc self)
          then (CrcMismatch, [], self)
          else (Complete, received,
                mk_receiver (splice (Z.to_nat received_len) [0] buffer) (cv_total_len self) (cv_expected_crc self)
                  (cv_total_chunks self) next_chunk received_len).

(** [send_config_ack_for_epoch] and [push_app_command_report_locked]: the report as it goes
    out, its id first. *)
Definition kAppCommandReportPayloadLen : nat := 63.
Definition config_ack_report (phase_code : Z) (ok : bool) (bytes_ crc16 : Z) (saved : bool) : bytes :=
  let data := [phase_code; if ok then 1 else 0; Z.land bytes_ 0xFF; Z.land (Z.shiftr bytes_ 8) 0xFF;
               Z.land crc16 0xFF; Z.land (Z.shiftr crc16 8) 0xFF; if saved then 1 else 0] in
  let report := replicate kAppCommandReportPayloadLen 0 in
  let report := splice 0 [APP_COMMAND_CONFIG_ACK] report in
  let report := splice 1 [0] report in
  let report := splice 2 [1] report in
  let report := splice 3 [blen data] report in
  APP_COMMAND_REPORT_ID :: splice 4 data report.
