(* ===== verification/ProvisioningProps.v ===== *)
(** * The configuration reaches the keyboard, and a receipt means that it was saved *)

From stdpp Require Import gmap.
From S2P Require Import Prelude Bytes StrOps Audio AudioProps CacheRef Sql StoreTypes Secrets Provisioning.

Ltac zfalse e := replace e with false by (symmetry; first [apply Z.eqb_neq | apply Z.leb_gt | apply Z.ltb_ge]; unfold blen in *; lia).

(** ** The checksum *)

Definition is_word (v : Z) : Prop := 0 <= v < 65536.

Lemma land_word v : is_word (Z.land v 0xFFFF).
Proof. unfold is_word. change 0xFFFF with (Z.ones 16). rewrite Z.land_ones by done. apply Z.mod_pos_bound. lia. Qed.

Lemma lxor_word a b : is_word a → is_word b → is_word (Z.lxor a b).
Proof.
  unfold is_word. intros Ha Hb. split; [apply Z.lxor_nonneg; lia|].
  destruct (decide (Z.lxor a b = 0)) as [->|Hn]; [lia|]. apply (Z.log2_lt_pow2 _ 16); [assert (0 <= Z.lxor a b) by (apply Z.lxor_nonneg; lia); lia|].
  pose proof (Z.log2_lxor a b ltac:(lia) ltac:(lia)).
  assert (∀ v, 0 <= v < 65536 → Z.log2 v < 16) as Hlog.
  { intros v Hv. destruct (decide (v = 0)) as [->|]; [done|]. apply Z.log2_lt_pow2; lia. }
  pose proof (Hlog a Ha). pose proof (Hlog b Hb). lia.
Qed.

Lemma crc_shift_word crc : is_word (crc_shift crc).
Proof. unfold crc_shift. destruct (negb _); [apply lxor_word; [apply land_word|by unfold is_word]|apply land_word]. Qed.

Lemma crc_byte_word crc b : is_word (crc_byte crc b).
Proof. unfold crc_byte. change 8%nat with (S 7). rewrite Nat.iter_succ. apply crc_shift_word. Qed.

Lemma crc_word b : is_word (crc16_ccitt b).
Proof.
  unfold crc16_ccitt. induction b as [|x b IH] using rev_ind; [by unfold is_word|]. rewrite foldl_app. apply crc_byte_word.
Qed.

Lemma land_lxor a b m : Z.land (Z.lxor a b) m = Z.lxor (Z.land a m) (Z.land b m).
Proof. apply Z.bits_inj'. intros i _. rewrite Z.land_spec, !Z.lxor_spec, !Z.land_spec. by destruct (Z.testbit a i), (Z.testbit b i), (Z.testbit m i). Qed.

(** Both sides compute the same checksum. *)
Lemma device_crc16_eq b : device_crc16 b = crc16_ccitt b.
Proof.
  unfold device_crc16, crc16_ccitt. assert (∀ crc, device_crc_shift crc = crc_shift crc) as E.
  { intros crc. unfold device_crc_shift, crc_shift. destruct (negb _); [|done]. by rewrite land_lxor. }
  assert (∀ n crc, Nat.iter n device_crc_shift crc = Nat.iter n crc_shift crc) as En.
  { intros n crc. induction n as [|n IH]; [done|]. by rewrite !Nat.iter_succ, IH, E. }
  enough (∀ c, foldl (λ crc byte, Nat.iter 8 device_crc_shift (Z.lxor crc (Z.land (Z.shiftl byte 8) 0xFFFF))) c b
    = foldl crc_byte c b) as Hf by apply Hf.
  induction b as [|x b IH]; intros c; [done|]. cbn [foldl]. unfold crc_byte at 2. by rewrite En, IH.
Qed.

(** ** Reports *)

Definition padding (chunk : bytes) : bytes := replicate (CONFIG_CHUNK_BYTES - length chunk) 0.

Lemma encode_report_eq total crc n i chunk :
  (length chunk <= CONFIG_CHUNK_BYTES)%nat →
  encode_report total crc n i chunk
  = [16; 83; 51; 67; 1; Z.of_nat i mod 256; n] ++ le_bytes 2 total ++ [blen chunk mod 256] ++ le_bytes 2 crc ++ chunk ++ padding chunk.
Proof.
  intros Hl. unfold encode_report. set (report := splice 10 _ _).
  set (header := [16; 83; 51; 67; 1; Z.of_nat i mod 256; n; total mod 256; total / 256 mod 256; blen chunk mod 256;
    crc mod 256; crc / 256 mod 256]).
  assert (report = header ++ replicate CONFIG_CHUNK_BYTES 0) as -> by reflexivity.
  rewrite splice_spec by (rewrite length_app, length_replicate; cbn [length header]; lia).
  change 12%nat with (length header). rewrite take_app_length, drop_app_add, drop_replicate. reflexivity.
Qed.

(** ** The receiver fed with the reports *)

Fixpoint feed_receiver (reports : list bytes) (self : ConfigReceiver) : list ConfigReceiveStatus * bytes * ConfigReceiver :=
  match reports with
  | [] => ([], [], self)
  | r :: reports =>
      match receive r self with
      | (status, json, self) =>
          match feed_receiver reports self with (statuses, last, self) => (status :: statuses, if bool_decide (reports = []) then json else last, self) end
      end
  end.

(** After [k] chunks, [b] of [json] has come. *)
Definition received_so_far (total crc n : Z) (k : nat) (b : bytes) : ConfigReceiver :=
  mk_receiver (b ++ replicate (S kConfigMaxJsonLen - length b) 0) total crc n (Z.of_nat k) (blen b).

(** A report as the endpoint hands it over, with its id or without. *)
Definition arrives (with_id : bool) (report : bytes) : bytes := if with_id then report else drop 1 report.

Lemma byte_lor a b : 0 ≤ a < 256 → 0 ≤ b → Z.lor a (Z.shiftl b 8) = a + 256 * b.
Proof.
  intros Ha Hb. rewrite <- (Z.mod_small a 256) at 1 by lia. change 256 with (2 ^ 8) at 1. rewrite <- Z.land_ones by done.
  assert (Z.land (Z.land a (Z.ones 8)) (Z.shiftl b 8) = 0) as E.
  { apply Z.bits_inj'. intros i Hi. rewrite !Z.land_spec, Z.bits_0, Z.shiftl_spec by done.
    destruct (decide (i < 8)).
    - rewrite (Z.testbit_neg_r b) by lia. by rewrite andb_false_r.
    - rewrite Z.ones_spec_high by lia. by rewrite andb_false_r. }
  rewrite <- Z.lxor_lor, <- Z.add_nocarry_lxor by exact E. rewrite Z.land_ones by done.
  rewrite Z.mod_small by (change (2 ^ 8) with 256; lia). rewrite Z.shiftl_mul_pow2 by done. lia.
Qed.

Lemma word_of_le v : is_word v → Z.lor (v mod 256) (Z.shiftl (v / 256 mod 256) 8) = v.
Proof.
  unfold is_word. intros Hv. rewrite byte_lor by (apply Z.mod_pos_bound; lia || (pose proof (Z.mod_pos_bound (v / 256) 256); lia)).
  rewrite (Z.mod_small (v / 256)) by (split; [apply Z.div_pos; lia|apply Z.div_lt_upper_bound; lia]).
  pose proof (Z.div_mod v 256). lia.
Qed.

Lemma body_of_report w total crc n i chunk :
  (length chunk <= CONFIG_CHUNK_BYTES)%nat → ∃ body,
    drop 1 (encode_report total crc n i chunk) = body
    ∧ body = [83; 51; 67; 1; Z.of_nat i mod 256; n; total mod 256; total / 256 mod 256; blen chunk mod 256;
              crc mod 256; crc / 256 mod 256] ++ chunk ++ padding chunk
    ∧ (let data := arrives w (encode_report total crc n i chunk) in
       data ≠ [] ∧ (if (byte_at data 0 =? CONFIG_REPORT_ID) && (1 <? length data)%nat then drop 1 data else data) = body).
Proof.
  intros Hl. eexists. split; [done|]. split; [by rewrite encode_report_eq|]. rewrite encode_report_eq by done.
  destruct w; split; done.
Qed.

Lemma splice_so_far b chunk m :
  (length b + length chunk <= m)%nat →
  splice (length b) chunk (b ++ replicate (m - length b) 0) = (b ++ chunk) ++ replicate (m - length (b ++ chunk)) 0.
Proof.
  intros Hl. rewrite splice_spec by (rewrite length_app, length_replicate; lia).
  rewrite take_app_length, drop_app_add, drop_replicate, length_app, <- app_assoc. do 3 f_equal. lia.
Qed.

Lemma receive_report w total crc n k chunk b self :
  is_word crc → 0 < total <= 2048 → Z.of_nat k < n → n < 256 → (length chunk <= CONFIG_CHUNK_BYTES)%nat →
  blen b + blen chunk <= total →
  (k = 0%nat ∧ b = [] ∨ k ≠ 0%nat ∧ self = received_so_far total crc n k b) →
  receive (arrives w (encode_report total crc n k chunk)) self
  = let next := received_so_far total crc n (S k) (b ++ chunk) in
    if Z.of_nat (S k) <? n then (Pending, [], next)
    else if negb (blen (b ++ chunk) =? total) || negb (crc16_ccitt (b ++ chunk) =? crc) then (CrcMismatch, [], next)
    else (Complete, b ++ chunk, next).
Proof.
  intros Hcrc Ht Hk Hn Hl Hb Hself. destruct (body_of_report w total crc n k chunk Hl) as (body & _ & Hbody & Hne & Hdrop).
  unfold receive. rewrite bool_decide_false by exact Hne. rewrite Hdrop. clear Hdrop Hne.
  assert (length body = 11 + (length chunk + (CONFIG_CHUNK_BYTES - length chunk)))%nat as Hlen.
  { rewrite Hbody, !length_app. unfold padding. by rewrite length_replicate. }
  unfold blen in *. change CONFIG_CHUNK_BYTES with 52%nat in *.
  replace (length body <? kConfigHeaderLen)%nat with false by (symmetry; apply Nat.ltb_ge; unfold kConfigHeaderLen; lia).
  assert (byte_at body 0 = 83 ∧ byte_at body 1 = 51 ∧ byte_at body 2 = 67 ∧ byte_at body 3 = 1
    ∧ byte_at body 4 = Z.of_nat k ∧ byte_at body 5 = n
    ∧ Z.lor (byte_at body 6) (Z.shiftl (byte_at body 7) 8) = total ∧ byte_at body 8 = Z.of_nat (length chunk)
    ∧ Z.lor (byte_at body 9) (Z.shiftl (byte_at body 10) 8) = crc)
    as (-> & -> & -> & -> & -> & -> & -> & -> & ->).
  { rewrite Hbody. cbn [byte_at app lookup list_lookup default]. unfold byte_at, blen. cbn [app lookup list_lookup default from_option id].
    rewrite !word_of_le by (done || unfold is_word; lia). rewrite !Z.mod_small by lia. done. }
  assert (slice kConfigHeaderLen (Z.to_nat (Z.of_nat (length chunk))) body = chunk) as Hslice.
  { rewrite Hbody, Nat2Z.id. unfold slice. cbn [app drop kConfigHeaderLen]. apply take_app_length. }
  unfold blen. rewrite Hslice. clear Hslice.
  unfold kConfigMaxJsonLen, kConfigMaxChunkData, kConfigHeaderLen.
  zfalse (n =? 0). zfalse (n <=? Z.of_nat k). zfalse (total =? 0). zfalse (Z.of_nat 2048 <? total).
  zfalse (Z.of_nat 52 <? Z.of_nat (length chunk)). zfalse (Z.of_nat (length body) <? Z.of_nat 11 + Z.of_nat (length chunk)).
  cbn [negb orb Z.eqb Pos.eqb].
  match goal with |- context [if Z.of_nat k =? 0 then ?a else ?b] => set (self' := if Z.of_nat k =? 0 then a else b) end.
  assert (self' = received_so_far total crc n k b) as ->.
  { unfold self'. destruct Hself as [[-> ->]|[Hk0 ->]]; [reflexivity|]. by zfalse (Z.of_nat k =? 0). }
  unfold received_so_far. unfold blen. cbn [cv_next_chunk cv_total_len cv_total_chunks cv_expected_crc cv_received_len cv_buffer].
  rewrite !Z.eqb_refl, Nat2Z.id. zfalse (total <? Z.of_nat (length b) + Z.of_nat (length chunk)). cbn [negb orb].
  rewrite splice_so_far by (unfold kConfigMaxJsonLen; lia).
  replace (Z.of_nat (length b) + Z.of_nat (length chunk)) with (Z.of_nat (length (b ++ chunk))) by (rewrite length_app; lia).
  assert (length (b ++ chunk) <= 2048)%nat as Hb' by (rewrite length_app; lia). set (b' := b ++ chunk) in *. clearbody b'.
  rewrite (Z.mod_small (Z.of_nat (length b'))) by lia. rewrite (Z.mod_small (Z.of_nat k + 1)) by lia.
  replace (Z.of_nat k + 1) with (Z.of_nat (S k)) by lia. rewrite Nat2Z.id, take_app_length, device_crc16_eq.
  destruct (_ <? n); [done|]. destruct (negb _ || negb _); [done|]. unfold kConfigMaxJsonLen. do 3 f_equal.
  rewrite splice_spec by (rewrite length_app, length_replicate; cbn [length]; lia).
  rewrite take_app_length, drop_app_add, drop_replicate.
  replace (S 2048 - length b')%nat with (S (2048 - length b')) by lia. cbn [app length]. cbn [replicate app]. by rewrite Nat.sub_succ, Nat.sub_0_r.
Qed.

Definition reports_from (w : nat → bool) (total crc n : Z) (k : nat) (pieces : list bytes) : list bytes :=
  imap (λ i piece, arrives (w (k + i)%nat) (encode_report total crc n (k + i) piece)) pieces.

Lemma reports_from_cons w total crc n k piece pieces :
  reports_from w total crc n k (piece :: pieces)
  = arrives (w k) (encode_report total crc n k piece) :: reports_from w total crc n (S k) pieces.
Proof.
  unfold reports_from. cbn [imap]. f_equal; [by rewrite Nat.add_0_r|]. apply imap_ext. intros i x _. cbn.
  by replace (k + S i)%nat with (S (k + i)) by lia.
Qed.

(** The rest of the reports, from the [k]th on, completes the text. *)
Lemma feed_reports w total crc n json pieces k b self :
  crc = crc16_ccitt json → total = blen json → 0 < total <= 2048 → n < 256 → n = Z.of_nat (k + length pieces) →
  pieces ≠ [] → Forall (λ p, (0 < length p <= CONFIG_CHUNK_BYTES)%nat) pieces → json = b ++ mjoin pieces →
  (k = 0%nat ∧ b = [] ∨ k ≠ 0%nat ∧ self = received_so_far total crc n k b) →
  feed_receiver (reports_from w total crc n k pieces) self
  = (replicate (length pieces - 1) Pending ++ [Complete], json, received_so_far total crc n (k + length pieces) json).
Proof.
  intros Hcrc Htot Ht Hn. revert k b self. induction pieces as [|p pieces IH]; intros k b self Hk Hne Hall Hj Hself; [done|].
  inversion_clear Hall as [|?? Hp Hall']. rewrite reports_from_cons. cbn [feed_receiver]. change (mjoin (p :: pieces)) with (p ++ mjoin pieces) in Hj. cbn [length] in Hk.
  assert (length json = length b + length p + length (mjoin pieces))%nat as Hlen by (rewrite Hj, !length_app; lia).
  rewrite (receive_report _ _ _ _ _ _ b) by (subst crc; unfold blen in *; first [apply crc_word | assumption | lia]).
  cbv zeta. destruct pieces as [|p2 pieces].
  - change (mjoin []) with (@nil Z) in Hj. rewrite app_nil_r in Hj. rewrite <- Hj. cbn [length] in Hk.
    zfalse (Z.of_nat (S k) <? n). rewrite Hcrc, <- Htot, !Z.eqb_refl. cbn [negb orb].
    replace (k + length [p])%nat with (S k) by (cbn; lia). done.
  - replace (Z.of_nat (S k) <? n) with true by (symmetry; apply Z.ltb_lt; cbn [length] in Hk; lia).
    rewrite (IH (S k) (b ++ p)); [|cbn [length] in *; lia|done|done|by rewrite <- app_assoc|by right].
    rewrite reports_from_cons, bool_decide_false by done.
    replace (S k + length (p2 :: pieces))%nat with (k + length (p :: p2 :: pieces))%nat by (cbn; lia).
    cbn [length]. do 3 f_equal. rewrite !Nat.sub_succ, !Nat.sub_0_r. done.
Qed.

(** ** Encoding the text *)

Lemma encode_reports_ok json reports :
  encode_reports json = Ok reports →
  0 < blen json <= 2048 ∧ chunks CONFIG_CHUNK_BYTES json ≠ []
  ∧ Z.of_nat (length (chunks CONFIG_CHUNK_BYTES json)) <= 40
  ∧ reports = imap (encode_report (blen json) (crc16_ccitt json) (Z.of_nat (length (chunks CONFIG_CHUNK_BYTES json))))
                (chunks CONFIG_CHUNK_BYTES json).
Proof.
  unfold encode_reports. destruct (bool_decide _ || _) eqn:E1; [done|]. destruct (_ || _ || _) eqn:E2; [done|]. intros [= <-].
  bool_prop. repeat match goal with H : Nat.ltb _ _ = false |- _ => apply Nat.ltb_ge in H end.
  unfold blen, MAX_CONFIG_BYTES, u16_max in *.
  assert (length json <> 0)%nat by (destruct json; done).
  assert (length (chunks CONFIG_CHUNK_BYTES json) <= 40)%nat as Hn.
  { rewrite length_chunks by (unfold CONFIG_CHUNK_BYTES; cbn; lia). unfold div_ceil.
    change CONFIG_CHUNK_BYTES with 52%nat. apply Nat.lt_succ_r, Nat.Div0.div_lt_upper_bound. lia. }
  split; [lia|]. split; [done|]. split; [lia|]. rewrite !Z.mod_small by lia. done.
Qed.

Lemma length_encode_report total crc n i chunk :
  (length chunk <= CONFIG_CHUNK_BYTES)%nat → length (encode_report total crc n i chunk) = REPORT_BYTES.
Proof.
  intros Hl. rewrite encode_report_eq, !length_app by done. unfold padding. rewrite length_replicate.
  change CONFIG_CHUNK_BYTES with 52%nat in *. change REPORT_BYTES with 64%nat. cbn [length le_bytes]. lia.
Qed.

(** ** The acknowledgement *)

(** A report that is not an acknowledgement, or no report yet. *)
Definition unrelated (r : HidRead) : Prop :=
  match r with NoReport => True | HidReport b => decode_config_ack (take REPORT_BYTES b) = None | HidReadFailed => False end.

Lemma await_ack_unrelated bytes_ crc before reads :
  Forall unrelated before → await_ack bytes_ crc (before ++ reads) = await_ack bytes_ crc reads.
Proof. induction 1 as [|r before Hr _ IH]; [done|]. destruct r; cbn in *; [done|by rewrite Hr|done]. Qed.

Lemma land_byte v : Z.land v 0xFF = v mod 256.
Proof. change 0xFF with (Z.ones 8). by rewrite Z.land_ones. Qed.

Lemma decode_ack_report phase ok bytes_ crc saved :
  is_word bytes_ → is_word crc →
  decode_config_ack (take REPORT_BYTES (config_ack_report phase ok bytes_ crc saved)) = Some (mk_ack phase ok bytes_ crc saved).
Proof.
  intros Hb Hc. assert (∀ v, is_word v → Z.land v 0xFF + 256 * (Z.land (Z.shiftr v 8) 0xFF + 256 * 0) = v) as E.
  { unfold is_word. intros v Hv. rewrite !land_byte, Z.shiftr_div_pow2 by done. change (2 ^ 8) with 256.
    rewrite (Z.mod_small (v / 256)) by (split; [apply Z.div_pos; lia|apply Z.div_lt_upper_bound; lia]).
    pose proof (Z.div_mod v 256). lia. }
  destruct ok, saved; cbv -[Z.land Z.shiftr Z.add Z.mul]; rewrite !E by done; done.
Qed.

(** ** The configuration reaches the keyboard *)

(** C40: whatever is encoded goes out in at most 40 reports of 64 bytes, and the keyboard's
    receiver, in whatever state an earlier transfer left it and whether or not the reports
    carry their id, answers each of them with "pending" and the last with the very text; the
    keyboard's acknowledgement of that text is then taken by the host exactly when it says
    that the text was accepted and saved. *)
Theorem provisioning_reaches_the_keyboard json reports :
  encode_reports json = Ok reports →
  (length reports <= 40)%nat ∧ Forall (λ r, length r = REPORT_BYTES) reports
  ∧ (∀ with_id self, feed_receiver (imap (λ i r, arrives (with_id i) r) reports) self
       = (replicate (length reports - 1) Pending ++ [Complete], json,
          received_so_far (blen json) (crc16_ccitt json) (Z.of_nat (length reports)) (length reports) json))
  ∧ (∀ before ok saved rest, Forall unrelated before →
       wait_for_config_ack
         (before ++ HidReport (config_ack_report 1 ok (blen json) (device_crc16 json) saved) :: rest)
         (length json) (crc16_ccitt json)
       = if ok && saved then Ok tt else Err Hid).
Proof.
  intros He. destruct (encode_reports_ok _ _ He) as (Hj & Hne & Hn & ->). set (n := Z.of_nat (length (chunks _ _))) in *.
  assert (0 < CONFIG_CHUNK_BYTES)%nat as Hpos by (unfold CONFIG_CHUNK_BYTES; cbn; lia).
  pose proof (chunks_sizes CONFIG_CHUNK_BYTES json Hpos) as Hs. rewrite length_imap. repeat split.
  - lia.
  - apply Forall_lookup_2. intros i r Hr. rewrite list_lookup_imap in Hr. apply fmap_Some_1 in Hr as (c & Hc & ->).
    apply length_encode_report. by apply (Forall_lookup_1 _ _ _ _ Hs Hc).
  - intros with_id self.
    assert (imap (λ i r, arrives (with_id i) r) (imap (encode_report (blen json) (crc16_ccitt json) n) (chunks CONFIG_CHUNK_BYTES json))
      = reports_from with_id (blen json) (crc16_ccitt json) n 0 (chunks CONFIG_CHUNK_BYTES json)) as ->.
    { apply list_eq. intros i. unfold reports_from. rewrite !list_lookup_imap. by destruct (_ !! i). }
    apply (feed_reports _ _ _ n json _ 0 []); try done; first [by left | by rewrite mjoin_chunks by done | unfold n in *; lia].
  - intros before ok saved rest Hb. unfold wait_for_config_ack. unfold blen in *.
    unfold u16_max. replace (65535 <? Z.of_nat (length json)) with false by (symmetry; apply Z.ltb_ge; lia). rewrite await_ack_unrelated by done. cbn [await_ack]. rewrite device_crc16_eq.
    rewrite decode_ack_report by first [apply crc_word | unfold is_word; lia]. cbn [ca_phase ca_ok ca_bytes ca_crc16 ca_saved].
    rewrite !Z.eqb_refl, !andb_true_r. by destruct ok, saved.
Qed.

(** ** What a receipt means *)

Lemma await_ack_ok bytes_ crc reads u :
  await_ack bytes_ crc reads = Ok u →
  ∃ before b rest, reads = before ++ HidReport b :: rest ∧ Forall unrelated before
    ∧ decode_config_ack (take REPORT_BYTES b) = Some (mk_ack 1 true bytes_ crc true).
Proof.
  induction reads as [|r reads IH]; [done|]. destruct r as [|b|]; cbn [await_ack]; [| |done].
  - intros H. destruct (IH H) as (before & b & rest & -> & Hu & Hd). exists (NoReport :: before), b, rest. split; [done|]. by split; [constructor|].
  - destruct (decode_config_ack _) as [ack|] eqn:Ed.
    + destruct (_ && _) eqn:Ea; [|done]. intros _. exists [], b, reads. split; [done|]. split; [constructor|]. rewrite Ed.
      bool_prop. destruct ack as [ph ok by_ cr sv]. cbn in *. by subst.
    + intros H. destruct (IH H) as (before & b' & rest & -> & Hu & Hd). exists (HidReport b :: before), b', rest. split; [done|].
      by split; [constructor|].
Qed.

(** The keyboard [d] has taken all the reports and answered that it saved the payload. *)
Definition saved_by (payload : bytes) (reports : list bytes) (d : HidDevice) : Prop :=
  hd_opens d = true ∧ (∀ k, (k < length reports)%nat → hd_accepts d k = true)
  ∧ ∃ before b rest, hd_reads d = before ++ HidReport b :: rest ∧ Forall unrelated before
      ∧ decode_config_ack (take REPORT_BYTES b) = Some (mk_ack 1 true (blen payload) (crc16_ccitt payload) true).

Lemma sends_all_true d reports :
  sends_all d reports = true → ∀ k, (k < length reports)%nat → hd_accepts d k = true.
Proof. unfold sends_all. rewrite forallb_forall. intros H k Hk. apply H, in_seq. lia. Qed.

Lemma try_candidates_ok payload reports opened wrote candidates receipt :
  try_candidates payload reports opened wrote candidates = Ok receipt →
  ∃ failed d rest, candidates = failed ++ d :: rest ∧ saved_by payload reports d
    ∧ rc_product receipt = default (ascii_bytes "AI Keyboard") (hd_product_string d)
    ∧ rc_payload_bytes receipt = length payload ∧ rc_chunks receipt = length reports
    ∧ rc_crc16 receipt = crc16_ccitt payload.
Proof.
  revert opened wrote. induction candidates as [|c candidates IH]; intros opened wrote H; cbn [try_candidates] in H.
  { by destruct (negb opened), (negb wrote). }
  destruct (hd_opens c) eqn:Eo; cbn [negb] in H.
  - destruct (sends_all c reports && _) eqn:Ec.
    + injection H as <-. apply andb_prop in Ec as [Es Ew]. destruct (wait_for_config_ack _ _ _) as [u|] eqn:Ew'; [|done].
      unfold wait_for_config_ack in Ew'. destruct (u16_max <? _); [done|]. exists [], c, candidates. split; [done|].
      split; [|done]. split; [done|]. split; [by apply sends_all_true|]. by apply await_ack_ok in Ew'.
    + destruct (IH _ _ H) as (failed & d & rest & -> & Hd). by exists (c :: failed), d, rest.
  - destruct (IH _ _ H) as (failed & d & rest & -> & Hd). by exists (c :: failed), d, rest.
Qed.

(** When the host reports success, a keyboard of the expected vendor, product and
    interface took every report of the configuration's encoding, and the first report it
    then sent that is an acknowledgement says that exactly this many bytes with this
    checksum were accepted and saved; the receipt gives these numbers and no secret. *)
Theorem receipt_means_saved `{ProvisionSerde} config api receipt :
  provision_lan_hid config api = Ok receipt →
  ∃ devices payload reports d,
    api = Some devices ∧ d ∈ devices
    ∧ hd_vendor d = EASY_INPUT_USB_VID ∧ hd_product d = EASY_INPUT_USB_PID ∧ hd_interface d ∈ [EASY_INPUT_USB_INTERFACE; -1]
    ∧ payload_to_vec (provision_payload config) = Some payload ∧ encode_reports payload = Ok reports
    ∧ saved_by payload reports d
    ∧ rc_payload_bytes receipt = length payload ∧ rc_chunks receipt = length reports ∧ rc_crc16 receipt = crc16_ccitt payload
    ∧ rc_product receipt = default (ascii_bytes "AI Keyboard") (hd_product_string d).
Proof.
  intros H0. unfold provision_lan_hid in H0. destruct (payload_json config) as [payload|] eqn:Ep; [|done]. cbn [rbind] in H0.
  destruct (encode_reports payload) as [reports|] eqn:Er; [|done]. cbn [rbind] in H0. destruct api as [devices|]; [|done].
  destruct (bool_decide _); [done|]. apply try_candidates_ok in H0 as (failed & d & rest & Hc & Hs & H1 & H2 & H3 & H4).
  assert (d ∈ filter (λ d, is_easy_input_usb_interface (hd_vendor d) (hd_product d) (hd_interface d) = true) devices) as Hd
    by (rewrite Hc; set_solver). apply list_elem_of_filter in Hd as [Hi Hd].
  exists devices, payload, reports, d. unfold is_easy_input_usb_interface in Hi. bool_prop.
  unfold payload_json in Ep. destruct (payload_to_vec _) as [p|]; [|done]. destruct (_ || _); [done|]. injection Ep as ->.
  repeat split; try done; try apply Hs.
  match goal with H : _ || _ = true |- _ => apply orb_prop in H as [Hz|Hz]; apply Z.eqb_eq in Hz as -> end; set_solver.
Qed.

(** ** The secret's file *)

Lemma hex_digit16_digit n : 0 ≤ n < 16 → hex_digit16 (hex_digit n) = Some n ∧ hex_digit n <> 43 ∧ 48 <= hex_digit n < 103.
Proof.
  intros Hn. assert (n ∈ seqZ 0 16) as Hin by (apply elem_of_seqZ; lia). revert Hin. clear Hn.
  assert (Forall (λ n, hex_digit16 (hex_digit n) = Some n ∧ hex_digit n <> 43 ∧ 48 <= hex_digit n < 103) (seqZ 0 16)) as Hf
    by (repeat (constructor; [by cbv|]); constructor).
  intros Hin. by rewrite Forall_forall in Hf; apply Hf.
Qed.

Lemma byte_nibbles x : is_byte x → 16 * Z.shiftr x 4 + Z.land x 15 = x.
Proof.
  intros Hx. change 15 with (Z.ones 4). rewrite Z.land_ones, Z.shiftr_div_pow2 by done. change (2 ^ 4) with 16.
  pose proof (Z.div_mod x 16). lia.
Qed.

Lemma hex_boundary b : bytes_ok b → at_boundary (hex_encode b) = true.
Proof.
  intros Hb. destruct Hb as [|x b Hx Hb]; [done|]. unfold hex_encode. rewrite encode_hex_cons. cbn [at_boundary].
  destruct (nibbles x Hx) as (H1 & _). destruct (hex_digit16_digit _ H1) as (_ & _ & H). zfalse (128 <=? hex_digit (Z.shiftr x 4)). done.
Qed.

Lemma decode_pairs_hex b : bytes_ok b → decode_pairs (hex_encode b) = Ok b.
Proof.
  induction 1 as [|x b Hx Hb IH]; [done|]. unfold hex_encode in *. rewrite encode_hex_cons. cbn [decode_pairs].
  pose proof (hex_boundary b Hb) as Hbd. unfold hex_encode in Hbd. rewrite Hbd. cbn [negb].
  destruct (nibbles x Hx) as (H1 & H2 & _). destruct (hex_digit16_digit _ H1) as (E1 & N1 & _). destruct (hex_digit16_digit _ H2) as (E2 & _ & _).
  unfold from_str_radix_pair. zfalse (hex_digit (Z.shiftr x 4) =? 43). rewrite E1, E2. cbn. rewrite byte_nibbles by done. by rewrite IH.
Qed.

Lemma hex_no_space s : Forall hex_char s → space_width s = 0%nat.
Proof.
  unfold hex_char. intros [|c s' Hc _]; [done|]. unfold space_width, between.
  replace (_ || (c =? 32)) with false by lia. zfalse (c =? 194). zfalse (c =? 225). zfalse (c =? 226). zfalse (c =? 227).
  cbn [andb orb]. destruct s' as [|? [|? ?]]; done.
Qed.

Lemma trim_end_hex s : Forall hex_char s → trim_end (s ++ [10]) = s.
Proof.
  intros Hs. unfold trim_end. assert (length (s ++ [10]) = S (length s)) as El by (rewrite length_app; cbn; lia).
  rewrite El. cbn [trim_end_fuel list_find]. rewrite El, Nat.sub_succ, Nat.sub_0_r, drop_app_length.
  rewrite decide_True by (split; [done|lia]). cbn beta iota. rewrite Nat.sub_succ, Nat.sub_0_r, take_app_length.
  destruct (length s) as [|n] eqn:En; [done|]. cbn [trim_end_fuel].
  enough (list_find (λ w, space_width (drop (length s - w) s) = w ∧ (w ≤ length s)%nat) [1; 2; 3]%nat = None) as -> by done.
  apply list_find_None. assert (∀ w, space_width (drop (length s - w) s) = 0%nat) as E by (intros w; by apply hex_no_space, Forall_drop).
  repeat constructor; rewrite E; lia.
Qed.

Definition private_secret (content : bytes) : SecretFile := mk_secret_file true true true content.

(** A write that succeeds leaves a private file with the bytes written. *)
Definition writes_private (write : bytes → option SecretFile) : Prop := ∀ c f, write c = Some f → f = private_secret c.

Lemma load_written secret :
  bytes_ok secret → length secret = 32%nat → all_zero secret = false →
  load_device_secret_path (private_secret (hex_encode secret ++ [10])) = Ok secret.
Proof.
  intros Hb Hl Hz. pose proof (hex_chars _ Hb) as Hc. fold (hex_encode secret) in Hc. unfold load_device_secret_path, private_secret.
  cbn [sf_is_file sf_private sf_opens sf_content negb orb]. rewrite hex_utf8, trim_end_hex by done.
  assert (length (hex_encode secret) = 64)%nat as El by (unfold hex_encode; rewrite length_encode_hex; lia).
  rewrite length_app, El. cbn [Nat.add length Nat.eqb negb orb]. unfold decode_secret_hex. rewrite El. cbn [Nat.eqb negb].
  rewrite decode_pairs_hex by done. cbn beta iota delta [rbind]. rewrite Hz. unfold rbind. by rewrite Hz.
Qed.

(** A secret of 32 bytes, once written, is what every later start gets back: the start
    that creates it returns it, a later one reads it from the file, and one that finds the
    file gone takes it from the credential store whether or not the file can be restored. *)
Theorem device_secret_kept secret write :
  bytes_ok secret → length secret = 32%nat → all_zero secret = false → writes_private write →
  (write (hex_encode secret ++ [10]) ≠ None →
     load_or_create_device_secret Missing NoCredential true (Some secret) write = Ok secret)
  ∧ (∀ credential random, load_or_create_device_secret (Found (private_secret (hex_encode secret ++ [10]))) credential true random write
       = Ok secret)
  ∧ (∀ random, load_or_create_device_secret Missing (StoredCredential secret) true random write = Ok secret).
Proof.
  intros Hb Hl Hz Hw. pose proof (load_written _ Hb Hl Hz) as Hload. split; [|split].
  - intros Hn. cbn. unfold create_device_secret. cbn [negb]. rewrite Hz. destruct (write _) as [f|] eqn:Ef; [|done].
    rewrite (Hw _ _ Ef). exact Hload.
  - intros credential random. exact Hload.
  - intros random. cbn. destruct (write _) as [f|] eqn:Ef; [|done]. rewrite (Hw _ _ Ef). exact Hload.
Qed.

(** ** Instances *)

Section demo.

(** A serializer that writes the key alone, and a keyboard that saves what it gets. *)
Local Instance demo_serde : ProvisionSerde := { payload_to_vec p := Some (pp_wifi_ssid p ++ pp_speaker_sync_key p) }.

Definition demo_secret : bytes := replicate 31 0 ++ [171].
Definition demo_config : LanProvisioning := mk_provisioning (ascii_bytes "net") [] (192, 168, 1, 2) 4000 demo_secret.
Definition demo_payload : bytes := ascii_bytes "net" ++ hex_encode demo_secret.
Definition demo_keyboard : HidDevice :=
  mk_device EASY_INPUT_USB_VID EASY_INPUT_USB_PID 0 None true (λ _, true)
    [NoReport; HidReport [16; 1]; HidReport (config_ack_report 1 true 67 (crc16_ccitt demo_payload) true)].

Lemma provisioning_reaches_the_keyboard_witness : ∃ reports,
  encode_reports demo_payload = Ok reports ∧ length reports = 2%nat
  ∧ (feed_receiver (imap (λ i r, arrives (i =? 0)%nat r) reports) reset_receiver).1.1 = [Pending; Complete].
Proof.
  assert (∃ r, encode_reports demo_payload = Ok r) as [r Hr] by (eexists; vm_compute; reflexivity).
  destruct (provisioning_reaches_the_keyboard demo_payload r Hr) as (_ & _ & Hf & _).
  assert (length r = 2%nat) as Hl by (vm_compute in Hr; injection Hr as <-; reflexivity).
  exists r. split; [exact Hr|]. split; [exact Hl|]. rewrite Hf, Hl. reflexivity.
Defined.

Lemma receipt_means_saved_witness : ∃ receipt,
  provision_lan_hid demo_config (Some [demo_keyboard]) = Ok receipt ∧ rc_payload_bytes receipt = 67%nat
  ∧ hd_opens demo_keyboard = true.
Proof.
  assert (∃ r, provision_lan_hid demo_config (Some [demo_keyboard]) = Ok r) as [r Hr] by (eexists; vm_compute; reflexivity).
  destruct (receipt_means_saved demo_config (Some [demo_keyboard]) r Hr)
    as (devices & payload & reports & d & Hd & Hin & _ & _ & _ & Hp & _ & (Ho & _) & Hn & _).
  exists r. split; [exact Hr|]. split.
  - rewrite Hn. injection Hp as <-. reflexivity.
  - injection Hd as <-. apply list_elem_of_singleton in Hin as ->. exact Ho.
Defined.

Lemma device_secret_kept_witness :
  load_or_create_device_secret Missing NoCredential true (Some demo_secret) (λ c, Some (private_secret c)) = Ok demo_secret.
Proof.
  apply (device_secret_kept demo_secret (λ c, Some (private_secret c))); try done.
  - apply Forall_app. split; [apply Forall_replicate|constructor; [|constructor]]; unfold is_byte; lia.
  - by intros c f [= <-].
Defined.

(** Pairs with a plus sign are read as hexadecimal, and a file whose characters are wider
    than a byte makes the reader panic. *)
Lemma secret_with_signs_read_or_panic :
  decode_secret_hex (mjoin (replicate 32 (ascii_bytes "+f"))) = Ok (replicate 32 15)
  ∧ decode_secret_hex (mjoin (replicate 16 [48; 226; 130; 172])) = Err SlicePanic.
Proof. split; reflexivity. Qed.

(** The management interface with number -1 is taken on every platform. *)
Lemma interface_minus_one_accepted :
  is_easy_input_usb_interface EASY_INPUT_USB_VID EASY_INPUT_USB_PID (-1) = true.
Proof. reflexivity. Qed.

End demo.
