(* ===== verification/StoreProps.v ===== *)
(** * The properties of the state database, with a concrete run for their witnesses *)

From S2P Require Import Prelude Bytes CacheRef Sql StoreTypes StoreJobs StoreRollout.
From S2P Require Import StoreSummary StorePlayback SummaryInv SummaryOps SummaryClaims.
From S2P Require Import SummaryPublish PlaybackOps StoreSystem.

(** * A concrete run of the store, for the witnesses

    [demo_externals] is a computable instance of the third-party interface (length-tagged
    lists for JSON, non-empty text for UUIDs).  The databases [demo_1] to [demo_8] are the
    states of one history: a turn is observed, summarised and published, its playback
    starts, a second turn is observed and claimed, and the first summary is heard before
    the second one is published. *)

Definition tag_text (s : text) : text := mjoin ((λ b, [1; b]) <$> s) ++ [0].

Fixpoint untag (cur : text) (s : text) : option (list text) :=
  match s with
  | [] => match cur with [] => Some [] | _ => None end
  | t :: s' =>
      if t =? 0 then rest ← untag [] s'; Some (cur :: rest)
      else match s' with b :: s'' => untag (cur ++ [b]) s'' | [] => None end
  end.

Definition tag_texts (ids : list text) : text := mjoin (tag_text <$> ids).

Lemma untag_tag cur s rest :
  untag cur (tag_text s ++ rest) = (l ← untag [] rest; Some ((cur ++ s) :: l)).
Proof.
  revert cur. induction s as [|b s IH]; intros cur.
  - simpl. by rewrite app_nil_r.
  - change (untag (cur ++ [b]) (tag_text s ++ rest) = (l ← untag [] rest; Some ((cur ++ b :: s) :: l))).
    rewrite IH. by rewrite <- app_assoc.
Qed.

Definition demo_externals : Externals.
Proof.
  refine {| uuid_ok s := negb (length s =? 0)%nat;
            json_of_strings ids := Some (tag_texts ids);
            json_to_strings s := untag [] s;
            json_is_object s := match s with b :: _ => b =? 123 | [] => false end |}.
  - intros ids. by exists (tag_texts ids).
  - intros ids s [= <-]. unfold tag_texts. induction ids as [|id ids IH]; [done|].
    change (mjoin (tag_text <$> id :: ids)) with (tag_text id ++ mjoin (tag_text <$> ids)).
    rewrite untag_tag. by rewrite IH.
Defined.

#[local] Existing Instance demo_externals.
#[local] Existing Instance demo_crypto.

Definition db_of {A} (r : result StoreError (A * Db)) : Db :=
  match r with Ok (_, db) => db | Err _ => empty_db end.
Definition value_of {A} (a : A) {B} (r : result StoreError (A * B)) : A :=
  match r with Ok (v, _) => v | Err _ => a end.

Definition demo_task : text := ascii_bytes "task".
Definition demo_cursor (offset : Z) : RolloutCursor :=
  mk_cursor demo_task (ascii_bytes "/r") 1 2 offset 1 (replicate 32 9).
Definition demo_pack : text := ascii_bytes "{}".

Definition demo_job : NewJob :=
  {| nj_request_id := ascii_bytes "req"; nj_task_id := demo_task; nj_slot := 1;
     nj_generation := 1; nj_prompt := ascii_bytes "do it"; nj_cwd := ascii_bytes "/w" |}.

Definition demo_claim (r : option SummaryClaimResult) : SummaryClaim :=
  match r with
  | Some (Claimed c) => c
  | _ => mk_claim ClaimInserted [] [] 0 None []
  end.

Definition demo_commit_run :=
  commit_rollout_completion_on 10 None None (demo_cursor 5) (ascii_bytes "c1") demo_pack empty_db.
Definition demo_1 : Db := db_of demo_commit_run.
Definition demo_2 : Db := db_of (set_binding 11 1 None demo_task demo_1).
Definition demo_claim1_run := claim_summary 12 demo_task (ascii_bytes "r1") demo_2.
Definition demo_3 : Db := db_of demo_claim1_run.
Definition demo_claim1 : SummaryClaim := demo_claim (value_of None demo_claim1_run).
Definition demo_publish1_run := publish_summary 13 demo_claim1 (cache_ref demo_task 1) demo_3.
Definition demo_4 : Db := db_of demo_publish1_run.
Definition demo_acquire_run := acquire_summary_playback 14 1 1 1 77 demo_4.
Definition demo_5 : Db := db_of demo_acquire_run.
Definition demo_lease : SummaryPlaybackLease :=
  default (mk_lease 0 0 [] 0 0 0 []) (value_of None demo_acquire_run).
Definition demo_6 : Db :=
  db_of (commit_rollout_completion_on 15 None (Some (demo_cursor 5)) (demo_cursor 9)
           (ascii_bytes "c2") demo_pack demo_5).
Definition demo_claim2_run := claim_summary 16 demo_task (ascii_bytes "r2") demo_6.
Definition demo_7 : Db := db_of demo_claim2_run.
Definition demo_claim2 : SummaryClaim := demo_claim (value_of None demo_claim2_run).
Definition demo_finish_run := finish_summary_playback 17 demo_lease demo_7.
Definition demo_8 : Db := db_of demo_finish_run.

(** A queue with one running job. *)
Definition demo_q1 : Db := db_of (enqueue 20 demo_job empty_db).
Definition demo_claim_next_run := claim_next_runnable 21 demo_q1.
Definition demo_q2 : Db := db_of demo_claim_next_run.

(** A run that answered is a step. *)
Lemma ran {A} (r : result StoreError (A * Db)) (a : A) :
  (if r is Ok _ then true else false) = true → r = Ok (value_of a r, db_of r).
Proof. by destruct r as [[]|]. Qed.

Lemma demo_commit_ran :
  commit_rollout_completion_on 10 None None (demo_cursor 5) (ascii_bytes "c1") demo_pack empty_db
  = Ok (CompletionInserted, demo_1).
Proof. apply (ran demo_commit_run CompletionReplay). vm_compute. reflexivity. Qed.

Lemma demo_steps_3 : rtc step empty_db demo_3.
Proof.
  apply (rtc_l _ _ demo_1).
  { eapply (step_commit _ _ 10 None None (demo_cursor 5) (ascii_bytes "c1") demo_pack).
    apply (ran _ CompletionReplay). vm_compute. reflexivity. }
  apply (rtc_l _ _ demo_2).
  { eapply (step_set_binding _ _ 11 1 None demo_task).
    apply (ran _ None). vm_compute. reflexivity. }
  apply (rtc_l _ _ demo_3); [|reflexivity].
  eapply (step_claim _ _ 12 demo_task (ascii_bytes "r1")).
  apply (ran _ None). vm_compute. reflexivity.
Qed.

Lemma demo_steps_4 : rtc step empty_db demo_4.
Proof.
  eapply rtc_r; [exact demo_steps_3|].
  eapply (step_publish _ _ 13 demo_claim1 (cache_ref demo_task 1)).
  - split; vm_compute; discriminate.
  - apply (ran _ (mk_unread [] 0 [] 0)). vm_compute. reflexivity.
Qed.

Lemma demo_steps_7 : rtc step demo_4 demo_7.
Proof.
  apply (rtc_l _ _ demo_5).
  { eapply (step_acquire _ _ 14 1 1 1 77). apply (ran _ None). vm_compute. reflexivity. }
  apply (rtc_l _ _ demo_6).
  { eapply (step_commit _ _ 15 None (Some (demo_cursor 5)) (demo_cursor 9) (ascii_bytes "c2") demo_pack).
    apply (ran _ CompletionReplay). vm_compute. reflexivity. }
  apply (rtc_l _ _ demo_7); [|reflexivity].
  eapply (step_claim _ _ 16 demo_task (ascii_bytes "r2")).
  apply (ran _ None). vm_compute. reflexivity.
Qed.

Lemma demo_finish_ran : finish_summary_playback 17 demo_lease demo_7 = Ok (true, demo_8).
Proof. apply (ran demo_finish_run false). vm_compute. reflexivity. Qed.

Lemma demo_step_8 : step demo_7 demo_8.
Proof. exact (step_finish _ _ _ _ _ demo_finish_ran). Qed.

Lemma demo_steps_8 : rtc step demo_4 demo_8.
Proof. eapply rtc_r; [apply demo_steps_7|apply demo_step_8]. Qed.

Lemma demo_reachable_4 : reachable demo_4.
Proof. apply demo_steps_4. Qed.
Lemma demo_reachable_7 : reachable demo_7.
Proof. unfold reachable. etrans; [apply demo_steps_4|apply demo_steps_7]. Qed.
Lemma demo_reachable_8 : reachable demo_8.
Proof. unfold reachable. etrans; [apply demo_steps_4|apply demo_steps_8]. Qed.

Example demo_run_succeeds :
  (sm_state <$> db_summaries demo_8) = [Heard; Generating].
Proof. vm_compute. reflexivity. Qed.

(** The queue: a job is claimed, its worker is cut off, it is claimed again. *)
Definition demo_recover_run := recover_interrupted_jobs 22 demo_q2.
Definition demo_q3 : Db := db_of demo_recover_run.
Definition demo_claim_again_run := claim_next_runnable 23 demo_q3.
Definition demo_q4 : Db := db_of demo_claim_again_run.

Definition demo_job_claimed (generation recovered : Z) : Job :=
  {| job_request_id := ascii_bytes "req"; job_task_id := demo_task; job_slot := 1;
     job_generation := 1; job_prompt := ascii_bytes "do it"; job_cwd := ascii_bytes "/w";
     job_recovery_count := recovered; job_claim_generation := generation |}.

Lemma demo_enqueue_ran : enqueue 20 demo_job empty_db = Ok (EnqueueInserted, demo_q1).
Proof. apply (ran (enqueue 20 demo_job empty_db) EnqueueReplay). vm_compute. reflexivity. Qed.
Lemma demo_claim_ran :
  claim_next_runnable 21 demo_q1 = Ok (Some (demo_job_claimed 1 0), demo_q2).
Proof. apply (ran demo_claim_next_run None). vm_compute. reflexivity. Qed.
Lemma demo_recover_ran : recover_interrupted_jobs 22 demo_q2 = Ok (1, demo_q3).
Proof. apply (ran demo_recover_run 0). vm_compute. reflexivity. Qed.
Lemma demo_claim_again_ran :
  claim_next_runnable 23 demo_q3 = Ok (Some (demo_job_claimed 2 1), demo_q4).
Proof. apply (ran demo_claim_again_run None). vm_compute. reflexivity. Qed.

Lemma demo_reachable_q1 : reachable demo_q1.
Proof. eapply rtc_once, step_enqueue, demo_enqueue_ran. Qed.
Lemma demo_q_recovered : rtc step demo_q2 demo_q3.
Proof. eapply rtc_once, step_recover_jobs, demo_recover_ran. Qed.

(** * What the store promises over whole histories

    Properties of every state reachable from a fresh database, by any interleaving of the
    host's operations and of restarts. *)

Section props.
Context `{Externals, Crypto}.

(** A job whose claim generation moved on cannot be marked with an old one. *)
Lemma stale_mark req g db r :
  store_inv db → r ∈ db_jobs db → jb_request_id r = req → g < jb_claim_generation r →
  (∀ now b db', mark_completed now req g db = Ok (b, db') → b = false ∧ db' = db)
  ∧ (∀ now k b db', mark_failed now req g k db = Ok (b, db') → b = false ∧ db' = db).
Proof.
  intros Hinv Hr Hreq Hlt.
  assert (Hz : ∀ s, s ∈ db_jobs db →
    ¬ (jb_request_id s = req ∧ jb_state s = Running ∧ jb_claim_generation s = g)).
  { intros s Hs (E & _ & Eg).
    assert (s = r) as -> by (apply (job_request_unique (db_jobs db)); congruence || apply Hinv || done).
    lia. }
  pose proof (proj2 (count_rows_zero
    (λ s, jb_request_id s = req ∧ jb_state s = Running ∧ jb_claim_generation s = g) (db_jobs db)) Hz) as Hc.
  split.
  - intros now b db' (_ & _ & -> & ->)%mark_completed_ok. rewrite Hc. split; [done|].
    simpl. rewrite update_rows_none by done. by destruct db.
  - intros now k b db' (_ & _ & -> & ->)%mark_failed_ok. rewrite Hc. split; [done|].
    simpl. rewrite update_rows_none by done. by destruct db.
Qed.

Lemma reachable_steps db db' : reachable db → rtc step db db' → reachable db'.
Proof. unfold reachable. intros. by etrans. Qed.

Lemma claim_next_step now db o db' : claim_next_runnable now db = Ok (o, db') → step db db'.
Proof. apply step_claim_next. Qed.

Lemma live_covered db c :
  store_inv db → c ∈ db_completions db →
  cp_summarized_generation c = None
  ∨ ∃ r, r ∈ db_summaries db ∧ covers_row r c
      ∧ (current_unread r ∨ sm_state r = Heard ∧ sm_superseded_by r = None).
Proof.
  intros Hinv Hc. destruct (cp_summarized_generation c) as [g|] eqn:Eg; [right|by left].
  destruct (si_covered _ (inv_summaries _ Hinv) c g Hc Eg) as (r & Hr & [Hn Hl] & Hcov).
  exists r. split_and!; [done..|]. unfold current_unread. tauto.
Qed.

End props.

(** ** Properties *)

(** C3 (invariant, store.rs): in every state the store can reach, at most four jobs run, at
    most one per task and at most twelve are pending per task; a task has at most one unread
    summary and at most one claim in progress; a summary is in the leased state exactly
    when a lease row names it; speech attempts belong to claims in progress; a published
    summary carries the cache reference of its own task and generation. *)
Theorem store_limits `{Externals, Crypto} db :
  reachable db →
  count_rows job_running (db_jobs db) ≤ MAX_GLOBAL_RUNNING_JOBS
  ∧ (∀ task, count_rows (pending task) (db_jobs db) ≤ MAX_PENDING_JOBS_PER_TASK)
  ∧ unique_on job_running jb_task_id (db_jobs db)
  ∧ unique_on current_unread sm_task_id (db_summaries db)
  ∧ unique_on active_claim sm_task_id (db_summaries db)
  ∧ (∀ r, r ∈ db_summaries db →
       (sm_state r = Leased ↔ ∃ l, l ∈ db_leases db ∧ lr_key l = sm_key r))
  ∧ (∀ a, a ∈ db_attempts db → ∃ r, r ∈ db_summaries db ∧ active_claim r ∧ sm_key r = at_key a)
  ∧ (∀ r, r ∈ db_summaries db → published r →
       sm_cache_object r = Some (cache_ref (sm_task_id r) (sm_generation r))).
Proof.
  intros [Hs Hj Hi _]%reachable_inv. destruct (summaries_schema_of _ Hs) as (_ & Ha & _ & Hu & _).
  split_and!; try done; [apply Hj|apply Hj|apply (ji_schema _ Hj)| | |];
    [apply (si_leased _ Hi)|apply (si_attempts _ Hi)|apply (si_cache _ Hi)].
Qed.

(** C1 (safety, store.rs): no observed turn is lost.  Once a completion is recorded it stays
    in the ledger with its task and turn pack through every later operation and restart,
    and at any time it is either pending, or covered by a summary of its task that is the
    current unread one or was heard and not replaced. *)
Theorem no_completion_lost `{Externals, Crypto} db db' c :
  reachable db → rtc step db db' → c ∈ db_completions db →
  ∃ c', c' ∈ db_completions db' ∧ cp_completion_id c' = cp_completion_id c
    ∧ cp_task_id c' = cp_task_id c ∧ cp_turn_pack c' = cp_turn_pack c
    ∧ (cp_summarized_generation c' = None
       ∨ ∃ r, r ∈ db_summaries db' ∧ covers_row r c'
           ∧ (current_unread r ∨ sm_state r = Heard ∧ sm_superseded_by r = None)).
Proof.
  intros Hreach Hsteps Hc. pose proof (reachable_inv _ Hreach) as Hinv.
  destruct (steps_completions_kept _ _ Hsteps Hinv c Hc) as (c' & Hc' & ? & ? & ?).
  exists c'. split_and!; try done. by apply live_covered; [eapply steps_inv|].
Qed.

(** C2 (safety, store.rs): a summary becomes heard only by finishing exactly its lease: if a
    summary is heard after a step and was not heard before, the step is
    [finish_summary_playback] answering [true] for a lease of that task and generation, all
    of whose six identifying values are those of the stored lease row. *)
Theorem heard_only_by_exact_finish `{Externals, Crypto} db db' r' :
  reachable db → step db db' → r' ∈ db_summaries db' → sm_state r' = Heard →
  (∃ r, r ∈ db_summaries db ∧ sm_key r = sm_key r' ∧ sm_state r = Heard)
  ∨ ∃ now l row, finish_summary_playback now l db = Ok (true, db')
      ∧ row ∈ db_leases db ∧ exact_lease l row
      ∧ sm_key r' = (pl_task_id l, pl_summary_generation l).
Proof.
  intros Hreach Hstep Hr' Hh. pose proof (reachable_inv _ Hreach) as Hinv.
  destruct (step_nothing_heard _ _ Hstep Hinv) as [Hn|(now & l & b & Hf)]; [left; by apply Hn|].
  pose proof Hf as Hf'. apply finish_ok in Hf. destruct b; [|left; destruct Hf as [-> _]; eauto].
  destruct Hf as (row & r & Hrow & Hex & _ & _ & _ & _ & _ & _ & ->).
  apply elem_of_update in Hr' as (s & Hs & ->). unfold upd in *. case_decide as Hp.
  - right. exists now, l, row. split_and!; try done. destruct Hp as (<- & <- & _). done.
  - left. eauto.
Qed.

(** Claim generations fence stale workers.  If a job is handed out
    twice (its first worker was cut off by a restart), the second claim generation is
    larger, and from then on the first worker can neither complete nor fail the job:
    its calls answer [false] and change nothing. *)
Theorem stale_claim_fenced `{Externals, Crypto} now1 now2 db db1 db2 db3 db4 job job' :
  reachable db → claim_next_runnable now1 db = Ok (Some job, db1) → rtc step db1 db2 →
  claim_next_runnable now2 db2 = Ok (Some job', db3) → rtc step db3 db4 →
  job_request_id job' = job_request_id job →
  job_claim_generation job < job_claim_generation job'
  ∧ (∀ now b db5, mark_completed now (job_request_id job) (job_claim_generation job) db4
        = Ok (b, db5) → b = false ∧ db5 = db4)
  ∧ (∀ now k b db5, mark_failed now (job_request_id job) (job_claim_generation job) k db4
        = Ok (b, db5) → b = false ∧ db5 = db4).
Proof.
  intros Hreach Hc1 H12 Hc2 H34 Hreq. pose proof (reachable_inv _ Hreach) as Hinv.
  assert (Hinv1 : store_inv db1) by (eapply step_inv; [eapply step_claim_next|]; done).
  assert (Hinv2 : store_inv db2) by (by eapply steps_inv).
  assert (Hinv3 : store_inv db3) by (eapply step_inv; [eapply step_claim_next|]; done).
  assert (Hinv4 : store_inv db4) by (by eapply steps_inv).
  destruct (claim_next_row _ _ _ _ Hc1 Hinv) as (c & c1 & _ & Hc1' & Pc & Ec & Ejob).
  destruct (claim_next_row _ _ _ _ Hc2 Hinv2) as (d & d1 & Hd & Hd1' & Pd & Ed & Ejob').
  destruct (steps_jobs_kept _ _ H12 Hinv1 c1 Hc1') as (c2 & Hc2' & Pc2 & Hle).
  destruct (steps_jobs_kept _ _ H34 Hinv3 d1 Hd1') as (d4 & Hd4 & Pd4 & Hle4).
  subst job job'. simpl in *. unfold same_payload in *. destruct_and?.
  assert (d = c2) as ->
    by (apply (job_request_unique (db_jobs db2)); congruence || apply Hinv2 || done).
  split; [lia|]. apply (stale_mark _ _ db4 d4); [done|done|congruence|lia].
Qed.

(** The queue delivers what was enqueued.  Whatever happens in
    between, the job that is handed out for a request id carries the task, slot, generation,
    prompt and working directory of the request that was accepted for it. *)
Theorem claimed_job_is_enqueued_job `{Externals, Crypto} now1 now2 new db db1 db2 db3 job :
  reachable db → enqueue now1 new db = Ok (EnqueueInserted, db1) → rtc step db1 db2 →
  claim_next_runnable now2 db2 = Ok (Some job, db3) → job_request_id job = nj_request_id new →
  job_task_id job = nj_task_id new ∧ job_slot job = nj_slot new
  ∧ job_generation job = nj_generation new ∧ job_prompt job = nj_prompt new
  ∧ job_cwd job = nj_cwd new.
Proof.
  intros Hreach He H12 Hc Hreq. pose proof (reachable_inv _ Hreach) as Hinv.
  assert (Hinv1 : store_inv db1) by (eapply step_inv; [eapply step_enqueue|]; done).
  assert (Hinv2 : store_inv db2) by (by eapply steps_inv).
  apply enqueue_ok in He as (_ & _ & [(? & _)|(_ & _ & _ & _ & _ & -> & _)]); [done|].
  destruct (steps_jobs_kept _ _ H12 Hinv1 (new_job_row now1 new (db_job_sequence db + 1)))
    as (r & Hr & Pr & _); [simpl; apply elem_of_app; right; by apply list_elem_of_singleton|].
  destruct (claim_next_row _ _ _ _ Hc Hinv2) as (d & d1 & Hd & _ & _ & _ & ->).
  unfold same_payload in Pr. simpl in *. destruct_and?.
  assert (d = r) as ->
    by (apply (job_request_unique (db_jobs db2)); congruence || apply Hinv2 || done).
  unfold decode_path, encode_path in *. by split_and!.
Qed.

(** ** Witnesses *)

#[local] Existing Instance demo_externals.
#[local] Existing Instance demo_crypto.

Lemma store_limits_witness :
  reachable demo_8 ∧ count_rows job_running (db_jobs demo_8) ≤ MAX_GLOBAL_RUNNING_JOBS.
Proof. split; [apply demo_reachable_8|]. apply (proj1 (store_limits demo_8 demo_reachable_8)). Defined.

Definition demo_completion : CompletionRow :=
  mk_completion_row 1 (ascii_bytes "c1") demo_task (ascii_bytes "1:5") 10 (Some 1) demo_pack.

Lemma no_completion_lost_witness :
  ∃ c', c' ∈ db_completions demo_8 ∧ cp_completion_id c' = ascii_bytes "c1".
Proof.
  destruct (no_completion_lost demo_4 demo_8 demo_completion demo_reachable_4 demo_steps_8)
    as (c' & Hc' & E & _).
  - apply (bool_decide_unpack _). vm_compute. exact I.
  - exists c'. split; [exact Hc'|exact E].
Defined.

Lemma heard_only_by_exact_finish_witness :
  ∃ r', r' ∈ db_summaries demo_8 ∧ sm_state r' = Heard
    ∧ ((∃ r, r ∈ db_summaries demo_7 ∧ sm_key r = sm_key r' ∧ sm_state r = Heard)
       ∨ ∃ now l row, finish_summary_playback now l demo_7 = Ok (true, demo_8)
           ∧ row ∈ db_leases demo_7 ∧ exact_lease l row
           ∧ sm_key r' = (pl_task_id l, pl_summary_generation l)).
Proof.
  assert (Hex : Exists (λ r, sm_state r = Heard) (db_summaries demo_8))
    by (apply (bool_decide_unpack _); vm_compute; exact I).
  apply list.Exists_exists in Hex as (r' & Hr' & Hh). exists r'. split; [exact Hr'|].
  split; [exact Hh|].
  exact (heard_only_by_exact_finish demo_7 demo_8 r' demo_reachable_7 demo_step_8 Hr' Hh).
Defined.

Lemma stale_claim_fenced_witness :
  1 < 2
  ∧ (∀ now b db5, mark_completed now (ascii_bytes "req") 1 demo_q4 = Ok (b, db5) →
       b = false ∧ db5 = demo_q4).
Proof.
  destruct (stale_claim_fenced 21 23 demo_q1 demo_q2 demo_q3 demo_q4 demo_q4
    (demo_job_claimed 1 0) (demo_job_claimed 2 1) demo_reachable_q1 demo_claim_ran
    demo_q_recovered demo_claim_again_ran (rtc_refl _ _) eq_refl) as (H1 & H2 & _).
  split; [exact H1|exact H2].
Defined.

Lemma claimed_job_is_enqueued_job_witness :
  job_prompt (demo_job_claimed 1 0) = nj_prompt demo_job.
Proof.
  destruct (claimed_job_is_enqueued_job 20 21 demo_job empty_db demo_q1 demo_q1 demo_q2
    (demo_job_claimed 1 0) (rtc_refl _ _) demo_enqueue_ran (rtc_refl _ _) demo_claim_ran eq_refl)
    as (_ & _ & _ & E & _).
  exact E.
Defined.

Lemma claim_next_spec_witness :
  ∃ o db', claim_next_runnable 21 demo_q1 = Ok (o, db').
Proof.
  pose proof (reachable_inv _ demo_reachable_q1) as Hinv.
  destruct (claim_next_spec 21 demo_q1 (inv_schema _ Hinv) (inv_jobs _ Hinv)) as (o & db' & E & _).
  - apply (bool_decide_unpack _). vm_compute. exact I.
  - exists o, db'. exact E.
Defined.

Lemma enqueue_outcomes_witness :
  ∃ db', enqueue 20 demo_job empty_db = Ok (EnqueueInserted, db').
Proof.
  destruct (enqueue_outcomes 20 demo_job empty_db schema_empty (inv_jobs _ inv_empty))
    as [_ Hnew]; try reflexivity.
  - split; vm_compute; discriminate.
  - destruct Hnew as [_ Hin].
    + intros e He. by apply not_elem_of_nil in He.
    + destruct Hin as (db' & E & _); [reflexivity|]. exists db'. exact E.
Defined.

Lemma set_binding_compare_and_swap_witness :
  set_binding 11 1 (Some 3) demo_task empty_db = Ok (None, empty_db).
Proof.
  apply (set_binding_compare_and_swap 11 1 (Some 3) demo_task empty_db schema_empty);
    [constructor|reflexivity|discriminate].
Defined.

Lemma commit_rollout_completion_effect_witness :
  query_rollout_cursor demo_task demo_1 = Ok (Some (demo_cursor 5)).
Proof.
  destruct (commit_rollout_completion_effect 10 None None (demo_cursor 5) (ascii_bytes "c1")
    demo_pack empty_db CompletionInserted demo_1 schema_empty) as [E _].
  - repeat split; vm_compute; discriminate.
  - exact demo_commit_ran.
  - exact E.
Defined.
