(* ===== verification/SecretsProps.v ===== *)
(** * Only a verified key is installed, and it can be read back

    What [configure_dashscope_env] and [import_dashscope_key] leave behind, whatever fails,
    and that the cache's key file keeps what it was given. *)

From stdpp Require Import gmap.
From S2P Require Import Prelude Bytes StrOps CacheRef StoreTypes WsFrames Secrets CacheCodec CacheOpen StoreProps.

(** ** The line that is written *)

Lemma skip_while_id P s : head_is P s = false → skip_while P s = s.
Proof. destruct s as [|b s]; [done|]. cbn. by intros ->. Qed.

Lemma trim_ascii_id s : Forall (λ b, is_ascii_whitespace b = false) s → trim_ascii s = s.
Proof.
  intros Hs. unfold trim_ascii, trim_ascii_end, trim_ascii_start.
  rewrite (skip_while_id _ s) by (destruct Hs; done).
  rewrite skip_while_id; [by rewrite rev_involutive|].
  assert (Forall (λ b, is_ascii_whitespace b = false) (rev s)) as Hr by (rewrite rev_alt, <- rev_alt; by apply Forall_rev).
  by destruct Hr.
Qed.

(** The bytes of a credential *)
Definition credential_byte (b : Z) : Prop := is_ascii_graphic b = true ∧ b ≠ 34 ∧ b ≠ 39.

Lemma validate_credential_ok key u :
  validate_credential key = Ok u → Forall credential_byte key ∧ 16 <= blen key <= 4096.
Proof.
  unfold validate_credential. destruct (negb _ || _) eqn:E; [done|]. intros _. bool_prop. unfold between in *. bool_prop. split; [|lia].
  apply List.Forall_forall. intros b Hb. unfold credential_byte.
  match goal with H : existsb _ _ = false |- _ => rename H into Hx end.
  destruct (negb (is_ascii_graphic b) || (b =? 34) || (b =? 39)) eqn:Eb.
  - exfalso. assert (existsb (λ b, negb (is_ascii_graphic b) || (b =? 34) || (b =? 39)) key = true) as Ht by (apply existsb_exists; eauto). congruence.
  - bool_prop. done.
Qed.

Lemma credential_byte_plain b : credential_byte b → is_ascii_whitespace b = false ∧ b ≠ 10.
Proof.
  unfold credential_byte, is_ascii_graphic, between, is_ascii_whitespace. intros (H & _ & _). bool_prop. lia.
Qed.

Lemma existsb_false {A} (P : A → bool) l : Forall (λ x, P x = false) l → existsb P l = false.
Proof. induction 1 as [|x l Hx _ IH]; [done|]. cbn. by rewrite Hx. Qed.

Lemma parse_value_credential key : Forall credential_byte key → parse_value key = if one_of key 35 then Err InvalidTargetVariable else Ok key.
Proof.
  intros Hk. unfold parse_value.
  assert (∀ q, q = 39 ∨ q = 34 → bool_decide (head key = Some q) = false) as Hq.
  { intros q Hq. apply bool_decide_eq_false. destruct Hk as [|b key (_ & H1 & H2) _]; [done|]. cbn. intros [= ->]. lia. }
  rewrite !Hq by auto. cbn [andb orb]. rewrite andb_false_r.
  rewrite existsb_false; [done|]. eapply Forall_impl; [exact Hk|]. intros b Hb. by apply credential_byte_plain.
Qed.

Lemma parse_line_variable key :
  Forall credential_byte key → parse_line (DASHSCOPE_VARIABLE ++ 61 :: key) = Ok (Some key).
Proof.
  intros Hk. unfold parse_line. rewrite trim_ascii_id.
  2: { apply Forall_app. split; [by repeat constructor|]. constructor; [done|]. eapply Forall_impl; [exact Hk|]. intros b Hb. by apply credential_byte_plain. }
  change (has_prefix (ascii_bytes "export") (DASHSCOPE_VARIABLE ++ 61 :: key)) with false. cbn [andb].
  change (position_of 61 (DASHSCOPE_VARIABLE ++ 61 :: key)) with (Some 17%nat). cbn beta iota.
  change (take 17 (DASHSCOPE_VARIABLE ++ 61 :: key)) with (DASHSCOPE_VARIABLE ++ []).
  change (drop 18 (DASHSCOPE_VARIABLE ++ 61 :: key)) with key. done.
Qed.

(** A credential reads back from the line that is written for it, unless it has a number
    sign in it: then nothing does. *)
Lemma parse_env_line key :
  Forall credential_byte key → parse_target_value (env_line key) = if one_of key 35 then Err InvalidTargetVariable else Ok key.
Proof.
  intros Hk. unfold parse_target_value, env_line.
  replace (DASHSCOPE_VARIABLE ++ [61] ++ key ++ [10]) with ((DASHSCOPE_VARIABLE ++ 61 :: key) ++ 10 :: []) by (by rewrite <- app_assoc).
  rewrite split_on_app.
  2: { intros Hin. apply elem_of_app in Hin as [Hin|Hin]; [by repeat (apply elem_of_cons in Hin as [Hin|Hin]; [discriminate|]); apply elem_of_nil in Hin|].
       apply elem_of_cons in Hin as [?|Hin]; [done|]. eapply Forall_forall in Hk; [|exact Hin]. by apply credential_byte_plain in Hk as []. }
  cbn [split_on parse_lines]. rewrite parse_line_variable by done. cbn [rbind]. rewrite bool_decide_false by (intros []; done).
  rewrite trim_ascii_id by (eapply Forall_impl; [exact Hk|]; intros b Hb; by apply credential_byte_plain).
  rewrite parse_value_credential by done. by destruct (one_of key 35).
Qed.

Lemma load_env_written key u :
  validate_credential key = Ok u →
  load_private_target_secret (env_source (written (env_line key))) = if one_of key 35 then Err InvalidTargetVariable else Ok key.
Proof.
  intros Hu. pose proof (validate_credential_ok _ _ Hu) as [Hk Hl].
  assert (blen (env_line key) = 19 + blen key) as El by (unfold env_line, blen; rewrite !length_app; cbn; lia).
  unfold load_private_target_secret, load_target_secret_with_permissions. unfold written, open_import_source.
  cbn [env_source so_regular so_own so_mode so_lockable negb orb andb].
  change (negb (Z.land 384 18 =? 0) || negb (Z.land 384 63 =? 0)) with false.
  cbn [rbind of_option so_len so_content so_unchanged negb].
  rewrite (proj2 (Z.ltb_ge _ _)) by (unfold MAX_IMPORT_BYTES; lia).
  rewrite take_ge by (unfold MAX_IMPORT_BYTES, blen in *; lia). rewrite (proj2 (Z.ltb_ge _ _)) by (unfold MAX_IMPORT_BYTES; lia).
  rewrite parse_env_line by done. destruct (one_of key 35); [done|]. cbn [rbind]. rewrite Hu. done.
Qed.

(** What is loaded is a credential. *)
Lemma load_target_secret_valid private source key :
  load_target_secret_with_permissions private source = Ok key → validate_credential key = Ok tt.
Proof.
  unfold load_target_secret_with_permissions. intros Hl. run_ok Hl. subst.
  match goal with H : validate_credential _ = Ok ?u |- _ => by destruct u end.
Qed.

(** ** The environment file *)

Section env.
Context `{Externals}.

Lemma accounts_apart id : ka_dashscope_verified (for_installation id) ≠ ka_dashscope (for_installation id).
Proof. cbn. intros [=]. Qed.

(** What the environment store answers when the file holds a key *)
Lemma env_store_installed id p key :
  load_private_target_secret (env_source p) = Ok key →
  (dashscope_key_is_installed (DashScopeEnvStore (for_installation id)) (for_installation id) p).1 = Ok true
  ∧ (st_get (DashScopeEnvStore (for_installation id)) (ka_dashscope (for_installation id)) p).1 = Ok (Some key).
Proof.
  intros Hp. destruct p as [| |source]; [done|done|]. cbn [env_source] in Hp. pose proof (accounts_apart id) as Hne.
  unfold dashscope_key_is_installed, DashScopeEnvStore, st_exists, st_get, env_exists, env_get. cbn [env_source]. rewrite Hp.
  rewrite (bool_decide_false (ka_dashscope_verified _ = ka_dashscope _)) by exact Hne.
  rewrite !bool_decide_true by done. cbn [negb andb map_err rbind fst]. by rewrite bool_decide_true.
Qed.

(** The cleaning up removes temporaries only. *)
Lemma cleanup_keeps target entries matched e :
  e ∈ entries → e ∈ (cleanup_entries target entries matched).2 ∨ ∃ name, de_name e = Some name ∧ temporary_of target name = true.
Proof.
  revert matched. induction entries as [|f entries IH]; intros matched He; [by apply elem_of_nil in He|].
  cbn [cleanup_entries]. apply elem_of_cons in He as [<-|He].
  - destruct (de_name e) as [name|] eqn:En; [|left; apply elem_of_cons; by left].
    destruct (temporary_of target name) eqn:Et; [eauto|]. left. apply elem_of_cons. by left.
  - destruct (de_name f) as [name|]; [|destruct (IH matched He); [left; apply elem_of_cons; by right|by right]].
    destruct (negb _); [destruct (IH matched He); [left; apply elem_of_cons; by right|by right]|].
    assert (e ∈ f :: entries) as Hin by (apply elem_of_cons; by right).
    destruct (_ <? _); [by left|]. destruct (de_stat f) as [[private size]|]; [|by left].
    destruct (_ || _); [by left|]. destruct (de_unlinks f); [by apply IH|by left].
Qed.

Lemma cleanup_spec d :
  ed_target (cleanup_dashscope_env_temporaries d).2 = ed_target d
  ∧ ∀ e, e ∈ ed_entries d → e ∈ ed_entries (cleanup_dashscope_env_temporaries d).2
      ∨ ∃ name, de_name e = Some name ∧ temporary_of (ed_name d) name = true.
Proof.
  unfold cleanup_dashscope_env_temporaries. destruct (negb _); [auto|]. destruct (negb _); [auto|]. pose proof (cleanup_keeps (ed_name d) (ed_entries d) 0) as Hk.
  destruct (cleanup_entries _ _ _) as [[]]; cbn in *; auto.
Qed.

(** C38: configuring installs a verified key, or it does not say that it did.  A receipt means
    that the key of the source was accepted by the service and that the host's environment
    file gives that very key from then on; on an error the environment file is the old one,
    unless the key had been accepted and the file was replaced before the failure.  Nothing
    of the directory is removed but the host's own stale temporaries. *)
Theorem configured_key_is_verified id verify replaced reads source d r d' :
  configure_dashscope_env verify replaced reads source d = (r, d') →
  match r with
  | Ok receipt => ∃ key, load_target_secret source = Ok key ∧ verify key = Ok receipt
      ∧ (dashscope_key_is_installed (DashScopeEnvStore (for_installation id)) (for_installation id) (ed_target d')).1 = Ok true
      ∧ (st_get (DashScopeEnvStore (for_installation id)) (ka_dashscope (for_installation id)) (ed_target d')).1 = Ok (Some key)
  | Err _ => ed_target d' = ed_target d
      ∨ ∃ key receipt, load_target_secret source = Ok key ∧ verify key = Ok receipt ∧ ed_target d' = written (env_line key)
  end
  ∧ ∀ e, e ∈ ed_entries d → e ∈ ed_entries d' ∨ ∃ name, de_name e = Some name ∧ temporary_of (ed_name d) name = true.
Proof.
  unfold configure_dashscope_env. pose proof (cleanup_spec d) as [Ht He].
  destruct (cleanup_dashscope_env_temporaries d) as [[u|e] d1]; cbn in Ht, He; [|intros [= <- <-]; auto].
  destruct (load_target_secret source) as [key|e]; [|intros [= <- <-]; auto].
  destruct (verify key) as [receipt|e] eqn:Ev; [|intros [= <- <-]; auto].
  assert (ed_entries (match replaced with Refused => d1 | _ => set_env_target (written (env_line key)) d1 end) = ed_entries d1) as Een
    by by destruct replaced.
  set (d2 := match replaced with Refused => d1 | _ => _ end) in *. intros Hc.
  assert (d' = d2) as -> by (by injection Hc). rewrite Een. split; [|exact He].
  destruct r as [receipt'|e].
  - exists key. enough (load_private_target_secret (env_source (ed_target d2)) = Ok key ∧ receipt' = receipt) as [Hp ->].
    { pose proof (env_store_installed id _ _ Hp) as []. by split_and!. }
    destruct reads; [|destruct replaced; by injection Hc].
    destruct (load_private_target_secret (env_source (ed_target d2))) as [current|]; [|destruct replaced; by injection Hc].
    destruct replaced; injection Hc; cbn [rbind]; case_bool_decide; by intros [= <-]; subst.
  - subst d2. destruct replaced; [right; by exists key, receipt|by left|right; by exists key, receipt].
Qed.

(** Together with [load_env_written]: a key with a number sign, quoted in the source, is
    accepted, verified and written, and the host cannot read what it wrote. *)
Lemma hash_key_is_unreadable verify source d key receipt :
  load_target_secret source = Ok key → verify key = Ok receipt → one_of key 35 = true →
  (cleanup_dashscope_env_temporaries d).1 = Ok tt →
  ∃ d', configure_dashscope_env verify Done true source d = (Err InvalidTargetVariable, d')
    ∧ load_private_target_secret (env_source (ed_target d')) = Err InvalidTargetVariable.
Proof.
  intros Hl Hv Hh Hc. unfold configure_dashscope_env. destruct (cleanup_dashscope_env_temporaries d) as [? d1]. cbn in Hc. subst.
  rewrite Hl, Hv. pose proof (load_env_written key tt (load_target_secret_valid _ _ _ Hl)) as Hw. rewrite Hh in Hw.
  eexists. cbn [ed_target set_env_target]. rewrite Hw. split; [reflexivity|]. exact Hw.
Qed.

End env.

(** ** The keychain *)

Section keychain.
Context (verify : bytes → result VerificationError VerificationReceipt) (id : text).
Abbreviation accounts := (for_installation id).

Definition installed (items : gmap text bytes) : Prop :=
  is_Some (items !! ka_dashscope accounts) ∧ items !! ka_dashscope_verified accounts = Some VERIFIED_MARKER.

(** Only the two items of the speech key differ. *)
Definition others_kept (items items' : gmap text bytes) : Prop :=
  ∀ a, a ≠ ka_dashscope accounts → a ≠ ka_dashscope_verified accounts → items' !! a = items !! a.

Lemma keychain_step_items k : kc_items (keychain_step k).2 = kc_items k.
Proof. unfold keychain_step. by destruct (kc_steps k). Qed.

Lemma keychain_get_spec a k r k' :
  keychain_get a k = (r, k') → kc_items k' = kc_items k ∧ (∀ v, r = Ok v → v = kc_items k !! a).
Proof.
  unfold keychain_get. pose proof (keychain_step_items k) as E. destruct (keychain_step k) as [[] k1]; cbn in E; intros [= <- <-];
    split; try done; intros v Hv; simplify_eq; by rewrite ?E.
Qed.

Lemma keychain_change_spec f k r k' :
  keychain_change f k = (r, k') → kc_items k' = f (kc_items k) ∨ kc_items k' = kc_items k ∧ r = Err Backend.
Proof.
  unfold keychain_change. pose proof (keychain_step_items k) as E.
  destruct (keychain_step k) as [[] k1]; cbn in E; intros [= <- <-]; cbn; rewrite ?E; auto.
Qed.

Lemma keychain_create_spec a v k r k' :
  keychain_create a v k = (r, k') →
  (kc_items k' = kc_items k ∧ ∃ e, r = Err e) ∨ kc_items k !! a = None ∧ kc_items k' = <[a := v]> (kc_items k).
Proof.
  unfold keychain_create. destruct (kc_items k !! a) eqn:Ea.
  - intros [= <- <-]. left. rewrite keychain_step_items. eauto.
  - intros [Hc|[Hc ->]]%keychain_change_spec; [by right|]. left. eauto.
Qed.

Lemma keychain_exists_spec a k r k' :
  exists_by_get keychain_get a k = (r, k') → kc_items k' = kc_items k ∧ (∀ b, r = Ok b → b = bool_decide (is_Some (kc_items k !! a))).
Proof.
  unfold exists_by_get. destruct (keychain_get a k) as [r1 k1] eqn:Eg. apply keychain_get_spec in Eg as [Hi Hv].
  destruct r1 as [v|e]; intros [= <- <-]; (split; [done|]); intros b Hb; simplify_eq. by rewrite (Hv v).
Qed.

Lemma others_insert a v items :
  a = ka_dashscope accounts ∨ a = ka_dashscope_verified accounts → others_kept items (<[a := v]> items).
Proof. intros Ha b Hb1 Hb2. apply lookup_insert_ne. destruct Ha; congruence. Qed.
Lemma others_delete a items :
  a = ka_dashscope accounts ∨ a = ka_dashscope_verified accounts → others_kept items (delete a items).
Proof. intros Ha b Hb1 Hb2. apply lookup_delete_ne. destruct Ha; congruence. Qed.
Lemma others_trans a b c : others_kept a b → others_kept b c → others_kept a c.
Proof. intros H1 H2 x Hx1 Hx2. rewrite H2 by done. by apply H1. Qed.

(** Giving up leaves the items, or takes the key away. *)
Lemma give_up_spec A e k (r : result ImportError A) k' :
  give_up_key KeychainStore accounts e k = (r, k') →
  (∃ e', r = Err e') ∧ (kc_items k' = kc_items k ∨ kc_items k' = delete (ka_dashscope accounts) (kc_items k)).
Proof.
  unfold give_up_key, sbind, stored, sret. cbn [st_delete KeychainStore]. unfold keychain_delete.
  destruct (keychain_change _ k) as [r1 k1] eqn:Ec. apply keychain_change_spec in Ec.
  destruct r1; intros [= <- <-]; (split; [by eexists|]); tauto.
Qed.

(** From the new item on, in a keychain without the marker *)
Lemma verify_stored_spec key k r k' :
  kc_items k !! ka_dashscope accounts = Some key → kc_items k !! ka_dashscope_verified accounts = None →
  verify_stored KeychainStore KeychainStore verify accounts k = (r, k') →
  others_kept (kc_items k) (kc_items k') ∧
  match r with
  | Ok receipt => verify key = Ok receipt ∧ kc_items k' !! ka_dashscope accounts = Some key
      ∧ kc_items k' !! ka_dashscope_verified accounts = Some VERIFIED_MARKER
  | Err _ => installed (kc_items k') → ∃ receipt, verify key = Ok receipt ∧ kc_items k' !! ka_dashscope accounts = Some key
  end.
Proof.
  intros Hk Hm. unfold verify_stored. cbn [st_get st_create KeychainStore].
  assert (∀ A e k1 (r1 : result ImportError A) k2, kc_items k1 = kc_items k → give_up_key KeychainStore accounts e k1 = (r1, k2) →
    others_kept (kc_items k) (kc_items k2) ∧ (∃ e', r1 = Err e') ∧ ¬ installed (kc_items k2)) as Hgive.
  { intros A e k1 r1 k2 E Hg. apply give_up_spec in Hg as [Hr [Hi|Hi]]; rewrite Hi, E.
    - split_and!; [by intros ?|done|]. intros [_ Hx]. congruence.
    - split_and!; [apply others_delete; auto|done|]. intros [Hx _]. rewrite lookup_delete_eq in Hx. by destruct Hx. }
  destruct (keychain_get _ k) as [r1 k1] eqn:Eg. apply keychain_get_spec in Eg as [Hi Hv].
  destruct r1 as [[key'|]|e]; [|intros Hg; apply (Hgive _ _ _ _ _ Hi) in Hg as (? & [e' ->] & ?); tauto..].
  specialize (Hv _ eq_refl). rewrite Hk in Hv. injection Hv as ->.
  destruct (verify key) as [receipt|e] eqn:Ev; [|intros Hg; apply (Hgive _ _ _ _ _ Hi) in Hg as (? & [e' ->] & ?); tauto].
  destruct (keychain_create _ _ k1) as [r2 k2] eqn:Ec. apply keychain_create_spec in Ec. rewrite Hi in Ec.
  destruct Ec as [[Hi2 [e ->]]|[_ Hi2]].
  { intros Hg. apply (Hgive _ _ _ _ _ Hi2) in Hg as (? & [e' ->] & ?). tauto. }
  assert (others_kept (kc_items k) (kc_items k2)) as Ho by (rewrite Hi2; apply others_insert; auto).
  assert (kc_items k2 !! ka_dashscope accounts = Some key) as Hkey
    by (rewrite Hi2, lookup_insert_ne; [done|apply accounts_apart]).
  destruct r2 as [u|e].
  - intros [= <- <-]. split; [done|]. split_and!; [done|done|]. rewrite Hi2. apply lookup_insert_eq.
  - intros Hg. apply give_up_spec in Hg as [[e' ->] [Hi3|Hi3]]; rewrite Hi3.
    + split; [done|]. eauto.
    + split; [eapply others_trans; [exact Ho|apply others_delete; auto]|].
      intros [Hx _]. rewrite lookup_delete_eq in Hx. by destruct Hx.
Qed.

Lemma delete_if_spec (b : bool) a k r k' :
  (if b then stored (st_delete KeychainStore a) else sret (Ok tt)) k = (r, k') →
  (r = Ok tt ∧ kc_items k' = if b then delete a (kc_items k) else kc_items k)
  ∨ ∃ e, r = Err e ∧ (kc_items k' = kc_items k ∨ kc_items k' = delete a (kc_items k)).
Proof.
  destruct b; [|unfold sret; intros [= <- <-]; by left]. unfold stored. cbn [st_delete KeychainStore]. unfold keychain_delete.
  destruct (keychain_change _ k) as [r1 k1] eqn:Ec. apply keychain_change_spec in Ec.
  destruct r1 as [[]|e]; intros [= <- <-].
  - destruct Ec as [?|[? ?]]; [by left|done].
  - right. exists (StoreFailed e). tauto.
Qed.

(** Without the marker, or without the key, nothing is installed. *)
Lemma not_installed_unmarked items : installed (delete (ka_dashscope_verified accounts) items) → False.
Proof. intros [_ Hx]. by rewrite lookup_delete_eq in Hx. Qed.

(** An import installs the key that it verified, whatever fails on the way.  A receipt
    means that the source's key was accepted and is installed with its marker.  After an
    error, a key that counts as installed is the old one, untouched, or the source's key,
    which the service had accepted.  No other item of the keychain changes.  The keychain may
    fail at every call, and a call that fails may have had its effect; a crash is a run in
    which every call is refused from some point on. *)
Theorem import_installs_verified_only source k r k' :
  import_dashscope_key KeychainStore KeychainStore verify accounts source k = (r, k') →
  others_kept (kc_items k) (kc_items k') ∧
  match r with
  | Ok receipt => ∃ key, load_target_secret source = Ok key ∧ verify key = Ok receipt
      ∧ kc_items k' !! ka_dashscope accounts = Some key ∧ installed (kc_items k')
  | Err e => installed (kc_items k') →
      kc_items k' = kc_items k
      ∨ ∃ key receipt, load_target_secret source = Ok key ∧ verify key = Ok receipt
          ∧ kc_items k' !! ka_dashscope accounts = Some key
  end.
Proof.
  unfold import_dashscope_key, sbind. unfold stored at 1. change (st_exists KeychainStore) with (exists_by_get keychain_get).
  destruct (exists_by_get _ _ k) as [r1 k1] eqn:E1. apply keychain_exists_spec in E1 as [Hi1 Hb].
  destruct r1 as [active|e]; [|intros [= <- <-]; rewrite Hi1; split; [by intros ?|by left]].
  specialize (Hb _ eq_refl). unfold stored at 1. change (st_get KeychainStore) with keychain_get.
  destruct (keychain_get _ k1) as [r2 k2] eqn:E2. apply keychain_get_spec in E2 as [Hi2 Hm]. rewrite Hi1 in Hi2, Hm.
  destruct r2 as [marker|e]; [|intros [= <- <-]; rewrite Hi2; split; [by intros ?|by left]].
  specialize (Hm _ eq_refl). destruct (active && _) eqn:Eguard; [intros [= <- <-]; rewrite Hi2; split; [by intros ?|by left]|].
  destruct ((if bool_decide (is_Some marker) then stored (st_delete KeychainStore (ka_dashscope_verified accounts)) else sret (Ok tt)) k2) as [r3 k3] eqn:E3. apply delete_if_spec in E3.
  rewrite Hi2 in E3. destruct E3 as [[-> Hi3]|(e & -> & Hi3)].
  2: { intros [= <- <-]. destruct Hi3 as [->| ->]; [split; [by intros ?|by left]|].
       split; [apply others_delete; auto|]. by intros ?%not_installed_unmarked. }
  assert (kc_items k3 = delete (ka_dashscope_verified accounts) (kc_items k)) as Hi3'.
  { rewrite Hi3. case_bool_decide as Hs; [done|]. symmetry. apply delete_id. rewrite <- Hm. by apply eq_None_not_Some. }
  clear Hi3. destruct ((if active then stored (st_delete KeychainStore (ka_dashscope accounts)) else sret (Ok tt)) k3) as [r4 k4] eqn:E4. apply delete_if_spec in E4. rewrite Hi3' in E4.
  assert (others_kept (kc_items k) (delete (ka_dashscope_verified accounts) (kc_items k))) as Ho3 by (apply others_delete; auto).
  destruct E4 as [[-> Hi4]|(e & -> & Hi4)].
  2: { intros [= <- <-]. destruct Hi4 as [->| ->].
       - split; [done|]. by intros ?%not_installed_unmarked.
       - split; [eapply others_trans; [exact Ho3|apply others_delete; auto]|].
         rewrite delete_delete. by intros ?%not_installed_unmarked. }
  assert (others_kept (kc_items k) (kc_items k4)) as Ho4.
  { rewrite Hi4. destruct active; [eapply others_trans; [exact Ho3|apply others_delete; auto]|done]. }
  assert (kc_items k4 !! ka_dashscope_verified accounts = None) as Hm4.
  { rewrite Hi4. destruct active; [rewrite delete_delete|]; apply lookup_delete_eq. }
  assert (¬ installed (kc_items k4)) as Hn4 by (intros [_ Hx]; congruence).
  unfold sret. destruct (load_target_secret source) as [key|e] eqn:El; [|intros [= <- <-]; tauto].
  unfold stored. change (st_create KeychainStore) with keychain_create.
  destruct (keychain_create _ key k4) as [r5 k5] eqn:E5. apply keychain_create_spec in E5.
  destruct E5 as [[Hi5 [e ->]]|[_ Hi5]]; [intros [= <- <-]; by rewrite Hi5|].
  assert (kc_items k5 !! ka_dashscope_verified accounts = None) as Hm5
    by (rewrite Hi5, lookup_insert_ne; [done|apply not_eq_sym, accounts_apart]).
  assert (others_kept (kc_items k) (kc_items k5)) as Ho5
    by (rewrite Hi5; eapply others_trans; [exact Ho4|apply others_insert; auto]).
  destruct r5 as [u|e]; [|intros [= <- <-]; split; [done|]; intros [_ Hx]; congruence].
  intros Hv. apply (verify_stored_spec key) in Hv as [Ho6 Hv]; [|rewrite Hi5; apply lookup_insert_eq|done].
  split; [by eapply others_trans|]. destruct r as [receipt|e].
  - destruct Hv as (? & Hk & ?). exists key. split_and!; [done..|]. split; [by eexists|done].
  - intros Hin. destruct (Hv Hin) as (receipt & ? & ?). right. by exists key, receipt.
Qed.

End keychain.

(** ** The file of the cache's key *)

(** What the path keeps: the key of a file that a reading accepts. *)
Definition local_kept (s : LocalSecret) : option bytes :=
  f ← ls_file s;
  if negb (lf_regular f) || negb (lf_private f) || (65 <? blen (lf_content f)) then None
  else match decode_local (lf_content f) with Ok key => Some key | Err _ => None end.

Lemma local_step_file s : ls_file (local_step s).2 = ls_file s.
Proof. unfold local_step. by destruct (ls_steps s). Qed.

Lemma trim_end_newlines_hex s : Forall hex_char s → trim_end_newlines (s ++ [10]) = s.
Proof.
  intros Hs. unfold trim_end_newlines. rewrite rev_app_distr. cbn.
  rewrite skip_while_id; [by rewrite rev_involutive|].
  assert (Forall hex_char (rev s)) as Hr by (by apply Forall_rev). destruct Hr as [|c s' Hc _]; [done|]. unfold hex_char in Hc. cbn. lia.
Qed.

(** A key that is written reads back. *)
Lemma decode_local_encode key :
  length key = 32%nat → bytes_ok key → decode_local (encode_hex key ++ [10]) = Ok key.
Proof.
  intros Hl Hb. pose proof (hex_chars _ Hb) as Hc. unfold decode_local. rewrite hex_utf8, trim_end_newlines_hex by done.
  rewrite length_encode_hex, Hl. cbn. by rewrite decode_hex_pairs_encode.
Qed.

Lemma local_get_spec account s r s' :
  local_get account account s = (r, s') →
  ls_file s' = ls_file s ∧ ∀ v, r = Ok v → v = local_kept s ∧ (v = None → ls_file s = None).
Proof.
  unfold local_get, local_kept. rewrite bool_decide_true by done. cbn [negb]. pose proof (local_step_file s) as E.
  destruct (local_step s) as [[] s1]; cbn in E; [|by intros [= <- <-]..].
  rewrite <- E. destruct (ls_file s1) as [f|] eqn:Ef; [|intros [= <- <-]; split; [done|]; by intros v [= <-]]. cbn [mbind option_bind].
  destruct (_ || _); [by intros [= <- <-]|]. pose proof (local_step_file s1) as E1.
  destruct (local_step s1) as [[] s2]; cbn in E1; intros [= <- <-]; (split; [congruence|]); [|done..].
  intros v Hv. destruct (decode_local (lf_content f)); [|done]. by injection Hv as <-.
Qed.

(** The private file is such a store as the cache relies on. *)
#[export] Instance local_keeps_key accounts : KeepsKey (LocalCacheSecretStore accounts) (ka_cache_key accounts).
Proof.
  refine {| kept_key := local_kept |}.
  - intros s r s' Hg. apply local_get_spec in Hg as [Hf Hv]. split; [unfold local_kept; by rewrite Hf|]. intros v E. by apply Hv.
  - intros key s r s' Hl Hb Hc. cbn [st_create LocalCacheSecretStore] in Hc. unfold local_create in Hc.
    rewrite bool_decide_true in Hc by done. rewrite Hl in Hc. cbn [negb orb Nat.eqb CACHE_KEY_BYTES] in Hc.
    destruct (local_get _ _ s) as [r1 s1] eqn:Eg. apply local_get_spec in Eg as [Hf Hv].
    assert (local_kept s1 = local_kept s) as Hsame by (unfold local_kept; by rewrite Hf).
    destruct r1 as [[v|]|e]; [injection Hc as <- <-; left; eauto| |injection Hc as <- <-; left; eauto].
    destruct (Hv _ eq_refl) as [Hnone Hfile]. specialize (Hfile eq_refl).
    unfold replace_local in Hc. pose proof (local_step_file s1) as E1.
    assert (local_kept (mk_local_secret (Some (mk_local_file true true (encode_hex key ++ [10]))) (ls_steps (local_step s1).2)) = Some key) as Hput.
    { unfold local_kept. cbn [ls_file mbind option_bind lf_regular lf_private lf_content negb orb].
      assert (blen (encode_hex key ++ [10]) = 65) as -> by (unfold blen; rewrite length_app, length_encode_hex, Hl; done).
      cbn. by rewrite decode_local_encode. }
    destruct (local_step s1) as [[] s2]; cbn in E1, Hput; injection Hc as <- <-; [right|left|right]; split; try done; [|by eexists].
    unfold local_kept. by rewrite E1, Hf.
Defined.

(** ** On small inputs *)

Section demo.
#[local] Existing Instance demo_externals.

Definition demo_service (key : bytes) : result VerificationError VerificationReceipt :=
  if has_prefix (ascii_bytes "sk-") key
  then Ok (mk_verification (ascii_bytes "event_1") (ascii_bytes "cn-beijing") (ascii_bytes "model") (ascii_bytes "session.created") (ascii_bytes "direct"))
  else Err Rejected.
Definition demo_source (content : string) : Source :=
  Opened (mk_source_file true true 420 true (blen (ascii_bytes content)) (Some (ascii_bytes content)) true).
Definition demo_key_source : Source := demo_source "export DASHSCOPE_API_KEY = 'sk-0123456789abcdef'".
Definition demo_env_dir : EnvDir :=
  mk_env_dir (ascii_bytes ".env") true true true
    [mk_dir_entry (Some (ascii_bytes "..env.u.tmp")) (Some (true, 0)) true; mk_dir_entry (Some (ascii_bytes "notes")) None false]
    (written (env_line (ascii_bytes "sk-old-key-old-key-old"))).
Definition demo_configured := configure_dashscope_env demo_service Done true demo_key_source demo_env_dir.

Lemma configured_key_is_verified_witness :
  ∃ receipt, demo_configured.1 = Ok receipt
    ∧ (st_get (DashScopeEnvStore (for_installation [])) (ka_dashscope (for_installation [])) (ed_target demo_configured.2)).1
      = Ok (Some (ascii_bytes "sk-0123456789abcdef")).
Proof.
  destruct demo_configured as [r d'] eqn:E.
  assert (r = demo_configured.1) as Er by by rewrite E. assert (d' = demo_configured.2) as Ed by by rewrite E.
  pose proof (configured_key_is_verified [] _ _ _ _ _ _ _ E) as [Hc _].
  vm_compute in Er. subst r. destruct Hc as (key & Hl & _ & _ & Hg). eexists. split; [reflexivity|]. cbn [snd]. rewrite Hg.
  vm_compute in Hl. by injection Hl as <-.
Defined.

(** The same key with a number sign in it: the old key is gone, and the new one cannot be read. *)
Lemma hash_key_destroys_the_old_one :
  let out := configure_dashscope_env demo_service Done true (demo_source "DASHSCOPE_API_KEY='sk-0123456789#bcdef'") demo_env_dir in
  (dashscope_key_is_installed (DashScopeEnvStore (for_installation [])) (for_installation []) (ed_target demo_env_dir)).1 = Ok true
  ∧ out.1 = Err InvalidTargetVariable
  ∧ (dashscope_key_is_installed (DashScopeEnvStore (for_installation [])) (for_installation []) (ed_target out.2)).1 = Err Backend.
Proof. vm_compute. auto. Qed.

(** An old key without its marker *)
Definition demo_keychain : Keychain :=
  mk_keychain {[ka_dashscope (for_installation []) := ascii_bytes "sk-old"]} [].
Definition demo_import := import_dashscope_key KeychainStore KeychainStore demo_service (for_installation []) demo_key_source.

Lemma import_installs_verified_only_witness :
  ∃ receipt k', demo_import demo_keychain = (Ok receipt, k')
    ∧ kc_items k' !! ka_dashscope (for_installation []) = Some (ascii_bytes "sk-0123456789abcdef").
Proof.
  destruct (demo_import demo_keychain) as [r k'] eqn:E.
  assert (r = (demo_import demo_keychain).1) as Er by by rewrite E.
  pose proof (import_installs_verified_only _ _ _ _ _ _ E) as [_ Hc]. vm_compute in Er. subst r.
  destruct Hc as (key & Hl & _ & Hk & _). do 2 eexists. split; [reflexivity|]. rewrite Hk. vm_compute in Hl. by injection Hl as <-.
Defined.

(** The keychain marks the new key but says that it could not: the import takes it back. *)
Example import_taken_back :
  let out := demo_import (mk_keychain (kc_items demo_keychain) [Done; Done; Done; Done; Done; DoneButFailed]) in
  out.1 = Err (StoreFailed Backend) ∧ kc_items out.2 !! ka_dashscope (for_installation []) = None.
Proof. vm_compute. auto. Qed.

End demo.
