(* ===== verification/SparkProps.v ===== *)
(** * The summary model's process is watched, and its work checked

    [audit_exact] says what a workspace must look like to pass the audit, without the order
    in which the source looks at it; [spark_run_ends] says what is left of the processes of a
    run and what it may wait for, and [spark_summary_is_checked] what its summary went
    through. *)

From stdpp Require Import gmap.
From S2P Require Import Prelude Bytes StrOps CacheRef Sql StoreTypes StoreJobs StoreRollout StoreSummary StoreProps.
From S2P Require Import Redact TurnPack RedactProps Summary SparkRunner.

(** ** Isolated workspaces *)

Record private_dir (euid mode : Z) (identity : FileIdentity) (m : Metadata) : Prop := {
  pd_kind : mt_kind m = Directory;
  pd_owner : mt_uid m = euid;
  pd_mode : mt_mode m = mode;
  pd_same : mt_device m = id_device identity ∧ mt_inode m = id_inode identity;
}.

Lemma private_dir_iff euid mode identity m :
  private_directory_matches euid mode identity m = true ↔ private_dir euid mode identity m.
Proof.
  unfold private_directory_matches, is_dir, identity_matches. split.
  - intros H. bool_prop. by split.
  - intros [H1 H2 H3 [H4 H5]]. rewrite bool_decide_true by done. rewrite H2, H3, H4, H5, !Z.eqb_refl. done.
Qed.

(** A child of the scratch directory, its name and its size. *)
Inductive alias_entry (euid : Z) (alias_target : text) : option Node → text * Z → Prop :=
| alias_lock n m :
    nd_name n = Some (ascii_bytes ".lock") → nd_metadata n = Some m → mt_uid m = euid → mt_nlink m = 1 →
    mt_kind m = RegularFile → mt_mode m = MODE_644 → mt_len m = 0 →
    alias_entry euid alias_target (Some n) (ascii_bytes ".lock", 0)
| alias_link n m name :
    nd_name n = Some name → name ∈ ascii_bytes <$> ["apply_patch"; "applypatch"; "codex-execve-wrapper"]%string →
    nd_metadata n = Some m → mt_uid m = euid → mt_nlink m = 1 → mt_kind m = Symlink → mt_len m <= 4096 →
    nd_link n = Some alias_target → alias_entry euid alias_target (Some n) (name, mt_len m).

(** The scratch directory of the runtime: nothing, or one directory of aliases. *)
Inductive scratch (euid : Z) (alias_target : text) (arg0 : Node) : Z → Z → Prop :=
| scratch_empty : nd_children arg0 = Some [] → scratch euid alias_target arg0 0 0
| scratch_aliases entry suffix m kids items :
    nd_children arg0 = Some [Some entry] → nd_name entry = Some (ascii_bytes "codex-arg0" ++ suffix) →
    length suffix = 6%nat → Forall (λ c, is_ascii_alphanumeric c = true) suffix →
    nd_metadata entry = Some m → mt_kind m = Directory → mt_uid m = euid → mt_mode m = MODE_755 →
    nd_children entry = Some kids → Forall2 (alias_entry euid alias_target) kids items → NoDup items.*1 →
    scratch euid alias_target arg0 (1 + Z.of_nat (length items)) (foldr Z.add 0 items.*2).

Section isolation.
Context (self : SparkWorkspaceMonitor) (euid : Z).

(** A file that may be in the root. *)
Inductive allowed_file (name : text) (m : Metadata) : Prop :=
| allowed_auth identity :
    name = ascii_bytes "auth.json" → wm_auth_identity self = Some identity → identity_matches identity m = true →
    mt_mode m = MODE_400 → mt_len m ≠ 0 → mt_len m <= MAX_AUTH_BYTES → allowed_file name m
| allowed_marker :
    name = ascii_bytes ".sandbox_migration" → identity_matches (wm_sandbox_marker_identity self) m = true →
    mt_mode m = MODE_400 → mt_len m = 3 → allowed_file name m
| allowed_runtime limit :
    runtime_file_limit name = Some limit → Z.land (mt_mode m) MODE_133 = 0 → mt_len m <= limit → allowed_file name m.

(** An entry of the root: how many nodes and bytes it counts. *)
Inductive allowed_entry : option Node → Z * Z → Prop :=
| allowed_skills n m :
    nd_name n = Some (ascii_bytes "skills") → nd_metadata n = Some m →
    private_dir euid MODE_500 (wm_skills_identity self) m → nd_children n = Some [] → allowed_entry (Some n) (1, 0)
| allowed_tmp n m child m' nodes bytes_ :
    nd_name n = Some (ascii_bytes "tmp") → nd_metadata n = Some m → private_dir euid MODE_500 (wm_tmp_identity self) m →
    nd_children n = Some [Some child] → nd_name child = Some (ascii_bytes "arg0") → nd_metadata child = Some m' →
    private_dir euid MODE_700 (wm_arg0_identity self) m' → scratch euid (wm_alias_target self) child nodes bytes_ →
    allowed_entry (Some n) (2 + nodes, bytes_)
| allowed_regular n m name :
    nd_name n = Some name → nd_metadata n = Some m → mt_kind m = RegularFile → mt_uid m = euid → mt_nlink m = 1 →
    allowed_file name m → allowed_entry (Some n) (1, mt_len m).

End isolation.

(** Nothing but the runtime's own few files, within the limits, and an empty [TMPDIR]. *)
Definition isolated (self : SparkWorkspaceMonitor) (ws : Workspace) (nodes bytes_ : Z) : Prop :=
  (∃ m, ws_root ws = Some m ∧ private_dir (ws_euid ws) MODE_700 (wm_root_identity self) m)
  ∧ (∃ m, ws_process_tmp ws = Some m ∧ private_dir (ws_euid ws) MODE_700 (wm_process_tmp_identity self) m)
  ∧ ws_process_tmp_entries ws = Some []
  ∧ ∃ entries costs, ws_entries ws = Some entries ∧ Forall2 (allowed_entry self (ws_euid ws)) entries costs
      ∧ nodes = 2 + foldr Z.add 0 costs.*1 ∧ bytes_ = foldr Z.add 0 costs.*2
      ∧ nodes <= SPARK_MAX_WORKSPACE_NODES ∧ bytes_ <= SPARK_MAX_WORKSPACE_BYTES.

(** ** The audit accepts isolated workspaces only *)

Lemma of_option_some {E A} (e : E) (o : option A) a : of_option e o = Ok a ↔ o = Some a.
Proof. destruct o; cbn; split; intros H; by simplify_eq. Qed.

Lemma ensure_ok b u : ensure b = Ok u ↔ b = true.
Proof. unfold ensure, unsafe. destruct b, u; naive_solver. Qed.

Ltac open_ok :=
  repeat match goal with
  | H : of_option _ _ = Ok _ |- _ => apply of_option_some in H
  | H : checked_add _ _ _ = Some _ |- _ => apply checked_add_some in H as [-> ?]
  | H : ensure _ = Ok _ |- _ => apply ensure_ok in H
  | H : is_dir _ = true |- _ => apply bool_decide_eq_true_1 in H
  | H : is_file _ = true |- _ => apply bool_decide_eq_true_1 in H
  | H : is_symlink _ = true |- _ => apply bool_decide_eq_true_1 in H
  | H : private_directory_matches _ _ _ _ = true |- _ => apply private_dir_iff in H
  end.
Ltac take_apart H := run_ok H; bool_prop; open_ok; simplify_eq.

Lemma alias_entry_sound euid t child name m (u : unit) :
  nd_name child = Some name → nd_metadata child = Some m → mt_uid m = euid → mt_nlink m = 1 →
  (if bool_decide (name = ascii_bytes ".lock") then ensure (is_file m && (mt_mode m =? MODE_644) && (mt_len m =? 0))
   else if bool_decide (name ∈ ascii_bytes <$> ["apply_patch"; "applypatch"; "codex-execve-wrapper"]%string) then
     if negb (is_symlink m) || (4096 <? mt_len m) then unsafe
     else let? target := of_option UnsafeWorkspace (nd_link child) in ensure (bool_decide (target = t))
   else unsafe) = Ok u →
  alias_entry euid t (Some child) (name, mt_len m).
Proof.
  intros Hn Hm Hu Hl H. case_bool_decide as E1; [|case_bool_decide as E2; [|discriminate H]].
  - open_ok. bool_prop. open_ok. subst name. match goal with Hz : mt_len m = 0 |- _ => rewrite Hz end. by eapply alias_lock.
  - unfold unsafe in H. take_apart H. case_bool_decide; [|done]. eapply alias_link; try done. congruence.
Qed.

Lemma audit_aliases_sound euid t kids seen nodes bytes_ n b :
  audit_aliases euid t kids seen nodes bytes_ = Ok (n, b) →
  ∃ items, Forall2 (alias_entry euid t) kids items ∧ NoDup items.*1 ∧ (∀ x, x ∈ items.*1 → x ∉ seen)
    ∧ n = nodes + Z.of_nat (length items) ∧ b = bytes_ + foldr Z.add 0 items.*2.
Proof.
  revert seen nodes bytes_. induction kids as [|kid kids IH]; intros seen nodes bytes_ H; cbn in H.
  { injection H as <- <-. exists []. split; [constructor|]. split; [constructor|]. split; [|cbn; lia]. by intros x ?%elem_of_nil. }
  unfold unsafe in H. run_ok H. bool_prop. open_ok. subst. rename a into child, a0 into name, a1 into m.
  destruct (IH _ _ _ H) as (items & Hf & Hnd & Hs & -> & ->). exists ((name, mt_len m) :: items).
  split; [constructor; [by eapply alias_entry_sound|done]|]. cbn. split; [|split; [|lia]].
  - constructor; [|done]. intros Hx. apply (Hs name Hx). constructor.
  - intros x [->|Hx]%elem_of_cons; [done|]. intros Hseen. apply (Hs x Hx). by constructor.
Qed.

Lemma scratch_sound euid t arg0 n b : audit_arg0_scratch euid t arg0 = Ok (n, b) → scratch euid t arg0 n b.
Proof.
  unfold audit_arg0_scratch. intros H. apply rbind_ok in H as (kids & Hk & H). apply of_option_some in Hk.
  destruct kids as [|kid more]; [injection H as <- <-; by apply scratch_empty|]. unfold unsafe in H.
  run_ok H. bool_prop. open_ok. subst.
  apply audit_aliases_sound in H as (items & Hf & Hnd & _ & -> & ->).
  match goal with Hx : has_prefix _ ?name = true |- _ => apply has_prefix_drop in Hx end.
  rewrite Z.add_0_l. eapply (scratch_aliases _ _ _ _ (drop 10 a0)); try done; [rewrite Hrun0; f_equal; exact Hguard0|by apply Nat.eqb_eq|].
  apply Forall_forall. intros c Hc. by apply (proj1 (forallb_forall _ _) H4), list_elem_of_In.
Qed.

Section sound.
Context (self : SparkWorkspaceMonitor) (euid : Z).

Lemma add_nodes_ok nodes n nodes' :
  add_nodes nodes n = Ok nodes' ↔ nodes' = nodes + n ∧ nodes + n <= SPARK_MAX_WORKSPACE_NODES.
Proof.
  unfold add_nodes, unsafe. split.
  - intros H. run_ok H. open_ok. subst. bool_prop. lia.
  - intros [-> Hl]. unfold checked_add. unfold SPARK_MAX_WORKSPACE_NODES, u64_max in *.
    replace (nodes + n <=? _) with true by lia. cbn [of_option rbind]. by replace (32 <? nodes + n) with false by lia.
Qed.

Lemma add_bytes_ok bytes_ n bytes' :
  add_bytes bytes_ n = Ok bytes' ↔ bytes' = bytes_ + n ∧ bytes_ + n <= SPARK_MAX_WORKSPACE_BYTES.
Proof.
  unfold add_bytes, unsafe. split.
  - intros H. run_ok H. open_ok. subst. bool_prop. lia.
  - intros [-> Hl]. unfold checked_add. unfold SPARK_MAX_WORKSPACE_BYTES, u64_max in *.
    replace (bytes_ + n <=? 18446744073709551615) with true by lia. cbn [of_option rbind].
    by replace (bytes_ + n <=? 8 * 1024 * 1024) with true by lia.
Qed.

Lemma file_limit_sound name m failed limit :
  file_limit self name m failed = Ok limit → mt_len m <= limit → allowed_file self name m.
Proof.
  unfold file_limit, unsafe. intros H Hl. case_bool_decide as E1; [|case_bool_decide as E2].
  - run_ok H. bool_prop. destruct (wm_auth_identity self) as [identity|] eqn:Ei; [|done]. eapply allowed_auth; try done.
  - run_ok H. bool_prop. by apply allowed_marker.
  - run_ok H. bool_prop. open_ok. by eapply allowed_runtime.
Qed.

Lemma directory_sound name m n nodes bytes_ nodes' bytes' :
  nd_name n = Some name → nd_metadata n = Some m →
  audit_directory self euid name m n nodes bytes_ = Ok (nodes', bytes') →
  ∃ k b, allowed_entry self euid (Some n) (k, b) ∧ nodes' = nodes - 1 + k ∧ bytes' = bytes_ + b
    ∧ (nodes <= SPARK_MAX_WORKSPACE_NODES → nodes' <= SPARK_MAX_WORKSPACE_NODES)
    ∧ (bytes_ <= SPARK_MAX_WORKSPACE_BYTES → bytes' <= SPARK_MAX_WORKSPACE_BYTES).
Proof.
  unfold audit_directory, unsafe. intros Hn Hm H. case_bool_decide as E1; [|case_bool_decide as E2; [|done]]; subst name.
  - run_ok H. bool_prop. open_ok. simplify_eq. exists 1, 0. split; [by eapply allowed_skills|]. lia.
  - run_ok H. open_ok. destruct a as [|[child|] more]; try discriminate H. run_ok H. destruct a as [k b]. bool_prop.
    destruct (nd_metadata child) as [m'|] eqn:Em; [|done]. open_ok. subst.
    match goal with Hx : audit_arg0_scratch _ _ _ = _ |- _ => apply scratch_sound in Hx end.
    match goal with Hx : add_bytes _ _ = _ |- _ => apply add_bytes_ok in Hx as [-> Hx] end. cbn in *.
    exists (2 + k), b. split; [by eapply allowed_tmp|]. simplify_eq. lia.
Qed.

Lemma entry_sound entry nodes bytes_ nodes' bytes' :
  audit_entry self euid entry nodes bytes_ = Ok (nodes', bytes') →
  ∃ k b, allowed_entry self euid entry (k, b) ∧ nodes' = nodes + k ∧ bytes' = bytes_ + b
    ∧ nodes' <= SPARK_MAX_WORKSPACE_NODES ∧ (bytes_ <= SPARK_MAX_WORKSPACE_BYTES → bytes' <= SPARK_MAX_WORKSPACE_BYTES).
Proof.
  unfold audit_entry, unsafe. intros H. run_ok H. open_ok. subst entry.
  match goal with Hx : add_nodes _ _ = _ |- _ => apply add_nodes_ok in Hx as [-> Hn] end.
  destruct (is_dir a1) eqn:Ed.
  - eapply directory_sound in H as (k & b & Ha & -> & -> & Hk & Hb); [|done..]. exists k, b. split; [done|]. split_and!; [lia|lia|by apply Hk|done].
  - clear Hguard0. run_ok H. match goal with Hx : add_bytes _ _ = _ |- _ => apply add_bytes_ok in Hx as [-> Hb] end.
    bool_prop. open_ok. match goal with Hx : file_limit _ _ _ _ = _ |- _ => eapply file_limit_sound in Hx; [|eassumption] end.
    subst. exists 1, (mt_len a1). split; [by eapply allowed_regular|]. lia.
Qed.

Lemma entries_sound entries nodes bytes_ nodes' bytes' :
  audit_entries self euid entries nodes bytes_ = Ok (nodes', bytes') →
  ∃ costs, Forall2 (allowed_entry self euid) entries costs
    ∧ nodes' = nodes + foldr Z.add 0 costs.*1 ∧ bytes' = bytes_ + foldr Z.add 0 costs.*2
    ∧ (bytes_ <= SPARK_MAX_WORKSPACE_BYTES → bytes' <= SPARK_MAX_WORKSPACE_BYTES).
Proof.
  revert nodes bytes_. induction entries as [|entry entries IH]; intros nodes bytes_ H; cbn in H.
  { injection H as <- <-. exists []. split; [constructor|]. cbn. lia. }
  run_ok H. destruct a as [n1 b1]. apply entry_sound in Hrun as (k & b & He & -> & -> & _ & Hb).
  destruct (IH _ _ H) as (costs & Hf & -> & -> & Hb'). exists ((k, b) :: costs). split; [by constructor|]. cbn.
  split_and!; [lia|lia|]. cbn in Hb'. intros Hle. specialize (Hb' (Hb Hle)). lia.
Qed.
End sound.

Lemma audit_sound self ws nodes bytes_ : audit self ws = Ok (nodes, bytes_) → isolated self ws nodes bytes_.
Proof.
  unfold audit, unsafe. intros H. run_ok H. open_ok. destruct a1 as [n b]. apply entries_sound in Hrun1 as (costs & Hf & -> & -> & Hb).
  match goal with Hx : add_nodes _ _ = _ |- _ => apply add_nodes_ok in Hx as [-> Hn] end. bool_prop. open_ok.
  unfold isolated. cbn in *. split; [eauto|]. split; [eauto|]. split; [congruence|].
  exists a0, costs. subst. split_and!; try done; try lia. apply Hb. unfold SPARK_MAX_WORKSPACE_BYTES. lia.
Qed.

(** ** It accepts all of them *)

Lemma mt_len_nonneg m : 0 <= mt_len m.
Proof. apply N2Z.is_nonneg. Qed.

Lemma alias_entry_size euid t kid item : alias_entry euid t kid item → 0 <= item.2.
Proof. intros [n m|n m name]; [done|apply mt_len_nonneg]. Qed.

Lemma aliases_size euid t kids items : Forall2 (alias_entry euid t) kids items → 0 <= foldr Z.add 0 items.*2.
Proof. induction 1 as [|kid item kids items H _ IH]; [done|]. apply alias_entry_size in H. cbn. lia. Qed.

Lemma scratch_sizes euid t arg0 n b : scratch euid t arg0 n b → 0 <= n ∧ 0 <= b.
Proof. intros [|]; [done|]. split; [lia|by eapply aliases_size]. Qed.

Lemma allowed_sizes self euid entry c : allowed_entry self euid entry c → 1 <= c.1 ∧ 0 <= c.2.
Proof.
  intros [n m|n m child m' k b ? ? ? ? ? ? ? Hs|n m name]; cbn; [done| |].
  - apply scratch_sizes in Hs. lia.
  - split; [done|apply mt_len_nonneg].
Qed.

Lemma checked_add_fits max a b : a + b <= max → checked_add max a b = Some (a + b).
Proof. intros H. by apply checked_add_some. Qed.

Lemma audit_aliases_complete euid t kids items seen nodes bytes_ :
  Forall2 (alias_entry euid t) kids items → NoDup items.*1 → (∀ x, x ∈ items.*1 → x ∉ seen) →
  nodes + Z.of_nat (length items) <= u64_max → bytes_ + foldr Z.add 0 items.*2 <= u64_max →
  audit_aliases euid t kids seen nodes bytes_ = Ok (nodes + Z.of_nat (length items), bytes_ + foldr Z.add 0 items.*2).
Proof.
  intros Hf. revert seen nodes bytes_. induction Hf as [|kid item kids items He Hf IH]; intros seen nodes bytes_ Hnd Hs Hn Hb.
  { cbn. do 2 f_equal; lia. }
  pose proof (alias_entry_size _ _ _ _ He). pose proof (aliases_size _ _ _ _ Hf). cbn in Hnd, Hs, Hb. apply NoDup_cons in Hnd as [Hnot Hnd].
  assert (item.1 ∉ seen) as Hseen by (apply Hs; constructor).
  assert (audit_aliases euid t (kid :: kids) seen nodes bytes_ = audit_aliases euid t kids (item.1 :: seen) (nodes + 1) (bytes_ + item.2)) as ->.
  { destruct He as [n m H1 H2 H3 H4 H5 H6 H7|n m name H1 Hname H2 H3 H4 H5 H6 H7]; cbn [audit_aliases of_option rbind fst snd] in *;
      rewrite H1; cbn [of_option rbind]; rewrite bool_decide_false, H2 by done; cbn [of_option rbind]; rewrite H3, H4, !Z.eqb_refl; cbn [negb orb].
    - rewrite bool_decide_true by done. unfold is_file. rewrite bool_decide_true by done. rewrite H6, H7, !Z.eqb_refl. cbn [andb ensure rbind].
      rewrite !checked_add_fits by (cbn in *; lia). done.
    - rewrite bool_decide_false by (intros ->; cbv in Hname; repeat (apply elem_of_cons in Hname as [?|Hname]; [done|]); by apply elem_of_nil in Hname).
      rewrite bool_decide_true by done. unfold is_symlink. rewrite bool_decide_true by done. replace (4096 <? mt_len m) with false by lia. cbn [negb orb].
      rewrite H7. cbn [of_option rbind]. rewrite bool_decide_true by done. cbn [ensure rbind].
      rewrite !checked_add_fits by (cbn in *; lia). done. }
  rewrite IH; [cbn; do 2 f_equal; lia|done| |cbn in *; lia|cbn in *; lia].
  intros x Hx [->|Hx']%elem_of_cons; [done|]. apply (Hs x); [by constructor|done].
Qed.

Lemma scratch_complete euid t arg0 n b :
  scratch euid t arg0 n b → n <= u64_max → b <= u64_max → audit_arg0_scratch euid t arg0 = Ok (n, b).
Proof.
  unfold audit_arg0_scratch. intros Hs Hn Hb. destruct Hs as [Hk|entry suffix m kids items Hk Hname Hl Ha Hm H1 H2 H3 Hc Hf Hnd].
  { by rewrite Hk. }
  rewrite Hk. cbn [of_option rbind]. rewrite bool_decide_true by done. cbn [negb]. rewrite Hname. cbn [of_option rbind].
  rewrite has_prefix_app. cbn [negb]. change (drop 10 (ascii_bytes "codex-arg0" ++ suffix)) with suffix.
  rewrite Hl. cbn [Nat.eqb negb orb]. replace (forallb is_ascii_alphanumeric suffix) with true
    by (symmetry; apply forallb_forall; intros c Hc'; rewrite Forall_forall in Ha; by apply Ha, list_elem_of_In).
  cbn [negb]. rewrite Hm. cbn [of_option rbind]. unfold is_dir. rewrite bool_decide_true, H2, H3, !Z.eqb_refl by done. cbn [negb orb].
  rewrite Hc. cbn [of_option rbind]. rewrite (audit_aliases_complete _ _ _ items); try done; try lia. by intros x _ ?%elem_of_nil.
Qed.

Section complete.
Context (self : SparkWorkspaceMonitor) (euid : Z).

Lemma file_limit_complete name m failed :
  allowed_file self name m → ∃ limit, file_limit self name m failed = Ok limit ∧ mt_len m <= limit.
Proof.
  unfold file_limit. intros [identity -> Hi Hm Hmode Hne Hl| -> Hm Hmode Hl|limit Hr Hmode Hl].
  - rewrite bool_decide_true, Hi, Hm, Hmode, Z.eqb_refl by done. cbn [negb orb].
    replace (mt_len m =? 0) with false by lia. replace (MAX_AUTH_BYTES <? mt_len m) with false by lia. eauto.
  - rewrite bool_decide_false, bool_decide_true, Hm, Hmode, Hl, !Z.eqb_refl by done. cbn. exists 3. split; [done|lia].
  - assert (name ≠ ascii_bytes "auth.json" ∧ name ≠ ascii_bytes ".sandbox_migration") as [N1 N2]
      by (split; intros ->; by vm_compute in Hr).
    rewrite !bool_decide_false, Hmode, Hr by done. cbn. eauto.
Qed.

Lemma entry_complete entry k b nodes bytes_ :
  allowed_entry self euid entry (k, b) → 0 <= nodes → nodes + k <= SPARK_MAX_WORKSPACE_NODES → 0 <= bytes_ → bytes_ + b <= SPARK_MAX_WORKSPACE_BYTES →
  audit_entry self euid entry nodes bytes_ = Ok (nodes + k, bytes_ + b).
Proof.
  intros He Hn0 Hn Hb0 Hb. pose proof (allowed_sizes _ _ _ _ He) as [Hk Hb1]. cbn in Hk, Hb1. unfold audit_entry.
  assert (add_nodes nodes 1 = Ok (nodes + 1)) as Hadd by (apply add_nodes_ok; lia).
  inversion He as [n m Hname Hm Hd Hc|n m child m' nodes' bytes' Hname Hm Hd Hc Hcn Hcm Hcd Hs|n m name Hname Hm H1 H2 H3 Hf]; subst; clear He;
    cbn [of_option rbind]; rewrite Hname; cbn [of_option rbind]; rewrite Hm; cbn [of_option rbind]; rewrite Hadd; cbn [rbind].
  - rewrite (pd_owner _ _ _ _ Hd), Z.eqb_refl. cbn [negb]. rewrite bool_decide_false by done. cbn [andb]. unfold is_dir.
    rewrite bool_decide_true by apply Hd. unfold audit_directory. rewrite bool_decide_true by done.
    rewrite (proj2 (private_dir_iff _ _ _ _) Hd). cbn [negb]. rewrite Hc. cbn [of_option rbind]. rewrite bool_decide_true by done. do 2 f_equal; lia.
  - apply scratch_sizes in Hs as Hsz. rewrite (pd_owner _ _ _ _ Hd), Z.eqb_refl. cbn [negb]. rewrite bool_decide_false by done. cbn [andb]. unfold is_dir.
    rewrite bool_decide_true by apply Hd. unfold audit_directory. rewrite bool_decide_false, bool_decide_true by done.
    rewrite (proj2 (private_dir_iff _ _ _ _) Hd). cbn [negb]. rewrite Hc. cbn [of_option rbind]. rewrite bool_decide_true, bool_decide_true by done.
    rewrite Hcm, (proj2 (private_dir_iff _ _ _ _) Hcd). cbn [negb orb].
    unfold SPARK_MAX_WORKSPACE_NODES, SPARK_MAX_WORKSPACE_BYTES in *.
    rewrite (scratch_complete _ _ _ _ _ Hs) by (unfold u64_max; lia). cbn [rbind fst snd].
    rewrite checked_add_fits by (unfold u64_max; lia). cbn [of_option rbind].
    assert (add_bytes bytes_ b = Ok (bytes_ + b)) as -> by (apply add_bytes_ok; unfold SPARK_MAX_WORKSPACE_BYTES; lia). cbn [rbind].
    replace (32 <? nodes + 1 + (1 + nodes')) with false by lia.
    do 2 f_equal; lia.
  - rewrite Z.eqb_refl. cbn [negb]. unfold is_file, is_dir. rewrite (bool_decide_true (mt_kind m = RegularFile)) by done.
    rewrite H1. cbn [negb]. rewrite andb_false_r, bool_decide_false, H3, Z.eqb_refl by done. cbn [negb orb].
    match goal with |- context [file_limit self name m ?f] => destruct (file_limit_complete name m f Hf) as (limit & -> & Hl) end.
    cbn [rbind]. replace (limit <? mt_len m) with false by lia.
    assert (add_bytes bytes_ (mt_len m) = Ok (bytes_ + mt_len m)) as -> by (apply add_bytes_ok; lia). done.
Qed.

Lemma entries_complete entries costs nodes bytes_ :
  Forall2 (allowed_entry self euid) entries costs → 0 <= nodes → nodes + foldr Z.add 0 costs.*1 <= SPARK_MAX_WORKSPACE_NODES → 0 <= bytes_ →
  bytes_ + foldr Z.add 0 costs.*2 <= SPARK_MAX_WORKSPACE_BYTES →
  audit_entries self euid entries nodes bytes_ = Ok (nodes + foldr Z.add 0 costs.*1, bytes_ + foldr Z.add 0 costs.*2).
Proof.
  intros Hf. revert nodes bytes_. induction Hf as [|entry [k b] entries costs He Hf IH]; intros nodes bytes_ Hn0 Hn H0 Hb; cbn in *.
  { do 2 f_equal; lia. }
  assert (0 <= foldr Z.add 0 costs.*1 ∧ 0 <= foldr Z.add 0 costs.*2) as [Hc1 Hc2].
  { clear -Hf. induction Hf as [|e c es cs H _ IH]; [done|]. apply allowed_sizes in H. cbn. lia. }
  pose proof (allowed_sizes _ _ _ _ He) as [? ?]; cbn in *. rewrite (entry_complete _ _ _ _ _ He) by lia. cbn [rbind fst snd].
  rewrite IH by lia. do 2 f_equal; lia.
Qed.
End complete.

Lemma audit_complete self ws nodes bytes_ : isolated self ws nodes bytes_ → audit self ws = Ok (nodes, bytes_).
Proof.
  intros ((m & Hm & Hd) & (m' & Hm' & Hd') & Ht & entries & costs & He & Hf & -> & -> & Hn & Hb). unfold audit.
  rewrite Hm. cbn [of_option rbind]. rewrite (proj2 (private_dir_iff _ _ _ _) Hd). cbn [negb]. rewrite He. cbn [of_option rbind].
  rewrite (entries_complete _ _ _ costs) by (done || lia). cbn [rbind fst snd]. rewrite Hm'. cbn [of_option rbind].
  rewrite (proj2 (private_dir_iff _ _ _ _) Hd'). cbn [negb]. rewrite Ht. cbn [of_option rbind]. rewrite bool_decide_true by done. cbn [negb].
  assert (∀ n, n = 1 + foldr Z.add 0 costs.*1 → add_nodes n 1 = Ok (n + 1)) as Hadd by (intros n ->; apply add_nodes_ok; lia).
  rewrite Hadd by done. cbn [rbind]. do 2 f_equal; lia.
Qed.

(** C28: the audit of the workspace accepts exactly the isolated ones, and counts their
    nodes and bytes: in the child's home there is nothing but the copied credential and the
    marker that the host put there, its empty skills directory, its scratch directory with at
    most the runtime's own aliases of the trusted executable, and the runtime's own files,
    each of the right owner, mode and identity and within its size; the temporary directory
    is empty; and all of it stays within 32 nodes and 8 MiB. *)
Theorem audit_exact self ws nodes bytes_ : audit self ws = Ok (nodes, bytes_) ↔ isolated self ws nodes bytes_.
Proof. split; [apply audit_sound|apply audit_complete]. Qed.

(** ** Whole runs *)

(** Every audit of a check that succeeded, up to the one that did. *)
Lemma check_from_ok self at_ k retries self' :
  check_from self at_ k retries = Ok self' →
  ∃ j n b, (k <= j <= k + retries)%nat ∧ audit self (at_ j) = Ok (n, b) ∧ self' = note_audit n b self.
Proof.
  revert k. induction retries as [|r IH]; intros k; cbn [check_from]; destruct (audit self (at_ k)) as [[n b]|e] eqn:E.
  - intros [= <-]. exists k, n, b. split; [lia|done].
  - done.
  - intros [= <-]. exists k, n, b. split; [lia|done].
  - intros (j & n & b & Hj & Ha & ->)%IH. exists j, n, b. split; [lia|done].
Qed.

(** The monitor's maxima are within the limits. *)
Definition within_limits (self : SparkWorkspaceMonitor) : Prop :=
  0 <= wm_max_nodes self <= SPARK_MAX_WORKSPACE_NODES ∧ 0 <= wm_max_bytes self <= SPARK_MAX_WORKSPACE_BYTES.

Lemma isolated_limits self ws n b : isolated self ws n b → n <= SPARK_MAX_WORKSPACE_NODES ∧ b <= SPARK_MAX_WORKSPACE_BYTES.
Proof. intros (_ & _ & _ & _ & _ & _ & _ & _ & _ & Hn & Hb). done. Qed.

Lemma check_limits self at_ self' : check self at_ = Ok self' → within_limits self → within_limits self'.
Proof.
  intros (j & n & b & _ & Ha & ->)%check_from_ok [H1 H2]. apply audit_sound, isolated_limits in Ha. unfold within_limits. cbn. lia.
Qed.

(** A turn that found nothing wrong. *)
Definition quiet (w : Watched) (self : SparkWorkspaceMonitor) (p : Poll) : Prop :=
  check_auth_copy (wt_auth w) (wt_euid w) (po_auth p) = Ok tt ∧ check_output (wt_output w) (wt_euid w) (po_output p) = Ok tt
  ∧ ∃ k n b, (k <= 2)%nat ∧ isolated self (po_workspace p k) n b.

(** The maxima do not matter for the audit. *)
Lemma isolated_note self n b ws n' b' : isolated (note_audit n b self) ws n' b' → isolated self ws n' b'.
Proof. intros H. apply audit_sound. apply audit_complete in H. exact H. Qed.

(** Nothing is left of the child's process group, and the child was waited for. *)
Record gone (child : Z) (sys : System) : Prop := {
  gn_waited : sy_waited sys = true;
  gn_child : sy_alive sys !! child = None;
  gn_group : ∀ pid p, sy_alive sys !! pid = Some p → pr_group p ≠ child;
}.

Lemma kill_group_leaves group sys pid p :
  sy_alive (kill_group group sys) !! pid = Some p ↔ sy_alive sys !! pid = Some p ∧ pr_group p ≠ group.
Proof. apply map_lookup_filter_Some. Qed.

(** The guard's work: it never waits for a child that lives. *)
Lemma kill_and_wait_gone child sys :
  ∃ sys', kill_and_wait (new_guard child child) sys = Some (mk_guard None child, sys') ∧ gone child sys'
    ∧ ∀ pid p, sy_alive sys' !! pid = Some p → sy_alive sys !! pid = Some p.
Proof.
  unfold kill_and_wait, child_wait. cbn [cg_child new_guard cg_process_group child_kill sy_alive].
  rewrite lookup_delete_eq. eexists. split; [done|]. cbn [sy_alive].
  assert (∀ pid p, delete child (sy_alive (kill_group child sys)) !! pid = Some p →
    sy_alive sys !! pid = Some p ∧ pr_group p ≠ child) as Hleft.
  { intros pid p [_ Hp]%lookup_delete_Some. by apply kill_group_leaves. }
  split; [split; [done|apply lookup_delete_eq|]|]; intros pid p Hp; apply Hleft in Hp; tauto.
Qed.

Lemma disarm_gone child alive :
  alive !! child = None → gone child (disarm (new_guard child child) (mk_system alive true)).2.
Proof.
  intros Hc. split; [done| |]; cbn [disarm snd new_guard cg_process_group].
  - apply eq_None_not_Some. intros [p Hp]. apply kill_group_leaves in Hp as [Hp _]. cbn in Hp. congruence.
  - intros pid p Hp. apply kill_group_leaves in Hp. tauto.
Qed.

Lemma watch_spec w guard self polls r guard' sys self' :
  watch w guard self polls = Some (r, guard', sys, self') → within_limits self →
  within_limits self' ∧ (∀ ws n b, isolated self' ws n b → isolated self ws n b) ∧
  match r with
  | Ok s => guard' = guard ∧ ∃ before p after, polls = before ++ p :: after ∧ po_child p = Exited s
      ∧ sys = mk_system (po_processes p) true
      ∧ Forall (λ p, quiet w self p ∧ po_child p = Running) before ∧ quiet w self p
  | Err _ => ∃ q, q ∈ polls ∧ kill_and_wait guard (mk_system (po_processes q) false) = Some (guard', sys)
  end.
Proof.
  revert self. induction polls as [|p polls IH]; intros self H Hlim; [done|]. cbn [watch] in H.
  assert (∀ m e, ('(guard, sys) ← kill_and_wait guard (mk_system (po_processes p) false);
      Some (Err (A := ExitStatus) e, guard, sys, m)) = Some (r, guard', sys, self') →
    self' = m ∧ r = Err e ∧ kill_and_wait guard (mk_system (po_processes p) false) = Some (guard', sys)) as Hstop.
  { intros m e Hk. destruct (kill_and_wait _ _) as [[g y]|]; [|done]. cbn in Hk. by injection Hk as <- <- <- <-. }
  assert (p ∈ p :: polls) as Hin by constructor.
  destruct (check_auth_copy _ _ _) as [[]|e] eqn:Ea; [|by apply Hstop in H as (-> & -> & H); eauto 6].
  destruct (check_output _ _ _) as [[]|e] eqn:Eo; [|by apply Hstop in H as (-> & -> & H); eauto 6].
  destruct (check self _) as [self1|e] eqn:Ec; [|by apply Hstop in H as (-> & -> & H); eauto 6].
  pose proof (check_limits _ _ _ Ec Hlim) as Hlim1. apply check_from_ok in Ec as (j & n & b & Hj & Haud & ->).
  assert (quiet w self p) as Hq by (split; [done|]; split; [done|]; exists j, n, b; split; [lia|by apply audit_sound]).
  pose proof (λ ws n' b', isolated_note self n b ws n' b') as Hnote.
  destruct (po_child p) as [|s|] eqn:Ep;
    [|injection H as <- <- <- <-; split; [done|]; split; [done|]; split; [done|]; by exists [], p, polls
     |apply Hstop in H as (-> & -> & H); eauto 6].
  do 4 (case_match; [apply Hstop in H as (-> & -> & H); eauto 6|]).
  destruct (IH _ H Hlim1) as (Hl & Hi & Hr). split; [done|]. split; [auto|].
  destruct r as [s|e]; [|destruct Hr as (q & Hq' & Hk); exists q; split; [by constructor|done]].
  destruct Hr as (-> & before & p' & after & -> & Hp' & Esys & Hb & Hq'). split; [done|]. exists (p :: before), p', after.
  split; [done|]. split; [done|]. split; [done|].
  assert (∀ q, quiet w (note_audit n b self) q → quiet w self q) as Hmono.
  { intros q (Hq1 & Hq2 & k & n' & b' & Hk & Hiso). split; [done|]. split; [done|]. exists k, n', b'. auto. }
  split; [|by apply Hmono]. constructor; [done|]. eapply Forall_impl; [exact Hb|]. intros q [Hq1 Hq2]. split; [by apply Hmono|done].
Qed.

Lemma watch_ends w child self polls i p :
  polls !! i = Some p → po_child p ≠ Running ∨ po_deadline p = true → is_Some (watch w (new_guard child child) self polls).
Proof.
  assert (∀ q m e, is_Some ('(guard, sys) ← kill_and_wait (new_guard child child) (mk_system (po_processes q) false);
    Some (Err (A := ExitStatus) (E := SparkError) e, guard, sys, m : SparkWorkspaceMonitor))) as Hstop.
  { intros q m e. destruct (kill_and_wait_gone child (mk_system (po_processes q) false)) as (sys & -> & _). by eexists. }
  revert self i. induction polls as [|q polls IH]; intros self i Hi Hp; [done|]. cbn [watch].
  destruct (check_auth_copy _ _ _); [|apply Hstop]. destruct (check_output _ _ _); [|apply Hstop].
  destruct (check self _) as [self1|]; [|apply Hstop].
  destruct i as [|i]; cbn in Hi; [injection Hi as ->|].
  - destruct (po_child p); [|by eexists|apply Hstop]. destruct Hp as [[]|Hp]; [done|]. rewrite Hp.
    repeat (case_match; [apply Hstop|]). done.
  - destruct (po_child q); [|by eexists|apply Hstop]. do 4 (case_match; [apply Hstop|]). by eapply IH.
Qed.

(** ** The threads of the pipes *)

Lemma drain_closed limit total reads : is_Some (drain_bounded limit total reads true).
Proof.
  revert total. induction reads as [|[[|]| |] reads IH]; intros total; cbn [drain_bounded]; try by eexists; auto.
  - repeat case_match; first [apply IH | by eexists].
  - apply IH.
Qed.

Lemma stderr_closed limit output reads : is_Some (read_stderr limit output reads true).
Proof.
  revert output. induction reads as [|[[|]| |] reads IH]; intros output; cbn [read_stderr]; first [apply IH | by eexists].
Qed.

Definition holds_pipe (p : Process) : bool := pr_stdin p || pr_stdout p || pr_stderr p.

Lemma closed_or_held holds alive :
  closed holds alive = true ∨ ∃ pid p, alive !! pid = Some p ∧ holds p = true.
Proof.
  unfold closed. destruct (decide (map_Forall (λ _ p, holds p = false) alive)) as [|Hn]; [left; by apply bool_decide_true|].
  right. apply map_not_Forall in Hn as (pid & p & Hp & Hh); [|apply _]. exists pid, p. split; [done|]. by destruct (holds p).
Qed.

(** The threads can be joined unless a process that is left holds an end of a pipe. *)
Lemma join_or_held pipes sys :
  is_Some (join_io_threads pipes sys) ∨
  ∃ pid p, pp_later pipes (sy_alive sys) !! pid = Some p ∧ holds_pipe p = true.
Proof.
  unfold join_io_threads, holds_pipe. set (alive := pp_later pipes (sy_alive sys)).
  destruct (closed_or_held pr_stdout alive) as [->|(pid & p & Hp & Hh)]; [|right; exists pid, p; by rewrite Hh, orb_true_r].
  destruct (closed_or_held pr_stderr alive) as [->|(pid & p & Hp & Hh)]; [|right; exists pid, p; by rewrite Hh, !orb_true_r].
  destruct (closed_or_held pr_stdin alive) as [->|(pid & p & Hp & Hh)]; [|right; exists pid, p; by rewrite Hh].
  left. destruct (drain_closed MAX_STDOUT_BYTES 0 (pp_stdout pipes)) as [z ->].
  destruct (stderr_closed (Z.to_nat MAX_STDERR_BYTES) [] (pp_stderr pipes)) as [e ->].
  unfold write_prompt. by destruct (pp_stdin pipes).
Qed.

(** What the kernel promises: [try_wait] gives a status of a child that is gone, and no
    process comes from nothing. *)
Record kernel_ok (child : Z) (polls : list Poll) (pipes : Pipes) : Prop := {
  ko_exited : ∀ q s, q ∈ polls → po_child q = Exited s → po_processes q !! child = None;
  ko_later : pp_later pipes ∅ = ∅;
}.

(** How far a call may come, once the loop has a reason to end. *)
Definition child_settled {A} (child : Z) (polls : list Poll) (pipes : Pipes) (failed : A → Prop) (progress : Progress A) : Prop :=
  match progress with
  | Watching | Done _ None => False
  | Joining end_ =>
      gone child (ce_left end_)
      ∧ (∃ q, q ∈ polls ∧ sy_alive (ce_left end_) ⊆ po_processes q)
      ∧ ∃ pid p, pp_later pipes (sy_alive (ce_left end_)) !! pid = Some p ∧ holds_pipe p = true
  | Done r (Some end_) =>
      gone child (ce_left end_)
      ∧ match ce_status end_ with Some s => ∃ q, q ∈ polls ∧ po_child q = Exited s | None => failed r end
  end.

Lemma drive_child_settled w child monitor polls pipes i p :
  within_limits monitor → kernel_ok child polls pipes →
  polls !! i = Some p → po_child p ≠ Running ∨ po_deadline p = true →
  child_settled child polls pipes (λ r, ∃ e, r.1 = Err e) (drive_child w child monitor polls pipes).
Proof.
  intros Hlim [Hexit _] Hi Hp. unfold drive_child.
  destruct (watch_ends w child monitor _ _ _ Hi Hp) as [[[[status guard] sys] monitor'] Hw]. rewrite Hw.
  apply watch_spec in Hw as (_ & _ & Hw); [|done].
  assert (∃ sys', (match status with Ok _ => disarm guard sys | Err _ => (guard, sys) end) = (mk_guard None child, sys')
    ∧ gone child sys' ∧ (∃ q, q ∈ polls ∧ sy_alive sys' ⊆ po_processes q)
    ∧ match status with Ok s => ∃ q, q ∈ polls ∧ po_child q = Exited s | Err _ => True end) as (sys' & -> & Hgone & Hfrom & Hs).
  { destruct status as [s|e].
    - destruct Hw as (-> & before & q & after & -> & Hq & -> & _). eexists. split; [reflexivity|].
      assert (q ∈ before ++ q :: after) as Hin by (apply elem_of_app; right; constructor).
      split; [by eapply disarm_gone, Hexit|]. split; [|by exists q]. exists q. split; [done|].
      apply map_subseteq_spec. intros pid x [Hx _]%kill_group_leaves. exact Hx.
    - destruct Hw as (q & Hq & Hk). destruct (kill_and_wait_gone child (mk_system (po_processes q) false)) as (y & Ey & Hg & Hsub).
      rewrite Ey in Hk. injection Hk as <- <-. eexists. split; [reflexivity|]. split; [done|]. split; [|done].
      exists q. split; [done|]. apply map_subseteq_spec. exact Hsub. }
  destruct (join_or_held pipes sys') as [[joined ->]|Hheld].
  - cbn. split; [done|]. destruct status as [s|e]; [done|]. by exists e.
  - destruct (join_io_threads pipes sys') as [joined|]; cbn; [|done].
    split; [done|]. destruct status as [s|e]; [done|]. by exists e.
Qed.

Section runs.
Context `{Externals, Crypto, SummarySerde, PromptSerde}.

Lemma map_err_ok {E F A} (f : E → F) (r : result E A) a : map_err f r = Ok a ↔ r = Ok a.
Proof. destruct r; cbn; split; intros H'; by simplify_eq. Qed.

(** [t] is what the redaction makes of [s]. *)
Definition redacted (s t : text) : Prop := redact_sensitive_text s = Ok t.

Lemma redact_text_ok s t : redact_text s = Ok t → redacted s t.
Proof. unfold redact_text, redacted. destruct (redact_sensitive_text s); intros H'; by simplify_eq. Qed.

Lemma redact_all_ok l l' : redact_all l = Ok l' → Forall2 redacted l l'.
Proof.
  revert l'. induction l as [|s l IH]; intros l' H'; cbn in H'; [injection H' as <-; constructor|].
  run_ok H'. subst. constructor; [by apply redact_text_ok|by apply IH].
Qed.

(** The document [d'] is [d] with every text redacted. *)
Record redaction (d d' : SummaryDocument) : Prop := {
  rd_facts : Forall2 redacted (sd_facts d) (sd_facts d');
  rd_pending : Forall2 redacted (sd_pending d) (sd_pending d');
  rd_decisions : Forall2 redacted (sd_decisions d) (sd_decisions d');
  rd_spoken : redacted (sd_spoken_text d) (sd_spoken_text d');
  rd_quotes : Forall2 (λ e e', redacted (se_exact_quote e) (se_exact_quote e') ∧ se_completion_id e' = se_completion_id e)
    (sd_source_evidence d) (sd_source_evidence d');
  rd_covers : sd_covers_new_completions d' = sd_covers_new_completions d;
}.

Lemma redact_document_ok d d' : redact_document d = Ok d' → redaction d d'.
Proof.
  unfold redact_document. intros H'. run_ok H'. subst d'.
  repeat match goal with Hx : redact_all _ = _ |- _ => apply redact_all_ok in Hx end.
  match goal with Hx : redact_text _ = _ |- _ => apply redact_text_ok in Hx end. split; try done. cbn.
  match goal with Hq : Forall2 redacted (se_exact_quote <$> _) ?q |- _ => revert q Hq end. clear.
  induction (sd_source_evidence d) as [|e es IH]; intros q Hq; inversion Hq; subst; [constructor|]. cbn. constructor; [done|]. by apply IH.
Qed.

Lemma new_monitor_limits euid files executable at_ monitor :
  new_monitor euid files executable at_ = Ok monitor → within_limits monitor.
Proof. unfold new_monitor. intros H'. run_ok H'. eapply check_limits; [exact H'|]. done. Qed.

Lemma bounded_write_ok limit a b c : bounded_write limit a b = Some c → c = a ++ b ∧ blen c <= limit.
Proof.
  unfold bounded_write. destruct (checked_add _ _ _) as [n|] eqn:E; [|done]. cbn. destruct (n <=? limit) eqn:El; [|done].
  intros [= <-]. apply checked_add_some in E as [-> _]. unfold blen in *. rewrite length_app. split; [done|]. lia.
Qed.

Lemma open_auth_ok euid file f : open_auth euid file = Ok f → file = Some f.
Proof. unfold open_auth. intros H'. run_ok H'. open_ok. congruence. Qed.

Lemma read_auth_bytes_ok f b : read_auth_bytes f = Ok b → b = of_bytes f.
Proof. unfold read_auth_bytes. intros H'. run_ok H'. by subst. Qed.

Lemma load_auth_ok euid file auth : load_auth euid file = Ok auth → ∃ f, file = Some f ∧ as_digest auth = sha256 (of_bytes f).
Proof.
  unfold load_auth. intros H'. run_ok H'. subst. apply open_auth_ok in Hrun as ->. apply read_auth_bytes_ok in Hrun0 as ->. eauto.
Qed.

Lemma verify_source_ok auth euid file u :
  verify_source auth euid file = Ok u → ∃ f, file = Some f ∧ sha256 (of_bytes f) = as_digest auth.
Proof.
  unfold verify_source. intros H'. run_ok H'. apply open_auth_ok in Hrun as ->. apply read_auth_bytes_ok in Hrun0 as ->.
  bool_prop. eauto.
Qed.

Lemma read_bounded_output_ok identity euid file b :
  read_bounded_output identity euid file = Ok b →
  ∃ f, file = Some f ∧ b = of_bytes f ∧ blen b <= MAX_SUMMARY_DOCUMENT_BYTES.
Proof.
  unfold read_bounded_output, open_output_for_read. intros H'. run_ok H'. run_ok Hrun. open_ok. subst. bool_prop. eauto.
Qed.

Lemma take_document_ok expected b d' :
  take_document expected b = Ok d' →
  (∃ d, parse_document b = Ok d ∧ redaction d d') ∧ validate_expected_covers expected d' = Ok tt.
Proof.
  unfold take_document. intros H'. run_ok H'. subst.
  repeat match goal with Hx : map_err _ _ = _ |- _ => apply map_err_ok in Hx end.
  match goal with Hx : redact_document _ = _ |- _ => apply redact_document_ok in Hx end. destruct a2. eauto.
Qed.

Lemma prepare_run_ok claim previous world prompt auth w monitor child :
  prepare_run claim previous world = Ok (prompt, auth, w, monitor, child) →
  blen prompt <= MAX_PROMPT_BYTES ∧ (∃ f, sw_auth world = Some f ∧ as_digest auth = sha256 (of_bytes f)) ∧ within_limits monitor
  ∧ sw_spawned world = Ok child.
Proof.
  unfold prepare_run. intros H'. run_ok H'. subst. split; [|split; [|split]].
  - unfold build_prompt in *. repeat match goal with Hx : rbind _ _ = Ok _ |- _ => run_ok Hx end. open_ok.
    by match goal with Hx : bounded_write _ _ _ = Some prompt |- _ => apply bounded_write_ok in Hx as [_ Hx] end.
  - by eapply load_auth_ok.
  - by eapply new_monitor_limits.
  - done.
Qed.

(** C37: a run ends, and no process of its group outlives it.  Once the child has ended by
    itself or the deadline has passed at some turn of the watching loop, the loop ends, and
    the guard has done its work: no process of the child's group lives, and the child was
    waited for, whatever ended the loop, be it the child's own end, a failed audit, too much
    output, the deadline or a cancellation.  Then the run has a result, unless one of the
    threads of the pipes is blocked, and that only while a process that had left the child's
    group, or one that comes from it, lives on and holds an end of a pipe; in particular it
    has a result when no process has left the group.  A status comes from [try_wait]; without
    one the result is an error; and without a child the run failed before.  The kernel is
    assumed to keep its promises ([kernel_ok]). *)
Theorem spark_run_ends claim previous world i p :
  (∀ child, sw_spawned world = Ok child → kernel_ok child (sw_polls world) (sw_pipes world)) →
  sw_polls world !! i = Some p → po_child p ≠ Running ∨ po_deadline p = true →
  let run := run_with_cancel_report claim previous world in
  ((∃ e, prepare_run claim previous world = Err e ∧ run = Done (Err e) None)
   ∨ ∃ child, sw_spawned world = Ok child
       ∧ child_settled child (sw_polls world) (sw_pipes world) (λ r, ∃ e, r = Err e) run)
  ∧ ((∀ child q pid x, sw_spawned world = Ok child → q ∈ sw_polls world → po_processes q !! pid = Some x → pr_group x = child) →
     ∃ r end_, run = Done r end_).
Proof.
  intros Hk Hi Hp run. unfold run, run_with_cancel_report.
  destruct (prepare_run claim previous world) as [[[[[prompt auth] w] monitor] child]|e] eqn:Epr;
    [|split; [left; by exists e|by eauto]].
  apply prepare_run_ok in Epr as (_ & _ & Hlim & Hchild). specialize (Hk _ Hchild). cbn.
  pose proof (drive_child_settled w child monitor _ _ _ _ Hlim Hk Hi Hp) as Hd.
  destruct (drive_child w child monitor (sw_polls world) (sw_pipes world)) as [|end_|[r m] end_]; [done| |].
  - split; [right; by exists child|]. intros Hgroup. exfalso.
    destruct Hd as ([_ _ Hg] & (q & Hq & Hsub) & pid & x & Hx & _).
    assert (sy_alive (ce_left end_) = ∅) as E.
    { apply map_empty. intros n. apply eq_None_not_Some. intros [y Hy].
      apply (Hg n y Hy), (Hgroup child q n y Hchild Hq). by eapply lookup_weaken. }
    rewrite E, (ko_later _ _ _ Hk) in Hx. by rewrite lookup_empty in Hx.
  - split; [|by eauto]. right. exists child. split; [done|]. cbn in *. destruct end_ as [end_|]; [|done].
    destruct Hd as [Hg Hs]. split; [done|]. destruct (ce_status end_); [done|]. destruct Hs as [e ->]. by exists e.
Qed.

Lemma judge_ok s joined u : judge s joined = Ok u → success s = true.
Proof. unfold judge. intros H'. destruct joined as [[] ?]. by repeat case_match. Qed.

Lemma finish_run_ok claim world auth w monitor out :
  finish_run claim world auth w monitor = Ok out → within_limits monitor →
  (∃ k nodes bytes_, isolated monitor (sw_after world k) nodes bytes_)
  ∧ validate_runtime_databases (sw_databases world) = Ok tt
  ∧ (∃ f', sw_auth_last world = Some f' ∧ sha256 (of_bytes f') = as_digest auth)
  ∧ (∃ f d, sw_output world = Some f ∧ blen (of_bytes f) <= MAX_SUMMARY_DOCUMENT_BYTES
       ∧ parse_document (of_bytes f) = Ok d ∧ redaction d (so_document out))
  ∧ validate_expected_covers (pc_completion_id <$> sc_completions claim) (so_document out) = Ok tt
  ∧ so_max_nodes out <= SPARK_MAX_WORKSPACE_NODES ∧ so_max_bytes out <= SPARK_MAX_WORKSPACE_BYTES.
Proof.
  unfold finish_run. intros H' Hlim. run_ok H'. subst out.
  match goal with Hx : check _ _ = _ |- _ => pose proof (check_limits _ _ _ Hx Hlim) as [[_ Hn] [_ Hb]]; apply check_from_ok in Hx as (j & n & b & _ & Ha & ->) end.
  repeat match goal with
  | Hx : verify_source _ _ _ = _ |- _ => apply verify_source_ok in Hx as (f' & Hf' & Hsha)
  | Hx : read_bounded_output _ _ _ = _ |- _ => apply read_bounded_output_ok in Hx as (f & Hf & -> & Hlen)
  | Hx : take_document _ _ = _ |- _ => apply take_document_ok in Hx as [(d & Hd & Hred) Hcov]
  end. cbn [so_document so_max_nodes so_max_bytes].
  split; [exists j, n, b; by apply audit_sound|]. split; [by match goal with Hx : validate_runtime_databases _ = Ok ?u |- _ => destruct u end|].
  split; [eauto|]. split; [eauto 6|]. done.
Qed.

(** C27: the summary that a run returns was made by a child that ended well, in a workspace
    that passed the audit at every turn of the watching and once more at the end, with
    databases that hold no row, within 32 nodes and 8 MiB, and with the user's credential the
    same before and after; it is what the child wrote in at most 64 KiB, parsed, with every
    text redacted, and it covers exactly the completions of the claim in their order, before
    and after the redaction.  The prompt had at most 2 MiB. *)
Theorem spark_summary_is_checked claim previous world out end_ :
  run_with_cancel_report claim previous world = Done (Ok out) end_ →
  ∃ prompt auth w monitor child left s d b,
    prepare_run claim previous world = Ok (prompt, auth, w, monitor, child) ∧ blen prompt <= MAX_PROMPT_BYTES
    ∧ end_ = Some (mk_child_end (Some s) left) ∧ success s = true
    ∧ (∃ before p after, sw_polls world = before ++ p :: after ∧ po_child p = Exited s
         ∧ Forall (quiet w monitor) (before ++ [p]))
    ∧ (∃ k nodes bytes_, isolated monitor (sw_after world k) nodes bytes_)
    ∧ validate_runtime_databases (sw_databases world) = Ok tt
    ∧ (∃ f f', sw_auth world = Some f ∧ sw_auth_last world = Some f' ∧ sha256 (of_bytes f') = sha256 (of_bytes f))
    ∧ (∃ f, sw_output world = Some f ∧ b = of_bytes f ∧ blen b <= MAX_SUMMARY_DOCUMENT_BYTES)
    ∧ parse_document b = Ok d ∧ redaction d (so_document out)
    ∧ validate_expected_covers (pc_completion_id <$> sc_completions claim) (so_document out) = Ok tt
    ∧ so_max_nodes out <= SPARK_MAX_WORKSPACE_NODES ∧ so_max_bytes out <= SPARK_MAX_WORKSPACE_BYTES.
Proof.
  unfold run_with_cancel_report. destruct (prepare_run claim previous world) as [[[[[prompt auth] w] monitor] child]|e] eqn:Epr; [|done]. cbn [into_child fst new_guard cg_child of_option].
  unfold drive_child. destruct (watch _ _ _ _) as [[[[status guard] sys] monitor']|] eqn:Ew; [|done].
  apply prepare_run_ok in Epr as Hp. destruct Hp as (Hprompt & (f & Hf & Hdig) & Hlim & _).
  apply watch_spec in Ew as (Hlim' & Hiso & Hw); [|done].
  destruct (match status with Ok _ => disarm guard sys | Err _ => (guard, sys) end) as [guard' sys'].
  destruct (join_io_threads _ _) as [joined|]; [|done]. destruct (kill_and_wait guard' sys') as [[? left]|]; [|done].
  intros Hr. injection Hr as Hr <-. destruct status as [s|e]; [|discriminate Hr].
  destruct Hw as (-> & before & p & after & Hpolls & Hexit & _ & Hbefore & Hquiet). destruct (judge s _) as [u|] eqn:Ej; [|discriminate Hr].
  apply judge_ok in Ej. apply finish_run_ok in Hr as ((k & n & b & Hk) & Hdb & (f' & Hf' & Hsha) & (fo & d & Hfo & Hlen & Hd & Hred) & Hcov & Hn & Hb); [|done].
  exists prompt, auth, w, monitor, child, left, s, d, (of_bytes fo). split_and!; try done; eauto 8.
  - exists before, p, after. split; [done|]. split; [done|]. apply Forall_app. split; [|by constructor].
    eapply Forall_impl; [exact Hbefore|]. by intros q [Hq _].
  - exists f, f'. split; [done|]. split; [done|]. congruence.
Qed.

End runs.

(** ** A run *)

Section demo.
#[local] Existing Instance demo_externals.
#[local] Existing Instance demo_crypto.

Definition spark_document (spoken : text) : SummaryDocument :=
  mk_document 1 [ascii_bytes "done"] [] [] spoken [] (pc_completion_id <$> sc_completions demo_claim1).
#[local] Instance spark_summary_serde : SummarySerde :=
  {| document_from_json b := Some (spark_document (drop 1 b)); document_to_json _ := None |}.
#[local] Instance spark_prompt_serde : PromptSerde :=
  {| turn_pack_from_str _ := Some (mk_pack 1 (default [] (head (pc_completion_id <$> sc_completions demo_claim1))) [] [ascii_bytes "done"] []);
     prompt_input_to_json _ _ _ := []; is_json_value _ := true |}.

Definition spark_meta (kind : NodeKind) (mode inode : Z) (size : N) : Metadata := mk_metadata kind 501 mode 1 size 1 inode.
Definition spark_dir (mode inode : Z) : Metadata := spark_meta Directory mode inode 64.
Definition spark_node (name : string) (m : Metadata) (children : option (list (option Node))) : option Node :=
  Some (mk_node (Some (ascii_bytes name)) (Some m) None children).
Definition spark_auth : OpenFile := mk_open_file (spark_meta RegularFile 384 20 2) (ascii_bytes "{}").
Definition spark_copy : Metadata := spark_meta RegularFile MODE_400 2 2.
Definition spark_output : OpenFile := mk_open_file (spark_meta RegularFile 384 8 5) (ascii_bytes "{done").

Definition spark_home : list (option Node) :=
  [spark_node "auth.json" spark_copy None; spark_node ".sandbox_migration" (spark_meta RegularFile MODE_400 3 3) None;
   spark_node "skills" (spark_dir MODE_500 4) (Some []);
   spark_node "tmp" (spark_dir MODE_500 5) (Some [spark_node "arg0" (spark_dir MODE_700 6) (Some [])]);
   spark_node "logs_2.sqlite" (spark_meta RegularFile MODE_644 9 4096) None].
Definition spark_workspace : Workspace :=
  mk_workspace 501 (Some (spark_dir MODE_700 1)) (Some spark_home) (Some (spark_dir MODE_700 7)) (Some []).
Definition spark_files : SparkRunFiles :=
  mk_run_files (Some spark_copy) (Some (of_metadata spark_output)) (Some (spark_meta RegularFile MODE_400 3 3)) (Some (spark_dir MODE_700 1))
    (Some (spark_dir MODE_500 4)) (Some (spark_dir MODE_500 5)) (Some (spark_dir MODE_700 6)) (Some (spark_dir MODE_700 7)).
Definition spark_poll (processes : gmap Z Process) (child : ChildState) (deadline : bool) : Poll :=
  mk_poll (Some spark_copy) (Some spark_output) (λ _, spark_workspace) processes child 0 deadline false.

(** The child is the process 70; it has a descendant in its group, and both hold the pipes. *)
Definition spark_group : gmap Z Process := {[70 := mk_process 70 true true true; 71 := mk_process 70 false true true]}.
Definition spark_ended : Poll := spark_poll (delete 70 spark_group) (Exited (mk_status (Some 0) None)) false.
Definition spark_world (polls : list Poll) : SparkWorld :=
  mk_world 501 (Some spark_auth) true (Ok spark_files) (Some spark_auth)
    (Some (ascii_bytes "/usr/bin/codex", spark_meta RegularFile MODE_755 30 100)) (λ _, spark_workspace) false (Ok 70)
    polls (mk_pipes [PipeBytes (ascii_bytes "log")] [] (Some true) id) (λ _, spark_workspace) (λ _, NoDatabase)
    (Some spark_auth) (Some spark_output).

Definition spark_run (polls : list Poll) := run_with_cancel_report demo_claim1 None (spark_world polls).

Lemma spark_run_is :
  spark_run [spark_poll spark_group Running false; spark_ended]
  = Done (Ok (mk_outcome (spark_document (ascii_bytes "done")) 8 4101))
      (Some (mk_child_end (Some (mk_status (Some 0) None)) (mk_system ∅ true))).
Proof. vm_compute. reflexivity. Qed.

(** A run past its deadline: its processes are killed. *)
Lemma spark_run_times_out :
  spark_run [spark_poll spark_group Running true] = Done (Err SparkTimeout) (Some (mk_child_end None (mk_system ∅ true))).
Proof. vm_compute. reflexivity. Qed.

(** A descendant that has left the child's group and still holds the standard output: the run
    waits for the end of the pipe, although its deadline has passed. *)
Lemma descendant_outside_the_group_blocks_the_run :
  spark_run [spark_poll (<[72 := mk_process 72 false true false]> spark_group) Running true]
  = Joining (mk_child_end None (mk_system {[72 := mk_process 72 false true false]} true)).
Proof. vm_compute. reflexivity. Qed.

Lemma spark_summary_is_checked_witness : ∃ d, parse_document (ascii_bytes "{done") = Ok d ∧ redaction d (spark_document (ascii_bytes "done")).
Proof.
  destruct (spark_summary_is_checked _ _ _ _ _ spark_run_is)
    as (prompt & auth & w & monitor & child & left & s & d & b & _ & _ & _ & _ & _ & _ & _ & _ & (f & Hf & -> & _) & Hd & Hr & _).
  injection Hf as <-. exists d. split; [exact Hd|exact Hr].
Defined.

Lemma spark_kernel_ok : kernel_ok 70 [spark_poll spark_group Running false; spark_ended] (sw_pipes (spark_world [])).
Proof.
  split; [|done]. intros q s Hq Hs. apply elem_of_cons in Hq as [->|Hq]; [discriminate Hs|].
  apply list_elem_of_singleton in Hq as ->. by vm_compute.
Qed.

Lemma spark_run_ends_witness : ∃ r end_, spark_run [spark_poll spark_group Running false; spark_ended] = Done r end_.
Proof.
  apply (spark_run_ends demo_claim1 None (spark_world [spark_poll spark_group Running false; spark_ended]) 1 spark_ended).
  - intros child [= <-]. exact spark_kernel_ok.
  - reflexivity.
  - left. discriminate.
  - intros child q pid x [= <-] Hq Hx.
    assert (map_Forall (λ _ x, pr_group x = 70) (po_processes q)) as Hall; [|exact (Hall pid x Hx)].
    apply elem_of_cons in Hq as [->|Hq]; [|apply list_elem_of_singleton in Hq as ->]; by apply (bool_decide_unpack _).
Defined.

(** A summary that names a web address right after a Chinese character: the redaction stops
    the thread. *)
Lemma chinese_summary_with_url_panics :
  redact_document (spark_document (utf8_demo ++ ascii_bytes "https://example.org/")) = Err SparkPanic.
Proof. vm_compute. reflexivity. Qed.

End demo.
