(* ===== verification/HostDemo.v ===== *)
(** * The host's components on small inputs

    The object cache, a playback, summary runs, and the prompt queue with its catalogue,
    each run on the demonstration's store: the concrete inputs of their witnesses. *)

From stdpp Require Import gmap.
From S2P Require Import Prelude Bytes Secrets CacheOpen SecretsProps PlaybackWire Audio AudioProps Capture Transport.
From S2P Require Import StrOps CacheRef Sql StoreTypes TurnPack StoreJobs StoreRollout.
From S2P Require Import StoreSummary StorePlayback SummaryInv SummaryClaims StoreSystem.
From S2P Require Import SummaryWedge HostPlayback HostPlaybackProps Summary CacheCodec TtsCache.
From S2P Require Import CacheTree CacheOps CacheProps CacheReconcile Orchestrator.
From S2P Require Import OrchestratorProps SpeechOnce Catalog CatalogProps PromptQueue.
From S2P Require Import SummaryWorker SchedulerProps Control ControlProps HostLoop HostLoopProps StoreProps.

(** * The object cache on small inputs *)

Section cache.

#[local] Existing Instance demo_externals.
#[local] Existing Instance demo_crypto.

Definition demo_derivation : KeyDerivation.
Proof.
  refine {| hkdf_sha256 salt key info := resize CACHE_KEY_BYTES 0 (salt ++ info) |}.
  intros. apply length_resize.
Defined.
#[local] Existing Instance demo_derivation.

Definition demo_cache_key : bytes := replicate 32 9.
Definition demo_limits : CacheLimits := mk_limits 100000 4.
Definition demo_id (generation : Z) : CacheId := mk_cache_id (replicate 32 17) generation.
Definition demo_bundle : CacheBundle := mk_bundle (ascii_bytes "{}") [1; 2; 3; 4] [5; 6; 7].

(** An empty cache, and names and random bytes for three generations. *)
Definition demo_world (faults : list (option nat)) : World :=
  mk_world (mk_tree true 448 ∅) faults (ascii_bytes <$> ["a"; "b"; "c"; "d"]%string)
    ((λ i, ([i], [i])) <$> [1; 2; 3; 4; 5; 6; 7; 8; 9]) [100; 101].

Definition demo_publish (generation : Z) : Fs unit := publish_observed demo_cache_key demo_limits (demo_id generation) demo_bundle.

Example publish_succeeds :
  fst ((let~ _ := demo_publish 1 in let~ _ := demo_publish 2 in read_unlocked demo_cache_key (demo_id 1)) (demo_world [])) = Ok demo_bundle.
Proof. vm_compute. reflexivity. Qed.

(** The ledger knows the second generation only. *)
Example reconcile_removes_the_first :
  let out := (let~ _ := demo_publish 1 in let~ _ := demo_publish 2 in
    reconcile_unlocked demo_cache_key {[reference (demo_id 2)]}) (demo_world []) in
  fst out = Ok (mk_report 0 1 201)
  ∧ entry_at (wd_tree (snd out)) (task_directory_name (demo_id 1)) (generation_name (demo_id 1)) = None
  ∧ is_Some (entry_at (wd_tree (snd out)) (task_directory_name (demo_id 2)) (generation_name (demo_id 2))).
Proof. vm_compute. repeat split. by eexists. Qed.

(** The disk fills up while the first object is written. *)
Definition demo_full : World := demo_world (replicate 14 None ++ [Some 5%nat]).
Definition demo_full_run := publish_observed demo_cache_key demo_limits (demo_id 1) demo_bundle demo_full.
Definition demo_full_reader : World := mk_world (wd_tree demo_full_run.2) [] [] [] [].

Lemma demo_id_wf : cache_id_wf (demo_id 1).
Proof.
  split; [apply Forall_replicate; split; vm_compute; congruence|]. split; [reflexivity|]. split; vm_compute; congruence.
Qed.

Lemma publish_all_or_nothing_witness :
  demo_full_run.1 = Err CacheIo
  ∧ entry_at (wd_tree demo_full_reader) (task_directory_name (demo_id 1)) (generation_name (demo_id 1))
    = entry_at (wd_tree demo_full) (task_directory_name (demo_id 1)) (generation_name (demo_id 1)).
Proof.
  pose proof (publish_all_or_nothing demo_cache_key demo_limits (demo_id 1) demo_bundle demo_id_wf
    demo_full demo_full_reader ltac:(reflexivity) ltac:(vm_compute; reflexivity)) as [_ [[E _]|[_ E]]].
  - split; [vm_compute; reflexivity|exact E].
  - exfalso. apply (f_equal fst) in E. vm_compute in E. discriminate E.
Defined.

(** The first attempt is cut short while the marker is written; the second one draws no
    other key, and the third finds the marker. *)
Definition demo_attempt (candidate : Z) : Attempt := Initialize demo_limits false (replicate 32 candidate).
Definition demo_attempts : list Plan :=
  [mk_plan (demo_attempt 1) (replicate 16 None ++ [Some 5%nat]) [ascii_bytes "u"] [([1], [1])];
   mk_plan (demo_attempt 2) [] [ascii_bytes "v"] [([2], [2])];
   mk_plan (OpenExisting true demo_limits false) [] [] []].
Definition demo_opened :=
  run_attempts (LocalCacheSecretStore (for_installation [])) (for_installation []) demo_attempts (mk_local_secret None []) (mk_tree true 448 ∅).

Lemma demo_attempts_fresh : Forall (λ p, fresh_candidate (pn_attempt p)) demo_attempts.
Proof.
  assert (∀ c, is_byte c → fresh_candidate (demo_attempt c)) as Hc
    by (intros c Hc; split; [apply length_replicate|by apply Forall_replicate]).
  unfold demo_attempts. do 2 (apply List.Forall_cons; [apply Hc; unfold is_byte; lia|]).
  apply List.Forall_cons; [exact I|constructor].
Qed.

Lemma cache_key_is_kept_witness :
  demo_opened.1.1 = [Err CacheIo; Ok (replicate 32 1); Ok (replicate 32 1)]
  ∧ local_kept demo_opened.1.2 = Some (replicate 32 1).
Proof.
  assert (demo_opened.1.1 = [Err CacheIo; Ok (replicate 32 1); Ok (replicate 32 1)]) as Er by (vm_compute; reflexivity).
  split; [exact Er|]. destruct demo_opened as [[rs s'] t'] eqn:E. cbn [fst snd] in *. unfold demo_opened in E.
  apply (cache_key_is_kept (LocalCacheSecretStore (for_installation [])) (for_installation [])) in E as (_ & _ & _ & Hk).
  - apply (Hk (replicate 32 1)). rewrite Er. apply elem_of_cons. right. apply elem_of_cons. by left.
  - apply demo_attempts_fresh.
  - intros m c Hm. cbn in Hm. by rewrite lookup_empty in Hm.
Defined.

End cache.

(** * A playback of the demonstration's summary: the concrete input of the witness *)

Section playback.

#[local] Existing Instance demo_externals.
#[local] Existing Instance demo_crypto.

Definition host_demo_audio : bytes :=
  match encode_eiad demo_pcm with Ok eiad => eiad | Err _ => [] end.

Definition host_demo_surroundings : Surroundings :=
  mk_surroundings 20 [0; 77] true (λ _, Some host_demo_audio) (λ _, true).

Definition host_demo_0 : HostState := mk_host demo_4 ∅ [].
Definition host_demo_1 : HostState :=
  handle_lan_playback_event host_demo_surroundings (EvRequest (mk_request 1 1 1 5) (V4 [192; 168; 1; 20] 50000)) host_demo_0.

Lemma host_demo_run : rtc host_step host_demo_0 host_demo_1.
Proof. apply rtc_once. unfold host_demo_1. apply host_event. exact I. Qed.

(** The request was granted lease 77 and started. *)
Lemma host_demo_started :
  (lr_lease_id <$> db_leases (hs_store host_demo_1)) = [77] ∧ length (hs_commands host_demo_1) = 1%nat.
Proof. vm_compute. split; reflexivity. Qed.

Lemma leases_are_playbacks_witness :
  ∃ p, hs_active host_demo_1 !! 77 = Some p ∧ ah_heard_committed p = false.
Proof.
  destruct (leases_are_playbacks host_demo_0 host_demo_1) as (_ & Howned & _).
  - exact demo_reachable_4.
  - vm_compute. reflexivity.
  - reflexivity.
  - exact host_demo_run.
  - destruct host_demo_started as [El _]. destruct (db_leases (hs_store host_demo_1)) as [|row l]; [discriminate El|].
    injection El as El _. destruct (Howned row (list_elem_of_here _ _)) as (p & Hp & Hh & _). rewrite El in Hp.
    exists p. split; [exact Hp | exact Hh].
Defined.

End playback.

(** * Summary runs on the demonstration's store: the concrete inputs of the witnesses

    The third-party services are the poorest there are: an empty object cache, a model and
    a speech service that answer with an error. *)

Section runs.

#[local] Existing Instance demo_externals.
#[local] Existing Instance demo_crypto.
#[local] Instance demo_summary_serde : SummarySerde := {| document_from_json _ := None; document_to_json _ := None |}.
#[local] Instance demo_manifest_serde : ManifestSerde := {| manifest_from_json _ := None; manifest_to_json _ := None |}.
#[local] Instance demo_empty_cache : ObjectCache unit :=
  {| cache_read _ _ := Err MissingObject; cache_publish_or_verify _ _ c := (Err MissingObject, c) |}.
#[local] Instance demo_generator : SummaryGenerator unit := {| generate _ _ := Err tt |}.
#[local] Instance demo_service : SummarySynthesizer := {| synthesize _ _ _ := Err TtsUnavailable |}.

(** The second claim of the demonstration is in progress in [demo_7]; the first summary is
    then heard. *)
Definition demo_row2 : SummaryRow :=
  default (new_claim_row 0 [] [] [] 0 None) (last (db_summaries demo_7)).

Lemma demo_row2_in : demo_row2 ∈ db_summaries demo_7.
Proof. apply (bool_decide_unpack _). vm_compute. exact I. Qed.

Lemma demo_not_given_up : ¬ given_up demo_task (sm_generation demo_row2) demo_8.
Proof.
  assert (Forall (λ r, sm_state r ≠ Abandoned) (db_summaries demo_8)) as Hall.
  { apply (bool_decide_unpack _). vm_compute. exact I. }
  rewrite Forall_forall in Hall. intros (r & Hr & _ & Ea). by destruct (Hall r Hr).
Qed.

Lemma heard_during_generation_wedges_witness :
  ∃ e, summarize_task (E:=unit) 30 id id demo_task (ascii_bytes "r3") (mk_run demo_8 tt [])
       = (Err (StoreFault e), mk_run demo_8 tt []).
Proof.
  destruct (heard_during_generation_wedges (C:=unit) (E:=unit) 30 id id demo_task demo_row2 demo_lease 17 demo_7 demo_8 demo_8)
    as [_ Hrun].
  - exact demo_reachable_7.
  - exact demo_row2_in.
  - vm_compute. reflexivity.
  - apply (bool_decide_unpack _). vm_compute. exact I.
  - vm_compute. reflexivity.
  - apply Exists_exists. apply (bool_decide_unpack _). vm_compute. exact I.
  - exact demo_finish_ran.
  - reflexivity.
  - exact demo_not_given_up.
  - apply (Hrun _ (mk_run demo_8 tt [])); [reflexivity|]. apply Forall_forall.
    apply (bool_decide_unpack _). vm_compute. exact I.
Defined.

(** The first claim, its attempt on record. *)
Definition demo_begin_run := begin_summary_tts_attempt 13 demo_claim1 demo_3.
Definition demo_asked : Db := db_of demo_begin_run.

Lemma demo_reachable_asked : reachable demo_asked.
Proof.
  unfold reachable. eapply rtc_r; [exact demo_steps_3|]. eapply (step_begin_attempt _ _ 13 demo_claim1).
  apply (ran _ Ambiguous). vm_compute. reflexivity.
Qed.

(** A service that answers. *)
Definition demo_spoken : SummarySynthesizer :=
  {| synthesize _ voice _ := Ok (mk_tts demo_pcm TTS_MODEL voice TTS_SAMPLE_RATE (blen demo_pcm / 2) None (ascii_bytes "direct") 1) |}.

Lemma speech_requested_once_witness :
  run_with (C:=unit) (E:=unit) 30 demo_claim1 id demo_spoken id (mk_run demo_asked tt [])
  = run_with 30 demo_claim1 id demo_service id (mk_run demo_asked tt []).
Proof.
  apply (speech_requested_once (C:=unit) (E:=unit) 30 demo_claim1 id (mk_run demo_asked tt [])) with (db0 := demo_asked).
  - exact demo_reachable_asked.
  - apply Exists_exists. apply (bool_decide_unpack _). vm_compute. exact I.
  - reflexivity.
  - intros db. reflexivity.
  - intros r Hr _. revert r Hr. apply Forall_forall. apply (bool_decide_unpack _). vm_compute. exact I.
Defined.

(** The worker on a database whose only task always fails: it is run, passed over, and run
    again after the back-off. *)
Definition demo_around (checked finished : Z) : Around (E:=unit) :=
  mk_around false checked 30 (u64_to_string checked) (λ _ _, Err tt) (λ _ _ _, Err TtsUnavailable) id id id finished.
Definition demo_lap (checked : Z) : Lap (E:=unit) := mk_lap (λ _, demo_around checked (checked + 100)) id.
Definition demo_laps : list (Lap (E:=unit)) := demo_lap <$> [0; 400; 700; 30000; 30200].
Definition demo_worker_run := run_ready demo_laps (new_worker demo_2 tt).

Lemma backoff_is_kept_witness :
  demo_worker_run.1
  = [Attempted demo_task 0 100 (Err (SparkFault tt)); BackedOff demo_task 700;
     Attempted demo_task 30200 30300 (Err (SparkFault tt))]
  ∧ 100 + FAILURE_BACKOFF <= 30200.
Proof.
  assert (demo_worker_run.1
    = [Attempted demo_task 0 100 (Err (SparkFault tt)); BackedOff demo_task 700;
       Attempted demo_task 30200 30300 (Err (SparkFault tt))]) as Hlog by (vm_compute; reflexivity).
  split; [exact Hlog|].
  destruct (backoff_is_kept demo_laps demo_2 tt demo_worker_run.1 demo_worker_run.2) as [Hgap _].
  - apply surjective_pairing.
  - rewrite Hlog in Hgap. refine (Hgap demo_task 0 100 (Err (SparkFault tt)) 30200 30300 (Err (SparkFault tt)) []
      [BackedOff demo_task 700] [] FAILURE_BACKOFF eq_refl _ eq_refl).
    constructor; [by intros (? & ? & ? & ?)|constructor].
Defined.

Lemma every_task_gets_a_turn_witness : ∃ e, e ∈ demo_worker_run.1 ∧ event_task e = demo_task.
Proof.
  apply (every_task_gets_a_turn [demo_task] demo_task demo_laps (new_worker demo_2 tt) demo_worker_run.1 demo_worker_run.2).
  - apply surjective_pairing.
  - intros l k Hl. unfold demo_laps in Hl. apply list_elem_of_fmap in Hl as (c & -> & _). reflexivity.
  - assert (∀ db, summary_work db = [demo_task] → working [demo_task] demo_task db) as Hwork.
    { intros db Hdb. unfold working. rewrite Hdb. split; [constructor|]. split; [done|]. repeat constructor. }
    cbn -[lap new_worker demo_lap]. repeat split; apply Hwork; vm_compute; reflexivity.
  - cbn. lia.
Defined.

(** The model writes a summary, the speech service fails after the request was committed:
    the claim is abandoned with the outcome [Idle], which the worker does not count as a
    failure.  The task is claimed and spoken again on the next pages, with no back-off. *)
Definition demo_document (claim : SummaryClaim) : SummaryDocument :=
  mk_document 1 [ascii_bytes "done"] [] [] (ascii_bytes "done") [] (pc_completion_id <$> sc_completions claim).
Definition demo_speaking (error : TtsError) (checked : Z) : Lap (E:=unit) :=
  mk_lap (λ _, mk_around false checked checked (u64_to_string checked) (λ claim _, Ok (demo_document claim))
    (λ _ _ _, Err error) id id id checked) id.
Definition demo_spoken_run (error : TtsError) := run_ready (demo_speaking error <$> [1000; 1250; 1500; 1750; 2000]) (new_worker demo_2 tt).

Lemma ambiguous_speech_is_repeated_at_once :
  (demo_spoken_run TtsAmbiguousAfterCommit).1
  = [Attempted demo_task 1000 1000 (Ok Idle); Attempted demo_task 1500 1500 (Ok Idle); Attempted demo_task 2000 2000 (Ok Idle)]
  ∧ ((λ r, (sm_generation r, sm_state r)) <$> db_summaries (wk_store (demo_spoken_run TtsAmbiguousAfterCommit).2))
    = [(1, Abandoned); (2, Abandoned); (3, Abandoned)]
  ∧ (demo_spoken_run TtsUnavailable).1
    = [Attempted demo_task 1000 1000 (Err (TtsFault TtsUnavailable)); BackedOff demo_task 1500; BackedOff demo_task 2000].
Proof. split; [|split]; vm_compute; reflexivity. Qed.

End runs.

(** * The catalogue, the queue service and the scheduler on small inputs *)

Section prompts.

(** A JSON crate that reads every text as the empty object. *)
Definition empty_serde : Serde := {| json_from_slice b := Some (JObject []); turn_pack_to_string p := Some (tp_turn_id p) |}.
Definition empty_index : IndexSerde := {| session_index_row b := None |}.
#[local] Existing Instance demo_externals.
#[local] Existing Instance demo_crypto.
#[local] Existing Instance empty_serde.
#[local] Existing Instance empty_index.

Definition demo_thread (id : string) (archived recency : Z) (source : string) : ThreadRow :=
  mk_thread (key id) (Some (key "Name")) None (Some (key "/w")) (Some (key "/h/sessions/r.jsonl")) (Some archived)
    (Some recency) None (Some 1) (Some (key source)) None None.

Definition demo_files (n : nat) : CatalogFiles :=
  mk_files (Ok (key "{}")) (Ok []) (Ok tt)
    (Ok [demo_thread "old" 0 5 "cli"; demo_thread "gone" 1 9 "cli"; demo_thread "helper" 0 8 " SubAgent "; demo_thread "task" 0 7 "cli"])
    (Ok tt) (λ _, Ok true).

(** The archived task and the sub-agent's are not offered. *)
Example demo_catalogue :
  match list_tasks (key "/h") demo_files with Ok l => ct_task_id <$> l | Err _ => [] end = [key "task"; key "old"].
Proof. vm_compute. reflexivity. Qed.

Definition demo_allowed : CodexTask := mk_task (key "task") (key "Name") (key "w") (key "/w") (key "/h/sessions/r.jsonl") 1000 false.

Lemma allowlisted_task_is_user_thread_witness :
  allowlisted (key "/h") demo_files demo_task = Ok demo_allowed ∧ ct_task_id demo_allowed = demo_task.
Proof.
  assert (allowlisted (key "/h") demo_files demo_task = Ok demo_allowed) as E by (vm_compute; reflexivity).
  split; [exact E|]. apply (allowlisted_task_is_user_thread (key "/h") demo_files demo_task demo_allowed E).
Defined.

(** Key 1 is bound to the task. *)
Definition demo_bound : Db := db_of (set_binding 11 1 None demo_task empty_db).
Definition demo_spoken_prompt := enqueue_slot (key "/h") demo_files 12 1 (ascii_bytes "req") (ascii_bytes "do it") demo_bound.

Lemma prompt_reaches_bound_task_witness :
  ∃ b task, allowlisted (key "/h") demo_files (bd_task_id b) = Ok task ∧ ct_task_id task = bd_task_id b
    ∧ (length (db_jobs demo_spoken_prompt.2) = 1)%nat.
Proof.
  assert (demo_spoken_prompt = (Ok EnqueueInserted, demo_spoken_prompt.2)) as E by (vm_compute; reflexivity).
  unfold demo_spoken_prompt at 1 in E.
  pose proof (prompt_reaches_bound_task _ _ _ _ _ _ _ _ _ E)
    as (b & r & task & _ & _ & _ & _ & Ha & Hid & _).
  exists b, task. split; [exact Ha|]. split; [exact Hid|]. vm_compute. reflexivity.
Defined.

(** A job is queued, started by a tick and ends. *)
Definition demo_tick := tick (λ n, 21 + Z.of_nat n) new_scheduler demo_q1.
Definition demo_running : DurablePromptScheduler := mk_scheduler [] {[ascii_bytes "req" := mk_worker (demo_job_claimed 1 0) false false]}.
Definition demo_ended : DurablePromptScheduler :=
  mk_scheduler [mk_result (ascii_bytes "req") 1 (Ok tt)] {[ascii_bytes "req" := mk_worker (demo_job_claimed 1 0) false true]}.

Lemma demo_host_ended : host_reachable (demo_ended, demo_q2).
Proof.
  apply (rtc_l _ _ (new_scheduler, demo_q1)).
  { apply Elsewhere. left. eexists _, _, _. apply demo_enqueue_ran. }
  apply (rtc_l _ _ (demo_running, demo_q2)).
  { apply (Tick (λ n, 21 + Z.of_nat n) _ _ (Ok tt)). vm_compute. reflexivity. }
  apply rtc_once. apply (WorkerDone (ascii_bytes "req") (Ok tt)). vm_compute. reflexivity.
Qed.

Lemma scheduler_runs_claimed_jobs_witness : in_flight demo_ended <= MAX_GLOBAL_RUNNING_JOBS.
Proof. apply (scheduler_runs_claimed_jobs demo_ended demo_q2 demo_host_ended). Defined.

Lemma tick_settles_witness :
  ∃ self' db', tick (λ n, 31 + Z.of_nat n) demo_ended demo_q2 = (Ok tt, self', db')
    ∧ recorded (mk_result (ascii_bytes "req") 1 (Ok tt)) db'.
Proof.
  assert (claims_left demo_q2) as Hleft.
  { assert (Forall (λ c, jb_claim_generation c < i64_max) (db_jobs demo_q2)) as Hall
      by (apply (bool_decide_unpack _); vm_compute; exact I).
    intros c Hc _. rewrite Forall_forall in Hall. by apply Hall. }
  destruct (tick_settles (λ n, 31 + Z.of_nat n) demo_ended demo_q2 demo_host_ended Hleft)
    as (self' & db' & Ht & _ & Hrec & _).
  exists self', db'. split; [exact Ht|]. apply Hrec. left.
Defined.

End prompts.

(** * The control endpoint on small inputs *)

Section control.
#[local] Existing Instance demo_externals.
#[local] Existing Instance demo_crypto.
#[local] Existing Instance empty_serde.
#[local] Existing Instance empty_index.

(** A serializer: any injective code, here in the digits 0 and 1.  One reply gets a short
    line of its own, so that it is computed with quickly. *)
#[local] Instance HostRequest_eq_dec : EqDecision HostRequest.
Proof. solve_decision. Defined.
#[local] Instance HostRequest_countable : Countable HostRequest.
Proof.
  apply (inj_countable'
    (λ r, match r with Health v => inl v | Dashboard v => inr (inl v) | BindSlot v s t e => inr (inr (v, s, t, e)) end)
    (λ c, match c with inl v => Health v | inr (inl v) => Dashboard v | inr (inr (v, s, t, e)) => BindSlot v s t e end)).
  by intros [].
Defined.

#[local] Instance HealthSnapshot_eq_dec : EqDecision HealthSnapshot.
Proof. solve_decision. Defined.
#[local] Instance DashboardTask_eq_dec : EqDecision DashboardTask.
Proof. solve_decision. Defined.
#[local] Instance DashboardSlot_eq_dec : EqDecision DashboardSlot.
Proof. solve_decision. Defined.
#[local] Instance ProviderSnapshot_eq_dec : EqDecision ProviderSnapshot.
Proof. solve_decision. Defined.
#[local] Instance LanVoiceDiagnosticsSnapshot_eq_dec : EqDecision LanVoiceDiagnosticsSnapshot.
Proof. solve_decision. Defined.
#[local] Instance DashboardSnapshot_eq_dec : EqDecision DashboardSnapshot.
Proof. solve_decision. Defined.

#[local] Instance HealthSnapshot_countable : Countable HealthSnapshot.
Proof.
  apply (inj_countable' (λ '(mk_health a b c d e f g h), (a, b, c, d, e, f, g, h)) (λ '(a, b, c, d, e, f, g, h), mk_health a b c d e f g h)).
  by intros [].
Defined.
#[local] Instance DashboardTask_countable : Countable DashboardTask.
Proof.
  apply (inj_countable' (λ '(mk_dashboard_task a b c d e), (a, b, c, d, e)) (λ '(a, b, c, d, e), mk_dashboard_task a b c d e)).
  by intros [].
Defined.
#[local] Instance DashboardSlot_countable : Countable DashboardSlot.
Proof.
  apply (inj_countable' (λ '(mk_dashboard_slot a b c d e f g h i j), (a, b, c, d, e, f, g, h, i, j))
    (λ '(a, b, c, d, e, f, g, h, i, j), mk_dashboard_slot a b c d e f g h i j)).
  by intros [].
Defined.
#[local] Instance ProviderSnapshot_countable : Countable ProviderSnapshot.
Proof.
  apply (inj_countable' (λ '(mk_provider a b c d e), (a, b, c, d, e)) (λ '(a, b, c, d, e), mk_provider a b c d e)).
  by intros [].
Defined.
#[local] Instance LanVoiceDiagnosticsSnapshot_countable : Countable LanVoiceDiagnosticsSnapshot.
Proof.
  apply (inj_countable'
    (λ '(mk_diagnostics a b c d e f g h i j k l m n o p q r s t), (a, b, c, d, e, f, g, h, i, j, (k, l, m, n, o, p, q, r, s, t)))
    (λ '(a, b, c, d, e, f, g, h, i, j, (k, l, m, n, o, p, q, r, s, t)), mk_diagnostics a b c d e f g h i j k l m n o p q r s t)).
  by intros [].
Defined.
#[local] Instance DashboardSnapshot_countable : Countable DashboardSnapshot.
Proof.
  apply (inj_countable' (λ '(mk_dashboard a b c d e), (a, b, c, d, e)) (λ '(a, b, c, d, e), mk_dashboard a b c d e)).
  by intros [].
Defined.

Fixpoint digits (p : positive) : bytes :=
  match p with xH => [] | xO p => 48 :: digits p | xI p => 49 :: digits p end.
Fixpoint of_digits (b : bytes) : positive :=
  match b with [] => xH | d :: b => if d =? 48 then xO (of_digits b) else xI (of_digits b) end.

Lemma of_digits_digits p : of_digits (digits p) = p.
Proof. induction p as [p IH|p IH|]; cbn; congruence. Qed.
Lemma digits_one_line p : 10 ∉ digits p.
Proof. induction p; cbn; rewrite ?not_elem_of_cons, ?elem_of_nil; naive_solver. Qed.

Definition demo_diagnostics : LanVoiceDiagnosticsSnapshot :=
  mk_diagnostics true true true 0 0 0 0 0 0 0 0 0 0 0 0 0 0 0 0 0.

(** The dashboard of the store in which key 1 is bound. *)
Definition built (files : nat → CatalogFiles) : result text DashboardSnapshot :=
  build_dashboard (key "/h") files demo_diagnostics true demo_bound.
Definition demo_dashboard : option DashboardSnapshot := match built demo_files with Ok d => Some d | Err _ => None end.

#[local] Instance digits_serde : ControlSerde := {|
  request_to_vec r := digits (encode r);
  request_from_slice b := decode (of_digits b);
  authenticated_to_vec token r := digits (encode (token, r));
  authenticated_from_slice b := decode (of_digits b);
  reply_to_vec r :=
    match r with
    | ReplyHealth h => 104 :: digits (encode h)
    | ReplyDashboard d => if bool_decide (Some d = demo_dashboard) then [68] else 100 :: digits (encode d)
    | ReplyError v ok e => 101 :: digits (encode (v, ok, e))
    end;
  health_from_slice b := match b with 104 :: b => decode (of_digits b) | _ => None end;
  dashboard_from_slice b :=
    match b with 68 :: _ => demo_dashboard | 100 :: b => decode (of_digits b) | _ => None end;
  error_reply_from_slice b := match b with 101 :: b => decode (of_digits b) | _ => None end;
|}.

#[local] Instance digits_laws : ControlSerdeLaws.
Proof.
  split; cbn; intros; rewrite ?of_digits_digits, ?decode_encode; try done; try apply digits_one_line.
  - destruct r; [|case_bool_decide|]; rewrite ?not_elem_of_cons, ?elem_of_nil;
      (split; [done|]); (apply digits_one_line || tauto).
  - case_bool_decide; [congruence|]. by rewrite of_digits_digits, decode_encode.
  - by case_bool_decide.
Qed.

Lemma demo_bound_inv : store_inv demo_bound.
Proof.
  assert (set_binding 11 1 None demo_task empty_db = Ok (Some (mk_binding 1 demo_task 1), demo_bound)) as E by (vm_compute; reflexivity).
  eapply set_binding_inv; [exact E|exact inv_empty].
Qed.

Lemma demo_files_keyed : threads_keyed demo_files.
Proof. intros n threads [= <-]. apply (bool_decide_unpack _). vm_compute. exact I. Qed.

(** The request as it is sent, and the reply cut in two. *)
Definition demo_request_line : bytes := request_line None (Dashboard HEALTH_PROTOCOL_VERSION).
Definition demo_asks : list ReadOutcome := [ReadBytes (take 3 demo_request_line); ReadInterrupted; ReadBytes (drop 3 demo_request_line ++ [10])].
Definition demo_answers : list ReadOutcome := [ReadBytes [68]; ReadBytes [10]].

Lemma demo_asks_delivered : delivers demo_asks (demo_request_line ++ [10]).
Proof.
  replace (demo_request_line ++ [10]) with (take 3 demo_request_line ++ (drop 3 demo_request_line ++ [10]) ++ []).
  2:{ by rewrite app_nil_r, app_assoc, take_drop. }
  apply delivers_chunk; [by vm_compute|]. apply delivers_interrupted. apply delivers_chunk; [by vm_compute|constructor].
Qed.

Lemma control_line_round_trip_witness :
  read_bounded MAX_RESPONSE_BYTES ResponseLimit [] demo_answers = Ok [68].
Proof.
  apply (control_line_round_trip MAX_RESPONSE_BYTES ResponseLimit [68] [] demo_answers).
  - by rewrite list_elem_of_singleton.
  - apply (delivers_chunk [68] _ [10]); [done|]. apply (delivers_chunk [10] _ []); [done|constructor].
Defined.

Lemma dashboard_reaches_the_desktop_witness :
  ∃ d, demo_dashboard = Some d ∧ query_dashboard demo_answers = Ok d
    ∧ (sl_task_id <$> dd_slots d) = [Some demo_task; None; None; None].
Proof.
  destruct demo_dashboard as [d|] eqn:Ed; [|by vm_compute in Ed]. exists d. split; [done|].
  assert (built demo_files = Ok d) as Eb by (unfold demo_dashboard in Ed; destruct (built demo_files); congruence).
  split.
  - assert (reply_to_vec (ReplyDashboard d) = [68]) as Er by (cbn; by rewrite Ed, bool_decide_eq_true_2).
    destruct (dashboard_reaches_the_desktop (key "/h") demo_files demo_diagnostics true demo_bound None
      (mk_health 1 true [49] 1 0 [] 6 0) demo_asks (ReplyDashboard d) demo_answers) as [E _];
      [..|rewrite E, Er; unfold built in Eb; rewrite Eb; vm_compute; reflexivity].
    + exact demo_bound_inv.
    + exact demo_files_keyed.
    + exact demo_asks_delivered.
    + vm_compute. reflexivity.
    + rewrite (handle_client_line None _ _ (Dashboard HEALTH_PROTOCOL_VERSION)) by (exact demo_asks_delivered || (vm_compute; reflexivity)).
      rewrite Z.eqb_refl. unfold forward_control, process_control_request. cbn [fst]. unfold built in Eb. by rewrite Eb.
    + rewrite Er. apply (delivers_chunk [68] _ [10]); [done|]. apply (delivers_chunk [10] _ []); [done|constructor].
  - assert ((λ d, sl_task_id <$> dd_slots d) <$> demo_dashboard = Some [Some demo_task; None; None; None]) as E by (vm_compute; reflexivity).
    rewrite Ed in E. by injection E.
Defined.

(** A task of the catalogue that works in the root directory has a project without a name:
    the host builds its dashboard, and the desktop refuses it as a whole. *)
Definition root_files (n : nat) : CatalogFiles :=
  mk_files (Ok (key "{}")) (Ok []) (Ok tt)
    (Ok [mk_thread (key "task") (Some (key "Name")) None (Some (key "/")) (Some (key "/h/sessions/r.jsonl")) (Some 0)
           (Some 7) None (Some 1) (Some (key "cli")) None None])
    (Ok tt) (λ _, Ok true).

Theorem task_in_root_directory_hides_dashboard :
  match built root_files with Ok d => validate_dashboard d = Err InvalidResponse | Err _ => False end.
Proof. vm_compute. reflexivity. Qed.

Definition demo_rebind := process_control_request (key "/h") demo_files demo_files 12 demo_diagnostics true
  (ControlBindSlot 1 demo_task (Some 1)) demo_bound.

Lemma bind_request_swaps_or_refuses_witness :
  binding 1 demo_rebind.2 = Ok (Some (mk_binding 1 demo_task 2), demo_rebind.2).
Proof.
  assert (demo_rebind = (demo_rebind.1, demo_rebind.2)) as E by (by destruct demo_rebind).
  unfold demo_rebind at 1 in E.
  destruct (bind_request_swaps_or_refuses (key "/h") _ _ _ _ _ _ _ _ _ _ _ demo_bound_inv E) as [[[Er|Er] _]|(_ & _ & Hb & _)].
  - exfalso. vm_compute in Er. discriminate Er.
  - exfalso. vm_compute in Er. discriminate Er.
  - exact Hb.
Defined.

End control.

(** * The main loop on small inputs

    A client binds key 1; a prompt is spoken to it, queued and started. *)

Section host_loop.
#[local] Existing Instance demo_externals.
#[local] Existing Instance demo_crypto.
#[local] Existing Instance empty_serde.
#[local] Existing Instance empty_index.

Definition quiet_surroundings : Surroundings := mk_surroundings 20 [0; 77] true (λ _, None) (λ _, true).

Definition demo_turn_at (ms : Z) : Turn :=
  mk_turn false false ms ms 1 true (λ _, demo_files) (λ _, 12) (λ _, quiet_surroundings) (λ _, 13) (λ _, demo_files) (λ _, 11)
    (λ _, demo_diagnostics) (λ _, true) Connected.

Definition loop_0 : Daemon := set_control [ControlBindSlot 1 demo_task None] [] (new_daemon empty_db).
Definition loop_1 : Daemon := (iteration (key "/h") (demo_turn_at 1000) loop_0).2.
Definition loop_2 : Daemon := set_prompts (dm_counters loop_1) [mk_prompt 1 (ascii_bytes "req") (ascii_bytes "do it")] loop_1.
Definition loop_3 : Daemon := (iteration (key "/h") (demo_turn_at 1300) loop_2).2.

(** The prompt runs, its client is served, and the lights are off, as they were. *)
Example loop_ran :
  in_flight (dm_scheduler loop_3) = 1 ∧ dm_clients loop_3 = 2 ∧ qc_inserted (dm_counters loop_3) = 1
  ∧ lights (hs_commands (dm_host loop_3)) = [mk_mailbox 0 1 [0; 0; 0; 0]].
Proof. vm_compute. split_and!; reflexivity. Qed.

Lemma loop_reachable : daemon_reachable (key "/h") (loop_3, Some AtHead).
Proof.
  assert (daemon_reachable (key "/h") (loop_0, Some AtHead)) as R0.
  { by apply rtc_once, (RequestArrives (key "/h") _ (new_daemon empty_db) (ControlBindSlot 1 demo_task None)). }
  assert (iteration (key "/h") (demo_turn_at 1000) loop_0 = (Ok tt, loop_1)) as E1 by (vm_compute; reflexivity).
  apply round_reachable in E1; [|exact R0|reflexivity].
  assert (daemon_reachable (key "/h") (loop_2, Some AtHead)) as R2.
  { eapply rtc_r; [exact E1|]. by apply (PromptArrives (key "/h") _ loop_1 (mk_prompt 1 (ascii_bytes "req") (ascii_bytes "do it"))). }
  assert (iteration (key "/h") (demo_turn_at 1300) loop_2 = (Ok tt, loop_3)) as E3 by (vm_compute; reflexivity).
  apply round_reachable in E3; [exact E3|exact R2|vm_compute; reflexivity].
Qed.

(** In the middle of reading the lights. *)
Definition loop_4 : Config := ((advance_loop (key "/h") (demo_turn_at 1600) AtHead loop_3).2, Some (Refreshing [mk_binding 1 demo_task 1] (mk_snapshot 0 [0; 0; 0; 0]))).

Lemma loop_4_reachable : daemon_reachable (key "/h") loop_4.
Proof.
  eapply rtc_r; [exact loop_reachable|]. apply (LoopAdvances (key "/h") (demo_turn_at 1600)); [exact I|]. vm_compute. reflexivity.
Qed.

Lemma host_parts_agree_witness : in_flight (dm_scheduler loop_4.1) <= MAX_GLOBAL_RUNNING_JOBS.
Proof. apply (host_parts_agree (key "/h") loop_4.1 _ loop_4_reachable). Defined.

Lemma loop_counters_left : claims_left (dm_store loop_3).
Proof.
  assert (Forall (λ c, jb_claim_generation c < i64_max) (db_jobs (dm_store loop_3))) as Hall
    by (apply (bool_decide_unpack _); vm_compute; exact I).
  intros c Hc _. rewrite Forall_forall in Hall. by apply Hall.
Qed.


Lemma lights_show_the_store_witness :
  ∃ d', iteration (key "/h") (demo_turn_at 1600) loop_3 = (Ok tt, d')
    ∧ ∃ current, last (lights (hs_commands (dm_host d'))) = Some current ∧ mb_running_tasks current = 1.
Proof.
  destruct (lights_show_the_store (key "/h") (demo_turn_at 1600) loop_3 loop_reachable loop_counters_left)
    as (d' & s & current & E & _ & _ & Ec & El & _); [vm_compute; discriminate|reflexivity|reflexivity|reflexivity|discriminate|vm_compute; discriminate|].
  exists d'. split; [exact E|]. exists current. split; [exact El|]. by rewrite Ec.
Defined.

End host_loop.
