(* ===== verification/RolloutScan.v ===== *)
(** * Polling a rollout (app/host/src/rollout_observer.rs, [RolloutObserver])

    A poll reads at most 4 MiB of a task's rollout from where the last one stopped, splits
    it into records, and commits each completed turn to the store after reading the bytes
    it came from a second time.  The file may change between any two system calls: [world]
    gives what the n-th call sees.  The store is reached through [RolloutStateAccess]. *)

From stdpp Require Import gmap.
From S2P Require Import Prelude Bytes StoreTypes StoreRollout Redact TurnPack RecordParser.

Definition MAX_ROLLOUT_LINE_BYTES : Z := 256 * 1024.
Definition MAX_SCAN_BYTES_PER_POLL : Z := 4 * 1024 * 1024.
Definition ROLLOUT_ANCHOR_BYTES : Z := 4 * 1024.
Definition DEFAULT_POLL_INTERVAL : Z := 1000.

(** The capacity of a [BufReader]. *)
Definition BUFFER_BYTES : Z := 8 * 1024.

Record ObservedCompletion := mk_observed {
  oc_completion_id : text;
  oc_outcome : CompletionOutcome;
}.

Record ObserverTick := mk_tick {
  ot_inserted : nat;
  ot_replayed : nat;
  ot_failed_tasks : nat;
  ot_running_tasks : nat;
}.
Definition default_tick : ObserverTick := mk_tick 0 0 0 0.

(** The fields of [CodexTask] the observer reads. *)
Record ObservedTask := mk_task { tk_task_id : text; tk_rollout_path : path }.

(** A [Sha256] in progress is the text it was fed. *)
Record CompletionVerification := mk_verification {
  cv_start_offset : Z;
  cv_end_offset : Z;
  cv_offset : Z;
  cv_digest : bytes;
  cv_expected_digest : bytes;
  cv_completion_id : text;
  cv_turn_pack : text;
}.

Record StreamingLine := mk_streaming {
  sl_start_offset : Z;
  sl_parser : StreamingRecordParser;
}.

Record PendingScan := mk_scan {
  ps_expected : option RolloutCursor;
  ps_rollout_path : path;
  ps_device : Z;
  ps_inode : Z;
  ps_generation : Z;
  ps_offset : Z;
  ps_anchor : bytes;
  ps_trusted_offset : Z;
  ps_trusted_anchor : bytes;
  ps_trusted_prefix_len : Z;
  ps_trusted_prefix_anchor : bytes;
  ps_trusted_range : bytes;
  ps_active : option TurnBuilder;
  ps_streaming_line : option StreamingLine;
  ps_verification : option CompletionVerification;
}.

Definition scan_at (offset : Z) (anchor : bytes) (scan : PendingScan) : PendingScan :=
  mk_scan (ps_expected scan) (ps_rollout_path scan) (ps_device scan) (ps_inode scan) (ps_generation scan)
    offset anchor (ps_trusted_offset scan) (ps_trusted_anchor scan) (ps_trusted_prefix_len scan)
    (ps_trusted_prefix_anchor scan) (ps_trusted_range scan) (ps_active scan) (ps_streaming_line scan)
    (ps_verification scan).

Definition scan_trusting (offset : Z) (anchor : bytes) (prefix_len : Z) (prefix : bytes) (scan : PendingScan)
    : PendingScan :=
  mk_scan (ps_expected scan) (ps_rollout_path scan) (ps_device scan) (ps_inode scan) (ps_generation scan)
    (ps_offset scan) (ps_anchor scan) offset anchor prefix_len prefix [] (ps_active scan)
    (ps_streaming_line scan) (ps_verification scan).

Definition scan_hashed (more : bytes) (scan : PendingScan) : PendingScan :=
  mk_scan (ps_expected scan) (ps_rollout_path scan) (ps_device scan) (ps_inode scan) (ps_generation scan)
    (ps_offset scan) (ps_anchor scan) (ps_trusted_offset scan) (ps_trusted_anchor scan)
    (ps_trusted_prefix_len scan) (ps_trusted_prefix_anchor scan) (ps_trusted_range scan ++ more)
    (ps_active scan) (ps_streaming_line scan) (ps_verification scan).

Definition scan_verifying (v : option CompletionVerification) (scan : PendingScan) : PendingScan :=
  mk_scan (ps_expected scan) (ps_rollout_path scan) (ps_device scan) (ps_inode scan) (ps_generation scan)
    (ps_offset scan) (ps_anchor scan) (ps_trusted_offset scan) (ps_trusted_anchor scan)
    (ps_trusted_prefix_len scan) (ps_trusted_prefix_anchor scan) (ps_trusted_range scan)
    (ps_active scan) (ps_streaming_line scan) v.

Definition scan_reading (active : option TurnBuilder) (streaming : option StreamingLine) (scan : PendingScan)
    : PendingScan :=
  mk_scan (ps_expected scan) (ps_rollout_path scan) (ps_device scan) (ps_inode scan) (ps_generation scan)
    (ps_offset scan) (ps_anchor scan) (ps_trusted_offset scan) (ps_trusted_anchor scan)
    (ps_trusted_prefix_len scan) (ps_trusted_prefix_anchor scan) (ps_trusted_range scan)
    active streaming (ps_verification scan).

Definition scan_expecting (next : RolloutCursor) (scan : PendingScan) : PendingScan :=
  mk_scan (Some next) (ps_rollout_path scan) (ps_device scan) (ps_inode scan) (ps_generation scan)
    (ps_offset scan) (ps_anchor scan) (ps_trusted_offset scan) (ps_trusted_anchor scan)
    (ps_trusted_prefix_len scan) (ps_trusted_prefix_anchor scan) (ps_trusted_range scan)
    (ps_active scan) (ps_streaming_line scan) (ps_verification scan).

(** ** The store, as the observer sees it *)

Class RolloutStateAccess (S : Type) := {
  ra_bindings : S → result StoreError (list Binding);
  ra_rollout_cursor : text → S → result StoreError (option RolloutCursor);
  ra_commit_rollout_completion :
    option Binding → option RolloutCursor → RolloutCursor → text → text → S →
    result StoreError (CompletionOutcome * S);
}.

(** [StateStore] and [ObserverStateStore], whose methods share their implementation. *)
#[export] Instance store_access `{Externals} (now : Z) : RolloutStateAccess Db := {|
  ra_bindings db := let? r := bindings db in Ok r.1;
  ra_rollout_cursor task_id db := let? r := rollout_cursor task_id db in Ok r.1;
  ra_commit_rollout_completion binding expected next completion_id turn_pack :=
    match binding with
    | Some binding => commit_bound_rollout_completion now binding expected next completion_id turn_pack
    | None => commit_rollout_completion now expected next completion_id turn_pack
    end;
|}.

(** ** Effects *)

(** What a system call sees: the content of the open file, and the identity of the trusted
    regular file the path names, if it names one. *)
Record FileView := mk_view { fv_bytes : bytes; fv_identity : option (Z * Z) }.

Record Mach (S : Type) := mk_mach {
  mc_store : S;
  mc_pending : gmap text PendingScan;
  mc_clock : nat;
}.
Arguments mk_mach {S}.
Arguments mc_store {S}.
Arguments mc_pending {S}.
Arguments mc_clock {S}.

(** A computation of the observer: it may fail, and what it did before is kept. *)
Definition Obs (S A : Type) : Type := Mach S → result Fault A * Mach S.

Definition oret {S A} (a : A) : Obs S A := λ m, (Ok a, m).
Definition ofail {S A} (e : ObserverError) : Obs S A := λ m, (Err (Fail e), m).
Definition obind {S A B} (x : Obs S A) (k : A → Obs S B) : Obs S B :=
  λ m, match x m with (Ok a, m) => k a m | (Err e, m) => (Err e, m) end.
Definition olift {S A} (r : result Fault A) : Obs S A := λ m, (r, m).
(** [.is_ok()] *)
Definition succeeds {S A} (x : Obs S A) : Obs S bool :=
  λ m, match x m with (Ok _, m) => (Ok true, m) | (Err _, m) => (Ok false, m) end.

Declare Scope obs_scope.
Delimit Scope obs_scope with obs.
#[global] Open Scope obs_scope.
Notation "'let*' x ':=' m 'in' k" := (obind m (λ x, k))
  (at level 10, x binder, m at level 100, k at level 200) : obs_scope.

Definition orequire {S} (c : bool) (e : ObserverError) : Obs S unit :=
  if c then oret tt else ofail e.

Section poll.
Context `{Externals, Serde, Crypto} {S : Type} `{RolloutStateAccess S}.
Context (world : nat → option FileView).

Definition look : Obs S FileView := λ m,
  let m' := mk_mach (mc_store m) (mc_pending m) (Datatypes.S (mc_clock m)) in
  match world (mc_clock m) with
  | Some v => (Ok v, m')
  | None => (Err (Fail ObserverIo), m')
  end.

Definition read_at (len offset : Z) : Obs S bytes :=
  let* v := look in oret (take (Z.to_nat len) (drop (Z.to_nat offset) (fv_bytes v))).

Definition file_len : Obs S Z := let* v := look in oret (blen (fv_bytes v)).

(** A loop of [read_at] calls of at most [chunk] bytes until [want] bytes are read; an empty
    read is an error. *)
Fixpoint read_full (fuel : nat) (chunk want offset : Z) : Obs S bytes :=
  match fuel with
  | O => oret []
  | Datatypes.S fuel =>
      if want <=? 0 then oret []
      else
        let* data := read_at (Z.min chunk want) offset in
        let* _ := orequire (negb (bool_decide (data = []))) InvalidRollout in
        let* rest := read_full fuel chunk (want - blen data) (offset + blen data) in
        oret (data ++ rest)
  end.
Definition read_range (chunk want offset : Z) : Obs S bytes :=
  read_full (Z.to_nat want) chunk want offset.

(** ** The open rollout *)

Record GuardedRollout := mk_rollout { gr_device : Z; gr_inode : Z; gr_size : Z }.

(** A path without a parent or a file name is the root alone or ends in [..]. *)
Definition path_ok (p : path) : bool :=
  is_absolute p && negb (bool_decide ([46; 46] ∈ (path_components p).2))
  && negb (bool_decide ((path_components p).2 = [])).

Definition open (p : path) : Obs S GuardedRollout :=
  let* _ := orequire (path_ok p) UnsafePath in
  let* v := look in
  match fv_identity v with
  | None => ofail UnsafePath
  | Some (device, inode) => oret (mk_rollout device inode (blen (fv_bytes v)))
  end.

Definition verify_path_identity (rollout : GuardedRollout) : Obs S unit :=
  let* v := look in
  orequire (bool_decide (fv_identity v = Some (gr_device rollout, gr_inode rollout))) UnsafePath.

Record BufReader := mk_reader { br_buffer : bytes; br_position : Z }.

Definition fill_buf (r : BufReader) : Obs S BufReader :=
  match br_buffer r with
  | [] =>
      let* data := read_at BUFFER_BYTES (br_position r) in
      oret (mk_reader data (br_position r + blen data))
  | _ => oret r
  end.
Definition consume (n : nat) (r : BufReader) : BufReader :=
  mk_reader (drop n (br_buffer r)) (br_position r).

(** The position of the first line feed. *)
Definition newline_at (b : bytes) : option nat := fst <$> list_find (λ x, x = 10) b.

Fixpoint read_bounded_line (fuel : nat) (max_bytes : Z) (r : BufReader) (output : bytes) : Obs S bytes :=
  match fuel with
  | O => ofail RolloutTooLarge
  | Datatypes.S fuel =>
      let* r := fill_buf r in
      let available := br_buffer r in
      if bool_decide (available = []) then oret output
      else
        let n := match newline_at available with
                 | Some i => Datatypes.S i
                 | None => length available
                 end in
        let* _ := orequire (blen output + Z.of_nat n <=? max_bytes) RolloutTooLarge in
        let output := output ++ take n available in
        if bool_decide (last output = Some 10) then oret output
        else read_bounded_line fuel max_bytes (consume n r) output
  end.

Definition strip_last (b : Z) (l : bytes) : bytes :=
  if bool_decide (last l = Some b) then take (length l - 1) l else l.

Definition session_id (value : json) : option text :=
  (as_object value ≫= get_object "payload") ≫= get_str "id".

Definition validate_session_meta (rollout : GuardedRollout) (task_id : text) : Obs S unit :=
  let* v := look in
  let* _ := orequire (bool_decide (fv_identity v = Some (gr_device rollout, gr_inode rollout))) UnsafePath in
  let* line := read_bounded_line (Z.to_nat (MAX_ROLLOUT_LINE_BYTES + 1)) MAX_ROLLOUT_LINE_BYTES
                 (mk_reader [] 0) [] in
  let* _ := orequire (bool_decide (last line = Some 10)) InvalidRollout in
  let line := strip_last 13 (strip_last 10 line) in
  let* value := olift (of_option (Fail InvalidRollout) (json_from_slice line)) in
  let valid := bool_decide ((as_object value ≫= get_str "type") = Some (key "session_meta"))
               && bool_decide (session_id value = Some task_id) in
  let* _ := orequire valid InvalidRollout in
  verify_path_identity rollout.

Definition validate_line_boundary (offset : Z) : Obs S unit :=
  if offset =? 0 then oret tt
  else
    let* b := read_at 1 (offset - 1) in
    orequire (bool_decide (b = [10])) InvalidRollout.

Definition anchor_at (offset : Z) : Obs S bytes :=
  let* size := file_len in
  let* _ := orequire (offset <=? size) InvalidRollout in
  let start := Z.max 0 (offset - ROLLOUT_ANCHOR_BYTES) in
  let* data := read_range (offset - start) (offset - start) start in
  oret (sha256 data).

Definition hash_range (offset length : Z) : Obs S bytes :=
  let* end_ := olift (of_option (Fail RolloutTooLarge) (checked_add u64_max offset length)) in
  let* size := file_len in
  let* _ := orequire (end_ <=? size) InvalidRollout in
  let* data := read_range ROLLOUT_ANCHOR_BYTES length offset in
  oret (sha256 data).

(** ** The scan *)

Definition validate_trusted_range (scan : PendingScan) : Obs S unit :=
  let* anchor := anchor_at (ps_trusted_offset scan) in
  let* _ := orequire (bool_decide (anchor = ps_trusted_anchor scan)) InvalidRollout in
  let* prefix := hash_range (ps_trusted_offset scan) (ps_trusted_prefix_len scan) in
  orequire (bool_decide (prefix = ps_trusted_prefix_anchor scan)) InvalidRollout.

Definition trust_from (offset : Z) (scan : PendingScan) : Obs S PendingScan :=
  let* size := file_len in
  let* anchor := anchor_at offset in
  let prefix_len := Z.min (Z.max 0 (size - offset)) ROLLOUT_ANCHOR_BYTES in
  let* prefix := hash_range offset prefix_len in
  oret (scan_trusting offset anchor prefix_len prefix scan).

Definition start_verification (offset : Z) (completion_id turn_pack : text) (scan : PendingScan)
    : Obs S CompletionVerification :=
  let* _ := orequire (negb (offset <? ps_trusted_offset scan)
                      && match ps_verification scan with None => true | Some _ => false end) InvalidRollout in
  oret (mk_verification (ps_trusted_offset scan) offset (ps_trusted_offset scan) []
          (sha256 (ps_trusted_range scan)) completion_id turn_pack).

(** Reads on; the number of bytes read with the verification. *)
Definition advance (budget : Z) (v : CompletionVerification) : Obs S (Z * CompletionVerification) :=
  let* _ := orequire (negb (cv_offset v <? cv_start_offset v) && negb (cv_end_offset v <? cv_offset v))
              InvalidRollout in
  let wanted := Z.min (cv_end_offset v - cv_offset v) budget in
  let* data := read_range ROLLOUT_ANCHOR_BYTES wanted (cv_offset v) in
  let* offset := olift (of_option (Fail RolloutTooLarge) (checked_add u64_max (cv_offset v) (blen data))) in
  oret (blen data, mk_verification (cv_start_offset v) (cv_end_offset v) offset (cv_digest v ++ data)
                     (cv_expected_digest v) (cv_completion_id v) (cv_turn_pack v)).

Definition is_complete (v : CompletionVerification) : bool := cv_offset v =? cv_end_offset v.

Definition validate_digest (v : CompletionVerification) : Obs S unit :=
  orequire (is_complete v && bool_decide (sha256 (cv_digest v) = cv_expected_digest v)) InvalidRollout.

Definition commit_store (binding : option Binding) (expected : option RolloutCursor) (next : RolloutCursor)
    (completion_id turn_pack : text) : Obs S CompletionOutcome := λ m,
  match ra_commit_rollout_completion binding expected next completion_id turn_pack (mc_store m) with
  | Ok (outcome, store) => (Ok outcome, mk_mach store (mc_pending m) (mc_clock m))
  | Err _ => (Err (Fail ObserverStore), m)
  end.

Definition commit_verified_completion (binding : option Binding) (rollout : GuardedRollout)
    (task : ObservedTask) (scan : PendingScan) : Obs S (ObservedCompletion * PendingScan) :=
  let* v := olift (of_option (Fail InvalidRollout) (ps_verification scan)) in
  let* _ := validate_digest v in
  let offset := cv_end_offset v in
  let* anchor := anchor_at offset in
  let next := mk_cursor (tk_task_id task) (tk_rollout_path task) (gr_device rollout) (gr_inode rollout)
                offset (ps_generation scan) anchor in
  let* outcome := commit_store binding (ps_expected scan) next (cv_completion_id v) (cv_turn_pack v) in
  let* anchor := anchor_at offset in
  let scan := scan_at offset anchor (scan_expecting next (scan_verifying None scan)) in
  let* scan := trust_from offset scan in
  oret (mk_observed (cv_completion_id v) outcome, scan).

Definition fresh_scan (rollout : GuardedRollout) (task : ObservedTask) (stored : option RolloutCursor)
    : Obs S PendingScan :=
  let same_identity :=
    match stored with
    | Some c => path_eqb (rc_rollout_path c) (tk_rollout_path task) && (rc_device c =? gr_device rollout)
                && (rc_inode c =? gr_inode rollout) && (rc_offset c <=? gr_size rollout)
    | None => false
    end in
  let* same_stream :=
    match stored, same_identity with
    | Some c, true =>
        let* boundary := succeeds (validate_line_boundary (rc_offset c)) in
        if boundary then let* anchor := anchor_at (rc_offset c) in
                         oret (bool_decide (anchor = rc_anchor c))
        else oret false
    | _, _ => oret false
    end in
  let* position :=
    match stored, same_stream with
    | Some c, true => oret (rc_offset c, rc_generation c)
    | Some c, false =>
        let* generation := olift (of_option (Fail GenerationOverflow) (checked_add u64_max (rc_generation c) 1)) in
        oret (0, generation)
    | None, _ => oret (0, 1)
    end in
  let '(offset, generation) := position in
  let* anchor := anchor_at offset in
  let* trusted_anchor := anchor_at offset in
  trust_from offset
    (mk_scan stored (tk_rollout_path task) (gr_device rollout) (gr_inode rollout) generation offset anchor
       offset trusted_anchor 0 (sha256 []) [] None None None).

(** ** One poll *)

(** The variables of the reading loop. *)
Record LoopState := mk_loop {
  ln_scan : PendingScan;
  ln_reader : BufReader;
  ln_offset : Z;
  ln_line : bytes;
  ln_line_start : Z;
  ln_streaming : option StreamingLine;
  ln_active : option TurnBuilder;
  ln_scanned : Z;
  ln_incomplete : bool;
  ln_completions : list ObservedCompletion;
}.

Definition insert_pending (task_id : text) (scan : PendingScan) : Obs S unit :=
  λ m, (Ok tt, mk_mach (mc_store m) (<[task_id := scan]> (mc_pending m)) (mc_clock m)).
Definition remove_pending (task_id : text) : Obs S (option PendingScan) :=
  λ m, (Ok (mc_pending m !! task_id), mk_mach (mc_store m) (delete task_id (mc_pending m)) (mc_clock m)).

(** The bytes of a line, as they come: kept up to 256 KiB, streamed beyond. *)
Definition take_record_bytes (record : bytes) (l : LoopState) : result Fault LoopState :=
  let '(mk_loop scan reader offset line line_start streaming active scanned incomplete completions) := l in
  match streaming with
  | Some s =>
      let? parser := feed record (sl_parser s) in
      Ok (mk_loop (scan_hashed record scan) reader offset line line_start
            (Some (mk_streaming (sl_start_offset s) parser)) active scanned incomplete completions)
  | None =>
      if blen line + blen record <=? MAX_ROLLOUT_LINE_BYTES
      then Ok (mk_loop scan reader offset (line ++ record) line_start None active scanned incomplete completions)
      else
        let? parser := feed line new_parser in
        let? parser := feed record parser in
        Ok (mk_loop (scan_hashed record (scan_hashed line scan)) reader offset [] line_start
              (Some (mk_streaming line_start parser)) active scanned incomplete completions)
  end.

(** The value of a finished line, whose bytes join the trusted range. *)
Definition finish_line (l : LoopState) : result Fault (json * PendingScan) :=
  match ln_streaming l with
  | Some s =>
      let? value := finish_record (sl_parser s) in
      Ok (value, scan_hashed [10] (ln_scan l))
  | None =>
      let line := strip_last 13 (ln_line l) in
      let? _ := require (negb (bool_decide (line = []))) (Fail InvalidRollout) in
      let? value := of_option (Fail InvalidRollout) (json_from_slice line) in
      Ok (value, scan_hashed [10] (scan_hashed (ln_line l) (ln_scan l)))
  end.

Inductive Flow :=
| Next (l : LoopState)
| Done (l : LoopState)
| Returned (completions : list ObservedCompletion).

Section task.
Context (binding : option Binding) (rollout : GuardedRollout) (task : ObservedTask).

(** A completed turn is verified as far as the budget allows, and committed when it can be. *)
Definition complete_line (turn_id serialized : text) (l : LoopState) : Obs S Flow :=
  let '(mk_loop scan reader offset line line_start streaming active scanned incomplete completions) := l in
  let* _ := verify_path_identity rollout in
  let* _ := validate_trusted_range scan in
  let* v := start_verification offset turn_id serialized scan in
  let* r := advance (MAX_SCAN_BYTES_PER_POLL - scanned) v in
  let scan := scan_verifying (Some r.2) scan in
  let scanned := scanned + r.1 in
  if is_complete r.2 then
    let* c := commit_verified_completion binding rollout task scan in
    oret (Next (mk_loop c.2 reader offset line line_start streaming active scanned incomplete
                  (completions ++ [c.1])))
  else
    let* anchor := anchor_at offset in
    let scan := scan_reading active streaming (scan_at offset anchor scan) in
    let* _ := validate_trusted_range scan in
    let* _ := verify_path_identity rollout in
    let* _ := insert_pending (tk_task_id task) scan in
    oret (Returned completions).

(** A line feed was read: its line is applied to the turn under way. *)
Definition end_line (l : LoopState) : Obs S Flow :=
  let* v := olift (finish_line l) in
  let* r := olift (apply_rollout_value v.1 (ln_active l)) in
  let l := mk_loop v.2 (ln_reader l) (ln_offset l) [] (ln_offset l) None r.2 (ln_scanned l) (ln_incomplete l)
             (ln_completions l) in
  match r.1 with
  | Some (turn_id, serialized) => complete_line turn_id serialized l
  | None => oret (Next l)
  end.

(** One iteration of the reading loop. *)
Definition read_step (l : LoopState) : Obs S Flow :=
  let* reader := fill_buf (ln_reader l) in
  if bool_decide (br_buffer reader = []) then
    let incomplete := match ln_streaming l with Some _ => true | None => negb (bool_decide (ln_line l = [])) end in
    oret (Done (mk_loop (ln_scan l) reader (ln_offset l) (ln_line l) (ln_line_start l) (ln_streaming l)
                  (ln_active l) (ln_scanned l) incomplete (ln_completions l)))
  else
    let remaining := MAX_SCAN_BYTES_PER_POLL - ln_scanned l in
    let available := take (Z.to_nat remaining) (br_buffer reader) in
    let newline := newline_at available in
    let consumed := match newline with Some i => Datatypes.S i | None => length available end in
    let record := take (default consumed newline) available in
    let* l := olift (take_record_bytes record l) in
    let '(mk_loop scan _ offset line line_start streaming active scanned incomplete completions) := l in
    let reader := consume consumed reader in
    let scanned := scanned + Z.of_nat consumed in
    let* offset := olift (of_option (Fail RolloutTooLarge) (checked_add u64_max offset (Z.of_nat consumed))) in
    match newline with
    | None =>
        let l incomplete := mk_loop scan reader offset line line_start streaming active scanned incomplete completions in
        oret (if scanned =? MAX_SCAN_BYTES_PER_POLL then Done (l true) else Next (l incomplete))
    | Some _ =>
        end_line (mk_loop scan reader offset line line_start streaming active scanned incomplete completions)
    end.

(** [while scanned < MAX_SCAN_BYTES_PER_POLL]: every iteration reads at least one byte or
    ends the loop, so the bytes left are fuel enough. *)
Fixpoint read_loop (fuel : nat) (l : LoopState) : Obs S Flow :=
  match fuel with
  | O => oret (Done l)
  | Datatypes.S fuel =>
      if MAX_SCAN_BYTES_PER_POLL <=? ln_scanned l then oret (Done l)
      else
        let* flow := read_step l in
        match flow with
        | Next l => read_loop fuel l
        | Done l => oret (Done l)
        | Returned cs => oret (Returned cs)
        end
  end.

(** After the loop: what has to be remembered for the next poll. *)
Definition finish_poll (l : LoopState) : Obs S (list ObservedCompletion) :=
  let scan := ln_scan l in
  let offset :=
    match ln_incomplete l, ln_streaming l with
    | true, None => ln_line_start l
    | _, _ => ln_offset l
    end in
  let* _ := verify_path_identity rollout in
  let committed_offset :=
    match ps_expected scan with
    | Some c =>
        if path_eqb (rc_rollout_path c) (tk_rollout_path task) && (rc_device c =? gr_device rollout)
           && (rc_inode c =? gr_inode rollout) && (rc_generation c =? ps_generation scan)
        then rc_offset c else 0
    | None => 0
    end in
  let is_some {A} (o : option A) := match o with Some _ => true | None => false end in
  if is_some (ln_active l) || negb (offset =? committed_offset) || ln_incomplete l
     || is_some (ln_streaming l) || is_some (ps_verification scan)
  then
    let* _ := validate_trusted_range scan in
    let* anchor := anchor_at offset in
    let* _ := insert_pending (tk_task_id task) (scan_reading (ln_active l) (ln_streaming l) (scan_at offset anchor scan)) in
    oret (ln_completions l)
  else oret (ln_completions l).

(** A verification left over from the last poll; [None] when it is still not finished. *)
Definition resume_verification (scan : PendingScan)
    : Obs S (option (PendingScan * Z * list ObservedCompletion)) :=
  match ps_verification scan with
  | None => oret (Some (scan, 0, []))
  | Some v =>
      let* r := advance MAX_SCAN_BYTES_PER_POLL v in
      let scan := scan_verifying (Some r.2) scan in
      let* _ := validate_trusted_range scan in
      let* _ := verify_path_identity rollout in
      if is_complete r.2 then
        let* c := commit_verified_completion binding rollout task scan in
        oret (Some (c.2, r.1, [c.1]))
      else
        let* _ := insert_pending (tk_task_id task) scan in
        oret None
  end.

Definition start_loop (scan : PendingScan) (scanned : Z) (completions : list ObservedCompletion) : LoopState :=
  let offset := ps_offset scan in
  mk_loop (scan_reading None None scan) (mk_reader [] offset) offset []
    (match ps_streaming_line scan with Some s => sl_start_offset s | None => offset end)
    (ps_streaming_line scan) (ps_active scan) scanned false completions.

Definition scan_from (scan : PendingScan) : Obs S (list ObservedCompletion) :=
  let* resumed := resume_verification scan in
  match resumed with
  | None => oret []
  | Some (scan, scanned, completions) =>
      let* flow := read_loop (Z.to_nat (MAX_SCAN_BYTES_PER_POLL - scanned)) (start_loop scan scanned completions) in
      match flow with
      | Returned cs => oret cs
      | Next l | Done l => finish_poll l
      end
  end.

(** Is the scan of the last poll still about this file? *)
Definition reusable (stored : option RolloutCursor) (pending : PendingScan) : Obs S bool :=
  let is_some {A} (o : option A) := match o with Some _ => true | None => false end in
  if option_cursor_eqb (ps_expected pending) stored && path_eqb (ps_rollout_path pending) (tk_rollout_path task)
     && (ps_device pending =? gr_device rollout) && (ps_inode pending =? gr_inode rollout)
     && (ps_offset pending <=? gr_size rollout)
  then
    let* boundary :=
      if is_some (ps_streaming_line pending) || is_some (ps_verification pending) then oret true
      else succeeds (validate_line_boundary (ps_offset pending)) in
    if boundary then
      let* anchor := anchor_at (ps_offset pending) in
      if bool_decide (anchor = ps_anchor pending) then succeeds (validate_trusted_range pending) else oret false
    else oret false
  else oret false.

End task.

Definition choose_scan (rollout : GuardedRollout) (task : ObservedTask) (stored : option RolloutCursor)
    (pending : option PendingScan) : Obs S PendingScan :=
  let* kept :=
    match pending with
    | Some pending =>
        let* r := reusable rollout task stored pending in
        oret (if r then Some pending else None)
    | None => oret None
    end in
  match kept with Some scan => oret scan | None => fresh_scan rollout task stored end.

Definition stored_cursor (task_id : text) : Obs S (option RolloutCursor) := λ m,
  match ra_rollout_cursor task_id (mc_store m) with
  | Ok c => (Ok c, m)
  | Err _ => (Err (Fail ObserverStore), m)
  end.

Definition poll_task_with (task : ObservedTask) (binding : option Binding)
    : Obs S (list ObservedCompletion) :=
  let* _ := orequire (uuid_ok (tk_task_id task)) InvalidRollout in
  let* rollout := open (tk_rollout_path task) in
  let* _ := validate_session_meta rollout (tk_task_id task) in
  let* stored := stored_cursor (tk_task_id task) in
  let* pending := remove_pending (tk_task_id task) in
  let* scan := choose_scan rollout task stored pending in
  scan_from binding rollout task scan.

(** ** All bound tasks *)

Definition running_task_count (pending : gmap text PendingScan) : nat :=
  Nat.min 4 (length (filter (λ e, is_Some (ps_active e.2)) (map_to_list pending))).

Definition same_outcome (a b : CompletionOutcome) : bool :=
  match a, b with
  | CompletionInserted, CompletionInserted | CompletionReplay, CompletionReplay => true
  | _, _ => false
  end.

Definition count_outcome (o : CompletionOutcome) (cs : list ObservedCompletion) : nat :=
  length (filter (λ c, same_outcome o (oc_outcome c) = true) cs).

Definition add_tick (i r f : nat) (t : ObserverTick) : ObserverTick :=
  mk_tick (ot_inserted t + i) (ot_replayed t + r) (ot_failed_tasks t + f) (ot_running_tasks t).

(** The loop over the bindings: each task once, by its first binding; a failing task does
    not stop the others. *)
Fixpoint poll_each (tasks : list ObservedTask) (bs : list Binding) (seen : list text) (tick : ObserverTick)
    : Obs S ObserverTick :=
  match bs with
  | [] => oret tick
  | b :: bs =>
      let task_id := bd_task_id b in
      if bool_decide (task_id ∈ seen) then poll_each tasks bs seen tick
      else
        let seen := task_id :: seen in
        match list_find (λ t, tk_task_id t = task_id) tasks with
        | None => poll_each tasks bs seen (add_tick 0 0 1 tick)
        | Some (_, task) => λ m,
            match poll_task_with task (Some b) m with
            | (Ok cs, m) =>
                poll_each tasks bs seen
                  (add_tick (count_outcome CompletionInserted cs) (count_outcome CompletionReplay cs) 0 tick) m
            | (Err (Fail _), m) => poll_each tasks bs seen (add_tick 0 0 1 tick) m
            | (Err Panic, m) => (Err Panic, m)
            end
        end
  end.

(** [catalog]: the tasks [CodexTaskCatalog::list_tasks] returns, or its failure. *)
Definition poll_bound_tasks_with (catalog : option (list ObservedTask)) : Obs S ObserverTick := λ m,
  match ra_bindings (mc_store m) with
  | Err _ => (Err (Fail ObserverStore), m)
  | Ok bs =>
      let bound := bd_task_id <$> bs in
      let m := mk_mach (mc_store m) (filter (λ e, e.1 ∈ bound) (mc_pending m)) (mc_clock m) in
      match bs, catalog with
      | [], _ => (Ok default_tick, m)
      | _, None => (Ok (mk_tick 0 0 (length (remove_dups bound)) 0), m)
      | _, Some tasks => poll_each tasks bs [] default_tick m
      end
  end.

Definition with_running (m : Mach S) (t : ObserverTick) : ObserverTick :=
  mk_tick (ot_inserted t) (ot_replayed t) (ot_failed_tasks t) (running_task_count (mc_pending m)).

Definition poll_bound_tasks (catalog : option (list ObservedTask)) : Obs S ObserverTick :=
  let* tick := poll_bound_tasks_with catalog in λ m, (Ok (with_running m tick), m).

(** [tick_due_with]: at most one poll for each interval; the next one is due after [now],
    even when this one fails. *)
Definition tick_due_with (now next_poll : Z) (catalog : option (list ObservedTask)) (m : Mach S)
    : result Fault ObserverTick * Z * Mach S :=
  if now <? next_poll then (Ok (with_running m default_tick), next_poll, m)
  else let r := poll_bound_tasks catalog m in (r.1, now + DEFAULT_POLL_INTERVAL, r.2).

End poll.
