(* ===== verification/RolloutReplay.v ===== *)
(** * Reading a rollout that stands still

    While the file does not change, every read of a poll returns a range of its bytes: the
    anchors, hashes and checks of the scan all succeed on what they were computed from. *)

From stdpp Require Import gmap.
From S2P Require Import Prelude Bytes StoreTypes Redact TurnPack RecordParser.
From S2P Require Import RecordLexing StoreRollout RolloutScan.

(** ** Ranges of a file *)

Lemma take_sum {A} (n m : nat) (l : list A) : take (n + m) l = take n l ++ take m (drop n l).
Proof. revert l. induction n as [|n IH]; intros [|x l]; cbn; by rewrite ?take_nil, ?IH. Qed.

Definition range (bs : bytes) (a b : Z) : bytes := take (Z.to_nat (b - a)) (drop (Z.to_nat a) bs).

Lemma blen_nonneg (b : bytes) : 0 ≤ blen b.
Proof. unfold blen. lia. Qed.

Lemma blen_app (a b : bytes) : blen (a ++ b) = blen a + blen b.
Proof. unfold blen. rewrite length_app. lia. Qed.

Lemma blen_nil : blen [] = 0.
Proof. done. Qed.

Lemma blen_range bs a b : 0 ≤ a ≤ b → b ≤ blen bs → blen (range bs a b) = b - a.
Proof. unfold blen, range. intros. rewrite length_take, length_drop. lia. Qed.

Lemma range_empty bs a : range bs a a = [].
Proof. unfold range. by rewrite Z.sub_diag. Qed.

Lemma range_app bs a b c : 0 ≤ a ≤ b → b ≤ c → range bs a b ++ range bs b c = range bs a c.
Proof.
  unfold range. intros. replace (Z.to_nat b) with (Z.to_nat a + Z.to_nat (b - a))%nat by lia.
  rewrite <- drop_drop. replace (Z.to_nat (c - a)) with (Z.to_nat (b - a) + Z.to_nat (c - b))%nat by lia.
  by rewrite take_sum.
Qed.

Lemma take_range bs a b n : 0 ≤ a → Z.of_nat n ≤ b - a → take n (range bs a b) = range bs a (a + Z.of_nat n).
Proof. unfold range. intros. rewrite take_take. f_equal. lia. Qed.

Lemma drop_range bs a b n : 0 ≤ a → Z.of_nat n ≤ b - a → drop n (range bs a b) = range bs (a + Z.of_nat n) b.
Proof.
  unfold range. intros. rewrite skipn_firstn_comm, drop_drop. f_equal; [lia|]. f_equal. lia.
Qed.

Lemma range_rest bs a : 0 ≤ a ≤ blen bs → range bs a (blen bs) = drop (Z.to_nat a) bs.
Proof. unfold range, blen. intros. rewrite take_ge; [done|]. rewrite length_drop. lia. Qed.

(** A read past the end returns what there is. *)
Lemma range_clip bs a b : 0 ≤ a ≤ blen bs → range bs a b = range bs a (Z.min b (blen bs)).
Proof.
  intros Ha. destruct (decide (b ≤ blen bs)); [f_equal; lia|]. unfold range, blen in *.
  rewrite !take_ge; [done| |]; rewrite length_drop; lia.
Qed.

(** Appending to the file does not touch its ranges. *)
Lemma range_prefix bs ext a b : 0 ≤ a ≤ b → b ≤ blen bs → range (bs ++ ext) a b = range bs a b.
Proof.
  unfold range, blen. intros. rewrite drop_app_le by lia. rewrite take_app_le; [done|]. rewrite length_drop. lia.
Qed.

Lemma checked_add_ok {E} (e : E) max a b : a + b ≤ max → of_option e (checked_add max a b) = Ok (a + b).
Proof. intros Hm. unfold checked_add. by replace (a + b <=? max) with true by lia. Qed.

(** ** Computations that only read *)

Section static.
Context `{Externals, Serde, Crypto} {S : Type} `{RolloutStateAccess S}.
Context (bs : bytes) (device inode : Z).
Hypothesis small_file : 2 * blen bs < MAX_SCAN_BYTES_PER_POLL.

Definition still : nat → option FileView := λ _, Some (mk_view bs (Some (device, inode))).
Notation world := still.

(** [x] succeeds with [a] and changes nothing. *)
Definition reads {A} (x : Obs S A) (a : A) : Prop :=
  ∀ m, ∃ clock, x m = (Ok a, mk_mach (mc_store m) (mc_pending m) clock).

Lemma reads_ret {A} (a : A) : reads (oret a) a.
Proof. intros [st pd c]. by exists c. Qed.

Lemma reads_bind {A B} (x : Obs S A) (k : A → Obs S B) a b : reads x a → reads (k a) b → reads (obind x k) b.
Proof.
  intros Hx Hk m. destruct (Hx m) as [c E]. unfold obind. rewrite E.
  destruct (Hk (mk_mach (mc_store m) (mc_pending m) c)) as [c' E']. by exists c'.
Qed.

Lemma reads_lift {A} (r : result Fault A) a : r = Ok a → reads (olift r) a.
Proof. intros -> [st pd c]. by exists c. Qed.

Lemma reads_require c e : c = true → reads (orequire c e) tt.
Proof. intros ->. apply reads_ret. Qed.

Lemma reads_succeeds {A} (x : Obs S A) a : reads x a → reads (succeeds x) true.
Proof. intros Hx m. destruct (Hx m) as [c E]. exists c. unfold succeeds. by rewrite E. Qed.

(** Running a reading computation first. *)
Lemma obind_reads {A B} (x : Obs S A) (k : A → Obs S B) a st pd c :
  reads x a → ∃ c', obind x k (mk_mach st pd c) = k a (mk_mach st pd c').
Proof. intros Hx. destruct (Hx (mk_mach st pd c)) as [c' E]. exists c'. unfold obind. by rewrite E. Qed.

Lemma reads_look : reads (look world) (mk_view bs (Some (device, inode))).
Proof. intros [st pd c]. by eexists. Qed.

Lemma reads_read_at len off :
  0 ≤ off → 0 ≤ len → reads (read_at world len off) (range bs off (off + len)).
Proof.
  intros Ho Hl. eapply reads_bind; [apply reads_look|]. cbn [fv_bytes]. unfold range.
  replace (off + len - off) with len by lia. apply reads_ret.
Qed.

Lemma reads_file_len : reads (file_len world) (blen bs).
Proof. eapply reads_bind; [apply reads_look|]. apply reads_ret. Qed.

Lemma reads_read_full fuel chunk want off :
  0 < chunk → 0 ≤ off → 0 ≤ want → off + want ≤ blen bs → want ≤ Z.of_nat fuel →
  reads (read_full world fuel chunk want off) (range bs off (off + want)).
Proof.
  revert want off. induction fuel as [|fuel IH]; intros want off Hc Ho Hw Hb Hf; cbn [read_full].
  - replace want with 0 by lia. rewrite Z.add_0_r, range_empty. apply reads_ret.
  - destruct (want <=? 0) eqn:E; [replace want with 0 by lia; rewrite Z.add_0_r, range_empty; apply reads_ret|].
    eapply reads_bind; [apply reads_read_at; lia|].
    assert (blen (range bs off (off + Z.min chunk want)) = Z.min chunk want) as Hlen
      by (rewrite blen_range; lia).
    eapply reads_bind.
    { apply reads_require. apply negb_true_iff, bool_decide_eq_false_2. intros Hn. rewrite Hn, blen_nil in Hlen. lia. }
    rewrite Hlen. eapply reads_bind; [apply IH; lia|].
    rewrite range_app by lia. replace (off + Z.min chunk want + (want - Z.min chunk want)) with (off + want) by lia.
    apply reads_ret.
Qed.

Lemma reads_read_range chunk want off :
  0 < chunk → 0 ≤ off → 0 ≤ want → off + want ≤ blen bs →
  reads (read_range world chunk want off) (range bs off (off + want)).
Proof. intros. apply reads_read_full; lia. Qed.

(** [read_range] with a chunk of the whole length, which may be 0. *)
Lemma reads_whole_range want off :
  0 ≤ off → 0 ≤ want → off + want ≤ blen bs → reads (read_range world want want off) (range bs off (off + want)).
Proof.
  intros Ho Hw Hb. destruct (decide (want = 0)) as [->|]; [|apply reads_read_range; lia].
  rewrite Z.add_0_r, range_empty. apply reads_ret.
Qed.

Definition anchor (off : Z) : bytes := sha256 (range bs (Z.max 0 (off - ROLLOUT_ANCHOR_BYTES)) off).

Lemma reads_anchor_at off : 0 ≤ off ≤ blen bs → reads (anchor_at world off) (anchor off).
Proof.
  intros Ho. eapply reads_bind; [apply reads_file_len|].
  eapply reads_bind; [apply reads_require; lia|].
  set (s := Z.max 0 (off - ROLLOUT_ANCHOR_BYTES)) in *. assert (0 ≤ s ≤ off) by (unfold s, ROLLOUT_ANCHOR_BYTES; lia).
  eapply reads_bind; [apply reads_whole_range; lia|]. replace (s + (off - s)) with off by lia. apply reads_ret.
Qed.

Lemma reads_hash_range off len :
  0 ≤ off → 0 ≤ len → off + len ≤ blen bs → reads (hash_range world off len) (sha256 (range bs off (off + len))).
Proof.
  intros Ho Hl Hb. unfold MAX_SCAN_BYTES_PER_POLL in small_file.
  eapply reads_bind; [apply reads_lift, checked_add_ok; unfold u64_max; lia|].
  eapply reads_bind; [apply reads_file_len|]. eapply reads_bind; [apply reads_require; lia|].
  eapply reads_bind; [apply reads_read_range; unfold ROLLOUT_ANCHOR_BYTES; lia|]. apply reads_ret.
Qed.

Definition rollout_of (size : Z) : GuardedRollout := mk_rollout device inode size.

Lemma reads_verify_path_identity size : reads (verify_path_identity world (rollout_of size)) tt.
Proof. eapply reads_bind; [apply reads_look|]. apply reads_require. by apply bool_decide_eq_true_2. Qed.

(** ** The trusted range *)

(** The trusted fields of a scan agree with the file. *)
Record trusted_ok (scan : PendingScan) : Prop := {
  to_offset : 0 ≤ ps_trusted_offset scan;
  to_anchor : ps_trusted_anchor scan = anchor (ps_trusted_offset scan);
  to_prefix_len : 0 ≤ ps_trusted_prefix_len scan;
  to_bound : ps_trusted_offset scan + ps_trusted_prefix_len scan ≤ blen bs;
  to_prefix : ps_trusted_prefix_anchor scan
              = sha256 (range bs (ps_trusted_offset scan) (ps_trusted_offset scan + ps_trusted_prefix_len scan));
}.

Lemma reads_validate_trusted_range scan : trusted_ok scan → reads (validate_trusted_range world scan) tt.
Proof.
  intros [Ho Ha Hl Hb Hp]. eapply reads_bind; [apply reads_anchor_at; lia|].
  eapply reads_bind; [apply reads_require; by apply bool_decide_eq_true_2|].
  eapply reads_bind; [by apply reads_hash_range|]. apply reads_require. by apply bool_decide_eq_true_2.
Qed.

Definition trusted_from (off : Z) (scan : PendingScan) : PendingScan :=
  let len := Z.min (Z.max 0 (blen bs - off)) ROLLOUT_ANCHOR_BYTES in
  scan_trusting off (anchor off) len (sha256 (range bs off (off + len))) scan.

Lemma reads_trust_from off scan :
  0 ≤ off ≤ blen bs → reads (trust_from world off scan) (trusted_from off scan).
Proof.
  intros Ho. eapply reads_bind; [apply reads_file_len|]. eapply reads_bind; [by apply reads_anchor_at|].
  eapply reads_bind; [apply reads_hash_range; unfold ROLLOUT_ANCHOR_BYTES; lia|]. apply reads_ret.
Qed.

Lemma trusted_from_ok off scan : 0 ≤ off ≤ blen bs → trusted_ok (trusted_from off scan).
Proof. intros Ho. split; cbn; try done; unfold ROLLOUT_ANCHOR_BYTES; lia. Qed.

(** A verification within the budget reads its whole range at once. *)
Lemma reads_advance budget v :
  cv_offset v = cv_start_offset v → 0 ≤ cv_start_offset v ≤ cv_end_offset v → cv_end_offset v ≤ blen bs →
  cv_end_offset v - cv_start_offset v ≤ budget →
  reads (advance world budget v)
    (cv_end_offset v - cv_start_offset v,
     mk_verification (cv_start_offset v) (cv_end_offset v) (cv_end_offset v)
       (cv_digest v ++ range bs (cv_start_offset v) (cv_end_offset v)) (cv_expected_digest v)
       (cv_completion_id v) (cv_turn_pack v)).
Proof.
  intros Eo Hs He Hb. unfold MAX_SCAN_BYTES_PER_POLL in small_file. unfold advance. rewrite Eo.
  set (s := cv_start_offset v) in *. set (e := cv_end_offset v) in *.
  eapply reads_bind; [apply reads_require; lia|].
  eapply reads_bind; [apply reads_read_range; unfold ROLLOUT_ANCHOR_BYTES; lia|].
  replace (s + Z.min (e - s) budget) with e by lia. rewrite blen_range by lia.
  eapply reads_bind; [apply reads_lift, checked_add_ok; unfold u64_max; lia|].
  replace (s + (e - s)) with e by lia.
  apply reads_ret.
Qed.

(** ** The buffered reader *)

(** The reader stands at [off]: its buffer holds the bytes from there to its position. *)
Definition reader_at (off : Z) (r : BufReader) : Prop :=
  off ≤ br_position r ≤ blen bs ∧ br_buffer r = range bs off (br_position r).

Lemma reads_fill_buf off r :
  0 ≤ off ≤ blen bs → reader_at off r →
  ∃ r', reads (fill_buf world r) r' ∧ reader_at off r' ∧ (br_buffer r' = [] → off = blen bs).
Proof.
  intros Ho [Hp Hb]. unfold fill_buf. destruct (br_buffer r) as [|x b] eqn:E.
  - assert (br_position r = off) as Epos.
    { pose proof (f_equal blen Hb) as El. rewrite blen_range, blen_nil in El by lia. lia. }
    rewrite Epos. set (e := Z.min (off + BUFFER_BYTES) (blen bs)).
    assert (off ≤ e ≤ blen bs ∧ (e = off → off = blen bs)) as [He Hend] by (unfold e, BUFFER_BYTES; lia).
    exists (mk_reader (range bs off e) e). split; [|split].
    + eapply reads_bind; [apply reads_read_at; unfold BUFFER_BYTES; lia|]. rewrite range_clip by lia. fold e.
      rewrite blen_range by lia. replace (off + (e - off)) with e by lia. apply reads_ret.
    + by repeat split; cbn [br_position br_buffer]; try lia.
    + cbn [br_buffer]. intros Hn. apply Hend. apply (f_equal blen) in Hn. rewrite blen_range, blen_nil in Hn by lia. lia.
  - exists r. split; [apply reads_ret | split; [split; [done | by rewrite E] | by rewrite E]].
Qed.

Lemma consume_reader_at off r n :
  0 ≤ off → reader_at off r → (n ≤ length (br_buffer r))%nat → reader_at (off + Z.of_nat n) (consume n r).
Proof.
  intros Ho [Hp Hb] Hn.
  assert (blen (br_buffer r) = br_position r - off) as El by (rewrite Hb, blen_range; lia).
  unfold blen in El. split; cbn [consume br_position br_buffer]; [lia|].
  rewrite Hb, drop_range by lia. done.
Qed.

End static.

(** * What a rollout says, line by line

    The reference the polls are measured against: the file is cut at its line feeds, every
    complete line is read as a whole and applied to the turn under way, and every completed
    turn is committed with the cursor that follows its line.  Nothing here knows of reads,
    buffers, budgets or the state kept between polls. *)

(** ** Lines *)

(** The complete lines of a text, of which [acc] was read before, and what follows the
    last line feed. *)
Fixpoint lines_of (acc b : bytes) : list bytes * bytes :=
  match b with
  | [] => ([], acc)
  | x :: b => if x =? 10 then (acc :: (lines_of [] b).1, (lines_of [] b).2) else lines_of (acc ++ [x]) b
  end.

Lemma lines_of_app acc a b :
  lines_of acc (a ++ b)
  = ((lines_of acc a).1 ++ (lines_of (lines_of acc a).2 b).1, (lines_of (lines_of acc a).2 b).2).
Proof.
  revert acc. induction a as [|x a IH]; intros acc; cbn [lines_of app fst snd]; [by destruct (lines_of acc b)|].
  case_match; [|apply IH]. cbn [fst snd]. by rewrite IH.
Qed.

Lemma lines_of_plain acc a : 10 ∉ a → lines_of acc a = ([], acc ++ a).
Proof.
  revert acc. induction a as [|x a IH]; intros acc Ha; cbn [lines_of]; [by rewrite app_nil_r|].
  apply not_elem_of_cons in Ha as [Hx Ha]. replace (x =? 10) with false by lia. rewrite IH by done. by rewrite <- app_assoc.
Qed.

Lemma lines_of_feed acc a b : 10 ∉ a → lines_of acc (a ++ 10 :: b) = ((acc ++ a) :: (lines_of [] b).1, (lines_of [] b).2).
Proof. intros Ha. by rewrite lines_of_app, lines_of_plain. Qed.

(** What was read of a line can be read again with the rest. *)
Lemma lines_of_again a b : 10 ∉ a → lines_of [] (a ++ b) = lines_of a b.
Proof. intros Ha. rewrite lines_of_app, lines_of_plain by done. cbn [fst snd app]. by destruct (lines_of a b). Qed.

Lemma lines_of_partial acc b : 10 ∉ acc → 10 ∉ (lines_of acc b).2.
Proof.
  revert acc. induction b as [|x b IH]; intros acc Ha; [done|]. cbn [lines_of]. case_match; [apply IH, not_elem_of_nil|].
  apply IH. rewrite not_elem_of_app, list_elem_of_singleton. split; [done | lia].
Qed.

(** ** The reference *)

Section replay.
Context `{Externals, Serde, Crypto} {S : Type} `{RolloutStateAccess S}.
Context (binding : option Binding) (task : ObservedTask) (device inode generation : Z).

(** The value of a line: short lines are parsed, long ones streamed. *)
Definition line_value (line : bytes) : result Fault json :=
  if blen line <=? MAX_ROLLOUT_LINE_BYTES then
    let line := strip_last 13 line in
    let? _ := require (negb (bool_decide (line = []))) (Fail InvalidRollout) in
    of_option (Fail InvalidRollout) (json_from_slice line)
  else
    let? parser := feed line new_parser in
    finish_record parser.

Record Replay := mk_replay {
  rp_seen : bytes;
  rp_active : option TurnBuilder;
  rp_cursor : option RolloutCursor;
  rp_store : S;
  rp_completions : list ObservedCompletion;
}.

(** The cursor after the bytes [seen]. *)
Definition cursor_after (seen : bytes) : RolloutCursor :=
  mk_cursor (tk_task_id task) (tk_rollout_path task) device inode (blen seen) generation
    (sha256 (range seen (Z.max 0 (blen seen - ROLLOUT_ANCHOR_BYTES)) (blen seen))).

Definition replay_line (line : bytes) (r : Replay) : result Fault Replay :=
  let seen := rp_seen r ++ line ++ [10] in
  let? value := line_value line in
  let? turn := apply_rollout_value value (rp_active r) in
  match turn.1 with
  | None => Ok (mk_replay seen turn.2 (rp_cursor r) (rp_store r) (rp_completions r))
  | Some (turn_id, pack) =>
      let next := cursor_after seen in
      match ra_commit_rollout_completion binding (rp_cursor r) next turn_id pack (rp_store r) with
      | Ok (outcome, store) =>
          Ok (mk_replay seen turn.2 (Some next) store (rp_completions r ++ [mk_observed turn_id outcome]))
      | Err _ => Err (Fail ObserverStore)
      end
  end.

Fixpoint replay (lines : list bytes) (r : Replay) : result Fault Replay :=
  match lines with
  | [] => Ok r
  | line :: lines => let? r := replay_line line r in replay lines r
  end.

(** A long line that is not finished is parsed as far as it goes. *)
Definition check_partial (part : bytes) : result Fault unit :=
  if blen part <=? MAX_ROLLOUT_LINE_BYTES then Ok tt
  else let? _ := feed part new_parser in Ok tt.

(** More bytes after the partial line [part]. *)
Definition replay_from (part more : bytes) (r : Replay) : result Fault (Replay * bytes) :=
  let ls := lines_of part more in
  let? r := replay ls.1 r in
  let? _ := check_partial ls.2 in
  Ok (r, ls.2).

(** A file from its start, with no turn under way. *)
Definition replay_file (file : bytes) (store : S) : result Fault Replay :=
  let? r := replay_from [] file (mk_replay [] None None store []) in Ok r.1.

(** ** Replaying in pieces *)

Lemma replay_app a b r : replay (a ++ b) r = let? r := replay a r in replay b r.
Proof.
  revert r. induction a as [|x a IH]; intros r; [done|]. cbn [replay app].
  destruct (replay_line x r); cbn [rbind]; [apply IH | done].
Qed.

Lemma check_partial_app a b : check_partial (a ++ b) = Ok tt → check_partial a = Ok tt.
Proof.
  unfold check_partial. rewrite blen_app, feed_app. pose proof (blen_nonneg b). intros Hc.
  destruct (Z.leb_spec (blen a) MAX_ROLLOUT_LINE_BYTES); [done|].
  destruct (Z.leb_spec (blen a + blen b) MAX_ROLLOUT_LINE_BYTES); [lia|]. by destruct (feed a new_parser).
Qed.

Lemma line_value_partial a b v : line_value (a ++ b) = Ok v → check_partial a = Ok tt.
Proof.
  unfold line_value. intros Hv. apply (check_partial_app a b). unfold check_partial. case_match; [done|].
  by destruct (feed _ _).
Qed.

Lemma replay_from_app part a b r r2 part2 :
  replay_from part (a ++ b) r = Ok (r2, part2) →
  ∃ r1 part1, replay_from part a r = Ok (r1, part1) ∧ replay_from part1 b r1 = Ok (r2, part2).
Proof.
  unfold replay_from. rewrite lines_of_app. cbn [fst snd]. rewrite replay_app.
  destruct (lines_of part a) as [la pa]. cbn [fst snd]. destruct (replay la r) as [r1|e]; cbn [rbind]; [|done].
  intros Hr. exists r1, pa. assert (check_partial pa = Ok tt) as ->; [|by cbn [rbind]].
  destruct (replay _ r1) as [r2'|e] eqn:Eb in Hr; cbn [rbind] in Hr; [|done].
  destruct (check_partial _) as [[]|e] eqn:Ec in Hr; cbn [rbind] in Hr; [|done]. clear Hr.
  destruct (decide (10 ∈ b)) as [Hb|Hb].
  - apply list_elem_of_split_l in Hb as (x & b' & -> & Hx). rewrite lines_of_feed in Eb by done. cbn [fst replay] in Eb.
    unfold replay_line in Eb. destruct (line_value (pa ++ x)) as [v|e] eqn:Ev; cbn [rbind] in Eb; [|done].
    by eapply line_value_partial.
  - rewrite lines_of_plain in Ec by done. by eapply check_partial_app.
Qed.

Lemma replay_from_plain part a r r' part' :
  10 ∉ a → replay_from part a r = Ok (r', part') → r' = r ∧ part' = part ++ a ∧ check_partial (part ++ a) = Ok tt.
Proof.
  intros Ha. unfold replay_from. rewrite lines_of_plain by done. cbn [fst snd replay rbind].
  destruct (check_partial _) as [[]|]; cbn [rbind]; [|done]. by intros [= <- <-].
Qed.

Lemma replay_from_feed part b r res :
  replay_from part (10 :: b) r = Ok res → ∃ r1, replay_line part r = Ok r1 ∧ replay_from [] b r1 = Ok res.
Proof.
  unfold replay_from. cbn [lines_of]. rewrite Z.eqb_refl. cbn [fst snd replay].
  destruct (replay_line part r) as [r1|]; cbn [rbind]; [|done]. by exists r1.
Qed.

Lemma replay_line_seen line r r' : replay_line line r = Ok r' → rp_seen r' = rp_seen r ++ line ++ [10].
Proof.
  unfold replay_line. destruct (line_value line); cbn [rbind]; [|done].
  destruct (apply_rollout_value _ _) as [[[[id pack]|] active]|]; cbn [rbind fst snd]; [| |done].
  - destruct (ra_commit_rollout_completion _ _ _ _ _ _) as [[o st]|]; [|done]. by intros [= <-].
  - by intros [= <-].
Qed.

(** The bytes read are the complete lines and the partial one. *)
Lemma replay_seen part more r r' part' :
  replay_from part more r = Ok (r', part') → rp_seen r ++ part ++ more = rp_seen r' ++ part'.
Proof.
  unfold replay_from. revert part r. induction more as [|x more IH]; intros part r; cbn [lines_of].
  - cbn [fst snd replay rbind]. destruct (check_partial part); cbn [rbind]; [|done]. intros [= <- <-]. by rewrite app_nil_r.
  - destruct (Z.eqb_spec x 10) as [->|Hx]; cbn [fst snd replay].
    + destruct (replay_line part r) as [r1|] eqn:E1; cbn [rbind]; [|done]. intros Hr. apply IH in Hr. rewrite <- Hr.
      apply replay_line_seen in E1. rewrite E1. cbn [app]. by rewrite <- !app_assoc.
    + intros Hr. apply IH in Hr. rewrite <- Hr. by rewrite <- app_assoc.
Qed.

End replay.

Arguments Replay S : clear implicits.
