(* ===== verification/RolloutLoop.v ===== *)
(** * The reading loop, on a file that stands still

    Between two reads the loop has consumed the complete lines [seen] and the beginning
    [part] of the next one.  [line_inv] says how the loop keeps [part] (as it is, or in the
    streaming parser) and what it has put into the hash of the trusted range; [loop_inv]
    adds the reader, the budget and the agreement with the reference. *)

From stdpp Require Import gmap.
From S2P Require Import Prelude Bytes StoreTypes StoreRollout Redact TurnPack RecordParser RecordLexing.
From S2P Require Import RolloutScan RolloutReplay.

(** ** One line *)

Record line_inv (seen part : bytes) (scan : PendingScan) (line : bytes) (start : Z)
    (streaming : option StreamingLine) `{Serde} : Prop := {
  li_start : start = blen seen;
  li_trusted : 0 ≤ ps_trusted_offset scan ≤ blen seen;
  li_part : 10 ∉ part;
  li_kept :
    match streaming with
    | None => line = part ∧ blen part ≤ MAX_ROLLOUT_LINE_BYTES
              ∧ ps_trusted_range scan = drop (Z.to_nat (ps_trusted_offset scan)) seen
    | Some s => line = [] ∧ MAX_ROLLOUT_LINE_BYTES < blen part ∧ sl_start_offset s = start
                ∧ feed part new_parser = Ok (sl_parser s)
                ∧ ps_trusted_range scan = drop (Z.to_nat (ps_trusted_offset scan)) (seen ++ part)
    end;
}.

Lemma scan_hashed_app a b scan : scan_hashed b (scan_hashed a scan) = scan_hashed (a ++ b) scan.
Proof. destruct scan. unfold scan_hashed. cbn. by rewrite app_assoc. Qed.

(** The trusted range of a scan grows with what follows it. *)
Lemma drop_more (t : Z) (a b : bytes) : 0 ≤ t ≤ blen a → drop (Z.to_nat t) a ++ b = drop (Z.to_nat t) (a ++ b).
Proof. unfold blen. intros. rewrite drop_app_le; [done | lia]. Qed.

Section line.
Context `{Externals, Serde}.

Lemma check_partial_long part :
  check_partial part = Ok tt → MAX_ROLLOUT_LINE_BYTES < blen part → ∃ p, feed part new_parser = Ok p.
Proof.
  unfold check_partial. intros Hc Hl. replace (blen part <=? MAX_ROLLOUT_LINE_BYTES) with false in Hc by lia.
  destruct (feed part new_parser) as [p|]; [by exists p | done].
Qed.

(** Bytes of the line under way. *)
Lemma take_record_bytes_inv seen part record scan reader offset line start streaming active scanned incomplete cs :
  line_inv seen part scan line start streaming → 10 ∉ record → check_partial (part ++ record) = Ok tt →
  ∃ more line' streaming',
    take_record_bytes record (mk_loop scan reader offset line start streaming active scanned incomplete cs)
    = Ok (mk_loop (scan_hashed more scan) reader offset line' start streaming' active scanned incomplete cs)
    ∧ line_inv seen (part ++ record) (scan_hashed more scan) line' start streaming'.
Proof.
  intros [Hs Ht Hp Hk] Hr Hc. pose proof (blen_nonneg record). pose proof (check_partial_long _ Hc) as Hl.
  rewrite blen_app in Hl. assert (10 ∉ part ++ record) by (rewrite not_elem_of_app; tauto).
  assert (scan_hashed [] scan = scan) as Hnil by (destruct scan; unfold scan_hashed; cbn; by rewrite app_nil_r).
  assert (blen seen ≤ blen (seen ++ part)) by (rewrite blen_app; pose proof (blen_nonneg part); lia).
  unfold take_record_bytes. destruct streaming as [[st p]|]; cbn [sl_parser sl_start_offset] in *.
  - destruct Hk as (-> & Hlong & -> & Hf & Hrange). destruct Hl as [p' Hl]; [lia|].
    rewrite feed_app, Hf in Hl. cbn [rbind] in Hl. rewrite Hl. cbn [rbind].
    exists record, [], (Some (mk_streaming start p')). split; [done|].
    split; try done. cbn [sl_start_offset sl_parser]. split_and!; try done; [rewrite blen_app; lia| |].
    + by rewrite feed_app, Hf.
    + cbn. rewrite Hrange, app_assoc. apply drop_more. lia.
  - destruct Hk as (-> & Hshort & Hrange). case_match eqn:E.
    + exists [], (part ++ record), None. rewrite Hnil. split; [done|]. split; try done. split_and!; [done| |done].
      rewrite blen_app. lia.
    + destruct Hl as [p' Hl]; [lia|]. pose proof Hl as Hl'. rewrite feed_app in Hl.
      destruct (feed part new_parser) as [p|]; cbn [rbind] in *; [|done]. rewrite Hl. cbn [rbind].
      rewrite scan_hashed_app. exists (part ++ record), [], (Some (mk_streaming start p')). split; [done|].
      split; try done. cbn [sl_start_offset sl_parser]. split_and!; try done; [rewrite blen_app; lia|].
      cbn. rewrite Hrange. by apply drop_more.
Qed.

(** The line feed. *)
Lemma finish_line_inv seen part scan reader offset line start streaming active scanned incomplete cs v :
  line_inv seen part scan line start streaming → line_value part = Ok v →
  ∃ more,
    finish_line (mk_loop scan reader offset line start streaming active scanned incomplete cs)
    = Ok (v, scan_hashed more scan)
    ∧ line_inv (seen ++ part ++ [10]) [] (scan_hashed more scan) [] (blen (seen ++ part ++ [10])) None.
Proof.
  intros [Hs Ht Hp Hk] Hv. unfold line_value in Hv. unfold finish_line. cbn [ln_streaming ln_line ln_scan].
  pose proof (blen_nonneg part).
  assert (blen seen ≤ blen (seen ++ part ++ [10])) by (rewrite blen_app; pose proof (blen_nonneg (part ++ [10])); lia).
  assert (∀ more, drop (Z.to_nat (ps_trusted_offset scan)) (seen ++ part ++ [10]) = ps_trusted_range scan ++ more →
    line_inv (seen ++ part ++ [10]) [] (scan_hashed more scan) [] (blen (seen ++ part ++ [10])) None) as Hinv.
  { intros more Hm. split; [done | cbn [scan_hashed ps_trusted_offset]; lia | apply not_elem_of_nil|].
    split_and!; [done | by vm_compute |]. cbn [scan_hashed ps_trusted_range ps_trusted_offset]. by rewrite Hm. }
  destruct streaming as [[st p]|]; cbn [sl_parser sl_start_offset] in *.
  - destruct Hk as (-> & Hlong & -> & Hf & Hrange).
    replace (blen part <=? MAX_ROLLOUT_LINE_BYTES) with false in Hv by lia.
    rewrite Hf in Hv. cbn [rbind] in Hv. rewrite Hv. cbn [rbind]. exists [10]. split; [done|]. apply Hinv.
    rewrite Hrange, app_assoc. symmetry. apply drop_more. rewrite blen_app. lia.
  - destruct Hk as (-> & Hshort & Hrange). replace (blen part <=? MAX_ROLLOUT_LINE_BYTES) with true in Hv by lia.
    destruct (require _ _) as [[]|]; cbn [rbind] in *; [|done]. rewrite Hv. cbn [rbind]. rewrite scan_hashed_app.
    exists (part ++ [10]). split; [done|]. apply Hinv. rewrite Hrange. symmetry. by apply drop_more.
Qed.

End line.

(** ** Running on a still file *)

(** From the store [st] and the pending scans [pd], [x] succeeds with [a] and leaves [st']
    and [pd']; the clock does not matter. *)
Definition gives {S A} (x : Obs S A) (st : S) (pd : gmap text PendingScan) (a : A) (st' : S)
    (pd' : gmap text PendingScan) : Prop :=
  ∀ c, ∃ c', x (mk_mach st pd c) = (Ok a, mk_mach st' pd' c').

Section gives.
Context {S : Type}.
Implicit Types (st : S) (pd : gmap text PendingScan).

Lemma gives_ret {A} (a : A) st pd : gives (oret a) st pd a st pd.
Proof. intros c. by exists c. Qed.

Lemma gives_reads {A} (x : Obs S A) a st pd : reads x a → gives x st pd a st pd.
Proof. intros Hx c. apply Hx. Qed.

Lemma gives_bind {A B} (x : Obs S A) (k : A → Obs S B) st pd a st1 pd1 b st2 pd2 :
  gives x st pd a st1 pd1 → gives (k a) st1 pd1 b st2 pd2 → gives (obind x k) st pd b st2 pd2.
Proof. intros Hx Hk c. destruct (Hx c) as [c1 E]. unfold obind. rewrite E. apply Hk. Qed.

(** A reading step first. *)
Lemma gives_after {A B} (x : Obs S A) (k : A → Obs S B) st pd a b st2 pd2 :
  reads x a → gives (k a) st pd b st2 pd2 → gives (obind x k) st pd b st2 pd2.
Proof. intros Hx. by apply gives_bind, gives_reads. Qed.

Lemma gives_insert_pending tid scan st pd : gives (insert_pending tid scan) st pd tt st (<[tid := scan]> pd).
Proof. intros c. by exists c. Qed.

Lemma gives_remove_pending tid st pd : gives (remove_pending tid) st pd (pd !! tid) st (delete tid pd).
Proof. intros c. by exists c. Qed.

Lemma gives_stored_cursor `{RolloutStateAccess S} tid st pd cursor :
  ra_rollout_cursor tid st = Ok cursor → gives (stored_cursor tid) st pd cursor st pd.
Proof. intros E c. exists c. unfold stored_cursor. cbn [mc_store]. by rewrite E. Qed.

Lemma gives_commit `{RolloutStateAccess S} binding expected next cid tp st o st' pd :
  ra_commit_rollout_completion binding expected next cid tp st = Ok (o, st') →
  gives (commit_store binding expected next cid tp) st pd o st' pd.
Proof. intros E c. exists c. unfold commit_store. cbn [mc_store]. by rewrite E. Qed.
End gives.

Lemma newline_at_none b : newline_at b = None → 10 ∉ b.
Proof.
  unfold newline_at. intros Hn. apply fmap_None, list_find_None in Hn. rewrite Forall_forall in Hn.
  intros Hin. by apply (Hn 10 Hin).
Qed.

Lemma newline_at_some b i :
  newline_at b = Some i → b = take i b ++ 10 :: drop (S i) b ∧ 10 ∉ take i b ∧ (S i ≤ length b)%nat.
Proof.
  unfold newline_at. intros Hn. apply fmap_Some in Hn as ([j x] & Hn & ->). cbn [fst].
  apply list_find_Some in Hn as (Hx & -> & Hbefore). split_and!.
  - by rewrite take_drop_middle.
  - intros Hin. apply list_elem_of_lookup in Hin as [k Hk]. apply lookup_take_Some in Hk as [Hk Hlt].
    by eapply Hbefore.
  - by apply lookup_lt_Some in Hx.
Qed.

Lemma split_rest (buf rest : bytes) i :
  rest = buf ++ drop (length buf) rest → buf = take i buf ++ 10 :: drop (S i) buf → (S i ≤ length buf)%nat →
  rest = (take i buf ++ [10]) ++ drop (S i) rest.
Proof.
  intros Hbuf Hsplit Hi. rewrite Hbuf at 2. rewrite Hbuf at 1. rewrite drop_app_le by done. rewrite Hsplit at 1.
  by rewrite <- !app_assoc.
Qed.

Section loop.
Context `{Externals, Serde, Crypto} {S : Type} `{RolloutStateAccess S}.
Context (binding : option Binding) (task : ObservedTask) (device inode generation : Z).
Context (bs : bytes) (size : Z).
Hypothesis small_file : 2 * blen bs < MAX_SCAN_BYTES_PER_POLL.
Implicit Types (pd : gmap text PendingScan) (r : Replay S).

Notation world := (still bs device inode).
Notation rollout := (rollout_of device inode size).

(** The scan belongs to this file, and is ready for the next completion. *)
Record scan_inv (cursor : option RolloutCursor) (scan : PendingScan) : Prop := {
  si_expected : ps_expected scan = cursor;
  si_path : ps_rollout_path scan = tk_rollout_path task;
  si_device : ps_device scan = device;
  si_inode : ps_inode scan = inode;
  si_generation : ps_generation scan = generation;
  si_verification : ps_verification scan = None;
  si_trusted : trusted_ok bs scan;
}.

Lemma scan_inv_hashed cursor more scan : scan_inv cursor scan → scan_inv cursor (scan_hashed more scan).
Proof. intros [?????? []]. by repeat split. Qed.

Lemma scan_inv_verifying cursor v scan :
  scan_inv cursor scan → scan_inv cursor (scan_verifying None (scan_verifying v scan)).
Proof. intros [?????? []]. by repeat split. Qed.

(** The state of the loop after [rp_seen r ++ part], with [rest] still to be read. *)
Record loop_inv (base : list ObservedCompletion) (l : LoopState) (r : Replay S) (part rest : bytes) : Prop := {
  lp_line : line_inv (rp_seen r) part (ln_scan l) (ln_line l) (ln_line_start l) (ln_streaming l);
  lp_scan : scan_inv (rp_cursor r) (ln_scan l);
  lp_file : bs = rp_seen r ++ part ++ rest;
  lp_offset : ln_offset l = blen (rp_seen r ++ part);
  lp_reader : reader_at bs (ln_offset l) (ln_reader l);
  lp_active : ln_active l = rp_active r;
  lp_completions : rp_completions r = base ++ ln_completions l;
  lp_scanned : 0 ≤ ln_scanned l;
  lp_budget : ln_scanned l + (blen bs - ln_offset l) + (blen bs - ps_trusted_offset (ln_scan l))
              < MAX_SCAN_BYTES_PER_POLL;
}.

Lemma range_of_prefix seen rest : bs = seen ++ rest → ∀ a b, 0 ≤ a ≤ b → b ≤ blen seen → range bs a b = range seen a b.
Proof. intros ->. intros. by apply range_prefix. Qed.

Lemma drop_of_prefix seen rest t :
  bs = seen ++ rest → 0 ≤ t ≤ blen seen → range bs t (blen seen) = drop (Z.to_nat t) seen.
Proof. intros -> ?. rewrite range_prefix by lia. by apply range_rest. Qed.

Lemma anchor_after seen rest : bs = seen ++ rest →
  anchor bs (blen seen) = rc_anchor (cursor_after task device inode generation seen).
Proof.
  intros Hb. unfold anchor, cursor_after. cbn [rc_anchor]. pose proof (blen_nonneg seen).
  by rewrite (range_of_prefix seen rest) by (try done; unfold ROLLOUT_ANCHOR_BYTES; lia).
Qed.

(** A verified completion is committed with the cursor after its line. *)
Lemma gives_commit_verified seen rest scan cursor id pack o st st' pd :
  bs = seen ++ rest → scan_inv cursor (scan_verifying None scan) →
  ps_verification scan = Some (mk_verification (ps_trusted_offset scan) (blen seen) (blen seen)
    (range bs (ps_trusted_offset scan) (blen seen)) (sha256 (ps_trusted_range scan)) id pack) →
  ps_trusted_range scan = drop (Z.to_nat (ps_trusted_offset scan)) seen → 0 ≤ ps_trusted_offset scan ≤ blen seen →
  ra_commit_rollout_completion binding cursor (cursor_after task device inode generation seen) id pack st = Ok (o, st') →
  ∃ scan', gives (commit_verified_completion world binding rollout task scan) st pd (mk_observed id o, scan') st' pd
    ∧ scan_inv (Some (cursor_after task device inode generation seen)) scan'
    ∧ ps_trusted_offset scan' = blen seen ∧ ps_trusted_range scan' = [].
Proof.
  intros Hb [He Hp Hd Hi Hg _ _] Hv Hrange Ht Hc. cbn in He, Hp, Hd, Hi, Hg.
  assert (0 ≤ blen seen ≤ blen bs) as Hlen
    by (rewrite Hb, blen_app; pose proof (blen_nonneg seen); pose proof (blen_nonneg rest); lia).
  eexists. split.
  - unfold commit_verified_completion. rewrite Hv. eapply gives_after; [by apply reads_lift|].
    eapply gives_after.
    { apply reads_require. unfold is_complete. cbn [cv_offset cv_end_offset cv_digest cv_expected_digest].
      rewrite Z.eqb_refl, Hrange, (drop_of_prefix seen rest) by done. by apply bool_decide_eq_true_2. }
    cbn [cv_end_offset cv_completion_id cv_turn_pack]. eapply gives_after; [by apply reads_anchor_at|].
    eapply gives_bind; [|eapply gives_after; [by apply reads_anchor_at|];
      eapply gives_after; [by apply reads_trust_from|]; apply gives_ret].
    apply gives_commit. rewrite He, Hg, (anchor_after seen rest) by done. exact Hc.
  - split; [|done]. split; cbn; try done; [|by apply trusted_from_ok].
    rewrite Hg, (anchor_after seen rest) by done. done.
Qed.

(** The turn that the line just read completes. *)
Lemma gives_complete_line seen rest scan reader cursor id pack active scanned incomplete cs o st st' pd :
  bs = seen ++ rest → scan_inv cursor scan → line_inv seen [] scan [] (blen seen) None → 0 ≤ scanned →
  scanned + (blen bs - blen seen) + (blen bs - ps_trusted_offset scan) < MAX_SCAN_BYTES_PER_POLL →
  ra_commit_rollout_completion binding cursor (cursor_after task device inode generation seen) id pack st = Ok (o, st') →
  ∃ scan' scanned',
    gives (complete_line world binding rollout task id pack
             (mk_loop scan reader (blen seen) [] (blen seen) None active scanned incomplete cs)) st pd
      (Next (mk_loop scan' reader (blen seen) [] (blen seen) None active scanned' incomplete
               (cs ++ [mk_observed id o]))) st' pd
    ∧ scan_inv (Some (cursor_after task device inode generation seen)) scan'
    ∧ line_inv seen [] scan' [] (blen seen) None ∧ scanned ≤ scanned'
    ∧ scanned' + (blen bs - blen seen) + (blen bs - ps_trusted_offset scan') < MAX_SCAN_BYTES_PER_POLL.
Proof.
  intros Hb Hscan [_ Ht _ (_ & _ & Hrange)] Hs Hbudget Hc. pose proof Hscan as [_ _ _ _ _ Hv Htr].
  assert (0 ≤ blen seen ≤ blen bs) as Hlen
    by (rewrite Hb, blen_app; pose proof (blen_nonneg seen); pose proof (blen_nonneg rest); lia).
  set (t := ps_trusted_offset scan) in *.
  set (v := mk_verification t (blen seen) (blen seen) (range bs t (blen seen)) (sha256 (ps_trusted_range scan)) id pack).
  destruct (gives_commit_verified seen rest (scan_verifying (Some v) scan) cursor id pack o st st' pd)
    as (scan' & Hcommit & Hscan' & Ht' & Hr'); [done | by apply scan_inv_verifying | done..|].
  exists scan', (scanned + (blen seen - t)). split_and!; [|done| | |rewrite Ht'; lia].
  - unfold complete_line. eapply gives_after; [apply reads_verify_path_identity|].
    eapply gives_after; [by apply reads_validate_trusted_range|].
    eapply gives_after.
    { eapply reads_bind; [apply reads_require|apply reads_ret]. rewrite Hv. fold t. lia. }
    fold t. eapply gives_after; [apply reads_advance; cbn [cv_offset cv_start_offset cv_end_offset]; done || lia|].
    cbn [fst snd cv_start_offset cv_end_offset cv_digest cv_expected_digest cv_completion_id cv_turn_pack app].
    fold v. unfold is_complete at 1. cbn [cv_offset cv_end_offset v]. rewrite Z.eqb_refl.
    eapply gives_bind; [exact Hcommit|]. apply gives_ret.
  - split; [done | lia | apply not_elem_of_nil|]. split_and!; [done | by vm_compute|].
    rewrite Ht', Hr'. symmetry. apply drop_ge. unfold blen. lia.
  - lia.
Qed.

Lemma loop_offset base l r part rest :
  loop_inv base l r part rest → 0 ≤ ln_offset l ∧ ln_offset l + blen rest = blen bs.
Proof.
  intros Hl. rewrite (lp_offset _ _ _ _ _ Hl), (lp_file _ _ _ _ _ Hl), app_assoc, (blen_app _ rest).
  pose proof (blen_nonneg (rp_seen r ++ part)). lia.
Qed.

(** The bytes of one read. *)
Lemma buffer_of_rest base l r part rest reader :
  loop_inv base l r part rest → reader_at bs (ln_offset l) reader →
  rest = br_buffer reader ++ drop (length (br_buffer reader)) rest
  ∧ take (Z.to_nat (MAX_SCAN_BYTES_PER_POLL - ln_scanned l)) (br_buffer reader) = br_buffer reader
  ∧ ln_scanned l + blen (br_buffer reader) < MAX_SCAN_BYTES_PER_POLL.
Proof.
  intros Hl [Hp Hb]. pose proof (lp_budget _ _ _ _ _ Hl). pose proof (lp_file _ _ _ _ _ Hl) as Hf.
  pose proof (to_bound _ _ (si_trusted _ _ (lp_scan _ _ _ _ _ Hl))).
  pose proof (to_prefix_len _ _ (si_trusted _ _ (lp_scan _ _ _ _ _ Hl))).
  pose proof (lp_offset _ _ _ _ _ Hl) as Ho. pose proof (blen_nonneg (rp_seen r ++ part)).
  assert (blen (br_buffer reader) = br_position reader - ln_offset l) as Hlen by (rewrite Hb, blen_range; lia).
  split_and!; [|apply take_ge; unfold blen in *; lia | lia].
  assert (br_buffer reader = take (length (br_buffer reader)) rest) as Hbuf; [|rewrite Hbuf at 1; by rewrite take_drop].
  rewrite Hb at 1. unfold range. rewrite Hf, app_assoc, Ho, drop_app_ge by (unfold blen; lia).
  unfold blen at 2. rewrite Nat2Z.id, Nat.sub_diag, drop_0. f_equal. unfold blen in *. lia.
Qed.

Notation replay_from := (replay_from binding task device inode generation).
Notation replay_line := (replay_line binding task device inode generation).

(** A line feed: the loop and the reference apply the same value. *)
Lemma gives_end_line base r r1 part rest scan reader line start streaming active scanned incomplete cs pd :
  line_inv (rp_seen r) part scan line start streaming → scan_inv (rp_cursor r) scan →
  bs = (rp_seen r ++ part ++ [10]) ++ rest → reader_at bs (blen (rp_seen r ++ part ++ [10])) reader →
  active = rp_active r → rp_completions r = base ++ cs → 0 ≤ scanned →
  scanned + (blen bs - blen (rp_seen r ++ part ++ [10])) + (blen bs - ps_trusted_offset scan) < MAX_SCAN_BYTES_PER_POLL →
  replay_line part r = Ok r1 →
  ∃ l1, gives (end_line world binding rollout task (mk_loop scan reader (blen (rp_seen r ++ part ++ [10])) line start
                 streaming active scanned incomplete cs)) (rp_store r) pd (Next l1) (rp_store r1) pd
    ∧ loop_inv base l1 r1 [] rest ∧ ln_incomplete l1 = incomplete ∧ scanned ≤ ln_scanned l1.
Proof.
  intros Hline Hscan Hb Hreader -> Hcs Hs Hbudget Hr. pose proof (replay_line_seen _ _ _ _ _ _ _ _ Hr) as Hseen.
  unfold RolloutReplay.replay_line in Hr. destruct (line_value part) as [v|] eqn:Ev; cbn [rbind] in Hr; [|done].
  destruct (finish_line_inv (rp_seen r) part scan reader (blen (rp_seen r ++ part ++ [10])) line start streaming
    (rp_active r) scanned incomplete cs v Hline Ev) as (more & Efin & Hline').
  set (seen := rp_seen r ++ part ++ [10]) in *.
  destruct (apply_rollout_value v (rp_active r)) as [[event active']|] eqn:Ea; cbn [rbind fst snd] in Hr; [|done].
  pose proof (scan_inv_hashed _ more _ Hscan) as Hscan'.
  destruct event as [[id pack]|].
  - destruct (ra_commit_rollout_completion _ _ _ _ _ _) as [[o st']|] eqn:Ec in Hr; [|done]. injection Hr as <-.
    cbn [rp_seen] in Hseen. edestruct (gives_complete_line seen rest (scan_hashed more scan) reader (rp_cursor r) id pack active' scanned
      incomplete cs o (rp_store r) st' pd) as (scan' & scanned' & Hgives & Hs' & Hl' & Hle & Hb'); try done.
    eexists. split; [|split; [|split]].
    + eapply gives_after; [by apply reads_lift|]. cbn [fst ln_active].
      eapply gives_after; [by apply reads_lift|]. cbn [fst snd ln_reader ln_offset ln_scanned ln_incomplete ln_completions].
      exact Hgives.
    + split; cbn [rp_seen rp_cursor rp_active rp_completions ln_scan ln_line ln_line_start ln_streaming ln_offset ln_reader
        ln_active ln_completions ln_scanned]; first [done | by rewrite app_nil_r | by rewrite Hcs, app_assoc | lia].
    + done.
    + exact Hle.
  - injection Hr as <-. eexists. split; [|split; [|split]].
    + eapply gives_after; [by apply reads_lift|]. cbn [fst ln_active].
      eapply gives_after; [by apply reads_lift|]. cbn [fst snd ln_reader ln_offset ln_scanned ln_incomplete ln_completions].
      apply gives_ret.
    + split; cbn [rp_seen rp_cursor rp_active rp_completions ln_scan ln_line ln_line_start ln_streaming ln_offset ln_reader
        ln_active ln_completions ln_scanned]; first [done | by rewrite app_nil_r].
    + done.
    + cbn [ln_scanned]. lia.
Qed.

(** A read without a line feed. *)
Lemma gives_read_part base l r part rest reader r1 part1 pd :
  loop_inv base l r part rest → reads (S := S) (fill_buf world (ln_reader l)) reader → reader_at bs (ln_offset l) reader →
  br_buffer reader ≠ [] → newline_at (br_buffer reader) = None →
  replay_from part (br_buffer reader) r = Ok (r1, part1) →
  ∃ l1, gives (read_step world binding rollout task l) (rp_store r) pd (Next l1) (rp_store r) pd
    ∧ loop_inv base l1 r part1 (drop (length (br_buffer reader)) rest) ∧ r1 = r
    ∧ ln_incomplete l1 = ln_incomplete l ∧ ln_scanned l < ln_scanned l1.
Proof.
  intros Hl Hfill Hrd Hne Enl Hr. pose proof (loop_offset _ _ _ _ _ Hl) as [Ho Hend].
  destruct (buffer_of_rest base l r part rest reader Hl Hrd) as (Hbuf & Hall & Hlen).
  set (buf := br_buffer reader) in *. pose proof (newline_at_none _ Enl) as Hplain.
  apply replay_from_plain in Hr as (-> & -> & Hc); [|done].
  assert (ln_offset l + blen buf ≤ u64_max) as Hu.
  { rewrite Hbuf, blen_app in Hend. pose proof (blen_nonneg (drop (length buf) rest)). unfold MAX_SCAN_BYTES_PER_POLL in small_file. unfold u64_max. lia. }
  assert (0 < blen buf) as Hpos by (destruct buf; [done | unfold blen; cbn [length]; lia]).
  destruct Hl as [Hline Hscan Hfile Hoff Hreader Hact Hcs Hs Hbudget].
  destruct l as [scan rd0 offset line start streaming active scanned incomplete cs].
  cbn [ln_scan ln_reader ln_offset ln_line ln_line_start ln_streaming ln_active ln_scanned ln_incomplete ln_completions] in *.
  destruct (take_record_bytes_inv _ _ _ scan rd0 offset line start streaming active scanned incomplete cs Hline Hplain Hc)
    as (more & line' & streaming' & Etake & Hline').
  eexists. split; [|split; [|split; [done|split]]].
  - unfold read_step. cbn [ln_reader ln_scanned]. eapply gives_after; [exact Hfill|]. fold buf.
    rewrite bool_decide_eq_false_2 by done. rewrite Hall, Enl. cbn [default]. rewrite firstn_all.
    eapply gives_after; [by apply reads_lift|]. eapply gives_after; [apply reads_lift, checked_add_ok; exact Hu|].
    replace (scanned + Z.of_nat (length buf) =? MAX_SCAN_BYTES_PER_POLL) with false by (unfold blen in *; lia).
    apply gives_ret.
  - split; cbn [ln_scan ln_reader ln_offset ln_line ln_line_start ln_streaming ln_active ln_scanned ln_incomplete ln_completions];
      try done.
    + by apply scan_inv_hashed.
    + rewrite Hfile, Hbuf at 1. by rewrite <- app_assoc.
    + rewrite Hoff, !blen_app. unfold blen. lia.
    + apply consume_reader_at; [lia | done | done].
    + lia.
    + cbn [scan_hashed ps_trusted_offset]. unfold blen in *. lia.
  - done.
  - cbn [ln_scanned]. unfold blen in *. lia.
Qed.

(** A read with a line feed: the loop takes the bytes up to it and leaves the others in the
    buffer. *)
Lemma gives_read_line base l r part rest reader i r1 part1 pd :
  loop_inv base l r part rest → reads (S := S) (fill_buf world (ln_reader l)) reader → reader_at bs (ln_offset l) reader →
  newline_at (br_buffer reader) = Some i → replay_from part (take i (br_buffer reader) ++ [10]) r = Ok (r1, part1) →
  ∃ l1, gives (read_step world binding rollout task l) (rp_store r) pd (Next l1) (rp_store r1) pd
    ∧ loop_inv base l1 r1 part1 (drop (Datatypes.S i) rest)
    ∧ ln_incomplete l1 = ln_incomplete l ∧ ln_scanned l < ln_scanned l1.
Proof.
  intros Hl Hfill Hrd Enl Hr. pose proof (loop_offset _ _ _ _ _ Hl) as [Ho Hend].
  destruct (buffer_of_rest base l r part rest reader Hl Hrd) as (Hbuf & Hall & Hlen).
  set (buf := br_buffer reader) in *. destruct (newline_at_some _ _ Enl) as (Hsplit & Hplain & Hi).
  apply replay_from_app in Hr as (r0 & p0 & (-> & -> & Hc)%replay_from_plain & Hr); [|done].
  apply replay_from_feed in Hr as (r2 & Hr & [= -> <-]).
  assert (blen (take i buf) = Z.of_nat i) as Hti by (unfold blen; rewrite length_take; lia).
  pose proof (split_rest buf rest i Hbuf Hsplit Hi) as Hrest.
  assert (ln_offset l + Z.of_nat (Datatypes.S i) ≤ u64_max ∧ Z.of_nat (Datatypes.S i) ≤ blen buf) as [Hu Hib].
  { unfold MAX_SCAN_BYTES_PER_POLL in small_file. rewrite Hbuf, blen_app in Hend.
    pose proof (blen_nonneg (drop (length buf) rest)). unfold u64_max, blen in *. lia. }
  destruct Hl as [Hline Hscan Hfile Hoff Hreader Hact Hcs Hs Hbudget].
  destruct l as [scan rd0 offset line start streaming active scanned incomplete cs].
  cbn [ln_scan ln_reader ln_offset ln_line ln_line_start ln_streaming ln_active ln_scanned ln_incomplete ln_completions] in *.
  destruct (take_record_bytes_inv _ _ _ scan rd0 offset line start streaming active scanned incomplete cs Hline Hplain Hc)
    as (more & line' & streaming' & Etake & Hline').
  assert (offset + Z.of_nat (Datatypes.S i) = blen (rp_seen r ++ (part ++ take i buf) ++ [10])) as Eoff.
  { rewrite Hoff. rewrite !blen_app, Hti. unfold blen at 5. cbn [length]. lia. }
  edestruct (gives_end_line base r r1 (part ++ take i buf) (drop (Datatypes.S i) rest) (scan_hashed more scan)
    (consume (Datatypes.S i) reader) line' start streaming' active (scanned + Z.of_nat (Datatypes.S i)) incomplete cs pd)
    as (l1 & Hg & Hl1 & Hinc & Hsc); try done.
  - by apply scan_inv_hashed.
  - rewrite Hfile, Hrest at 1. rewrite <- !app_assoc. done.
  - rewrite <- Eoff. by apply consume_reader_at.
  - lia.
  - rewrite <- Eoff. cbn [scan_hashed ps_trusted_offset]. lia.
  - exists l1. split_and!; [|done|done|lia].
    unfold read_step. cbn [ln_reader ln_scanned]. eapply gives_after; [exact Hfill|]. fold buf.
    rewrite bool_decide_eq_false_2 by (intros Hn; rewrite Hn in Hi; cbn in Hi; lia). rewrite Hall, Enl. cbn [default].
    eapply gives_after; [by apply reads_lift|]. eapply gives_after; [apply reads_lift, checked_add_ok; exact Hu|].
    rewrite Eoff. exact Hg.
Qed.

(** One read: the loop and the reference make the same progress. *)
Lemma gives_read_step base l r part rest r' part' pd :
  loop_inv base l r part rest → rest ≠ [] →
  replay_from part rest r = Ok (r', part') →
  ∃ l1 r1 part1 rest1,
    gives (read_step world binding rollout task l) (rp_store r) pd (Next l1) (rp_store r1) pd
    ∧ loop_inv base l1 r1 part1 rest1
    ∧ replay_from part1 rest1 r1 = Ok (r', part')
    ∧ ln_incomplete l1 = ln_incomplete l ∧ ln_scanned l < ln_scanned l1.
Proof.
  intros Hl Hrest Hr. pose proof (loop_offset _ _ _ _ _ Hl) as [Ho Hend].
  assert (0 < blen rest) as Hpos by (destruct rest; [done | unfold blen; cbn [length]; lia]).
  destruct (reads_fill_buf (S := S) bs device inode (ln_offset l) (ln_reader l)) as (rd & Hfill & Hrd & Hempty);
    [lia | apply Hl|].
  destruct (buffer_of_rest base l r part rest rd Hl Hrd) as (Hbuf & Hall & Hlen).
  assert (br_buffer rd ≠ []) as Hne by (intros Hn; specialize (Hempty Hn); lia).
  destruct (newline_at (br_buffer rd)) as [i|] eqn:Enl.
  - destruct (newline_at_some _ _ Enl) as (Hsplit & Hplain & Hi).
    rewrite (split_rest _ _ _ Hbuf Hsplit Hi) in Hr. apply replay_from_app in Hr as (r1 & part1 & Hr1 & Hr2).
    destruct (gives_read_line base l r part rest rd i r1 part1 pd) as (l1 & Hg & Hl1 & Hinc & Hlt); try done.
    exists l1, r1, part1, (drop (Datatypes.S i) rest). by split_and!.
  - rewrite Hbuf in Hr. apply replay_from_app in Hr as (r1 & part1 & Hr1 & Hr2).
    destruct (gives_read_part base l r part rest rd r1 part1 pd) as (l1 & Hg & Hl1 & -> & Hi & Hlt); try done.
    exists l1, r, part1, (drop (length (br_buffer rd)) rest). by split_and!.
Qed.

(** The end of the file. *)
Lemma gives_read_end base l r part pd :
  loop_inv base l r part [] →
  ∃ l', gives (read_step world binding rollout task l) (rp_store r) pd (Done l') (rp_store r) pd
    ∧ loop_inv base l' r part [] ∧ ln_incomplete l' = negb (bool_decide (part = [])).
Proof.
  intros Hl. pose proof (loop_offset _ _ _ _ _ Hl) as [Ho Hend]. rewrite blen_nil in Hend.
  destruct (reads_fill_buf (S := S) bs device inode (ln_offset l) (ln_reader l)) as (rd & Hfill & Hrd & _);
    [lia | apply Hl|].
  destruct (buffer_of_rest base l r part [] rd Hl Hrd) as (Hbuf & _). symmetry in Hbuf. apply app_nil in Hbuf as [Hbuf _].
  eexists. split; [|split].
  - unfold read_step. eapply gives_after; [exact Hfill|]. rewrite bool_decide_eq_true_2 by done. apply gives_ret.
  - by destruct Hl.
  - cbn [ln_incomplete]. pose proof (li_kept _ _ _ _ _ _ (lp_line _ _ _ _ _ Hl)) as Hk.
    destruct (ln_streaming l).
    + symmetry. apply negb_true_iff, bool_decide_eq_false_2. intros ->. destruct Hk as (_ & Hk & _).
      rewrite blen_nil in Hk. unfold MAX_ROLLOUT_LINE_BYTES in Hk. lia.
    + by destruct Hk as (-> & _).
Qed.

(** The loop reads the rest of the file. *)
Lemma gives_read_loop base fuel l r part rest r' part' pd :
  loop_inv base l r part rest → MAX_SCAN_BYTES_PER_POLL - ln_scanned l ≤ Z.of_nat fuel → ln_incomplete l = false →
  replay_from part rest r = Ok (r', part') →
  ∃ l', gives (read_loop world binding rollout task fuel l) (rp_store r) pd (Done l') (rp_store r') pd
    ∧ loop_inv base l' r' part' [] ∧ ln_incomplete l' = negb (bool_decide (part' = [])).
Proof.
  revert l r part rest. induction fuel as [|fuel IH]; intros l r part rest Hl Hf Hi Hr;
    (assert (ln_scanned l < MAX_SCAN_BYTES_PER_POLL) as Hs;
      [pose proof (lp_budget _ _ _ _ _ Hl); pose proof (loop_offset _ _ _ _ _ Hl); pose proof (blen_nonneg rest);
       pose proof (to_bound _ _ (si_trusted _ _ (lp_scan _ _ _ _ _ Hl)));
       pose proof (to_prefix_len _ _ (si_trusted _ _ (lp_scan _ _ _ _ _ Hl))); lia|]); [lia|].
  cbn [read_loop]. replace (MAX_SCAN_BYTES_PER_POLL <=? ln_scanned l) with false by lia.
  destruct (decide (rest = [])) as [->|Hne].
  - apply replay_from_plain in Hr as (-> & -> & _); [|apply not_elem_of_nil]. rewrite app_nil_r.
    destruct (gives_read_end base l r part pd Hl) as (l' & Hg & Hl' & Hi'). exists l'. split; [|done].
    eapply gives_bind; [exact Hg|]. apply gives_ret.
  - destruct (gives_read_step base l r part rest r' part' pd Hl Hne Hr)
      as (l1 & r1 & part1 & rest1 & Hg & Hl1 & Hr1 & Hi1 & Hs1).
    destruct (IH l1 r1 part1 rest1) as (l' & Hg' & Hl'); [done | lia | congruence | done|].
    exists l'. split; [|done]. eapply gives_bind; [exact Hg | exact Hg'].
Qed.

End loop.
