(* ===== verification/RolloutTail.v ===== *)
(** * Following a rollout that grows

    Polls of a file that is only ever appended to, with restarts of the observer between
    them, together record what one pass over the final file records: nothing is missed, and
    nothing is read as part of the wrong turn.  [tail_inv] is what holds between two polls;
    [RolloutStateLaws] is what the store promises. *)

From stdpp Require Import gmap.
From S2P Require Import Prelude Bytes StoreTypes StoreRollout Redact TurnPack RecordParser RecordLexing.
From S2P Require Import RolloutScan RolloutReplay RolloutLoop.

(** ** What the observer needs from the store *)

Class RolloutStateLaws (S : Type) `{RolloutStateAccess S} := {
  ra_valid : S → Prop;
  (** A committed cursor is the one found next time. *)
  ra_commit_cursor binding expected next cid tp s o s' :
    ra_valid s → cursor_wf next →
    ra_commit_rollout_completion binding expected next cid tp s = Ok (o, s') →
    ra_valid s' ∧ ra_rollout_cursor (rc_task_id next) s' = Ok (Some next);
}.

(** The state database keeps the promise. *)
#[export] Program Instance store_laws `{Externals} (now : Z) : @RolloutStateLaws Db (store_access now) := {|
  ra_valid := schema_ok;
|}.
Next Obligation.
  intros ? now b expected next cid tp db o db' Hs Hwf Hc.
  assert (∃ b, commit_rollout_completion_on now b expected next cid tp db = Ok (o, db')) as [b' Hc']
    by (exists b; destruct b; exact Hc).
  clear Hc. apply commit_ok in Hc' as (_ & _ & _ & H1 & H2 & H3 & H4 & Hs' & db1 & Hr & ->). split; [done|].
  cbn [ra_rollout_cursor store_access]. unfold rollout_cursor, query_result.
  rewrite query_cursor_after; try done.
  apply record_completion_ok in Hr. unfold schema_ok in Hs. destruct Hr as [(_ & -> & _)|(_ & _ & ->)]; cbn; tauto.
Qed.

(** ** The first line *)

Lemma first_feed_unique (a b x y : bytes) : 10 ∉ a → 10 ∉ b → a ++ 10 :: x = b ++ 10 :: y → a = b.
Proof.
  intros Ha Hb E. apply (f_equal (lines_of [])) in E. rewrite !lines_of_feed in E by done. by injection E.
Qed.

Section session.
Context `{Externals, Serde, Crypto} {S : Type}.
Context (bs : bytes) (device inode : Z).
Notation world := (still bs device inode).

Lemma reads_bounded_line fuel reader output todo rest :
  bs = output ++ todo ++ 10 :: rest → 10 ∉ todo → 10 ∉ output → reader_at bs (blen output) reader →
  blen (output ++ todo) < MAX_ROLLOUT_LINE_BYTES → blen todo < Z.of_nat fuel →
  reads (S := S) (read_bounded_line world fuel MAX_ROLLOUT_LINE_BYTES reader output) (output ++ todo ++ [10]).
Proof.
  revert reader output todo. induction fuel as [|fuel IH]; intros reader output todo Hb Ht Hout Hrd Hl Hf.
  { pose proof (blen_nonneg todo). lia. }
  assert (0 ≤ blen output ∧ blen bs = blen output + (blen todo + (1 + blen rest))) as [Ho Hlen].
  { split; [apply blen_nonneg|]. rewrite Hb, !blen_app. unfold blen at 3. cbn [length]. unfold blen. lia. }
  pose proof (blen_nonneg rest) as Hrest. pose proof (blen_nonneg todo) as Htodo. rewrite blen_app in Hl.
  destruct (reads_fill_buf (S := S) bs device inode (blen output) reader) as (rd & Hfill & [Hpos Hbuf] & Hend); [lia|done|].
  assert (br_buffer rd ≠ []) as Hne by (intros Hn; specialize (Hend Hn); lia).
  assert (todo ++ 10 :: rest = br_buffer rd ++ drop (length (br_buffer rd)) (todo ++ 10 :: rest)) as Hsplit.
  { assert (blen (br_buffer rd) = br_position rd - blen output) as Hbl by (rewrite Hbuf, blen_range; lia).
    assert (br_buffer rd = take (length (br_buffer rd)) (todo ++ 10 :: rest)) as Hpre; [|rewrite Hpre at 1; by rewrite take_drop].
    rewrite Hbuf at 1. unfold range. rewrite Hb, drop_app_ge by (unfold blen; lia).
    unfold blen at 2. rewrite Nat2Z.id, Nat.sub_diag, drop_0. f_equal. unfold blen in *. lia. }
  cbn [read_bounded_line]. eapply reads_bind; [exact Hfill|]. rewrite bool_decide_eq_false_2 by done.
  destruct (newline_at (br_buffer rd)) as [i|] eqn:Enl.
  - destruct (newline_at_some _ _ Enl) as (Hnl & Hplain & Hi).
    assert (todo = take i (br_buffer rd)) as Ei.
    { rewrite Hnl, <- app_assoc in Hsplit at 1. cbn [app] in Hsplit. by eapply first_feed_unique in Hsplit. }
    assert (take (Datatypes.S i) (br_buffer rd) = todo ++ [10]) as ->.
    { rewrite Hnl at 1. rewrite <- Ei. rewrite take_app_ge by (rewrite Ei, length_take; lia).
      replace (Datatypes.S i - length todo)%nat with 1%nat by (rewrite Ei, length_take; lia). done. }
    assert (blen todo = Z.of_nat i) as Hti by (unfold blen; rewrite Ei, length_take; lia).
    eapply reads_bind; [apply reads_require, Z.leb_le; rewrite Nat2Z.inj_succ, <- Hti; lia|].
    rewrite bool_decide_eq_true_2; [apply reads_ret|].
    by rewrite app_assoc, last_snoc.
  - pose proof (newline_at_none _ Enl) as Hplain. rewrite firstn_all.
    assert (∃ todo', todo = br_buffer rd ++ todo') as [todo' Et].
    { apply app_eq_inv in Hsplit as [(k & -> & _)|(k & Hk & Hk')]; [by exists k|].
      destruct k as [|x k]; [exists []; by rewrite Hk, !app_nil_r|]. injection Hk' as <- _.
      exfalso. apply Hplain. rewrite Hk. apply elem_of_app. right. by left. }
    assert (0 < blen (br_buffer rd)) by (destruct (br_buffer rd); [done | unfold blen; cbn [length]; lia]).
    rewrite Et, blen_app in Hl, Hf. pose proof (blen_nonneg todo').
    eapply reads_bind; [apply reads_require, Z.leb_le; unfold blen in *; lia|].
    rewrite bool_decide_eq_false_2; [|].
    + replace (output ++ todo ++ [10]) with ((output ++ br_buffer rd) ++ todo' ++ [10]) by (by rewrite Et, <- !app_assoc).
      apply IH.
      * by rewrite Hb, Et, <- !app_assoc.
      * rewrite Et, not_elem_of_app in Ht. tauto.
      * rewrite not_elem_of_app. tauto.
      * rewrite blen_app. by apply consume_reader_at.
      * rewrite !blen_app. lia.
      * lia.
    + intros Hlast. apply last_Some in Hlast as [l' Hl']. assert (10 ∈ output ++ br_buffer rd) as Hin.
      { rewrite Hl'. apply elem_of_app. right. by left. }
      apply elem_of_app in Hin. tauto.
Qed.

(** The first line names the task. *)
Definition session_ok (task_id : text) (b : bytes) : Prop :=
  ∃ line rest v,
    b = line ++ 10 :: rest ∧ 10 ∉ line ∧ blen line < MAX_ROLLOUT_LINE_BYTES
    ∧ json_from_slice (strip_last 13 line) = Some v
    ∧ (as_object v ≫= get_str "type") = Some (key "session_meta") ∧ session_id v = Some task_id.

Lemma session_ok_app task_id b more : session_ok task_id b → session_ok task_id (b ++ more).
Proof.
  intros (line & rest & v & -> & Hs). exists line, (rest ++ more), v. split; [|done]. by rewrite <- app_assoc.
Qed.

Lemma reads_validate_session_meta task_id size :
  session_ok task_id bs → reads (S := S) (validate_session_meta world (rollout_of device inode size) task_id) tt.
Proof.
  intros (line & rest & v & Hb & Hline & Hlen & Hjson & Htype & Hid).
  eapply reads_bind; [apply reads_look|]. cbn [fv_identity].
  eapply reads_bind; [apply reads_require; by apply bool_decide_eq_true_2|].
  eapply reads_bind.
  { apply (reads_bounded_line _ _ [] line rest); [exact Hb | exact Hline | apply not_elem_of_nil | | exact Hlen|].
    - split; [cbn; rewrite blen_nil; pose proof (blen_nonneg bs); lia|]. cbn. by rewrite blen_nil, range_empty.
    - rewrite Z2Nat.id by (unfold MAX_ROLLOUT_LINE_BYTES; lia). lia. }
  cbn [app]. eapply reads_bind; [apply reads_require; rewrite last_snoc; by apply bool_decide_eq_true_2|].
  assert (strip_last 10 (line ++ [10]) = line) as ->.
  { unfold strip_last. rewrite last_snoc, bool_decide_eq_true_2 by done. rewrite length_app. cbn [length].
    rewrite take_app_le by lia. apply take_ge. lia. }
  rewrite Hjson. eapply reads_bind; [by apply reads_lift|].
  eapply reads_bind; [apply reads_require; rewrite Htype, Hid, !bool_decide_eq_true_2 by done; done|].
  apply reads_verify_path_identity.
Qed.

Lemma reads_validate_line_boundary seen rest :
  bs = seen ++ rest → seen = [] ∨ last seen = Some 10 →
  reads (S := S) (validate_line_boundary world (blen seen)) tt.
Proof.
  intros Hb Hseen. unfold validate_line_boundary. destruct (Z.eqb_spec (blen seen) 0) as [|Hne]; [apply reads_ret|].
  destruct Hseen as [->|Hlast]; [done|]. apply last_Some in Hlast as [l ->].
  assert (blen (l ++ [10]) = blen l + 1) as El by (by rewrite blen_app). pose proof (blen_nonneg l).
  eapply reads_bind; [apply reads_read_at; lia|]. apply reads_require, bool_decide_eq_true_2.
  rewrite El, Hb. replace (blen l + 1 - 1 + 1) with (blen (l ++ [10])) by lia. replace (blen l + 1 - 1) with (blen l) by lia.
  rewrite range_prefix by lia. rewrite range_rest by lia. unfold blen. by rewrite Nat2Z.id, drop_app_length.
Qed.

End session.

(** ** Between two polls *)

Section tail.
Context `{Externals, Serde, Crypto} {S : Type} `{RolloutStateLaws S}.
Context (binding : option Binding) (task : ObservedTask) (device inode : Z).
Implicit Types (r : Replay S) (pd : gmap text PendingScan).

Notation replay := (replay binding task device inode 1).
Notation replay_from := (replay_from binding task device inode 1).
Notation replay_line := (replay_line binding task device inode 1).
Notation cursor_after := (cursor_after task device inode 1).

(** The store's cursor says where the reference was when it last committed; from there, and
    with no turn under way, the lines since lead to [r] without another commit. *)
Record store_inv r : Prop := {
  sv_valid : ra_valid (rp_store r);
  sv_cursor : ra_rollout_cursor (tk_task_id task) (rp_store r) = Ok (rp_cursor r);
  sv_seen : rp_seen r = [] ∨ last (rp_seen r) = Some 10;
  sv_checkpoint :
    ∃ seen since lines, (seen = [] ∨ last seen = Some 10)
      ∧ match rp_cursor r with None => seen = [] | Some c => c = cursor_after seen end
      ∧ rp_seen r = seen ++ since ∧ lines_of [] since = (lines, [])
      ∧ replay lines (mk_replay seen None (rp_cursor r) (rp_store r) (rp_completions r)) = Ok r;
}.

Lemma store_inv_start store :
  ra_valid store → ra_rollout_cursor (tk_task_id task) store = Ok None → store_inv (mk_replay [] None None store []).
Proof. intros Hv Hc. split; try done; [by left|]. exists [], [], []. split_and!; try done. by left. Qed.

Lemma cursor_after_wf seen :
  in_u64 device → in_u64 inode → blen seen ≤ u64_max → cursor_wf (cursor_after seen).
Proof.
  intros Hd Hi Hs. pose proof (blen_nonneg seen). split_and!; cbn;
    first [done | apply sha256_length | unfold in_u64, u64_max in *; lia].
Qed.

(** A completed turn is no longer under way. *)
Lemma completed_not_active v active event active' :
  apply_rollout_value v active = Ok (Some event, active') → active' = None.
Proof.
  unfold apply_rollout_value. intros Ha. repeat (case_match; try discriminate Ha); run_ok Ha; done.
Qed.

Lemma lines_of_extend since lines line :
  lines_of [] since = (lines, []) → 10 ∉ line → lines_of [] (since ++ line ++ [10]) = (lines ++ [line], []).
Proof. intros Hs Hl. by rewrite lines_of_app, Hs, lines_of_feed. Qed.

Lemma store_inv_line line r r' :
  in_u64 device → in_u64 inode → 10 ∉ line → store_inv r → replay_line line r = Ok r' →
  blen (rp_seen r') ≤ u64_max → store_inv r'.
Proof.
  intros Hd Hi Hline [Hv Hc Hs (seen & since & lines & Hsn & Hcp & Eseen & Hlines & Hreplay)] Hr Hlen.
  pose proof (replay_line_seen _ _ _ _ _ _ _ _ Hr) as Eseen'. pose proof Hr as Hr0. unfold RolloutReplay.replay_line in Hr.
  destruct (line_value line) as [v|] eqn:Ev; cbn [rbind] in Hr; [|done].
  destruct (apply_rollout_value v (rp_active r)) as [[event active']|] eqn:Ea; cbn [rbind fst snd] in Hr; [|done].
  assert (last (rp_seen r ++ line ++ [10]) = Some 10) as Hlast by (by rewrite app_assoc, last_snoc).
  destruct event as [[id pack]|].
  - destruct (ra_commit_rollout_completion _ _ _ _ _ _) as [[o st']|] eqn:Ec; [|done]. injection Hr as <-.
    apply completed_not_active in Ea as ->. cbn [rp_seen] in *.
    apply ra_commit_cursor in Ec as [Hv' Hc']; [|done | by apply cursor_after_wf].
    split; cbn [rp_seen rp_cursor rp_store rp_completions]; try done; [by right|].
    exists (rp_seen r ++ line ++ [10]), [], []. split_and!; try done; [by right | by rewrite app_nil_r].
  - injection Hr as <-. split; cbn [rp_seen rp_cursor rp_store rp_completions]; try done; [by right|].
    exists seen, (since ++ line ++ [10]), (lines ++ [line]). split_and!; try done.
    + by rewrite Eseen, <- app_assoc.
    + by apply lines_of_extend.
    + rewrite replay_app, Hreplay. cbn [rbind RolloutReplay.replay]. by rewrite Hr0.
Qed.

Lemma store_inv_replay part more r r' part' :
  in_u64 device → in_u64 inode → 10 ∉ part → store_inv r → replay_from part more r = Ok (r', part') →
  blen (rp_seen r ++ part ++ more) ≤ u64_max → store_inv r'.
Proof.
  intros Hd Hi. revert part r. induction more as [|x more IH]; intros part r Hp Hs Hr Hlen.
  - apply replay_from_plain in Hr as (-> & _); [done | apply not_elem_of_nil].
  - destruct (Z.eqb_spec x 10) as [->|Hx].
    + apply replay_from_feed in Hr as (r1 & Hr1 & Hr). pose proof (replay_line_seen _ _ _ _ _ _ _ _ Hr1) as Eseen.
      assert (rp_seen r ++ part ++ 10 :: more = rp_seen r1 ++ more) as Eb by (rewrite Eseen, <- !app_assoc; done).
      rewrite Eb, blen_app in Hlen. pose proof (blen_nonneg more).
      apply (IH [] r1); [apply not_elem_of_nil | eapply store_inv_line; eauto; lia | done |].
      cbn [app]. by rewrite blen_app.
    + apply (IH (part ++ [x]) r).
      * rewrite not_elem_of_app, list_elem_of_singleton. split; [done | congruence].
      * done.
      * unfold RolloutReplay.replay_from in *. cbn [lines_of] in Hr. by replace (x =? 10) with false in Hr by lia.
      * by rewrite <- app_assoc.
Qed.

(** Reading a partial line again, or all the lines since the last commit. *)
Lemma replay_again part more r : 10 ∉ part → replay_from [] (part ++ more) r = replay_from part more r.
Proof. intros Hp. unfold RolloutReplay.replay_from. by rewrite lines_of_again. Qed.

Lemma replay_since since lines more rc r :
  lines_of [] since = (lines, []) → replay lines rc = Ok r → replay_from [] (since ++ more) rc = replay_from [] more r.
Proof.
  intros Hl Hr. unfold RolloutReplay.replay_from. rewrite lines_of_app, Hl. cbn [fst snd]. by rewrite replay_app, Hr.
Qed.

(** The part of a line that need not be read again: it is in the parser. *)
Definition kept (streaming : option StreamingLine) (part : bytes) : bytes :=
  match streaming with Some _ => part | None => [] end.

(** A scan kept for the next poll. *)
Record pending_ok (bs part : bytes) r (scan : PendingScan) : Prop := {
  pk_scan : scan_inv task device inode 1 bs (rp_cursor r) scan;
  pk_active : ps_active scan = rp_active r;
  pk_line : line_inv (rp_seen r) (kept (ps_streaming_line scan) part) scan [] (blen (rp_seen r))
              (ps_streaming_line scan);
  pk_offset : ps_offset scan = blen (rp_seen r ++ (kept (ps_streaming_line scan) part));
  pk_anchor : ps_anchor scan = anchor bs (ps_offset scan);
}.

(** What holds when [bs] was polled: the reference has read [rp_seen r] and [part]. *)
Record tail_inv (bs part : bytes) r pd : Prop := {
  tl_file : bs = rp_seen r ++ part;
  tl_part : 10 ∉ part;
  tl_store : store_inv r;
  tl_pending : ∀ scan, pd !! tk_task_id task = Some scan → pending_ok bs part r scan;
}.

Lemma anchor_app (b more : bytes) off : 0 ≤ off ≤ blen b → anchor (b ++ more) off = anchor b off.
Proof. intros Ho. unfold anchor. by rewrite range_prefix by (unfold ROLLOUT_ANCHOR_BYTES; lia). Qed.

Lemma scan_inv_app (b more : bytes) cursor scan :
  scan_inv task device inode 1 b cursor scan → scan_inv task device inode 1 (b ++ more) cursor scan.
Proof.
  intros [? ? ? ? ? ? [Ho Ha Hl Hb Hp]]. split; try done. split; try done.
  - rewrite anchor_app; [done | lia].
  - rewrite blen_app. pose proof (blen_nonneg more). lia.
  - by rewrite range_prefix by lia.
Qed.

Lemma option_cursor_eqb_refl c : option_cursor_eqb c c = true.
Proof.
  destruct c as [c|]; [|done]. cbn [option_cursor_eqb]. unfold cursor_eqb, path_eqb.
  by rewrite !Z.eqb_refl, !bool_decide_eq_true_2.
Qed.

(** ** One poll *)

Section poll.
Context (bs : bytes) (size : Z).
Hypothesis small_file : 2 * blen bs < MAX_SCAN_BYTES_PER_POLL.
Notation world := (still bs device inode).
Notation rollout := (rollout_of device inode size).
Notation loop_inv := (loop_inv task device inode 1 bs).

(** After the loop: what is kept suffices to go on. *)
Lemma gives_finish_poll base l r part pd :
  loop_inv base l r part [] → ln_incomplete l = negb (bool_decide (part = [])) →
  ∃ pd', gives (finish_poll world rollout task l) (rp_store r) pd (ln_completions l) (rp_store r) pd'
    ∧ ∀ scan, pd' !! tk_task_id task = Some scan → pd !! tk_task_id task = Some scan ∨ pending_ok bs part r scan.
Proof.
  intros Hl Hi. pose proof (loop_offset _ _ _ _ _ _ _ _ _ _ Hl) as [Ho Hend]. rewrite blen_nil in Hend.
  pose proof (lp_scan _ _ _ _ _ _ _ _ _ _ Hl) as Hscan. destruct (lp_line _ _ _ _ _ _ _ _ _ _ Hl) as [Hstart Ht Hpart Hkept].
  set (offset := match ln_incomplete l, ln_streaming l with true, None => ln_line_start l | _, _ => ln_offset l end).
  assert (offset = blen (rp_seen r ++ kept (ln_streaming l) part)) as Eoff.
  { unfold offset, kept. rewrite Hi. destruct (ln_streaming l).
    - case_match; apply (lp_offset _ _ _ _ _ _ _ _ _ _ Hl).
    - rewrite app_nil_r. destruct (decide (part = [])) as [->|Hne].
      + rewrite bool_decide_eq_true_2 by done. cbn [negb]. rewrite (lp_offset _ _ _ _ _ _ _ _ _ _ Hl). by rewrite app_nil_r.
      + by rewrite bool_decide_eq_false_2. }
  assert (0 ≤ offset ≤ blen bs) as Hoff.
  { unfold offset. pose proof (blen_nonneg (rp_seen r)). repeat case_match; try lia. rewrite Hstart.
    rewrite (lp_file _ _ _ _ _ _ _ _ _ _ Hl), blen_app. pose proof (blen_nonneg (part ++ [])). lia. }
  set (scan' := scan_reading (ln_active l) (ln_streaming l) (scan_at offset (anchor bs offset) (ln_scan l))).
  assert (pending_ok bs part r scan') as Hok.
  { split; cbn [scan' scan_reading scan_at ps_active ps_streaming_line ps_offset ps_anchor]; try done.
    - destruct Hscan as [?????? []]. by repeat split.
    - apply (lp_active _ _ _ _ _ _ _ _ _ _ Hl).
    - destruct (ln_streaming l) as [s|]; cbn [kept].
      + destruct Hkept as (? & ? & ? & ? & ?). split; try done. split_and!; try done. congruence.
      + destruct Hkept as (? & ? & ?). split; [done | done | apply not_elem_of_nil|]. split_and!; try done. }
  unfold finish_poll. fold offset. cbv zeta.
  match goal with |- context [if ?b then obind _ _ else _] => destruct b end.
  - exists (<[tk_task_id task := scan']> pd). split.
    + eapply gives_after; [apply reads_verify_path_identity|]. 
      eapply gives_after; [apply reads_validate_trusted_range; [done | apply Hscan]|].
      eapply gives_after; [by apply reads_anchor_at|]. eapply gives_bind; [apply gives_insert_pending|]. apply gives_ret.
    + intros scan. rewrite lookup_insert_eq. intros [= <-]. by right.
  - exists pd. split; [|by left].
    eapply gives_after; [apply reads_verify_path_identity|]. apply gives_ret.
Qed.

(** A scan that is kept, or a fresh one, starts the loop in its invariant. *)
Lemma start_loop_inv part rest r scan :
  pending_ok bs part r scan → bs = rp_seen r ++ kept (ps_streaming_line scan) part ++ rest →
  loop_inv (rp_completions r) (start_loop scan 0 []) r (kept (ps_streaming_line scan) part) rest.
Proof.
  intros [[? ? ? ? ? ? [Ht0 ? ? ? ?]] Hact [Hstart Ht Hp Hk] Hoff Ha] Hb.
  assert (blen (rp_seen r) ≤ ps_offset scan ∧ 0 ≤ ps_offset scan ≤ blen bs) as [Hle Hofs].
  { rewrite Hoff. rewrite Hb at 1. rewrite app_assoc, (blen_app _ rest), (blen_app (rp_seen r)).
    pose proof (blen_nonneg (rp_seen r)). pose proof (blen_nonneg (kept (ps_streaming_line scan) part)).
    pose proof (blen_nonneg rest). lia. }
  assert ((match ps_streaming_line scan with Some s => sl_start_offset s | None => ps_offset scan end) = blen (rp_seen r)) as Es.
  { destruct (ps_streaming_line scan) as [s|]; [by destruct Hk as (_ & _ & -> & _)|]. rewrite Hoff. cbn [kept].
    by rewrite app_nil_r. }
  split; cbn [start_loop ln_scan ln_line ln_line_start ln_streaming ln_offset ln_reader ln_active ln_completions ln_scanned];
    try done.
  - rewrite Es. destruct (ps_streaming_line scan) as [s|]; by split.
  - split; [cbn; lia|]. cbn. by rewrite range_empty.
  - by rewrite app_nil_r.
  - cbn [scan_reading ps_trusted_offset]. lia.
Qed.

Lemma gives_scan_from part rest r scan r' part' pd :
  pending_ok bs part r scan → bs = rp_seen r ++ kept (ps_streaming_line scan) part ++ rest →
  replay_from (kept (ps_streaming_line scan) part) rest r = Ok (r', part') →
  ∃ cs pd', gives (scan_from world binding rollout task scan) (rp_store r) pd cs (rp_store r') pd'
    ∧ rp_completions r' = rp_completions r ++ cs
    ∧ bs = rp_seen r' ++ part' ∧ 10 ∉ part'
    ∧ ∀ scan, pd' !! tk_task_id task = Some scan → pd !! tk_task_id task = Some scan ∨ pending_ok bs part' r' scan.
Proof.
  intros Hp Hb Hr. pose proof (start_loop_inv _ _ _ _ Hp Hb) as Hl.
  edestruct (gives_read_loop binding task device inode 1 bs size small_file (rp_completions r)
    (Z.to_nat (MAX_SCAN_BYTES_PER_POLL - 0)) (start_loop scan 0 [])) as (l' & Hg & Hl' & Hi);
    [exact Hl | | reflexivity | exact Hr |].
  { cbn [start_loop ln_scanned]. rewrite Z2Nat.id; [lia|]. unfold MAX_SCAN_BYTES_PER_POLL. lia. }
  destruct (gives_finish_poll _ l' r' part' pd Hl' Hi) as (pd' & Hf & Hpd).
  exists (ln_completions l'), pd'. split_and!; [|apply (lp_completions _ _ _ _ _ _ _ _ _ _ Hl')| | |done].
  - unfold scan_from. eapply gives_after.
    { unfold resume_verification. rewrite (si_verification _ _ _ _ _ _ _ (pk_scan _ _ _ _ Hp)). apply reads_ret. }
    eapply gives_bind; [exact Hg | exact Hf].
  - rewrite (lp_file _ _ _ _ _ _ _ _ _ _ Hl'), app_nil_r at 1. done.
  - apply (li_part _ _ _ _ _ _ (lp_line _ _ _ _ _ _ _ _ _ _ Hl')).
Qed.

(** The kept scan passes every check of the next poll. *)
Lemma reads_reusable part rest r scan :
  size = blen bs → pending_ok bs part r scan → bs = rp_seen r ++ kept (ps_streaming_line scan) part ++ rest →
  rp_seen r = [] ∨ last (rp_seen r) = Some 10 →
  reads (S := S) (reusable world rollout task (rp_cursor r) scan) true.
Proof.
  intros Hsize [[He Hp Hd Hi _ Hv Ht] _ _ Hoff Ha] Hb Hseen.
  assert (0 ≤ ps_offset scan ≤ blen bs) as Hofs.
  { rewrite Hoff. rewrite Hb at 1. rewrite app_assoc, (blen_app _ rest). pose proof (blen_nonneg rest).
    pose proof (blen_nonneg (rp_seen r ++ kept (ps_streaming_line scan) part)). lia. }
  unfold reusable. rewrite He, Hp, Hd, Hi, Hv. cbn [gr_device gr_inode gr_size rollout_of].
  rewrite (option_cursor_eqb_refl (rp_cursor r)), !Z.eqb_refl, (bool_decide_eq_true_2 _ eq_refl : path_eqb _ _ = true).
  replace (ps_offset scan <=? size) with true by lia. cbn [andb].
  eapply reads_bind.
  { destruct (ps_streaming_line scan) as [s|]; cbn [orb]; [apply reads_ret|].
    eapply reads_succeeds. rewrite Hoff. cbn [kept]. rewrite app_nil_r.
    apply (reads_validate_line_boundary bs device inode (rp_seen r) rest); [exact Hb | done]. }
  eapply reads_bind; [by apply reads_anchor_at|]. rewrite Ha, bool_decide_eq_true_2 by done.
  eapply reads_succeeds. by apply reads_validate_trusted_range.
Qed.

(** Without a kept scan, the store's cursor says where to start. *)
Lemma reads_fresh_scan seen rest cursor store completions :
  size = blen bs → bs = seen ++ rest → seen = [] ∨ last seen = Some 10 →
  match cursor with None => seen = [] | Some c => c = cursor_after seen end →
  ∃ scan, reads (S := S) (fresh_scan world rollout task cursor) scan
    ∧ pending_ok bs [] (mk_replay seen None cursor store completions) scan.
Proof.
  intros Hsize Hb Hseen Hc.
  assert (0 ≤ blen seen ≤ blen bs) as Hlen.
  { rewrite Hb, blen_app. pose proof (blen_nonneg seen). pose proof (blen_nonneg rest). lia. }
  set (scan0 := mk_scan cursor (tk_rollout_path task) device inode 1 (blen seen) (anchor bs (blen seen)) (blen seen)
                  (anchor bs (blen seen)) 0 (sha256 []) [] None None None).
  exists (trusted_from bs (blen seen) scan0). split.
  - unfold fresh_scan. eapply reads_bind; [|eapply reads_bind; [|]].
    + instantiate (1 := match cursor with Some _ => true | None => false end).
      destruct cursor as [c|]; [|apply reads_ret]. subst c. cbn [RolloutReplay.cursor_after rc_rollout_path rc_device rc_inode rc_offset
        gr_device gr_inode gr_size rollout_of]. rewrite !Z.eqb_refl, (bool_decide_eq_true_2 _ eq_refl : path_eqb _ _ = true).
      replace (blen seen <=? size) with true by lia. cbn [andb].
      eapply reads_bind; [eapply reads_succeeds; by eapply reads_validate_line_boundary|].
      eapply reads_bind; [by apply reads_anchor_at|]. rewrite (anchor_after task device inode 1 bs small_file seen rest Hb).
      cbn [rc_anchor]. rewrite bool_decide_eq_true_2 by done. apply reads_ret.
    + instantiate (1 := (blen seen, 1)). destruct cursor as [c|]; [by subst c; apply reads_ret|]. subst seen. apply reads_ret.
    + cbv beta iota. eapply reads_bind; [by apply reads_anchor_at|]. eapply reads_bind; [by apply reads_anchor_at|].
      by apply reads_trust_from.
  - split; cbn; try done; [| |by rewrite app_nil_r].
    + split; try done. by apply trusted_from_ok.
    + split; cbn; try done; [lia | apply not_elem_of_nil|]. split_and!; [done | by vm_compute|].
      symmetry. apply drop_ge. unfold blen. lia.
Qed.

End poll.

(** Where a poll starts to read: what lies behind can be replayed from there. *)
Lemma reads_choose_scan bs part r pd ext r' part' :
  tail_inv bs part r pd → 2 * blen (bs ++ ext) < MAX_SCAN_BYTES_PER_POLL → replay_from part ext r = Ok (r', part') →
  ∃ scan part0 r0 rest,
    reads (S := S) (choose_scan (still (bs ++ ext) device inode) (rollout_of device inode (blen (bs ++ ext))) task
             (rp_cursor r) (pd !! tk_task_id task)) scan
    ∧ pending_ok (bs ++ ext) part0 r0 scan ∧ bs ++ ext = rp_seen r0 ++ kept (ps_streaming_line scan) part0 ++ rest
    ∧ rp_store r0 = rp_store r ∧ rp_completions r0 = rp_completions r
    ∧ replay_from (kept (ps_streaming_line scan) part0) rest r0 = Ok (r', part').
Proof.
  intros [Hfile Hpart [_ _ Hseen (seen & since & lines & Hsn & Hcp & Eseen & Hlines & Hreplay)] Hpend] Hsmall Hr.
  destruct (pd !! tk_task_id task) as [scan|] eqn:Epd.
  - specialize (Hpend scan eq_refl). destruct Hpend as [Hscan Hact Hline Hoff Ha].
    assert (blen (rp_seen r ++ kept (ps_streaming_line scan) part) ≤ blen bs) as Hle.
    { rewrite Hfile, !blen_app. pose proof (blen_nonneg part). destruct (ps_streaming_line scan); cbn [kept]; [lia|].
      rewrite blen_nil. lia. }
    assert (pending_ok (bs ++ ext) part r scan) as Hok.
    { split; try done; [by apply scan_inv_app|]. rewrite Ha. symmetry. apply anchor_app. rewrite Hoff.
      split; [apply blen_nonneg | done]. }
    exists scan, part, r, (match ps_streaming_line scan with Some _ => ext | None => part ++ ext end).
    assert (bs ++ ext = rp_seen r ++ kept (ps_streaming_line scan) part
      ++ match ps_streaming_line scan with Some _ => ext | None => part ++ ext end) as Hb.
    { rewrite Hfile, <- app_assoc. by destruct (ps_streaming_line scan). }
    split_and!; try done.
    + eapply reads_bind; [eapply reads_bind; [by eapply reads_reusable|]; apply reads_ret|]. apply reads_ret.
    + unfold kept. destruct (ps_streaming_line scan); [done|]. by rewrite replay_again.
  - assert (bs ++ ext = seen ++ since ++ part ++ ext) as Hb by (by rewrite Hfile, Eseen, <- !app_assoc).
    destruct (reads_fresh_scan (bs ++ ext) _ Hsmall seen (since ++ part ++ ext) (rp_cursor r) (rp_store r)
      (rp_completions r) eq_refl Hb Hsn Hcp) as (scan & Hg & Hok).
    assert (kept (ps_streaming_line scan) [] = []) as Ek by (by destruct (ps_streaming_line scan)).
    eexists scan, [], _, (since ++ part ++ ext). rewrite Ek. split_and!; [|exact Hok|done..|].
    + eapply reads_bind; [apply reads_ret | exact Hg].
    + rewrite (replay_since _ _ _ _ _ Hlines Hreplay). by rewrite replay_again.
Qed.

(** One poll of the file after [ext] was appended. *)
Lemma gives_poll bs part r pd ext r' part' :
  uuid_ok (tk_task_id task) = true → path_ok (tk_rollout_path task) = true → in_u64 device → in_u64 inode →
  tail_inv bs part r pd → session_ok (tk_task_id task) (bs ++ ext) → 2 * blen (bs ++ ext) < MAX_SCAN_BYTES_PER_POLL →
  replay_from part ext r = Ok (r', part') →
  ∃ cs pd', gives (poll_task_with (still (bs ++ ext) device inode) task binding) (rp_store r) pd cs (rp_store r') pd'
    ∧ rp_completions r' = rp_completions r ++ cs ∧ tail_inv (bs ++ ext) part' r' pd'.
Proof.
  intros Hid Hpath Hd Hi Htail Hsession Hsmall Hr.
  destruct (reads_choose_scan _ _ _ _ _ _ _ Htail Hsmall Hr)
    as (scan & part0 & r0 & rest & Hg & Hok & Hf & Hst & Hcs & Hr0). destruct Htail as [Hfile Hpart Hstore _].
  assert (store_inv r') as Hstore'.
  { eapply store_inv_replay; eauto. rewrite app_assoc, <- Hfile. unfold MAX_SCAN_BYTES_PER_POLL in Hsmall.
    unfold u64_max. lia. }
  destruct (gives_scan_from (bs ++ ext) (blen (bs ++ ext)) Hsmall part0 rest r0 scan r' part' (delete (tk_task_id task) pd)
    Hok Hf Hr0) as (cs & pd' & Hscan & Hcs' & Hfile' & Hpart' & Hpd).
  exists cs, pd'. split_and!; [|congruence|split; [done..|]].
  - unfold poll_task_with. eapply gives_after; [by apply reads_require|].
    eapply gives_after.
    { eapply reads_bind; [by apply reads_require|]. eapply reads_bind; [apply reads_look|]. cbn. apply reads_ret. }
    eapply gives_after; [by apply reads_validate_session_meta|].
    eapply gives_bind; [apply gives_stored_cursor, (sv_cursor _ Hstore)|].
    eapply gives_bind; [apply gives_remove_pending|]. eapply gives_after; [exact Hg|].
    by rewrite <- Hst.
  - intros scan' Hs. apply Hpd in Hs as [Hs|]; [|done]. by rewrite lookup_delete_eq in Hs.
Qed.

(** ** Polls of a growing file *)

(** A restarted observer has lost what it kept between polls. *)
Definition forget : Obs S unit := λ m, (Ok tt, mk_mach (mc_store m) ∅ (mc_clock m)).

(** The appends the polls see, each with whether the observer was restarted before. *)
Fixpoint follow (file : bytes) (steps : list (bytes * bool)) : Obs S (list ObservedCompletion) :=
  match steps with
  | [] => oret []
  | (more, restarted) :: steps =>
      let file := file ++ more in
      let* _ := if restarted then forget else oret tt in
      let* cs := poll_task_with (still file device inode) task binding in
      let* later := follow file steps in
      oret (cs ++ later)
  end.

Definition final_file (file : bytes) (steps : list (bytes * bool)) : bytes := file ++ mjoin (fst <$> steps).

Lemma tail_inv_forget bs part r pd : tail_inv bs part r pd → tail_inv bs part r ∅.
Proof. by intros [? ? ? _]. Qed.

Lemma gives_follow steps bs part r pd r' part' :
  uuid_ok (tk_task_id task) = true → path_ok (tk_rollout_path task) = true → in_u64 device → in_u64 inode →
  tail_inv bs part r pd →
  (∀ more restarted steps', steps = (more, restarted) :: steps' → session_ok (tk_task_id task) (bs ++ more)) →
  2 * blen (final_file bs steps) < MAX_SCAN_BYTES_PER_POLL →
  replay_from part (mjoin (fst <$> steps)) r = Ok (r', part') →
  ∃ cs pd', gives (follow bs steps) (rp_store r) pd cs (rp_store r') pd' ∧ rp_completions r' = rp_completions r ++ cs.
Proof.
  intros Hid Hpath Hd Hi. revert bs part r pd. induction steps as [|[more restarted] steps IH];
    intros bs part r pd Htail Hsession Hsmall Hr.
  - apply replay_from_plain in Hr as (-> & _); [|apply not_elem_of_nil]. exists [], pd.
    split; [apply gives_ret | by rewrite app_nil_r].
  - cbn [fmap list_fmap fst] in Hr. change (mjoin (more :: ?l)) with (more ++ mjoin l) in Hr.
    apply replay_from_app in Hr as (r1 & part1 & Hr1 & Hr).
    assert (final_file bs ((more, restarted) :: steps) = final_file (bs ++ more) steps) as Ef
      by (unfold final_file; cbn; by rewrite <- app_assoc).
    rewrite Ef in Hsmall. set (pd0 := if restarted then ∅ else pd).
    assert (tail_inv bs part r pd0) as Htail0 by (destruct restarted; [by eapply tail_inv_forget | done]).
    destruct (gives_poll bs part r pd0 more r1 part1) as (cs & pd1 & Hg & Hcs & Htail1); try done.
    + by eapply Hsession.
    + unfold final_file in Hsmall. rewrite blen_app in Hsmall. pose proof (blen_nonneg (mjoin (fst <$> steps))). lia.
    + destruct (IH (bs ++ more) part1 r1 pd1 Htail1) as (later & pd' & Hg' & Hcs'); [|done..|].
      { intros more' restarted' steps' _. by apply session_ok_app, (Hsession more restarted steps). }
      exists (cs ++ later), pd'. split; [|by rewrite Hcs', Hcs, app_assoc].
      cbn [follow]. eapply gives_bind; [|eapply gives_bind; [exact Hg|]; eapply gives_bind; [exact Hg'|]; apply gives_ret].
      unfold pd0. destruct restarted; [intros c; by exists c | apply gives_ret].
Qed.

(** C25 (equivalence, [poll_task_with]): following a rollout records what reading it once
    would.  However the file was cut into appends (within lines, within characters), and
    whenever the observer was restarted in between, the polls return in order exactly the
    completions of [replay_file] of the final file, and leave the same store, with the same
    cursor.  In particular every poll succeeds.  This is for a task that starts with no
    cursor in the store and no kept scan, and for rollouts
    - below 2 MiB, so that no poll runs out of its 4 MiB and a poll always reaches the end of
      the file: reading one turn over several polls is not covered;
    - whose first append holds the whole session_meta line;
    - whose complete lines are all accepted, in that [replay_file] succeeds;
    - that do not change while a poll runs. *)
Theorem following_equals_one_replay steps store pd r :
  uuid_ok (tk_task_id task) = true → path_ok (tk_rollout_path task) = true → in_u64 device → in_u64 inode →
  ra_valid store → ra_rollout_cursor (tk_task_id task) store = Ok None → pd !! tk_task_id task = None →
  (∃ more restarted steps', steps = (more, restarted) :: steps' ∧ session_ok (tk_task_id task) more) →
  2 * blen (mjoin (fst <$> steps)) < MAX_SCAN_BYTES_PER_POLL →
  replay_file binding task device inode 1 (mjoin (fst <$> steps)) store = Ok r →
  ∀ clock, ∃ m, follow [] steps (mk_mach store pd clock) = (Ok (rp_completions r), m)
    ∧ mc_store m = rp_store r ∧ ra_rollout_cursor (tk_task_id task) (mc_store m) = Ok (rp_cursor r).
Proof.
  intros Hid Hpath Hd Hi Hvalid Hnone Hpd (more & restarted & steps' & Esteps & Hsession) Hsmall Hr clock.
  unfold replay_file in Hr. set (r0 := mk_replay [] None None store []) in *.
  destruct (replay_from _ _ r0) as [[r' part]|] eqn:Er; cbn [rbind fst] in Hr; [|done]. injection Hr as <-.
  assert (tail_inv [] [] r0 pd) as Htail.
  { split; [done | apply not_elem_of_nil | by apply store_inv_start|]. intros scan. by rewrite Hpd. }
  destruct (gives_follow steps [] [] r0 pd r' part) as (cs & pd' & Hg & Hcs); try done.
  { intros more' restarted' l ->. by injection Esteps as -> -> ->. }
  destruct (Hg clock) as [c E]. exists (mk_mach (rp_store r') pd' c). cbn [mc_store]. cbn in Hcs. subst cs. split_and!; [done..|].
  eapply sv_cursor, (store_inv_replay [] _ r0); try done; [apply not_elem_of_nil | by apply store_inv_start|].
  cbn. unfold MAX_SCAN_BYTES_PER_POLL in Hsmall. unfold u64_max. lia.
Qed.

End tail.
