(* ===== verification/RolloutDemo.v ===== *)
(** * A small rollout: the concrete inputs of the witnesses

    [compact] prints a value the way [serde_json] does when its strings are plain ASCII;
    its output is a JSON text of the value, which gives concrete texts for the parser. *)

From stdpp Require Import gmap.
From S2P Require Import Prelude Bytes StrOps StoreTypes Redact TurnPack TurnProps.
From S2P Require Import RecordParser RecordCapture RedactProps RecordLexing.
From S2P Require Import RecordAutomaton RecordEquiv StoreRollout StoreSystem.
From S2P Require Import StoreProps RolloutScan RolloutReplay RolloutLoop RolloutTail.

Section records.

(** A third-party JSON crate for the witnesses: it knows the literals, and prints a pack as
    its turn id. *)
Definition demo_serde : Serde := {|
  json_from_slice := λ b,
    if bool_decide (b = ascii_bytes "null") then Some JNull
    else if bool_decide (b = ascii_bytes "true") then Some (JBool true)
    else if forallb is_digit b && (1 <=? length b)%nat then Some (JNumber b)
    else None;
  turn_pack_to_string := λ p, Some (tp_turn_id p);
|}.
#[local] Existing Instance demo_serde.
#[local] Existing Instance demo_externals.

Definition plain_byte (b : Z) : bool := between 32 126 b && negb (b =? 34) && negb (b =? 92).
Definition quoted (s : text) : bytes := 34 :: s ++ [34].

(** Elements with commas between them and a closing byte. *)
Definition separated {A} (print : A → bytes) (close : Z) : list A → bytes :=
  fix go l :=
    match l with
    | [] => [close]
    | x :: l => print x ++ match l with [] => [close] | _ => 44 :: go l end
    end.

Fixpoint compact (v : json) : bytes :=
  match v with
  | JNull => ascii_bytes "null"
  | JBool _ => ascii_bytes "true"
  | JNumber n => n
  | JString s => quoted s
  | JArray items => 91 :: separated compact 93 items
  | JObject fields => 123 :: separated (λ f, quoted f.1 ++ 58 :: compact f.2) 125 fields
  end.

(** Values of plain strings, arrays and objects. *)
Fixpoint plain (v : json) : bool :=
  match v with
  | JNull => true
  | JString s => forallb plain_byte s
  | JArray items => forallb plain items
  | JObject fields => forallb (λ f, forallb plain_byte f.1 && plain f.2) fields
  | _ => false
  end.

Lemma quoted_text s : forallb plain_byte s = true → string_text s (quoted s).
Proof.
  intros Hs. exists ((λ b, [b]) <$> s), s. split_and!; [| |done].
  - induction s as [|b s IH]; [done|]. cbn [forallb] in Hs. apply andb_prop in Hs as [_ Hs]. change (b :: s = [b] ++ mjoin ((λ b, [b]) <$> s)). by rewrite <- IH.
  - induction s as [|b s IH]; [constructor|]. cbn [forallb] in Hs. apply andb_prop in Hs as [Hb Hs].
    cbn [fmap list_fmap]. change (b :: s) with ([b] ++ s). unfold plain_byte, between in Hb.
    constructor; [cbn; unfold between; lia | cbn; lia | by apply IH].
Qed.

Lemma no_white : white_text [].
Proof. constructor. Qed.

Lemma compact_items_text first v items :
  Forall (λ v, plain v = true → value_text v (compact v)) (v :: items) → forallb plain (v :: items) = true →
  items_text first (v :: items) (separated compact 93 (v :: items)).
Proof.
  revert first v. induction items as [|v' items IH]; intros first v Hi Hp; apply Forall_cons in Hi as [Hv Hi];
    cbn [forallb] in Hp; apply andb_prop in Hp as [Hpv Hp].
  - apply (it_last first [] v (compact v) []); auto using no_white.
  - apply (it_more first [] v (compact v) [] (v' :: items)); auto using no_white.
Qed.

Lemma compact_fields_text first f fields :
  Forall (λ f, plain f.2 = true → value_text f.2 (compact f.2)) (f :: fields) →
  forallb (λ f, forallb plain_byte f.1 && plain f.2) (f :: fields) = true →
  fields_text first (f :: fields) (separated (λ f, quoted f.1 ++ 58 :: compact f.2) 125 (f :: fields)).
Proof.
  revert first f. induction fields as [|f' fields IH]; intros first [k v] Hi Hp; apply Forall_cons in Hi as [Hv Hi];
    cbn [forallb] in Hp; apply andb_prop in Hp as [Hpv Hp]; cbn [fst snd] in *; apply andb_prop in Hpv as [Hk Hpv].
  - pose proof (ft_last first [] k (quoted k) [] [] v (compact v) [] no_white (quoted_text k Hk) no_white no_white
      (Hv Hpv) no_white) as Ht. cbn [app] in Ht. cbn [separated fst snd]. rewrite <- app_assoc. exact Ht.
  - pose proof (ft_more first [] k (quoted k) [] [] v (compact v) [] (f' :: fields) _ no_white (quoted_text k Hk)
      no_white no_white (Hv Hpv) no_white (IH false f' Hi Hp)) as Ht. cbn [app] in Ht.
    change (separated ?p 125 ((k, v) :: f' :: fields)) with (p (k, v) ++ 44 :: separated p 125 (f' :: fields)).
    cbn [fst snd]. rewrite <- app_assoc. exact Ht.
Qed.

Lemma compact_text_of v : plain v = true → value_text v (compact v).
Proof.
  induction v as [| | |s|items Hi|fields Hf] using json_nested_ind; intros Hp; cbn [plain] in Hp; try discriminate Hp.
  - apply (vt_atom JNull); try done; [by apply Nat.leb_le | repeat constructor].
  - apply vt_string. by apply quoted_text.
  - apply vt_array. destruct items as [|v items]; [apply (it_empty []), no_white|]. by apply compact_items_text.
  - apply vt_object. destruct fields as [|f fields]; [apply (ft_empty []), no_white|]. by apply compact_fields_text.
Qed.

Lemma compact_record fields : plain (JObject fields) = true → record_text fields (compact (JObject fields)).
Proof.
  intros Hp. exists [], (compact (JObject fields)), []. split_and!; try apply no_white; [by apply compact_text_of|].
  by rewrite app_nil_r.
Qed.

(** ** Witnesses *)

Definition str (s : string) : json := JString (key s).
Definition obj (l : list (string * json)) : json := JObject ((λ f, (key f.1, f.2)) <$> l).
Definition demo_turn : string := "019fa972-5cfa-75e1-9008-0b17ade9a348".

(** A message of the user, as Codex writes it. *)
Definition demo_message : list (text * json) :=
  (λ f : string * json, (key f.1, f.2)) <$>
  [("type", str "response_item");
   ("payload", obj [("type", str "message"); ("role", str "user"); ("extra", JArray [JNull; obj []]);
                    ("content", JArray [obj [("type", str "input_text"); ("text", str "run the tests")]]);
                    ("metadata", obj [("turn_id", str demo_turn)])])]%string.

Definition demo_builder : TurnBuilder := new_builder (key demo_turn).

Definition demo_streamed : result Fault json := rbind (feed (compact (JObject demo_message)) new_parser) finish_record.

Lemma streamed_record_equals_parsed_line_witness :
  ∃ v', demo_streamed = Ok v' ∧ lossless demo_message = true
    ∧ apply_rollout_value v' (Some demo_builder) = apply_rollout_value (JObject demo_message) (Some demo_builder)
    ∧ apply_rollout_value v' (Some demo_builder)
      = Ok (None, Some (mk_builder (key demo_turn) [key "run the tests"] [] [] ∅)).
Proof.
  eexists. split; [by vm_compute|]. split; [by vm_compute|]. split; [|by vm_compute].
  apply (streamed_record_equals_parsed_line demo_message (compact (JObject demo_message))).
  - apply compact_record. by vm_compute.
  - by vm_compute.
  - by vm_compute.
Defined.

Lemma automaton_refines_visit_witness :
  record_text demo_message (compact (JObject demo_message))
  ∧ rbind (feed_pieces [take 20 (compact (JObject demo_message)); drop 20 (compact (JObject demo_message))] new_parser)
      finish_record = let? r := visit_record demo_message in Ok (into_value r).
Proof.
  split; [by apply compact_record; vm_compute|].
  apply automaton_refines_visit. rewrite !mjoin_cons, app_nil_r, take_drop.
  apply compact_record. by vm_compute.
Defined.

Lemma redact_panics_after_wide_character_witness :
  redact_embedded_paths (utf8_demo ++ utf8_demo ++ ascii_bytes "https" ++ ascii_bytes "://" ++ ascii_bytes "example.org")
  = Err Panic.
Proof.
  apply (redact_panics_after_wide_character utf8_demo utf8_demo (ascii_bytes "https") (ascii_bytes "example.org")).
  - by apply utf8_of_char.
  - by repeat constructor.
  - done.
  - by apply Nat.leb_le.
  - by repeat constructor.
Defined.

Lemma turn_stays_bounded_witness :
  ∃ value active', apply_rollout_value value (Some demo_builder) = Ok (None, active') ∧ active_wf active'.
Proof.
  exists (JObject demo_message), (Some (mk_builder (key demo_turn) [key "run the tests"] [] [] ∅)).
  split; [by vm_compute|].
  pose proof (turn_stays_bounded (JObject demo_message) (Some demo_builder) (new_builder_wf _)) as Ht.
  assert (apply_rollout_value (JObject demo_message) (Some demo_builder)
    = Ok (None, Some (mk_builder (key demo_turn) [key "run the tests"] [] [] ∅))) as E by by vm_compute.
  rewrite E in Ht. exact Ht.
Defined.

End records.

(** * A rollout followed while it grows: the concrete input of the witness

    Three lines, cut in the middle of the second one, with a restart of the observer before
    the last append. *)

Section following.

Definition follow_lines : list json :=
  [obj [("type", str "session_meta"); ("payload", obj [("id", str "task")])];
   obj [("type", str "event_msg"); ("payload", obj [("type", str "task_started"); ("turn_id", str "turn-1")])];
   obj [("type", str "event_msg"); ("payload", obj [("type", str "task_complete"); ("turn_id", str "turn-1");
                                                    ("last_agent_message", str "done")])]]%string.

(** A parser that knows the lines of the demonstration. *)
Definition follow_serde : Serde := {|
  json_from_slice := λ b, snd <$> list_find (λ v, compact v = b) follow_lines;
  turn_pack_to_string := λ p, Some (ascii_bytes "{}");
|}.
#[local] Existing Instance follow_serde.
#[local] Existing Instance demo_externals.
#[local] Existing Instance demo_crypto.
#[local] Instance follow_store : RolloutStateAccess Db := store_access 10.

Definition follow_task : ObservedTask := mk_task demo_task (ascii_bytes "/home/r.jsonl").
Definition follow_text : bytes := mjoin ((λ v, compact v ++ [10]) <$> follow_lines).
Definition follow_steps : list (bytes * bool) :=
  [(take 100 follow_text, false); (take 60 (drop 100 follow_text), false); (drop 160 follow_text, true)].

Definition follow_replayed : result Fault (Replay Db) :=
  replay_file None follow_task 1 2 1 follow_text empty_db.
Definition follow_result : Replay Db :=
  match follow_replayed with Ok r => r | Err _ => mk_replay [] None None empty_db [] end.

Lemma follow_replays : follow_replayed = Ok follow_result.
Proof. vm_compute. reflexivity. Qed.

Lemma follow_inserted : rp_completions follow_result = [mk_observed (ascii_bytes "turn-1") CompletionInserted].
Proof. vm_compute. reflexivity. Qed.

Lemma follow_session : session_ok demo_task (take 100 follow_text).
Proof.
  exists (compact (hd JNull follow_lines)), (drop (S (length (compact (hd JNull follow_lines)))) (take 100 follow_text)),
    (hd JNull follow_lines).
  split_and!; [|apply (bool_decide_eq_true_1 (10 ∉ _))|..]; vm_compute; reflexivity.
Qed.

Lemma following_equals_one_replay_witness :
  ∃ m, follow None follow_task 1 2 [] follow_steps (mk_mach empty_db ∅ 0)
       = (Ok [mk_observed (ascii_bytes "turn-1") CompletionInserted], m)
    ∧ length (db_completions (mc_store m)) = 1%nat.
Proof.
  destruct (following_equals_one_replay None follow_task 1 2 follow_steps empty_db ∅ follow_result) with (clock := O)
    as (m & E & Es & _).
  - reflexivity.
  - reflexivity.
  - vm_compute. split; discriminate.
  - vm_compute. split; discriminate.
  - exact schema_empty.
  - reflexivity.
  - reflexivity.
  - eexists _, _, _. split; [reflexivity | exact follow_session].
  - vm_compute. reflexivity.
  - exact follow_replays.
  - exists m. rewrite E, Es, follow_inserted. split; [reflexivity | vm_compute; reflexivity].
Defined.

End following.
